(* ===== verification/_CoqProject ===== *)
-Q . S2P
Prelude.v
GoStrings.v
GoAny.v
GoTime.v
Transport.v
QueueSpec.v
Inprocess.v
QueueSteps.v
RedisQueue.v
RedisSteps.v
Completion.v
Store.v
StoreSpec.v
StoreOps.v
StoreSearch.v
StoreSteps.v
StoreSafety.v
StoreThreads.v
Controls.v
Governance.v
GovernanceSteps.v
JsonNumber.v
Predicates.v
Surrogates.v
PolicyArgs.v
Base64.v
Auth.v
AuthSessions.v
AuthProps.v
AuthProviders.v
Policy.v
PolicyProps.v
Approvals.v
ApprovalProps.v
McpRequest.v
Connector.v
ConnectorProps.v
FinOps.v
Admission.v
ApprovalWitnesses.v
Broker.v
Stream.v
Bridge.v
Programs.v
PoolOwned.v
RedisBroker.v
Payload.v
Reclaim.v
Nats.v
NatsSteps.v
NatsProps.v
NatsBroker.v
Kafka.v
KafkaProps.v
Namespaces.v
Items.v
Pages.v
Catalog.v
Snapshots.v
Mongo.v
MongoProps.v
SqlLocks.v
SqlSessions.v
SqlSessionsProps.v
RateLimit.v
Lifecycle.v
Cancel.v
StoreLifecycle.v
CreateRun.v
CreateRunProps.v
Cron.v
CronProps.v
LifecycleWitnesses.v
Usage.v
Hooks.v
FinishRun.v
ThreadHandlers.v
Retention.v
Migrate.v
MigrateProps.v
