(* ===== verification/Prelude.v ===== *)
(** * Verification of the Runkite control plane

    Runkite runs agent workloads: a control plane (Go, [src/cmd] and
    [src/internal]) accepts runs over HTTP, stores them in a SQL store, hands
    them to runners through a job queue and a gRPC bridge, streams the runners'
    events back to clients, and decides what runs and tools are allowed and
    affordable.  Runners crash, answers get lost, jobs are reclaimed and
    dispatched again under a higher generation; the code's central promise is
    that each run has exactly one durable outcome all the same.

    ** Parts and files

    - Foundations.  [Prelude] (results, machine integers, maps, lists,
      automation), [GoStrings] (Go's [strings] package), [GoAny] (interface
      values, float64, integer parsing), [GoTime] (instants stored as text).
    - Transport contract ([internal/transport/types.go], [poison.go]):
      [Transport] holds assignments, events, the user context's wire form, and
      the job queue as the type class [JobQueue] with the laws [JobQueueOk].
    - In-process transport ([internal/transport/inprocess/inprocess.go]):
      [Inprocess] (type [Queue], every method, and the instance of
      [JobQueueOk]), [QueueSteps] (interleaved callers), [Broker] (types
      [Broker] and [CancelBus], and their interleavings).
    - Redis job queue ([internal/transport/redis/redis.go], type [Queue]):
      [RedisQueue] (every method and Lua script on the state kept in Redis, and
      its instance of [JobQueueOk]), [RedisSteps] (scripts of several control
      planes interleaved, and runs of them).  Both queues are shown to simulate
      [QueueSpec], an abstract specification in terms of job tokens.  Its event
      broker and cancel bus: [RedisBroker] (streams, tailing goroutines and their
      channels, key expiry); [Reclaim] ([cmd/reclaim.go]: the
      script that elects the reaping replica).
    - NATS and Kafka job queues ([internal/transport/nats], [kafka]): their
      methods send several commands each, so they are programs in the sense of
      [Programs], a tree of commands with a logic for many of them interleaved.
      [Nats] (over JetStream and its key-value buckets as classes with laws),
      [NatsSteps] (interleavings), [NatsProps] (the instance of [JobQueueOk],
      an implementation of the classes, and runs); [Kafka] (job
      topics, the compacted state topic and each replica's view of it),
      [KafkaProps].  [NatsBroker]: the event
      broker and cancel bus over JetStream.  [PoolOwned] holds what pools of
      interleaved programs share.
    - Durable state: [Completion] ([internal/state/completion.go], the
      generation fence), [Store] ([internal/state/sqlcompletion]: the completion
      transaction, one function per SQL statement), [StoreSpec] (its atomic
      specification and the refinement), [StoreOps] ([internal/state/sqlite],
      [admission.go], [cached_run.go], [run_checkpoint.go]: every statement that
      writes runs, threads and checkpoints), [StoreSearch] (run search),
      [StoreSteps], [StoreSafety],
      [StoreThreads] (histories of calls).
    - MongoDB store ([internal/state/mongo]: [completion.go], [run_checkpoint.go],
      [thread_ownership.go], [admission_create.go] and their statements in
      [mongo.go]): [Snapshots] (snapshot isolation: a transaction reads the state
      it began in and commits if no document it wrote has changed since),
      [Mongo], [MongoProps] (completion, admission, histories).
    - PostgreSQL and MySQL ([internal/state/postgres], [internal/state/mysql], on
      the shared driver): [SqlLocks] (run creation under advisory
      locks and [GET_LOCK], several sessions a statement at a time), [SqlSessions]
      (dispatch, completion, creation and claims as programs over SQL statements,
      with row locks, private writes and the isolation of plain reads),
      [SqlSessionsProps] (they are serializable, and what follows).
    - Schema migrations ([internal/state/migrate], the migrations of
      [internal/state/sqlite]): [Migrate], [MigrateProps].
    - Key-value items ([internal/state/sqlite/sqlite.go], [numeric_filter.go],
      [internal/api/store.go]): [Namespaces] (their texts and LIKE patterns),
      [Items].
    - Agents and registry entries ([sqlite.go], [internal/api/registry.go], the
      two admin lists of [admin.go], [internal/pagecursor]): [Pages] (cursors and
      keyset pages), [Catalog].
    - Rate limits ([internal/ratelimit]): [RateLimit].
    - Threads and checkpoints over HTTP ([internal/api/threads.go],
      [checkpoints.go]): [ThreadHandlers].
    - Retention ([cmd/retention.go], [cmd/run_timeout.go] and the prune statements):
      [Retention].
    - Run lifecycle ([internal/api/completion.go], [timeout.go],
      [status_transition.go]): [Lifecycle], over the type class [RunStore];
      [StoreLifecycle] proves that the SQL store is an instance of its laws;
      [LifecycleWitnesses] runs both together.
    - Cancellation ([internal/api/runs.go]: [cancelRunCore], [cancelRunSingle],
      [cascadeCancelDescendants] and the lineage of delegated runs;
      [internal/api/admin_kill.go]: [drainKillScope]): [Cancel], over [RunStore]
      and the type class [Completer], which the lifecycle implements;
      [LifecycleWitnesses] runs it on the SQL store.
    - Run creation ([internal/api/runs.go]: [createRunCtx] and what it calls,
      [alias.go], [admission_limits.go]): [CreateRun], over the SQL store of
      [StoreOps]; [CreateRunProps].
    - Scheduled runs ([cmd/cron.go], the cron tables of
      [internal/state/sqlite/sqlite.go]): [Cron] (the scheduler's loop for one
      schedule, and its pieces), [CronProps] (the pieces interleaved by several
      replicas).
    - Authentication ([internal/auth], [internal/bridge/interceptors.go]):
      [Base64], [Auth] (permissions, runner tokens, run binding, the middleware,
      logging in), over the class [SessionStore]; [AuthSessions] (its two
      implementations and the laws both satisfy), [AuthProps];
      [AuthProviders] (JWT and webhook providers, the cache of
      decisions, login attempts).
    - Run admission ([internal/api/admission.go], the budget checks of
      [usage.go], [internal/hooks/gate.go]):
      [Admission].
    - Operator controls ([internal/state/sqlite]: [kill.go], [break_glass.go],
      audit rows): [Controls].
    - Human approvals: [Governance] (the [pending_actions] table of
      [internal/state/sqlite/governance.go]), [GovernanceSteps] (its statements
      interleaved), [Approvals] (the handlers in [internal/api] that gate a tool
      call and decide it), [ApprovalProps], [ApprovalWitnesses].
    - Tool arguments ([internal/policy/args.go], [internal/jsonvalue/unique.go]):
      [Surrogates], [PolicyArgs].
    - Connectors ([internal/connector]): [McpRequest] (the request parser),
      [Connector] (circuit breaker, tokens, sessions, the MCP proxy, the
      capability store), [ConnectorProps].
    - Runner bridge ([internal/bridge/server.go], [cmd/reclaim.go]'s dead-letter
      step): [Bridge], over [JobQueue].
    - Client streams ([internal/api/run_events.go]): [Stream], the replay-and-
      tail loop over an abstract server.
    - Exact JSON numbers ([internal/jsonvalue]): [JsonNumber].
    - Policy ([internal/policy]): [Predicates] (argument predicates, JSON
      equality), [Policy] (grants, overlays, mandatory approval, webhook, engine
      and cache), [PolicyProps].
    - Budgets ([internal/finops]): [FinOps]; [Usage] (the usage ledger,
      holds, billing at the end of a run: [internal/state/sqlite/usage.go],
      [holds.go], [internal/api/usage.go], [budget_kill.go]).
    - Hooks ([internal/hooks]): [Hooks] (the bounded dispatcher and its workers,
      delivery, dead letters); [FinishRun] ([finishRun] in
      [internal/api/server.go]: the terminal webhook, claimed once across replicas).
    - Payload shrinking ([internal/payloadshrink]): [Payload].

    ** How code becomes definitions

    A Go function is a Rocq function of the same name; a method takes its
    receiver as an argument and returns the new one.  A result [(T, error)] is
    [res E T] or an [option].  Maps are stdpp's [gmap], slices are lists, int64
    is [Z] with [wrap64] where arithmetic can wrap, float64 is the executable
    IEEE model of the Standard Library, JSON documents are [GoAny.any].  Shared
    mutable objects are explicit: channels live in a heap of channel ids, a
    database is its tables.  A critical section is one step; what happens between
    critical sections is interleaved by a list of operations.  Failures are
    inputs: a SQL statement fails when the schedule says so, a commit may fail or
    succeed with its acknowledgement lost, a [select] takes an oracle for the case
    that fires, a blocked call returns [None].  Code outside the repository (HTTP,
    the LRU library, a webhook's server) is a parameter.

    ** What the theorems show

    - One durable outcome.  [complete_refines]: the completion transaction is
      atomic under every failure.  [completion_at_most_once],
      [superseded_completion_refused], [superseded_checkpoint_fenced],
      [completed_run_frozen], [completion_retry] hold after every history of
      store calls; [accepted_is_durable], [accepted_is_finalized],
      [attempt_keeps_delivered_outcome], [reclaimed_run_is_terminal] and
      [outcome_is_final] lift this to the server's lifecycle against the
      [RunStore] laws, which [sql_store_ok] discharges.
    - Cancellation.  [lease_released_after_commit] (nothing is let go before the
      interruption is durable), [cancel_settles_run], [cascade_cancels_descendants]
      (the walk ends, reaches exactly the delegated runs, and leaves each over or
      reports an error), [cascade_settles],
      [drain_settles], [delegation_keeps_lineage].
    - Leases.  [ack_accepted_once], [superseded_is_fenced],
      [canceled_never_dispatched], [Dequeue_fifo], [ReclaimStale_outcome] for the
      in-process queue; [redis_queue_ok], [redis_ack_accepted_once],
      [redis_superseded_is_fenced], [redis_canceled_never_dispatched],
      [sweep_recovers_stale] and [drain_recovers_pending] (nothing is lost for
      good when a dispatcher crashes) for the Redis queue; [nats_queue_ok] and
      [nats_job_not_lost] for NATS, [kafka_crash_safe] for Kafka;
      [report_ack_after_commit], [getjob_delivers_fenced],
      [stream_events_fenced], [one_cancel_subscription_per_run] for the bridge,
      for every lawful queue.
    - MongoDB.  [mongo_completion_at_most_once], [mongo_checkpoint_fenced] and
      [mongo_admission_ceiling] over every history of snapshot-isolated
      transactions: what a transaction reads is not locked, so each rests on a
      document it writes.
    - PostgreSQL and MySQL.  [sql_serializable]: statements that interleave leave the
      tables of the calls made one at a time; alone, a call is the shared driver's
      ([serial_begin], [serial_complete]), so what is proved of histories holds there
      too, [sql_completion_once] first.  [locked_admission_ceiling] for creations.
    - Schema.  [upgrade_converges], [migrations_contiguous],
      [sqlite_schema_roundtrip].
    - Items and catalogue.  [put_item_readable], [search_items_exact],
      [items_well_typed], [items_tenant_isolated], [namespace_roundtrip],
      [suffix_pattern_exact]; [registry_refines_history] (the two tables implement
      a history of contents per name), [admin_registry_walk_complete] (following
      the cursors ends and visits every entry once), [key_cursor_roundtrip].
    - Rate limits.  [token_bucket_bound], in exact arithmetic.
    - Threads and checkpoints.  [checkpoint_put_conditional], [checkpoint_put_get],
      [etag_roundtrip], [update_state_appends]; [retention_sweep_safe],
      [retention_config_sane], [timeout_config_sane].
    - The end of a run.  [terminal_hook_accounted], [usage_billed_once],
      [reserved_until_billed], [admitted_below_token_cap], [hooks_accounted],
      [hooks_close_drains].
    - Stashed tool results.  [stub_is_retrievable], [payload_isolated],
      [colon_id_reads_other_run] (where isolation ends), [payload_within_quota],
      [preview_whole_runes], [parsed_settings_valid],
      [retrieve_tool_injected].
    - Streams.  [subscriber_stream] and [cancel_subscription_contract] for the
      broker and the cancel bus under every interleaving, panics excluded;
      [redis_subscriber_stream], [redis_cancel_genuine], [nats_replay_exact],
      [nats_subscriber_stream], [nats_cancel_genuine] for those of Redis and NATS;
      [reclaim_leader_exclusive] (two replicas never reap within one lease);
      [stream_order] (against a log of what the server had said by then) and
      [replay_then_tail] for what a client is shown.
    - Tenancy and admission.  [tenant_isolation], [admission_ceiling],
      [completion_thread_effect], [versioned_update_not_lost].
    - Creating runs.  [created_run_owns_thread] (what a created run leaves
      behind), [failed_creation_leaves_nothing] (also when the rollback's
      neighbours fail), [lost_claim_leaves_thread_busy] (what a lost reply does to
      that), [retry_finds_run]; [admitted_is_permitted] (a run admitted
      has passed every gate), [retryAfterAdmission_bounds].
    - Scheduling.  [checkSchedule_latest] (a due check ends and picks the latest
      activation), [fire_dispatched_once] (over every interleaving of the
      replicas), [visit_steps] (the loop takes the interleaved steps).
    - Access.  [internal_call_is_bound] (a runner's call acts for the lease it
      holds and nothing else), [admin_surface_guarded],
      [client_call_is_permitted], [intercepted_kind_is_proven],
      [empty_token_refused], [logged_out_stays_out], [idle_session_refused],
      [webhook_cache_exact], [webhook_denies_by_default], [jwt_from_claims],
      [login_answers_own],
      [identity_header_roundtrip].
    - Approvals.  [forwarded_is_authorized] (a held call that proceeds has an
      approval of its own or a break-glass window), [approval_authorizes_once]
      and [one_open_approval_per_call] over every interleaving,
      [held_call_proceeds] (an approved call does get through),
      [break_glass_bounded]; [digest_binds_value] (equal digests mean equal
      arguments), [DecodeUnique_total], [validSurrogates_paired],
      [redaction_hides_secrets].
    - Connectors.  [forwarded_tool_is_allowed] (whatever document is sent, no
      reading of it calls a tool the filter refuses), [one_reading],
      [capability_bounded], [session_hides_credentials].
    - Policy and money.  [allow_is_justified] (what an allowed call rests on, after
      any history of the engine), [overlays_win], [cache_transparent] (the cache
      reuses webhook replies and nothing else), [failed_exchange_cached],
      [cacheKey_injective], [predicates_deny_wins], the exactness of JSON number
      comparison and canonical forms, [Merge_assoc], [ValidateOverlay_Merge].
    - Some theorems show behaviour the code does not intend:
      [cut_listing_leaves_descendants] (a driver error while a search is read is
      not seen, and the cascade misses runs),
      [stale_allow_after_revocation] (a decision computed under revoked grants is
      cached after the cache was cleared), [dead_letter_keeps_subscription] (a
      run finished by the reaper keeps its cancel subscription),
      [open_breaker_stays_open] (the trial call of a half-open breaker refuses
      itself), [routed_retry_refused] (a retry of a cost-routed run is a conflict),
      [unsatisfiable_schedule_hangs] (an expression no date satisfies stops the
      scheduler), [lost_claim_loses_fire] (a claim whose reply is lost is not
      dispatched), [expired_window_in_force] (an expiry on a whole second lasts
      for all of it), [nats_outage_drops_report] (an outage of the bucket reads as
      a superseded lease), [nats_ack_not_atomic],
      [kafka_failed_record_loses_job], [kafka_requeue_race_loses_job],
      [kafka_renew_resurrects], [kafka_stale_tail_accepts_twice] (what Kafka's
      steps do to each other), [mongo_release_write_skew] (two last completions
      leave the thread busy), [prefix_pattern_overmatches],
      [boolean_filter_reads_text], [refresh_expires_permanent_item],
      [admin_agents_walk_skips] (a cursor that is not unique),
      [slow_rule_is_not_held] and [skewed_replicas_exceed_burst];
      [redis_closes_before_terminal], [nats_send_after_close] (a send on a channel
      that is being closed), [inject_drops_cursor], [hold_outlives_finalized_run],
      [copied_busy_thread_stuck], [latest_of_other_namespace],
      [conflict_reported_as_too_large], [if_match_lenient],
      [lost_claim_silences_hook], [prune_deletes_tip],
      [mysql_long_scope_refused] (lock names longer than MySQL takes),
      [interrupted_start_stuck] (a start that died in the wrong place),
      [login_buckets_reset].

    ** Bounds

    Attempt generations are stored in JSON metadata and read back as float64;
    statements that read one back assume it is below 2^53, where this is exact.
    [Kafka.write_loop] takes 51 attempts, as many as 200 ms pauses leave room for
    before the ten second deadline.  A walk over pages takes one step per page;
    one more than the number of rows is proved to be enough.
    Recursion is structural on the data, the oracle or the schedule: a run that
    is out of oracle entries is blocked ([None]), never wrong.  The cascade's walk
    takes fuel; as many steps as the listing has runs are proved to be enough.
    [checkSchedule] takes one step per activation; the distance to the last check
    is proved to be enough when there are later activations, and no fuel is
    enough when there is none.
    [DecodeUnique] takes twice the number of tokens plus one, proved to be enough
    ([DecodeUnique_total]); scans of bytes and runes take the length of the text.
    [Itoa]'s fuel is the number's bit length plus one, more than it has digits;
    [Fields] takes the length of its text.
    Channel capacities are the source's (1000 jobs, 4096 events).

    ** Conditions

    Some guarantees end where the code's do, and their statements say so: calls on
    the Kafka queue are not interleaved in [kafka_crash_safe]; the rate limit is
    bounded in exact arithmetic on one clock; the isolation of stashed results is
    that of their keys, which name the run only when identifiers hold no colon;
    creations are followed without lost commit replies; policy decisions do not
    overlap administrative changes; a Redis stream that expires is read with gaps;
    an item's expiry follows its TTL only when operations do not overlap; hashes
    are taken to be free of collisions where a theorem names it.

    ** Not modelled

    HTTP and WebSocket framing, the streaming and waiting creation handlers, the
    other list and search pages of the admin endpoints; the statements of PostgreSQL
    and MySQL beyond dispatch, completion, creation and claims (they are the SQLite
    store's in other dialects; a status written without the thread's lock is outside
    [sql_serializable]), their cached creations and migrations; the MongoDB
    collections beyond runs, threads and checkpoints; Kafka topics of several
    partitions; the Redis capability store; vector stores, configuration parsing,
    metrics and tracing; the SQLite tables of vectors.  The JSON codec, the hash
    functions, the token parser, [golang-lru], [golang.org/x/time/rate] and the
    servers a call reaches are parameters. *)

From Stdlib Require Export ZArith Lia.
From stdpp Require Export base tactics list sorting gmap strings option numbers.

#[global] Set Default Proof Using "Type".

(** ** Scopes and notations *)

Declare Scope go_scope.
Delimit Scope go_scope with go.

(** ** Go results

    A Go function that returns [(T, error)] is a function into [res E T]:
    [Ok v] is [(v, nil)], [Err e] is [(zero, e)]. *)

Inductive res (E A : Type) : Type :=
| Ok (a : A)
| Err (e : E).
Arguments Ok {E A} a.
Arguments Err {E A} e.

Definition rbind {E A B} (m : res E A) (k : A → res E B) : res E B :=
  match m with Ok a => k a | Err e => Err e end.

Notation "x <-? m ;; k" := (rbind m (λ x, k))
  (at level 100, m at next level, right associativity) : go_scope.

Lemma rbind_ok {E A B} (m : res E A) (k : A → res E B) b :
  rbind m k = Ok b ↔ ∃ a, m = Ok a ∧ k a = Ok b.
Proof. destruct m; simpl; split; [intros H; eauto|by intros (?&[= ->]&?)|done|by intros (?&?&?)]. Qed.

Lemma rbind_err {E A B} (m : res E A) (k : A → res E B) e :
  rbind m k = Err e ↔ m = Err e ∨ ∃ a, m = Ok a ∧ k a = Err e.
Proof.
  destruct m; simpl; split; [intros H; eauto|intros [|(?&[= ->]&?)]; done|intros [= ->]; by left|].
  intros [[= ->]|(?&?&?)]; done.
Qed.

Definition is_ok {E A} (m : res E A) : bool :=
  match m with Ok _ => true | Err _ => false end.

(** ** Remote commands

    A command sent to a server runs and is answered, or the caller sees an error,
    the command having run ([RLost]) or not ([RDown]). *)

Inductive reply := RFine | RLost | RDown.

Definition attempt {S E A} (e : E) (o : reply) (f : S → S * A) (s : S) : S * res E A :=
  match o with
  | RFine => let (s', a) := f s in (s', Ok a)
  | RLost => ((f s).1, Err e)
  | RDown => (s, Err e)
  end.

Lemma attempt_ok {S E A} (e : E) o (f : S → S * A) s s' a :
  attempt e o f s = (s', Ok a) → f s = (s', a).
Proof. destruct o; simpl; [destruct (f s)|..]; congruence. Qed.

(** The server's state is unchanged, or the command has run. *)
Lemma attempt_state {S E A} (e : E) o (f : S → S * A) s :
  (attempt e o f s).1 = s ∨ (attempt e o f s).1 = (f s).1.
Proof. destruct o; simpl; [destruct (f s)|..]; auto. Qed.

(** ** Machine integers

    An [int64] is a [Z] in [[-2^63, 2^63)]; [wrap64] writes out the
    wrap-around of Go's fixed-width arithmetic. *)

Definition i64_range (z : Z) : Prop := (- 2 ^ 63 ≤ z < 2 ^ 63)%Z.

Definition wrap64 (z : Z) : Z := ((z + 2 ^ 63) `mod` 2 ^ 64 - 2 ^ 63)%Z.

Lemma wrap64_range z : i64_range (wrap64 z).
Proof.
  unfold i64_range, wrap64.
  pose proof (Z.mod_pos_bound (z + 2 ^ 63) (2 ^ 64) ltac:(lia)). lia.
Qed.

Lemma wrap64_id z : i64_range z → wrap64 z = z.
Proof.
  unfold i64_range, wrap64; intros H.
  rewrite Z.mod_small by lia. lia.
Qed.

(** ** Proof automation *)

(** Case analysis on every [match]/[if] scrutinee of the goal or context. *)
Ltac case_all :=
  repeat match goal with
    | H : context [match ?x with _ => _ end] |- _ => destruct x eqn:?; simplify_eq/=
    | |- context [match ?x with _ => _ end] => destruct x eqn:?; simplify_eq/=
    end.

(** Turns boolean tests of the code into propositions. *)
Ltac bool_solve :=
  repeat match goal with
    | H : _ && _ = true |- _ => apply andb_true_iff in H; destruct H
    | H : _ || _ = false |- _ => apply orb_false_iff in H; destruct H
    | H : negb _ = true |- _ => apply negb_true_iff in H
    | H : negb _ = false |- _ => apply negb_false_iff in H
    | H : bool_decide _ = true |- _ => apply bool_decide_eq_true in H
    | H : bool_decide _ = false |- _ => apply bool_decide_eq_false in H
    | H : Z.eqb _ _ = true |- _ => apply Z.eqb_eq in H
    | H : Z.eqb _ _ = false |- _ => apply Z.eqb_neq in H
    | H : Z.ltb _ _ = true |- _ => apply Z.ltb_lt in H
    | H : Z.ltb _ _ = false |- _ => apply Z.ltb_ge in H
    | H : Z.leb _ _ = true |- _ => apply Z.leb_le in H
    | H : Z.leb _ _ = false |- _ => apply Z.leb_gt in H
    end.

Create HintDb runkite.
Create Rewrite HintDb runkite.
#[export] Hint Resolve wrap64_range : runkite.

(** ** Generic lemmas on maps and lists *)

(** The total-map view of a Go map with a default: [m[k]] of a missing key. *)
Definition map_get {V} (d : V) (m : gmap string V) (k : string) : V := default d (m !! k).

Lemma map_get_insert_eq {V} (d : V) m k v : map_get d (<[k:=v]> m) k = v.
Proof. unfold map_get. by rewrite lookup_insert_eq. Qed.

Lemma map_get_insert_ne {V} (d : V) m k k' v :
  k ≠ k' → map_get d (<[k:=v]> m) k' = map_get d m k'.
Proof. intros. unfold map_get. by rewrite lookup_insert_ne. Qed.

Lemma map_get_empty {V} (d : V) k : map_get d ∅ k = d.
Proof. unfold map_get. by rewrite lookup_empty. Qed.

#[export] Hint Rewrite @map_get_insert_eq @map_get_empty : runkite.

(** First element of a list satisfying a boolean test. *)
Fixpoint find_first {A} (p : A → bool) (l : list A) : option A :=
  match l with
  | [] => None
  | x :: l' => if p x then Some x else find_first p l'
  end.

Lemma find_first_Some {A} (p : A → bool) l x :
  find_first p l = Some x → x ∈ l ∧ p x = true.
Proof.
  induction l as [|y l IH]; simpl; [done|].
  destruct (p y) eqn:E; intros; simplify_eq.
  - split; [left|done].
  - destruct (IH H). split; [by right|done].
Qed.

Lemma find_first_None {A} (p : A → bool) l :
  find_first p l = None ↔ ∀ x, x ∈ l → p x = false.
Proof.
  induction l as [|y l IH]; simpl.
  - split; [intros _ x Hx; by apply not_elem_of_nil in Hx|done].
  - destruct (p y) eqn:E.
    + split; [done|]. intros H. specialize (H y ltac:(left)). congruence.
    + rewrite IH. split.
      * intros H x [->|Hx]%elem_of_cons; auto.
      * intros H x Hx. apply H. by right.
Qed.

Lemma find_first_is_Some {A} (p : A → bool) l x :
  x ∈ l → p x = true → is_Some (find_first p l).
Proof.
  intros Hin Hp. destruct (find_first p l) eqn:E; [eauto|].
  rewrite find_first_None in E. rewrite (E _ Hin) in Hp. done.
Qed.

(** ** Segments of a list *)

(** Items [n] to [m-1] of a list. *)
Definition segment {A} (n m : nat) (l : list A) : list A := drop n (take m l).

Lemma segment_app {A} n m (l k : list A) : (m ≤ length l)%nat → segment n m (l ++ k) = segment n m l.
Proof. intros. unfold segment. by rewrite take_app_le. Qed.

Lemma segment_snoc {A} n (l : list A) x :
  (n ≤ length l)%nat → segment n (S (length l)) (l ++ [x]) = (segment n (length l) l ++ [x])%list.
Proof.
  intros. unfold segment. rewrite firstn_all, take_ge by (rewrite length_app; simpl; lia).
  by rewrite drop_app_le.
Qed.

Lemma length_segment {A} n m (l : list A) : (m ≤ length l)%nat → length (segment n m l) = (m - n)%nat.
Proof. intros. unfold segment. rewrite length_drop, length_take. lia. Qed.

Lemma segment_empty {A} n (l : list A) : segment n n l = [].
Proof. unfold segment. apply drop_ge. rewrite length_take. lia. Qed.

(** ** Insertion sort, for ORDER BY and sorted sets *)

Fixpoint insert_by {A} (before : A → A → bool) (a : A) (l : list A) : list A :=
  match l with
  | [] => [a]
  | b :: rest => if before a b then a :: l else b :: insert_by before a rest
  end.

Definition sort_by {A} (before : A → A → bool) (l : list A) : list A := foldr (insert_by before) [] l.

Lemma insert_by_perm {A} (before : A → A → bool) a l : insert_by before a l ≡ₚ a :: l.
Proof.
  induction l as [|b l IH]; simpl; [done|]. destruct (before a b); [done|]. rewrite IH. apply perm_swap.
Qed.

Lemma sort_by_perm {A} (before : A → A → bool) l : sort_by before l ≡ₚ l.
Proof. induction l as [|a l IH]; simpl; [done|]. by rewrite insert_by_perm, IH. Qed.

(** Sorting by a total and transitive order gives a sorted list, and two
    permutations whose elements are told apart by the order sort alike. *)
Section sorted.
Context {A : Type} (before : A → A → bool).
Context (Htot : ∀ a b, before a b = true ∨ before b a = true).
Context (Htrans : ∀ a b c, before a b = true → before b c = true → before a c = true).

Lemma insert_by_sorted a l :
  StronglySorted (λ a b, before a b = true) l → StronglySorted (λ a b, before a b = true) (insert_by before a l).
Proof using Htot Htrans.
  induction 1 as [|b l Hl IH Hb]; simpl; [by repeat constructor|].
  destruct (before a b) eqn:E.
  - repeat constructor; [done..|]. apply list.Forall_forall. intros x Hx. rewrite list.Forall_forall in Hb. eauto.
  - constructor; [done|]. apply list.Forall_forall. intros x Hx.
    rewrite insert_by_perm in Hx. apply elem_of_cons in Hx as [->|Hx].
    + destruct (Htot a b); congruence.
    + rewrite list.Forall_forall in Hb. by apply Hb.
Qed.

Lemma sort_by_sorted l : StronglySorted (λ a b, before a b = true) (sort_by before l).
Proof using Htot Htrans. induction l as [|a l IH]; simpl; [constructor|by apply insert_by_sorted]. Qed.

Lemma sort_by_unique l l' :
  (∀ x y, x ∈ l → y ∈ l' → before x y = true → before y x = true → x = y) →
  sort_by before l = sort_by before l' ↔ l ≡ₚ l'.
Proof using Htot Htrans.
  intros Heq. split; [intros H; by rewrite <- (sort_by_perm before l), H, sort_by_perm|].
  intros Hp. eapply StronglySorted_unique_strong; [|apply sort_by_sorted..|by rewrite !sort_by_perm].
  intros x y Hx Hy. rewrite sort_by_perm in Hx, Hy. auto.
Qed.
End sorted.
