(* ===== verification/GoStrings.v ===== *)
(** * Go's [strings] package, as far as the sources use it

    Go strings are byte strings, as Rocq's [string] is.  [TrimSpace] follows
    [unicode.IsSpace] on UTF-8 encoded runes; [ToLower] is exact on every byte
    string whose image is compared with an ASCII constant, which is the only
    use the modelled code makes of it (the two non-ASCII runes whose lower case
    is ASCII, U+0130 and U+212A, are mapped; other non-ASCII runes stay
    non-ASCII). *)

From S2P Require Import Prelude.
From Stdlib Require Import Ascii String.

Local Open Scope string_scope.
Local Open Scope nat_scope.

(** ** Characters *)

Definition byte_of (c : ascii) : N := N_of_ascii c.

Definition chr (n : N) : ascii := ascii_of_N n.

(** [unicode.IsSpace] by length of the UTF-8 encoding of the rune. *)
Definition space1 (a : ascii) : bool :=
  let n := byte_of a in ((9 <=? n)%N && (n <=? 13)%N) || (n =? 32)%N.

Definition space2 (a b : ascii) : bool :=
  (byte_of a =? 0xC2)%N && ((byte_of b =? 0x85)%N || (byte_of b =? 0xA0)%N).

Definition space3 (a b c : ascii) : bool :=
  let x := byte_of a in let y := byte_of b in let z := byte_of c in
  ((x =? 0xE1) && (y =? 0x9A) && (z =? 0x80))%N
  || ((x =? 0xE2) && (y =? 0x80)
      && (((0x80 <=? z) && (z <=? 0x8A)) || (z =? 0xA8) || (z =? 0xA9) || (z =? 0xAF)))%N
  || ((x =? 0xE2) && (y =? 0x81) && (z =? 0x9F))%N
  || ((x =? 0xE3) && (y =? 0x80) && (z =? 0x80))%N.

Section trim.
Variable s1 : ascii → bool.
Variable s2 : ascii → ascii → bool.
Variable s3 : ascii → ascii → ascii → bool.

  (** Drops the leading space runes of a byte list. *)
Fixpoint drop_space (l : list ascii) : list ascii :=
    match l with
    | [] => []
    | a :: l1 =>
        if s1 a then drop_space l1 else
        match l1 with
        | [] => l
        | b :: l2 =>
            if s2 a b then drop_space l2 else
            match l2 with
            | [] => l
            | c :: l3 => if s3 a b c then drop_space l3 else l
            end
        end
    end.

  (** A list whose first rune is not a space. *)
Definition no_lead (l : list ascii) : Prop := drop_space l = l.

Lemma drop_space_suffix l : ∃ k, drop_space l = drop k l.
  Proof.
    induction l as [l IH] using (induction_ltof1 _ (@List.length _)).
    unfold Wf_nat.ltof in IH. destruct l as [|a [|b [|c l]]]; simpl.
    - by exists 0.
    - destruct (s1 a); [by exists 1|by exists 0].
    - destruct (s1 a). { destruct (IH [b]) as [k Hk]; [simpl; lia|]. exists (S k). exact Hk. }
      destruct (s2 a b); [by exists 2|by exists 0].
    - destruct (s1 a).
      { destruct (IH (b :: c :: l)) as [k Hk]; [simpl; lia|]. exists (S k). exact Hk. }
      destruct (s2 a b).
      { destruct (IH (c :: l)) as [k Hk]; [simpl; lia|]. exists (S (S k)). exact Hk. }
      destruct (s3 a b c); [|by exists 0].
      destruct (IH l) as [k Hk]; [simpl; lia|]. exists (S (S (S k))). exact Hk.
  Qed.

Lemma drop_space_length l : List.length (drop_space l) ≤ List.length l.
  Proof. destruct (drop_space_suffix l) as [k ->]. rewrite length_drop. lia. Qed.

Lemma drop_space_idemp l : drop_space (drop_space l) = drop_space l.
  Proof.
    induction l as [l IH] using (induction_ltof1 _ (@List.length _)).
    unfold Wf_nat.ltof in IH. destruct l as [|a [|b [|c l]]]; simpl; [done| | |].
    - destruct (s1 a) eqn:E1; [done|]. simpl. by rewrite E1.
    - destruct (s1 a) eqn:E1; [exact (IH [b] ltac:(simpl; lia))|].
      destruct (s2 a b) eqn:E2; [done|]. simpl. by rewrite E1, E2.
    - destruct (s1 a) eqn:E1; [exact (IH (b :: c :: l) ltac:(simpl; lia))|].
      destruct (s2 a b) eqn:E2; [exact (IH (c :: l) ltac:(simpl; lia))|].
      destruct (s3 a b c) eqn:E3; [apply IH; simpl; lia|]. simpl. by rewrite E1, E2, E3.
  Qed.

  (** A prefix of a list without leading space has none either. *)
Lemma no_lead_take k l : no_lead l → no_lead (take k l).
  Proof.
    unfold no_lead. intros H.
    destruct l as [|a l]; [by rewrite take_nil|]. destruct k as [|k]; [done|].
    simpl in *.
    destruct (s1 a) eqn:E1.
    { pose proof (drop_space_length l) as Hl. rewrite H in Hl. simpl in Hl. lia. }
    destruct l as [|b l]; [by rewrite take_nil|]. destruct k as [|k]; [done|]. simpl in *.
    destruct (s2 a b) eqn:E2.
    { pose proof (drop_space_length l) as Hl. rewrite H in Hl. simpl in Hl. lia. }
    destruct l as [|c l]; [by rewrite take_nil|]. destruct k as [|k]; [done|]. simpl in *.
    destruct (s3 a b c) eqn:E3; [|done].
    pose proof (drop_space_length l) as Hl. rewrite H in Hl. simpl in Hl. lia.
  Qed.
End trim.

Definition trim_left (l : list ascii) : list ascii := drop_space space1 space2 space3 l.

Definition trim_right (l : list ascii) : list ascii :=
  reverse (drop_space space1 (λ b a, space2 a b) (λ c b a, space3 a b c) (reverse l)).

(** [strings.TrimSpace]. *)
Definition TrimSpace (s : string) : string :=
  string_of_list_ascii (trim_right (trim_left (list_ascii_of_string s))).

Lemma trim_right_take l : ∃ k, trim_right l = take k l.
Proof.
  unfold trim_right.
  destruct (drop_space_suffix space1 (λ b a, space2 a b) (λ c b a, space3 a b c) (reverse l))
    as [k ->].
  exists (List.length l - k). rewrite <- (reverse_involutive l) at 3.
  rewrite take_reverse, length_reverse.
  destruct (decide (k ≤ List.length l)).
  - by replace (List.length l - (List.length l - k)) with k by lia.
  - rewrite !drop_ge; [done|rewrite length_reverse; lia..].
Qed.

Lemma TrimSpace_idemp s : TrimSpace (TrimSpace s) = TrimSpace s.
Proof.
  unfold TrimSpace. rewrite list_ascii_of_string_of_list_ascii. f_equal.
  set (l := list_ascii_of_string s).
  assert (trim_left (trim_right (trim_left l)) = trim_right (trim_left l)) as ->.
  { destruct (trim_right_take (trim_left l)) as [k ->].
    apply no_lead_take. apply drop_space_idemp. }
  unfold trim_right. rewrite reverse_involutive. by rewrite drop_space_idemp.
Qed.

#[export] Hint Rewrite TrimSpace_idemp : runkite.

(** ** Case mapping *)

Definition lower1 (a : ascii) : ascii :=
  let n := byte_of a in
  if ((65 <=? n)%N && (n <=? 90)%N) then chr (n + 32) else a.

Fixpoint lower_list (l : list ascii) : list ascii :=
  match l with
  | [] => []
  | a :: l1 =>
      match l1 with
      | b :: l2 =>
          if ((byte_of a =? 0xC4)%N && (byte_of b =? 0xB0)%N) then "i"%char :: lower_list l2 else
          match l2 with
          | c :: l3 =>
              if ((byte_of a =? 0xE2)%N && (byte_of b =? 0x84)%N && (byte_of c =? 0xAA)%N)
              then "k"%char :: lower_list l3
              else lower1 a :: lower_list l1
          | [] => lower1 a :: lower_list l1
          end
      | [] => [lower1 a]
      end
  end.

(** [strings.ToLower], read against ASCII constants. *)
Definition ToLower (s : string) : string :=
  string_of_list_ascii (lower_list (list_ascii_of_string s)).

(** ** Prefixes, suffixes and searches *)

Fixpoint HasPrefix (s p : string) {struct p} : bool :=
  match p, s with
  | EmptyString, _ => true
  | String a p', String b s' => Ascii.eqb a b && HasPrefix s' p'
  | String _ _, EmptyString => false
  end.

Fixpoint str_drop (n : nat) (s : string) : string :=
  match n, s with
  | O, _ => s
  | S n', String _ s' => str_drop n' s'
  | S _, EmptyString => EmptyString
  end.

Fixpoint str_take (n : nat) (s : string) : string :=
  match n, s with
  | O, _ => EmptyString
  | S n', String a s' => String a (str_take n' s')
  | S _, EmptyString => EmptyString
  end.

Definition HasSuffix (s p : string) : bool :=
  (String.length p <=? String.length s)
  && String.eqb (str_drop (String.length s - String.length p) s) p.

Definition TrimPrefix (s p : string) : string :=
  if HasPrefix s p then str_drop (String.length p) s else s.

Definition TrimSuffix (s p : string) : string :=
  if HasSuffix s p then str_take (String.length s - String.length p) s else s.

(** [strings.IndexByte]: [None] is -1. *)
Fixpoint IndexByte (s : string) (c : ascii) : option nat :=
  match s with
  | EmptyString => None
  | String a s' => if Ascii.eqb a c then Some 0 else S <$> IndexByte s' c
  end.

(** [strings.LastIndexByte] / [strings.LastIndex] of a one-byte needle. *)
Fixpoint LastIndexByte (s : string) (c : ascii) : option nat :=
  match s with
  | EmptyString => None
  | String a s' =>
      match LastIndexByte s' c with
      | Some i => Some (S i)
      | None => if Ascii.eqb a c then Some 0 else None
      end
  end.

(** [strings.Contains]. *)
Fixpoint Contains (s sub : string) : bool :=
  HasPrefix s sub
  || match s with EmptyString => false | String _ s' => Contains s' sub end.

(** [strings.Split] on a one-byte separator. *)
Fixpoint Split (s : string) (sep : ascii) : list string :=
  match s with
  | EmptyString => [EmptyString]
  | String a s' =>
      if Ascii.eqb a sep then EmptyString :: Split s' sep
      else match Split s' sep with
           | [] => [String a EmptyString]
           | w :: ws => String a w :: ws
           end
  end.

(** ** Lemmas *)

Lemma HasPrefix_spec s p : HasPrefix s p = true ↔ ∃ r, s = p +:+ r.
Proof.
  revert s. induction p as [|a p IH]; intros s; simpl.
  - split; [by exists s|done].
  - destruct s as [|b s]; simpl.
    + split; [done|]. intros [r ?]; done.
    + rewrite andb_true_iff, Ascii.eqb_eq, IH. split.
      * intros [-> [r ->]]. by exists r.
      * intros [r [= -> ->]]. split; [done|]. by exists r.
Qed.

Lemma str_app_cons a s t : String a s +:+ t = String a (s +:+ t).
Proof. reflexivity. Qed.

Lemma str_app_nil_l s : "" +:+ s = s.
Proof. reflexivity. Qed.

Lemma str_drop_app p r : str_drop (String.length p) (p +:+ r) = r.
Proof. induction p as [|a p IH]; [by destruct r|]. rewrite str_app_cons. exact IH. Qed.

Lemma str_take_drop n s : str_take n s +:+ str_drop n s = s.
Proof.
  revert s. induction n as [|n IH]; intros [|a s]; try done.
  simpl. rewrite str_app_cons. by rewrite IH.
Qed.

Lemma str_take_app p r : str_take (String.length p) (p +:+ r) = p.
Proof.
  induction p as [|a p IH]; [by destruct r|].
  rewrite str_app_cons. simpl. by rewrite IH.
Qed.

Lemma str_app_length a b : String.length (a +:+ b) = String.length a + String.length b.
Proof. induction a as [|c a IH]; [done|]. rewrite str_app_cons. simpl. by rewrite IH. Qed.

Lemma str_app_nil_r s : s +:+ "" = s.
Proof. induction s as [|a s IH]; [done|]. rewrite str_app_cons. by rewrite IH. Qed.

Lemma str_app_assoc a b c : a +:+ (b +:+ c) = (a +:+ b) +:+ c.
Proof. induction a as [|x a IH]; [done|]. rewrite !str_app_cons. by rewrite IH. Qed.

Lemma str_app_inj_l a b c : a +:+ b = a +:+ c → b = c.
Proof. induction a as [|x a IH]; [done|]. rewrite !str_app_cons. intros [= H]. auto. Qed.

Lemma HasSuffix_spec s p : HasSuffix s p = true ↔ ∃ r, s = r +:+ p.
Proof.
  unfold HasSuffix. rewrite andb_true_iff, Nat.leb_le, String.eqb_eq. split.
  - intros [Hl H]. exists (str_take (String.length s - String.length p) s).
    rewrite <- H at 2. symmetry. apply str_take_drop.
  - intros [r ->]. rewrite str_app_length. split; [lia|].
    replace (String.length r + String.length p - String.length p) with (String.length r) by lia.
    apply str_drop_app.
Qed.

(** [String.concat "." ] of a [Split] gives the string back. *)
Lemma Split_nonempty s sep : Split s sep ≠ [].
Proof. destruct s as [|a s]; simpl; [done|]. destruct (Ascii.eqb a sep); [done|]. by case_match. Qed.

(** The bytes of a string. *)
Notation bytes := list_ascii_of_string.

Lemma bytes_app a b : bytes (a +:+ b) = (bytes a ++ bytes b)%list.
Proof. induction a as [|c a IH]; [done|]. rewrite str_app_cons. simpl. by rewrite IH. Qed.

Lemma bytes_inj a b : bytes a = bytes b → a = b.
Proof. intros H. by rewrite <- (string_of_list_ascii_of_string a), H, string_of_list_ascii_of_string. Qed.
