(* ===== verification/GoAny.v ===== *)
(** * Go [interface{}] values, float64 and integer parsing

    [any] is a Go [interface{}] holding a decoded JSON document: a number is a
    [json.Number] token, an [int64]/[int] or a [float64] depending on who made
    it.  [float64] is IEEE binary64 through the Standard Library's executable
    [spec_float] (53-bit precision, emax 1024).  A nested Go map is an
    association list. *)

From S2P Require Import Prelude.
From Stdlib Require Import Ascii String SpecFloat.
Local Open Scope string_scope.
Local Open Scope Z_scope.

Definition float64 := spec_float.

Inductive any :=
| ANil
| ABool (b : bool)
| ANumber (tok : string)
| AInt64 (z : Z)
| AInt (z : Z)
| AFloat (f : float64)
| AStr (s : string)
| AArr (l : list any)
| AMap (m : list (string * any)).

(** ** float64 *)

Definition f64_prec : Z := 53.
Definition f64_emax : Z := 1024.

Definition f64_add := SFadd f64_prec f64_emax.
Definition f64_sub := SFsub f64_prec f64_emax.
Definition f64_mul := SFmul f64_prec f64_emax.
Definition f64_div := SFdiv f64_prec f64_emax.

(** [float64(z)]: round to nearest, ties to even. *)
Definition f64_of_Z (z : Z) : float64 := binary_normalize f64_prec f64_emax z 0 false.

Definition f64_zero : float64 := S754_zero false.

(** Go's [<], [<=], [>], [>=], [==] on float64: false on NaN. *)
Definition f64_lt (a b : float64) : bool := SFltb a b.
Definition f64_le (a b : float64) : bool := SFleb a b.
Definition f64_gt (a b : float64) : bool := SFltb b a.
Definition f64_ge (a b : float64) : bool := SFleb b a.
Definition f64_eq (a b : float64) : bool := SFeqb a b.

Definition f64_is_nan (f : float64) : bool :=
  match f with S754_nan => true | _ => false end.
Definition f64_is_inf (f : float64) : bool :=
  match f with S754_infinity _ => true | _ => false end.

(** The integer part, rounded toward zero. *)
Definition f64_trunc (f : float64) : option Z :=
  match f with
  | S754_zero _ => Some 0
  | S754_finite s m e =>
      let v := if 0 <=? e then Z.pos m * 2 ^ e else Z.pos m / 2 ^ (- e) in
      Some (if s then - v else v)
  | _ => None
  end.

(** [int64(f)]; out of range it is the value amd64 gives. *)
Definition f64_to_int64 (f : float64) : Z :=
  match f64_trunc f with
  | Some z => if (- 2 ^ 63 <=? z) && (z <? 2 ^ 63) then z else - 2 ^ 63
  | None => - 2 ^ 63
  end.

(** ** Decimal integers *)

Definition digit_val (c : ascii) : option Z :=
  let n := Z.of_N (N_of_ascii c) in
  if (48 <=? n) && (n <=? 57) then Some (n - 48) else None.

Definition digit_chr (d : Z) : ascii := ascii_of_N (Z.to_N (d + 48)).

Fixpoint digits_acc (acc : Z) (s : string) : option Z :=
  match s with
  | EmptyString => Some acc
  | String c s' =>
      match digit_val c with
      | Some d => digits_acc (10 * acc + d) s'
      | None => None
      end
  end.

(** A non-empty string of digits. *)
Definition parse_digits (s : string) : option Z :=
  match s with
  | EmptyString => None
  | _ => digits_acc 0 s
  end.

(** [v, _ := strconv.ParseInt(s, 10, 64)]: 0 on a syntax error, the nearest
    bound when out of range. *)
Definition ParseInt64 (s : string) : Z :=
  let clamp z := Z.max (- 2 ^ 63) (Z.min (2 ^ 63 - 1) z) in
  match s with
  | String "-" s' => match parse_digits s' with Some z => clamp (- z) | None => 0 end
  | String "+" s' => match parse_digits s' with Some z => clamp z | None => 0 end
  | _ => match parse_digits s with Some z => clamp z | None => 0 end
  end.

(** ** Integers below 2^53 survive a trip through float64 *)

Lemma digits2_pos_size m : Z.pos (digits2_pos m) = Z.log2 (Z.pos m) + 1.
Proof.
  induction m as [m IH|m IH|]; simpl digits2_pos; rewrite ?Pos2Z.inj_succ, ?IH.
  - rewrite Pos2Z.inj_xI, Z.log2_succ_double by lia. lia.
  - rewrite Pos2Z.inj_xO, Z.log2_double by lia. lia.
  - done.
Qed.

Lemma iter_xO m d : Z.pos (Pos.iter xO m d) = Z.pos m * 2 ^ Z.pos d.
Proof.
  induction d as [|d IH] using Pos.peano_ind; [simpl; lia|].
  rewrite Pos.iter_succ, Pos2Z.inj_succ, Z.pow_succ_r by lia.
  rewrite Pos2Z.inj_xO, IH. lia.
Qed.

Lemma log2_below m : Z.pos m < 2 ^ 53 → Z.log2 (Z.pos m) < 53.
Proof. intros. apply Z.log2_lt_pow2; lia. Qed.

(** Rounding a mantissa that already has its exponent does nothing. *)
Lemma round_aux_exact s m e :
  fexp f64_prec f64_emax (Z.pos (digits2_pos m) + e) = e → e ≤ f64_emax - f64_prec →
  binary_round_aux f64_prec f64_emax s (Z.pos m) e loc_Exact = S754_finite s m e.
Proof.
  intros He Hle. unfold binary_round_aux, shr_fexp. simpl Zdigits2. rewrite He, Z.sub_diag. simpl.
  rewrite He, Z.sub_diag. simpl. unfold f64_prec, f64_emax in *.
  by rewrite (proj2 (Z.leb_le _ _)) by lia.
Qed.

Lemma fexp_small n : - 1000 ≤ n - 53 → fexp f64_prec f64_emax n = n - 53.
Proof. unfold fexp, emin, f64_prec, f64_emax. lia. Qed.

Lemma binary_round_small s m :
  Z.pos m < 2 ^ 53 →
  ∃ m' e', binary_round f64_prec f64_emax s m 0 = S754_finite s m' e' ∧ e' ≤ 0 ∧
    Z.pos m' = Z.pos m * 2 ^ (- e').
Proof.
  intros Hm. apply log2_below in Hm. pose proof (Z.log2_nonneg (Z.pos m)).
  unfold binary_round. rewrite Z.add_0_r, digits2_pos_size, fexp_small by lia.
  unfold shl_align. rewrite Z.sub_0_r.
  destruct (Z.log2 (Z.pos m) + 1 - 53) as [|d|d] eqn:E; [|lia|].
  - exists m, 0. rewrite round_aux_exact; [split; [done|lia]| |unfold f64_emax, f64_prec; lia].
    rewrite digits2_pos_size, fexp_small by lia. lia.
  - exists (Pos.iter xO m d), (Z.neg d).
    rewrite round_aux_exact; [split_and!; [done|lia|rewrite iter_xO; done]| |unfold f64_emax, f64_prec; lia].
    rewrite digits2_pos_size, iter_xO, Z.log2_mul_pow2 by lia. rewrite fexp_small by lia. lia.
Qed.

(** [int64(float64(z)) = z] below 2^53. *)
Lemma f64_roundtrip z : - 2 ^ 53 < z < 2 ^ 53 → f64_to_int64 (f64_of_Z z) = z.
Proof.
  intros Hz. unfold f64_of_Z, binary_normalize.
  assert (∀ s m, Z.pos m < 2 ^ 53 →
    f64_to_int64 (binary_round f64_prec f64_emax s m 0) = if s then - Z.pos m else Z.pos m) as Hr.
  { intros s m Hm. destruct (binary_round_small s m Hm) as (m' & e' & -> & He & Hm').
    unfold f64_to_int64, f64_trunc.
    assert ((if 0 <=? e' then Z.pos m' * 2 ^ e' else Z.pos m' / 2 ^ (- e')) = Z.pos m) as ->.
    { destruct (Z.leb_spec 0 e').
      - assert (e' = 0) as -> by lia. simpl in Hm'. lia.
      - rewrite Hm'. apply Z.div_mul. apply Z.pow_nonzero; lia. }
    destruct s; rewrite (proj2 (Z.leb_le _ _)), (proj2 (Z.ltb_lt _ _)) by lia; done. }
  destruct z as [|m|m]; [done|rewrite Hr by lia; done|rewrite Hr by lia; done].
Qed.
