(* ===== verification/GoTime.v ===== *)
(** * Timestamps stored as text

    Models [formatTS], [formatExpiry] ([internal/state/sqlite/governance.go]) and
    SQLite's comparison of the texts they write.  An instant is a number of Unix
    nanoseconds.

    [time.RFC3339Nano] writes the date and time with fixed widths, so two texts of
    different seconds order as the seconds do (years 0 to 9999); within a second
    it drops trailing zeros of the fraction, and the whole fraction when it is
    zero, so there the texts order as the strings [nano_suffix] gives. *)

From Stdlib Require Import Ascii String.
From S2P Require Import Prelude.
Local Open Scope string_scope.
Local Open Scope Z_scope.

Definition second : Z := 1000000000.

(** The second an instant falls in. *)
Definition sec (t : Z) : Z := t / second.

(** The nine digits of a fraction. *)
Definition nano_digits (f : Z) : list Z :=
  map (λ i, f / 10 ^ (8 - Z.of_nat i) mod 10) (seq 0 9).

Fixpoint drop_zeros (l : list Z) : list Z :=
  match l with 0 :: l' => drop_zeros l' | _ => l end.

Definition digit_text (d : Z) : ascii := ascii_of_N (Z.to_N (48 + d)).

(** What follows the seconds in an RFC 3339 text with nanoseconds, in UTC. *)
Definition nano_suffix (t : Z) : string :=
  let f := t mod second in
  if f =? 0 then "Z"
  else String "." (string_of_list_ascii (map digit_text (reverse (drop_zeros (reverse (nano_digits f))))) +:+ "Z").

(** [a <= b] and [a < b] on two stored texts. *)
Definition text_le (a b : Z) : bool :=
  (sec a <? sec b) || ((sec a =? sec b) && String.leb (nano_suffix a) (nano_suffix b)).

Definition text_lt (a b : Z) : bool := negb (text_le b a).

(** [formatExpiry]: second precision. *)
Definition formatExpiry (t : Z) : Z := sec t.

Lemma sec_bounds t : sec t * second ≤ t < (sec t + 1) * second.
Proof.
  unfold sec. pose proof (Z.div_mod t second ltac:(done)). pose proof (Z.mod_pos_bound t second ltac:(done)). lia.
Qed.

Lemma sec_mono a b : a ≤ b → sec a ≤ sec b.
Proof. intros. apply Z.div_le_mono; [done|lia]. Qed.

(** Text order never contradicts the order of the seconds. *)
Lemma text_le_sec a b : text_le a b = true → sec a ≤ sec b.
Proof. unfold text_le. rewrite orb_true_iff, andb_true_iff, Z.ltb_lt, Z.eqb_eq. lia. Qed.

Lemma text_lt_sec a b : text_lt a b = true → sec a ≤ sec b.
Proof. unfold text_lt, text_le. rewrite negb_true_iff, orb_false_iff, Z.ltb_ge. lia. Qed.

Lemma text_le_sec_lt a b : sec a < sec b → text_le a b = true.
Proof. intros H. unfold text_le. by rewrite (proj2 (Z.ltb_lt _ _) H). Qed.

Lemma text_lt_sec_lt a b : sec a < sec b → text_lt a b = true.
Proof.
  intros. unfold text_lt, text_le. rewrite (proj2 (Z.ltb_ge _ _)), (proj2 (Z.eqb_neq _ _)) by lia. done.
Qed.

(** The text of a whole second is above every other text of that second. *)
Lemma text_whole_last a b : sec a = sec b → a mod second = 0 → text_le b a = true.
Proof.
  intros Hs Ha. unfold text_le. rewrite Hs, Z.eqb_refl, Z.ltb_irrefl. simpl.
  unfold nano_suffix at 2. rewrite Ha. simpl. unfold nano_suffix.
  destruct (b mod second =? 0); done.
Qed.

Example text_order : text_le 1500000000 1000000000 = true ∧ text_le 1000000000 1500000000 = false.
Proof. done. Qed.
