(* ===== verification/Transport.v ===== *)
(** * Transport: the data exchanged between control plane and runners

    Models [internal/transport/types.go] and [internal/transport/poison.go]:
    the run assignment, the run event, the poison pill, the user context with
    its flat wire form, and the [JobQueue] contract as a type class that the
    bridge relies on and the in-process queue discharges.

    A [json.RawMessage] is its bytes.  Times are [Z] nanoseconds. *)

From S2P Require Import Prelude GoAny.
Local Open Scope string_scope.
Local Open Scope Z_scope.

(** ** Errors that cross the transport boundary *)

Inductive go_error :=
| ErrCanceled            (* ctx.Err() *)
| ErrReadyQueueFull      (* errReadyQueueFull *)
| ErrInvalidRunID        (* the NATS transport's errInvalidRunID *)
| ErrBackend.            (* any other failure of a broker or store *)

#[global] Instance go_error_eq_dec : EqDecision go_error.
Proof. solve_decision. Defined.

(** ** Run assignments *)

Record TraceContext := {
  Traceparent : string;
  Tracestate : string;
  CorrelationID : string
}.

Record UserContext := mkUser {
  Identity : string;
  DisplayName : string;
  IsAuthenticated : bool;
  Permissions : list string;
  Extra : gmap string any
}.

Record RunAssignment := mkAssignment {
  RunID : string;
  ThreadID : string;
  RunnerKind : string;
  GraphID : string;
  Input : string;
  Config : string;
  CheckpointRef : option string;
  ResumeCommand : string;
  StreamModes : list string;
  ConnectorNeeds : list string;
  TraceCtx : option TraceContext;
  User : option UserContext;
  TenantID : string;
  AllowedTools : option (list string);
  Generation : Z;
  RunManifest : string
}.

(** [assignment.Generation = g] on a copy. *)
Definition set_generation (g : Z) (a : RunAssignment) : RunAssignment :=
  mkAssignment (RunID a) (ThreadID a) (RunnerKind a) (GraphID a) (Input a) (Config a)
    (CheckpointRef a) (ResumeCommand a) (StreamModes a) (ConnectorNeeds a) (TraceCtx a)
    (User a) (TenantID a) (AllowedTools a) g (RunManifest a).

(** ** Run events *)

Record RunEvent := mkEvent {
  EvGeneration : Z;
  EventID : string;
  Seq : Z;
  Method : string;
  Namespace : list string;
  Data : string;
  Ts : Z
}.

Definition IsTerminal (e : RunEvent) : bool :=
  String.eqb (Method e) "end" || String.eqb (Method e) "error".

(** ** Poison pills *)

Record PoisonPill := mkPill {
  PRunID : string;
  PGeneration : Z;
  PAgentID : string;
  PTenantID : string
}.

(** ** The user context on the wire

    [MarshalJSON] builds the top-level object; [UnmarshalJSON] reads one.  Both
    are stated on the decoded object, a [gmap string any]. *)

Module UserWire.

Definition put_new (m : gmap string any) (kv : string * any) : gmap string any :=
  match m !! kv.1 with
  | Some _ => m
  | None => <[kv.1 := kv.2]> m
  end.

Definition MarshalJSON (u : UserContext) : gmap string any :=
  let m := <["is_authenticated" := ABool (IsAuthenticated u)]>
             (<["identity" := AStr (Identity u)]> ∅) in
  let m := if String.eqb (DisplayName u) "" then m
           else <["display_name" := AStr (DisplayName u)]> m in
  let m := if bool_decide (Permissions u = []) then m
           else <["permissions" := AArr (AStr <$> Permissions u)]> m in
  foldl put_new m (map_to_list (Extra u)).

Definition str_items (l : list any) : list string :=
  omap (λ j, match j with AStr s => Some s | _ => None end) l.

Definition reserved (k : string) : bool :=
  String.eqb k "identity" || String.eqb k "display_name"
  || String.eqb k "is_authenticated" || String.eqb k "permissions" || String.eqb k "extra".

(** The fields an unmarshalled object overwrites in the receiver [u]. *)
Definition UnmarshalJSON (u : UserContext) (m : gmap string any) : UserContext :=
  let ident := match m !! "identity" with Some (AStr v) => v | _ => Identity u end in
  let disp := match m !! "display_name" with Some (AStr v) => v | _ => DisplayName u end in
  let auth := match m !! "is_authenticated" with Some (ABool v) => v | _ => IsAuthenticated u end in
  let perms := match m !! "permissions" with
               | Some (AArr l) => (Permissions u ++ str_items l)%list
               | _ => Permissions u end in
  let nested := match m !! "extra" with
                | Some (AMap kvs) => list_to_map (reverse kvs)
                | _ => ∅ end in
  let extra := filter (λ kv, reserved kv.1 = false) m ∪ nested in
  mkUser ident disp auth perms (if bool_decide (extra = ∅) then Extra u else extra).

Definition zero_user : UserContext := mkUser "" "" false [] ∅.

End UserWire.

(** ** The [JobQueue] contract

    The operations the bridge calls, over an abstract queue state [Q], and the
    laws it relies on, stated on the lease table [jq_lease]: the run's current
    in-flight assignment.  Fencing is exact-match on the generation; zero is no
    wildcard. *)

Class JobQueue (Q : Type) := {
  jq_wait : Type;
  jq_lease : Q → string → option RunAssignment;
  jq_Dequeue : Z → jq_wait → Q → string → option (Q * res go_error (option RunAssignment));
  jq_Ack : Q → string → Z → Q * res go_error bool;
  jq_Renew : Z → Q → string → Z → Q * res go_error bool;
  jq_Nack : option go_error → Q → string → Z → Q * option go_error;
  jq_LookupInflight : Q → string → res go_error (option RunAssignment)
}.

Section laws.
Context {Q : Type} `{JobQueue Q}.

  (** The dispatch [(r, g)] owns the lease of run [r]. *)
Definition holds (q : Q) (r : string) (g : Z) : bool :=
    match jq_lease q r with
    | Some a => Generation a =? g
    | None => false
    end.

Definition lease_gone (q q' : Q) (r : string) : Prop :=
    ∀ r', jq_lease q' r' = if decide (r = r') then None else jq_lease q r'.

Definition lease_same (q q' : Q) : Prop := ∀ r', jq_lease q' r' = jq_lease q r'.
End laws.

Class JobQueueOk (Q : Type) `{JobQueue Q} := {
  jq_lookup_ok q r o : jq_LookupInflight q r = Ok o → o = jq_lease q r;
  jq_ack_ok q r g q' b :
    jq_Ack q r g = (q', Ok b) →
    b = holds q r g ∧ if b then lease_gone q q' r else lease_same q q';
  jq_renew_ok now q r g q' b :
    jq_Renew now q r g = (q', Ok b) → b = holds q r g ∧ lease_same q q';
  jq_nack_ok c q r g q' :
    jq_Nack c q r g = (q', None) →
    if holds q r g then lease_gone q q' r else lease_same q q';
  jq_dequeue_ok now w q k q' a :
    jq_Dequeue now w q k = Some (q', Ok (Some a)) →
    ∀ r', jq_lease q' r' = if decide (RunID a = r') then Some a else jq_lease q r';
  jq_dequeue_none now w q k q' :
    jq_Dequeue now w q k = Some (q', Ok None) → lease_same q q';
  (** A failed call leaves the leases alone, except that a failed acknowledgement
      may have been applied. *)
  jq_ack_err q r g q' e :
    jq_Ack q r g = (q', Err e) → lease_same q q' ∨ (holds q r g = true ∧ lease_gone q q' r);
  jq_renew_err now q r g q' e : jq_Renew now q r g = (q', Err e) → lease_same q q'
}.
