(* ===== verification/QueueSpec.v ===== *)
(** * What a job queue promises: tokens

    The abstract specification shared by the queue implementations.  A token
    [(run, generation)] stands for one copy of a job, wherever the implementation
    keeps it.  A run is submitted once, at generation 1; copies then only move,
    vanish or get a higher generation, and an accepted acknowledgement consumes
    one.  An implementation whose steps simulate these ([simulates]) acknowledges
    a run at most once, and fences superseded generations for ever. *)

From S2P Require Import Prelude Transport.
Local Open Scope Z_scope.

(** The token of a job. *)
Definition tok (a : RunAssignment) : string * Z := (RunID a, Generation a).

(** ** How tokens may evolve: copies vanish or move, generations only grow *)

Definition evolves (l l' : list (string * Z)) : Prop :=
  l'.*1 ⊆+ l.*1 ∧ ∀ r g', (r, g') ∈ l' → ∃ g, (r, g) ∈ l ∧ g ≤ g'.

#[export] Instance evolves_refl : Reflexive evolves.
Proof. intros l. split; [done|]. intros r g. exists g. split; [done|lia]. Qed.

#[export] Instance evolves_trans : Transitive evolves.
Proof.
  intros l1 l2 l3 [H1 H2] [H3 H4]. split; [by etrans|].
  intros r g3 (g2 & (g1 & ? & ?)%H2 & ?)%H4. exists g1. split; [done|lia].
Qed.

#[export] Instance evolves_proper : Proper ((≡ₚ) ==> (≡ₚ) ==> iff) evolves.
Proof.
  intros l1 l1' H1 l2 l2' H2. unfold evolves. setoid_rewrite H1. setoid_rewrite H2. done.
Qed.

Lemma evolves_submseteq l l' : l' ⊆+ l → evolves l l'.
Proof.
  intros H. split; [by apply fmap_submseteq|].
  intros r g Hin. exists g. split; [by eapply elem_of_submseteq|lia].
Qed.

Lemma evolves_app l1 l1' l2 l2' :
  evolves l1 l1' → evolves l2 l2' → evolves (l1 ++ l2) (l1' ++ l2').
Proof.
  intros [H1 H2] [H3 H4]. split; [rewrite !fmap_app; by apply submseteq_app|].
  intros r g. setoid_rewrite elem_of_app.
  intros [(g' & ? & ?)%H2|(g' & ? & ?)%H4]; exists g'; eauto.
Qed.

Lemma evolves_bump r g g' l : g ≤ g' → evolves ((r, g) :: l) ((r, g') :: l).
Proof.
  intros Hg. apply (evolves_app [_] [_]); [|done]. split; [done|].
  intros r' g'' [= -> ->]%list_elem_of_singleton. exists g. split; [left|done].
Qed.

Lemma evolves_NoDup l l' : evolves l l' → NoDup l.*1 → NoDup l'.*1.
Proof. intros [[k ->]%submseteq_Permutation _]. by intros [? _]%list.NoDup_app. Qed.

Lemma evolves_fst l l' r : evolves l l' → r ∈ l'.*1 → r ∈ l.*1.
Proof. intros [H _] ?. by eapply elem_of_submseteq. Qed.

Definition gens_ok (mr : Z) (l : list (string * Z)) : Prop := ∀ r g, (r, g) ∈ l → 1 ≤ g ≤ mr.

Lemma gens_ok_sub mr l l' : gens_ok mr l → l' ⊆+ l → gens_ok mr l'.
Proof. intros H Hs r g Hin. eapply H, elem_of_submseteq; eauto. Qed.

(** ** The abstract queue *)

Record aqueue := mkAq {
  aq_toks : list (string * Z);    (* the copies there are *)
  aq_seen : gset string;          (* submitted runs *)
  aq_acked : list (string * Z)    (* accepted acknowledgements *)
}.

Definition aq_init : aqueue := mkAq [] ∅ [].

Inductive aq_step (mr : Z) (s s' : aqueue) : Prop :=
| aq_evolve :
    evolves (aq_toks s) (aq_toks s') → gens_ok mr (aq_toks s') →
    aq_seen s ⊆ aq_seen s' → aq_acked s' = aq_acked s → aq_step mr s s'
| aq_submit r :
    aq_toks s' ≡ₚ (r, 1) :: aq_toks s → r ∉ aq_seen s → aq_seen s' = {[r]} ∪ aq_seen s →
    aq_acked s' = aq_acked s → aq_step mr s s'
| aq_ack r g :
    aq_toks s ≡ₚ (r, g) :: aq_toks s' → aq_seen s' = aq_seen s →
    aq_acked s' = (r, g) :: aq_acked s → aq_step mr s s'.

(** Steps that only drop or move copies. *)
Lemma aq_sub mr s s' :
  gens_ok mr (aq_toks s) → aq_toks s' ⊆+ aq_toks s → aq_seen s ⊆ aq_seen s' →
  aq_acked s' = aq_acked s → aq_step mr s s'.
Proof. intros. apply aq_evolve; eauto using gens_ok_sub, evolves_submseteq. Qed.

Record aq_inv (mr : Z) (s : aqueue) : Prop := {
  ai_nodup : NoDup (aq_toks s).*1;
  ai_seen : ∀ r, r ∈ (aq_toks s).*1 → r ∈ aq_seen s;
  ai_gens : gens_ok mr (aq_toks s);
  ai_acked : ∀ r, r ∈ (aq_acked s).*1 → r ∈ aq_seen s ∧ r ∉ (aq_toks s).*1;
  ai_once : NoDup (aq_acked s).*1
}.

Lemma aq_inv_init mr : aq_inv mr aq_init.
Proof.
  split; simpl; auto using NoDup_nil_2.
  - intros r ?%not_elem_of_nil. done.
  - intros r g ?%not_elem_of_nil. done.
  - intros r ?%not_elem_of_nil. done.
Qed.

Lemma aq_inv_step mr s s' : 1 ≤ mr → aq_inv mr s → aq_step mr s s' → aq_inv mr s'.
Proof.
  intros Hmr [Hnd Hseen Hg Hack Honce] [He Hg' Hss Ha|r Hp Hr Hss Ha|r g Hp Hss Ha].
  - split; rewrite ?Ha; eauto using evolves_NoDup, evolves_fst.
    intros r Hr. destruct (Hack r Hr). split; [by apply Hss|]. eauto using evolves_fst.
  - split; rewrite ?Ha, ?Hss; auto.
    + rewrite Hp. simpl. apply list.NoDup_cons. split; [|done]. eauto.
    + intros r'. rewrite Hp. simpl. intros [->|Hx]%elem_of_cons; apply elem_of_union;
        [left; by apply elem_of_singleton|right; auto].
    + intros r' g'. rewrite Hp. intros [[= -> ->]|?]%elem_of_cons; [lia|eauto].
    + intros r' Hr'. destruct (Hack r' Hr'). split; [apply elem_of_union; by right|]. rewrite Hp. simpl.
      rewrite not_elem_of_cons. split; [by intros ->|done].
  - rewrite Hp in Hnd. simpl in Hnd. apply list.NoDup_cons in Hnd as [Hr Hnd].
    assert (r ∉ (aq_acked s).*1) as Hra.
    { intros Hx. apply Hack in Hx as [_ Hx]. apply Hx. rewrite Hp. left. }
    split; rewrite ?Ha, ?Hss; auto.
    + intros r' Hr'. apply Hseen. rewrite Hp. by right.
    + intros r' g' Hin. apply (Hg r'). rewrite Hp. by right.
    + intros r'. simpl. intros [->|Hr']%elem_of_cons.
      * split; [|done]. apply Hseen. rewrite Hp. left.
      * destruct (Hack r' Hr') as [? Hn]. split; [done|]. intros Hx. apply Hn. rewrite Hp. by right.
    + simpl. by apply list.NoDup_cons.
Qed.

(** Tokens of a submitted run only come from its earlier tokens, at a
    generation that never shrinks. *)
Lemma aq_step_gen mr s s' r g' :
  aq_step mr s s' → r ∈ aq_seen s → (r, g') ∈ aq_toks s' →
  (∃ g, (r, g) ∈ aq_toks s ∧ g ≤ g') ∧ r ∈ aq_seen s'.
Proof.
  intros [[_ He] _ Hss _|r0 Hp Hr Hss _|r0 g Hp Hss _] Hr' Hin.
  - split; [eauto|by apply Hss].
  - rewrite Hp in Hin. apply elem_of_cons in Hin as [[= -> ->]|Hin]; [done|].
    split; [|rewrite Hss; apply elem_of_union; by right]. exists g'. split; [done|lia].
  - rewrite Hss. split; [|done]. exists g'. split; [rewrite Hp; by right|lia].
Qed.

Lemma aq_step_seen mr s s' : aq_step mr s s' → aq_seen s ⊆ aq_seen s'.
Proof. intros [? ? ? ?|? ? ? -> ?|? ? ? -> ?]; [done|apply union_subseteq_r|done]. Qed.

(** A run has one token. *)
Lemma tok_unique mr s r g g' : aq_inv mr s → (r, g) ∈ aq_toks s → (r, g') ∈ aq_toks s → g = g'.
Proof.
  intros Hi H1 H2. pose proof (ai_nodup mr s Hi) as Hnd.
  apply elem_of_Permutation in H1 as [k Hk]. rewrite Hk in H2, Hnd. simpl in Hnd.
  apply list.NoDup_cons in Hnd as [Hn _]. apply elem_of_cons in H2 as [[= <-]|H2]; [done|].
  destruct Hn. by apply (list_elem_of_fmap_2 fst) in H2.
Qed.

(** ** Implementations *)

Section simulation.
Context {W : Type} (abs : W → aqueue) (wf : W → Prop) (step : W → W → Prop) (mr : Z).
Context (Hmr : 1 ≤ mr).

(** Every step of the implementation is a step of the specification. *)
Definition simulates : Prop :=
  ∀ w w', wf w → aq_inv mr (abs w) → step w w' → aq_step mr (abs w) (abs w') ∧ wf w'.

Context (Hsim : simulates).

Definition good (w : W) : Prop := wf w ∧ aq_inv mr (abs w).

Lemma good_step w w' : good w → step w w' → good w'.
Proof using Hmr Hsim.
  intros [Hw Hi] Hs. destruct (Hsim w w' Hw Hi Hs) as [Ha Hw']. split; [done|]. by eapply aq_inv_step.
Qed.

Lemma good_rtc w w' : good w → rtc step w w' → good w'.
Proof using Hmr Hsim. intros Hg Hs. revert Hg. induction Hs; eauto using good_step. Qed.

Lemma rtc_gen w w' r g' :
  good w → rtc step w w' → r ∈ aq_seen (abs w) → (r, g') ∈ aq_toks (abs w') →
  ∃ g, (r, g) ∈ aq_toks (abs w) ∧ g ≤ g'.
Proof using Hmr Hsim.
  intros Hg Hs. revert Hg. induction Hs as [w|w w1 w' Hst Hs IH]; intros Hg Hr Hin.
  { exists g'. split; [done|lia]. }
  destruct (Hsim w w1 (proj1 Hg) (proj2 Hg) Hst) as [Ha _].
  destruct IH as (g1 & Hin1 & Hle1);
    [by eapply good_step|by apply (aq_step_seen _ _ _ Ha)|done|].
  destruct (aq_step_gen _ _ _ _ _ Ha Hr Hin1) as [(g & ? & ?) _]. exists g. split; [done|lia].
Qed.

(** Once a copy of run [r] has generation [g1], every later copy has at least
    that generation. *)
Lemma fenced w w' r g1 g' :
  good w → (r, g1) ∈ aq_toks (abs w) → rtc step w w' → (r, g') ∈ aq_toks (abs w') → g1 ≤ g'.
Proof using Hmr Hsim.
  intros Hg Hin Hs Hin'. destruct (rtc_gen w w' r g' Hg Hs) as (g0 & Hin0 & Hle); [|done|].
  - apply (ai_seen mr _ (proj2 Hg)), list_elem_of_fmap. by exists (r, g1).
  - by rewrite (tok_unique mr _ r g1 g0 (proj2 Hg) Hin Hin0).
Qed.
End simulation.
