(* ===== verification/Inprocess.v ===== *)
(** * The in-process job queue

    Models [internal/transport/inprocess/inprocess.go], type [Queue]: one
    bounded FIFO channel per runner kind, the set of cancelled run ids and the
    table of in-flight leases, with every method of the type.  Blocking
    [select] statements take an oracle that says which ready case fires.  The
    second half is the step relation of concurrent callers, each critical
    section one step, and the invariants of the reachable states. *)

From S2P Require Import Prelude Transport.
Local Open Scope string_scope.
Local Open Scope Z_scope.

Record inflightEntry := mkEntry {
  job : RunAssignment;
  dequeuedAt : Z
}.

Record Queue := mkQueue {
  jobs : gmap string (list RunAssignment);
  canceled : gset string;
  inflight : gmap string inflightEntry
}.

Definition NewQueue : Queue := mkQueue ∅ ∅ ∅.

(** [make(chan *transport.RunAssignment, 1000)] *)
Definition chan_cap : nat := 1000%nat.

Definition set_jobs (f : gmap string (list RunAssignment)) (q : Queue) : Queue :=
  mkQueue f (canceled q) (inflight q).
Definition set_inflight (f : gmap string inflightEntry) (q : Queue) : Queue :=
  mkQueue (jobs q) (canceled q) f.

(** The content of the channel of a runner kind. *)
Definition chan (q : Queue) (kind : string) : list RunAssignment := map_get [] (jobs q) kind.

(** Creates the channel on first use. *)
Definition channelLocked (q : Queue) (kind : string) : Queue :=
  match jobs q !! kind with
  | Some _ => q
  | None => set_jobs (<[kind := []]> (jobs q)) q
  end.

Definition getChannel := channelLocked.

(** A send on the channel of [kind]; [None] when the buffer is full. *)
Definition chan_send (q : Queue) (kind : string) (a : RunAssignment) : option Queue :=
  let q := channelLocked q kind in
  if (length (chan q kind) <? chan_cap)%nat
  then Some (set_jobs (<[kind := (chan q kind ++ [a])%list]> (jobs q)) q)
  else None.

(** A receive; [None] when the buffer is empty. *)
Definition chan_recv (q : Queue) (kind : string) : option (RunAssignment * Queue) :=
  match chan q kind with
  | [] => None
  | a :: l => Some (a, set_jobs (<[kind := l]> (jobs q)) q)
  end.

(** Which case of a [select] fires. *)
Inductive send_arm := SendReady | SendDone.
Inductive recv_arm := RecvReady | RecvTimer | RecvDone.

(** The first critical section of [Enqueue]: is the run already cancelled? *)
Definition enqueue_dropped (q : Queue) (a : RunAssignment) : bool :=
  bool_decide (RunID a ∈ canceled q).

(** [None]: the chosen case is not ready, the caller blocks. *)
Definition Enqueue (arm : send_arm) (q : Queue) (a : RunAssignment)
  : option (Queue * option go_error) :=
  if enqueue_dropped q a then Some (q, None)
  else
    let q := getChannel q (RunnerKind a) in
    match arm with
    | SendReady =>
        match chan_send q (RunnerKind a) a with
        | Some q' => Some (q', None)
        | None => None
        end
    | SendDone => Some (q, Some ErrCanceled)
    end.

(** The critical section of [Dequeue] after a receive: a cancelled job is
    discarded, any other becomes the in-flight lease of its run. *)
Definition record_inflight (now : Z) (q : Queue) (a : RunAssignment)
  : Queue * option RunAssignment :=
  if bool_decide (RunID a ∈ canceled q) then (q, None)
  else (set_inflight (<[RunID a := mkEntry a now]> (inflight q)) q, Some a).

(** The receive loop; one oracle entry per iteration. *)
Fixpoint dequeue_loop (now : Z) (arms : list recv_arm) (q : Queue) (kind : string)
  : option (Queue * res go_error (option RunAssignment)) :=
  match arms with
  | [] => None
  | RecvTimer :: _ => Some (q, Ok None)
  | RecvDone :: _ => Some (q, Err ErrCanceled)
  | RecvReady :: arms' =>
      match chan_recv q kind with
      | None => None
      | Some (a, q1) =>
          match record_inflight now q1 a with
          | (q2, None) => dequeue_loop now arms' q2 kind
          | (q2, Some a') => Some (q2, Ok (Some a'))
          end
      end
  end.

Definition Dequeue (now : Z) (arms : list recv_arm) (q : Queue) (kind : string)
  : option (Queue * res go_error (option RunAssignment)) :=
  dequeue_loop now arms (getChannel q kind) kind.

Definition generationMatches (e : inflightEntry) (g : Z) : bool := Generation (job e) =? g.

Definition Ack (q : Queue) (r : string) (g : Z) : Queue * bool :=
  match inflight q !! r with
  | Some e => if generationMatches e g then (set_inflight (delete r (inflight q)) q, true)
              else (q, false)
  | None => (q, false)
  end.

Definition Renew (now : Z) (q : Queue) (r : string) (g : Z) : Queue * bool :=
  match inflight q !! r with
  | Some e => if generationMatches e g
              then (set_inflight (<[r := mkEntry (job e) now]> (inflight q)) q, true)
              else (q, false)
  | None => (q, false)
  end.

Definition LookupInflight (q : Queue) (r : string) : option RunAssignment :=
  job <$> inflight q !! r.

(** [ctxErr] is [ctx.Err()] at the call. *)
Definition enqueueReadyLocked (ctxErr : option go_error) (q : Queue) (a : RunAssignment)
  : res go_error Queue :=
  match ctxErr with
  | Some e => Err e
  | None =>
      if bool_decide (RunID a ∈ canceled q) then Ok q
      else match chan_send q (RunnerKind a) a with
           | Some q' => Ok q'
           | None => Err ErrReadyQueueFull
           end
  end.

(** On an error the queue keeps the lease (a full channel already exists, so
    nothing was created on that path). *)
Definition Nack (ctxErr : option go_error) (q : Queue) (r : string) (g : Z)
  : Queue * option go_error :=
  match inflight q !! r with
  | None => (q, None)
  | Some e =>
      if generationMatches e g then
        match enqueueReadyLocked ctxErr q (job e) with
        | Err er => (q, Some er)
        | Ok q' => (set_inflight (delete r (inflight q')) q', None)
        end
      else (q, None)
  end.

Definition Cancel (q : Queue) (r : string) : Queue :=
  mkQueue (jobs q) ({[r]} ∪ canceled q) (delete r (inflight q)).

Definition Len (q : Queue) : Z :=
  map_fold (λ _ l n, Z.of_nat (length l) + n) 0 (jobs q).

(** One iteration of the [ReclaimStale] loop over the entry of run [r]. *)
Definition reclaim_one (ctxErr : option go_error) (cutoff : Z) (maxRetries : Z) (q : Queue)
    (r : string) (e : inflightEntry) : res go_error (Queue * Z * list PoisonPill) :=
  if dequeuedAt e <? cutoff then
    let newGen := wrap64 (Generation (job e) + 1) in
    if (0 <? maxRetries) && (maxRetries <? newGen)
    then Ok (q, 0, [mkPill r newGen (GraphID (job e)) (TenantID (job e))])
    else
      match enqueueReadyLocked ctxErr q (set_generation newGen (job e)) with
      | Err er => Err er
      | Ok q' => Ok (set_inflight (delete r (inflight q')) q', 1, [])
      end
  else Ok (q, 0, []).

(** The loop follows Go's map iteration: [sched] lists the in-flight runs in
    the (unspecified) order visited, each with [ctx.Err()] at that moment. *)
Fixpoint reclaim_loop (cutoff maxRetries : Z) (sched : list (string * option go_error))
    (q : Queue) (reclaimed : Z) (dead : list PoisonPill)
  : Queue * Z * list PoisonPill * option go_error :=
  match sched with
  | [] => (q, reclaimed, dead, None)
  | (r, ctxErr) :: sched' =>
      match inflight q !! r with
      | None => reclaim_loop cutoff maxRetries sched' q reclaimed dead
      | Some e =>
          match reclaim_one ctxErr cutoff maxRetries q r e with
          | Err er => (q, reclaimed, dead, Some er)
          | Ok (q', n, d) => reclaim_loop cutoff maxRetries sched' q' (reclaimed + n) (dead ++ d)%list
          end
      end
  end.

Definition ReclaimStale (now maxAge maxRetries : Z) (sched : list (string * option go_error))
    (q : Queue) : Queue * Z * list PoisonPill * option go_error :=
  reclaim_loop (now - maxAge) maxRetries sched q 0 [].

Definition Ping : option go_error := None.

(** ** Well-formed queues *)

Record queue_wf (q : Queue) : Prop := {
  wf_key : ∀ r e, inflight q !! r = Some e → RunID (job e) = r;
  wf_cancel : ∀ r e, inflight q !! r = Some e → r ∉ canceled q;
  wf_kind : ∀ k l a, jobs q !! k = Some l → a ∈ l → RunnerKind a = k;
  wf_cap : ∀ k l, jobs q !! k = Some l → (length l ≤ chan_cap)%nat
}.

(** ** Channel lemmas *)

Lemma channelLocked_inflight q k : inflight (channelLocked q k) = inflight q.
Proof. unfold channelLocked. by case_match. Qed.

Lemma channelLocked_canceled q k : canceled (channelLocked q k) = canceled q.
Proof. unfold channelLocked. by case_match. Qed.

Lemma channelLocked_chan q k k' : chan (channelLocked q k) k' = chan q k'.
Proof.
  unfold channelLocked, chan, map_get. destruct (jobs q !! k) eqn:E; [done|]. simpl.
  destruct (decide (k = k')) as [->|]; [by rewrite lookup_insert_eq, E|].
  by rewrite lookup_insert_ne.
Qed.

Lemma channelLocked_lookup q k k' l :
  jobs (channelLocked q k) !! k' = Some l → jobs q !! k' = Some l ∨ l = [].
Proof.
  unfold channelLocked. destruct (jobs q !! k) eqn:E; [by left|]. simpl.
  destruct (decide (k = k')) as [->|].
  - rewrite lookup_insert_eq. intros [= <-]. by right.
  - rewrite lookup_insert_ne by done. by left.
Qed.

#[export] Hint Rewrite channelLocked_inflight channelLocked_canceled channelLocked_chan : runkite.

Lemma chan_send_spec q k a q' :
  chan_send q k a = Some q' →
  (length (chan q k) < chan_cap)%nat ∧
  jobs q' = <[k := (chan q k ++ [a])%list]> (jobs (channelLocked q k)) ∧
  canceled q' = canceled q ∧ inflight q' = inflight q.
Proof.
  unfold chan_send. autorewrite with runkite.
  destruct (Nat.ltb_spec (length (chan q k)) chan_cap); [|done].
  intros [= <-]. simpl. by autorewrite with runkite.
Qed.

Lemma chan_send_full q k a : chan_send q k a = None ↔ (chan_cap ≤ length (chan q k))%nat.
Proof.
  unfold chan_send. autorewrite with runkite.
  destruct (Nat.ltb_spec (length (chan q k)) chan_cap); split; (done || lia).
Qed.

Lemma chan_send_chan q k a q' k' :
  chan_send q k a = Some q' →
  chan q' k' = if decide (k = k') then (chan q k ++ [a])%list else chan q k'.
Proof.
  intros (Hl & Hj & _ & _)%chan_send_spec. unfold chan at 1. rewrite Hj. unfold map_get.
  case_decide; subst; [by rewrite lookup_insert_eq|].
  rewrite lookup_insert_ne by done.
  change (chan (channelLocked q k) k' = chan q k'). apply channelLocked_chan.
Qed.

Lemma chan_recv_spec q k a q' :
  chan_recv q k = Some (a, q') →
  ∃ l, jobs q !! k = Some (a :: l) ∧ jobs q' = <[k := l]> (jobs q) ∧
       canceled q' = canceled q ∧ inflight q' = inflight q.
Proof.
  unfold chan_recv, chan, map_get. destruct (jobs q !! k) as [[|b l]|] eqn:E; simpl; try done.
  intros [= <- <-]. by exists l.
Qed.

Lemma chan_lookup_elem q k a : a ∈ chan q k → ∃ l, jobs q !! k = Some l ∧ a ∈ l.
Proof.
  unfold chan, map_get. destruct (jobs q !! k) as [l|]; simpl; [by exists l|].
  by intros ?%not_elem_of_nil.
Qed.

(** ** Every operation preserves well-formedness *)

Lemma wf_NewQueue : queue_wf NewQueue.
Proof. split; simpl; intros *; rewrite lookup_empty; done. Qed.

Lemma wf_channelLocked q k : queue_wf q → queue_wf (channelLocked q k).
Proof.
  intros [H1 H2 H3 H4]. split; autorewrite with runkite; eauto.
  - intros k' l a [Hl| ->]%channelLocked_lookup Ha; [eauto|]. by apply not_elem_of_nil in Ha.
  - intros k' l [Hl| ->]%channelLocked_lookup; [eauto|]. simpl. lia.
Qed.

Lemma wf_chan_send q k a q' :
  RunnerKind a = k → queue_wf q → chan_send q k a = Some q' → queue_wf q'.
Proof.
  intros Hk Hwf Hs. destruct (wf_channelLocked q k Hwf) as [_ _ H3 H4].
  destruct Hwf as [H1 H2 H3' H4']. apply chan_send_spec in Hs as (Hl & Hj & Hc & Hi).
  split; rewrite ?Hi, ?Hc, ?Hj; eauto.
  - intros k' l b. destruct (decide (k = k')) as [<-|].
    + rewrite lookup_insert_eq. intros [= <-].
      rewrite elem_of_app, list_elem_of_singleton. intros [Hb| ->]; [|done].
      apply chan_lookup_elem in Hb as (l & ? & ?). eauto.
    + rewrite lookup_insert_ne by done. eauto.
  - intros k' l. destruct (decide (k = k')) as [<-|].
    + rewrite lookup_insert_eq. intros [= <-]. rewrite length_app. simpl. lia.
    + rewrite lookup_insert_ne by done. eauto.
Qed.

Lemma wf_chan_recv q k a q' :
  queue_wf q → chan_recv q k = Some (a, q') → queue_wf q' ∧ RunnerKind a = k.
Proof.
  intros [H1 H2 H3 H4] (l & Hl & Hj & Hc & Hi)%chan_recv_spec.
  split; [|eapply H3; [exact Hl|left]].
  split; rewrite ?Hi, ?Hc, ?Hj; eauto.
  - intros k' l' b. destruct (decide (k = k')) as [<-|].
    + rewrite lookup_insert_eq. intros [= <-] Hb. eapply H3; [exact Hl|by right].
    + rewrite lookup_insert_ne by done. eauto.
  - intros k' l'. destruct (decide (k = k')) as [<-|].
    + rewrite lookup_insert_eq. intros [= <-]. apply H4 in Hl. simpl in Hl. lia.
    + rewrite lookup_insert_ne by done. eauto.
Qed.

Lemma wf_record_inflight now q a q' o :
  queue_wf q → record_inflight now q a = (q', o) → queue_wf q'.
Proof.
  intros [H1 H2 H3 H4]. unfold record_inflight. case_bool_decide as Hc; intros [= <- <-]; [done|].
  split; simpl; eauto; intros r e; (destruct (decide (RunID a = r)) as [<-|];
    [rewrite lookup_insert_eq; intros [= <-]; done|rewrite lookup_insert_ne by done; eauto]).
Qed.

Lemma wf_delete q r : queue_wf q → queue_wf (set_inflight (delete r (inflight q)) q).
Proof.
  intros [H1 H2 H3 H4].
  split; simpl; eauto; intros r' e [? ?]%lookup_delete_Some; eauto.
Qed.

Lemma wf_enqueueReady c q a q' :
  queue_wf q → enqueueReadyLocked c q a = Ok q' → queue_wf q'.
Proof.
  intros Hwf. unfold enqueueReadyLocked. destruct c; [done|].
  case_bool_decide; [by intros [= <-]|].
  destruct (chan_send q (RunnerKind a) a) eqn:E; [|done]. intros [= <-].
  eauto using wf_chan_send.
Qed.

#[export] Hint Resolve wf_NewQueue wf_channelLocked wf_chan_send wf_delete wf_enqueueReady
  wf_record_inflight : runkite.

Lemma wf_Ack q r g : queue_wf q → queue_wf (Ack q r g).1.
Proof. intros. unfold Ack. repeat case_match; simpl; auto with runkite. Qed.

Lemma wf_Renew now q r g : queue_wf q → queue_wf (Renew now q r g).1.
Proof.
  intros [H1 H2 H3 H4]. unfold Renew. destruct (inflight q !! r) as [e|] eqn:E; [|by split].
  destruct (generationMatches e g); [|by split].
  split; simpl; eauto; intros r' e'; (destruct (decide (r = r')) as [<-|];
    [rewrite lookup_insert_eq; intros [= <-]; eauto|rewrite lookup_insert_ne by done; eauto]).
  simpl. eauto.
Qed.

Lemma wf_Nack c q r g : queue_wf q → queue_wf (Nack c q r g).1.
Proof.
  intros Hwf. unfold Nack. destruct (inflight q !! r); [|done].
  destruct (generationMatches _ _); [|done].
  destruct (enqueueReadyLocked c q _) eqn:E; simpl; eauto with runkite.
Qed.

Lemma wf_Cancel q r : queue_wf q → queue_wf (Cancel q r).
Proof.
  intros [H1 H2 H3 H4]. split; simpl; eauto; intros r' e [? ?]%lookup_delete_Some; eauto.
  rewrite elem_of_union, elem_of_singleton. intros [<-|?]; [done|]. eapply H2; eauto.
Qed.

Lemma wf_reclaim_one c cut mr q r e q' n d :
  queue_wf q → reclaim_one c cut mr q r e = Ok (q', n, d) → queue_wf q'.
Proof.
  intros Hwf. unfold reclaim_one. repeat case_match; intros; simplify_eq; eauto with runkite.
Qed.

Lemma wf_reclaim_loop cut mr sched q n d :
  queue_wf q → queue_wf (reclaim_loop cut mr sched q n d).1.1.1.
Proof.
  revert q n d. induction sched as [|[r c] sched IH]; intros q n d Hwf; simpl; [done|].
  destruct (inflight q !! r) as [e|]; [|by apply IH].
  destruct (reclaim_one c cut mr q r e) as [[[q' n'] d']|] eqn:E; [|done].
  apply IH. eauto using wf_reclaim_one.
Qed.

(** ** Dequeue is FIFO and skips exactly the cancelled prefix *)

Lemma dequeue_loop_fifo now kind pre a post q :
  jobs q !! kind = Some (pre ++ a :: post)%list →
  Forall (λ b, RunID b ∈ canceled q) pre → RunID a ∉ canceled q →
  ∃ q', dequeue_loop now (replicate (S (length pre)) RecvReady) q kind = Some (q', Ok (Some a)) ∧
    jobs q' = <[kind := post]> (jobs q) ∧ canceled q' = canceled q ∧
    inflight q' = <[RunID a := mkEntry a now]> (inflight q).
Proof.
  revert q. induction pre as [|b pre IH]; intros q Hj Hpre Ha.
  - simpl in *. unfold chan_recv, chan, map_get. rewrite Hj. simpl.
    unfold record_inflight. simpl. rewrite bool_decide_eq_false_2 by done.
    eexists. by split; [reflexivity|].
  - apply Forall_cons_1 in Hpre as [Hb Hpre].
    change (replicate (S (length (b :: pre))) RecvReady)
      with (RecvReady :: replicate (S (length pre)) RecvReady).
    cbn [dequeue_loop]. unfold chan_recv, chan, map_get. rewrite Hj. simpl (default _ _).
    cbn [app]. unfold record_inflight. cbn [canceled set_jobs].
    rewrite bool_decide_eq_true_2 by done.
    destruct (IH (set_jobs (<[kind:=(pre ++ a :: post)%list]> (jobs q)) q)) as (q' & -> & H1 & H2 & H3);
      [by simpl; rewrite lookup_insert_eq|done|done|].
    exists q'. split; [done|]. simpl in *. rewrite H1, insert_insert_eq. done.
Qed.

(** [Dequeue] is first-in first-out per runner kind and makes progress: when
    the channel of the kind holds a job that is not cancelled, receiving
    returns the oldest such job, discards exactly the cancelled jobs in front of
    it, records it as the in-flight lease and touches no other channel, lease or
    cancellation. *)
Theorem Dequeue_fifo now kind pre a post q :
  chan q kind = (pre ++ a :: post)%list →
  Forall (λ b, RunID b ∈ canceled q) pre → RunID a ∉ canceled q →
  ∃ q', Dequeue now (replicate (S (length pre)) RecvReady) q kind = Some (q', Ok (Some a)) ∧
    jobs q' = <[kind := post]> (jobs q) ∧ canceled q' = canceled q ∧
    inflight q' = <[RunID a := mkEntry a now]> (inflight q).
Proof.
  intros Hc Hpre Ha. unfold Dequeue, getChannel.
  assert (jobs q !! kind = Some (pre ++ a :: post)%list) as Hj.
  { unfold chan, map_get in Hc. destruct (jobs q !! kind) as [l|]; simpl in Hc; [by subst|].
    by destruct pre. }
  assert (channelLocked q kind = q) as -> by (unfold channelLocked; by rewrite Hj).
  by apply dequeue_loop_fifo.
Qed.

(** ** Reclaim *)

(** What [enqueueReadyLocked] may do to the queue. *)
Lemma enqueueReady_frame c q a q' :
  enqueueReadyLocked c q a = Ok q' →
  c = None ∧ canceled q' = canceled q ∧ inflight q' = inflight q ∧
  ∀ k, chan q' k = if bool_decide (RunID a ∈ canceled q) then chan q k
                   else if decide (RunnerKind a = k) then (chan q k ++ [a])%list else chan q k.
Proof.
  unfold enqueueReadyLocked. destruct c; [done|].
  case_bool_decide; [by intros [= <-]|].
  destruct (chan_send q (RunnerKind a) a) as [q1|] eqn:E; [|done]. intros [= <-].
  pose proof (chan_send_spec _ _ _ _ E) as (_ & _ & ? & ?).
  repeat split; [done..|]. intros k. rewrite (chan_send_chan _ _ _ _ k E).
  by repeat case_decide; subst.
Qed.

(** The three outcomes of one reclaim iteration. *)
Definition stale (cutoff : Z) (e : inflightEntry) : bool := dequeuedAt e <? cutoff.

Definition exhausted (maxRetries : Z) (e : inflightEntry) : bool :=
  (0 <? maxRetries) && (maxRetries <? wrap64 (Generation (job e) + 1)).

Definition bumped (e : inflightEntry) : RunAssignment :=
  set_generation (wrap64 (Generation (job e) + 1)) (job e).

Definition pill_of (r : string) (e : inflightEntry) : PoisonPill :=
  mkPill r (wrap64 (Generation (job e) + 1)) (GraphID (job e)) (TenantID (job e)).

Lemma reclaim_one_cases c cut mr q r e q' n d :
  reclaim_one c cut mr q r e = Ok (q', n, d) →
  if stale cut e then
    if exhausted mr e then q' = q ∧ n = 0 ∧ d = [pill_of r e]
    else n = 1 ∧ d = [] ∧ inflight q' = delete r (inflight q) ∧ canceled q' = canceled q ∧
         ∀ k, chan q' k = if bool_decide (RunID (job e) ∈ canceled q) then chan q k
                          else if decide (RunnerKind (job e) = k) then (chan q k ++ [bumped e])%list
                          else chan q k
  else q' = q ∧ n = 0 ∧ d = [].
Proof.
  unfold reclaim_one, stale, exhausted. destruct (dequeuedAt e <? cut); [|by intros [= <- <- <-]].
  destruct ((0 <? mr) && _); [by intros [= <- <- <-]|].
  destruct (enqueueReadyLocked c q _) as [q1|] eqn:E; [|done]. intros [= <- <- <-].
  apply enqueueReady_frame in E as (_ & Hc & Hi & Hch). by rewrite <- Hi.
Qed.

(** The queue keeps growing at the back; leases of other runs stay. *)
Lemma reclaim_one_frame c cut mr q r e q' n d :
  reclaim_one c cut mr q r e = Ok (q', n, d) →
  canceled q' = canceled q ∧ (∀ r', r' ≠ r → inflight q' !! r' = inflight q !! r') ∧
  ∀ k b, b ∈ chan q k → b ∈ chan q' k.
Proof.
  intros H%reclaim_one_cases. destruct (stale cut e); [|by destruct H as (-> & _)].
  destruct (exhausted mr e); [by destruct H as (-> & _)|].
  destruct H as (_ & _ & Hi & Hc & Hch). split_and!; [done| |].
  - intros r' Hr. rewrite Hi. by apply lookup_delete_ne.
  - intros k b Hb. rewrite Hch. repeat case_match; try done. by apply elem_of_app; left.
Qed.

Lemma reclaim_loop_frame cut mr sched q n d q' n' d' er :
  reclaim_loop cut mr sched q n d = (q', n', d', er) →
  canceled q' = canceled q ∧ (∀ r, r ∉ sched.*1 → inflight q' !! r = inflight q !! r) ∧
  (∀ k b, b ∈ chan q k → b ∈ chan q' k) ∧ (∀ p, p ∈ d → p ∈ d').
Proof.
  revert q n d. induction sched as [|[r c] sched IH]; intros q n d; simpl.
  { by intros [= <- <- <- <-]. }
  destruct (inflight q !! r) as [e|] eqn:Er.
  - destruct (reclaim_one c cut mr q r e) as [[[q1 n1] d1]|] eqn:E; [|by intros [= <- <- <- <-]].
    intros (Hc & Hi & Hch & Hd)%IH. apply reclaim_one_frame in E as (Hc1 & Hi1 & Hch1).
    repeat split; [congruence| |eauto|].
    + intros r'. rewrite not_elem_of_cons. intros [? ?]. rewrite Hi by done. by apply Hi1.
    + intros p Hp. apply Hd, elem_of_app. by left.
  - intros (Hc & Hi & Hch & Hd)%IH. repeat split; [done| |done|done].
    intros r'. rewrite not_elem_of_cons. intros [? ?]. auto.
Qed.

(** One stale-lease sweep, for every order in which Go may iterate the
    in-flight map: a lease younger than the cutoff is untouched; a stale lease
    below the retry ceiling disappears and its job is queued again with the next
    generation; a stale lease at the ceiling stays in flight and is reported as
    a poison pill carrying the blocked generation. *)
Theorem ReclaimStale_outcome now maxAge maxRetries sched q q' n dead r e :
  queue_wf q → NoDup sched.*1 → r ∈ sched.*1 →
  ReclaimStale now maxAge maxRetries sched q = (q', n, dead, None) →
  inflight q !! r = Some e →
  if stale (now - maxAge) e then
    if exhausted maxRetries e
    then inflight q' !! r = Some e ∧ pill_of r e ∈ dead
    else inflight q' !! r = None ∧ bumped e ∈ chan q' (RunnerKind (job e))
  else inflight q' !! r = Some e.
Proof.
  unfold ReclaimStale. generalize 0 as k, ([] : list PoisonPill) as d.
  revert q. induction sched as [|[s c] sched IH]; intros q k d Hwf Hnd Hin Hrun He.
  { by apply not_elem_of_nil in Hin. }
  simpl in Hrun, Hnd, Hin. apply list.NoDup_cons in Hnd as [Hs Hnd].
  destruct (decide (r = s)) as [->|Hne].
  - rewrite He in Hrun.
    destruct (reclaim_one c _ _ q s e) as [[[q1 n1] d1]|] eqn:E; [|done].
    apply reclaim_loop_frame in Hrun as (Hc & Hi & Hch & Hd). specialize (Hi _ Hs).
    apply reclaim_one_cases in E.
    destruct (stale _ e); [|destruct E as (-> & _); congruence].
    destruct (exhausted maxRetries e).
    + destruct E as (-> & _ & ->). split; [congruence|].
      apply Hd, elem_of_app. right. by apply list_elem_of_singleton.
    + destruct E as (_ & _ & Hi1 & _ & Hch1). split; [rewrite Hi, Hi1; apply lookup_delete_eq|].
      apply Hch. rewrite Hch1, decide_True by done. destruct Hwf as [Hk Hcan _ _].
      rewrite bool_decide_eq_false_2; [apply elem_of_app; right; by apply list_elem_of_singleton|].
      rewrite (Hk _ _ He). eauto.
  - apply elem_of_cons in Hin as [|Hin]; [done|].
    destruct (inflight q !! s) as [es|] eqn:Es; [|by eapply IH].
    destruct (reclaim_one c _ _ q s es) as [[[q1 n1] d1]|] eqn:E; [|done].
    eapply (IH q1); [by eapply wf_reclaim_one|done|done|exact Hrun|].
    apply reclaim_one_frame in E as (_ & Hi1 & _). by rewrite Hi1.
Qed.

(** ** The in-process queue satisfies the [JobQueue] contract *)

#[export] Instance Queue_JobQueue : JobQueue Queue := {|
  jq_wait := list recv_arm;
  jq_lease := LookupInflight;
  jq_Dequeue := Dequeue;
  jq_Ack q r g := let '(q', b) := Ack q r g in (q', Ok b);
  jq_Renew now q r g := let '(q', b) := Renew now q r g in (q', Ok b);
  jq_Nack := Nack;
  jq_LookupInflight q r := Ok (LookupInflight q r)
|}.

Lemma Ack_lease q r g q' b :
  Ack q r g = (q', b) →
  b = holds q r g ∧ if b then lease_gone q q' r else q' = q.
Proof.
  unfold Ack, holds. simpl. unfold LookupInflight, generationMatches.
  destruct (inflight q !! r) as [e|] eqn:E; simpl; [|by intros [= <- <-]].
  destruct (Generation (job e) =? g) eqn:G; intros [= <- <-]; [|done].
  split; [done|]. intros r'. simpl. unfold LookupInflight. simpl.
  case_decide; subst; [by rewrite lookup_delete_eq|by rewrite lookup_delete_ne].
Qed.

Lemma Renew_lease now q r g q' b :
  Renew now q r g = (q', b) → b = holds q r g ∧ lease_same q q'.
Proof.
  unfold Renew, holds, lease_same. simpl. unfold LookupInflight, generationMatches.
  destruct (inflight q !! r) as [e|] eqn:E; simpl; [|by intros [= <- <-]].
  destruct (Generation (job e) =? g) eqn:G; intros [= <- <-]; [|done].
  split; [done|]. intros r'. simpl.
  destruct (decide (r = r')) as [<-|];
    [by rewrite lookup_insert_eq, E|by rewrite lookup_insert_ne].
Qed.

Lemma Nack_lease c q r g q' :
  Nack c q r g = (q', None) → if holds q r g then lease_gone q q' r else q' = q.
Proof.
  unfold Nack, holds. simpl. unfold LookupInflight, generationMatches.
  destruct (inflight q !! r) as [e|] eqn:E; simpl; [|by intros [= <-]].
  destruct (Generation (job e) =? g) eqn:G; [|by intros [= <-]].
  destruct (enqueueReadyLocked c q (job e)) as [q1|] eqn:E1; [|done]. intros [= <-].
  apply enqueueReady_frame in E1 as (_ & _ & Hi & _).
  intros r'. simpl. unfold LookupInflight. simpl. rewrite Hi.
  case_decide; subst; [by rewrite lookup_delete_eq|by rewrite lookup_delete_ne].
Qed.

Lemma dequeue_loop_lease now arms q k q' o :
  dequeue_loop now arms q k = Some (q', o) →
  match o with
  | Ok (Some a) => inflight q' = <[RunID a := mkEntry a now]> (inflight q)
  | _ => inflight q' = inflight q
  end.
Proof.
  revert q. induction arms as [|[] arms IH]; intros q; simpl; try (by intros [= <- <-]).
  destruct (chan_recv q k) as [[a q1]|] eqn:E; [|done].
  apply chan_recv_spec in E as (l & _ & _ & _ & <-).
  unfold record_inflight. case_bool_decide; [apply IH|]. by intros [= <- <-].
Qed.

#[export] Instance Queue_JobQueueOk : JobQueueOk Queue.
Proof.
  split; simpl.
  - by intros q r o [= <-].
  - intros q r g q' b. destruct (Ack q r g) as [q1 b1] eqn:E. intros [= <- <-].
    apply Ack_lease in E as [-> H]. split; [done|]. by destruct (holds q r g); [|subst].
  - intros now q r g q' b. destruct (Renew now q r g) as [q1 b1] eqn:E. intros [= <- <-].
    eauto using Renew_lease.
  - intros c q r g q' H%Nack_lease. by destruct (holds q r g); [|subst].
  - intros now w q k q' a H%dequeue_loop_lease r'. simpl in *. unfold getChannel in H.
    rewrite channelLocked_inflight in H. unfold LookupInflight. rewrite H.
    case_decide; subst; [by rewrite lookup_insert_eq|by rewrite lookup_insert_ne].
  - intros now w q k q' H%dequeue_loop_lease r'. simpl in *. unfold getChannel in H.
    rewrite channelLocked_inflight in H. unfold LookupInflight. by rewrite H.
  - intros q r g q' e. by destruct (Ack q r g).
  - intros now q r g q' e. by destruct (Renew now q r g).
Qed.

(** ** Witnesses *)

Definition demo_job (id : string) (g : Z) : RunAssignment :=
  mkAssignment id "thread-1" "python-langgraph" "agent" "{}" "{}" None "null" [] [] None None
    "default" None g "".

Lemma Dequeue_fifo_witness :
  let q := mkQueue {[ "python-langgraph" := [demo_job "a" 1; demo_job "b" 1; demo_job "c" 1] ]}
             {[ "a" ]} ∅ in
  ∃ q', Dequeue 9 (replicate 2 RecvReady) q "python-langgraph" = Some (q', Ok (Some (demo_job "b" 1))) ∧
    jobs q' = <["python-langgraph" := [demo_job "c" 1]]> (jobs q) ∧ canceled q' = canceled q ∧
    inflight q' = <["b" := mkEntry (demo_job "b" 1) 9]> (inflight q).
Proof.
  intros q. apply (Dequeue_fifo 9 "python-langgraph" [demo_job "a" 1] (demo_job "b" 1) [demo_job "c" 1] q).
  - vm_compute. reflexivity.
  - repeat constructor; vm_compute; reflexivity.
  - vm_compute. intros H; discriminate H.
Defined.

Lemma ReclaimStale_outcome_witness :
  let e := mkEntry (demo_job "a" 2) 0 in
  let q := mkQueue ∅ ∅ {[ "a" := e ]} in
  let out := ReclaimStale 100 10 3 [("a", None)] q in
  inflight out.1.1.1 !! "a" = None ∧ bumped e ∈ chan out.1.1.1 "python-langgraph".
Proof.
  intros e q out.
  apply (ReclaimStale_outcome 100 10 3 [("a", None)] q out.1.1.1 out.1.1.2 out.1.2 "a" e).
  - split; intros *; simpl.
    + intros [<- <-]%lookup_singleton_Some. reflexivity.
    + intros _. apply not_elem_of_empty.
    + rewrite lookup_empty. intros H; discriminate H.
    + rewrite lookup_empty. intros H; discriminate H.
  - apply NoDup_singleton.
  - left.
  - vm_compute. reflexivity.
  - reflexivity.
Defined.
