(* ===== verification/QueueSteps.v ===== *)
(** * Concurrent callers of the in-process queue

    Each critical section of [internal/transport/inprocess/inprocess.go] is one
    step: an [Enqueue] caller between its cancellation check and its send, and
    a [Dequeue] caller between its receive and its lease insertion, hold their
    job in hand, so other callers interleave there as they do in the program.
    Ghost fields record which runs were submitted and which acknowledgements
    were accepted.

    The control plane submits a run once, at generation 1
    ([createRunCtx], [internal/api/runs.go]); the reaper uses one retry ceiling
    ([cmd/reclaim.go]). *)

From S2P Require Import Prelude Transport QueueSpec Inprocess.
Local Open Scope string_scope.
Local Open Scope Z_scope.

Record world := mkWorld {
  w_q : Queue;
  w_enq : list RunAssignment;    (* Enqueue callers past the check *)
  w_hand : list RunAssignment;   (* Dequeue callers before the lease insertion *)
  w_seen : gset string;          (* ghost: submitted runs *)
  w_acked : list (string * Z)    (* ghost: accepted acknowledgements *)
}.

Definition init_world : world := mkWorld NewQueue [] [] ∅ [].

Definition upd_q (w : world) (q : Queue) : world :=
  mkWorld q (w_enq w) (w_hand w) (w_seen w) (w_acked w).

Section steps.
Variable maxRetries : Z.

Inductive step : world → world → Prop :=
| st_enq_drop w a :
    RunID a ∉ w_seen w → Generation a = 1 → enqueue_dropped (w_q w) a = true →
    step w (mkWorld (w_q w) (w_enq w) (w_hand w) ({[RunID a]} ∪ w_seen w) (w_acked w))
| st_enq_pass w a :
    RunID a ∉ w_seen w → Generation a = 1 → enqueue_dropped (w_q w) a = false →
    step w (mkWorld (getChannel (w_q w) (RunnerKind a)) (a :: w_enq w) (w_hand w)
              ({[RunID a]} ∪ w_seen w) (w_acked w))
| st_enq_send w pre a post q' :
    w_enq w = (pre ++ a :: post)%list → chan_send (w_q w) (RunnerKind a) a = Some q' →
    step w (mkWorld q' (pre ++ post)%list (w_hand w) (w_seen w) (w_acked w))
| st_enq_done w pre a post :
    w_enq w = (pre ++ a :: post)%list →
    step w (mkWorld (w_q w) (pre ++ post)%list (w_hand w) (w_seen w) (w_acked w))
| st_deq_open w kind : step w (upd_q w (getChannel (w_q w) kind))
| st_deq_recv w kind a q' :
    chan_recv (w_q w) kind = Some (a, q') →
    step w (mkWorld q' (w_enq w) (a :: w_hand w) (w_seen w) (w_acked w))
| st_deq_record w pre a post now :
    w_hand w = (pre ++ a :: post)%list →
    step w (mkWorld (record_inflight now (w_q w) a).1 (w_enq w) (pre ++ post)%list
              (w_seen w) (w_acked w))
| st_ack w r g :
    step w (mkWorld (Ack (w_q w) r g).1 (w_enq w) (w_hand w) (w_seen w)
              (if (Ack (w_q w) r g).2 then (r, g) :: w_acked w else w_acked w))
| st_renew w now r g : step w (upd_q w (Renew now (w_q w) r g).1)
| st_nack w c r g : step w (upd_q w (Nack c (w_q w) r g).1)
| st_cancel w r : step w (upd_q w (Cancel (w_q w) r))
| st_reclaim w now maxAge sched :
    step w (upd_q w (ReclaimStale now maxAge maxRetries sched (w_q w)).1.1.1).

Definition reachable : world → Prop := rtc step init_world.
End steps.

(** ** Tokens: in the hand of an [Enqueue] or [Dequeue] caller, in a channel, or
    leased *)

Definition chan_toks (m : gmap string (list RunAssignment)) : list (string * Z) :=
  map_to_list m ≫= λ kl, tok <$> kl.2.

Definition lease_toks (m : gmap string inflightEntry) : list (string * Z) :=
  (λ re, (re.1, Generation (job re.2))) <$> map_to_list m.

Definition qtoks (q : Queue) : list (string * Z) :=
  (chan_toks (jobs q) ++ lease_toks (inflight q))%list.

Definition toks (w : world) : list (string * Z) :=
  ((tok <$> w_enq w) ++ (tok <$> w_hand w) ++ qtoks (w_q w))%list.

Lemma chan_toks_insert m k l :
  chan_toks (<[k:=l]> m) ≡ₚ ((tok <$> l) ++ chan_toks (delete k m))%list.
Proof.
  unfold chan_toks. rewrite <- insert_delete_eq.
  rewrite map_to_list_insert by apply lookup_delete_eq. done.
Qed.

Lemma chan_toks_split m k :
  chan_toks m ≡ₚ ((tok <$> map_get [] m k) ++ chan_toks (delete k m))%list.
Proof.
  unfold map_get. destruct (m !! k) as [l|] eqn:E; simpl.
  - rewrite <- (insert_id m k l) at 1 by done. apply chan_toks_insert.
  - by rewrite delete_id.
Qed.

Lemma lease_toks_insert m r e :
  m !! r = None → lease_toks (<[r:=e]> m) ≡ₚ (r, Generation (job e)) :: lease_toks m.
Proof. intros. unfold lease_toks. by rewrite map_to_list_insert. Qed.

Lemma lease_toks_split m r e :
  m !! r = Some e → lease_toks m ≡ₚ (r, Generation (job e)) :: lease_toks (delete r m).
Proof.
  intros H. rewrite <- (insert_id m r e) at 1 by done. rewrite <- insert_delete_eq.
  apply lease_toks_insert, lookup_delete_eq.
Qed.

Lemma lease_toks_fst m r : r ∈ (lease_toks m).*1 ↔ is_Some (m !! r).
Proof.
  unfold lease_toks. rewrite <- list_fmap_compose. unfold compose. simpl.
  rewrite list_elem_of_fmap. split.
  - intros ([r' e] & -> & H%elem_of_map_to_list). by exists e.
  - intros [e H]. exists (r, e). by rewrite elem_of_map_to_list.
Qed.

Lemma chan_toks_channelLocked q k : chan_toks (jobs (channelLocked q k)) ≡ₚ chan_toks (jobs q).
Proof.
  unfold channelLocked. destruct (jobs q !! k) eqn:E; [done|]. simpl.
  rewrite chan_toks_insert. simpl. by rewrite delete_id.
Qed.

Lemma qtoks_channelLocked q k : qtoks (channelLocked q k) ≡ₚ qtoks q.
Proof. unfold qtoks. by rewrite chan_toks_channelLocked, channelLocked_inflight. Qed.

Lemma qtoks_send q k a q' : chan_send q k a = Some q' → qtoks q' ≡ₚ tok a :: qtoks q.
Proof.
  intros (_ & Hj & _ & Hi)%chan_send_spec. unfold qtoks. rewrite Hj, Hi, chan_toks_insert.
  rewrite fmap_app. simpl. rewrite <- (channelLocked_chan q k k) at 1.
  rewrite (Permutation_app_comm (tok <$> _) [tok a]). simpl. constructor.
  rewrite <- (chan_toks_channelLocked q k).
  rewrite (chan_toks_split (jobs (channelLocked q k)) k). done.
Qed.

Lemma qtoks_recv q k a q' : chan_recv q k = Some (a, q') → qtoks q ≡ₚ tok a :: qtoks q'.
Proof.
  intros (l & Hl & Hj & _ & Hi)%chan_recv_spec. unfold qtoks. rewrite Hj, Hi, chan_toks_insert.
  rewrite (chan_toks_split (jobs q) k). unfold map_get. by rewrite Hl.
Qed.

Lemma qtoks_delete q r e :
  inflight q !! r = Some e →
  qtoks q ≡ₚ (r, Generation (job e)) :: qtoks (set_inflight (delete r (inflight q)) q).
Proof.
  intros H. unfold qtoks. simpl. rewrite (lease_toks_split _ _ _ H).
  by rewrite Permutation_middle.
Qed.

Lemma qtoks_ready c q a q' :
  enqueueReadyLocked c q a = Ok q' → qtoks q' ≡ₚ tok a :: qtoks q ∨ q' = q.
Proof.
  unfold enqueueReadyLocked. destruct c; [done|].
  case_bool_decide; [intros [= <-]; by right|].
  destruct (chan_send q (RunnerKind a) a) eqn:E; [|done]. intros [= <-]. left.
  eauto using qtoks_send.
Qed.

(** ** Token effect of every operation *)

Lemma qtoks_Ack q r g :
  if (Ack q r g).2 then qtoks q ≡ₚ (r, g) :: qtoks (Ack q r g).1 else (Ack q r g).1 = q.
Proof.
  unfold Ack, generationMatches. destruct (inflight q !! r) as [e|] eqn:E; [|done].
  destruct (Z.eqb_spec (Generation (job e)) g) as [<-|]; [|done]. simpl. by apply qtoks_delete.
Qed.

Lemma qtoks_Renew now q r g : qtoks (Renew now q r g).1 ≡ₚ qtoks q.
Proof.
  unfold Renew. destruct (inflight q !! r) as [e|] eqn:E; [|done].
  destruct (generationMatches e g); [|done]. unfold qtoks. simpl.
  rewrite (lease_toks_split _ _ _ E), <- insert_delete_eq.
  by rewrite lease_toks_insert by apply lookup_delete_eq.
Qed.

Lemma qtoks_requeue c q q' r e a :
  inflight q !! r = Some e → RunID a = r → Generation (job e) ≤ Generation a →
  enqueueReadyLocked c q a = Ok q' →
  evolves (qtoks q) (qtoks (set_inflight (delete r (inflight q')) q')).
Proof.
  intros He Hr Hg H. pose proof (enqueueReady_frame _ _ _ _ H) as (_ & _ & Hi & _).
  pose proof (qtoks_delete q r e He) as Hq.
  apply qtoks_ready in H as [H| ->].
  - pose proof (qtoks_delete q' r e ltac:(by rewrite Hi)) as Hq'.
    rewrite H, Hq, Permutation_swap in Hq'. apply Permutation_cons_inv in Hq'.
    rewrite <- Hq', Hq. unfold tok. rewrite Hr. by apply evolves_bump.
  - rewrite Hq. by apply evolves_submseteq, submseteq_cons.
Qed.

Section bounded.
Context (mr : Z) (Hmr : 1 ≤ mr < 2 ^ 63 - 1).

Lemma qtoks_reclaim_one c cut q r e q' n d :
  queue_wf q → inflight q !! r = Some e → gens_ok mr (qtoks q) →
  reclaim_one c cut mr q r e = Ok (q', n, d) →
  evolves (qtoks q) (qtoks q') ∧ gens_ok mr (qtoks q').
Proof using Hmr.
  intros Hwf He Hg. unfold reclaim_one.
  destruct (dequeuedAt e <? cut); [|by intros [= <- <- <-]].
  assert (1 ≤ Generation (job e) ≤ mr) as Hb.
  { apply (Hg r). rewrite (qtoks_delete q r e He). left. }
  rewrite wrap64_id by (unfold i64_range; lia).
  destruct ((0 <? mr) && (mr <? Generation (job e) + 1)) eqn:Eb; [by intros [= <- <- <-]|].
  assert (Generation (job e) + 1 ≤ mr) as Hle.
  { apply andb_false_iff in Eb as [Eb|Eb]; bool_solve; lia. }
  destruct (enqueueReadyLocked c q _) as [q1|] eqn:E; [|done]. intros [= <- <- <-].
  pose proof (wf_key q Hwf _ _ He) as Hk.
  assert (evolves (qtoks q) (qtoks (set_inflight (delete r (inflight q1)) q1))) as Hev.
  { eapply qtoks_requeue; [exact He| | |exact E]; [done|simpl; lia]. }
  split; [done|]. pose proof (enqueueReady_frame _ _ _ _ E) as (_ & _ & Hi & _).
  pose proof (qtoks_delete q1 r e ltac:(by rewrite Hi)) as Hq'.
  intros r' g' Hin. apply qtoks_ready in E as [E| ->].
  - rewrite E in Hq'.
    assert ((r', g') ∈ tok (set_generation (Generation (job e) + 1) (job e)) :: qtoks q) as Hx
      by (rewrite Hq'; by right).
    apply elem_of_cons in Hx as [[= -> ->]|]; [lia|eauto].
  - apply (Hg r'). rewrite Hq'. by right.
Qed.

Lemma qtoks_reclaim_loop cut sched q n d :
  queue_wf q → gens_ok mr (qtoks q) →
  let q' := (reclaim_loop cut mr sched q n d).1.1.1 in
  evolves (qtoks q) (qtoks q') ∧ gens_ok mr (qtoks q').
Proof using Hmr.
  revert q n d. induction sched as [|[r c] sched IH]; intros q n d Hwf Hg; simpl; [done|].
  destruct (inflight q !! r) as [e|] eqn:E; [|by apply IH].
  destruct (reclaim_one c cut mr q r e) as [[[q1 n1] d1]|] eqn:E1; [|done].
  destruct (qtoks_reclaim_one _ _ _ _ _ _ _ _ Hwf E Hg E1) as [H1 H2].
  destruct (IH q1 (n + n1) (d ++ d1)%list) as [H3 H4]; [by eapply wf_reclaim_one|done|].
  split; [by etrans|done].
Qed.
End bounded.

(** ** The queue refines its specification *)

Definition abs (w : world) : aqueue := mkAq (toks w) (w_seen w) (w_acked w).

Section invariant.
Context (mr : Z) (Hmr : 1 ≤ mr < 2 ^ 63 - 1).

Lemma gens_qtoks w : gens_ok mr (toks w) → gens_ok mr (qtoks (w_q w)).
Proof. intros H r g Hin. apply (H r). unfold toks. rewrite !elem_of_app. auto. Qed.

Lemma toks_upd w q :
  evolves (qtoks (w_q w)) (qtoks q) → gens_ok mr (qtoks q) → gens_ok mr (toks w) →
  aq_step mr (abs w) (abs (upd_q w q)).
Proof.
  intros He Hg Hg0. apply aq_evolve; [|..|done|done]; simpl; unfold toks; simpl.
  - apply evolves_app; [done|]. by apply evolves_app.
  - intros r g. rewrite !elem_of_app. intros [?|[?|?]]; [..|eauto];
      apply (Hg0 r); unfold toks; rewrite !elem_of_app; auto.
Qed.

Lemma toks_upd_sub w q :
  qtoks q ⊆+ qtoks (w_q w) → gens_ok mr (toks w) → aq_step mr (abs w) (abs (upd_q w q)).
Proof.
  intros Hs Hg. apply aq_sub; [done| |done|done]. simpl. unfold toks. simpl.
  by repeat (apply submseteq_app; [done|]).
Qed.

(** The run in a [Dequeue] caller's hand has no lease yet. *)
Lemma hand_not_leased w pre a post :
  NoDup (toks w).*1 → w_hand w = (pre ++ a :: post)%list →
  RunID a ∉ (lease_toks (inflight (w_q w))).*1.
Proof.
  intros Hnd Hh Hin. unfold toks, qtoks in Hnd. rewrite Hh, !fmap_app in Hnd.
  apply list.NoDup_app in Hnd as (_ & _ & Hnd). apply list.NoDup_app in Hnd as (_ & Hd & _).
  apply (Hd (RunID a)).
  - rewrite fmap_cons. apply elem_of_app. right. left.
  - apply elem_of_app. by right.
Qed.

Lemma Nack_sub c q r g : queue_wf q → qtoks (Nack c q r g).1 ⊆+ qtoks q.
Proof.
  intros Hwf. unfold Nack. destruct (inflight q !! r) as [e|] eqn:E; [|done].
  destruct (generationMatches e g); [|done].
  destruct (enqueueReadyLocked c q (job e)) as [q'|] eqn:E'; [|done]. simpl.
  pose proof (enqueueReady_frame _ _ _ _ E') as (_ & _ & Hi & _).
  pose proof (qtoks_delete q' r e ltac:(by rewrite Hi)) as Hq'.
  pose proof (qtoks_delete q r e E) as Hq. pose proof (wf_key q Hwf _ _ E) as Hk.
  apply qtoks_ready in E' as [E'| ->].
  - rewrite E', Hq, Permutation_swap in Hq'. apply Permutation_cons_inv in Hq'.
    rewrite <- Hq', Hq. unfold tok. by rewrite Hk.
  - rewrite Hq. by apply submseteq_cons.
Qed.

Lemma Cancel_sub q r : qtoks (Cancel q r) ⊆+ qtoks q.
Proof.
  unfold qtoks. simpl. apply submseteq_app; [done|].
  destruct (inflight q !! r) as [e|] eqn:E; [|by rewrite delete_id].
  rewrite (lease_toks_split _ _ _ E). by apply submseteq_cons.
Qed.

Lemma record_sub now q a :
  RunID a ∉ (lease_toks (inflight q)).*1 → qtoks (record_inflight now q a).1 ⊆+ tok a :: qtoks q.
Proof.
  rewrite lease_toks_fst. intros H. unfold record_inflight. case_bool_decide; simpl.
  - by apply submseteq_cons.
  - unfold qtoks. simpl. rewrite lease_toks_insert by (by apply eq_None_not_Some).
    simpl. by rewrite <- Permutation_middle.
Qed.

(** Taking a job out of a caller's hand. *)
Lemma toks_enq_split w pre a post :
  w_enq w = (pre ++ a :: post)%list →
  toks w ≡ₚ tok a :: ((tok <$> (pre ++ post)) ++ (tok <$> w_hand w) ++ qtoks (w_q w))%list.
Proof.
  intros He. unfold toks. rewrite He, !fmap_app, fmap_cons. by rewrite <- Permutation_middle.
Qed.

Lemma toks_hand_split w pre a post :
  w_hand w = (pre ++ a :: post)%list →
  toks w ≡ₚ ((tok <$> w_enq w) ++ (tok <$> (pre ++ post)) ++ tok a :: qtoks (w_q w))%list.
Proof.
  intros Hh. unfold toks. rewrite Hh, !fmap_app, fmap_cons. f_equiv.
  rewrite <- (Permutation_middle (tok <$> pre)). simpl. by rewrite <- Permutation_middle.
Qed.

Lemma queue_simulates : simulates abs (λ w, queue_wf (w_q w)) (step mr) mr.
Proof using Hmr.
  intros w w' Hwf [Hnd Hseen Hg _ _] Hs. simpl in Hnd, Hg. pose proof (gens_qtoks w Hg) as Hgq.
  destruct Hs as [w a Ha Hga Hd|w a Ha Hga Hd|w pre a post q' He Hs|w pre a post He|w k|w k a q' Hr
                 |w pre a post now Hh|w r g|w now r g|w c r g|w r|w now maxAge sched]; simpl in *.
  - split; [|done]. apply aq_sub; simpl; [done..|set_solver|done].
  - split; [|by apply wf_channelLocked]. eapply aq_submit; [|exact Ha|done|done].
    unfold abs, toks; simpl. rewrite qtoks_channelLocked. unfold tok at 1. by rewrite Hga.
  - split; [|by eapply wf_chan_send]. apply aq_sub; [done| |done|done].
    unfold abs at 2. cbn [aq_toks]. rewrite (toks_enq_split _ _ _ _ He). unfold abs, toks. simpl.
    rewrite (qtoks_send _ _ _ _ Hs). by rewrite <- !Permutation_middle.
  - split; [|done]. apply aq_sub; [done| |done|done].
    unfold abs at 2. cbn [aq_toks]. rewrite (toks_enq_split _ _ _ _ He). by apply submseteq_cons.
  - split; [|by apply wf_channelLocked]. apply toks_upd_sub; [|done]. by rewrite qtoks_channelLocked.
  - split; [|by eapply wf_chan_recv]. apply aq_sub; [done| |done|done].
    unfold abs, toks; simpl. rewrite (qtoks_recv _ _ _ _ Hr).
    by rewrite <- (Permutation_middle (tok <$> w_hand w)).
  - split; [|by destruct (record_inflight now (w_q w) a) eqn:E; eauto with runkite].
    apply aq_sub; [done| |done|done]. unfold abs at 2. cbn [aq_toks]. rewrite (toks_hand_split _ _ _ _ Hh). unfold abs, toks. simpl.
    repeat (apply submseteq_app; [done|]). apply record_sub. by eapply hand_not_leased.
  - pose proof (qtoks_Ack (w_q w) r g) as Ha. pose proof (wf_Ack (w_q w) r g Hwf).
    destruct (Ack (w_q w) r g) as [q' []]; simpl in *; (split; [|done]).
    + eapply (aq_ack _ _ _ r g); [|done|done]. unfold abs, toks. simpl. rewrite Ha.
      by rewrite <- !Permutation_middle.
    + subst q'. by apply aq_sub.
  - split; [|by apply wf_Renew]. apply toks_upd_sub; [|done]. by rewrite qtoks_Renew.
  - split; [|by apply wf_Nack]. apply toks_upd_sub; [|done]. by apply Nack_sub.
  - split; [|by apply wf_Cancel]. apply toks_upd_sub; [|done]. apply Cancel_sub.
  - split; [|by apply wf_reclaim_loop].
    destruct (qtoks_reclaim_loop mr Hmr (now - maxAge) sched (w_q w) 0 [] Hwf Hgq).
    by apply toks_upd.
Qed.

Lemma good_init : good abs (λ w, queue_wf (w_q w)) mr init_world.
Proof. split; [apply wf_NewQueue|apply aq_inv_init]. Qed.

Lemma good_reachable w : reachable mr w → good abs (λ w, queue_wf (w_q w)) mr w.
Proof using Hmr. apply (good_rtc _ _ (step mr) mr ltac:(lia) queue_simulates), good_init. Qed.

Lemma lease_tok w r e : inflight (w_q w) !! r = Some e → (r, Generation (job e)) ∈ toks w.
Proof.
  intros H. unfold toks. rewrite !elem_of_app. right; right.
  rewrite (qtoks_delete _ _ _ H). left.
Qed.

(** Exactly-once acknowledgement: in every interleaving of enqueue, dequeue,
    heartbeat, negative acknowledgement, cancellation and stale-lease sweeps, a
    run's acknowledgement is accepted at most once. *)
Theorem ack_accepted_once w : reachable mr w → NoDup (w_acked w).*1.
Proof using Hmr. intros [_ H]%good_reachable. apply (ai_once mr _ H). Qed.

(** Generation fencing is permanent: once any copy of run [r] has a
    generation above [g] (a sweep re-queued it), the dispatch [(r, g)] can
    neither acknowledge nor renew, in that state or in any later one. *)
Theorem superseded_is_fenced w w' r g g1 now :
  reachable mr w → (r, g1) ∈ toks w → g < g1 → rtc (step mr) w w' →
  (Ack (w_q w') r g).2 = false ∧ (Renew now (w_q w') r g).2 = false.
Proof using Hmr.
  intros Hi%good_reachable Hin Hlt Hs. unfold Ack, Renew, generationMatches.
  destruct (inflight (w_q w') !! r) as [e|] eqn:E; [|done].
  pose proof (fenced _ _ (step mr) mr ltac:(lia) queue_simulates w w' r g1 _ Hi Hin Hs (lease_tok _ _ _ E)) as Hg.
  by rewrite (proj2 (Z.eqb_neq _ _)) by lia.
Qed.

Lemma canceled_mono w w' r : step mr w w' → r ∈ canceled (w_q w) → r ∈ canceled (w_q w').
Proof.
  intros Hs Hr. destruct Hs as [|w a|w pre a post q' He Hs| |w k|w k a q' Hq|w pre a post now Hh
    |w r0 g|w now r0 g|w c r0 g|w r0|w now maxAge sched]; simpl in *; try done.
  - unfold getChannel. by rewrite channelLocked_canceled.
  - apply chan_send_spec in Hs as (_ & _ & -> & _). done.
  - unfold getChannel. by rewrite channelLocked_canceled.
  - apply chan_recv_spec in Hq as (l & _ & _ & -> & _). done.
  - unfold record_inflight. by case_bool_decide.
  - unfold Ack. by repeat case_match.
  - unfold Renew. by repeat case_match.
  - unfold Nack. destruct (inflight (w_q w) !! r0); [|done]. destruct (generationMatches _ _); [|done].
    destruct (enqueueReadyLocked c (w_q w) _) eqn:E; [|done]. simpl.
    by apply enqueueReady_frame in E as (_ & -> & _).
  - apply elem_of_union. by right.
  - unfold ReclaimStale. destruct (reclaim_loop _ _ _ _ _ _) as [[[q' n] d] er] eqn:E.
    apply reclaim_loop_frame in E as (E & _). simpl. by rewrite E.
Qed.

(** Cancellation is final: after [Cancel r], in every later state run [r]
    holds no in-flight lease, and a [Dequeue] caller that has received a copy
    of the job discards it instead of dispatching it. *)
Theorem canceled_never_dispatched w w' r a now :
  reachable mr w → rtc (step mr) (upd_q w (Cancel (w_q w) r)) w' → RunID a = r →
  LookupInflight (w_q w') r = None ∧ (record_inflight now (w_q w') a).2 = None.
Proof using Hmr.
  intros Hi%good_reachable Hs Ha.
  assert (good abs (λ w, queue_wf (w_q w)) mr w') as [Hwf _].
  { eapply (good_rtc _ _ (step mr) mr ltac:(lia) queue_simulates); [|exact Hs].
    eapply (good_step _ _ (step mr) mr ltac:(lia) queue_simulates); [exact Hi|constructor]. }
  assert (r ∈ canceled (w_q w')) as Hc.
  { assert (r ∈ canceled (w_q (upd_q w (Cancel (w_q w) r)))) as Hc0
      by (simpl; apply elem_of_union; left; by apply elem_of_singleton).
    revert Hc0. clear Hwf. induction Hs; eauto using canceled_mono. }
  split.
  - unfold LookupInflight. destruct (inflight (w_q w') !! r) as [e|] eqn:E; [|done].
    by destruct (wf_cancel _ Hwf _ _ E).
  - unfold record_inflight. rewrite Ha. by rewrite bool_decide_eq_true_2.
Qed.
End invariant.

(** ** Witnesses: one run dispatched, reclaimed and acknowledged *)

Definition sample_job : RunAssignment :=
  mkAssignment "run-1" "thread-1" "python-langgraph" "agent" "{}" "{}" None "null" [] [] None None
    "default" None 1 "".

(** Leased by a runner at time 0. *)
Definition sample_leased : Queue :=
  mkQueue {[ "python-langgraph" := [] ]} ∅ {[ "run-1" := mkEntry sample_job 0 ]}.

(** Reclaimed at time 100 and leased again at generation 2. *)
Definition sample_requeued : Queue :=
  mkQueue {[ "python-langgraph" := [set_generation 2 sample_job] ]} ∅ ∅.

Definition sample_w (q : Queue) (acked : list (string * Z)) : world :=
  mkWorld q [] [] {["run-1"]} acked.

(** Closes a computed end of a run. *)
Ltac rtc_done :=
  match goal with |- rtc _ ?a ?b => replace a with b by (vm_compute; reflexivity) end; apply rtc_refl.

Lemma sample_dispatched : reachable 3 (sample_w sample_leased []).
Proof.
  unfold reachable.
  eapply rtc_l; [apply (st_enq_pass 3 init_world sample_job); [set_solver|done|by vm_compute]|].
  eapply rtc_l; [apply (st_enq_send 3 _ [] sample_job []); [done|by vm_compute]|].
  eapply rtc_l; [eapply (st_deq_recv 3 _ "python-langgraph"); by vm_compute|].
  eapply rtc_l; [apply (st_deq_record 3 _ [] sample_job [] 0); done|].
  rtc_done.
Qed.

Lemma sample_reclaimed :
  rtc (step 3) (sample_w sample_leased []) (sample_w sample_requeued []).
Proof.
  eapply rtc_l; [apply (st_reclaim 3 _ 100 10 [("run-1", None)])|]. rtc_done.
Qed.

Lemma sample_acked : reachable 3 (sample_w (mkQueue {[ "python-langgraph" := [] ]} ∅ ∅) [("run-1", 1)]).
Proof.
  unfold reachable. etrans; [apply sample_dispatched|].
  eapply rtc_l; [apply (st_ack 3 _ "run-1" 1)|]. rtc_done.
Qed.

Lemma ack_accepted_once_witness : NoDup ([("run-1", 1)] : list (string * Z)).*1.
Proof.
  exact (ack_accepted_once 3 ltac:(lia) _ sample_acked).
Defined.

Lemma superseded_is_fenced_witness :
  (Ack sample_requeued "run-1" 1).2 = false ∧ (Renew 7 sample_requeued "run-1" 1).2 = false.
Proof.
  apply (superseded_is_fenced 3 ltac:(lia) (sample_w sample_requeued [])
           (sample_w sample_requeued []) "run-1" 1 2 7).
  - unfold reachable; etrans; [apply sample_dispatched|apply sample_reclaimed].
  - apply list_elem_of_In. vm_compute. by left.
  - lia.
  - apply rtc_refl.
Defined.

Lemma canceled_never_dispatched_witness :
  LookupInflight (Cancel sample_leased "run-1") "run-1" = None ∧
  (record_inflight 5 (Cancel sample_leased "run-1") sample_job).2 = None.
Proof.
  apply (canceled_never_dispatched 3 ltac:(lia) (sample_w sample_leased [])
           (upd_q (sample_w sample_leased []) (Cancel sample_leased "run-1")) "run-1" sample_job 5).
  - apply sample_dispatched.
  - apply rtc_refl.
  - reflexivity.
Defined.
