(* ===== verification/RedisQueue.v ===== *)
(** * The Redis job queue

    Models the job queue of [internal/transport/redis/redis.go], the queue of
    multi-instance deployments.  All of its state is in Redis: the ready lists,
    the pending list, and the in-flight payloads, scores and generations; a Lua
    script is one atomic function on it.  Every command may fail before it runs,
    or run and lose its reply.

    Payloads are the JSON bytes of an assignment.  The encoder and the decoders
    (Go's and the script's) are the class [Wire]: a script appends a generation
    field to the text, and decoders take the last of two equal keys. *)

From S2P Require Import Prelude Transport.
Local Open Scope string_scope.
Local Open Scope Z_scope.

Class Wire := {
  payload : Type;
  payload_eq_dec : EqDecision payload;
  marshal : RunAssignment → payload;
  unmarshal : payload → option RunAssignment;
  append_generation : Z → payload → payload;  (* gsub('}$', ',"generation":N}') *)
  wire_job : RunAssignment → Prop             (* jobs whose text is faithful *)
}.
#[global] Existing Instance payload_eq_dec.

Class WireOk `{Wire} := {
  wire_round a : wire_job a → unmarshal (marshal a) = Some a;
  wire_append g p a : unmarshal p = Some a → unmarshal (append_generation g p) = Some (set_generation g a)
}.

Definition canceledMemberTTL : Z := 24 * 60 * 60 * 1000.

Section redis.
Context {WR : Wire}.

Record Redis := mkRedis {
  ready : gmap string (list payload);  (* rk:queue:<kind>; the head is the left end *)
  pending : list payload;              (* rk:inflight:pending *)
  idata : gmap string payload;         (* rk:inflight:data *)
  izset : gmap string Z;               (* rk:inflight:zset *)
  igen : gmap string Z;                (* rk:inflight:generation *)
  czset : gmap string Z                (* rk:canceled:z *)
}.

Definition NewQueue : Redis := mkRedis ∅ [] ∅ ∅ ∅ ∅.

Definition set_ready (m : gmap string (list payload)) (q : Redis) : Redis :=
  mkRedis m (pending q) (idata q) (izset q) (igen q) (czset q).
Definition set_pending (l : list payload) (q : Redis) : Redis :=
  mkRedis (ready q) l (idata q) (izset q) (igen q) (czset q).
Definition set_czset (m : gmap string Z) (q : Redis) : Redis :=
  mkRedis (ready q) (pending q) (idata q) (izset q) (igen q) m.

(** [HDEL data], [ZREM zset], [HDEL gen]. *)
Definition drop_inflight (id : string) (q : Redis) : Redis :=
  mkRedis (ready q) (pending q) (delete id (idata q)) (delete id (izset q)) (delete id (igen q)) (czset q).

Definition lpush (kind : string) (p : payload) (q : Redis) : Redis :=
  set_ready (<[kind := p :: map_get [] (ready q) kind]> (ready q)) q.

(** A command or script [f] under a reply. *)
Definition eval {A} (o : reply) (f : Redis → Redis * A) (q : Redis) : Redis * res go_error A :=
  match o with
  | RFine => let (q', a) := f q in (q', Ok a)
  | RLost => ((f q).1, Err ErrBackend)
  | RDown => (q, Err ErrBackend)
  end.

(** The cancel marker check of the scripts: an expired marker is removed. *)
Definition cancel_check (now : Z) (id : string) (q : Redis) : Redis * bool :=
  match czset q !! id with
  | None => (q, false)
  | Some score => if canceledMemberTTL <? now - score then (set_czset (delete id (czset q)) q, false)
                  else (q, true)
  end.

(** ** Enqueue *)

(** [ZSCORE], and [ZREM] of an expired marker, whose own failure is ignored. *)
Definition isCanceled (now : Z) (o orem : reply) (id : string) (q : Redis) : Redis * res go_error bool :=
  match o with
  | RFine =>
      match czset q !! id with
      | None => (q, Ok false)
      | Some score =>
          if canceledMemberTTL <? now - score
          then (match orem with RDown => q | _ => set_czset (delete id (czset q)) q end, Ok false)
          else (q, Ok true)
      end
  | _ => (q, Err ErrBackend)
  end.

Definition Enqueue (now : Z) (o orem opush : reply) (job : RunAssignment) (q : Redis)
  : Redis * res go_error unit :=
  match isCanceled now o orem (RunID job) q with
  | (q, Err e) => (q, Err e)
  | (q, Ok true) => (q, Ok tt)
  | (q, Ok false) => eval opush (λ q, (lpush (RunnerKind job) (marshal job) q, tt)) q
  end.

(** ** Dequeue *)

(** [LREM list 1 p] *)
Fixpoint lrem (p : payload) (l : list payload) : list payload :=
  match l with
  | [] => []
  | x :: l => if decide (x = p) then l else x :: lrem p l
  end.

(** [HSET data], [ZADD zset], [HSET gen]. *)
Definition record (now : Z) (p : payload) (job : RunAssignment) (q : Redis) : Redis :=
  mkRedis (ready q) (pending q) (<[RunID job := p]> (idata q)) (<[RunID job := now]> (izset q))
    (<[RunID job := Generation job]> (igen q)) (czset q).

(** [promoteScript]: is the job now in flight? *)
Definition promoteScript (now : Z) (p : payload) (q : Redis) : Redis * bool :=
  match unmarshal p with
  | None => (set_pending (lrem p (pending q)) q, false)
  | Some job =>
      if decide (p ∈ pending q) then
        let q := set_pending (lrem p (pending q)) q in
        let (q, canceled) := cancel_check now (RunID job) q in
        if canceled then (q, false) else (record now p job q, true)
      else (q, bool_decide (is_Some (idata q !! RunID job)))
  end.

(** One payload taken from the pending list by [drainPendingScript]. *)
Definition drain_one (now : Z) (q : Redis) (p : payload) : Redis :=
  match unmarshal p with
  | None => q
  | Some job =>
      let (q, canceled) := cancel_check now (RunID job) q in
      if canceled then q else record now p job q
  end.

Definition drainPendingScript (now : Z) (q : Redis) : Redis :=
  foldl (drain_one now) (set_pending [] q) (pending q).

(** [BLMOVE queue pending RIGHT LEFT]; [None]: nothing to move. *)
Definition blmove (kind : string) (q : Redis) : option (payload * Redis) :=
  match list.last (map_get [] (ready q) kind) with
  | None => None
  | Some p =>
      let l := take (pred (length (map_get [] (ready q) kind))) (map_get [] (ready q) kind) in
      Some (p, mkRedis (<[kind := l]> (ready q)) (p :: pending q) (idata q) (izset q) (igen q) (czset q))
  end.

(** One turn of [Dequeue]'s loop. *)
Inductive dq_event :=
| DqCtx                                   (* ctx.Err() *)
| DqDeadline                              (* no time remains *)
| DqNil (expired : bool)                  (* BLMOVE timed out; after the deadline? *)
| DqErr (moved : bool)                    (* BLMOVE failed; had it moved a job? *)
| DqMove (orem opromote : reply).         (* BLMOVE moved a job *)

(** [None]: the oracle ends, the call is blocked. *)
Fixpoint Dequeue (now : Z) (evs : list dq_event) (q : Redis) (kind : string)
  : option (Redis * res go_error (option RunAssignment)) :=
  match evs with
  | [] => None
  | ev :: evs =>
      match ev with
      | DqCtx => Some (q, Err ErrCanceled)
      | DqDeadline | DqNil true => Some (q, Ok None)
      | DqNil false => Dequeue now evs q kind
      | DqErr moved =>
          Some (match blmove kind q with Some (_, q') => if moved then q' else q | None => q end,
                Err ErrBackend)
      | DqMove orem opromote =>
          match blmove kind q with
          | None => None
          | Some (p, q) =>
              match unmarshal p with
              | None =>
                  Dequeue now evs (match orem with RDown => q | _ => set_pending (lrem p (pending q)) q end) kind
              | Some job =>
                  match eval opromote (promoteScript now p) q with
                  | (q, Err e) => Some (q, Err e)
                  | (q, Ok false) => Dequeue now evs q kind
                  | (q, Ok true) => Some (q, Ok (Some job))
                  end
              end
          end
      end
  end.

(** ** Fenced operations *)

(** [checkGenerationScript]'s current generation; a record without an index has
    the one of its payload. *)
Definition current_gen (id : string) (q : Redis) : option Z :=
  match igen q !! id with
  | Some g => Some g
  | None => match idata q !! id ≫= unmarshal with Some job => Some (Generation job) | None => None end
  end.

Definition fence (id : string) (g : Z) (q : Redis) : bool :=
  bool_decide (is_Some (idata q !! id)) && bool_decide (current_gen id q = Some g).

Definition ackScript (id : string) (g : Z) (q : Redis) : Redis * bool :=
  if fence id g q then (drop_inflight id q, true) else (q, false).

Definition Ack (o : reply) (id : string) (g : Z) (q : Redis) : Redis * res go_error bool :=
  eval o (ackScript id g) q.

Definition renewScript (now : Z) (id : string) (g : Z) (q : Redis) : Redis * bool :=
  if fence id g q
  then (mkRedis (ready q) (pending q) (idata q) (<[id := now]> (izset q)) (igen q) (czset q), true)
  else (q, false).

Definition Renew (o : reply) (now : Z) (id : string) (g : Z) (q : Redis) : Redis * res go_error bool :=
  eval o (renewScript now id g) q.

(** [false]: the script's own error reply. *)
Definition nackScript (now : Z) (id : string) (g : Z) (q : Redis) : Redis * bool :=
  match idata q !! id with
  | None => (q, true)
  | Some data =>
      if negb (fence id g q) then (q, true)
      else
        match unmarshal data with
        | None => (q, false)
        | Some job =>
            let keep := match czset q !! id with Some s => s <? now - canceledMemberTTL | None => true end in
            (drop_inflight id (if keep then lpush (RunnerKind job) data q else q), true)
        end
  end.

Definition Nack (o : reply) (now : Z) (id : string) (g : Z) (q : Redis) : Redis * option go_error :=
  match eval o (nackScript now id g) q with
  | (q, Ok true) => (q, None)
  | (q, Ok false) => (q, Some ErrBackend)
  | (q, Err e) => (q, Some e)
  end.

Definition LookupInflight (o : reply) (id : string) (q : Redis) : res go_error (option RunAssignment) :=
  match o with
  | RFine =>
      match idata q !! id with
      | None => Ok None
      | Some p => match unmarshal p with Some job => Ok (Some job) | None => Err ErrBackend end
      end
  | _ => Err ErrBackend
  end.

(** [ZREMRANGEBYSCORE -inf cutoff] *)
Definition trim (cutoff : Z) (m : gmap string Z) : gmap string Z := filter (λ kv, cutoff < kv.2) m.

(** The pipeline runs as one transaction. *)
Definition Cancel (o : reply) (now : Z) (id : string) (q : Redis) : Redis * res go_error unit :=
  eval o (λ q, (set_czset (trim (now - canceledMemberTTL) (<[id := now]> (czset q))) (drop_inflight id q), tt)) q.

(** ** Stale leases *)

(** [ZRANGEBYSCORE -inf cutoff]: by score, then by member. *)
Definition stale_before (a b : string * Z) : bool := (a.2 <? b.2) || ((a.2 =? b.2) && String.leb a.1 b.1).

Definition stale_ids (cutoff : Z) (q : Redis) : list string :=
  (sort_by stale_before (filter (λ kv, kv.2 ≤ cutoff) (map_to_list (izset q)))).*1.

(** A dead entry: run, rejected generation, payload. *)
Definition dead_entry : Type := string * Z * payload.

(** One stale run; [None] is the script's error reply. *)
Definition reclaim_one (now maxRetries : Z) (q : Redis) (id : string)
  : Redis * option (Z * list dead_entry) :=
  match idata q !! id with
  | None =>
      (mkRedis (ready q) (pending q) (idata q) (delete id (izset q)) (delete id (igen q)) (czset q), Some (0, []))
  | Some p =>
      let (q, canceled) := cancel_check now id q in
      if canceled then (drop_inflight id q, Some (0, []))
      else
        match unmarshal p with
        | None => (q, None)
        | Some job =>
            let cur := default (Generation job) (igen q !! id) in
            if cur <? 0 then (q, None)
            else
              let q := mkRedis (ready q) (pending q) (idata q) (izset q) (<[id := cur]> (igen q)) (czset q) in
              let next := cur + 1 in
              if (0 <? maxRetries) && (maxRetries <? next) then (q, Some (0, [(id, next, p)]))
              else
                let q := lpush (RunnerKind job) (append_generation next p) q in
                (mkRedis (ready q) (pending q) (delete id (idata q)) (delete id (izset q))
                   (<[id := next]> (igen q)) (czset q), Some (1, []))
        end
  end.

Fixpoint reclaim_loop (now maxRetries : Z) (ids : list string) (q : Redis) (n : Z) (dead : list dead_entry)
  : Redis * option (Z * list dead_entry) :=
  match ids with
  | [] => (set_czset (trim (now - canceledMemberTTL) (czset q)) q, Some (n, dead))
  | id :: ids =>
      match reclaim_one now maxRetries q id with
      | (q, None) => (q, None)
      | (q, Some (n', d')) => reclaim_loop now maxRetries ids q (n + n') (dead ++ d')%list
      end
  end.

Definition reclaimStaleScript (now cutoff maxRetries : Z) (q : Redis) : Redis * option (Z * list dead_entry) :=
  reclaim_loop now maxRetries (stale_ids cutoff q) q 0 [].

Definition parseDeadEntry (e : dead_entry) : option PoisonPill :=
  let '(id, gen, p) := e in
  if String.eqb id "" || (gen <=? 0) then None
  else
    match unmarshal p with
    | None => None
    | Some job => if String.eqb (RunID job) id then Some (mkPill id gen (GraphID job) (TenantID job)) else None
    end.

(** The count, the pills and whether the error is nil. *)
Definition ReclaimStale (now maxAge maxRetries : Z) (odrain o : reply) (q : Redis)
  : Redis * Z * list PoisonPill * bool :=
  match eval odrain (λ q, (drainPendingScript now q, tt)) q with
  | (q, Err _) => (q, 0, [], false)
  | (q, Ok _) =>
      match eval o (reclaimStaleScript now (now - maxAge) maxRetries) q with
      | (q, Err _) | (q, Ok None) => (q, 0, [], false)
      | (q, Ok (Some (n, dead))) =>
          match mapM parseDeadEntry dead with
          | Some pills => (q, n, pills, true)
          | None => (q, n, [], false)
          end
      end
  end.

Definition Len (q : Redis) : Z := foldr (λ kl n, Z.of_nat (length kl.2) + n) 0 (map_to_list (ready q)).

(** ** The generation index agrees with the payloads *)

Definition redis_wf (q : Redis) : Prop :=
  ∀ r p, idata q !! r = Some p →
    ∃ a, unmarshal p = Some a ∧ RunID a = r ∧ igen q !! r = Some (Generation a).

(** Operations that leave the in-flight payloads and generations alone. *)
Definition same_leases (q q' : Redis) : Prop := idata q' = idata q ∧ igen q' = igen q.

Lemma same_leases_refl q : same_leases q q.
Proof. done. Qed.

Lemma same_leases_trans q1 q2 q3 : same_leases q1 q2 → same_leases q2 q3 → same_leases q1 q3.
Proof. unfold same_leases. intros [-> ->] [-> ->]. done. Qed.

Lemma wf_same q q' : same_leases q q' → redis_wf q → redis_wf q'.
Proof. intros [Hd Hg] Hw r p. rewrite Hd, Hg. apply Hw. Qed.

Lemma wf_drop id q : redis_wf q → redis_wf (drop_inflight id q).
Proof.
  intros Hw r p. simpl. intros [Hne Hp]%lookup_delete_Some. rewrite lookup_delete_ne by done. by apply Hw.
Qed.

Lemma wf_record now p a q : unmarshal p = Some a → redis_wf q → redis_wf (record now p a q).
Proof.
  intros Ha Hw r p'. simpl. destruct (decide (RunID a = r)) as [<-|Hne].
  - rewrite !lookup_insert_eq. intros [= <-]. by exists a.
  - rewrite !lookup_insert_ne by done. apply Hw.
Qed.

Lemma cancel_check_same now id q : same_leases q (cancel_check now id q).1.
Proof. unfold cancel_check. destruct (czset q !! id); [|done]. by destruct (_ <? _). Qed.

Lemma wf_promote now p q : redis_wf q → redis_wf (promoteScript now p q).1.
Proof.
  intros Hw. unfold promoteScript. destruct (unmarshal p) as [a|] eqn:Ha; [|by apply (wf_same q)].
  destruct (decide _); [|done].
  pose proof (cancel_check_same now (RunID a) (set_pending (lrem p (pending q)) q)) as Hs.
  destruct (cancel_check _ _ _) as [q1 []]; simpl in *.
  - by eapply (wf_same q).
  - apply wf_record; [done|]. by eapply (wf_same q).
Qed.

Lemma wf_drain_one now q p : redis_wf q → redis_wf (drain_one now q p).
Proof.
  intros Hw. unfold drain_one. destruct (unmarshal p) as [a|] eqn:Ha; [|done].
  pose proof (cancel_check_same now (RunID a) q) as Hs. destruct (cancel_check _ _ _) as [q1 []]; simpl in *.
  - by eapply wf_same.
  - apply wf_record; [done|]. by eapply wf_same.
Qed.

Lemma wf_drain now q : redis_wf q → redis_wf (drainPendingScript now q).
Proof.
  intros Hw. unfold drainPendingScript. assert (redis_wf (set_pending [] q)) as H by (by apply (wf_same q)).
  revert H. generalize (set_pending [] q). induction (pending q) as [|p l IH]; intros q0 H0; simpl; [done|].
  by apply IH, wf_drain_one.
Qed.

Lemma redis_wf_reclaim_one now mr q id : redis_wf q → redis_wf (reclaim_one now mr q id).1.
Proof.
  intros Hw. unfold reclaim_one. destruct (idata q !! id) as [p|] eqn:Hp; simpl.
  2: { intros r p Hr. simpl in *. rewrite lookup_delete_ne; [by apply Hw|]. intros ->. congruence. }
  pose proof (cancel_check_same now id q) as Hs. destruct (cancel_check now id q) as [q1 c]. simpl in Hs.
  assert (Hw1 : redis_wf q1) by (by eapply wf_same).
  assert (Hp1 : idata q1 !! id = Some p) by (destruct Hs as [-> _]; done).
  destruct c; [by apply wf_drop|]. destruct (Hw1 _ _ Hp1) as (a&Ha&Hid&Hg). rewrite Ha, Hg. simpl.
  assert (Hins : <[id:=Generation a]> (igen q1) = igen q1) by (by apply insert_id). rewrite Hins.
  destruct (_ <? 0); [done|]. destruct (_ && _); [by apply (wf_same q1)|]. simpl.
  intros r p' Hr. simpl in *. apply lookup_delete_Some in Hr as [Hne Hr]. rewrite lookup_insert_ne by done. by apply Hw1.
Qed.

Lemma redis_wf_reclaim_loop now mr ids q n d : redis_wf q → redis_wf (reclaim_loop now mr ids q n d).1.
Proof.
  revert q n d. induction ids as [|id ids IH]; intros q n d Hw; simpl; [by apply (wf_same q)|].
  pose proof (redis_wf_reclaim_one now mr q id Hw). destruct (reclaim_one now mr q id) as [q1 [[n' d']|]]; [by apply IH|done].
Qed.

Lemma wf_eval {A} o (f : Redis → Redis * A) q : redis_wf (f q).1 → redis_wf q → redis_wf (eval o f q).1.
Proof. unfold eval. destruct o; simpl; [|done..]. by destruct (f q). Qed.

Lemma wf_ReclaimStale now maxAge mr od o q : redis_wf q → redis_wf (ReclaimStale now maxAge mr od o q).1.1.1.
Proof.
  intros Hw. unfold ReclaimStale.
  pose proof (wf_eval od (λ q, (drainPendingScript now q, tt)) q (wf_drain now q Hw) Hw) as H1.
  destruct (eval od _ q) as [q1 [[]|e]]; [|done]. simpl in H1.
  pose proof (wf_eval o (reclaimStaleScript now (now - maxAge) mr) q1 (redis_wf_reclaim_loop _ _ _ _ _ _ H1) H1) as H2.
  destruct (eval o _ q1) as [q2 [[[n d]|]|e]]; try done. by destruct (mapM parseDeadEntry d).
Qed.

Lemma redis_wf_Cancel o now id q : redis_wf q → redis_wf (Cancel o now id q).1.
Proof. intros Hw. apply wf_eval; [|done]. simpl. by apply (wf_same (drop_inflight id q)), wf_drop. Qed.

Lemma isCanceled_same now o orem id q : same_leases q (isCanceled now o orem id q).1.
Proof.
  unfold isCanceled. destruct o; [|done..]. destruct (czset q !! id); [|done].
  destruct (_ <? _); [|done]. by destruct orem.
Qed.

Lemma wf_Enqueue now o orem op job q : redis_wf q → redis_wf (Enqueue now o orem op job q).1.
Proof.
  intros Hw. unfold Enqueue. pose proof (isCanceled_same now o orem (RunID job) q) as Hs.
  destruct (isCanceled _ _ _ _ _) as [q1 [[]|e]]; simpl in Hs; try (by eapply wf_same).
  assert (redis_wf q1) by (by eapply wf_same). by apply wf_eval.
Qed.

Lemma redis_wf_Ack o id g q : redis_wf q → redis_wf (Ack o id g q).1.
Proof. intros Hw. apply wf_eval; [|done]. unfold ackScript. destruct (fence id g q); [by apply wf_drop|done]. Qed.

Lemma redis_wf_Renew o now id g q : redis_wf q → redis_wf (Renew o now id g q).1.
Proof. intros Hw. apply wf_eval; [|done]. unfold renewScript. by destruct (fence id g q). Qed.

Lemma redis_wf_Nack o now id g q : redis_wf q → redis_wf (Nack o now id g q).1.
Proof.
  intros Hw. unfold Nack. assert (redis_wf (nackScript now id g q).1) as Hn.
  { unfold nackScript. destruct (idata q !! id) as [p|]; [|done]. destruct (negb _); [done|].
    destruct (unmarshal p); [|done]. simpl. apply wf_drop. by destruct (czset q !! id) as [sc|]; [destruct (_ <? _)|]. }
  pose proof (wf_eval o (nackScript now id g) q Hn Hw) as H. by destruct (eval o _ q) as [q1 [[]|e]].
Qed.

(** ** The queue contract *)

Definition lease (q : Redis) (r : string) : option RunAssignment := idata q !! r ≫= unmarshal.

Lemma blmove_spec kind q p q' :
  blmove kind q = Some (p, q') →
  ∃ l, map_get [] (ready q) kind = (l ++ [p])%list ∧
    q' = mkRedis (<[kind := l]> (ready q)) (p :: pending q) (idata q) (izset q) (igen q) (czset q).
Proof.
  unfold blmove. set (l := map_get [] (ready q) kind). clearbody l.
  destruct (list.last l) as [x|] eqn:E; [|done]. intros [= -> <-].
  apply last_Some in E as [l' ->]. exists l'. split; [done|].
  rewrite length_app. simpl. rewrite Nat.add_1_r. simpl. by rewrite take_app_length.
Qed.

Lemma promote_pending now p a q q' b :
  unmarshal p = Some a → p ∈ pending q → promoteScript now p q = (q', b) →
  if b then idata q' = <[RunID a := p]> (idata q) else same_leases q q'.
Proof.
  intros Ha Hin. unfold promoteScript. rewrite Ha, decide_True by done.
  pose proof (cancel_check_same now (RunID a) (set_pending (lrem p (pending q)) q)) as [Hd Hg].
  destruct (cancel_check _ _ _) as [q1 []]; simpl in *; intros [= <- <-]; [done|]. simpl. by rewrite Hd.
Qed.

Lemma Dequeue_spec now evs q kind q' o :
  redis_wf q → Dequeue now evs q kind = Some (q', o) →
  redis_wf q' ∧
  match o with
  | Ok (Some a) => ∃ p, unmarshal p = Some a ∧ idata q' = <[RunID a := p]> (idata q)
  | Ok None => idata q' = idata q
  | Err _ => True
  end.
Proof.
  revert q. induction evs as [|ev evs IH]; intros q Hw; simpl; [done|].
  assert (Hcont : ∀ q1, redis_wf q1 → idata q1 = idata q → Dequeue now evs q1 kind = Some (q', o) →
    redis_wf q' ∧ match o with
    | Ok (Some a) => ∃ p, unmarshal p = Some a ∧ idata q' = <[RunID a := p]> (idata q)
    | Ok None => idata q' = idata q | Err _ => True end).
  { intros q1 Hw1 Hd H%IH; [|done]. by rewrite Hd in H. }
  destruct ev as [| |[]|moved|orem op]; try (by intros [= <- <-]).
  - by apply Hcont.
  - destruct (blmove kind q) as [[p q1]|] eqn:Hb; intros [= <- <-]; [|done].
    apply blmove_spec in Hb as (l&_&->). by destruct moved.
  - destruct (blmove kind q) as [[p q1]|] eqn:Hb; [|done]. apply blmove_spec in Hb as (l&_&->).
    destruct (unmarshal p) as [a|] eqn:Ha; [|destruct orem; by apply Hcont].
    set (q1 := mkRedis _ _ _ _ _ _). assert (Hw1 : redis_wf q1) by done.
    pose proof (wf_promote now p q1 Hw1) as Hw2.
    destruct op; simpl; [|by intros [= <- <-]..].
    destruct (promoteScript now p q1) as [q2 b] eqn:Hpr.
    apply (promote_pending _ _ a) in Hpr; [|done|left]. destruct b.
    + intros [= <- <-]. split; [done|]. by exists p.
    + destruct Hpr as [Hd _]. by apply Hcont.
Qed.

(** A connection: the state, the clock, and the replies to come. *)
Record RConn := mkConn {
  rc : Redis;
  rc_wf : redis_wf rc;
  rc_now : Z;
  rc_replies : list reply
}.

Definition rc_reply (c : RConn) : reply := default RFine (head (rc_replies c)).

Definition rc_next (c : RConn) (q : Redis) (Hq : redis_wf q) : RConn :=
  mkConn q Hq (rc_now c) (tail (rc_replies c)).

Definition conn_of (now : Z) (evs : list dq_event) (c : RConn) (kind : string)
    (d : option (Redis * res go_error (option RunAssignment)))
  : Dequeue now evs (rc c) kind = d → option (RConn * res go_error (option RunAssignment)) :=
  match d with
  | None => λ _, None
  | Some (q, o) => λ H, Some (rc_next c q (proj1 (Dequeue_spec _ _ _ _ _ _ (rc_wf c) H)), o)
  end.

Definition conn_Dequeue (now : Z) (evs : list dq_event) (c : RConn) (kind : string)
  : option (RConn * res go_error (option RunAssignment)) := conn_of now evs c kind _ eq_refl.

Lemma conn_Dequeue_inv now evs c kind c' o :
  conn_Dequeue now evs c kind = Some (c', o) → Dequeue now evs (rc c) kind = Some (rc c', o).
Proof.
  unfold conn_Dequeue. assert (Hof : ∀ d H, conn_of now evs c kind d H = Some (c', o) → d = Some (rc c', o)).
  { intros [[q o1]|] H; [|done]. by intros [= <- <-]. }
  apply Hof.
Qed.

#[export] Instance Redis_JobQueue : JobQueue RConn := {|
  jq_wait := list dq_event;
  jq_lease c r := lease (rc c) r;
  jq_Dequeue := conn_Dequeue;
  jq_Ack c r g := (rc_next c _ (redis_wf_Ack (rc_reply c) r g (rc c) (rc_wf c)), (Ack (rc_reply c) r g (rc c)).2);
  jq_Renew now c r g :=
    (rc_next c _ (redis_wf_Renew (rc_reply c) now r g (rc c) (rc_wf c)), (Renew (rc_reply c) now r g (rc c)).2);
  jq_Nack ctxErr c r g :=
    match ctxErr with
    | Some e => (c, Some e)
    | None => (rc_next c _ (redis_wf_Nack (rc_reply c) (rc_now c) r g (rc c) (rc_wf c)),
               (Nack (rc_reply c) (rc_now c) r g (rc c)).2)
    end;
  jq_LookupInflight c r := LookupInflight (rc_reply c) r (rc c)
|}.

(** Under the invariant the fence is the lease's generation. *)
Lemma fence_holds c r g : fence r g (rc c) = holds c r g.
Proof.
  unfold fence, holds, current_gen. simpl. unfold lease. pose proof (rc_wf c r) as Hw.
  destruct (idata (rc c) !! r) as [p|]; simpl; [|done].
  destruct (Hw p eq_refl) as (a&Ha&_&Hg). rewrite Hg, Ha. simpl.
  case_bool_decide as E; [injection E as ->; by rewrite Z.eqb_refl|].
  symmetry. apply Z.eqb_neq. congruence.
Qed.

Lemma lease_drop id q r : lease (drop_inflight id q) r = if decide (id = r) then None else lease q r.
Proof.
  unfold lease. simpl. case_decide; subst; [by rewrite lookup_delete_eq|by rewrite lookup_delete_ne].
Qed.

Lemma nack_leases now id g c :
  (nackScript now id g (rc c)).2 = true →
  ∀ r, lease (nackScript now id g (rc c)).1 r =
       if holds c id g then (if decide (id = r) then None else lease (rc c) r) else lease (rc c) r.
Proof.
  rewrite <- fence_holds. unfold nackScript. destruct (idata (rc c) !! id) as [p|] eqn:Hp.
  - destruct (fence id g (rc c)); simpl; [|done]. destruct (unmarshal p); [|done]. simpl. intros _ r1.
    rewrite lease_drop. by destruct (czset (rc c) !! id) as [sc|]; [destruct (sc <? _)|].
  - unfold fence. rewrite Hp. done.
Qed.

#[export] Instance Redis_JobQueueOk : JobQueueOk RConn.
Proof.
  split; simpl.
  - intros c r o. unfold LookupInflight, lease. destruct (rc_reply c); [|done..].
    destruct (idata (rc c) !! r) as [p|]; simpl; [|by intros [= <-]].
    destruct (unmarshal p); [|done]. by intros [= <-].
  - intros c r g c' b [= <- Hb]. unfold lease_gone, lease_same. simpl. unfold Ack, ackScript, eval in *.
    rewrite fence_holds in *. destruct (rc_reply c); [|done..].
    destruct (holds c r g); injection Hb as <-; (split; [done|]); intros r'; simpl; [apply lease_drop|done].
  - intros now c r g c' b [= <- Hb]. unfold lease_same. simpl. unfold Renew, renewScript, eval in *.
    rewrite fence_holds in *. destruct (rc_reply c); [|done..].
    destruct (holds c r g); injection Hb as <-; done.
  - intros [e|] c r g c'; [by intros [=]|]. intros [= <- Hn]. unfold lease_gone, lease_same. simpl. unfold Nack, eval in *.
    destruct (rc_reply c); [|done..].
    pose proof (nack_leases (rc_now c) r g c) as Hl.
    destruct (nackScript (rc_now c) r g (rc c)) as [q []]; [|done]. simpl in *. specialize (Hl eq_refl).
    by destruct (holds c r g).
  - intros now evs c kind c' a Hd%conn_Dequeue_inv r'.
    destruct (Dequeue_spec _ _ _ _ _ _ (rc_wf c) Hd) as [_ (p&Hp&Hi)]. unfold lease. rewrite Hi.
    case_decide; subst; [by rewrite lookup_insert_eq|by rewrite lookup_insert_ne].
  - intros now evs c kind c' Hd%conn_Dequeue_inv r'.
    destruct (Dequeue_spec _ _ _ _ _ _ (rc_wf c) Hd) as [_ Hi]. simpl. unfold lease. by rewrite Hi.
  - intros c r g c' e [= <- He]. unfold lease_gone, lease_same. simpl. unfold Ack, ackScript, eval in *.
    rewrite fence_holds in *. destruct (rc_reply c); [by destruct (holds c r g)| |by left].
    destruct (holds c r g); [right|by left]. split; [done|]. intros r'. apply lease_drop.
  - intros now c r g c' e [= <- He]. unfold lease_same. simpl. unfold Renew, renewScript, eval in *.
    destruct (rc_reply c); [by destruct (fence r g (rc c))| |done]. by destruct (fence r g (rc c)).
Qed.

(** C5. The Redis queue honours the queue contract the bridge relies on, under
    every reply: leases change exactly as acknowledgements, renewals, returns and
    dispatches say, fencing is exact, and a failed call is either without effect
    or an applied acknowledgement. *)
Theorem redis_queue_ok : JobQueueOk RConn.
Proof. apply Redis_JobQueueOk. Qed.
End redis.
