(* ===== verification/RedisSteps.v ===== *)
(** * Concurrent callers of the Redis queue

    Replicas of the control plane share one Redis: each command or script of
    [RedisQueue] is one step, made by any replica at its own clock, with any
    reply.  An [Enqueue] caller between its cancellation check and its push holds
    its job; a [Dequeue] caller between BLMOVE and the promote script holds
    nothing, the job being on the pending list, so a crash there is the absence
    of a step.  A promote step may name any payload, which covers every caller.

    The queue refines [QueueSpec]. *)

From S2P Require Import Prelude Transport QueueSpec RedisQueue.
Local Open Scope string_scope.
Local Open Scope list_scope.
Local Open Scope Z_scope.

Section steps.
Context {WR : Wire} {WROK : WireOk}.

Record world := mkWorld {
  rw_q : Redis;
  rw_enq : list RunAssignment;   (* Enqueue callers past the check *)
  rw_seen : gset string;         (* ghost: submitted runs *)
  rw_acked : list (string * Z)   (* ghost: accepted acknowledgements *)
}.

Definition init_world : world := mkWorld NewQueue [] ∅ [].

Definition upd (w : world) (q : Redis) : world := mkWorld q (rw_enq w) (rw_seen w) (rw_acked w).

Inductive rstep (mr now : Z) : world → world → Prop :=
| rs_enq_check w a o orem q' :
    RunID a ∉ rw_seen w → Generation a = 1 → wire_job a →
    isCanceled now o orem (RunID a) (rw_q w) = (q', Ok false) →
    rstep mr now w (mkWorld q' (a :: rw_enq w) ({[RunID a]} ∪ rw_seen w) (rw_acked w))
| rs_enq_drop w a o orem :
    RunID a ∉ rw_seen w →
    rstep mr now w (mkWorld (isCanceled now o orem (RunID a) (rw_q w)).1 (rw_enq w)
                      ({[RunID a]} ∪ rw_seen w) (rw_acked w))
| rs_enq_push w pre a post o :
    rw_enq w = pre ++ a :: post → wire_job a →
    rstep mr now w (mkWorld (eval o (λ q, (lpush (RunnerKind a) (marshal a) q, tt)) (rw_q w)).1
                      (pre ++ post) (rw_seen w) (rw_acked w))
| rs_blmove w kind p q' : blmove kind (rw_q w) = Some (p, q') → rstep mr now w (upd w q')
| rs_lrem w p :
    unmarshal p = None → rstep mr now w (upd w (set_pending (lrem p (pending (rw_q w))) (rw_q w)))
| rs_promote w o p : rstep mr now w (upd w (eval o (promoteScript now p) (rw_q w)).1)
| rs_ack w o r g :
    rstep mr now w (mkWorld (Ack o r g (rw_q w)).1 (rw_enq w) (rw_seen w)
                      (match (Ack o r g (rw_q w)).2 with Ok true => (r, g) :: rw_acked w | _ => rw_acked w end))
| rs_renew w o r g : rstep mr now w (upd w (Renew o now r g (rw_q w)).1)
| rs_nack w o r g : rstep mr now w (upd w (Nack o now r g (rw_q w)).1)
| rs_cancel w o r : rstep mr now w (upd w (Cancel o now r (rw_q w)).1)
| rs_drain w o : rstep mr now w (upd w (eval o (λ q, (drainPendingScript now q, tt)) (rw_q w)).1)
| rs_reclaim w o maxAge :
    rstep mr now w (upd w (eval o (reclaimStaleScript now (now - maxAge) mr) (rw_q w)).1).

(** A step at some clock of a window. *)
Definition within (mr lo hi : Z) (w w' : world) : Prop := ∃ now, lo ≤ now < hi ∧ rstep mr now w w'.
Definition anytime (mr : Z) (w w' : world) : Prop := ∃ now, rstep mr now w w'.

Definition reachable (mr : Z) : world → Prop := rtc (anytime mr) init_world.

(** ** Tokens: with an [Enqueue] caller, ready, pending, or in flight *)

Definition ptok (p : payload) : list (string * Z) :=
  match unmarshal p with Some a => [tok a] | None => [] end.

Definition ltoks (m : gmap string (list payload)) : list (string * Z) :=
  map_to_list m ≫= λ kl, kl.2 ≫= ptok.

Definition dtoks (m : gmap string payload) : list (string * Z) := map_to_list m ≫= λ kp, ptok kp.2.

Definition qtoks (q : Redis) : list (string * Z) := ltoks (ready q) ++ (pending q ≫= ptok) ++ dtoks (idata q).

Definition toks (w : world) : list (string * Z) := (tok <$> rw_enq w) ++ qtoks (rw_q w).

Definition abs (w : world) : aqueue := mkAq (toks w) (rw_seen w) (rw_acked w).

Lemma ptok_some p a : unmarshal p = Some a → ptok p = [tok a].
Proof. unfold ptok. by intros ->. Qed.

Lemma ltoks_insert m k l : ltoks (<[k:=l]> m) ≡ₚ (l ≫= ptok) ++ ltoks (delete k m).
Proof.
  unfold ltoks. rewrite <- insert_delete_eq. rewrite map_to_list_insert by apply lookup_delete_eq. done.
Qed.

Lemma ltoks_split m k : ltoks m ≡ₚ (map_get [] m k ≫= ptok) ++ ltoks (delete k m).
Proof.
  unfold map_get. destruct (m !! k) as [l|] eqn:E; simpl.
  - rewrite <- (insert_id m k l) at 1 by done. apply ltoks_insert.
  - by rewrite delete_id.
Qed.

Lemma dtoks_insert m r p : m !! r = None → dtoks (<[r:=p]> m) ≡ₚ ptok p ++ dtoks m.
Proof. intros. unfold dtoks. by rewrite map_to_list_insert. Qed.

Lemma dtoks_split m r p : m !! r = Some p → dtoks m ≡ₚ ptok p ++ dtoks (delete r m).
Proof.
  intros H. rewrite <- (insert_id m r p) at 1 by done. rewrite <- insert_delete_eq.
  apply dtoks_insert, lookup_delete_eq.
Qed.

Lemma dtoks_fst q r : redis_wf q → r ∈ (dtoks (idata q)).*1 ↔ is_Some (idata q !! r).
Proof.
  intros Hw. split.
  - intros ([r' g]&->&Hin)%list_elem_of_fmap. unfold dtoks in Hin.
    apply list_elem_of_bind in Hin as ([r0 p]&Hin&Hp%elem_of_map_to_list). simpl in Hin.
    destruct (Hw _ _ Hp) as (a&Ha&<-&_). rewrite (ptok_some _ _ Ha) in Hin.
    apply list_elem_of_singleton in Hin. injection Hin as -> _. simpl. by exists p.
  - intros [p Hp]. destruct (Hw _ _ Hp) as (a&Ha&<-&_). rewrite (dtoks_split _ _ _ Hp), (ptok_some _ _ Ha).
    simpl. by left.
Qed.

Lemma qtoks_lpush k p q : qtoks (lpush k p q) ≡ₚ ptok p ++ qtoks q.
Proof.
  unfold qtoks, lpush. simpl. rewrite ltoks_insert. simpl. rewrite (ltoks_split (ready q) k).
  by rewrite <- !(assoc_L (++)).
Qed.

Lemma qtoks_drop q r p : idata q !! r = Some p → qtoks q ≡ₚ ptok p ++ qtoks (drop_inflight r q).
Proof.
  intros H. unfold qtoks. simpl. rewrite (dtoks_split _ _ _ H).
  rewrite !(assoc_L (++)). rewrite (Permutation_app_comm _ (ptok p)). by rewrite <- !(assoc_L (++)).
Qed.

Lemma qtoks_blmove kind q p q' : blmove kind q = Some (p, q') → qtoks q' ≡ₚ qtoks q.
Proof.
  intros (l&Hl&->)%blmove_spec. unfold qtoks. simpl. rewrite ltoks_insert, (ltoks_split (ready q) kind), Hl.
  rewrite bind_app. simpl. rewrite app_nil_r. solve_Permutation.
Qed.

Lemma lrem_in p l : p ∈ l → l ≡ₚ p :: lrem p l.
Proof.
  induction l as [|x l IH]; [by intros ?%not_elem_of_nil|]. simpl. intros Hin. case_decide; [by subst|].
  apply elem_of_cons in Hin as [->|Hin]; [done|]. rewrite IH at 1 by done. apply perm_swap.
Qed.

Lemma lrem_sub p l : lrem p l ⊆+ l.
Proof.
  induction l as [|x l IH]; simpl; [done|]. case_decide; [by apply submseteq_cons|by apply submseteq_skip].
Qed.

Lemma bind_sub (l l' : list payload) : l ⊆+ l' → (l ≫= ptok) ⊆+ (l' ≫= ptok).
Proof.
  intros [k ->]%submseteq_Permutation. rewrite bind_app. by apply submseteq_inserts_r.
Qed.

Lemma cancel_check_frame now id q :
  let q' := (cancel_check now id q).1 in
  ready q' = ready q ∧ pending q' = pending q ∧ idata q' = idata q ∧ igen q' = igen q ∧ izset q' = izset q.
Proof. unfold cancel_check. destruct (czset q !! id); [|done]. by destruct (_ <? _). Qed.

Lemma cancel_check_toks now id q : qtoks (cancel_check now id q).1 = qtoks q.
Proof. unfold qtoks. by destruct (cancel_check_frame now id q) as (->&->&->&_). Qed.

(** Recording a lease moves the payload's token there. *)
Lemma qtoks_record now p a q :
  unmarshal p = Some a → idata q !! RunID a = None → qtoks (record now p a q) ≡ₚ ptok p ++ qtoks q.
Proof.
  intros Ha Hn. unfold qtoks. simpl. rewrite dtoks_insert by done.
  rewrite !(assoc_L (++)). rewrite (Permutation_app_comm _ (ptok p)). by rewrite <- !(assoc_L (++)).
Qed.

Lemma not_leased q a l :
  redis_wf q → NoDup ((tok a :: l) ++ dtoks (idata q)).*1 → idata q !! RunID a = None.
Proof.
  intros Hw Hnd. destruct (idata q !! RunID a) as [p|] eqn:E; [|done].
  rewrite fmap_app in Hnd. apply list.NoDup_app in Hnd as (_&Hd&_). destruct (Hd (RunID a)); [by left|].
  apply dtoks_fst; [done|]. by exists p.
Qed.

Lemma qtoks_promote now p q :
  redis_wf q → NoDup (qtoks q).*1 → qtoks (promoteScript now p q).1 ⊆+ qtoks q.
Proof.
  intros Hw Hnd. unfold promoteScript. destruct (unmarshal p) as [a|] eqn:Ha.
  2: { simpl. unfold qtoks. simpl. apply submseteq_app; [done|]. apply submseteq_app; [|done]. apply bind_sub, lrem_sub. }
  destruct (decide (p ∈ pending q)) as [Hin|]; [|done].
  set (q1 := set_pending (lrem p (pending q)) q).
  assert (Hq : qtoks q ≡ₚ tok a :: qtoks q1).
  { unfold qtoks. simpl. rewrite (lrem_in _ _ Hin) at 1. simpl. rewrite (ptok_some _ _ Ha).
    simpl. by rewrite <- Permutation_middle. }
  pose proof (cancel_check_toks now (RunID a) q1) as Ht.
  pose proof (cancel_check_frame now (RunID a) q1) as (_&_&Hd&_).
  destruct (cancel_check now (RunID a) q1) as [q2 []]; simpl in *; rewrite Hq.
  - rewrite Ht. by apply submseteq_cons.
  - assert (Hn : idata q2 !! RunID a = None).
    { rewrite Hd. simpl. apply (not_leased q a (ltoks (ready q) ++ (lrem p (pending q) ≫= ptok))); [done|].
      rewrite Hq in Hnd. unfold qtoks in Hnd. simpl in *. by rewrite <- (assoc_L (++)). }
    rewrite (qtoks_record _ _ _ _ Ha Hn), (ptok_some _ _ Ha), Ht. done.
Qed.

Lemma qtoks_drain_list now l q :
  redis_wf q → NoDup ((l ≫= ptok) ++ qtoks q).*1 →
  qtoks (foldl (drain_one now) q l) ⊆+ (l ≫= ptok) ++ qtoks q.
Proof.
  revert q. induction l as [|p l IH]; intros q Hw Hnd; simpl; [done|].
  simpl in Hnd. rewrite <- (assoc_L (++)) in Hnd |- *.
  assert (Hstep : qtoks (drain_one now q p) ⊆+ ptok p ++ qtoks q).
  { unfold drain_one. destruct (unmarshal p) as [a|] eqn:Ha; [|by apply submseteq_inserts_l].
    pose proof (cancel_check_toks now (RunID a) q) as Ht.
    pose proof (cancel_check_frame now (RunID a) q) as (_&_&Hd&_).
    destruct (cancel_check now (RunID a) q) as [q2 []]; simpl in *.
    - rewrite Ht. by apply submseteq_inserts_l.
    - rewrite (qtoks_record _ _ _ _ Ha), Ht; [done|]. rewrite Hd.
      apply (not_leased q a ((l ≫= ptok) ++ ltoks (ready q) ++ (pending q ≫= ptok))); [done|].
      rewrite (ptok_some _ _ Ha) in Hnd. unfold qtoks in Hnd. simpl in *. by rewrite <- !(assoc_L (++)). }
  etrans; [apply IH|].
  - by apply wf_drain_one.
  - assert (Hall : (l ≫= ptok) ++ qtoks (drain_one now q p) ⊆+ ptok p ++ (l ≫= ptok) ++ qtoks q).
    { rewrite (assoc_L (++)), (Permutation_app_comm (ptok p)), <- (assoc_L (++)). by apply submseteq_app. }
    eapply (fmap_submseteq fst) in Hall. apply submseteq_Permutation in Hall as [k Hk].
    rewrite Hk in Hnd. by apply list.NoDup_app in Hnd as [? _].
  - rewrite (assoc_L (++) (ptok p)), (Permutation_app_comm (ptok p)), <- (assoc_L (++)). by apply submseteq_app.
Qed.

Lemma qtoks_drain now q : redis_wf q → NoDup (qtoks q).*1 → qtoks (drainPendingScript now q) ⊆+ qtoks q.
Proof.
  intros Hw Hnd. assert (Hq : qtoks q ≡ₚ (pending q ≫= ptok) ++ qtoks (set_pending [] q)).
  { unfold qtoks. simpl. rewrite !(assoc_L (++)). f_equiv. apply Permutation_app_comm. }
  rewrite Hq. apply qtoks_drain_list; [by apply (wf_same q)|]. by rewrite <- Hq.
Qed.

(** ** Sweeps *)

Section bounded.
Context (mr : Z) (Hmr : 1 ≤ mr).

Lemma redis_qtoks_reclaim_one now q id :
  redis_wf q → gens_ok mr (qtoks q) →
  evolves (qtoks q) (qtoks (reclaim_one now mr q id).1) ∧ gens_ok mr (qtoks (reclaim_one now mr q id).1).
Proof using Hmr WROK.
  intros Hw Hg. unfold reclaim_one. destruct (idata q !! id) as [p|] eqn:Hp; [|done].
  pose proof (cancel_check_toks now id q) as Ht. pose proof (cancel_check_frame now id q) as (_&_&Hd&Hgen&_).
  destruct (cancel_check now id q) as [q1 c]. simpl in Ht, Hd, Hgen. rewrite <- Ht in Hg |- *. clear Ht.
  assert (Hw1 : redis_wf q1) by (by apply (wf_same q)). rewrite <- Hd in Hp. clear q Hw Hd Hgen.
  destruct (Hw1 _ _ Hp) as (a&Ha&Hid&Hgi). pose proof (qtoks_drop q1 id p Hp) as Hdrop.
  rewrite (ptok_some _ _ Ha) in Hdrop. simpl in Hdrop.
  destruct c; simpl.
  { assert (qtoks (drop_inflight id q1) ⊆+ qtoks q1) by (rewrite Hdrop; by apply submseteq_cons).
    eauto using evolves_submseteq, gens_ok_sub. }
  rewrite Ha, Hgi. simpl. assert (Hb : 1 ≤ Generation a ≤ mr) by (apply (Hg (RunID a)); rewrite Hdrop; by left).
  rewrite (proj2 (Z.ltb_ge _ _)) by lia.
  destruct ((0 <? mr) && (mr <? Generation a + 1)) eqn:Eb; simpl; [done|].
  assert (Hle : Generation a + 1 ≤ mr).
  { apply andb_false_iff in Eb as [Eb|Eb]; bool_solve; lia. }
  match goal with |- _ ∧ gens_ok mr (qtoks ?q) => set (q2 := q) end.
  assert (Hq2 : qtoks q2 ≡ₚ (RunID a, Generation a + 1) :: qtoks (drop_inflight id q1)).
  { pose proof (qtoks_lpush (RunnerKind a) (append_generation (Generation a + 1) p) (drop_inflight id q1)) as Hl.
    rewrite (ptok_some _ _ (wire_append (Generation a + 1) p a Ha)) in Hl. exact Hl. }
  split.
  - rewrite Hdrop, Hq2. unfold tok. apply evolves_bump. lia.
  - intros r g. rewrite Hq2. intros [[= -> ->]|Hin]%elem_of_cons; [lia|]. apply (Hg r). rewrite Hdrop. by right.
Qed.

Lemma qtoks_reclaim now ids q n d :
  redis_wf q → gens_ok mr (qtoks q) →
  evolves (qtoks q) (qtoks (reclaim_loop now mr ids q n d).1) ∧ gens_ok mr (qtoks (reclaim_loop now mr ids q n d).1).
Proof using Hmr WROK.
  revert q n d. induction ids as [|id ids IH]; intros q n d Hw Hg; simpl; [done|].
  pose proof (redis_qtoks_reclaim_one now q id Hw Hg) as [He Hg1]. pose proof (redis_wf_reclaim_one now mr q id Hw) as Hw1.
  destruct (reclaim_one now mr q id) as [q1 [[n' d']|]]; [|done]. simpl in *.
  destruct (IH q1 (n + n') (d ++ d') Hw1 Hg1) as [He2 Hg2]. split; [by etrans|done].
Qed.

(** ** The queue refines its specification *)

Lemma isCanceled_toks now o orem id q : qtoks (isCanceled now o orem id q).1 = qtoks q.
Proof.
  unfold isCanceled. destruct o; [|done..]. destruct (czset q !! id); [|done].
  destruct (_ <? _); [|done]. by destruct orem.
Qed.

Lemma eval_cases {A} o (f : Redis → Redis * A) q : (eval o f q).1 = q ∨ (eval o f q).1 = (f q).1.
Proof. destruct o; simpl; [|by right|by left]. destruct (f q). by right. Qed.

Lemma upd_evolves w q :
  evolves (qtoks (rw_q w)) (qtoks q) → gens_ok mr (qtoks q) → gens_ok mr (toks w) →
  aq_step mr (abs w) (abs (upd w q)).
Proof.
  intros He Hg Hg0. apply aq_evolve; [|..|done|done]; simpl; unfold toks; simpl.
  - by apply evolves_app.
  - intros r g. rewrite elem_of_app. intros [Hin|Hin]; [|by apply (Hg r)].
    apply (Hg0 r). unfold toks. apply elem_of_app. by left.
Qed.

Lemma upd_sub w q : qtoks q ⊆+ qtoks (rw_q w) → gens_ok mr (toks w) → aq_step mr (abs w) (abs (upd w q)).
Proof.
  intros Hs Hg. apply aq_sub; [done| |done|done]. simpl. unfold toks. simpl. by apply submseteq_app.
Qed.

Lemma ack_toks o r g q :
  redis_wf q →
  match (Ack o r g q).2 with
  | Ok true => qtoks q ≡ₚ (r, g) :: qtoks (Ack o r g q).1
  | _ => qtoks (Ack o r g q).1 ⊆+ qtoks q
  end.
Proof.
  intros Hw. unfold Ack, ackScript.
  assert (Hd : fence r g q = true → qtoks q ≡ₚ (r, g) :: qtoks (drop_inflight r q)).
  { unfold fence, current_gen. intros [[p Hp]%bool_decide_eq_true Hc%bool_decide_eq_true]%andb_true_iff.
    destruct (Hw _ _ Hp) as (a&Ha&Hid&Hg). rewrite Hg in Hc. injection Hc as <-.
    rewrite (qtoks_drop _ _ _ Hp), (ptok_some _ _ Ha). unfold tok. by rewrite Hid. }
  destruct o; simpl; destruct (fence r g q); simpl; try done; [by apply Hd|].
  rewrite (Hd eq_refl). by apply submseteq_cons.
Qed.

Lemma nack_toks now r g q : redis_wf q → qtoks (nackScript now r g q).1 ⊆+ qtoks q.
Proof.
  intros Hw. unfold nackScript. destruct (idata q !! r) as [p|] eqn:Hp; [|done].
  destruct (negb _); [done|]. destruct (unmarshal p) as [a|] eqn:Ha; [|done]. simpl.
  assert (Hdrop : qtoks (drop_inflight r q) ⊆+ qtoks q) by (rewrite (qtoks_drop _ _ _ Hp); by apply submseteq_inserts_l).
  assert (Hpush : qtoks (drop_inflight r (lpush (RunnerKind a) p q)) ⊆+ qtoks q).
  { pose proof (qtoks_drop (lpush (RunnerKind a) p q) r p Hp) as H.
    rewrite qtoks_lpush in H. apply Permutation_app_inv_l in H. by rewrite <- H. }
  by destruct (czset q !! r) as [sc|]; [destruct (sc <? _)|].
Qed.

Lemma cancel_toks now r q :
  qtoks (set_czset (trim (now - canceledMemberTTL) (<[r := now]> (czset q))) (drop_inflight r q)) ⊆+ qtoks q.
Proof.
  change (qtoks (drop_inflight r q) ⊆+ qtoks q). destruct (idata q !! r) as [p|] eqn:Hp.
  - rewrite (qtoks_drop _ _ _ Hp). by apply submseteq_inserts_l.
  - unfold qtoks. simpl. by rewrite delete_id.
Qed.

Lemma enq_split w pre a post :
  rw_enq w = pre ++ a :: post → toks w ≡ₚ tok a :: (tok <$> (pre ++ post)) ++ qtoks (rw_q w).
Proof. intros He. unfold toks. rewrite He, !fmap_app, fmap_cons. by rewrite <- Permutation_middle. Qed.

Lemma toks_NoDup_q w : NoDup (toks w).*1 → NoDup (qtoks (rw_q w)).*1.
Proof. unfold toks. rewrite fmap_app. by intros (_&_&?)%list.NoDup_app. Qed.

Lemma redis_simulates : simulates abs (λ w, redis_wf (rw_q w)) (anytime mr) mr.
Proof using Hmr WROK.
  intros w w' Hw [Hnd Hseen Hg _ _] [now Hs]. simpl in Hnd, Hg. pose proof (toks_NoDup_q w Hnd) as Hndq.
  assert (Hgq : gens_ok mr (qtoks (rw_q w))) by (intros r g Hin; apply (Hg r), elem_of_app; by right).
  destruct Hs as [w a o orem q' Ha Hga Hj Hc|w a o orem Ha|w pre a post o He Hj|w kind p q' Hb|w p Hp|w o p
                 |w o r g|w o r g|w o r g|w o r|w o|w o maxAge]; simpl in *.
  - pose proof (isCanceled_toks now o orem (RunID a) (rw_q w)) as Ht.
    pose proof (isCanceled_same now o orem (RunID a) (rw_q w)) as Hl. rewrite Hc in Ht, Hl. simpl in *.
    split; [|by eapply wf_same]. eapply aq_submit; [|exact Ha|done|done]. simpl. unfold toks; simpl.
    rewrite Ht. unfold tok at 1. by rewrite Hga.
  - split; [|eapply wf_same; [apply isCanceled_same|done]]. apply aq_sub; simpl; [done| |apply union_subseteq_r|done].
    unfold toks; simpl. by rewrite isCanceled_toks.
  - split; [|by apply wf_eval]. apply aq_sub; [done| |done|done]. simpl. rewrite (enq_split _ _ _ _ He).
    unfold toks. simpl. destruct (eval_cases o (λ q, (lpush (RunnerKind a) (marshal a) q, tt)) (rw_q w)) as [-> | ->]; simpl.
    + by apply submseteq_cons.
    + rewrite qtoks_lpush, (ptok_some _ _ (wire_round a Hj)). simpl. by rewrite <- Permutation_middle.
  - split; [|apply blmove_spec in Hb as (l&_&->); exact Hw]. apply upd_sub; [|done]. by rewrite (qtoks_blmove _ _ _ _ Hb).
  - split; [|exact Hw]. apply upd_sub; [|done]. unfold qtoks. simpl. apply submseteq_app; [done|].
    apply submseteq_app; [|done]. apply bind_sub, lrem_sub.
  - split; [|apply wf_eval; [by apply wf_promote|done]]. apply upd_sub; [|done].
    destruct (eval_cases o (promoteScript now p) (rw_q w)) as [-> | ->]; [done|]. by apply qtoks_promote.
  - split; [|by apply redis_wf_Ack]. pose proof (ack_toks o r g (rw_q w) Hw) as Hk.
    destruct (Ack o r g (rw_q w)) as [q1 [[]|e]]; simpl in *.
    + eapply (aq_ack _ _ _ r g); [|done|done]. simpl. unfold toks. simpl. rewrite Hk. by rewrite <- Permutation_middle.
    + apply (upd_sub w q1); done.
    + apply (upd_sub w q1); done.
  - split; [|by apply redis_wf_Renew]. apply upd_sub; [|done]. unfold Renew.
    destruct (eval_cases o (renewScript now r g) (rw_q w)) as [-> | ->]; [done|].
    unfold renewScript. by destruct (fence r g (rw_q w)).
  - split; [|by apply redis_wf_Nack]. apply upd_sub; [|done]. unfold Nack.
    pose proof (eval_cases o (nackScript now r g) (rw_q w)) as Hev.
    destruct (eval o _ (rw_q w)) as [q1 [[]|e]]; simpl in *; destruct Hev as [-> | ->]; try done; by apply nack_toks.
  - split; [|by apply redis_wf_Cancel]. apply upd_sub; [|done]. unfold Cancel.
    match goal with |- context [eval o ?f ?q] => destruct (eval_cases o f q) as [-> | ->] end; [done|]. apply cancel_toks.
  - split; [|apply wf_eval; [by apply wf_drain|done]]. apply upd_sub; [|done].
    match goal with |- context [eval o ?f ?q] => destruct (eval_cases o f q) as [-> | ->] end; [done|]. by apply qtoks_drain.
  - split; [|apply wf_eval; [by apply redis_wf_reclaim_loop|done]].
    match goal with |- context [eval o ?f ?q] => destruct (eval_cases o f q) as [-> | ->] end; [by apply upd_sub|].
    destruct (qtoks_reclaim now (stale_ids (now - maxAge) (rw_q w)) (rw_q w) 0 [] Hw Hgq). by apply upd_evolves.
Qed.

Lemma redis_good_reachable w : reachable mr w → good abs (λ w, redis_wf (rw_q w)) mr w.
Proof using Hmr WROK.
  apply (good_rtc _ _ (anytime mr) mr Hmr redis_simulates). split; [|apply aq_inv_init].
  intros r p. simpl. by rewrite lookup_empty.
Qed.

(** C6. On the shared Redis queue, in every interleaving of replicas, clocks,
    crashes between commands and lost replies, with at least one retry configured,
    a run's acknowledgement is accepted at most once. *)
Theorem redis_ack_accepted_once w : reachable mr w → NoDup (rw_acked w).*1.
Proof using Hmr WROK. intros [_ H]%redis_good_reachable. apply (ai_once mr _ H). Qed.

(** Fencing on the Redis queue is permanent: once any copy of run [r] has a
    generation above [g], the dispatch [(r, g)] can neither acknowledge nor renew
    nor give the run back, in that state or in any later one. *)
Theorem redis_superseded_is_fenced w w' r g g1 o now :
  reachable mr w → (r, g1) ∈ toks w → g < g1 → rtc (anytime mr) w w' →
  (Ack o r g (rw_q w')).1 = rw_q w' ∧ (Renew o now r g (rw_q w')).1 = rw_q w' ∧
  (Nack o now r g (rw_q w')).1 = rw_q w'.
Proof using Hmr WROK.
  intros Hi%redis_good_reachable Hin Hlt Hs.
  destruct (good_rtc _ _ (anytime mr) mr Hmr redis_simulates _ _ Hi Hs) as [Hw' _].
  assert (Hf : fence r g (rw_q w') = false).
  { unfold fence, current_gen. destruct (idata (rw_q w') !! r) as [p|] eqn:Hp; [|done].
    destruct (Hw' _ _ Hp) as (a&Ha&Hid&Hg). rewrite Hg. apply andb_false_iff. right.
    apply bool_decide_eq_false. intros [= E].
    assert (g1 ≤ Generation a); [|lia].
    eapply (fenced _ _ (anytime mr) mr Hmr redis_simulates w w' r); [done..|]. simpl. unfold toks.
    apply elem_of_app. right. unfold qtoks. rewrite (dtoks_split _ _ _ Hp), (ptok_some _ _ Ha).
    rewrite !elem_of_app. right; right; left. unfold tok. rewrite Hid. by left. }
  unfold Ack, Renew, Nack, ackScript, renewScript, nackScript.
  destruct o; simpl; rewrite ?Hf; simpl; by destruct (idata (rw_q w') !! r).
Qed.
End bounded.

(** ** Cancellation holds while its marker lives *)

Section barred.
Context (t : Z) (r : string).

(** Run [r] has a marker from the window that starts at [t], and no lease. *)
Definition barred (q : Redis) : Prop :=
  (∃ s, czset q !! r = Some s ∧ t ≤ s < t + canceledMemberTTL) ∧ idata q !! r = None.

Context (now : Z) (Hnow : t ≤ now < t + canceledMemberTTL).

Lemma barred_ext q q' : czset q' = czset q → idata q' = idata q → barred q → barred q'.
Proof using. unfold barred. by intros -> ->. Qed.

Lemma barred_drop id q : barred q → barred (drop_inflight id q).
Proof using.
  intros [Hs Hi]. split; [done|]. simpl. destruct (decide (id = r)) as [->|];
    [by rewrite lookup_delete_eq|by rewrite lookup_delete_ne].
Qed.

Lemma barred_record p a q : RunID a ≠ r → barred q → barred (record now p a q).
Proof using. intros Hne [Hs Hi]. split; [done|]. simpl. by rewrite lookup_insert_ne. Qed.

Lemma barred_check id q :
  barred q → barred (cancel_check now id q).1 ∧ (id = r → (cancel_check now id q).2 = true).
Proof using Hnow.
  intros [(s&Hs&Hb) Hi]. unfold cancel_check. destruct (decide (id = r)) as [->|Hne].
  - rewrite Hs, (proj2 (Z.ltb_ge _ _)) by lia. split; [split; eauto|done].
  - destruct (czset q !! id) as [s'|]; [|split; [split; eauto|done]].
    destruct (_ <? _); split; try done; split; eauto. exists s. simpl. by rewrite lookup_delete_ne.
Qed.

Lemma barred_promote p q :
  barred q → barred (promoteScript now p q).1 ∧
  (∀ a, unmarshal p = Some a → RunID a = r → (promoteScript now p q).2 = false).
Proof using Hnow.
  intros Hbar. unfold promoteScript. destruct (unmarshal p) as [a|]; [|by split].
  destruct (decide _).
  - destruct (barred_check (RunID a) (set_pending (lrem p (pending q)) q)) as [Hb1 Hb2]; [done|].
    destruct (cancel_check _ _ _) as [q1 []]; simpl in *; [by split|]. split.
    + apply barred_record; [|done]. intros E. by specialize (Hb2 E).
    + intros a' [= <-] E. by specialize (Hb2 E).
  - split; [done|]. intros a' [= <-] ->. simpl. apply bool_decide_eq_false.
    destruct Hbar as [_ ->]. by intros [? ?].
Qed.

Lemma barred_drain_one q p : barred q → barred (drain_one now q p).
Proof using Hnow.
  intros Hbar. unfold drain_one. destruct (unmarshal p) as [a|]; [|done].
  destruct (barred_check (RunID a) q Hbar) as [Hb1 Hb2]. destruct (cancel_check _ _ _) as [q1 []]; [done|].
  apply barred_record; [|done]. intros E. by specialize (Hb2 E).
Qed.

Lemma barred_drain q : barred q → barred (drainPendingScript now q).
Proof using Hnow.
  intros Hbar. unfold drainPendingScript. assert (barred (set_pending [] q)) as H by done. revert H.
  generalize (set_pending [] q). induction (pending q) as [|p l IH]; intros q0 H0; simpl; [done|].
  by apply IH, barred_drain_one.
Qed.

Lemma barred_trim q : barred q → barred (set_czset (trim (now - canceledMemberTTL) (czset q)) q).
Proof using Hnow.
  intros [(s&Hs&Hb) Hi]. split; [|done]. exists s. split; [|done]. simpl. unfold trim.
  apply map_lookup_filter_Some. split; [done|]. simpl. lia.
Qed.

Lemma barred_reclaim_one mr q id : barred q → barred (reclaim_one now mr q id).1.
Proof using Hnow.
  intros Hbar. unfold reclaim_one. destruct (idata q !! id) as [p|] eqn:Hp; [|done].
  destruct (barred_check id q Hbar) as [Hb1 _]. destruct (cancel_check now id q) as [q1 []]; [by apply barred_drop|].
  destruct (unmarshal p) as [a|]; [|done]. destruct (_ <? 0); [done|]. destruct (_ && _); [done|].
  by apply (barred_drop id) in Hb1.
Qed.

Lemma barred_reclaim mr ids q n d : barred q → barred (reclaim_loop now mr ids q n d).1.
Proof using Hnow.
  revert q n d. induction ids as [|id ids IH]; intros q n d Hbar; simpl; [by apply barred_trim|].
  pose proof (barred_reclaim_one mr q id Hbar). destruct (reclaim_one now mr q id) as [q1 [[n' d']|]]; [by apply IH|done].
Qed.

Lemma barred_isCanceled o orem id q : barred q → barred (isCanceled now o orem id q).1.
Proof using Hnow.
  intros Hbar. unfold isCanceled. destruct o; [|done..].
  destruct (barred_check id q Hbar) as [Hb1 _]. unfold cancel_check in Hb1.
  destruct (czset q !! id) as [s'|]; [|done]. destruct (_ <? _); [|done]. by destruct orem.
Qed.

Lemma barred_eval {A} o (f : Redis → Redis * A) q : barred q → barred (f q).1 → barred (eval o f q).1.
Proof using. intros. by destruct (eval_cases o f q) as [-> | ->]. Qed.

Lemma barred_Cancel id q :
  barred q →
  barred (set_czset (trim (now - canceledMemberTTL) (<[id := now]> (czset q))) (drop_inflight id q)).
Proof using Hnow.
  intros Hbar. set (q1 := set_czset (<[id := now]> (czset q)) (drop_inflight id q)).
  cut (barred q1); [intros H1%barred_trim; by eapply barred_ext; [..|exact H1]|]. unfold q1. clear q1.
  apply (barred_drop id) in Hbar as [(s&Hs&Hb) Hi]. split; [|done]. simpl.
  destruct (decide (id = r)) as [->|]; [rewrite lookup_insert_eq|rewrite lookup_insert_ne by done]; eauto.
Qed.

Lemma barred_nack id g q : barred q → barred (nackScript now id g q).1.
Proof using.
  intros Hbar. unfold nackScript. destruct (idata q !! id) as [p|]; [|done]. destruct (negb _); [done|].
  destruct (unmarshal p); [|done]. simpl.
  by destruct (czset q !! id) as [sc|]; [destruct (sc <? _)|]; apply barred_drop.
Qed.

Lemma barred_step mr w w' : rstep mr now w w' → barred (rw_q w) → barred (rw_q w').
Proof using Hnow.
  intros Hs Hbar. destruct Hs as [w a o orem q' Ha Hga Hj Hc|w a o orem Ha|w pre a post o He Hj|w kind p q' Hb|w p Hp|w o p
                 |w o i g|w o i g|w o i g|w o i|w o|w o maxAge]; simpl in *.
  - pose proof (barred_isCanceled o orem (RunID a) _ Hbar) as Hi. by rewrite Hc in Hi.
  - by apply barred_isCanceled.
  - by apply barred_eval.
  - by apply blmove_spec in Hb as (l&_&->).
  - done.
  - apply barred_eval; [done|]. by apply barred_promote.
  - apply barred_eval; [done|]. unfold ackScript. destruct (fence i g (rw_q w)); [by apply barred_drop|done].
  - apply barred_eval; [done|]. unfold renewScript. by destruct (fence i g (rw_q w)).
  - unfold Nack. pose proof (barred_eval o (nackScript now i g) (rw_q w) Hbar (barred_nack i g _ Hbar)) as H.
    by destruct (eval o _ _) as [q1 [[]|e]].
  - apply barred_eval; [done|]. by apply barred_Cancel.
  - apply barred_eval; [done|]. by apply barred_drain.
  - apply barred_eval; [done|]. by apply barred_reclaim.
Qed.
End barred.

(** A cancelled run is never dispatched while its marker lives: after a
    [Cancel] that reached Redis at time [t], and any steps of any replicas whose
    clocks read less than a day later, the run has no lease, and a [Dequeue]
    caller that moved one of its payloads is told to discard it. *)
Theorem redis_canceled_never_dispatched mr w r t o w' p a now :
  o ≠ RDown → rtc (within mr t (t + canceledMemberTTL)) (upd w (Cancel o t r (rw_q w)).1) w' →
  t ≤ now < t + canceledMemberTTL → unmarshal p = Some a → RunID a = r →
  idata (rw_q w') !! r = None ∧ (promoteScript now p (rw_q w')).2 = false.
Proof.
  intros Ho Hs Hnow Ha Hr.
  assert (Hbar : barred t r (rw_q w')).
  { assert (H0 : barred t r (Cancel o t r (rw_q w)).1).
    { assert (Httl : 0 < canceledMemberTTL) by (unfold canceledMemberTTL; lia).
      assert (barred t r (set_czset (trim (t - canceledMemberTTL) (<[r := t]> (czset (rw_q w)))) (drop_inflight r (rw_q w)))).
      { split; [|simpl; by rewrite lookup_delete_eq]. exists t. split; [|lia]. simpl. unfold trim.
        apply map_lookup_filter_Some. rewrite lookup_insert_eq. split; [done|]. simpl. lia. }
      by destruct o. }
    remember (upd w (Cancel o t r (rw_q w)).1) as w0 eqn:E.
    assert (barred t r (rw_q w0)) as H1 by (rewrite E; exact H0). clear E H0. revert H1.
    induction Hs as [|w1 w2 w3 (n&Hn&Hst) _ IH]; [done|]. intros H1.
    apply IH. exact (barred_step t r n Hn mr w1 w2 Hst H1). }
  split; [apply Hbar|]. by eapply (barred_promote t r now Hnow p _ Hbar).
Qed.

(** ** No claimed job is lost *)

(** Ready payloads stay ready. *)
Definition ready_mono (q q' : Redis) : Prop :=
  ∀ k p, p ∈ map_get [] (ready q) k → p ∈ map_get [] (ready q') k.

Lemma ready_mono_lpush k p q q' : ready q' = ready (lpush k p q) → ready_mono q q'.
Proof.
  intros H k' p' Hin. rewrite H. unfold lpush, map_get. simpl. destruct (decide (k = k')) as [->|].
  - rewrite lookup_insert_eq. by right.
  - by rewrite lookup_insert_ne.
Qed.

(** What one stale run's turn leaves alone of another run. *)
Record other (id : string) (q q' : Redis) : Prop := {
  o_data : idata q' !! id = idata q !! id;
  o_cancel : czset q' !! id = czset q !! id;
  o_ready : ready_mono q q'
}.

Lemma reclaim_one_other now mr q id id' : id ≠ id' → other id' q (reclaim_one now mr q id).1.
Proof.
  intros Hne. unfold reclaim_one. destruct (idata q !! id) as [p|]; [|split; [done|done|by intros ? ?]].
  assert (Hc : czset (cancel_check now id q).1 !! id' = czset q !! id').
  { unfold cancel_check. destruct (czset q !! id); [|done]. destruct (_ <? _); [|done]. simpl. by rewrite lookup_delete_ne. }
  destruct (cancel_check_frame now id q) as (Hr&_&Hd&_). destruct (cancel_check now id q) as [q1 c]. simpl in *.
  assert (Hm : ready_mono q q1) by (intros k x; by rewrite Hr).
  destruct c; simpl; [split; simpl; [by rewrite lookup_delete_ne, Hd|done|exact Hm]|].
  destruct (unmarshal p) as [a|]; [|split; simpl; [by rewrite Hd|done|exact Hm]].
  destruct (_ <? 0); [split; simpl; [by rewrite Hd|done|exact Hm]|].
  destruct (_ && _); simpl; [split; simpl; [by rewrite Hd|done|exact Hm]|].
  split; simpl; [by rewrite lookup_delete_ne, Hd|done|]. intros k x Hx.
  eapply ready_mono_lpush; [reflexivity|]. apply Hm, Hx.
Qed.

Lemma cancel_check_ext now id q q' :
  czset q' !! id = czset q !! id → (cancel_check now id q').2 = (cancel_check now id q).2.
Proof. unfold cancel_check. intros ->. destruct (czset q !! id); [|done]. by destruct (_ <? _). Qed.

Section recovery.
Context (mr : Z) (Hmr : 1 ≤ mr).

(** A stale lease after its turn: ready again under the next generation, or dead. *)
Definition recovered (id : string) (p : payload) (a : RunAssignment) (q' : Redis) (dead : list dead_entry) : Prop :=
  let next := Generation a + 1 in
  (next ≤ mr ∧ append_generation next p ∈ map_get [] (ready q') (RunnerKind a)) ∨
  (mr < next ∧ (id, next, p) ∈ dead ∧ idata q' !! id = Some p).

Lemma recovered_mono id p a q q' d d' :
  other id q q' → recovered id p a q d → recovered id p a q' (d ++ d').
Proof using.
  intros [Hd _ Hm] [[Hle Hin]|(Hlt&Hin&Hp)]; [left; split; [done|by apply Hm]|right].
  split; [done|]. rewrite Hd. split; [|done]. apply elem_of_app. by left.
Qed.

Lemma reclaim_one_recovers now q id p a :
  redis_wf q → gens_ok mr (qtoks q) → idata q !! id = Some p → unmarshal p = Some a →
  (cancel_check now id q).2 = false →
  ∃ n d, (reclaim_one now mr q id).2 = Some (n, d) ∧ recovered id p a (reclaim_one now mr q id).1 d.
Proof using Hmr.
  intros Hw Hg Hp Ha Hc. unfold reclaim_one. rewrite Hp.
  destruct (Hw _ _ Hp) as (a'&Ha'&Hid&Hgi). assert (a' = a) as -> by congruence.
  assert (Hb : 1 ≤ Generation a ≤ mr).
  { apply (Hg (RunID a)). unfold qtoks. rewrite (dtoks_split _ _ _ Hp), (ptok_some _ _ Ha), !elem_of_app.
    right; right; left. by left. }
  destruct (cancel_check_frame now id q) as (_&_&Hd&Hgen&_). destruct (cancel_check now id q) as [q1 c]. simpl in *.
  subst c. rewrite Ha, Hgen, Hgi. simpl. rewrite (proj2 (Z.ltb_ge _ _)) by lia.
  destruct ((0 <? mr) && (mr <? Generation a + 1)) eqn:Eb; simpl; do 2 eexists; (split; [reflexivity|]).
  - right. bool_solve. split; [lia|]. split; [by left|]. simpl. by rewrite Hd.
  - left. split; [apply andb_false_iff in Eb as [Eb|Eb]; bool_solve; lia|]. unfold map_get. simpl.
    rewrite lookup_insert_eq. by left.
Qed.

Lemma reclaim_one_total now q id :
  redis_wf q → gens_ok mr (qtoks q) → ∃ n d, (reclaim_one now mr q id).2 = Some (n, d).
Proof using Hmr.
  intros Hw Hg. destruct (idata q !! id) as [p|] eqn:Hp.
  - destruct (Hw _ _ Hp) as (a&Ha&_). destruct ((cancel_check now id q).2) eqn:Hc.
    + unfold reclaim_one. rewrite Hp. destruct (cancel_check now id q) as [q1 c]. simpl in Hc. subst c. by do 2 eexists.
    + destruct (reclaim_one_recovers now q id p a) as (n&d&Hr&_); eauto.
  - unfold reclaim_one. rewrite Hp. by do 2 eexists.
Qed.

Lemma reclaim_loop_recovers now ids q n d :
  redis_wf q → gens_ok mr (qtoks q) → NoDup ids →
  ∃ q' n' dead, reclaim_loop now mr ids q n d = (q', Some (n', dead)) ∧ (∃ d', dead = d ++ d') ∧
    ready_mono q q' ∧ (∀ id, id ∉ ids → idata q' !! id = idata q !! id) ∧
    ∀ id p a, id ∈ ids → idata q !! id = Some p → unmarshal p = Some a → (cancel_check now id q).2 = false →
      recovered id p a q' dead.
Proof using Hmr WROK.
  revert q n d. induction ids as [|i ids IH]; intros q n d Hw Hg Hnd; simpl.
  { do 3 eexists. split; [reflexivity|]. split; [exists []; by rewrite app_nil_r|].
    split; [by intros ? ?|]. split; [done|]. by intros id p a ?%not_elem_of_nil. }
  apply list.NoDup_cons in Hnd as [Hi Hnd].
  destruct (reclaim_one_total now q i Hw Hg) as (n1&d1&Hone).
  pose proof (redis_qtoks_reclaim_one mr Hmr now q i Hw Hg) as [_ Hg1]. pose proof (redis_wf_reclaim_one now mr q i Hw) as Hw1.
  assert (Hself : ∀ p a, idata q !! i = Some p → unmarshal p = Some a → (cancel_check now i q).2 = false →
    recovered i p a (reclaim_one now mr q i).1 d1).
  { intros p a Hp Ha Hc. destruct (reclaim_one_recovers now q i p a Hw Hg Hp Ha Hc) as (n2&d2&E&Hrec).
    rewrite Hone in E. by injection E as <- <-. }
  pose proof (reclaim_one_other now mr q i) as Hoth.
  destruct (reclaim_one now mr q i) as [q1 o]. simpl in *. subst o.
  assert (Hm1 : ready_mono q q1).
  { destruct (decide (i = "a")) as [E|E]; [apply (o_ready "b" q q1), Hoth; by subst|by apply (o_ready "a" q q1), Hoth]. }
  destruct (IH q1 (n + n1) (d ++ d1) Hw1 Hg1 Hnd) as (q'&n'&dead&E&(d'&->)&Hm2&Hout&Hrec).
  exists q', n', ((d ++ d1) ++ d'). split; [done|]. split; [exists (d1 ++ d'); by rewrite (assoc_L (++))|].
  split; [by intros k x Hx; apply Hm2, Hm1|]. split.
  - intros id Hid. apply not_elem_of_cons in Hid as [Hne Hid]. rewrite Hout by done.
    by apply (o_data id q q1), Hoth.
  - intros id p a Hin Hp Ha Hc. apply elem_of_cons in Hin as [->|Hin].
    + destruct (Hself p a Hp Ha Hc) as [[Hle Hx]|(Hlt&Hx&Hdat)]; [left; split; [done|by apply Hm2]|right].
      split; [done|]. rewrite Hout by done. split; [|done]. rewrite !elem_of_app. by left; right.
    + assert (Hne : i ≠ id) by (by intros ->). specialize (Hoth id Hne). destruct Hoth as [Hd Hcz _].
      apply Hrec; [done|by rewrite Hd|done|]. by rewrite (cancel_check_ext now id q q1).
Qed.

Lemma stale_ids_spec cutoff q id : id ∈ stale_ids cutoff q ↔ ∃ s, izset q !! id = Some s ∧ s ≤ cutoff.
Proof using.
  unfold stale_ids. rewrite list_elem_of_fmap. setoid_rewrite sort_by_perm. split.
  - intros ([i s]&->&Hin). apply list_elem_of_filter in Hin as [Hs Hin%elem_of_map_to_list]. by exists s.
  - intros (s&Hs&Hle). exists (id, s). split; [done|]. apply list_elem_of_filter. split; [done|].
    by apply elem_of_map_to_list.
Qed.

Lemma stale_ids_NoDup cutoff q : NoDup (stale_ids cutoff q).
Proof using.
  unfold stale_ids. rewrite sort_by_perm. eapply sublist_NoDup; [apply (NoDup_fst_map_to_list (izset q))|].
  apply fmap_sublist, sublist_filter.
Qed.

(** C28. A sweep that reaches Redis succeeds and loses no stale lease: every run
    whose lease is older than the limit and is not cancelled is afterwards ready
    again under the next generation or, past the retry ceiling, reported dead
    with its lease kept for the final acknowledgement. *)
Theorem sweep_recovers_stale w now cutoff r s p a :
  reachable mr w → izset (rw_q w) !! r = Some s → s ≤ cutoff → idata (rw_q w) !! r = Some p →
  unmarshal p = Some a → (cancel_check now r (rw_q w)).2 = false →
  ∃ q' n dead, reclaimStaleScript now cutoff mr (rw_q w) = (q', Some (n, dead)) ∧ recovered r p a q' dead.
Proof using Hmr WROK.
  intros [Hw Hi]%(redis_good_reachable mr Hmr) Hs Hle Hp Ha Hc.
  assert (Hg : gens_ok mr (qtoks (rw_q w))) by (intros x g Hin; apply (ai_gens mr _ Hi x), elem_of_app; by right).
  destruct (reclaim_loop_recovers now _ (rw_q w) 0 [] Hw Hg (stale_ids_NoDup cutoff (rw_q w)))
    as (q'&n'&dead&E&_&_&_&Hrec). exists q', n', dead. split; [done|].
  apply Hrec; [|done..]. apply stale_ids_spec. by exists s.
Qed.

(** The pending list after a crash. *)
Lemma drain_list_recovers now l q p a :
  p ∈ l → unmarshal p = Some a → NoDup (l ≫= ptok).*1 → (cancel_check now (RunID a) q).2 = false →
  idata (foldl (drain_one now) q l) !! RunID a = Some p.
Proof using.
  intros Hin Ha. revert q. induction l as [|p1 l IH]; intros q Hnd Hc; [by apply not_elem_of_nil in Hin|].
  simpl in *. rewrite fmap_app, list.NoDup_app in Hnd. destruct Hnd as (_&Hdis&Hnd).
  apply elem_of_cons in Hin as [<-|Hin].
  - clear IH. assert (Hset : idata (drain_one now q p) !! RunID a = Some p).
    { unfold drain_one. rewrite Ha. destruct (cancel_check now (RunID a) q) as [q1 []]; [done|]. simpl.
      by rewrite lookup_insert_eq. }
    assert (Hno : ∀ p', p' ∈ l → ∀ a', unmarshal p' = Some a' → RunID a' ≠ RunID a).
    { intros p' Hp' a' Ha' E. apply (Hdis (RunID a)).
      - rewrite (ptok_some _ _ Ha). by left.
      - apply list_elem_of_fmap. exists (tok a'). split; [by simpl|]. apply list_elem_of_bind.
        exists p'. split; [|done]. rewrite (ptok_some _ _ Ha'). by left. }
    revert Hset. generalize (drain_one now q p). clear Hdis Hnd Hc. induction l as [|p2 l IH]; intros q1 H1; simpl; [done|].
    apply IH; [by intros; eapply Hno; [right|]|]. unfold drain_one. destruct (unmarshal p2) as [a2|] eqn:Ha2; [|done].
    destruct (cancel_check_frame now (RunID a2) q1) as (_&_&Hd&_). destruct (cancel_check now (RunID a2) q1) as [q2 []];
      simpl in *; [by rewrite Hd|]. rewrite lookup_insert_ne, Hd; [done|]. eapply Hno; [by left|done].
  - apply IH; [done..|]. rewrite <- Hc. unfold drain_one. destruct (unmarshal p1) as [a1|] eqn:Ha1; [|done].
    assert (Hne : RunID a1 ≠ RunID a).
    { intros E. apply (Hdis (RunID a1)); [rewrite (ptok_some _ _ Ha1); by left|].
      apply list_elem_of_fmap. exists (tok a). split; [by simpl|]. apply list_elem_of_bind.
      exists p. split; [|done]. rewrite (ptok_some _ _ Ha). by left. }
    assert (Hcz : czset (cancel_check now (RunID a1) q).1 !! RunID a = czset q !! RunID a).
    { unfold cancel_check. destruct (czset q !! RunID a1); [|done]. destruct (_ <? _); [|done]. simpl.
      by rewrite lookup_delete_ne. }
    destruct (cancel_check now (RunID a1) q) as [q1 []]; by apply cancel_check_ext.
Qed.

(** A claim interrupted between BLMOVE and its recording is recovered: the
    next drain that reaches Redis turns every pending job that is not cancelled
    into an ordinary lease. *)
Theorem drain_recovers_pending w now p a :
  reachable mr w → p ∈ pending (rw_q w) → unmarshal p = Some a → (cancel_check now (RunID a) (rw_q w)).2 = false →
  idata (drainPendingScript now (rw_q w)) !! RunID a = Some p.
Proof using Hmr WROK.
  intros [Hw Hi]%(redis_good_reachable mr Hmr) Hin Ha Hc. unfold drainPendingScript.
  apply drain_list_recovers; [done..| |by rewrite (cancel_check_ext now (RunID a) (rw_q w))].
  pose proof (toks_NoDup_q w (ai_nodup mr _ Hi)) as Hnd. unfold qtoks in Hnd. rewrite !fmap_app in Hnd.
  apply list.NoDup_app in Hnd as (_&_&Hnd). by apply list.NoDup_app in Hnd as (?&_).
Qed.
End recovery.
End steps.

(** * The Redis queue at work
    A wire whose payload is the run and its generation, and a short history: one
    run submitted, claimed, reclaimed.  *)

Local Open Scope string_scope.
Local Open Scope Z_scope.

Definition plain_job (id : string) (g : Z) : RunAssignment :=
  mkAssignment id "thread-1" "python-langgraph" "agent" "{}" "{}" None "null" [] [] None None
    "default" None g "".

#[local] Instance plain_wire : Wire := {|
  payload := string * Z;
  payload_eq_dec := _;
  marshal a := (RunID a, Generation a);
  unmarshal p := Some (plain_job p.1 p.2);
  append_generation g p := (p.1, g);
  wire_job a := a = plain_job (RunID a) (Generation a)
|}.

#[local] Instance plain_wire_ok : WireOk.
Proof. split; simpl; [by intros a ->|]. intros g [id g'] a [= <-]. done. Qed.

Definition kind : string := "python-langgraph".

Definition pay (g : Z) : payload := ("run-1", g).

(** Submitted and moved to the pending list; then leased at time 0. *)
Definition moved : Redis := mkRedis {[ kind := [] ]} [(pay 1)] ∅ ∅ ∅ ∅.
Definition leased : Redis :=
  mkRedis {[ kind := [] ]} [] {[ "run-1" := (pay 1) ]} {[ "run-1" := 0 ]} {[ "run-1" := 1 ]} ∅.
Definition requeued : Redis :=
  mkRedis {[ kind := [(pay 2)] ]} [] ∅ ∅ {[ "run-1" := 2 ]} ∅.

Definition w_of (q : Redis) (acked : list (string * Z)) : world := mkWorld q [] {["run-1"]} acked.

(** Closes a computed end of a run. *)
Ltac rtc_here :=
  match goal with |- rtc _ ?a ?b => replace a with b by (vm_compute; reflexivity) end; apply rtc_refl.

Lemma reach_moved : reachable 3 (w_of moved []).
Proof.
  unfold reachable.
  eapply rtc_l; [exists 0; eapply (rs_enq_check 3 0 init_world (plain_job "run-1" 1) RFine RFine); [set_solver|done|done|by vm_compute]|].
  eapply rtc_l; [exists 0; eapply (rs_enq_push 3 0 _ [] (plain_job "run-1" 1) [] RFine); done|].
  eapply rtc_l; [exists 0; eapply (rs_blmove 3 0 _ kind (pay 1)); by vm_compute|].
  rtc_here.
Qed.

Lemma reach_leased : reachable 3 (w_of leased []).
Proof.
  unfold reachable. etrans; [apply reach_moved|].
  eapply rtc_l; [exists 0; eapply (rs_promote 3 0 _ RFine (pay 1))|]. rtc_here.
Qed.

Lemma reach_requeued : reachable 3 (w_of requeued []).
Proof.
  unfold reachable. etrans; [apply reach_leased|].
  eapply rtc_l; [exists 100; eapply (rs_reclaim 3 100 _ RFine 10)|]. rtc_here.
Qed.

Lemma reach_acked : reachable 3 (w_of (mkRedis {[ kind := [] ]} [] ∅ ∅ ∅ ∅) [("run-1", 1)]).
Proof.
  unfold reachable. etrans; [apply reach_leased|].
  eapply rtc_l; [exists 0; eapply (rs_ack 3 0 _ RFine "run-1" 1)|]. rtc_here.
Qed.

Lemma redis_ack_accepted_once_witness : NoDup ([("run-1", 1)] : list (string * Z)).*1.
Proof. exact (redis_ack_accepted_once 3 ltac:(lia) _ reach_acked). Defined.

Lemma redis_superseded_is_fenced_witness : (Ack RFine "run-1" 1 requeued).1 = requeued.
Proof.
  apply (redis_superseded_is_fenced 3 ltac:(lia) (w_of requeued []) (w_of requeued []) "run-1" 1 2 RFine 7).
  - apply reach_requeued.
  - apply list_elem_of_In. vm_compute. by left.
  - lia.
  - apply rtc_refl.
Defined.

Lemma redis_canceled_never_dispatched_witness :
  idata (Cancel RFine 5 "run-1" moved).1 !! "run-1" = None ∧
  (promoteScript 6 (pay 1) (Cancel RFine 5 "run-1" moved).1).2 = false.
Proof.
  apply (redis_canceled_never_dispatched 3 (w_of moved []) "run-1" 5 RFine
           (upd (w_of moved []) (Cancel RFine 5 "run-1" moved).1) (pay 1) (plain_job "run-1" 1) 6).
  - discriminate.
  - apply rtc_refl.
  - vm_compute. split; [discriminate|reflexivity].
  - reflexivity.
  - reflexivity.
Defined.

Lemma sweep_recovers_stale_witness :
  ∃ q' n dead, reclaimStaleScript 100 90 3 leased = (q', Some (n, dead)) ∧
    recovered 3 "run-1" (pay 1) (plain_job "run-1" 1) q' dead.
Proof.
  apply (sweep_recovers_stale 3 ltac:(lia) (w_of leased []) 100 90 "run-1" 0 (pay 1) (plain_job "run-1" 1)).
  - apply reach_leased.
  - reflexivity.
  - lia.
  - reflexivity.
  - reflexivity.
  - reflexivity.
Defined.

Lemma drain_recovers_pending_witness : idata (drainPendingScript 9 moved) !! "run-1" = Some (pay 1).
Proof.
  apply (drain_recovers_pending 3 ltac:(lia) (w_of moved []) 9 (pay 1) (plain_job "run-1" 1)).
  - apply reach_moved.
  - apply list_elem_of_In. vm_compute. by left.
  - reflexivity.
  - reflexivity.
Defined.

(** ** A stale hand

    A [Dequeue] caller that was slow between BLMOVE and the promote script, while
    a drain and a sweep passed and another caller took the run: the script tells
    it that the run is in flight, and it returns the job it moved, under the
    superseded generation. *)

Definition overtaken : Redis :=
  mkRedis {[ kind := [] ]} [] {[ "run-1" := (pay 2) ]} {[ "run-1" := 200 ]} {[ "run-1" := 2 ]} ∅.

Lemma reach_overtaken : rtc (anytime 3) (w_of moved []) (w_of overtaken []).
Proof.
  eapply rtc_l; [exists 0; eapply (rs_drain 3 0 _ RFine)|].
  eapply rtc_l; [exists 100; eapply (rs_reclaim 3 100 _ RFine 10)|].
  eapply rtc_l; [exists 200; eapply (rs_blmove 3 200 _ kind (pay 2)); by vm_compute|].
  eapply rtc_l; [exists 200; eapply (rs_promote 3 200 _ RFine (pay 2))|].
  rtc_here.
Qed.

(** The Redis queue can hand out a superseded dispatch: a caller overtaken by
    a drain, a sweep and another caller between its two commands is answered
    that its job is in flight and returns it although the lease has a higher
    generation; the fence then refuses that dispatch's acknowledgement. *)
Theorem stale_hand_is_dispatched :
  rtc (anytime 3) (w_of moved []) (w_of overtaken []) ∧
  promoteScript 300 (pay 1) overtaken = (overtaken, true) ∧
  unmarshal (pay 1) = Some (plain_job "run-1" 1) ∧
  lease overtaken "run-1" = Some (plain_job "run-1" 2) ∧
  (Ack RFine "run-1" 1 overtaken).2 = Ok false.
Proof. split; [apply reach_overtaken|]. by vm_compute. Qed.
