(* ===== verification/Completion.v ===== *)
(** * Durable completion: the fencing rules

    Models [internal/state/completion.go]: run statuses, the attempt and
    completion generations kept in the run metadata, [CheckCompletion] and
    [ResolveCompletion].  A Go [map[string]interface{}] is a [gmap]. *)

From S2P Require Import Prelude GoAny.
Local Open Scope string_scope.
Local Open Scope Z_scope.

(** Run statuses are strings ([models.RunStatus]). *)
Definition RunStatusPending : string := "pending".
Definition RunStatusRunning : string := "running".
Definition RunStatusSuccess : string := "success".
Definition RunStatusError : string := "error".
Definition RunStatusInterrupted : string := "interrupted".
Definition RunStatusTimeout : string := "timeout".

Definition AttemptGenerationKey : string := "_runkite_attempt_generation".
Definition CompletionGenerationKey : string := "_runkite_completion_generation".

Record RunCompletion := mkCompletion {
  CancelCurrentAttempt : bool;
  CancelUsage : option (gmap string any);
  CRunnerKind : string;
  ReplayOnly : bool;
  CRunID : string;
  CGeneration : Z;
  CStatus : string;
  CError : string;
  CValues : option (gmap string any)
}.

Record CompletionResult := mkResult { Accepted : bool; Applied : bool }.

Definition no_result : CompletionResult := mkResult false false.

#[export] Instance CompletionResult_eq_dec : EqDecision CompletionResult.
Proof. solve_decision. Defined.

Definition TerminalRunStatus (status : string) : bool :=
  String.eqb status RunStatusSuccess || String.eqb status RunStatusError
  || String.eqb status RunStatusInterrupted || String.eqb status RunStatusTimeout.

Definition MetadataGeneration (metadata : gmap string any) (key : string) : Z :=
  match metadata !! key with
  | Some (AInt64 n) => n
  | Some (AInt n) => n
  | Some (AFloat f) => f64_to_int64 f
  | Some (ANumber t) => ParseInt64 t
  | Some (AStr t) => ParseInt64 t
  | _ => 0
  end.

Definition CheckCompletion (metadata : gmap string any) (status : string) (c : RunCompletion)
  : CompletionResult :=
  if negb (TerminalRunStatus (CStatus c)) then no_result
  else
    let current := MetadataGeneration metadata AttemptGenerationKey in
    if negb (CGeneration c =? current) then no_result
    else match metadata !! CompletionGenerationKey with
         | Some _ =>
             mkResult ((MetadataGeneration metadata CompletionGenerationKey =? CGeneration c)
                       && String.eqb status (CStatus c)) false
         | None => if TerminalRunStatus status then no_result else mkResult true true
         end.

Definition set_generation_values (g : Z) (v : option (gmap string any)) (c : RunCompletion)
  : RunCompletion :=
  mkCompletion (CancelCurrentAttempt c) (CancelUsage c) (CRunnerKind c) (ReplayOnly c) (CRunID c)
    g (CStatus c) (CError c) v.

(** A Go map nested in an [interface{}]. *)
Definition any_of_map (m : gmap string any) : any := AMap (map_to_list m).

Definition ResolveCompletion (metadata : gmap string any) (c : RunCompletion) : RunCompletion :=
  if negb (CancelCurrentAttempt c)
     || (negb (String.eqb (CStatus c) RunStatusInterrupted)
         && negb (String.eqb (CStatus c) RunStatusTimeout))
  then c
  else
    let g := MetadataGeneration metadata AttemptGenerationKey in
    let v := match CancelUsage c with
             | Some u => if CGeneration c =? g then Some {[ "usage" := any_of_map u ]} else None
             | None => None
             end in
    set_generation_values g v c.

(** ** Laws of the fence *)

(** What an applied completion guarantees about the run it was checked on. *)
Lemma CheckCompletion_applied meta st c :
  Applied (CheckCompletion meta st c) = true ↔
  TerminalRunStatus (CStatus c) = true ∧
  CGeneration c = MetadataGeneration meta AttemptGenerationKey ∧
  meta !! CompletionGenerationKey = None ∧ TerminalRunStatus st = false.
Proof.
  unfold CheckCompletion. destruct (TerminalRunStatus (CStatus c)); simpl; [|naive_solver].
  destruct (Z.eqb_spec (CGeneration c) (MetadataGeneration meta AttemptGenerationKey)); simpl;
    [|naive_solver].
  destruct (meta !! CompletionGenerationKey); simpl; [naive_solver|].
  destruct (TerminalRunStatus st); simpl; naive_solver.
Qed.

(** Applied results are accepted results. *)
Lemma CheckCompletion_applied_accepted meta st c :
  Applied (CheckCompletion meta st c) = true → CheckCompletion meta st c = mkResult true true.
Proof. unfold CheckCompletion. by repeat (case_match; simpl). Qed.

Lemma CheckCompletion_stale meta st c :
  CGeneration c ≠ MetadataGeneration meta AttemptGenerationKey →
  CheckCompletion meta st c = no_result.
Proof.
  intros H. unfold CheckCompletion. destruct (negb (TerminalRunStatus (CStatus c))); [done|].
  by rewrite (proj2 (Z.eqb_neq _ _)).
Qed.

(** The completed marker makes a retry accepted without a second application. *)
Lemma CheckCompletion_committed meta st c v :
  meta !! CompletionGenerationKey = Some v →
  CheckCompletion meta st c =
    mkResult (TerminalRunStatus (CStatus c)
              && (CGeneration c =? MetadataGeneration meta AttemptGenerationKey)
              && (MetadataGeneration meta CompletionGenerationKey =? CGeneration c)
              && String.eqb st (CStatus c)) false.
Proof.
  intros H. unfold CheckCompletion. rewrite H.
  destruct (TerminalRunStatus (CStatus c)); simpl; [|done].
  by destruct (CGeneration c =? _).
Qed.

(** Only a trusted cancellation or timeout is rebound to the current attempt;
    everything else keeps the generation it presents. *)
Lemma ResolveCompletion_external meta c :
  CancelCurrentAttempt c = false → ResolveCompletion meta c = c.
Proof. intros H. unfold ResolveCompletion. by rewrite H. Qed.

Lemma ResolveCompletion_fields meta c :
  CRunID (ResolveCompletion meta c) = CRunID c ∧ CStatus (ResolveCompletion meta c) = CStatus c ∧
  CError (ResolveCompletion meta c) = CError c ∧
  CancelCurrentAttempt (ResolveCompletion meta c) = CancelCurrentAttempt c.
Proof. unfold ResolveCompletion. by case_match. Qed.

#[export] Hint Resolve CheckCompletion_applied_accepted CheckCompletion_stale : runkite.
