(* ===== verification/Store.v ===== *)
(** * The SQL state store: tables, transactions and run completion

    Models the shared transactional driver
    ([internal/state/sqlcompletion/completion.go]) and the SQLite store's run
    and thread statements ([internal/state/sqlite/sqlite.go],
    [internal/state/sqlite/admission_create.go]) over a relational state: each
    SQL statement is a function on the tables.

    A statement may fail ([fail n] for the n-th statement of a transaction);
    then the transaction rolls back.  A commit may fail before it is durable, or
    be durable while its acknowledgement is lost.

    Columns hold decoded documents: a metadata column holds what
    [json.Unmarshal] gives for it, so an [int64] written to it comes back as a
    [float64]; a values column keeps number tokens ([jsonvalue.Unmarshal]). *)

From S2P Require Import Prelude GoAny Completion.
From Stdlib.Init Require Byte.
Local Open Scope string_scope.
Local Open Scope Z_scope.

(** ** Request context ([internal/tenant/tenant.go]) *)

Definition DefaultTenant : string := "default".

Record ctx := mkCtx { ctx_value : option string; ctx_system : bool }.

Definition background : ctx := mkCtx None false.

Definition FromContext (c : ctx) : string :=
  match ctx_value c with
  | Some v => if String.eqb v "" then DefaultTenant else v
  | None => DefaultTenant
  end.

Definition WithContext (c : ctx) (tenantID : string) : ctx :=
  if String.eqb tenantID "" then c else mkCtx (Some tenantID) (ctx_system c).

Definition SystemContext (c : ctx) : ctx := mkCtx (ctx_value c) true.

Definition IsSystem (c : ctx) : bool := ctx_system c.

(** [WHERE ... AND tenant_id = ?] unless the context is the system's. *)
Definition visible (c : ctx) (tenant : string) : bool :=
  IsSystem c || String.eqb tenant (FromContext c).

(** ** Tables *)

Inductive column :=
| ColEmpty                       (* NULL or empty text *)
| ColInvalid                     (* not a JSON object *)
| ColNull                        (* the document null *)
| ColObj (m : gmap string any).

(** The columns fixed when a run is created. *)
Record run_spec := mkSpec {
  s_input : string;
  s_config : string;
  s_parent : option string;
  s_root : option string;
  s_depth : Z
}.

Record run_row := mkRun {
  r_tenant : string;
  r_thread : string;
  r_agent : string;
  r_status : string;
  r_meta : column;
  r_output : column;
  r_error : string;
  r_created : Z;
  r_updated : Z;
  r_spec : run_spec
}.

Record thread_row := mkThread {
  t_tenant : string;
  t_status : string;
  t_values : column;
  t_version : Z;
  t_updated : Z;
  t_meta : column;
  t_created : Z
}.

(** The checkpoint columns that only [SaveCheckpoint] fills. *)
Record ckpt_docs := mkDocs {
  d_metadata : any;
  d_next : any;
  d_tasks : any;
  d_interrupts : any
}.

Record ckpt_row := mkCkpt {
  k_tenant : string;
  k_thread : string;
  k_ns : string;
  k_parent : option string;
  k_values : gmap string any;
  k_created : Z;
  k_docs : ckpt_docs
}.

Record opaque_row := mkOpaque {
  o_framework : string;
  o_data : list Byte.byte;
  o_version : Z;
  o_created : Z
}.

Record DB := mkDB {
  runs : gmap string run_row;         (* PRIMARY KEY run_id *)
  threads : gmap string thread_row;   (* PRIMARY KEY thread_id *)
  ckpts : gmap string ckpt_row;       (* PRIMARY KEY checkpoint_id *)
  (* PRIMARY KEY (tenant_id, thread_id, checkpoint_id) *)
  opaques : gmap (string * string * string) opaque_row
}.

Definition empty_db : DB := mkDB ∅ ∅ ∅ ∅.

Definition set_runs (f : gmap string run_row) (db : DB) : DB :=
  mkDB f (threads db) (ckpts db) (opaques db).
Definition set_threads (f : gmap string thread_row) (db : DB) : DB :=
  mkDB (runs db) f (ckpts db) (opaques db).
Definition set_ckpts (f : gmap string ckpt_row) (db : DB) : DB :=
  mkDB (runs db) (threads db) f (opaques db).
Definition set_opaques (f : gmap (string * string * string) opaque_row) (db : DB) : DB :=
  mkDB (runs db) (threads db) (ckpts db) f.

Definition ThreadStatusIdle : string := "idle".
Definition ThreadStatusBusy : string := "busy".
Definition ThreadStatusInterrupted : string := "interrupted".

(** [status IN ('pending','running')] *)
Definition active (status : string) : bool :=
  String.eqb status RunStatusPending || String.eqb status RunStatusRunning.

(** ** Errors *)

Inductive err :=
| EDriver                                   (* connection, statement or commit *)
| ENoRows                                   (* sql.ErrNoRows *)
| EDecode                                   (* json error on a column *)
| EValidate                                 (* Driver.ValidateValues *)
| EUnique                                   (* primary-key violation *)
| ENotFound (resource id : string)          (* state.ErrNotFound *)
| EConflict (resource id : string)          (* state.ErrConflict *)
| EAdmission (scope kind : string) (limit current : Z)
| EFence (reason : string)                  (* state.ErrRunCheckpointFence *)
| EOther (msg : string).

(** ** Transactions *)

Definition tx (A : Type) : Type := nat → DB → res err (A * nat * DB).

Definition tret {A} (a : A) : tx A := λ n db, Ok (a, n, db).
Definition terr {A} (e : err) : tx A := λ _ _, Err e.
Definition tbind {A B} (m : tx A) (k : A → tx B) : tx B :=
  λ n db, match m n db with
          | Ok (a, n', db') => k a n' db'
          | Err e => Err e
          end.

Notation "x <-- m ;; k" := (tbind m (λ x, k))
  (at level 100, m at next level, right associativity) : go_scope.
Notation "m ;;; k" := (tbind m (λ _, k))
  (at level 100, right associativity) : go_scope.
Local Open Scope go_scope.

Inductive commit_outcome := CommitOk | CommitFailed | CommitLost.

(** ** Decoding *)

(** [json.Marshal] then [json.Unmarshal] of one metadata value: the maps the
    store rewrites were themselves decoded by [json.Unmarshal], so the only Go
    integers in them are the generations it inserts. *)
Definition std_value (v : any) : any :=
  match v with
  | AInt64 z => AFloat (f64_of_Z z)
  | AInt z => AFloat (f64_of_Z z)
  | _ => v
  end.

Definition decode_meta (c : column) : res err (gmap string any) :=
  match c with
  | ColEmpty => Ok ∅
  | ColNull => Ok ∅
  | ColObj m => Ok m
  | ColInvalid => Err EDecode
  end.

Definition encode_meta (m : gmap string any) : column := ColObj (std_value <$> m).

Section driver.
(** [fail n]: the n-th statement of the transaction returns a driver error. *)
Variable fail : nat → bool.
(** [Driver.ValidateValues] (nil: always true). *)
Variable validate : gmap string any → bool.
(** The order of [created_at] in its stored representation. *)
Variable ts_le : Z → Z → bool.

Definition stmt {A} (f : DB → res err (A * DB)) : tx A :=
  λ n db, if fail n then Err EDriver
          else match f db with
               | Ok (a, db') => Ok (a, S n, db')
               | Err e => Err e
               end.

(** The body runs after [Begin] (statement 0); [commit a] says whether the
    caller commits.  Anything else rolls back. *)
Definition run_tx {A} (co : commit_outcome) (body : tx A) (commit : A → bool) (db : DB)
    : DB * res err A :=
  if fail 0%nat then (db, Err EDriver)
  else match body 1%nat db with
       | Err e => (db, Err e)
       | Ok (a, _, db') =>
           if commit a then
             match co with
             | CommitOk => (db', Ok a)
             | CommitFailed => (db, Err EDriver)
             | CommitLost => (db', Err EDriver)
             end
           else (db, Ok a)
       end.

(** [SELECT tenant_id, thread_id, status, metadata FROM runs WHERE run_id = ?] *)
Definition load (c : ctx) (runID : string) : tx (string * string * string * gmap string any) :=
  stmt (λ db,
    match runs db !! runID with
    | Some r => if visible c (r_tenant r) then
                  match decode_meta (r_meta r) with
                  | Ok m => Ok ((r_tenant r, r_thread r, r_status r, m), db)
                  | Err e => Err e
                  end
                else Err ENoRows
    | None => Err ENoRows
    end).

(** [UPDATE runs SET ... WHERE run_id = ? AND tenant_id = ?] *)
Definition update_run (runID tid : string) (f : run_row → run_row) : tx unit :=
  stmt (λ db,
    match runs db !! runID with
    | Some r => if String.eqb (r_tenant r) tid
                then Ok (tt, set_runs (<[runID := f r]> (runs db)) db)
                else Ok (tt, db)
    | None => Ok (tt, db)
    end).

Definition update_thread (threadID tid : string) (cond : thread_row → bool)
    (f : thread_row → thread_row) : tx unit :=
  stmt (λ db,
    match threads db !! threadID with
    | Some t => if String.eqb (t_tenant t) tid && cond t
                then Ok (tt, set_threads (<[threadID := f t]> (threads db)) db)
                else Ok (tt, db)
    | None => Ok (tt, db)
    end).

(** [SELECT ... FROM threads WHERE thread_id = ? AND tenant_id = ?] *)
Definition select_thread (threadID tid : string) : tx thread_row :=
  stmt (λ db,
    match threads db !! threadID with
    | Some t => if String.eqb (t_tenant t) tid then Ok (t, db) else Err ENoRows
    | None => Err ENoRows
    end).

(** [ORDER BY created_at DESC LIMIT 1]; SQL leaves ties open. *)
Definition newer (a b : string * ckpt_row) : string * ckpt_row :=
  if ts_le (k_created (snd a)) (k_created (snd b)) then b else a.

Definition latest_ckpt (threadID tid : string) (m : gmap string ckpt_row) : option string :=
  let rows := map_to_list (filter (λ kr, k_thread kr.2 = threadID ∧ k_tenant kr.2 = tid) m) in
  match rows with
  | [] => None
  | r :: rs => Some (foldl newer r rs).1
  end.

Definition select_parent (threadID tid : string) : tx (option string) :=
  stmt (λ db, Ok (latest_ckpt threadID tid (ckpts db), db)).

Definition insert_ckpt (id : string) (k : ckpt_row) : tx unit :=
  stmt (λ db,
    match ckpts db !! id with
    | Some _ => Err EUnique
    | None => Ok (tt, set_ckpts (<[id := k]> (ckpts db)) db)
    end).

(** [SELECT COUNT( * ) FROM runs WHERE ... status IN ('pending','running') ...] *)
Definition count_runs (p : string → run_row → bool) (m : gmap string run_row) : Z :=
  Z.of_nat (size (filter (λ kr, p kr.1 kr.2 = true) m)).

Definition others_active (threadID tid runID : string) (m : gmap string run_row) : Z :=
  count_runs (λ id r, String.eqb (r_thread r) threadID && String.eqb (r_tenant r) tid
                      && active (r_status r) && negb (String.eqb id runID)) m.

Definition select_active (threadID tid runID : string) : tx Z :=
  stmt (λ db, Ok (others_active threadID tid runID (runs db), db)).

(** ** [Driver.BeginRunAttempt] *)

Definition begun_run (now generation : Z) (meta : gmap string any) (r : run_row) : run_row :=
  mkRun (r_tenant r) (r_thread r) (r_agent r) RunStatusRunning
    (encode_meta (<[AttemptGenerationKey := AInt64 generation]> meta))
    (r_output r) (r_error r) (r_created r) now (r_spec r).

Definition begin_attempt_body (now : Z) (c : ctx) (runID : string) (generation : Z) : tx bool :=
  l <-- load c runID ;;
  let '(tid, _, st, meta) := l in
  if TerminalRunStatus st || (generation <? MetadataGeneration meta AttemptGenerationKey)
  then tret false
  else
    update_run runID tid (begun_run now generation meta) ;;;
    tret true.

Definition BeginRunAttempt (co : commit_outcome) (now : Z) (c : ctx) (runID : string)
    (generation : Z) (db : DB) : DB * res err bool :=
  run_tx co (begin_attempt_body now c runID generation) id db.

(** ** [Driver.CompleteRunInTx] *)

(** Marshalling the output and its validation. *)
Definition check_values (v : gmap string any) : tx unit :=
  if validate v then tret tt else terr EValidate.

Definition decode_values (c : column) : res err (gmap string any) := decode_meta c.

(** [for k, v := range c.Values { merged[k] = v }] *)
Definition merge_values (vals old : gmap string any) : gmap string any := vals ∪ old.

(** [metadata] is the empty object, the other documents empty arrays. *)
Definition completion_docs : ckpt_docs := mkDocs (AMap []) (AArr []) (AArr []) (AArr []).

(** The conversation-history writes: merged values, version bump, checkpoint. *)
Definition write_thread_values (now : Z) (tid threadID runID : string) (vals : gmap string any)
  : tx unit :=
  t <-- select_thread threadID tid ;;
  match decode_values (t_values t) with
  | Err e => terr e
  | Ok old =>
      let merged := merge_values vals old in
      check_values merged ;;;
      update_thread threadID tid (λ _, true) (λ t,
        mkThread (t_tenant t) (t_status t) (ColObj merged) (t_version t + 1) now (t_meta t) (t_created t)) ;;;
      parent <-- select_parent threadID tid ;;
      insert_ckpt ("completion:" +:+ runID) (mkCkpt tid threadID "" parent merged now completion_docs)
  end.

(** [output] stays NULL without values. *)
Definition output_column (c : RunCompletion) : column :=
  match CValues c with Some v => ColObj v | None => ColEmpty end.

Definition release_status (c : RunCompletion) : string :=
  if String.eqb (CStatus c) RunStatusInterrupted then ThreadStatusInterrupted else ThreadStatusIdle.

(** The run's terminal row, then the thread's release under its lock. *)
Definition write_terminal (now : Z) (tid threadID : string) (c : RunCompletion)
    (meta : gmap string any) : tx unit :=
  let rawMeta := encode_meta (<[CompletionGenerationKey := AInt64 (CGeneration c)]> meta) in
  update_run (CRunID c) tid (λ r,
    mkRun (r_tenant r) (r_thread r) (r_agent r) (CStatus c) rawMeta (output_column c) (CError c)
      (r_created r) now (r_spec r)) ;;;
  select_thread threadID tid ;;;
  n <-- select_active threadID tid (CRunID c) ;;
  if n =? 0 then
    update_thread threadID tid (λ t, String.eqb (t_status t) ThreadStatusBusy) (λ t,
      mkThread (t_tenant t) (release_status c) (t_values t) (t_version t) now (t_meta t) (t_created t))
  else tret tt.

Definition CompleteRunInTx (now : Z) (x : ctx) (c0 : RunCompletion) : tx CompletionResult :=
  l <-- load x (CRunID c0) ;;
  let '(tid, threadID, st, meta) := l in
  let c := ResolveCompletion meta c0 in
  let result := CheckCompletion meta st c in
  if negb (Applied result) then tret result
  else
    match CValues c with
    | Some v =>
        check_values v ;;;
        if negb (CancelCurrentAttempt c) then write_thread_values now tid threadID (CRunID c) v
        else tret tt
    | None => tret tt
    end ;;;
    write_terminal now tid threadID c meta ;;;
    tret result.

Definition CompleteRun (co : commit_outcome) (now : Z) (x : ctx) (c : RunCompletion) (db : DB)
  : DB * res err CompletionResult :=
  run_tx co (CompleteRunInTx now x c) Applied db.

End driver.
