(* ===== verification/StoreSpec.v ===== *)
(** * The completion transaction refines an atomic specification

    [spec_complete] states what one completion does to the tables, all at once.
    The statement-by-statement transaction of [Store.v] implements it: whatever
    statement fails and however the commit ends, the tables are either untouched
    or exactly as the specification says. *)

From S2P Require Import Prelude GoAny Completion Store.
Local Open Scope string_scope.
Local Open Scope Z_scope.

Definition with_tables (rs : gmap string run_row) (ts : gmap string thread_row)
    (ks : gmap string ckpt_row) (db : DB) : DB :=
  mkDB rs ts ks (opaques db).

Section spec.
Variable validate : gmap string any → bool.
Variable ts_le : Z → Z → bool.

(** The values the completion adds to the conversation, if any. *)
Definition history_values (c : RunCompletion) : option (gmap string any) :=
  if CancelCurrentAttempt c then None else CValues c.

Definition completed_run (now : Z) (c : RunCompletion) (meta : gmap string any) (r : run_row)
  : run_row :=
  mkRun (r_tenant r) (r_thread r) (r_agent r) (CStatus c)
    (encode_meta (<[CompletionGenerationKey := AInt64 (CGeneration c)]> meta))
    (output_column c) (CError c) (r_created r) now (r_spec r).

(** The thread row after the merge, and after the release. *)
Definition merged_thread (now : Z) (c : RunCompletion) (t : thread_row) : res err thread_row :=
  match history_values c with
  | None => Ok t
  | Some v =>
      match decode_meta (t_values t) with
      | Err e => Err e
      | Ok old => let m := merge_values v old in
                  if validate m then Ok (mkThread (t_tenant t) (t_status t) (ColObj m) (t_version t + 1) now (t_meta t) (t_created t))
                  else Err EValidate
      end
  end.

Definition released_thread (now : Z) (c : RunCompletion) (others : Z) (t : thread_row) : thread_row :=
  if (others =? 0) && String.eqb (t_status t) ThreadStatusBusy
  then mkThread (t_tenant t) (release_status c) (t_values t) (t_version t) now (t_meta t) (t_created t)
  else t.

Definition completed_ckpts (now : Z) (c : RunCompletion) (tid threadID : string) (t1 : thread_row)
    (m : gmap string ckpt_row) : res err (gmap string ckpt_row) :=
  match history_values c, t_values t1 with
  | Some _, ColObj merged =>
      match m !! ("completion:" +:+ CRunID c) with
      | Some _ => Err EUnique
      | None => Ok (<["completion:" +:+ CRunID c :=
                        mkCkpt tid threadID "" (latest_ckpt ts_le threadID tid m) merged now completion_docs]> m)
      end
  | _, _ => Ok m
  end.

Definition spec_apply (now : Z) (c : RunCompletion) (meta : gmap string any) (r : run_row) (db : DB)
  : res err DB :=
  match threads db !! r_thread r with
  | None => Err ENoRows
  | Some t =>
      if negb (String.eqb (t_tenant t) (r_tenant r)) then Err ENoRows
      else if negb (match CValues c with Some v => validate v | None => true end) then Err EValidate
      else
        match merged_thread now c t with
        | Err e => Err e
        | Ok t1 =>
            match completed_ckpts now c (r_tenant r) (r_thread r) t1 (ckpts db) with
            | Err e => Err e
            | Ok k =>
                let rs := <[CRunID c := completed_run now c meta r]> (runs db) in
                let n := others_active (r_thread r) (r_tenant r) (CRunID c) rs in
                Ok (with_tables rs (<[r_thread r := released_thread now c n t1]> (threads db)) k db)
            end
        end
  end.

Definition spec_complete (now : Z) (x : ctx) (c0 : RunCompletion) (db : DB)
  : res err (CompletionResult * DB) :=
  match runs db !! CRunID c0 with
  | None => Err ENoRows
  | Some r =>
      if negb (visible x (r_tenant r)) then Err ENoRows
      else match decode_meta (r_meta r) with
           | Err e => Err e
           | Ok meta =>
               let c := ResolveCompletion meta c0 in
               let result := CheckCompletion meta (r_status r) c in
               if negb (Applied result) then Ok (result, db)
               else match spec_apply now c meta r db with
                    | Ok db' => Ok (result, db')
                    | Err e => Err e
                    end
           end
  end.

(** ** Inversion of the transaction monad *)

Variable fail : nat → bool.

Lemma tbind_ok {A B} (m : tx A) (k : A → tx B) n db b n' db' :
  tbind m k n db = Ok (b, n', db') ↔
  ∃ a n1 db1, m n db = Ok (a, n1, db1) ∧ k a n1 db1 = Ok (b, n', db').
Proof.
  unfold tbind. destruct (m n db) as [[[a n1] db1]|]; split.
  - intros. eauto.
  - by intros (? & ? & ? & [= <- <- <-] & ?).
  - done.
  - by intros (? & ? & ? & ? & ?).
Qed.

Lemma stmt_ok {A} (f : DB → res err (A * DB)) n db a n' db' :
  stmt fail f n db = Ok (a, n', db') ↔ fail n = false ∧ n' = S n ∧ f db = Ok (a, db').
Proof.
  unfold stmt. destruct (fail n); [naive_solver|].
  destruct (f db) as [[a1 db1]|]; naive_solver.
Qed.

Lemma stmt_run {A} (f : DB → res err (A * DB)) n db :
  (∀ k, fail k = false) →
  stmt fail f n db = match f db with Ok (a, db') => Ok (a, S n, db') | Err e => Err e end.
Proof. intros H. unfold stmt. by rewrite H. Qed.

End spec.

(** Splits a successful run of a transaction into its statements. *)
Ltac tx_inv :=
  repeat match goal with
    | H : tbind _ _ _ _ = Ok _ |- _ => apply tbind_ok in H as (? & ? & ? & ? & ?)
    | H : stmt _ _ _ _ = Ok _ |- _ => apply stmt_ok in H as (? & ? & ?)
    | H : tret _ _ _ = Ok _ |- _ => unfold tret in H; simplify_eq
    | H : terr _ _ _ = Ok _ |- _ => done
    end.

(** ** Each group of writes meets its part of the specification *)

Section refinement.
Variable fail : nat → bool.
Variable validate : gmap string any → bool.
Variable ts_le : Z → Z → bool.

Lemma check_values_ok v n db a n' db' :
  check_values validate v n db = Ok (a, n', db') ↔ validate v = true ∧ n' = n ∧ db' = db.
Proof.
  unfold check_values, tret, terr. destruct (validate v), a; split.
  - by intros [= <- <-].
  - by intros (_ & -> & ->).
  - done.
  - by intros (? & _).
Qed.

Lemma select_thread_ok threadID tid n db t n' db' :
  select_thread fail threadID tid n db = Ok (t, n', db') ↔
  fail n = false ∧ n' = S n ∧ db' = db ∧ threads db !! threadID = Some t ∧ t_tenant t = tid.
Proof.
  unfold select_thread. rewrite stmt_ok.
  destruct (threads db !! threadID) as [t0|] eqn:E; [|naive_solver].
  destruct (String.eqb_spec (t_tenant t0) tid); naive_solver.
Qed.

Lemma update_thread_ok threadID tid cond f n db t n' db' a :
  threads db !! threadID = Some t → t_tenant t = tid →
  update_thread fail threadID tid cond f n db = Ok (a, n', db') ↔
  fail n = false ∧ n' = S n ∧
  db' = set_threads (<[threadID := if cond t then f t else t]> (threads db)) db.
Proof.
  intros E <-. unfold update_thread. rewrite stmt_ok, E, String.eqb_refl. simpl.
  destruct (cond t); destruct a; [naive_solver|].
  rewrite insert_id by done. destruct db; naive_solver.
Qed.

Lemma update_run_ok runID tid f n db r n' db' a :
  runs db !! runID = Some r → r_tenant r = tid →
  update_run fail runID tid f n db = Ok (a, n', db') ↔
  fail n = false ∧ n' = S n ∧ db' = set_runs (<[runID := f r]> (runs db)) db.
Proof.
  intros E <-. unfold update_run. rewrite stmt_ok, E, String.eqb_refl.
  destruct a; naive_solver.
Qed.

Lemma insert_ckpt_ok id k n db n' db' a :
  insert_ckpt fail id k n db = Ok (a, n', db') ↔
  fail n = false ∧ n' = S n ∧ ckpts db !! id = None ∧ db' = set_ckpts (<[id := k]> (ckpts db)) db.
Proof.
  unfold insert_ckpt. rewrite stmt_ok. destruct (ckpts db !! id), a; naive_solver.
Qed.

Lemma select_parent_ok threadID tid n db p n' db' :
  select_parent fail ts_le threadID tid n db = Ok (p, n', db') ↔
  fail n = false ∧ n' = S n ∧ db' = db ∧ p = latest_ckpt ts_le threadID tid (ckpts db).
Proof. unfold select_parent. rewrite stmt_ok. naive_solver. Qed.

Lemma select_active_ok threadID tid runID n db k n' db' :
  select_active fail threadID tid runID n db = Ok (k, n', db') ↔
  fail n = false ∧ n' = S n ∧ db' = db ∧ k = others_active threadID tid runID (runs db).
Proof. clear ts_le validate. unfold select_active. rewrite stmt_ok. naive_solver. Qed.

Lemma load_ok x runID n db l n' db' :
  load fail x runID n db = Ok (l, n', db') ↔
  fail n = false ∧ n' = S n ∧ db' = db ∧
  ∃ r meta, runs db !! runID = Some r ∧ visible x (r_tenant r) = true ∧
    decode_meta (r_meta r) = Ok meta ∧ l = (r_tenant r, r_thread r, r_status r, meta).
Proof.
  clear ts_le validate. unfold load. rewrite stmt_ok.
  destruct (runs db !! runID) as [r|];
    [|split; [by intros (? & ? & ?)|by intros (? & ? & -> & ? & ? & ? & ?)]].
  destruct (visible x (r_tenant r)) eqn:Ev;
    [|split; [by intros (? & ? & ?)|intros (? & ? & -> & ? & ? & [= <-] & ? & ?); congruence]].
  destruct (decode_meta (r_meta r)) eqn:Em; split.
  - intros (? & ? & [= <- <-]). eauto 10.
  - intros (? & ? & -> & r' & m' & [= <-] & _ & Hm & ->). rewrite Em in Hm. by simplify_eq.
  - by intros (? & ? & ?).
  - intros (? & ? & -> & r' & m' & [= <-] & _ & Hm & _). by rewrite Em in Hm.
Qed.

(** The history writes leave [completed_ckpts] and [merged_thread] behind. *)
Lemma write_thread_values_ok now tid threadID c v n db a n' db' :
  history_values c = Some v →
  write_thread_values fail validate ts_le now tid threadID (CRunID c) v n db = Ok (a, n', db') →
  ∃ t t1 k, threads db !! threadID = Some t ∧ t_tenant t = tid ∧
    merged_thread validate now c t = Ok t1 ∧
    completed_ckpts ts_le now c tid threadID t1 (ckpts db) = Ok k ∧
    db' = with_tables (runs db) (<[threadID := t1]> (threads db)) k db.
Proof.
  intros Hh H. unfold write_thread_values in H.
  apply tbind_ok in H as (t & n1 & db1 & H1 & H).
  apply select_thread_ok in H1 as (_ & -> & -> & Et & Ht).
  unfold decode_values in H. destruct (decode_meta (t_values t)) as [old|] eqn:Eo; [|done].
  apply tbind_ok in H as (? & ? & ? & H1 & H).
  apply check_values_ok in H1 as (Hv & -> & ->).
  apply tbind_ok in H as (? & ? & db2 & H1 & H).
  apply (update_thread_ok _ _ _ _ _ _ _ _ _ _ Et Ht) in H1 as (_ & -> & ->).
  apply tbind_ok in H as (p & ? & db3 & H1 & H).
  apply select_parent_ok in H1 as (_ & -> & -> & ->).
  apply insert_ckpt_ok in H as (_ & -> & Hn & ->).
  exists t, (mkThread (t_tenant t) (t_status t) (ColObj (merge_values v old)) (t_version t + 1) now (t_meta t) (t_created t)).
  eexists. split_and!; try done.
  - unfold merged_thread. by rewrite Hh, Eo, Hv.
  - unfold completed_ckpts. simpl in *. by rewrite Hh, Hn.
Qed.

Lemma write_thread_values_runs now tid threadID c v n db t t1 k :
  (∀ i, fail i = false) → history_values c = Some v →
  threads db !! threadID = Some t → t_tenant t = tid →
  merged_thread validate now c t = Ok t1 →
  completed_ckpts ts_le now c tid threadID t1 (ckpts db) = Ok k →
  ∃ n', write_thread_values fail validate ts_le now tid threadID (CRunID c) v n db
        = Ok (tt, n', with_tables (runs db) (<[threadID := t1]> (threads db)) k db).
Proof.
  intros Hf Hh Et Ht Hm Hk. unfold merged_thread in Hm. unfold completed_ckpts in Hk.
  rewrite Hh in Hm, Hk. destruct (decode_meta (t_values t)) as [old|] eqn:Eo; [|done].
  destruct (validate (merge_values v old)) eqn:Hv; simplify_eq. simpl in Hk.
  destruct (ckpts db !! _) eqn:Ek; simplify_eq.
  exists (S (S (S (S n)))). unfold write_thread_values. apply tbind_ok.
  exists t, (S n), db. split; [by apply select_thread_ok|].
  unfold decode_values. rewrite Eo. apply tbind_ok. exists tt, (S n), db.
  split; [by apply check_values_ok|]. apply tbind_ok. eexists tt, (S (S n)), _.
  split; [by apply (update_thread_ok _ _ _ _ _ _ _ _ _ _ Et)|]. apply tbind_ok.
  eexists _, (S (S (S n))), _. split; [by apply select_parent_ok|].
  by apply insert_ckpt_ok.
Qed.

Lemma write_terminal_ok now tid threadID c meta r t n db a n' db' :
  runs db !! CRunID c = Some r → r_tenant r = tid →
  threads db !! threadID = Some t → t_tenant t = tid →
  write_terminal fail now tid threadID c meta n db = Ok (a, n', db') →
  let rs := <[CRunID c := completed_run now c meta r]> (runs db) in
  db' = with_tables rs
          (<[threadID := released_thread now c (others_active threadID tid (CRunID c) rs) t]>
             (threads db)) (ckpts db) db.
Proof.
  intros Er Hr Et Ht H. unfold write_terminal in H.
  apply tbind_ok in H as (? & ? & ? & H1 & H).
  apply (update_run_ok _ _ _ _ _ _ _ _ _ Er Hr) in H1 as (_ & -> & ->).
  apply tbind_ok in H as (? & ? & ? & H1 & H).
  apply select_thread_ok in H1 as (_ & -> & -> & _).
  apply tbind_ok in H as (k & ? & ? & H1 & H).
  apply select_active_ok in H1 as (_ & -> & -> & ->). simpl in H.
  unfold released_thread, completed_run. simpl.
  match type of H with (if ?b then _ else _) _ _ = _ => destruct b eqn:En end; simpl.
  - eapply update_thread_ok in H as (_ & -> & ->); [|done..]. done.
  - unfold tret in H. simplify_eq. by rewrite (insert_id (threads db)).
Qed.

Lemma write_terminal_runs now tid threadID c meta r t n db :
  (∀ i, fail i = false) →
  runs db !! CRunID c = Some r → r_tenant r = tid →
  threads db !! threadID = Some t → t_tenant t = tid →
  ∃ n' db', write_terminal fail now tid threadID c meta n db = Ok (tt, n', db').
Proof.
  intros Hf Er Hr Et Ht. unfold write_terminal.
  assert (∀ m : nat, fail m = false) by done.
  match goal with |- ∃ n' db', tbind _ (λ _, tbind _ (λ _, tbind _ (λ k, if k =? 0 then ?u else _))) _ _ = _ =>
    set (rel := u) end.
  set (db1 := set_runs (<[CRunID c := completed_run now c meta r]> (runs db)) db).
  set (k := others_active threadID tid (CRunID c) (runs db1)).
  assert (∃ n' db', (if k =? 0 then rel else tret tt) (S (S (S n))) db1 = Ok (tt, n', db'))
    as (n' & db' & Hl).
  { destruct (k =? 0); [|by eexists _, _].
    eexists _, _. eapply update_thread_ok; [done..|]. by split_and!. }
  exists n', db'. apply tbind_ok. exists tt, (S n), db1.
  split; [by apply (update_run_ok _ _ _ _ _ _ _ _ _ Er Hr)|].
  apply tbind_ok. exists t, (S (S n)), db1. split; [by apply select_thread_ok|].
  apply tbind_ok. exists k, (S (S (S n))), db1. split; [by apply select_active_ok|done].
Qed.

Lemma merged_thread_tenant now c t t1 :
  merged_thread validate now c t = Ok t1 → t_tenant t1 = t_tenant t.
Proof.
  unfold merged_thread. intros H.
  repeat case_match; simplify_eq; done.
Qed.

Lemma history_none now c tid threadID t1 m :
  history_values c = None →
  merged_thread validate now c t1 = Ok t1 ∧ completed_ckpts ts_le now c tid threadID t1 m = Ok m.
Proof. intros H. unfold merged_thread, completed_ckpts. by rewrite H. Qed.

Lemma CompleteRunInTx_spec now x c0 n db res n' db' :
  CompleteRunInTx fail validate ts_le now x c0 n db = Ok (res, n', db') →
  spec_complete validate ts_le now x c0 db = Ok (res, db').
Proof.
  intros H. unfold CompleteRunInTx in H. apply tbind_ok in H as (l & n1 & db1 & H1 & H).
  apply load_ok in H1 as (_ & -> & -> & r & meta & Er & Hv & Hm & ->).
  unfold spec_complete. rewrite Er, Hv, Hm. simpl.
  pose proof (ResolveCompletion_fields meta c0) as (Hid & _).
  set (c := ResolveCompletion meta c0) in *.
  destruct (Applied (CheckCompletion meta (r_status r) c)); simpl in *;
    [|unfold tret in H; by simplify_eq].
  rewrite <- Hid in Er.
  apply tbind_ok in H as (? & n2 & db2 & H1 & H).
  apply tbind_ok in H as (? & n3 & db3 & H2 & H). unfold tret in H. simplify_eq.
  assert (∃ t t1 k, threads db !! r_thread r = Some t ∧ t_tenant t = r_tenant r ∧
    match CValues c with Some v => validate v | None => true end = true ∧
    merged_thread validate now c t = Ok t1 ∧
    completed_ckpts ts_le now c (r_tenant r) (r_thread r) t1 (ckpts db) = Ok k ∧
    db2 = with_tables (runs db) (<[r_thread r := t1]> (threads db)) k db) as
    (t & t1 & k & Et & Ht & Hva & Hme & Hck & ->).
  2:{ apply (write_terminal_ok _ _ _ _ _ r t1) in H2; simpl in *;
        [|done|done|by rewrite lookup_insert_eq|by rewrite <- Ht; eapply merged_thread_tenant].
      unfold spec_apply. rewrite Et, Ht, String.eqb_refl, Hva, Hme, Hck. simpl.
      rewrite H2. by rewrite insert_insert_eq. }
  assert (Hnone : history_values c = None → db2 = db → ∃ t t1 k,
    threads db !! r_thread r = Some t ∧ t_tenant t = r_tenant r ∧
    merged_thread validate now c t = Ok t1 ∧
    completed_ckpts ts_le now c (r_tenant r) (r_thread r) t1 (ckpts db) = Ok k ∧
    db2 = with_tables (runs db) (<[r_thread r := t1]> (threads db)) k db).
  { intros Hh ->. unfold write_terminal in H2. apply tbind_ok in H2 as (? & ? & ? & H3 & H2).
    apply (update_run_ok _ _ _ _ _ _ _ _ _ Er eq_refl) in H3 as (_ & -> & ->).
    apply tbind_ok in H2 as (t & ? & ? & H3 & H2).
    apply select_thread_ok in H3 as (_ & -> & -> & Et & Ht). simpl in Et.
    exists t, t, (ckpts db). destruct (history_none now c (r_tenant r) (r_thread r) t (ckpts db) Hh).
    split_and!; try done. rewrite insert_id by done. by destruct db. }
  unfold history_values in Hnone. destruct (CValues c) as [v|] eqn:Ev.
  - apply tbind_ok in H1 as (? & ? & ? & H3 & H1). apply check_values_ok in H3 as (Hval & -> & ->).
    destruct (CancelCurrentAttempt c) eqn:Ec; simpl in H1.
    + unfold tret in H1. simplify_eq. edestruct Hnone as (?&?&?&?&?&?&?&?); eauto 12.
    + eapply (write_thread_values_ok _ _ _ c) in H1 as (?&?&?&?&?&?&?&?); [eauto 12|].
      unfold history_values. by rewrite Ec.
  - unfold tret in H1. simplify_eq.
    edestruct Hnone as (?&?&?&?&?&?&?&?); [by destruct (CancelCurrentAttempt c)|done|eauto 12].
Qed.

Lemma spec_apply_inv now c meta r db db' :
  spec_apply validate ts_le now c meta r db = Ok db' →
  ∃ t t1 k, threads db !! r_thread r = Some t ∧ t_tenant t = r_tenant r ∧
    match CValues c with Some v => validate v | None => true end = true ∧
    merged_thread validate now c t = Ok t1 ∧
    completed_ckpts ts_le now c (r_tenant r) (r_thread r) t1 (ckpts db) = Ok k ∧
    let rs := <[CRunID c := completed_run now c meta r]> (runs db) in
    db' = with_tables rs (<[r_thread r := released_thread now c
                      (others_active (r_thread r) (r_tenant r) (CRunID c) rs) t1]> (threads db)) k db.
Proof.
  unfold spec_apply. intros H.
  destruct (threads db !! r_thread r) as [t|] eqn:Et; [|done].
  destruct (String.eqb_spec (t_tenant t) (r_tenant r)) as [Ht|]; [|done]. simpl in H.
  match type of H with (if negb ?b then _ else _) = _ => destruct b eqn:Hv end; [|done]. simpl in H.
  destruct (merged_thread validate now c t) as [t1|] eqn:Hm; [|done].
  destruct (completed_ckpts _ _ _ _ _ _ _) as [k|] eqn:Hk; [|done]. simplify_eq.
  exists t, t1, k. by split_and!.
Qed.

Lemma CompleteRunInTx_runs now x c0 n db res db' :
  (∀ i, fail i = false) →
  spec_complete validate ts_le now x c0 db = Ok (res, db') →
  ∃ n', CompleteRunInTx fail validate ts_le now x c0 n db = Ok (res, n', db').
Proof.
  intros Hf H.
  assert (∃ n' db2 res2, CompleteRunInTx fail validate ts_le now x c0 n db = Ok (res2, n', db2))
    as (n' & db2 & res2 & E).
  2:{ pose proof (CompleteRunInTx_spec _ _ _ _ _ _ _ _ E) as E2. rewrite H in E2. simplify_eq. eauto. }
  unfold spec_complete in H. destruct (runs db !! CRunID c0) as [r|] eqn:Er; [|done].
  destruct (visible x (r_tenant r)) eqn:Hv; [|done]. simpl in H.
  destruct (decode_meta (r_meta r)) as [meta|] eqn:Hm; [|done].
  assert (L : load fail x (CRunID c0) n db = Ok ((r_tenant r, r_thread r, r_status r, meta), S n, db)).
  { apply load_ok. split_and!; try done. eauto 10. }
  unfold CompleteRunInTx, tbind at 1. rewrite L.
  pose proof (ResolveCompletion_fields meta c0) as (Hid & _).
  set (c := ResolveCompletion meta c0) in *. rewrite <- Hid in Er.
  destruct (Applied (CheckCompletion meta (r_status r) c)); simpl in *; [|by unfold tret; eauto].
  destruct (spec_apply validate ts_le now c meta r db) as [dbf|] eqn:Es; [|done].
  apply spec_apply_inv in Es as (t & t1 & k & Et & Ht & Hval & Hme & Hck & _).
  match goal with |- ∃ n' db2 res2, tbind ?w _ _ _ = _ =>
    assert (∃ n1, w (S n) db = Ok (tt, n1, with_tables (runs db) (<[r_thread r := t1]> (threads db)) k db))
      as (n1 & Ew) end.
  { assert (Hn : history_values c = None → db = with_tables (runs db) (<[r_thread r := t1]> (threads db)) k db).
    { intros Hh. destruct (history_none now c (r_tenant r) (r_thread r) t (ckpts db) Hh) as [Hx Hy].
      rewrite Hx in Hme. simplify_eq. rewrite Hy in Hck. simplify_eq.
      rewrite insert_id by done. by destruct db. }
    pose proof (write_thread_values_runs now (r_tenant r) (r_thread r) c) as W.
    unfold history_values in *. destruct (CValues c) as [v|].
    - unfold tbind, check_values. rewrite Hval. unfold tret at 1. simpl.
      destruct (CancelCurrentAttempt c); simpl; [rewrite <- Hn by done; by exists (S n)|eauto].
    - rewrite <- Hn by (by destruct (CancelCurrentAttempt c)). by exists (S n). }
  unfold tbind at 1. rewrite Ew.
  destruct (write_terminal_runs now (r_tenant r) (r_thread r) c meta r t1 n1
    (with_tables (runs db) (<[r_thread r := t1]> (threads db)) k db) Hf) as (n2 & db2 & Et2); simpl; try done.
  { by rewrite lookup_insert_eq. }
  { by rewrite <- Ht; eapply merged_thread_tenant. }
  unfold tbind. rewrite Et2. unfold tret. eauto.
Qed.

Lemma CompleteRun_cases co now x c db :
  let out := CompleteRun fail validate ts_le co now x c db in
  (out.1 = db ∧
   ∀ res, out.2 = Ok res → spec_complete validate ts_le now x c db = Ok (res, db) ∧ Applied res = false)
  ∨ (∃ res, spec_complete validate ts_le now x c db = Ok (res, out.1) ∧ Applied res = true ∧
            (out.2 = Ok res ∨ (co = CommitLost ∧ out.2 = Err EDriver))).
Proof.
  unfold CompleteRun, run_tx. destruct (fail 0%nat); [by left|].
  destruct (CompleteRunInTx _ _ _ _ _ _ _ _) as [[[res n'] db']|] eqn:E; [|by left].
  apply CompleteRunInTx_spec in E as Es. destruct (Applied res) eqn:Ea; simpl.
  - destruct co; simpl; [right; eauto 6|by left|right; eauto 6].
  - left. split; [done|]. intros res' [= <-]. rewrite Es. split; [|done].
    unfold spec_complete in Es. repeat case_match; simplify_eq/=; try done.
    by match goal with H : negb _ = false |- _ => rewrite Ea in H end.
Qed.

(** C1. Completion is atomic: whichever statement of the transaction fails and
    however the commit ends, the tables afterwards are either untouched or
    exactly those of the one-step specification; a result is reported only when
    it is the specification's, and applied writes go unreported only when the
    commit acknowledgement was lost. *)
Theorem complete_refines co now x c db :
  let out := CompleteRun fail validate ts_le co now x c db in
  (out.1 = db ∧
   ∀ res, out.2 = Ok res → spec_complete validate ts_le now x c db = Ok (res, db) ∧ Applied res = false)
  ∨ (∃ res, spec_complete validate ts_le now x c db = Ok (res, out.1) ∧ Applied res = true ∧
            (out.2 = Ok res ∨ (co = CommitLost ∧ out.2 = Err EDriver))).
Proof. apply CompleteRun_cases. Qed.

Lemma CompleteRun_runs now x c db :
  (∀ i, fail i = false) →
  match spec_complete validate ts_le now x c db with
  | Ok (res, db') => CompleteRun fail validate ts_le CommitOk now x c db = (db', Ok res)
  | Err _ => ∃ e, CompleteRun fail validate ts_le CommitOk now x c db = (db, Err e)
  end.
Proof.
  intros Hf. unfold CompleteRun, run_tx. rewrite Hf.
  destruct (spec_complete _ _ _ _ _ _) as [[res db']|e] eqn:Es.
  - destruct (CompleteRunInTx_runs _ _ _ 1%nat _ _ _ Hf Es) as [n' ->].
    destruct (Applied res) eqn:Ea; [done|]. f_equal.
    unfold spec_complete in Es. repeat case_match; simplify_eq/=; try done.
    by match goal with H : negb _ = false |- _ => rewrite Ea in H end.
  - destruct (CompleteRunInTx _ _ _ _ _ _ _ _) as [[[res n'] db']|] eqn:E; [|eauto].
    apply CompleteRunInTx_spec in E. congruence.
Qed.
End refinement.
