(* ===== verification/StoreOps.v ===== *)
(** * The other operations of the SQL store

    Models the parent-thread lock and the checkpoint fence
    ([internal/state/sqlcompletion/{thread,checkpoint}.go],
    [internal/state/run_checkpoint.go], [internal/state/sqlite/run_checkpoint.go]),
    admitted and cached run creation ([internal/state/{admission,cached_run}.go],
    [internal/state/sqlite/admission_create.go]) and the single-statement
    operations on threads, runs and checkpoints
    ([internal/state/sqlite/sqlite.go]).

    Times are Unix nanoseconds; [time.RFC3339] text keeps whole seconds. *)

From S2P Require Import Prelude GoAny Completion Store.
From Stdlib.Init Require Byte.
Local Open Scope string_scope.
Local Open Scope Z_scope.
Local Open Scope go_scope.

Definition second : Z := 1000000000.
Definition day : Z := 86400 * second.

(** The instant kept by an RFC 3339 text. *)
Definition rfc3339 (t : Z) : Z := t / second * second.

(** ** Checkpoint binding ([state.CheckRunCheckpointBinding]) *)

Record RunCheckpointBinding := mkBinding {
  BRunID : string;
  BGeneration : Z;
  BThreadID : string
}.

Definition CheckRunCheckpointBinding (threadID status : string) (meta : gmap string any)
    (b : RunCheckpointBinding) : option err :=
  if TerminalRunStatus status then Some (EFence "run_not_inflight")
  else if negb (String.eqb threadID (BThreadID b)) then Some (EFence "run_thread_mismatch")
  else if negb (MetadataGeneration meta AttemptGenerationKey =? BGeneration b)
  then Some (EFence "run_generation_mismatch")
  else None.

(** [isNoRows(err)] replaced by the caller's own error. *)
Definition on_no_rows {A} (e : err) (m : tx A) : tx A :=
  λ n db, match m n db with
          | Err ENoRows => Err e
          | r => r
          end.

(** ** Admission caps ([state.RunAdmissionCaps]) *)

Record RunAdmissionCaps := mkCaps {
  TenantConcurrent : Z;
  TenantDaily : Z;
  AgentConcurrent : Z;
  AgentDaily : Z;
  CapsNow : option Z       (* None: the zero time *)
}.

Definition Enabled (c : option RunAdmissionCaps) : bool :=
  match c with
  | None => false
  | Some c => (0 <? TenantConcurrent c) || (0 <? TenantDaily c)
              || (0 <? AgentConcurrent c) || (0 <? AgentDaily c)
  end.

(** UTC midnight of [Now], or of the wall clock. *)
Definition DayStart (wall : Z) (c : RunAdmissionCaps) : Z :=
  let now := match CapsNow c with Some t => t | None => wall end in
  now - now mod day.

Section evaluate.
Variable countActive : string → tx Z.
Variable countSince : Z → string → tx Z.

(** One ceiling: count, compare, refuse. *)
Definition check_cap (scope kind : string) (limit : Z) (count : tx Z) : tx unit :=
  if 0 <? limit then
    n <-- count ;;
    if limit <=? n then terr (EAdmission scope kind limit n) else tret tt
  else tret tt.

Definition EvaluateRunAdmission (wall : Z) (caps : option RunAdmissionCaps) (agentID : string)
  : tx unit :=
  match caps with
  | Some c =>
      if negb (Enabled caps) then tret tt
      else
        check_cap "tenant" "concurrent" (TenantConcurrent c) (countActive "") ;;;
        check_cap "agent" "concurrent" (AgentConcurrent c) (countActive agentID) ;;;
        let dayStart := DayStart wall c in
        check_cap "tenant" "daily" (TenantDaily c) (countSince dayStart "") ;;;
        check_cap "agent" "daily" (AgentDaily c) (countSince dayStart agentID)
  | None => tret tt
  end.
End evaluate.

(** ** Runs as the API passes them ([models.Run]) *)

Record Run := mkRunReq {
  RunID : string;
  ThreadID : string;
  AgentID : string;
  Status : string;
  Metadata : option (gmap string any);    (* None: a nil map *)
  Output : column;
  CreatedAt : Z;
  UpdatedAt : Z;
  Spec : run_spec
}.

(** [json.Marshal(run.Metadata)] *)
Definition marshal_meta (m : option (gmap string any)) : column :=
  match m with Some m => encode_meta m | None => ColNull end.

Definition strip_generations (m : gmap string any) : gmap string any :=
  delete CompletionGenerationKey (delete AttemptGenerationKey m).

Definition PrepareCachedRun (run : Run) : res err (Run * RunCompletion) :=
  if negb (String.eqb (Status run) RunStatusSuccess)
  then Err (EOther "cached creation requires a successful result")
  else match Output run with
       | ColEmpty | ColInvalid => Err EDecode
       | ColNull => Err (EOther "cached result must be a JSON object")
       | ColObj values =>
           Ok (mkRunReq (RunID run) (ThreadID run) (AgentID run) RunStatusPending
                 (Some (strip_generations (default ∅ (Metadata run)))) ColEmpty
                 (CreatedAt run) (UpdatedAt run) (Spec run),
               mkCompletion false None "" false (RunID run) 0 RunStatusSuccess "" (Some values))
       end.

(** [SQLExcludeSimulationSQLite] on the decoded document: JSON true, the number
    one and the text "true" mark a fixture replay. *)
Definition simulation (m : gmap string any) : bool :=
  match m !! "simulation" with
  | Some (ABool b) => b
  | Some (AFloat f) => f64_eq f (f64_of_Z 1)
  | Some (AStr s) => String.eqb s "true"
  | _ => false
  end.

Definition agent_filter (agentID : string) (r : run_row) : bool :=
  String.eqb agentID "" || String.eqb (r_agent r) agentID.

Definition count_active (tid agentID : string) (m : gmap string run_row) : Z :=
  count_runs (λ _ r, active (r_status r) && String.eqb (r_tenant r) tid && agent_filter agentID r) m.

Definition not_simulation (c : column) : bool :=
  match c with ColObj m => negb (simulation m) | _ => true end.

Definition count_since (since : Z) (tid agentID : string) (m : gmap string run_row) : Z :=
  count_runs (λ _ r, (since <=? r_created r) && String.eqb (r_tenant r) tid
                     && not_simulation (r_meta r) && agent_filter agentID r) m.

(** Malformed metadata makes [json_extract] fail. *)
Definition malformed_in (tid : string) (m : gmap string run_row) : bool :=
  existsb (λ kr : string * run_row,
    String.eqb (r_tenant kr.2) tid && match r_meta kr.2 with ColInvalid => true | _ => false end)
    (map_to_list m).

Section ops.
Variable fail : nat → bool.
Variable validate : gmap string any → bool.
Variable ts_le : Z → Z → bool.

(** One autocommitted statement. *)
Definition auto {A} (co : commit_outcome) (f : DB → A * DB) (db : DB) : DB * res err A :=
  if fail 0%nat then (db, Err EDriver)
  else let '(a, db') := f db in
       match co with
       | CommitOk => (db', Ok a)
       | CommitFailed => (db, Err EDriver)
       | CommitLost => (db', Err EDriver)
       end.

(** ** Parent-thread lock *)

Definition LockThread (x : ctx) (threadID : string) : tx string :=
  t <-- on_no_rows (ENotFound "thread" threadID) (select_thread fail threadID (FromContext x)) ;;
  tret (t_status t).

Definition WithThread {A} (co : commit_outcome) (x : ctx) (threadID : string) (mutate : tx A)
    (db : DB) : DB * res err A :=
  run_tx fail co (LockThread x threadID ;;; mutate) (λ _, true) db.

(** ** Fenced opaque checkpoints *)

Definition LockRunCheckpoint (x : ctx) (b : RunCheckpointBinding) : tx unit :=
  l <-- on_no_rows (EFence "run_not_inflight") (load fail x (BRunID b)) ;;
  let '(_, threadID, st, meta) := l in
  match CheckRunCheckpointBinding threadID st meta b with
  | Some e => terr e
  | None => LockThread x threadID ;;; tret tt
  end.

Definition WithRunCheckpoint {A} (co : commit_outcome) (x : ctx) (b : RunCheckpointBinding)
    (mutate : tx A) (db : DB) : DB * res err A :=
  run_tx fail co (LockRunCheckpoint x b ;;; mutate) (λ _, true) db.

Definition MaxOpaqueCheckpointBytes : Z := Z.shiftl 16 20.
Definition OpaqueCreateOnly : Z := 0.

Definition put_opaque_row (key : string * string * string) (o : opaque_row) (db : DB)
  : res err (Z * DB) :=
  Ok (o_version o, set_opaques (<[key := o]> (opaques db)) db).

Definition putOpaqueCheckpoint (now : Z) (x : ctx) (threadID checkpointID : string)
    (data : list Byte.byte) (framework : string) (ifMatch : option Z) : tx Z :=
  if MaxOpaqueCheckpointBytes <? Z.of_nat (length data)
  then terr (EOther "opaque checkpoint exceeds max size")
  else
    let key := (FromContext x, threadID, checkpointID) in
    let fresh := mkOpaque framework data 1 now in
    match ifMatch with
    | Some v =>
        if v =? OpaqueCreateOnly then
          stmt fail (λ db, match opaques db !! key with
                           | Some _ => Err (EConflict "opaque_checkpoint" checkpointID)
                           | None => put_opaque_row key fresh db
                           end)
        else
          stmt fail (λ db, match opaques db !! key with
                           | Some o =>
                               if o_version o =? v
                               then put_opaque_row key (mkOpaque framework data (o_version o + 1) now) db
                               else Err (EConflict "opaque_checkpoint" checkpointID)
                           | None => Err (EConflict "opaque_checkpoint" checkpointID)
                           end)
    | None =>
        stmt fail (λ db, match opaques db !! key with
                         | Some o => put_opaque_row key (mkOpaque framework data (o_version o + 1) now) db
                         | None => put_opaque_row key fresh db
                         end)
    end.

Definition PutOpaqueCheckpoint (co : commit_outcome) (now : Z) (x : ctx)
    (threadID checkpointID : string) (data : list Byte.byte) (framework : string)
    (ifMatch : option Z) (db : DB) : DB * res err Z :=
  WithThread co x threadID
    (putOpaqueCheckpoint now x threadID checkpointID data framework ifMatch) db.

Definition PutBoundOpaqueCheckpoint (co : commit_outcome) (now : Z) (x : ctx)
    (b : RunCheckpointBinding) (checkpointID : string) (data : list Byte.byte) (framework : string)
    (ifMatch : option Z) (db : DB) : DB * res err Z :=
  WithRunCheckpoint co x b
    (putOpaqueCheckpoint now x (BThreadID b) checkpointID data framework ifMatch) db.

Definition delete_opaque (key : string * string * string) : tx unit :=
  stmt fail (λ db, match opaques db !! key with
                   | Some _ => Ok (tt, db)
                   | None => Err ENoRows
                   end) ;;;
  stmt fail (λ db, Ok (tt, set_opaques (delete key (opaques db)) db)).

Definition DeleteBoundOpaqueCheckpoint (co : commit_outcome) (x : ctx) (b : RunCheckpointBinding)
    (checkpointID : string) (db : DB) : DB * res err unit :=
  run_tx fail co
    (LockRunCheckpoint x b ;;;
     on_no_rows (ENotFound "opaque_checkpoint" checkpointID)
       (delete_opaque (FromContext x, BThreadID b, checkpointID)))
    (λ _, true) db.

Definition DeleteOpaqueCheckpoint (co : commit_outcome) (x : ctx) (threadID checkpointID : string)
    (db : DB) : DB * res err unit :=
  match auto co (λ db,
    let hit k := if decide (k.1.2 = threadID ∧ k.2 = checkpointID ∧ visible x k.1.1 = true)
                 then true else false in
    (size (filter (λ ko, hit ko.1 = true) (opaques db)),
     set_opaques (filter (λ ko, hit ko.1 = false) (opaques db)) db)) db with
  | (db', Ok n) => (db', if (n =? 0)%nat then Err (ENotFound "opaque_checkpoint" checkpointID) else Ok tt)
  | (db', Err e) => (db', Err e)
  end.

Definition SaveCheckpoint (co : commit_outcome) (x : ctx) (threadID checkpointID ns : string)
    (parent : option string) (values : gmap string any) (docs : ckpt_docs) (created : Z) (db : DB)
    : DB * res err unit :=
  WithThread co x threadID
    (insert_ckpt fail checkpointID (mkCkpt (FromContext x) threadID ns parent values created docs)) db.

(** ** Admitted and cached run creation *)

Definition claim_thread (claim : bool) (threadID tid status : string) : tx unit :=
  if claim then
    if String.eqb status ThreadStatusBusy then terr (EConflict "thread" threadID)
    else update_thread fail threadID tid (λ _, true) (λ t,
           mkThread (t_tenant t) ThreadStatusBusy (t_values t) (t_version t) (t_updated t)
             (t_meta t) (t_created t))
  else tret tt.

Definition countActive (tid agentID : string) : tx Z :=
  stmt fail (λ db, Ok (count_active tid agentID (runs db), db)).

Definition countSince (tid : string) (since : Z) (agentID : string) : tx Z :=
  stmt fail (λ db, if malformed_in tid (runs db) then Err EDriver
                   else Ok (count_since since tid agentID (runs db), db)).

Definition new_row (tid : string) (run : Run) : run_row :=
  mkRun tid (ThreadID run) (AgentID run) (Status run) (marshal_meta (Metadata run)) ColEmpty ""
    (rfc3339 (CreatedAt run)) (rfc3339 (UpdatedAt run)) (Spec run).

Definition insert_run (tid : string) (run : Run) : tx unit :=
  stmt fail (λ db, match runs db !! RunID run with
                   | Some _ => Err (EConflict "run" (RunID run))
                   | None => Ok (tt, set_runs (<[RunID run := new_row tid run]> (runs db)) db)
                   end).

Definition create_body (wall : Z) (x : ctx) (run : Run) (caps : option RunAdmissionCaps)
    (claim : bool) (afterInsert : tx unit) : tx unit :=
  let tid := FromContext x in
  status <-- LockThread x (ThreadID run) ;;
  claim_thread claim (ThreadID run) tid status ;;;
  EvaluateRunAdmission (countActive tid) (countSince tid) wall caps (AgentID run) ;;;
  insert_run tid run ;;;
  afterInsert.

Definition createRun (co : commit_outcome) (wall : Z) (x : ctx) (run : Run)
    (caps : option RunAdmissionCaps) (claim : bool) (afterInsert : tx unit) (db : DB)
    : DB * res err unit :=
  run_tx fail co (create_body wall x run caps claim afterInsert) (λ _, true) db.

Definition CreateRunAdmitted (co : commit_outcome) (wall : Z) (x : ctx) (run : Run)
    (caps : option RunAdmissionCaps) (db : DB) : DB * res err unit :=
  createRun co wall x run caps false (tret tt) db.

Definition CreateRun (co : commit_outcome) (wall : Z) (x : ctx) (run : Run) (db : DB)
  : DB * res err unit :=
  CreateRunAdmitted co wall x run None db.

Definition complete_cached (now : Z) (x : ctx) (c : RunCompletion) : tx unit :=
  result <-- CompleteRunInTx fail validate ts_le now x c ;;
  if Applied result then tret tt else terr (EOther "cache completion was not applied").

Definition CreateCachedRun (co : commit_outcome) (wall now : Z) (x : ctx) (run : Run)
    (caps : option RunAdmissionCaps) (db : DB) : DB * res err unit :=
  match PrepareCachedRun run with
  | Err e => (db, Err e)
  | Ok (pending, completion) =>
      createRun co wall x pending caps true (complete_cached now x completion) db
  end.

(** ** Single-statement operations on threads *)

Record Thread := mkThreadReq {
  ThThreadID : string;
  ThStatus : string;
  ThMetadata : option (gmap string any);
  ThValues : option (gmap string any);
  ThCreatedAt : Z;
  ThUpdatedAt : Z
}.

Definition marshal_values (m : option (gmap string any)) : column :=
  match m with Some m => ColObj m | None => ColNull end.

Definition flatten {A} (p : DB * res err (res err A)) : DB * res err A :=
  (p.1, match p.2 with Ok (Ok a) => Ok a | Ok (Err e) => Err e | Err e => Err e end).

Definition CreateThread (co : commit_outcome) (x : ctx) (t : Thread) (db : DB)
  : DB * res err unit :=
  flatten (auto co (λ db,
    match threads db !! ThThreadID t with
    | Some _ => (Err (EConflict "thread" (ThThreadID t)), db)
    | None =>
        (Ok tt, set_threads (<[ThThreadID t :=
           mkThread (FromContext x) (ThStatus t) (marshal_values (ThValues t)) 1
             (rfc3339 (ThUpdatedAt t)) (marshal_meta (ThMetadata t)) (rfc3339 (ThCreatedAt t))]>
           (threads db)) db)
    end) db).

(** [ON DELETE CASCADE] removes the thread's runs and checkpoints. *)
Definition cascade (threadID : string) (db : DB) : DB :=
  mkDB (filter (λ kr, r_thread kr.2 ≠ threadID) (runs db)) (delete threadID (threads db))
    (filter (λ kr, k_thread kr.2 ≠ threadID) (ckpts db))
    (filter (λ ko, ko.1.1.2 ≠ threadID) (opaques db)).

Definition DeleteThread (co : commit_outcome) (x : ctx) (threadID : string) (db : DB)
  : DB * res err unit :=
  flatten (auto co (λ db,
    match threads db !! threadID with
    | Some t => if visible x (t_tenant t) then (Ok tt, cascade threadID db)
                else (Err (ENotFound "thread" threadID), db)
    | None => (Err (ENotFound "thread" threadID), db)
    end) db).

(** [UPDATE threads SET status = ?, updated_at = ? WHERE thread_id = ? AND cond];
    returns the number of affected rows as a boolean. *)
Definition set_thread_status (now : Z) (x : ctx) (threadID status : string)
    (cond : DB → thread_row → bool) (db : DB) : bool * DB :=
  match threads db !! threadID with
  | Some t =>
      if visible x (t_tenant t) && cond db t
      then (true, set_threads (<[threadID := mkThread (t_tenant t) status (t_values t) (t_version t)
                                               (rfc3339 now) (t_meta t) (t_created t)]> (threads db)) db)
      else (false, db)
  | None => (false, db)
  end.

Definition SetThreadStatus (co : commit_outcome) (now : Z) (x : ctx) (threadID status : string)
    (db : DB) : DB * res err unit :=
  flatten (auto co (λ db, let '(_, db') := set_thread_status now x threadID status (λ _ _, true) db in
                          (Ok tt, db')) db).

Definition TryClaimThread (co : commit_outcome) (now : Z) (x : ctx) (threadID : string) (db : DB)
  : DB * res err bool :=
  auto co (set_thread_status now x threadID ThreadStatusBusy
             (λ _ t, negb (String.eqb (t_status t) ThreadStatusBusy))) db.

(** The sub-select does not restrict the tenant of the runs. *)
Definition other_active_run (threadID excludeRunID : string) (db : DB) : bool :=
  0 <? count_runs (λ id r, String.eqb (r_thread r) threadID && active (r_status r)
                           && negb (String.eqb id excludeRunID)) (runs db).

Definition ReleaseThreadIfNoOtherActive (co : commit_outcome) (now : Z) (x : ctx)
    (threadID excludeRunID status : string) (db : DB) : DB * res err bool :=
  auto co (set_thread_status now x threadID status
             (λ db t, String.eqb (t_status t) ThreadStatusBusy
                      && negb (other_active_run threadID excludeRunID db))) db.

(** [UpdateThread] reads the row, merges in memory and writes it back in a second
    statement guarded by the version; [existing] is the row it read. *)
Record ThreadPatch := mkPatch {
  PMetadata : option (gmap string any);
  PValues : option (gmap string any);
  IfMatchVersion : option Z
}.

Definition GetThread (x : ctx) (threadID : string) (db : DB) : res err thread_row :=
  if fail 0%nat then Err EDriver
  else match threads db !! threadID with
       | Some t =>
           if visible x (t_tenant t)
           then match t_values t with ColEmpty | ColInvalid => Err EDecode | _ => Ok t end
           else Err (ENotFound "thread" threadID)
       | None => Err (ENotFound "thread" threadID)
       end.

(** A column decoded into a Go map: for metadata a decode error is ignored and
    leaves nil; values that do not decode were refused by [GetThread]. *)
Definition go_map (c : column) : option (gmap string any) :=
  match c with ColObj m => Some m | _ => None end.

Definition patch_map (patch existing : option (gmap string any)) : option (gmap string any) :=
  match patch with
  | None => existing
  | Some p => if decide (p = ∅) then existing else Some (p ∪ default ∅ existing)
  end.

Definition update_thread_write (now : Z) (x : ctx) (threadID : string) (patch : ThreadPatch)
    (existing : thread_row) (db : DB) : option Z * DB :=
  let meta := patch_map (PMetadata patch) (go_map (t_meta existing)) in
  let vals := patch_map (PValues patch) (go_map (t_values existing)) in
  match threads db !! threadID with
  | Some t =>
      if visible x (t_tenant t)
         && match IfMatchVersion patch with Some v => t_version t =? v | None => true end
      then (Some (t_version t + 1),
            set_threads (<[threadID := mkThread (t_tenant t) (t_status t) (marshal_values vals)
              (t_version t + 1) (rfc3339 now) (marshal_meta meta) (t_created t)]> (threads db)) db)
      else (None, db)
  | None => (None, db)
  end.

(** The second statement of [UpdateThread]; returns the new version. *)
Definition UpdateThread_write (co : commit_outcome) (now : Z) (x : ctx) (threadID : string)
    (patch : ThreadPatch) (existing : thread_row) (db : DB) : DB * res err Z :=
  match auto co (update_thread_write now x threadID patch existing) db with
  | (db', Ok (Some v)) => (db', Ok v)
  | (db', Ok None) =>
      (db', match IfMatchVersion patch with
            | Some _ => Err (EConflict "thread" threadID)
            | None => Ok (t_version existing + 1)
            end)
  | (db', Err e) => (db', Err e)
  end.

(** ** Single-statement operations on runs *)

Definition update_visible_run (x : ctx) (runID : string) (cond : run_row → bool)
    (f : run_row → run_row) (db : DB) : bool * DB :=
  match runs db !! runID with
  | Some r => if visible x (r_tenant r) && cond r
              then (true, set_runs (<[runID := f r]> (runs db)) db)
              else (false, db)
  | None => (false, db)
  end.

Definition restatus (now : Z) (status : string) (output : column) (errMsg : string) (r : run_row)
  : run_row :=
  mkRun (r_tenant r) (r_thread r) (r_agent r) status (r_meta r) output errMsg (r_created r)
    (rfc3339 now) (r_spec r).

Definition UpdateRunStatus (co : commit_outcome) (now : Z) (x : ctx) (runID status : string)
    (output : column) (errMsg : string) (db : DB) : DB * res err unit :=
  flatten (auto co (λ db,
    (Ok tt, snd (update_visible_run x runID (λ _, true) (restatus now status output errMsg) db))) db).

Definition TryMarkRunTimeout (co : commit_outcome) (now : Z) (x : ctx) (runID errMsg : string)
    (db : DB) : DB * res err bool :=
  auto co (update_visible_run x runID (λ r, active (r_status r))
             (λ r, restatus now RunStatusTimeout (r_output r) errMsg r)) db.

Definition DeleteRun (co : commit_outcome) (x : ctx) (runID : string) (db : DB)
  : DB * res err unit :=
  flatten (auto co (λ db,
    match runs db !! runID with
    | Some r => if visible x (r_tenant r) then (Ok tt, set_runs (delete runID (runs db)) db)
                else (Err (ENotFound "run" runID), db)
    | None => (Err (ENotFound "run" runID), db)
    end) db).

(** [updated_at < ?] compares stored texts. *)
Definition prunable (x : ctx) (olderThan : Z) (r : run_row) : bool :=
  TerminalRunStatus (r_status r) && negb (ts_le (rfc3339 olderThan) (r_updated r))
  && visible x (r_tenant r).

Definition PruneRuns (co : commit_outcome) (x : ctx) (olderThan : Z) (db : DB) : DB * res err Z :=
  auto co (λ db,
    (count_runs (λ _ r, prunable x olderThan r) (runs db),
     set_runs (filter (λ kr, prunable x olderThan kr.2 = false) (runs db)) db)) db.

Definition GetRun (x : ctx) (runID : string) (db : DB) : res err run_row :=
  if fail 0%nat then Err EDriver
  else match runs db !! runID with
       | Some r => if visible x (r_tenant r) then Ok r else Err (ENotFound "run" runID)
       | None => Err (ENotFound "run" runID)
       end.

(** The metadata a [GetRun] caller sees. *)
Definition run_metadata (r : run_row) : gmap string any :=
  match r_meta r with ColObj m => m | _ => ∅ end.

Definition CountActiveRuns (x : ctx) (agentID : string) (db : DB) : res err Z :=
  if fail 0%nat then Err EDriver
  else Ok (count_runs (λ _ r, active (r_status r) && visible x (r_tenant r) && agent_filter agentID r)
             (runs db)).
End ops.
