(* ===== verification/StoreSearch.v ===== *)
(** * Searching runs

    [SearchRuns] of [internal/state/sqlite/sqlite.go]: the WHERE clause, the
    newest-first order, the page, and the row iteration, which a driver error may
    end early.  A request carries its cursor decoded (a cursor that does not
    decode is refused before the query); how the database compares a JSON column
    with a metadata value is a parameter. *)

From Stdlib Require Import String.
From S2P Require Import Prelude GoAny Completion Store StoreOps.
Local Open Scope string_scope.
Local Open Scope Z_scope.

Record RunSearchRequest := mkSearch {
  QMetadata : list (string * any);
  QStatus : option string;
  QThreadID : string;
  QAgentID : string;
  QRootRunID : string;
  QParentRunID : string;
  QLimit : Z;
  QOffset : Z;
  QCursor : option (Z * string)   (* the last row seen: created_at and run_id *)
}.

(** [column = ?], added to the WHERE clause when the request names a value. *)
Definition clause (want col : string) : bool := String.eqb want "" || String.eqb want col.
Definition null_clause (want : string) (col : option string) : bool :=
  String.eqb want "" || bool_decide (col = Some want).

Definition run_clauses (q : RunSearchRequest) (status thread agent : string) (root parent : option string)
  : bool :=
  match QStatus q with Some st => String.eqb status st | None => true end
  && clause (QThreadID q) thread && clause (QAgentID q) agent
  && null_clause (QRootRunID q) root && null_clause (QParentRunID q) parent.

Definition row_matches (q : RunSearchRequest) (r : run_row) : bool :=
  run_clauses q (r_status r) (r_thread r) (r_agent r) (s_root (r_spec r)) (s_parent (r_spec r)).

Section search.
(** [fail 0]: the query fails; [fail (S n)]: reading the n-th row does. *)
Variable fail : nat → bool.
Variable ts_le : Z → Z → bool.
(** [json_extract(metadata, '$.k') = v], by the database. *)
Variable json_eq : column → string → any → bool.

Definition metadata_clauses (q : RunSearchRequest) (r : run_row) : bool :=
  forallb (λ kv, json_eq (r_meta r) kv.1 kv.2) (QMetadata q).

(** [created_at < ? OR (created_at = ? AND run_id < ?)] *)
Definition cursor_clause (q : RunSearchRequest) (id : string) (r : run_row) : bool :=
  match QCursor q with
  | None => true
  | Some (ts, last) =>
      negb (ts_le ts (r_created r))
      || (ts_le ts (r_created r) && ts_le (r_created r) ts && String.ltb id last)
  end.

(** [ORDER BY created_at DESC, run_id DESC]: the row [a] may precede [b]. *)
Definition newest_first (a b : string * run_row) : bool :=
  if ts_le (r_created a.2) (r_created b.2) then
    ts_le (r_created b.2) (r_created a.2) && String.leb b.1 a.1
  else true.

(** [rows.Next] stops at a driver error, which is not looked at afterwards. *)
Fixpoint scan {A} (n : nat) (l : list A) : list A :=
  match l with
  | [] => []
  | a :: rest => if fail (S n) then [] else a :: scan (S n) rest
  end.

Definition selected (x : ctx) (q : RunSearchRequest) (db : DB) : list (string * run_row) :=
  filter (λ kr, visible x (r_tenant kr.2) && row_matches q kr.2 && metadata_clauses q kr.2
                && cursor_clause q kr.1 kr.2 = true) (map_to_list (runs db)).

(** A cursor replaces the offset. *)
Definition effective_offset (q : RunSearchRequest) : Z :=
  match QCursor q with Some _ => 0 | None => QOffset q end.

Definition effective_limit (q : RunSearchRequest) : Z := if QLimit q <=? 0 then 10 else QLimit q.

Definition SearchRuns (x : ctx) (q : RunSearchRequest) (db : DB) : res err (list (string * run_row)) :=
  if fail 0%nat then Err EDriver
  else Ok (scan 0 (take (Z.to_nat (effective_limit q))
                     (drop (Z.to_nat (effective_offset q)) (sort_by newest_first (selected x q db))))).

Lemma scan_sublist {A} n (l : list A) : sublist (scan n l) l.
Proof.
  revert n. induction l as [|a l IH]; intros n; simpl; [constructor|].
  destruct (fail (S n)); [apply sublist_nil_l|]. by apply sublist_skip.
Qed.

Lemma scan_all {A} n (l : list A) : (∀ i, fail i = false) → scan n l = l.
Proof. intros Hf. revert n. induction l as [|a l IH]; intros n; simpl; [done|]. by rewrite Hf, IH. Qed.

Lemma selected_spec x q db id r :
  (id, r) ∈ selected x q db ↔
  runs db !! id = Some r ∧ visible x (r_tenant r) = true ∧ row_matches q r = true ∧
  metadata_clauses q r = true ∧ cursor_clause q id r = true.
Proof.
  unfold selected. rewrite list_elem_of_filter, elem_of_map_to_list. simpl.
  rewrite !andb_true_iff. tauto.
Qed.

Lemma selected_NoDup x q db : NoDup (selected x q db).*1.
Proof.
  eapply sublist_NoDup; [apply (NoDup_fst_map_to_list (runs db))|].
  apply fmap_sublist, sublist_filter.
Qed.

Lemma SearchRuns_sublist x q db l :
  SearchRuns x q db = Ok l → sublist l (sort_by newest_first (selected x q db)).
Proof.
  unfold SearchRuns. destruct (fail 0%nat); [done|]. intros [= <-].
  etrans; [apply scan_sublist|]. etrans; [apply sublist_take|apply sublist_drop].
Qed.

(** Every row returned is a visible row that matches, and no row is returned
    twice. *)
Lemma SearchRuns_sound x q db l :
  SearchRuns x q db = Ok l →
  NoDup l.*1 ∧ ∀ id r, (id, r) ∈ l →
    runs db !! id = Some r ∧ visible x (r_tenant r) = true ∧ row_matches q r = true.
Proof.
  intros Hs%SearchRuns_sublist. split.
  - eapply sublist_NoDup; [|by apply fmap_sublist]. rewrite sort_by_perm. apply selected_NoDup.
  - intros id r Hin. assert (Hsel : (id, r) ∈ selected x q db); [|by apply selected_spec in Hsel as (?&?&?&_)]. rewrite <- (sort_by_perm newest_first).
    eapply elem_of_submseteq; [exact Hin|]. by apply sublist_submseteq.
Qed.

(** When no read fails and the page is not full, no matching row is missing. *)
Lemma SearchRuns_complete x q db l id r :
  SearchRuns x q db = Ok l → (∀ i, fail i = false) → QMetadata q = [] → QCursor q = None → QOffset q ≤ 0 → Z.of_nat (length l) < effective_limit q →
  runs db !! id = Some r → visible x (r_tenant r) = true → row_matches q r = true → (id, r) ∈ l.
Proof.
  unfold SearchRuns, effective_offset. intros Hs Hf Hmd Hcu Ho Hlen Hr Hv Hm. rewrite Hf, Hcu in Hs. injection Hs as <-.
  rewrite scan_all in * by done. replace (Z.to_nat (QOffset q)) with 0%nat in * by lia.
  rewrite drop_0 in *. rewrite length_take in Hlen.
  rewrite take_ge by lia. rewrite sort_by_perm. apply selected_spec.
  unfold metadata_clauses, cursor_clause. by rewrite Hmd, Hcu.
Qed.
End search.
