(* ===== verification/StoreSteps.v ===== *)
(** * Histories of store operations

    Any number of control-plane replicas call the store concurrently; SQLite's
    write lock makes their transactions a sequence.  A history is that sequence,
    each operation with its own statement failures and commit outcome, and the
    theorems hold for every history. *)

From S2P Require Import Prelude GoAny Completion Store StoreSpec StoreOps.
From Stdlib.Init Require Byte.
Local Open Scope string_scope.
Local Open Scope Z_scope.

Inductive op :=
| OBegin (now : Z) (runID : string) (generation : Z)
| OComplete (now : Z) (c : RunCompletion)
| OCreate (wall : Z) (run : Run) (caps : option RunAdmissionCaps)
| OCreateCached (wall now : Z) (run : Run) (caps : option RunAdmissionCaps)
| OCreateThread (t : Thread)
| ODeleteThread (threadID : string)
| OSetThread (now : Z) (threadID status : string)
| OClaim (now : Z) (threadID : string)
| ORelease (now : Z) (threadID runID status : string)
| OUpdateThread (now : Z) (threadID : string) (patch : ThreadPatch) (existing : thread_row)
| OUpdateRun (now : Z) (runID status : string) (output : column) (errMsg : string)
| OMarkTimeout (now : Z) (runID errMsg : string)
| ODeleteRun (runID : string)
| OPruneRuns (olderThan : Z)
| OSaveCkpt (threadID id ns : string) (parent : option string) (values : gmap string any)
    (docs : ckpt_docs) (created : Z)
| OPutOpaque (now : Z) (threadID id : string) (data : list Byte.byte) (framework : string)
    (ifMatch : option Z)
| OPutBound (now : Z) (b : RunCheckpointBinding) (id : string) (data : list Byte.byte)
    (framework : string) (ifMatch : option Z)
| ODeleteBound (b : RunCheckpointBinding) (id : string)
| ODeleteOpaque (threadID id : string).

(** An operation, who calls it and what the driver does to it. *)
Record call := mkCall {
  c_op : op;
  c_ctx : ctx;
  c_fail : nat → bool;
  c_commit : commit_outcome
}.

Section steps.
Variable validate : gmap string any → bool.
Variable ts_le : Z → Z → bool.

Definition exec (k : call) (db : DB) : DB :=
  let x := c_ctx k in let f := c_fail k in let co := c_commit k in
  match c_op k with
  | OBegin now id g => (BeginRunAttempt f co now x id g db).1
  | OComplete now c => (CompleteRun f validate ts_le co now x c db).1
  | OCreate wall run caps => (CreateRunAdmitted f co wall x run caps db).1
  | OCreateCached wall now run caps => (CreateCachedRun f validate ts_le co wall now x run caps db).1
  | OCreateThread t => (CreateThread f co x t db).1
  | ODeleteThread id => (DeleteThread f co x id db).1
  | OSetThread now id st => (SetThreadStatus f co now x id st db).1
  | OClaim now id => (TryClaimThread f co now x id db).1
  | ORelease now id run st => (ReleaseThreadIfNoOtherActive f co now x id run st db).1
  | OUpdateThread now id p e => (UpdateThread_write f co now x id p e db).1
  | OUpdateRun now id st out e => (UpdateRunStatus f co now x id st out e db).1
  | OMarkTimeout now id e => (TryMarkRunTimeout f co now x id e db).1
  | ODeleteRun id => (DeleteRun f co x id db).1
  | OPruneRuns t => (PruneRuns f ts_le co x t db).1
  | OSaveCkpt th id ns p v d cr => (SaveCheckpoint f co x th id ns p v d cr db).1
  | OPutOpaque now th id d fw m => (PutOpaqueCheckpoint f co now x th id d fw m db).1
  | OPutBound now b id d fw m => (PutBoundOpaqueCheckpoint f co now x b id d fw m db).1
  | ODeleteBound b id => (DeleteBoundOpaqueCheckpoint f co x b id db).1
  | ODeleteOpaque th id => (DeleteOpaqueCheckpoint f co x th id db).1
  end.

(** [after db ks]: the tables after a history. *)
Definition after (db : DB) (ks : list call) : DB := foldl (λ db k, exec k db) db ks.

(** ** What one call can do to the runs table *)

(** A committed call left [body]'s tables behind, anything else the old ones. *)
Lemma run_tx_cases {A} fail co (body : tx A) commit db :
  (run_tx fail co body commit db).1 = db ∨
  ∃ a n' db', body 1%nat db = Ok (a, n', db') ∧ commit a = true ∧
              (run_tx fail co body commit db).1 = db'.
Proof.
  unfold run_tx. destruct (fail 0%nat); [by left|].
  destruct (body 1%nat db) as [[[a n'] db']|]; [|by left].
  destruct (commit a) eqn:E; [|by left]. destruct co; [|by left|]; right; by eexists _, _, _.
Qed.

Lemma auto_cases {A} fail co (f : DB → A * DB) db :
  (auto fail co f db).1 = db ∨ (auto fail co f db).1 = (f db).2.
Proof.
  unfold auto. destruct (fail 0%nat); [by left|].
  destruct (f db) as [a db']. destruct co; auto.
Qed.

Lemma flatten_1 {A} (p : DB * res err (res err A)) : (flatten p).1 = p.1.
Proof. done. Qed.

(** What a call may write over a row it sees. *)
Definition updates (k : call) (id : string) (r r' : run_row) : Prop :=
  visible (c_ctx k) (r_tenant r) = true ∧
  match c_op k with
  | OBegin now id' g =>
      id' = id ∧ TerminalRunStatus (r_status r) = false ∧
      ∃ meta, decode_meta (r_meta r) = Ok meta ∧
        MetadataGeneration meta AttemptGenerationKey ≤ g ∧ r' = begun_run now g meta r
  | OComplete now c =>
      CRunID c = id ∧
      ∃ meta, decode_meta (r_meta r) = Ok meta ∧
        Applied (CheckCompletion meta (r_status r) (ResolveCompletion meta c)) = true ∧
        r' = completed_run now (ResolveCompletion meta c) meta r
  | OUpdateRun now id' st out e => id' = id ∧ r' = restatus now st out e r
  | OMarkTimeout now id' e =>
      id' = id ∧ active (r_status r) = true ∧ r' = restatus now RunStatusTimeout (r_output r) e r
  | _ => False
  end.

(** What a call may insert. *)
Definition creates (k : call) (db : DB) (id : string) (row : run_row) : Prop :=
  let tid := FromContext (c_ctx k) in
  match c_op k with
  | OCreate wall run caps =>
      id = RunID run ∧ row = new_row tid run ∧
      (∃ t, threads db !! ThreadID run = Some t ∧ t_tenant t = tid) ∧
      (∀ c, caps = Some c → 0 < TenantConcurrent c → count_active tid "" (runs db) < TenantConcurrent c)
  | OCreateCached wall now run caps =>
      id = RunID run ∧
      (∃ t, threads db !! ThreadID run = Some t ∧ t_tenant t = tid) ∧
      ∃ pending c meta, PrepareCachedRun run = Ok (pending, c) ∧
        decode_meta (r_meta (new_row tid pending)) = Ok meta ∧
        Applied (CheckCompletion meta RunStatusPending c) = true ∧
        row = completed_run now c meta (new_row tid pending)
  | _ => False
  end.

Inductive runs_change (k : call) (db : DB) : gmap string run_row → Prop :=
| rc_same : runs_change k db (runs db)
| rc_insert id row : runs db !! id = None → creates k db id row →
    runs_change k db (<[id := row]> (runs db))
| rc_update id r r' : runs db !! id = Some r → updates k id r r' →
    runs_change k db (<[id := r']> (runs db))
| rc_delete id r : runs db !! id = Some r → c_op k = ODeleteRun id →
    visible (c_ctx k) (r_tenant r) = true → runs_change k db (delete id (runs db))
| rc_prune t : c_op k = OPruneRuns t →
    runs_change k db (filter (λ kr, prunable ts_le (c_ctx k) t kr.2 = false) (runs db))
| rc_cascade th t : c_op k = ODeleteThread th → threads db !! th = Some t →
    visible (c_ctx k) (t_tenant t) = true →
    runs_change k db (filter (λ kr, r_thread kr.2 ≠ th) (runs db)).

(** ** Transactions that leave runs and threads alone *)

Definition read_only_on_rows {A} (m : tx A) : Prop :=
  ∀ n db a n' db', m n db = Ok (a, n', db') → runs db' = runs db ∧ threads db' = threads db.

Lemma ro_bind {A B} (m : tx A) (f : A → tx B) :
  read_only_on_rows m → (∀ a, read_only_on_rows (f a)) → read_only_on_rows (tbind m f).
Proof.
  intros Hm Hf n db b n' db' H. apply tbind_ok in H as (a & n1 & db1 & H1 & H2).
  apply Hf in H2 as [-> ->]. by apply Hm in H1 as [-> ->].
Qed.

Lemma ro_stmt {A} fail (f : DB → res err (A * DB)) :
  (∀ db a db', f db = Ok (a, db') → runs db' = runs db ∧ threads db' = threads db) →
  read_only_on_rows (stmt fail f).
Proof. intros Hf n db a n' db' H. apply stmt_ok in H as (_ & _ & H). eauto. Qed.

Lemma ro_ret {A} (a : A) : read_only_on_rows (tret a).
Proof. intros n db b n' db' H. unfold tret in H. by simplify_eq. Qed.

Lemma ro_err {A} e : read_only_on_rows (terr (A := A) e).
Proof. by intros n db b n' db' H. Qed.

Lemma ro_on_no_rows {A} e (m : tx A) : read_only_on_rows m → read_only_on_rows (on_no_rows e m).
Proof.
  intros Hm n db a n' db' H. unfold on_no_rows in H.
  destruct (m n db) as [[[??]?]|[]] eqn:E; simplify_eq. by eapply Hm.
Qed.

Local Ltac ro_stmt_tac := apply ro_stmt; intros ? ? ? ?; repeat case_match; by simplify_eq.

Lemma ro_LockThread fail x th : read_only_on_rows (LockThread fail x th).
Proof.
  apply ro_bind; [|intros; apply ro_ret]. apply ro_on_no_rows. unfold select_thread. ro_stmt_tac.
Qed.

Lemma ro_load fail x id : read_only_on_rows (load fail x id).
Proof. unfold load. ro_stmt_tac. Qed.

Lemma ro_LockRunCheckpoint fail x b : read_only_on_rows (LockRunCheckpoint fail x b).
Proof.
  apply ro_bind; [apply ro_on_no_rows, ro_load|]. intros [[[??]?]?].
  case_match; [apply ro_err|]. apply ro_bind; [apply ro_LockThread|]. intros; apply ro_ret.
Qed.

Lemma ro_insert_ckpt fail id r : read_only_on_rows (insert_ckpt fail id r).
Proof. unfold insert_ckpt. ro_stmt_tac. Qed.

Lemma ro_putOpaque fail now x th id d fw m :
  read_only_on_rows (putOpaqueCheckpoint fail now x th id d fw m).
Proof.
  unfold putOpaqueCheckpoint, put_opaque_row. case_match; [apply ro_err|].
  repeat case_match; ro_stmt_tac.
Qed.

Lemma ro_delete_opaque fail key : read_only_on_rows (delete_opaque fail key).
Proof. unfold delete_opaque. apply ro_bind; [ro_stmt_tac|]. intros. ro_stmt_tac. Qed.

Lemma ro_run_tx {A} fail co (m : tx A) commit db :
  read_only_on_rows m →
  runs (run_tx fail co m commit db).1 = runs db ∧ threads (run_tx fail co m commit db).1 = threads db.
Proof.
  intros Hm. destruct (run_tx_cases fail co m commit db) as [->|(a & n' & db' & H & _ & ->)]; [done|].
  eauto.
Qed.

Lemma ro_auto {A} fail co (f : DB → A * DB) db :
  runs (f db).2 = runs db → threads (f db).2 = threads db →
  runs (auto fail co f db).1 = runs db ∧ threads (auto fail co f db).1 = threads db.
Proof. intros. by destruct (auto_cases fail co f db) as [->| ->]. Qed.

(** The calls on checkpoints and opaque blobs. *)
Definition blob_op (o : op) : bool :=
  match o with
  | OSaveCkpt _ _ _ _ _ _ _ | OPutOpaque _ _ _ _ _ _ | OPutBound _ _ _ _ _ _
  | ODeleteBound _ _ | ODeleteOpaque _ _ => true
  | _ => false
  end.

Lemma exec_blob k db :
  blob_op (c_op k) = true → runs (exec k db) = runs db ∧ threads (exec k db) = threads db.
Proof.
  unfold exec. intros H. destruct (c_op k); try done; clear H.
  - apply ro_run_tx, ro_bind; [apply ro_LockThread|intros; apply ro_insert_ckpt].
  - apply ro_run_tx, ro_bind; [apply ro_LockThread|intros; apply ro_putOpaque].
  - apply ro_run_tx, ro_bind; [apply ro_LockRunCheckpoint|intros; apply ro_putOpaque].
  - apply ro_run_tx, ro_bind; [apply ro_LockRunCheckpoint|intros].
    apply ro_on_no_rows, ro_delete_opaque.
  - unfold DeleteOpaqueCheckpoint.
    match goal with |- context [auto ?f ?co ?g db] => destruct (ro_auto f co g db) as [Hr Ht] end; try done.
    destruct (auto _ _ _ db) as [db' []]; done.
Qed.

(** ** Run creation *)

Lemma check_cap_ok scope kind limit (count : tx Z) n db a n' db' :
  (∀ m d r m' d', count m d = Ok (r, m', d') → d' = d) →
  check_cap scope kind limit count n db = Ok (a, n', db') →
  db' = db ∧ (0 < limit → ∃ m c m', count m db = Ok (c, m', db) ∧ c < limit).
Proof.
  intros Hc H. unfold check_cap in H. destruct (Z.ltb_spec 0 limit).
  - apply tbind_ok in H as (c & n1 & db1 & H1 & H). apply Hc in H1 as E; subst.
    destruct (Z.leb_spec limit c); [done|]. unfold tret in H. simplify_eq. split; [done|].
    intros _. eauto 10.
  - unfold tret in H. simplify_eq. split; [done|lia].
Qed.

Lemma countActive_ok fail tid agent n db c n' db' :
  countActive fail tid agent n db = Ok (c, n', db') → db' = db ∧ c = count_active tid agent (runs db).
Proof. unfold countActive. rewrite stmt_ok. intros (_ & _ & ?). by simplify_eq. Qed.

Lemma countSince_ok fail tid since agent n db c n' db' :
  countSince fail tid since agent n db = Ok (c, n', db') →
  db' = db ∧ c = count_since since tid agent (runs db).
Proof.
  unfold countSince. rewrite stmt_ok. intros (_ & _ & H). case_match; by simplify_eq.
Qed.

(** A creation that passed admission saw every ceiling strictly above its count. *)
Lemma EvaluateRunAdmission_ok fail tid wall caps agent n db a n' db' :
  EvaluateRunAdmission (countActive fail tid) (countSince fail tid) wall caps agent n db
    = Ok (a, n', db') →
  db' = db ∧ ∀ c, caps = Some c →
    (0 < TenantConcurrent c → count_active tid "" (runs db) < TenantConcurrent c) ∧
    (0 < AgentConcurrent c → count_active tid agent (runs db) < AgentConcurrent c) ∧
    (0 < TenantDaily c → count_since (DayStart wall c) tid "" (runs db) < TenantDaily c) ∧
    (0 < AgentDaily c → count_since (DayStart wall c) tid agent (runs db) < AgentDaily c).
Proof.
  unfold EvaluateRunAdmission. destruct caps as [c|].
  2:{ intros H. unfold tret in H. by simplify_eq. }
  destruct (Enabled (Some c)) eqn:En; simpl.
  2:{ intros H. unfold tret in H. simplify_eq. split; [done|]. intros c' [= <-].
      simpl in En. bool_solve. repeat match goal with H : (_ <? _) = false |- _ => apply Z.ltb_ge in H end.
      split_and!; lia. }
  intros H.
  assert (CA : ∀ g m d r m' d', countActive fail tid g m d = Ok (r, m', d') → d' = d)
    by (intros * HH; by apply countActive_ok in HH as [-> _]).
  assert (CS : ∀ t g m d r m' d', countSince fail tid t g m d = Ok (r, m', d') → d' = d)
    by (intros * HH; by apply countSince_ok in HH as [-> _]).
  apply tbind_ok in H as (? & ? & ? & H1 & H). apply check_cap_ok in H1 as [-> H1]; [|apply CA].
  apply tbind_ok in H as (? & ? & ? & H2 & H). apply check_cap_ok in H2 as [-> H2]; [|apply CA].
  apply tbind_ok in H as (? & ? & ? & H3 & H). apply check_cap_ok in H3 as [-> H3]; [|apply CS].
  apply check_cap_ok in H as [-> H4]; [|apply CS].
  split; [done|]. intros c' [= <-].
  split_and!; intros Hp;
    [apply H1 in Hp|apply H2 in Hp|apply H3 in Hp|apply H4 in Hp];
    destruct Hp as (? & ? & ? & HH & ?);
    (apply countActive_ok in HH as [_ ->] || apply countSince_ok in HH as [_ ->]); done.
Qed.

Lemma LockThread_ok fail x th n db st n' db' :
  LockThread fail x th n db = Ok (st, n', db') →
  db' = db ∧ ∃ t, threads db !! th = Some t ∧ t_tenant t = FromContext x ∧ st = t_status t.
Proof.
  unfold LockThread. intros H. apply tbind_ok in H as (t & ? & ? & H1 & H).
  unfold tret in H. simplify_eq. unfold on_no_rows in H1.
  destruct (select_thread _ _ _ _ _) as [[[??]?]|[]] eqn:E; simplify_eq.
  apply select_thread_ok in E as (_ & _ & -> & ? & ?). eauto.
Qed.

(** The thread row a creation leaves before its completion, if any. *)
Definition claimed (claim : bool) (t : thread_row) : thread_row :=
  if claim then mkThread (t_tenant t) ThreadStatusBusy (t_values t) (t_version t) (t_updated t)
                  (t_meta t) (t_created t) else t.

Lemma create_body_ok fail wall x run caps claim afterInsert n db a n' db' :
  create_body fail wall x run caps claim afterInsert n db = Ok (a, n', db') →
  ∃ t n2, threads db !! ThreadID run = Some t ∧ t_tenant t = FromContext x ∧
    runs db !! RunID run = None ∧
    (claim = true → t_status t ≠ ThreadStatusBusy) ∧
    (∀ c, caps = Some c →
       (0 < TenantConcurrent c → count_active (FromContext x) "" (runs db) < TenantConcurrent c) ∧
       (0 < AgentConcurrent c → count_active (FromContext x) (AgentID run) (runs db) < AgentConcurrent c) ∧
       (0 < TenantDaily c →
          count_since (DayStart wall c) (FromContext x) "" (runs db) < TenantDaily c) ∧
       (0 < AgentDaily c →
          count_since (DayStart wall c) (FromContext x) (AgentID run) (runs db) < AgentDaily c)) ∧
    afterInsert n2 (set_runs (<[RunID run := new_row (FromContext x) run]> (runs db))
                      (set_threads (<[ThreadID run := claimed claim t]> (threads db)) db))
      = Ok (a, n', db').
Proof.
  unfold create_body. intros H. apply tbind_ok in H as (st & n1 & db1 & H1 & H).
  apply LockThread_ok in H1 as (-> & t & Et & Ht & ->).
  apply tbind_ok in H as (u & n2 & db2 & H1 & H).
  assert (db2 = set_threads (<[ThreadID run := claimed claim t]> (threads db)) db ∧
          (claim = true → t_status t ≠ ThreadStatusBusy)) as [-> Hbusy].
  { unfold claim_thread in H1. destruct claim; simpl in *.
    - destruct (String.eqb_spec (t_status t) ThreadStatusBusy); [done|].
      eapply update_thread_ok in H1 as (_ & _ & ->); [done|done|done].
    - unfold tret in H1. simplify_eq. rewrite insert_id by done. by destruct db2. }
  apply tbind_ok in H as (u2 & n3 & db3 & H2 & H).
  apply EvaluateRunAdmission_ok in H2 as [-> Hcap]. simpl in Hcap.
  apply tbind_ok in H as (u3 & n4 & db4 & H3 & H).
  unfold insert_run in H3. apply stmt_ok in H3 as (_ & _ & H3). simpl in H3.
  destruct (runs db !! RunID run) eqn:Er; [done|]. simplify_eq.
  exists t, n4. by split_and!.
Qed.

(** ** One call, on both tables *)

(** Rewriting a thread row keeps its tenant, and changing its documents advances
    its version. *)
Definition thread_step (t t' : thread_row) : Prop :=
  t_tenant t' = t_tenant t ∧ t_version t ≤ t_version t' ∧
  (t_version t' = t_version t → t_values t' = t_values t ∧ t_meta t' = t_meta t).

Inductive threads_change (k : call) (db : DB) : gmap string thread_row → Prop :=
| tc_same : threads_change k db (threads db)
| tc_new th t : threads db !! th = None → t_tenant t = FromContext (c_ctx k) →
    (∃ req, c_op k = OCreateThread req ∧ ThThreadID req = th) →
    threads_change k db (<[th := t]> (threads db))
| tc_update th t t' : threads db !! th = Some t → thread_step t t' →
    visible (c_ctx k) (t_tenant t) = true → threads_change k db (<[th := t']> (threads db))
| tc_delete th t : c_op k = ODeleteThread th → threads db !! th = Some t →
    visible (c_ctx k) (t_tenant t) = true → threads_change k db (delete th (threads db)).

Definition changed (k : call) (db db' : DB) : Prop :=
  runs_change k db (runs db') ∧ threads_change k db (threads db').

Lemma changed_refl k db : changed k db db.
Proof. split; constructor. Qed.
Hint Resolve changed_refl : runkite.

Lemma visible_own x : visible x (FromContext x) = true.
Proof. unfold visible. rewrite String.eqb_refl. by rewrite orb_true_r. Qed.

Lemma changed_begin k db now id g :
  c_op k = OBegin now id g →
  changed k db (BeginRunAttempt (c_fail k) (c_commit k) now (c_ctx k) id g db).1.
Proof.
  intros Ek. unfold BeginRunAttempt.
  match goal with |- context [run_tx ?f ?co ?b ?c db] =>
    destruct (run_tx_cases f co b c db) as [->|(a & n' & db' & H & Ha & ->)] end;
    [auto with runkite|].
  unfold begin_attempt_body in H. apply tbind_ok in H as (l & n1 & db1 & H1 & H).
  apply load_ok in H1 as (_ & -> & -> & r & meta & Er & Hv & Hm & ->).
  destruct (TerminalRunStatus (r_status r)) eqn:Et; simpl in H; [unfold tret in H; by simplify_eq|].
  destruct (Z.ltb_spec g (MetadataGeneration meta AttemptGenerationKey));
    [unfold tret in H; by simplify_eq|].
  apply tbind_ok in H as (? & ? & ? & H1 & H). unfold tret in H. simplify_eq.
  apply (update_run_ok _ _ _ _ _ _ _ _ _ _ Er eq_refl) in H1 as (_ & _ & ->).
  split; simpl; [|apply tc_same]. eapply rc_update; [done|]. split; [done|]. rewrite Ek. eauto 10.
Qed.

Lemma thread_step_refl t : thread_step t t.
Proof. by split_and!. Qed.

Lemma released_step now c n t t1 : thread_step t t1 → thread_step t (released_thread now c n t1).
Proof. unfold released_thread. by case_match. Qed.

Lemma merged_step now c t t1 : merged_thread validate now c t = Ok t1 → thread_step t t1.
Proof.
  unfold merged_thread. intros H. repeat case_match; simplify_eq; [|apply thread_step_refl].
  split_and!; simpl; done || lia.
Qed.

(** An applied completion, on both tables. *)
Lemma spec_complete_inv now x c0 db db' res :
  spec_complete validate ts_le now x c0 db = Ok (res, db') → Applied res = true →
  ∃ r meta t t', let c := ResolveCompletion meta c0 in
    runs db !! CRunID c0 = Some r ∧ visible x (r_tenant r) = true ∧
    decode_meta (r_meta r) = Ok meta ∧ res = CheckCompletion meta (r_status r) c ∧
    threads db !! r_thread r = Some t ∧ t_tenant t = r_tenant r ∧ thread_step t t' ∧
    spec_apply validate ts_le now c meta r db = Ok db' ∧
    runs db' = <[CRunID c0 := completed_run now c meta r]> (runs db) ∧
    threads db' = <[r_thread r := t']> (threads db).
Proof.
  intros H Ha. unfold spec_complete in H.
  destruct (runs db !! CRunID c0) as [r|] eqn:Er; [|done].
  destruct (visible x (r_tenant r)) eqn:Hv; [|done]. simpl in H.
  destruct (decode_meta (r_meta r)) as [meta|] eqn:Hm; [|done].
  destruct (negb _) eqn:Hn in H; [simplify_eq; by rewrite Ha in Hn|].
  destruct (spec_apply _ _ _ _ _ _ _) as [dbf|] eqn:Es; [|done]. simplify_eq.
  pose proof (spec_apply_inv _ _ _ _ _ _ _ _ Es) as (t & t1 & kk & Et & Ht & _ & Hme & _ & ->).
  pose proof (ResolveCompletion_fields meta c0) as (Hid & _).
  set (n := others_active _ _ _ _).
  exists r, meta, t, (released_thread now (ResolveCompletion meta c0) n t1).
  simpl. split_and!; try done.
  - by eapply released_step, merged_step.
  - by rewrite Hid.
Qed.

Lemma changed_complete k db now c :
  c_op k = OComplete now c →
  changed k db (CompleteRun (c_fail k) validate ts_le (c_commit k) now (c_ctx k) c db).1.
Proof.
  intros Ek. destruct (CompleteRun_cases (c_fail k) validate ts_le (c_commit k) now (c_ctx k) c db)
    as [[-> _]|(res & H & Ha & _)]; [auto with runkite|].
  apply spec_complete_inv in H as (r & meta & t & t' & Er & Hv & Hm & -> & Et & Ht & Ht' & _ & Hr & Hth);
    [|done].
  split.
  - rewrite Hr. eapply rc_update; [done|]. split; [done|]. rewrite Ek. eauto 10.
  - rewrite Hth. eapply tc_update; [done|done|by rewrite Ht].
Qed.

(** The cached creation's own completion cannot be refused: the row was inserted
    in the same transaction, pending and without markers. *)
Lemma changed_create k db claim afterInsert run caps wall :
  (∀ t n a n' db',
     threads db !! ThreadID run = Some t → t_tenant t = FromContext (c_ctx k) →
     runs db !! RunID run = None →
     (∀ c, caps = Some c → 0 < TenantConcurrent c →
           count_active (FromContext (c_ctx k)) "" (runs db) < TenantConcurrent c) →
     afterInsert n (set_runs (<[RunID run := new_row (FromContext (c_ctx k)) run]> (runs db))
                      (set_threads (<[ThreadID run := claimed claim t]> (threads db)) db))
       = Ok (a, n', db') → changed k db db') →
  changed k db (createRun (c_fail k) (c_commit k) wall (c_ctx k) run caps claim afterInsert db).1.
Proof.
  intros Hk. unfold createRun.
  match goal with |- context [run_tx ?f ?co ?b ?c db] =>
    destruct (run_tx_cases f co b c db) as [->|(a & n' & db' & H & Ha & ->)] end;
    [auto with runkite|].
  apply create_body_ok in H as (t & n2 & Et & Ht & Er & _ & Hcap & H).
  eapply Hk; eauto. intros c Hc. by apply Hcap.
Qed.

Lemma changed_create_plain k db wall run caps :
  c_op k = OCreate wall run caps →
  changed k db (CreateRunAdmitted (c_fail k) (c_commit k) wall (c_ctx k) run caps db).1.
Proof.
  intros Ek. apply changed_create. intros t n a n' db' Et Ht Er Hcap H.
  unfold tret in H. simplify_eq. unfold claimed. rewrite (insert_id (threads db)) by done. split; simpl.
  - apply rc_insert; [done|]. unfold creates. rewrite Ek. eauto 10.
  - apply tc_same.
Qed.

Lemma PrepareCachedRun_ok run pending c :
  PrepareCachedRun run = Ok (pending, c) →
  RunID pending = RunID run ∧ ThreadID pending = ThreadID run ∧ Status pending = RunStatusPending ∧
  CRunID c = RunID run ∧ CancelCurrentAttempt c = false ∧ CGeneration c = 0 ∧
  CStatus c = RunStatusSuccess ∧
  ∃ m, Metadata pending = Some m ∧ m !! CompletionGenerationKey = None ∧ m !! AttemptGenerationKey = None.
Proof.
  unfold PrepareCachedRun. intros H. repeat case_match; simplify_eq. simpl. split_and!; try done.
  eexists. split; [done|]. unfold strip_generations. split; [by rewrite lookup_delete_eq|].
  rewrite lookup_delete_ne by done. by rewrite lookup_delete_eq.
Qed.

Lemma changed_create_cached k db wall now run caps :
  c_op k = OCreateCached wall now run caps →
  changed k db (CreateCachedRun (c_fail k) validate ts_le (c_commit k) wall now (c_ctx k) run caps db).1.
Proof.
  intros Ek. unfold CreateCachedRun.
  destruct (PrepareCachedRun run) as [[pending c]|] eqn:Ep; [|apply changed_refl].
  pose proof (PrepareCachedRun_ok _ _ _ Ep) as (Hid & Hth & Hst & Hcid & Hcan & _).
  apply changed_create. intros t n a n' db' Et Ht Er _ H.
  unfold complete_cached in H. apply tbind_ok in H as (res & n1 & db1 & H1 & H).
  destruct (Applied res) eqn:Ha; [|done]. unfold tret in H. simplify_eq.
  apply CompleteRunInTx_spec in H1.
  apply spec_complete_inv in H1 as (r & meta & t0 & t' & Er' & Hv & Hm & -> & Et0 & Ht0 & Ht' & _ & Hr & Hth');
    [|done].
  simpl in *. rewrite Hcid, <- Hid, lookup_insert_eq in Er'. simplify_eq. simpl in *.
  rewrite Hth in *. rewrite lookup_insert_eq in Et0. simplify_eq.
  assert (Hres : ResolveCompletion meta c = c).
  { by apply ResolveCompletion_external. }
  rewrite Hres in *. split.
  - rewrite Hr, Hcid, <- Hid, insert_insert_eq. apply rc_insert; [done|]. unfold creates. rewrite Ek.
    split; [done|]. split; [eauto|]. exists pending, c, meta. by rewrite Hst in Ha.
  - rewrite Hth', insert_insert_eq. eapply tc_update; [done|exact Ht'|].
    rewrite Ht. apply visible_own.
Qed.

Lemma set_thread_status_changed k db now th st cond :
  changed k db (set_thread_status now (c_ctx k) th st cond db).2.
Proof.
  unfold set_thread_status. destruct (threads db !! th) as [t|] eqn:Et; [|apply changed_refl].
  destruct (visible _ _) eqn:Ev; simpl; [|apply changed_refl].
  destruct (cond db t); [|apply changed_refl]. split; simpl; [apply rc_same|].
  by eapply tc_update.
Qed.

Lemma update_visible_run_changed k db id cond f :
  (∀ r, runs db !! id = Some r → visible (c_ctx k) (r_tenant r) = true → cond r = true →
        updates k id r (f r)) →
  changed k db (update_visible_run (c_ctx k) id cond f db).2.
Proof.
  intros Hu. unfold update_visible_run. destruct (runs db !! id) as [r|] eqn:Er; [|apply changed_refl].
  destruct (visible _ _) eqn:Ev; simpl; [|apply changed_refl].
  destruct (cond r) eqn:Ec; [|apply changed_refl]. split; simpl; [|apply tc_same].
  eapply rc_update; eauto.
Qed.

Lemma changed_auto {A} k db (f : DB → A * DB) :
  changed k db (f db).2 → changed k db (auto (c_fail k) (c_commit k) f db).1.
Proof.
  intros. destruct (auto_cases (c_fail k) (c_commit k) f db) as [->| ->]; [apply changed_refl|done].
Qed.

Lemma UpdateThread_write_fst fail co now x th p e db :
  (UpdateThread_write fail co now x th p e db).1
  = (auto fail co (update_thread_write now x th p e) db).1.
Proof. unfold UpdateThread_write. by repeat case_match. Qed.

Lemma update_thread_write_changed k db now th p e :
  changed k db (update_thread_write now (c_ctx k) th p e db).2.
Proof.
  unfold update_thread_write. destruct (threads db !! th) as [t|] eqn:Et; [|apply changed_refl].
  destruct (visible _ _ && _) eqn:Ev; [|apply changed_refl]. apply andb_true_iff in Ev as [Ev _].
  split; simpl; [apply rc_same|]. eapply tc_update; [done|split_and!; simpl; done || lia|done].
Qed.

(** Every call changes the runs and threads tables in one of the listed ways. *)
Lemma exec_changed k db : changed k db (exec k db).
Proof.
  destruct (blob_op (c_op k)) eqn:Eb.
  { apply (exec_blob k db) in Eb as [Hr Ht]. split; [rewrite Hr; apply rc_same|rewrite Ht; apply tc_same]. }
  unfold exec. destruct (c_op k) eqn:Ek; try done; clear Eb;
    rewrite ?UpdateThread_write_fst;
    unfold CreateThread, DeleteThread, SetThreadStatus, TryClaimThread, ReleaseThreadIfNoOtherActive,
      UpdateRunStatus, TryMarkRunTimeout, DeleteRun, PruneRuns; rewrite ?flatten_1;
    try (apply changed_auto; simpl).
  - by apply changed_begin.
  - by apply changed_complete.
  - by apply changed_create_plain.
  - by apply changed_create_cached.
  - destruct (threads db !! _) eqn:Et; [apply changed_refl|]. split; simpl; [apply rc_same|].
    apply tc_new; eauto.
  - destruct (threads db !! _) as [t|] eqn:Et; [|apply changed_refl].
    destruct (visible _ _) eqn:Ev; [|apply changed_refl].
    split; simpl; [by eapply rc_cascade|by eapply tc_delete].
  - pose proof (set_thread_status_changed k db now threadID status (λ _ _, true)) as H.
    by destruct (set_thread_status _ _ _ _ _ _).
  - apply set_thread_status_changed.
  - apply set_thread_status_changed.
  - apply update_thread_write_changed.
  - apply update_visible_run_changed. intros. split; [done|]. by rewrite Ek.
  - apply update_visible_run_changed. intros. split; [done|]. by rewrite Ek.
  - destruct (runs db !! _) as [r|] eqn:Er; [|apply changed_refl].
    destruct (visible _ _) eqn:Ev; [|apply changed_refl]. split; simpl; [by eapply rc_delete|apply tc_same].
  - split; simpl; [by apply rc_prune|apply tc_same].
Qed.

End steps.
