(* ===== verification/StoreSafety.v ===== *)
(** * Safety of the store over every history

    Consequences of [StoreSteps.exec_changed] for arbitrary sequences of calls,
    with arbitrary statement failures and commit outcomes: a run is completed at
    most once, a superseded attempt neither completes the run nor writes
    checkpoints, a completed run is frozen, tenants do not touch each other's
    rows and admission ceilings hold. *)

From S2P Require Import Prelude GoAny Completion Store StoreSpec StoreOps StoreSteps.
From Stdlib.Init Require Byte.
Local Open Scope string_scope.
Local Open Scope Z_scope.

(** ** Row invariants *)

(** The row carries the completion marker. *)
Definition marked (r : run_row) : Prop :=
  ∃ m, decode_meta (r_meta r) = Ok m ∧ is_Some (m !! CompletionGenerationKey).

(** The attempt generation of a row. *)
Definition attempt (r : run_row) : Z := MetadataGeneration (run_metadata r) AttemptGenerationKey.

(** Metadata columns hold what [json.Unmarshal] returns: no Go integers. *)
Definition std_column (c : column) : Prop :=
  match c with ColObj m => map_Forall (λ _ v, std_value v = v) m | _ => True end.

Definition std_db (db : DB) : Prop := map_Forall (λ _ r, std_column (r_meta r)) (runs db).

Lemma decode_run_metadata r m : decode_meta (r_meta r) = Ok m → run_metadata r = m.
Proof. unfold run_metadata. destruct (r_meta r); simpl; congruence. Qed.

Lemma std_value_idemp v : std_value (std_value v) = std_value v.
Proof. by destruct v. Qed.

Lemma std_encode m : std_column (encode_meta m).
Proof.
  intros i v H. apply lookup_fmap_Some in H as (w & <- & _). apply std_value_idemp.
Qed.

Lemma std_decode c m : std_column c → decode_meta c = Ok m → std_value <$> m = m.
Proof.
  intros Hs H. destruct c; simpl in *; simplify_eq; [by rewrite fmap_empty..|].
  apply map_eq. intros i. rewrite lookup_fmap. destruct (m !! i) eqn:E; [|done]. simpl.
  f_equal. by eapply Hs.
Qed.

Lemma MetadataGeneration_ext (m m' : gmap string any) key :
  m !! key = m' !! key → MetadataGeneration m key = MetadataGeneration m' key.
Proof. unfold MetadataGeneration. by intros ->. Qed.

(** A generation written to a metadata column reads back. *)
Lemma MetadataGeneration_written (m : gmap string any) key g :
  0 ≤ g < 2 ^ 53 →
  MetadataGeneration (std_value <$> <[key := AInt64 g]> m) key = g.
Proof.
  intros Hg. unfold MetadataGeneration. rewrite fmap_insert, lookup_insert_eq. simpl.
  apply f64_roundtrip. lia.
Qed.

Lemma completed_marked now c meta r : marked (completed_run now c meta r).
Proof.
  eexists. split; [done|]. rewrite fmap_insert, lookup_insert_eq. by eexists.
Qed.

Lemma begun_marked now g meta r :
  is_Some (meta !! CompletionGenerationKey) → marked (begun_run now g meta r).
Proof.
  intros [v Hv]. eexists. split; [done|]. rewrite fmap_insert, lookup_insert_ne by done.
  rewrite lookup_fmap, Hv. by eexists.
Qed.

Lemma completed_attempt now c meta r :
  std_column (r_meta r) → decode_meta (r_meta r) = Ok meta →
  attempt (completed_run now c meta r) = attempt r.
Proof.
  intros Hs Hm. unfold attempt. rewrite (decode_run_metadata r meta) by done.
  unfold completed_run, run_metadata. simpl. apply MetadataGeneration_ext.
  rewrite fmap_insert, lookup_insert_ne by done. by rewrite (std_decode _ _ Hs Hm).
Qed.

Lemma begun_attempt now g meta r :
  0 ≤ g < 2 ^ 53 → attempt (begun_run now g meta r) = g.
Proof. intros Hg. unfold attempt, begun_run, run_metadata. simpl. by apply MetadataGeneration_written. Qed.

(** ** Counting rows *)

Lemma count_runs_mono (p p' : string → run_row → bool) m m' :
  (∀ id r', m' !! id = Some r' → p' id r' = true → ∃ r, m !! id = Some r ∧ p id r = true) →
  count_runs p' m' ≤ count_runs p m.
Proof.
  intros H. unfold count_runs. apply inj_le. rewrite <- !(size_dom (D := gset string)).
  apply subseteq_size. intros id Hid. apply elem_of_dom in Hid as [r' Hr'].
  apply map_lookup_filter_Some in Hr' as [Hr' Hp]. destruct (H id r' Hr' Hp) as (r & Er & Hr).
  apply elem_of_dom. exists r. by apply map_lookup_filter_Some.
Qed.

Lemma count_runs_insert p m id r :
  m !! id = None → count_runs p (<[id := r]> m) = count_runs p m + (if p id r then 1 else 0).
Proof.
  intros Hn. unfold count_runs. rewrite map_filter_insert. simpl. destruct (p id r) eqn:E; simpl.
  - rewrite map_size_insert_None; [lia|]. apply map_lookup_filter_None. auto.
  - rewrite delete_id by done. lia.
Qed.

Lemma count_runs_add (p : string → run_row → bool) (m m' : gmap string run_row) id0 :
  (∀ id r', id ≠ id0 → m' !! id = Some r' → p id r' = true → ∃ r, m !! id = Some r ∧ p id r = true) →
  count_runs p m' ≤ count_runs p m + 1.
Proof.
  intros H. unfold count_runs. rewrite <- !size_dom.
  assert (Hs : (size (dom (filter (λ kr, p kr.1 kr.2 = true) m')) ≤
                size (dom (filter (λ kr, p kr.1 kr.2 = true) m) ∪ {[id0]}))%nat).
  { apply subseteq_size. intros id [r' [Hr' Hp]%map_lookup_filter_Some]%elem_of_dom.
    destruct (decide (id = id0)) as [->|Hne]; [set_solver|]. destruct (H id r' Hne Hr' Hp) as (r&Hr&Hpr).
    apply elem_of_union_l, elem_of_dom. exists r. by apply map_lookup_filter_Some. }
  pose proof (size_union_alt (dom (filter (λ kr, p kr.1 kr.2 = true) m)) {[id0]}) as Hu.
  pose proof (subseteq_size ({[id0]} ∖ dom (filter (λ kr, p kr.1 kr.2 = true) m)) {[id0]} ltac:(set_solver)) as Hd.
  rewrite size_singleton in Hd. lia.
Qed.

Lemma count_runs_nonneg p m : 0 ≤ count_runs p m.
Proof. unfold count_runs. lia. Qed.

(** ** Single calls *)

(** [begins_below k bound]: a dispatch call keeps its generation in range. *)
Definition sane (k : call) : Prop :=
  match c_op k with OBegin _ _ g => 0 ≤ g < 2 ^ 53 | _ => True end.

Lemma updates_std k id r r' : updates k id r r' → std_column (r_meta r) → std_column (r_meta r').
Proof.
  intros [_ H] Hs. destruct (c_op k); try done.
  - destruct H as (_ & _ & m & _ & _ & ->). apply std_encode.
  - destruct H as (_ & m & _ & _ & ->). apply std_encode.
  - by destruct H as (_ & ->).
  - by destruct H as (_ & _ & ->).
Qed.

Lemma updates_marked k id r r' : updates k id r r' → marked r → marked r'.
Proof.
  intros [_ H] (m0 & Hm0 & Hk). destruct (c_op k); try done.
  - destruct H as (_ & _ & m & Hm & _ & ->). rewrite Hm in Hm0. simplify_eq. by apply begun_marked.
  - destruct H as (_ & m & _ & _ & ->). apply completed_marked.
  - destruct H as (_ & ->). by exists m0.
  - destruct H as (_ & _ & ->). by exists m0.
Qed.

Lemma updates_attempt k id r r' :
  sane k → std_column (r_meta r) → updates k id r r' → attempt r ≤ attempt r'.
Proof.
  unfold sane. intros Hk Hs [_ H]. destruct (c_op k); try done.
  - destruct H as (_ & _ & m & Hm & Hg & ->). rewrite begun_attempt by done.
    unfold attempt. by rewrite (decode_run_metadata r m).
  - destruct H as (_ & m & Hm & _ & ->). rewrite completed_attempt by done. done.
  - by destruct H as (_ & ->).
  - by destruct H as (_ & _ & ->).
Qed.

Lemma updates_terminal k id r r' :
  updates k id r r' → marked r → TerminalRunStatus (r_status r) = true →
  ∃ now st out e, c_op k = OUpdateRun now id st out e.
Proof.
  intros [_ H] (m0 & Hm0 & v & Hv) Ht. destruct (c_op k) eqn:Ek; try done.
  - destruct H as (_ & Ht' & _). congruence.
  - destruct H as (_ & m & Hm & Ha & _). rewrite Hm in Hm0. simplify_eq.
    apply CheckCompletion_applied in Ha as (_ & _ & Hn & _). congruence.
  - destruct H as (-> & ->). eauto.
  - destruct H as (_ & Ha & _). unfold active, TerminalRunStatus in *.
    destruct (String.eqb_spec (r_status r) RunStatusPending) as [E|]; [by rewrite E in Ht|].
    destruct (String.eqb_spec (r_status r) RunStatusRunning) as [E|]; [by rewrite E in Ht|done].
Qed.

(** ** Histories *)

Section histories.
Variable validate : gmap string any → bool.
Variable ts_le : Z → Z → bool.
Notation exec := (exec validate ts_le).
Notation after := (after validate ts_le).
Notation complete := (λ k now c db, CompleteRun (c_fail k) validate ts_le (c_commit k) now (c_ctx k) c db).

(** The run's row exists at every point of the history. *)
Fixpoint kept (id : string) (db : DB) (ks : list call) : Prop :=
  is_Some (runs db !! id) ∧
  match ks with [] => True | k :: ks => kept id (exec k db) ks end.

Lemma exec_lookup k db id r :
  runs db !! id = Some r →
  runs (exec k db) !! id = None ∨ runs (exec k db) !! id = Some r ∨
  ∃ r', runs (exec k db) !! id = Some r' ∧ updates k id r r'.
Proof.
  intros Er. destruct (exec_changed validate ts_le k db) as [H _].
  destruct H as [|id' row Hn _|id' r0 r' Er' Hu|id' r0 Er' _ _|t _|th t _ _ _].
  - auto.
  - right; left. rewrite lookup_insert_ne; [done|]. congruence.
  - destruct (decide (id' = id)) as [->|]; [|rewrite lookup_insert_ne by done; auto].
    simplify_eq. rewrite lookup_insert_eq. eauto.
  - destruct (decide (id' = id)) as [->|]; [rewrite lookup_delete_eq|rewrite lookup_delete_ne by done]; auto.
  - destruct (decide (prunable ts_le (c_ctx k) t r = false)).
    + right; left. by apply map_lookup_filter_Some.
    + left. apply map_lookup_filter_None. right. intros ? ?. by simplify_eq.
  - destruct (decide (r_thread r = th)).
    + left. apply map_lookup_filter_None. right. intros ? ? ?. by simplify_eq.
    + right; left. by apply map_lookup_filter_Some.
Qed.

(** A row property kept by updates holds along every history that keeps the row. *)
Lemma after_row (P : run_row → Prop) id db ks r :
  (∀ k r r', k ∈ ks → updates k id r r' → P r → P r') →
  kept id db ks → runs db !! id = Some r → P r →
  ∃ r', runs (after db ks) !! id = Some r' ∧ P r'.
Proof.
  revert db r. induction ks as [|k ks IH]; intros db r HP Hk Er Hr; [eauto|].
  destruct Hk as [_ Hk]. simpl.
  assert (HP' : ∀ k r r', k ∈ ks → updates k id r r' → P r → P r')
    by (intros; eapply HP; eauto; by right).
  destruct (exec_lookup k db id r Er) as [E|[E|(r' & E & Hu)]].
  - destruct ks; destruct Hk as [[? Hs] _]; congruence.
  - by eapply IH.
  - eapply IH; eauto. eapply HP; eauto. by left.
Qed.

Lemma complete_marked k now c db r :
  runs db !! CRunID c = Some r → marked r →
  (complete k now c db).1 = db ∧
  ∀ res, (complete k now c db).2 = Ok res → Applied res = false.
Proof.
  intros Er (m0 & Hm0 & v & Hv).
  assert (Hno : ∀ res db', spec_complete validate ts_le now (c_ctx k) c db = Ok (res, db') →
                           Applied res = true → False).
  { intros res db' H Ha.
    apply spec_complete_inv in H as (r' & meta & t & t' & Er' & _ & Hm & -> & _); [|done].
    rewrite Er in Er'. simplify_eq. rewrite Hm in Hm0. simplify_eq.
    apply CheckCompletion_applied in Ha as (_ & _ & ? & _). congruence. }
  destruct (CompleteRun_cases (c_fail k) validate ts_le (c_commit k) now (c_ctx k) c db)
    as [[H1 H2]|(res & H & Ha & _)].
  - split; [done|]. intros res Hres. by apply H2 in Hres as [_ ?].
  - exfalso. eauto.
Qed.

(** What a durable completion leaves in the run's row. *)
Lemma complete_effect k now c db :
  (complete k now c db).1 ≠ db →
  ∃ r meta, runs db !! CRunID c = Some r ∧ decode_meta (r_meta r) = Ok meta ∧
    Applied (CheckCompletion meta (r_status r) (ResolveCompletion meta c)) = true ∧
    runs (complete k now c db).1 !! CRunID c
      = Some (completed_run now (ResolveCompletion meta c) meta r).
Proof.
  intros Hne.
  destruct (CompleteRun_cases (c_fail k) validate ts_le (c_commit k) now (c_ctx k) c db)
    as [[H1 _]|(res & H & Ha & _)]; [done|].
  apply spec_complete_inv in H as (r & meta & t & t' & Er & _ & Hm & -> & _ & _ & _ & _ & Hr & _);
    [|done].
  exists r, meta. split_and!; try done. by rewrite Hr, lookup_insert_eq.
Qed.

(** C2. A run is completed at most once: after a call durably completed it
    (whether or not its acknowledgement reached the caller), then any history of
    store calls under which the run is not deleted, a second completion for the
    same run changes nothing and is never reported as applied. *)
Theorem completion_at_most_once k1 now1 c1 ks k2 now2 c2 db :
  CRunID c1 = CRunID c2 →
  (complete k1 now1 c1 db).1 ≠ db →
  kept (CRunID c1) (complete k1 now1 c1 db).1 ks →
  let db2 := after (complete k1 now1 c1 db).1 ks in
  (complete k2 now2 c2 db2).1 = db2 ∧
  ∀ res, (complete k2 now2 c2 db2).2 = Ok res → Applied res = false.
Proof.
  intros Hid Hne Hk db2. apply complete_effect in Hne as (r & meta & _ & _ & _ & Er).
  destruct (after_row marked _ _ _ _ (λ k r r' _, updates_marked k _ r r') Hk Er
              (completed_marked _ _ _ _)) as (r' & Er' & Hm).
  rewrite Hid in Er'. by eapply complete_marked.
Qed.
(** ** Superseded attempts *)

Notation begin := (λ k now id g db, BeginRunAttempt (c_fail k) (c_commit k) now (c_ctx k) id g db).

Lemma begin_effect k now id g db :
  (begin k now id g db).2 = Ok true →
  ∃ r meta, runs db !! id = Some r ∧ decode_meta (r_meta r) = Ok meta ∧
    TerminalRunStatus (r_status r) = false ∧
    MetadataGeneration meta AttemptGenerationKey ≤ g ∧
    runs (begin k now id g db).1 !! id = Some (begun_run now g meta r).
Proof.
  unfold BeginRunAttempt, run_tx. destruct (c_fail k 0%nat); [done|].
  destruct (begin_attempt_body _ _ _ _ _ _ _) as [[[a n'] db']|] eqn:H; [|done].
  destruct a; simpl; [|done].
  destruct (c_commit k); simpl; try done. intros _.
  unfold begin_attempt_body in H. apply tbind_ok in H as (l & n1 & db1 & H1 & H).
  apply load_ok in H1 as (_ & -> & -> & r & meta & Er & Hv & Hm & ->).
  destruct (TerminalRunStatus (r_status r)) eqn:Et; simpl in H; [unfold tret in H; by simplify_eq|].
  destruct (Z.ltb_spec g (MetadataGeneration meta AttemptGenerationKey));
    [unfold tret in H; by simplify_eq|].
  apply tbind_ok in H as (? & ? & ? & H1 & H). unfold tret in H. simplify_eq.
  apply (update_run_ok _ _ _ _ _ _ _ _ _ _ Er eq_refl) in H1 as (_ & _ & ->).
  exists r, meta. split_and!; try done. simpl. by rewrite lookup_insert_eq.
Qed.

(** Once attempt [g] is begun, the row's generation never falls below [g]. *)
Lemma begin_monotone k now id g db ks :
  (begin k now id g db).2 = Ok true → 0 ≤ g < 2 ^ 53 → Forall sane ks →
  kept id (begin k now id g db).1 ks →
  ∃ r, runs (after (begin k now id g db).1 ks) !! id = Some r ∧ g ≤ attempt r.
Proof.
  intros Hb Hg Hs Hk. apply begin_effect in Hb as (r & meta & _ & _ & _ & _ & Er).
  destruct (after_row (λ r, std_column (r_meta r) ∧ g ≤ attempt r) _ _ _ _
    (λ k r r' Hin Hu HP, conj (updates_std _ _ _ _ Hu (proj1 HP))
       (Z.le_trans _ _ _ (proj2 HP)
          (updates_attempt _ _ _ _ (proj1 (Forall_forall _ _) Hs k (proj1 (list_elem_of_In _ _) Hin))
             (proj1 HP) Hu))) Hk Er)
    as (r' & Er' & _ & Hle); [|eauto].
  split; [apply std_encode|]. by rewrite begun_attempt.
Qed.
Lemma complete_stale k now c db r :
  runs db !! CRunID c = Some r → CancelCurrentAttempt c = false → CGeneration c ≠ attempt r →
  (complete k now c db).1 = db ∧ ∀ res, (complete k now c db).2 = Ok res → res = no_result.
Proof.
  intros Er Hc Hg.
  assert (Hno : ∀ res db', spec_complete validate ts_le now (c_ctx k) c db = Ok (res, db') →
                           res = no_result).
  { intros res db' H. unfold spec_complete in H. rewrite Er in H.
    destruct (visible _ _); [|done]. simpl in H.
    destruct (decode_meta (r_meta r)) as [meta|] eqn:Hm; [|done].
    rewrite ResolveCompletion_external in H by done.
    rewrite CheckCompletion_stale in H; [by simpl in H; simplify_eq|].
    unfold attempt in Hg. by rewrite (decode_run_metadata r meta) in Hg. }
  destruct (CompleteRun_cases (c_fail k) validate ts_le (c_commit k) now (c_ctx k) c db)
    as [[H1 H2]|(res & H & Ha & _)].
  - split; [done|]. intros res Hres. apply H2 in Hres as [? _]. eauto.
  - apply Hno in H as ->. by compute in Ha.
Qed.

(** C4. A superseded attempt cannot complete the run: once a dispatch of
    generation [g] was durably recorded, whatever happens next (retries,
    reclaims, cancellations, other tenants), a runner's completion carrying an
    older generation changes nothing and is not accepted. *)
Theorem superseded_completion_refused k1 now1 id g db ks k2 now2 c :
  (begin k1 now1 id g db).2 = Ok true → 0 ≤ g < 2 ^ 53 → Forall sane ks →
  kept id (begin k1 now1 id g db).1 ks →
  CRunID c = id → CancelCurrentAttempt c = false → CGeneration c < g →
  let db2 := after (begin k1 now1 id g db).1 ks in
  (complete k2 now2 c db2).1 = db2 ∧ ∀ res, (complete k2 now2 c db2).2 = Ok res → res = no_result.
Proof.
  intros Hb Hg Hs Hk <- Hc Hlt db2.
  destruct (begin_monotone _ _ _ _ _ _ Hb Hg Hs Hk) as (r & Er & Hle).
  eapply complete_stale; [exact Er|done|lia].
Qed.

(** ** The checkpoint fence *)

Lemma CheckRunCheckpointBinding_ok th st meta b :
  CheckRunCheckpointBinding th st meta b = None ↔
  TerminalRunStatus st = false ∧ th = BThreadID b ∧
  MetadataGeneration meta AttemptGenerationKey = BGeneration b.
Proof.
  clear validate ts_le. unfold CheckRunCheckpointBinding.
  destruct (TerminalRunStatus st); [naive_solver|].
  destruct (String.eqb_spec th (BThreadID b)); simpl; [|naive_solver].
  destruct (Z.eqb_spec (MetadataGeneration meta AttemptGenerationKey) (BGeneration b)); naive_solver.
Qed.

(** A call that writes under a binding. *)
Definition bound_to (k : call) (b : RunCheckpointBinding) : Prop :=
  match c_op k with
  | OPutBound _ b' _ _ _ _ => b' = b
  | ODeleteBound b' _ => b' = b
  | _ => False
  end.

Lemma LockRunCheckpoint_ok fail x b n db a n' db' :
  LockRunCheckpoint fail x b n db = Ok (a, n', db') →
  ∃ r, runs db !! BRunID b = Some r ∧ TerminalRunStatus (r_status r) = false ∧
       attempt r = BGeneration b.
Proof.
  unfold LockRunCheckpoint. intros H. apply tbind_ok in H as (l & n1 & db1 & H1 & H).
  unfold on_no_rows in H1. destruct (load _ _ _ _ _) as [[[??]?]|[]] eqn:E; simplify_eq.
  apply load_ok in E as (_ & _ & -> & r & meta & Er & _ & Hm & ->).
  destruct (CheckRunCheckpointBinding _ _ _ _) eqn:Ec; [done|].
  apply CheckRunCheckpointBinding_ok in Ec as (? & ? & ?).
  exists r. split_and!; try done. unfold attempt. by rewrite (decode_run_metadata r meta).
Qed.

Lemma bound_call_fenced k b db r :
  bound_to k b → runs db !! BRunID b = Some r →
  TerminalRunStatus (r_status r) = true ∨ attempt r ≠ BGeneration b → exec k db = db.
Proof.
  intros Hb Er Hr. unfold bound_to in Hb. unfold StoreSteps.exec.
  assert (HL : ∀ A (m : tx A), (run_tx (c_fail k) (c_commit k)
    (tbind (LockRunCheckpoint (c_fail k) (c_ctx k) b) (λ _, m)) (λ _, true) db).1 = db).
  { intros A m.
    match goal with |- (run_tx ?f ?co ?b ?c db).1 = _ =>
      destruct (run_tx_cases f co b c db) as [->|(a & n' & db' & H & _)]; [done|] end.
    apply tbind_ok in H as (? & ? & ? & H & _).
    apply LockRunCheckpoint_ok in H as (r' & Er' & ? & ?). simplify_eq. naive_solver congruence. }
  destruct (c_op k); try done; subst; apply HL.
Qed.

(** The checkpoint fence: once attempt [g] was durably begun, no history lets
    a runner of an older attempt put or delete an opaque checkpoint under its
    run binding. *)
Theorem superseded_checkpoint_fenced k1 now1 id g db ks k2 b :
  (begin k1 now1 id g db).2 = Ok true → 0 ≤ g < 2 ^ 53 → Forall sane ks →
  kept id (begin k1 now1 id g db).1 ks →
  bound_to k2 b → BRunID b = id → BGeneration b < g →
  let db2 := after (begin k1 now1 id g db).1 ks in exec k2 db2 = db2.
Proof.
  intros Hb Hg Hs Hk Hbt <- Hlt db2.
  destruct (begin_monotone _ _ _ _ _ _ Hb Hg Hs Hk) as (r & Er & Hle).
  eapply bound_call_fenced; [done|exact Er|]. right. lia.
Qed.
(** ** Completed runs *)

Definition no_status_write (id : string) (k : call) : Prop :=
  match c_op k with OUpdateRun _ id' _ _ _ => id' ≠ id | _ => True end.

Lemma completed_row_kept k1 now1 c1 db ks :
  (complete k1 now1 c1 db).1 ≠ db → kept (CRunID c1) (complete k1 now1 c1 db).1 ks →
  Forall (no_status_write (CRunID c1)) ks →
  ∃ r meta, let c := ResolveCompletion meta c1 in
    runs db !! CRunID c1 = Some r ∧ decode_meta (r_meta r) = Ok meta ∧
    Applied (CheckCompletion meta (r_status r) c) = true ∧
    runs (after (complete k1 now1 c1 db).1 ks) !! CRunID c1 = Some (completed_run now1 c meta r).
Proof.
  intros Hne Hk Hs. apply complete_effect in Hne as (r & meta & Er0 & Hm & Ha & Er).
  exists r, meta. simpl. split_and!; try done.
  set (row := completed_run now1 (ResolveCompletion meta c1) meta r) in *.
  assert (Hrow : TerminalRunStatus (r_status row) = true).
  { apply CheckCompletion_applied in Ha as (Ht & _). exact Ht. }
  assert (Hu : ∀ k r0 r', k ∈ ks → updates k (CRunID c1) r0 r' → r0 = row → r' = row).
  { intros k r0 r' Hin Hu ->.
    apply updates_terminal in Hu as (? & ? & ? & ? & E); [|apply completed_marked|done].
    apply list_elem_of_In, (proj1 (Forall_forall _ _) Hs) in Hin.
    unfold no_status_write in Hin. by rewrite E in Hin. }
  by destruct (after_row (λ r', r' = row) _ _ _ _ Hu Hk Er eq_refl) as (r' & Er' & ->).
Qed.

(** A completed run is frozen: after its durable completion no history of
    store calls other than an explicit status overwrite or a deletion changes
    any column of its row, and its status stays the completion's. *)
Theorem completed_run_frozen k1 now1 c1 db ks :
  (complete k1 now1 c1 db).1 ≠ db → kept (CRunID c1) (complete k1 now1 c1 db).1 ks →
  Forall (no_status_write (CRunID c1)) ks →
  runs (after (complete k1 now1 c1 db).1 ks) !! CRunID c1
    = runs (complete k1 now1 c1 db).1 !! CRunID c1 ∧
  ∃ r, runs (complete k1 now1 c1 db).1 !! CRunID c1 = Some r ∧
       r_status r = CStatus c1 ∧ TerminalRunStatus (r_status r) = true.
Proof.
  intros Hne Hk Hs. pose proof (complete_effect _ _ _ _ Hne) as (r & meta & Er & Hm & Ha & Er1).
  destruct (completed_row_kept _ _ _ _ _ Hne Hk Hs) as (r2 & meta2 & Er2 & Hm2 & _ & Ef).
  simplify_eq. rewrite Hm in Hm2. simplify_eq. split; [by rewrite Ef, Er1|].
  eexists. split; [done|]. simpl.
  pose proof (ResolveCompletion_fields meta2 c1) as (_ & Hst & _).
  split; [done|]. by apply CheckCompletion_applied in Ha as (? & _).
Qed.

(** Retrying is safe: after a durable completion by a runner, and any history
    that neither deletes nor overwrites the run, presenting the same completion
    again is accepted without being applied and changes nothing; so a caller
    that lost the first acknowledgement learns that its result is durable. *)
Theorem completion_retry k1 now1 c db ks k2 now2 :
  (complete k1 now1 c db).1 ≠ db → kept (CRunID c) (complete k1 now1 c db).1 ks →
  Forall (no_status_write (CRunID c)) ks →
  CancelCurrentAttempt c = false → 0 ≤ CGeneration c < 2 ^ 53 → std_db db →
  (∀ i, c_fail k2 i = false) → c_commit k2 = CommitOk →
  (∀ r, runs db !! CRunID c = Some r → visible (c_ctx k2) (r_tenant r) = true) →
  let db2 := after (complete k1 now1 c db).1 ks in
  complete k2 now2 c db2 = (db2, Ok (mkResult true false)).
Proof.
  intros Hne Hk Hs Hc Hg Hstd Hf Hco Hvis db2.
  destruct (completed_row_kept _ _ _ _ _ Hne Hk Hs) as (r & meta & Er & Hm & Ha & Ef).
  rewrite ResolveCompletion_external in Ha, Ef by done.
  apply CheckCompletion_applied in Ha as (Hterm & Hgen & _ & _).
  pose proof (CompleteRun_runs (c_fail k2) validate ts_le now2 (c_ctx k2) c db2 Hf) as H.
  change (runs db2 !! CRunID c = Some (completed_run now1 c meta r)) in Ef. clearbody db2.
  rewrite Hco. unfold spec_complete in H. rewrite Ef in H. simpl in H.
  rewrite Hvis in H by done. simpl in H. rewrite ResolveCompletion_external in H by done.
  erewrite CheckCompletion_committed in H by (by rewrite fmap_insert, lookup_insert_eq).
  rewrite Hterm, String.eqb_refl, MetadataGeneration_written, Z.eqb_refl in H by done.
  erewrite MetadataGeneration_ext with (m' := meta) in H.
  2:{ rewrite fmap_insert, lookup_insert_ne by done.
      by rewrite (std_decode _ _ (Hstd _ _ Er) Hm). }
  by rewrite <- Hgen, Z.eqb_refl in H.
Qed.
(** ** Ownership and isolation *)

(** Every run belongs to the tenant of its existing thread. *)
Definition owned (db : DB) : Prop :=
  map_Forall (λ _ r, ∃ t, threads db !! r_thread r = Some t ∧ t_tenant t = r_tenant r) (runs db).

Lemma updates_owner k id r r' :
  updates k id r r' → r_tenant r' = r_tenant r ∧ r_thread r' = r_thread r ∧
                      visible (c_ctx k) (r_tenant r) = true.
Proof.
  intros [Hv H]. destruct (c_op k); try done.
  - by destruct H as (_ & _ & m & _ & _ & ->).
  - by destruct H as (_ & m & _ & _ & ->).
  - by destruct H as (_ & ->).
  - by destruct H as (_ & _ & ->).
Qed.

Lemma creates_owner k db id row :
  creates k db id row → r_tenant row = FromContext (c_ctx k) ∧
  ∃ t, threads db !! r_thread row = Some t ∧ t_tenant t = FromContext (c_ctx k).
Proof.
  unfold creates. destruct (c_op k); try done.
  - by intros (_ & -> & ? & _).
  - intros (_ & Ht & pending & c & meta & Hp & _ & _ & ->). simpl.
    by apply PrepareCachedRun_ok in Hp as (_ & -> & _).
Qed.

(** Deleting a thread takes its runs along. *)
Lemma exec_cascades k db th id r :
  is_Some (threads db !! th) → threads (exec k db) !! th = None →
  runs (exec k db) !! id = Some r → r_thread r ≠ th.
Proof.
  intros [t0 Et0] En Er.
  assert (c_op k = ODeleteThread th) as Ek.
  { destruct (exec_changed validate ts_le k db) as [_ H]. revert En.
    destruct H as [|th' t ?|th' t t' ? ?|th' t ? ?].
    - congruence.
    - rewrite lookup_insert_None. intros [? _]. congruence.
    - rewrite lookup_insert_None. intros [? _]. congruence.
    - rewrite lookup_delete_None. intros [->|?]; [done|congruence]. }
  revert En Er. unfold StoreSteps.exec. rewrite Ek. unfold DeleteThread. rewrite flatten_1.
  match goal with |- context [auto ?f ?co ?g db] =>
    destruct (auto_cases f co g db) as [->| ->] end; [congruence|]. rewrite Et0.
  destruct (visible _ _); simpl; [|congruence].
  intros _ Hf. by apply map_lookup_filter_Some in Hf as [_ ?].
Qed.

(** A surviving thread keeps its tenant. *)
Lemma exec_thread_tenant k db th t :
  threads db !! th = Some t →
  threads (exec k db) !! th = None ∨
  ∃ t', threads (exec k db) !! th = Some t' ∧ t_tenant t' = t_tenant t.
Proof.
  intros Et. destruct (exec_changed validate ts_le k db) as [_ H].
  destruct H as [|th' t0 Hn _ _|th' t0 t' Et0 (Ht & _) _|th' t0 _ _ _].
  - eauto.
  - right. rewrite lookup_insert_ne by congruence. eauto.
  - destruct (decide (th' = th)) as [->|]; [|rewrite lookup_insert_ne by done; eauto].
    simplify_eq. rewrite lookup_insert_eq. eauto.
  - destruct (decide (th' = th)) as [->|]; [rewrite lookup_delete_eq|rewrite lookup_delete_ne by done]; eauto.
Qed.

Lemma exec_run_origin k db id r :
  runs (exec k db) !! id = Some r →
  runs db !! id = Some r ∨ creates k db id r ∨ ∃ r0, runs db !! id = Some r0 ∧ updates k id r0 r.
Proof.
  intros Er. destruct (exec_changed validate ts_le k db) as [H _]. revert Er.
  destruct H as [|id' row Hn Hc|id' r0 r' Er' Hu|id' r0 Er' _ _|t _|th t _ _ _]; auto.
  - destruct (decide (id' = id)) as [->|]; [|rewrite lookup_insert_ne by done; auto].
    rewrite lookup_insert_eq. naive_solver.
  - destruct (decide (id' = id)) as [->|]; [|rewrite lookup_insert_ne by done; auto].
    rewrite lookup_insert_eq. naive_solver.
  - rewrite lookup_delete_Some. naive_solver.
  - rewrite map_lookup_filter_Some. naive_solver.
  - rewrite map_lookup_filter_Some. naive_solver.
Qed.

Lemma exec_owned k db : owned db → owned (exec k db).
Proof.
  intros Ho id r Er.
  assert (∃ t, threads db !! r_thread r = Some t ∧ t_tenant t = r_tenant r) as (t & Et & Ht).
  { destruct (exec_run_origin k db id r Er) as [E|[Hc|(r0 & E & Hu)]].
    - by apply Ho in E.
    - apply creates_owner in Hc as (-> & ?). done.
    - apply updates_owner in Hu as (-> & -> & _). by apply Ho in E. }
  destruct (exec_thread_tenant k db _ _ Et) as [En|(t' & Et' & Ht')].
  - by destruct (exec_cascades k db _ id r (mk_is_Some _ _ Et) En Er).
  - exists t'. by rewrite Ht'.
Qed.
Lemma exec_isolation k db tenant :
  owned db → visible (c_ctx k) tenant = false →
  (∀ id r, r_tenant r = tenant → runs (exec k db) !! id = Some r ↔ runs db !! id = Some r) ∧
  (∀ th t, t_tenant t = tenant → threads (exec k db) !! th = Some t ↔ threads db !! th = Some t).
Proof.
  intros Ho Hv. pose proof (visible_own (c_ctx k)) as Hown.
  destruct (exec_changed validate ts_le k db) as [Hr Ht]. split.
  - intros id r <-. destruct Hr as [|id' row Hn Hc|id' r0 r' Er' Hu|id' r0 Er' _ Hv'|t _|th t _ Et Hv'].
    + done.
    + apply creates_owner in Hc as [Hc _]. rewrite lookup_insert_Some.
      split; [intros [[-> <-]|[? ?]]; [congruence|done]|]. intros E. right. split; congruence.
    + apply updates_owner in Hu as (Hu & _ & Hv'). rewrite lookup_insert_Some.
      split; [intros [[-> <-]|[? ?]]; [congruence|done]|]. intros E. right. split; congruence.
    + rewrite lookup_delete_Some. split; [by intros [_ ?]|]. intros E. split; congruence.
    + rewrite map_lookup_filter_Some. split; [by intros [? _]|]. intros E. split; [done|]. simpl.
      unfold prunable. by rewrite Hv, andb_false_r.
    + rewrite map_lookup_filter_Some. split; [by intros [? _]|]. intros E. split; [done|]. simpl.
      intros <-. apply Ho in E as (t' & Et' & Ht'). congruence.
  - intros th t <-. destruct Ht as [|th' t0 Hn Hc _|th' t0 t' Et0 (Ht0 & _) Hv'|th' t0 _ Et0 Hv'].
    + done.
    + rewrite lookup_insert_Some.
      split; [intros [[-> <-]|[? ?]]; [congruence|done]|]. intros E. right. split; congruence.
    + rewrite lookup_insert_Some.
      split; [intros [[-> <-]|[? ?]]; [congruence|done]|]. intros E. right. split; congruence.
    + rewrite lookup_delete_Some. split; [by intros [_ ?]|]. intros E. split; congruence.
Qed.

(** C40. Tenant isolation: whatever other tenants do, with whatever failures, the
    run and thread rows of a tenant are exactly those it had. *)
Theorem tenant_isolation db ks tenant :
  owned db → Forall (λ k, visible (c_ctx k) tenant = false) ks →
  owned (after db ks) ∧
  (∀ id r, r_tenant r = tenant → runs (after db ks) !! id = Some r ↔ runs db !! id = Some r) ∧
  (∀ th t, t_tenant t = tenant → threads (after db ks) !! th = Some t ↔ threads db !! th = Some t).
Proof.
  intros Ho Hks. revert db Ho. induction Hks as [|k ks Hk _ IH]; intros db Ho; simpl; [done|].
  destruct (exec_isolation k db tenant Ho Hk) as [H1 H2].
  destruct (IH (exec k db) (exec_owned k db Ho)) as (H3 & H4 & H5).
  split; [done|]. split; intros; [rewrite H4|rewrite H5]; auto.
Qed.
(** ** Admission ceilings *)

(** Statuses are pending, running or terminal. *)
Definition known_status (r : run_row) : Prop :=
  active (r_status r) = true ∨ TerminalRunStatus (r_status r) = true.

(** How the API calls the store: runs start pending, status overwrites are
    terminal, and the tenant's creations carry a ceiling of at most [limit]. *)
Definition disciplined (tenant : string) (limit : Z) (k : call) : Prop :=
  match c_op k with
  | OCreate _ run caps =>
      Status run = RunStatusPending ∧
      (FromContext (c_ctx k) = tenant →
       ∃ c, caps = Some c ∧ 0 < TenantConcurrent c ≤ limit)
  | OUpdateRun _ _ st _ _ => TerminalRunStatus st = true
  | _ => True
  end.

Lemma active_not_terminal st : active st = true → TerminalRunStatus st = true → False.
Proof.
  unfold active. intros H Ht. apply orb_true_iff in H as [H|H]; apply String.eqb_eq in H; by subst.
Qed.

Lemma updates_status k tenant limit id r r' :
  disciplined tenant limit k → updates k id r r' → known_status r →
  known_status r' ∧ (active (r_status r') = true → active (r_status r) = true).
Proof.
  unfold disciplined, known_status. intros Hd [_ H] Hr. destruct (c_op k); try done.
  - destruct H as (_ & Ht & m & _ & _ & ->). simpl. split; [by left|]. intros _.
    destruct Hr; congruence.
  - destruct H as (_ & m & _ & Ha & ->). simpl. apply CheckCompletion_applied in Ha as (Ht & _).
    split; [by right|]. intros Hact. by destruct (active_not_terminal _ Hact Ht).
  - destruct H as (_ & ->). simpl. split; [by right|]. intros Hact.
    by destruct (active_not_terminal _ Hact Hd).
  - destruct H as (_ & Hact & ->). simpl. split; [by right|done].
Qed.

Lemma creates_status k tenant limit db id row :
  disciplined tenant limit k → creates k db id row →
  known_status row ∧
  (active (r_status row) = true → r_tenant row = tenant → count_active tenant "" (runs db) < limit).
Proof.
  unfold disciplined, creates, known_status. intros Hd H. destruct (c_op k); try done.
  - destruct H as (_ & -> & _ & Hcap), Hd as [Hst Hd]. simpl. rewrite Hst. split; [by left|].
    intros _ Ht. destruct (Hd Ht) as (c & -> & Hc). rewrite Ht in Hcap.
    specialize (Hcap c eq_refl). lia.
  - destruct H as (_ & _ & pending & c & m & _ & _ & Ha & ->). simpl.
    apply CheckCompletion_applied in Ha as (Ht & _).
    split; [by right|]. intros Hact. by destruct (active_not_terminal _ Hact Ht).
Qed.

Definition under (tenant : string) (limit : Z) (db : DB) : Prop :=
  map_Forall (λ _ r, known_status r) (runs db) ∧ count_active tenant "" (runs db) ≤ limit.

Lemma exec_under k tenant limit db :
  disciplined tenant limit k → under tenant limit db → under tenant limit (exec k db).
Proof.
  intros Hd [Hks Hc]. split.
  { intros id r Er. destruct (exec_run_origin k db id r Er) as [E|[H|(r0 & E & Hu)]].
    - by eapply Hks.
    - by eapply creates_status.
    - eapply updates_status; eauto. }
  destruct (exec_changed validate ts_le k db) as [H _].
  destruct H as [|id row Hn Hcr|id r r' Er Hu|id r Er _ _|t _|th t _ _ _]; [done|..].
  { unfold count_active in *. rewrite count_runs_insert by done.
    apply (creates_status _ tenant limit) in Hcr as [_ Hcr]; [|done].
    destruct (active (r_status row)); simpl; [|lia].
    destruct (String.eqb_spec (r_tenant row) tenant); simpl; [|lia].
    specialize (Hcr eq_refl e). unfold count_active in Hcr. lia. }
  all: etrans; [|exact Hc]; apply count_runs_mono; intros id' r1 E Hp.
  - apply lookup_insert_Some in E as [[<- <-]|[_ E]]; [|eauto]. exists r. split; [done|].
    pose proof (updates_owner _ _ _ _ Hu) as (Ho & _).
    apply (updates_status _ tenant limit) in Hu as [_ Hu]; [|done|exact (Hks _ _ Er)].
    unfold agent_filter in *. rewrite Ho in Hp. simpl in *. rewrite andb_true_r in *.
    apply andb_true_iff in Hp as [Ha ->]. by rewrite Hu.
  - apply lookup_delete_Some in E as [_ E]. eauto.
  - apply map_lookup_filter_Some in E as [E _]. eauto.
  - apply map_lookup_filter_Some in E as [E _]. eauto.
Qed.

(** The tenant's concurrency ceiling holds at every point of every history:
    creations race with completions, retries and failures, yet the number of
    the tenant's pending and running runs never exceeds the limit. *)
Theorem admission_ceiling tenant limit db ks :
  Forall (disciplined tenant limit) ks → under tenant limit db →
  count_active tenant "" (runs (after db ks)) ≤ limit.
Proof.
  intros Hks Hu. assert (under tenant limit (after db ks)) as [_ ?]; [|done].
  revert db Hu. induction Hks as [|k ks Hk _ IH]; intros db Hu; simpl; [done|].
  by apply IH, exec_under.
Qed.
End histories.
