(* ===== verification/StoreThreads.v ===== *)
(** * Threads: conversation history, release and optimistic updates

    What a completion does to its conversation thread, and why a versioned
    [UpdateThread] never overwrites a concurrent change. *)

From S2P Require Import Prelude GoAny Completion Store StoreSpec StoreOps StoreSteps StoreSafety.
From Stdlib.Init Require Byte.
Local Open Scope string_scope.
Local Open Scope Z_scope.

Section threads.
Variable validate : gmap string any → bool.
Variable ts_le : Z → Z → bool.
Notation exec := (exec validate ts_le).
Notation after := (after validate ts_le).
Notation complete := (λ k now c db, CompleteRun (c_fail k) validate ts_le (c_commit k) now (c_ctx k) c db).

(** Some run of the thread is pending or running. *)
Definition thread_active (db : DB) (th tenant : string) : Prop :=
  ∃ id r, runs db !! id = Some r ∧ r_thread r = th ∧ r_tenant r = tenant ∧
          active (r_status r) = true.

Lemma others_active_true th tenant id id' r :
  String.eqb (r_thread r) th && String.eqb (r_tenant r) tenant && active (r_status r)
    && negb (String.eqb id' id) = true ↔
  r_thread r = th ∧ r_tenant r = tenant ∧ active (r_status r) = true ∧ id' ≠ id.
Proof.
  rewrite !andb_true_iff, negb_true_iff, !String.eqb_eq, String.eqb_neq. tauto.
Qed.

Lemma others_active_zero th tenant id m id' r :
  others_active th tenant id m = 0 → m !! id' = Some r →
  r_thread r = th → r_tenant r = tenant → active (r_status r) = true → id' = id.
Proof.
  unfold others_active, count_runs. intros H E Hth Ht Ha.
  rewrite <- Nat2Z.inj_0 in H. apply Nat2Z.inj, map_size_empty_iff in H.
  destruct (decide (id' = id)); [done|].
  exfalso. apply (map_empty_filter_1 _ _ H id' r E). simpl. by apply others_active_true.
Qed.

Lemma others_active_pos th tenant id m :
  others_active th tenant id m ≠ 0 →
  ∃ id' r, m !! id' = Some r ∧ r_thread r = th ∧ r_tenant r = tenant ∧ active (r_status r) = true.
Proof.
  unfold others_active, count_runs. intros H.
  match type of H with Z.of_nat (size ?f) ≠ 0 => destruct (map_choose f) as (id' & r & E) end.
  { intros He. apply H. by rewrite He, map_size_empty. }
  apply map_lookup_filter_Some in E as [E Hp]. apply others_active_true in Hp. naive_solver.
Qed.

Lemma released_docs now c n t :
  t_values (released_thread now c n t) = t_values t ∧
  t_version (released_thread now c n t) = t_version t.
Proof. unfold released_thread. by case_match. Qed.

Lemma merged_status now c t t1 : merged_thread validate now c t = Ok t1 → t_status t1 = t_status t.
Proof. unfold merged_thread. intros. by repeat case_match; simplify_eq. Qed.

Lemma release_status_not_busy c : release_status c ≠ ThreadStatusBusy.
Proof. unfold release_status. by case_match. Qed.

Lemma released_other now c n t :
  t_status t ≠ ThreadStatusBusy → t_status (released_thread now c n t) = t_status t.
Proof.
  intros H. unfold released_thread. rewrite (proj2 (String.eqb_neq _ _) H). by rewrite andb_false_r.
Qed.

(** Once the run itself is terminal, "no other active run" is "no active run". *)
Lemma released_busy now c meta r db t :
  TerminalRunStatus (CStatus c) = true → t_status t = ThreadStatusBusy →
  runs db !! CRunID c = Some (completed_run now c meta r) →
  let t' := released_thread now c (others_active (r_thread r) (r_tenant r) (CRunID c) (runs db)) t in
  (t_status t' = ThreadStatusBusy ↔ thread_active db (r_thread r) (r_tenant r)) ∧
  (t_status t' ≠ ThreadStatusBusy → t_status t' = release_status c).
Proof.
  intros Hterm Hb Er. simpl. unfold released_thread. rewrite Hb, String.eqb_refl, andb_true_r.
  destruct (Z.eqb_spec (others_active (r_thread r) (r_tenant r) (CRunID c) (runs db)) 0) as [E|E]; simpl.
  - split; [|done]. split; [intros Hx; by destruct (release_status_not_busy c)|].
    intros (id & r' & Er' & Hth & Ht & Ha). exfalso.
    pose proof (others_active_zero _ _ _ _ _ _ E Er' Hth Ht Ha) as ->.
    simplify_eq. by eapply active_not_terminal.
  - split; [|done]. split; [intros _|done]. by apply others_active_pos in E.
Qed.

(** What a durable completion does to its thread, all in the same
    transaction: the run's values are merged over the conversation's and the
    version advances by one (a trusted cancellation leaves the conversation
    alone); a busy thread is released exactly when none of its runs is still
    pending or running, and a thread that is not busy keeps its status. *)
Theorem completion_thread_effect k now c0 db :
  let db' := (complete k now c0 db).1 in
  db' ≠ db →
  ∃ r meta t t', let c := ResolveCompletion meta c0 in
    runs db !! CRunID c0 = Some r ∧ decode_meta (r_meta r) = Ok meta ∧
    threads db !! r_thread r = Some t ∧ threads db' !! r_thread r = Some t' ∧
    (match history_values c with
     | Some v => ∃ old, decode_meta (t_values t) = Ok old ∧ t_values t' = ColObj (v ∪ old) ∧
                        t_version t' = t_version t + 1
     | None => t_values t' = t_values t ∧ t_version t' = t_version t
     end) ∧
    (t_status t = ThreadStatusBusy →
       (t_status t' = ThreadStatusBusy ↔ thread_active db' (r_thread r) (r_tenant r)) ∧
       (t_status t' ≠ ThreadStatusBusy → t_status t' = release_status c)) ∧
    (t_status t ≠ ThreadStatusBusy → t_status t' = t_status t).
Proof.
  intros db' Hne.
  destruct (CompleteRun_cases (c_fail k) validate ts_le (c_commit k) now (c_ctx k) c0 db)
    as [[H1 _]|(res & H & Ha & _)]; [done|]. change (spec_complete validate ts_le now (c_ctx k) c0 db = Ok (res, db')) in H.
  clearbody db'.
  apply spec_complete_inv in H as (r & meta & t0 & t0' & Er & _ & Hm & -> & _ & _ & _ & Hs & Hr & _);
    [|done].
  pose proof (ResolveCompletion_fields meta c0) as (Hid & _).
  apply spec_apply_inv in Hs as (t & t1 & ks & Et & Ht & _ & Hme & _ & E).
  set (c := ResolveCompletion meta c0) in *.
  set (t' := released_thread now c (others_active (r_thread r) (r_tenant r) (CRunID c) (runs db')) t1).
  assert (Et' : threads db' !! r_thread r = Some t').
  { unfold t'. rewrite E. simpl. by rewrite lookup_insert_eq. }
  assert (Er' : runs db' !! CRunID c = Some (completed_run now c meta r)).
  { by rewrite Hr, Hid, lookup_insert_eq. }
  exists r, meta, t, t'. simpl. clear E Hr.
  destruct (released_docs now c (others_active (r_thread r) (r_tenant r) (CRunID c) (runs db')) t1)
    as [Hval Hver].
  pose proof (merged_status _ _ _ _ Hme) as Hst. apply CheckCompletion_applied in Ha as (Hterm & _).
  split_and!; try done.
  - fold t' in Hval, Hver. rewrite Hval, Hver. fold c. unfold merged_thread in Hme.
    destruct (history_values c) as [v|]; [|injection Hme as E1; by rewrite E1].
    destruct (decode_meta (t_values t)) as [old|]; [|done].
    destruct (validate (merge_values v old)); [|done]. injection Hme as E1. exists old. by rewrite <- E1.
  - intros Hb. apply (released_busy _ _ meta); [done|congruence|done].
  - intros Hb. unfold t'. rewrite released_other by congruence. done.
Qed.
(** ** Optimistic updates *)

(** The thread exists throughout the history and is never re-created. *)
Fixpoint thread_kept (th : string) (db : DB) (ks : list call) : Prop :=
  is_Some (threads db !! th) ∧
  match ks with [] => True | k :: ks => thread_kept th (exec k db) ks end.

Lemma thread_step_trans t1 t2 t3 : thread_step t1 t2 → thread_step t2 t3 → thread_step t1 t3.
Proof.
  intros (H1 & H2 & H3) (H4 & H5 & H6). split_and!; [congruence|lia|].
  intros E. destruct H3 as [<- <-]; [lia|]. apply H6. lia.
Qed.

Lemma exec_thread_step k db th t :
  threads db !! th = Some t → is_Some (threads (exec k db) !! th) →
  ∃ t', threads (exec k db) !! th = Some t' ∧ thread_step t t'.
Proof.
  intros Et. destruct (exec_changed validate ts_le k db) as [_ H].
  destruct H as [|th' t0 Hn _ _|th' t0 t' Et0 Hs _|th' t0 _ _ _]; intros [t1 Et1].
  - exists t. split; [done|apply thread_step_refl].
  - rewrite lookup_insert_ne by congruence. exists t. split; [done|apply thread_step_refl].
  - apply lookup_insert_Some in Et1 as [[-> ->]|[Hne E]].
    + simplify_eq. exists t1. by rewrite lookup_insert_eq.
    + rewrite lookup_insert_ne by done. exists t. split; [done|apply thread_step_refl].
  - apply lookup_delete_Some in Et1 as [Hne E]. rewrite lookup_delete_ne by done.
    exists t. split; [done|apply thread_step_refl].
Qed.

Lemma after_thread_step th db ks t :
  thread_kept th db ks → threads db !! th = Some t →
  ∃ t', threads (after db ks) !! th = Some t' ∧ thread_step t t'.
Proof.
  revert db t. induction ks as [|k ks IH]; intros db t Hk Et.
  { exists t. split; [done|apply thread_step_refl]. }
  destruct Hk as [_ Hk]. assert (is_Some (threads (exec k db) !! th)) as Hs by (by destruct ks, Hk).
  destruct (exec_thread_step k db th t Et Hs) as (t1 & Et1 & H1).
  destruct (IH (exec k db) t1 Hk Et1) as (t2 & Et2 & H2).
  exists t2. split; [done|]. by eapply thread_step_trans.
Qed.

(** A versioned [UpdateThread] never loses a concurrent update: if the
    thread was read at version [v] and, after any history of store calls
    (completions that merge values included) that keeps the thread, the write
    guarded by [v] succeeds, then the documents it merged its patch into are
    still the current ones, and the new version is [v + 1]. *)
Theorem versioned_update_not_lost k now th patch v t db ks db' v' :
  threads db !! th = Some t → t_version t = v → IfMatchVersion patch = Some v →
  thread_kept th db ks →
  UpdateThread_write (c_fail k) (c_commit k) now (c_ctx k) th patch t (after db ks) = (db', Ok v') →
  v' = v + 1 ∧
  ∃ cur new, threads (after db ks) !! th = Some cur ∧ threads db' !! th = Some new ∧
    t_values new = marshal_values (patch_map (PValues patch) (go_map (t_values cur))) ∧
    t_meta new = marshal_meta (patch_map (PMetadata patch) (go_map (t_meta cur))) ∧
    t_version new = v'.
Proof.
  intros Et Hv Hp Hk Hw. destruct (after_thread_step _ _ _ _ Hk Et) as (cur & Ec & _ & _ & Hstep).
  unfold UpdateThread_write, auto in Hw. destruct (c_fail k 0%nat); [done|].
  unfold update_thread_write in Hw. rewrite Ec, Hp in Hw.
  destruct (visible _ _); simpl in Hw; [|by destruct (c_commit k)].
  destruct (Z.eqb_spec (t_version cur) v) as [E|]; [|by destruct (c_commit k)].
  destruct (c_commit k); simplify_eq. destruct Hstep as [Hvals Hmeta]; [congruence|].
  split; [lia|]. exists cur. eexists. split; [done|]. simpl. rewrite lookup_insert_eq.
  split; [done|]. simpl. by rewrite Hvals, Hmeta.
Qed.
End threads.

(** * The store theorems on a concrete store
    A store with one thread and one run, and a short history (dispatch, a lost
    completion acknowledgement, a re-dispatch), on which the hypotheses of the
    history theorems hold.  *)

Local Open Scope string_scope.
Local Open Scope Z_scope.

Definition any_values : gmap string any → bool := λ _, true.

Definition demo_thread : thread_row :=
  mkThread "default" ThreadStatusBusy (ColObj {[ "topic" := AStr "weather" ]}) 1 0 ColNull 0.

Definition demo_run (status : string) : run_row :=
  mkRun "default" "t1" "agent" status ColNull ColEmpty "" 0 0 (mkSpec "" "" None None 0).

Definition demo_db : DB := mkDB {[ "r1" := demo_run RunStatusPending ]} {[ "t1" := demo_thread ]} ∅ ∅.

Definition plain (o : op) : call := mkCall o background (λ _, false) CommitOk.
Definition lost (o : op) : call := mkCall o background (λ _, false) CommitLost.

Definition demo_completion (g : Z) : RunCompletion :=
  mkCompletion false None "langgraph" false "r1" g RunStatusSuccess ""
    (Some {[ "answer" := AStr "rain" ]}).

Definition done0 : call := lost (OComplete 5 (demo_completion 0)).
Definition redispatch : call := plain (OBegin 6 "r1" 1).
Definition begun : call := plain (OBegin 4 "r1" 2).

Lemma demo_applied :
  (CompleteRun (c_fail done0) any_values Z.leb (c_commit done0) 5 (c_ctx done0) (demo_completion 0)
     demo_db).1 ≠ demo_db.
Proof.
  intros E. apply (f_equal (λ d, r_status <$> runs d !! "r1")) in E. vm_compute in E. discriminate.
Defined.

Lemma completion_at_most_once_witness :
  let db1 := (CompleteRun (c_fail done0) any_values Z.leb CommitLost 5 background (demo_completion 0)
                demo_db).1 in
  let db2 := after any_values Z.leb db1 [redispatch] in
  (CompleteRun (λ _, false) any_values Z.leb CommitOk 7 background (demo_completion 0) db2).1 = db2.
Proof.
  apply (completion_at_most_once any_values Z.leb done0 5 (demo_completion 0) [redispatch]
           (plain (OComplete 7 (demo_completion 0))) 7 (demo_completion 0) demo_db).
  - reflexivity.
  - apply demo_applied.
  - vm_compute. repeat split; eexists; reflexivity.
Defined.

Lemma superseded_completion_refused_witness :
  let db1 := (BeginRunAttempt (λ _, false) CommitOk 4 background "r1" 2 demo_db).1 in
  let db2 := after any_values Z.leb db1 [redispatch] in
  (CompleteRun (λ _, false) any_values Z.leb CommitOk 7 background (demo_completion 0) db2).1 = db2.
Proof.
  apply (superseded_completion_refused any_values Z.leb begun 4 "r1" 2 demo_db [redispatch]
           (plain (OComplete 7 (demo_completion 0))) 7 (demo_completion 0)).
  - vm_compute. reflexivity.
  - lia.
  - constructor; [|constructor]. compute. split; [discriminate|reflexivity].
  - vm_compute. repeat split; eexists; reflexivity.
  - reflexivity.
  - reflexivity.
  - reflexivity.
Defined.

Lemma superseded_checkpoint_fenced_witness :
  let db1 := (BeginRunAttempt (λ _, false) CommitOk 4 background "r1" 2 demo_db).1 in
  exec any_values Z.leb (plain (OPutBound 9 (mkBinding "r1" 1 "t1") "ck" [] "langgraph" None)) db1
  = db1.
Proof.
  apply (superseded_checkpoint_fenced any_values Z.leb begun 4 "r1" 2 demo_db []
           (plain (OPutBound 9 (mkBinding "r1" 1 "t1") "ck" [] "langgraph" None))
           (mkBinding "r1" 1 "t1")).
  - vm_compute. reflexivity.
  - lia.
  - constructor.
  - vm_compute. repeat split; eexists; reflexivity.
  - reflexivity.
  - reflexivity.
  - reflexivity.
Defined.

Lemma completed_run_frozen_witness :
  let db1 := (CompleteRun (c_fail done0) any_values Z.leb CommitLost 5 background (demo_completion 0)
                demo_db).1 in
  runs (after any_values Z.leb db1 [redispatch]) !! "r1" = runs db1 !! "r1".
Proof.
  apply (completed_run_frozen any_values Z.leb done0 5 (demo_completion 0) demo_db [redispatch]).
  - apply demo_applied.
  - vm_compute. repeat split; eexists; reflexivity.
  - constructor; [exact I|constructor].
Defined.

Lemma completion_retry_witness :
  let db1 := (CompleteRun (c_fail done0) any_values Z.leb CommitLost 5 background (demo_completion 0)
                demo_db).1 in
  let db2 := after any_values Z.leb db1 [redispatch] in
  CompleteRun (λ _, false) any_values Z.leb CommitOk 7 background (demo_completion 0) db2
  = (db2, Ok (mkResult true false)).
Proof.
  apply (completion_retry any_values Z.leb done0 5 (demo_completion 0) demo_db [redispatch]
           (plain (OComplete 7 (demo_completion 0))) 7).
  - apply demo_applied.
  - vm_compute. repeat split; eexists; reflexivity.
  - constructor; [exact I|constructor].
  - reflexivity.
  - simpl. lia.
  - intros i r H. unfold demo_db in H. simpl in H. apply lookup_singleton_Some in H as [_ <-]. exact I.
  - reflexivity.
  - reflexivity.
  - intros r H. unfold demo_db in H. simpl in H. apply lookup_singleton_Some in H as [_ <-]. reflexivity.
Defined.

Lemma demo_owned : owned demo_db.
Proof.
  intros i r H. unfold demo_db in H. simpl in H. apply lookup_singleton_Some in H as [_ <-].
  exists demo_thread. split; reflexivity.
Defined.

(** Another tenant tries to cancel, claim and delete. *)
Definition intruder : ctx := WithContext background "other".
Definition intrusion : list call :=
  [ mkCall (OComplete 8 (demo_completion 0)) intruder (λ _, false) CommitOk;
    mkCall (OClaim 9 "t1") intruder (λ _, false) CommitOk;
    mkCall (ODeleteThread "t1") intruder (λ _, false) CommitOk ].

Lemma tenant_isolation_witness :
  runs (after any_values Z.leb demo_db intrusion) !! "r1" = Some (demo_run RunStatusPending).
Proof.
  apply (tenant_isolation any_values Z.leb demo_db intrusion "default").
  - apply demo_owned.
  - repeat constructor.
  - reflexivity.
  - reflexivity.
Defined.

Definition demo_request (id : string) : Run :=
  mkRunReq id "t1" "agent" RunStatusPending None ColEmpty 0 0 (mkSpec "" "" None None 0).
Definition demo_caps : RunAdmissionCaps := mkCaps 2 0 0 0 None.

Lemma admission_ceiling_witness :
  count_active "default" "" (runs (after any_values Z.leb demo_db
    [plain (OCreate 1 (demo_request "r2") (Some demo_caps));
     plain (OCreate 1 (demo_request "r3") (Some demo_caps))])) ≤ 2.
Proof.
  apply (admission_ceiling any_values Z.leb "default" 2 demo_db).
  - constructor; [|constructor; [|constructor]];
      (split; [reflexivity|intros _; exists demo_caps; split; [reflexivity|simpl; lia]]).
  - split.
    + intros i r H. unfold demo_db in H. simpl in H. apply lookup_singleton_Some in H as [_ <-].
      left. reflexivity.
    + vm_compute. discriminate.
Defined.

Lemma completion_thread_effect_witness :
  let db' := (CompleteRun (c_fail done0) any_values Z.leb CommitLost 5 background (demo_completion 0)
                demo_db).1 in
  ∃ r meta t t', runs demo_db !! "r1" = Some r ∧ decode_meta (r_meta r) = Ok meta ∧
    threads demo_db !! r_thread r = Some t ∧ threads db' !! r_thread r = Some t'.
Proof.
  destruct (completion_thread_effect any_values Z.leb done0 5 (demo_completion 0) demo_db demo_applied)
    as (r & meta & t & t' & H1 & H2 & H3 & H4 & _).
  exists r, meta, t, t'. split; [exact H1|]. split; [exact H2|]. split; [exact H3|exact H4].
Defined.

Definition demo_patch : ThreadPatch := mkPatch None (Some {[ "topic" := AStr "news" ]}) (Some 1).

Lemma versioned_update_not_lost_witness :
  UpdateThread_write (λ _, false) CommitOk 9 background "t1" demo_patch demo_thread
    (after any_values Z.leb demo_db [redispatch])
  = (set_threads {[ "t1" := mkThread "default" ThreadStatusBusy
        (ColObj {[ "topic" := AStr "news" ]}) 2 0 ColNull 0 ]}
       (after any_values Z.leb demo_db [redispatch]), Ok 2) ∧ 2 = 1 + 1.
Proof.
  assert (H : UpdateThread_write (λ _, false) CommitOk 9 background "t1" demo_patch demo_thread
    (after any_values Z.leb demo_db [redispatch])
  = (set_threads {[ "t1" := mkThread "default" ThreadStatusBusy
        (ColObj {[ "topic" := AStr "news" ]}) 2 0 ColNull 0 ]}
       (after any_values Z.leb demo_db [redispatch]), Ok 2)) by (vm_compute; reflexivity).
  split; [exact H|].
  eapply (versioned_update_not_lost any_values Z.leb redispatch 9 "t1" demo_patch 1 demo_thread
            demo_db [redispatch]).
  - reflexivity.
  - reflexivity.
  - reflexivity.
  - vm_compute. repeat split; eexists; reflexivity.
  - exact H.
Defined.
