(* ===== verification/Controls.v ===== *)
(** * Operator controls: kill switches, break-glass windows, audit

    Models the tables of [internal/state/sqlite/kill.go],
    [internal/state/sqlite/break_glass.go] and [WriteAuditEvent]
    ([internal/state/sqlite/governance.go]), and the handlers that mint and revoke
    a break-glass window ([internal/api/admin_break_glass.go]).

    Instants are stored as text and compared as text ([GoTime]). *)

From Stdlib Require Import String.
From S2P Require Import Prelude GoStrings GoAny GoTime Store.
Local Open Scope string_scope.
Local Open Scope Z_scope.

Record KillSwitch := mkKill {
  KsID : string;
  KsTenantID : string;
  KsAgentID : string;        (* empty: the whole tenant *)
  KsPauseOnly : bool;
  KsReason : string;
  KsCreatedBy : string;
  KsCreatedAt : Z;           (* 0: the zero time *)
  KsUpdatedAt : Z
}.

Record BreakGlassWindow := mkWindow {
  BgID : string;
  BgTenantID : string;
  BgAgentID : string;        (* empty: the whole tenant *)
  BgReason : string;
  BgCreatedBy : string;
  BgStartsAt : Z;
  BgExpiresAt : Z;
  BgCreatedAt : Z;
  BgUpdatedAt : Z
}.

Record AuditEvent := mkAudit {
  AeID : string;
  AeTS : Z;
  AeTenantID : string;
  AeActor : string;
  AeAction : string;
  AeResourceType : string;
  AeResourceID : string;
  AeDecision : string;
  AeReasonCode : string;
  AeRuleID : string;
  AeRunID : string;
  AeGeneration : Z;
  AeAgentID : string;
  AeConnector : string;
  AeTool : string;
  AeAttrs : list (string * any)
}.

Record Controls := mkControls {
  kills : gmap string KillSwitch;
  windows : gmap string BreakGlassWindow;
  audits : gmap string AuditEvent
}.

Definition set_kills (m : gmap string KillSwitch) (c : Controls) : Controls := mkControls m (windows c) (audits c).
Definition set_windows (m : gmap string BreakGlassWindow) (c : Controls) : Controls := mkControls (kills c) m (audits c).
Definition set_audits (m : gmap string AuditEvent) (c : Controls) : Controls := mkControls (kills c) (windows c) m.

(** ** Kill switches *)

Definition ks_scope (k : KillSwitch) : string * string := (KsTenantID k, KsAgentID k).

(** [UNIQUE (tenant_id, agent_id)] broken by another row. *)
Definition ks_taken (k : KillSwitch) (m : gmap string KillSwitch) : bool :=
  existsb (λ kv : string * KillSwitch, negb (String.eqb kv.1 (KsID k)) && bool_decide (ks_scope kv.2 = ks_scope k))
    (map_to_list m).

(** [INSERT ... ON CONFLICT(id) DO UPDATE] keeps the row's creation time. *)
Definition upsert_kill (now : Z) (k : KillSwitch) (c : Controls) : Controls * bool :=
  if ks_taken k (kills c) then (c, false)
  else
    let created := match kills c !! KsID k with
                   | Some k0 => KsCreatedAt k0
                   | None => if KsCreatedAt k =? 0 then now else KsCreatedAt k
                   end in
    (set_kills (<[KsID k := mkKill (KsID k) (KsTenantID k) (KsAgentID k) (KsPauseOnly k) (KsReason k)
                              (KsCreatedBy k) created now]> (kills c)) c, true).

Definition UpsertKillSwitch (o : reply) (now : Z) (k : KillSwitch) (c : Controls) : Controls * res err unit :=
  match attempt EDriver o (upsert_kill now k) c with
  | (c, Ok true) => (c, Ok tt)
  | (c, Ok false) => (c, Err (EConflict "kill_switch" (KsTenantID k +:+ "/" +:+ KsAgentID k)))
  | (c, Err e) => (c, Err e)
  end.

Definition GetKillSwitch (o : reply) (id : string) (c : Controls) : res err KillSwitch :=
  match o with
  | RFine => match kills c !! id with Some k => Ok k | None => Err (ENotFound "kill_switch" id) end
  | _ => Err EDriver
  end.

Definition DeleteKillSwitch (o : reply) (id : string) (c : Controls) : Controls * res err unit :=
  attempt EDriver o (λ c, (set_kills (delete id (kills c)) c, tt)) c.

(** [ORDER BY CASE WHEN agent_id = ? THEN 0 ELSE 1 END]: the agent's own first. *)
Definition specific (agentID a : string) : Z := if String.eqb a agentID then 0 else 1.

Definition FindActiveKill (o : reply) (tenantID agentID : string) (c : Controls) : res err (option KillSwitch) :=
  match o with
  | RFine =>
      Ok (head (sort_by (λ a b, specific agentID (KsAgentID a) <=? specific agentID (KsAgentID b))
            (filter (λ k, KsTenantID k = tenantID ∧ (KsAgentID k = agentID ∨ KsAgentID k = ""))
               (map_to_list (kills c)).*2)))
  | _ => Err EDriver
  end.

(** ** Break-glass windows *)

Definition CreateBreakGlassWindow (o : reply) (now : Z) (w : BreakGlassWindow) (c : Controls)
  : Controls * res err unit :=
  match attempt EDriver o (λ c,
    match windows c !! BgID w with
    | Some _ => (c, false)
    | None =>
        (set_windows (<[BgID w := mkWindow (BgID w) (BgTenantID w) (BgAgentID w) (BgReason w) (BgCreatedBy w)
                                    (BgStartsAt w) (BgExpiresAt w)
                                    (if BgCreatedAt w =? 0 then now else BgCreatedAt w) now]> (windows c)) c, true)
    end) c with
  | (c, Ok true) => (c, Ok tt)
  | (c, Ok false) => (c, Err (EConflict "break_glass_window" (BgID w)))
  | (c, Err e) => (c, Err e)
  end.

Definition GetBreakGlassWindow (o : reply) (id : string) (c : Controls) : res err BreakGlassWindow :=
  match o with
  | RFine => match windows c !! id with Some w => Ok w | None => Err (ENotFound "break_glass_window" id) end
  | _ => Err EDriver
  end.

Definition DeleteBreakGlassWindow (o : reply) (id : string) (c : Controls) : Controls * res err unit :=
  attempt EDriver o (λ c, (set_windows (delete id (windows c)) c, tt)) c.

(** [starts_at <= ? AND expires_at > ?] on the stored texts. *)
Definition in_force (now : Z) (w : BreakGlassWindow) : bool :=
  text_le (BgStartsAt w) now && text_lt now (BgExpiresAt w).

(** The agent's own first, then the earliest expiry. *)
Definition bg_before (agentID : string) (a b : BreakGlassWindow) : bool :=
  let sa := specific agentID (BgAgentID a) in
  let sb := specific agentID (BgAgentID b) in
  (sa <? sb) || ((sa =? sb) && text_le (BgExpiresAt a) (BgExpiresAt b)).

Definition FindActiveBreakGlass (o : reply) (now : Z) (tenantID agentID : string) (c : Controls)
  : res err (option BreakGlassWindow) :=
  match o with
  | RFine =>
      Ok (head (sort_by (bg_before agentID)
            (filter (λ w, BgTenantID w = tenantID ∧ (BgAgentID w = agentID ∨ BgAgentID w = "") ∧ in_force now w = true)
               (map_to_list (windows c)).*2)))
  | _ => Err EDriver
  end.

(** ** Audit *)

(** The row written; a zero time and an empty tenant are filled in. *)
Definition audit_row (x : ctx) (now : Z) (ev : AuditEvent) : AuditEvent :=
  mkAudit (AeID ev) (if AeTS ev =? 0 then now else AeTS ev)
    (if String.eqb (AeTenantID ev) "" then FromContext x else AeTenantID ev)
    (AeActor ev) (AeAction ev) (AeResourceType ev) (AeResourceID ev) (AeDecision ev) (AeReasonCode ev)
    (AeRuleID ev) (AeRunID ev) (AeGeneration ev) (AeAgentID ev) (AeConnector ev) (AeTool ev) (AeAttrs ev).

Definition WriteAuditEvent (o : reply) (x : ctx) (now : Z) (ev : AuditEvent) (c : Controls)
  : Controls * res err unit :=
  match attempt EDriver o (λ c,
    match audits c !! AeID ev with
    | Some _ => (c, false)
    | None => (set_audits (<[AeID ev := audit_row x now ev]> (audits c)) c, true)
    end) c with
  | (c, Ok true) => (c, Ok tt)
  | (c, Ok false) => (c, Err EUnique)
  | (c, Err e) => (c, Err e)
  end.
