(* ===== verification/Governance.v ===== *)
(** * Human approvals

    Models the [pending_actions] table of [internal/state/sqlite/governance.go]
    and [internal/models/pending.go]: a tool call the policy holds back becomes a
    row an operator approves or denies; an approval is a one-shot capability for
    exactly that call.

    Every statement of the store is one function on the table, run under a
    [reply]; callers on several control planes interleave statement by statement
    ([gstep]).  The unique key of an open row is a hash of its call, an arbitrary
    function here. *)

From Stdlib Require Import String.
From S2P Require Import Prelude GoAny GoTime Store.
Local Open Scope string_scope.
Local Open Scope Z_scope.

Definition PendingStatusPending : string := "pending".
Definition PendingStatusApproved : string := "approved".
Definition PendingStatusDenied : string := "denied".
Definition PendingStatusConsumed : string := "consumed".
Definition PendingReasonExpired : string := "pending_expired".

(** The call an approval is for. *)
Record call := mkCallKey {
  CallTenant : string;
  CallAgent : string;
  CallEmbedded : bool;      (* expires_at IS NOT NULL *)
  CallRun : string;
  CallGeneration : Z;
  CallConnector : string;
  CallTool : string;
  CallDigest : string
}.

#[export] Instance call_eq_dec : EqDecision call.
Proof. solve_decision. Defined.

Record PendingAction := mkPending {
  PaID : string;
  PaRunID : string;
  PaGeneration : Z;
  PaTenantID : string;
  PaAgentID : string;
  PaConnector : string;
  PaTool : string;
  PaRuleID : string;
  PaReason : string;
  PaReasonCode : string;
  PaStatus : string;
  PaArgsDigest : string;
  PaArgs : any;
  PaDecidedBy : string;
  PaCreatedAt : Z;
  PaUpdatedAt : Z;
  PaExpiresAt : option Z
}.

Definition call_of (a : PendingAction) : call :=
  mkCallKey (PaTenantID a) (PaAgentID a) (bool_decide (is_Some (PaExpiresAt a))) (PaRunID a)
    (PaGeneration a) (PaConnector a) (PaTool a) (PaArgsDigest a).

(** A stored row and its unique key, NULL once it is decided. *)
Record row := mkRow { row_action : PendingAction; pending_key : option string }.

Notation table := (gmap string row).

(** [SET status = ?, ..., pending_key = NULL] *)
Definition decided (now : Z) (status decidedBy reasonCode : string) (r : row) : row :=
  let a := row_action r in
  mkRow (mkPending (PaID a) (PaRunID a) (PaGeneration a) (PaTenantID a) (PaAgentID a) (PaConnector a)
           (PaTool a) (PaRuleID a) (PaReason a) reasonCode status (PaArgsDigest a) (PaArgs a) decidedBy
           (PaCreatedAt a) now (PaExpiresAt a)) None.

(** Rows whose column holds the second of their expiry. *)
Definition expiry (r : row) : option Z := formatExpiry <$> PaExpiresAt (row_action r).

Section store.
(** [PendingActionKey]: the SHA-256 of the call. *)
Variable PendingActionKey : call → string.

(** [ORDER BY created_at ASC LIMIT 1] over the rows that satisfy a test. *)
Definition oldest (test : row → bool) (t : table) : option row :=
  head (sort_by (λ a b, text_le (PaCreatedAt (row_action a)) (PaCreatedAt (row_action b)))
          (filter (λ r, test r = true) (map_to_list t).*2)).

Definition open_for (c : call) (status : string) (r : row) : bool :=
  bool_decide (call_of (row_action r) = c) && String.eqb (PaStatus (row_action r)) status.

Definition FindOpenPendingAction (o : reply) (c : call) (t : table) : res err (option PendingAction) :=
  match o with
  | RFine => Ok (row_action <$> oldest (open_for c PendingStatusPending) t)
  | _ => Err EDriver
  end.

Definition GetPendingAction (o : reply) (id : string) (t : table) : res err PendingAction :=
  match o with
  | RFine => match t !! id with
             | Some r => Ok (row_action r)
             | None => Err (ENotFound "pending_action" id)
             end
  | _ => Err EDriver
  end.

(** [INSERT ... ON CONFLICT (pending_key) DO NOTHING]; a taken primary key is an
    error. *)
Definition insert_pending (a : PendingAction) (key : option string) (t : table) : table * bool :=
  match t !! PaID a with
  | Some _ => (t, false)
  | None =>
      if bool_decide (is_Some key) && bool_decide (Exists (λ r, pending_key r = key) (map_to_list t).*2)
      then (t, true)
      else (<[PaID a := mkRow a key]> t, true)
  end.

(** Defaults of a new row; 0 is the zero time. *)
Definition stamp_pending (now : Z) (a : PendingAction) : PendingAction :=
  mkPending (PaID a) (PaRunID a) (PaGeneration a) (PaTenantID a) (PaAgentID a) (PaConnector a) (PaTool a)
    (PaRuleID a) (PaReason a) (PaReasonCode a)
    (if String.eqb (PaStatus a) "" then PendingStatusPending else PaStatus a)
    (PaArgsDigest a) (PaArgs a) (PaDecidedBy a) (if PaCreatedAt a =? 0 then now else PaCreatedAt a) now
    (PaExpiresAt a).

(** The whole call, statement by statement; [between] is what the other callers
    do to the table before each later statement. *)
Definition CreatePendingAction (o1 o2 o3 o4 : reply) (between : nat → table → table) (now : Z)
    (a0 : PendingAction) (t : table) : table * res err string :=
  let a := stamp_pending now a0 in
  let insert key t :=
    match attempt EDriver o2 (insert_pending a key) t with
    | (t, Err e) => (t, Err e)
    | (t, Ok false) => (t, Err EUnique)
    | (t, Ok true) => (t, Ok tt)
    end in
  if negb (String.eqb (PaStatus a) PendingStatusPending) then
    match insert None t with
    | (t, Err e) => (t, Err e)
    | (t, Ok _) => (t, Ok (PaID a))
    end
  else
    match FindOpenPendingAction o1 (call_of a) t with
    | Err e => (t, Err e)
    | Ok (Some existing) => (t, Ok (PaID existing))
    | Ok None =>
        match insert (Some (PendingActionKey (call_of a))) (between 0%nat t) with
        | (t, Err e) => (t, Err e)
        | (t, Ok _) =>
            let t := between 1%nat t in
            match FindOpenPendingAction o3 (call_of a) t with
            | Err e => (t, Err e)
            | Ok (Some existing) => (t, Ok (PaID existing))
            | Ok None =>
                let t := between 2%nat t in
                match GetPendingAction o4 (PaID a) t with
                | Err e => (t, Err e)
                | Ok _ => (t, Ok (PaID a))
                end
            end
        end
    end.

(** [UPDATE ... WHERE id = ? AND cond]: was a row affected? *)
Definition update_where (id : string) (cond : row → bool) (f : row → row) (t : table) : table * bool :=
  match t !! id with
  | Some r => if cond r then (<[id := f r]> t, true) else (t, false)
  | None => (t, false)
  end.

Definition affected (e : err) (p : table * res err bool) : table * res err unit :=
  match p with
  | (t, Ok true) => (t, Ok tt)
  | (t, Ok false) => (t, Err e)
  | (t, Err e) => (t, Err e)
  end.

Definition keep_meta (now : Z) (status : string) (r : row) : row :=
  decided now status (PaDecidedBy (row_action r)) (PaReasonCode (row_action r)) r.

Definition SetPendingActionStatus (o : reply) (now : Z) (id fromStatus toStatus : string) (t : table)
  : table * res err unit :=
  affected (EConflict "pending_action" id)
    (attempt EDriver o (update_where id (λ r, String.eqb (PaStatus (row_action r)) fromStatus)
                          (keep_meta now toStatus)) t).

(** Pending, and not past its expiry, which has second precision. *)
Definition approvable (now : Z) (r : row) : bool :=
  String.eqb (PaStatus (row_action r)) PendingStatusPending
  && match expiry r with None => true | Some e => formatExpiry now <? e end.

Definition SetPendingActionApproved (o : reply) (now : Z) (id decidedBy : string) (t : table)
  : table * res err unit :=
  affected (EConflict "pending_action" id)
    (attempt EDriver o (update_where id (approvable now)
       (λ r, decided now PendingStatusApproved decidedBy (PaReasonCode (row_action r)) r)) t).

Definition expired (now : Z) (r : row) : bool :=
  String.eqb (PaStatus (row_action r)) PendingStatusPending
  && match expiry r with None => false | Some e => e <=? formatExpiry now end.

Definition expire_rows (now : Z) (t : table) : table :=
  (λ r, if expired now r
        then decided now PendingStatusDenied (PaDecidedBy (row_action r)) PendingReasonExpired r
        else r) <$> t.

Definition ExpireGovernancePending (o : reply) (now : Z) (t : table) : table * res err unit :=
  attempt EDriver o (λ t, (expire_rows now t, tt)) t.

(** The capability of a connector call: never an embedded row. *)
Definition capability (tenantID agentID runID : string) (generation : Z) (connector tool digest : string) : call :=
  mkCallKey tenantID agentID false runID generation connector tool digest.

(** The transaction: select the oldest approved row, mark it consumed if it still
    is approved, commit.  The empty id means that there is none. *)
Definition consume (now : Z) (c : call) (t : table) : table * string :=
  match oldest (open_for c PendingStatusApproved) t with
  | None => (t, "")
  | Some r =>
      let id := PaID (row_action r) in
      match update_where id (λ r, String.eqb (PaStatus (row_action r)) PendingStatusApproved)
              (keep_meta now PendingStatusConsumed) t with
      | (t, true) => (t, id)
      | (t, false) => (t, "")
      end
  end.

Definition ConsumeApprovedAction (o : reply) (now : Z) (tenantID agentID runID : string) (generation : Z)
    (connector tool argsDigest : string) (t : table) : table * res err string :=
  if String.eqb argsDigest "" then (t, Ok "")
  else attempt EDriver o (consume now (capability tenantID agentID runID generation connector tool argsDigest)) t.
End store.
