(* ===== verification/GovernanceSteps.v ===== *)
(** * Interleaved approvals

    The statements of [Governance] run by any number of callers, with lost
    replies, as a step relation; what it keeps, and that an approval authorizes
    one call. *)

From Stdlib Require Import String.
From S2P Require Import Prelude GoAny GoTime Store Governance.
Local Open Scope string_scope.
Local Open Scope Z_scope.

Section steps.
Variable key : call → string.

(** The table, what operators approved, and the calls that were let through. *)
Record gworld := mkG {
  g_table : table;
  g_approved : list (string * call);
  g_authorized : list (string * call)
}.

Definition g_init : gworld := mkG ∅ [] [].

Definition on_table (w : gworld) (t : table) : gworld := mkG t (g_approved w) (g_authorized w).

(** The call of the row an approval changes. *)
Definition newly_approved (o : reply) (now : Z) (id : string) (t : table) : list (string * call) :=
  match o, t !! id with
  | RDown, _ | _, None => []
  | _, Some r => if approvable now r then [(id, call_of (row_action r))] else []
  end.

Inductive gstep : gworld → gworld → Prop :=
| gs_insert w o a :
    PaStatus a = PendingStatusPending → PaID a ≠ "" →
    gstep w (on_table w (attempt EDriver o (insert_pending a (Some (key (call_of a)))) (g_table w)).1)
| gs_deny w o now id :
    gstep w (on_table w (SetPendingActionStatus o now id PendingStatusPending PendingStatusDenied (g_table w)).1)
| gs_expire w o now :
    gstep w (on_table w (ExpireGovernancePending o now (g_table w)).1)
| gs_approve w o now id by_ :
    gstep w (mkG (SetPendingActionApproved o now id by_ (g_table w)).1
               (newly_approved o now id (g_table w) ++ g_approved w) (g_authorized w))
| gs_consume w o now tenantID agentID runID g connector tool digest t :
    ConsumeApprovedAction o now tenantID agentID runID g connector tool digest (g_table w) = (t, Ok "") ∨
    (∃ e, ConsumeApprovedAction o now tenantID agentID runID g connector tool digest (g_table w) = (t, Err e)) →
    gstep w (on_table w t)
| gs_authorize w o now tenantID agentID runID g connector tool digest t id :
    ConsumeApprovedAction o now tenantID agentID runID g connector tool digest (g_table w) = (t, Ok id) → id ≠ "" →
    gstep w (mkG t (g_approved w)
               ((id, capability tenantID agentID runID g connector tool digest) :: g_authorized w)).

Definition g_reachable : gworld → Prop := rtc gstep g_init.

(** ** Rows only move forward *)

Definition rank (status : string) : Z :=
  if String.eqb status PendingStatusPending then 0
  else if String.eqb status PendingStatusApproved then 1 else 2.

Lemma rank_le s : rank s ≤ 2.
Proof. unfold rank. destruct (String.eqb s _); [lia|]. destruct (String.eqb s _); lia. Qed.

(** A row keeps its identity and its call; a decided row loses its key. *)
Definition row_le (r r' : row) : Prop :=
  PaID (row_action r') = PaID (row_action r) ∧ call_of (row_action r') = call_of (row_action r) ∧
  (r' = r ∨ (rank (PaStatus (row_action r)) < rank (PaStatus (row_action r')) ∧ pending_key r' = None)).

Definition table_le (t t' : table) : Prop := ∀ id r, t !! id = Some r → ∃ r', t' !! id = Some r' ∧ row_le r r'.

#[local] Instance row_le_preorder : PreOrder row_le.
Proof.
  split; [by intros r; split_and!; [..|left]|].
  intros a b c (Hi&Hc&H) (Hi'&Hc'&H'). split_and!; [congruence..|].
  destruct H as [->|[Hr Hk]]; [done|]. right. destruct H' as [->|[Hr' Hk']]; [done|]. split; [lia|done].
Qed.

#[local] Instance table_le_preorder : PreOrder table_le.
Proof.
  split; [intros t id r H; by exists r|].
  intros a b c H H' id r Hr. destruct (H _ _ Hr) as (r'&Hr'&?). destruct (H' _ _ Hr') as (r''&?&?).
  exists r''. split; [done|by etrans].
Qed.

Lemma table_le_insert_new t id r : t !! id = None → table_le t (<[id := r]> t).
Proof. intros Hn id' r' H. exists r'. rewrite lookup_insert_ne by congruence. done. Qed.

Lemma row_le_decided now st by_ rc r :
  rank (PaStatus (row_action r)) < rank st → row_le r (decided now st by_ rc r).
Proof. intros H. split_and!; [done..|]. by right. Qed.

Lemma insert_pending_le a k t : table_le t (insert_pending a k t).1.
Proof.
  unfold insert_pending. destruct (t !! PaID a) eqn:E; [done|]. destruct (_ && _); [done|].
  by apply table_le_insert_new.
Qed.

Lemma update_where_le id cond f t :
  (∀ r, t !! id = Some r → cond r = true → row_le r (f r)) → table_le t (update_where id cond f t).1.
Proof.
  intros H. unfold update_where. destruct (t !! id) as [r|] eqn:E; [|done]. destruct (cond r) eqn:Hc; [|done].
  intros id' r' Hr'. simpl. destruct (decide (id' = id)) as [->|].
  - rewrite lookup_insert_eq. assert (r' = r) as -> by congruence. eauto.
  - exists r'. by rewrite lookup_insert_ne.
Qed.

Lemma attempt_le {A} o (f : table → table * A) t :
  table_le t (f t).1 → table_le t (attempt EDriver o f t).1.
Proof. destruct (attempt_state EDriver o f t) as [-> | ->]; [done|auto]. Qed.

Lemma affected_fst e p : (affected e p).1 = p.1.
Proof. by destruct p as [? [[]|]]. Qed.

Lemma SetPendingActionStatus_le o now id t :
  table_le t (SetPendingActionStatus o now id PendingStatusPending PendingStatusDenied t).1.
Proof.
  unfold SetPendingActionStatus. rewrite affected_fst. apply attempt_le, update_where_le.
  intros r _ Hs%String.eqb_eq. apply row_le_decided. by rewrite Hs.
Qed.

Lemma SetPendingActionApproved_le o now id by_ t : table_le t (SetPendingActionApproved o now id by_ t).1.
Proof.
  unfold SetPendingActionApproved. rewrite affected_fst. apply attempt_le, update_where_le.
  intros r _ [Hs%String.eqb_eq _]%andb_true_iff. apply row_le_decided. by rewrite Hs.
Qed.

Lemma ExpireGovernancePending_le o now t : table_le t (ExpireGovernancePending o now t).1.
Proof.
  apply attempt_le. intros id r Hr. simpl. unfold expire_rows. rewrite lookup_fmap, Hr. simpl.
  eexists. split; [done|]. destruct (expired now r) eqn:He; [|done].
  apply andb_true_iff in He as [Hs%String.eqb_eq _]. apply row_le_decided. by rewrite Hs.
Qed.

Lemma consume_le now c t : table_le t (consume now c t).1.
Proof.
  unfold consume. destruct (oldest _ _) as [r|]; [|done].
  pose proof (update_where_le (PaID (row_action r)) (λ r, String.eqb (PaStatus (row_action r)) PendingStatusApproved)
    (keep_meta now PendingStatusConsumed) t) as H.
  destruct (update_where _ _ _ t) as [t' []]; simpl in *; apply H;
    intros r' _ Hs%String.eqb_eq; apply row_le_decided; by rewrite Hs.
Qed.

Lemma ConsumeApprovedAction_le o now a b c g d e f t :
  table_le t (ConsumeApprovedAction o now a b c g d e f t).1.
Proof. unfold ConsumeApprovedAction. destruct (String.eqb _ _); [done|]. apply attempt_le, consume_le. Qed.

Lemma gstep_le w w' : gstep w w' → table_le (g_table w) (g_table w').
Proof.
  destruct 1 as [w o a _ _|w o now id|w o now|w o now id by_|w o now a b c g d e f t H|w o now a b c g d e f t id H _];
    simpl.
  - apply attempt_le, insert_pending_le.
  - apply SetPendingActionStatus_le.
  - apply ExpireGovernancePending_le.
  - apply SetPendingActionApproved_le.
  - pose proof (ConsumeApprovedAction_le o now a b c g d e f (g_table w)) as Hle.
    destruct H as [H|[? H]]; by rewrite H in Hle.
  - pose proof (ConsumeApprovedAction_le o now a b c g d e f (g_table w)) as Hle. by rewrite H in Hle.
Qed.

Lemma gsteps_le w w' : rtc gstep w w' → table_le (g_table w) (g_table w').
Proof. induction 1; [done|]. etrans; [by apply gstep_le|done]. Qed.

(** ** The invariant *)

Definition status (r : row) : string := PaStatus (row_action r).

(** A row by itself: its id, and a key exactly while it is open. *)
Definition row_ok (id : string) (r : row) : Prop :=
  (PaID (row_action r) = id ∧ id ≠ "") ∧
  pending_key r = (if String.eqb (status r) PendingStatusPending then Some (key (call_of (row_action r))) else None).

Definition decided_for (st : string) : Prop := st = PendingStatusApproved ∨ st = PendingStatusConsumed.

Record ginv (w : gworld) : Prop := {
  gi_rows id r : g_table w !! id = Some r → row_ok id r;
  gi_unique id id' r r' k :
    g_table w !! id = Some r → g_table w !! id' = Some r' → pending_key r = Some k → pending_key r' = Some k → id = id';
  gi_approved id r : g_table w !! id = Some r → decided_for (status r) → (id, call_of (row_action r)) ∈ g_approved w;
  gi_once : NoDup (g_approved w).*1;
  gi_decided id c : (id, c) ∈ g_approved w → ∃ r, g_table w !! id = Some r ∧ call_of (row_action r) = c ∧ decided_for (status r);
  gi_authorized id c : (id, c) ∈ g_authorized w →
    ∃ r, g_table w !! id = Some r ∧ call_of (row_action r) = c ∧ status r = PendingStatusConsumed ∧ CallEmbedded c = false;
  gi_burned : NoDup (g_authorized w).*1
}.

(** What a change of single rows keeps: no new key, nothing newly approved, and
    what was decided or burned stays so. *)
Record quiet (t t' : table) : Prop := {
  q_rows : ∀ id r', t' !! id = Some r' → row_ok id r';
  q_keys : ∀ id r' k, t' !! id = Some r' → pending_key r' = Some k → ∃ r, t !! id = Some r ∧ pending_key r = Some k;
  q_from : ∀ id r', t' !! id = Some r' → decided_for (status r') →
    ∃ r, t !! id = Some r ∧ call_of (row_action r) = call_of (row_action r') ∧ decided_for (status r);
  q_keep : ∀ id r, t !! id = Some r → decided_for (status r) →
    ∃ r', t' !! id = Some r' ∧ call_of (row_action r') = call_of (row_action r) ∧ decided_for (status r') ∧
      (status r = PendingStatusConsumed → status r' = PendingStatusConsumed)
}.

Lemma ginv_quiet w t : ginv w → quiet (g_table w) t → ginv (on_table w t).
Proof.
  intros [Hr Hu Ha Ho Hd Hz Hb] [Qr Qk Qf Qp]. split; simpl; [done| | |done| | |done].
  - intros id id' r r' k H1 H2 K1 K2. destruct (Qk _ _ _ H1 K1) as (?&?&?), (Qk _ _ _ H2 K2) as (?&?&?). eauto.
  - intros id r H Hs. destruct (Qf _ _ H Hs) as (r0&H0&<-&?). eauto.
  - intros id c Hin. destruct (Hd _ _ Hin) as (r&H&<-&Hs). destruct (Qp _ _ H Hs) as (r'&?&?&?&_). eauto.
  - intros id c Hin. destruct (Hz _ _ Hin) as (r&H&<-&Hs&?). destruct (Qp _ _ H) as (r'&?&?&?&?); [by right|].
    exists r'. auto.
Qed.

(** One statement on one row: nothing, a denial, or the use of an approval. *)
Definition advance (r r' : row) : Prop :=
  r' = r ∨ ∃ now st by_ rc, r' = decided now st by_ rc r ∧
    ((status r = PendingStatusPending ∧ st = PendingStatusDenied) ∨
     (status r = PendingStatusApproved ∧ st = PendingStatusConsumed)).

Lemma quiet_advance w t :
  ginv w → (∀ id, option_Forall2 advance (g_table w !! id) (t !! id)) → quiet (g_table w) t.
Proof.
  intros Hi Ht.
  assert (Hback : ∀ id r', t !! id = Some r' → ∃ r, g_table w !! id = Some r ∧ advance r r').
  { intros id r' H. specialize (Ht id). rewrite H in Ht. inversion Ht; eauto. }
  split.
  - intros id r' H. destruct (Hback _ _ H) as (r&H0&Ha). pose proof (gi_rows _ Hi _ _ H0) as Hr.
    destruct Ha as [->|(now&st&by_&rc&->&Hst)]; [done|]. destruct Hr as [Hid _]. split; [done|].
    unfold status. simpl. destruct Hst as [[_ ->]|[_ ->]]; done.
  - intros id r' k H Hk. destruct (Hback _ _ H) as (r&H0&[->|(?&?&?&?&->&_)]); [eauto|done].
  - intros id r' H Hs. destruct (Hback _ _ H) as (r&H0&[->|(?&st&?&?&->&Hst)]); exists r; [done|].
    split_and!; [done..|]. destruct Hst as [[_ ->]|[-> _]]; [|by left]. by destruct Hs.
  - intros id r H Hs. specialize (Ht id). rewrite H in Ht. inversion Ht as [r0 r' Ha E1 E2|]; subst.
    exists r'. split; [done|]. destruct Ha as [->|(?&st&?&?&->&Hst)]; [done|].
    split; [done|]. destruct Hst as [[Hp _]|[_ ->]]; [rewrite Hp in Hs; by destruct Hs|].
    split; [by right|done].
Qed.

Lemma advance_refl (o : option row) : option_Forall2 advance o o.
Proof. destruct o; constructor. by left. Qed.

Lemma advance_where t id cond f id' :
  (∀ r, t !! id = Some r → cond r = true → advance r (f r)) →
  option_Forall2 advance (t !! id') ((update_where id cond f t).1 !! id').
Proof.
  intros H. unfold update_where. destruct (t !! id) as [r|] eqn:E; [|apply advance_refl].
  destruct (cond r) eqn:Hc; [|apply advance_refl]. simpl. destruct (decide (id' = id)) as [->|].
  - rewrite lookup_insert_eq, E. constructor. auto.
  - rewrite lookup_insert_ne by done. apply advance_refl.
Qed.

Lemma advance_attempt {A} o (f : table → table * A) t :
  (∀ id, option_Forall2 advance (t !! id) ((f t).1 !! id)) →
  ∀ id, option_Forall2 advance (t !! id) ((attempt EDriver o f t).1 !! id).
Proof. destruct (attempt_state EDriver o f t) as [-> | ->]; [intros; apply advance_refl|done]. Qed.

Lemma consume_advance now c t id : option_Forall2 advance (t !! id) ((consume now c t).1 !! id).
Proof.
  unfold consume. destruct (oldest _ _) as [r|]; [|apply advance_refl].
  pose proof (advance_where t (PaID (row_action r)) (λ r, String.eqb (PaStatus (row_action r)) PendingStatusApproved)
    (keep_meta now PendingStatusConsumed) id) as H.
  destruct (update_where _ _ _ t) as [t' []]; simpl in *; apply H;
    intros r' _ Hs%String.eqb_eq; right; do 4 eexists; (split; [done|]); by right.
Qed.

Lemma Consume_advance o now a b c g d e f t id :
  option_Forall2 advance (t !! id) ((ConsumeApprovedAction o now a b c g d e f t).1 !! id).
Proof.
  unfold ConsumeApprovedAction. destruct (String.eqb _ _); [apply advance_refl|].
  revert id. apply advance_attempt. intros. apply consume_advance.
Qed.

(** What an authorized call found. *)
Lemma Consume_ok o now tn ag rn g cn tl dg t t' id :
  (∀ i r, t !! i = Some r → PaID (row_action r) = i) →
  ConsumeApprovedAction o now tn ag rn g cn tl dg t = (t', Ok id) → id ≠ "" →
  ∃ r, t !! id = Some r ∧ status r = PendingStatusApproved ∧ call_of (row_action r) = capability tn ag rn g cn tl dg ∧
    t' = <[id := keep_meta now PendingStatusConsumed r]> t.
Proof.
  intros Hids. unfold ConsumeApprovedAction. destruct (String.eqb _ _); [congruence|].
  intros Hc%attempt_ok Hne. revert Hc. unfold consume.
  destruct (oldest _ _) as [r|] eqn:Ho; [|congruence].
  assert (Hin : r ∈ (map_to_list t).*2 ∧ open_for (capability tn ag rn g cn tl dg) PendingStatusApproved r = true).
  { unfold oldest in Ho. apply head_Some_elem_of in Ho. rewrite sort_by_perm in Ho.
    by apply list_elem_of_filter in Ho as [? ?]. }
  destruct Hin as [Hin [Hcall%bool_decide_eq_true Hst%String.eqb_eq]%andb_true_iff].
  apply list_elem_of_fmap in Hin as ([i r0]&Hr0&Hin). simpl in Hr0. subst r0. apply elem_of_map_to_list in Hin.
  rewrite (Hids _ _ Hin). unfold update_where. rewrite Hin, (proj2 (String.eqb_eq _ _) Hst).
  intros [= <- <-]. exists r. done.
Qed.

Lemma ginv_insert w a :
  ginv w → PaStatus a = PendingStatusPending → PaID a ≠ "" →
  ginv (on_table w (insert_pending a (Some (key (call_of a))) (g_table w)).1).
Proof.
  intros Hi Hp Hne. unfold insert_pending. destruct (g_table w !! PaID a) as [r0|] eqn:E; [by destruct w|].
  destruct (_ && _) eqn:Hc; [by destruct w|]. simpl.
  apply andb_false_iff in Hc as [Hc%bool_decide_eq_false|Hc%bool_decide_eq_false]; [by destruct Hc|].
  assert (Hfree : ∀ id r, g_table w !! id = Some r → pending_key r ≠ Some (key (call_of a))).
  { intros id r H Hk. apply Hc, Exists_exists. exists r. split; [|done].
    apply list_elem_of_In, list_elem_of_fmap. exists (id, r). split; [done|]. by apply elem_of_map_to_list. }
  destruct Hi as [Hr Hu Ha Ho Hd Hz Hb]. split; simpl; [| | |done| | |done].
  - intros id r [[<- <-]|[? H]]%lookup_insert_Some; [|eauto]. split; [done|]. unfold status. simpl. by rewrite Hp.
  - intros id id' r r' k [[<- <-]|[? H]]%lookup_insert_Some [[<- <-]|[? H']]%lookup_insert_Some K K'; [done|..|eauto].
    + simpl in K. by destruct (Hfree _ _ H'); congruence.
    + simpl in K'. by destruct (Hfree _ _ H); congruence.
  - intros id r [[<- <-]|[? H]]%lookup_insert_Some Hs; [|eauto].
    unfold status in Hs. simpl in Hs. rewrite Hp in Hs. by destruct Hs.
  - intros id c Hin. destruct (Hd _ _ Hin) as (r&H&?). exists r. by rewrite lookup_insert_ne by congruence.
  - intros id c Hin. destruct (Hz _ _ Hin) as (r&H&?). exists r. by rewrite lookup_insert_ne by congruence.
Qed.

Lemma ginv_approve w o now id by_ :
  ginv w → ginv (mkG (SetPendingActionApproved o now id by_ (g_table w)).1
                   (newly_approved o now id (g_table w) ++ g_approved w) (g_authorized w)).
Proof.
  intros Hi. unfold SetPendingActionApproved, newly_approved. rewrite affected_fst.
  destruct (g_table w !! id) as [r|] eqn:E; [|unfold update_where; destruct o; simpl; rewrite ?E; by destruct w].
  destruct (approvable now r) eqn:Hap; [|unfold update_where; destruct o; simpl; rewrite ?E, ?Hap; by destruct w].
  assert (Hst : status r = PendingStatusPending) by (by apply andb_true_iff in Hap as [?%String.eqb_eq _]).
  assert (Hnd : ∀ c, (id, c) ∉ g_approved w).
  { intros c Hin. destruct (gi_decided _ Hi _ _ Hin) as (r'&H&_&[Hs|Hs]); assert (r' = r) as -> by congruence;
      rewrite Hst in Hs; done. }
  assert (Hgo : ginv (mkG (<[id := decided now PendingStatusApproved by_ (PaReasonCode (row_action r)) r]> (g_table w))
                        ((id, call_of (row_action r)) :: g_approved w) (g_authorized w))).
  { destruct Hi as [Hr Hu Ha Ho Hd Hz Hb]. split; simpl; [| | | | | |done].
    - intros id' r' [[<- <-]|[? H]]%lookup_insert_Some; [|eauto]. split; [by apply (Hr _ _ E)|done].
    - intros id1 id2 r1 r2 k [[<- <-]|[? H]]%lookup_insert_Some [[<- <-]|[? H']]%lookup_insert_Some K K'; [done..|eauto].
    - intros id' r' [[<- <-]|[? H]]%lookup_insert_Some Hs; [by left|right; eauto].
    - constructor; [|done]. intros ((?&c)&->&Hin)%list_elem_of_fmap. by destruct (Hnd c).
    - intros id' c [[= -> ->]|Hin]%elem_of_cons.
      + eexists. rewrite lookup_insert_eq. split_and!; [done..|by left].
      + destruct (Hd _ _ Hin) as (r'&H&?). exists r'. rewrite lookup_insert_ne; [done|]. intros ->. by destruct (Hnd c).
    - intros id' c Hin. destruct (Hz _ _ Hin) as (r'&H&?&Hs&?). exists r'. rewrite lookup_insert_ne; [done|].
      intros ->. assert (r' = r) as -> by congruence. rewrite Hst in Hs. done. }
  unfold update_where. destruct o; simpl; rewrite ?E, ?Hap; simpl; [done|done|by destruct w].
Qed.

Lemma ginv_authorize w o now tn ag rn g cn tl dg t id :
  ginv w → ConsumeApprovedAction o now tn ag rn g cn tl dg (g_table w) = (t, Ok id) → id ≠ "" →
  ginv (mkG t (g_approved w) ((id, capability tn ag rn g cn tl dg) :: g_authorized w)).
Proof.
  intros Hi Hc Hne. pose proof Hc as Hc'.
  apply Consume_ok in Hc as (r&H&Hs&Hcall&->); [|intros i r' Hr'; by apply (gi_rows _ Hi _ _ Hr')|done].
  assert (Hq : ginv (on_table w (<[id := keep_meta now PendingStatusConsumed r]> (g_table w)))).
  { apply ginv_quiet; [done|]. apply quiet_advance; [done|]. intros i.
    pose proof (Consume_advance o now tn ag rn g cn tl dg (g_table w) i) as Ha. by rewrite Hc' in Ha. }
  assert (Hfresh : id ∉ (g_authorized w).*1).
  { intros ((?&c)&->&Hin)%list_elem_of_fmap. simpl in *. destruct (gi_authorized _ Hi _ _ Hin) as (r'&H'&_&Hs'&_).
    assert (r' = r) as -> by congruence. rewrite Hs in Hs'. done. }
  destruct Hq as [Hr Hu Ha Ho Hd Hz Hb]. split; simpl in *; [done..| |by constructor].
  intros i c [[= -> ->]|Hin]%elem_of_cons; [|eauto].
  eexists. rewrite lookup_insert_eq. split_and!; [done..|]. done.
Qed.

Lemma ginv_step w w' : ginv w → gstep w w' → ginv w'.
Proof.
  intros Hi. destruct 1 as [w o a Hp Hne|w o now id|w o now|w o now id by_|w o now a b c g d e f t H|w o now a b c g d e f t id H Hne].
  - destruct (attempt_state EDriver o (insert_pending a (Some (key (call_of a)))) (g_table w)) as [-> | ->];
      [by destruct w|by apply ginv_insert].
  - apply ginv_quiet, quiet_advance; [done..|]. unfold SetPendingActionStatus. rewrite affected_fst.
    apply advance_attempt. intros i. apply advance_where. intros r _ Hs%String.eqb_eq.
    right. do 4 eexists. split; [done|]. by left.
  - apply ginv_quiet, quiet_advance; [done..|]. apply advance_attempt. intros i. simpl. unfold expire_rows.
    rewrite lookup_fmap. destruct (g_table w !! i) as [r|]; simpl; constructor.
    destruct (expired now r) eqn:He; [|by left]. apply andb_true_iff in He as [Hs%String.eqb_eq _].
    right. do 4 eexists. split; [done|]. by left.
  - by apply ginv_approve.
  - apply ginv_quiet, quiet_advance; [done..|]. intros i.
    pose proof (Consume_advance o now a b c g d e f (g_table w) i) as Ha. by destruct H as [H|[? H]]; rewrite H in Ha.
  - by eapply ginv_authorize.
Qed.

Lemma ginv_init : ginv g_init.
Proof.
  split; simpl; try apply NoDup_nil_2; try (by intros * Hin%not_elem_of_nil); intros; simplify_map_eq.
Qed.

Lemma ginv_reachable w : g_reachable w → ginv w.
Proof. intros H. unfold g_reachable in H. assert (Hi := ginv_init). induction H; eauto using ginv_step. Qed.

(** ** What approvals guarantee *)

(** C8. An approval authorizes one call: over every interleaving of creations,
    decisions, expiries and uses by any number of control planes, with lost
    replies, each row lets at most one tool call through, an operator approved
    that row first, the call is exactly the approved one (tenant, agent, run,
    generation, connector, tool and argument digest), and a row of the embedded
    endpoint never authorizes a connector call. *)
Theorem approval_authorizes_once w :
  g_reachable w →
  NoDup (g_authorized w).*1 ∧
  ∀ id c, (id, c) ∈ g_authorized w → (id, c) ∈ g_approved w ∧ CallEmbedded c = false.
Proof.
  intros Hw%ginv_reachable. split; [by apply gi_burned|]. intros id c Hin.
  destruct (gi_authorized _ Hw _ _ Hin) as (r&Hr&<-&Hs&He). split; [|done]. apply (gi_approved _ Hw _ _ Hr). by right.
Qed.

(** A denied or expired action never authorizes a call afterwards, and it
    cannot be approved any more. *)
Theorem denied_is_final w w' id r :
  g_reachable w → g_table w !! id = Some r → PaStatus (row_action r) = PendingStatusDenied → rtc gstep w w' →
  id ∉ (g_authorized w').*1 ∧ id ∉ (g_approved w').*1.
Proof.
  intros Hw Hr Hs Hww. pose proof (ginv_reachable w' (transitivity Hw Hww)) as Hi'.
  destruct (gsteps_le _ _ Hww _ _ Hr) as (r'&Hr'&_&_&[->|[Hrk _]]).
  2: { rewrite Hs in Hrk. change (rank PendingStatusDenied) with 2 in Hrk.
       pose proof (rank_le (PaStatus (row_action r'))). lia. }
  split; intros ((i&c)&->&Hin)%list_elem_of_fmap; simpl in *.
  - destruct (gi_authorized _ Hi' _ _ Hin) as (r1&H1&_&H2&_).
    assert (r1 = r) as -> by congruence. unfold status in H2. by rewrite Hs in H2.
  - destruct (gi_decided _ Hi' _ _ Hin) as (r1&H1&_&H2).
    assert (r1 = r) as -> by congruence. unfold decided_for, status in H2. rewrite Hs in H2. by destruct H2.
Qed.

(** There is at most one open approval per call, however many callers ask for
    it at the same time. *)
Theorem one_open_approval_per_call w id id' r r' :
  g_reachable w → g_table w !! id = Some r → g_table w !! id' = Some r' →
  PaStatus (row_action r) = PendingStatusPending → PaStatus (row_action r') = PendingStatusPending →
  call_of (row_action r) = call_of (row_action r') → id = id'.
Proof.
  intros Hw%ginv_reachable Hr Hr' Hs Hs' Hc.
  destruct (gi_rows _ Hw _ _ Hr) as [_ Hk], (gi_rows _ Hw _ _ Hr') as [_ Hk'].
  unfold status in *. rewrite Hs in Hk. rewrite Hs', <- Hc in Hk'. exact (gi_unique _ Hw _ _ _ _ _ Hr Hr' Hk Hk').
Qed.

(** An approval comes before the expiry: an embedded action whose row was
    approved at [now] had not expired, and once its expiry has passed no approval
    changes the table. *)
Theorem approval_before_expiry o now id by_ t e r :
  t !! id = Some r → PaExpiresAt (row_action r) = Some e →
  ((SetPendingActionApproved o now id by_ t).2 = Ok tt → now < e) ∧
  (e ≤ now → (SetPendingActionApproved o now id by_ t).1 = t).
Proof.
  intros Hr He.
  assert (Hlt : approvable now r = true → now < e).
  { intros [_ H]%andb_true_iff. unfold expiry in H. rewrite He in H. simpl in H. apply Z.ltb_lt in H.
    unfold formatExpiry in H. pose proof (sec_bounds now). pose proof (sec_bounds e). unfold second in *. nia. }
  unfold SetPendingActionApproved. rewrite affected_fst. unfold update_where. split.
  - destruct o; simpl; [|done..]. rewrite Hr. destruct (approvable now r); [by auto|done].
  - intros Hle. destruct (approvable now r) eqn:Ha; [specialize (Hlt eq_refl); lia|].
    destruct o; simpl; rewrite ?Hr, ?Ha; done.
Qed.

Lemma oldest_Some test t r : oldest test t = Some r → test r = true ∧ ∃ id, t !! id = Some r.
Proof.
  intros Ho%head_Some_elem_of. rewrite sort_by_perm in Ho. apply list_elem_of_filter in Ho as [Ht Hin].
  split; [done|]. apply list_elem_of_fmap in Hin as ([id r0]&->&Hin%elem_of_map_to_list). by exists id.
Qed.

Lemma FindOpen_row w o c a :
  ginv w → FindOpenPendingAction o c (g_table w) = Ok (Some a) →
  ∃ r, g_table w !! PaID a = Some r ∧ call_of (row_action r) = c.
Proof.
  intros Hi. destruct o; simpl; [|done..]. intros [= Hf]. apply fmap_Some in Hf as (r&Ho&->). apply oldest_Some in Ho as [Ht [id Hid]].
  apply andb_true_iff in Ht as [Hc%bool_decide_eq_true _]. destruct (gi_rows _ Hi _ _ Hid) as [[-> _] _]. by exists r.
Qed.

(** Creating an approval is a sequence of the interleaved steps, whatever the
    other callers do between its statements (they do not draw its random id), and
    the id it returns is a row for exactly the requested call, its own or the one
    already open. *)
Theorem CreatePendingAction_returns_row o1 o2 o3 o4 between now a w t id :
  g_reachable w →
  (∀ i w, g_reachable w → ∃ w', rtc gstep w w' ∧ g_table w' = between i (g_table w)) →
  (∀ i t, t !! PaID a = None → between i t !! PaID a = None) →
  PaStatus a = PendingStatusPending → PaID a ≠ "" →
  CreatePendingAction key o1 o2 o3 o4 between now a (g_table w) = (t, Ok id) →
  ∃ w' r, rtc gstep w w' ∧ g_table w' = t ∧ t !! id = Some r ∧ call_of (row_action r) = call_of a.
Proof.
  intros Hw Henv Hfresh Hs Hid. unfold g_reachable in *. unfold CreatePendingAction.
  assert (Hst : PaStatus (stamp_pending now a) = PendingStatusPending) by (simpl; by rewrite Hs).
  change (PaID a) with (PaID (stamp_pending now a)) in Hfresh, Hid.
  change (call_of a) with (call_of (stamp_pending now a)). set (a' := stamp_pending now a) in *. clearbody a'.
  rewrite Hst. simpl.
  destruct (FindOpenPendingAction o1 _ _) as [[ex|]|] eqn:Hf; [..|done].
  { intros [= <- <-]. apply FindOpen_row in Hf as (r&?&?); [|by apply ginv_reachable]. exists w, r. by split. }
  destruct (Henv 0%nat w Hw) as (w1&H1&<-).
  pose proof (gs_insert w1 o2 a' Hst Hid) as Hstep.
  destruct (attempt EDriver o2 _ (g_table w1)) as [t2 [[]|]] eqn:Ha; [|done..]. simpl in Hstep.
  set (w2 := on_table w1 t2) in *. assert (Hw2 : g_reachable w2).
  { unfold g_reachable. etrans; [exact Hw|]. etrans; [exact H1|]. by apply rtc_once. }
  destruct (Henv 1%nat w2 Hw2) as (w3&H3&E3). change (g_table w2) with t2 in E3. rewrite <- E3.
  assert (Hw3 : rtc gstep w w3) by (etrans; [exact H1|]; etrans; [by apply rtc_once|done]).
  destruct (FindOpenPendingAction o3 _ _) as [[ex|]|] eqn:Hf3; [..|done].
  { intros [= <- <-]. apply FindOpen_row in Hf3 as (r&?&?); [|apply ginv_reachable; unfold g_reachable; by etrans]. exists w3, r. by split. }
  assert (Hr3 : rtc gstep g_init w3) by (by etrans).
  destruct (Henv 2%nat w3 Hr3) as (w4&H4&E4). rewrite <- E4.
  destruct (GetPendingAction o4 (PaID a') (g_table w4)) as [b|] eqn:Hg; [|done]. intros [= <- <-].
  destruct o4; simpl in Hg; [|done..]. destruct (g_table w4 !! PaID a') as [r|] eqn:Hr; [|done].
  exists w4, r. split; [by etrans|]. split_and!; [done..|].
  assert (Hr2 : t2 !! PaID a' = None ∨ ∃ r2, t2 !! PaID a' = Some r2 ∧ call_of (row_action r2) = call_of a').
  { apply attempt_ok in Ha. unfold insert_pending in Ha. destruct (g_table w1 !! PaID a') eqn:E; [done|].
    destruct (_ && _); injection Ha as <-; [by left|]. right. eexists. rewrite lookup_insert_eq. by split. }
  destruct Hr2 as [Hn|(r2&Hr2&Hc2)]; [by rewrite E4, E3, Hfresh in Hr by auto|].
  destruct (gsteps_le w2 w4 (transitivity H3 H4) _ _ Hr2) as (r4&Hr4&_&Hc4&_). congruence.
Qed.
End steps.
