(* ===== verification/JsonNumber.v ===== *)
(** * Exact JSON numbers

    Models [internal/jsonvalue/{jsonvalue,compare}.go]: JSON number tokens are
    compared and canonicalized as exact decimals, on their digit strings, without
    expanding exponents.  A Go string is a [list ascii] here.

    The specification is the rational number a token denotes. *)

From S2P Require Import Prelude.
From Stdlib Require Import Ascii.
Local Open Scope char_scope.
Local Open Scope Z_scope.

(** ** Digits *)

Definition is_digit (c : ascii) : bool :=
  let n := N_of_ascii c in (48 <=? n)%N && (n <=? 57)%N.

Definition dval (c : ascii) : Z := Z.of_N (N_of_ascii c) - 48.

Definition dchr (d : Z) : ascii := ascii_of_N (Z.to_N (d + 48)).

Definition digits (l : list ascii) : Prop := Forall (λ c, is_digit c = true) l.

(** The number a digit string spells. *)
Definition num (l : list ascii) : Z := fold_left (λ acc c, 10 * acc + dval c) l 0.

(** ** The token grammar

    [json.Valid] on a token that starts with a minus or a digit and has no
    surrounding space: the decomposition is (negative, integer digits, fraction
    digits, exponent text). *)

Fixpoint span_digits (l : list ascii) : list ascii * list ascii :=
  match l with
  | c :: l' => if is_digit c then let '(a, b) := span_digits l' in (c :: a, b) else ([], l)
  | [] => ([], [])
  end.

Definition parse_int (l : list ascii) : option (list ascii * list ascii) :=
  match l with
  | "0" :: l' => Some (["0"], l')
  | c :: _ => if is_digit c then Some (span_digits l) else None
  | [] => None
  end.

Definition parse_frac (l : list ascii) : option (option (list ascii) * list ascii) :=
  match l with
  | "." :: l' => let '(f, r) := span_digits l' in
                 match f with [] => None | _ => Some (Some f, r) end
  | _ => Some (None, l)
  end.

(** [e[+-]digits] up to the end; the exponent keeps its sign character. *)
Definition parse_exp (l : list ascii) : option (option (ascii * list ascii)) :=
  match l with
  | [] => Some None
  | c :: l' =>
      if Ascii.eqb c "e" || Ascii.eqb c "E" then
        let body := match l' with
                    | "+" :: b => b
                    | "-" :: b => b
                    | _ => l'
                    end in
        let '(d, r) := span_digits body in
        match d, r with _ :: _, [] => Some (Some (c, l')) | _, _ => None end
      else None
  end.

Record token_parts := mkParts {
  tp_neg : bool;
  tp_int : list ascii;
  tp_frac : option (list ascii);
  tp_exp : option (ascii * list ascii)
}.

Definition parse_number (l : list ascii) : option token_parts :=
  let '(neg, l1) := match l with "-" :: l' => (true, l') | _ => (false, l) end in
  match parse_int l1 with
  | None => None
  | Some (i, l2) =>
      match parse_frac l2 with
      | None => None
      | Some (f, l3) =>
          match parse_exp l3 with
          | None => None
          | Some e => Some (mkParts neg i f e)
          end
      end
  end.

Definition valid_number (l : list ascii) : bool :=
  match parse_number l with Some _ => true | None => false end.

(** ** The code *)

Fixpoint TrimLeft0 (l : list ascii) : list ascii :=
  match l with
  | c :: l' => if Ascii.eqb c "0" then TrimLeft0 l' else l
  | [] => []
  end.

Definition TrimRight0 (l : list ascii) : list ascii := reverse (TrimLeft0 (reverse l)).

(** [strconv.Itoa] *)
Fixpoint itoa_loop (fuel : nat) (n : Z) : list ascii :=
  match fuel with
  | O => []
  | S fuel => dchr (n mod 10) :: (if n <? 10 then [] else itoa_loop fuel (n / 10))
  end.

Definition itoa_nat (n : Z) : list ascii := reverse (itoa_loop (S (Z.to_nat (Z.log2 n))) n).

Definition Itoa (z : Z) : list ascii := if z <? 0 then "-" :: itoa_nat (- z) else itoa_nat z.

(** [addDigits]: least significant digit first, [size + 1] output digits. *)
Definition head_val (l : list ascii) : Z := match l with c :: _ => dval c | [] => 0 end.

Fixpoint add_loop (k : nat) (a b : list ascii) (carry : Z) : list ascii :=
  match k with
  | O => []
  | S k => let value := carry + head_val a + head_val b in
           dchr (value mod 10) :: add_loop k (tail a) (tail b) (value / 10)
  end.

Definition addDigits (a b : list ascii) : list ascii :=
  TrimLeft0 (reverse (add_loop (S (Nat.max (length a) (length b))) (reverse a) (reverse b) 0)).

Fixpoint sub_loop (a b : list ascii) (borrow : Z) : list ascii :=
  match a with
  | [] => []
  | c :: a' =>
      let value := dval c - borrow - head_val b in
      if value <? 0 then dchr (value + 10) :: sub_loop a' (tail b) 1
      else dchr value :: sub_loop a' (tail b) 0
  end.

Definition subtractDigits (a b : list ascii) : list ascii :=
  match TrimLeft0 (reverse (sub_loop (reverse a) (reverse b) 0)) with
  | [] => ["0"]
  | v => v
  end.

(** Go's [<] on strings: byte by byte. *)
Fixpoint str_lt (a b : list ascii) : bool :=
  match a, b with
  | _, [] => false
  | [], _ :: _ => true
  | x :: a', y :: b' =>
      if (N_of_ascii x <? N_of_ascii y)%N then true
      else if (N_of_ascii y <? N_of_ascii x)%N then false else str_lt a' b'
  end.

Definition str_ge (a b : list ascii) : bool := negb (str_lt a b).

Definition shiftExponent (exponent : list ascii) (shift : Z) : list ascii :=
  let negative := match exponent with "-" :: _ => true | _ => false end in
  let exponent := match exponent with "-" :: e => e | "+" :: e => e | e => e end in
  let exponent := TrimLeft0 exponent in
  match exponent with
  | [] => Itoa shift
  | _ =>
      let '(negative, exponent) :=
        if negb (shift =? 0) then
          let shiftNegative := shift <? 0 in
          let magnitude := Itoa (if shiftNegative then - shift else shift) in
          if Bool.eqb negative shiftNegative then (negative, addDigits exponent magnitude)
          else if (length magnitude <? length exponent)%nat
                  || ((length exponent =? length magnitude)%nat && str_ge exponent magnitude)
          then (negative, subtractDigits exponent magnitude)
          else (shiftNegative, subtractDigits magnitude exponent)
        else (negative, exponent) in
      if list_eq_dec Ascii.ascii_dec exponent ["0"] then ["0"]
      else if negative then "-" :: exponent else exponent
  end.

(** [strings.Index] and the slices around it. *)
Fixpoint cut (p : ascii → bool) (l : list ascii) : option (list ascii * list ascii) :=
  match l with
  | [] => None
  | c :: l' => if p c then Some ([], l')
               else match cut p l' with
                    | Some (a, b) => Some (c :: a, b)
                    | None => None
                    end
  end.

Definition is_e (c : ascii) : bool := Ascii.eqb c "e" || Ascii.eqb c "E".
Definition is_dot (c : ascii) : bool := Ascii.eqb c ".".

Definition numberParts (raw : list ascii) : option (bool * list ascii * list ascii) :=
  if negb (valid_number raw) then None
  else
    let negative := match raw with "-" :: _ => true | _ => false end in
    let raw := match raw with "-" :: r => r | r => r end in
    let '(exponent, raw) := match cut is_e raw with
                            | Some (a, b) => (b, a)
                            | None => (["0"], raw)
                            end in
    let '(fraction, raw) := match cut is_dot raw with
                            | Some (a, b) => (Z.of_nat (length b), a ++ b)
                            | None => (0, raw)
                            end in
    let coefficient := TrimLeft0 raw in
    match coefficient with
    | [] => Some (false, ["0"], ["0"])
    | _ =>
        let trimmed := TrimRight0 coefficient in
        let shift := Z.of_nat (length coefficient) - Z.of_nat (length trimmed) - fraction in
        Some (negative, trimmed, shiftExponent exponent shift)
    end.

Definition str_eqb (a b : list ascii) : bool := bool_decide (a = b).

Definition EqualNumbers (a b : list ascii) : bool :=
  match numberParts a, numberParts b with
  | Some (an, ac, ae), Some (bn, bc, be) => Bool.eqb an bn && str_eqb ac bc && str_eqb ae be
  | _, _ => false
  end.

Definition CanonicalNumber (number : list ascii) : option (list ascii) :=
  match numberParts number with
  | None => None
  | Some (negative, coefficient, exponent) =>
      let coefficient := if negative then "-" :: coefficient else coefficient in
      Some (if str_eqb exponent ["0"] then coefficient else coefficient ++ "e" :: exponent)
  end.

Definition compareExponent (a b : list ascii) : Z :=
  let an := match a with "-" :: _ => true | _ => false end in
  let bn := match b with "-" :: _ => true | _ => false end in
  if negb (Bool.eqb an bn) then (if an then -1 else 1)
  else
    let a := if an then tail a else a in
    let b := if an then tail b else b in
    let order :=
      if (length b <? length a)%nat || ((length a =? length b)%nat && str_lt b a) then 1
      else if (length a <? length b)%nat || ((length a =? length b)%nat && str_lt a b) then -1
      else 0 in
    if an then - order else order.

(** The digit loop of [CompareNumbers], the shorter string padded with zeros. *)
Fixpoint compare_digits (a b : list ascii) {struct a} : Z :=
  match a with
  | [] => (fix go b := match b with
                       | [] => 0
                       | y :: b' => if 48 <? Z.of_N (N_of_ascii y) then -1
                                    else if Z.of_N (N_of_ascii y) <? 48 then 1 else go b'
                       end) b
  | x :: a' =>
      let bd := match b with y :: _ => Z.of_N (N_of_ascii y) | [] => 48 end in
      let ad := Z.of_N (N_of_ascii x) in
      if ad <? bd then -1 else if bd <? ad then 1 else compare_digits a' (tail b)
  end.

Definition CompareNumbers (a b : list ascii) : option Z :=
  match numberParts a, numberParts b with
  | Some (an, ac, ae), Some (bn, bc, be) =>
      if str_eqb ac ["0"] && str_eqb bc ["0"] then Some 0
      else if negb (Bool.eqb an bn) then Some (if an then -1 else 1)
      else
        let order :=
          if str_eqb ac ["0"] then -1
          else if str_eqb bc ["0"] then 1
          else
            let o := compareExponent (shiftExponent ae (Z.of_nat (length ac)))
                                     (shiftExponent be (Z.of_nat (length bc))) in
            if o =? 0 then compare_digits ac bc else o in
        Some (if an then - order else order)
  | _, _ => None
  end.

(** ** Digit arithmetic is exact *)

Lemma dval_range c : is_digit c = true → 0 ≤ dval c ≤ 9.
Proof.
  unfold is_digit, dval. intros H. apply andb_true_iff in H as [H1 H2].
  apply N.leb_le in H1, H2. lia.
Qed.

Lemma dchr_digit d : 0 ≤ d ≤ 9 → is_digit (dchr d) = true ∧ dval (dchr d) = d.
Proof.
  intros H. unfold is_digit, dval, dchr. rewrite N_ascii_embedding by lia.
  split; [|lia]. apply andb_true_iff; split; apply N.leb_le; lia.
Qed.

Lemma digits_dval_inj c1 c2 : is_digit c1 = true → is_digit c2 = true → dval c1 = dval c2 → c1 = c2.
Proof.
  unfold dval. intros _ _ H. rewrite <- (ascii_N_embedding c1), <- (ascii_N_embedding c2). f_equal. lia.
Qed.

Lemma num_acc l acc : fold_left (λ acc c, 10 * acc + dval c) l acc = acc * 10 ^ Z.of_nat (length l) + num l.
Proof.
  unfold num. revert acc. induction l as [|c l IH]; intros acc; cbn [fold_left length]; [lia|].
  rewrite (IH (10 * acc + dval c)), (IH (10 * 0 + dval c)).
  rewrite Nat2Z.inj_succ, Z.pow_succ_r by lia. lia.
Qed.

Lemma num_cons c l : num (c :: l) = dval c * 10 ^ Z.of_nat (length l) + num l.
Proof. unfold num at 1. cbn [fold_left]. rewrite num_acc. lia. Qed.

Lemma num_app a b : num (a ++ b) = num a * 10 ^ Z.of_nat (length b) + num b.
Proof. unfold num at 1. rewrite fold_left_app. apply num_acc. Qed.

Lemma num_snoc a c : num (a ++ [c]) = 10 * num a + dval c.
Proof. rewrite num_app, num_cons. cbn. lia. Qed.

Lemma num_bounds l : digits l → 0 ≤ num l < 10 ^ Z.of_nat (length l).
Proof.
  induction l as [|c l IH]; intros H; [cbn; lia|]. apply list.Forall_cons in H as [Hc Hl].
  rewrite num_cons. cbn [length]. rewrite Nat2Z.inj_succ, Z.pow_succ_r by lia.
  pose proof (dval_range c Hc). specialize (IH Hl). nia.
Qed.

Lemma digits_reverse l : digits l → digits (reverse l).
Proof. unfold digits. by rewrite Forall_reverse. Qed.

Lemma rnum_cons c l : num (reverse (c :: l)) = dval c + 10 * num (reverse l).
Proof. rewrite reverse_cons, num_snoc. lia. Qed.

Lemma rnum_head l : num (reverse l) = head_val l + 10 * num (reverse (tail l)).
Proof. destruct l as [|c l]; [done|]. cbn [head_val tail]. apply rnum_cons. Qed.

Lemma head_val_range l : digits l → 0 ≤ head_val l ≤ 9.
Proof. intros H. destruct l as [|c l]; cbn; [lia|]. apply list.Forall_cons in H as [H _]. by apply dval_range. Qed.

Lemma digits_tail l : digits l → digits (tail l).
Proof. intros H. destruct l; [done|]. by apply list.Forall_cons in H as [_ ?]. Qed.

Lemma add_loop_spec k a b carry :
  digits a → digits b → 0 ≤ carry → carry + num (reverse a) + num (reverse b) < 10 ^ Z.of_nat k →
  digits (add_loop k a b carry) ∧
  num (reverse (add_loop k a b carry)) = carry + num (reverse a) + num (reverse b).
Proof.
  revert a b carry. induction k as [|k IH]; intros a b carry Ha Hb Hc Hlt.
  { pose proof (num_bounds _ (digits_reverse _ Ha)). pose proof (num_bounds _ (digits_reverse _ Hb)).
    cbn in Hlt. split; [constructor|]. cbn. lia. }
  rewrite Nat2Z.inj_succ, Z.pow_succ_r in Hlt by lia.
  rewrite (rnum_head a), (rnum_head b) in *. cbn [add_loop].
  pose proof (head_val_range a Ha). pose proof (head_val_range b Hb).
  set (value := carry + head_val a + head_val b) in *.
  pose proof (Z.div_mod value 10 ltac:(lia)). pose proof (Z.mod_pos_bound value 10 ltac:(lia)).
  destruct (dchr_digit (value mod 10) ltac:(lia)) as [Hd Hv].
  destruct (IH (tail a) (tail b) (value / 10)) as [IH1 IH2];
    [by apply digits_tail|by apply digits_tail|lia|lia|].
  split; [by constructor|]. rewrite rnum_cons, IH2, Hv. lia.
Qed.

Lemma sub_loop_spec a b borrow :
  digits a → digits b → 0 ≤ borrow ≤ 1 → num (reverse b) + borrow ≤ num (reverse a) →
  digits (sub_loop a b borrow) ∧
  num (reverse (sub_loop a b borrow)) = num (reverse a) - num (reverse b) - borrow.
Proof.
  revert b borrow. induction a as [|c a IH]; intros b borrow Ha Hb Hc Hle.
  { pose proof (num_bounds _ (digits_reverse _ Hb)). cbn in *. split; [constructor|lia]. }
  apply list.Forall_cons in Ha as [Hca Ha].
  rewrite rnum_cons, (rnum_head b) in *. pose proof (dval_range c Hca).
  pose proof (head_val_range b Hb). cbn [sub_loop].
  pose proof (num_bounds _ (digits_reverse _ (digits_tail _ Hb))).
  destruct (Z.ltb_spec (dval c - borrow - head_val b) 0).
  - destruct (dchr_digit (dval c - borrow - head_val b + 10) ltac:(lia)) as [Hd Hv].
    destruct (IH (tail b) 1) as [IH1 IH2]; [done|by apply digits_tail|lia|lia|].
    split; [by constructor|]. rewrite rnum_cons, IH2, Hv. lia.
  - destruct (dchr_digit (dval c - borrow - head_val b) ltac:(lia)) as [Hd Hv].
    destruct (IH (tail b) 0) as [IH1 IH2]; [done|by apply digits_tail|lia|lia|].
    split; [by constructor|]. rewrite rnum_cons, IH2, Hv. lia.
Qed.

(** ** Trimming zeros and canonical forms *)

Lemma TrimLeft0_spec l :
  num (TrimLeft0 l) = num l ∧ (digits l → digits (TrimLeft0 l)) ∧
  (∀ c l', TrimLeft0 l = c :: l' → c ≠ "0") ∧ (length (TrimLeft0 l) ≤ length l)%nat.
Proof.
  induction l as [|c l (H1 & H2 & H3 & H4)]; [done|]. cbn [TrimLeft0].
  destruct (Ascii.eqb_spec c "0") as [->|Hc].
  - split_and!; try done.
    + intros H. apply list.Forall_cons in H as [_ ?]. by apply H2.
    + cbn [length]. lia.
  - split_and!; try done. intros c' l' [= -> ->]. done.
Qed.

(** No superfluous leading zeros. *)
Definition canon (l : list ascii) : Prop :=
  digits l ∧ l ≠ [] ∧ (l = ["0"] ∨ ∀ c l', l = c :: l' → c ≠ "0").

Lemma dval_zero c : is_digit c = true → dval c = 0 → c = "0".
Proof. intros H1 H2. apply digits_dval_inj; done. Qed.

Lemma num_lead c l : digits (c :: l) → c ≠ "0" → 10 ^ Z.of_nat (length l) ≤ num (c :: l).
Proof.
  intros H Hc. apply list.Forall_cons in H as [Hd Hl]. rewrite num_cons.
  pose proof (num_bounds l Hl). pose proof (dval_range c Hd).
  assert (dval c ≠ 0) by (intros E; by apply dval_zero in E). nia.
Qed.

Lemma canon_zero l : canon l → num l = 0 → l = ["0"].
Proof.
  intros (Hd & Hne & [->|Hl]) Hn; [done|]. destruct l as [|c l]; [done|].
  pose proof (num_lead c l Hd (Hl _ _ eq_refl)). pose proof (Z.pow_pos_nonneg 10 (Z.of_nat (length l))). lia.
Qed.

Lemma num_inj_len a b : digits a → digits b → length a = length b → num a = num b → a = b.
Proof.
  revert b. induction a as [|x a IH]; intros [|y b] Ha Hb Hl Hn; try done.
  apply list.Forall_cons in Ha as [Hx Ha]. apply list.Forall_cons in Hb as [Hy Hb]. injection Hl as Hl.
  rewrite !num_cons in Hn. pose proof (num_bounds a Ha). pose proof (num_bounds b Hb).
  rewrite Hl in *. set (p := 10 ^ Z.of_nat (length b)) in *.
  pose proof (dval_range x Hx). pose proof (dval_range y Hy).
  assert (dval x = dval y) by nia.
  f_equal; [by apply digits_dval_inj|]. apply IH; try done. nia.
Qed.

Lemma canon_bounds l : canon l → num l ≠ 0 → 10 ^ (Z.of_nat (length l) - 1) ≤ num l < 10 ^ Z.of_nat (length l).
Proof.
  intros (Hd & Hne & Hc) Hn. split; [|by apply num_bounds].
  destruct Hc as [->|Hc]; [done|]. destruct l as [|c l]; [done|].
  cbn [length]. replace (Z.of_nat (S (length l)) - 1) with (Z.of_nat (length l)) by lia.
  apply num_lead; [done|]. by eapply Hc.
Qed.

Lemma canon_length_lt a b : canon a → canon b → (length a < length b)%nat → num a < num b.
Proof.
  intros Ha Hb Hl. pose proof (num_bounds a (proj1 Ha)) as [_ H1].
  destruct Hb as (Hd & Hne & [->|Hc]).
  { destruct Ha as (_ & Hn & _). destruct a; [done|]. cbn in Hl. lia. }
  destruct b as [|c b]; [done|]. pose proof (num_lead c b Hd (Hc _ _ eq_refl)).
  assert (10 ^ Z.of_nat (length a) ≤ 10 ^ Z.of_nat (length b)); [|lia].
  apply Z.pow_le_mono_r; [lia|]. cbn in Hl. lia.
Qed.

Lemma canon_inj a b : canon a → canon b → num a = num b → a = b.
Proof.
  intros Ha Hb Hn. apply num_inj_len; [apply Ha|apply Hb| |done].
  destruct (Nat.lt_trichotomy (length a) (length b)) as [Hl|[?|Hl]]; [|done|].
  - pose proof (canon_length_lt a b Ha Hb Hl). lia.
  - pose proof (canon_length_lt b a Hb Ha Hl). lia.
Qed.

Lemma TrimLeft0_canon l c l' : digits l → TrimLeft0 l = c :: l' → canon (TrimLeft0 l).
Proof.
  intros Hd E. destruct (TrimLeft0_spec l) as (_ & H2 & H3 & _).
  split; [by apply H2|]. split; [by rewrite E|]. right. intros. by eapply H3.
Qed.

Lemma TrimLeft0_nonzero l : digits l → num l ≠ 0 → canon (TrimLeft0 l).
Proof.
  intros Hd Hn. destruct (TrimLeft0 l) as [|c l'] eqn:E.
  - destruct (TrimLeft0_spec l) as (H1 & _). rewrite E in H1. cbn in H1. lia.
  - rewrite <- E. by eapply TrimLeft0_canon.
Qed.

Lemma TrimLeft0_nil l : TrimLeft0 l = [] → num l = 0.
Proof. intros E. destruct (TrimLeft0_spec l) as (H1 & _). by rewrite E in H1. Qed.

Lemma addDigits_spec a b :
  canon a → canon b → num a ≠ 0 → canon (addDigits a b) ∧ num (addDigits a b) = num a + num b.
Proof.
  intros Ha Hb Hn. unfold addDigits.
  pose proof (num_bounds a (proj1 Ha)). pose proof (num_bounds b (proj1 Hb)).
  destruct (add_loop_spec (S (Nat.max (length a) (length b))) (reverse a) (reverse b) 0) as [H1 H2];
    [by apply digits_reverse, Ha|by apply digits_reverse, Hb|lia| |].
  { rewrite !reverse_involutive, Nat2Z.inj_succ, Z.pow_succ_r by lia.
    pose proof (Z.pow_le_mono_r 10 (Z.of_nat (length a)) (Z.of_nat (Nat.max (length a) (length b)))).
    pose proof (Z.pow_le_mono_r 10 (Z.of_nat (length b)) (Z.of_nat (Nat.max (length a) (length b)))). lia. }
  rewrite !reverse_involutive in H2.
  match goal with |- canon (TrimLeft0 ?l) ∧ _ => set (out := l) in * end.
  destruct (TrimLeft0_spec out) as (E & _). rewrite E, H2. split; [|lia].
  apply TrimLeft0_nonzero; [by apply digits_reverse|]. lia.
Qed.

Lemma subtractDigits_spec a b :
  digits a → digits b → num b ≤ num a →
  canon (subtractDigits a b) ∧ num (subtractDigits a b) = num a - num b.
Proof.
  intros Ha Hb Hle. unfold subtractDigits.
  destruct (sub_loop_spec (reverse a) (reverse b) 0) as [H1 H2];
    [by apply digits_reverse|by apply digits_reverse|lia|rewrite !reverse_involutive; lia|].
  rewrite !reverse_involutive in H2.
  set (out := reverse (sub_loop (reverse a) (reverse b) 0)) in *.
  destruct (TrimLeft0_spec out) as (E & _). destruct (TrimLeft0 out) as [|c l] eqn:Et.
  - change (num []) with 0 in E. split; [|change (num ["0"]) with 0; lia]. split; [by repeat constructor|]. split; [done|by left].
  - split; [|lia]. rewrite <- Et. eapply TrimLeft0_canon; [by apply digits_reverse|exact Et].
Qed.

(** ** [strconv.Itoa] and signed exponents *)

Lemma itoa_loop_spec fuel n :
  0 ≤ n < 2 ^ Z.of_nat fuel →
  digits (itoa_loop fuel n) ∧ num (reverse (itoa_loop fuel n)) = n.
Proof.
  revert n. induction fuel as [|fuel IH]; intros n Hn; [cbn in *; split; [constructor|lia]|].
  cbn [itoa_loop]. pose proof (Z.div_mod n 10 ltac:(lia)). pose proof (Z.mod_pos_bound n 10 ltac:(lia)).
  destruct (dchr_digit (n mod 10) ltac:(lia)) as [Hd Hv]. rewrite rnum_cons, Hv.
  destruct (Z.ltb_spec n 10).
  - split; [by repeat constructor|]. cbn. assert (n / 10 = 0) by (apply Z.div_small; lia). lia.
  - destruct (IH (n / 10)) as [Hdg Hnum].
    { rewrite Nat2Z.inj_succ, Z.pow_succ_r in Hn by lia. split; [apply Z.div_pos; lia|].
      apply Z.div_lt_upper_bound; lia. }
    split; [by constructor|]. rewrite Hnum. lia.
Qed.

Lemma itoa_loop_last fuel n c l :
  0 < n < 2 ^ Z.of_nat fuel → reverse (itoa_loop fuel n) = c :: l → c ≠ "0".
Proof.
  revert n c l. induction fuel as [|fuel IH]; intros n c l Hn; [cbn in Hn; lia|].
  cbn [itoa_loop]. rewrite reverse_cons. destruct (Z.ltb_spec n 10).
  - rewrite Z.mod_small by lia. cbn. intros [= <- <-].
    destruct (dchr_digit n ltac:(lia)) as [_ Hv]. intros E. rewrite E in Hv.
    change (dval "0") with 0 in Hv. lia.
  - assert (0 < n / 10 < 2 ^ Z.of_nat fuel) as Hd.
    { rewrite Nat2Z.inj_succ, Z.pow_succ_r in Hn by lia.
      split; [apply Z.div_str_pos; lia|apply Z.div_lt_upper_bound; lia]. }
    destruct (reverse (itoa_loop fuel (n / 10))) as [|c' l'] eqn:E.
    { destruct (itoa_loop_spec fuel (n / 10)) as [_ Hn']; [lia|]. rewrite E in Hn'. cbn in Hn'. lia. }
    intros [= <- <-]. by eapply IH.
Qed.

Lemma itoa_nat_spec n : 0 ≤ n → canon (itoa_nat n) ∧ num (itoa_nat n) = n.
Proof.
  intros Hn. unfold itoa_nat. assert (0 ≤ n < 2 ^ Z.of_nat (S (Z.to_nat (Z.log2 n)))) as Hb.
  { pose proof (Z.log2_nonneg n). rewrite Nat2Z.inj_succ, Z2Nat.id by lia.
    destruct (Z.eq_dec n 0) as [->|]; [cbn; lia|]. pose proof (Z.log2_spec n). lia. }
  destruct (itoa_loop_spec _ _ Hb) as [Hd Hv].
  split; [|done]. split; [by apply digits_reverse|]. split.
  - cbn [itoa_loop]. rewrite reverse_cons. apply not_eq_sym, app_cons_not_nil.
  - destruct (Z.eq_dec n 0) as [->|]; [by left|]. right. intros c l E.
    eapply itoa_loop_last; [|exact E]. lia.
Qed.

(** The integer an exponent text denotes. *)
Definition sval (e : list ascii) : Z :=
  match e with "-" :: d => - num d | "+" :: d => num d | d => num d end.

(** Canonical signed decimals. *)
Definition canon_signed (e : list ascii) : Prop :=
  canon e ∨ ∃ d, e = "-" :: d ∧ canon d ∧ num d ≠ 0.

Lemma sval_digits d : digits d → sval d = num d.
Proof.
  intros H. destruct d as [|c d]; [done|]. apply list.Forall_cons in H as [H _].
  destruct c as [[] [] [] [] [] [] [] []]; try done.
Qed.

Lemma Itoa_spec z : canon_signed (Itoa z) ∧ sval (Itoa z) = z.
Proof.
  unfold Itoa. destruct (Z.ltb_spec z 0).
  - destruct (itoa_nat_spec (- z)) as [Hc Hn]; [lia|]. split; [right; eexists; split_and!; try done; lia|].
    cbn [sval]. lia.
  - destruct (itoa_nat_spec z) as [Hc Hn]; [lia|]. split; [by left|]. by rewrite sval_digits by apply Hc.
Qed.

Lemma str_lt_num a b :
  digits a → digits b → length a = length b → str_lt a b = (num a <? num b).
Proof.
  revert b. induction a as [|x a IH]; intros [|y b] Ha Hb Hl; try done.
  apply list.Forall_cons in Ha as [Hx Ha]. apply list.Forall_cons in Hb as [Hy Hb]. injection Hl as Hl.
  cbn [str_lt]. rewrite !num_cons, IH, Hl by done.
  pose proof (num_bounds a Ha). pose proof (num_bounds b Hb). rewrite Hl in *.
  set (p := 10 ^ Z.of_nat (length b)) in *. unfold dval.
  destruct (N.ltb_spec (N_of_ascii x) (N_of_ascii y)); [symmetry; apply Z.ltb_lt; nia|].
  destruct (N.ltb_spec (N_of_ascii y) (N_of_ascii x)); [symmetry; apply Z.ltb_ge; nia|].
  assert (N_of_ascii x = N_of_ascii y) as -> by lia.
  destruct (Z.ltb_spec (num a) (num b)); symmetry; [apply Z.ltb_lt|apply Z.ltb_ge]; lia.
Qed.

(** Exponent texts of the grammar: an optional sign and some digits. *)
Definition exp_text (e : list ascii) (neg : bool) (d : list ascii) : Prop :=
  digits d ∧ d ≠ [] ∧
  (e = "-" :: d ∧ neg = true ∨ (e = "+" :: d ∨ e = d) ∧ neg = false).

Lemma exp_text_views e neg d :
  exp_text e neg d →
  match e with "-" :: _ => true | _ => false end = neg ∧
  match e with "-" :: x => x | "+" :: x => x | x => x end = d ∧
  sval e = (if neg then - num d else num d).
Proof.
  intros (Hd & Hne & [[-> ->]|[[->| ->] ->]]); [done..|].
  split_and!; [| |by apply sval_digits].
  all: destruct d as [|c d]; [done|]; apply list.Forall_cons in Hd as [Hc _];
    destruct c as [[] [] [] [] [] [] [] []]; done.
Qed.

(** The digits of an exponent compared the way the code does. *)
Lemma longer_or_ge a b :
  canon a → canon b →
  (length b <? length a)%nat || ((length a =? length b)%nat && str_ge a b) = (num b <=? num a).
Proof.
  intros Ha Hb. destruct (Nat.ltb_spec (length b) (length a)); simpl.
  - symmetry. apply Z.leb_le. pose proof (canon_length_lt b a Hb Ha). lia.
  - destruct (Nat.eqb_spec (length a) (length b)); simpl.
    + unfold str_ge. rewrite str_lt_num by (apply Ha || apply Hb || done).
      rewrite Z.leb_antisym. done.
    + symmetry. apply Z.leb_gt. apply canon_length_lt; [done..|lia].
Qed.

Definition signed (neg : bool) (z : Z) : Z := if neg then - z else z.

Lemma render_spec (neg : bool) (d : list ascii) :
  canon d →
  let r := if list_eq_dec Ascii.ascii_dec d ["0"] then ["0"] else if neg then "-" :: d else d in
  canon_signed r ∧ sval r = signed neg (num d).
Proof.
  intros Hd. simpl. destruct (list_eq_dec Ascii.ascii_dec d ["0"]) as [->|Hne].
  - split; [by left|]. by destruct neg.
  - assert (num d ≠ 0) by (intros E; by apply canon_zero in E).
    destruct neg; [split; [right; eauto|done]|]. split; [by left|]. by apply sval_digits, Hd.
Qed.

Lemma shiftExponent_spec e neg d shift :
  exp_text e neg d →
  canon_signed (shiftExponent e shift) ∧ sval (shiftExponent e shift) = sval e + shift.
Proof.
  intros He. pose proof He as (Hd & _ & _). apply exp_text_views in He as (H1 & H2 & H3).
  unfold shiftExponent. rewrite H1, H2, H3. clear H1 H2 H3.
  destruct (TrimLeft0_spec d) as (Hn & _). destruct (TrimLeft0 d) as [|c t] eqn:Et.
  - change (num []) with 0 in Hn. destruct (Itoa_spec shift) as [Hc Hs]. split; [done|].
    rewrite Hs. destruct neg; lia.
  - assert (Hcan : canon (c :: t)) by (rewrite <- Et; by eapply TrimLeft0_canon).
    assert (Hnz : num (c :: t) ≠ 0).
    { intros E. apply canon_zero in E; [|done]. destruct (TrimLeft0_spec d) as (_ & _ & H & _).
      apply (H c t Et). congruence. }
    rewrite <- Hn. cbv beta iota zeta. set (x := c :: t) in *. fold (signed neg (num x)).
    clearbody x. destruct (Z.eqb_spec shift 0) as [->|Hs]; cbn [negb].
    { destruct (render_spec neg x Hcan) as [? ->]. split; [done|lia]. }
    set (mag := if shift <? 0 then - shift else shift).
    destruct (itoa_nat_spec mag) as [Hmc Hmn]; [unfold mag; destruct (Z.ltb_spec shift 0); lia|].
    assert (HI : Itoa mag = itoa_nat mag).
    { unfold Itoa. destruct (Z.ltb_spec mag 0); [|done]. unfold mag in *. destruct (Z.ltb_spec shift 0); lia. }
    rewrite HI. assert (Hsh : shift = signed (shift <? 0) mag).
    { unfold signed, mag. destruct (shift <? 0); lia. }
    clearbody mag. destruct (Bool.eqb neg (shift <? 0)) eqn:Eb.
    + apply Bool.eqb_prop in Eb. destruct (addDigits_spec x (itoa_nat mag) Hcan Hmc Hnz) as [Ha Hv].
      destruct (render_spec neg _ Ha) as [? ->]. split; [done|].
      rewrite Hv, Hmn. rewrite <- Eb in Hsh. unfold signed in *. destruct neg; lia.
    + apply Bool.eqb_false_iff in Eb. rewrite longer_or_ge by done.
      destruct (Z.leb_spec (num (itoa_nat mag)) (num x)).
      * destruct (subtractDigits_spec x (itoa_nat mag)) as [Ha Hv]; [apply Hcan|apply Hmc|done|].
        destruct (render_spec neg _ Ha) as [? ->]. split; [done|].
        rewrite Hv, Hmn. revert Hsh Eb. unfold signed. destruct neg, (shift <? 0); intros; done || lia.
      * destruct (subtractDigits_spec (itoa_nat mag) x) as [Ha Hv]; [apply Hmc|apply Hcan|lia|].
        destruct (render_spec (shift <? 0) _ Ha) as [? ->]. split; [done|].
        rewrite Hv, Hmn. revert Hsh Eb. unfold signed. destruct neg, (shift <? 0); intros; done || lia.
Qed.

(** ** The parts of a token *)

Lemma TrimLeft0_split l : ∃ k, l = replicate k "0" ++ TrimLeft0 l.
Proof.
  induction l as [|c l [k IH]]; [by exists 0%nat|]. cbn [TrimLeft0].
  destruct (Ascii.eqb_spec c "0") as [->|]; [|by exists 0%nat].
  exists (S k). cbn. by rewrite <- IH.
Qed.

Lemma num_zeros l k : num (l ++ replicate k "0") = num l * 10 ^ Z.of_nat k.
Proof.
  induction k as [|k IH]; [rewrite app_nil_r; cbn; lia|].
  rewrite replicate_S_end, app_assoc, num_snoc, IH. change (dval "0") with 0.
  rewrite Nat2Z.inj_succ, Z.pow_succ_r by lia. lia.
Qed.

Lemma TrimRight0_split l :
  ∃ k, l = TrimRight0 l ++ replicate k "0" ∧ (∀ c x, TrimRight0 l = x ++ [c] → c ≠ "0").
Proof.
  destruct (TrimLeft0_split (reverse l)) as [k Hk]. exists k. unfold TrimRight0. split.
  - apply (f_equal reverse) in Hk. rewrite reverse_involutive, reverse_app, reverse_replicate in Hk. done.
  - intros c x E. apply (f_equal reverse) in E. rewrite reverse_involutive, reverse_snoc in E.
    destruct (TrimLeft0_spec (reverse l)) as (_ & _ & H & _). by eapply H.
Qed.

(** Trimming a canonical non-zero coefficient. *)
Lemma TrimRight0_spec l :
  canon l → num l ≠ 0 →
  canon (TrimRight0 l) ∧ num (TrimRight0 l) mod 10 ≠ 0 ∧
  num l = num (TrimRight0 l) * 10 ^ (Z.of_nat (length l) - Z.of_nat (length (TrimRight0 l))) ∧
  (length (TrimRight0 l) ≤ length l)%nat.
Proof.
  intros Hc Hn. destruct (TrimRight0_split l) as (k & Hk & Hlast).
  set (t := TrimRight0 l) in *. clearbody t. subst l. rewrite num_zeros in Hn.
  assert (Ht : digits t) by (destruct Hc as (Hd & _); by apply list.Forall_app in Hd as [? _]).
  assert (Hne : t ≠ []) by (intros ->; cbn in Hn; lia).
  split_and!.
  - split; [done|]. split; [done|]. right. intros c t' ->. destruct Hc as (_ & _ & [E|Hc]).
    + injection E as -> E. destruct t'; [|done]. change (num ["0"]) with 0 in Hn. lia.
    + by eapply Hc.
  - destruct t as [|c x _] using rev_ind; [done|]. rewrite num_snoc.
    apply list.Forall_app in Ht as [_ Ht]. apply list.Forall_cons in Ht as [Hd _].
    pose proof (dval_range c Hd). specialize (Hlast c x eq_refl).
    rewrite Z.add_comm, (Z.mul_comm 10), Z.mod_add by lia. rewrite Z.mod_small by lia.
    intros E. by apply dval_zero in E.
  - rewrite num_zeros, length_app, length_replicate. f_equal. f_equal. lia.
  - rewrite length_app. lia.
Qed.

Lemma span_digits_spec l a b :
  span_digits l = (a, b) → l = a ++ b ∧ digits a.
Proof.
  revert a b. induction l as [|c l IH]; intros a b; cbn [span_digits].
  - intros [= <- <-]. split; [done|constructor].
  - destruct (is_digit c) eqn:Ec; [|intros [= <- <-]; split; [done|constructor]].
    destruct (span_digits l) as [a' b'] eqn:E. intros [= <- <-].
    destruct (IH a' b' eq_refl) as [-> Ha]. split; [done|by constructor].
Qed.

(** The text a decomposition stands for. *)
Definition frac_text (f : option (list ascii)) : list ascii :=
  match f with Some f => "." :: f | None => [] end.
Definition exp_suffix (e : option (ascii * list ascii)) : list ascii :=
  match e with Some (c, t) => c :: t | None => [] end.

Lemma parse_int_spec l i r :
  parse_int l = Some (i, r) → l = i ++ r ∧ digits i ∧ i ≠ [].
Proof.
  unfold parse_int. destruct l as [|c l]; [done|]. intros H.
  assert (Hspan : is_digit c = true → span_digits (c :: l) = (i, r) → c :: l = i ++ r ∧ digits i ∧ i ≠ []).
  { intros Hc Hs. destruct (span_digits_spec _ _ _ Hs) as [E Hd]. split_and!; try done.
    intros ->. cbn [span_digits] in Hs. rewrite Hc in Hs. by destruct (span_digits l). }
  assert (Hzero : c = "0" → Some (["0"], l) = Some (i, r) → c :: l = i ++ r ∧ digits i ∧ i ≠ []).
  { intros -> [= <- <-]. split_and!; try done. by repeat constructor. }
  destruct (is_digit c) eqn:Hc.
  - destruct (ascii_dec c "0") as [->|Hne]; [by apply Hzero|]. apply Hspan; [done|].
    destruct c as [[] [] [] [] [] [] [] []]; done || congruence.
  - by destruct c as [[] [] [] [] [] [] [] []].
Qed.

Lemma parse_frac_spec l f r :
  parse_frac l = Some (f, r) → l = frac_text f ++ r ∧ digits (default [] f).
Proof.
  unfold parse_frac. destruct l as [|c l]; [intros [= <- <-]; split; [done|constructor]|]. intros H.
  assert (Hother : Some (None, c :: l) = Some (f, r) → c :: l = frac_text f ++ r ∧ digits (default [] f)).
  { intros [= <- <-]. split; [done|constructor]. }
  destruct (ascii_dec c ".") as [->|Hne].
  - destruct (span_digits l) as [d r'] eqn:E. apply span_digits_spec in E as [-> Hd].
    destruct d as [|x d]; [done|]. injection H as <- <-. done.
  - apply Hother. destruct c as [[] [] [] [] [] [] [] []]; done || congruence.
Qed.

Lemma parse_exp_spec l e :
  parse_exp l = Some e →
  l = exp_suffix e ∧
  match e with
  | Some (c, t) => is_e c = true ∧ ∃ neg d, exp_text t neg d
  | None => True
  end.
Proof.
  unfold parse_exp. destruct l as [|c l]; [by intros [= <-]|].
  destruct (Ascii.eqb c "e" || Ascii.eqb c "E") eqn:Ec; [|done]. intros H.
  assert (Hd : ∀ body, (let '(d, r) := span_digits body in
      match d, r with _ :: _, [] => Some (Some (c, l)) | _, _ => None end) = Some e →
      digits body ∧ body ≠ [] ∧ e = Some (c, l)).
  { intros body Hb. destruct (span_digits body) as [d r] eqn:E. apply span_digits_spec in E as [-> Hd].
    destruct d as [|x d]; [done|]. destruct r; [|done]. injection Hb as <-.
    rewrite app_nil_r. done. }
  assert (Hfin : ∀ body, digits body → body ≠ [] → e = Some (c, l) →
    (l = "-" :: body ∨ l = "+" :: body ∨ l = body) →
    c :: l = exp_suffix e ∧ match e with Some (c, t) => is_e c = true ∧ ∃ neg d, exp_text t neg d | None => True end).
  { intros body Hb Hne -> Hl. split; [done|]. split; [done|].
    destruct Hl as [->|[->| ->]]; [exists true, body|exists false, body|exists false, body];
      (split; [done|]; split; [done|]; auto). }
  destruct l as [|x l]; [by destruct (Hd [] H) as (? & ? & ?)|].
  destruct (ascii_dec x "-") as [->|H1]; [destruct (Hd l H) as (? & ? & ?); eapply Hfin; eauto|].
  destruct (ascii_dec x "+") as [->|H2]; [destruct (Hd l H) as (? & ? & ?); eapply Hfin; eauto|].
  assert (HH : (let '(d, r) := span_digits (x :: l) in
      match d, r with _ :: _, [] => Some (Some (c, x :: l)) | _, _ => None end) = Some e)
    by (destruct x as [[] [] [] [] [] [] [] []]; done || congruence).
  destruct (Hd (x :: l) HH) as (? & ? & ?). eapply Hfin; eauto.
Qed.

Lemma cut_app p a x b :
  Forall (λ c, p c = false) a → p x = true → cut p (a ++ x :: b) = Some (a, b).
Proof.
  intros Ha Hx. induction a as [|c a IH]; cbn; [by rewrite Hx|].
  apply list.Forall_cons in Ha as [-> Ha]. by rewrite IH.
Qed.

Lemma cut_none p a : Forall (λ c, p c = false) a → cut p a = None.
Proof.
  intros Ha. induction a as [|c a IH]; [done|]. cbn.
  apply list.Forall_cons in Ha as [-> Ha]. by rewrite IH.
Qed.

Lemma digit_not_sep c : is_digit c = true → is_e c = false ∧ is_dot c = false.
Proof. destruct c as [[] [] [] [] [] [] [] []]; done. Qed.

Lemma digits_no_e l : digits l → Forall (λ c, is_e c = false) l.
Proof. intros H. eapply list.Forall_impl; [exact H|]. intros c Hc. by apply digit_not_sep. Qed.

Lemma digits_no_dot l : digits l → Forall (λ c, is_dot c = false) l.
Proof. intros H. eapply list.Forall_impl; [exact H|]. intros c Hc. by apply digit_not_sep. Qed.

Definition body (p : token_parts) : list ascii :=
  tp_int p ++ frac_text (tp_frac p) ++ exp_suffix (tp_exp p).

Definition frac_digits (p : token_parts) : list ascii := default [] (tp_frac p).

(** What the grammar guarantees of a decomposition. *)
Record parts_ok (p : token_parts) : Prop := {
  po_int : digits (tp_int p);
  po_ne : tp_int p ≠ [];
  po_frac : digits (frac_digits p);
  po_exp : match tp_exp p with
           | Some (c, t) => is_e c = true ∧ ∃ neg d, exp_text t neg d
           | None => True
           end
}.

Lemma digit_view l c l' :
  l = c :: l' → is_digit c = true →
  match l with "-" :: _ => true | _ => false end = false ∧
  match l with "-" :: r => r | r => r end = l.
Proof. intros -> Hc. destruct c as [[] [] [] [] [] [] [] []]; done. Qed.

Lemma parse_number_spec raw p :
  parse_number raw = Some p →
  parts_ok p ∧
  match raw with "-" :: _ => true | _ => false end = tp_neg p ∧
  match raw with "-" :: r => r | r => r end = body p.
Proof.
  unfold parse_number. intros H.
  assert (Hp : ∀ neg l1, match parse_int l1 with
      | None => None
      | Some (i, l2) => match parse_frac l2 with
          | None => None
          | Some (f, l3) => match parse_exp l3 with None => None | Some e => Some (mkParts neg i f e) end
          end end = Some p → parts_ok p ∧ tp_neg p = neg ∧ l1 = body p ∧ ∃ c l', l1 = c :: l' ∧ is_digit c = true).
  { intros neg l1 E. destruct (parse_int l1) as [[i l2]|] eqn:E1; [|done].
    destruct (parse_frac l2) as [[f l3]|] eqn:E2; [|done]. destruct (parse_exp l3) as [e|] eqn:E3; [|done].
    apply parse_int_spec in E1 as (-> & Hi & Hne). apply parse_frac_spec in E2 as [-> Hf].
    apply parse_exp_spec in E3 as [-> He]. injection E as <-. split_and!; try done.
    destruct i as [|c i]; [done|]. exists c. eexists. split; [done|].
    by apply list.Forall_cons in Hi as [? _]. }
  destruct (match raw with "-" :: l' => (true, l') | _ => (false, raw) end) as [neg l1] eqn:Er.
  apply Hp in H as (Hok & <- & Hb & c & l' & Hl & Hc). split; [done|]. rewrite <- Hb. clear Hp Hok Hb.
  destruct raw as [|x raw]; [injection Er as <- <-; done|].
  destruct (ascii_dec x "-") as [->|Hx]; [by injection Er as <- <-|].
  assert ((false, x :: raw) = (tp_neg p, l1)) as [= <- <-]
    by (destruct x as [[] [] [] [] [] [] [] []]; done || congruence).
  exact (digit_view (x :: raw) c l' Hl Hc).
Qed.

(** ** What a token denotes *)

Definition tok_exp (p : token_parts) : Z :=
  match tp_exp p with Some (_, t) => sval t | None => 0 end - Z.of_nat (length (frac_digits p)).

Definition tok_mant (p : token_parts) : Z := num (tp_int p ++ frac_digits p).

(** [m * 10 ^ e], as the pair. *)
Definition value (p : token_parts) : Z * Z := (signed (tp_neg p) (tok_mant p), tok_exp p).

(** The order of the rationals [m1 * 10 ^ e1] and [m2 * 10 ^ e2], on a common
    scale. *)
Definition dec_cmp (a b : Z * Z) : comparison :=
  let k := Z.min a.2 b.2 in (a.1 * 10 ^ (a.2 - k)) ?= (b.1 * 10 ^ (b.2 - k)).

Lemma dec_cmp_scale k a b :
  k ≤ a.2 → k ≤ b.2 → dec_cmp a b = ((a.1 * 10 ^ (a.2 - k)) ?= (b.1 * 10 ^ (b.2 - k))).
Proof.
  intros Ha Hb. unfold dec_cmp. set (k' := Z.min a.2 b.2). assert (k ≤ k') by (unfold k'; lia).
  replace (a.2 - k) with ((a.2 - k') + (k' - k)) by lia.
  replace (b.2 - k) with ((b.2 - k') + (k' - k)) by lia.
  rewrite !Z.pow_add_r by (unfold k' in *; lia). rewrite !Z.mul_assoc.
  pose proof (Z.pow_pos_nonneg 10 (k' - k) ltac:(lia) ltac:(lia)).
  apply Zmult_compare_compat_r. lia.
Qed.

(** Canonical parts: sign, coefficient without superfluous zeros, exponent. *)
Record normal (neg : bool) (c e : list ascii) : Prop := {
  nm_coef : canon c;
  nm_exp : canon_signed e;
  nm_zero : num c = 0 → neg = false ∧ c = ["0"] ∧ e = ["0"];
  nm_last : num c ≠ 0 → num c mod 10 ≠ 0
}.

Lemma normal_zero : normal false ["0"] ["0"].
Proof.
  assert (canon ["0"]) by (split; [by repeat constructor|split; [done|by left]]).
  split; [done|by left|done|]. change (num ["0"]) with 0. lia.
Qed.

(** How [numberParts] cuts the exponent and the point out of a token. *)
Lemma cut_body p :
  parts_ok p →
  match cut is_e (body p) with Some (a, b) => (b, a) | None => (["0"], body p) end
  = (match tp_exp p with Some (_, t) => t | None => ["0"] end, tp_int p ++ frac_text (tp_frac p)).
Proof.
  intros [Hi _ Hf He]. unfold body. rewrite app_assoc.
  assert (Hno : Forall (λ c, is_e c = false) (tp_int p ++ frac_text (tp_frac p))).
  { apply list.Forall_app. split; [by apply digits_no_e|]. unfold frac_digits in Hf.
    destruct (tp_frac p); [|constructor]. constructor; [done|]. by apply digits_no_e. }
  destruct (tp_exp p) as [[c t]|]; cbn [exp_suffix].
  - rewrite cut_app; [done|done|apply He].
  - by rewrite app_nil_r, cut_none.
Qed.

Lemma cut_point p :
  parts_ok p →
  match cut is_dot (tp_int p ++ frac_text (tp_frac p)) with
  | Some (a, b) => (Z.of_nat (length b), a ++ b)
  | None => (0, tp_int p ++ frac_text (tp_frac p))
  end = (Z.of_nat (length (frac_digits p)), tp_int p ++ frac_digits p).
Proof.
  intros [Hi _ Hf _]. unfold frac_digits. destruct (tp_frac p) as [f|]; cbn [frac_text default].
  - by rewrite cut_app by (try apply digits_no_dot; done).
  - by rewrite app_nil_r, cut_none by (by apply digits_no_dot).
Qed.

Lemma numberParts_spec raw p :
  parse_number raw = Some p →
  ∃ neg c e j, numberParts raw = Some (neg, c, e) ∧ normal neg c e ∧ 0 ≤ j ∧
    (num c ≠ 0 → signed (tp_neg p) (tok_mant p) = signed neg (num c) * 10 ^ j ∧ sval e = tok_exp p + j) ∧
    (num c = 0 → tok_mant p = 0).
Proof.
  intros Hp. destruct (parse_number_spec _ _ Hp) as (Hok & Hneg & Hb).
  unfold numberParts, valid_number. rewrite Hp. cbn [negb]. rewrite Hneg, Hb.
  rewrite (cut_body p Hok), (cut_point p Hok). cbv beta iota zeta.
  set (raw' := tp_int p ++ frac_digits p).
  assert (Hd : digits raw') by (apply list.Forall_app; split; apply Hok).
  destruct (TrimLeft0_spec raw') as (Hn & _). destruct (TrimLeft0 raw') as [|c0 t0] eqn:Et.
  { exists false, ["0"], ["0"], 0. split_and!; [done|apply normal_zero|lia| |].
    - change (num ["0"]) with 0. lia.
    - intros _. unfold tok_mant. fold raw'. by rewrite <- Hn. }
  assert (Hcan : canon (c0 :: t0)) by (rewrite <- Et; by eapply TrimLeft0_canon).
  assert (Hnz : num (c0 :: t0) ≠ 0).
  { intros E. apply canon_zero in E; [|done]. destruct (TrimLeft0_spec raw') as (_ & _ & H & _).
    apply (H c0 t0 Et). congruence. }
  set (coef := c0 :: t0) in *. clearbody coef.
  destruct (TrimRight0_spec coef Hcan Hnz) as (Hct & Hmod & Hval & Hlen).
  set (j := Z.of_nat (length coef) - Z.of_nat (length (TrimRight0 coef))) in *.
  set (et := match tp_exp p with Some (_, t) => t | None => ["0"] end).
  assert (∃ neg d, exp_text et neg d) as (eneg & ed & Hexp).
  { pose proof (po_exp _ Hok) as He. unfold et. destruct (tp_exp p) as [[c t]|]; [apply He|].
    exists false, ["0"]. split; [by repeat constructor|]. split; [done|]. right. auto. }
  destruct (shiftExponent_spec et eneg ed (j - Z.of_nat (length (frac_digits p))) Hexp) as [Hce Hse].
  exists (tp_neg p), (TrimRight0 coef). eexists. exists j. split; [done|].
  assert (Htz : num (TrimRight0 coef) ≠ 0) by (intros E; rewrite E in Hmod; done).
  split_and!.
  - by split.
  - unfold j. lia.
  - intros _. split.
    + unfold tok_mant. fold raw'. rewrite <- Hn, Hval. unfold signed. destruct (tp_neg p); lia.
    + rewrite Hse. unfold tok_exp, et. destruct (tp_exp p) as [[? ?]|]; [lia|].
      change (sval ["0"]) with 0. lia.
  - done.
Qed.

(** ** Comparing canonical parts *)

Definition cmp_Z (o : comparison) : Z := match o with Lt => -1 | Eq => 0 | Gt => 1 end.

(** A digit string read as a fraction of [10 ^ M]. *)
Definition pad (M : nat) (l : list ascii) : Z := num l * 10 ^ (Z.of_nat M - Z.of_nat (length l)).

Lemma pad_cons M c l : (length l ≤ M)%nat → pad (S M) (c :: l) = dval c * 10 ^ Z.of_nat M + pad M l.
Proof.
  intros Hl. unfold pad. rewrite num_cons, Z.mul_add_distr_r, <- Z.mul_assoc, <- Z.pow_add_r
    by (cbn [length]; lia).
  f_equal; f_equal; f_equal; cbn [length]; lia.
Qed.

Lemma pad_bounds M l : digits l → (length l ≤ M)%nat → 0 ≤ pad M l < 10 ^ Z.of_nat M.
Proof.
  intros Hd Hl. unfold pad. pose proof (num_bounds l Hd).
  assert (10 ^ Z.of_nat M = 10 ^ Z.of_nat (length l) * 10 ^ (Z.of_nat M - Z.of_nat (length l))) as ->
    by (rewrite <- Z.pow_add_r by lia; f_equal; lia).
  pose proof (Z.pow_pos_nonneg 10 (Z.of_nat M - Z.of_nat (length l)) ltac:(lia) ltac:(lia)). nia.
Qed.

Lemma cmp_digit x y p u v :
  0 ≤ u < p → 0 ≤ v < p →
  cmp_Z ((x * p + u) ?= (y * p + v)) = if x <? y then -1 else if y <? x then 1 else cmp_Z (u ?= v).
Proof.
  intros Hu Hv. destruct (Z.ltb_spec x y).
  { rewrite (proj2 (Z.compare_lt_iff _ _)); [done|nia]. }
  destruct (Z.ltb_spec y x).
  { rewrite (proj2 (Z.compare_gt_iff _ _)); [done|nia]. }
  assert (x = y) as -> by lia. by rewrite Z.add_compare_mono_l.
Qed.

Lemma char_of_digit c : is_digit c = true → Z.of_N (N_of_ascii c) = dval c + 48.
Proof. intros _. unfold dval. lia. Qed.

Lemma compare_digits_nil b M :
  digits b → (length b ≤ M)%nat → compare_digits [] b = cmp_Z (0 ?= pad M b).
Proof.
  revert M. induction b as [|y b IH]; intros M Hb Hl; [done|].
  apply list.Forall_cons in Hb as [Hy Hb]. destruct M as [|M]; [cbn in Hl; lia|].
  cbn in Hl. rewrite pad_cons by lia. specialize (IH M Hb ltac:(lia)). cbn [compare_digits] in IH |- *.
  rewrite (char_of_digit y Hy), IH. pose proof (pad_bounds M b Hb ltac:(lia)).
  change (0 ?= dval y * 10 ^ Z.of_nat M + pad M b)
    with (0 * 10 ^ Z.of_nat M + 0 ?= dval y * 10 ^ Z.of_nat M + pad M b).
  rewrite cmp_digit by lia. pose proof (dval_range y Hy).
  destruct (Z.ltb_spec 48 (dval y + 48)), (Z.ltb_spec 0 (dval y)); try lia.
  destruct (Z.ltb_spec (dval y + 48) 48), (Z.ltb_spec (dval y) 0); done || lia.
Qed.

Lemma compare_digits_spec a b M :
  digits a → digits b → (length a ≤ M)%nat → (length b ≤ M)%nat →
  compare_digits a b = cmp_Z (pad M a ?= pad M b).
Proof.
  revert b M. induction a as [|x a IH]; intros b M Ha Hb Hla Hlb; [by apply compare_digits_nil|].
  apply list.Forall_cons in Ha as [Hx Ha]. destruct M as [|M]; [cbn in Hla; lia|].
  cbn [length] in Hla. rewrite pad_cons by lia. cbn [compare_digits].
  rewrite (char_of_digit x Hx).
  assert (∃ d b', 0 ≤ d ≤ 9 ∧ tail b = b' ∧ digits b' ∧ (length b' ≤ M)%nat ∧
    match b with y :: _ => Z.of_N (N_of_ascii y) | [] => 48 end = d + 48 ∧
    pad (S M) b = d * 10 ^ Z.of_nat M + pad M b') as (d & b' & Hdr & -> & Hb' & Hlb' & -> & ->).
  { destruct b as [|y b].
    - exists 0, []. split; [lia|]. split; [done|]. split; [constructor|]. split; [cbn; lia|].
      split; [done|]. unfold pad. cbn. lia.
    - apply list.Forall_cons in Hb as [Hy Hb]. cbn [length] in Hlb. exists (dval y), b.
      split; [by apply dval_range|]. split; [done|]. split; [done|]. split; [lia|].
      split; [by apply char_of_digit|apply pad_cons; lia]. }
  rewrite cmp_digit by (apply pad_bounds; [done|lia]). rewrite <- (IH b' M) by (done || lia).
  destruct (Z.ltb_spec (dval x + 48) (d + 48)), (Z.ltb_spec (dval x) d); try lia.
  destruct (Z.ltb_spec (d + 48) (dval x + 48)), (Z.ltb_spec d (dval x)); done || lia.
Qed.

Lemma compareExponent_spec a b :
  canon_signed a → canon_signed b → compareExponent a b = cmp_Z (sval a ?= sval b).
Proof.
  assert (Hview : ∀ a, canon_signed a → ∃ neg d,
    match a with "-" :: _ => true | _ => false end = neg ∧ (if neg then tail a else a) = d ∧
    canon d ∧ sval a = signed neg (num d) ∧ (neg = true → num d ≠ 0)).
  { intros x [Hx|(d & -> & Hd & Hn)]; [|exists true, d; by split_and!].
    exists false, x. destruct Hx as (Hd & Hne & Hc) eqn:Ex. destruct x as [|c x]; [done|].
    pose proof Hd as Hd'. apply list.Forall_cons in Hd' as [Hdc _].
    destruct (digit_view (c :: x) c x eq_refl Hdc) as [E _].
    split_and!; try done. by apply sval_digits. }
  intros Ha Hb. destruct (Hview a Ha) as (an & da & Ea & Eda & Hda & -> & Hna).
  destruct (Hview b Hb) as (bn & db & Eb & Edb & Hdb & -> & Hnb).
  pose proof (num_bounds da (proj1 Hda)). pose proof (num_bounds db (proj1 Hdb)).
  assert (Ho : (if (length db <? length da)%nat || ((length da =? length db)%nat && str_lt db da) then 1
      else if (length da <? length db)%nat || ((length da =? length db)%nat && str_lt da db) then -1 else 0)
      = cmp_Z (num da ?= num db)).
  { destruct (Nat.lt_trichotomy (length da) (length db)) as [Hl|[Hl|Hl]].
    - pose proof (canon_length_lt da db Hda Hdb Hl).
      rewrite (proj2 (Nat.ltb_ge _ _)), (proj2 (Nat.eqb_neq _ _)), (proj2 (Nat.ltb_lt _ _)) by lia. simpl.
      by rewrite (proj2 (Z.compare_lt_iff _ _)).
    - rewrite Hl, Nat.ltb_irrefl, Nat.eqb_refl. simpl.
      rewrite !str_lt_num by (apply Hda || apply Hdb || done).
      destruct (Z.compare_spec (num da) (num db)) as [E|E|E]; simpl.
      + by rewrite E, Z.ltb_irrefl.
      + by rewrite (proj2 (Z.ltb_ge _ _)), (proj2 (Z.ltb_lt _ _)) by lia.
      + by rewrite (proj2 (Z.ltb_lt _ _)) by lia.
    - pose proof (canon_length_lt db da Hdb Hda Hl).
      rewrite (proj2 (Nat.ltb_lt _ _)) by lia. simpl. by rewrite (proj2 (Z.compare_gt_iff _ _)). }
  unfold compareExponent. rewrite Ea, Eb. destruct an, bn; cbn [Bool.eqb negb] in *; unfold signed.
  - rewrite Eda, Edb, Ho. rewrite Z.compare_opp, (Z.compare_antisym (num da)).
    by destruct (num da ?= num db).
  - specialize (Hna eq_refl). by rewrite (proj2 (Z.compare_lt_iff _ _)) by lia.
  - specialize (Hnb eq_refl). by rewrite (proj2 (Z.compare_gt_iff _ _)) by lia.
  - rewrite Eda, Edb. exact Ho.
Qed.

Lemma canon_signed_text e : canon_signed e → ∃ neg d, exp_text e neg d.
Proof.
  intros [(Hd & Hne & _)|(d & -> & (Hd & Hne & _) & _)].
  - exists false, e. split; [done|]. split; [done|]. auto.
  - exists true, d. split; [done|]. split; [done|]. auto.
Qed.

Lemma shift_normal e s :
  canon_signed e → canon_signed (shiftExponent e s) ∧ sval (shiftExponent e s) = sval e + s.
Proof. intros He. destruct (canon_signed_text e He) as (neg & d & Ht). by eapply shiftExponent_spec. Qed.

(** Magnitudes: [num c1 * 10 ^ e1] against [num c2 * 10 ^ e2]. *)
Lemma magnitude_cmp c1 e1 c2 e2 :
  canon c1 → canon c2 → num c1 ≠ 0 → num c2 ≠ 0 → canon_signed e1 → canon_signed e2 →
  (let o := compareExponent (shiftExponent e1 (Z.of_nat (length c1)))
                            (shiftExponent e2 (Z.of_nat (length c2))) in
   if o =? 0 then compare_digits c1 c2 else o)
  = cmp_Z (dec_cmp (num c1, sval e1) (num c2, sval e2)).
Proof.
  intros H1 H2 Hn1 Hn2 He1 He2. cbv zeta.
  destruct (shift_normal e1 (Z.of_nat (length c1)) He1) as [Hs1 Hv1].
  destruct (shift_normal e2 (Z.of_nat (length c2)) He2) as [Hs2 Hv2].
  rewrite compareExponent_spec, Hv1, Hv2 by done.
  destruct (canon_bounds c1 H1 Hn1) as [L1 U1]. destruct (canon_bounds c2 H2 Hn2) as [L2 U2].
  set (l1 := Z.of_nat (length c1)) in *. set (l2 := Z.of_nat (length c2)) in *.
  assert (0 < l1) by (unfold l1; destruct c1; [by destruct H1 as (_ & ? & _)|cbn; lia]).
  assert (0 < l2) by (unfold l2; destruct c2; [by destruct H2 as (_ & ? & _)|cbn; lia]).
  rewrite (dec_cmp_scale (Z.min (sval e1) (sval e2) - l1 - l2)) by (cbn; lia). cbn [fst snd].
  set (k := Z.min (sval e1) (sval e2) - l1 - l2).
  set (p1 := sval e1 - k). set (p2 := sval e2 - k).
  assert (0 ≤ p1 ∧ 0 ≤ p2) as [? ?] by (unfold p1, p2, k; lia).
  assert (Hlt : ∀ x y px py lx ly, 0 ≤ px → 0 ≤ py → 0 < lx → 0 < ly → x < 10 ^ lx → 10 ^ (ly - 1) ≤ y →
    px + lx < py + ly → x * 10 ^ px < y * 10 ^ py).
  { intros x y px py lx ly ? ? ? ? Hx Hy Hl. apply Z.lt_le_trans with (10 ^ (lx + px)).
    - rewrite Z.pow_add_r by lia. apply Z.mul_lt_mono_pos_r; [apply Z.pow_pos_nonneg; lia|done].
    - apply Z.le_trans with (10 ^ ((ly - 1) + py)); [apply Z.pow_le_mono_r; lia|].
      rewrite Z.pow_add_r by lia. apply Z.mul_le_mono_nonneg_r; [apply Z.pow_nonneg; lia|done]. }
  destruct (Z.compare_spec (sval e1 + l1) (sval e2 + l2)) as [E|E|E]; cbn [cmp_Z Z.eqb].
  - set (M := Nat.max (length c1) (length c2)).
    rewrite (compare_digits_spec c1 c2 M) by (apply H1 || apply H2 || (unfold M; lia)).
    unfold pad. fold l1 l2. f_equal.
    set (s := p1 - (Z.of_nat M - l1)).
    assert (Hs : 0 ≤ s) by (unfold s, M, p1, k; lia).
    assert (E1 : 10 ^ p1 = 10 ^ (Z.of_nat M - l1) * 10 ^ s).
    { rewrite <- Z.pow_add_r by (unfold M; lia). f_equal. unfold s. lia. }
    assert (E2 : 10 ^ p2 = 10 ^ (Z.of_nat M - l2) * 10 ^ s).
    { rewrite <- Z.pow_add_r by (unfold M; lia). f_equal. unfold s, p1, p2. lia. }
    rewrite E1, E2, !Z.mul_assoc. apply Zmult_compare_compat_r.
    pose proof (Z.pow_pos_nonneg 10 s). lia.
  - rewrite (proj2 (Z.compare_lt_iff _ _)); [done|].
    apply (Hlt _ _ _ _ l1 l2); try done. unfold p1, p2. lia.
  - rewrite (proj2 (Z.compare_gt_iff _ _)); [done|].
    apply (Hlt _ _ _ _ l2 l1); try done. unfold p1, p2. lia.
Qed.

(** ** The exactness theorems *)

Lemma dec_cmp_antisym a b : dec_cmp a b = CompOpp (dec_cmp b a).
Proof. unfold dec_cmp. rewrite (Z.min_comm b.2). apply Z.compare_antisym. Qed.

Lemma dec_cmp_shift x e j w : 0 ≤ j → dec_cmp (x * 10 ^ j, e) w = dec_cmp (x, e + j) w.
Proof.
  intros Hj. rewrite !(dec_cmp_scale (Z.min e w.2)) by (cbn; lia). cbn [fst snd].
  rewrite <- Z.mul_assoc, <- Z.pow_add_r by lia. f_equal. f_equal. f_equal. lia.
Qed.

Lemma dec_cmp_zero e e' w : dec_cmp (0, e) w = dec_cmp (0, e') w.
Proof.
  rewrite !(dec_cmp_scale (Z.min (Z.min e e') w.2)) by (cbn; lia). done.
Qed.

Lemma numberParts_None raw : parse_number raw = None → numberParts raw = None.
Proof. intros H. unfold numberParts, valid_number. by rewrite H. Qed.

(** A token's parts, with the value they stand for. *)
Definition normal_value (neg : bool) (c e : list ascii) : Z * Z := (signed neg (num c), sval e).

Lemma numberParts_value raw p :
  parse_number raw = Some p →
  ∃ neg c e, numberParts raw = Some (neg, c, e) ∧ normal neg c e ∧
    ∀ w, dec_cmp (value p) w = dec_cmp (normal_value neg c e) w.
Proof.
  intros Hp. destruct (numberParts_spec raw p Hp) as (neg & c & e & j & E & Hn & Hj & Hnz & Hz).
  exists neg, c, e. split; [done|]. split; [done|]. intros w. unfold value, normal_value.
  destruct (Z.eq_dec (num c) 0) as [H0|H0].
  - destruct (nm_zero _ _ _ Hn H0) as (-> & _ & _). rewrite (Hz H0), H0. unfold signed.
    destruct (tp_neg p); apply dec_cmp_zero.
  - destruct (Hnz H0) as [-> ->]. by rewrite dec_cmp_shift.
Qed.

Lemma normal_neg neg c e : normal neg c e → neg = true → num c ≠ 0.
Proof. intros Hn -> E. by destruct (nm_zero _ _ _ Hn E) as (? & _). Qed.

Lemma normal_is_zero neg c e : normal neg c e → str_eqb c ["0"] = true ↔ num c = 0.
Proof.
  intros Hn. unfold str_eqb. rewrite bool_decide_eq_true. split; [by intros ->|].
  intros H. by apply (nm_zero _ _ _ Hn).
Qed.

Lemma dec_cmp_sign x e y f :
  (x < 0 → 0 ≤ y → dec_cmp (x, e) (y, f) = Lt) ∧ (0 < x → y ≤ 0 → dec_cmp (x, e) (y, f) = Gt).
Proof.
  unfold dec_cmp. cbn [fst snd]. set (k := Z.min e f).
  pose proof (Z.pow_pos_nonneg 10 (e - k) ltac:(lia) ltac:(unfold k; lia)).
  pose proof (Z.pow_pos_nonneg 10 (f - k) ltac:(lia) ltac:(unfold k; lia)).
  split; intros; [apply Z.compare_lt_iff|apply Z.compare_gt_iff]; nia.
Qed.

Lemma dec_cmp_opp x e y f : dec_cmp (- x, e) (- y, f) = dec_cmp (y, f) (x, e).
Proof.
  unfold dec_cmp. cbn [fst snd]. rewrite (Z.min_comm f e), !Z.mul_opp_l. apply Z.compare_opp.
Qed.

(** [CompareNumbers] on canonical parts. *)
Lemma normal_cmp n1 c1 e1 n2 c2 e2 :
  normal n1 c1 e1 → normal n2 c2 e2 →
  (if str_eqb c1 ["0"] && str_eqb c2 ["0"] then 0
   else if negb (Bool.eqb n1 n2) then (if n1 then -1 else 1)
   else
     let order :=
       if str_eqb c1 ["0"] then -1 else if str_eqb c2 ["0"] then 1
       else let o := compareExponent (shiftExponent e1 (Z.of_nat (length c1)))
                                     (shiftExponent e2 (Z.of_nat (length c2))) in
            if o =? 0 then compare_digits c1 c2 else o in
     if n1 then - order else order)
  = cmp_Z (dec_cmp (normal_value n1 c1 e1) (normal_value n2 c2 e2)).
Proof.
  intros H1 H2. pose proof (num_bounds c1 (proj1 (nm_coef _ _ _ H1))) as [B1 _].
  pose proof (num_bounds c2 (proj1 (nm_coef _ _ _ H2))) as [B2 _].
  pose proof (normal_is_zero _ _ _ H1) as Z1. pose proof (normal_is_zero _ _ _ H2) as Z2.
  pose proof (normal_neg _ _ _ H1) as N1. pose proof (normal_neg _ _ _ H2) as N2.
  unfold normal_value. destruct (str_eqb c1 ["0"]), (str_eqb c2 ["0"]); cbn [andb].
  - rewrite (proj1 Z1 eq_refl), (proj1 Z2 eq_refl). replace (signed n1 0) with 0 by (by destruct n1).
    replace (signed n2 0) with 0 by (by destruct n2). by unfold dec_cmp.
  - assert (num c1 = 0) as E1 by (by apply Z1). assert (num c2 ≠ 0) by (intros E; by apply Z2 in E).
    destruct n1; [by destruct (N1 eq_refl)|]. rewrite E1. cbv zeta. cbn [signed].
    rewrite dec_cmp_antisym. destruct n2; cbn [Bool.eqb negb signed].
    + rewrite (proj1 (dec_cmp_sign _ _ _ _)) by lia. done.
    + rewrite (proj2 (dec_cmp_sign _ _ _ _)) by lia. done.
  - assert (num c2 = 0) as E2 by (by apply Z2). assert (num c1 ≠ 0) by (intros E; by apply Z1 in E).
    destruct n2; [by destruct (N2 eq_refl)|]. rewrite E2. cbv zeta.
    destruct n1; cbn [Bool.eqb negb signed].
    + rewrite (proj1 (dec_cmp_sign _ _ _ _)) by lia. done.
    + rewrite (proj2 (dec_cmp_sign _ _ _ _)) by lia. done.
  - assert (num c1 ≠ 0) by (intros E; by apply Z1 in E). assert (num c2 ≠ 0) by (intros E; by apply Z2 in E).
    pose proof (magnitude_cmp c1 e1 c2 e2 (nm_coef _ _ _ H1) (nm_coef _ _ _ H2) ltac:(done) ltac:(done)
      (nm_exp _ _ _ H1) (nm_exp _ _ _ H2)) as Hm. cbv zeta in *. rewrite Hm.
    destruct n1, n2; cbn [Bool.eqb negb signed].
    + rewrite dec_cmp_opp, (dec_cmp_antisym (num c2, sval e2)). by destruct (dec_cmp _ _).
    + rewrite (proj1 (dec_cmp_sign _ _ _ _)) by lia. done.
    + rewrite (proj2 (dec_cmp_sign _ _ _ _)) by lia. done.
    + done.
Qed.

(** [CompareNumbers] is exact: on valid JSON numbers it returns the order of
    the rationals they denote, whatever the length of digits and exponents, and
    it reports failure exactly on invalid tokens. *)
Theorem CompareNumbers_exact a b :
  CompareNumbers a b =
  match parse_number a, parse_number b with
  | Some p, Some q => Some (cmp_Z (dec_cmp (value p) (value q)))
  | _, _ => None
  end.
Proof.
  unfold CompareNumbers.
  destruct (parse_number a) as [p|] eqn:Ea; [|by rewrite numberParts_None].
  destruct (numberParts_value a p Ea) as (n1 & c1 & e1 & -> & H1 & V1).
  destruct (parse_number b) as [q|] eqn:Eb; [|by rewrite (numberParts_None b)].
  destruct (numberParts_value b q Eb) as (n2 & c2 & e2 & -> & H2 & V2).
  rewrite V1, dec_cmp_antisym, V2, <- dec_cmp_antisym, <- (normal_cmp n1 c1 e1 n2 c2 e2) by done.
  cbv zeta. by repeat case_match.
Qed.

(** Canonical parts are unique for their value. *)
Lemma normal_unique n1 c1 e1 n2 c2 e2 :
  normal n1 c1 e1 → normal n2 c2 e2 →
  dec_cmp (normal_value n1 c1 e1) (normal_value n2 c2 e2) = Eq → n1 = n2 ∧ c1 = c2 ∧ e1 = e2.
Proof.
  intros H1 H2 Hc. unfold normal_value in Hc.
  pose proof (num_bounds c1 (proj1 (nm_coef _ _ _ H1))) as [B1 _].
  pose proof (num_bounds c2 (proj1 (nm_coef _ _ _ H2))) as [B2 _].
  assert (Hse : ∀ e f, canon_signed e → canon_signed f → sval e = sval f → e = f).
  { clear. intros e f [He|(d & -> & He & Hn)] [Hf|(d' & -> & Hf & Hn')] E.
    - apply canon_inj; [done..|]. by rewrite <- !sval_digits by (apply He || apply Hf).
    - rewrite sval_digits in E by apply He. cbn [sval] in E.
      pose proof (num_bounds e (proj1 He)). pose proof (num_bounds d' (proj1 Hf)). lia.
    - rewrite (sval_digits f) in E by apply Hf. cbn [sval] in E.
      pose proof (num_bounds f (proj1 Hf)). pose proof (num_bounds d (proj1 He)). lia.
    - f_equal. apply canon_inj; [done..|]. cbn [sval] in E. lia. }
  unfold dec_cmp in Hc. apply Z.compare_eq in Hc. cbn [fst snd] in Hc.
  set (k := Z.min (sval e1) (sval e2)) in *.
  pose proof (Z.pow_pos_nonneg 10 (sval e1 - k) ltac:(lia) ltac:(unfold k; lia)) as P1.
  pose proof (Z.pow_pos_nonneg 10 (sval e2 - k) ltac:(lia) ltac:(unfold k; lia)) as P2.
  destruct (Z.eq_dec (num c1) 0) as [Z1|Z1].
  { assert (num c2 = 0) as Z2 by (rewrite Z1 in Hc; unfold signed in Hc; destruct n1, n2; nia).
    destruct (nm_zero _ _ _ H1 Z1) as (-> & -> & ->). by destruct (nm_zero _ _ _ H2 Z2) as (-> & -> & ->). }
  assert (num c2 ≠ 0) as Z2 by (intros E; rewrite E in Hc; unfold signed in Hc; destruct n1, n2; nia).
  assert (n1 = n2) as -> by (unfold signed in Hc; destruct n1, n2; nia).
  assert (Hm : num c1 * 10 ^ (sval e1 - k) = num c2 * 10 ^ (sval e2 - k))
    by (unfold signed in Hc; destruct n2; nia).
  assert (Hdiv : ∀ x y j, 0 < j → x = y * 10 ^ j → x mod 10 = 0).
  { intros x y j Hj ->. replace j with ((j - 1) + 1) by lia. rewrite Z.pow_add_r by lia.
    change (10 ^ 1) with 10. rewrite Z.mul_assoc. apply Z.mod_mul. lia. }
  pose proof (nm_last _ _ _ H1 Z1). pose proof (nm_last _ _ _ H2 Z2).
  assert (sval e1 = sval e2) as He.
  { destruct (Z.lt_trichotomy (sval e1) (sval e2)) as [L|[?|L]]; [|done|]; exfalso.
    - replace (sval e1 - k) with 0 in Hm by (unfold k; lia). change (10 ^ 0) with 1 in Hm.
      apply H. eapply (Hdiv _ (num c2) (sval e2 - k)); [unfold k; lia|lia].
    - replace (sval e2 - k) with 0 in Hm by (unfold k; lia). change (10 ^ 0) with 1 in Hm.
      apply H0. eapply (Hdiv _ (num c1) (sval e1 - k)); [unfold k; lia|lia]. }
  split; [done|]. split; [|by apply Hse; [apply H1|apply H2|]].
  apply canon_inj; [apply H1|apply H2|]. rewrite He in Hm. nia.
Qed.

Lemma normal_refl n c e : dec_cmp (normal_value n c e) (normal_value n c e) = Eq.
Proof. unfold dec_cmp. apply Z.compare_refl. Qed.

(** [EqualNumbers] is exact: it holds precisely when both tokens are valid
    and denote the same rational, so that 1, 1.0 and 1e0 are one number and no
    two different numbers are confused. *)
Theorem EqualNumbers_exact a b :
  EqualNumbers a b = true ↔
  ∃ p q, parse_number a = Some p ∧ parse_number b = Some q ∧ dec_cmp (value p) (value q) = Eq.
Proof.
  unfold EqualNumbers.
  destruct (parse_number a) as [p|] eqn:Ea.
  2:{ rewrite numberParts_None by done. split; [done|]. intros (? & ? & ? & _). done. }
  destruct (numberParts_value a p Ea) as (n1 & c1 & e1 & -> & H1 & V1).
  destruct (parse_number b) as [q|] eqn:Eb.
  2:{ rewrite (numberParts_None b) by done. split; [done|]. by intros (? & ? & _ & ? & _). }
  destruct (numberParts_value b q Eb) as (n2 & c2 & e2 & -> & H2 & V2).
  assert (dec_cmp (value p) (value q) = dec_cmp (normal_value n1 c1 e1) (normal_value n2 c2 e2)) as E.
  { rewrite V1, dec_cmp_antisym, V2. symmetry. apply dec_cmp_antisym. }
  unfold str_eqb. rewrite !andb_true_iff, !bool_decide_eq_true, Bool.eqb_true_iff. split.
  - intros [[-> ->] ->]. exists p, q. rewrite E. split_and!; try done. apply normal_refl.
  - intros (p' & q' & [= <-] & [= <-] & Hc). rewrite E in Hc.
    by destruct (normal_unique _ _ _ _ _ _ H1 H2 Hc) as (-> & -> & ->).
Qed.

(** ** Canonical tokens *)

Definition no_digit_head (l : list ascii) : Prop :=
  match l with [] => True | x :: _ => is_digit x = false end.

Lemma span_digits_app a b : digits a → no_digit_head b → span_digits (a ++ b) = (a, b).
Proof.
  intros Ha Hb. induction a as [|c a IH]; cbn.
  - destruct b as [|x b]; [done|]. cbn in Hb |- *. by rewrite Hb.
  - apply list.Forall_cons in Ha as [-> Ha]. by rewrite IH.
Qed.

Lemma parse_int_canon c r : canon c → no_digit_head r → parse_int (c ++ r) = Some (c, r).
Proof.
  intros (Hd & Hne & Hc) Hr. destruct Hc as [->|Hc]; [done|].
  destruct c as [|x c]; [done|]. specialize (Hc x c eq_refl).
  pose proof (span_digits_app (x :: c) r Hd Hr) as Hs. apply list.Forall_cons in Hd as [Hx _].
  change ((x :: c) ++ r) with (x :: c ++ r) in *. unfold parse_int. rewrite <- Hs.
  destruct x as [[] [] [] [] [] [] [] []]; done || congruence.
Qed.

Lemma parse_exp_canon e : canon_signed e → parse_exp ("e" :: e) = Some (Some ("e", e)).
Proof.
  assert (Hd : ∀ d, canon d → span_digits d = (d, [])).
  { intros d (Hd & _). rewrite <- (app_nil_r d) at 1. by apply span_digits_app. }
  intros [He|(d & -> & He & _)]; unfold parse_exp; cbn [Ascii.eqb Bool.eqb orb].
  - assert (match e with "+" :: b => b | "-" :: b => b | _ => e end = e) as ->.
    { destruct He as (Hde & Hne & _). destruct e as [|x e]; [done|].
      apply list.Forall_cons in Hde as [Hx _]. by destruct x as [[] [] [] [] [] [] [] []]. }
    rewrite (Hd e He). destruct He as (_ & Hne & _). by destruct e.
  - rewrite (Hd d He). destruct He as (_ & Hne & _). by destruct d.
Qed.

Definition render (neg : bool) (c e : list ascii) : list ascii :=
  let c := if neg then "-" :: c else c in
  if str_eqb e ["0"] then c else c ++ "e" :: e.

Lemma parse_render neg c e :
  normal neg c e →
  ∃ p, parse_number (render neg c e) = Some p ∧ value p = normal_value neg c e.
Proof.
  intros Hn. set (ex := if str_eqb e ["0"] then None else Some ("e", e)).
  exists (mkParts neg c None ex).
  assert (Hbody : render neg c e = (if neg then ["-"] else []) ++ c ++ exp_suffix ex).
  { unfold render, ex. destruct neg, (str_eqb e ["0"]); cbn [exp_suffix app]; rewrite ?app_nil_r; done. }
  assert (Hr : no_digit_head (exp_suffix ex)) by (unfold ex; by destruct (str_eqb e ["0"])).
  pose proof (parse_int_canon c (exp_suffix ex) (nm_coef _ _ _ Hn) Hr) as Hi.
  assert (He : parse_exp (exp_suffix ex) = Some ex).
  { unfold ex. destruct (str_eqb e ["0"]); [done|]. apply parse_exp_canon, (nm_exp _ _ _ Hn). }
  assert (Hf : parse_frac (exp_suffix ex) = Some (None, exp_suffix ex))
    by (unfold ex; by destruct (str_eqb e ["0"])).
  split.
  - rewrite Hbody. unfold parse_number. destruct neg; cbn [app].
    + by rewrite Hi, Hf, He.
    + destruct (nm_coef _ _ _ Hn) as (Hd & Hne & _). destruct c as [|x c]; [done|].
      apply list.Forall_cons in Hd as [Hx _].
      assert (match (x :: c) ++ exp_suffix ex with "-" :: l' => (true, l') | _ => (false, (x :: c) ++ exp_suffix ex) end
              = (false, (x :: c) ++ exp_suffix ex)) as ->
        by (by destruct x as [[] [] [] [] [] [] [] []]).
      by rewrite Hi, Hf, He.
  - unfold value, normal_value, tok_mant, tok_exp, frac_digits. cbn. rewrite app_nil_r. f_equal.
    unfold ex, str_eqb. destruct (bool_decide (e = ["0"])) eqn:E; cbn; [|lia].
    apply bool_decide_eq_true in E as ->. done.
Qed.

(** [CanonicalNumber] is a normal form: it fails exactly on invalid tokens,
    its result is a valid number with the same value, and two numbers have the
    same canonical token exactly when they are equal; so digests taken over
    canonical tokens neither separate equal arguments nor merge different ones. *)
Theorem CanonicalNumber_exact a b :
  match parse_number a, CanonicalNumber a with
  | None, None => True
  | Some p, Some t => ∃ p', parse_number t = Some p' ∧ dec_cmp (value p) (value p') = Eq
  | _, _ => False
  end ∧
  (valid_number a = true ∧ valid_number b = true ∧ CanonicalNumber a = CanonicalNumber b
   ↔ EqualNumbers a b = true).
Proof.
  unfold CanonicalNumber, valid_number, EqualNumbers.
  destruct (parse_number a) as [p|] eqn:Ea.
  2:{ rewrite numberParts_None by done. split; [done|]. split; [by intros (? & _)|done]. }
  destruct (numberParts_value a p Ea) as (n1 & c1 & e1 & -> & H1 & V1).
  change (if str_eqb e1 ["0"] then if n1 then "-" :: c1 else c1
          else (if n1 then "-" :: c1 else c1) ++ "e" :: e1) with (render n1 c1 e1).
  destruct (parse_render n1 c1 e1 H1) as (p1 & Ep1 & Ev1). split.
  { exists p1. split; [done|]. rewrite V1, Ev1. apply normal_refl. }
  destruct (parse_number b) as [q|] eqn:Eb.
  2:{ rewrite (numberParts_None b) by done. split; [by intros (_ & ? & _)|done]. }
  destruct (numberParts_value b q Eb) as (n2 & c2 & e2 & -> & H2 & V2).
  change (if str_eqb e2 ["0"] then if n2 then "-" :: c2 else c2
          else (if n2 then "-" :: c2 else c2) ++ "e" :: e2) with (render n2 c2 e2).
  destruct (parse_render n2 c2 e2 H2) as (p2 & Ep2 & Ev2).
  unfold str_eqb at 1 2. rewrite !andb_true_iff, !bool_decide_eq_true, Bool.eqb_true_iff. split.
  - intros (_ & _ & [= E]). rewrite E, Ep2 in Ep1. injection Ep1 as ->.
    destruct (normal_unique n1 c1 e1 n2 c2 e2 H1 H2) as (-> & -> & ->); [|done].
    rewrite <- Ev1, Ev2. apply normal_refl.
  - by intros [[-> ->] ->].
Qed.
