(* ===== verification/Predicates.v ===== *)
(** * Policy inputs and argument predicates

    Models the decision types of [internal/policy/policy.go],
    [internal/policy/predicates.go] and the value equality of
    [internal/jsonvalue/jsonvalue.go].

    [marshal_float] is [json.Marshal] on a [float64] (it fails on NaN and the
    infinities); decoded tool arguments carry [json.Number] tokens, so floats
    only come from configured values. *)

From Stdlib Require Import Ascii String.
From S2P Require Import Prelude GoStrings GoAny JsonNumber.
Local Open Scope string_scope.
Local Open Scope Z_scope.

(** ** Decision types *)

Definition StageConnectorSession : string := "connector.session".
Definition StageToolCall : string := "tool.call".
Definition StageRunCreate : string := "run.create".

Definition EffectAllow : string := "allow".
Definition EffectDeny : string := "deny".
Definition EffectPending : string := "pending".

Definition ReasonPolicyNoGrant : string := "policy_no_grant".
Definition ReasonPolicyToolDenied : string := "policy_tool_denied".
Definition ReasonPolicyWebhookDeny : string := "policy_webhook_deny".
Definition ReasonPolicyWebhookFailed : string := "policy_webhook_failed".
Definition ReasonPolicyDefaultDeny : string := "policy_default_deny".
Definition ReasonPolicyMissingBinding : string := "policy_missing_binding".
Definition ReasonPolicyPending : string := "policy_pending".
Definition ReasonPolicyAdmissionDeny : string := "policy_admission_deny".
Definition ReasonPolicyPredicate : string := "policy_predicate".
Definition ReasonMandatoryHITL : string := "mandatory_hitl".

Record PolicyInput := mkInput {
  Stage : string;
  TenantID : string;
  Principal : string;
  AgentID : string;
  RunID : string;
  Generation : Z;
  Connector : string;
  Tool : string;
  Args : any;                                (* ANil: nil *)
  ArgsMeta : option (list (string * any));   (* None: a nil map *)
  ArgsDigest : string;
  Claims : list (string * any);
  Labels : list (string * string)
}.

Record PolicyDecision := mkDecision {
  Effect : string;
  Reason : string;
  ReasonCode : string;
  RuleID : string;
  LatencyMs : Z
}.

Record Predicate := mkPredicate {
  PID : string;
  PTenantID : string;
  PAgentID : string;
  PConnector : string;
  PTool : string;
  PPath : string;
  POp : string;
  PValue : any;
  PEffect : string;
  PReason : string;
  PReasonCode : string
}.

(** ** Values *)

(** A Go map as an association list. *)
Fixpoint assoc {V} (k : string) (m : list (string * V)) : option V :=
  match m with
  | [] => None
  | (k', v) :: m' => if String.eqb k' k then Some v else assoc k m'
  end.

Definition asSlice (v : any) : option (list any) :=
  match v with AArr l => Some l | _ => None end.

(** [strconv.Atoi] *)
Definition Atoi (s : string) : option Z :=
  let '(neg, d) := match s with
                   | String "-" s' => (true, s')
                   | String "+" s' => (false, s')
                   | _ => (false, s)
                   end in
  match parse_digits d with
  | Some z => let z := if neg then - z else z in
              if (- 2 ^ 63 <=? z) && (z <? 2 ^ 63) then Some z else None
  | None => None
  end.

(** [reflect.DeepEqual] on decoded values that are neither numbers tokens, maps
    nor slices. *)
Definition DeepEqual (a b : any) : bool :=
  match a, b with
  | ANil, ANil => true
  | ABool x, ABool y => Bool.eqb x y
  | AStr x, AStr y => String.eqb x y
  | AInt64 x, AInt64 y => x =? y
  | AInt x, AInt y => x =? y
  | AFloat x, AFloat y => f64_eq x y
  | _, _ => false
  end.

Definition tok (s : string) : list ascii := list_ascii_of_string s.

(** [jsonvalue.Equal] *)
Fixpoint Equal (a b : any) {struct a} : bool :=
  match a with
  | ANumber x => match b with ANumber y => EqualNumbers (tok x) (tok y) | _ => false end
  | AMap m =>
      match b with
      | AMap m' =>
          (length m =? length m')%nat &&
          (fix go (m : list (string * any)) :=
             match m with
             | [] => true
             | (k, v) :: m1 =>
                 match assoc k m' with
                 | Some w => Equal v w && go m1
                 | None => false
                 end
             end) m
      | _ => false
      end
  | AArr l =>
      match b with
      | AArr l' =>
          (length l =? length l')%nat &&
          (fix go (l l' : list any) :=
             match l, l' with
             | v :: l1, w :: l1' => Equal v w && go l1 l1'
             | _, _ => true
             end) l l'
      | _ => false
      end
  | _ => DeepEqual a b
  end.

(** [lookupPath]: a dotted path through objects and arrays. *)
Fixpoint lookup_segs (cur : any) (segs : list string) : option any :=
  match segs with
  | [] => Some cur
  | seg :: segs' =>
      if String.eqb seg "" then None
      else match cur with
           | AMap m => match assoc seg m with
                       | Some v => lookup_segs v segs'
                       | None => None
                       end
           | AArr l => match Atoi seg with
                       | Some i => if (i <? 0) || (Z.of_nat (length l) <=? i) then None
                                   else match l !! Z.to_nat i with
                                        | Some v => lookup_segs v segs'
                                        | None => None
                                        end
                       | None => None
                       end
           | _ => None
           end
  end.

Definition lookupPath (root : any) (path : string) : option any :=
  lookup_segs root (Split path ".").

Definition predicateArgs (inp : PolicyInput) : any :=
  match Args inp with
  | ANil => match ArgsMeta inp with Some m => AMap m | None => AMap [] end
  | a => a
  end.

(** ** Validation *)

Definition known_op (op : string) : bool :=
  existsb (String.eqb op) ["eq"; "neq"; "gt"; "gte"; "lt"; "lte"; "in"; "contains"; "exists"].

Definition ValidatePredicate (p : Predicate) : res string Predicate :=
  let out := mkPredicate (TrimSpace (PID p)) (TrimSpace (PTenantID p)) (TrimSpace (PAgentID p))
    (TrimSpace (PConnector p)) (TrimSpace (PTool p)) (TrimSpace (PPath p))
    (ToLower (TrimSpace (POp p))) (PValue p) (ToLower (TrimSpace (PEffect p)))
    (TrimSpace (PReason p)) (TrimSpace (PReasonCode p)) in
  if String.eqb (PID out) "" then Err "predicate id is required"
  else if String.eqb (PTenantID out) "" || String.eqb (PConnector out) ""
  then Err "tenant_id and connector are required"
  else if String.eqb (PPath out) "" then Err "when.path is required"
  else if negb (known_op (POp out)) then Err "unknown op"
  else if negb (String.eqb (PEffect out) EffectDeny) && negb (String.eqb (PEffect out) EffectPending)
  then Err "effect must be deny or pending"
  else if String.eqb (POp out) "in" && match asSlice (PValue out) with None => true | Some _ => false end
  then Err "in requires an array value"
  else Ok out.

Section eval.
Variable marshal_float : float64 → option (list ascii).

Definition asNumber (v : any) : option (list ascii) :=
  match v with
  | ANumber n => match CompareNumbers (tok n) (tok n) with Some _ => Some (tok n) | None => None end
  | AFloat f => marshal_float f
  | AInt z => Some (Itoa z)
  | AInt64 z => Some (Itoa z)
  | _ => None
  end.

Definition valuesEqual (a b : any) : bool :=
  match asNumber a with
  | Some x => match asNumber b with Some y => EqualNumbers x y | None => false end
  | None => match asNumber b with Some _ => false | None => Equal a b end
  end.

(** [evalPredicate]: (matched, path present). *)
Definition compare_op (op : string) (got want : any) : bool :=
  match asNumber got, asNumber want with
  | Some a, Some b =>
      match CompareNumbers a b with
      | Some order =>
          if String.eqb op "gt" then 0 <? order
          else if String.eqb op "gte" then 0 <=? order
          else if String.eqb op "lt" then order <? 0
          else order <=? 0
      | None => false
      end
  | _, _ => false
  end.

Definition evalPredicate (p : Predicate) (inp : PolicyInput) : bool * bool :=
  let got := lookupPath (predicateArgs inp) (PPath p) in
  if String.eqb (POp p) "exists" then (match got with Some _ => true | None => false end, true)
  else match got with
  | None => (false, false)
  | Some got =>
      let op := POp p in
      if String.eqb op "eq" then (valuesEqual got (PValue p), true)
      else if String.eqb op "neq" then (negb (valuesEqual got (PValue p)), true)
      else if existsb (String.eqb op) ["gt"; "gte"; "lt"; "lte"]
      then (compare_op op got (PValue p), true)
      else if String.eqb op "in" then
        (match asSlice (PValue p) with
         | Some sl => existsb (valuesEqual got) sl
         | None => false
         end, true)
      else if String.eqb op "contains" then
        (match got with
         | AStr gs => match PValue p with AStr want => Contains gs want | _ => false end
         | _ => match asSlice got with
                | Some sl => existsb (λ item, valuesEqual item (PValue p)) sl
                | None => false
                end
         end, true)
      else (false, true)
  end.

Definition predicateMatchesScope (p : Predicate) (inp : PolicyInput) : bool :=
  if negb (String.eqb (PTenantID p) (TrimSpace (TenantID inp))) then false
  else if negb (String.eqb (PConnector p) (TrimSpace (Connector inp))) then false
  else if negb (String.eqb (PAgentID p) "") && negb (String.eqb (PAgentID p) (TrimSpace (AgentID inp)))
  then false
  else if negb (String.eqb (PTool p) "") && negb (String.eqb (PTool p) (TrimSpace (Tool inp)))
  then false
  else true.

Definition predicateDecision (p : Predicate) : PolicyDecision :=
  let code := if String.eqb (PReasonCode p) "" then
                (if String.eqb (PEffect p) EffectPending then ReasonPolicyPending
                 else ReasonPolicyPredicate)
              else PReasonCode p in
  let reason := if String.eqb (PReason p) "" then "denied by argument predicate" else PReason p in
  mkDecision (PEffect p) reason code (PID p) 0.

(** The rule applies to this call. *)
Definition fires (inp : PolicyInput) (p : Predicate) : bool :=
  predicateMatchesScope p inp
  && (let '(ok, present) := evalPredicate p inp in negb (negb present || negb ok)).

Fixpoint scan_rules (inp : PolicyInput) (firstDeny firstPending : option PolicyDecision)
    (rules : list Predicate) : option PolicyDecision * option PolicyDecision :=
  match rules with
  | [] => (firstDeny, firstPending)
  | p :: rules' =>
      if negb (fires inp p) then scan_rules inp firstDeny firstPending rules'
      else
        let dec := predicateDecision p in
        let firstDeny := match firstDeny with
                         | None => if String.eqb (Effect dec) EffectDeny then Some dec else None
                         | d => d
                         end in
        let firstPending := match firstPending with
                            | None => if String.eqb (Effect dec) EffectPending then Some dec else None
                            | d => d
                            end in
        scan_rules inp firstDeny firstPending rules'
  end.

Definition applyPredicates (rules : list Predicate) (inp : PolicyInput) : option PolicyDecision :=
  if negb (String.eqb (Stage inp) StageToolCall) || (length rules =? 0)%nat then None
  else match scan_rules inp None None rules with
       | (Some d, _) => Some d
       | (None, p) => p
       end.

(** ** What the scan returns *)

Definition first_with (inp : PolicyInput) (effect : string) (rules : list Predicate)
  : option PolicyDecision :=
  predicateDecision <$> find_first (λ p, fires inp p && String.eqb (PEffect p) effect) rules.

Lemma scan_rules_spec inp rules d p :
  scan_rules inp d p rules =
  (match d with Some _ => d | None => first_with inp EffectDeny rules end,
   match p with Some _ => p | None => first_with inp EffectPending rules end).
Proof.
  unfold first_with. revert d p. induction rules as [|r rules IH]; intros d p; simpl.
  - by destruct d, p.
  - destruct (fires inp r); simpl; rewrite IH; clear IH; [|done].
    destruct d, p; simpl; try done;
      destruct (String.eqb (PEffect r) EffectDeny) eqn:E1, (String.eqb (PEffect r) EffectPending) eqn:E2;
      done.
Qed.

Lemma applyPredicates_spec rules inp :
  applyPredicates rules inp =
  if String.eqb (Stage inp) StageToolCall then
    match first_with inp EffectDeny rules with
    | Some d => Some d
    | None => first_with inp EffectPending rules
    end
  else None.
Proof.
  unfold applyPredicates. destruct (String.eqb (Stage inp) StageToolCall); simpl; [|done].
  destruct rules as [|r rules]; [done|]. simpl length. simpl Nat.eqb. cbv iota.
  rewrite scan_rules_spec. by destruct (first_with inp EffectDeny (r :: rules)).
Qed.
Lemma first_with_effect inp effect rules d : first_with inp effect rules = Some d → Effect d = effect.
Proof.
  unfold first_with. destruct (find_first _ rules) as [p|] eqn:E; [|done]. intros [= <-].
  apply find_first_Some in E as [_ H]. apply andb_true_iff in H as [_ H]. by apply String.eqb_eq in H.
Qed.

Lemma first_with_existsb inp effect rules :
  (if first_with inp effect rules then true else false)
  = existsb (λ p, fires inp p && String.eqb (PEffect p) effect) rules.
Proof.
  unfold first_with. induction rules as [|r rules IH]; [done|]. simpl.
  destruct (fires inp r && String.eqb (PEffect r) effect); [done|]. exact IH.
Qed.

(** Predicates only restrict, and deny wins whatever the order of the rules:
    on a tool call the decision is deny when some firing rule denies, otherwise
    pending when some rule fires, and otherwise none; rules never allow. *)
Theorem predicates_deny_wins rules inp :
  Forall (λ p, PEffect p = EffectDeny ∨ PEffect p = EffectPending) rules →
  Effect <$> applyPredicates rules inp =
  if negb (String.eqb (Stage inp) StageToolCall) then None
  else if existsb (λ p, fires inp p && String.eqb (PEffect p) EffectDeny) rules then Some EffectDeny
  else if existsb (fires inp) rules then Some EffectPending
  else None.
Proof.
  intros Hr. rewrite applyPredicates_spec. destruct (String.eqb (Stage inp) StageToolCall); simpl; [|done].
  rewrite <- (first_with_existsb inp EffectDeny).
  destruct (first_with inp EffectDeny rules) as [d|] eqn:Ed; simpl; [by rewrite (first_with_effect _ _ _ _ Ed)|].
  assert (existsb (fires inp) rules = existsb (λ p, fires inp p && String.eqb (PEffect p) EffectPending) rules) as ->.
  { pose proof (first_with_existsb inp EffectDeny rules) as Hn. rewrite Ed in Hn. clear Ed.
    induction Hr as [|r rules Hp _ IH]; [done|]. simpl in *. symmetry in Hn.
    apply orb_false_iff in Hn as [Hr Hn]. rewrite IH by done. f_equal.
    destruct (fires inp r); [|done]. destruct Hp as [Hp|Hp]; rewrite Hp in *; done. }
  rewrite <- first_with_existsb.
  destruct (first_with inp EffectPending rules) as [d|] eqn:Ep; simpl; [|done].
  by rewrite (first_with_effect _ _ _ _ Ep).
Qed.
End eval.

Definition demo_rule (id effect : string) : Predicate :=
  mkPredicate id "acme" "" "stripe" "" "amount" "gt" (ANumber "100") effect "" "".

Definition demo_call (amount : string) : PolicyInput :=
  mkInput StageToolCall "acme" "alice" "billing" "r1" 0 "stripe" "refund"
    (AMap [("amount", ANumber amount)]) None "" [] [].

Lemma predicates_deny_wins_witness :
  Effect <$> applyPredicates (λ _, None) [demo_rule "p" EffectPending; demo_rule "d" EffectDeny]
               (demo_call "1.5e2") = Some EffectDeny.
Proof.
  rewrite (predicates_deny_wins (λ _, None) [demo_rule "p" EffectPending; demo_rule "d" EffectDeny]
             (demo_call "1.5e2")).
  - vm_compute. reflexivity.
  - constructor; [right; reflexivity|constructor; [left; reflexivity|constructor]].
Defined.
