(* ===== verification/Surrogates.v ===== *)
(** * Unpaired surrogate escapes

    Models [validSurrogates] and [hexUnit] of [internal/jsonvalue/unique.go]: a
    byte scan of a JSON text that refuses an escaped UTF-16 surrogate without its
    partner, which parsers read differently.  The scan indexes and slices the text;
    an access out of range is [None].

    Shown: on every text with the string structure of JSON the scan answers, and
    its answer is that every escape is paired ([validSurrogates_paired]). *)

From Stdlib Require Import Ascii String.
From S2P Require Import Prelude GoStrings.
Local Open Scope Z_scope.

Definition quote : ascii := "034"%char.
Definition backslash : ascii := "092"%char.
Definition letter_u : ascii := "117"%char.

Definition zbyte (c : ascii) : Z := Z.of_N (byte_of c).

(** Byte subtraction wraps at 8 bits. *)
Definition hex_digit (d : ascii) : Z :=
  if zbyte d <=? 57 then (zbyte d - 48) mod 256
  else if zbyte d <=? 70 then (zbyte d - 65) mod 256 + 10
  else (zbyte d - 97) mod 256 + 10.

Definition hexUnit (digits : list ascii) : Z := foldl (λ n d, n * 16 + hex_digit d) 0 digits.

Definition low_unit (u : Z) : bool := (0xdc00 <=? u) && (u <=? 0xdfff).
Definition high_unit (u : Z) : bool := (0xd800 <=? u) && (u <=? 0xdbff).

Fixpoint scan_surrogates (inString : bool) (data : list ascii) : option bool :=
  match data with
  | [] => Some true
  | c :: rest =>
      let inString := if Ascii.eqb c quote then negb inString else inString in
      if negb inString || negb (Ascii.eqb c backslash) then scan_surrogates inString rest
      else
        match rest with
        | [] => None
        | d :: rest =>
            if negb (Ascii.eqb d letter_u) then scan_surrogates inString rest
            else
              match rest with
              | h1 :: h2 :: h3 :: h4 :: rest =>
                  let unit := hexUnit [h1; h2; h3; h4] in
                  if low_unit unit then Some false
                  else if high_unit unit then
                    match rest with
                    | b :: u :: l1 :: l2 :: l3 :: l4 :: rest =>
                        if negb (Ascii.eqb b backslash) || negb (Ascii.eqb u letter_u) then Some false
                        else if negb (low_unit (hexUnit [l1; l2; l3; l4])) then Some false
                        else scan_surrogates inString rest
                    | _ => Some false
                    end
                  else scan_surrogates inString rest
              | _ => None
              end
        end
  end.

Definition validSurrogates (data : list ascii) : option bool := scan_surrogates false data.

(** ** The string structure of a JSON text *)

Inductive piece :=
| PByte (c : ascii)
| PEscape (d : ascii)
| PUnit (h1 h2 h3 h4 : ascii).

Definition piece_ok (p : piece) : Prop :=
  match p with
  | PByte c => c ≠ quote ∧ c ≠ backslash
  | PEscape d => d ≠ letter_u
  | PUnit _ _ _ _ => True
  end.

Definition show_piece (p : piece) : list ascii :=
  match p with
  | PByte c => [c]
  | PEscape d => [backslash; d]
  | PUnit h1 h2 h3 h4 => [backslash; letter_u; h1; h2; h3; h4]
  end.

(** A text is bytes between strings, and strings. *)
Inductive segment := SByte (c : ascii) | SString (body : list piece).

Definition segment_ok (s : segment) : Prop :=
  match s with SByte c => c ≠ quote | SString body => Forall piece_ok body end.

Definition show_segment (s : segment) : list ascii :=
  match s with
  | SByte c => [c]
  | SString body => (quote :: (body ≫= show_piece) ++ [quote])%list
  end.

Definition json_text (data : list ascii) : Prop :=
  ∃ doc, Forall segment_ok doc ∧ data = doc ≫= show_segment.

(** Every escaped surrogate is a high one followed at once by a low one. *)
Fixpoint paired (body : list piece) : bool :=
  match body with
  | [] => true
  | PUnit h1 h2 h3 h4 :: body =>
      let unit := hexUnit [h1; h2; h3; h4] in
      if low_unit unit then false
      else if high_unit unit then
        match body with
        | PUnit l1 l2 l3 l4 :: body => low_unit (hexUnit [l1; l2; l3; l4]) && paired body
        | _ => false
        end
      else paired body
  | _ :: body => paired body
  end.

Definition text_paired (doc : list segment) : bool :=
  forallb (λ s, match s with SByte _ => true | SString body => paired body end) doc.

(** ** The scan *)

Lemma eqb_no (a b : ascii) : a ≠ b → Ascii.eqb a b = false.
Proof. intros H. by apply Ascii.eqb_neq. Qed.

(** What follows a string's body starts with a quote or a piece that is no unit. *)
Lemma scan_not_low (body : list piece) rest :
  Forall piece_ok body → match body with PUnit _ _ _ _ :: _ => False | _ => True end →
  match ((body ≫= show_piece) ++ quote :: rest)%list with
  | b :: u :: l1 :: l2 :: l3 :: l4 :: _ => negb (Ascii.eqb b backslash) || negb (Ascii.eqb u letter_u) = true
  | _ => True
  end.
Proof.
  intros Hok Hb. destruct body as [|[c|d|h1 h2 h3 h4] body]; simpl; [| | |done].
  - by do 5 (destruct rest as [|? rest]; simpl; [done|]).
  - apply list.Forall_cons in Hok as [[_ Hc] _]. rewrite (eqb_no c backslash) by done. by repeat case_match.
  - apply list.Forall_cons in Hok as [Hd _]. rewrite (eqb_no d letter_u) by done.
    by repeat case_match.
Qed.

Lemma scan_body n : ∀ body rest, (length body ≤ n)%nat → Forall piece_ok body →
  scan_surrogates true ((body ≫= show_piece) ++ quote :: rest)%list
  = if paired body then scan_surrogates false rest else Some false.
Proof.
  induction n as [|n IH]; intros [|p body] rest Hlen Hok; simpl in Hlen; try (simpl; done || lia).
  apply list.Forall_cons in Hok as [Hp Hok].
  destruct p as [c|d|h1 h2 h3 h4]; simpl.
  - destruct Hp as [Hq Hb]. rewrite (eqb_no c quote), (eqb_no c backslash) by done. simpl. apply IH; [lia|done].
  - simpl in Hp. rewrite (eqb_no d letter_u) by done. simpl. apply IH; [lia|done].
  - destruct (low_unit _) eqn:Hlow; [done|]. destruct (high_unit _) eqn:Hhigh; [|apply IH; [lia|done]].
    destruct body as [|[c|d|l1 l2 l3 l4] body].
    + pose proof (scan_not_low [] rest Hok I) as H. simpl in H |- *. repeat case_match; simplify_eq; done.
    + pose proof (scan_not_low (PByte c :: body) rest Hok I) as H. simpl in H |- *. repeat case_match; simplify_eq; done.
    + pose proof (scan_not_low (PEscape d :: body) rest Hok I) as H. simpl in H |- *. repeat case_match; simplify_eq; done.
    + simpl. destruct (low_unit (hexUnit [l1; l2; l3; l4])); [|done]. simpl.
      apply list.Forall_cons in Hok as [_ Hok]. apply IH; [simpl in *; lia|done].
Qed.

(** On a JSON text the scan stays in range and answers whether every surrogate escape
    is paired. *)
Theorem validSurrogates_paired doc :
  Forall segment_ok doc → validSurrogates (doc ≫= show_segment) = Some (text_paired doc).
Proof.
  unfold validSurrogates. induction 1 as [|s doc Hs Hdoc IH]; [done|].
  destruct s as [c|body]; simpl.
  - simpl in Hs. rewrite (eqb_no c quote) by done. simpl. apply IH.
  - rewrite <- app_assoc. simpl. rewrite (scan_body (length body)) by done.
    destruct (paired body); [apply IH|done].
Qed.
