(* ===== verification/PolicyArgs.v ===== *)
(** * Binding tool arguments

    Models [internal/policy/args.go] and [internal/jsonvalue/unique.go]: tool
    arguments are decoded without ambiguity, digested in a canonical form that an
    approval is bound to, and shown to operators in a redacted form.

    The lexer of [encoding/json] is a parameter; its encoder writes objects
    with sorted keys ([key_sorted]); the hash of the text is an arbitrary
    function. *)

From Stdlib Require Import Ascii String.
From S2P Require Import Prelude GoStrings GoAny JsonNumber Predicates Surrogates.
Local Open Scope string_scope.
Local Open Scope Z_scope.

(** ** Unambiguous decoding *)

Inductive jtok :=
| TOpenObj | TCloseObj | TOpenArr | TCloseArr
| TScalar (v : any).              (* nil, bool, json.Number or string *)

Inductive derr := DInvalid | DToken | DDuplicate | DFuel | DPanic.

(** [d.More()] *)
Definition More (ts : list jtok) : bool :=
  match ts with [] | TCloseObj :: _ | TCloseArr :: _ => false | _ => true end.

(** The token after a container; a missing one is an error. *)
Definition close (v : any) (ts : list jtok) : res derr (any * list jtok) :=
  match ts with [] => Err DToken | _ :: ts => Ok (v, ts) end.

Fixpoint uniqueValue (fuel : nat) (ts : list jtok) : res derr (any * list jtok) :=
  match fuel with
  | O => Err DFuel
  | S n =>
      match ts with
      | [] => Err DToken
      | TOpenObj :: ts => unique_members n [] ts
      | TOpenArr :: ts => unique_items n [] ts
      | TScalar v :: ts => Ok (v, ts)
      | TCloseObj :: ts | TCloseArr :: ts => Err DToken
      end
  end
with unique_members (fuel : nat) (out : list (string * any)) (ts : list jtok) : res derr (any * list jtok) :=
  match fuel with
  | O => Err DFuel
  | S n =>
      if More ts then
        match ts with
        | TScalar (AStr name) :: ts =>
            match assoc name out with
            | Some _ => Err DDuplicate
            | None =>
                match uniqueValue n ts with
                | Err e => Err e
                | Ok (v, ts) => unique_members n (out ++ [(name, v)])%list ts
                end
            end
        | _ => Err DToken
        end
      else close (AMap out) ts
  end
with unique_items (fuel : nat) (out : list any) (ts : list jtok) : res derr (any * list jtok) :=
  match fuel with
  | O => Err DFuel
  | S n =>
      if More ts then
        match uniqueValue n ts with
        | Err e => Err e
        | Ok (v, ts) => unique_items n (out ++ [v])%list ts
        end
      else close (AArr out) ts
  end.

(** Two calls per token are enough. *)
Definition decode_tokens (ts : list jtok) : res derr any :=
  match uniqueValue (2 * length ts + 1) ts with Ok (v, _) => Ok v | Err e => Err e end.

(** ** Digest *)

Fixpoint canonicalDigestValue (v : any) : any :=
  match v with
  | ANumber x =>
      match CanonicalNumber (tok x) with
      | Some n => ANumber (string_of_list_ascii n)
      | None => v
      end
  | AMap m => AMap (map (λ kv, (kv.1, canonicalDigestValue kv.2)) m)
  | AArr l => AArr (map canonicalDigestValue l)
  | _ => v
  end.

Definition key_le (a b : string * any) : bool := String.leb a.1 b.1.

(** The document as the encoder writes it. *)
Fixpoint key_sorted (v : any) : any :=
  match v with
  | AMap m => AMap (sort_by key_le (map (λ kv, (kv.1, key_sorted kv.2)) m))
  | AArr l => AArr (map key_sorted l)
  | _ => v
  end.

(** Missing arguments are the empty object. *)
Definition or_object (v : any) : any := match v with ANil => AMap [] | _ => v end.

Definition digest_document (v : any) : any := key_sorted (canonicalDigestValue (or_object v)).

(** [hash] is the versioned SHA-256 of the text in hexadecimal. *)
Definition digestArgs (hash : any → string) (v : any) : string := hash (digest_document v).

(** ** Redaction *)

Definition argsMetaMaxBytes : Z := 4096.
Definition argsMetaMaxDepth : nat := 3.
Definition argsStringMaxRunes : nat := 256.
Definition argsMetaOmitted : string := "<omitted>".

Definition secretArgKey (k : string) : bool :=
  let s := ToLower (TrimSpace k) in
  String.eqb s "password" || String.eqb s "token" || String.eqb s "secret" || String.eqb s "authorization"
  || String.eqb s "api_key".

(** *** Runes of a string ([unicode/utf8]) *)

Definition in_range (lo hi : N) (c : ascii) : bool := (lo <=? byte_of c)%N && (byte_of c <=? hi)%N.
Definition cont (c : ascii) : bool := in_range 128 191 c.

(** The width of the rune at the head, or [None] on an invalid byte. *)
Definition rune_width (l : list ascii) : option nat :=
  match l with
  | [] => None
  | a :: l =>
      if in_range 0 127 a then Some 1%nat
      else match l with
      | [] => None
      | b :: l =>
          if in_range 194 223 a && cont b then Some 2%nat
          else match l with
          | [] => None
          | c :: l =>
              if cont c && ((in_range 224 224 a && in_range 160 191 b) || (in_range 225 236 a && cont b)
                            || (in_range 237 237 a && in_range 128 159 b) || (in_range 238 239 a && cont b))
              then Some 3%nat
              else match l with
              | [] => None
              | d :: _ =>
                  if cont c && cont d && ((in_range 240 240 a && in_range 144 191 b) || (in_range 241 243 a && cont b)
                                          || (in_range 244 244 a && in_range 128 143 b))
                  then Some 4%nat else None
              end
          end
      end
  end.

(** [string('\uFFFD')] *)
Definition RuneError : list ascii := [chr 239; chr 191; chr 189].

(** [[]rune(s)], each rune as the bytes that encode it. *)
Fixpoint runes (fuel : nat) (l : list ascii) : list (list ascii) :=
  match fuel, l with
  | S n, _ :: rest =>
      match rune_width l with
      | Some w => take w l :: runes n (drop w l)
      | None => RuneError :: runes n rest
      end
  | _, _ => []
  end.

Definition truncateRunes (s : string) (max : nat) : string :=
  let l := list_ascii_of_string s in
  let rs := runes (length l) l in
  if (length rs <=? max)%nat then s else string_of_list_ascii (concat (take max rs)).

Section redact.
Variable marshal_len : list (string * any) → Z.

Fixpoint copyRedactedValue (v : any) (depth : nat) {struct v} : any :=
  if (argsMetaMaxDepth <? depth)%nat then AStr argsMetaOmitted
  else
    match v with
    | AMap m =>
        AMap ((fix copy (m : list (string * any)) :=
                 match m with
                 | [] => []
                 | (k, v) :: m => if secretArgKey k then copy m else (k, copyRedactedValue v (S depth)) :: copy m
                 end) m)
    | AArr l =>
        if (argsMetaMaxDepth <? S depth)%nat then AStr argsMetaOmitted
        else AArr (map (λ v, copyRedactedValue v (S depth)) l)
    | AStr s => AStr (truncateRunes s argsStringMaxRunes)
    | _ => v
    end.

Definition copyRedactedMap (m : list (string * any)) (depth : nat) : list (string * any) :=
  map (λ kv, (kv.1, copyRedactedValue kv.2 depth)) (List.filter (λ kv, negb (secretArgKey kv.1)) m).

(** Drops keys until the text fits; the list's order is the arbitrary order of a
    Go map. *)
Fixpoint fit (out : list (string * any)) : list (string * any) :=
  if marshal_len out <=? argsMetaMaxBytes then out
  else match out with
       | [] => [("_", AStr argsMetaOmitted)]
       | _ :: rest => fit rest
       end.

Definition redactArgs (v : any) : option (list (string * any)) :=
  match v with
  | AMap [] => None
  | AMap m => Some (fit (copyRedactedMap m 1))
  | _ => None
  end.
End redact.

(** ** Binding *)

Fixpoint utf8_valid (fuel : nat) (l : list ascii) : bool :=
  match fuel, l with
  | S n, _ :: _ => match rune_width l with Some w => utf8_valid n (drop w l) | None => false end
  | _, _ => true
  end.

Section bind.
(** [json.Valid] and the decoder's tokens; [None]: not one JSON value. *)
Variable lex : list ascii → option (list jtok).

Definition DecodeUnique (data : list ascii) : res derr any :=
  if negb (utf8_valid (length data) data) then Err DInvalid
  else
    match lex data with
    | None => Err DInvalid
    | Some ts =>
        match validSurrogates data with
        | None => Err DPanic
        | Some false => Err DInvalid
        | Some true => decode_tokens ts
        end
    end.

Definition parseCallArguments (raw : string) : res derr any :=
  let trim := TrimSpace raw in
  if String.eqb trim "" || String.eqb trim "null" then Ok (AMap [])
  else DecodeUnique (list_ascii_of_string raw).

(** The decoded value, its digest and its display form; [digest] and [redact] are
    [digestArgs] and [redactArgs] with the encoder they use. *)
Definition BindArgsStrict {D} (digest : any → D) (redact : any → option (list (string * any))) (raw : string)
  : res derr (any * D * option (list (string * any))) :=
  match parseCallArguments raw with
  | Err e => Err e
  | Ok parsed => Ok (parsed, digest parsed, redact parsed)
  end.
End bind.

(** ** Well-formed documents *)

Fixpoint decoded (v : any) : Prop :=
  match v with
  | ANumber x => valid_number (tok x) = true
  | AArr l => (fix all (l : list any) := match l with [] => True | v :: l => decoded v ∧ all l end) l
  | AMap m =>
      NoDup m.*1 ∧
      (fix all (m : list (string * any)) := match m with [] => True | (_, v) :: m => decoded v ∧ all m end) m
  | AInt64 _ | AInt _ | AFloat _ => False
  | _ => True
  end.

(** No object has a secret-looking key. *)
Fixpoint no_secret (v : any) : Prop :=
  match v with
  | AArr l => (fix all (l : list any) := match l with [] => True | v :: l => no_secret v ∧ all l end) l
  | AMap m =>
      (fix all (m : list (string * any)) :=
         match m with [] => True | (k, v) :: m => secretArgKey k = false ∧ no_secret v ∧ all m end) m
  | _ => True
  end.

Section any_rect.
Variable P : any → Prop.
Context (Hnil : P ANil) (Hbool : ∀ b, P (ABool b)) (Hnum : ∀ x, P (ANumber x)) (Hi64 : ∀ z, P (AInt64 z))
  (Hint : ∀ z, P (AInt z)) (Hfl : ∀ f, P (AFloat f)) (Hstr : ∀ s, P (AStr s))
  (Harr : ∀ l, (∀ v, v ∈ l → P v) → P (AArr l))
  (Hmap : ∀ m, (∀ k v, (k, v) ∈ m → P v) → P (AMap m)).

(** Induction through the nested lists. *)
Lemma any_nested v : P v.
Proof using All.
  revert v. fix IH 1. intros [| | | | | | |l|m]; [auto..| |].
  - apply Harr. induction l as [|x l IHl]; intros v Hv; [destruct (not_elem_of_nil _ Hv)|].
    apply elem_of_cons in Hv as [->|Hv]; [apply IH|by apply IHl].
  - apply Hmap. induction m as [|[k x] m IHm]; intros k' v Hv; [destruct (not_elem_of_nil _ Hv)|].
    apply elem_of_cons in Hv as [[= -> ->]|Hv]; [apply IH|by apply (IHm k')].
Qed.
End any_rect.

Lemma decoded_arr l : decoded (AArr l) ↔ ∀ v, v ∈ l → decoded v.
Proof.
  induction l as [|x l IH]; [split; [by intros _ v Hv%not_elem_of_nil|done]|].
  change (decoded (AArr (x :: l))) with (decoded x ∧ decoded (AArr l)). rewrite IH. set_solver.
Qed.

Lemma decoded_map m : decoded (AMap m) ↔ NoDup m.*1 ∧ ∀ k v, (k, v) ∈ m → decoded v.
Proof.
  simpl. apply and_iff_compat_l. induction m as [|[k x] m IH]; [split; [by intros _ k v Hv%not_elem_of_nil|done]|].
  rewrite IH. split; [|intros H; split; [apply (H k); left|intros k' v Hv; apply (H k'); by right]].
  intros [Hx Hm] k' v [[= -> ->]|Hv]%elem_of_cons; eauto.
Qed.

(** ** The digest separates exactly what differs *)

Lemma key_le_total a b : key_le a b = true ∨ key_le b a = true.
Proof. apply String.leb_total. Qed.

Lemma key_le_trans a b c : key_le a b = true → key_le b c = true → key_le a c = true.
Proof.
  unfold key_le. intros H1%Is_true_true H2%Is_true_true. apply Is_true_true.
  change (String.le a.1 c.1). etrans; [exact H1|exact H2].
Qed.

Lemma assoc_In {V} k (m : list (string * V)) v : assoc k m = Some v → (k, v) ∈ m.
Proof.
  induction m as [|[k' v'] m IH]; simpl; [done|]. destruct (String.eqb_spec k' k) as [->|].
  - intros [= ->]. left.
  - intros H. right. auto.
Qed.

Lemma assoc_NoDup {V} k (m : list (string * V)) v : NoDup m.*1 → (k, v) ∈ m → assoc k m = Some v.
Proof.
  induction m as [|[k' v'] m IH]; simpl; [by intros _ H%not_elem_of_nil|].
  intros [Hk Hm]%list.NoDup_cons [[= -> ->]|Hin]%elem_of_cons; [by rewrite String.eqb_refl|].
  destruct (String.eqb_spec k' k) as [->|]; [|auto]. destruct Hk. apply list_elem_of_fmap. by exists (k, v).
Qed.

(** Two objects have the same members exactly when they encode alike. *)
Lemma members_encode (f : any → any) (m m' : list (string * any)) :
  NoDup m.*1 → NoDup m'.*1 →
  let g := map (λ kv, (kv.1, f kv.2)) in
  sort_by key_le (g m) = sort_by key_le (g m') ↔
  length m = length m' ∧ ∀ k v, (k, v) ∈ m → ∃ w, assoc k m' = Some w ∧ f v = f w.
Proof.
  intros Hnd Hnd' g.
  assert (Hkeys : ∀ m : list (string * any), (g m).*1 = m.*1).
  { intros l. unfold g. rewrite <- (list_fmap_compose (λ kv, (kv.1, f kv.2)) fst). apply list_fmap_ext. done. }
  assert (Hgin : ∀ l k v, (k, v) ∈ g l ↔ ∃ w, (k, w) ∈ l ∧ v = f w).
  { intros l k v. unfold g. rewrite list_elem_of_fmap. split.
    - intros ([k' w]&[= -> ->]&Hin). eauto.
    - intros (w&Hin&->). by exists (k, w). }
  assert (HN : NoDup (g m)) by (apply (NoDup_fmap_1 fst); by rewrite Hkeys).
  assert (HN' : NoDup (g m')) by (apply (NoDup_fmap_1 fst); by rewrite Hkeys).
  assert (Hlen : ∀ l, length (g l) = length l) by (intros; apply length_map).
  assert (Hperm : g m ≡ₚ g m' ↔
    length m = length m' ∧ ∀ k v, (k, v) ∈ m → ∃ w, assoc k m' = Some w ∧ f v = f w).
  { split.
    - intros Hp. split; [by rewrite <- Hlen, Hp, Hlen|]. intros k v Hin.
      assert ((k, f v) ∈ g m') as (w&Hw&E)%Hgin by (rewrite <- Hp; apply Hgin; eauto).
      exists w. split; [by apply assoc_NoDup|done].
    - intros [Hl Hm]. apply submseteq_length_Permutation; [|by rewrite !Hlen, Hl].
      apply NoDup_submseteq; [done|]. intros [k x] (v&Hin&->)%Hgin. destruct (Hm _ _ Hin) as (w&Hw&->).
      apply Hgin. exists w. split; [by apply assoc_In|done]. }
  rewrite <- Hperm. split.
  - intros E. rewrite <- (sort_by_perm key_le (g m)), E. apply sort_by_perm.
  - intros Hp. apply (sort_by_unique key_le key_le_total key_le_trans); [|done].
    intros [k x] [k' y] Hx Hy H1 H2. assert (k = k') as <- by (by apply String.leb_antisym). rewrite <- Hp in Hy.
    apply (assoc_NoDup k) in Hx, Hy; [congruence|by rewrite Hkeys..].
Qed.

Lemma Equal_arr l l' : Equal (AArr l) (AArr l') = true ↔ Forall2 (λ v w, Equal v w = true) l l'.
Proof.
  revert l'. induction l as [|v l IH]; intros [|w l']; [by split|split; [done|by inversion 1]..|]. specialize (IH l').
  rewrite list.Forall2_cons, <- IH. simpl. rewrite !andb_true_iff. tauto.
Qed.

Lemma Equal_map m m' :
  Equal (AMap m) (AMap m') = true ↔
  length m = length m' ∧ ∀ k v, (k, v) ∈ m → ∃ w, assoc k m' = Some w ∧ Equal v w = true.
Proof.
  simpl. rewrite andb_true_iff, Nat.eqb_eq. apply and_iff_compat_l.
  induction m as [|[k v] m IH]; [split; [by intros _ ? ? H%not_elem_of_nil|done]|].
  destruct (assoc k m') as [w|] eqn:E; [rewrite andb_true_iff, IH|]; split.
  - intros [Hv Hm] k' v' [[= -> ->]|Hin]%elem_of_cons; eauto.
  - intros H. split; [|intros k' v' Hin; apply H; by right].
    destruct (H k v) as (w'&Hw&?); [left|]. congruence.
  - done.
  - intros H. destruct (H k v) as (w'&Hw&?); [left|]. congruence.
Qed.

Definition encoded (v : any) : any := key_sorted (canonicalDigestValue v).

Lemma encoded_map m : encoded (AMap m) = AMap (sort_by key_le (map (λ kv, (kv.1, encoded kv.2)) m)).
Proof. unfold encoded. simpl. by rewrite map_map. Qed.

Lemma encoded_arr l : encoded (AArr l) = AArr (map encoded l).
Proof. unfold encoded. simpl. by rewrite map_map. Qed.

Lemma encoded_num x : ∃ y, encoded (ANumber x) = ANumber y.
Proof. unfold encoded. simpl. destruct (CanonicalNumber (tok x)); simpl; eauto. Qed.

Lemma encoded_number x y :
  valid_number (tok x) = true → valid_number (tok y) = true →
  encoded (ANumber x) = encoded (ANumber y) ↔ EqualNumbers (tok x) (tok y) = true.
Proof.
  intros Hx Hy. destruct (CanonicalNumber_exact (tok x) (tok y)) as [Hcx <-].
  destruct (CanonicalNumber_exact (tok y) (tok y)) as [Hcy _].
  unfold encoded. simpl. pose proof Hx as Hx'. pose proof Hy as Hy'. unfold valid_number in Hx', Hy'.
  destruct (parse_number (tok x)); [|done]. destruct (parse_number (tok y)); [|done].
  destruct (CanonicalNumber (tok x)) as [a|]; [|done]. destruct (CanonicalNumber (tok y)) as [b|]; [|done].
  simpl. split.
  - intros [= H]. split_and!; [done..|]. f_equal.
    by rewrite <- (list_ascii_of_string_of_list_ascii a), H, list_ascii_of_string_of_list_ascii.
  - by intros (_&_&[= ->]).
Qed.

(** Two decoded documents encode alike exactly when they are equal values. *)
Lemma encoded_Equal a b : decoded a → decoded b → encoded a = encoded b ↔ Equal a b = true.
Proof.
  revert b. induction a as [| |x|z|z|f|s|l IH|m IH] using any_nested; intros c Ha Hc; try done.
  1, 2, 4: destruct c as [| |y| | | | | |]; try done; try (rewrite encoded_arr || rewrite encoded_map || destruct (encoded_num y) as [? ->]; done).
  - simpl. rewrite Bool.eqb_true_iff. split; [by intros [= ->]|by intros ->].
  - simpl. rewrite String.eqb_eq. split; [by intros [= ->]|by intros ->].
  - destruct (encoded_num x) as [x' Ex].
    destruct c as [| |y| | | | |l|m]; try done; rewrite ?Ex, ?encoded_arr, ?encoded_map; try done.
    rewrite <- Ex. by apply encoded_number.
  - destruct c as [| |y| | | | |l'|m]; rewrite encoded_arr; try done; rewrite ?encoded_arr, ?encoded_map; try done.
    { destruct (encoded_num y) as [? ->]. done. }
    rewrite Equal_arr. rewrite decoded_arr in Ha. rewrite decoded_arr in Hc.
    transitivity (map encoded l = map encoded l'); [split; congruence|]. revert l' Hc.
    induction l as [|v l IHl]; intros [|w l'] Hc; [by split|split; [done|by inversion 1]..|].
    rewrite list.Forall2_cons. simpl.
    rewrite <- (IH v) by (set_solver). rewrite <- IHl by set_solver. split; [by intros [= -> ->]|by intros [-> ->]].
  - destruct c as [| |y| | | | |l|m']; rewrite encoded_map; try done; rewrite ?encoded_arr, ?encoded_map; try done.
    { destruct (encoded_num y) as [? ->]. done. }
    apply decoded_map in Ha as [Hnd Ha]. apply decoded_map in Hc as [Hnd' Hc]. rewrite Equal_map.
    transitivity (sort_by key_le (map (λ kv, (kv.1, encoded kv.2)) m) = sort_by key_le (map (λ kv, (kv.1, encoded kv.2)) m'));
      [split; congruence|].
    rewrite members_encode by done. apply and_iff_compat_l.
    split; intros H k v Hin; destruct (H k v Hin) as (w&Hw&E); exists w; (split; [done|]);
      (apply (IH k v Hin); [by eapply Ha|eapply Hc; by apply assoc_In|done]).
Qed.

(** ** What the decoder returns *)

(** Scalar tokens are the lexer's: valid numbers, strings, booleans and null. *)
Definition scalar_ok (t : jtok) : Prop :=
  match t with TScalar v => decoded v ∧ match v with AArr _ | AMap _ => False | _ => True end | _ => True end.

Lemma assoc_None {V} k (m : list (string * V)) : assoc k m = None → k ∉ m.*1.
Proof.
  induction m as [|[k' v'] m IH]; simpl; [by intros _ H%not_elem_of_nil|].
  destruct (String.eqb_spec k' k); [done|]. intros Hn [->|H]%elem_of_cons; [done|by apply IH].
Qed.

Definition tail_of (ts ts' : list jtok) : Prop := ∃ k, ts = (k ++ ts')%list.

Lemma tail_Forall P ts ts' : tail_of ts ts' → Forall P ts → Forall P ts'.
Proof. intros [k ->] [_ H]%list.Forall_app. done. Qed.

Lemma tail_cons t ts ts' : tail_of ts ts' → tail_of (t :: ts) ts'.
Proof. intros [k ->]. by exists (t :: k). Qed.

Lemma tail_trans a b c : tail_of a b → tail_of b c → tail_of a c.
Proof. intros [k ->] [k' ->]. exists (k ++ k')%list. by rewrite <- app_assoc. Qed.

Lemma close_ok v ts v' ts' : close v ts = Ok (v', ts') → v' = v ∧ tail_of ts ts'.
Proof. destruct ts as [|t ts]; [done|]. intros [= <- <-]. split; [done|]. by exists [t]. Qed.

Lemma decoder_ok n :
  (∀ ts v ts', uniqueValue n ts = Ok (v, ts') → tail_of ts ts' ∧ (Forall scalar_ok ts → decoded v)) ∧
  (∀ out ts v ts', unique_members n out ts = Ok (v, ts') →
     tail_of ts ts' ∧ (Forall scalar_ok ts → decoded (AMap out) → decoded v)) ∧
  (∀ out ts v ts', unique_items n out ts = Ok (v, ts') →
     tail_of ts ts' ∧ (Forall scalar_ok ts → decoded (AArr out) → decoded v)).
Proof.
  induction n as [|n (IHv&IHm&IHi)]; [done|]. split_and!; cbn [uniqueValue unique_members unique_items].
  - intros [|[| | | |s] ts] v ts'; try done.
    + intros [Ht H]%IHm. split; [by apply tail_cons|]. intros [_ Hs]%list.Forall_cons. apply H; [done|].
      apply decoded_map. split; [apply NoDup_nil_2|by intros ? ? ?%not_elem_of_nil].
    + intros [Ht H]%IHi. split; [by apply tail_cons|]. intros [_ Hs]%list.Forall_cons. by apply H.
    + intros [= -> ->]. split; [by exists [TScalar v]|]. by intros [[? _] _]%list.Forall_cons.
  - intros out ts v ts'. destruct (More ts) eqn:Hm; [|by intros [-> ?]%close_ok].
    destruct ts as [|[| | | |[| | | | | |name| |]] ts]; try done.
    destruct (assoc name out) eqn:Ha; [done|]. destruct (uniqueValue n ts) as [[x ts1]|] eqn:Hv; [|done].
    apply IHv in Hv as [Ht1 Hx]. intros [Ht H]%IHm. split; [by apply tail_cons, (tail_trans _ ts1)|].
    intros [_ Hs]%list.Forall_cons [Hnd Hd]%decoded_map. apply H; [by eapply tail_Forall|].
    apply decoded_map. rewrite fmap_app. split.
    + apply list.NoDup_app. split_and!; [done| |apply NoDup_singleton].
      intros k Hk ->%list_elem_of_singleton. by apply assoc_None in Ha.
    + intros k w [Hin|[= -> ->]%list_elem_of_singleton]%elem_of_app; eauto.
  - intros out ts v ts'. destruct (More ts) eqn:Hm; [|by intros [-> ?]%close_ok].
    destruct (uniqueValue n ts) as [[x ts1]|] eqn:Hv; [|done].
    apply IHv in Hv as [Ht1 Hx]. intros [Ht H]%IHi. split; [by apply (tail_trans _ ts1)|].
    intros Hs Ho. rewrite decoded_arr in Ho. apply H; [by eapply tail_Forall|]. rewrite decoded_arr.
    intros w [Hin| ->%list_elem_of_singleton]%elem_of_app; eauto.
Qed.

Lemma decode_tokens_decoded ts v : Forall scalar_ok ts → decode_tokens ts = Ok v → decoded v.
Proof.
  intros Hs. unfold decode_tokens. destruct (uniqueValue _ ts) as [[x ts']|] eqn:E; [|done].
  intros [= <-]. destruct (proj1 (decoder_ok _) _ _ _ E) as [_ H]. auto.
Qed.

(** The fuel is enough: the decoder never gives up. *)
Lemma decoder_consumes n :
  (∀ ts v ts', uniqueValue n ts = Ok (v, ts') → (length ts' < length ts)%nat) ∧
  (∀ out ts v ts', unique_members n out ts = Ok (v, ts') → (length ts' < length ts)%nat) ∧
  (∀ out ts v ts', unique_items n out ts = Ok (v, ts') → (length ts' < length ts)%nat).
Proof.
  assert (Hclose : ∀ v ts v' ts', close v ts = Ok (v', ts') → (length ts' < length ts)%nat).
  { intros v [|t ts] v' ts'; [done|]. intros [= _ <-]. simpl. lia. }
  induction n as [|n (IHv&IHm&IHi)]; [done|]. split_and!; simpl.
  - intros [|[| | | |s] ts] v ts'; try done; simpl; [intros H%IHm|intros H%IHi|intros [= _ ->]]; lia.
  - intros out ts v ts'. destruct (More ts); [|by apply Hclose].
    destruct ts as [|[| | | |[| | | | | |name| |]] ts]; try done.
    destruct (assoc name out); [done|]. destruct (uniqueValue n ts) as [[x ts1]|] eqn:Hv; [|done].
    apply IHv in Hv. intros H%IHm. simpl. lia.
  - intros out ts v ts'. destruct (More ts); [|by apply Hclose].
    destruct (uniqueValue n ts) as [[x ts1]|] eqn:Hv; [|done]. apply IHv in Hv. intros H%IHi. lia.
Qed.

Lemma decoder_fuel n :
  (∀ ts, (2 * length ts < n)%nat → uniqueValue n ts ≠ Err DFuel) ∧
  (∀ out ts, (2 * length ts < n)%nat → unique_members n out ts ≠ Err DFuel) ∧
  (∀ out ts, (2 * length ts + 1 < n)%nat → unique_items n out ts ≠ Err DFuel).
Proof.
  assert (Hclose : ∀ v ts, close v ts ≠ Err DFuel) by (intros v [|]; done).
  induction n as [|n (IHv&IHm&IHi)]; [split_and!; intros; lia|]. split_and!; simpl.
  - intros [|[| | | |s] ts] H; simpl in *; try done; [apply IHm|apply IHi]; lia.
  - intros out ts H. destruct (More ts); [|done].
    destruct ts as [|[| | | |[| | | | | |name| |]] ts]; try done. simpl in H.
    destruct (assoc name out); [done|]. destruct (uniqueValue n ts) as [[x ts1]|e] eqn:Hv.
    + apply (proj1 (decoder_consumes n)) in Hv. apply IHm. lia.
    + intros [= ->]. apply (IHv ts); [lia|done].
  - intros out ts H. destruct (More ts); [|done]. destruct (uniqueValue n ts) as [[x ts1]|e] eqn:Hv.
    + apply (proj1 (decoder_consumes n)) in Hv. apply IHi. lia.
    + intros [= ->]. apply (IHv ts); [lia|done].
Qed.

Lemma decoder_no_panic n :
  (∀ ts, uniqueValue n ts ≠ Err DPanic) ∧ (∀ out ts, unique_members n out ts ≠ Err DPanic) ∧
  (∀ out ts, unique_items n out ts ≠ Err DPanic).
Proof.
  assert (Hclose : ∀ v ts, close v ts ≠ Err DPanic) by (intros v [|]; done).
  induction n as [|n (IHv&IHm&IHi)]; [done|]. split_and!; simpl.
  - intros [|[| | | |s] ts]; done || auto.
  - intros out ts. destruct (More ts); [|done]. destruct ts as [|[| | | |[| | | | | |name| |]] ts]; try done.
    destruct (assoc name out); [done|]. specialize (IHv ts). destruct (uniqueValue n ts) as [[x ts1]|e]; [done|congruence].
  - intros out ts. destruct (More ts); [|done]. specialize (IHv ts).
    destruct (uniqueValue n ts) as [[x ts1]|e]; [done|congruence].
Qed.

Section binding.
Variable lex : list ascii → option (list jtok).
(** [json.Valid] accepts JSON texts only, and the decoder's scalars are valid. *)
Context (Hlex : ∀ data ts, lex data = Some ts → Forall scalar_ok ts ∧ json_text data).

(** Decoding terminates and stays in range: on every text the decoder answers with a
    value or a definite error. *)
Theorem DecodeUnique_total data : DecodeUnique lex data ≠ Err DFuel ∧ DecodeUnique lex data ≠ Err DPanic.
Proof using Hlex.
  unfold DecodeUnique. destruct (utf8_valid _ data); simpl; [|done].
  destruct (lex data) as [ts|] eqn:E; [|done]. destruct (Hlex _ _ E) as [_ (doc&Hok&->)].
  rewrite validSurrogates_paired by done. destruct (text_paired doc); [|done].
  unfold decode_tokens. destruct (decoder_fuel (2 * length ts + 1)) as [H _]. specialize (H ts ltac:(lia)).
  pose proof (decoder_no_panic (2 * length ts + 1)) as [Hp _]. specialize (Hp ts).
  destruct (uniqueValue _ ts) as [[? ?]|]; split; congruence.
Qed.

Lemma parse_decoded raw v : parseCallArguments lex raw = Ok v → decoded v.
Proof using Hlex.
  unfold parseCallArguments. destruct (String.eqb _ "" || _).
  - intros [= <-]. apply decoded_map. split; [apply NoDup_nil_2|by intros ? ? ?%not_elem_of_nil].
  - unfold DecodeUnique. destruct (negb _); [done|]. destruct (lex _) as [ts|] eqn:E; [|done].
    destruct (validSurrogates _) as [[]|]; [|done..]. apply decode_tokens_decoded. by apply (Hlex _ _ E).
Qed.

(** The digest an approval is bound to identifies the arguments: for two
    calls whose arguments were accepted, the digested documents are the same
    exactly when the arguments are equal values, whatever the spelling of numbers
    and the order of keys; texts with a repeated key or an unpaired surrogate are
    refused, so no two readings of one text share a digest. *)
Theorem digest_binds_value redact raw raw' a b d d' m m' :
  BindArgsStrict lex digest_document redact raw = Ok (a, d, m) →
  BindArgsStrict lex digest_document redact raw' = Ok (b, d', m') →
  d = d' ↔ Equal (or_object a) (or_object b) = true.
Proof using Hlex.
  unfold BindArgsStrict. destruct (parseCallArguments lex raw) as [x|] eqn:Ha; [|done].
  destruct (parseCallArguments lex raw') as [y|] eqn:Hb; [|done].
  intros [= <- <- _] [= <- <- _]. apply parse_decoded in Ha, Hb.
  assert (Ho : ∀ v, decoded v → decoded (or_object v)).
  { intros [] Hv; try done. apply decoded_map. split; [apply NoDup_nil_2|by intros ? ? ?%not_elem_of_nil]. }
  apply encoded_Equal; auto.
Qed.
End binding.

(** ** Redaction *)

Lemma no_secret_arr l : no_secret (AArr l) ↔ ∀ v, v ∈ l → no_secret v.
Proof.
  induction l as [|x l IH]; [split; [by intros _ v Hv%not_elem_of_nil|done]|].
  change (no_secret (AArr (x :: l))) with (no_secret x ∧ no_secret (AArr l)). rewrite IH. set_solver.
Qed.

Lemma no_secret_map m : no_secret (AMap m) ↔ ∀ k v, (k, v) ∈ m → secretArgKey k = false ∧ no_secret v.
Proof.
  induction m as [|[k x] m IH]; [split; [by intros _ ? ? Hv%not_elem_of_nil|done]|].
  change (no_secret (AMap ((k, x) :: m))) with (secretArgKey k = false ∧ no_secret x ∧ no_secret (AMap m)).
  rewrite IH. split.
  - intros (Hk&Hx&Hm) k' v [[= -> ->]|Hin]%elem_of_cons; eauto.
  - intros H. destruct (H k x) as [? ?]; [left|]. split_and!; [done..|]. intros k' v Hin. apply (H k'). by right.
Qed.

Lemma copyRedactedValue_map m d :
  (d ≤ argsMetaMaxDepth)%nat → copyRedactedValue (AMap m) d = AMap (copyRedactedMap m (S d)).
Proof.
  intros Hd. simpl. rewrite (proj2 (Nat.ltb_ge _ _) Hd). f_equal. unfold copyRedactedMap.
  induction m as [|[k v] m IH]; simpl; [done|]. destruct (secretArgKey k); simpl; by rewrite IH.
Qed.

Lemma redacted_no_secret v d : no_secret (copyRedactedValue v d).
Proof.
  revert d. induction v as [| | | | | | |l IH|m IH] using any_nested; intros d;
    try (simpl; by destruct (argsMetaMaxDepth <? d)%nat).
  - simpl. destruct (argsMetaMaxDepth <? d)%nat; [done|]. destruct (argsMetaMaxDepth <? S d)%nat; [done|].
    rewrite no_secret_arr. intros w (v&->&Hv)%list_elem_of_fmap. by apply IH.
  - destruct (le_lt_dec d argsMetaMaxDepth) as [Hd|Hd].
    + rewrite copyRedactedValue_map by done. rewrite no_secret_map. unfold copyRedactedMap.
      intros k w ([k' v]&[= -> ->]&Hin%list_elem_of_In)%list_elem_of_fmap.
      apply List.filter_In in Hin as [Hin Hk%negb_true_iff]. split; [done|]. eapply (IH k'). by apply list_elem_of_In.
    + simpl. by rewrite (proj2 (Nat.ltb_lt _ _) Hd).
Qed.

Lemma fit_sub marshal_len m :
  (∀ k v, (k, v) ∈ fit marshal_len m → (k, v) ∈ m ∨ (k = "_" ∧ v = AStr argsMetaOmitted)) ∧
  (marshal_len (fit marshal_len m) ≤ argsMetaMaxBytes ∨ fit marshal_len m = [("_", AStr argsMetaOmitted)]).
Proof.
  induction m as [|[k v] m [IH1 IH2]]; simpl.
  - destruct (Z.leb_spec (marshal_len []) argsMetaMaxBytes); split; [by left|by left| |by right].
    intros k v [= -> ->]%list_elem_of_singleton. by right.
  - destruct (Z.leb_spec (marshal_len ((k, v) :: m)) argsMetaMaxBytes); split; [by left|by left| |done].
    intros k' v' Hin. destruct (IH1 _ _ Hin); [left; by right|by right].
Qed.

(** What operators and webhooks are shown of a call's arguments has no
    secret-looking key at any depth and fits the size limit, or is the bare
    omission marker. *)
Theorem redaction_hides_secrets marshal_len v m :
  redactArgs marshal_len v = Some m →
  no_secret (AMap m) ∧ (marshal_len m ≤ argsMetaMaxBytes ∨ m = [("_", AStr argsMetaOmitted)]).
Proof.
  intros Hm. assert (∃ m0, m = fit marshal_len (copyRedactedMap m0 1)) as [m0 ->].
  { destruct v as [| | | | | | | |[|kv m0]]; try done. injection Hm as <-. by exists (kv :: m0). }
  destruct (fit_sub marshal_len (copyRedactedMap m0 1)) as [Hsub Hlen]. split; [|done].
  rewrite no_secret_map. intros k w Hin. destruct (Hsub _ _ Hin) as [Hc|[-> ->]]; [|done].
  pose proof (redacted_no_secret (AMap m0) 0) as Hr. rewrite copyRedactedValue_map in Hr by (unfold argsMetaMaxDepth; lia).
  rewrite no_secret_map in Hr. eauto.
Qed.
