(* ===== verification/Base64.v ===== *)
(** * base64.RawURLEncoding

    The URL-safe alphabet without padding, as identity headers use it
    ([exactIdentityHeader] in [internal/auth/runbind.go]).  Decoding is strict:
    unused low bits must be zero.  Line breaks in the input are skipped, as in Go. *)

From Stdlib Require Import Ascii String.
From S2P Require Import Prelude.
Local Open Scope Z_scope.

Definition code (c : ascii) : Z := Z.of_N (N_of_ascii c).
Definition byte (z : Z) : ascii := ascii_of_N (Z.to_N z).

(** The digit of a 6-bit value. *)
Definition b64_digit (v : Z) : ascii :=
  if v <? 26 then byte (65 + v)
  else if v <? 52 then byte (71 + v)
  else if v <? 62 then byte (v - 4)
  else if v =? 62 then "-"%char else "_"%char.

Definition b64_value (c : ascii) : option Z :=
  let n := code c in
  if (65 <=? n) && (n <=? 90) then Some (n - 65)
  else if (97 <=? n) && (n <=? 122) then Some (n - 71)
  else if (48 <=? n) && (n <=? 57) then Some (n + 4)
  else if n =? 45 then Some 62
  else if n =? 95 then Some 63
  else None.

Fixpoint EncodeToString (l : list ascii) : list ascii :=
  match l with
  | a :: b :: c :: rest =>
      b64_digit (code a / 4) :: b64_digit ((code a mod 4) * 16 + code b / 16)
        :: b64_digit ((code b mod 16) * 4 + code c / 64) :: b64_digit (code c mod 64) :: EncodeToString rest
  | [a; b] =>
      [b64_digit (code a / 4); b64_digit ((code a mod 4) * 16 + code b / 16); b64_digit ((code b mod 16) * 4)]
  | [a] => [b64_digit (code a / 4); b64_digit ((code a mod 4) * 16)]
  | [] => []
  end.

(** The values of the digits; [None]: a byte outside the alphabet. *)
Definition b64_values (l : list ascii) : option (list Z) :=
  mapM b64_value (filter (λ c, negb (Ascii.eqb c "010") && negb (Ascii.eqb c "013") = true) l).

Fixpoint b64_bytes (vs : list Z) : option (list ascii) :=
  match vs with
  | p :: q :: r :: s :: rest =>
      (λ l, byte (p * 4 + q / 16) :: byte ((q mod 16) * 16 + r / 4) :: byte ((r mod 4) * 64 + s) :: l) <$> b64_bytes rest
  | [p; q; r] =>
      if r mod 4 =? 0 then Some [byte (p * 4 + q / 16); byte ((q mod 16) * 16 + r / 4)] else None
  | [p; q] => if q mod 16 =? 0 then Some [byte (p * 4 + q / 16)] else None
  | [_] => None
  | [] => Some []
  end.

Definition DecodeString (l : list ascii) : option (list ascii) := b64_values l ≫= b64_bytes.

(** ** Round trip *)

Lemma code_range c : 0 ≤ code c < 256.
Proof. unfold code. pose proof (N_ascii_bounded c). lia. Qed.

Lemma byte_code z c : z = code c → byte z = c.
Proof. intros ->. unfold byte, code. by rewrite N2Z.id, ascii_N_embedding. Qed.

(** Every digit of a 6-bit value, by evaluation. *)
Definition digit_ok (v : Z) : bool :=
  bool_decide (b64_value (b64_digit v) = Some v)
  && negb (Ascii.eqb (b64_digit v) "010") && negb (Ascii.eqb (b64_digit v) "013").

Lemma digit_value v : 0 ≤ v < 64 → digit_ok v = true.
Proof.
  intros Hv. assert (H : forallb (λ n, digit_ok (Z.of_nat n)) (seq 0 64) = true) by (vm_compute; reflexivity).
  rewrite forallb_forall in H. specialize (H (Z.to_nat v)). rewrite Z2Nat.id in H by lia.
  apply H, in_seq. lia.
Qed.

Lemma values_digits vs : Forall (λ v, 0 ≤ v < 64) vs → b64_values (b64_digit <$> vs) = Some vs.
Proof.
  unfold b64_values. induction 1 as [|v vs Hv _ IH]; [done|]. pose proof (digit_value v Hv) as Hd.
  unfold digit_ok in Hd. rewrite fmap_cons, filter_cons. bool_solve.
  rewrite decide_True by (by rewrite H1, H0). simpl. by rewrite H, IH.
Qed.

(** The 6-bit values of bytes. *)
Fixpoint digits_of (l : list ascii) : list Z :=
  match l with
  | a :: b :: c :: rest =>
      code a / 4 :: (code a mod 4) * 16 + code b / 16 :: (code b mod 16) * 4 + code c / 64 :: code c mod 64 :: digits_of rest
  | [a; b] => [code a / 4; (code a mod 4) * 16 + code b / 16; (code b mod 16) * 4]
  | [a] => [code a / 4; (code a mod 4) * 16]
  | [] => []
  end.

(** Recursion by groups of three bytes. *)
Lemma triples_ind (P : list ascii → Prop) :
  P [] → (∀ a, P [a]) → (∀ a b, P [a; b]) → (∀ a b c l, P l → P (a :: b :: c :: l)) → ∀ l, P l.
Proof.
  intros H0 H1 H2 H3. fix IH 1. intros [|a [|b [|c l]]]; [done|apply H1|apply H2|apply H3, IH].
Qed.

Lemma encode_digits l : EncodeToString l = b64_digit <$> digits_of l.
Proof. induction l as [|a|a b|a b c l IH] using triples_ind; [done..|]. cbn. by rewrite IH. Qed.

Lemma digits_range l : Forall (λ v, 0 ≤ v < 64) (digits_of l).
Proof.
  induction l as [|a|a b|a b c l IH] using triples_ind; simpl; repeat constructor; try done;
    repeat match goal with x : ascii |- _ => pose proof (code_range x); generalize dependent (code x); clear x end;
    intros; Z.to_euclidean_division_equations; lia.
Qed.

Lemma bytes_digits l : b64_bytes (digits_of l) = Some l.
Proof.
  induction l as [|a|a b|a b c l IH] using triples_ind; simpl; [done|..].
  - pose proof (code_range a). rewrite (proj2 (Z.eqb_eq _ 0)) by (Z.to_euclidean_division_equations; lia).
    do 2 f_equal. apply byte_code. Z.to_euclidean_division_equations; lia.
  - pose proof (code_range a). pose proof (code_range b).
    rewrite (proj2 (Z.eqb_eq _ 0)) by (Z.to_euclidean_division_equations; lia).
    do 2 f_equal; [|f_equal]; apply byte_code; Z.to_euclidean_division_equations; lia.
  - pose proof (code_range a). pose proof (code_range b). pose proof (code_range c). rewrite IH. simpl.
    do 2 f_equal; [|f_equal; [|f_equal]]; apply byte_code; Z.to_euclidean_division_equations; lia.
Qed.

Lemma Decode_Encode l : DecodeString (EncodeToString l) = Some l.
Proof.
  unfold DecodeString. rewrite encode_digits, values_digits by apply digits_range. simpl. apply bytes_digits.
Qed.
