(* ===== verification/Auth.v ===== *)
(** * Authentication

    Models [internal/auth]: permissions ([auth.go], [agent_perm.go]), runner
    credentials ([runner.go]), the binding of internal calls to a run in flight
    ([runbind.go]), API keys ([apikey.go]), and the middleware in front of every
    handler ([MiddlewareWithOpts]).  JWT and webhook providers are functions of
    the request; session stores are the class [SessionStore].

    A request's header is a function from canonical names to their values.  What a
    handler sees of the middleware's work is in [Serve]: the tenant context, the
    authenticated caller and the run binding. *)

From Stdlib Require Import Ascii String.
From S2P Require Import Prelude GoStrings GoAny Transport Store PolicyArgs Base64.
Local Open Scope string_scope.
Local Open Scope Z_scope.

(** ** Identities *)

Record AuthResult := mkAuth {
  ArIdentity : string;
  ArPermissions : list string;
  ArTenantID : string;
  ArDisplayName : string;
  ArExtra : gmap string any
}.

Record RunBinding := mkRunBinding {
  RbRunID : string;
  RbGeneration : Z;
  RbTenantID : string;
  RbAgentID : string;
  RbThreadID : string;
  RbUser : option UserContext
}.

(** A control rune: C0, DEL or C1. *)
Definition control_rune (r : list ascii) : bool :=
  match r with
  | [a] => in_range 0 31 a || in_range 127 127 a
  | [a; b] => in_range 194 194 a && in_range 128 159 b
  | _ => false
  end.

Fixpoint valid_runes (fuel : nat) (l : list ascii) : bool :=
  match fuel, l with
  | S n, _ :: _ =>
      match rune_width l with
      | Some w => negb (control_rune (take w l)) && valid_runes n (drop w l)
      | None => false
      end
  | _, _ => true
  end.

Definition ValidRunID (id : string) : bool :=
  String.eqb (TrimSpace id) id && valid_runes (String.length id) (list_ascii_of_string id).

(** ** Permissions *)

Definition agentRunPermPrefix : string := "agents:".
Definition agentRunPermSuffix : string := ":run".

Definition isAgentRunPermission (p : string) : bool :=
  if negb (HasPrefix p agentRunPermPrefix) || negb (HasSuffix p agentRunPermSuffix) then false
  else
    let mid := TrimSuffix (TrimPrefix p agentRunPermPrefix) agentRunPermSuffix in
    negb (String.eqb mid "") && negb (Contains mid ":").

Definition AgentRunPermission (agentID : string) : string :=
  agentRunPermPrefix +:+ TrimSpace agentID +:+ agentRunPermSuffix.

Definition is_create_suffix (s : string) : bool :=
  String.eqb s "runs" || String.eqb s "runs/stream" || String.eqb s "runs/wait".

(** Routes on which an agent permission counts as "write". *)
Definition isRunCreatePath (method path : string) : bool :=
  if negb (String.eqb method "POST") then false
  else
    let path := TrimSuffix path "/" in
    if String.eqb path "/runs" || String.eqb path "/runs/stream" || String.eqb path "/runs/wait" then true
    else if negb (HasPrefix path "/threads/") then false
    else
      let rest := str_drop (String.length "/threads/") path in
      match IndexByte rest "/" with
      | None => false
      | Some slash => is_create_suffix (str_drop (S slash) rest)
      end.

Definition CanRunAgent (result : option AuthResult) (agentID : string) : bool :=
  let agentID := TrimSpace agentID in
  if String.eqb agentID "" then false
  else
    match result with
    | None => true
    | Some r =>
        (length (ArPermissions r) =? 0)%nat
        || existsb (λ p, String.eqb p "admin" || String.eqb p "write" || String.eqb p (AgentRunPermission agentID))
             (ArPermissions r)
    end.

Definition GovernanceDecidePermission : string := "governance:decide".

Definition isGovernanceClientPath (method path : string) : bool :=
  let path := TrimSuffix path "/" in
  (String.eqb method "POST" && String.eqb path "/governance/decide")
  || (String.eqb method "GET" && HasPrefix path "/governance/actions/"
      && (String.length "/governance/actions/" <? String.length path)%nat).

Definition requiredPermission (method path : string) : string :=
  if isGovernanceClientPath method path then GovernanceDecidePermission
  else if String.eqb method "GET" || String.eqb method "HEAD" then "read"
  else "write".

Definition hasPermission (permissions : list string) (required method path : string) : bool :=
  existsb (λ p, String.eqb p "admin" || String.eqb p required
                || (String.eqb required "read" && String.eqb p "write")
                || (String.eqb required "write" && isAgentRunPermission p && isRunCreatePath method path)) permissions.

(** Without strict permissions a caller without any is unrestricted. *)
Definition authorized (result : option AuthResult) (method path : string) (strict : bool) : bool :=
  match result with
  | None => negb strict
  | Some r =>
      match ArPermissions r with
      | [] => negb strict
      | ps => hasPermission ps (requiredPermission method path) method path
      end
  end.

Definition authorizedAdmin (result : option AuthResult) (strict : bool) : bool :=
  match result with
  | None => negb strict
  | Some r => match ArPermissions r with [] => negb strict | ps => hasPermission ps "admin" "" "" end
  end.

Definition AllowsSimulation (result : option AuthResult) (strict : bool) : bool := authorizedAdmin result strict.

Definition SimulationRequested (raw : string) : bool :=
  let s := ToLower (TrimSpace raw) in String.eqb s "true" || String.eqb s "1" || String.eqb s "yes".

Definition appPermission (p : string) : bool :=
  String.eqb p "read" || String.eqb p "write" || String.eqb p "admin" || String.eqb p GovernanceDecidePermission
  || isAgentRunPermission p.

Definition filterAppPermissions (perms : list string) : list string := filter (λ p, appPermission p = true) perms.

(** ** Paths *)

Definition isPublicPath (method path : string) : bool :=
  let get := String.eqb method "GET" || String.eqb method "HEAD" in
  ((String.eqb path "/admin-api/session" || String.eqb path "/admin-api/session/") && (String.eqb method "POST" || get))
  || (get && (existsb (String.eqb path) ["/health"; "/health/"; "/livez"; "/livez/"; "/readyz"; "/readyz/"; "/admin"]
              || HasPrefix path "/admin/")).

Definition isInternalPath (path : string) : bool := String.eqb path "/internal" || HasPrefix path "/internal/".
Definition isAdminAPIPath (path : string) : bool := String.eqb path "/admin-api" || HasPrefix path "/admin-api/".

(** Proxy routes that must prove a run in flight. *)
Definition requiresRunBinding (path : string) : bool :=
  if HasPrefix path "/internal/store" || HasPrefix path "/internal/vectors" || HasPrefix path "/internal/checkpoints"
  then true
  else HasPrefix path "/internal/connectors/" && (HasSuffix path "/session" || HasSuffix path "/mcp").

Definition isMutatingMethod (method : string) : bool :=
  existsb (String.eqb method) ["POST"; "PUT"; "PATCH"; "DELETE"].

(** ** Requests *)

Record http_req := mkHttp {
  hr_method : string;
  hr_path : string;
  hr_header : string → list string;
  hr_cookie : string;               (* the admin session cookie, or empty *)
  hr_ctx : ctx
}.

Definition header (r : http_req) (name : string) : string := default "" (head (hr_header r name)).

Definition hasAuthHeader (r : http_req) : bool :=
  negb (String.eqb (header r "Authorization") "") || negb (String.eqb (header r "X-Api-Key") "").

(** An identity as one raw or one base64 header, never both; [None]: not valid. *)
Definition exactIdentityHeader (r : http_req) (rawName encodedName : string) : option string :=
  match hr_header r rawName, hr_header r encodedName with
  | [], [encoded] =>
      match DecodeString (list_ascii_of_string encoded) with
      | Some (c :: rest) =>
          let data := c :: rest in
          if utf8_valid (length data) data && String.eqb (string_of_list_ascii (EncodeToString data)) encoded
          then Some (string_of_list_ascii data) else None
      | _ => None
      end
  | [], [] => Some ""
  | [raw], [] => if ValidRunID raw then Some raw else None
  | _, _ => None
  end.

(** [strconv.ParseInt(s, 10, 64)] with its error. *)
Definition ParseInt (s : string) : option Z :=
  let in_range z := if (- 2 ^ 63 <=? z) && (z <? 2 ^ 63) then Some z else None in
  match s with
  | String "-" s' => parse_digits s' ≫= λ z, in_range (- z)
  | String "+" s' => parse_digits s' ≫= in_range
  | _ => parse_digits s ≫= in_range
  end.

(** ** Runner credentials *)

Record RunnerTokens := mkTokens {
  rt_tokens : gmap string (list string);
  rt_tenants : gmap string (gset string)
}.

Definition maxRunnerTokensPerKind : nat := 16.

Definition non_blank (l : list string) : list string := filter (λ s, negb (String.eqb s "") = true) (TrimSpace <$> l).

Definition parseTokenAllowList (v : string) : list string := take maxRunnerTokensPerKind (non_blank (Split v ",")).

Definition parseTenantAllowList (v : string) : gset string := list_to_set (non_blank (Split v ",")).

Fixpoint dashes (s : string) : string :=
  match s with
  | EmptyString => EmptyString
  | String c s => String (if Ascii.eqb c "_" then "-"%char else c) (dashes s)
  end.

Definition envKeyToRunnerKind (envKey : string) : string := ToLower (dashes envKey).

(** One variable of the environment. *)
Definition load_env (kv : string) (rt : RunnerTokens) : RunnerTokens :=
  match IndexByte kv "=" with
  | None => rt
  | Some i =>
      let k := str_take i kv in
      let v := str_drop (S i) kv in
      if String.eqb v "" then rt
      else if HasPrefix k "RUNNER_TOKEN_" then
        match parseTokenAllowList v with
        | [] => rt
        | l => mkTokens (<[envKeyToRunnerKind (TrimPrefix k "RUNNER_TOKEN_") := l]> (rt_tokens rt)) (rt_tenants rt)
        end
      else if HasPrefix k "RUNNER_TENANTS_" then
        mkTokens (rt_tokens rt)
          (<[envKeyToRunnerKind (TrimPrefix k "RUNNER_TENANTS_") := parseTenantAllowList v]> (rt_tenants rt))
      else rt
  end.

Definition LoadRunnerTokensFromEnv (environ : list string) : RunnerTokens :=
  foldl (λ rt kv, load_env kv rt) (mkTokens ∅ ∅) environ.

(** [nil] is [None]. *)
Definition tokens_enabled (rt : option RunnerTokens) : bool :=
  match rt with Some rt => negb (bool_decide (rt_tokens rt = ∅)) | None => false end.

Definition Validate (rt : option RunnerTokens) (runnerKind token : string) : bool :=
  match rt with
  | Some t =>
      if tokens_enabled rt then
        match rt_tokens t !! runnerKind with
        | Some want => existsb (String.eqb token) want
        | None => false
        end
      else true
  | None => true
  end.

Definition AllowsTenant (rt : option RunnerTokens) (runnerKind tenantID : string) : bool :=
  match rt with
  | Some t =>
      if tokens_enabled rt then
        match rt_tenants t !! runnerKind with
        | Some allow =>
            bool_decide (allow = ∅)
            || bool_decide ((if String.eqb tenantID "" then DefaultTenant else tenantID) ∈ allow)
        | None => true
        end
      else true
  | None => true
  end.

Definition TenantAllowListsComplete (rt : option RunnerTokens) : bool :=
  match rt with
  | Some t =>
      forallb (λ kind, match rt_tenants t !! kind with Some allow => negb (bool_decide (allow = ∅)) | None => false end)
        (elements (dom (rt_tokens t)))
  | None => true
  end.

(** ** The bridge's interceptors *)

(** [authenticateRunner]: the runner kind of a call, empty in local mode; [md] is the call's
    metadata. *)
Definition authenticateRunner (rt : option RunnerTokens) (md : option (string → list string)) : option string :=
  if negb (tokens_enabled rt) then Some ""
  else
    match md with
    | None => None
    | Some get =>
        let kind := default "" (head (get "runner-kind")) in
        let token := default "" (head (get "runner-token")) in
        if String.eqb kind "" || String.eqb token "" then None
        else if Validate rt kind token then Some kind else None
    end.

(** Unary and streaming calls reach their handler with the kind in their context, or not at
    all. *)
Definition AuthInterceptor {A} (rt : option RunnerTokens) (md : option (string → list string)) (handler : string → A) : option A :=
  handler <$> authenticateRunner rt md.

(** ** Outcomes *)

Inductive outcome :=
| Serve (x : ctx) (who : option AuthResult) (binding : option RunBinding)
| Deny (status : Z) (reason : string).

(** ** Run-bound calls *)

(** [InflightLookup]: the assignment of a run in flight. *)
Notation inflight_lookup := (string → res go_error (option RunAssignment)).

Definition assignment_tenant (a : RunAssignment) : string :=
  if String.eqb (Transport.TenantID a) "" then DefaultTenant else Transport.TenantID a.

(** The caller is the run: tenant, agent and user come from its assignment. *)
Definition bind_assignment (r : http_req) (a : RunAssignment) (runID : string) : outcome :=
  let tenantID := assignment_tenant a in
  let binding := mkRunBinding runID (Generation a) tenantID (GraphID a) (ThreadID a) (User a) in
  let who :=
    match User a with
    | Some u =>
        if String.eqb (Identity u) "" then None
        else Some (mkAuth (Identity u) (Permissions u) tenantID (DisplayName u) (Extra u))
    | None => None
    end in
  Serve (WithContext (hr_ctx r) tenantID) who (Some binding).

Definition bindInternalRun (r : http_req) (kind : string) (tokens : option RunnerTokens) (inflight : inflight_lookup) : outcome :=
  let genRaw := TrimSpace (header r "X-Runkite-Generation") in
  match exactIdentityHeader r "X-Runkite-Run-Id" "X-Runkite-Run-Id-B64" with
  | None | Some "" => Deny 401 "run_binding_required"
  | Some runID =>
      if String.eqb genRaw "" then Deny 401 "run_binding_required"
      else
        match ParseInt genRaw with
        | None => Deny 401 "run_binding_required"
        | Some generation =>
            match inflight runID with
            | Err _ => Deny 503 "run_binding_lookup_failed"
            | Ok None => Deny 403 "run_not_inflight"
            | Ok (Some a) =>
                if tokens_enabled tokens && negb (String.eqb (RunnerKind a) kind) then Deny 403 "run_runner_kind_mismatch"
                else if negb (generation =? Generation a) then Deny 403 "run_generation_mismatch"
                else if tokens_enabled tokens && negb (AllowsTenant tokens kind (assignment_tenant a))
                then Deny 403 "runner_tenant_denied"
                else bind_assignment r a runID
            end
        end
  end.

(** ** Sessions *)

Record AdminSession := mkSession {
  AsID : string;
  AsCSRF : string;
  AsResult : AuthResult;
  AsExpires : Z
}.

(** A store at some instant, with what its next calls will meet. *)
Class SessionStore (S : Type) := {
  ss_Create : AuthResult → S → S * option AdminSession;
  ss_Get : string → S → S * option AdminSession;
  ss_Delete : string → S → S * bool;             (* no error *)
  ss_TTL : S → Z
}.

(** ** The middleware *)

Inductive auth_err :=
| ErrUnauthorized (msg : string)
| ErrForbidden (msg : string)
| ErrAuthOther.

Notation Provider := (http_req → res auth_err AuthResult).

Definition deny_of (e : auth_err) : outcome :=
  match e with
  | ErrForbidden m => Deny 403 m
  | ErrUnauthorized m => Deny 401 m
  | ErrAuthOther => Deny 401 "unauthorized"
  end.

Section middleware.
Context {S : Type} `{SessionStore S}.
Variable provider adminProvider : option Provider.
Variable runnerTokens : option RunnerTokens.
Variable StrictPermissions : bool.
Variable Inflight : option inflight_lookup.

Definition serve_as (r : http_req) (a : AuthResult) : outcome := Serve (WithContext (hr_ctx r) (ArTenantID a)) (Some a) None.

Definition internal (r : http_req) : outcome :=
  let kind := header r "X-Runner-Kind" in
  let token := header r "X-Runner-Token" in
  if tokens_enabled runnerTokens
     && (String.eqb kind "" || String.eqb token "" || negb (Validate runnerTokens kind token))
  then Deny 401 "runner_credentials_invalid"
  else
    match (if requiresRunBinding (hr_path r) then Inflight else None) with
    | Some inflight => bindInternalRun r kind runnerTokens inflight
    | None =>
        match exactIdentityHeader r "X-Runkite-Tenant-Id" "X-Runkite-Tenant-Id-B64" with
        | None => Deny 403 "runner_tenant_denied"
        | Some claimed =>
            if tokens_enabled runnerTokens && negb (AllowsTenant runnerTokens kind claimed) then Deny 403 "runner_tenant_denied"
            else Serve (WithContext (hr_ctx r) claimed) None None
        end
    end.

(** The primary provider, with the permission the route asks for. *)
Definition client (r : http_req) : outcome :=
  match provider with
  | None => Serve (hr_ctx r) None None
  | Some authenticate =>
      match authenticate r with
      | Err e => deny_of e
      | Ok result =>
          if (if isAdminAPIPath (hr_path r) then authorizedAdmin (Some result) StrictPermissions
              else authorized (Some result) (hr_method r) (hr_path r) StrictPermissions)
          then serve_as r result
          else Deny 403 "insufficient permissions"
      end
  end.

(** The independent admin credential, tried first on the admin surface. *)
Definition admin_or_client (r : http_req) : outcome :=
  match (if isAdminAPIPath (hr_path r) then adminProvider else None) with
  | None => client r
  | Some authenticate =>
      match authenticate r with
      | Ok result => serve_as r result
      | Err _ => match provider with None => Deny 401 "invalid or missing admin credential" | Some _ => client r end
      end
  end.

Definition MiddlewareWithOpts (r : http_req) (sessions : option S) : option S * outcome :=
  if isPublicPath (hr_method r) (hr_path r) then (sessions, Serve (hr_ctx r) None None)
  else if isInternalPath (hr_path r) then (sessions, internal r)
  else
    match (if isAdminAPIPath (hr_path r) && negb (hasAuthHeader r) then sessions else None) with
    | None => (sessions, admin_or_client r)
    | Some s =>
        let (s, found) := ss_Get (hr_cookie r) s in
        (Some s,
         match found with
         | None => admin_or_client r
         | Some sess =>
             if isMutatingMethod (hr_method r) && negb (String.eqb (header r "X-Csrf-Token") (AsCSRF sess))
             then Deny 403 "invalid or missing CSRF token"
             else serve_as r (AsResult sess)
         end)
    end.

(** ** Logging in *)

(** A request that carries only a pasted credential. *)
Definition credential_req (credential : string) : http_req :=
  mkHttp "GET" "/admin-api/session"
    (λ name, if String.eqb name "Authorization" && negb (String.eqb credential "") then ["Bearer " +:+ credential] else [])
    "" background.

Definition authenticateAdminCredential (credential : string) : res auth_err AuthResult :=
  let primary authenticate :=
    match authenticate (credential_req credential) with
    | Err e => Err e
    | Ok result =>
        if authorizedAdmin (Some result) StrictPermissions then Ok result
        else Err (ErrForbidden "insufficient permissions (requires 'admin')")
    end in
  match adminProvider, provider with
  | None, None =>
      if String.eqb credential "" then Ok (mkAuth "anonymous" [] "" "" ∅) else Err (ErrUnauthorized "auth is not configured")
  | Some admin, None => admin (credential_req credential)
  | Some admin, Some authenticate =>
      match admin (credential_req credential) with Ok result => Ok result | Err _ => primary authenticate end
  | None, Some authenticate => primary authenticate
  end.

Definition extractKey (r : http_req) : string :=
  let auth := header r "Authorization" in
  if HasPrefix auth "Bearer " then TrimSpace (TrimPrefix auth "Bearer ") else TrimSpace (header r "X-Api-Key").

(** What the login answers. *)
Inductive login_answer :=
| LoginOk (sess : AdminSession) (cookie_ttl : Z)
| LoginLimited
| LoginDenied (e : auth_err)
| LoginFailed.

Definition configured : bool := match adminProvider, provider with None, None => false | _, _ => true end.

(** [POST /admin-api/session]; [allowed] is the brute-force limiter's answer, which is
    asked when a provider is configured, [body] the credential in the body. *)
Definition session_Create (allowed : bool) (r : http_req) (body : string) (sessions : option S) : option S * login_answer :=
  match sessions with
  | None => (None, LoginFailed)
  | Some s =>
      if configured && negb allowed then (Some s, LoginLimited)
      else
        let credential := TrimSpace body in
        let credential := if String.eqb credential "" then extractKey r else credential in
        match authenticateAdminCredential credential with
        | Err e => (Some s, LoginDenied e)
        | Ok result =>
            match ss_Create result s with
            | (s, Some sess) => (Some s, LoginOk sess (ss_TTL s))
            | (s, None) => (Some s, LoginFailed)
            end
        end
  end.

(** [GET /admin-api/session]: authenticated, auth required, and the session. *)
Definition session_Status (r : http_req) (sessions : option S) : option S * (bool * bool * option AdminSession) :=
  match sessions with
  | None => (None, (negb configured, configured, None))
  | Some s =>
      match ss_Get (hr_cookie r) s with
      | (s, Some sess) => (Some s, (true, true, Some sess))
      | (s, None) => (Some s, (negb configured, configured, None))
      end
  end.

(** [DELETE /admin-api/session]: whether the logout is confirmed and the cookie cleared. *)
Definition session_Delete (r : http_req) (sessions : option S) : option S * bool :=
  match sessions with
  | None => (None, true)
  | Some s => let (s, ok) := ss_Delete (hr_cookie r) s in (Some s, ok)
  end.
End middleware.

(** ** API keys *)

Record APIKeyEntry := mkKeyEntry {
  AkName : string;
  AkPermissions : list string;
  AkTenantID : string;
  AkExtra : gmap string any
}.

Definition APIKey_Authenticate (keys : gmap string APIKeyEntry) : Provider := λ r,
  let key := extractKey r in
  if String.eqb key "" then Err (ErrUnauthorized "missing API key")
  else
    match keys !! key with
    | None => Err (ErrUnauthorized "invalid API key")
    | Some e => Ok (mkAuth (AkName e) (filterAppPermissions (AkPermissions e)) (AkTenantID e) "" (AkExtra e))
    end.
