(* ===== verification/AuthSessions.v ===== *)
(** * Admin sessions

    The two implementations of [SessionStore]: process memory
    ([internal/auth/adminsession.go]) and Redis
    ([internal/auth/adminsession_redis.go]), and what both promise the middleware
    ([SessionStoreOk]).

    A store's value holds the clock and the random tokens and replies its next
    calls will meet; [ss_passes] is the passing of time between calls. *)

From Stdlib Require Import String.
From S2P Require Import Prelude GoStrings GoAny GoTime Transport Store PolicyArgs Auth.
Local Open Scope string_scope.
Local Open Scope Z_scope.

Definition AdminSessionTTL : Z := 12 * 60 * 60 * second.

Definition copyAuthResult (result : option AuthResult) : AuthResult :=
  match result with Some a => mkAuth (ArIdentity a) (ArPermissions a) (ArTenantID a) (ArDisplayName a) (ArExtra a)
  | None => mkAuth "" [] "" "" ∅ end.

(** The caller a session stands for: what authorization looks at. *)
Definition same_caller (a b : AuthResult) : Prop :=
  ArIdentity a = ArIdentity b ∧ ArPermissions a = ArPermissions b ∧ ArTenantID a = ArTenantID b.

Definition same_login (x y : AdminSession) : Prop := AsCSRF x = AsCSRF y ∧ same_caller (AsResult x) (AsResult y).

#[export] Instance same_caller_refl : Reflexive same_caller.
Proof. done. Qed.

#[export] Instance same_caller_trans : Transitive same_caller.
Proof. intros a b c (?&?&?) (?&?&?). split_and!; congruence. Qed.

#[export] Instance same_login_refl : Reflexive same_login.
Proof. done. Qed.

#[export] Instance same_login_trans : Transitive same_login.
Proof. intros a b c [? ?] [? ?]. split; [congruence|by etrans]. Qed.

(** ** The promise *)

Class SessionStoreOk (S : Type) `{SessionStore S} := {
  ss_view : S → gmap string AdminSession;
  ss_next_id : S → option string;          (* the id a login would get now *)
  ss_passes : S → S → Prop;
  ss_get_ok s id s' sess :
    ss_Get id s = (s', Some sess) → ∃ old, ss_view s !! id = Some old ∧ same_login sess old;
  ss_get_view s id j x :
    ss_view (ss_Get id s).1 !! j = Some x → ∃ y, ss_view s !! j = Some y ∧ same_login x y;
  ss_create_view a s j x :
    ss_view (ss_Create a s).1 !! j = Some x →
    (∃ y, ss_view s !! j = Some y ∧ same_login x y) ∨ (ss_next_id s = Some j ∧ same_caller (AsResult x) a);
  ss_delete_view id s j x :
    ss_view (ss_Delete id s).1 !! j = Some x → ∃ y, ss_view s !! j = Some y ∧ same_login x y;
  ss_delete_ok id s s' : ss_Delete id s = (s', true) → id ≠ "" → ss_view s' !! id = None;
  ss_passes_view s s' j x :
    ss_passes s s' → ss_view s' !! j = Some x → ∃ y, ss_view s !! j = Some y ∧ same_login x y
}.

(** ** Memory *)

Record AdminSessionStore := mkMem {
  sessions : gmap string AdminSession;
  ms_ttl : Z;
  ms_now : Z;
  ms_random : list (option string)       (* randomToken; None: an error *)
}.

Definition NewAdminSessionStore (ttl now : Z) : AdminSessionStore :=
  mkMem ∅ (if ttl <=? 0 then AdminSessionTTL else ttl) now [].

Definition with_sessions (m : gmap string AdminSession) (s : AdminSessionStore) : AdminSessionStore :=
  mkMem m (ms_ttl s) (ms_now s) (ms_random s).

(** One round of [sweepLoop]. *)
Definition sweep (s : AdminSessionStore) : AdminSessionStore :=
  with_sessions (filter (λ kx, negb (AsExpires kx.2 <? ms_now s) = true) (sessions s)) s.

Definition mem_Create (result : AuthResult) (s : AdminSessionStore) : AdminSessionStore * option AdminSession :=
  match ms_random s with
  | Some id :: Some csrf :: rest =>
      let sess := mkSession id csrf (copyAuthResult (Some result)) (ms_now s + ms_ttl s) in
      (mkMem (<[id := sess]> (sessions s)) (ms_ttl s) (ms_now s) rest, Some sess)
  | Some _ :: None :: rest => (mkMem (sessions s) (ms_ttl s) (ms_now s) rest, None)
  | None :: rest => (mkMem (sessions s) (ms_ttl s) (ms_now s) rest, None)
  | _ => (mkMem (sessions s) (ms_ttl s) (ms_now s) [], None)
  end.

Definition mem_Get (id : string) (s : AdminSessionStore) : AdminSessionStore * option AdminSession :=
  if String.eqb id "" then (s, None)
  else
    match sessions s !! id with
    | None => (s, None)
    | Some sess =>
        if AsExpires sess <? ms_now s then (with_sessions (delete id (sessions s)) s, None)
        else
          let sess := mkSession (AsID sess) (AsCSRF sess) (AsResult sess) (ms_now s + ms_ttl s) in
          (with_sessions (<[id := sess]> (sessions s)) s, Some sess)
    end.

Definition mem_Delete (id : string) (s : AdminSessionStore) : AdminSessionStore * bool :=
  if String.eqb id "" then (s, true) else (with_sessions (delete id (sessions s)) s, true).

#[export] Instance mem_store : SessionStore AdminSessionStore := {|
  ss_Create := mem_Create; ss_Get := mem_Get; ss_Delete := mem_Delete; ss_TTL := ms_ttl
|}.

(** Later, with other tokens to come, and perhaps swept. *)
Definition mem_passes (s s' : AdminSessionStore) : Prop :=
  ∃ now random, ms_now s ≤ now ∧
    let t := mkMem (sessions s) (ms_ttl s) now random in s' = t ∨ s' = sweep t.

Lemma kept (m : gmap string AdminSession) j x : m !! j = Some x → ∃ y, m !! j = Some y ∧ same_login x y.
Proof. intros H. by exists x. Qed.

Local Hint Resolve kept : core.

Lemma insert_same (m : gmap string AdminSession) id old new j x :
  m !! id = Some old → same_login new old → <[id := new]> m !! j = Some x →
  ∃ y, m !! j = Some y ∧ same_login x y.
Proof.
  intros Ho Hs. destruct (decide (id = j)) as [<-|].
  - rewrite lookup_insert_eq. intros [= <-]. eauto.
  - rewrite lookup_insert_ne by done. eauto.
Qed.

Lemma delete_sub (m : gmap string AdminSession) id j x :
  delete id m !! j = Some x → ∃ y, m !! j = Some y ∧ same_login x y.
Proof. intros [_ H]%lookup_delete_Some. eauto. Qed.

Definition mem_next_id (s : AdminSessionStore) : option string :=
  match ms_random s with Some id :: _ => Some id | _ => None end.

#[export] Program Instance mem_store_ok : SessionStoreOk AdminSessionStore := {|
  ss_view := sessions;
  ss_next_id := mem_next_id;
  ss_passes := mem_passes
|}.
Next Obligation.
  intros s id s' sess. simpl. unfold mem_Get. destruct (String.eqb id ""); [done|].
  destruct (sessions s !! id) as [old|]; [|done]. destruct (_ <? _); [done|]. intros [= _ <-]. by exists old.
Qed.
Next Obligation.
  intros s id j x. simpl. unfold mem_Get. destruct (String.eqb id ""); simpl; [eauto|].
  destruct (sessions s !! id) as [old|] eqn:E; simpl; [|eauto]. destruct (_ <? _); simpl; [apply delete_sub|].
  by eapply insert_same.
Qed.
Next Obligation.
  intros a s j x. simpl. unfold mem_Create, mem_next_id.
  destruct (ms_random s) as [|[id|] [|[csrf|] rest]]; simpl; eauto.
  destruct (decide (id = j)) as [<-|]; [|rewrite lookup_insert_ne by done; eauto].
  rewrite lookup_insert_eq. intros [= <-]. by right.
Qed.
Next Obligation. intros id s j x. simpl. unfold mem_Delete. destruct (String.eqb id ""); simpl; [eauto|apply delete_sub]. Qed.
Next Obligation.
  intros id s s'. simpl. unfold mem_Delete. destruct (String.eqb_spec id ""); [done|]. intros [= <-] _. simpl.
  apply lookup_delete_eq.
Qed.
Next Obligation.
  intros s s' j x (now&random&_&[->| ->]); simpl; [eauto|]. intros [? _]%map_lookup_filter_Some. eauto.
Qed.

(** ** Redis *)

Record redisSessionBlob := mkBlob { RbCSRF : string; RbResult : AuthResult; RbExpires : Z (* Unix seconds *) }.

Record redisAdminSessionStore := mkRed {
  rs_kv : gmap string (redisSessionBlob * Z);    (* by session id; the server's deadline, in seconds *)
  rs_ttl : Z;
  rs_now : Z;                                    (* this process's clock *)
  rs_server : Z;                                 (* the server's clock, in seconds *)
  rs_reply : reply;                              (* of the next command *)
  rs_tokens : list (option string)
}.

Section redis.
(** What Lua's JSON library makes of the members of [extra]. *)
Variable recode : gmap string any → gmap string any.
(** Whether [json.Unmarshal] reads what the script returned. *)
Variable readable : redisSessionBlob → bool.

Definition with_kv (m : gmap string (redisSessionBlob * Z)) (s : redisAdminSessionStore) : redisAdminSessionStore :=
  mkRed m (rs_ttl s) (rs_now s) (rs_server s) (rs_reply s) (rs_tokens s).

Definition with_tokens (l : list (option string)) (s : redisAdminSessionStore) : redisAdminSessionStore :=
  mkRed (rs_kv s) (rs_ttl s) (rs_now s) (rs_server s) (rs_reply s) l.

(** [GET]: a key past its deadline is gone. *)
Definition kv_get (s : redisAdminSessionStore) (id : string) : option redisSessionBlob :=
  match rs_kv s !! id with Some (b, deadline) => if deadline <=? rs_server s then None else Some b | None => None end.

Definition recode_result (a : AuthResult) : AuthResult :=
  mkAuth (ArIdentity a) (ArPermissions a) (ArTenantID a) (ArDisplayName a) (recode (ArExtra a)).

Definition getAndSlideScript (id : string) (now ttl : Z) (s : redisAdminSessionStore) : redisAdminSessionStore * option redisSessionBlob :=
  match kv_get s id with
  | None => (s, None)
  | Some b =>
      if RbExpires b <? now then (with_kv (delete id (rs_kv s)) s, None)
      else
        let b := mkBlob (RbCSRF b) (recode_result (RbResult b)) (now + ttl) in
        (with_kv (<[id := (b, rs_server s + ttl)]> (rs_kv s)) s, Some b)
  end.

Definition blob_session (id : string) (b : redisSessionBlob) : AdminSession :=
  mkSession id (RbCSRF b) (RbResult b) (RbExpires b * second).

(** A text that does not decode is no session. *)
Definition decodeRedisSession (id : string) (b : redisSessionBlob) : option AdminSession :=
  if readable b then Some (blob_session id b) else None.

Definition red_Create (result : AuthResult) (s : redisAdminSessionStore) : redisAdminSessionStore * option AdminSession :=
  match rs_tokens s with
  | Some id :: Some csrf :: rest =>
      let copied := copyAuthResult (Some result) in
      let expires := rs_now s + rs_ttl s in
      let set s := (with_kv (<[id := (mkBlob csrf copied (sec expires), rs_server s + rs_ttl s / second)]> (rs_kv s)) s, tt) in
      match attempt tt (rs_reply s) set (with_tokens rest s) with
      | (s, Ok _) => (s, Some (mkSession id csrf copied expires))
      | (s, Err _) => (s, None)
      end
  | Some _ :: None :: rest => (with_tokens rest s, None)
  | None :: rest => (with_tokens rest s, None)
  | _ => (with_tokens [] s, None)
  end.

(** Every failure refuses the session. *)
Definition red_Get (id : string) (s : redisAdminSessionStore) : redisAdminSessionStore * option AdminSession :=
  if String.eqb id "" then (s, None)
  else
    match attempt tt (rs_reply s) (getAndSlideScript id (sec (rs_now s)) (Z.max 1 (rs_ttl s / second))) s with
    | (s, Ok (Some b)) => (s, decodeRedisSession id b)
    | (s, _) => (s, None)
    end.

Definition red_Delete (id : string) (s : redisAdminSessionStore) : redisAdminSessionStore * bool :=
  if String.eqb id "" then (s, true)
  else
    let (s, r) := attempt tt (rs_reply s) (λ s, (with_kv (delete id (rs_kv s)) s, tt)) s in (s, is_ok r).

Definition redis_store : SessionStore redisAdminSessionStore := {|
  ss_Create := red_Create; ss_Get := red_Get; ss_Delete := red_Delete; ss_TTL := rs_ttl
|}.

(** Later, with other tokens and replies to come; keys past their deadline may be gone. *)
Definition red_passes (s s' : redisAdminSessionStore) : Prop :=
  rs_now s ≤ rs_now s' ∧ rs_server s ≤ rs_server s' ∧ rs_ttl s' = rs_ttl s ∧ rs_kv s' ⊆ rs_kv s.

Definition red_view (s : redisAdminSessionStore) : gmap string AdminSession :=
  map_imap (λ id bd, Some (blob_session id bd.1)) (rs_kv s).

Lemma red_view_Some s j x :
  red_view s !! j = Some x ↔ ∃ b d, rs_kv s !! j = Some (b, d) ∧ x = blob_session j b.
Proof.
  clear readable. unfold red_view. rewrite map_lookup_imap. destruct (rs_kv s !! j) as [[b d]|]; simpl; naive_solver.
Qed.

Lemma red_view_kept s s' j x : rs_kv s' !! j = rs_kv s !! j → red_view s' !! j = Some x → ∃ y, red_view s !! j = Some y ∧ same_login x y.
Proof. intros H Hx. apply kept. apply red_view_Some in Hx as (b&d&Hb&->). apply red_view_Some. exists b, d. by rewrite <- H. Qed.

Lemma red_view_sub s s' j x : rs_kv s' ⊆ rs_kv s → red_view s' !! j = Some x → ∃ y, red_view s !! j = Some y ∧ same_login x y.
Proof.
  intros H Hx. apply kept. apply red_view_Some in Hx as (b&d&Hb&->). apply red_view_Some. exists b, d.
  split; [by eapply lookup_weaken|done].
Qed.

Lemma kv_get_Some s id b : kv_get s id = Some b → ∃ d, rs_kv s !! id = Some (b, d).
Proof. unfold kv_get. destruct (rs_kv s !! id) as [[b' d]|]; [|done]. destruct (_ <=? _); [done|]. intros [= ->]. eauto. Qed.

(** The script keeps every login and returns the one it was asked for. *)
Lemma script_view id now ttl s :
  (∀ j x, red_view (getAndSlideScript id now ttl s).1 !! j = Some x → ∃ y, red_view s !! j = Some y ∧ same_login x y) ∧
  (∀ b, (getAndSlideScript id now ttl s).2 = Some b →
     ∃ y, red_view s !! id = Some y ∧ same_login (blob_session id b) y).
Proof.
  unfold getAndSlideScript. destruct (kv_get s id) as [b|] eqn:E; simpl; [|split; [auto|done]].
  apply kv_get_Some in E as [d E].
  assert (Hv : red_view s !! id = Some (blob_session id b)) by (apply red_view_Some; eauto).
  destruct (_ <? _); simpl.
  - split; [|done]. intros j x. apply red_view_sub. apply delete_subseteq.
  - split; [|intros b' [= <-]; eexists; split; [exact Hv|done]].
    intros j x (b'&d'&Hb&->)%red_view_Some. simpl in Hb. destruct (decide (id = j)) as [<-|].
    + rewrite lookup_insert_eq in Hb. injection Hb as <- <-. eexists. split; [exact Hv|done].
    + rewrite lookup_insert_ne in Hb by done. apply kept, red_view_Some. eauto.
Qed.

Definition red_next_id (s : redisAdminSessionStore) : option string :=
  match rs_tokens s with Some id :: _ => Some id | _ => None end.

Lemma red_create_view a s j x :
  red_view (red_Create a s).1 !! j = Some x →
  (∃ y, red_view s !! j = Some y ∧ same_login x y) ∨ (red_next_id s = Some j ∧ same_caller (AsResult x) a).
Proof.
  unfold red_Create, red_next_id.
  destruct (rs_tokens s) as [|[id|] [|[csrf|] rest]]; try (intros ?; left; by apply kept).
  set (set := λ s, (with_kv _ s, tt)). intros Hx.
  assert (H : red_view (attempt (E := unit) tt (rs_reply s) set (with_tokens rest s)).1 !! j = Some x).
  { destruct (attempt _ _ _ _) as [s' [[]|[]]]; done. }
  destruct (attempt_state (E := unit) tt (rs_reply s) set (with_tokens rest s)) as [E|E]; rewrite E in H; [left; by apply kept|].
  apply red_view_Some in H as (b&d&Hb&->). simpl in Hb. destruct (decide (id = j)) as [<-|].
  - rewrite lookup_insert_eq in Hb. injection Hb as <- <-. by right.
  - rewrite lookup_insert_ne in Hb by done. left. apply kept, red_view_Some. eauto.
Qed.

Program Definition redis_store_ok : @SessionStoreOk _ redis_store := {|
  ss_view := red_view;
  ss_next_id := red_next_id;
  ss_passes := red_passes
|}.
Next Obligation.
  intros s id s' sess. simpl. unfold red_Get. destruct (String.eqb id ""); [done|].
  destruct (attempt _ _ _ _) as [s1 [[b|]|e]] eqn:E; try done. unfold decodeRedisSession.
  destruct (readable b); [|done]. intros [= _ <-]. apply attempt_ok in E. eapply script_view. by rewrite E.
Qed.
Next Obligation.
  intros s id j x. simpl. unfold red_Get. destruct (String.eqb id ""); simpl; [apply kept|]. intros Hx.
  set (f := getAndSlideScript _ _ _) in *.
  assert (H : red_view (attempt (E := unit) tt (rs_reply s) f s).1 !! j = Some x).
  { destruct (attempt _ _ _ _) as [s1 [[]|e]]; done. }
  destruct (attempt_state (E := unit) tt (rs_reply s) f s) as [E|E]; rewrite E in H; [by apply kept|].
  eapply script_view. exact H.
Qed.
Next Obligation. intros a s j x. apply red_create_view. Qed.
Next Obligation.
  intros id s j x. simpl. unfold red_Delete. destruct (String.eqb id ""); simpl; [apply kept|].
  destruct (attempt _ _ _ _) as [s1 r] eqn:E. simpl.
  pose proof (attempt_state (E := unit) tt (rs_reply s) (λ s, (with_kv (delete id (rs_kv s)) s, tt)) s) as H.
  rewrite E in H. simpl in H. destruct H as [-> | ->]; [apply kept|]. apply red_view_sub, delete_subseteq.
Qed.
Next Obligation.
  intros id s s'. simpl. unfold red_Delete. destruct (String.eqb_spec id ""); [done|].
  destruct (attempt _ _ _ _) as [s1 [[]|e]] eqn:E; [|done]. intros [= <-] _. apply attempt_ok in E. injection E as <-.
  apply eq_None_not_Some. intros [x (b&d&Hb&_)%red_view_Some]. simpl in Hb. by rewrite lookup_delete_eq in Hb.
Qed.
Next Obligation. intros s s' j x (_&_&_&H). by apply red_view_sub. Qed.
End redis.
