(* ===== verification/AuthProps.v ===== *)
(** * What the middleware guarantees *)

From Stdlib Require Import Ascii String.
From S2P Require Import Prelude GoStrings GoAny GoTime Transport Store PolicyArgs Base64 Auth AuthSessions.
Local Open Scope string_scope.
Local Open Scope Z_scope.

(** ** Paths *)

Lemma internal_not_public m p : isInternalPath p = true → isPublicPath m p = false.
Proof.
  unfold isInternalPath, isPublicPath. rewrite orb_true_iff, String.eqb_eq, HasPrefix_spec.
  intros [->|[r ->]]; simpl; by rewrite ?andb_false_r.
Qed.

Lemma assignment_tenant_nonempty a : assignment_tenant a ≠ "".
Proof. unfold assignment_tenant. by destruct (String.eqb_spec (Transport.TenantID a) ""). Qed.

Lemma FromContext_With x t : t ≠ "" → FromContext (WithContext x t) = t.
Proof. intros. unfold FromContext, WithContext. destruct (String.eqb_spec t ""); [done|]. simpl. by destruct (String.eqb_spec t ""). Qed.

(** ** Identity headers *)

(** An identity of any valid UTF-8 text travels in the encoded header unchanged. *)
Theorem identity_header_roundtrip r rawName encodedName id :
  id ≠ "" → utf8_valid (String.length id) (list_ascii_of_string id) = true →
  hr_header r rawName = [] →
  hr_header r encodedName = [string_of_list_ascii (EncodeToString (list_ascii_of_string id))] →
  exactIdentityHeader r rawName encodedName = Some id.
Proof.
  intros Hne Hu Hr He. unfold exactIdentityHeader. rewrite Hr, He, list_ascii_of_string_of_list_ascii, Decode_Encode.
  destruct (list_ascii_of_string id) as [|c l] eqn:E; [by destruct id|].
  assert (Hl : length (c :: l) = String.length id).
  { rewrite <- E. clear. induction id; simpl; congruence. }
  rewrite Hl, Hu, String.eqb_refl. simpl. f_equal. by rewrite <- (string_of_list_ascii_of_string id), E.
Qed.

(** ** Runner tokens *)

(** No variable of the environment makes the empty token valid, or more than sixteen. *)
Lemma parseTokenAllowList_spec v :
  (length (parseTokenAllowList v) ≤ maxRunnerTokensPerKind)%nat ∧ "" ∉ parseTokenAllowList v.
Proof.
  unfold parseTokenAllowList. split; [rewrite length_take; lia|].
  intros H%elem_of_take. destruct H as (i&H&_). apply list_elem_of_lookup_2 in H.
  unfold non_blank in H. apply list_elem_of_filter in H as [H _]. done.
Qed.

Definition tokens_ok (rt : RunnerTokens) : Prop :=
  ∀ kind l, rt_tokens rt !! kind = Some l → (length l ≤ maxRunnerTokensPerKind)%nat ∧ "" ∉ l.

Lemma load_env_ok kv rt : tokens_ok rt → tokens_ok (load_env kv rt).
Proof.
  intros H. unfold load_env. destruct (IndexByte kv "=") as [i|]; [|done].
  destruct (String.eqb _ ""); [done|]. destruct (HasPrefix _ "RUNNER_TOKEN_"); [|by destruct (HasPrefix _ _)].
  pose proof (parseTokenAllowList_spec (str_drop (S i) kv)) as Hp. destruct (parseTokenAllowList _) as [|t l]; [done|].
  intros kind l'. simpl. destruct (decide (envKeyToRunnerKind (TrimPrefix (str_take i kv) "RUNNER_TOKEN_") = kind)) as [<-|].
  - rewrite lookup_insert_eq. by intros [= <-].
  - rewrite lookup_insert_ne by done. apply H.
Qed.

Lemma load_env_all environ rt : tokens_ok rt → tokens_ok (foldl (λ rt kv, load_env kv rt) rt environ).
Proof. revert rt. induction environ as [|kv l IH]; simpl; auto using load_env_ok. Qed.

(** The empty token is never valid once any runner token is configured. *)
Theorem empty_token_refused environ kind :
  tokens_enabled (Some (LoadRunnerTokensFromEnv environ)) = true →
  Validate (Some (LoadRunnerTokensFromEnv environ)) kind "" = false.
Proof.
  intros He. unfold Validate. rewrite He. destruct (rt_tokens _ !! kind) as [l|] eqn:E; [|done].
  assert (Hok : tokens_ok (LoadRunnerTokensFromEnv environ)).
  { apply load_env_all. intros k l'. simpl. by rewrite lookup_empty. }
  apply Hok in E as [_ Hn]. destruct (existsb _ l) eqn:Ex; [|done].
  apply existsb_exists in Ex as (t&Hin&<-%String.eqb_eq). by apply list_elem_of_In in Hin.
Qed.

(** With tokens configured a handler of the bridge only runs for a runner kind that has
    been proven, never for the empty kind of local mode. *)
Theorem intercepted_kind_is_proven {A} rt md (handler : string → A) a :
  tokens_enabled rt = true → AuthInterceptor rt md handler = Some a →
  ∃ kind get, kind ≠ "" ∧ a = handler kind ∧ md = Some get ∧
    Validate rt kind (default "" (head (get "runner-token"))) = true.
Proof.
  intros He. unfold AuthInterceptor, authenticateRunner. rewrite He. simpl. destruct md as [get|]; [|done].
  destruct (_ || _) eqn:E; [done|]. destruct (Validate _ _ _) eqn:Hv; [|done]. intros [= <-]. bool_solve.
  eexists _, get. split_and!; [|done..]. by apply String.eqb_neq.
Qed.

(** ** Run-bound calls *)

Section internal.
Context {Q : Type} {JQ : JobQueue Q} {JQOK : JobQueueOk Q} {S : Type} `{SessionStore S}.
Variable provider adminProvider : option (http_req → res auth_err AuthResult).
Variable tokens : option RunnerTokens.
Variable strict : bool.

(** C10. A call served on a store, vector, checkpoint or connector route of the runners
    names, in its headers, a run whose lease is held at its current generation, and
    that generation; tenant, agent, thread and user are then the assignment's,
    whatever else the headers claim.  Where runner tokens are configured, the call
    also carries a token of the lease's runner kind, and that kind may serve the
    assignment's tenant; where none are, no token is asked for. *)
Theorem internal_call_is_bound (q : Q) r (sessions s' : option S) x who binding :
  MiddlewareWithOpts provider adminProvider tokens strict (Some (jq_LookupInflight q)) r sessions = (s', Serve x who binding) →
  isInternalPath (hr_path r) = true → requiresRunBinding (hr_path r) = true →
  ∃ run a, jq_lease q run = Some a ∧ holds q run (Generation a) = true ∧
    exactIdentityHeader r "X-Runkite-Run-Id" "X-Runkite-Run-Id-B64" = Some run ∧
    ParseInt (TrimSpace (header r "X-Runkite-Generation")) = Some (Generation a) ∧
    binding = Some (mkRunBinding run (Generation a) (assignment_tenant a) (GraphID a) (ThreadID a) (User a)) ∧
    FromContext x = assignment_tenant a ∧
    (tokens_enabled tokens = true →
       Validate tokens (RunnerKind a) (header r "X-Runner-Token") = true ∧
       AllowsTenant tokens (RunnerKind a) (assignment_tenant a) = true).
Proof using JQOK.
  intros Hm Hi Hb. unfold MiddlewareWithOpts in Hm. rewrite internal_not_public, Hi in Hm by done.
  injection Hm as _ Hm. unfold internal in Hm. rewrite Hb in Hm.
  destruct (tokens_enabled tokens && _) eqn:Hv; [done|]. unfold bindInternalRun in Hm. cbv zeta in Hm.
  destruct (exactIdentityHeader _ _ _) as [[|c run']|] eqn:Hid; [done| |done]. set (run := String c run') in *.
  destruct (String.eqb (TrimSpace _) ""); [done|]. destruct (ParseInt _) as [g|] eqn:Hg; [|done].
  destruct (jq_LookupInflight q run) as [[a|]|] eqn:Hl; [|done|done]. apply jq_lookup_ok in Hl.
  destruct (tokens_enabled tokens && negb (String.eqb (RunnerKind a) _)) eqn:Hk; [done|].
  destruct (g =? Generation a) eqn:He; [|done]. bool_solve. subst g. simpl in Hm.
  destruct (tokens_enabled tokens && negb (AllowsTenant _ _ _)) eqn:Ht; [done|].
  injection Hm as <- <- <-. exists run, a. split_and!; try done.
  - unfold holds. rewrite <- Hl. apply Z.eqb_refl.
  - apply FromContext_With, assignment_tenant_nonempty.
  - intros Hen. rewrite Hen in *. simpl in *. bool_solve. apply String.eqb_eq in Hk.
    by rewrite Hk.
Qed.
End internal.

(** ** Client routes *)

Section client.
Context {S : Type} `{SessionStore S}.
Variable provider adminProvider : option (http_req → res auth_err AuthResult).
Variable tokens : option RunnerTokens.
Variable strict : bool.
Variable inflight : option (string → res go_error (option RunAssignment)).

Notation middleware := (MiddlewareWithOpts provider adminProvider tokens strict inflight).

(** What a permission list must hold for a request, read off the list. *)
Definition permits (ps : list string) (method path : string) : Prop :=
  ∃ p, p ∈ ps ∧
    (p = "admin" ∨ p = requiredPermission method path ∨
     (p = "write" ∧ requiredPermission method path = "read") ∨
     (isAgentRunPermission p = true ∧ isRunCreatePath method path = true)).

Lemma hasPermission_spec ps method path :
  hasPermission ps (requiredPermission method path) method path = true → permits ps method path.
Proof.
  unfold hasPermission. intros (p&Hin&Hp)%existsb_exists. exists p. split; [by apply list_elem_of_In|].
  rewrite !orb_true_iff, !andb_true_iff, !String.eqb_eq in Hp. naive_solver.
Qed.

(** A request served on a client route was authenticated, and its caller has the
    permission the route asks for, or none at all in a deployment that is not strict. *)
Theorem client_call_is_permitted r (sessions s' : option S) x who binding authenticate :
  provider = Some authenticate →
  isPublicPath (hr_method r) (hr_path r) = false → isInternalPath (hr_path r) = false → isAdminAPIPath (hr_path r) = false →
  middleware r sessions = (s', Serve x who binding) →
  ∃ a, authenticate r = Ok a ∧ who = Some a ∧ binding = None ∧
    ((ArPermissions a = [] ∧ strict = false) ∨ permits (ArPermissions a) (hr_method r) (hr_path r)).
Proof.
  intros Hp Hpub Hi Ha. unfold MiddlewareWithOpts. rewrite Hpub, Hi, Ha. simpl.
  unfold admin_or_client, client. rewrite Ha, Hp. destruct (authenticate r) as [a|e]; [|by destruct e].
  destruct (authorized (Some a) _ _ strict) eqn:E; [|done]. intros [= _ _ <- <-].
  exists a. split_and!; [done..|]. unfold authorized in E.
  destruct (ArPermissions a) as [|p ps]; [left; split; [done|by apply negb_true_iff]|right; by apply hasPermission_spec].
Qed.

(** ** The admin surface *)

(** The primary provider's callers the admin surface accepts. *)
Definition admin_caller (a : AuthResult) : Prop :=
  hasPermission (ArPermissions a) "admin" "" "" = true ∨ (ArPermissions a = [] ∧ strict = false).

Lemma authorizedAdmin_caller a : authorizedAdmin (Some a) strict = true → admin_caller a.
Proof. unfold authorizedAdmin, admin_caller. destruct (ArPermissions a); [right|by left]. split; [done|]. by apply negb_true_iff. Qed.

Lemma admin_or_client_grounds r x who binding :
  isAdminAPIPath (hr_path r) = true → admin_or_client provider adminProvider strict r = Serve x who binding →
  (∃ admin a, adminProvider = Some admin ∧ admin r = Ok a ∧ who = Some a) ∨
  (∃ authenticate a, provider = Some authenticate ∧ authenticate r = Ok a ∧
     authorizedAdmin (Some a) strict = true ∧ who = Some a) ∨
  (provider = None ∧ adminProvider = None ∧ who = None).
Proof.
  intros Ha. unfold admin_or_client, client. rewrite Ha.
  assert (Hc : ∀ authenticate, provider = Some authenticate →
    match authenticate r with
    | Ok result => if authorizedAdmin (Some result) strict then serve_as r result else Deny 403 "insufficient permissions"
    | Err e => deny_of e
    end = Serve x who binding →
    ∃ authenticate a, provider = Some authenticate ∧ authenticate r = Ok a ∧ authorizedAdmin (Some a) strict = true ∧ who = Some a).
  { intros authenticate Hp. destruct (authenticate r) as [a|e] eqn:E; [|by destruct e].
    destruct (authorizedAdmin _ _) eqn:Ea; [|done]. intros [= _ <- _]. eauto 8. }
  destruct adminProvider as [admin|].
  - destruct (admin r) as [a|e] eqn:E; [intros [= _ <- _]; eauto 6|].
    destruct provider as [authenticate|]; [|done]. intros H1. right. left. by eapply Hc.
  - destruct provider as [authenticate|]; [intros H1; right; left; by eapply Hc|]. intros [= _ <- _]. auto.
Qed.

Context {SSOK : SessionStoreOk S}.

(** Calls a server gets, and time between them. *)
Inductive admin_step : option S → option S → Prop :=
| as_login s allowed r body : admin_step s (session_Create provider adminProvider strict allowed r body s).1
| as_status s r : admin_step s (session_Status provider adminProvider r s).1
| as_request s r : admin_step s (middleware r s).1
| as_logout s r : admin_step s (session_Delete r s).1
| as_wait s s' : ss_passes s s' → admin_step (Some s) (Some s').

(** Every session stands for a credential the login accepted. *)
Definition vouched (s : option S) : Prop :=
  ∀ st id x, s = Some st → ss_view st !! id = Some x →
    ∃ cred a, authenticateAdminCredential provider adminProvider strict cred = Ok a ∧ same_caller (AsResult x) a.

Lemma vouched_sub s s' :
  vouched s →
  (∀ st' id x, s' = Some st' → ss_view st' !! id = Some x → ∃ st y, s = Some st ∧ ss_view st !! id = Some y ∧ same_login x y) →
  vouched s'.
Proof.
  intros Hv Hs st' id x Es Hx. destruct (Hs _ _ _ Es Hx) as (st&y&->&Hy&[_ Hc]).
  destruct (Hv st id y eq_refl Hy) as (cred&a&Ha&Hca). exists cred, a. split; [done|by etrans].
Qed.

Lemma vouched_get s id : vouched (Some s) → vouched (Some (ss_Get id s).1).
Proof.
  intros Hv. apply (vouched_sub (Some s)); [done|]. intros st' j x [= <-] Hx.
  apply ss_get_view in Hx as (y&Hy&Hs). eauto.
Qed.

Lemma vouched_middleware s r : vouched s → vouched (middleware r s).1.
Proof.
  intros Hv. unfold MiddlewareWithOpts. destruct (isPublicPath _ _); [done|]. destruct (isInternalPath _); [done|].
  destruct (isAdminAPIPath _ && _); [|done]. destruct s as [s|]; [|done].
  pose proof (vouched_get s (hr_cookie r) Hv). by destruct (ss_Get _ s).
Qed.

Lemma vouched_login s allowed r body : vouched s → vouched (session_Create provider adminProvider strict allowed r body s).1.
Proof.
  intros Hv. unfold session_Create. destruct s as [s|]; [|done]. destruct (_ && _); [done|]. cbv zeta.
  destruct (authenticateAdminCredential _ _ _ _) as [a|e] eqn:Ha; [|done].
  assert (Hc : vouched (Some (ss_Create a s).1)).
  { intros st id x [= <-] Hx. apply ss_create_view in Hx as [(y&Hy&[_ Hs])|[_ Hs]]; [|by eauto].
    destruct (Hv s id y eq_refl Hy) as (cred&b&Hb&Hcb). exists cred, b. split; [done|by etrans]. }
  by destruct (ss_Create a s) as [s1 [sess|]].
Qed.

Lemma vouched_step s s' : vouched s → admin_step s s' → vouched s'.
Proof.
  intros Hv Hs. revert Hv. destruct Hs as [s allowed r body|s r|s r|s r|s s' Hp]; intros Hv.
  - by apply vouched_login.
  - unfold session_Status. destruct s as [s|]; [|done]. pose proof (vouched_get s (hr_cookie r) Hv).
    by destruct (ss_Get _ s) as [s1 [sess|]].
  - by apply vouched_middleware.
  - unfold session_Delete. destruct s as [s|]; [|done]. apply (vouched_sub (Some s)); [done|].
    intros st' j x Es Hx. destruct (ss_Delete (hr_cookie r) s) as [s1 ok] eqn:E. injection Es as <-.
    pose proof (ss_delete_view (hr_cookie r) s j x) as Hd. rewrite E in Hd. destruct (Hd Hx) as (y&Hy&?). eauto.
  - apply (vouched_sub (Some s)); [done|]. intros st' j x [= <-] Hx.
    destruct (ss_passes_view s s' j x Hp Hx) as (y&Hy&?). eauto.
Qed.

Lemma vouched_reachable s0 s :
  (∀ st, s0 = Some st → ss_view st = ∅) → rtc admin_step s0 s → vouched s.
Proof.
  intros H0 Hr. assert (Hv : vouched s0). { intros st id x -> . rewrite (H0 st eq_refl). by rewrite lookup_empty. }
  clear H0. induction Hr; eauto using vouched_step.
Qed.

(** C11. A request served on the admin surface is backed by an admin credential: the
    session of a login whose credential was accepted as one (with the session's CSRF
    token when the method changes anything), the admin key, or a caller of the
    primary provider who has the admin permission or, unless permissions are
    strict, no permissions at all.  Only a deployment without any provider is
    open. *)
Theorem admin_surface_guarded s0 s s' r x who binding :
  (∀ st, s0 = Some st → ss_view st = ∅) → rtc admin_step s0 s →
  isAdminAPIPath (hr_path r) = true → isPublicPath (hr_method r) (hr_path r) = false →
  middleware r s = (s', Serve x who binding) →
  (∃ st sess cred a, s = Some st ∧ (ss_Get (hr_cookie r) st).2 = Some sess ∧ who = Some (AsResult sess) ∧
     authenticateAdminCredential provider adminProvider strict cred = Ok a ∧ same_caller (AsResult sess) a ∧
     (isMutatingMethod (hr_method r) = true → header r "X-Csrf-Token" = AsCSRF sess)) ∨
  (∃ admin a, adminProvider = Some admin ∧ admin r = Ok a ∧ who = Some a) ∨
  (∃ authenticate a, provider = Some authenticate ∧ authenticate r = Ok a ∧
     admin_caller a ∧ who = Some a) ∨
  (provider = None ∧ adminProvider = None ∧ who = None).
Proof.
  intros H0 Hr Ha Hpub. pose proof (vouched_reachable s0 s H0 Hr) as Hv.
  assert (Hi : isInternalPath (hr_path r) = false).
  { unfold isAdminAPIPath in Ha. rewrite orb_true_iff, String.eqb_eq, HasPrefix_spec in Ha. by destruct Ha as [->|[p ->]]. }
  unfold MiddlewareWithOpts. rewrite Hpub, Hi, Ha. simpl.
  assert (Hcl : ∀ x who binding, admin_or_client provider adminProvider strict r = Serve x who binding →
    (∃ admin a, adminProvider = Some admin ∧ admin r = Ok a ∧ who = Some a) ∨
    (∃ authenticate a, provider = Some authenticate ∧ authenticate r = Ok a ∧ admin_caller a ∧ who = Some a) ∨
    (provider = None ∧ adminProvider = None ∧ who = None)).
  { intros ? ? ? [?|[(?&a&?&?&?%authorizedAdmin_caller&?)|?]]%admin_or_client_grounds; eauto 10. }
  destruct (hasAuthHeader r); simpl; [intros [= _ H1]; right; by eapply Hcl|].
  destruct s as [st|]; [|intros [= _ H1]; right; by eapply Hcl].
  destruct (ss_Get (hr_cookie r) st) as [st' [sess|]] eqn:Hg; [|intros [= _ H1]; right; by eapply Hcl].
  destruct (isMutatingMethod _ && _) eqn:Hc; [done|]. intros [= _ _ <- _]. left.
  destruct (ss_get_ok _ _ _ _ Hg) as (old&Hold&[_ Hsame]).
  destruct (Hv st _ _ eq_refl Hold) as (cred&a&Hcred&Hca).
  exists st, sess, cred, a. split_and!; [done|by rewrite Hg|done|done|by etrans|].
  intros Hm. rewrite Hm in Hc. simpl in Hc. bool_solve. by apply String.eqb_eq.
Qed.

(** ** Logging out *)

Definition gone (id : string) (s : option S) : Prop := ∀ st, s = Some st → ss_view st !! id = None.

(** Every step that is not a login leaves the sessions there are, or fewer. *)
Lemma step_view s s' st' id x :
  admin_step s s' → s' = Some st' → ss_view st' !! id = Some x →
  ∃ st, s = Some st ∧ ((∃ y, ss_view st !! id = Some y ∧ same_login x y) ∨ ss_next_id st = Some id).
Proof.
  assert (Hget : ∀ s r, Some (ss_Get (hr_cookie r) s).1 = Some st' → ss_view st' !! id = Some x →
    ∃ st, Some s = Some st ∧ ((∃ y, ss_view st !! id = Some y ∧ same_login x y) ∨ ss_next_id st = Some id)).
  { intros s0 r [= <-] Hx. apply ss_get_view in Hx. eauto. }
  assert (Hrefl : ∀ s, s = Some st' → ss_view st' !! id = Some x →
    ∃ st, s = Some st ∧ ((∃ y, ss_view st !! id = Some y ∧ same_login x y) ∨ ss_next_id st = Some id)).
  { intros s0 -> Hx. eexists. split; [done|]. left. by apply kept. }
  destruct 1 as [s allowed r body|s r|s r|s r|s s' Hp].
  - unfold session_Create. destruct s as [s|]; [|done]. destruct (_ && _); [apply Hrefl|]. cbv zeta.
    destruct (authenticateAdminCredential _ _ _ _) as [a|e]; [|apply Hrefl].
    pose proof (ss_create_view a s id x) as Hc. destruct (ss_Create a s) as [s1 [sess|]]; simpl in *;
      intros [= <-] Hx; (destruct (Hc Hx) as [?|[? _]]; eauto).
  - unfold session_Status. destruct s as [s|]; [|done]. specialize (Hget s r).
    destruct (ss_Get _ s) as [s1 [sess|]]; apply Hget.
  - unfold MiddlewareWithOpts. destruct (isPublicPath _ _); [apply Hrefl|]. destruct (isInternalPath _); [apply Hrefl|].
    destruct (isAdminAPIPath _ && _); [|apply Hrefl]. destruct s as [s|]; [|done]. specialize (Hget s r).
    destruct (ss_Get _ s); apply Hget.
  - unfold session_Delete. destruct s as [s|]; [|done]. pose proof (ss_delete_view (hr_cookie r) s id x) as Hd.
    destruct (ss_Delete _ s) as [s1 ok]. intros [= <-] Hx. eauto.
  - intros [= <-] Hx. destruct (ss_passes_view s s' id x Hp Hx) as (y&?&?). eauto 6.
Qed.

(** A confirmed logout ends the session for good, as long as no login draws its id again. *)
Theorem logged_out_stays_out s id s1 s2 st :
  ss_Delete id s = (s1, true) → id ≠ "" →
  rtc (λ a b, admin_step a b ∧ ∀ t, a = Some t → ss_next_id t ≠ Some id) (Some s1) s2 → s2 = Some st →
  (ss_Get id st).2 = None.
Proof.
  intros Hd Hne Hr Es.
  assert (Hg : gone id (Some s1)) by (intros ? [= <-]; by eapply ss_delete_ok).
  assert (Hg2 : gone id s2).
  { clear Es. induction Hr as [|a b c [Hs Hn] _ IH]; [done|]. apply IH. intros t ->.
    destruct (ss_view t !! id) as [x|] eqn:Hx; [|done]. exfalso.
    destruct (step_view _ _ _ _ _ Hs eq_refl Hx) as (t0&->&[(y&Hy&_)|Hi]); [|by eapply Hn].
    rewrite (Hg t0 eq_refl) in Hy. done. }
  destruct (ss_Get id st) as [st' [sess|]] eqn:E; [|done].
  apply ss_get_ok in E as (old&Ho&_). rewrite (Hg2 st Es) in Ho. done.
Qed.
End client.

(** ** Idle sessions *)

(** A session of the memory store is refused when it was not used for its lifetime. *)
Theorem idle_session_refused id s s1 s2 sess :
  mem_Get id s = (s1, Some sess) → mem_passes s1 s2 → ms_now s1 + ms_ttl s1 < ms_now s2 →
  (mem_Get id s2).2 = None.
Proof.
  unfold mem_Get. destruct (String.eqb id "") eqn:Hid; [done|]. destruct (sessions s !! id) as [x|]; [|done].
  destruct (_ <? _) eqn:E; [done|]. intros [= <- <-] (now&random&_&Hs) Hlt. simpl in *.
  destruct Hs as [-> | ->]; simpl in *.
  - rewrite lookup_insert_eq. simpl. by rewrite (proj2 (Z.ltb_lt _ _)).
  - rewrite (proj2 (map_lookup_filter_None _ _ _)); [done|]. right. intros y Hy. rewrite lookup_insert_eq in Hy.
    injection Hy as <-. simpl. by rewrite (proj2 (Z.ltb_lt _ _)).
Qed.

(** In Redis times are whole seconds. *)
Theorem idle_redis_session_refused recode readable id s s1 s2 sess :
  red_Get recode readable id s = (s1, Some sess) → red_passes s1 s2 →
  rs_now s1 + Z.max second (rs_ttl s1) + second ≤ rs_now s2 → (red_Get recode readable id s2).2 = None.
Proof.
  unfold red_Get. destruct (String.eqb id ""); [done|].
  destruct (attempt _ _ _ s) as [s' [[b|]|e]] eqn:Ha; try done. intros [= <- _] (_&_&_&Hsub) Hle.
  apply attempt_ok in Ha. unfold getAndSlideScript in Ha. destruct (kv_get s id) as [b0|] eqn:Hk; [|done].
  destruct (_ <? _); [done|]. injection Ha as <- _. simpl in *.
  assert (Hscript : (getAndSlideScript recode id (sec (rs_now s2)) (Z.max 1 (rs_ttl s2 / second)) s2).2 = None).
  { unfold getAndSlideScript. destruct (kv_get s2 id) as [b2|] eqn:Hk2; [|done].
    apply kv_get_Some in Hk2 as [d Hk2]. pose proof (lookup_weaken _ _ _ _ Hk2 Hsub) as Hb. simpl in Hb.
    rewrite lookup_insert_eq in Hb. injection Hb as <- <-. simpl. rewrite (proj2 (Z.ltb_lt _ _)); [done|].
    unfold sec. clear -Hle. unfold second in *. Z.to_euclidean_division_equations. lia. }
  destruct (attempt _ _ _ s2) as [s3 [[b3|]|e]] eqn:Ha; try done. apply attempt_ok in Ha. by rewrite Ha in Hscript.
Qed.

(** * The middleware on a concrete deployment
    Runner tokens from the environment, a run in flight in the in-process queue, API
    keys, and an operator's browser session.  *)

From S2P Require Import Inprocess.
Local Open Scope string_scope.
Local Open Scope Z_scope.

Definition runner_tokens : RunnerTokens :=
  LoadRunnerTokensFromEnv ["HOME=/root"; "RUNNER_TOKEN_PYTHON_LANGGRAPH=old, new"; "RUNNER_TENANTS_PYTHON_LANGGRAPH=acme"].

Definition acme_job : RunAssignment :=
  mkAssignment "run-1" "t1" "python-langgraph" "shop" "" "" None "" [] [] None None "acme" None 2 "".

Definition one_lease : Queue := mkQueue {[ "python-langgraph" := [] ]} ∅ {[ "run-1" := mkEntry acme_job 0 ]}.

(** A runner that claims another tenant. *)
Definition store_call : http_req :=
  mkHttp "PUT" "/internal/store/items"
    (λ n, if String.eqb n "X-Runner-Kind" then ["python-langgraph"]
          else if String.eqb n "X-Runner-Token" then ["new"]
          else if String.eqb n "X-Runkite-Run-Id" then ["run-1"]
          else if String.eqb n "X-Runkite-Generation" then ["2"]
          else if String.eqb n "X-Runkite-Tenant-Id" then ["globex"] else [])
    "" background.

Definition no_sessions : option AdminSessionStore := None.

Lemma internal_call_is_bound_witness :
  ∃ x who b, (MiddlewareWithOpts None None (Some runner_tokens) true (Some (jq_LookupInflight one_lease)) store_call no_sessions).2
      = Serve x who b ∧ FromContext x = "acme" ∧ holds one_lease "run-1" 2 = true.
Proof.
  assert (H : ∃ x who b, MiddlewareWithOpts None None (Some runner_tokens) true (Some (jq_LookupInflight one_lease))
    store_call no_sessions = (no_sessions, Serve x who b)) by (do 3 eexists; vm_compute; reflexivity).
  destruct H as (x&who&b&H). exists x, who, b. split; [by rewrite H|].
  destruct (internal_call_is_bound None None (Some runner_tokens) true one_lease store_call _ _ _ _ _ H
              ltac:(reflexivity) ltac:(reflexivity)) as (run&a&Hl&Hh&Hid&Hg&_&Hx&_).
  vm_compute in Hid. injection Hid as <-. vm_compute in Hl. injection Hl as <-. by split.
Defined.

Definition keys : gmap string APIKeyEntry :=
  {[ "k-admin" := mkKeyEntry "ada" ["admin"; "openid"] "" ∅; "k-read" := mkKeyEntry "bob" ["read"] "" ∅ ]}.

(** A browser without an authorization header. *)
Definition browser (method cookie csrf : string) : http_req :=
  mkHttp method "/admin-api/kill" (λ n, if String.eqb n "X-Csrf-Token" then [csrf] else []) cookie background.

Definition login_store : AdminSessionStore := mkMem ∅ AdminSessionTTL 0 [Some "s1"; Some "c1"].

Notation login := (session_Create (Some (APIKey_Authenticate keys)) None true true (browser "POST" "" "") "k-admin" (Some login_store)).

Lemma admin_surface_guarded_witness :
  (∃ x who b, (MiddlewareWithOpts (Some (APIKey_Authenticate keys)) None None true None (browser "DELETE" "s1" "c1") login.1).2
     = Serve x (Some who) b ∧ ArIdentity who = "ada") ∧
  (MiddlewareWithOpts (Some (APIKey_Authenticate keys)) None None true None (browser "DELETE" "s1" "forged") login.1).2
     = Deny 403 "invalid or missing CSRF token".
Proof.
  split; [|vm_compute; reflexivity].
  assert (H : ∃ s' x who b, MiddlewareWithOpts (Some (APIKey_Authenticate keys)) None None true None
    (browser "DELETE" "s1" "c1") login.1 = (s', Serve x (Some who) b)) by (do 4 eexists; vm_compute; reflexivity).
  destruct H as (s'&x&who&b&H). exists x, who, b. split; [by rewrite H|].
  destruct (admin_surface_guarded (Some (APIKey_Authenticate keys)) None None true None (Some login_store) login.1 s'
              (browser "DELETE" "s1" "c1") x (Some who) b) as [(st&sess&cred&a&Hs&Hg&Hw&Hc&Hsame&_)|[Hx|[Hx|Hx]]].
  - by intros st [= <-].
  - apply rtc_once, as_login.
  - reflexivity.
  - reflexivity.
  - exact H.
  - vm_compute in Hs. injection Hs as <-. vm_compute in Hg. injection Hg as <-. by injection Hw as ->.
  - by destruct Hx as (admin&a&Ha&_).
  - destruct Hx as (authenticate&a&Ha&Hr&_). injection Ha as <-. vm_compute in Hr. discriminate.
  - by destruct Hx.
Defined.
