(* ===== verification/AuthProviders.v ===== *)
(** * JWT and webhook authentication

    Models [internal/auth/jwt.go] and [internal/auth/webhook.go].  The token parser
    ([golang-jwt]), the cache ([golang-lru]) and the auth sidecar are not part of the
    repository: the parser is a function, the cache the class [AuthCache], the sidecar
    an answer per call.  [json] decoding of the sidecar's answer is a function of its
    body. *)

From Stdlib Require Import Ascii String.
From S2P Require Import Prelude GoStrings GoAny Auth.
Local Open Scope string_scope.
Local Open Scope Z_scope.
Local Open Scope list_scope.

(** ** [strings.Fields] *)

(** The width of the white space a string starts with, 0 for none. *)
Definition space_width (l : list ascii) : nat :=
  match l with
  | a :: l1 =>
      if space1 a then 1
      else match l1 with
           | b :: l2 =>
               if space2 a b then 2
               else match l2 with c :: _ => if space3 a b c then 3 else 0 | [] => 0 end
           | [] => 0
           end
  | [] => 0
  end%nat.

Definition push (cur : list ascii) (out : list string) : list string :=
  match cur with [] => out | _ => string_of_list_ascii (reverse cur) :: out end.

Fixpoint fields_go (fuel : nat) (l cur : list ascii) : list string :=
  match fuel, l with
  | S fuel, a :: l' =>
      match space_width l with
      | O => fields_go fuel l' (a :: cur)
      | w => push cur (fields_go fuel (drop w l) [])
      end
  | _, _ => push cur []
  end.

Definition Fields (s : string) : list string := fields_go (String.length s) (list_ascii_of_string s) [].

(** ** Claims *)

Definition claim_string (v : option any) : string := match v with Some (AStr s) => s | _ => "" end.

Definition strings_of (l : list any) : list string := omap (λ v, match v with AStr s => Some s | _ => None end) l.

Definition parsePermissionsClaim (raw : any) : list string :=
  match raw with
  | AArr l => filterAppPermissions (strings_of l)
  | AStr s => if String.eqb s "" then [] else filterAppPermissions (Fields s)
  | _ => []
  end.

Definition or_default (s d : string) : string := if String.eqb s "" then d else s.

(** ** [JWTProvider] *)

Record JWTConfig := mkJWT {
  Issuer : string;
  Audience : string;
  TenantClaim : string;
  ExtraClaims : list string;
  ForwardToken : bool;
  RawTokenField : string;
  ClaimAliases : gmap string string;
  ForwardHeaders : list (string * string);        (* a map, in the order it is walked *)
  ScopeAsPermissions : bool
}.

Definition NewJWTProvider (cfg : JWTConfig) : JWTConfig :=
  mkJWT (Issuer cfg) (Audience cfg) (or_default (TenantClaim cfg) "tenant_id") (ExtraClaims cfg) (ForwardToken cfg)
    (or_default (RawTokenField cfg) "token") (ClaimAliases cfg) (ForwardHeaders cfg) (ScopeAsPermissions cfg).

Definition extractBearerToken (r : http_req) : string :=
  let auth := header r "Authorization" in
  if HasPrefix auth "Bearer " then TrimSpace (TrimPrefix auth "Bearer ") else "".

Definition valid_methods : list string := ["RS256"; "RS384"; "RS512"; "ES256"; "ES384"; "ES512"].

(** [jwt.Parse] with the methods it accepts, the issuer and the audience it wants. *)
Notation jwt_parser := (list string → option string → option string → string → res string (gmap string any)).

Definition wanted (s : string) : option string := if String.eqb s "" then None else Some s.

Definition claims_permissions (p : JWTConfig) (claims : gmap string any) : list string :=
  let perms := match claims !! "permissions" with Some raw => parsePermissionsClaim raw | None => [] end in
  match perms with
  | [] => if ScopeAsPermissions p then
            let scope := claim_string (claims !! "scope") in
            if String.eqb scope "" then [] else filterAppPermissions (Fields scope)
          else []
  | _ => perms
  end.

Definition display_name (claims : gmap string any) : string :=
  default "" (head (filter (λ s, s ≠ "") ((λ c, claim_string (claims !! c)) <$> ["name"; "given_name"; "preferred_username"]))).

Definition extra_claim (p : JWTConfig) (claims extra : gmap string any) (claimName : string) : gmap string any :=
  match claims !! claimName with
  | Some v => <[or_default (default "" (ClaimAliases p !! claimName)) claimName := v]> extra
  | None => extra
  end.

Definition extra_header (r : http_req) (extra : gmap string any) (h : string * string) : gmap string any :=
  let v := TrimSpace (header r h.1) in
  if String.eqb v "" then extra else <[or_default h.2 h.1 := AStr v]> extra.

(** [ArExtra] is empty when nothing is asked for. *)
Definition jwt_extra (p : JWTConfig) (r : http_req) (tokenStr : string) (claims : gmap string any) : gmap string any :=
  let extra := foldl (extra_claim p claims) ∅ (ExtraClaims p) in
  let extra := if ForwardToken p then <[RawTokenField p := AStr tokenStr]> extra else extra in
  foldl (extra_header r) extra (ForwardHeaders p).

Definition JWT_Authenticate (parse : jwt_parser) (p : JWTConfig) : Provider := λ r,
  let tokenStr := extractBearerToken r in
  if String.eqb tokenStr "" then Err (ErrUnauthorized "missing bearer token")
  else
    match parse valid_methods (wanted (Issuer p)) (wanted (Audience p)) tokenStr with
    | Err e => Err (ErrUnauthorized ("invalid token: " +:+ e))
    | Ok claims =>
        Ok (mkAuth (or_default (claim_string (claims !! "sub")) "unknown") (claims_permissions p claims)
              (claim_string (claims !! TenantClaim p)) (display_name claims) (jwt_extra p r tokenStr claims))
    end.

(** ** [WebhookProvider] *)

Record webhookResponse := mkResponse {
  Allow : bool;
  RespStatus : Z;
  Message : string;
  RespUser : option (gmap string any)
}.

Definition stringField (m : gmap string any) (key : string) : string := claim_string (m !! key).
Definition stringSliceField (m : gmap string any) (key : string) : list string :=
  match m !! key with Some (AArr l) => strings_of l | _ => [] end.

(** What comes back from the sidecar. *)
Inductive reply :=
| BadURL
| Unreachable (msg : string)
| Replied (status : Z) (body : option string).    (* None: the body could not be read *)

Definition first_class (k : string) : bool := existsb (String.eqb k) ["identity"; "permissions"; "tenant_id"; "display_name"].

Definition user_result (user : gmap string any) : AuthResult :=
  mkAuth (or_default (stringField user "identity") "webhook-user") (filterAppPermissions (stringSliceField user "permissions"))
    (stringField user "tenant_id") (stringField user "display_name") (filter (λ kv, first_class kv.1 = false) user).

Section webhook.
(** [json.Unmarshal] of the answer. *)
Variable decode : string → option webhookResponse.
(** The error texts with a number in them. *)
Variable http_text : Z → string.

Definition callWebhook (a : reply) : res auth_err AuthResult :=
  match a with
  | BadURL => Err (ErrUnauthorized "invalid auth webhook URL")
  | Unreachable msg => Err (ErrUnauthorized ("auth webhook unreachable: " +:+ msg))
  | Replied status body =>
      if (status <? 200) || (300 <=? status) then Err (ErrUnauthorized (http_text status))
      else match body with
           | None => Err (ErrUnauthorized "auth webhook response unavailable or too large")
           | Some b =>
               if 2 ^ 20 <? Z.of_nat (String.length b) then Err (ErrUnauthorized "auth webhook response unavailable or too large")
               else match decode b with
                    | None => Err (ErrUnauthorized "auth webhook returned invalid response")
                    | Some w =>
                        if negb (Allow w) then
                          let msg := or_default (Message w) "access denied" in
                          if RespStatus w =? 403 then Err (ErrForbidden msg) else Err (ErrUnauthorized msg)
                        else match RespUser w with
                             | Some user => Ok (user_result user)
                             | None => Ok (mkAuth "webhook-user" [] "" "" ∅)
                             end
                    end
           end
  end.

(** ** The cache of decisions *)

Notation decision := (res auth_err AuthResult).

Class AuthCache (C : Type) := {
  ac_Get : Z → string → C → C * option decision;
  ac_Add : Z → string → decision → C → C
}.

Context {C : Type} `{AuthCache C}.
(** [json.Marshal] of the forwarded headers, method and path, and the hash. *)
Variable marshal : (string → option string) → string → string → string.
Variable sha256_hex : string → string.

(** Of a header's values the first is sent. *)
Definition webhookPayload (r : http_req) : string := marshal (λ k, head (hr_header r k)) (hr_method r) (hr_path r).
Definition cacheKeyFor (r : http_req) : string := sha256_hex (webhookPayload r).

Record WebhookState := mkWebhook {
  wh_cache : option C;                            (* nil: caching is off *)
  wh_calls : list (Z * string * decision)         (* what the sidecar was asked, and the decision *)
}.

(** [now] is the time of the call, [answered] the time its answer is there; [cancelled]:
    the request's context has ended meanwhile. *)
Definition Webhook_Authenticate (now answered : Z) (cancelled : bool) (a : reply) (r : http_req) (s : WebhookState) : WebhookState * decision :=
  let result := callWebhook a in
  let called := wh_calls s ++ [(answered, webhookPayload r, result)] in
  match wh_cache s with
  | None => (mkWebhook None called, result)
  | Some c =>
      match ac_Get now (cacheKeyFor r) c with
      | (c, Some e) => (mkWebhook (Some c) (wh_calls s), e)
      | (c, None) => (mkWebhook (Some (if cancelled then c else ac_Add answered (cacheKeyFor r) result c)) called, result)
      end
  end.
End webhook.

(** ** Admin login attempts ([login_limit.go]) *)
Section login.
(** [golang.org/x/time/rate]: a limiter of 5 tokens, refilled at 5 a minute, and
    [Allow] at an instant. *)
Variable limiter : Type.
Variable NewLimiter : limiter.
Variable limiter_Allow : Z → limiter → limiter * bool.

Definition maxLoginBuckets : nat := 10000.

Definition login_allow (now : Z) (ip0 : string) (buckets : gmap string limiter) : gmap string limiter * bool :=
  let ip := or_default ip0 "unknown" in
  let '(lim, buckets) :=
    match buckets !! ip with
    | Some lim => (lim, buckets)
    | None => (NewLimiter, if (maxLoginBuckets <=? size buckets)%nat then ∅ else buckets)
    end in
  let (lim', ok) := limiter_Allow now lim in (<[ip := lim']> buckets, ok).

(** [net.SplitHostPort]; the peer's address as it stands when it has no port. *)
Variable SplitHostPort : string → option string.
Definition clientIP (remoteAddr : string) : string := default remoteAddr (SplitHostPort remoteAddr).

Definition loginAllowed (configured : bool) (now : Z) (remoteAddr : string) (buckets : gmap string limiter) : gmap string limiter * bool :=
  if configured then login_allow now (clientIP remoteAddr) buckets else (buckets, true).
End login.

(** * What the JWT and webhook providers guarantee *)

From S2P Require Import Store.
Local Open Scope string_scope.
Local Open Scope Z_scope.
Local Open Scope list_scope.

Lemma filterApp_all l : Forall (λ p, appPermission p = true) (filterAppPermissions l).
Proof. unfold filterAppPermissions. apply list.Forall_forall. intros p Hp. by apply list_elem_of_filter in Hp as [? _]. Qed.

Lemma parsePermissions_all raw : Forall (λ p, appPermission p = true) (parsePermissionsClaim raw).
Proof. destruct raw; simpl; try constructor; [|apply filterApp_all]. destruct (String.eqb _ _); [constructor|apply filterApp_all]. Qed.

Lemma claims_permissions_all p claims : Forall (λ q, appPermission q = true) (claims_permissions p claims).
Proof.
  unfold claims_permissions. destruct (claims !! "permissions") as [raw|]; [pose proof (parsePermissions_all raw) as H; destruct (parsePermissionsClaim raw); [clear H|done]|];
    (destruct (ScopeAsPermissions p); [|constructor]; cbv zeta; destruct (String.eqb _ _); [constructor|apply filterApp_all]).
Qed.

Lemma or_default_nonempty s d : d ≠ "" → or_default s d ≠ "".
Proof. unfold or_default. destruct (String.eqb_spec s ""); done. Qed.

Lemma claim_string_some v : claim_string v = "" ∨ v = Some (AStr (claim_string v)).
Proof. destruct v as [[]|]; auto. Qed.

(** A JWT is accepted only with a verified bearer token; the caller's permissions are
    words of the application, and the tenant is the token's claim or none. *)
Theorem jwt_from_claims parse p r res : JWT_Authenticate parse p r = Ok res →
  ∃ claims, extractBearerToken r ≠ "" ∧
    parse valid_methods (wanted (Issuer p)) (wanted (Audience p)) (extractBearerToken r) = Ok claims ∧
    ArIdentity res ≠ "" ∧ Forall (λ q, appPermission q = true) (ArPermissions res) ∧
    (ArTenantID res = "" ∨ claims !! TenantClaim p = Some (AStr (ArTenantID res))).
Proof.
  unfold JWT_Authenticate. destruct (String.eqb_spec (extractBearerToken r) "") as [|Hne]; [done|].
  destruct (parse _ _ _ _) as [claims|] eqn:Hp; [|done]. intros [= <-]. exists claims. split_and!; try done.
  - by apply or_default_nonempty.
  - apply claims_permissions_all.
  - apply claim_string_some.
Qed.

(** The raw token is in the caller's record only where the configuration asks for it. *)
Theorem jwt_token_not_forwarded parse p r res : ForwardToken p = false → ForwardHeaders p = [] → ExtraClaims p = [] →
  JWT_Authenticate parse p r = Ok res → ArExtra res = ∅.
Proof.
  intros Hf Hh He. unfold JWT_Authenticate. destruct (String.eqb _ _); [done|]. destruct (parse _ _ _ _); [|done]. intros [= <-]. simpl.
  unfold jwt_extra. by rewrite Hf, Hh, He.
Qed.

Section webhook.
Context (decode : string → option webhookResponse) (http_text : Z → string).
Notation callWebhook := (callWebhook decode http_text).

(** The sidecar must say yes: anything but a readable 2xx answer that allows is a
    refusal, and what it says of the caller is reduced to the application's words. *)
Theorem webhook_denies_by_default a res : callWebhook a = Ok res →
  ∃ status b w, a = Replied status (Some b) ∧ 200 ≤ status < 300 ∧ Z.of_nat (String.length b) ≤ 2 ^ 20 ∧ decode b = Some w ∧ Allow w = true ∧
    ArIdentity res ≠ "" ∧ Forall (λ q, appPermission q = true) (ArPermissions res) ∧
    ∀ k, first_class k = true → ArExtra res !! k = None.
Proof.
  destruct a as [|msg|status [b|]]; simpl; try done; destruct (Z.ltb_spec status 200); try done; destruct (Z.leb_spec 300 status); try done. simpl.
  change (2 ^ 20) with 1048576. destruct (Z.ltb_spec 1048576 (Z.of_nat (String.length b))); [done|]. destruct (decode b) as [w|] eqn:Hd; [|done].
  destruct (Allow w) eqn:Ha; simpl; [|by destruct (_ =? _)]. intros Hr. exists status, b, w. split_and!; try done.
  - destruct (RespUser w); injection Hr as <-; [by apply or_default_nonempty|done].
  - destruct (RespUser w); injection Hr as <-; [apply filterApp_all|constructor].
  - intros k Hk. destruct (RespUser w) as [user|]; injection Hr as <-; simpl; [|apply lookup_empty].
    apply map_lookup_filter_None. right. intros v _. simpl. congruence.
Qed.

(** ** Cached decisions *)
Notation decision := (res auth_err AuthResult).

(** A cache keeps, at most for [ttl], what was added under a key. *)
Class AuthCacheOk (C : Type) `{AuthCache C} (ttl : Z) := {
  ac_holds : C → string → option (decision * Z);
  ac_Get_fresh now k c c' e : ac_Get now k c = (c', Some e) → ∃ t, ac_holds c k = Some (e, t) ∧ now < t + ttl;
  ac_Get_keeps now k c c' o k' x : ac_Get now k c = (c', o) → ac_holds c' k' = Some x → ac_holds c k' = Some x;
  ac_Add_keeps now k e c k' x : ac_holds (ac_Add now k e c) k' = Some x → (k' = k ∧ x = (e, now)) ∨ ac_holds c k' = Some x
}.

Context {C : Type} `{HC : AuthCache C} (ttl : Z) `{HOK : !AuthCacheOk C ttl}.
Context (marshal : (string → option string) → string → string → string) (sha256_hex : string → string).
Hypothesis sha_free : ∀ p q, sha256_hex p = sha256_hex q → p = q.
Notation payload := (webhookPayload marshal).
Notation authenticate := (Webhook_Authenticate decode http_text (C := C) marshal sha256_hex).

Definition genuine (s : WebhookState (C := C)) : Prop :=
  ∀ c k e t, wh_cache s = Some c → ac_holds c k = Some (e, t) → ∃ p, (t, p, e) ∈ wh_calls s ∧ sha256_hex p = k.

Lemma authenticate_genuine now answered cancelled a r s s' e : genuine s → authenticate now answered cancelled a r s = (s', e) →
  genuine s' ∧ ∃ t, (t, payload r, e) ∈ wh_calls s' ∧ (t = answered ∨ now < t + ttl).
Proof using HOK sha_free.
  intros Hg H. unfold Webhook_Authenticate in H. destruct (wh_cache s) as [c|] eqn:Hc.
  - destruct (ac_Get now (cacheKeyFor marshal sha256_hex r) c) as [c1 [e1|]] eqn:Hget; injection H as <- <-.
    + split.
      * intros c' k e t [= <-] Hh. simpl. eapply Hg; [done|]. by eapply ac_Get_keeps.
      * apply ac_Get_fresh in Hget as (t&Hh&Ht). destruct (Hg _ _ _ _ Hc Hh) as (p&Hin&Hp). apply sha_free in Hp as ->. exists t. simpl. auto.
    + split.
      * intros c' k e t [= <-] Hh. simpl. assert (Hold : ac_holds c1 k = Some (e, t) → ∃ p, (t, p, e) ∈ wh_calls s ++ [(answered, payload r, callWebhook a)] ∧ sha256_hex p = k).
        { intros Hx. destruct (Hg c k e t Hc) as (p&Hin&?); [by eapply ac_Get_keeps|]. exists p. split; [set_solver|done]. }
        destruct cancelled; [by apply Hold|]. apply ac_Add_keeps in Hh as [[-> [= -> ->]]|Hh]; [|by apply Hold]. exists (payload r). split; [set_solver|done].
      * exists answered. split; [simpl; set_solver|by left].
  - injection H as <- <-. split; [by intros c k e t|]. exists answered. split; [simpl; set_solver|by left].
Qed.

Record wcall := mkWcall { wc_now : Z; wc_answered : Z; wc_cancelled : bool; wc_reply : reply; wc_req : http_req }.

Definition wstep (s : WebhookState (C := C)) (c : wcall) : WebhookState :=
  (authenticate (wc_now c) (wc_answered c) (wc_cancelled c) (wc_reply c) (wc_req c) s).1.

(** C12. A cached decision is never reused for another request: after any sequence of
    requests, what a request is answered is a decision the sidecar gave to the same
    forwarded headers, method and path, now or less than the cache's lifetime ago,
    when the hash has no collisions. *)
Theorem webhook_cache_exact c0 calls now answered cancelled a r s' e :
  (∀ k, ac_holds c0 k = None) →
  authenticate now answered cancelled a r (foldl wstep (mkWebhook (Some c0) []) calls) = (s', e) →
  ∃ t, (t, payload r, e) ∈ wh_calls s' ∧ (t = answered ∨ now < t + ttl).
Proof using HOK sha_free.
  intros H0 H. eapply authenticate_genuine; [|exact H].
  assert (Hgen : ∀ s, genuine s → genuine (foldl wstep s calls)).
  { clear H. induction calls as [|c calls IH]; intros s Hs; [done|]. simpl. apply IH. unfold wstep.
    destruct (authenticate _ _ _ _ _ s) as [s1 e1] eqn:E. by apply authenticate_genuine in E as [? _]. }
  apply Hgen. intros c k e1 t [= <-]. by rewrite H0.
Qed.
End webhook.

(** ** A cache *)

Notation simple_cache := (gmap string (res auth_err AuthResult * Z)).

Definition simple_Get (ttl : Z) (now : Z) (k : string) (c : simple_cache) : simple_cache * option (res auth_err AuthResult) :=
  match c !! k with Some (e, t) => if now <? t + ttl then (c, Some e) else (delete k c, None) | None => (c, None) end.

#[local] Instance simple_auth_cache : AuthCache simple_cache := {
  ac_Get := simple_Get 60;
  ac_Add := λ now k e c, <[k := (e, now)]> c
}.

#[local] Instance simple_auth_cache_ok : AuthCacheOk simple_cache 60.
Proof.
  refine {| ac_holds := λ (c : simple_cache) k, c !! k |}.
  - intros now k c c' e. simpl. unfold simple_Get. destruct (c !! k) as [[e0 t]|]; [|done].
    destruct (Z.ltb_spec now (t + 60)); [|done]. intros [= <- <-]. by exists t.
  - intros now k c c' o k' x. simpl. unfold simple_Get. destruct (c !! k) as [[e0 t]|]; [|by intros [= <- _]].
    destruct (now <? t + 60); intros [= <- _]; [done|]. rewrite lookup_delete_Some. by intros [_ ?].
  - intros now k e c k' x. simpl. rewrite lookup_insert_Some. intros [[<- <-]|[_ ?]]; auto.
Defined.

Definition yes (_ : string) : option webhookResponse := Some (mkResponse true 0 "" None).
Definition plain_marshal_req (h : string → option string) (m p : string) : string := m +:+ " " +:+ p +:+ " " +:+ default "" (h "Cookie").
Definition req_as (cookie : string) : http_req :=
  mkHttp "GET" "/threads" (λ k, if String.eqb k "Cookie" then [cookie] else []) "" background.

Definition first_request : wcall := mkWcall 0 1 false (Replied 200 (Some "{}")) (req_as "ann").

(** The second request of the same caller is answered from the cache, at time 30. *)
Lemma webhook_cache_exact_witness :
  ∃ t, (t, "GET /threads ann", Ok (mkAuth "webhook-user" [] "" "" ∅)) ∈ [(1, "GET /threads ann", Ok (mkAuth "webhook-user" [] "" "" ∅) : res auth_err AuthResult)] ∧ (t = 31 ∨ 30 < t + 60).
Proof.
  exact (webhook_cache_exact yes (λ _, "") 60 plain_marshal_req (λ p, p) (λ p q E, E) (∅ : simple_cache) [first_request]
           30 31 false BadURL (req_as "ann") _ _ (λ k, lookup_empty k) eq_refl).
Defined.

(** ** Login attempts *)
Section login.
Context (limiter : Type) (NewLimiter : limiter) (limiter_Allow : Z → limiter → limiter * bool).
Notation login_allow := (login_allow limiter NewLimiter limiter_Allow).

(** The answers to a sequence of attempts, each at a time from an address. *)
Fixpoint answers (m : gmap string limiter) (l : list (Z * string)) : list (string * bool) :=
  match l with
  | [] => []
  | (now, ip) :: l => let (m', ok) := login_allow now ip m in (or_default ip "unknown", ok) :: answers m' l
  end.

(** The answers of one limiter to attempts at these times. *)
Fixpoint alone (lim : limiter) (times : list Z) : list bool :=
  match times with [] => [] | now :: times => let (lim', ok) := limiter_Allow now lim in ok :: alone lim' times end.

Definition from (ip : string) (l : list (Z * string)) : list Z := (filter (λ a, or_default a.2 "unknown" = ip) l).*1.

Lemma answers_alone ip l : ∀ m (S : gset string), dom m ⊆ S → (size (S ∪ list_to_set ((λ a, or_default a.2 "unknown") <$> l)) ≤ maxLoginBuckets)%nat →
  (filter (λ a, a.1 = ip) (answers m l)).*2 = alone (default NewLimiter (m !! ip)) (from ip l).
Proof.
  induction l as [|[now ip0] l IH]; intros m S HS Hsize; [done|]. simpl answers. unfold login_allow. set (i := or_default ip0 "unknown").
  assert (Hkeep : (if (maxLoginBuckets <=? size m)%nat then ∅ else m) = m ∨ is_Some (m !! i)).
  { destruct (m !! i) eqn:Hi; [right; by eexists|left]. destruct (Nat.leb_spec maxLoginBuckets (size m)) as [Hge|]; [|done]. exfalso.
    assert (Hlt : (size m < size (S ∪ list_to_set ((λ a : Z * string, or_default a.2 "unknown") <$> (now, ip0) :: l)))%nat); [|lia].
    rewrite <- (size_dom m). apply subset_size. apply not_elem_of_dom in Hi. split; [set_solver|]. intros Hsub. apply Hi, Hsub. simpl. set_solver. }
  assert (Hstep : (match m !! i with Some lim => (lim, m) | None => (NewLimiter, if (maxLoginBuckets <=? size m)%nat then ∅ else m) end)
    = (default NewLimiter (m !! i), m)).
  { destruct (m !! i) eqn:Hi; [done|]. destruct Hkeep as [->|[? ?]]; [done|congruence]. }
  rewrite Hstep. destruct (limiter_Allow now (default NewLimiter (m !! i))) as [lim' ok] eqn:Ha.
  assert (HIH : (filter (λ a, a.1 = ip) (answers (<[i:=lim']> m) l)).*2 = alone (default NewLimiter (<[i:=lim']> m !! ip)) (from ip l)).
  { apply (IH _ (S ∪ {[i]})); [rewrite dom_insert_L; set_solver|]. simpl in Hsize. fold i in Hsize. by rewrite (assoc_L (∪)) in Hsize. }
  unfold from. rewrite !filter_cons. simpl. fold i. destruct (decide (i = ip)) as [E|E].
  - simpl. rewrite E in *. rewrite Ha. f_equal. by rewrite lookup_insert_eq in HIH.
  - by rewrite lookup_insert_ne in HIH.
Qed.

(** While at most 10000 addresses have tried, an address is answered as if it were
    alone: its own limiter, fed with its own attempts. *)
Theorem login_answers_own ip l : (size (list_to_set ((λ a, or_default a.2 "unknown") <$> l) : gset string) ≤ maxLoginBuckets)%nat →
  (filter (λ a, a.1 = ip) (answers ∅ l)).*2 = alone NewLimiter (from ip l).
Proof. intros Hs. rewrite (answers_alone ip l ∅ ∅); [by rewrite lookup_empty|set_solver|by rewrite (left_id_L ∅ (∪))]. Qed.

(** One more address forgets the attempts of all the others. *)
Theorem login_buckets_reset now ip m m' ok : m !! or_default ip "unknown" = None → (maxLoginBuckets ≤ size m)%nat →
  login_allow now ip m = (m', ok) → ∀ other, other ≠ or_default ip "unknown" → m' !! other = None.
Proof.
  intros Hn Hs. unfold login_allow. rewrite Hn, (proj2 (Nat.leb_le _ _) Hs). destruct (limiter_Allow now NewLimiter) as [lim' ok'].
  intros [= <- _] other Hne. by rewrite lookup_insert_ne, lookup_empty.
Qed.
End login.
