(* ===== verification/Policy.v ===== *)
(** * The policy engine

    Models [internal/policy/{static,policy,mandatory_hitl,webhook,cache}.go]:
    static grants and their overlay merge, mandatory human approval, the policy
    webhook, and the engine that chains them behind a decision cache.

    Outside the model: the webhook's HTTP exchange is the parameter [pdp], what
    the remote answers at this call (another call may get another answer), and the
    LRU library is a map from which any entries may have disappeared by the time it
    is read ([evict]). *)

From Stdlib Require Import Ascii String.
From S2P Require Import Prelude GoStrings GoAny JsonNumber Predicates.
Local Open Scope string_scope.
Local Open Scope Z_scope.

(** ** Static grants *)

Record ToolFilter := mkFilter { Allow : list string; Deny : list string }.

Record Grant := mkGrant {
  GID : string;
  GTenantID : string;
  GAgentID : string;
  GConnector : string;
  GTools : option ToolFilter
}.

Definition toolAllowed (filter : option ToolFilter) (tool : string) : bool :=
  match filter with
  | None => true
  | Some f =>
      if existsb (λ d, String.eqb d tool) (Deny f) then false
      else if (length (Allow f) =? 0)%nat then true
      else existsb (λ a, String.eqb a tool) (Allow f)
  end.

Definition grant_key (g : Grant) : string * string * string :=
  (TrimSpace (GTenantID g), TrimSpace (GAgentID g), TrimSpace (GConnector g)).

Definition input_key (inp : PolicyInput) : string * string * string :=
  (TrimSpace (TenantID inp), TrimSpace (AgentID inp), TrimSpace (Connector inp)).

(** [Static.decide] *)
Definition static_decide (grants : list Grant) (inp : PolicyInput) : PolicyDecision :=
  let '(tenant, agent, connector) := input_key inp in
  match find_first (λ g, String.eqb (TrimSpace (GTenantID g)) tenant
                         && String.eqb (TrimSpace (GAgentID g)) agent
                         && String.eqb (TrimSpace (GConnector g)) connector) grants with
  | None => mkDecision EffectDeny "no grant for tenant/agent/connector" ReasonPolicyNoGrant "" 0
  | Some g =>
      let tool := TrimSpace (Tool inp) in
      if String.eqb (Stage inp) StageToolCall
         && (String.eqb tool "" || negb (toolAllowed (GTools g) tool))
      then mkDecision EffectDeny "tool not allowed by grant" ReasonPolicyToolDenied (GID g) 0
      else mkDecision EffectAllow "matched grant" "" (GID g) 0
  end.

(** ** Overlay merges *)

Definition key3 : Type := string * string * string.

Section merge.
Context {R : Type}.
Variable key : R → key3.
Variable usable : key3 → bool.

(** The loop body shared by both merges: overwrite in place or append. *)
Definition merge_add (st : list R * gmap key3 nat) (r : R) : list R * gmap key3 nat :=
  let '(out, idx) := st in
  let k := key r in
  if negb (usable k) then (out, idx)
  else match idx !! k with
       | Some i => (<[i := r]> out, idx)
       | None => ((out ++ [r])%list, <[k := length out]> idx)
       end.

Definition merge (baseline overlays : list R) : list R :=
  (foldl merge_add (foldl merge_add ([], ∅) baseline) overlays).1.
End merge.

Definition nonempty (s : string) : bool := negb (String.eqb s "").

Definition mergeGrants (baseline overlays : list Grant) : list Grant :=
  merge grant_key (λ k, nonempty k.1.1 && nonempty k.1.2 && nonempty k.2) baseline overlays.

(** ** Mandatory human approval *)

Record MandatoryHITLRule := mkRule {
  HID : string;
  HTenantID : string;
  HAgentID : string;
  HConnector : string;
  HTools : list string
}.

Definition rule_key (r : MandatoryHITLRule) : key3 :=
  (TrimSpace (HTenantID r), TrimSpace (HAgentID r), TrimSpace (HConnector r)).

Definition mergeMandatoryHITL (baseline overlays : list MandatoryHITLRule) : list MandatoryHITLRule :=
  merge rule_key (λ k, nonempty k.1.1 && nonempty k.2) baseline overlays.

Definition mandatoryToolMatch (tools : list string) (tool : string) : bool :=
  if (length tools =? 0)%nat then nonempty tool
  else existsb (λ t, String.eqb (TrimSpace t) tool) tools.

Fixpoint match_rules (tenant agent connector tool : string) (tenantWide : option MandatoryHITLRule)
    (rules : list MandatoryHITLRule) : option MandatoryHITLRule :=
  match rules with
  | [] => tenantWide
  | r :: rules' =>
      let next := match_rules tenant agent connector tool in
      if negb (String.eqb (TrimSpace (HTenantID r)) tenant) then next tenantWide rules'
      else if negb (String.eqb (TrimSpace (HConnector r)) connector) then next tenantWide rules'
      else if negb (mandatoryToolMatch (HTools r) tool) then next tenantWide rules'
      else
        let aid := TrimSpace (HAgentID r) in
        if String.eqb aid "" then
          next (match tenantWide with None => Some r | w => w end) rules'
        else if String.eqb aid agent then Some r
        else next tenantWide rules'
  end.

Definition matchMandatoryHITL (rules : list MandatoryHITLRule) (inp : PolicyInput)
  : option MandatoryHITLRule :=
  match_rules (TrimSpace (TenantID inp)) (TrimSpace (AgentID inp)) (TrimSpace (Connector inp))
    (TrimSpace (Tool inp)) None rules.

Definition applyMandatoryHITL (rules : list MandatoryHITLRule) (inp : PolicyInput)
    (dec : PolicyDecision) : PolicyDecision :=
  if negb (String.eqb (Stage inp) StageToolCall) || negb (String.eqb (Effect dec) EffectAllow) then dec
  else match matchMandatoryHITL rules inp with
       | None => dec
       | Some r =>
           let id := TrimSpace (HID r) in
           mkDecision EffectPending "mandatory HITL for tool" ReasonMandatoryHITL
             (if String.eqb id "" then "mandatory_hitl" else id) (LatencyMs dec)
       end.

(** ** The policy webhook *)

(** What the HTTP exchange produced. *)
Inductive reply :=
| RFailed (msg : string)                 (* request or transport error *)
| RUnreadable                            (* body unavailable or too large *)
| RStatus (code : Z) (body : string)     (* answered, with the body text *)
| RInvalid                               (* 2xx, not valid JSON *)
| RAnswer (allow : option bool) (effect reason reason_code rule_id : string).

Definition webhookFail (failClosed : bool) (reason code : string) : PolicyDecision :=
  if negb failClosed
  then mkDecision EffectAllow ("webhook error ignored (fail_open): " +:+ reason) "" "" 0
  else mkDecision EffectDeny reason code "" 0.

Definition known_effect (e : string) : bool :=
  String.eqb e EffectAllow || String.eqb e EffectDeny || String.eqb e EffectPending.

Definition webhook_decide (failClosed : bool) (r : reply) : PolicyDecision :=
  let fail reason := webhookFail failClosed reason ReasonPolicyWebhookFailed in
  match r with
  | RFailed msg => fail ("policy webhook request failed: " +:+ msg)
  | RUnreadable => fail "policy webhook response unavailable or too large"
  | RStatus code body =>
      let reason := TrimSpace body in
      fail (if String.eqb reason ""
            then "policy webhook HTTP " +:+ string_of_list_ascii (Itoa code) else reason)
  | RInvalid => fail "policy webhook response is not valid JSON"
  | RAnswer allow effect reason code rule =>
      let effect := if String.eqb effect "" then
                      match allow with
                      | Some true => EffectAllow
                      | Some false => EffectDeny
                      | None => ""
                      end
                    else effect in
      if String.eqb effect "" then fail "policy webhook response missing allow/effect"
      else if negb (known_effect effect) then fail "policy webhook response has invalid effect"
      else
        let code := if String.eqb code "" then
                      (if String.eqb effect EffectDeny then ReasonPolicyWebhookDeny
                       else if String.eqb effect EffectPending then ReasonPolicyPending else "")
                    else code in
        mkDecision effect reason code rule 0
  end.

(** ** The engine *)

Record Engine := mkEngine {
  e_baseline : list Grant;
  e_overlays : list Grant;
  e_static : option (list Grant);
  e_webhook : bool;
  e_hitl_baseline : list MandatoryHITLRule;
  e_hitl_overlays : list MandatoryHITLRule;
  e_hitl : list MandatoryHITLRule;
  e_predicates : list Predicate;
  e_auditor : bool;
  e_exporter : bool;
  e_cache : option (gmap string PolicyDecision);   (* None: caching off *)
  e_default : string;
  e_failClosed : bool
}.

Definition cacheKey (inp : PolicyInput) : string :=
  let nul := String (ascii_of_nat 0) "" in
  Stage inp +:+ nul +:+ TenantID inp +:+ nul +:+ AgentID inp +:+ nul +:+ Principal inp +:+ nul
  +:+ Connector inp +:+ nul +:+ Tool inp +:+ nul +:+ ArgsDigest inp.

Definition set_cache (c : option (gmap string PolicyDecision)) (e : Engine) : Engine :=
  mkEngine (e_baseline e) (e_overlays e) (e_static e) (e_webhook e) (e_hitl_baseline e)
    (e_hitl_overlays e) (e_hitl e) (e_predicates e) (e_auditor e) (e_exporter e) c (e_default e)
    (e_failClosed e).

(** [Purge] *)
Definition cache_clear (c : option (gmap string PolicyDecision)) : option (gmap string PolicyDecision) :=
  (λ _, ∅) <$> c.

Definition cachePut (inp : PolicyInput) (dec : PolicyDecision) (e : Engine) : Engine :=
  set_cache ((λ m, <[cacheKey inp := dec]> m) <$> e_cache e) e.

Definition applyOverlaysLocked (overlays : list Grant) (e : Engine) : Engine :=
  let merged := mergeGrants (e_baseline e) overlays in
  mkEngine (e_baseline e) overlays
    (if (length merged =? 0)%nat then None else Some merged) (e_webhook e) (e_hitl_baseline e)
    (e_hitl_overlays e) (e_hitl e) (e_predicates e) (e_auditor e) (e_exporter e)
    (cache_clear (e_cache e)) (e_default e) (e_failClosed e).

Definition ReplaceOverlays := applyOverlaysLocked.

Definition applyMandatoryHITLOverlaysLocked (overlays : list MandatoryHITLRule) (e : Engine) : Engine :=
  mkEngine (e_baseline e) (e_overlays e) (e_static e) (e_webhook e) (e_hitl_baseline e) overlays
    (mergeMandatoryHITL (e_hitl_baseline e) overlays) (e_predicates e) (e_auditor e) (e_exporter e)
    (cache_clear (e_cache e)) (e_default e) (e_failClosed e).

Definition ReplaceMandatoryHITL := applyMandatoryHITLOverlaysLocked.

Record Config := mkConfig {
  DefaultEffect : string;
  FailClosed : option bool;
  CacheTTL : Z;
  Grants : list Grant;
  Overlays : list Grant;
  MandatoryHITL : list MandatoryHITLRule;
  CPredicates : list Predicate;
  WebhookURL : option string;       (* None: no webhook section *)
  Auditor : bool;
  Exporter : bool;
  ForceEnable : bool
}.

Definition valid_predicates (ps : list Predicate) : list Predicate :=
  omap (λ p, match ValidatePredicate p with Ok vp => Some vp | Err _ => None end) ps.

Definition New (cfg : Config) : option Engine :=
  let preds := valid_predicates (CPredicates cfg) in
  let some {A} (l : list A) := negb (length l =? 0)%nat in
  let hasWebhook := match WebhookURL cfg with
                    | Some url => negb (String.eqb (TrimSpace url) "")
                    | None => false
                    end in
  if negb (some (Grants cfg)) && negb (some (Overlays cfg)) && negb hasWebhook
     && negb (some (MandatoryHITL cfg)) && negb (some preds) && negb (ForceEnable cfg)
  then None
  else
    let def := ToLower (TrimSpace (DefaultEffect cfg)) in
    let def := if String.eqb def EffectAllow then def else EffectDeny in
    let e := mkEngine (Grants cfg) [] None hasWebhook (MandatoryHITL cfg) [] [] preds (Auditor cfg)
               (Exporter cfg) (if 0 <? CacheTTL cfg then Some ∅ else None) def
               (default true (FailClosed cfg)) in
    Some (applyMandatoryHITLOverlaysLocked [] (applyOverlaysLocked (Overlays cfg) e)).

Section decide.
Variable marshal_float : float64 → option (list ascii).
(** What the remote decision point answers, at this call, to a request. *)
Variable pdp : PolicyInput → reply.

(** What [decide] reads under the engine's lock. *)
Record snapshot := mkSnap {
  sn_static : option (list Grant);
  sn_webhook : bool;
  sn_default : string;
  sn_failClosed : bool;
  sn_predicates : list Predicate
}.

Definition take_snapshot (e : Engine) : snapshot :=
  mkSnap (e_static e) (e_webhook e) (e_default e) (e_failClosed e) (e_predicates e).

Definition decideRunCreate (s : snapshot) (inp : PolicyInput) : PolicyDecision :=
  if sn_webhook s then
    let dec := webhook_decide (sn_failClosed s) (pdp inp) in
    if String.eqb (Effect dec) EffectPending
    then mkDecision EffectDeny "run.create does not support pending" ReasonPolicyAdmissionDeny
           (RuleID dec) 0
    else if negb (String.eqb (Effect dec) EffectAllow)
    then mkDecision (Effect dec) (Reason dec)
           (if String.eqb (ReasonCode dec) "" then ReasonPolicyAdmissionDeny else ReasonCode dec)
           (RuleID dec) (LatencyMs dec)
    else dec
  else mkDecision EffectAllow "run.create admitted" "" "" 0.

Definition missing_binding (inp : PolicyInput) : bool :=
  String.eqb (TrimSpace (TenantID inp)) "" || String.eqb (TrimSpace (AgentID inp)) "".

Definition binding_denied : PolicyDecision :=
  mkDecision EffectDeny "policy requires tenant_id and agent_id from the run assignment"
    ReasonPolicyMissingBinding "" 0.

(** After the static layer: the rest of [decide] for connector stages.  Returns
    the decision and whether it is cached. *)
Definition decide_layers (s : snapshot) (staticAllow : option PolicyDecision) (inp : PolicyInput)
  : PolicyDecision * bool :=
  match applyPredicates marshal_float (sn_predicates s) inp with
  | Some pred => (pred, negb (String.eqb (Effect pred) EffectPending))
  | None =>
      if sn_webhook s then
        let dec := webhook_decide (sn_failClosed s) (pdp inp) in
        if negb (String.eqb (Effect dec) EffectAllow) then
          let pending := String.eqb (Effect dec) EffectPending in
          (mkDecision (Effect dec) (Reason dec)
             (if pending && String.eqb (ReasonCode dec) "" then ReasonPolicyPending else ReasonCode dec)
             (RuleID dec) (LatencyMs dec), negb pending)
        else
          (match staticAllow with
           | Some a => mkDecision (Effect dec) (Reason a) (ReasonCode dec) (RuleID a) (LatencyMs dec)
           | None => dec
           end, true)
      else match staticAllow with
           | Some a => (a, true)
           | None =>
               (if String.eqb (sn_default s) EffectAllow
                then mkDecision (sn_default s) "default allow" "" "" 0
                else mkDecision (sn_default s) "no matching policy grant" ReasonPolicyDefaultDeny "" 0,
                true)
           end
  end.

(** The decision without the cache, and whether [decide] stores it. *)
Definition evaluate (s : snapshot) (inp : PolicyInput) : PolicyDecision * bool :=
  if String.eqb (Stage inp) StageRunCreate then (decideRunCreate s inp, true)
  else match sn_static s with
       | None => decide_layers s None inp
       | Some grants =>
           let dec := static_decide grants inp in
           if String.eqb (Effect dec) EffectDeny then
             if String.eqb (ReasonCode dec) ReasonPolicyNoGrant
                && String.eqb (sn_default s) EffectAllow && negb (sn_webhook s)
             then decide_layers s
                    (Some (mkDecision EffectAllow "default allow (no matching grant)" "" "" 0)) inp
             else (dec, true)
           else decide_layers s (Some dec) inp
       end.

(** Cache read, evaluation and cache write of [decide], under a snapshot taken
    earlier; [evict] is what the LRU dropped meanwhile. *)
Definition decide_with (s : snapshot) (evict : gmap string PolicyDecision → gmap string PolicyDecision)
    (inp : PolicyInput) (e : Engine) : PolicyDecision * Engine :=
  let e := set_cache (evict <$> e_cache e) e in
  match e_cache e ≫= (λ m, m !! cacheKey inp) with
  | Some hit => (hit, e)
  | None => let '(dec, store) := evaluate s inp in
            (dec, if store then cachePut inp dec e else e)
  end.

(** [Engine.decide] *)
Definition Engine_decide evict (inp : PolicyInput) (e : Engine) : PolicyDecision * Engine :=
  if missing_binding inp then (binding_denied, e)
  else decide_with (take_snapshot e) evict inp e.

Inductive event := EvAudit (inp : PolicyInput) (dec : PolicyDecision)
                 | EvExport (inp : PolicyInput) (dec : PolicyDecision).

(** [Decide]: the mandatory-approval override, then audit and export of every
    answer, cache hits included. *)
Definition Decide evict (latency : Z) (inp : PolicyInput) (e : Engine)
  : PolicyDecision * list event * Engine :=
  let '(dec, e') := Engine_decide evict inp e in
  let dec := applyMandatoryHITL (e_hitl e) inp dec in
  let dec := mkDecision (Effect dec) (Reason dec) (ReasonCode dec) (RuleID dec) latency in
  (dec, ((if e_auditor e then [EvAudit inp dec] else [])
         ++ (if e_exporter e then [EvExport inp dec] else []))%list, e').
End decide.
