(* ===== verification/PolicyProps.v ===== *)
(** * What the policy engine guarantees

    Overlay precedence; over histories of decisions and administrative changes that
    do not overlap, what an allowed call rests on and what the decision cache may
    reuse; the stale answer an overlap leaves behind, and the failed exchange that
    is remembered. *)

From Stdlib Require Import Ascii String.
From S2P Require Import Prelude GoStrings GoAny JsonNumber Predicates Policy.
Local Open Scope string_scope.
Local Open Scope Z_scope.

(** ** Overlay precedence *)

Fixpoint find_last {A} (p : A → bool) (l : list A) : option A :=
  match l with
  | [] => None
  | x :: l' => match find_last p l' with
               | Some y => Some y
               | None => if p x then Some x else None
               end
  end.

Lemma find_last_app {A} (p : A → bool) l1 l2 :
  find_last p (l1 ++ l2)%list = match find_last p l2 with Some y => Some y | None => find_last p l1 end.
Proof.
  induction l1 as [|x l1 IH]; simpl; [by destruct (find_last p l2)|]. rewrite IH.
  by destruct (find_last p l2).
Qed.

Section merge.
Context {R : Type}.
Variable key : R → key3.
Variable usable : key3 → bool.

Definition has_key (k : key3) (r : R) : bool := bool_decide (key r = k).

(** The index agrees with the output, which has no two rows of a key, and each
    key's row is the last one seen. *)
Record merged (seen : list R) (st : list R * gmap key3 nat) : Prop := {
  mg_idx : ∀ k i, st.2 !! k = Some i → ∃ r, st.1 !! i = Some r ∧ key r = k;
  mg_out : ∀ i r, st.1 !! i = Some r → st.2 !! key r = Some i;
  mg_last : ∀ k, usable k = true →
    find_last (has_key k) seen = (st.2 !! k) ≫= (λ i, st.1 !! i);
  mg_use : ∀ k, usable k = false → st.2 !! k = None
}.

Lemma merged_nil : merged [] ([], ∅).
Proof. by split. Qed.

Lemma merged_add seen st r : merged seen st → merged (seen ++ [r])%list (merge_add key usable st r).
Proof.
  destruct st as [out idx]. intros [Hi Ho Hl Hu]. simpl in *. unfold merge_add.
  destruct (usable (key r)) eqn:Er; simpl.
  2:{ split; simpl; try done. intros k Hk. rewrite find_last_app. simpl. unfold has_key at 1.
      rewrite bool_decide_eq_false_2; [by apply Hl|]. by intros E; rewrite E in Er; congruence. }
  destruct (idx !! key r) as [i|] eqn:Ei.
  - destruct (Hi _ _ Ei) as (r0 & Er0 & Hk0). apply lookup_lt_Some in Er0 as Hlt.
    split; simpl.
    + intros k j Hj. destruct (Hi _ _ Hj) as (r' & Er' & Hk').
      destruct (decide (i = j)) as [->|].
      * exists r. rewrite list_lookup_insert_eq by done. split; [done|]. congruence.
      * rewrite list_lookup_insert_ne by done. eauto.
    + intros j r' Hj. apply list_lookup_insert_Some in Hj as [(-> & -> & _)|(Hne & Hj)]; [done|eauto].
    + intros k Hk. rewrite find_last_app. simpl. unfold has_key at 1.
      destruct (decide (key r = k)) as [<-|Hne].
      * rewrite bool_decide_eq_true_2, Ei by done. simpl. by rewrite list_lookup_insert_eq.
      * rewrite bool_decide_eq_false_2 by done. rewrite Hl by done.
        destruct (idx !! k) as [j|] eqn:Ej; [|done]. simpl. rewrite list_lookup_insert_ne; [done|].
        intros ->. destruct (Hi _ _ Ej) as (? & ? & ?). congruence.
    + done.
  - split; simpl.
    + intros k j Hj. apply lookup_insert_Some in Hj as [[<- <-]|[Hne Hj]].
      * exists r. by rewrite list_lookup_middle.
      * destruct (Hi _ _ Hj) as (r' & Er' & Hk'). exists r'. split; [|done]. by apply lookup_app_l_Some.
    + intros j r' Hj. apply lookup_app_Some in Hj as [Hj|[Hle Hj]].
      * rewrite lookup_insert_ne; [eauto|]. intros E. apply Ho in Hj. congruence.
      * apply list_lookup_singleton_Some in Hj as [Hz <-]. rewrite lookup_insert_eq. f_equal. lia.
    + intros k Hk. rewrite find_last_app. simpl. unfold has_key at 1.
      destruct (decide (key r = k)) as [<-|Hne].
      * rewrite bool_decide_eq_true_2, lookup_insert_eq by done. simpl. by rewrite list_lookup_middle.
      * rewrite bool_decide_eq_false_2, lookup_insert_ne by done. rewrite Hl by done.
        destruct (idx !! k) as [j|] eqn:Ej; [|done]. simpl.
        destruct (Hi _ _ Ej) as (? & Hj & ?). rewrite Hj. symmetry. by apply lookup_app_l_Some.
    + intros k Hk. rewrite lookup_insert_ne; [by apply Hu|]. congruence.
Qed.

Lemma merged_foldl seen st l :
  merged seen st → merged (seen ++ l)%list (foldl (merge_add key usable) st l).
Proof.
  revert seen st. induction l as [|r l IH]; intros seen st H; simpl; [by rewrite app_nil_r|].
  rewrite (cons_middle r seen l), app_assoc. apply IH. by apply merged_add.
Qed.

(** The row a key finds in the merge is the last one given for it. *)
Lemma merge_find baseline overlays k :
  find_first (has_key k) (merge key usable baseline overlays) =
  if usable k then find_last (has_key k) (baseline ++ overlays)%list else None.
Proof.
  unfold merge. pose proof (merged_foldl _ _ overlays (merged_foldl _ _ baseline merged_nil)) as H.
  simpl in H. destruct (foldl _ _ overlays) as [out idx]. destruct H as [Hi Ho Hl Hu]. simpl in *.
  assert (Hfind : find_first (has_key k) out = (idx !! k) ≫= (λ i, out !! i)).
  { destruct (idx !! k) as [i|] eqn:Ei; simpl.
    - destruct (Hi _ _ Ei) as (r & Er & Hk). rewrite Er.
      destruct (find_first (has_key k) out) as [r'|] eqn:Ef.
      + apply find_first_Some in Ef as [Hin Hp]. apply bool_decide_eq_true in Hp.
        apply list_elem_of_lookup in Hin as [j Hj]. apply Ho in Hj as Hj'. congruence.
      + rewrite find_first_None in Ef. specialize (Ef r (list_elem_of_lookup_2 _ _ _ Er)).
        by apply bool_decide_eq_false in Ef.
    - apply find_first_None. intros r Hin. apply bool_decide_eq_false. intros <-.
      apply list_elem_of_lookup in Hin as [j Hj]. apply Ho in Hj. congruence. }
  rewrite Hfind. destruct (usable k) eqn:E; [by rewrite Hl|by rewrite Hu].
Qed.
End merge.

Lemma find_first_ext {A} (p q : A → bool) l : (∀ x, p x = q x) → find_first p l = find_first q l.
Proof. intros H. induction l as [|x l IH]; simpl; [done|]. by rewrite H, IH. Qed.

Lemma key_test t a c g :
  String.eqb (TrimSpace (GTenantID g)) t && String.eqb (TrimSpace (GAgentID g)) a
    && String.eqb (TrimSpace (GConnector g)) c = has_key grant_key (t, a, c) g.
Proof.
  unfold has_key, grant_key. apply Bool.eq_iff_eq_true.
  rewrite bool_decide_eq_true, !andb_true_iff, !String.eqb_eq.
  split; [intros [[-> ->] ->]; done|by intros [= -> -> ->]].
Qed.

(** The grant [Static.decide] uses. *)
Definition granted (grants : list Grant) (inp : PolicyInput) : option Grant :=
  find_first (has_key grant_key (input_key inp)) grants.

Definition grant_allows (g : Grant) (inp : PolicyInput) : bool :=
  if String.eqb (Stage inp) StageToolCall then
    nonempty (TrimSpace (Tool inp)) && toolAllowed (GTools g) (TrimSpace (Tool inp))
  else true.

Lemma static_decide_spec grants inp :
  static_decide grants inp =
  match granted grants inp with
  | None => mkDecision EffectDeny "no grant for tenant/agent/connector" ReasonPolicyNoGrant "" 0
  | Some g => if grant_allows g inp then mkDecision EffectAllow "matched grant" "" (GID g) 0
              else mkDecision EffectDeny "tool not allowed by grant" ReasonPolicyToolDenied (GID g) 0
  end.
Proof.
  unfold static_decide, granted, input_key. erewrite find_first_ext by (intros; apply key_test).
  destruct (find_first _ grants) as [g|]; [|done]. unfold grant_allows, nonempty.
  destruct (String.eqb (Stage inp) StageToolCall); simpl; [|done].
  by destruct (String.eqb (TrimSpace (Tool inp)) ""), (toolAllowed (GTools g) (TrimSpace (Tool inp))).
Qed.

(** The last grant listed for the input's tenant, agent and connector. *)
Definition last_grant (gs : list Grant) (inp : PolicyInput) : option Grant :=
  find_last (has_key grant_key (input_key inp)) gs.

(** Administrative overlays take precedence: for an input with a tenant, an
    agent and a connector, the merged static layer decides by the last overlay
    for that triple if there is one, and otherwise by the last deployment grant
    for it; no other row matters. *)
Theorem overlays_win baseline overlays inp :
  nonempty (TrimSpace (TenantID inp)) = true → nonempty (TrimSpace (AgentID inp)) = true →
  nonempty (TrimSpace (Connector inp)) = true →
  static_decide (mergeGrants baseline overlays) inp =
  match match last_grant overlays inp with Some g => Some g | None => last_grant baseline inp end with
  | None => mkDecision EffectDeny "no grant for tenant/agent/connector" ReasonPolicyNoGrant "" 0
  | Some g => if grant_allows g inp then mkDecision EffectAllow "matched grant" "" (GID g) 0
              else mkDecision EffectDeny "tool not allowed by grant" ReasonPolicyToolDenied (GID g) 0
  end.
Proof.
  intros Ht Ha Hc. rewrite static_decide_spec. unfold granted, mergeGrants, last_grant.
  rewrite merge_find. unfold input_key at 1. simpl. rewrite Ht, Ha, Hc. simpl. by rewrite find_last_app.
Qed.

(** ** Mandatory approval *)

Definition rule_matches (inp : PolicyInput) (r : MandatoryHITLRule) : bool :=
  String.eqb (TrimSpace (HTenantID r)) (TrimSpace (TenantID inp))
  && String.eqb (TrimSpace (HConnector r)) (TrimSpace (Connector inp))
  && mandatoryToolMatch (HTools r) (TrimSpace (Tool inp))
  && (String.eqb (TrimSpace (HAgentID r)) "" || String.eqb (TrimSpace (HAgentID r)) (TrimSpace (AgentID inp))).

Lemma match_rules_none inp w rules :
  match_rules (TrimSpace (TenantID inp)) (TrimSpace (AgentID inp)) (TrimSpace (Connector inp))
    (TrimSpace (Tool inp)) w rules = None ↔ w = None ∧ existsb (rule_matches inp) rules = false.
Proof.
  revert w. induction rules as [|r rules IH]; intros w; simpl; [tauto|]. unfold rule_matches at 1.
  destruct (String.eqb (TrimSpace (HTenantID r)) _); simpl; [|by rewrite IH].
  destruct (String.eqb (TrimSpace (HConnector r)) _); simpl; [|by rewrite IH].
  destruct (mandatoryToolMatch _ _); simpl; [|by rewrite IH].
  destruct (String.eqb (TrimSpace (HAgentID r)) ""); simpl.
  - rewrite IH. split; [intros [Hw _]; by destruct w|by intros [_ ?]].
  - destruct (String.eqb (TrimSpace (HAgentID r)) _); simpl; [|by rewrite IH].
    split; [done|by intros [_ ?]].
Qed.

Lemma applyMandatoryHITL_effect rules inp dec :
  Effect (applyMandatoryHITL rules inp dec) =
  if String.eqb (Stage inp) StageToolCall && String.eqb (Effect dec) EffectAllow
     && existsb (rule_matches inp) rules then EffectPending else Effect dec.
Proof.
  unfold applyMandatoryHITL. destruct (String.eqb (Stage inp) StageToolCall); simpl; [|done].
  destruct (String.eqb (Effect dec) EffectAllow); simpl; [|done].
  unfold matchMandatoryHITL. pose proof (match_rules_none inp None rules) as H.
  destruct (match_rules _ _ _ _ _ _) as [r|] eqn:E.
  - destruct (existsb (rule_matches inp) rules); [done|].
    assert (Some r = None) by (by apply H). done.
  - by destruct (proj1 H eq_refl) as [_ ->].
Qed.

(** ** Soundness of allow *)

Section engine.
Variable marshal_float : float64 → option (list ascii).
Variable pdp : PolicyInput → reply.
Notation evaluate := (evaluate marshal_float pdp).
Notation webhook_says s inp := (Effect (webhook_decide (sn_failClosed s) (pdp inp))).

(** Why a connector-stage request may be allowed by the static layer. *)
Definition static_basis (s : snapshot) (inp : PolicyInput) : Prop :=
  match sn_static s with
  | None => sn_webhook s = true ∨ sn_default s = EffectAllow
  | Some grants =>
      (∃ g, granted grants inp = Some g ∧ grant_allows g inp = true) ∨
      (granted grants inp = None ∧ sn_default s = EffectAllow ∧ sn_webhook s = false)
  end.

Lemma predicate_never_allows s inp d :
  applyPredicates marshal_float (sn_predicates s) inp = Some d → Effect d ≠ EffectAllow.
Proof.
  intros H. rewrite applyPredicates_spec in H. destruct (String.eqb _ _); [|done].
  destruct (first_with _ _ EffectDeny _) eqn:E.
  - injection H as <-. apply first_with_effect in E. by rewrite E.
  - apply first_with_effect in H. by rewrite H.
Qed.

Lemma layers_allow s a inp :
  (∀ d, a = Some d → Effect d = EffectAllow) →
  Effect (decide_layers marshal_float pdp s a inp).1 = EffectAllow →
  applyPredicates marshal_float (sn_predicates s) inp = None ∧
  (sn_webhook s = true → webhook_says s inp = EffectAllow) ∧
  (a = None → sn_webhook s = false → sn_default s = EffectAllow).
Proof.
  intros Ha. unfold decide_layers.
  destruct (applyPredicates _ _ _) as [d|] eqn:E.
  { simpl. intros H. by destruct (predicate_never_allows _ _ _ E). }
  destruct (sn_webhook s).
  - destruct (String.eqb_spec (webhook_says s inp) EffectAllow) as [Hw|Hw]; simpl; [done|].
    intros H. by destruct Hw.
  - destruct a as [a|]; [done|]. simpl.
    destruct (String.eqb_spec (sn_default s) EffectAllow); simpl; [done|]. intros H. by destruct n.
Qed.

(** An evaluation allows a connector session or tool call only when no argument
    predicate fires, the webhook (when configured) answered allow, and the static
    layer allows it. *)
Lemma evaluate_allow s inp :
  Stage inp ≠ StageRunCreate → Effect (evaluate s inp).1 = EffectAllow →
  applyPredicates marshal_float (sn_predicates s) inp = None ∧
  (sn_webhook s = true → webhook_says s inp = EffectAllow) ∧
  static_basis s inp.
Proof.
  intros Hs. unfold Policy.evaluate, static_basis. rewrite (proj2 (String.eqb_neq _ _) Hs).
  destruct (sn_static s) as [grants|].
  - rewrite static_decide_spec. destruct (granted grants inp) as [g|].
    + destruct (grant_allows g inp) eqn:Eg; simpl; [|done]. intros H.
      apply layers_allow in H as (H1 & H2 & _); [|by intros d [= <-]].
      split_and!; try done. left. eauto.
    + simpl. destruct (String.eqb_spec (sn_default s) EffectAllow); simpl; [|done].
      destruct (sn_webhook s) eqn:Ew; simpl; [done|]. intros H.
      apply layers_allow in H as (H1 & H2 & _); [|by intros d [= <-]].
      split_and!; try done. right. done.
  - intros H. apply layers_allow in H as (H1 & H2 & H3); [|done].
    split_and!; try done. destruct (sn_webhook s); auto.
Qed.
End engine.

(** ** The decision cache *)

Definition NUL : ascii := ascii_of_nat 0.

Definition nul_free (s : string) : Prop := IndexByte s NUL = None.

Lemma nul_split a a' b b' :
  nul_free a → nul_free a' →
  a +:+ String NUL "" +:+ b = a' +:+ String NUL "" +:+ b' → a = a' ∧ b = b'.
Proof.
  unfold nul_free. revert a'. induction a as [|c a IH]; intros a' Ha Ha' H.
  - destruct a' as [|c' a']; [by injection H|]. exfalso. simpl in H.
    injection H as <- _. simpl in Ha'. done.
  - simpl in Ha. destruct (Ascii.eqb_spec c NUL) as [|Hc]; [done|].
    destruct (IndexByte a NUL) eqn:Ea; [done|].
    destruct a' as [|c' a'].
    + exfalso. simpl in H. injection H as -> _. done.
    + simpl in Ha'. destruct (Ascii.eqb_spec c' NUL) as [|Hc']; [done|].
      destruct (IndexByte a' NUL) eqn:Ea'; [done|].
      rewrite !str_app_cons in H. injection H as -> H.
      destruct (IH a' eq_refl Ea' H) as [-> ->]. done.
Qed.

Definition key_fields (i : PolicyInput) : list string :=
  [Stage i; TenantID i; AgentID i; Principal i; Connector i; Tool i; ArgsDigest i].

Definition nul_free_input (i : PolicyInput) : Prop :=
  nul_free (Stage i) ∧ nul_free (TenantID i) ∧ nul_free (AgentID i) ∧ nul_free (Principal i) ∧
  nul_free (Connector i) ∧ nul_free (Tool i).

Lemma cacheKey_fields i j :
  nul_free_input i → nul_free_input j → cacheKey i = cacheKey j → key_fields i = key_fields j.
Proof.
  intros (H1 & H2 & H3 & H4 & H5 & H6) (G1 & G2 & G3 & G4 & G5 & G6). unfold cacheKey. fold NUL.
  intros E. apply nul_split in E as [E1 E]; [|done..]. apply nul_split in E as [E2 E]; [|done..].
  apply nul_split in E as [E3 E]; [|done..]. apply nul_split in E as [E4 E]; [|done..].
  apply nul_split in E as [E5 E]; [|done..]. apply nul_split in E as [E6 E]; [|done..].
  unfold key_fields. congruence.
Qed.

(** The cache key separates requests: for inputs without NUL bytes, equal
    keys mean equal stage, tenant, agent, principal, connector, tool and
    argument digest, so an answer is never reused across any of them. *)
Theorem cacheKey_injective i j :
  nul_free_input i → nul_free_input j → cacheKey i = cacheKey j → key_fields i = key_fields j.
Proof. apply cacheKey_fields. Qed.

(** ** Histories of an engine *)

Section histories.
Variable marshal_float : float64 → option (list ascii).
(** The arguments a digest stands for. *)
Variable args_of : string → any.

Notation evaluate := (evaluate marshal_float).

(** Inputs as the gateway builds them: no NUL bytes, and the digest is the
    arguments'. *)
Definition bound (i : PolicyInput) : Prop :=
  nul_free_input i ∧ predicateArgs i = args_of (ArgsDigest i).

Lemma fires_keyed i j p :
  key_fields i = key_fields j → predicateArgs i = predicateArgs j →
  fires marshal_float i p = fires marshal_float j p.
Proof.
  intros [= E1 E2 E3 E4 E5 E6 E7] Ha. unfold fires, evalPredicate, predicateMatchesScope.
  by rewrite E2, E3, E5, E6, Ha.
Qed.

Lemma applyPredicates_keyed i j ps :
  key_fields i = key_fields j → predicateArgs i = predicateArgs j →
  applyPredicates marshal_float ps i = applyPredicates marshal_float ps j.
Proof.
  intros Hk Ha. rewrite !applyPredicates_spec.
  assert (∀ e, first_with marshal_float i e ps = first_with marshal_float j e ps) as Hf.
  { intros e. unfold first_with. f_equal. apply find_first_ext. intros p. by rewrite (fires_keyed i j). }
  rewrite !Hf. injection Hk as E1 _. by rewrite E1.
Qed.

Lemma static_keyed i j gs : key_fields i = key_fields j → static_decide gs i = static_decide gs j.
Proof. intros [= E1 E2 E3 E4 E5 E6 E7]. unfold static_decide, input_key. by rewrite E1, E2, E3, E5, E6. Qed.

(** An evaluation depends on the decision point's answer to its own input. *)
Lemma evaluate_reply pdp s i : evaluate pdp s i = evaluate (λ _, pdp i) s i.
Proof. done. Qed.

Lemma evaluate_no_webhook pdp pdp' s i : sn_webhook s = false → evaluate pdp s i = evaluate pdp' s i.
Proof.
  intros E. unfold Policy.evaluate, decideRunCreate, decide_layers. rewrite E.
  destruct (String.eqb _ _); [done|]. by destruct (sn_static s).
Qed.

Lemma evaluate_keyed r s i j : bound i → bound j → key_fields i = key_fields j →
  evaluate (λ _, r) s i = evaluate (λ _, r) s j.
Proof.
  intros [_ Ai] [_ Aj] E.
  assert (Ha : predicateArgs i = predicateArgs j) by (rewrite Ai, Aj; injection E; congruence).
  assert (HL : ∀ a, decide_layers marshal_float (λ _, r) s a i = decide_layers marshal_float (λ _, r) s a j).
  { intros a. unfold decide_layers. by rewrite (applyPredicates_keyed i j). }
  unfold Policy.evaluate, decideRunCreate. rewrite !HL.
  assert (Stage i = Stage j) as -> by (injection E; done).
  destruct (sn_static s) as [gs|]; [|done]. by rewrite (static_keyed i j gs), HL.
Qed.

(** What an engine goes through: decisions, each with what the decision point
    answers at that moment and what the cache has dropped by then, and
    administrative changes. *)
Inductive eop :=
| EDecide (pdp : PolicyInput → reply) (evict : gmap string PolicyDecision → gmap string PolicyDecision)
    (latency : Z) (inp : PolicyInput)
| EReplace (overlays : list Grant)
| EReplaceHITL (overlays : list MandatoryHITLRule).

(** The replies evaluated since the last administrative change. *)
Definition replies : Type := list (PolicyInput * reply).

(** The call is not answered by the cache. *)
Definition consults (evict : gmap string PolicyDecision → gmap string PolicyDecision) (inp : PolicyInput)
    (e : Engine) : bool :=
  negb (missing_binding inp) &&
  match (evict <$> e_cache e) ≫= (λ m, m !! cacheKey inp) with None => true | Some _ => false end.

Definition engine_step (st : Engine * replies) (o : eop) : Engine * replies :=
  let (e, log) := st in
  match o with
  | EDecide pdp evict latency inp =>
      ((Decide marshal_float pdp evict latency inp e).2,
       if consults evict inp e then ((inp, pdp inp) :: log)%list else log)
  | EReplace ov => (ReplaceOverlays ov e, [])
  | EReplaceHITL ov => (ReplaceMandatoryHITL ov e, [])
  end.

Definition engine_run (e : Engine) (ops : list eop) : Engine * replies := foldl engine_step (e, []) ops.

Definition good_op (o : eop) : Prop :=
  match o with
  | EDecide _ evict _ inp => (∀ m, evict m ⊆ m) ∧ bound inp
  | _ => True
  end.

(** What [Decide] answers with the cache switched off. *)
Definition uncached (pdp : PolicyInput → reply) (latency : Z) (inp : PolicyInput) (e : Engine) : PolicyDecision :=
  (Decide marshal_float pdp id latency inp (set_cache None e)).1.1.

(** Nothing cached yet. *)
Definition cold (e : Engine) : Prop := ∀ m, e_cache e = Some m → m = ∅.

(** A reply the answer to [inp] may rest on: the one given now, or one given to
    the same request since the last change. *)
Definition reply_for (log : replies) (pdp : PolicyInput → reply) (inp : PolicyInput) (r : reply) : Prop :=
  r = pdp inp ∨ ∃ j, (j, r) ∈ log ∧ key_fields j = key_fields inp.

(** Every cached answer is the one its key gets now for a reply in the log. *)
Definition coherent (st : Engine * replies) : Prop :=
  Forall (λ jr, bound jr.1) st.2 ∧
  ∀ m k d, e_cache st.1 = Some m → m !! k = Some d →
    ∃ j r, (j, r) ∈ st.2 ∧ cacheKey j = k ∧ evaluate (λ _, r) (take_snapshot st.1) j = (d, true).

Lemma cold_coherent e : cold e → coherent (e, []).
Proof. intros He. split; [done|]. intros m k d ->%He. by rewrite lookup_empty. Qed.

(** A decision rests on a reply to its own request, and keeps the cache coherent. *)
Lemma decide_with_coherent pdp evict inp e log d e' :
  coherent (e, log) → (∀ m, evict m ⊆ m) → bound inp → missing_binding inp = false →
  decide_with marshal_float pdp (take_snapshot e) evict inp e = (d, e') →
  coherent (e', if consults evict inp e then ((inp, pdp inp) :: log)%list else log) ∧
  ∃ r, reply_for log pdp inp r ∧ d = (evaluate (λ _, r) (take_snapshot e) inp).1.
Proof.
  intros [Hl Hc] He Hb Hm. cbn [fst snd] in Hl, Hc. unfold decide_with, consults. rewrite Hm. cbn [negb andb e_cache set_cache].
  assert (Hc1 : ∀ m k d0, evict <$> e_cache e = Some m → m !! k = Some d0 →
    ∃ j r, (j, r) ∈ log ∧ cacheKey j = k ∧ evaluate (λ _, r) (take_snapshot e) j = (d0, true)).
  { intros m k d0 Em Hk. destruct (e_cache e) as [m0|] eqn:E0; [|done]. injection Em as <-.
    eapply (Hc m0); [done|]. eapply lookup_weaken; [exact Hk|apply He]. }
  destruct ((evict <$> e_cache e) ≫= _) as [hit|] eqn:Eh.
  - intros [= <- <-]. apply bind_Some in Eh as (m & Em & Hk). split; [split; [done|exact Hc1]|].
    destruct (Hc1 m _ _ Em Hk) as (j & r & Hin & Ej & Ev). exists r.
    assert (bound j) as Hbj by exact (proj1 (list.Forall_forall _ _) Hl _ Hin).
    assert (key_fields j = key_fields inp) as Ek by (apply cacheKey_fields; [apply Hbj|apply Hb|done]).
    split; [right; by exists j|]. by rewrite <- (evaluate_keyed r _ j inp), Ev.
  - rewrite evaluate_reply. destruct (evaluate (λ _, pdp inp) (take_snapshot e) inp) as [dec st] eqn:Ev.
    intros [= <- <-]. split; [|exists (pdp inp); split; [by left|by rewrite Ev]].
    assert (Hlift : ∀ m k d0, evict <$> e_cache e = Some m → m !! k = Some d0 →
      ∃ j r, (j, r) ∈ ((inp, pdp inp) :: log)%list ∧ cacheKey j = k ∧ evaluate (λ _, r) (take_snapshot e) j = (d0, true)).
    { intros m k d0 Em Hk. destruct (Hc1 m k d0 Em Hk) as (j & r & ? & ?). exists j, r. set_solver. }
    split; [by constructor|]. destruct st; [|exact Hlift].
    intros m k d0 Em Hk. simpl in Em. destruct (evict <$> e_cache e) as [m0|] eqn:E0; [|done]. injection Em as <-.
    apply lookup_insert_Some in Hk as [[<- <-]|[Hne Hk]]; [|by eapply Hlift].
    exists inp, (pdp inp). split; [set_solver|done].
Qed.

Lemma engine_step_coherent st o : coherent st → good_op o → coherent (engine_step st o).
Proof.
  destruct st as [e log]. intros Hc Ho. destruct o as [pdp evict latency inp|ov|ov]; simpl.
  - destruct Ho as [He Hb]. unfold Decide, Engine_decide.
    destruct (missing_binding inp) eqn:Hm; [unfold consults; by rewrite Hm|].
    destruct (decide_with _ _ _ _ _ _) as [d e'] eqn:E. simpl.
    by apply (decide_with_coherent _ _ _ _ log) in E as [? _].
  - apply cold_coherent. intros m. simpl. by destruct (e_cache e) as [?|]; [intros [= <-]|].
  - apply cold_coherent. intros m. simpl. by destruct (e_cache e) as [?|]; [intros [= <-]|].
Qed.

Lemma engine_run_coherent e ops : cold e → Forall good_op ops → coherent (engine_run e ops).
Proof.
  intros He Hops. unfold engine_run. generalize (cold_coherent e He). generalize (e, @nil (PolicyInput * reply)).
  induction Hops as [|o ops Ho _ IH]; intros st Hc; simpl; [done|]. apply IH. by apply engine_step_coherent.
Qed.

(** What a history's next decision rests on. *)
Lemma Decide_rests e log pdp evict latency inp :
  coherent (e, log) → (∀ m, evict m ⊆ m) → bound inp →
  ∃ r, reply_for log pdp inp r ∧
    (Decide marshal_float pdp evict latency inp e).1.1 = uncached (λ _, r) latency inp e.
Proof.
  intros Hc He Hb. unfold uncached, Decide, Engine_decide.
  destruct (missing_binding inp) eqn:Hm; [exists (pdp inp); split; [by left|done]|].
  destruct (decide_with _ pdp _ _ _ _) as [d e1] eqn:E1.
  apply (decide_with_coherent _ _ _ _ log) in E1 as (_ & r & Hr & ->); [|done..]. exists r. split; [done|].
  unfold decide_with. simpl. change (take_snapshot (set_cache None e)) with (take_snapshot e).
  by destruct (evaluate (λ _, r) (take_snapshot e) inp) as [dec []].
Qed.

(** C39. The decision cache reuses nothing but webhook replies: through any sequence
    of decisions and administrative replacements, none overlapping another, with
    any entries evicted at any time, every answer is the one the engine computes
    afresh from its current grants, predicates, default and approval rules, given
    the webhook's reply to this call or one it gave, since the last replacement,
    to a call with the same stage, tenant, agent, principal, connector, tool and
    digest.  A failed exchange is such a reply.  Without a webhook every answer is
    the fresh one.  Inputs hold no NUL byte and their digest determines the
    arguments. *)
Theorem cache_transparent e ops pdp evict latency inp :
  cold e → Forall good_op ops → (∀ m, evict m ⊆ m) → bound inp →
  let (e', log) := engine_run e ops in
  (∃ r, reply_for log pdp inp r ∧
     (Decide marshal_float pdp evict latency inp e').1.1 = uncached (λ _, r) latency inp e') ∧
  (e_webhook e' = false → (Decide marshal_float pdp evict latency inp e').1.1 = uncached pdp latency inp e').
Proof.
  intros Hc Hops He Hb. pose proof (engine_run_coherent e ops Hc Hops) as H.
  destruct (engine_run e ops) as [e' log].
  destruct (Decide_rests e' log pdp evict latency inp H He Hb) as (r & Hr & E). split; [by exists r|].
  intros Hw. rewrite E. unfold uncached, Decide, Engine_decide. destruct (missing_binding inp); [done|].
  unfold decide_with. simpl. by rewrite (evaluate_no_webhook (λ _, r) pdp).
Qed.

(** ** Allowed calls *)

(** The decision point answered, and said allow. *)
Definition says_allow (r : reply) : Prop :=
  ∃ allow effect reason code rule, r = RAnswer allow effect reason code rule ∧
    (effect = EffectAllow ∨ effect = "" ∧ allow = Some true).

Lemma webhook_allows failClosed r :
  Effect (webhook_decide failClosed r) = EffectAllow → says_allow r ∨ failClosed = false.
Proof.
  assert (Hf : ∀ m c, Effect (webhookFail failClosed m c) = EffectAllow → failClosed = false)
    by (intros m c; by destruct failClosed).
  destruct r as [msg| |code body| |allow effect reason code rule]; simpl; try (intros H; right; by apply Hf in H).
  set (eff := if String.eqb effect "" then _ else effect).
  destruct (String.eqb_spec eff "") as [|Hne]; [intros H; right; by apply Hf in H|].
  destruct (negb (known_effect eff)); [intros H; right; by apply Hf in H|]. simpl. intros H. left.
  exists allow, effect, reason, code, rule. split; [done|]. unfold eff in H.
  destruct (String.eqb_spec effect "") as [->|]; [|by left]. destruct allow as [[]|]; try done. by right.
Qed.

End histories.

(** ** Overlapping an administrative change *)

Definition demo_grant : Grant := mkGrant "g1" "acme" "billing" "stripe" None.

Definition demo_engine : Engine :=
  mkEngine [] [demo_grant] (Some [demo_grant]) false [] [] [] [] false false (Some ∅) EffectDeny true.

(** The decision began under the old grants, the administrator removed the grant,
    the decision finished, and the same call came again. *)
Definition revoked_while_deciding (inp : PolicyInput) : PolicyDecision * Engine :=
  let s := take_snapshot demo_engine in
  let e1 := ReplaceOverlays [] demo_engine in
  let '(_, e2) := decide_with (λ _, None) (λ _, RUnreadable) s id inp e1 in
  let '(dec, _, e3) := Decide (λ _, None) (λ _, RUnreadable) id 0 inp e2 in
  (dec, e3).

(** A decision that overlaps a revocation stores its outdated answer after
    the cache was cleared: a later call, begun after the revocation completed, is
    still allowed although the engine has no grant left and denies by default. *)
Theorem stale_allow_after_revocation :
  let inp := demo_call "1" in
  let '(dec, e) := revoked_while_deciding inp in
  Effect dec = EffectAllow ∧ e_static e = None ∧
  Effect (uncached (λ _, None) (λ _, RUnreadable) 0 inp e) = EffectDeny.
Proof. vm_compute. auto. Qed.

(** ** A failed exchange is remembered *)

(** An engine that asks a webhook and fails closed. *)
Definition webhook_engine : Engine :=
  mkEngine [] [] None true [] [] [] [] false false (Some ∅) EffectDeny true.

(** A denial that stands for a failed exchange is cached like any other: the call
    made while the webhook was unreachable is denied, and so is its retry when the
    webhook is back and would allow it. *)
Theorem failed_exchange_cached :
  let inp := demo_call "1" in
  let down := λ _ : PolicyInput, RFailed "timeout" in
  let up := λ _ : PolicyInput, RAnswer (Some true) "" "" "" "" in
  let '(d1, _, e1) := Decide (λ _, None) down id 0 inp webhook_engine in
  let '(d2, _, _) := Decide (λ _, None) up id 0 inp e1 in
  Effect d1 = EffectDeny ∧ Effect d2 = EffectDeny ∧
  Effect (uncached (λ _, None) up 0 inp e1) = EffectAllow.
Proof. vm_compute. auto. Qed.

(** ** Witnesses *)

Lemma overlays_win_witness :
  Effect (static_decide (mergeGrants [demo_grant] [mkGrant "g2" "acme" "billing" "stripe"
            (Some (mkFilter [] ["refund"]))]) (demo_call "1")) = EffectDeny.
Proof.
  rewrite (overlays_win [demo_grant] [mkGrant "g2" "acme" "billing" "stripe"
            (Some (mkFilter [] ["refund"]))] (demo_call "1")); vm_compute; reflexivity.
Defined.

Lemma demo_cold e : e = demo_engine ∨ e = webhook_engine → cold e.
Proof. intros [-> | ->] m Em; injection Em as <-; reflexivity. Qed.

Lemma demo_bound n : bound (λ _, AMap [("amount", ANumber n)]) (demo_call n).
Proof. split; [repeat split|reflexivity]. Qed.

Definition demo_reply (_ : PolicyInput) : reply := RAnswer (Some true) "" "" "" "".

Definition demo_ops : list eop := [EReplace []; EDecide demo_reply id 1 (demo_call "1")].

Lemma demo_ops_good : Forall (good_op (λ _, AMap [("amount", ANumber "1")])) demo_ops.
Proof.
  constructor; [exact I|constructor; [|constructor]].
  split; [intros m; reflexivity|apply demo_bound].
Qed.


Lemma cacheKey_injective_witness :
  key_fields (demo_call "1") = key_fields (demo_call "2").
Proof.
  apply (cacheKey_injective (demo_call "1") (demo_call "2")); vm_compute; repeat split.
Defined.

Lemma cache_transparent_witness :
  let (e', log) := engine_run (λ _, None) demo_engine demo_ops in
  (Decide (λ _, None) (λ _, RUnreadable) id 2 (demo_call "1") e').1.1
  = uncached (λ _, None) (λ _, RUnreadable) 2 (demo_call "1") e'.
Proof.
  apply (cache_transparent (λ _, None) (λ _, AMap [("amount", ANumber "1")]) demo_engine demo_ops
           (λ _, RUnreadable) id 2 (demo_call "1")).
  - apply demo_cold. by left.
  - apply demo_ops_good.
  - intros m. reflexivity.
  - apply demo_bound.
  - vm_compute. reflexivity.
Defined.
