(* ===== verification/Approvals.v ===== *)
(** * Holding tool calls back for approval

    Models the handlers that gate a tool call: the run-bound connector proxy
    ([handleProxyMCPRequest] in [internal/api/server.go], its policy part), the
    policy and break-glass checks ([internal/api/{policy,break_glass}.go]), the
    operator's decisions ([internal/api/admin_pending.go]), the embedded decision
    endpoint ([internal/api/governance_decide.go]) and the minting of break-glass
    windows ([internal/api/admin_break_glass.go]).

    The policy engine answers through [Decide]; random suffixes, clock readings
    and the replies of the store are arguments. *)

From Stdlib Require Import String.
From S2P Require Import Prelude GoStrings GoAny GoTime Transport Store Controls Governance GovernanceSteps Predicates Auth.
Local Open Scope string_scope.
Local Open Scope Z_scope.

(** ** Requests *)

Record request := mkRequest {
  rq_ctx : ctx;
  rq_binding : option RunBinding;
  rq_auth : option AuthResult;
  rq_agent : option string;   (* withPolicyAgent *)
  rq_run : option string
}.

Definition input (stage tenant principal agent run : string) (generation : Z) (connector tool : string) : PolicyInput :=
  mkInput stage tenant principal agent run generation connector tool ANil None "" [] [].

Definition policyInputFromRequest (r : request) (stage connector tool : string) : PolicyInput :=
  match rq_binding r with
  | Some b => input stage (RbTenantID b) (match RbUser b with Some u => Transport.Identity u | None => "" end) (RbAgentID b) (RbRunID b) (RbGeneration b) connector tool
  | None =>
      match rq_auth r with
      | Some ar =>
          input stage (if String.eqb (ArTenantID ar) "" then FromContext (rq_ctx r) else ArTenantID ar)
            (ArIdentity ar) "" "" 0 connector tool
      | None => input stage (FromContext (rq_ctx r)) "" "" "" 0 connector tool
      end
  end.

Definition or_empty (s : string) (o : option string) : string :=
  match o with Some v => if String.eqb s "" then v else s | None => s end.

Definition policyInput (r : request) (stage connector tool : string) : PolicyInput :=
  let i := policyInputFromRequest r stage connector tool in
  mkInput (Stage i) (TenantID i) (Principal i) (or_empty (AgentID i) (rq_agent r)) (or_empty (RunID i) (rq_run r))
    (Generation i) (Connector i) (Tool i) (Args i) (ArgsMeta i) (ArgsDigest i) (Claims i) (Labels i).

(** The arguments bound to a call: decoded value, digest, display map. *)
Definition bound_args : Type := any * string * option (list (string * any)).

Definition bind_args (i : PolicyInput) (b : bound_args) : PolicyInput :=
  mkInput (Stage i) (TenantID i) (Principal i) (AgentID i) (RunID i) (Generation i) (Connector i) (Tool i)
    b.1.1 b.2 b.1.2 (Claims i) (Labels i).

Section approvals.
Variable Enabled : bool.                          (* a policy engine is configured *)
Variable Decide : PolicyInput → PolicyDecision.
Variable MatchMandatoryHITL : PolicyInput → option string.   (* the rule's id *)
Variable PendingActionKey : call → string.
Variable EmptyDigest : string.                    (* of BindArgs(nil) *)
Variable rfc3339_text : Z → string.               (* of a second *)

Definition ReasonBreakGlass : string := "break_glass".

(** ** Break-glass bypass *)

Definition bypass_attrs (i : PolicyInput) (w : BreakGlassWindow) : list (string * any) :=
  ([("reason", AStr (BgReason w)); ("window_id", AStr (BgID w)); ("created_by", AStr (BgCreatedBy w));
   ("expires_at", AStr (rfc3339_text (sec (BgExpiresAt w))))]
  ++ (if String.eqb (Stage i) StageToolCall then
        match MatchMandatoryHITL i with
        | Some id =>
            [("mandatory_hitl_bypassed", ABool true)]
            ++ (if String.eqb (TrimSpace id) "" then [] else [("mandatory_hitl_rule_id", AStr (TrimSpace id))])
        | None => []
        end
      else []))%list.

Definition bypass_event (r : request) (suffix : string) (now : Z) (i : PolicyInput) (tenantID : string)
    (w : BreakGlassWindow) : AuditEvent :=
  let actor := if String.eqb (Principal i) "" then match rq_auth r with Some ar => ArIdentity ar | None => "" end
               else Principal i in
  mkAudit ("bg-use-" +:+ suffix) now tenantID actor (Stage i)
    (if String.eqb (Stage i) StageRunCreate then "run" else "connector") (Connector i) EffectAllow ReasonBreakGlass
    (BgID w) (RunID i) (Generation i) (AgentID i) (Connector i) (Tool i) (bypass_attrs i w).

(** True only when the durable audit row is written. *)
Definition tryBreakGlassBypass (ofind oaudit : reply) (hex : option string) (now : Z) (r : request)
    (i : PolicyInput) (c : Controls) : Controls * bool :=
  if negb Enabled then (c, false)
  else
    let tenantID := if String.eqb (TenantID i) "" then FromContext (rq_ctx r) else TenantID i in
    match FindActiveBreakGlass ofind now tenantID (AgentID i) c with
    | Err _ | Ok None => (c, false)
    | Ok (Some w) =>
        match hex with
        | None => (c, false)
        | Some suffix =>
            match WriteAuditEvent oaudit (rq_ctx r) now (bypass_event r suffix now i tenantID w) c with
            | (c, Ok _) => (c, true)
            | (c, Err _) => (c, false)
            end
        end
    end.

Definition zero_decision : PolicyDecision := mkDecision "" "" "" "" 0.

(** The decision, and whether the caller must deny. *)
Definition checkConnectorPolicy (ofind oaudit : reply) (hex : option string) (now : Z) (r : request)
    (i : PolicyInput) (c : Controls) : Controls * (PolicyDecision * bool) :=
  if negb Enabled then (c, (zero_decision, false))
  else
    match tryBreakGlassBypass ofind oaudit hex now r i c with
    | (c, true) => (c, (mkDecision EffectAllow "break-glass window active" ReasonBreakGlass "" 0, false))
    | (c, false) => let dec := Decide i in (c, (dec, negb (String.eqb (Effect dec) EffectAllow)))
    end.

(** ** One-shot capabilities *)

Definition tryConsumePendingCapability (o : reply) (now : Z) (r : request) (connector tool digest : string)
    (t : table) : table * bool :=
  let i := policyInputFromRequest r StageToolCall connector tool in
  if String.eqb (RunID i) "" then (t, false)
  else
    match ConsumeApprovedAction o now (TenantID i) (AgentID i) (RunID i) (Generation i) connector tool digest t with
    | (t, Err _) => (t, false)
    | (t, Ok id) => (t, negb (String.eqb id ""))
    end.

Definition pendingActionIDPrefix : string := "pending-v2-".

Definition currentPendingBinding (a : PendingAction) : bool :=
  negb (String.eqb (PaArgsDigest a) "") && HasPrefix (PaID a) pendingActionIDPrefix.

(** How the store answers the statements of [CreatePendingAction]. *)
Record create_oracle := mkCreate {
  co_find : reply; co_insert : reply; co_find2 : reply; co_get : reply;
  co_between : nat → table → table
}.

Definition pending_of (i : PolicyInput) (suffix : string) (connector tool : string) (dec : PolicyDecision)
    (expires : option Z) : PendingAction :=
  mkPending (pendingActionIDPrefix +:+ suffix) (RunID i) (Generation i) (TenantID i) (AgentID i) connector tool
    (RuleID dec) (Reason dec)
    (if String.eqb (ReasonCode dec) "" then ReasonPolicyPending else ReasonCode dec) PendingStatusPending
    (if String.eqb (ArgsDigest i) "" then EmptyDigest else ArgsDigest i)
    (match ArgsMeta i with Some m => AMap m | None => ANil end) "" 0 0 expires.

Definition persistPendingAction (co : create_oracle) (hex : option string) (now : Z) (i : PolicyInput)
    (connector tool : string) (dec : PolicyDecision) (expires : option Z) (t : table) : table * res err string :=
  if String.eqb (RunID i) "" then (t, Err (EOther "pending actions require run binding"))
  else
    match hex with
    | None => (t, Err (EOther "random source"))
    | Some suffix =>
        CreatePendingAction PendingActionKey (co_find co) (co_insert co) (co_find2 co) (co_get co) (co_between co)
          now (pending_of i suffix connector tool dec expires) t
    end.

(** ** The connector proxy's gate *)

Inductive gate :=
| GBadArguments
| GForward
| GRefused (dec : PolicyDecision) (actionID : string).

Record gate_oracle := mkGate {
  go_find : reply; go_audit : reply; go_hex : option string;
  go_consume : reply; go_create : create_oracle; go_hex2 : option string
}.

Definition with_code (dec : PolicyDecision) : PolicyDecision :=
  if String.eqb (ReasonCode dec) "" then mkDecision (Effect dec) (Reason dec) ReasonPolicyPending (RuleID dec) (LatencyMs dec)
  else dec.

(** A failed hold becomes a denial. *)
Definition as_denied (dec : PolicyDecision) : PolicyDecision :=
  with_code (mkDecision EffectDeny (if String.eqb (Reason dec) "" then "pending approval unavailable" else Reason dec)
    (ReasonCode dec) (RuleID dec) (LatencyMs dec)).

Definition refuse (o : gate_oracle) (now : Z) (i : PolicyInput) (connector tool : string) (dec : PolicyDecision)
    (t : table) : table * gate :=
  if String.eqb (Effect dec) EffectPending then
    match persistPendingAction (go_create o) (go_hex2 o) now i connector tool dec None t with
    | (t, Err _) => (t, GRefused (as_denied dec) "")
    | (t, Ok id) => (t, GRefused (with_code dec) id)
    end
  else (t, GRefused dec "").

Definition tool_gate (o : gate_oracle) (now : Z) (r : request) (connector tool : string)
    (bound : option bound_args) (c : Controls) (t : table) : Controls * table * gate :=
  match bound with
  | None => (c, t, GBadArguments)
  | Some b =>
      let i := bind_args (policyInput r StageToolCall connector tool) b in
      let '(c, (dec, deny)) := checkConnectorPolicy (go_find o) (go_audit o) (go_hex o) now r i c in
      let '(t, approved) :=
        if negb deny || String.eqb (Effect dec) EffectPending
        then tryConsumePendingCapability (go_consume o) now r connector tool (ArgsDigest i) t
        else (t, false) in
      if deny && negb approved then let (t, g) := refuse o now i connector tool dec t in (c, t, g)
      else (c, t, GForward)
  end.

(** *** The event of a refused call *)

(** One past the largest sequence number of the replay, at least 1; a failed replay counts
    as empty. *)
Definition next_seq (prev : option (list RunEvent)) : Z :=
  foldl (λ seq ev, if seq <=? Seq ev then Seq ev + 1 else seq) 1 (default [] prev).

Definition tool_auth_payload (i : PolicyInput) (dec : PolicyDecision) (actionID : string) : list (string * any) :=
  ([("stage", AStr (Stage i)); ("effect", AStr (Effect dec)); ("connector", AStr (Connector i)); ("tool", AStr (Tool i));
    ("reason", AStr (Reason dec)); ("reason_code", AStr (ReasonCode dec)); ("rule_id", AStr (RuleID dec));
    ("generation", AInt64 (Generation i))]
   ++ (if String.eqb actionID "" then [] else [("action_id", AStr actionID)])
   ++ (if String.eqb (ArgsDigest i) "" then [] else [("args_digest", AStr (ArgsDigest i))]))%list.

(** What is published to the run's stream for the decision and action of a [GRefused]. *)
Definition emitToolAuthEvent (policyRunEvents : bool) (marshal : list (string * any) → option string)
    (replay : option (list RunEvent)) (hex : option string) (now_ms : Z) (i : PolicyInput) (dec : PolicyDecision)
    (actionID : string) : option RunEvent :=
  if negb policyRunEvents || String.eqb (RunID i) "" then None
  else
    match marshal (tool_auth_payload i dec actionID), hex with
    | Some payload, Some suffix =>
        Some (mkEvent (Generation i) (RunID i +:+ "_tool_auth_" +:+ suffix) (next_seq replay) "tool_auth" [] payload now_ms)
    | _, _ => None
    end.

(** ** The operator's decision *)

(** The status code [handleStoreError] answers with. *)
Definition store_status (e : err) : Z :=
  match e with
  | ENotFound _ _ => 404
  | EConflict _ _ => 409
  | EAdmission _ _ _ _ => 429
  | _ => 500
  end.

Definition reload (o : reply) (id : string) (p : table * res err unit) : table * res Z PendingAction :=
  match p with
  | (t, Err e) => (t, Err (store_status e))
  | (t, Ok _) =>
      match GetPendingAction o id t with
      | Err e => (t, Err (store_status e))
      | Ok a => (t, Ok a)
      end
  end.

Definition reconsider (a : PendingAction) : PolicyInput :=
  mkInput StageToolCall (PaTenantID a) "" (PaAgentID a) (PaRunID a) (PaGeneration a) (PaConnector a) (PaTool a)
    (PaArgs a) (match PaArgs a with AMap m => Some m | _ => None end) (PaArgsDigest a) [] [].

Definition handleAdminApprovePendingAction (oget oset oget2 : reply) (now : Z) (r : request) (id : string)
    (t : table) : table * res Z PendingAction :=
  if negb Enabled then (t, Err 409)
  else
    match GetPendingAction oget id t with
    | Err e => (t, Err (store_status e))
    | Ok a =>
        if negb (String.eqb (PaStatus a) PendingStatusPending) then (t, Err 409)
        else if negb (currentPendingBinding a) then (t, Err 409)
        else
          let dec := Decide (reconsider a) in
          if negb (String.eqb (Effect dec) EffectAllow) && negb (String.eqb (Effect dec) EffectPending)
          then (t, Err 409)
          else
            let decidedBy := match rq_auth r with Some ar => ArIdentity ar | None => "" end in
            reload oget2 id (SetPendingActionApproved oset now id decidedBy t)
    end.

Definition handleAdminDenyPendingAction (oget oset oget2 : reply) (now : Z) (id : string) (t : table)
  : table * res Z PendingAction :=
  match GetPendingAction oget id t with
  | Err e => (t, Err (store_status e))
  | Ok a =>
      if negb (String.eqb (PaStatus a) PendingStatusPending) then (t, Err 409)
      else reload oget2 id (SetPendingActionStatus oset now id PendingStatusPending PendingStatusDenied t)
  end.

(** ** The embedded decision endpoint *)

Definition governanceDecideMaxIDLen : nat := 256.
Definition governancePendingTTL : Z := 24 * 3600 * second.

Definition tooLongGovernanceID (s : string) : bool := (governanceDecideMaxIDLen <? String.length s)%nat.

Record governanceDecideRequest := mkDecide {
  DqTenantID : option string;
  DqAgentID : string;
  DqConnector : string;
  DqTool : string;
  DqRunID : string
}.

Record governanceDecideResponse := mkDecided {
  DrEffect : string;
  DrReason : string;
  DrReasonCode : string;
  DrActionID : string
}.

Definition writeGovernancePending (oexpire : reply) (co : create_oracle) (hex : option string) (now : Z)
    (i : PolicyInput) (dec : PolicyDecision) (t : table) : table * res Z governanceDecideResponse :=
  if String.eqb (RunID i) "" then (t, Err 400)
  else
    match ExpireGovernancePending oexpire now t with
    | (t, Err e) => (t, Err (store_status e))
    | (t, Ok _) =>
        match persistPendingAction co hex now i (Connector i) (Tool i) dec (Some (now + governancePendingTTL)) t with
        | (t, Err e) => (t, Err (store_status e))
        | (t, Ok id) => (t, Ok (mkDecided EffectPending (Reason dec) (ReasonCode dec) id))
        end
    end.

(** [allowed]: the agent's rate limit; [body] is [None] when it is not JSON. *)
Definition handleGovernanceDecide (allowed : bool) (oexpire : reply) (co : create_oracle) (hex : option string)
    (now : Z) (r : request) (body : option governanceDecideRequest) (bound : option bound_args) (t : table)
  : table * res Z governanceDecideResponse :=
  if negb Enabled then (t, Err 409)
  else
    match body with
    | None => (t, Err 400)
    | Some q =>
        let agent := TrimSpace (DqAgentID q) in
        let connector := TrimSpace (DqConnector q) in
        let tool := TrimSpace (DqTool q) in
        let run := TrimSpace (DqRunID q) in
        let tenantID := FromContext (rq_ctx r) in
        if String.eqb agent "" || String.eqb connector "" || String.eqb tool "" then (t, Err 400)
        else if tooLongGovernanceID agent || tooLongGovernanceID connector || tooLongGovernanceID tool
                || tooLongGovernanceID run then (t, Err 400)
        else if match DqTenantID q with Some v => negb (String.eqb (TrimSpace v) tenantID) | None => false end
        then (t, Err 403)
        else if negb allowed then (t, Err 429)
        else
          match bound with
          | None => (t, Err 400)
          | Some b =>
              let principal := match rq_auth r with Some ar => ArIdentity ar | None => "" end in
              let i := bind_args (input StageToolCall tenantID principal agent run 0 connector tool) b in
              let dec := Decide i in
              if String.eqb (Effect dec) EffectPending then writeGovernancePending oexpire co hex now i dec t
              else
                let known := String.eqb (Effect dec) EffectAllow || String.eqb (Effect dec) EffectDeny in
                (t, Ok (mkDecided (if known then Effect dec else EffectDeny)
                          (if negb known && String.eqb (Reason dec) "" then "denied by policy" else Reason dec)
                          (ReasonCode dec) ""))
          end
    end.

Definition governanceActionStatus (status : string) : string :=
  if String.eqb status PendingStatusPending || String.eqb status PendingStatusApproved
     || String.eqb status PendingStatusConsumed then status
  else "rejected".

(** The polled status of an action. *)
Definition handleGovernanceGetAction (oexpire oget : reply) (now : Z) (r : request) (pathID : string) (t : table)
  : table * res Z (string * string) :=
  match ExpireGovernancePending oexpire now t with
  | (t, Err e) => (t, Err (store_status e))
  | (t, Ok _) =>
      let id := TrimSpace pathID in
      if String.eqb id "" then (t, Err 400)
      else
        match GetPendingAction oget id t with
        | Err e => (t, Err (store_status e))
        | Ok a =>
            if negb (String.eqb (PaTenantID a) (FromContext (rq_ctx r))) then (t, Err 404)
            else if negb (currentPendingBinding a)
                    && (String.eqb (PaStatus a) PendingStatusPending || String.eqb (PaStatus a) PendingStatusApproved)
            then (t, Ok (PaID a, "rejected"))
            else (t, Ok (PaID a, governanceActionStatus (PaStatus a)))
        end
  end.

(** ** Minting a break-glass window *)

Definition maxBreakGlassDuration : Z := 24 * 3600 * second.

Record breakGlassBody := mkBgBody {
  BbID : string; BbTenantID : string; BbAgentID : string; BbReason : string; BbStartsAt : string; BbExpiresAt : string
}.

Variable parse_time : string → option Z.          (* time.Parse(time.RFC3339, _) *)

Definition mint_event (action actor suffix : string) (now : Z) (w : BreakGlassWindow) : AuditEvent :=
  mkAudit ("bg-audit-" +:+ suffix) now (BgTenantID w) actor action "break_glass" (BgID w) EffectAllow
    ReasonBreakGlass (BgID w) "" 0 (BgAgentID w) "" ""
    [("reason", AStr (BgReason w)); ("starts_at", AStr (rfc3339_text (sec (BgStartsAt w))));
     ("expires_at", AStr (rfc3339_text (sec (BgExpiresAt w)))); ("created_by", AStr (BgCreatedBy w))].

(** The audit row of an administrative change is best effort. *)
Definition writeBreakGlassAdminAudit (oaudit : reply) (hex : option string) (x : ctx) (now : Z)
    (action actor : string) (w : BreakGlassWindow) (c : Controls) : Controls :=
  match hex with
  | None => c
  | Some suffix => (WriteAuditEvent oaudit x now (mint_event action actor suffix now w) c).1
  end.

Definition handleAdminCreateBreakGlass (ocreate oget oaudit : reply) (hex hex2 : option string) (now : Z)
    (r : request) (body : option breakGlassBody) (c : Controls) : Controls * res Z BreakGlassWindow :=
  match body with
  | None => (c, Err 400)
  | Some b =>
      let tenant := TrimSpace (BbTenantID b) in
      let agent := TrimSpace (BbAgentID b) in
      let reason := TrimSpace (BbReason b) in
      if String.eqb tenant "" then (c, Err 400)
      else if String.eqb reason "" then (c, Err 400)
      else
        match (if String.eqb (TrimSpace (BbStartsAt b)) "" then Some now else parse_time (TrimSpace (BbStartsAt b))) with
        | None => (c, Err 400)
        | Some startsAt =>
            if String.eqb (TrimSpace (BbExpiresAt b)) "" then (c, Err 400)
            else
              match parse_time (TrimSpace (BbExpiresAt b)) with
              | None => (c, Err 400)
              | Some expiresAt =>
                  if expiresAt <=? startsAt then (c, Err 400)
                  else if maxBreakGlassDuration <? expiresAt - startsAt then (c, Err 400)
                  else if expiresAt <=? now then (c, Err 400)
                  else
                    let createdBy := match rq_auth r with Some ar => ArIdentity ar | None => "" end in
                    match (if String.eqb (TrimSpace (BbID b)) "" then (λ s, "bg-" +:+ s) <$> hex
                           else Some (TrimSpace (BbID b))) with
                    | None => (c, Err 500)
                    | Some id =>
                        match CreateBreakGlassWindow ocreate now
                                (mkWindow id tenant agent reason createdBy startsAt expiresAt 0 0) c with
                        | (c, Err e) => (c, Err (store_status e))
                        | (c, Ok _) =>
                            match GetBreakGlassWindow oget id c with
                            | Err e => (c, Err (store_status e))
                            | Ok out =>
                                (writeBreakGlassAdminAudit oaudit hex2 (SystemContext (rq_ctx r)) now
                                   "break_glass.mint" createdBy out c, Ok out)
                            end
                        end
                    end
              end
        end
  end.

Definition handleAdminDeleteBreakGlass (oget odel oaudit : reply) (hex : option string) (now : Z) (r : request)
    (id : string) (c : Controls) : Controls * res Z unit :=
  match GetBreakGlassWindow oget id c with
  | Err e => (c, Err (store_status e))
  | Ok existing =>
      match DeleteBreakGlassWindow odel id c with
      | (c, Err e) => (c, Err (store_status e))
      | (c, Ok _) =>
          let actor := match rq_auth r with Some ar => ArIdentity ar | None => "" end in
          (writeBreakGlassAdminAudit oaudit hex (SystemContext (rq_ctx r)) now "break_glass.revoke" actor existing c,
           Ok tt)
      end
  end.
End approvals.
