(* ===== verification/ApprovalProps.v ===== *)
(** * What the approval gate guarantees *)

From Stdlib Require Import String.
From S2P Require Import Prelude GoStrings GoAny GoTime Transport Store Controls Governance GovernanceSteps Predicates Auth Approvals.
Local Open Scope string_scope.
Local Open Scope Z_scope.

(** ** Controls *)

Lemma WriteAuditEvent_ok o x now ev c c' :
  WriteAuditEvent o x now ev c = (c', Ok tt) → c' = set_audits (<[AeID ev := audit_row x now ev]> (audits c)) c.
Proof.
  unfold WriteAuditEvent. destruct (attempt _ _ _ _) as [c1 [[]|]] eqn:Ha; [|done..].
  apply attempt_ok in Ha. destruct (audits c !! AeID ev); simplify_eq. by intros [= <-].
Qed.

(** A window that covers a tenant's agent. *)
Definition covers (tenantID agentID : string) (w : BreakGlassWindow) : Prop :=
  BgTenantID w = tenantID ∧ (BgAgentID w = agentID ∨ BgAgentID w = "").

Lemma FindActiveBreakGlass_ok o now tn ag c w :
  FindActiveBreakGlass o now tn ag c = Ok (Some w) →
  (∃ id, windows c !! id = Some w) ∧ covers tn ag w ∧ in_force now w = true.
Proof.
  destruct o; simpl; [|done..]. intros [= H]. apply head_Some_elem_of in H. rewrite sort_by_perm in H.
  apply list_elem_of_filter in H as [(Ht&Ha&Hf) Hin]. split; [|done].
  apply list_elem_of_fmap in Hin as ([id w']&->&Hin%elem_of_map_to_list). by exists id.
Qed.

(** Text comparison can be wrong by less than a second. *)
Lemma in_force_bounds now w :
  in_force now w = true → BgStartsAt w < now + second ∧ now < BgExpiresAt w + second.
Proof.
  intros [Hs%text_le_sec He%text_lt_sec]%andb_true_iff.
  pose proof (sec_bounds now). pose proof (sec_bounds (BgStartsAt w)). pose proof (sec_bounds (BgExpiresAt w)).
  unfold second in *. lia.
Qed.

Section props.
Variable Enabled : bool.
Variable Decide : PolicyInput → PolicyDecision.
Variable MatchMandatoryHITL : PolicyInput → option string.
Variable key : call → string.
Variable EmptyDigest : string.
Variable rfc3339_text : Z → string.

Notation gate_of := (tool_gate Enabled Decide MatchMandatoryHITL key EmptyDigest rfc3339_text).
Notation check := (checkConnectorPolicy Enabled Decide MatchMandatoryHITL rfc3339_text).

(** A bypass used an active window and left its audit row. *)
Definition bypassed (now : Z) (r : request) (i : PolicyInput) (c c' : Controls) : Prop :=
  ∃ w ev, (∃ id, windows c !! id = Some w) ∧
    covers (if String.eqb (TenantID i) "" then FromContext (rq_ctx r) else TenantID i) (AgentID i) w ∧
    in_force now w = true ∧ c' = set_audits (<[AeID ev := ev]> (audits c)) c ∧
    AeReasonCode ev = ReasonBreakGlass ∧ AeRuleID ev = BgID w ∧ AeRunID ev = RunID i ∧ AeTool ev = Tool i.

Lemma tryBreakGlassBypass_true ofi oa hex now r i c c' :
  tryBreakGlassBypass Enabled MatchMandatoryHITL rfc3339_text ofi oa hex now r i c = (c', true) →
  bypassed now r i c c'.
Proof.
  unfold tryBreakGlassBypass. destruct Enabled; [|done]. simpl.
  destruct (FindActiveBreakGlass _ _ _ _ c) as [[w|]|] eqn:Hf; [|done..]. destruct hex as [sfx|]; [|done].
  set (ev := bypass_event _ _ _ _ _ _ _ _).
  destruct (WriteAuditEvent _ _ _ ev c) as [c1 [[]|]] eqn:Hw; [|done]. intros [= <-].
  apply WriteAuditEvent_ok in Hw as ->. apply FindActiveBreakGlass_ok in Hf as (?&?&?).
  exists w, (audit_row (rq_ctx r) now ev). split_and!; done.
Qed.

Lemma check_allowed ofi oa hex now r i c c' dec :
  check ofi oa hex now r i c = (c', (dec, false)) →
  Enabled = false ∨ bypassed now r i c c' ∨ Effect (Decide i) = EffectAllow.
Proof.
  unfold checkConnectorPolicy. destruct (negb Enabled) eqn:He; [left; by apply negb_true_iff|].
  destruct (tryBreakGlassBypass _ _ _ _ _ _ _ _ _ c) as [c1 []] eqn:Hb.
  - intros [= <- _]. right. left. by apply tryBreakGlassBypass_true in Hb.
  - intros [= _ _ H%negb_false_iff%String.eqb_eq]. by right; right.
Qed.

Lemma check_denied ofi oa hex now r i c c' dec :
  check ofi oa hex now r i c = (c', (dec, true)) → dec = Decide i ∧ Effect dec ≠ EffectAllow.
Proof.
  unfold checkConnectorPolicy. destruct Enabled; [|done]. simpl.
  destruct (tryBreakGlassBypass _ _ _ _ _ _ _ _ _ c) as [c1 []]; [done|].
  intros [= _ <- H%negb_true_iff%String.eqb_neq]. done.
Qed.

(** The capability this request would use. *)
Definition request_call (r : request) (connector tool digest : string) : call :=
  let i := policyInputFromRequest r StageToolCall connector tool in
  capability (TenantID i) (AgentID i) (RunID i) (Generation i) connector tool digest.

(** An approval of exactly this call was used up. *)
Definition used_approval (now : Z) (c : call) (t t' : table) : Prop :=
  ∃ id row, t !! id = Some row ∧ PaStatus (row_action row) = PendingStatusApproved ∧
    call_of (row_action row) = c ∧ t' = <[id := keep_meta now PendingStatusConsumed row]> t.

Lemma tryConsume_true w o now r connector tool digest t' :
  g_reachable key w →
  tryConsumePendingCapability o now r connector tool digest (g_table w) = (t', true) →
  used_approval now (request_call r connector tool digest) (g_table w) t'.
Proof.
  intros Hw%ginv_reachable. unfold tryConsumePendingCapability. destruct (String.eqb _ ""); [done|].
  destruct (ConsumeApprovedAction _ _ _ _ _ _ _ _ _ _) as [t1 [id|]] eqn:Hc; [|done].
  intros [= -> Hid%negb_true_iff%String.eqb_neq].
  apply Consume_ok in Hc as (row&?&?&?&->); [by exists id, row| |done].
  intros i r' Hr'. by apply (gi_rows _ _ Hw _ _ Hr').
Qed.

Lemma refuse_refuses o now i connector tool dec t : (refuse key EmptyDigest o now i connector tool dec t).2 ≠ GForward.
Proof.
  unfold refuse. destruct (String.eqb _ _); [|done]. by destruct (persistPendingAction _ _ _ _ _ _ _ _ _ _ _) as [? []].
Qed.

(** C7. A tool call reaches its connector only when it may: no policy engine is
    configured, a break-glass window in force covers the tenant and agent and the
    use was written to the audit log, the engine allows the call, or the engine
    holds it and an operator's approval of exactly this call is used up.  An
    explicit denial is never overridden by an approval. *)
Theorem forwarded_is_authorized w o now r connector tool b c c' t' :
  g_reachable key w →
  gate_of o now r connector tool (Some b) c (g_table w) = (c', t', GForward) →
  let i := bind_args (policyInput r StageToolCall connector tool) b in
  Enabled = false ∨ bypassed now r i c c' ∨ Effect (Decide i) = EffectAllow ∨
  (Effect (Decide i) = EffectPending ∧ used_approval now (request_call r connector tool (ArgsDigest i)) (g_table w) t').
Proof.
  intros Hw. unfold tool_gate. set (i := bind_args _ b).
  destruct (check _ _ _ now r i c) as [c1 [dec deny]] eqn:Hc. destruct deny; simpl.
  - apply check_denied in Hc as [-> Hne].
    destruct (String.eqb (Effect (Decide i)) EffectPending) eqn:Hp.
    + destruct (tryConsumePendingCapability _ now r connector tool _ _) as [t1 []] eqn:Ht; simpl.
      * intros [= <- <-]. do 3 right. split; [by apply String.eqb_eq|by apply tryConsume_true in Ht].
      * pose proof (refuse_refuses o now i connector tool (Decide i) t1) as Hr.
        destruct (refuse _ _ _ _ _ _ _ _ _). intros [= _ _ ->]. done.
    + pose proof (refuse_refuses o now i connector tool (Decide i) (g_table w)) as Hr.
      simpl. destruct (refuse _ _ _ _ _ _ _ _ _). intros [= _ _ ->]. done.
  - apply check_allowed in Hc. intros Heq. assert (c1 = c') as -> by (by case_match; simplify_eq).
    destruct Hc as [?|[?|?]]; [by left|by right; left|by do 2 right; left].
Qed.

(** A refusal's event comes after everything replayed and never ends a client's stream. *)
Lemma tool_auth_event_last on marshal replay hex now_ms i dec id ev :
  emitToolAuthEvent on marshal replay hex now_ms i dec id = Some ev →
  IsTerminal ev = false ∧ ∀ prev, prev ∈ default [] replay → Seq prev < Seq ev.
Proof.
  unfold emitToolAuthEvent. destruct (_ || _); [done|]. destruct (marshal _) as [payload|]; [|done].
  destruct hex as [suffix|]; [|done]. intros [= <-]. split; [done|]. simpl. unfold next_seq.
  generalize (default [] replay) as l. intros l.
  assert (Hmono : ∀ (l : list RunEvent) n, n ≤ foldl (λ seq ev, if seq <=? Seq ev then Seq ev + 1 else seq) n l).
  { clear. induction l as [|x l IH]; intros n; simpl; [done|]. etrans; [|apply IH]. destruct (Z.leb_spec n (Seq x)); lia. }
  assert (Hlt : ∀ (l : list RunEvent) n prev, prev ∈ l →
    Seq prev < foldl (λ seq ev, if seq <=? Seq ev then Seq ev + 1 else seq) n l); [|by apply Hlt].
  clear l. induction l as [|x l IH]; intros n prev Hin; [by apply not_elem_of_nil in Hin|]. simpl.
  apply elem_of_cons in Hin as [->|Hin]; [|by apply IH].
  eapply Z.lt_le_trans; [|apply Hmono]. destruct (Z.leb_spec n (Seq x)); lia.
Qed.

(** ** A held call *)

Lemma consume_finds now c (t : table) id row :
  (∀ i r, t !! i = Some r → PaID (row_action r) = i ∧ i ≠ "") →
  t !! id = Some row → open_for c PendingStatusApproved row = true → (consume now c t).2 ≠ "".
Proof.
  intros Hids Hrow Hopen. unfold consume. destruct (oldest _ t) as [r|] eqn:Ho.
  - apply oldest_Some in Ho as [Ht [i Hi]]. destruct (Hids _ _ Hi) as [-> Hne].
    apply andb_true_iff in Ht as [_ Hst]. unfold update_where. by rewrite Hi, Hst.
  - exfalso. unfold oldest in Ho. apply head_None in Ho.
    assert (Hin : row ∈ filter (λ r, open_for c PendingStatusApproved r = true) (map_to_list t).*2).
    { apply list_elem_of_filter. split; [done|]. apply list_elem_of_fmap. exists (id, row). split; [done|].
      by apply elem_of_map_to_list. }
    rewrite <- sort_by_perm, Ho in Hin. by apply not_elem_of_nil in Hin.
Qed.

(** A request of a runner: bound to a run, nothing else on its context. *)
Definition run_bound (r : request) : Prop :=
  (∃ b, rq_binding r = Some b ∧ RbRunID b ≠ "") ∧ rq_agent r = None ∧ rq_run r = None.

Lemma pending_call r connector tool b sfx dec :
  run_bound r → b.1.2 ≠ "" →
  call_of (pending_of EmptyDigest (bind_args (policyInput r StageToolCall connector tool) b) sfx connector tool dec None)
  = request_call r connector tool b.1.2.
Proof.
  intros ((bd&Hb&Hn)&Ha&Hr) Hd. unfold call_of, request_call, policyInput, policyInputFromRequest.
  rewrite Hb, Ha, Hr. simpl. by rewrite (proj2 (String.eqb_neq _ _) Hd).
Qed.

(** A consume whose answer is not an id is a step of the approvals. *)
Lemma tryConsume_false w o now r connector tool digest t' :
  g_reachable key w →
  tryConsumePendingCapability o now r connector tool digest (g_table w) = (t', false) →
  ∃ w', g_reachable key w' ∧ g_table w' = t'.
Proof.
  intros Hw. unfold tryConsumePendingCapability. destruct (String.eqb _ ""); [intros [= <-]; by exists w|].
  destruct (ConsumeApprovedAction _ _ _ _ _ _ _ _ _ _) as [t1 [id|e]] eqn:Hc.
  - intros [= <- Hid%negb_false_iff%String.eqb_eq]. subst id. exists (on_table w t1). split; [|done].
    eapply rtc_r; [exact Hw|]. eapply gs_consume. by left.
  - intros [= <-]. exists (on_table w t1). split; [|done]. eapply rtc_r; [exact Hw|]. eapply gs_consume. right. by eexists.
Qed.

(** A refusal that names an action left a row for exactly this call. *)
Lemma refused_row w o now r connector tool b c c' t' dec id :
  g_reachable key w → run_bound r → b.1.2 ≠ "" → (∀ i t, co_between (go_create o) i t = t) →
  gate_of o now r connector tool (Some b) c (g_table w) = (c', t', GRefused dec id) → id ≠ "" →
  ∃ w' row, g_reachable key w' ∧ g_table w' = t' ∧ t' !! id = Some row ∧
    call_of (row_action row) = request_call r connector tool b.1.2.
Proof.
  intros Hw Hr Hd Hbt. unfold tool_gate. set (i := bind_args _ b).
  destruct (check _ _ _ now r i c) as [c1 [d deny]]. destruct (String.eqb (Effect d) EffectPending) eqn:Hp.
  2: { destruct (negb deny || false) eqn:Hn; [destruct (tryConsumePendingCapability _ _ _ _ _ _ _) as [t1 ap]|];
         unfold refuse; rewrite Hp; destruct deny; simpl in *; try destruct ap; simpl; intros [= _ _ _ <-]; done. }
  rewrite orb_true_r. destruct (tryConsumePendingCapability _ now r connector tool _ _) as [t1 ap] eqn:Hc.
  destruct (deny && negb ap) eqn:Hdn; [|done]. apply andb_true_iff in Hdn as [_ ->%negb_true_iff].
  apply tryConsume_false in Hc as (w1&Hw1&<-); [|done]. unfold refuse. rewrite Hp. unfold persistPendingAction.
  destruct (String.eqb (RunID i) ""); [by intros [= _ _ _ <-]|].
  destruct (go_hex2 o) as [sfx|]; [|by intros [= _ _ _ <-]].
  destruct (CreatePendingAction _ _ _ _ _ _ _ _ _) as [t2 [id'|]] eqn:Hcr; [|by intros [= _ _ _ <-]].
  intros [= _ <- _ <-] _.
  apply CreatePendingAction_returns_row in Hcr as (w2&row&H2&<-&Hrow&Hcall); [|done| |intros; by rewrite Hbt|done|by destruct sfx].
  - exists w2, row. split_and!; [unfold g_reachable in *; by etrans|done..|]. rewrite Hcall. by apply pending_call.
  - intros k w3 _. exists w3. rewrite Hbt. done.
Qed.

(** A held call goes through once it is approved: the gate holds a call and
    names an action, an operator approves that action, and the same call, with
    the policy still holding it, is forwarded. *)
Theorem held_call_proceeds w o o' now now1 now2 by_ r connector tool b c c' c2 t' t2 dec id :
  g_reachable key w → run_bound r → b.1.2 ≠ "" → (∀ i t, co_between (go_create o) i t = t) →
  gate_of o now r connector tool (Some b) c (g_table w) = (c', t', GRefused dec id) → id ≠ "" →
  SetPendingActionApproved RFine now1 id by_ t' = (t2, Ok tt) →
  go_consume o' = RFine → Effect (Decide (bind_args (policyInput r StageToolCall connector tool) b)) = EffectPending →
  (gate_of o' now2 r connector tool (Some b) c2 t2).2 = GForward.
Proof.
  intros Hw Hr Hd Hbt Hg Hid Hap Ho Hpend.
  destruct (refused_row _ _ _ _ _ _ _ _ _ _ _ _ Hw Hr Hd Hbt Hg Hid) as (w'&row&Hw'&<-&Hrow&Hcall).
  assert (Hrows : ∀ i x, g_table w' !! i = Some x → PaID (row_action x) = i ∧ i ≠ "").
  { intros i x H. by apply (gi_rows _ _ (ginv_reachable _ _ Hw') _ _ H). }
  unfold SetPendingActionApproved, update_where in Hap. simpl in Hap. rewrite Hrow in Hap.
  destruct (approvable now1 row); [|done]. injection Hap as <-.
  unfold tool_gate. set (i := bind_args _ b) in *.
  destruct (check _ _ _ now2 r i c2) as [c3 [d deny]] eqn:Hc.
  assert (Hgo : negb deny || String.eqb (Effect d) EffectPending = true).
  { destruct deny; [|done]. apply check_denied in Hc as [-> _]. by rewrite Hpend. }
  rewrite Hgo. unfold tryConsumePendingCapability.
  destruct Hr as ((bd&Hb&Hn)&_&_).
  assert (Hrun : RunID (policyInputFromRequest r StageToolCall connector tool) = RbRunID bd).
  { unfold policyInputFromRequest. by rewrite Hb. }
  rewrite Hrun, (proj2 (String.eqb_neq _ _) Hn), Ho. unfold ConsumeApprovedAction.
  change (ArgsDigest i) with b.1.2. rewrite (proj2 (String.eqb_neq _ _) Hd). simpl.
  set (t2 := <[id := _]> (g_table w')).
  assert (Hne : (consume now2 (request_call r connector tool b.1.2) t2).2 ≠ "").
  { eapply (consume_finds _ _ _ id); [|apply lookup_insert_eq|].
    - intros j x [[<- <-]|[_ H]]%lookup_insert_Some; [exact (Hrows _ _ Hrow)|eauto].
    - unfold open_for. apply andb_true_iff. split; [|done]. by apply bool_decide_eq_true. }
  unfold request_call in Hne. rewrite Hrun in Hne.
  destruct (consume _ _ t2) as [t3 id']. simpl in *.
  rewrite (proj2 (String.eqb_neq _ _) Hne). simpl. by rewrite andb_false_r.
Qed.
End props.

(** ** Break-glass windows *)

Section break_glass.
Variable rfc3339_text : Z → string.
Variable parse_time : string → option Z.

Notation mint := (handleAdminCreateBreakGlass rfc3339_text parse_time).
Notation revoke := (handleAdminDeleteBreakGlass rfc3339_text).

(** What operators and callers do to the control tables. *)
Inductive cstep : Controls → Controls → Prop :=
| cs_mint c o1 o2 o3 hex hex2 now r body : cstep c (mint o1 o2 o3 hex hex2 now r body c).1
| cs_revoke c o1 o2 o3 hex now r id : cstep c (revoke o1 o2 o3 hex now r id c).1
| cs_kill c o now k : cstep c (UpsertKillSwitch o now k c).1
| cs_unkill c o id : cstep c (DeleteKillSwitch o id c).1
| cs_audit c o x now ev : cstep c (WriteAuditEvent o x now ev c).1.

Definition no_controls : Controls := mkControls ∅ ∅ ∅.

Definition short (w : BreakGlassWindow) : Prop :=
  BgStartsAt w < BgExpiresAt w ≤ BgStartsAt w + maxBreakGlassDuration.

Definition windows_short (c : Controls) : Prop := map_Forall (λ _, short) (windows c).

Lemma WriteAuditEvent_windows o x now ev c : windows (WriteAuditEvent o x now ev c).1 = windows c.
Proof.
  unfold WriteAuditEvent. match goal with |- context [attempt _ _ ?f c] => pose proof (attempt_state EDriver o f c) as H end.
  destruct (attempt _ _ _ c) as [c1 [[]|]]; simpl in *; destruct H as [->| ->]; by destruct (audits c !! AeID ev).
Qed.

Lemma writeBreakGlassAdminAudit_windows o hex x now a b w c :
  windows (writeBreakGlassAdminAudit rfc3339_text o hex x now a b w c) = windows c.
Proof. destruct hex; [|done]. apply WriteAuditEvent_windows. Qed.

Lemma CreateBreakGlassWindow_short o now w c :
  windows_short c → short w → windows_short (CreateBreakGlassWindow o now w c).1.
Proof.
  intros Hc Hw. unfold CreateBreakGlassWindow.
  match goal with |- context [attempt _ _ ?f c] => pose proof (attempt_state EDriver o f c) as H end.
  destruct (attempt _ _ _ c) as [c1 [[]|]]; simpl in *; destruct H as [->| ->]; try done;
    destruct (windows c !! BgID w); try done; by apply map_Forall_insert_2.
Qed.

Lemma mint_short o1 o2 o3 hex hex2 now r body c :
  windows_short c → windows_short (mint o1 o2 o3 hex hex2 now r body c).1.
Proof.
  intros Hc. unfold handleAdminCreateBreakGlass. destruct body as [b|]; [|done].
  destruct (String.eqb _ ""); [done|]. destruct (String.eqb _ ""); [done|].
  destruct (if String.eqb _ "" then _ else _) as [startsAt|]; [|done]. destruct (String.eqb _ ""); [done|].
  destruct (parse_time _) as [expiresAt|]; [|done].
  destruct (Z.leb_spec expiresAt startsAt); [done|]. destruct (Z.ltb_spec maxBreakGlassDuration (expiresAt - startsAt)); [done|].
  destruct (expiresAt <=? now); [done|]. destruct (if String.eqb _ "" then _ else _) as [id|]; [|done].
  match goal with |- context [CreateBreakGlassWindow o1 now ?w c] =>
    pose proof (CreateBreakGlassWindow_short o1 now w c Hc) as H1; destruct (CreateBreakGlassWindow o1 now w c) as [c1 [[]|]] end;
    simpl in *; (assert (windows_short c1) by (apply H1; unfold short; simpl; lia)); [|done].
  destruct (GetBreakGlassWindow _ _ _); [|done]. simpl. unfold windows_short. by rewrite writeBreakGlassAdminAudit_windows.
Qed.

Lemma cstep_short c c' : cstep c c' → windows_short c → windows_short c'.
Proof.
  destruct 1 as [c ?????????|c o1 o2 o3 hex now r id|c o now k|c o id|c o x now ev]; intros Hc.
  - by apply mint_short.
  - unfold handleAdminDeleteBreakGlass. destruct (GetBreakGlassWindow _ _ _); [|done].
    assert (Hd : windows_short (DeleteBreakGlassWindow o2 id c).1).
    { unfold DeleteBreakGlassWindow. destruct (attempt_state EDriver o2 (λ c, (set_windows (delete id (windows c)) c, tt)) c) as [-> | ->]; [done|].
      by apply map_Forall_delete. }
    destruct (DeleteBreakGlassWindow _ _ _) as [c1 [[]|]]; simpl in *; [|done].
    unfold windows_short. by rewrite writeBreakGlassAdminAudit_windows.
  - unfold UpsertKillSwitch. pose proof (attempt_state EDriver o (upsert_kill now k) c) as H.
    destruct (attempt _ _ _ c) as [c1 [[]|]]; simpl in *; destruct H as [->| ->]; try done; unfold upsert_kill; by destruct (ks_taken _ _).
  - unfold DeleteKillSwitch. by destruct (attempt_state EDriver o (λ c, (set_kills (delete id (kills c)) c, tt)) c) as [-> | ->].
  - unfold windows_short. by rewrite WriteAuditEvent_windows.
Qed.

(** A break-glass window bypasses the policy for a bounded time: after every
    history of the control tables, a window that is found active at [now] covers
    the caller's tenant and agent, and [now] is less than a second before its
    start or after its expiry at worst, hence within 24 hours and one second of
    its start. *)
Theorem break_glass_bounded c o now tenantID agentID w :
  rtc cstep no_controls c → FindActiveBreakGlass o now tenantID agentID c = Ok (Some w) →
  covers tenantID agentID w ∧ BgStartsAt w < now + second ∧ now < BgExpiresAt w + second ∧
  now < BgStartsAt w + maxBreakGlassDuration + second.
Proof.
  intros Hc Hf. apply FindActiveBreakGlass_ok in Hf as ([id Hid]&Hcov&Hin).
  assert (Hs : windows_short c).
  { assert (H0 : windows_short no_controls) by apply map_Forall_empty. clear -Hc H0. induction Hc; eauto using cstep_short. }
  specialize (Hs _ _ Hid). unfold short in Hs. apply in_force_bounds in Hin. split; [done|lia].
Qed.
End break_glass.

(** A window outlives its expiry: when the expiry is a whole second, as RFC
    3339 requests usually are, the window is in force for the rest of that second,
    because its text sorts after every text with a fraction. *)
Theorem expired_window_in_force now w :
  BgExpiresAt w mod second = 0 → BgExpiresAt w < now < BgExpiresAt w + second → sec (BgStartsAt w) < sec now →
  in_force now w = true.
Proof.
  intros He Hn Hs. unfold in_force. rewrite text_le_sec_lt by done. simpl.
  assert (Hsec : sec now = sec (BgExpiresAt w)).
  { pose proof (sec_bounds now). pose proof (sec_bounds (BgExpiresAt w)).
    assert (BgExpiresAt w = sec (BgExpiresAt w) * second).
    { unfold sec. pose proof (Z.div_mod (BgExpiresAt w) second ltac:(done)). lia. }
    unfold second in *. lia. }
  assert (Hf : now mod second ≠ 0).
  { intros H0. assert (BgExpiresAt w = now); [|lia].
    rewrite (Z.div_mod now second), (Z.div_mod (BgExpiresAt w) second) by done. rewrite He, H0. f_equal.
    unfold sec in Hsec. by rewrite Hsec. }
  unfold text_lt, text_le. rewrite Hsec, Z.ltb_irrefl, Z.eqb_refl. simpl.
  unfold nano_suffix. rewrite He, (proj2 (Z.eqb_neq _ _) Hf). done.
Qed.
