(* ===== verification/McpRequest.v ===== *)
(** * One reading of a JSON-RPC request

    Models [internal/connector/mcp_request.go]: a request to a connector is parsed
    once, for enforcement and for forwarding.  A downstream server may match keys
    without regard to case, as Go's struct decoding does, so the parser refuses
    every spelling of a reserved key but the exact one.

    The document is the value [DecodeUnique] accepted, whose objects have no
    repeated key; raw members stand as their decoded values. *)

From Stdlib Require Import Ascii String.
From S2P Require Import Prelude GoStrings GoAny JsonNumber Predicates Surrogates PolicyArgs.
Local Open Scope string_scope.
Local Open Scope Z_scope.

(** ** [strings.EqualFold] against an ASCII name *)

Definition ascii_lower (c : ascii) : ascii :=
  if in_range 65 90 c then ascii_of_N (byte_of c + 32) else c.

Definition is_byte (n : N) (c : ascii) : bool := (byte_of c =? n)%N.

(** Letters match either case; the long s (U+017F) folds to s, the Kelvin sign
    (U+212A) to k. *)
Fixpoint fold_bytes (key name : list ascii) : bool :=
  match name with
  | [] => match key with [] => true | _ => false end
  | c :: name' =>
      match key with
      | [] => false
      | a :: key1 =>
          if in_range 0 127 a then Ascii.eqb (ascii_lower a) (ascii_lower c) && fold_bytes key1 name'
          else
            match key1 with
            | [] => false
            | b :: key2 =>
                if is_byte 0xC5 a && is_byte 0xBF b && Ascii.eqb (ascii_lower c) "s" then fold_bytes key2 name'
                else
                  match key2 with
                  | [] => false
                  | d :: key3 =>
                      is_byte 0xE2 a && is_byte 0x84 b && is_byte 0xAA d && Ascii.eqb (ascii_lower c) "k"
                      && fold_bytes key3 name'
                  end
            end
      end
  end.

Definition EqualFold (key name : string) : bool :=
  fold_bytes (list_ascii_of_string key) (list_ascii_of_string name).

(** ** Parsing *)

Definition MaxMCPRequestBytes : Z := 1048576.

Inductive mcp_err :=
| MTooLarge
| MAmbiguous (e : derr)
| MNotObject
| MReserved (name : string)
| MVersion | MMethod | MToolName | MArguments | MParams.

Record MCPRequest := mkMCP {
  RqID : option any;
  RqMethod : string;
  RqTool : string;
  RqArguments : option any;
  RqBody : any                  (* the document that is forwarded *)
}.

(** A reserved name another spelling of which is used. *)
Definition misspelled (reserved : list string) (m : list (string * any)) : option string :=
  head (filter (λ name, existsb (λ kv : string * any, negb (String.eqb kv.1 name) && EqualFold kv.1 name) m = true)
          reserved).

Definition strictRPCObject (reserved : list string) (v : any) : res mcp_err (list (string * any)) :=
  match v with
  | AMap m => match misspelled reserved m with Some n => Err (MReserved n) | None => Ok m end
  | _ => Err MNotObject
  end.

(** [json.Unmarshal(raw, &s)]: a missing member is an error, [null] leaves s empty. *)
Definition string_member (v : option any) : option string :=
  match v with
  | Some (AStr s) => Some s
  | Some ANil => Some ""
  | _ => None
  end.

Section parse.
Variable lex : list ascii → option (list jtok).

(** The tool and arguments of the params of a [tools/call]. *)
Definition call_params (params : list (string * any)) : res mcp_err (string * option any) :=
  match (match assoc "name" params with None => Some "" | v => string_member v end) with
  | None => Err MToolName
  | Some tool =>
      match assoc "arguments" params with
      | None => Ok (tool, None)
      | Some (AMap a) => Ok (tool, Some (AMap a))
      | Some _ => Err MArguments
      end
  end.

Definition ParseMCPRequest (body : string) : res mcp_err MCPRequest :=
  if MaxMCPRequestBytes <? Z.of_nat (String.length body) then Err MTooLarge
  else
    match DecodeUnique lex (list_ascii_of_string body) with
    | Err e => Err (MAmbiguous e)
    | Ok doc =>
        match strictRPCObject ["jsonrpc"; "id"; "method"; "params"] doc with
        | Err e => Err e
        | Ok envelope =>
            if negb (bool_decide (string_member (assoc "jsonrpc" envelope) = Some "2.0")) then Err MVersion
            else
              match string_member (assoc "method" envelope) with
              | None | Some "" => Err MMethod
              | Some method =>
                  let req tool args := mkMCP (assoc "id" envelope) method tool args (AMap envelope) in
                  match assoc "params" envelope with
                  | Some raw =>
                      match strictRPCObject ["name"; "arguments"] raw with
                      | Err e => Err e
                      | Ok params =>
                          if String.eqb method "tools/call" then
                            match call_params params with
                            | Err e => Err e
                            | Ok (tool, args) => Ok (req tool args)
                            end
                          else Ok (req "" None)
                      end
                  | None => if String.eqb method "tools/call" then Err MParams else Ok (req "" None)
                  end
              end
        end
    end.

(** ** The forwarded document has one reading *)

(** What a reader that ignores case may take for the member [name]. *)
Definition reads_member (m : list (string * any)) (name : string) (v : any) : Prop :=
  ∃ k, (k, v) ∈ m ∧ EqualFold k name = true.

(** The calls a server may see in a document: method and, below params, tool name. *)
Definition reads_method (doc : any) (method : string) : Prop :=
  ∃ m, doc = AMap m ∧ reads_member m "method" (AStr method).

Definition reads_tool (doc : any) (tool : string) : Prop :=
  ∃ m pm, doc = AMap m ∧ reads_member m "params" (AMap pm) ∧ reads_member pm "name" (AStr tool).

Lemma misspelled_none reserved m name k v :
  misspelled reserved m = None → name ∈ reserved → (k, v) ∈ m → EqualFold k name = true → k = name.
Proof.
  unfold misspelled. intros H%head_None Hn Hin Hf.
  destruct (String.eqb_spec k name) as [|Hne]; [done|]. exfalso.
  assert (Hx : name ∈ filter (λ name, existsb (λ kv : string * any, negb (String.eqb kv.1 name) && EqualFold kv.1 name) m = true) reserved).
  { apply list_elem_of_filter. split; [|done]. apply existsb_exists. exists (k, v).
    split; [by apply list_elem_of_In|]. simpl. apply String.eqb_neq in Hne. by rewrite Hne, Hf. }
  rewrite H in Hx. by apply not_elem_of_nil in Hx.
Qed.

Lemma strict_member reserved v m name x :
  strictRPCObject reserved v = Ok m → name ∈ reserved → reads_member m name x → (name, x) ∈ m.
Proof.
  unfold strictRPCObject. destruct v; try done. destruct (misspelled _ _) eqn:Hm; [done|]. intros [= ->] Hn (k&Hin&Hf).
  by rewrite (misspelled_none _ _ _ _ _ Hm Hn Hin Hf) in Hin.
Qed.

Lemma assoc_unique (m : list (string * any)) k v : NoDup m.*1 → (k, v) ∈ m → assoc k m = Some v.
Proof.
  induction m as [|[k' v'] m IH]; simpl; [by intros _ ?%not_elem_of_nil|].
  intros [Hn Hnd]%list.NoDup_cons [[= -> ->]|Hin]%elem_of_cons; [by rewrite String.eqb_refl|].
  destruct (String.eqb_spec k' k) as [->|]; [|auto]. exfalso. apply Hn, list_elem_of_fmap. by exists (k, v).
Qed.

Context (Hlex : ∀ data ts, lex data = Some ts → Forall scalar_ok ts ∧ json_text data).

Lemma DecodeUnique_decoded data v : DecodeUnique lex data = Ok v → decoded v.
Proof using Hlex.
  unfold DecodeUnique. destruct (negb _); [done|]. destruct (lex _) as [ts|] eqn:E; [|done].
  destruct (validSurrogates _) as [[]|]; [|done..]. apply decode_tokens_decoded. by apply (Hlex _ _ E).
Qed.

(** The method that is enforced is the only one a server can read, and for a tool call so
    is the tool. *)
Lemma one_reading body req :
  ParseMCPRequest body = Ok req →
  (∀ method, reads_method (RqBody req) method → method = RqMethod req) ∧
  (RqMethod req = "tools/call" → ∀ tool, reads_tool (RqBody req) tool → tool = RqTool req).
Proof using Hlex.
  unfold ParseMCPRequest. destruct (_ <? _); [done|].
  destruct (DecodeUnique lex _) as [doc|] eqn:Hd; [|done]. apply DecodeUnique_decoded in Hd.
  destruct (strictRPCObject _ doc) as [env|] eqn:Hs; [|done].
  assert (doc = AMap env) as ->. { unfold strictRPCObject in Hs. destruct doc; try done. by destruct (misspelled _ _); simplify_eq. }
  apply decoded_map in Hd as [Hnd Hdec]. destruct (negb _); [done|].
  destruct (string_member (assoc "method" env)) as [method|] eqn:Hm; [|done].
  assert (Hmeth : ∀ m, reads_method (AMap env) m → m = method).
  { intros m (m'&[= <-]&Hr). eapply strict_member in Hr; [|done|set_solver].
    apply assoc_unique in Hr; [|done]. rewrite Hr in Hm. simpl in Hm. congruence. }
  destruct method as [|c method]; [done|]. set (meth := String c method) in *.
  assert (Hparams : ∀ raw params tool, assoc "params" env = Some raw → strictRPCObject ["name"; "arguments"] raw = Ok params →
     reads_tool (AMap env) tool → assoc "name" params = Some (AStr tool)).
  { intros raw params tool Hp Hsp (m'&pm&[= <-]&Hr&Ht). eapply strict_member in Hr; [|done|set_solver].
    pose proof (Hdec _ _ Hr) as Hpm. apply assoc_unique in Hr; [|done]. rewrite Hr in Hp. injection Hp as <-.
    assert (params = pm) as ->. { unfold strictRPCObject in Hsp. by destruct (misspelled _ _); simplify_eq. }
    eapply strict_member in Ht; [|done|set_solver]. apply decoded_map in Hpm as [Hnd' _]. by apply assoc_unique. }
  destruct (assoc "params" env) as [raw|] eqn:Hp.
  - destruct (strictRPCObject ["name"; "arguments"] raw) as [params|] eqn:Hsp; [|done].
    destruct (String.eqb_spec meth "tools/call") as [He|He].
    + unfold call_params.
      destruct (match assoc "name" params with Some _ => _ | None => _ end) as [tool|] eqn:Hn; [|done].
      intros H. assert (RqBody req = AMap env ∧ RqMethod req = meth ∧ RqTool req = tool) as (->&->&->).
      { destruct (assoc "arguments" params) as [[]|]; by simplify_eq. }
      split; [done|]. intros _ t Ht. rewrite (Hparams _ _ _ eq_refl Hsp Ht) in Hn. simpl in Hn. congruence.
    + intros [= <-]. simpl. split; [done|]. intros E. congruence.
  - destruct (String.eqb_spec meth "tools/call") as [He|He]; [done|].
    intros [= <-]. simpl. split; [done|]. intros E. congruence.
Qed.
End parse.
