(* ===== verification/Connector.v ===== *)
(** * Connectors

    Models the connector registry ([internal/connector]): the circuit breaker
    ([circuitbreaker.go]), credentials and sessions ([registry.go],
    [materializeAuthSecret] of [secretref.go], [session.go]), the MCP proxy with its
    tool filter ([mcpproxy.go]), and the capability check of the HTTP handlers
    ([requireConnectorSession] in [internal/api/server.go]).

    The outside world of one call is a [net]: the answers of the secret store, the
    token endpoint and the MCP server, and the clock readings.  Every call returns
    what it sent out, so that a refused request can be seen to reach nobody. *)

From Stdlib Require Import Ascii String.
From S2P Require Import Prelude GoStrings GoAny JsonNumber Predicates Surrogates PolicyArgs McpRequest.
Local Open Scope string_scope.
Local Open Scope Z_scope.

(** ** The circuit breaker *)

Inductive breakerState := stateClosed | stateOpen | stateHalfOpen.

Record CircuitBreakerConfig := mkBreakerConfig { FailureThreshold : Z; CooldownSeconds : Z }.

Definition DefaultCircuitBreakerConfig : CircuitBreakerConfig := mkBreakerConfig 5 30.

Record CircuitBreaker := mkBreaker {
  cb_cfg : CircuitBreakerConfig;
  cb_state : breakerState;
  cb_failures : Z;            (* consecutiveFailures *)
  cb_openedAt : Z;
  cb_inFlight : bool          (* halfOpenInFlight *)
}.

Definition NewCircuitBreaker (cfg : option CircuitBreakerConfig) : CircuitBreaker :=
  let d := DefaultCircuitBreakerConfig in
  let c := match cfg with
           | Some c => mkBreakerConfig (if 0 <? FailureThreshold c then FailureThreshold c else FailureThreshold d)
                         (if 0 <? CooldownSeconds c then CooldownSeconds c else CooldownSeconds d)
           | None => d
           end in
  mkBreaker c stateClosed 0 0 false.

Definition nanos : Z := 1000000000.

Definition Allow (now : Z) (cb : CircuitBreaker) : CircuitBreaker * bool :=
  match cb_state cb with
  | stateClosed => (cb, true)
  | stateOpen =>
      if now - cb_openedAt cb <? CooldownSeconds (cb_cfg cb) * nanos then (cb, false)
      else (mkBreaker (cb_cfg cb) stateHalfOpen (cb_failures cb) (cb_openedAt cb) true, true)
  | stateHalfOpen => (cb, false)
  end.

Definition RecordSuccess (cb : CircuitBreaker) : CircuitBreaker :=
  mkBreaker (cb_cfg cb) stateClosed 0 (cb_openedAt cb) false.

Definition RecordFailure (now : Z) (cb : CircuitBreaker) : CircuitBreaker :=
  match cb_state cb with
  | stateHalfOpen => mkBreaker (cb_cfg cb) stateOpen (cb_failures cb) now false
  | st =>
      let n := cb_failures cb + 1 in
      if FailureThreshold (cb_cfg cb) <=? n then mkBreaker (cb_cfg cb) stateOpen n now (cb_inFlight cb)
      else mkBreaker (cb_cfg cb) st n (cb_openedAt cb) (cb_inFlight cb)
  end.

(** ** Configuration *)

Record AuthConfig := mkAuthConfig {
  AuType : string;
  AuAPIKey : string;
  AuBearerToken : string;
  AuClientSecret : string;
  AuSecretRef : string
}.

Record MCPConfig := mkMCPConfig { McURL : string; McTransport : string }.
Record ToolFilter := mkFilter { FAllow : list string; FDeny : list string }.

Record ConnectorConfig := mkConnectorConfig {
  CcAuth : AuthConfig;
  CcMCP : option MCPConfig;
  CcTools : option ToolFilter
}.

Record CachedToken := mkToken {
  AccessToken : string;
  RefreshToken : string;
  TokExpiresAt : Z;
  InstanceURL : string
}.

Record Connector := mkConnector {
  CName : string;
  CConfig : ConnectorConfig;
  cachedToken : option CachedToken;
  breaker : CircuitBreaker
}.

Definition set_breaker (b : CircuitBreaker) (c : Connector) : Connector :=
  mkConnector (CName c) (CConfig c) (cachedToken c) b.

(** ** Tool filters *)

Definition isAllowed (filter : option ToolFilter) (tool : string) : bool :=
  match filter with
  | None => true
  | Some f =>
      if existsb (String.eqb tool) (FDeny f) then false
      else match FAllow f with [] => true | l => existsb (String.eqb tool) l end
  end.

(** The preview of a session; [None]: no list. *)
Definition allowedTools (filter : option ToolFilter) : option (list string) :=
  match filter with
  | Some f => match FAllow f with [] => None | l => Some l end
  | None => None
  end.

(** The entries of a [tools/list] answer that stay. *)
Definition tool_kept (filter : option ToolFilter) (t : any) : bool :=
  match t with
  | AMap m => match string_member (assoc "name" m) with Some name => isAllowed filter name | None => false end
  | _ => false
  end.

Definition put_member (k : string) (v : any) (m : list (string * any)) : list (string * any) :=
  map (λ kv, if String.eqb kv.1 k then (kv.1, v) else kv) m.

(** A document that is no list of tools passes unchanged; a [null] list is empty. *)
Definition filterToolsListResponse (filter : option ToolFilter) (body : any) : any :=
  match filter, body with
  | None, _ => body
  | Some _, AMap resp =>
      match assoc "result" resp with
      | Some (AMap result) =>
          match assoc "tools" result with
          | Some ((ANil | AArr _) as tools) =>
              let l := match tools with AArr l => l | _ => [] end in
              AMap (put_member "result" (AMap (put_member "tools" (AArr (List.filter (tool_kept filter) l)) result)) resp)
          | _ => body
          end
      | _ => body
      end
  | _, _ => body
  end.

(** ** Credentials *)

(** The answers and clock readings one call meets. *)
Record net := mkNet {
  n_secret : option string;                  (* ResolveSecretRef *)
  n_fetch : option CachedToken;              (* the token endpoint *)
  n_forward : option (any * Z);              (* the MCP server: body and status *)
  n_cache : Z;                               (* the clock at the cache check *)
  n_allow : Z; n_allow2 : Z; n_fail : Z; n_fail2 : Z
}.

Inductive conn_err :=
| ENotRegistered | ENoMCP | ETransport | EMcp (e : mcp_err)
| ESecret | ENoSSO | EAuthType | ECircuitOpen | EToken | EForward.

(** What a call sends out: a token request, or a document handed to the MCP transport (one
    POST, or an SDK session that sends the same method, tool and arguments). *)
Inductive outcall := OutToken | OutMCP (token : string) (doc : any).

Definition materializeAuthSecret (secret : option string) (auth : AuthConfig) : option AuthConfig :=
  if String.eqb (TrimSpace (AuSecretRef auth)) "" then Some auth
  else
    match secret with
    | None => None
    | Some s =>
        let t := AuType auth in
        if String.eqb t "api_key" then
          if String.eqb (AuAPIKey auth) "" then Some (mkAuthConfig t s (AuBearerToken auth) (AuClientSecret auth) (AuSecretRef auth)) else None
        else if String.eqb t "bearer" then
          if String.eqb (AuBearerToken auth) "" then Some (mkAuthConfig t (AuAPIKey auth) s (AuClientSecret auth) (AuSecretRef auth)) else None
        else if String.eqb t "oauth2_client_credentials" || String.eqb t "oauth2_token_exchange" then
          if String.eqb (AuClientSecret auth) "" then Some (mkAuthConfig t (AuAPIKey auth) (AuBearerToken auth) s (AuSecretRef auth)) else None
        else None
    end.

Definition StaticCredentialSessionTTL : Z := 3600 * nanos.

(** A network call for a token, guarded by the breaker. *)
Definition guarded_fetch (n : net) (c : Connector) : Connector * res conn_err CachedToken * list outcall :=
  match Allow (n_allow2 n) (breaker c) with
  | (b, false) => (set_breaker b c, Err ECircuitOpen, [])
  | (b, true) =>
      match n_fetch n with
      | None => (set_breaker (RecordFailure (n_fail2 n) b) c, Err EToken, [OutToken])
      | Some t => (set_breaker (RecordSuccess b) c, Ok t, [OutToken])
      end
  end.

Definition getClientCredentialsToken (n : net) (c : Connector) : Connector * res conn_err CachedToken * list outcall :=
  match cachedToken c with
  | Some t => if n_cache n + 60 * nanos <? TokExpiresAt t then (c, Ok t, []) else
      match guarded_fetch n c with
      | (c, Ok t, out) => (mkConnector (CName c) (CConfig c) (Some t) (breaker c), Ok t, out)
      | r => r
      end
  | None =>
      match guarded_fetch n c with
      | (c, Ok t, out) => (mkConnector (CName c) (CConfig c) (Some t) (breaker c), Ok t, out)
      | r => r
      end
  end.

(** [sso] is the user context's token, empty when absent. *)
Definition getToken (n : net) (sso : string) (c : Connector) : Connector * res conn_err CachedToken * list outcall :=
  match materializeAuthSecret (n_secret n) (CcAuth (CConfig c)) with
  | None => (c, Err ESecret, [])
  | Some auth =>
      let static s := (c, Ok (mkToken s "" (n_cache n + StaticCredentialSessionTTL) ""), []) in
      if String.eqb (AuType auth) "api_key" then static (AuAPIKey auth)
      else if String.eqb (AuType auth) "bearer" then static (AuBearerToken auth)
      else if String.eqb (AuType auth) "oauth2_client_credentials" then getClientCredentialsToken n c
      else if String.eqb (AuType auth) "oauth2_token_exchange" then
        if String.eqb sso "" then (c, Err ENoSSO, []) else guarded_fetch n c
      else (c, Err EAuthType, [])
  end.

(** ** Sessions *)

Record SessionResponse := mkSession {
  SrCredentials : option (list (string * string));
  SrExpiresAt : Z;
  SrMCP : option (string * option (list string))      (* proxy path, preview *)
}.

Notation Registry := (gmap string Connector).

Definition GetSession (n : net) (sso name : string) (r : Registry) : Registry * res conn_err SessionResponse * list outcall :=
  match r !! name with
  | None => (r, Err ENotRegistered, [])
  | Some c =>
      match getToken n sso c with
      | (c, Err e, out) => (<[name := c]> r, Err e, out)
      | (c, Ok t, out) =>
          let opt k v := if String.eqb v "" then [] else [(k, v)] in
          (<[name := c]> r,
           Ok (mkSession
             (match CcMCP (CConfig c) with
              | None => Some ([("access_token", AccessToken t)] ++ opt "instance_url" (InstanceURL t)
                              ++ opt "refresh_token" (RefreshToken t))%list
              | Some _ => None
              end)
             (TokExpiresAt t)
             (match CcMCP (CConfig c) with
              | Some _ => Some ("/internal/connectors/" +:+ name +:+ "/mcp", allowedTools (CcTools (CConfig c)))
              | None => None
              end)), out)
      end
  end.

(** ** The MCP proxy *)

Inductive proxied :=
| PDenied (tool : string)            (* a JSON-RPC error, nothing sent *)
| PAnswer (body : any) (status : Z).

Definition known_transport (t : string) : bool :=
  String.eqb t "" || String.eqb t "json" || String.eqb t "streamable_http".

Section proxy.
Variable lex : list ascii → option (list jtok).

(** A request that passed the filter. *)
Definition forward (n : net) (sso : string) (req : MCPRequest) (c : Connector)
  : Connector * res conn_err proxied * list outcall :=
  match Allow (n_allow n) (breaker c) with
  | (b, false) => (set_breaker b c, Err ECircuitOpen, [])
  | (b, true) =>
      match getToken n sso (set_breaker b c) with
      | (c, Err e, out) => (set_breaker (RecordFailure (n_fail n) (breaker c)) c, Err e, out)
      | (c, Ok t, out) =>
          let out := (out ++ [OutMCP (AccessToken t) (RqBody req)])%list in
          match n_forward n with
          | None => (set_breaker (RecordFailure (n_fail n) (breaker c)) c, Err EForward, out)
          | Some (body, status) =>
              (set_breaker (RecordSuccess (breaker c)) c,
               Ok (PAnswer (if String.eqb (RqMethod req) "tools/list"
                            then filterToolsListResponse (CcTools (CConfig c)) body else body) status), out)
          end
      end
  end.

Definition ProxyMCPRequest (n : net) (sso name body : string) (r : Registry)
  : Registry * res conn_err proxied * list outcall :=
  match r !! name with
  | None => (r, Err ENotRegistered, [])
  | Some c =>
      match CcMCP (CConfig c) with
      | None => (r, Err ENoMCP, [])
      | Some mcp =>
          if negb (known_transport (McTransport mcp)) then (r, Err ETransport, [])
          else
            match ParseMCPRequest lex body with
            | Err e => (r, Err (EMcp e), [])
            | Ok req =>
                if String.eqb (RqMethod req) "tools/call"
                   && (String.eqb (RqTool req) "" || negb (isAllowed (CcTools (CConfig c)) (RqTool req)))
                then (r, Ok (PDenied (RqTool req)), [])
                else
                  match forward n sso req c with
                  | (c, res, out) => (<[name := c]> r, res, out)
                  end
            end
      end
  end.
End proxy.

(** ** Capabilities of MCP sessions *)

Definition ConnectorSessionTTL : Z := 900 * nanos.

Record ConnectorSession := mkCapability {
  CsToken : string;
  CsConnector : string;
  CsRunID : string;
  CsGeneration : Z;
  CsTenantID : string;
  CsAgentID : string;
  CsExpires : Z
}.

Record SessionStore := mkSessions { ss_sessions : gmap string ConnectorSession; ss_ttl : Z }.

Definition NewMemoryConnectorSessionStore (ttl : Z) : SessionStore :=
  mkSessions ∅ (if ttl <=? 0 then ConnectorSessionTTL else ttl).

(** [tok] is random; [None]: no randomness. *)
Definition session_create (now : Z) (tok : option string) (connector runID : string) (generation : Z)
    (tenantID agentID : string) (s : SessionStore) : SessionStore * option ConnectorSession :=
  match tok with
  | None => (s, None)
  | Some t =>
      let sess := mkCapability t connector runID generation tenantID agentID (now + ss_ttl s) in
      (mkSessions (<[t := sess]> (ss_sessions s)) (ss_ttl s), Some sess)
  end.

Definition session_get (now : Z) (token : string) (s : SessionStore) : SessionStore * option ConnectorSession :=
  if String.eqb token "" then (s, None)
  else
    match ss_sessions s !! token with
    | None => (s, None)
    | Some sess =>
        if CsExpires sess <? now then (mkSessions (delete token (ss_sessions s)) (ss_ttl s), None)
        else (s, Some sess)
    end.

Definition session_delete (token : string) (s : SessionStore) : SessionStore :=
  if String.eqb token "" then s else mkSessions (delete token (ss_sessions s)) (ss_ttl s).

Definition session_sweep (now : Z) (s : SessionStore) : SessionStore :=
  mkSessions (filter (λ kv, now ≤ CsExpires kv.2) (ss_sessions s)) (ss_ttl s).

(** The caller's run and attempt, [None] without a binding; the answer is the HTTP status of
    a refusal. *)
Definition requireConnectorSession (now : Z) (header : string) (binding : option (string * Z)) (connector : string)
    (s : SessionStore) : SessionStore * res Z unit :=
  let token := TrimSpace header in
  if String.eqb token "" then (s, Err 401)
  else
    match session_get now token s with
    | (s, None) => (s, Err 401)
    | (s, Some sess) =>
        match binding with
        | None => (s, Err 401)
        | Some (run, generation) =>
            if negb (String.eqb (CsConnector sess) connector) || negb (String.eqb (CsRunID sess) run)
               || negb (CsGeneration sess =? generation)
            then (s, Err 403) else (s, Ok tt)
        end
    end.
