(* ===== verification/ConnectorProps.v ===== *)
(** * Properties of the connectors

    The tool filter decides what reaches a connector's server, a capability admits
    its own run only and not for long, and how the circuit breaker behaves under
    the proxy, which asks it twice. *)

From Stdlib Require Import Ascii String.
From S2P Require Import Prelude GoStrings GoAny JsonNumber Predicates Surrogates PolicyArgs McpRequest Connector.
Local Open Scope string_scope.
Local Open Scope Z_scope.

(** ** The tool filter *)

Lemma getToken_config n sso c c' t out :
  getToken n sso c = (c', t, out) → CConfig c' = CConfig c ∧ Forall (λ o, o = OutToken) out.
Proof.
  assert (Hg : ∀ c c' t out, guarded_fetch n c = (c', t, out) → CConfig c' = CConfig c ∧ Forall (λ o, o = OutToken) out).
  { intros c0 c0' t0 out0. unfold guarded_fetch. destruct (Allow _ _) as [b []]; [destruct (n_fetch n)|];
      intros [= <- <- <-]; (split; [done|repeat constructor]). }
  assert (Hcc : ∀ c c' t out, match guarded_fetch n c with
      | (c, Ok t, out) => (mkConnector (CName c) (CConfig c) (Some t) (breaker c), Ok t, out) | r => r end = (c', t, out) →
      CConfig c' = CConfig c ∧ Forall (λ o, o = OutToken) out).
  { intros c0 c0' t0 out0. destruct (guarded_fetch n c0) as [[c1 [t1|]] o1] eqn:E; apply Hg in E as [<- E]; by intros [= <- <- <-]. }
  unfold getToken. destruct (materializeAuthSecret _ _) as [auth|]; [|intros [= <- <- <-]; split; [done|constructor]].
  repeat (destruct (String.eqb _ _); [|]); try (intros [= <- <- <-]; split; [done|constructor]); eauto.
  unfold getClientCredentialsToken. destruct (cachedToken c); [|eauto].
  destruct (_ <? _); [|eauto]. intros [= <- <- <-]; split; [done|constructor].
Qed.

(** What a forwarded request sends to the server is its own document. *)
Lemma forward_sends n sso req c c' res out t doc :
  forward n sso req c = (c', res, out) → OutMCP t doc ∈ out → doc = RqBody req.
Proof.
  unfold forward. destruct (Allow _ _) as [b []]; [|intros [= _ _ <-] ?%not_elem_of_nil; done].
  destruct (getToken n sso _) as [[c1 [tok|e]] out1] eqn:E; apply getToken_config in E as [_ Ho];
    rewrite list.Forall_forall in Ho.
  - assert (Hin : OutMCP t doc ∈ (out1 ++ [OutMCP (AccessToken tok) (RqBody req)])%list → doc = RqBody req).
    { intros [H|H]%elem_of_app; [by apply Ho in H|]. apply list_elem_of_singleton in H. congruence. }
    destruct (n_forward n) as [[body st]|]; intros [= _ _ <-]; done.
  - intros [= _ _ <-] H. by apply Ho in H.
Qed.

Section proxy.
Variable lex : list ascii → option (list jtok).
Context (Hlex : ∀ data ts, lex data = Some ts → Forall scalar_ok ts ∧ json_text data).

(** C9. The tool filter cannot be talked around: whatever document the proxy sends to a
    connector's server, if a reader that ignores the case of keys can take it for a
    tool call, every tool it can read there is named and allowed by the connector's
    filter. *)
Theorem forwarded_tool_is_allowed n sso name body r r' res out t doc tool :
  ProxyMCPRequest lex n sso name body r = (r', res, out) → OutMCP t doc ∈ out →
  reads_method doc "tools/call" → reads_tool doc tool →
  tool ≠ "" ∧ ∃ c, r !! name = Some c ∧ isAllowed (CcTools (CConfig c)) tool = true.
Proof using Hlex.
  unfold ProxyMCPRequest. intros H Hin Hm Ht.
  destruct (r !! name) as [c|] eqn:Hc; [|by injection H as _ _ <-; apply not_elem_of_nil in Hin].
  destruct (CcMCP (CConfig c)) as [mcp|]; [|by injection H as _ _ <-; apply not_elem_of_nil in Hin].
  destruct (negb _); [by injection H as _ _ <-; apply not_elem_of_nil in Hin|].
  destruct (ParseMCPRequest lex body) as [req|] eqn:Hp; [|by injection H as _ _ <-; apply not_elem_of_nil in Hin].
  destruct (one_reading lex Hlex body req Hp) as [Hmeth Htool].
  destruct (_ && _) eqn:Hd; [by injection H as _ _ <-; apply not_elem_of_nil in Hin|].
  destruct (forward n sso req c) as [[c' res'] out'] eqn:Hf. injection H as _ _ <-.
  rewrite (forward_sends _ _ _ _ _ _ _ _ _ Hf Hin) in Hm, Ht.
  apply Hmeth in Hm. rewrite <- Hm in Hd. rewrite (Htool (eq_sym Hm) _ Ht). simpl in Hd.
  apply orb_false_iff in Hd as [Hne%String.eqb_neq Hall%negb_false_iff]. split; [done|]. by exists c.
Qed.

(** A [tools/list] answer under a filter lists allowed tools only, in the server's order. *)
Lemma listed_tools_allowed f result resp l :
  assoc "result" resp = Some (AMap result) → assoc "tools" result = Some (AArr l) →
  filterToolsListResponse (Some f) (AMap resp)
  = AMap (put_member "result" (AMap (put_member "tools" (AArr (List.filter (tool_kept (Some f)) l)) result)) resp).
Proof. intros Hr Ht. unfold filterToolsListResponse. by rewrite Hr, Ht. Qed.

(** ** The breaker under the proxy *)

(** A run of proxied calls to one connector, and everything it sent out. *)
Fixpoint proxy_all (name : string) (calls : list (net * string * string)) (r : Registry) : Registry * list outcall :=
  match calls with
  | [] => (r, [])
  | (n, sso, body) :: calls =>
      let '(r, _, out) := ProxyMCPRequest lex n sso name body r in
      let (r, outs) := proxy_all name calls r in
      (r, (out ++ outs)%list)
  end.

(** A call changes the connector by forwarding a request, or not at all. *)
Lemma proxy_cases n sso name body r c :
  r !! name = Some c →
  (∃ res, ProxyMCPRequest lex n sso name body r = (r, res, [])) ∨
  (∃ req, ProxyMCPRequest lex n sso name body r
     = (<[name := (forward n sso req c).1.1]> r, (forward n sso req c).1.2, (forward n sso req c).2)).
Proof.
  intros Hc. unfold ProxyMCPRequest. rewrite Hc. destruct (CcMCP _); [|eauto]. destruct (negb _); [eauto|].
  destruct (ParseMCPRequest lex body) as [req|]; [|eauto]. destruct (_ && _); [eauto|].
  right. exists req. by destruct (forward n sso req c) as [[??]?].
Qed.

Definition exchange (c : Connector) : Prop := AuType (CcAuth (CConfig c)) = "oauth2_token_exchange".

Lemma materialize_type s a a' : materializeAuthSecret s a = Some a' → AuType a' = AuType a.
Proof.
  unfold materializeAuthSecret. destruct (String.eqb _ ""); [by intros [= <-]|]. destruct s as [s|]; [|done].
  repeat case_match; intros; simplify_eq; done.
Qed.

(** The token of an exchanging connector: a guarded network call or nothing. *)
Lemma getToken_exchange n sso c :
  exchange c →
  (∃ e, getToken n sso c = (c, Err e, [])) ∨ getToken n sso c = guarded_fetch n c.
Proof.
  intros Hx. unfold getToken. destruct (materializeAuthSecret _ _) as [a|] eqn:Hm; [|eauto].
  apply materialize_type in Hm. rewrite Hm, Hx. simpl. destruct (String.eqb sso ""); eauto.
Qed.

Lemma forward_open n sso req c :
  exchange c → cb_state (breaker c) = stateOpen →
  let '(c', _, out) := forward n sso req c in
  out = [] ∧ CConfig c' = CConfig c ∧ cb_state (breaker c') = stateOpen.
Proof.
  intros Hx Ho. unfold forward, Allow. rewrite Ho. destruct (_ <? _); [by simpl|].
  set (b := mkBreaker _ stateHalfOpen _ _ _).
  destruct (getToken_exchange n sso (set_breaker b c) Hx) as [[e ->]| ->]; [done|].
  unfold guarded_fetch. simpl. done.
Qed.

(** An open breaker of a connector that exchanges tokens never closes through the
    proxy: each trial call asks the breaker a second time for its token, is refused
    by its own trial and restarts the cooldown.  However often and however late the
    proxy is called, and however healthy the servers are, nothing is sent and the breaker
    stays open. *)
Theorem open_breaker_stays_open name calls r c :
  r !! name = Some c → exchange c → cb_state (breaker c) = stateOpen →
  (proxy_all name calls r).2 = [] ∧
  ∃ c', (proxy_all name calls r).1 !! name = Some c' ∧ cb_state (breaker c') = stateOpen.
Proof.
  revert r c. induction calls as [|[[n sso] body] calls IH]; intros r c Hc Hx Ho; simpl; [eauto|].
  destruct (proxy_cases n sso name body r c Hc) as [[res ->]|[req ->]].
  - destruct (proxy_all name calls r) as [r2 outs] eqn:E. pose proof (IH r c Hc Hx Ho) as H. by rewrite E in H.
  - pose proof (forward_open n sso req c Hx Ho) as Hf.
    destruct (forward n sso req c) as [[c1 res] out]. destruct Hf as (->&Hcfg&Ho1). simpl.
    destruct (proxy_all name calls (<[name:=c1]> r)) as [r2 outs] eqn:E.
    assert (Hx1 : exchange c1) by (unfold exchange; by rewrite Hcfg).
    pose proof (IH (<[name:=c1]> r) c1 (lookup_insert_eq r name c1) Hx1 Ho1) as H. by rewrite E in H.
Qed.

(** A working network for the tokens of one call. *)
Definition tokens_work (c : Connector) (n : net) (sso : string) : Prop :=
  is_Some (n_fetch n) ∧ sso ≠ "" ∧ is_Some (materializeAuthSecret (n_secret n) (CcAuth (CConfig c))).

Lemma forward_closed n sso req c :
  exchange c → cb_state (breaker c) = stateClosed → tokens_work c n sso → 1 < FailureThreshold (cb_cfg (breaker c)) →
  let '(c', _, _) := forward n sso req c in
  CConfig c' = CConfig c ∧ cb_cfg (breaker c') = cb_cfg (breaker c) ∧ cb_state (breaker c') = stateClosed.
Proof.
  intros Hx Ho ([t Ht]&Hsso&[a Ha]) Hth. unfold forward, Allow. rewrite Ho. unfold getToken. simpl. rewrite Ha.
  pose proof (materialize_type _ _ _ Ha) as Hty. rewrite Hty, Hx. simpl.
  apply String.eqb_neq in Hsso. rewrite Hsso. unfold guarded_fetch, Allow. simpl. rewrite Ho, Ht.
  destruct (n_forward n) as [[body st]|]; simpl; [done|]. unfold RecordFailure. simpl.
  rewrite (proj2 (Z.leb_gt _ _)) by lia. done.
Qed.

(** For such a connector the failures of its MCP server never open the breaker: each call's
    own token exchange resets the count. *)
Theorem server_failures_not_counted name calls r c :
  r !! name = Some c → exchange c → cb_state (breaker c) = stateClosed → 1 < FailureThreshold (cb_cfg (breaker c)) →
  Forall (λ k : net * string * string, tokens_work c k.1.1 k.1.2) calls →
  ∃ c', (proxy_all name calls r).1 !! name = Some c' ∧ cb_state (breaker c') = stateClosed.
Proof.
  revert r c. induction calls as [|[[n sso] body] calls IH]; intros r c Hc Hx Ho Hth Hn; simpl; [eauto|].
  apply list.Forall_cons in Hn as [Hn Hns]. simpl in Hn.
  destruct (proxy_cases n sso name body r c Hc) as [[res ->]|[req ->]].
  - destruct (proxy_all name calls r) as [r2 outs] eqn:E. pose proof (IH r c Hc Hx Ho Hth Hns) as H. by rewrite E in H.
  - pose proof (forward_closed n sso req c Hx Ho Hn Hth) as Hf.
    destruct (forward n sso req c) as [[c1 res] out]. destruct Hf as (Hcfg&Hb&Ho1). simpl.
    destruct (proxy_all name calls (<[name:=c1]> r)) as [r2 outs] eqn:E.
    assert (Hx1 : exchange c1) by (unfold exchange; by rewrite Hcfg).
    assert (Hns1 : Forall (λ k : net * string * string, tokens_work c1 k.1.1 k.1.2) calls).
    { eapply list.Forall_impl; [exact Hns|]. intros k. unfold tokens_work. by rewrite Hcfg. }
    pose proof (IH (<[name:=c1]> r) c1 (lookup_insert_eq r name c1) Hx1 Ho1 ltac:(by rewrite Hb) Hns1) as H. by rewrite E in H.
Qed.
End proxy.

(** A session request, which asks once, does close it: after the cooldown, with a working
    token endpoint. *)
Lemma session_closes_breaker n sso name r c a t :
  r !! name = Some c → exchange c → cb_state (breaker c) = stateOpen → sso ≠ "" →
  materializeAuthSecret (n_secret n) (CcAuth (CConfig c)) = Some a → n_fetch n = Some t →
  CooldownSeconds (cb_cfg (breaker c)) * nanos ≤ n_allow2 n - cb_openedAt (breaker c) →
  ∃ c', (GetSession n sso name r).1.1 !! name = Some c' ∧ cb_state (breaker c') = stateClosed.
Proof.
  intros Hc Hx Ho Hs Hm Ht Hcool. unfold GetSession. rewrite Hc. unfold getToken. rewrite Hm.
  apply materialize_type in Hm. rewrite Hm, Hx. simpl. apply String.eqb_neq in Hs. rewrite Hs.
  unfold guarded_fetch, Allow. rewrite Ho. destruct (Z.ltb_spec (n_allow2 n - cb_openedAt (breaker c)) (CooldownSeconds (cb_cfg (breaker c)) * nanos)); [lia|].
  rewrite Ht. simpl. rewrite lookup_insert_eq. eauto.
Qed.

(** A session of a proxied connector carries no credential. *)
Lemma session_hides_credentials n sso name r r' s out c :
  GetSession n sso name r = (r', Ok s, out) → r !! name = Some c → is_Some (CcMCP (CConfig c)) → SrCredentials s = None.
Proof.
  unfold GetSession. intros H Hc Hm. rewrite Hc in H.
  destruct (getToken n sso c) as [[c1 [t|]] o] eqn:E; [|done]. apply getToken_config in E as [Hcfg _].
  injection H as _ <- _. simpl. rewrite Hcfg. by destruct Hm as [m ->].
Qed.

(** ** Capabilities *)

(** The store, and when each capability was minted. *)
Record cworld := mkC { cw_store : SessionStore; cw_mints : list (Z * ConnectorSession) }.

Inductive sess_step : cworld → cworld → Prop :=
| ss_mint w now tok connector run g tenant agent s sess :
    session_create now tok connector run g tenant agent (cw_store w) = (s, Some sess) →
    sess_step w (mkC s ((now, sess) :: cw_mints w))
| ss_get w now token : sess_step w (mkC (session_get now token (cw_store w)).1 (cw_mints w))
| ss_delete w token : sess_step w (mkC (session_delete token (cw_store w)) (cw_mints w))
| ss_sweep w now : sess_step w (mkC (session_sweep now (cw_store w)) (cw_mints w)).

Definition minted (ttl : Z) (w : cworld) : Prop :=
  ss_ttl (cw_store w) = ttl ∧
  map_Forall (λ tok s, ∃ t, (t, s) ∈ cw_mints w ∧ CsExpires s = t + ttl) (ss_sessions (cw_store w)).

Lemma session_get_sub now tok s :
  ss_ttl (session_get now tok s).1 = ss_ttl s ∧ ss_sessions (session_get now tok s).1 ⊆ ss_sessions s.
Proof.
  unfold session_get. destruct (String.eqb tok ""); [done|]. destruct (ss_sessions s !! tok); [|done].
  destruct (_ <? _); [|done]. split; [done|]. apply delete_subseteq.
Qed.

Lemma minted_step ttl w w' : sess_step w w' → minted ttl w → minted ttl w'.
Proof.
  intros Hs [Ht Hm].
  assert (Hsub : ∀ s, ss_ttl s = ss_ttl (cw_store w) → ss_sessions s ⊆ ss_sessions (cw_store w) → minted ttl (mkC s (cw_mints w))).
  { intros s E Hsub. split; [simpl; congruence|]. intros k x Hx. apply (Hm k x). by eapply lookup_weaken. }
  destruct Hs as [w now tok conn run g ten ag s sess Hc|w now token|w token|w now].
  - unfold session_create in Hc. destruct tok as [tok|]; [|done]. injection Hc as <- <-. split; [done|]. simpl.
    apply map_Forall_insert_2.
    + exists now. split; [left|]. simpl. by rewrite Ht.
    + eapply map_Forall_impl; [exact Hm|]. intros k x (t&Hin&He). exists t. split; [by right|done].
  - destruct (session_get_sub now token (cw_store w)). by apply Hsub.
  - unfold session_delete. destruct (String.eqb token ""); [by apply Hsub|]. apply Hsub; [done|]. apply delete_subseteq.
  - apply Hsub; [done|]. apply map_filter_subseteq.
Qed.

(** A capability admits only the run, attempt and connector it was minted for, and for no
    longer than its lifetime, over every history of the store. *)
Theorem capability_bounded ttl w now header run g connector s' :
  rtc sess_step (mkC (NewMemoryConnectorSessionStore ttl) []) w →
  requireConnectorSession now header (Some (run, g)) connector (cw_store w) = (s', Ok tt) →
  ∃ t sess, (t, sess) ∈ cw_mints w ∧ CsConnector sess = connector ∧ CsRunID sess = run ∧ CsGeneration sess = g ∧
    now ≤ t + (if ttl <=? 0 then ConnectorSessionTTL else ttl).
Proof.
  intros Hr H.
  assert (Hm : minted (if ttl <=? 0 then ConnectorSessionTTL else ttl) w).
  { assert (H0 : minted (if ttl <=? 0 then ConnectorSessionTTL else ttl) (mkC (NewMemoryConnectorSessionStore ttl) [])).
    { split; [done|]. apply map_Forall_empty. }
    clear H. induction Hr; eauto using minted_step. }
  unfold requireConnectorSession in H. destruct (String.eqb _ ""); [done|].
  unfold session_get in H. destruct (String.eqb _ ""); [done|].
  destruct (ss_sessions (cw_store w) !! TrimSpace header) as [sess|] eqn:Hl; [|done].
  destruct (Z.ltb_spec (CsExpires sess) now); [done|].
  destruct (String.eqb_spec (CsConnector sess) connector); [|done].
  destruct (String.eqb_spec (CsRunID sess) run); [|done].
  destruct (Z.eqb_spec (CsGeneration sess) g); [|done].
  destruct Hm as [_ Hm]. destruct (Hm _ _ Hl) as (t&Hin&He). exists t, sess. split_and!; try done. lia.
Qed.

(** * The connector theorems on a concrete connector
    A CRM connector whose filter denies one tool, called through the proxy.  *)

Local Open Scope string_scope.
Local Open Scope Z_scope.

Definition text (s : string) : list segment := SByte <$> list_ascii_of_string s.
Definition quoted (s : string) : list segment := [SString (PByte <$> list_ascii_of_string s)].

(** A call of the tool [lookup]. *)
Definition call_doc : list segment :=
  (text "{" ++ quoted "jsonrpc" ++ text ":" ++ quoted "2.0" ++ text "," ++ quoted "method" ++ text ":" ++ quoted "tools/call"
   ++ text "," ++ quoted "params" ++ text ":{" ++ quoted "name" ++ text ":" ++ quoted "lookup" ++ text "}}")%list.

Definition call_bytes : list ascii := call_doc ≫= show_segment.
Definition call_body : string := string_of_list_ascii call_bytes.

Definition call_tokens : list jtok :=
  let s x := TScalar (AStr x) in
  [TOpenObj; s "jsonrpc"; s "2.0"; s "method"; s "tools/call"; s "params"; TOpenObj; s "name"; s "lookup"; TCloseObj; TCloseObj].

Definition call_lex (data : list ascii) : option (list jtok) :=
  if decide (data = call_bytes) then Some call_tokens else None.

Lemma call_lex_ok data ts : call_lex data = Some ts → Forall scalar_ok ts ∧ json_text data.
Proof.
  unfold call_lex. case_decide as E; [|done]. intros [= <-]. split; [repeat constructor|].
  exists call_doc. split; [repeat (constructor || discriminate)|done].
Qed.

Definition crm (auth : string) (b : CircuitBreaker) : Connector :=
  mkConnector "crm" (mkConnectorConfig (mkAuthConfig auth "key" "" "" "")
    (Some (mkMCPConfig "https://crm" "")) (Some (mkFilter [] ["delete_all"]))) None b.

Definition healthy (now : Z) : net :=
  mkNet None (Some (mkToken "tok" "" (now + 3600 * nanos) "")) (Some (AMap [("result", AMap [])], 200)) now now now now now.

Definition call_value : any :=
  AMap [("jsonrpc", AStr "2.0"); ("method", AStr "tools/call"); ("params", AMap [("name", AStr "lookup")])].

Lemma forwarded_tool_is_allowed_witness :
  "lookup" ≠ "" ∧ ∃ c, ({[ "crm" := crm "api_key" (NewCircuitBreaker None) ]} : gmap string Connector) !! "crm" = Some c ∧
    isAllowed (CcTools (CConfig c)) "lookup" = true.
Proof.
  assert (H : ∃ r' res, ProxyMCPRequest call_lex (healthy nanos) "" "crm" call_body {[ "crm" := crm "api_key" (NewCircuitBreaker None) ]}
    = (r', res, [OutMCP "key" call_value])) by (do 2 eexists; vm_compute; reflexivity).
  destruct H as (r'&res&H).
  apply (forwarded_tool_is_allowed call_lex call_lex_ok (healthy nanos) "" "crm" call_body _ r' res _ "key" call_value "lookup" H).
  - left.
  - eexists. split; [reflexivity|]. exists "method". split; [right; left|reflexivity].
  - eexists _, _. split; [reflexivity|]. split.
    + exists "params". split; [right; right; left|reflexivity].
    + exists "name". split; [left|reflexivity].
Defined.

(** Open since second 0 with the default cooldown, called every hour by a healthy user. *)
Definition tripped : CircuitBreaker := mkBreaker DefaultCircuitBreakerConfig stateOpen 5 0 false.

Lemma open_breaker_stays_open_witness :
  (proxy_all call_lex "crm" [(healthy (3600 * nanos), "sso", call_body); (healthy (7200 * nanos), "sso", call_body)]
     {[ "crm" := crm "oauth2_token_exchange" tripped ]}).2 = [].
Proof.
  apply (open_breaker_stays_open call_lex "crm" _ {[ "crm" := crm "oauth2_token_exchange" tripped ]}
           (crm "oauth2_token_exchange" tripped)).
  - apply lookup_singleton_eq.
  - reflexivity.
  - reflexivity.
Defined.
