(* ===== verification/FinOps.v ===== *)
(** * Budgets, prices and their overlays

    Models [internal/finops/{budget,merge,pricebook,validate}.go].  Amounts in
    dollars are IEEE doubles ([GoAny.float64]), counters are int64, Go maps are
    [gmap]s (a nil map and an empty one read alike), a nil [*Config] is [None],
    durations are nanoseconds.  The error values of [ValidateOverlay] carry the
    message without the key and the numbers the source formats into it. *)

From Stdlib Require Import Ascii String SpecFloat.
From S2P Require Import Prelude GoStrings GoAny.
Local Open Scope string_scope.
Local Open Scope Z_scope.

Definition f64 (z : Z) : float64 := f64_of_Z z.
Definition positive (f : float64) : bool := f64_gt f f64_zero.

Record BudgetCap := mkCap {
  MaxUSDPerDay : float64;
  MaxTokensPerDay : Z;
  MaxRunsPerDay : Z;
  Soft : bool
}.

Record ModelPrice := mkPrice { InputPer1k : float64; OutputPer1k : float64 }.
Definition Pricebook : Type := gmap string ModelPrice.

Record ReservationAmount := mkAmount { A_USDPerRun : float64; A_TokensPerRun : Z }.

Record ReservationConfig := mkReservation {
  USDPerRun : float64;
  TokensPerRun : Z;
  HoldTTL : Z;
  ResAgents : gmap string ReservationAmount
}.

Record RoutingConfig := mkRouting {
  RoutingOn : bool;
  RoutingPct : float64;
  Aliases : gmap string (list string)
}.

Record Config := mkConfig {
  Prices : Pricebook;
  TenantCaps : gmap string BudgetCap;
  AgentCaps : gmap string BudgetCap;
  AlertsPct : float64;
  Reservation : ReservationConfig;
  Routing : RoutingConfig;
  OnHardBreach : string
}.

Definition OnHardBreachCancelInflight : string := "cancel_inflight".

(** ** Accessors *)

Definition SoftPct (c : option Config) : float64 :=
  match c with
  | Some c => if positive (AlertsPct c) then AlertsPct c else f64 80
  | None => f64 80
  end.

Definition RoutingSoftPct (c : option Config) : float64 :=
  match c with
  | Some k => if positive (RoutingPct (Routing k)) then RoutingPct (Routing k) else SoftPct c
  | None => SoftPct c
  end.

Definition ReservationEnabled (c : option Config) : bool :=
  match c with
  | None => false
  | Some c =>
      let r := Reservation c in
      if positive (USDPerRun r) || (0 <? TokensPerRun r) then true
      else existsb (λ ka : string * ReservationAmount,
             positive (A_USDPerRun ka.2) || (0 <? A_TokensPerRun ka.2)) (map_to_list (ResAgents r))
  end.

Definition agent_key (tenantID agentID : string) : string := tenantID +:+ "/" +:+ agentID.

Definition ReservationFor (c : option Config) (tenantID agentID : string) : float64 * Z :=
  match c with
  | None => (f64_zero, 0)
  | Some c =>
      let r := Reservation c in
      if String.eqb agentID "" || (size (ResAgents r) =? 0)%nat then (USDPerRun r, TokensPerRun r)
      else match ResAgents r !! agent_key tenantID agentID with
           | Some a => (A_USDPerRun a, A_TokensPerRun a)
           | None => (USDPerRun r, TokensPerRun r)
           end
  end.

Definition CancelInflightOnHardBreach (c : option Config) : bool :=
  match c with
  | Some c => String.eqb (OnHardBreach c) OnHardBreachCancelInflight
  | None => false
  end.

Definition Enabled (c : option Config) : bool :=
  match c with
  | None => false
  | Some c => negb (size (TenantCaps c) =? 0)%nat || negb (size (AgentCaps c) =? 0)%nat
  end.

Definition HasPricebook (c : option Config) : bool :=
  match c with Some c => negb (size (Prices c) =? 0)%nat | None => false end.

Definition LookupCaps (c : option Config) (tenantID agentID : string)
  : option BudgetCap * option BudgetCap :=
  match c with
  | None => (None, None)
  | Some c =>
      (if String.eqb tenantID "" then None else TenantCaps c !! tenantID,
       if String.eqb tenantID "" || String.eqb agentID "" then None
       else AgentCaps c !! agent_key tenantID agentID)
  end.

(** ** Budget verdicts *)

Record UsageSnapshot := mkUsage { TokensIn : Z; TokensOut : Z; USD : float64; Runs : Z }.

(** int64 addition wraps. *)
Definition Tokens (u : UsageSnapshot) : Z := wrap64 (TokensIn u + TokensOut u).

Record BudgetVerdict := mkVerdict {
  VAllow : bool;
  VSoft : bool;
  VHard : bool;
  VReason : string;
  VScope : string;
  VKind : string
}.

Definition allow_verdict : BudgetVerdict := mkVerdict true false false "" "" "".

Definition check_dim (cap : BudgetCap) (scope kind : string) (over : bool) : option BudgetVerdict :=
  if negb over then None
  else
    let reason := scope +:+ " " +:+ kind +:+ " budget exceeded" in
    Some (if negb (Soft cap) then mkVerdict false false true reason scope kind
          else mkVerdict true true false reason scope kind).

Definition usd_over (cap : BudgetCap) (snap : UsageSnapshot) : bool :=
  positive (MaxUSDPerDay cap) && f64_ge (USD snap) (MaxUSDPerDay cap).
Definition tokens_over (cap : BudgetCap) (snap : UsageSnapshot) : bool :=
  (0 <? MaxTokensPerDay cap) && (MaxTokensPerDay cap <=? Tokens snap).
Definition runs_over (cap : BudgetCap) (snap : UsageSnapshot) : bool :=
  (0 <? MaxRunsPerDay cap) && (MaxRunsPerDay cap <=? Runs snap).

(** The three checks in order: a hard verdict returns at once, the first soft one
    is remembered. *)
Fixpoint scan_dims (checks : list (option BudgetVerdict)) (soft : option BudgetVerdict)
  : BudgetVerdict :=
  match checks with
  | [] => match soft with Some v => v | None => allow_verdict end
  | None :: rest => scan_dims rest soft
  | Some v :: rest =>
      if VHard v then v
      else scan_dims rest (match soft with None => Some v | s => s end)
  end.

Definition EvaluateCap (cap : option BudgetCap) (snap : UsageSnapshot) (scope : string)
  : BudgetVerdict :=
  match cap with
  | None => allow_verdict
  | Some cap =>
      scan_dims [check_dim cap scope "usd" (usd_over cap snap);
                 check_dim cap scope "tokens" (tokens_over cap snap);
                 check_dim cap scope "runs" (runs_over cap snap)] None
  end.

Definition approach_dim (scope kind : string) (frac used max : float64) : option BudgetVerdict :=
  if f64_le max f64_zero || f64_lt used (f64_mul max frac) || f64_ge used max then None
  else Some (mkVerdict true true false (scope +:+ " " +:+ kind +:+ " budget approaching") scope kind).

Definition ApproachCap (cap : option BudgetCap) (snap : UsageSnapshot) (scope : string)
    (softPct : float64) : option BudgetVerdict :=
  match cap with
  | None => None
  | Some cap =>
      if Soft cap then None
      else
        let softPct := if f64_le softPct f64_zero then f64 80 else softPct in
        let softPct := if f64_gt softPct (f64 100) then f64 100 else softPct in
        let frac := f64_div softPct (f64 100) in
        match approach_dim scope "usd" frac (USD snap) (MaxUSDPerDay cap) with
        | Some v => Some v
        | None =>
            match approach_dim scope "tokens" frac (f64 (Tokens snap)) (f64 (MaxTokensPerDay cap)) with
            | Some v => Some v
            | None => approach_dim scope "runs" frac (f64 (Runs snap)) (f64 (MaxRunsPerDay cap))
            end
        end
  end.

Definition day_ns : Z := 86400 * 1000000000.

Definition UTCDayWindow (t : Z) : Z * Z := (t - t mod day_ns, t - t mod day_ns + day_ns).

(** ** Prices *)

Definition price_lookup (p : Pricebook) (model : string) : option ModelPrice :=
  if (size p =? 0)%nat || String.eqb model "" then None
  else match p !! model with
       | Some mp => Some mp
       | None =>
           match LastIndexByte model "/" with
           | Some i => if (S i <? String.length model)%nat then p !! str_drop (S i) model else None
           | None => None
           end
       end.

Definition HasModel (p : Pricebook) (model : string) : bool :=
  match price_lookup p model with Some _ => true | None => false end.

Definition EstimateUSD (p : Pricebook) (model : string) (tokensIn tokensOut : Z) (costUSD : float64)
  : float64 :=
  if positive costUSD then costUSD
  else match price_lookup p model with
       | None => f64_zero
       | Some mp =>
           let price tokens rate := f64_mul (f64_div (f64 tokens) (f64 1000)) rate in
           let usd := f64_zero in
           let usd := if (0 <? tokensIn) && negb (f64_eq (InputPer1k mp) f64_zero)
                      then f64_add usd (price tokensIn (InputPer1k mp)) else usd in
           if (0 <? tokensOut) && negb (f64_eq (OutputPer1k mp) f64_zero)
           then f64_add usd (price tokensOut (OutputPer1k mp)) else usd
       end.

(** ** Overlays *)

Definition Clone (cfg : option Config) : option Config :=
  match cfg with
  | None => None
  | Some c =>
      Some (mkConfig (Prices c) (TenantCaps c) (AgentCaps c) (AlertsPct c)
        (mkReservation (USDPerRun (Reservation c)) (TokensPerRun (Reservation c))
           (HoldTTL (Reservation c)) (ResAgents (Reservation c)))
        (mkRouting (RoutingOn (Routing c)) (RoutingPct (Routing c)) (Aliases (Routing c)))
        (OnHardBreach c))
  end.

Definition merge_reservation (out o : ReservationConfig) : ReservationConfig :=
  if positive (USDPerRun o) || (0 <? TokensPerRun o) || (0 <? HoldTTL o)
     || negb (size (ResAgents o) =? 0)%nat
  then mkReservation
         (if positive (USDPerRun o) then USDPerRun o else USDPerRun out)
         (if 0 <? TokensPerRun o then TokensPerRun o else TokensPerRun out)
         (if 0 <? HoldTTL o then HoldTTL o else HoldTTL out)
         (ResAgents o ∪ ResAgents out)
  else out.

Definition merge_routing (out o : RoutingConfig) : RoutingConfig :=
  if RoutingOn o || positive (RoutingPct o) || negb (size (Aliases o) =? 0)%nat
  then mkRouting
         (if RoutingOn o then true else RoutingOn out)
         (if positive (RoutingPct o) then RoutingPct o else RoutingPct out)
         (Aliases o ∪ Aliases out)
  else out.

Definition Merge (base overlay : option Config) : option Config :=
  match overlay with
  | None => Clone base
  | Some o =>
      match base with
      | None => Clone overlay
      | Some b =>
          Some (mkConfig (Prices o ∪ Prices b) (TenantCaps o ∪ TenantCaps b) (AgentCaps o ∪ AgentCaps b)
            (if positive (AlertsPct o) then AlertsPct o else AlertsPct b)
            (merge_reservation (Reservation b) (Reservation o))
            (merge_routing (Routing b) (Routing o))
            (if negb (String.eqb (OnHardBreach o) "") then OnHardBreach o else OnHardBreach b))
      end
  end.

(** ** Validation of administrative patches *)

Definition maxPer1kUSD : float64 := f64 100.
Definition maxBudgetUSDDay : float64 := f64 1000000.
Definition maxBudgetTokens : Z := 1000000000.
Definition maxBudgetRuns : Z := 10000000.
Definition maxHoldUSD : float64 := f64 10000.
Definition maxHoldTokens : Z := 10000000.

Definition bad_amount (f : float64) : bool := f64_is_nan f || f64_is_inf f || f64_lt f f64_zero.

Definition check_price (model : string) (p : ModelPrice) : option string :=
  let model := TrimSpace model in
  if String.eqb model "" then Some "pricebook model id must be non-empty"
  else if bad_amount (InputPer1k p) then Some "input_per_1k must be a finite number >= 0"
  else if bad_amount (OutputPer1k p) then Some "output_per_1k must be a finite number >= 0"
  else if f64_gt (InputPer1k p) maxPer1kUSD || f64_gt (OutputPer1k p) maxPer1kUSD
  then Some "rate exceeds 100 USD per 1k tokens (likely typo)"
  else if positive (InputPer1k p) && positive (OutputPer1k p)
          && f64_gt (InputPer1k p) (f64_mul (OutputPer1k p) (f64 20))
  then Some "input_per_1k is >20x output_per_1k - check swapped rates"
  else None.

Definition check_cap (c : BudgetCap) : option string :=
  if bad_amount (MaxUSDPerDay c) then Some "max_usd_per_day must be a finite number >= 0"
  else if f64_gt (MaxUSDPerDay c) maxBudgetUSDDay then Some "max_usd_per_day exceeds the ceiling"
  else if (MaxTokensPerDay c <? 0) || (maxBudgetTokens <? MaxTokensPerDay c)
  then Some "max_tokens_per_day out of range"
  else if (MaxRunsPerDay c <? 0) || (maxBudgetRuns <? MaxRunsPerDay c)
  then Some "max_runs_per_day out of range"
  else None.

Definition bad_agent_key (k : string) : bool :=
  String.eqb (TrimSpace k) "" || negb (Contains k "/").

Definition check_tenant_cap (k : string) (c : BudgetCap) : option string :=
  if String.eqb (TrimSpace k) "" then Some "budgets.tenants key must be non-empty" else check_cap c.

Definition check_agent_cap (k : string) (c : BudgetCap) : option string :=
  if bad_agent_key k then Some "budgets.agents key must be tenant_id/agent_id" else check_cap c.

Definition check_hold (k : string) (a : ReservationAmount) : option string :=
  if bad_agent_key k then Some "reservation.agents key must be tenant_id/agent_id"
  else if f64_lt (A_USDPerRun a) f64_zero || f64_gt (A_USDPerRun a) maxHoldUSD
          || (A_TokensPerRun a <? 0) || (maxHoldTokens <? A_TokensPerRun a)
  then Some "reservation.agents amounts out of range"
  else None.

Definition check_alias (alias : string) (targets : list string) : option string :=
  if String.eqb (TrimSpace alias) "" then Some "routing.aliases key must be non-empty"
  else if (length targets =? 0)%nat then Some "routing.aliases needs at least one target agent_id"
  else if existsb (λ t, String.eqb (TrimSpace t) "") targets
  then Some "routing.aliases has an empty target"
  else None.

(** The first error of a loop over a map (Go visits it in some order). *)
Definition check_all {V} (f : string → V → option string) (m : gmap string V) : option string :=
  foldr (λ kv acc, match f kv.1 kv.2 with Some e => Some e | None => acc end) None (map_to_list m).

Definition or_else (a b : option string) : option string := match a with Some e => Some e | None => b end.

Definition out_of_pct (f : float64) : bool := f64_lt f f64_zero || f64_gt f (f64 100).

Definition ValidateOverlay (cfg : option Config) : option string :=
  match cfg with
  | None => Some "overlay payload is required"
  | Some c =>
      let r := Reservation c in
      or_else (check_all check_price (Prices c))
      (or_else (check_all check_tenant_cap (TenantCaps c))
      (or_else (check_all check_agent_cap (AgentCaps c))
      (if out_of_pct (AlertsPct c) then Some "alerts.soft_pct must be in [0,100]"
       else if f64_lt (USDPerRun r) f64_zero || f64_gt (USDPerRun r) maxHoldUSD
       then Some "reservation.usd_per_run out of range"
       else if (TokensPerRun r <? 0) || (maxHoldTokens <? TokensPerRun r)
       then Some "reservation.tokens_per_run out of range"
       else if HoldTTL r <? 0 then Some "reservation.hold_ttl must be >= 0"
       else
         or_else (check_all check_hold (ResAgents r))
         (if out_of_pct (RoutingPct (Routing c)) then Some "routing.soft_pct must be in [0,100]"
          else or_else (check_all check_alias (Aliases (Routing c)))
               (if String.eqb (OnHardBreach c) ""
                   || String.eqb (OnHardBreach c) OnHardBreachCancelInflight
                then None else Some "on_hard_breach must be empty or cancel_inflight")))))
  end.

(** ** Properties *)

Lemma scan_hard cap scope d1 d2 d3 :
  Soft cap = false →
  scan_dims [check_dim cap scope "usd" d1; check_dim cap scope "tokens" d2;
             check_dim cap scope "runs" d3] None
  = if d1 then mkVerdict false false true (scope +:+ " " +:+ "usd" +:+ " budget exceeded") scope "usd"
    else if d2 then mkVerdict false false true (scope +:+ " " +:+ "tokens" +:+ " budget exceeded") scope "tokens"
    else if d3 then mkVerdict false false true (scope +:+ " " +:+ "runs" +:+ " budget exceeded") scope "runs"
    else allow_verdict.
Proof. intros E. unfold check_dim. rewrite E. by destruct d1, d2, d3. Qed.

Lemma scan_soft cap scope d1 d2 d3 :
  Soft cap = true →
  scan_dims [check_dim cap scope "usd" d1; check_dim cap scope "tokens" d2;
             check_dim cap scope "runs" d3] None
  = if d1 then mkVerdict true true false (scope +:+ " " +:+ "usd" +:+ " budget exceeded") scope "usd"
    else if d2 then mkVerdict true true false (scope +:+ " " +:+ "tokens" +:+ " budget exceeded") scope "tokens"
    else if d3 then mkVerdict true true false (scope +:+ " " +:+ "runs" +:+ " budget exceeded") scope "runs"
    else allow_verdict.
Proof. intros E. unfold check_dim. rewrite E. by destruct d1, d2, d3. Qed.

(** A budget check denies exactly when a hard cap is reached in some
    dimension (dollars, tokens or runs), and warns exactly when a soft cap is;
    an absent cap, or a zero limit in a dimension, never denies or warns. *)
Theorem EvaluateCap_verdict cap snap scope :
  let v := EvaluateCap cap snap scope in
  match cap with
  | None => v = allow_verdict
  | Some c =>
      let over := usd_over c snap || tokens_over c snap || runs_over c snap in
      VAllow v = negb (over && negb (Soft c)) ∧ VHard v = over && negb (Soft c) ∧
      VSoft v = over && Soft c ∧ (over = true → VScope v = scope)
  end.
Proof.
  destruct cap as [c|]; [|done]. cbv zeta. unfold EvaluateCap. destruct (Soft c) eqn:E.
  - rewrite scan_soft by done.
    by destruct (usd_over c snap), (tokens_over c snap), (runs_over c snap).
  - rewrite scan_hard by done.
    by destruct (usd_over c snap), (tokens_over c snap), (runs_over c snap).
Qed.

Lemma map_union_empty_size {V} (o b : gmap string V) : (size o =? 0)%nat = true → o ∪ b = b.
Proof. intros H. apply Nat.eqb_eq, map_size_empty_inv in H as ->. by rewrite (left_id_L ∅ (∪)). Qed.

(** The overlay conditions only skip work. *)
Lemma merge_reservation_eq out o :
  merge_reservation out o =
  mkReservation (if positive (USDPerRun o) then USDPerRun o else USDPerRun out)
    (if 0 <? TokensPerRun o then TokensPerRun o else TokensPerRun out)
    (if 0 <? HoldTTL o then HoldTTL o else HoldTTL out) (ResAgents o ∪ ResAgents out).
Proof.
  unfold merge_reservation. destruct (positive (USDPerRun o)); simpl; [done|].
  destruct (0 <? TokensPerRun o); simpl; [done|]. destruct (0 <? HoldTTL o); simpl; [done|].
  destruct (size (ResAgents o) =? 0)%nat eqn:E; simpl; [|done].
  rewrite (map_union_empty_size _ _ E). by destruct out.
Qed.

Lemma merge_routing_eq out o :
  merge_routing out o =
  mkRouting (RoutingOn o || RoutingOn out)
    (if positive (RoutingPct o) then RoutingPct o else RoutingPct out) (Aliases o ∪ Aliases out).
Proof.
  unfold merge_routing. destruct (RoutingOn o); simpl; [done|].
  destruct (positive (RoutingPct o)); simpl; [done|].
  destruct (size (Aliases o) =? 0)%nat eqn:E; simpl; [|done].
  rewrite (map_union_empty_size _ _ E). by destruct out.
Qed.

Lemma Clone_id c : Clone c = c.
Proof. by destruct c as [[? ? ? ? [] [] ?]|]. Qed.

(** "Keep the overlay's value when it is set" is associative. *)
Lemma pick_assoc {A} (set : A → bool) (c b a : A) :
  (if set c then c else if set b then b else a) =
  (if set (if set c then c else b) then (if set c then c else b) else a).
Proof. destruct (set c) eqn:E; by rewrite ?E. Qed.

(** Overlays compose: applying a stored overlay and then a patch to the
    configuration file equals applying the overlay already merged with the patch,
    so the two ways the server folds overlays agree; nil is neutral on both
    sides. *)
Theorem Merge_assoc a b c :
  Merge (Merge a b) c = Merge a (Merge b c) ∧ Merge a None = a ∧ Merge None a = a.
Proof.
  split; [|split; [by apply Clone_id|destruct a; apply Clone_id]].
  destruct a as [a|], b as [b|], c as [c|]; unfold Merge; rewrite ?Clone_id; try done.
  rewrite !merge_reservation_eq, !merge_routing_eq; simpl.
  f_equal. f_equal; rewrite ?(assoc_L (∪)), ?orb_assoc; try done.
  - apply (pick_assoc positive).
  - f_equal; [apply (pick_assoc positive)|apply (pick_assoc (λ z, 0 <? z))..].
  - f_equal; [apply (pick_assoc positive)].
  - apply (pick_assoc (λ s, negb (String.eqb s ""))).
Qed.

Lemma check_all_ok {V} (f : string → V → option string) m :
  check_all f m = None ↔ map_Forall (λ k v, f k v = None) m.
Proof.
  unfold check_all. rewrite map_Forall_to_list.
  induction (map_to_list m) as [|[k v] l IH]; simpl; [by split|].
  rewrite list.Forall_cons, <- IH; simpl. destruct (f k v); split; [done|by intros []|done|by intros []].
Qed.

Lemma check_all_union {V} (f : string → V → option string) m1 m2 :
  check_all f m1 = None → check_all f m2 = None → check_all f (m1 ∪ m2) = None.
Proof. rewrite !check_all_ok. apply map_Forall_union_2. Qed.

Lemma or_else_none a b : or_else a b = None ↔ a = None ∧ b = None.
Proof. destruct a; simpl; split; [done|by intros []|done|by intros []]. Qed.

Lemma if_none (b : bool) (e : string) r : (if b then Some e else r) = None ↔ b = false ∧ r = None.
Proof. destruct b; split; [done|by intros []|done|by intros []]. Qed.

(** The scalar checks of [ValidateOverlay], one predicate per field. *)
Definition usd_hold_ok (f : float64) : Prop := f64_lt f f64_zero || f64_gt f maxHoldUSD = false.
Definition tokens_hold_ok (z : Z) : Prop := (z <? 0) || (maxHoldTokens <? z) = false.
Definition breach_ok (s : string) : Prop :=
  String.eqb s "" || String.eqb s OnHardBreachCancelInflight = true.

Record overlay_ok (c : Config) : Prop := {
  ok_prices : check_all check_price (Prices c) = None;
  ok_tenants : check_all check_tenant_cap (TenantCaps c) = None;
  ok_agents : check_all check_agent_cap (AgentCaps c) = None;
  ok_alerts : out_of_pct (AlertsPct c) = false;
  ok_usd : usd_hold_ok (USDPerRun (Reservation c));
  ok_tokens : tokens_hold_ok (TokensPerRun (Reservation c));
  ok_ttl : (HoldTTL (Reservation c) <? 0) = false;
  ok_holds : check_all check_hold (ResAgents (Reservation c)) = None;
  ok_pct : out_of_pct (RoutingPct (Routing c)) = false;
  ok_aliases : check_all check_alias (Aliases (Routing c)) = None;
  ok_breach : breach_ok (OnHardBreach c)
}.

Lemma ValidateOverlay_ok c : ValidateOverlay (Some c) = None ↔ overlay_ok c.
Proof.
  unfold ValidateOverlay. cbv zeta. rewrite !or_else_none, !if_none, !or_else_none, !if_none, !or_else_none.
  assert (∀ (b : bool) (e : string), (if b then None else Some e) = None ↔ b = true) as HB
    by (intros [] ?; by split).
  rewrite HB. split.
  - intros (?&?&?&?&?&?&?&?&?&?&?). by constructor.
  - intros []. by repeat split.
Qed.

Lemma if_keep {A} (P : A → Prop) (b : bool) x y : P x → P y → P (if b then x else y).
Proof. by destruct b. Qed.

Definition or_base {A} (x y : option A) : option A := match x with Some v => Some v | None => y end.

Lemma lookup_union_base {V} (m1 m2 : gmap string V) k : (m1 ∪ m2) !! k = or_base (m1 !! k) (m2 !! k).
Proof. rewrite lookup_union. by destruct (m1 !! k), (m2 !! k). Qed.

(** An accepted patch applied to an accepted configuration gives an accepted
    configuration: every price, cap, hold, percentage and alias of the merged
    configuration is again within the limits of [ValidateOverlay]. *)
Theorem ValidateOverlay_Merge base overlay :
  ValidateOverlay base = None → ValidateOverlay overlay = None →
  ValidateOverlay (Merge base overlay) = None.
Proof.
  destruct base as [b|], overlay as [o|]; try done.
  intros Hb%ValidateOverlay_ok Ho%ValidateOverlay_ok. apply ValidateOverlay_ok.
  destruct Hb, Ho. constructor; simpl; rewrite ?merge_reservation_eq, ?merge_routing_eq; simpl;
    try (by apply check_all_union); by apply if_keep.
Qed.

(** After a merge every lookup the admission path makes answers from the
    overlay when the overlay has the key and from the base otherwise: tenant cap,
    agent cap and per-agent hold; a global hold amount comes from the overlay when
    it is positive there. *)
Theorem Merge_lookups b o tenantID agentID :
  let m := Merge (Some b) (Some o) in
  let key := agent_key tenantID agentID in
  let ro := Reservation o in let rb := Reservation b in
  LookupCaps m tenantID agentID =
    (or_base (LookupCaps (Some o) tenantID agentID).1 (LookupCaps (Some b) tenantID agentID).1,
     or_base (LookupCaps (Some o) tenantID agentID).2 (LookupCaps (Some b) tenantID agentID).2) ∧
  ReservationFor m tenantID agentID =
    match (if String.eqb agentID "" then None
           else or_base (ResAgents ro !! key) (ResAgents rb !! key)) with
    | Some a => (A_USDPerRun a, A_TokensPerRun a)
    | None => (if positive (USDPerRun ro) then USDPerRun ro else USDPerRun rb,
               if 0 <? TokensPerRun ro then TokensPerRun ro else TokensPerRun rb)
    end.
Proof.
  cbv zeta. split.
  - unfold LookupCaps, Merge. simpl. rewrite !lookup_union_base.
    by destruct (String.eqb tenantID ""), (String.eqb agentID "").
  - unfold ReservationFor, Merge. rewrite merge_reservation_eq. simpl.
    destruct (String.eqb agentID ""); simpl; [done|].
    rewrite <- lookup_union_base.
    destruct (Nat.eqb_spec (size (ResAgents (Reservation o) ∪ ResAgents (Reservation b))) 0) as [E|];
      [|done].
    apply map_size_empty_inv in E. by rewrite E, lookup_empty.
Qed.

Definition good_overlay : Config :=
  mkConfig {[ "gpt" := mkPrice (f64 1) (f64 2) ]} {[ "t1" := mkCap (f64 10) 1000 5 false ]} ∅
    (f64 90) (mkReservation (f64 1) 10 0 {[ "t1/a" := mkAmount (f64 2) 20 ]})
    (mkRouting true (f64 50) {[ "cheap" := ["a"] ]}) "cancel_inflight".

Definition good_base : Config :=
  mkConfig {[ "gpt" := mkPrice (f64 3) (f64 4) ]} ∅ ∅ (f64 0) (mkReservation (f64 0) 0 60 ∅)
    (mkRouting false (f64 0) ∅) "".

Lemma ValidateOverlay_Merge_witness :
  ValidateOverlay (Merge (Some good_base) (Some good_overlay)) = None.
Proof. apply (ValidateOverlay_Merge (Some good_base) (Some good_overlay)); vm_compute; reflexivity. Defined.
