(* ===== verification/Admission.v ===== *)
(** * Run admission

    Models the gate every run creation passes ([internal/api/admission.go]): kill
    switches, agent permissions ([Auth]), the policy with its break-glass bypass, and the budgets of the day
    ([checkBudgetAdmission] and [applyFinOpsRouting] in [internal/api/usage.go]);
    and the chain of pre-flight gates ([internal/hooks/gate.go]).

    The usage tables are read through three functions; SQL sums of floats are the
    database's. *)

From Stdlib Require Import Ascii String.
From S2P Require Import Prelude GoStrings GoAny GoTime Store Controls Governance Predicates Auth Approvals FinOps.
Local Open Scope string_scope.
Local Open Scope Z_scope.

(** ** Budgets *)

Definition ReasonKillActive : string := "kill_active".
Definition ReasonAuthzDeny : string := "authz_deny".
Definition ReasonBudgetExceeded : string := "budget_exceeded".
Definition ReasonBudgetSoft : string := "budget_soft".
Definition ReasonBudgetAlert : string := "budget_alert".

(** What admission does besides answering: audit rows, alerts, a drain of the
    runs in scope (empty agent: the whole tenant). *)
Inductive adm_effect :=
| EAuditDeny (reasonCode reason : string)
| EAuditAllow (reasonCode reason : string)
| EAlert (reasonCode : string) (hard : bool)
| ECancelInflight (agentID : string)
| EAuditRoute (from to_ : string).

Section budgets.
Variable FinOps : option Config.
(** [None]: the store has no such table. *)
Variable SumUsage : string → string → Z → Z → res err (Z * Z * float64).
Variable CountRunsSince : string → string → Z → res err Z.
Variable SumUsageHolds : option (string → string → Z → Z → res err (float64 * Z)).
Variable has_usage : bool.
Variable day_text : Z → string.                   (* Format("2006-01-02") *)

(** [strict]: a failing hold query fails the snapshot; routing ignores it. *)
Definition load_snapshot (strict : bool) (tenantID agent : string) (since until : Z) : res err UsageSnapshot :=
  match SumUsage tenantID agent since until with
  | Err e => Err e
  | Ok (tin, tout, usd) =>
      match CountRunsSince tenantID agent since with
      | Err e => Err e
      | Ok runs =>
          match SumUsageHolds with
          | None => Ok (mkUsage tin tout usd runs)
          | Some holds =>
              match holds tenantID agent since until with
              | Ok (hu, ht) => Ok (mkUsage (wrap64 (tin + ht)) tout (f64_add usd hu) runs)
              | Err e => if strict then Err e else Ok (mkUsage tin tout usd runs)
              end
          end
      end
  end.

Definition approach_key (tenantID agentID scope kind : string) (day : Z) : string :=
  tenantID +:+ "|" +:+ agentID +:+ "|" +:+ scope +:+ "|" +:+ kind +:+ "|" +:+ day_text day.

Notation seen_set := (gset string).

(** The caps of the call: the tenant's, then the agent's. *)
Definition scopes (tenantID agentID : string) : list (BudgetCap * string * string) :=
  let '(tenantCap, agentCap) := LookupCaps FinOps tenantID agentID in
  (match tenantCap with Some c => [(c, "", "tenant")] | None => [] end
   ++ match agentCap with Some c => [(c, agentID, "agent")] | None => [] end)%list.

(** The loop over the caps: a hard breach or a failed lookup ends it; the first
    soft verdict and the first approach are remembered. *)
Fixpoint scan_caps (tenantID agentID : string) (since until : Z) (caps : list (BudgetCap * string * string))
    (soft approach : option BudgetVerdict)
  : res string (option BudgetVerdict * option BudgetVerdict) * list adm_effect :=
  match caps with
  | [] => (Ok (soft, approach), [])
  | (cap, agent, scope) :: rest =>
      match load_snapshot true tenantID agent since until with
      | Err _ => (Err "budget lookup failed", [])
      | Ok snap =>
          let v := EvaluateCap (Some cap) snap scope in
          if VHard v then
            (Err (VReason v),
             ([EAuditDeny ReasonBudgetExceeded (VReason v); EAlert ReasonBudgetExceeded true]
              ++ if CancelInflightOnHardBreach FinOps
                 then [ECancelInflight (if String.eqb scope "agent" then agentID else "")] else [])%list)
          else
            let soft := match soft with Some s => Some s | None => if VSoft v then Some v else None end in
            let approach :=
              match soft, approach with
              | None, None => ApproachCap (Some cap) snap scope (SoftPct FinOps)
              | _, a => a
              end in
            scan_caps tenantID agentID since until rest soft approach
      end
  end.

Definition checkBudgetAdmission (now : Z) (tenantID agentID : string) (seen : seen_set)
  : res string unit * seen_set * list adm_effect :=
  if negb (FinOps.Enabled FinOps) || negb has_usage then (Ok tt, seen, [])
  else
    let caps := scopes tenantID agentID in
    match caps with
    | [] => (Ok tt, seen, [])
    | _ =>
        let '(since, until) := UTCDayWindow now in
        match scan_caps tenantID agentID since until caps None None with
        | (Err reason, effs) => (Err reason, seen, effs)
        | (Ok (Some v, _), effs) =>
            (Ok tt, seen, (effs ++ [EAuditAllow ReasonBudgetSoft (VReason v); EAlert ReasonBudgetSoft false])%list)
        | (Ok (None, Some a), effs) =>
            let k := approach_key tenantID agentID (VScope a) (VKind a) since in
            if decide (k ∈ seen) then (Ok tt, seen, effs)
            else (Ok tt, {[k]} ∪ seen,
                  (effs ++ [EAuditAllow ReasonBudgetAlert (VReason a); EAlert ReasonBudgetAlert false])%list)
        | (Ok (None, None), effs) => (Ok tt, seen, effs)
        end
    end.

(** ** Routing to a cheaper agent *)

Definition near_cap (tenantID : string) (since until : Z) (c : BudgetCap * string * string) : bool :=
  let '(cap, agent, scope) := c in
  match load_snapshot false tenantID agent since until with
  | Err _ => false
  | Ok snap =>
      match ApproachCap (Some cap) snap scope (RoutingSoftPct FinOps) with
      | Some _ => true
      | None => let v := EvaluateCap (Some cap) snap scope in VSoft v || VHard v
      end
  end.

Definition routing_targets (cfg : Config) (aliasKey agentID : string) : list string :=
  let at_key k := if String.eqb k "" then [] else default [] (Aliases (Routing cfg) !! k) in
  match at_key aliasKey with [] => at_key agentID | l => l end.

(** The agent to run, and the one it replaces (empty: unchanged). *)
Definition applyFinOpsRouting (now : Z) (tenantID agentID aliasKey : string) : string * string * list adm_effect :=
  match FinOps with
  | None => (agentID, "", [])
  | Some cfg =>
      if negb (RoutingOn (Routing cfg)) || (size (Aliases (Routing cfg)) =? 0)%nat then (agentID, "", [])
      else
        match routing_targets cfg aliasKey agentID with
        | [] => (agentID, "", [])
        | to_ :: _ =>
            if negb has_usage then (agentID, "", [])
            else
              let '(since, until) := UTCDayWindow now in
              if existsb (near_cap tenantID since until) (scopes tenantID agentID)
              then (to_, agentID, [EAuditRoute agentID to_])
              else (agentID, "", [])
        end
  end.

(** ** The gate *)

Variable PolicyEnabled : bool.
Variable Decide : PolicyInput → PolicyDecision.
Variable MatchMandatoryHITL : PolicyInput → option string.
Variable rfc3339_text : Z → string.

Record adm_oracle := mkAdm {
  ao_kill : reply; ao_window : reply; ao_audit : reply; ao_hex : option string
}.

Definition kill_reason (k : KillSwitch) : string :=
  let reason := if String.eqb (KsReason k) "" then
                  if String.eqb (KsAgentID k) "" then "tenant kill switch active" else "agent kill switch active"
                else KsReason k in
  if KsPauseOnly k then "enqueue paused: " +:+ reason else reason.

Definition deny_reason (dec : PolicyDecision) : string :=
  if negb (String.eqb (Reason dec) "") then Reason dec
  else if negb (String.eqb (ReasonCode dec) "") then ReasonCode dec
  else "run.create denied by policy".

(** [admissionGate.Decide]: an error is the reason of the denial. *)
Definition admission_decide (o : adm_oracle) (now : Z) (r : request) (eventTenant agentID runID : string)
    (c : Controls) (seen : seen_set) : Controls * seen_set * res string unit * list adm_effect :=
  let tenantID := if String.eqb eventTenant "" then FromContext (rq_ctx r) else eventTenant in
  match FindActiveKill (ao_kill o) tenantID agentID c with
  | Err _ => (c, seen, Err "kill switch lookup failed", [])
  | Ok (Some k) => (c, seen, Err (kill_reason k), [EAuditDeny ReasonKillActive (kill_reason k)])
  | Ok None =>
      if negb (CanRunAgent (rq_auth r) agentID) then
        let reason := "missing permission " +:+ AgentRunPermission agentID in
        (c, seen, Err reason, [EAuditDeny ReasonAuthzDeny reason])
      else
        let principal := match rq_auth r with Some ar => ArIdentity ar | None => "" end in
        let i := input StageRunCreate tenantID principal agentID runID 0 "" "" in
        let '(c, denied) :=
          if PolicyEnabled then
            match tryBreakGlassBypass PolicyEnabled MatchMandatoryHITL rfc3339_text (ao_window o) (ao_audit o)
                    (ao_hex o) now r i c with
            | (c, true) => (c, None)
            | (c, false) =>
                let dec := Decide i in
                (c, if String.eqb (Effect dec) EffectAllow then None else Some (deny_reason dec))
            end
          else (c, None) in
        match denied with
        | Some reason => (c, seen, Err reason, [])
        | None =>
            let '(verdict, seen, effs) := checkBudgetAdmission now tenantID agentID seen in
            (c, seen, verdict, effs)
        end
  end.

(** ** Pre-flight gates *)

(** What one gate answered: [None] when the context ended first. *)
Definition gate_answer : Type := option (res string unit).

(** [CheckBeforeRun]: the first denial, in registration order. *)
Fixpoint CheckBeforeRun (answers : list gate_answer) : option string :=
  match answers with
  | [] => None
  | None :: _ => Some "preflight hook failed"
  | Some (Err reason) :: _ => Some (if String.eqb reason "" then "denied" else reason)
  | Some (Ok _) :: rest => CheckBeforeRun rest
  end.

(** ** What an admitted run has passed *)

Lemma FindActiveKill_None o tn ag c :
  FindActiveKill o tn ag c = Ok None →
  ∀ id k, kills c !! id = Some k → KsTenantID k = tn → KsAgentID k ≠ ag ∧ KsAgentID k ≠ "".
Proof.
  destruct o; simpl; [|done..]. intros [= H%head_None] id k Hk Ht.
  assert (Hn : k ∉ filter (λ k, KsTenantID k = tn ∧ (KsAgentID k = ag ∨ KsAgentID k = "")) (map_to_list (kills c)).*2).
  { rewrite <- (sort_by_perm (λ a b, specific ag (KsAgentID a) <=? specific ag (KsAgentID b))), H. apply not_elem_of_nil. }
  assert (Hin : k ∈ (map_to_list (kills c)).*2).
  { apply list_elem_of_fmap. exists (id, k). split; [done|]. by apply elem_of_map_to_list. }
  split; intros E; apply Hn, list_elem_of_filter; auto.
Qed.

(** Within a cap: it is advisory, or no dimension has reached its limit. *)
Definition within_cap (cap : BudgetCap) (snap : UsageSnapshot) : Prop :=
  Soft cap = true ∨ (usd_over cap snap = false ∧ tokens_over cap snap = false ∧ runs_over cap snap = false).

Lemma EvaluateCap_not_hard cap snap scope : VHard (EvaluateCap (Some cap) snap scope) = false → within_cap cap snap.
Proof.
  unfold within_cap, EvaluateCap, check_dim. destruct (Soft cap); [by left|]. intros H. right.
  by destruct (usd_over cap snap), (tokens_over cap snap), (runs_over cap snap).
Qed.

Lemma scan_caps_ok tn ag since until caps soft approach v effs cap agent scope :
  scan_caps tn ag since until caps soft approach = (Ok v, effs) → (cap, agent, scope) ∈ caps →
  ∃ snap, load_snapshot true tn agent since until = Ok snap ∧ within_cap cap snap.
Proof.
  revert soft approach effs. induction caps as [|[[cap' agent'] scope'] caps IH]; intros soft approach effs;
    [by intros _ ?%not_elem_of_nil|].
  simpl. destruct (load_snapshot true tn agent' since until) as [snap|] eqn:Hl; [|done].
  destruct (VHard _) eqn:Hh; [done|]. intros Hs [[= -> -> ->]|Hin]%elem_of_cons; [|by eapply IH].
  exists snap. split; [done|]. by apply EvaluateCap_not_hard in Hh.
Qed.

Lemma checkBudget_ok now tn ag seen seen' effs cap agent scope :
  checkBudgetAdmission now tn ag seen = (Ok tt, seen', effs) → FinOps.Enabled FinOps = true → has_usage = true →
  (cap, agent, scope) ∈ scopes tn ag →
  ∃ snap, load_snapshot true tn agent (UTCDayWindow now).1 (UTCDayWindow now).2 = Ok snap ∧ within_cap cap snap.
Proof.
  intros Hc He Hu Hin. unfold checkBudgetAdmission in Hc. rewrite He, Hu in Hc. simpl in Hc.
  destruct (scopes tn ag) as [|c0 caps] eqn:Hsc; [by apply not_elem_of_nil in Hin|].
  destruct (scan_caps _ _ _ _ _ _ _) as [[v|] effs'] eqn:Hs; [|done]. by eapply scan_caps_ok.
Qed.
End budgets.

(** * What an admitted run has passed *)

From S2P Require Import ApprovalProps.
Local Open Scope string_scope.
Local Open Scope Z_scope.

Section admission.
Variable FinOps : option Config.
Variable SumUsage : string → string → Z → Z → res err (Z * Z * float64).
Variable CountRunsSince : string → string → Z → res err Z.
Variable SumUsageHolds : option (string → string → Z → Z → res err (float64 * Z)).
Variable has_usage : bool.
Variable day_text : Z → string.
Variable PolicyEnabled : bool.
Variable Decide : PolicyInput → PolicyDecision.
Variable MatchMandatoryHITL : PolicyInput → option string.
Variable rfc3339_text : Z → string.

Notation decide_admission := (admission_decide FinOps SumUsage CountRunsSince SumUsageHolds has_usage day_text
  PolicyEnabled Decide MatchMandatoryHITL rfc3339_text).
Notation snapshot := (load_snapshot SumUsage CountRunsSince SumUsageHolds true).

Definition event_tenant (r : request) (t : string) : string := if String.eqb t "" then FromContext (rq_ctx r) else t.

Definition create_input (r : request) (t agentID runID : string) : PolicyInput :=
  input StageRunCreate (event_tenant r t) (match rq_auth r with Some ar => ArIdentity ar | None => "" end)
    agentID runID 0 "" "".

End admission.
