(* ===== verification/ApprovalWitnesses.v ===== *)
(** * Approvals and admission on a concrete deployment

    A policy that holds every refund, the operator who approves one, a break-glass
    window, and an agent with a daily budget. *)

From Stdlib Require Import Ascii String.
From S2P Require Import Prelude GoStrings GoAny GoTime Store Controls Governance GovernanceSteps.
From S2P Require Import JsonNumber Predicates Surrogates PolicyArgs Auth Approvals ApprovalProps FinOps Admission.
Local Open Scope string_scope.
Local Open Scope Z_scope.

Definition by_tool (c : call) : string := CallTool c.
Definition hold (i : PolicyInput) : PolicyDecision := mkDecision EffectPending "refunds need approval" "" "refunds" 0.
Definition no_rule (i : PolicyInput) : option string := None.
Definition epoch_text (s : Z) : string := "1970-01-01T00:00:00Z".

(** A runner's call, bound to its run. *)
Definition runner : request := mkRequest background (Some (mkRunBinding "r1" 1 "default" "shop" "t1" None)) None None None.
Definition refund : bound_args := (AMap [("amount", AInt 5)], "d5", None).

Definition calm_store : create_oracle := mkCreate RFine RFine RFine RFine (λ _ t, t).
Definition calm_gate : gate_oracle := mkGate RFine RFine (Some "h1") RFine calm_store (Some "a1").

Notation gate_of := (tool_gate true hold no_rule by_tool "d0" epoch_text).

Definition refund_call : call := mkCallKey "default" "shop" false "r1" 1 "crm" "refund" "d5".

(** The row the gate leaves, its approval and its use. *)
Definition held_row : PendingAction :=
  stamp_pending 5 (pending_of "d0" (bind_args (policyInput runner StageToolCall "crm" "refund") refund) "a1"
    "crm" "refund" (hold (policyInput runner StageToolCall "crm" "refund")) None).

Definition held : gworld := on_table g_init (attempt EDriver RFine (insert_pending held_row (Some "refund")) ∅).1.
Definition approved : gworld :=
  mkG (SetPendingActionApproved RFine 7 "pending-v2-a1" "ada" (g_table held)).1 [("pending-v2-a1", refund_call)] [].
Definition used : gworld :=
  mkG (ConsumeApprovedAction RFine 9 "default" "shop" "r1" 1 "crm" "refund" "d5" (g_table approved)).1
    [("pending-v2-a1", refund_call)] [("pending-v2-a1", refund_call)].

Lemma held_reachable : g_reachable by_tool held.
Proof. apply rtc_once. apply (gs_insert by_tool g_init RFine held_row); [reflexivity|discriminate]. Qed.

Lemma approved_reachable : g_reachable by_tool approved.
Proof. eapply rtc_r; [apply held_reachable|]. apply (gs_approve by_tool held RFine 7 "pending-v2-a1" "ada"). Qed.

Lemma used_reachable : g_reachable by_tool used.
Proof.
  eapply rtc_r; [apply approved_reachable|].
  apply (gs_authorize by_tool approved RFine 9 "default" "shop" "r1" 1 "crm" "refund" "d5"); [|discriminate].
  vm_compute. reflexivity.
Qed.

Lemma approval_authorizes_once_witness :
  NoDup (g_authorized used).*1 ∧ ("pending-v2-a1", refund_call) ∈ g_approved used.
Proof.
  destruct (approval_authorizes_once by_tool used used_reachable) as [H1 H2].
  split; [exact H1|]. apply (H2 "pending-v2-a1" refund_call). left.
Defined.

Lemma one_open_approval_per_call_witness : "pending-v2-a1" = "pending-v2-a1".
Proof.
  refine (one_open_approval_per_call by_tool held _ _ (mkRow held_row (Some "refund")) (mkRow held_row (Some "refund"))
            held_reachable _ _ _ _ _); vm_compute; reflexivity.
Defined.

(** The approved call is forwarded, and its row is consumed. *)
Lemma forwarded_is_authorized_witness :
  used_approval 9 refund_call (g_table approved) (gate_of calm_gate 9 runner "crm" "refund" (Some refund)
    (mkControls ∅ ∅ ∅) (g_table approved)).1.2.
Proof.
  assert (H : gate_of calm_gate 9 runner "crm" "refund" (Some refund) (mkControls ∅ ∅ ∅) (g_table approved)
    = ((gate_of calm_gate 9 runner "crm" "refund" (Some refund) (mkControls ∅ ∅ ∅) (g_table approved)).1, GForward))
    by (vm_compute; reflexivity).
  destruct (gate_of calm_gate 9 runner "crm" "refund" (Some refund) (mkControls ∅ ∅ ∅) (g_table approved)) as [[c' t'] g] eqn:E.
  simpl in H. injection H as ->.
  destruct (forwarded_is_authorized true hold no_rule by_tool "d0" epoch_text approved calm_gate 9 runner "crm" "refund"
              refund _ _ _ approved_reachable E) as [Hf|[(w&ev&(id&Hw)&_)|[Hf|[_ Hu]]]].
  - discriminate.
  - simpl in Hw. rewrite lookup_empty in Hw. discriminate.
  - discriminate.
  - exact Hu.
Defined.

Lemma held_call_proceeds_witness :
  (gate_of calm_gate 9 runner "crm" "refund" (Some refund) (mkControls ∅ ∅ ∅) (g_table approved)).2 = GForward.
Proof.
  assert (Hg : ∃ dec, gate_of calm_gate 5 runner "crm" "refund" (Some refund) (mkControls ∅ ∅ ∅) (g_table g_init)
    = (mkControls ∅ ∅ ∅, g_table held, GRefused dec "pending-v2-a1")).
  { eexists. vm_compute. reflexivity. }
  destruct Hg as [dec Hg].
  apply (held_call_proceeds true hold no_rule by_tool "d0" epoch_text g_init calm_gate calm_gate 5 7 9 "ada" runner
           "crm" "refund" refund (mkControls ∅ ∅ ∅) (mkControls ∅ ∅ ∅) (mkControls ∅ ∅ ∅) (g_table held) (g_table approved)
           dec "pending-v2-a1").
  - apply rtc_refl.
  - split; [|split; reflexivity]. eexists. split; [reflexivity|discriminate].
  - discriminate.
  - reflexivity.
  - exact Hg.
  - discriminate.
  - vm_compute. reflexivity.
  - reflexivity.
  - reflexivity.
Defined.

(** ** A window of an hour *)

Definition hour_text (s : string) : option Z := if String.eqb s "01:00" then Some (3600 * second) else None.
Definition operator : request := mkRequest background None (Some (mkAuth "ada" ["admin"] "" "" ∅)) None None.
Definition outage : breakGlassBody := mkBgBody "w1" "default" "" "outage" "" "01:00".

Definition open_controls : Controls :=
  (handleAdminCreateBreakGlass epoch_text hour_text RFine RFine RFine (Some "h1") (Some "h2") second operator
     (Some outage) no_controls).1.

Lemma break_glass_bounded_witness :
  ∃ w, FindActiveBreakGlass RFine (2 * second) "default" "shop" open_controls = Ok (Some w) ∧
    2 * second < BgStartsAt w + maxBreakGlassDuration + second.
Proof.
  assert (H : ∃ w, FindActiveBreakGlass RFine (2 * second) "default" "shop" open_controls = Ok (Some w))
    by (eexists; vm_compute; reflexivity).
  destruct H as [w H]. exists w. split; [exact H|].
  apply (break_glass_bounded epoch_text hour_text open_controls RFine (2 * second) "default" "shop" w); [|exact H].
  apply rtc_once. apply (cs_mint epoch_text hour_text no_controls RFine RFine RFine (Some "h1") (Some "h2") second operator (Some outage)).
Defined.

Lemma expired_window_in_force_witness :
  in_force (3600 * second + 1) (mkWindow "w1" "default" "" "outage" "ada" second (3600 * second) second second) = true.
Proof. apply expired_window_in_force; vm_compute; auto. Defined.

(** ** An agent with a daily budget *)

Definition daily : Config :=
  mkConfig ∅ {[ "default" := mkCap f64_zero 0 3 false ]} ∅ f64_zero
    (mkReservation f64_zero 0 0 ∅) (mkRouting false f64_zero ∅) "".

Definition sums (tenant agent : string) (since until : Z) : res err (Z * Z * float64) := Ok (0, 0, f64_zero).
Definition two_runs (tenant agent : string) (since : Z) : res err Z := Ok 2.
Definition allow (i : PolicyInput) : PolicyDecision := mkDecision EffectAllow "" "" "" 0.

Notation decide_second := (admission_decide (Some daily) sums two_runs None true epoch_text true allow no_rule epoch_text).


(** ** Two spellings of the same arguments *)

Definition demo_lex (data : list ascii) : option (list jtok) :=
  let items a b := Some [TOpenArr; TScalar (ANumber a); TScalar (ANumber b); TCloseArr] in
  if decide (data = list_ascii_of_string "[5,1e1]") then items "5" "1e1"
  else if decide (data = list_ascii_of_string "[5.0, 10]") then items "5.0" "10"
  else None.

Lemma plain_text data : Forall (λ c, c ≠ quote) data → json_text data.
Proof.
  intros H. exists (SByte <$> data). split; [by apply Forall_fmap|]. clear H. induction data; [done|]. simpl. by f_equal.
Qed.

Lemma demo_lex_ok data ts : demo_lex data = Some ts → Forall scalar_ok ts ∧ json_text data.
Proof.
  unfold demo_lex. intros H. repeat case_decide; simplify_eq;
    (split; [repeat constructor|apply plain_text; repeat constructor; discriminate]).
Qed.

Definition no_display (v : any) : option (list (string * any)) := None.

Lemma digest_binds_value_witness :
  digest_document (AArr [ANumber "5"; ANumber "1e1"]) = digest_document (AArr [ANumber "5.0"; ANumber "10"]).
Proof.
  apply (digest_binds_value demo_lex demo_lex_ok no_display "[5,1e1]" "[5.0, 10]"
           (AArr [ANumber "5"; ANumber "1e1"]) (AArr [ANumber "5.0"; ANumber "10"]) _ _ None None);
    vm_compute; reflexivity.
Defined.
