(* ===== verification/Broker.v ===== *)
(** * The in-process event broker and cancel bus

    Models [internal/transport/inprocess/inprocess.go], types [Broker] and
    [CancelBus].  Go channels are shared mutable objects: they live in a heap of
    channel ids, a subscriber list holds ids, and an operation that Go would stop
    with a panic (a send on a closed channel, a second close) is [None].  The
    second half is the history of interleaved publishers, subscribers and readers
    and what every subscriber observes. *)

From S2P Require Import Prelude Transport.
Local Open Scope nat_scope.

(** ** Channels *)

Record goChan (A : Type) := mkChan { pending : list A; chClosed : bool }.
Arguments mkChan {A} _ _.
Arguments pending {A} _.
Arguments chClosed {A} _.

Notation heap A := (gmap nat (goChan A)).

(** [select { case ch <- v: default: }]: dropped when the buffer is full. *)
Definition try_send {A} (cap : nat) (v : A) (h : heap A) (c : nat) : option (heap A) :=
  match h !! c with
  | Some ch =>
      if chClosed ch then None
      else if length (pending ch) <? cap
      then Some (<[c := mkChan (pending ch ++ [v])%list false]> h)
      else Some h
  | None => None
  end.

Definition close_chan {A} (h : heap A) (c : nat) : option (heap A) :=
  match h !! c with
  | Some ch => if chClosed ch then None else Some (<[c := mkChan (pending ch) true]> h)
  | None => None
  end.

Fixpoint each {A} (f : heap A → nat → option (heap A)) (h : heap A) (cs : list nat)
  : option (heap A) :=
  match cs with
  | [] => Some h
  | c :: cs => match f h c with Some h' => each f h' cs | None => None end
  end.

(** A receive that does not block: the head of the buffer. *)
Definition recv {A} (h : heap A) (c : nat) : option (A * heap A) :=
  match h !! c with
  | Some (mkChan (v :: l) b) => Some (v, <[c := mkChan l b]> h)
  | _ => None
  end.

(** ** The event broker *)

Record Broker := mkBroker {
  subscribers : gmap string (list nat);
  buffer : gmap string (list RunEvent);
  closed : gset string;
  chans : heap RunEvent;
  nextChan : nat
}.

Definition NewBroker : Broker := mkBroker ∅ ∅ ∅ ∅ 0.

(** [make(chan *transport.RunEvent, 4096)] *)
Definition sub_cap : nat := Z.to_nat 4096.

Definition subs (b : Broker) (r : string) : list nat := map_get [] (subscribers b) r.
Definition history (b : Broker) (r : string) : list RunEvent := map_get [] (buffer b) r.

Definition Publish (b : Broker) (runID : string) (event : RunEvent) : option Broker :=
  let buf := <[runID := (history b runID ++ [event])%list]> (buffer b) in
  match each (try_send sub_cap event) (chans b) (subs b runID) with
  | None => None
  | Some h =>
      if IsTerminal event then
        match each close_chan h (subs b runID) with
        | None => None
        | Some h' => Some (mkBroker (<[runID := []]> (subscribers b)) buf ({[runID]} ∪ closed b) h' (nextChan b))
        end
      else Some (mkBroker (subscribers b) buf (closed b) h (nextChan b))
  end.

Definition Subscribe (b : Broker) (runID : string) : Broker * nat :=
  let ch := nextChan b in
  if bool_decide (runID ∈ closed b)
  then (mkBroker (subscribers b) (buffer b) (closed b) (<[ch := mkChan [] true]> (chans b)) (S ch), ch)
  else (mkBroker (<[runID := (subs b runID ++ [ch])%list]> (subscribers b)) (buffer b) (closed b)
          (<[ch := mkChan [] false]> (chans b)) (S ch), ch).

Definition Replay (b : Broker) (runID : string) (sinceSeq : Z) : list RunEvent :=
  List.filter (λ ev, Z.ltb sinceSeq (Seq ev)) (history b runID).

Definition Close (b : Broker) (runID : string) : option Broker :=
  match each close_chan (chans b) (subs b runID) with
  | None => None
  | Some h => Some (mkBroker (<[runID := []]> (subscribers b)) (buffer b) ({[runID]} ∪ closed b) h (nextChan b))
  end.

(** ** The cancel bus *)

Record CancelBus := mkBus {
  bus_subs : gmap string (list nat);
  bus_chans : heap unit;
  bus_next : nat
}.

Definition NewCancelBus : CancelBus := mkBus ∅ ∅ 0.

(** The loop body of [PublishCancel]: signal, then close. *)
Definition signal_and_close (h : heap unit) (c : nat) : option (heap unit) :=
  match try_send 1 tt h c with Some h' => close_chan h' c | None => None end.

Definition bus_list (b : CancelBus) (r : string) : list nat := map_get [] (bus_subs b) r.

(** The critical section of [PublishCancel]: the caller takes the run's
    subscriptions out of the table. *)
Definition take_cancel (b : CancelBus) (runID : string) : CancelBus * list nat :=
  (mkBus (delete runID (bus_subs b)) (bus_chans b) (bus_next b), bus_list b runID).

Definition set_bus_chans (h : heap unit) (b : CancelBus) : CancelBus :=
  mkBus (bus_subs b) h (bus_next b).

(** The signals are sent outside the critical section, one channel at a time. *)
Definition signal_one (b : CancelBus) (c : nat) : option CancelBus :=
  match signal_and_close (bus_chans b) c with Some h => Some (set_bus_chans h b) | None => None end.

Fixpoint signal_all (b : CancelBus) (cs : list nat) : option CancelBus :=
  match cs with
  | [] => Some b
  | c :: cs => match signal_one b c with Some b' => signal_all b' cs | None => None end
  end.

Definition PublishCancel (b : CancelBus) (runID : string) : option CancelBus :=
  let (b', cs) := take_cancel b runID in signal_all b' cs.

Definition SubscribeCancel (b : CancelBus) (runID : string) : CancelBus * nat :=
  let ch := bus_next b in
  (mkBus (<[runID := (bus_list b runID ++ [ch])%list]> (bus_subs b))
     (<[ch := mkChan [] false]> (bus_chans b)) (S ch), ch).

Fixpoint remove_first (c : nat) (l : list nat) : option (list nat) :=
  match l with
  | [] => None
  | x :: l => if x =? c then Some l
              else match remove_first c l with Some l' => Some (x :: l') | None => None end
  end.

(** The goroutine of [SubscribeCancel] once its context is done. *)
Definition release_cancel (b : CancelBus) (runID : string) (c : nat) : CancelBus :=
  match remove_first c (bus_list b runID) with
  | Some [] => mkBus (delete runID (bus_subs b)) (bus_chans b) (bus_next b)
  | Some l => mkBus (<[runID := l]> (bus_subs b)) (bus_chans b) (bus_next b)
  | None => b
  end.

(** ** Heap lemmas *)

Section heap_lemmas.
Context {A : Type}.
Implicit Types h : heap A.

(** A loop over distinct channels that satisfy the loop body's precondition acts
    pointwise. *)
Lemma each_pointwise (P : goChan A → Prop) (g : goChan A → goChan A) f cs h :
  (∀ h c ch, h !! c = Some ch → P ch → f h c = Some (<[c := g ch]> h)) →
  NoDup cs → (∀ c, c ∈ cs → ∃ ch, h !! c = Some ch ∧ P ch) →
  ∃ h', each f h cs = Some h' ∧ ∀ c, h' !! c = if decide (c ∈ cs) then g <$> h !! c else h !! c.
Proof.
  intros Hf. revert h. induction cs as [|c cs IH]; intros h Hnd Hcs; simpl.
  { exists h. split; [done|]. intros c. destruct (decide (c ∈ [])) as [E|]; [by apply elem_of_nil in E|done]. }
  apply list.NoDup_cons in Hnd as [Hc Hnd].
  destruct (Hcs c) as (ch&Hch&HP); [by left|].
  rewrite (Hf _ _ _ Hch HP).
  destruct (IH (<[c := g ch]> h) Hnd) as (h'&->&Hh').
  { intros c' Hc'. rewrite lookup_insert_ne by (intros ->; done). apply Hcs. by right. }
  exists h'. split; [done|]. intros c'. rewrite Hh'.
  destruct (decide (c = c')) as [->|Hne].
  - rewrite lookup_insert_eq, Hch.
    destruct (decide (c' ∈ cs)), (decide (c' ∈ c' :: cs)) as [|[]]; try done. by left.
  - rewrite lookup_insert_ne by done.
    destruct (decide (c' ∈ cs)), (decide (c' ∈ c :: cs)) as [E|E]; try done.
    + destruct E. by right.
    + apply elem_of_cons in E as [->|]; done.
Qed.

Definition sent cap v (ch : goChan A) : goChan A :=
  if length (pending ch) <? cap then mkChan (pending ch ++ [v])%list (chClosed ch) else ch.

Lemma try_send_open cap v h c ch :
  h !! c = Some ch → chClosed ch = false → try_send cap v h c = Some (<[c := sent cap v ch]> h).
Proof.
  intros Hc Ho. unfold try_send, sent. rewrite Hc, Ho.
  destruct (_ <? cap); [done|]. by rewrite insert_id.
Qed.

Lemma close_open h c ch :
  h !! c = Some ch → chClosed ch = false → close_chan h c = Some (<[c := mkChan (pending ch) true]> h).
Proof. intros Hc Ho. unfold close_chan. by rewrite Hc, Ho. Qed.
End heap_lemmas.

(** ** Histories of the broker *)

Inductive bop :=
| OPublish (r : string) (ev : RunEvent)
| OSubscribe (r : string)
| OClose (r : string)
| ORecv (c : nat).

(** The broker with what its clients have seen: [got c] was received from channel
    [c], [born c] is the run of the subscription and the length of that run's
    history when it was made, [ended] the runs explicitly closed. *)
Record world := mkWorld {
  bk : Broker;
  got : gmap nat (list RunEvent);
  born : gmap nat (string * nat);
  ended : gset string
}.

Definition new_world : world := mkWorld NewBroker ∅ ∅ ∅.

Definition set_chans (h : heap RunEvent) (b : Broker) : Broker :=
  mkBroker (subscribers b) (buffer b) (closed b) h (nextChan b).

Definition bstep (w : world) (o : bop) : option world :=
  let b := bk w in
  match o with
  | OPublish r ev =>
      match Publish b r ev with
      | Some b' => Some (mkWorld b' (got w) (born w) (ended w))
      | None => None
      end
  | OSubscribe r =>
      let (b', c) := Subscribe b r in
      Some (mkWorld b' (<[c := []]> (got w)) (<[c := (r, length (history b r))]> (born w)) (ended w))
  | OClose r =>
      match Close b r with
      | Some b' => Some (mkWorld b' (got w) (born w) ({[r]} ∪ ended w))
      | None => None
      end
  | ORecv c =>
      match recv (chans b) c with
      | Some (v, h) =>
          Some (mkWorld (set_chans h b) (<[c := (default [] (got w !! c) ++ [v])%list]> (got w))
                  (born w) (ended w))
      | None => Some w
      end
  end.

Fixpoint brun (w : world) (ops : list bop) : option world :=
  match ops with
  | [] => Some w
  | o :: ops => match bstep w o with Some w' => brun w' ops | None => None end
  end.

Definition ends_terminal (m : nat) (l : list RunEvent) : Prop :=
  ∃ k ev, m = S k ∧ l !! k = Some ev ∧ IsTerminal ev = true.

(** What the subscription [c] to run [r], made at position [n], has been given. *)
Definition observes (w : world) (c : nat) (r : string) (n : nat) (m : nat)
    (ch : goChan RunEvent) (g : list RunEvent) : Prop :=
  let hist := history (bk w) r in
  let stream := (g ++ pending ch)%list in
  n ≤ m ≤ length hist ∧
  sublist stream (segment n m hist) ∧
  (m - n ≤ sub_cap → stream = segment n m hist) ∧
  (if chClosed ch then r ∈ closed (bk w) ∧ (r ∈ ended w ∨ n = m ∨ ends_terminal m hist)
   else c ∈ subs (bk w) r ∧ m = length hist).

Record winv (w : world) : Prop := {
  wi_fresh c ch : chans (bk w) !! c = Some ch → c < nextChan (bk w);
  wi_born c r n : born w !! c = Some (r, n) →
    ∃ ch g m, chans (bk w) !! c = Some ch ∧ got w !! c = Some g ∧ observes w c r n m ch g;
  wi_subs r c : c ∈ subs (bk w) r →
    ∃ ch n, chans (bk w) !! c = Some ch ∧ chClosed ch = false ∧ born w !! c = Some (r, n);
  wi_nodup r : NoDup (subs (bk w) r)
}.

Lemma ends_terminal_app m l k : ends_terminal m l → ends_terminal m (l ++ k).
Proof. intros (i&ev&->&Hi&Ht). exists i, ev. split; [done|]. split; [by apply lookup_app_l_Some|done]. Qed.

(** ** Each operation preserves the invariant *)

Definition published (ev : RunEvent) (ch : goChan RunEvent) : goChan RunEvent :=
  if IsTerminal ev then mkChan (pending (sent sub_cap ev ch)) true else sent sub_cap ev ch.

Lemma subs_open w r : winv w →
  ∀ c, c ∈ subs (bk w) r → ∃ ch, chans (bk w) !! c = Some ch ∧ chClosed ch = false.
Proof. intros Hw c Hc. destruct (wi_subs _ Hw _ _ Hc) as (ch&n&?&?&?). by exists ch. Qed.

Lemma close_subs w r : winv w → ∃ h, each close_chan (chans (bk w)) (subs (bk w) r) = Some h ∧
  ∀ c, h !! c = if decide (c ∈ subs (bk w) r)
                then (λ ch, mkChan (pending ch) true) <$> chans (bk w) !! c else chans (bk w) !! c.
Proof.
  intros Hw. apply (each_pointwise (λ ch, chClosed ch = false)).
  - intros. by apply close_open.
  - apply (wi_nodup _ Hw).
  - by apply subs_open.
Qed.

Lemma Publish_spec w r ev : winv w →
  ∃ h, Publish (bk w) r ev =
       Some (mkBroker (if IsTerminal ev then <[r := []]> (subscribers (bk w)) else subscribers (bk w))
               (<[r := (history (bk w) r ++ [ev])%list]> (buffer (bk w)))
               (if IsTerminal ev then {[r]} ∪ closed (bk w) else closed (bk w))
               h (nextChan (bk w))) ∧
       ∀ c, h !! c = if decide (c ∈ subs (bk w) r)
                     then published ev <$> chans (bk w) !! c else chans (bk w) !! c.
Proof.
  intros Hw. unfold Publish.
  destruct (each_pointwise (λ ch, chClosed ch = false) (sent sub_cap ev) (try_send sub_cap ev)
              (subs (bk w) r) (chans (bk w))) as (h&->&Hh).
  { intros. by apply try_send_open. }
  { apply (wi_nodup _ Hw). }
  { by apply subs_open. }
  unfold published. destruct (IsTerminal ev); [|by exists h].
  destruct (each_pointwise (λ ch, chClosed ch = false) (λ ch, mkChan (pending ch) true) close_chan
              (subs (bk w) r) h) as (h'&->&Hh').
  { intros. by apply close_open. }
  { apply (wi_nodup _ Hw). }
  { intros c Hc. destruct (subs_open _ _ Hw _ Hc) as (ch&Hch&Ho). rewrite Hh, Hch.
    destruct (decide _); [|done]. exists (sent sub_cap ev ch). split; [done|].
    unfold sent. by destruct (_ <? _). }
  exists h'. split; [done|]. intros c. rewrite Hh', Hh.
  destruct (decide _); [|done]. by destruct (chans (bk w) !! c).
Qed.

(** A publication extends an open stream by its event unless the buffer is full. *)
Lemma stream_publish n (l g : list RunEvent) ch ev :
  n ≤ length l →
  sublist (g ++ pending ch) (segment n (length l) l) →
  (length l - n ≤ sub_cap → (g ++ pending ch)%list = segment n (length l) l) →
  let ch' := sent sub_cap ev ch in
  sublist (g ++ pending ch') (segment n (S (length l)) (l ++ [ev])) ∧
  (S (length l) - n ≤ sub_cap → (g ++ pending ch')%list = segment n (S (length l)) (l ++ [ev])).
Proof.
  intros Hn Hs He. rewrite segment_snoc by done. unfold sent. cbv zeta.
  destruct (Nat.ltb_spec (length (pending ch)) sub_cap) as [Hlt|Hge]; cbn [pending].
  - rewrite (assoc_L (++)%list). split; [by apply sublist_app|]. intros Hm.
    rewrite He; [done|lia].
  - split; [by apply sublist_inserts_r|]. intros Hm. exfalso.
    specialize (He ltac:(lia)). apply (f_equal length) in He.
    rewrite length_app, length_segment in He by done. lia.
Qed.

Lemma subs_insert b r l h n bf cl r' :
  subs (mkBroker (<[r := l]> (subscribers b)) bf cl h n) r' = if decide (r = r') then l else subs b r'.
Proof.
  unfold subs. simpl. destruct (decide (r = r')) as [->|]; [by rewrite map_get_insert_eq|].
  by rewrite map_get_insert_ne.
Qed.

Lemma history_insert b r l r' :
  map_get [] (<[r := l]> (buffer b)) r' = if decide (r = r') then l else history b r'.
Proof.
  unfold history. destruct (decide (r = r')) as [->|]; [by rewrite map_get_insert_eq|].
  by rewrite map_get_insert_ne.
Qed.

Lemma subs_disjoint w r r' c : winv w → c ∈ subs (bk w) r → c ∈ subs (bk w) r' → r = r'.
Proof.
  intros Hw Hc Hc'. destruct (wi_subs _ Hw _ _ Hc) as (?&?&_&_&H1).
  destruct (wi_subs _ Hw _ _ Hc') as (?&?&_&_&H2). congruence.
Qed.

(** A subscription whose channel an operation leaves alone keeps its view, when
    the other runs' state is the same and histories and endings only grow. *)
Lemma observes_mono w w' c r n m ch g k :
  observes w c r n m ch g →
  history (bk w') r = (history (bk w) r ++ k)%list →
  (chClosed ch = false → k = [] ∧ c ∈ subs (bk w') r) →
  (r ∈ closed (bk w) → r ∈ closed (bk w')) → (r ∈ ended w → r ∈ ended w') →
  observes w' c r n m ch g.
Proof.
  intros (Hm&Hs&He&Hc) Hh Ho Hcl Hen. unfold observes. rewrite Hh.
  rewrite segment_app, length_app by lia. split; [lia|]. split; [done|]. split; [done|].
  destruct (chClosed ch).
  - destruct Hc as [? Hc]. split; [auto|]. destruct Hc as [?|[?|?]]; [auto..|].
    right; right. by apply ends_terminal_app.
  - destruct Ho as [-> ?]; [done|]. destruct Hc as [_ ->]. split; [done|simpl; lia].
Qed.

Lemma published_closed ev ch :
  chClosed ch = false → chClosed (published ev ch) = IsTerminal ev.
Proof. intros H. unfold published, sent. destruct (IsTerminal ev); [done|]. by destruct (_ <? _). Qed.

Lemma published_pending ev ch : pending (published ev ch) = pending (sent sub_cap ev ch).
Proof. unfold published. by destruct (IsTerminal ev). Qed.

Section publish.
Context (w : world) (r : string) (ev : RunEvent) (h : heap RunEvent).
Context (Hw : winv w).
Context (Hh : ∀ c, h !! c = if decide (c ∈ subs (bk w) r)
                            then published ev <$> chans (bk w) !! c else chans (bk w) !! c).

Let b' : Broker :=
  mkBroker (if IsTerminal ev then <[r := []]> (subscribers (bk w)) else subscribers (bk w))
    (<[r := (history (bk w) r ++ [ev])%list]> (buffer (bk w)))
    (if IsTerminal ev then {[r]} ∪ closed (bk w) else closed (bk w)) h (nextChan (bk w)).
Let w' : world := mkWorld b' (got w) (born w) (ended w).

Lemma publish_subs r' :
  subs b' r' = if IsTerminal ev && bool_decide (r = r') then [] else subs (bk w) r'.
Proof using.
  unfold b'. destruct (IsTerminal ev); simpl; [|done]. rewrite subs_insert.
  by case_bool_decide; destruct (decide (r = r')).
Qed.

Lemma publish_history r' :
  history b' r' = (history (bk w) r' ++ if decide (r = r') then [ev] else [])%list.
Proof using.
  unfold history at 1, b'; simpl. rewrite history_insert.
  destruct (decide (r = r')) as [<-|]; [done|]. by rewrite app_nil_r.
Qed.

Lemma publish_closed r' : r' ∈ closed (bk w) → r' ∈ closed b'.
Proof using. clear Hh Hw. unfold b'; simpl. destruct (IsTerminal ev); set_solver. Qed.

Lemma publish_observes_sub c n m ch g :
  c ∈ subs (bk w) r → chClosed ch = false → observes w c r n m ch g →
  observes w' c r n (S m) (published ev ch) g.
Proof using.
  intros Hc Ho (Hm&Hs&He&Hst). rewrite Ho in Hst. destruct Hst as [_ ->].
  unfold observes, w'; simpl. rewrite publish_history, decide_True by done.
  rewrite length_app; simpl. rewrite published_pending.
  destruct (stream_publish n (history (bk w) r) g ch ev) as [Hs' He']; [lia|done|done|].
  split; [lia|]. split; [done|]. split; [done|].
  rewrite published_closed, publish_subs by done.
  destruct (IsTerminal ev) eqn:Ht; simpl; [|split; [done|lia]]. split.
  - simpl. by apply elem_of_union_l, elem_of_singleton.
  - right; right. exists (length (history (bk w) r)), ev. split; [done|].
    by rewrite list_lookup_middle.
Qed.

Lemma publish_inv : winv w'.
Proof using Hw Hh.
  constructor; simpl.
  - intros c ch. rewrite Hh. destruct (decide _).
    + intros (ch0&?&_)%fmap_Some. by eapply wi_fresh.
    + by apply wi_fresh.
  - intros c r' n Hb. destruct (wi_born _ Hw _ _ _ Hb) as (ch&g&m&Hch&Hg&Hob).
    rewrite Hh, Hch, Hg. destruct (decide (c ∈ subs (bk w) r)) as [Hc|Hc].
    + destruct (wi_subs _ Hw _ _ Hc) as (ch0&n0&Hch0&Ho&Hb0).
      assert (r' = r) as -> by congruence. assert (ch0 = ch) as -> by congruence.
      eexists _, _, (S m). split; [done|]. split; [done|]. by apply publish_observes_sub.
    + eexists _, _, m. split; [done|]. split; [done|].
      eapply observes_mono; [done|apply publish_history| |apply publish_closed|done].
      intros Ho. destruct Hob as (_&_&_&Hst). rewrite Ho in Hst. destruct Hst as [Hst _].
      destruct (decide (r = r')) as [<-|Hne]; [done|]. split; [done|]. simpl. rewrite publish_subs.
      rewrite bool_decide_eq_false_2, andb_false_r by done. done.
  - intros r' c. rewrite publish_subs. rewrite Hh.
    destruct (IsTerminal ev && bool_decide (r = r')) eqn:E; [by intros ?%elem_of_nil|].
    intros Hc. destruct (wi_subs _ Hw _ _ Hc) as (ch&n&Hch&Ho&Hb). rewrite Hch.
    destruct (decide (c ∈ subs (bk w) r)) as [Hc'|]; [|by exists ch, n].
    rewrite bool_decide_eq_true_2, andb_true_r in E by (by eapply subs_disjoint).
    exists (published ev ch), n. split; [done|]. by rewrite published_closed, E.
  - intros r'. rewrite publish_subs. destruct (_ && _); [apply base.NoDup_nil_2|apply (wi_nodup _ Hw)].
Qed.
End publish.

Lemma close_inv w r h : winv w →
  (∀ c, h !! c = if decide (c ∈ subs (bk w) r)
                 then (λ ch, mkChan (pending ch) true) <$> chans (bk w) !! c else chans (bk w) !! c) →
  winv (mkWorld (mkBroker (<[r := []]> (subscribers (bk w))) (buffer (bk w)) ({[r]} ∪ closed (bk w)) h
          (nextChan (bk w))) (got w) (born w) ({[r]} ∪ ended w)).
Proof.
  intros Hw Hh. constructor; simpl.
  - intros c ch. rewrite Hh. destruct (decide _).
    + intros (ch0&?&_)%fmap_Some. by eapply wi_fresh.
    + by apply wi_fresh.
  - intros c r' n Hb. destruct (wi_born _ Hw _ _ _ Hb) as (ch&g&m&Hch&Hg&Hob).
    rewrite Hh, Hch, Hg. destruct (decide (c ∈ subs (bk w) r)) as [Hc|Hc].
    + destruct (wi_subs _ Hw _ _ Hc) as (ch0&n0&?&Ho&?). simplify_eq.
      eexists _, _, m. split; [done|]. split; [done|]. destruct Hob as (?&?&?&_).
      split; [done|]. split; [done|]. split; [done|]. simpl. set_solver.
    + eexists _, _, m. split; [done|]. split; [done|].
      eapply (observes_mono _ _ _ _ _ _ _ _ []); [done|by rewrite app_nil_r| |set_solver..].
      intros Ho. split; [done|]. destruct Hob as (_&_&_&Hst). rewrite Ho in Hst.
      simpl. rewrite subs_insert. destruct (decide (r = r')) as [->|]; naive_solver.
  - intros r' c. rewrite subs_insert. destruct (decide (r = r')) as [|Hne]; [by intros ?%elem_of_nil|].
    intros Hc. destruct (wi_subs _ Hw _ _ Hc) as (ch&n&Hch&Ho&Hb). exists ch, n. rewrite Hh.
    destruct (decide _) as [Hc'|]; [|done]. destruct Hne. by eapply subs_disjoint.
  - intros r'. rewrite subs_insert. destruct (decide _); [apply base.NoDup_nil_2|apply (wi_nodup _ Hw)].
Qed.

(** A new channel, registered unless the stream is already closed. *)
Lemma Subscribe_spec b r b' c : Subscribe b r = (b', c) →
  ∃ cl, c = nextChan b ∧ nextChan b' = S c ∧ buffer b' = buffer b ∧ closed b' = closed b ∧
    chans b' = <[c := mkChan [] cl]> (chans b) ∧ (cl = true → r ∈ closed b) ∧
    ∀ r', subs b' r' = (subs b r' ++ if negb cl && bool_decide (r = r') then [c] else [])%list.
Proof.
  intros Hs. unfold Subscribe in Hs. case_bool_decide; simplify_eq; [exists true|exists false]; simpl;
    repeat (split; [done|]); intros r'.
  - by rewrite app_nil_r.
  - rewrite subs_insert. case_bool_decide; destruct (decide (r = r')) as [->|]; try done.
    by rewrite app_nil_r.
Qed.

Lemma subscribe_inv w r b' c : winv w → Subscribe (bk w) r = (b', c) →
  winv (mkWorld b' (<[c := []]> (got w)) (<[c := (r, length (history (bk w) r))]> (born w)) (ended w)).
Proof.
  intros Hw Hs.
  assert (Hnew : ∀ c', c' ∈ subs (bk w) r → c' ≠ nextChan (bk w)).
  { intros c' Hc' ->. destruct (wi_subs _ Hw _ _ Hc') as (?&?&H&_). apply (wi_fresh _ Hw) in H. lia. }
  assert (Hold : ∀ c' r' n, born w !! c' = Some (r', n) → c' ≠ nextChan (bk w)).
  { intros c' r' n Hb ->. destruct (wi_born _ Hw _ _ _ Hb) as (?&?&?&H&_). apply (wi_fresh _ Hw) in H. lia. }
  destruct (Subscribe_spec _ _ _ _ Hs) as (cl&->&Hn&Hbf&Hcl&Hch&Hr&Hsub).
  clear Hs. set (c := nextChan (bk w)) in *.
  assert (Hhist : ∀ r', history b' r' = history (bk w) r') by (intros; unfold history; by rewrite Hbf).
  constructor; simpl.
  - intros c' ch. rewrite Hch, Hn, lookup_insert_Some. intros [[<- _]|[_ H]]; [lia|].
    apply (wi_fresh _ Hw) in H. unfold c. lia.
  - intros c' r' n. rewrite lookup_insert_Some. intros [[<- [= <- <-]]|[Hne Hb]].
    + exists (mkChan [] cl), [], (length (history (bk w) r)). rewrite Hch, !lookup_insert_eq.
      split; [done|]. split; [done|]. unfold observes; simpl. rewrite Hhist, segment_empty.
      split; [lia|]. split; [done|]. split; [done|]. destruct cl.
      * rewrite Hcl. auto.
      * rewrite Hsub. simpl. rewrite bool_decide_eq_true_2 by done. split; [|done].
        apply elem_of_app; right. by apply list_elem_of_singleton.
    + destruct (wi_born _ Hw _ _ _ Hb) as (ch&g&m&Hc'&Hg&Hob). exists ch, g, m.
      rewrite Hch, !lookup_insert_ne by done. split; [done|]. split; [done|].
      eapply (observes_mono _ _ _ _ _ _ _ _ []); [done|simpl; by rewrite Hhist, app_nil_r| |simpl; by rewrite Hcl|done].
      intros Ho. split; [done|]. simpl. rewrite Hsub. destruct Hob as (_&_&_&Hst). rewrite Ho in Hst.
      apply elem_of_app; left. apply Hst.
  - intros r' c'. rewrite Hsub. intros [Hc'|Hc']%elem_of_app.
    + destruct (wi_subs _ Hw _ _ Hc') as (ch&n&Hc&Ho&Hb). exists ch, n.
      rewrite Hch, !lookup_insert_ne by (apply not_eq_sym; by eapply Hold). done.
    + destruct cl; [by apply elem_of_nil in Hc'|]. simpl in Hc'. case_bool_decide; [|by apply elem_of_nil in Hc'].
      apply list_elem_of_singleton in Hc' as ->. subst r'. exists (mkChan [] false). eexists.
      rewrite Hch, !lookup_insert_eq. done.
  - intros r'. rewrite Hsub. destruct (negb cl && bool_decide (r = r')) eqn:E; [|rewrite app_nil_r; apply (wi_nodup _ Hw)].
    apply andb_true_iff in E as [_ E%bool_decide_eq_true]. subst r'. apply list.NoDup_app.
    split; [apply (wi_nodup _ Hw)|]. split; [|apply list.NoDup_singleton].
    intros c' Hc' ->%list_elem_of_singleton. by eapply Hnew.
Qed.

Lemma recv_inv w c v h : winv w → recv (chans (bk w)) c = Some (v, h) →
  winv (mkWorld (set_chans h (bk w)) (<[c := (default [] (got w !! c) ++ [v])%list]> (got w)) (born w) (ended w)).
Proof.
  intros Hw. unfold recv. destruct (chans (bk w) !! c) as [[[|v' l] cl]|] eqn:Hc; try done.
  intros [= -> <-].
  constructor; simpl.
  - intros c' ch. rewrite lookup_insert_Some. intros [[<- _]|[_ H]]; by eapply (wi_fresh _ Hw).
  - intros c' r n Hb. destruct (wi_born _ Hw _ _ _ Hb) as (ch&g&m&Hch&Hg&Hob).
    destruct (decide (c = c')) as [<-|Hne].
    + rewrite !lookup_insert_eq, Hg. simplify_eq. exists (mkChan l cl), (g ++ [v])%list, m.
      split; [done|]. split; [done|]. unfold observes in *; simpl in *.
      by rewrite <- (assoc_L (++)%list).
    + rewrite !lookup_insert_ne by done. by exists ch, g, m.
  - intros r c' Hc'. destruct (wi_subs _ Hw _ _ Hc') as (ch&n&Hch&Ho&Hb).
    destruct (decide (c = c')) as [<-|Hne].
    + simplify_eq. exists (mkChan l cl), n. by rewrite lookup_insert_eq.
    + exists ch, n. by rewrite lookup_insert_ne.
  - apply (wi_nodup _ Hw).
Qed.

Lemma bstep_inv w o : winv w → ∃ w', bstep w o = Some w' ∧ winv w'.
Proof.
  intros Hw. destruct o as [r ev|r|r|c]; simpl.
  - destruct (Publish_spec w r ev Hw) as (h&->&Hh). eexists. split; [done|]. by apply publish_inv.
  - destruct (Subscribe (bk w) r) as [b' c] eqn:E. eexists. split; [done|]. by apply subscribe_inv.
  - unfold Close. destruct (close_subs w r Hw) as (h&->&Hh). eexists. split; [done|]. by apply close_inv.
  - destruct (recv (chans (bk w)) c) as [[v h]|] eqn:E; eexists; (split; [done|]); [by apply recv_inv|done].
Qed.

Lemma new_world_inv : winv new_world.
Proof.
  constructor; simpl.
  - intros c ch. by rewrite lookup_empty.
  - intros c r n. by rewrite lookup_empty.
  - intros r c. unfold subs; simpl. rewrite map_get_empty. by intros ?%elem_of_nil.
  - intros r. unfold subs; simpl. rewrite map_get_empty. apply base.NoDup_nil_2.
Qed.

(** Over every interleaving of publications, subscriptions, closings and
    reads the broker never panics (no send on or second close of a closed
    channel), and every subscriber sees, in order and without duplicates, the
    events of its run from the moment it subscribed: all of them as long as at
    most 4096 were published since, otherwise a subsequence.  Its channel stays
    open until the run's terminal event, which is then the last one it is given,
    or an explicit [Close]. *)
Theorem subscriber_stream ops :
  ∃ w, brun new_world ops = Some w ∧
  ∀ c r n, born w !! c = Some (r, n) →
    ∃ ch g m, chans (bk w) !! c = Some ch ∧ got w !! c = Some g ∧ observes w c r n m ch g.
Proof.
  enough (∀ w, winv w → ∃ w', brun w ops = Some w' ∧ winv w') as H.
  { destruct (H _ new_world_inv) as (w&?&Hw). exists w. split; [done|]. apply (wi_born _ Hw). }
  induction ops as [|o ops IH]; intros w Hw; simpl; [by exists w|].
  destruct (bstep_inv w o Hw) as (w'&->&Hw'). by apply IH.
Qed.

(** ** Histories of the cancel bus *)

Inductive cop :=
| CSubscribe (r : string)
| CTake (r : string)      (* the critical section of a [PublishCancel] *)
| CSignal (c : nat)       (* one iteration of its loop *)
| CRelease (c : nat)      (* the subscription's context is done *)
| CRecv (c : nat).        (* the subscriber reads its channel *)

(** The bus with its clients: [owner] is the run of a channel, [firing] the
    channels taken by running [PublishCancel] calls and not yet signalled, [reads]
    the values each subscriber has read, [canceledRuns] the runs cancelled so far
    and [gone] the subscriptions released. *)
Record cworld := mkCWorld {
  bus : CancelBus;
  owner : gmap nat string;
  firing : list nat;
  reads : gmap nat nat;
  canceledRuns : gset string;
  gone : gset nat
}.

Definition new_cworld : cworld := mkCWorld NewCancelBus ∅ [] ∅ ∅ ∅.

Definition cstep (w : cworld) (o : cop) : option cworld :=
  match o with
  | CSubscribe r =>
      let (b, c) := SubscribeCancel (bus w) r in
      Some (mkCWorld b (<[c := r]> (owner w)) (firing w) (<[c := 0]> (reads w)) (canceledRuns w) (gone w))
  | CTake r =>
      let (b, cs) := take_cancel (bus w) r in
      Some (mkCWorld b (owner w) (firing w ++ cs) (reads w) ({[r]} ∪ canceledRuns w) (gone w))
  | CSignal c =>
      match remove_first c (firing w) with
      | None => Some w
      | Some rest =>
          match signal_one (bus w) c with
          | Some b => Some (mkCWorld b (owner w) rest (reads w) (canceledRuns w) (gone w))
          | None => None
          end
      end
  | CRelease c =>
      match owner w !! c with
      | Some r => Some (mkCWorld (release_cancel (bus w) r c) (owner w) (firing w) (reads w)
                          (canceledRuns w) ({[c]} ∪ gone w))
      | None => Some w
      end
  | CRecv c =>
      match recv (bus_chans (bus w)) c with
      | Some (_, h) => Some (mkCWorld (set_bus_chans h (bus w)) (owner w) (firing w)
                               (<[c := S (default 0 (reads w !! c))]> (reads w)) (canceledRuns w) (gone w))
      | None => Some w
      end
  end.

Fixpoint crun (w : cworld) (ops : list cop) : option cworld :=
  match ops with
  | [] => Some w
  | o :: ops => match cstep w o with Some w' => crun w' ops | None => None end
  end.

(** Not signalled yet, or signalled exactly once by a genuine cancel. *)
Definition signalled (w : cworld) (r : string) (ch : goChan unit) (k : nat) : Prop :=
  if chClosed ch then length (pending ch) + k = 1 ∧ r ∈ canceledRuns w
  else pending ch = [] ∧ k = 0.

Definition waiting (w : cworld) (c : nat) : Prop :=
  ∃ ch, bus_chans (bus w) !! c = Some ch ∧ chClosed ch = false.

Record cinv (w : cworld) : Prop := {
  ci_fresh c ch : bus_chans (bus w) !! c = Some ch → c < bus_next (bus w);
  ci_owner c r : owner w !! c = Some r →
    ∃ ch k, bus_chans (bus w) !! c = Some ch ∧ reads w !! c = Some k ∧ signalled w r ch k;
  ci_list r c : c ∈ bus_list (bus w) r →
    owner w !! c = Some r ∧ waiting w c ∧ c ∉ firing w ∧ c ∉ gone w;
  ci_firing c : c ∈ firing w → waiting w c ∧ ∃ r, owner w !! c = Some r ∧ r ∈ canceledRuns w;
  ci_nodup r : NoDup (bus_list (bus w) r);
  ci_nodup_firing : NoDup (firing w);
  ci_entries r l : bus_subs (bus w) !! r = Some l → l ≠ [];
  ci_gone c : c ∈ gone w → is_Some (owner w !! c)
}.

Lemma remove_first_some c l l' : remove_first c l = Some l' → NoDup l →
  c ∈ l ∧ NoDup l' ∧ ∀ x, x ∈ l' ↔ x ∈ l ∧ x ≠ c.
Proof.
  revert l'. induction l as [|y l IH]; intros l'; simpl; [done|].
  destruct (Nat.eqb_spec y c) as [->|Hne].
  - intros [= <-] [Hc Hnd]%list.NoDup_cons. split; [by left|]. split; [done|].
    intros x. rewrite elem_of_cons. split; [intros Hx; split; [by right|by intros ->]|naive_solver].
  - destruct (remove_first c l) as [l''|] eqn:E; [|done].
    intros [= <-] [Hy Hnd]%list.NoDup_cons. destruct (IH _ eq_refl Hnd) as (Hc&Hnd'&Hx).
    split; [by right|]. split.
    + apply list.NoDup_cons. split; [|done]. rewrite Hx. naive_solver.
    + intros x. rewrite !elem_of_cons, Hx. naive_solver.
Qed.

Lemma remove_first_none c l : remove_first c l = None → c ∉ l.
Proof.
  induction l as [|y l IH]; simpl; [by intros _ ?%elem_of_nil|].
  destruct (Nat.eqb_spec y c); [done|]. destruct (remove_first c l); [done|].
  intros _. rewrite elem_of_cons. naive_solver.
Qed.

Lemma bus_list_insert b r l h n r' :
  bus_list (mkBus (<[r := l]> (bus_subs b)) h n) r' = if decide (r = r') then l else bus_list b r'.
Proof.
  unfold bus_list; simpl. destruct (decide (r = r')) as [->|]; [by rewrite map_get_insert_eq|].
  by rewrite map_get_insert_ne.
Qed.

Lemma bus_list_delete b r h n r' :
  bus_list (mkBus (delete r (bus_subs b)) h n) r' = if decide (r = r') then [] else bus_list b r'.
Proof.
  unfold bus_list, map_get; simpl. destruct (decide (r = r')) as [->|]; [by rewrite lookup_delete_eq|].
  by rewrite lookup_delete_ne.
Qed.

(** Signalling a waiting channel leaves exactly one value in it, closed. *)
Lemma signal_one_waiting w c : cinv w → waiting w c → is_Some (owner w !! c) →
  signal_one (bus w) c = Some (set_bus_chans (<[c := mkChan [tt] true]> (bus_chans (bus w))) (bus w)).
Proof.
  intros Hw (ch&Hch&Ho) [r Hr]. destruct (ci_owner _ Hw _ _ Hr) as (ch'&k&Hc'&_&Hs).
  rewrite Hch in Hc'. injection Hc' as <-. unfold signalled in Hs. rewrite Ho in Hs. destruct Hs as [Hp _].
  unfold signal_one, signal_and_close. rewrite (try_send_open _ _ _ _ _ Hch Ho). unfold sent.
  rewrite Hp; simpl. rewrite (close_open _ _ (mkChan [tt] (chClosed ch))); [|by rewrite lookup_insert_eq|done].
  simpl. by rewrite insert_insert_eq.
Qed.

(** Steps that only touch bookkeeping preserve the per-channel facts. *)
Lemma signalled_mono w w' r ch k :
  (r ∈ canceledRuns w → r ∈ canceledRuns w') → signalled w r ch k → signalled w' r ch k.
Proof. unfold signalled. destruct (chClosed ch); naive_solver. Qed.

Lemma subscribe_cinv w r b c : cinv w → SubscribeCancel (bus w) r = (b, c) →
  cinv (mkCWorld b (<[c := r]> (owner w)) (firing w) (<[c := 0]> (reads w)) (canceledRuns w) (gone w)).
Proof.
  intros Hw [= <- <-]. set (c := bus_next (bus w)).
  assert (Hold : ∀ c' r', owner w !! c' = Some r' → c' ≠ c).
  { intros c' r' H ->. destruct (ci_owner _ Hw _ _ H) as (?&?&H'&_). apply (ci_fresh _ Hw) in H'. lia. }
  assert (Hwait : ∀ c' r', owner w !! c' = Some r' → waiting w c' →
    ∃ ch, (<[c := mkChan [] false]> (bus_chans (bus w))) !! c' = Some ch ∧ chClosed ch = false).
  { intros c' r' H (ch&?&?). exists ch. rewrite lookup_insert_ne by (apply not_eq_sym; eauto). done. }
  constructor; simpl.
  - intros c' ch. rewrite lookup_insert_Some. intros [[<- _]|[_ H]]; [lia|].
    apply (ci_fresh _ Hw) in H. lia.
  - intros c' r'. rewrite lookup_insert_Some. intros [[<- <-]|[Hne H]].
    + eexists _, _. by rewrite !lookup_insert_eq.
    + rewrite !lookup_insert_ne by done. by apply (ci_owner _ Hw).
  - intros r' c'. rewrite bus_list_insert. unfold waiting; simpl.
    assert (∀ r', c' ∈ bus_list (bus w) r' → (<[c := r]> (owner w)) !! c' = Some r' ∧
      (∃ ch, (<[c := mkChan [] false]> (bus_chans (bus w))) !! c' = Some ch ∧ chClosed ch = false) ∧
      c' ∉ firing w ∧ c' ∉ gone w) as Hin.
    { intros r'' H. destruct (ci_list _ Hw _ _ H) as (Hr&Hwt&?&?).
      rewrite lookup_insert_ne by (apply not_eq_sym; eauto). eauto. }
    destruct (decide (r = r')) as [<-|]; [|apply Hin]. intros [H|H]%elem_of_app; [by apply Hin|].
    apply list_elem_of_singleton in H as ->. rewrite !lookup_insert_eq. split; [done|].
    split; [by eexists|]. split; intros H.
    + destruct (ci_firing _ Hw _ H) as (_&?&Hr&_). by apply Hold in Hr.
    + destruct (ci_gone _ Hw _ H) as [? Hr]. by apply Hold in Hr.
  - intros c' H. destruct (ci_firing _ Hw _ H) as (Hwt&r'&Hr&?). split; [by eapply Hwait|].
    exists r'. by rewrite lookup_insert_ne by (apply not_eq_sym; eauto).
  - intros r'. rewrite bus_list_insert. destruct (decide _); [|apply (ci_nodup _ Hw)].
    apply list.NoDup_app. split; [apply (ci_nodup _ Hw)|]. split; [|apply list.NoDup_singleton].
    intros c' H ->%list_elem_of_singleton. destruct (ci_list _ Hw _ _ H) as (Hr&_). by apply Hold in Hr.
  - apply (ci_nodup_firing _ Hw).
  - intros r' l. rewrite lookup_insert_Some. intros [[_ <-]|[_ H]]; [|by eapply (ci_entries _ Hw)].
    by destruct (bus_list (bus w) r).
  - intros c' H. apply (ci_gone _ Hw) in H as [r' Hr].
    rewrite lookup_insert_ne by (apply not_eq_sym; eauto). by eexists.
Qed.

Lemma take_cinv w r : cinv w →
  cinv (mkCWorld (mkBus (delete r (bus_subs (bus w))) (bus_chans (bus w)) (bus_next (bus w))) (owner w)
          (firing w ++ bus_list (bus w) r) (reads w) ({[r]} ∪ canceledRuns w) (gone w)).
Proof.
  intros Hw. constructor; simpl.
  - apply (ci_fresh _ Hw).
  - intros c r' H. destruct (ci_owner _ Hw _ _ H) as (ch&k&?&?&Hs). exists ch, k.
    split; [done|]. split; [done|]. eapply signalled_mono, Hs. set_solver.
  - intros r' c. rewrite bus_list_delete. destruct (decide (r = r')) as [|Hne]; [by intros ?%elem_of_nil|].
    intros H. destruct (ci_list _ Hw _ _ H) as (Hr&?&?&?). repeat (split; [done|]). split; [|done].
    intros [?|H']%elem_of_app; [done|]. destruct (ci_list _ Hw _ _ H') as (Hr'&_). congruence.
  - intros c [H|H]%elem_of_app.
    + destruct (ci_firing _ Hw _ H) as (?&r'&?&?). split; [done|]. exists r'. set_solver.
    + destruct (ci_list _ Hw _ _ H) as (Hr&?&_). split; [done|]. exists r. set_solver.
  - intros r'. rewrite bus_list_delete. destruct (decide _); [apply base.NoDup_nil_2|apply (ci_nodup _ Hw)].
  - apply list.NoDup_app. split; [apply (ci_nodup_firing _ Hw)|]. split; [|apply (ci_nodup _ Hw)].
    intros c H H'. by destruct (ci_list _ Hw _ _ H') as (_&_&?&_).
  - intros r' l H. apply lookup_delete_Some in H as [_ H]. by eapply (ci_entries _ Hw).
  - apply (ci_gone _ Hw).
Qed.

Lemma signal_cinv w c rest : cinv w → remove_first c (firing w) = Some rest →
  ∃ b, signal_one (bus w) c = Some b ∧
       cinv (mkCWorld b (owner w) rest (reads w) (canceledRuns w) (gone w)).
Proof.
  intros Hw Hrm. destruct (remove_first_some _ _ _ Hrm (ci_nodup_firing _ Hw)) as (Hc&Hnd&Hin).
  destruct (ci_firing _ Hw _ Hc) as (Hwt&r&Hr&Hcr).
  eexists. split; [apply signal_one_waiting; by eauto|].
  assert (Hother : ∀ c', c' ≠ c → waiting w c' →
    ∃ ch, (<[c := mkChan [tt] true]> (bus_chans (bus w))) !! c' = Some ch ∧ chClosed ch = false).
  { intros c' Hne (ch&?&?). exists ch. by rewrite lookup_insert_ne by done. }
  constructor; simpl.
  - intros c' ch. rewrite lookup_insert_Some. intros [[<- _]|[_ H]]; [|by eapply (ci_fresh _ Hw)].
    destruct Hwt as (?&H&_). by eapply (ci_fresh _ Hw).
  - intros c' r' H. destruct (ci_owner _ Hw _ _ H) as (ch&k&Hch&Hk&Hs).
    destruct (decide (c = c')) as [<-|Hne].
    + exists (mkChan [tt] true), k. rewrite lookup_insert_eq. split; [done|]. split; [done|].
      destruct Hwt as (ch'&Hch'&Ho). simplify_eq. unfold signalled in *. rewrite Ho in Hs.
      simpl. destruct Hs as [_ ->]. done.
    + exists ch, k. by rewrite lookup_insert_ne by done.
  - intros r' c' H. destruct (ci_list _ Hw _ _ H) as (?&?&Hnf&?). split; [done|].
    split; [|split; [rewrite Hin; naive_solver|done]]. apply Hother; [by intros ->|done].
  - intros c' [H Hne]%Hin. destruct (ci_firing _ Hw _ H) as (?&?). split; [by apply Hother|done].
  - apply (ci_nodup _ Hw).
  - done.
  - apply (ci_entries _ Hw).
  - apply (ci_gone _ Hw).
Qed.

(** What releasing a subscription does to the table. *)
Lemma release_cancel_spec b r c :
  (∀ r, NoDup (bus_list b r)) →
  let b' := release_cancel b r c in
  bus_chans b' = bus_chans b ∧ bus_next b' = bus_next b ∧
  (∀ r', NoDup (bus_list b' r')) ∧
  (∀ r' x, x ∈ bus_list b' r' ↔ x ∈ bus_list b r' ∧ (r' = r → x ≠ c)).
Proof.
  intros Hb. cbv zeta. unfold release_cancel.
  destruct (remove_first c (bus_list b r)) as [l|] eqn:E.
  - destruct (remove_first_some _ _ _ E (Hb r)) as (Hc&Hnd&Hin).
    assert (∀ b', bus_chans b' = bus_chans b → bus_next b' = bus_next b →
      (∀ r', bus_list b' r' = if decide (r = r') then l else bus_list b r') →
      bus_chans b' = bus_chans b ∧ bus_next b' = bus_next b ∧ (∀ r', NoDup (bus_list b' r')) ∧
      (∀ r' x, x ∈ bus_list b' r' ↔ x ∈ bus_list b r' ∧ (r' = r → x ≠ c))) as Hgen.
    { intros b' H1 H2 H3. split; [done|]. split; [done|]. split; intros r'; rewrite H3.
      - destruct (decide _); [done|apply Hb].
      - intros x. destruct (decide (r = r')) as [->|]; [rewrite Hin|]; naive_solver. }
    destruct l as [|x l]; apply Hgen; try done; intros r'; [by rewrite bus_list_delete|by rewrite bus_list_insert].
  - apply remove_first_none in E. split; [done|]. split; [done|]. split; [done|].
    intros r' x. split; [|by intros []]. intros H. split; [done|]. by intros -> ->.
Qed.

Lemma release_cancel_entries b r c :
  (∀ r' l, bus_subs b !! r' = Some l → l ≠ []) →
  ∀ r' l, bus_subs (release_cancel b r c) !! r' = Some l → l ≠ [].
Proof.
  intros Hen r' l'. unfold release_cancel.
  destruct (remove_first c (bus_list b r)) as [[|x l]|]; simpl; [| |apply Hen].
  - intros [_ H]%lookup_delete_Some. by eapply Hen.
  - intros [[_ <-]|[_ H]]%lookup_insert_Some; [done|by eapply Hen].
Qed.

Lemma release_cinv w c r : cinv w → owner w !! c = Some r →
  cinv (mkCWorld (release_cancel (bus w) r c) (owner w) (firing w) (reads w) (canceledRuns w) ({[c]} ∪ gone w)).
Proof.
  intros Hw Hr. destruct (release_cancel_spec (bus w) r c (ci_nodup _ Hw)) as (Hch&Hnx&Hnd&Hin).
  constructor; simpl; unfold waiting; simpl; rewrite ?Hch, ?Hnx; try done; try apply Hw.
  - intros r' x [H Hne]%Hin. destruct (ci_list _ Hw _ _ H) as (Hr'&?&?&?). repeat (split; [done|]).
    assert (x ≠ c) by (intros ->; rewrite Hr in Hr'; injection Hr' as <-; by apply Hne). set_solver.
  - apply release_cancel_entries, Hw.
  - intros x [->%elem_of_singleton|H]%elem_of_union; [by eexists|by apply (ci_gone _ Hw)].
Qed.

Lemma crecv_cinv w c v h : cinv w → recv (bus_chans (bus w)) c = Some (v, h) →
  cinv (mkCWorld (set_bus_chans h (bus w)) (owner w) (firing w)
          (<[c := S (default 0 (reads w !! c))]> (reads w)) (canceledRuns w) (gone w)).
Proof.
  intros Hw. unfold recv. destruct (bus_chans (bus w) !! c) as [[[|v' l] cl]|] eqn:Hc; try done.
  intros [= -> <-].
  assert (Hwait : ∀ x, waiting w x → is_Some (owner w !! x) →
    ∃ ch, (<[c := mkChan l cl]> (bus_chans (bus w))) !! x = Some ch ∧ chClosed ch = false).
  { intros x (ch&Hch&Ho) [r Hr]. destruct (decide (c = x)) as [<-|]; [|exists ch; by rewrite lookup_insert_ne].
    simplify_eq. destruct (ci_owner _ Hw _ _ Hr) as (?&?&?&_&Hs). simplify_eq.
    unfold signalled in Hs. simpl in Ho. subst cl. by destruct Hs. }
  constructor; simpl.
  - intros x ch. rewrite lookup_insert_Some. intros [[<- _]|[_ H]]; by eapply (ci_fresh _ Hw).
  - intros x r H. destruct (ci_owner _ Hw _ _ H) as (ch&k&Hch&Hk&Hs).
    destruct (decide (c = x)) as [<-|Hne]; [|exists ch, k; by rewrite !lookup_insert_ne by done].
    simplify_eq. exists (mkChan l cl), (S k). rewrite !lookup_insert_eq, Hk. split; [done|]. split; [done|].
    unfold signalled in *. simpl in *. destruct cl; [|by destruct Hs]. split; [lia|apply Hs].
  - intros r x H. destruct (ci_list _ Hw _ _ H) as (?&?&?&?). split; [done|].
    split; [apply Hwait; by eauto|done].
  - intros x H. destruct (ci_firing _ Hw _ H) as (?&r&?&?). split; [apply Hwait; by eauto|by eauto].
  - apply (ci_nodup _ Hw).
  - apply (ci_nodup_firing _ Hw).
  - apply (ci_entries _ Hw).
  - apply (ci_gone _ Hw).
Qed.

Lemma cstep_inv w o : cinv w → ∃ w', cstep w o = Some w' ∧ cinv w'.
Proof.
  intros Hw. destruct o as [r|r|c|c|c]; simpl.
  - destruct (SubscribeCancel (bus w) r) as [b c] eqn:E. eexists. split; [done|]. by apply subscribe_cinv.
  - eexists. split; [done|]. by apply take_cinv.
  - destruct (remove_first c (firing w)) as [rest|] eqn:E; [|by eexists].
    destruct (signal_cinv _ _ _ Hw E) as (b&->&?). by eexists.
  - destruct (owner w !! c) as [r|] eqn:E; [|by eexists]. eexists. split; [done|]. by apply release_cinv.
  - destruct (recv (bus_chans (bus w)) c) as [[v h]|] eqn:E; [|by eexists].
    eexists. split; [done|]. by eapply crecv_cinv.
Qed.

Lemma new_cworld_inv : cinv new_cworld.
Proof.
  constructor; simpl; unfold bus_list; simpl; intros *; rewrite ?lookup_empty, ?map_get_empty;
    try done; try (by intros ?%elem_of_nil); try apply base.NoDup_nil_2; set_solver.
Qed.

(** The contract of a cancel subscription, over every interleaving of
    subscribers, cancellers (whose signals are sent outside the lock) and context
    cancellations: nothing panics; a subscription delivers at most one value; its
    channel is closed exactly when that value was sent, which only a genuine
    [PublishCancel] of its run does; a released subscription is out of the
    table, and a run with no subscription left has no entry. *)
Theorem cancel_subscription_contract ops :
  ∃ w, crun new_cworld ops = Some w ∧
  (∀ c r, owner w !! c = Some r →
     ∃ ch k, bus_chans (bus w) !! c = Some ch ∧ reads w !! c = Some k ∧
             k + length (pending ch) = (if chClosed ch then 1 else 0) ∧
             (chClosed ch = true → r ∈ canceledRuns w)) ∧
  (∀ r c, c ∈ gone w → c ∉ bus_list (bus w) r) ∧
  (∀ r, bus_subs (bus w) !! r ≠ Some []).
Proof.
  enough (∀ w, cinv w → ∃ w', crun w ops = Some w' ∧ cinv w') as H.
  { destruct (H _ new_cworld_inv) as (w&?&Hw). exists w. split; [done|]. split; [|split].
    - intros c r Hr. destruct (ci_owner _ Hw _ _ Hr) as (ch&k&?&?&Hs). exists ch, k.
      split; [done|]. split; [done|]. unfold signalled in Hs.
      destruct (chClosed ch); destruct Hs as [Hp Hs]; [split; [lia|done]|]. by rewrite Hp, Hs.
    - intros r c Hg Hc. by destruct (ci_list _ Hw _ _ Hc) as (_&_&_&?).
    - intros r Hr. by apply (ci_entries _ Hw) in Hr. }
  induction ops as [|o ops IH]; intros w Hw; simpl; [by exists w|].
  destruct (cstep_inv w o Hw) as (w'&->&Hw'). by apply IH.
Qed.

(** [PublishCancel] without interference is its critical section followed by the
    signals. *)
Lemma PublishCancel_steps w r b : firing w = [] →
  PublishCancel (bus w) r = Some b →
  crun w (CTake r :: (CSignal <$> bus_list (bus w) r)) =
  Some (mkCWorld b (owner w) [] (reads w) ({[r]} ∪ canceledRuns w) (gone w)).
Proof.
  intros Hf. unfold PublishCancel, take_cancel. simpl. rewrite Hf. simpl.
  generalize (mkBus (delete r (bus_subs (bus w))) (bus_chans (bus w)) (bus_next (bus w))) as b0.
  induction (bus_list (bus w) r) as [|c cs IH]; intros b0; simpl; [by intros [= ->]|].
  rewrite Nat.eqb_refl. destruct (signal_one b0 c) as [b1|]; [|done]. apply IH.
Qed.
