(* ===== verification/Stream.v ===== *)
(** * The client stream: replay, then tail

    Models [internal/api/run_events.go]: the loop that feeds a streaming client
    from the broker's replay buffer and its live subscription, drops what the
    client has already seen, fences superseded attempts, and turns a runner's
    terminal event into a durable completion before showing it.

    The server is abstract: [GetRun], [CompleteRun], [Replay] and the client's
    [emit] are operations on a world [W], so the theorems hold for every store,
    broker and client.  [select] statements, timers and context errors are inputs
    of the machine.  [Unmarshal] is the decoding of a terminal event's
    [{"status", "message"}] payload. *)

From Stdlib Require Import Ascii String.
From S2P Require Import Prelude GoStrings GoAny Transport Completion.
Local Open Scope string_scope.
Local Open Scope Z_scope.

(** What the loop reads of a run. *)
Record run_view := mkView { v_meta : gmap string any; v_status : string }.

(** The variables captured by the closures. *)
Record cursor := mkCursor {
  generation : Z;
  cursorGeneration : Z;
  seen : gmap Z Z;
  controlEvents : gset string;
  run : run_view
}.

Inductive outcome :=
| Continue            (* (false, nil) *)
| Retry               (* (false, err) *)
| Done (ok : bool).   (* (true, emit's error) *)

Inductive returned :=
| RetContext          (* ctx.Err() *)
| RetStore            (* the first GetRun failed *)
| RetEmit (ok : bool).

Section stream.
Context {W : Type}.
Variable GetRun : W → string → W * option run_view.
Variable CompleteRun : W → RunCompletion → W * option bool.
Variable Replay : W → string → W * option (list RunEvent).
Variable emit : W → RunEvent → W * bool.
Variable Unmarshal : string → option (string * string).
Variable runID : string.
Variable since : option Z.

Definition isPolicyEvent (event : RunEvent) : bool :=
  String.eqb (Method event) "tool_auth" && HasPrefix (EventID event) (runID +:+ "_tool_auth_").

(** Events ordered by their attempt's sequence numbers. *)
Definition sequenced (event : RunEvent) : bool := (0 <? Seq event) && negb (isPolicyEvent event).

Definition marked (k : cursor) (event : RunEvent) : bool :=
  if sequenced event then
    match seen k !! EvGeneration event with
    | Some seq => Seq event <=? seq
    | None => false
    end
  else negb (String.eqb (EventID event) "") && bool_decide (EventID event ∈ controlEvents k).

Definition set_seen (s : gmap Z Z) (c : gset string) (k : cursor) : cursor :=
  mkCursor (generation k) (cursorGeneration k) s c (run k).

Definition mark (k : cursor) (event : RunEvent) : cursor :=
  if sequenced event then
    if default 0 (seen k !! EvGeneration event) <? Seq event
    then set_seen (<[EvGeneration event := Seq event]> (seen k)) (controlEvents k) k
    else k
  else if negb (String.eqb (EventID event) "")
  then set_seen (seen k) ({[EventID event]} ∪ controlEvents k) k
  else k.

Definition set_generation (g : Z) (k : cursor) : cursor :=
  mkCursor g (cursorGeneration k) (seen k) (controlEvents k) (run k).
Definition set_cursor_generation (g : Z) (k : cursor) : cursor :=
  mkCursor (generation k) g (seen k) (controlEvents k) (run k).
Definition set_run (r : run_view) (k : cursor) : cursor :=
  mkCursor (generation k) (cursorGeneration k) (seen k) (controlEvents k) r.

(** [None]: [GetRun] failed and nothing changed. *)
Definition refresh (w : W) (k : cursor) : W * option cursor :=
  match GetRun w runID with
  | (w, None) => (w, None)
  | (w, Some latest) =>
      let k := set_run latest k in
      let current := MetadataGeneration (v_meta latest) AttemptGenerationKey in
      (w, Some (if generation k <? current then set_generation current k else k))
  end.

Definition legacyPolicy (event : RunEvent) : bool := (EvGeneration event =? 0) && isPolicyEvent event.

(** Already consumed by the client's [since] cursor. *)
Definition before_since (k : cursor) (event : RunEvent) : bool :=
  match since with
  | Some s => (EvGeneration event =? cursorGeneration k) && (Seq event <=? s) && negb (IsTerminal event)
  | None => false
  end.

Definition completion_of (event : RunEvent) (terminal message : string) : RunCompletion :=
  mkCompletion false None "" false runID (EvGeneration event) terminal message None.

(** The terminal status an event reports; [None] when it is not one. *)
Definition terminal_status (event : RunEvent) : option (string * string) :=
  match Unmarshal (Data event) with
  | None => None
  | Some (status, message) =>
      let terminal := if String.eqb (Method event) "end" then status else RunStatusError in
      if TerminalRunStatus terminal then Some (terminal, message) else None
  end.

(** The world, the cursor, what the client was sent, and how [consume] returned. *)
Definition consume (w : W) (k : cursor) (event : RunEvent)
  : W * cursor * list RunEvent * outcome :=
  if marked k event then (w, k, [], Continue)
  else if (EvGeneration event <? generation k) && negb (legacyPolicy event)
  then (w, mark k event, [], Continue)
  else
    let k := if cursorGeneration k <? 0 then set_cursor_generation (EvGeneration event) k else k in
    if before_since k event then (w, mark k event, [], Continue)
    else if IsTerminal event then
      match terminal_status event with
      | None => (w, mark k event, [], Continue)
      | Some (terminal, message) =>
          match CompleteRun w (completion_of event terminal message) with
          | (w, None) => (w, k, [], Retry)
          | (w, Some false) =>
              match refresh w k with
              | (w, None) => (w, k, [], Retry)
              | (w, Some k) => (w, mark k event, [], Continue)
              end
          | (w, Some true) =>
              let (w, ok) := emit w event in (w, k, if ok then [event] else [], Done ok)
          end
      end
    else
      let k := if (generation k <? EvGeneration event) && negb (isPolicyEvent event)
               then set_generation (EvGeneration event) k else k in
      let (w, ok) := emit w event in
      if ok then (w, mark k event, [event], Continue) else (w, k, [], Done false).

(** [for _, event := range past { consume ... }] *)
Fixpoint consume_all (w : W) (k : cursor) (events : list RunEvent)
  : W * cursor * list RunEvent * outcome :=
  match events with
  | [] => (w, k, [], Continue)
  | event :: rest =>
      match consume w k event with
      | (w, k, out, Continue) =>
          match consume_all w k rest with
          | (w, k, out', o) => (w, k, (out ++ out')%list, o)
          end
      | r => r
      end
  end.

(** The synthetic end event with the persisted status. *)
Definition end_event (r : run_view) : RunEvent :=
  mkEvent (MetadataGeneration (v_meta r) CompletionGenerationKey) (runID +:+ "_end") 0 "end" []
    ("{" +:+ String (ascii_of_nat 34) "status" +:+ String (ascii_of_nat 34) ":"
     +:+ String (ascii_of_nat 34) (v_status r) +:+ String (ascii_of_nat 34) "}") 0.

(** ** The loop as a machine *)

Inductive label := LTop | LSleep | LTail.

Record machine := mkMachine {
  m_world : W;
  m_cursor : cursor;
  m_channel : bool;      (* eventCh != nil *)
  m_delay : Z;           (* nanoseconds *)
  m_out : list RunEvent; (* sent to the client *)
  m_at : label
}.

Inductive state :=
| Running (m : machine)
| Returned (w : W) (out : list RunEvent) (r : returned).

(** Which case of a [select] fires, and whether [ctx.Err()] is set when it is
    consulted after a failed completion. *)
Inductive input :=
| ITop (ctxErr ctxErrLater : bool)
| ISleep (ctxDone : bool)
| ITailDone
| ITailTick
| ITailClosed
| ITailEvent (event : RunEvent) (ctxErr : bool).

Definition ms : Z := 1000000.
Definition first_delay : Z := 100 * ms.
Definition max_delay : Z := 1000 * ms.

Definition next_delay (d : Z) : Z :=
  if d <? max_delay then (if max_delay <? d * 2 then max_delay else d * 2) else d.

Definition durableEnd (w : W) (k : cursor) (out : list RunEvent) : state :=
  let (w, ok) := emit w (end_event (run k)) in
  Returned w (if ok then (out ++ [end_event (run k)])%list else out) (RetEmit ok).

Definition ended_run (k : cursor) : bool := TerminalRunStatus (v_status (run k)).

(** After a pass over the replay buffer. *)
Definition after_replay (m : machine) (w : W) (k : cursor) (out : list RunEvent) (retry : bool) : state :=
  Running (mkMachine w k (m_channel m) (m_delay m) out
             (if negb (m_channel m) || retry then LSleep else LTail)).

Definition top (m : machine) (ctxErr ctxErrLater : bool) : state :=
  if ctxErr then Returned (m_world m) (m_out m) RetContext
  else
    match Replay (m_world m) runID with
    | (w, None) =>
        match refresh w (m_cursor m) with
        | (w, Some k) =>
            if ended_run k then durableEnd w k (m_out m) else after_replay m w k (m_out m) true
        | (w, None) => after_replay m w (m_cursor m) (m_out m) true
        end
    | (w, Some past) =>
        match consume_all w (m_cursor m) past with
        | (w, _, out, Done ok) => Returned w (m_out m ++ out) (RetEmit ok)
        | (w, k, out, Retry) =>
            if ctxErrLater then Returned w (m_out m ++ out) RetContext
            else after_replay m w k (m_out m ++ out) true
        | (w, k, out, Continue) =>
            let out := (m_out m ++ out)%list in
            match refresh w k with
            | (w, None) => after_replay m w k out true
            | (w, Some k) => if ended_run k then durableEnd w k out else after_replay m w k out false
            end
        end
    end.

(** [goto replay] *)
Definition goto_replay (m : machine) (w : W) (k : cursor) (out : list RunEvent) (channel : bool) : state :=
  Running (mkMachine w k channel first_delay out LTop).

Definition tail_tick (m : machine) : state :=
  match refresh (m_world m) (m_cursor m) with
  | (w, None) => goto_replay m w (m_cursor m) (m_out m) (m_channel m)
  | (w, Some k) =>
      if ended_run k then goto_replay m w k (m_out m) (m_channel m)
      else Running (mkMachine w k (m_channel m) (m_delay m) (m_out m) LTail)
  end.

Definition tail_event (m : machine) (event : RunEvent) (ctxErr : bool) : state :=
  match consume (m_world m) (m_cursor m) event with
  | (w, _, out, Done ok) => Returned w (m_out m ++ out) (RetEmit ok)
  | (w, k, out, Retry) =>
      if ctxErr then Returned w (m_out m ++ out) RetContext
      else goto_replay m w k (m_out m ++ out) false
  | (w, k, out, Continue) =>
      Running (mkMachine w k (m_channel m) (m_delay m) (m_out m ++ out) LTail)
  end.

(** An input that does not fit the label leaves the machine blocked. *)
Definition stream_step (m : machine) (i : input) : state :=
  match m_at m, i with
  | LTop, ITop e1 e2 => top m e1 e2
  | LSleep, ISleep true => Returned (m_world m) (m_out m) RetContext
  | LSleep, ISleep false =>
      Running (mkMachine (m_world m) (m_cursor m) (m_channel m) (next_delay (m_delay m)) (m_out m) LTop)
  | LTail, ITailDone => Returned (m_world m) (m_out m) RetContext
  | LTail, ITailTick => tail_tick m
  | LTail, ITailClosed => goto_replay m (m_world m) (m_cursor m) (m_out m) false
  | LTail, ITailEvent event e => tail_event m event e
  | _, _ => Running m
  end.

Fixpoint stream_run (s : state) (ins : list input) : state :=
  match s, ins with
  | Running m, i :: ins => stream_run (stream_step m i) ins
  | _, _ => s
  end.

Definition start_cursor (r : run_view) : cursor :=
  let g := MetadataGeneration (v_meta r) AttemptGenerationKey in
  mkCursor g (match v_meta r !! AttemptGenerationKey with Some _ => g | None => -1 end) ∅ ∅ r.

(** [replayRunEvents]: the machine started on a subscription. *)
Definition replayRunEvents (w : W) (channel : bool) (ins : list input) : state :=
  match GetRun w runID with
  | (w, None) => Returned w [] RetStore
  | (w, Some r) => stream_run (Running (mkMachine w (start_cursor r) channel first_delay [] LTop)) ins
  end.

(** ** What the client sees *)

(** The relation between an earlier and a later event of one client's stream. *)
Definition follows (e1 e2 : RunEvent) : Prop :=
  IsTerminal e1 = false ∧
  (sequenced e1 = true → sequenced e2 = true → EvGeneration e1 = EvGeneration e2 → Seq e1 < Seq e2) ∧
  (sequenced e1 = false → sequenced e2 = false → EventID e1 = EventID e2 → EventID e1 = "") ∧
  (isPolicyEvent e1 = false → isPolicyEvent e2 = false → EvGeneration e1 ≤ EvGeneration e2).

Definition ordered (out : list RunEvent) : Prop :=
  ∀ i j e1 e2, (i < j)%nat → out !! i = Some e1 → out !! j = Some e2 → follows e1 e2.

(** The cursor covers everything sent so far. *)
Record covers (k : cursor) (out : list RunEvent) : Prop := {
  cov_open e : e ∈ out → IsTerminal e = false;
  cov_seen e : e ∈ out → sequenced e = true →
    ∃ s, seen k !! EvGeneration e = Some s ∧ Seq e ≤ s;
  cov_ids e : e ∈ out → sequenced e = false → EventID e = "" ∨ EventID e ∈ controlEvents k;
  cov_gen e : e ∈ out → isPolicyEvent e = false → EvGeneration e ≤ generation k
}.

(** Cursors only move forward. *)
Record forward (k k' : cursor) : Prop := {
  fw_gen : generation k ≤ generation k';
  fw_seen g s : seen k !! g = Some s → ∃ s', seen k' !! g = Some s' ∧ s ≤ s';
  fw_ids : controlEvents k ⊆ controlEvents k'
}.

Lemma forward_refl k : forward k k.
Proof using. constructor; [lia| |done]. intros g s ?. exists s. split; [done|lia]. Qed.

Lemma forward_trans k1 k2 k3 : forward k1 k2 → forward k2 k3 → forward k1 k3.
Proof using.
  intros [g1 s1 i1] [g2 s2 i2]. constructor; [lia| |by etrans].
  intros g s (s'&(s''&?&?)%s2&?)%s1. exists s''. split; [done|lia].
Qed.

Lemma forward_mark k e : forward k (mark k e).
Proof using.
  unfold mark. destruct (sequenced e).
  - destruct (Z.ltb_spec (default 0 (seen k !! EvGeneration e)) (Seq e)) as [Hlt|];
      [|apply forward_refl]. constructor; simpl; [lia| |done].
    intros g s Hg. destruct (decide (EvGeneration e = g)) as [<-|].
    + rewrite Hg in Hlt. simpl in Hlt. exists (Seq e). rewrite lookup_insert_eq. split; [done|lia].
    + exists s. rewrite lookup_insert_ne by done. split; [done|lia].
  - destruct (negb _); [|apply forward_refl]. constructor; simpl; [lia| |apply union_subseteq_r].
    intros g s ?. exists s. split; [done|lia].
Qed.

Lemma forward_gen k g : generation k ≤ g → forward k (set_generation g k).
Proof using. intros. constructor; simpl; [lia| |done]. intros ? s ?. exists s. split; [done|lia]. Qed.

Lemma covers_forward k k' out : covers k out → forward k k' → covers k' out.
Proof using.
  intros [H1 H2 H3 H4] [F1 F2 F3]. constructor; [done| | |].
  - intros e He Hs. destruct (H2 e He Hs) as (s&Hs'&?). destruct (F2 _ _ Hs') as (s'&?&?).
    exists s'. split; [done|lia].
  - intros e He Hs. destruct (H3 e He Hs); [by left|right; by apply F3].
  - intros e He Hp. specialize (H4 e He Hp). lia.
Qed.

Lemma mark_covers k out e :
  covers k out → marked k e = false → IsTerminal e = false →
  (isPolicyEvent e = false → EvGeneration e ≤ generation k) →
  covers (mark k e) (out ++ [e]).
Proof using.
  intros Hc Hm Ht Hg. pose proof (covers_forward _ _ _ Hc (forward_mark k e)) as Hc'.
  assert (generation (mark k e) = generation k) as Hgen.
  { unfold mark. repeat case_match; done. }
  constructor; intros e' [He'| ->%list_elem_of_singleton]%elem_of_app; try by apply Hc'.
  - done.
  - intros Hs. unfold mark, marked in *. rewrite Hs in *.
    apply andb_true_iff in Hs as [Hpos%Z.ltb_lt _].
    destruct (seen k !! EvGeneration e) as [s|] eqn:E; simpl.
    + apply Z.leb_gt in Hm. rewrite (proj2 (Z.ltb_lt _ _)) by done. simpl.
      exists (Seq e). rewrite lookup_insert_eq. split; [done|lia].
    + rewrite (proj2 (Z.ltb_lt _ _)) by done. simpl. exists (Seq e). rewrite lookup_insert_eq. split; [done|lia].
  - intros Hs. unfold mark. rewrite Hs. destruct (String.eqb_spec (EventID e) ""); [by left|].
    right; simpl. by apply elem_of_union_l, elem_of_singleton.
  - rewrite Hgen. done.
Qed.

Lemma ordered_nil : ordered [].
Proof using. intros i j e1 e2 _ Hi. by rewrite lookup_nil in Hi. Qed.

Lemma ordered_snoc out e :
  ordered out → (∀ e', e' ∈ out → follows e' e) → ordered (out ++ [e]).
Proof using.
  intros Ho Hf i j e1 e2 Hij Hi Hj. apply lookup_snoc_Some in Hj as [[Hj Hj']|[-> ->]].
  - apply lookup_snoc_Some in Hi as [[_ Hi']|[-> _]]; [exact (Ho _ _ _ _ Hij Hi' Hj')|lia].
  - apply lookup_snoc_Some in Hi as [[_ Hi']|[-> _]]; [|lia].
    apply Hf. by eapply list_elem_of_lookup_2.
Qed.

(** An unmarked event of a current attempt may follow everything sent. *)
Lemma covers_follows k out e :
  covers k out → marked k e = false →
  (isPolicyEvent e = false → generation k ≤ EvGeneration e) →
  ∀ e', e' ∈ out → follows e' e.
Proof using.
  intros Hc Hm Hg e' He'. split; [by eapply cov_open|]. unfold marked in Hm. split; [|split].
  - intros Hs' Hs Heq. rewrite Hs, <- Heq in Hm.
    destruct (cov_seen _ _ Hc _ He' Hs') as (s&Hs''&?). rewrite Hs'' in Hm. apply Z.leb_gt in Hm. lia.
  - intros Hs' Hs Heq. rewrite Hs in Hm. destruct (cov_ids _ _ Hc _ He' Hs') as [|Hin]; [done|].
    destruct (String.eqb_spec (EventID e) "") as [E|]; [congruence|].
    simpl in Hm. rewrite bool_decide_eq_false in Hm. by rewrite <- Heq in Hm.
  - intros Hp' Hp. pose proof (cov_gen _ _ Hc _ He' Hp'). specialize (Hg Hp). lia.
Qed.

Definition sent_events (s : state) : list RunEvent :=
  match s with Running m => m_out m | Returned _ out _ => out end.

(** ** Subscribe, replay, tail: nothing lost, nothing twice *)

Definition wanted (e : RunEvent) : bool := match since with Some s => s <? Seq e | None => true end.

Section exactly_once.
Context (hist : list RunEvent) (g : Z).

(** One attempt's progress events, numbered upwards. *)
Record attempt_log : Prop := {
  al_seq e : e ∈ hist → sequenced e = true;
  al_open e : e ∈ hist → IsTerminal e = false;
  al_gen e : e ∈ hist → EvGeneration e = g;
  al_sorted i j e1 e2 : (i < j)%nat → hist !! i = Some e1 → hist !! j = Some e2 → Seq e1 < Seq e2
}.

(** The sequence number of the last of the first [p] events. *)
Definition high (p : nat) : Z := match list.last (take p hist) with Some e => Seq e | None => 0 end.

(** The cursor has consumed exactly the first [p] events. *)
Definition caught_up (k : cursor) (p : nat) : Prop :=
  generation k = g ∧ cursorGeneration k = g ∧ default 0 (seen k !! g) = high p ∧ (p ≤ length hist)%nat.

Context (Hlog : attempt_log).
Context (Hemit : ∀ w e, (emit w e).2 = true).
Context (Hg : 0 ≤ g).

Lemma high_S i e : hist !! i = Some e → high (S i) = Seq e.
Proof using. intros H. unfold high. by rewrite (take_S_r _ _ _ H), last_snoc. Qed.

Lemma high_mark i e p : hist !! i = Some e → (p ≤ length hist)%nat → (Seq e <=? high p) = (i <? p)%nat.
Proof using Hlog.
  intros Hi Hp. destruct p as [|p].
  - unfold high; simpl. assert (sequenced e = true) as Hs by (eapply al_seq; [done|by eapply list_elem_of_lookup_2]).
    apply andb_true_iff in Hs as [Hs%Z.ltb_lt _]. by apply Z.leb_gt.
  - destruct (lookup_lt_is_Some_2 hist p) as [e' He']; [lia|]. rewrite (high_S _ _ He').
    destruct (Nat.ltb_spec i (S p)) as [Hlt|Hge].
    + apply Z.leb_le. destruct (decide (i = p)) as [->|]; [simplify_eq; lia|].
      enough (Seq e < Seq e') by lia. eapply al_sorted; [done| |done..]. lia.
    + apply Z.leb_gt. eapply al_sorted; [done| |done..]. lia.
Qed.

Lemma consume_one w k p i e : caught_up k p → hist !! i = Some e → (i ≤ p)%nat →
  ∃ w' k', consume w k e = (w', k', if (i <? p)%nat then [] else List.filter wanted [e], Continue) ∧
           caught_up k' (p `max` S i).
Proof using Hlog Hemit Hg.
  intros (Hk1&Hk2&Hk3&Hp) Hi Hip.
  assert (He : e ∈ hist) by by eapply list_elem_of_lookup_2.
  pose proof (al_seq Hlog _ He) as Hs. pose proof (al_open Hlog _ He) as Ht.
  pose proof (al_gen Hlog _ He) as Hge. pose proof (high_mark _ _ _ Hi Hp) as Hh.
  pose proof (lookup_lt_Some _ _ _ Hi).
  assert (Hpos : 0 < Seq e) by (apply andb_true_iff in Hs as [Hs%Z.ltb_lt _]; done).
  assert (Hpol : isPolicyEvent e = false) by (apply andb_true_iff in Hs as [_ Hs]; by destruct (isPolicyEvent e)).
  assert (Hm : marked k e = (i <? p)%nat).
  { unfold marked. rewrite Hs, Hge, <- Hh, <- Hk3. destruct (seen k !! g); [done|].
    simpl. symmetry. by apply Z.leb_gt. }
  unfold consume. rewrite Hm. destruct (Nat.ltb_spec i p) as [Hlt|Hge'].
  { exists w, k. split; [done|]. by replace (p `max` S i)%nat with p by lia. }
  assert (i = p) as -> by lia. apply Z.leb_gt in Hh.
  assert (Hmark : ∀ k0, generation k0 = g → cursorGeneration k0 = g → seen k0 = seen k →
            caught_up (mark k0 e) (p `max` S p)).
  { intros k0 H1 H2 H3. unfold mark. rewrite Hs, H3, Hge, Hk3, (proj2 (Z.ltb_lt _ _)) by done.
    replace (p `max` S p)%nat with (S p) by lia. repeat (split; [done|]). simpl.
    rewrite lookup_insert_eq, (high_S _ _ Hi). split; [done|lia]. }
  rewrite Hge, Hk1, Z.ltb_irrefl. simpl. rewrite Hk2, (proj2 (Z.ltb_ge _ _)) by done.
  unfold before_since, wanted. destruct since as [s|] eqn:Es.
  - rewrite Hge, Hk2, Z.eqb_refl, Ht, andb_true_r. simpl.
    destruct (Z.leb_spec (Seq e) s).
    + rewrite (proj2 (Z.ltb_ge s (Seq e))) by lia. eexists _, _. split; [done|]. by apply Hmark.
    + rewrite (proj2 (Z.ltb_lt s (Seq e))) by lia. rewrite ?Hge, Hk1, Z.ltb_irrefl. simpl.
      specialize (Hemit w e). destruct (emit w e) as [w' ok]. simpl in Hemit. subst ok.
      eexists _, _. split; [done|]. by apply Hmark.
  - rewrite Ht, ?Hge, Hk1, Z.ltb_irrefl. simpl.
    specialize (Hemit w e). destruct (emit w e) as [w' ok]. simpl in Hemit. subst ok.
    eexists _, _. split; [done|]. by apply Hmark.
Qed.

Lemma consume_segment w k p i j : caught_up k p → (i ≤ p)%nat → (j ≤ length hist)%nat →
  ∃ w' k', consume_all w k (segment i j hist) =
             (w', k', List.filter wanted (segment p (p `max` j) hist), Continue) ∧
           caught_up k' (p `max` j).
Proof using Hlog Hemit Hg.
  remember (segment i j hist) as l eqn:El. revert w k p i El.
  induction l as [|e l IH]; intros w k p i El Hk Hip Hj; cbn [consume_all].
  - assert (j ≤ i)%nat.
    { apply (f_equal length) in El. rewrite length_segment in El by done. simpl in El. lia. }
    exists w, k. replace (p `max` j)%nat with p by lia. by rewrite segment_empty.
  - assert (Hij : (i < j)%nat).
    { apply (f_equal length) in El. rewrite length_segment in El by done. simpl in El. lia. }
    destruct (lookup_lt_is_Some_2 hist i) as [e' He']; [lia|].
    assert (e = e' ∧ l = segment (S i) j hist) as [-> ->].
    { unfold segment in *. rewrite (drop_S _ e' i) in El by (by rewrite lookup_take_lt).
      by injection El. }
    destruct (consume_one w k p i e' Hk He' Hip) as (w1&k1&->&Hk1).
    destruct (IH w1 k1 (p `max` S i)%nat (S i) eq_refl Hk1) as (w2&k2&->&Hk2); [lia|done|].
    replace ((p `max` S i) `max` j)%nat with (p `max` j)%nat in * by lia.
    exists w2, k2. split; [|done]. f_equal. f_equal.
    destruct (Nat.ltb_spec i p); [by replace (p `max` S i)%nat with p by lia|].
    assert (i = p) as -> by lia. replace (p `max` S p)%nat with (S p) by lia.
    rewrite <- List.filter_app. f_equal. unfold segment.
    rewrite (drop_S _ e' p); [done|]. rewrite lookup_take_lt by lia. done.
Qed.
End exactly_once.

(** Tailing consumes one event per input. *)
Lemma tail_consume_all m l w k new :
  m_at m = LTail → consume_all (m_world m) (m_cursor m) l = (w, k, new, Continue) →
  stream_run (Running m) ((λ e, ITailEvent e false) <$> l) =
  Running (mkMachine w k (m_channel m) (m_delay m) (m_out m ++ new) LTail).
Proof using.
  revert m new. induction l as [|e l IH]; intros m new Hat; cbn [consume_all fmap list_fmap].
  - intros [= <- <- <-]. rewrite app_nil_r. destruct m; simpl in *. by subst.
  - destruct (consume (m_world m) (m_cursor m) e) as [[[w1 k1] new1] []] eqn:Hc; try done.
    destruct (consume_all w1 k1 l) as [[[w2 k2] new2] o] eqn:Hl. intros [= <- <- <- ->].
    cbn [stream_run]. unfold stream_step. rewrite Hat. unfold tail_event. rewrite Hc.
    rewrite (IH (mkMachine w1 k1 (m_channel m) (m_delay m) (m_out m ++ new1) LTail) _ eq_refl Hl).
    simpl. by rewrite (assoc_L (++)%list).
Qed.

(** Subscribe first, then replay, then tail: when the subscription was made
    after [n] events of the attempt, the replay returned the first [a >= n] and
    the subscription delivered events [n] to [m-1] (the overlap twice), the client
    is sent exactly the events after its [since] cursor among the first
    [max a m], each once and in order. *)
Theorem replay_then_tail w r hist g a n m :
  (∀ w, GetRun w runID = (w, Some r)) →
  (∀ w, Replay w runID = (w, Some (take a hist))) →
  (∀ w e, (emit w e).2 = true) →
  TerminalRunStatus (v_status r) = false →
  is_Some (v_meta r !! AttemptGenerationKey) →
  MetadataGeneration (v_meta r) AttemptGenerationKey = g → 0 ≤ g →
  attempt_log hist g →
  (n ≤ a ≤ length hist)%nat → (m ≤ length hist)%nat →
  sent_events (replayRunEvents w true (ITop false false ::
     ((λ e, ITailEvent e false) <$> segment n m hist))) =
  List.filter wanted (take (a `max` m) hist).
Proof using.
  intros Hget Hrep Hemit Hst [v Hv] Hgen Hg Hlog [Hna Ha] Hm.
  unfold replayRunEvents. rewrite Hget. cbn [stream_run stream_step m_at]. unfold top. cbn [m_world m_cursor m_out].
  rewrite Hrep.
  destruct (consume_segment hist g Hlog Hemit Hg w (start_cursor r) 0 0 a) as (w1&k1&Hc1&Hk1); [|lia|lia|].
  { unfold start_cursor. rewrite Hv, Hgen. split; [done|]. split; [done|]. split; [done|lia]. }
  rewrite Nat.max_0_l in *. replace (segment 0 a hist) with (take a hist) in Hc1 by done.
  rewrite Hc1. unfold refresh. rewrite Hget, Hgen.
  assert (Hk1g : generation k1 = g) by apply Hk1.
  change (generation (set_run r k1)) with (generation k1). rewrite Hk1g, Z.ltb_irrefl.
  unfold ended_run. simpl (v_status _). rewrite Hst. unfold after_replay. cbn [m_channel m_delay negb orb].
  destruct (consume_segment hist g Hlog Hemit Hg w1 (set_run r k1) a n m) as (w2&k2&Hc2&Hk2); [done|done|done|].
  rewrite (tail_consume_all (mkMachine w1 (set_run r k1) true first_delay
             ([] ++ List.filter wanted (take a hist)) LTail) _ w2 k2 _ eq_refl Hc2). simpl.
  rewrite <- List.filter_app. f_equal. unfold segment.
  rewrite <- (take_drop a (take (a `max` m) hist)) at 2. f_equal.
  rewrite take_take. f_equal. lia.
Qed.
End stream.

(** ** What the client was shown, and what the server had said by then *)

(** What the loop learnt and did: a run it read, the answer to a completion, an
    event the client took. *)
Inductive action :=
| ARead (r : run_view)
| AComplete (c : RunCompletion) (accepted : bool)
| AEmit (e : RunEvent).

Definition emitted (l : list action) : list RunEvent := omap (λ a, match a with AEmit e => Some e | _ => None end) l.

(** The attempt a run is in. *)
Definition attempt_of (r : run_view) : Z := MetadataGeneration (v_meta r) AttemptGenerationKey.

Lemma emitted_app l l' : emitted (l ++ l') = (emitted l ++ emitted l')%list.
Proof. apply omap_app. Qed.

Section logged.
Context {W : Type}.
Variable GetRun : W → string → W * option run_view.
Variable CompleteRun : W → RunCompletion → W * option bool.
Variable Replay : W → string → W * option (list RunEvent).
Variable emit : W → RunEvent → W * bool.
Variable Unmarshal : string → option (string * string).
Variable runID : string.
Variable since : option Z.

(** The server and the client again, with a log beside them that they do not see. *)
Local Notation logged := (W * list action)%type.

Definition log_GetRun (w : logged) (id : string) : logged * option run_view :=
  match GetRun w.1 id with
  | (w1, Some r) => ((w1, (w.2 ++ [ARead r])%list), Some r)
  | (w1, None) => ((w1, w.2), None)
  end.

Definition log_CompleteRun (w : logged) (c : RunCompletion) : logged * option bool :=
  match CompleteRun w.1 c with
  | (w1, Some b) => ((w1, (w.2 ++ [AComplete c b])%list), Some b)
  | (w1, None) => ((w1, w.2), None)
  end.

Definition log_Replay (w : logged) (id : string) : logged * option (list RunEvent) :=
  let (w1, past) := Replay w.1 id in ((w1, w.2), past).

Definition log_emit (w : logged) (e : RunEvent) : logged * bool :=
  match emit w.1 e with
  | (w1, true) => ((w1, (w.2 ++ [AEmit e])%list), true)
  | (w1, false) => ((w1, w.2), false)
  end.

Notation isPolicyEvent := (isPolicyEvent runID).
Notation legacyPolicy := (legacyPolicy runID).
Notation marked := (marked runID).
Notation mark := (mark runID).
Notation ordered := (ordered runID).
Notation covers := (covers runID).
Notation terminal_status := (terminal_status Unmarshal).
Notation completion_of := (completion_of runID).
Notation end_event := (end_event runID).
Notation refresh := (refresh log_GetRun runID).
Notation consume := (consume log_GetRun log_CompleteRun log_emit Unmarshal runID since).
Notation consume_all := (consume_all log_GetRun log_CompleteRun log_emit Unmarshal runID since).
Notation durableEnd := (durableEnd log_emit runID).
Notation top := (top log_GetRun log_CompleteRun log_Replay log_emit Unmarshal runID since).
Notation stream_step := (stream_step log_GetRun log_CompleteRun log_Replay log_emit Unmarshal runID since).
Notation stream_run := (stream_run log_GetRun log_CompleteRun log_Replay log_emit Unmarshal runID since).
Notation replayRunEvents := (replayRunEvents log_GetRun log_CompleteRun log_Replay log_emit Unmarshal runID since).

(** No event of an attempt older than one the server had named is shown, but for
    the policy notices that carry no attempt. *)
Definition fenced (l : list action) : Prop :=
  ∀ l1 e l2, l = (l1 ++ AEmit e :: l2)%list →
    legacyPolicy e = true ∨ ∀ r, ARead r ∈ l1 → attempt_of r ≤ EvGeneration e.

(** What a client may have been shown: unfinished events in order, then nothing,
    or a runner's terminal event right after its completion was accepted, or the
    end event of a run that was just read and is over. *)
Definition client_log (l : list action) : Prop :=
  ∃ pre fin, l = (pre ++ fin)%list ∧
    ordered (emitted pre) ∧ Forall (λ e, IsTerminal e = false) (emitted pre) ∧ fenced pre ∧
    (fin = [] ∨
     (∃ e st msg, fin = [AComplete (completion_of e st msg) true; AEmit e] ∧ IsTerminal e = true ∧
        terminal_status e = Some (st, msg) ∧ ordered (emitted l) ∧ fenced l) ∨
     (∃ r, fin = [ARead r; AEmit (end_event r)] ∧ TerminalRunStatus (v_status r) = true)).

(** While the loop runs, its cursor covers its log. *)
Record log_ok (k : cursor) (l : list action) : Prop := {
  lo_covers : covers k (emitted l);
  lo_ordered : ordered (emitted l);
  lo_gen r : ARead r ∈ l → attempt_of r ≤ generation k;
  lo_fenced : fenced l
}.

Lemma fenced_snoc l a :
  fenced l → (∀ e, a = AEmit e → legacyPolicy e = true ∨ ∀ r, ARead r ∈ l → attempt_of r ≤ EvGeneration e) →
  fenced (l ++ [a])%list.
Proof using.
  intros Hl Ha l1 e l2 H. destruct l2 as [|b l2] using rev_ind.
  - apply app_inj_tail in H as [<- ->]. by apply Ha.
  - rewrite app_comm_cons, app_assoc in H. apply app_inj_tail in H as [-> _]. by eapply Hl.
Qed.

Lemma log_ok_forward k k' l : log_ok k l → forward k k' → log_ok k' l.
Proof using.
  intros [Hc Ho Hg Hf] Hk. constructor; [by eapply covers_forward|done| |done].
  intros r Hr. specialize (Hg r Hr). destruct Hk. lia.
Qed.

(** An answer that shows the client nothing. *)
Lemma log_ok_complete k l c b : log_ok k l → log_ok k (l ++ [AComplete c b])%list.
Proof using.
  intros [Hc Ho Hg Hf]. constructor; rewrite ?emitted_app, ?app_nil_r; [done..| |by apply fenced_snoc].
  intros r [Hr|Hr%list_elem_of_singleton]%elem_of_app; [by apply Hg|done].
Qed.

Lemma log_ok_read k k' l r :
  log_ok k l → forward k k' → attempt_of r ≤ generation k' → log_ok k' (l ++ [ARead r])%list.
Proof using.
  intros Hk Hf Hr. destruct (log_ok_forward _ _ _ Hk Hf) as [Hc Ho Hg Hfe].
  constructor; rewrite ?emitted_app, ?app_nil_r; [done..| |by apply fenced_snoc].
  intros r' [Hr'|Hr'%list_elem_of_singleton]%elem_of_app; [by apply Hg|congruence].
Qed.

Lemma log_ok_client k l : log_ok k l → client_log l.
Proof using.
  intros [Hc Ho Hg Hf]. exists l, []. rewrite app_nil_r. split_and!; try done; [|by left].
  apply list.Forall_forall. apply (cov_open _ _ _ Hc).
Qed.

Lemma refresh_logged w l k w' o : refresh (w, l) k = (w', o) →
  match o with
  | None => w'.2 = l
  | Some k' => w'.2 = (l ++ [ARead (run k')])%list ∧ forward k k' ∧ attempt_of (run k') ≤ generation k'
  end.
Proof using.
  unfold Stream.refresh, log_GetRun. simpl. destruct (GetRun w runID) as [w1 [r|]]; intros [= <- <-]; [|done].
  fold (attempt_of r). destruct (Z.ltb_spec (generation k) (attempt_of r)); (split; [done|]); simpl;
    (split; [|lia]); constructor; simpl; try lia; try done; intros ? s ?; exists s; (split; [done|lia]).
Qed.

Lemma refresh_ok w l k w' k' : log_ok k l → refresh (w, l) k = (w', Some k') →
  w'.2 = (l ++ [ARead (run k')])%list ∧ log_ok k' w'.2.
Proof using.
  intros Hk Hr. apply refresh_logged in Hr as (E&?&?). rewrite E. split; [done|]. by eapply log_ok_read.
Qed.

Lemma refresh_none w l k w' : refresh (w, l) k = (w', None) → w'.2 = l.
Proof using. apply refresh_logged. Qed.

(** A step's result: the log is extended by what was sent, and still describes
    what a client may see. *)
Definition step_ok (l : list action) (r : logged * cursor * list RunEvent * outcome) : Prop :=
  match r with
  | (w, k, new, o) =>
      emitted w.2 = (emitted l ++ new)%list ∧
      match o with Done _ => client_log w.2 | _ => log_ok k w.2 end
  end.

Lemma step_ok_silent w l k o : log_ok k l → step_ok l ((w, l), k, [], o).
Proof using.
  intros H. split; [by rewrite app_nil_r|]. destruct o; try done. by eapply log_ok_client.
Qed.

(** An accepted terminal is the last thing shown. *)
Lemma step_ok_terminal w l k event st msg :
  log_ok k l → marked k event = false → IsTerminal event = true →
  (legacyPolicy event = false → generation k ≤ EvGeneration event) →
  (isPolicyEvent event = false → generation k ≤ EvGeneration event) →
  terminal_status event = Some (st, msg) →
  step_ok l (let (w', ok) := log_emit (w, (l ++ [AComplete (completion_of event st msg) true])%list) event in
             (w', k, if ok then [event] else [], Done ok)).
Proof using.
  intros Hk Hm Ht Hl Hp Hst. pose proof (log_ok_complete k l (completion_of event st msg) true Hk) as Hk1.
  unfold log_emit. simpl. destruct (emit w event) as [w1 []]; simpl.
  2: { split; [by rewrite !emitted_app, !app_nil_r|by eapply log_ok_client]. }
  split; [by rewrite !emitted_app, app_nil_r|]. destruct Hk as [Hc Ho Hg Hf].
  exists l, [AComplete (completion_of event st msg) true; AEmit event]. rewrite <- app_assoc.
  split; [done|]. split; [done|]. split; [apply list.Forall_forall, (cov_open _ _ _ Hc)|]. split; [done|].
  right. left. exists event, st, msg. split; [done|]. split; [done|]. split; [done|]. split.
  - rewrite emitted_app. simpl. apply ordered_snoc; [done|]. by eapply covers_follows.
  - change (fenced (l ++ [AComplete (completion_of event st msg) true] ++ [AEmit event])%list).
    rewrite app_assoc. apply fenced_snoc; [apply Hk1|]. intros e [= <-].
    destruct (legacyPolicy event) eqn:El; [by left|right]. intros r Hr. pose proof (lo_gen _ _ Hk1 r Hr).
    specialize (Hl eq_refl). lia.
Qed.

(** A current, unseen progress event is sent and marked. *)
Lemma step_ok_progress w l k event :
  log_ok k l → marked k event = false → IsTerminal event = false →
  (legacyPolicy event = false → generation k ≤ EvGeneration event) →
  (isPolicyEvent event = false → generation k ≤ EvGeneration event) →
  let k' := if (generation k <? EvGeneration event) && negb (isPolicyEvent event)
            then set_generation (EvGeneration event) k else k in
  step_ok l (let (w', ok) := log_emit (w, l) event in
             if ok then (w', mark k' event, [event], Continue) else (w', k', [], Done false)).
Proof using.
  intros Hk Hm Ht Hl Hp k'.
  assert (Hf : forward k k').
  { unfold k'. destruct (Z.ltb_spec (generation k) (EvGeneration event)); simpl; [|apply forward_refl].
    destruct (isPolicyEvent event); simpl; [apply forward_refl|apply forward_gen; lia]. }
  unfold log_emit. simpl. destruct (emit w event) as [w1 []]; simpl.
  2: { split; [by rewrite app_nil_r|by eapply log_ok_client]. }
  split; [by rewrite emitted_app|]. constructor.
  - rewrite emitted_app. simpl. apply mark_covers; [eapply covers_forward; [apply Hk|done]| |done|].
    + unfold k'. by destruct (_ && _).
    + intros Hpe. specialize (Hp Hpe). unfold k'. rewrite Hpe.
      destruct (Z.ltb_spec (generation k) (EvGeneration event)); simpl; lia.
  - rewrite emitted_app. simpl. apply ordered_snoc; [apply Hk|]. eapply covers_follows; [apply Hk|done..].
  - intros r [Hr|Hr%list_elem_of_singleton]%elem_of_app; [|done].
    pose proof (lo_gen _ _ Hk r Hr). pose proof (fw_gen _ _ (forward_trans _ _ _ Hf (forward_mark runID k' event))). lia.
  - apply fenced_snoc; [apply Hk|]. intros e [= <-]. destruct (legacyPolicy event) eqn:El; [by left|right].
    intros r Hr. pose proof (lo_gen _ _ Hk r Hr). specialize (Hl eq_refl). lia.
Qed.

Lemma consume_ok w l k event : log_ok k l → step_ok l (consume (w, l) k event).
Proof using.
  intros Hk. unfold Stream.consume. destruct (marked k event) eqn:Hm; [by apply step_ok_silent|].
  assert (Hmk : ∀ k0 l0, log_ok k0 l0 → log_ok (mark k0 event) l0)
    by (intros k0 l0 H; eapply log_ok_forward; [exact H|apply forward_mark]).
  destruct ((EvGeneration event <? generation k) && negb (legacyPolicy event)) eqn:Hg;
    [by apply step_ok_silent, Hmk|].
  assert (Hl : legacyPolicy event = false → generation k ≤ EvGeneration event).
  { intros E. rewrite E in Hg. simpl in Hg. rewrite andb_true_r in Hg. by apply Z.ltb_ge. }
  assert (Hp : isPolicyEvent event = false → generation k ≤ EvGeneration event).
  { intros Hp. apply Hl. unfold Stream.legacyPolicy. by rewrite Hp, andb_false_r. }
  set (k1 := if cursorGeneration k <? 0 then set_cursor_generation (EvGeneration event) k else k).
  assert (Hk1 : log_ok k1 l ∧ generation k1 = generation k ∧ marked k1 event = false).
  { unfold k1. destruct (cursorGeneration k <? 0); [|by split; [|split]]. split; [|split; [done|exact Hm]].
    eapply log_ok_forward; [exact Hk|]. constructor; simpl; [lia| |done]. intros ? s ?. exists s. split; [done|lia]. }
  clearbody k1. destruct Hk1 as (Hk1&Hgen&Hm1). rewrite <- Hgen in Hl, Hp.
  destruct (before_since since k1 event); [by apply step_ok_silent, Hmk|].
  destruct (IsTerminal event) eqn:Ht; [|by apply step_ok_progress].
  destruct (terminal_status event) as [[st msg]|] eqn:Hst; [|by apply step_ok_silent, Hmk].
  unfold log_CompleteRun. simpl. destruct (CompleteRun w (completion_of event st msg)) as [w1 [[]|]].
  - by apply step_ok_terminal.
  - pose proof (log_ok_complete k1 l (completion_of event st msg) false Hk1) as Hk2.
    destruct (refresh _ k1) as [w2 [k2|]] eqn:Hr.
    + apply refresh_ok in Hr as [E ?]; [|done]. split; [by rewrite E, !emitted_app, !app_nil_r|]. by apply Hmk.
    + apply refresh_none in Hr. split; rewrite Hr; [by rewrite emitted_app|done].
  - by apply step_ok_silent.
Qed.

Lemma consume_all_ok w l k events : log_ok k l → step_ok l (consume_all (w, l) k events).
Proof using.
  revert w l k. induction events as [|event rest IH]; intros w l k Hk;
    cbn [Stream.consume_all]; [by apply step_ok_silent|].
  pose proof (consume_ok w l k event Hk) as H.
  destruct (consume (w, l) k event) as [[[[w1 l1] k1] new] []]; [|done..].
  destruct H as [E H]. specialize (IH w1 l1 k1 H).
  destruct (consume_all (w1, l1) k1 rest) as [[[w2 k2] new'] o]. destruct IH as [E' IH]. split; [|done].
  simpl in E. by rewrite E', E, (assoc_L (++)%list).
Qed.

Definition state_ok (s : state (W := logged)) : Prop :=
  match s with
  | Running m => m_out m = emitted (m_world m).2 ∧ log_ok (m_cursor m) (m_world m).2
  | Returned w out _ => out = emitted w.2 ∧ client_log w.2
  end.

Lemma durableEnd_ok w l k : log_ok k l → ended_run k = true →
  state_ok (durableEnd (w, (l ++ [ARead (run k)])%list) k (emitted (l ++ [ARead (run k)]))).
Proof using.
  intros Hk He. unfold Stream.durableEnd, log_emit. simpl.
  assert (Hf : fenced (l ++ [ARead (run k)])%list) by (by apply fenced_snoc; [apply Hk|]).
  assert (Hopen : Forall (λ e, IsTerminal e = false) (emitted l))
    by apply list.Forall_forall, (cov_open _ _ _ (lo_covers _ _ Hk)).
  destruct (emit w (end_event (run k))) as [w1 []]; simpl.
  - split; [by rewrite !emitted_app|]. exists l, [ARead (run k); AEmit (end_event (run k))].
    rewrite <- app_assoc. split; [done|]. split; [apply Hk|]. split; [done|]. split; [apply Hk|]. right. right. by eexists.
  - split; [done|]. exists (l ++ [ARead (run k)])%list, []. rewrite app_nil_r. split; [done|].
    rewrite emitted_app, app_nil_r. split; [apply Hk|]. by split_and!; [..|left].
Qed.

(** A run just read: the loop ends with its status, or goes on. *)
Lemma refreshed_ok w l k w' k' (rest : state) :
  log_ok k l → refresh (w, l) k = (w', Some k') →
  (log_ok k' w'.2 → emitted w'.2 = emitted l → state_ok rest) →
  state_ok (if ended_run k' then durableEnd w' k' (emitted l) else rest).
Proof using.
  intros Hk Hr Hrest. pose proof (refresh_logged _ _ _ _ _ Hr) as (E&Hf&_).
  pose proof (refresh_ok _ _ _ _ _ Hk Hr) as [_ Hk'].
  assert (Hem : emitted w'.2 = emitted l) by (by rewrite E, emitted_app, app_nil_r).
  destruct (ended_run k') eqn:He; [|by apply Hrest]. rewrite <- Hem. destruct w' as [w1 l1]. simpl in *. subst l1.
  apply durableEnd_ok; [by eapply log_ok_forward|done].
Qed.

Lemma top_ok m e1 e2 : m_out m = emitted (m_world m).2 → log_ok (m_cursor m) (m_world m).2 → state_ok (top m e1 e2).
Proof using.
  intros Hout Hm. destruct m as [[w l] k ch delay out at_]. simpl in *. subst out. unfold Stream.top. simpl.
  destruct e1; [split; [done|by eapply log_ok_client]|].
  unfold log_Replay. simpl. destruct (Replay w runID) as [w1 [past|]].
  - pose proof (consume_all_ok w1 l k past Hm) as H.
    destruct (consume_all (w1, l) k past) as [[[[w2 l2] k2] new] []]; destruct H as [E H]; simpl in E, H; rewrite <- E.
    + destruct (refresh (w2, l2) k2) as [w3 [k3|]] eqn:Hr.
      * eapply refreshed_ok; [done..|]. by intros; split.
      * apply refresh_none in Hr. by split; simpl; rewrite Hr.
    + destruct e2; [split; [done|by eapply log_ok_client]|]. done.
    + done.
  - destruct (refresh (w1, l) k) as [w2 [k2|]] eqn:Hr.
    + eapply refreshed_ok; [done..|]. by intros; split.
    + apply refresh_none in Hr. by split; simpl; rewrite Hr.
Qed.

Lemma stream_step_ok m i : m_out m = emitted (m_world m).2 → log_ok (m_cursor m) (m_world m).2 → state_ok (stream_step m i).
Proof using.
  intros Hout Hm. pose proof (log_ok_client _ _ Hm). unfold Stream.stream_step.
  destruct (m_at m), i as [e1 e2|[]| | | |event e]; try done.
  - by apply top_ok.
  - unfold tail_tick. destruct m as [[w l] k ch delay out at_]. simpl in *. subst out.
    destruct (refresh (w, l) k) as [w1 [k1|]] eqn:Hr.
    + pose proof (refresh_ok _ _ _ _ _ Hm Hr) as [E ?].
      assert (emitted l = emitted w1.2) by (by rewrite E, emitted_app, app_nil_r). by destruct (ended_run k1).
    + apply refresh_none in Hr. by split; simpl; rewrite Hr.
  - unfold tail_event. destruct m as [[w l] k ch delay out at_]. simpl in *. subst out.
    pose proof (consume_ok w l k event Hm) as H'.
    destruct (consume (w, l) k event) as [[[[w1 l1] k1] new] []]; destruct H' as [E H']; simpl in E, H'; rewrite <- E;
      [done| |done]. destruct e; [split; [done|by eapply log_ok_client]|done].
Qed.

Lemma stream_run_ok s ins : state_ok s → state_ok (stream_run s ins).
Proof using.
  revert s. induction ins as [|i ins IH]; intros [m|w out r] Hs; cbn [Stream.stream_run]; try done.
  apply IH. by apply stream_step_ok; destruct Hs.
Qed.

Definition log_of (s : state (W := logged)) : list action :=
  match s with Running m => (m_world m).2 | Returned w _ _ => w.2 end.

End logged.

Definition demo_event (seq : Z) : RunEvent := mkEvent 1 "e" seq "values" [] "{}" 0.
Definition demo_hist : list RunEvent := demo_event <$> [1; 2; 4; 7].
Definition demo_run : run_view := mkView {[ AttemptGenerationKey := AInt64 1 ]} RunStatusRunning.

Lemma replay_then_tail_witness :
  sent_events (replayRunEvents (λ w _, (w, Some demo_run)) (λ w _, (w, Some false))
     (λ w _, (w, Some (take 3 demo_hist))) (λ w e, ((w ++ [e])%list, true)) (λ _, None) "r" (Some 1) []
     true (ITop false false :: ((λ e, ITailEvent e false) <$> segment 1 4 demo_hist)))
  = demo_event <$> [2; 4; 7].
Proof.
  refine (eq_trans (replay_then_tail (λ w _, (w, Some demo_run)) (λ w _, (w, Some false))
    (λ w _, (w, Some (take 3 demo_hist))) (λ w e, ((w ++ [e])%list, true)) (λ _, None) "r" (Some 1) []
    demo_run demo_hist 1 3 1 4 _ _ _ _ _ _ _ _ _ _) _); try reflexivity; try (simpl; lia).
  - vm_compute. eexists. reflexivity.
  - constructor.
    + intros e He. unfold demo_hist in He. simpl in He.
      repeat (apply elem_of_cons in He as [->|He]; [reflexivity|]). by apply elem_of_nil in He.
    + intros e He. unfold demo_hist in He. simpl in He.
      repeat (apply elem_of_cons in He as [->|He]; [reflexivity|]). by apply elem_of_nil in He.
    + intros e He. unfold demo_hist in He. simpl in He.
      repeat (apply elem_of_cons in He as [->|He]; [reflexivity|]). by apply elem_of_nil in He.
    + intros [|[|[|[|i]]]] [|[|[|[|j]]]] e1 e2 Hij H1 H2; simpl in H1, H2; try lia; try done;
        injection H1 as <-; injection H2 as <-; simpl; lia.
Defined.
