(* ===== verification/Bridge.v ===== *)
(** * The runner bridge

    Models [internal/bridge/server.go] (the gRPC service runners talk to) and
    [finishPoisonPill] of [cmd/reclaim.go], against the [JobQueue] interface of
    [Transport]: the theorems hold for every queue that satisfies [JobQueueOk],
    and the in-process queue does.

    The durable callbacks ([SetRunLifecycle]), the event broker's [Publish] and
    the JSON codecs are parameters; the cancel bus is the in-process one.  A
    context is its authenticated runner kind, empty in local mode. *)

From Stdlib Require Import Ascii String.
From S2P Require Import Prelude GoStrings GoAny Transport Completion Broker Inprocess JsonNumber.
Local Open Scope string_scope.
Local Open Scope Z_scope.

Inductive rpc_error :=
| PermissionDenied
| Unavailable
| InvalidArgument
| QueueError (e : go_error)   (* the error of Dequeue, passed through *)
| ContextDone                 (* ctx.Err() *)
| BadAssignment.              (* json.Marshal failed *)

Record GetJobResponse := mkJobResponse { HasJob : bool; Assignment : option RunAssignment }.
Record ReportStatusResponse := mkReport { ROk : bool; RSuperseded : bool }.
Record HeartbeatResponse := mkHeartbeat { HOk : bool; HSuperseded : bool }.

Record StreamMessage := mkMessage {
  MsgRunId : string;
  MsgGeneration : Z;
  EventJson : string
}.

Record ReportStatusRequest := mkRequest {
  ReqRunId : string;
  ReqGeneration : Z;
  ReqStatus : string;
  ReqError : string
}.

Definition requireRunnerKind (auth kind : string) : bool :=
  String.eqb auth "" || String.eqb auth kind.

(** [fmt.Sprintf("%s:g%d", id, g)] *)
Definition attempt_event_id (id : string) (g : Z) : string :=
  id +:+ ":g" +:+ string_of_list_ascii (Itoa g).

(** The envelope stamped on a runner's event. *)
Definition stamp (g : Z) (e : RunEvent) : RunEvent :=
  mkEvent g (if 1 <? g then attempt_event_id (EventID e) g else EventID e) (Seq e) (Method e)
    (Namespace e) (Data e) (Ts e).

Section bridge.
Context {Q S : Type} `{!JobQueue Q}.
(** [attemptCallback] and [completionCallback] on the durable state; [None] is an
    error. *)
Variable attemptCallback : option (S → string → Z → S * option bool).
Variable completionCallback : option (S → RunCompletion → S * option bool).
Variable statusCallback : option (S → string → string → string → S).
Variable Publish : S → string → RunEvent → S * bool.
Variable marshal_ok : RunAssignment → bool.
Variable decode_event : string → option RunEvent.

Record Server := mkServer {
  queue : Q;
  durable : S;
  cancelBus : CancelBus;
  watchers : gmap string (list nat);   (* runner_kind -> channels *)
  runDone : gmap string nat            (* run -> its cancel subscription *)
}.

Definition set_queue (q : Q) (s : Server) : Server :=
  mkServer q (durable s) (cancelBus s) (watchers s) (runDone s).
Definition set_durable (d : S) (s : Server) : Server :=
  mkServer (queue s) d (cancelBus s) (watchers s) (runDone s).

Definition addWatcher (s : Server) (kind : string) (ch : nat) : Server :=
  mkServer (queue s) (durable s) (cancelBus s)
    (<[kind := (map_get [] (watchers s) kind ++ [ch])%list]> (watchers s)) (runDone s).

Definition removeWatcher (s : Server) (kind : string) (ch : nat) : Server :=
  match remove_first ch (map_get [] (watchers s) kind) with
  | Some l => mkServer (queue s) (durable s) (cancelBus s) (<[kind := l]> (watchers s)) (runDone s)
  | None => s
  end.

(** The channels a cancel of [runID] is offered to, each with a non-blocking send. *)
Definition notifyWatchers (s : Server) (kind : string) : list nat := map_get [] (watchers s) kind.

(** Cancelling the watch context releases the subscription. *)
Definition cleanupRun (s : Server) (runID : string) : Server :=
  match runDone s !! runID with
  | Some c => mkServer (queue s) (durable s) (release_cancel (cancelBus s) runID c) (watchers s)
                (delete runID (runDone s))
  | None => s
  end.

(** [s.queue.Nack(context.Background(), ...)] with its error ignored. *)
Definition nack (s : Server) (job : RunAssignment) : Server :=
  set_queue (jq_Nack None (queue s) (RunID job) (Generation job)).1 s.

(** The subscription made before the assignment is handed out; [subErr] says that
    the cancel broker failed. *)
Definition watch_cancel (s : Server) (runID : string) (subErr : bool) : Server :=
  if subErr then s
  else
    let (bus, c) := SubscribeCancel (cancelBus s) runID in
    let bus := match runDone s !! runID with Some old => release_cancel bus runID old | None => bus end in
    mkServer (queue s) (durable s) bus (watchers s) (<[runID := c]> (runDone s)).

(** Hand the assignment to the runner. *)
Definition deliver (s : Server) (job : RunAssignment) (subErr : bool)
  : Server * res rpc_error GetJobResponse :=
  if negb (marshal_ok job) then (nack s job, Err BadAssignment)
  else (watch_cancel s (RunID job) subErr, Ok (mkJobResponse true (Some job))).

Definition no_job : GetJobResponse := mkJobResponse false None.

Definition dispatch (auth : string) (ctxErr subErr : bool) (s : Server) (job : RunAssignment)
  : Server * res rpc_error GetJobResponse :=
  if ctxErr then (nack s job, Err ContextDone)
  else if negb (requireRunnerKind auth (RunnerKind job)) then
    match jq_Nack None (queue s) (RunID job) (Generation job) with
    | (q, Some _) => (set_queue q s, Err Unavailable)
    | (q, None) => (set_queue q s, Err PermissionDenied)
    end
  else
    match attemptCallback with
    | None => deliver s job subErr
    | Some attempt =>
        match attempt (durable s) (RunID job) (Generation job) with
        | (d, None) => (nack (set_durable d s) job, Err Unavailable)
        | (d, Some false) =>
            let s := set_durable d s in
            match jq_Ack (queue s) (RunID job) (Generation job) with
            | (q, Err _) => (set_queue q s, Err Unavailable)
            | (q, Ok _) => (set_queue q s, Ok no_job)
            end
        | (d, Some true) => deliver (set_durable d s) job subErr
        end
    end.

(** [None]: still blocked in [Dequeue]. *)
Definition GetJob (now : Z) (wait : jq_wait) (auth kind : string) (ctxErr subErr : bool) (s : Server)
  : option (Server * res rpc_error GetJobResponse) :=
  if negb (requireRunnerKind auth kind) then Some (s, Err PermissionDenied)
  else
    match jq_Dequeue now wait (queue s) kind with
    | None => None
    | Some (q, Err e) => Some (set_queue q s, Err (QueueError e))
    | Some (q, Ok None) => Some (set_queue q s, Ok no_job)
    | Some (q, Ok (Some job)) => Some (dispatch auth ctxErr subErr (set_queue q s) job)
    end.

Definition requireRunOwner (s : Server) (auth runID : string)
  : res rpc_error (option RunAssignment) :=
  match jq_LookupInflight (queue s) runID with
  | Err _ => Err Unavailable
  | Ok None => Ok None
  | Ok (Some a) =>
      if requireRunnerKind auth (RunnerKind a) then Ok (Some a) else Err PermissionDenied
  end.

(** One message of [StreamEvents]; the event published, if any. *)
Definition stream_message (now : Z) (auth : string) (s : Server) (msg : StreamMessage)
  : Server * option RunEvent * option rpc_error :=
  match requireRunOwner s auth (MsgRunId msg) with
  | Err e => (s, None, Some e)
  | Ok _ =>
      match jq_Renew now (queue s) (MsgRunId msg) (MsgGeneration msg) with
      | (q, Err _) => (set_queue q s, None, Some Unavailable)
      | (q, Ok false) => (set_queue q s, None, None)
      | (q, Ok true) =>
          let s := set_queue q s in
          match decode_event (EventJson msg) with
          | None => (s, None, Some InvalidArgument)
          | Some event =>
              let event := stamp (MsgGeneration msg) event in
              match Publish (durable s) (MsgRunId msg) event with
              | (d, true) => (set_durable d s, Some event, None)
              | (d, false) => (set_durable d s, None, Some Unavailable)
              end
          end
      end
  end.

(** The stream until EOF or the first error; what was published, in order. *)
Fixpoint StreamEvents (now : Z) (auth : string) (s : Server) (msgs : list StreamMessage)
  : Server * list (string * RunEvent) * option rpc_error :=
  match msgs with
  | [] => (s, [], None)
  | msg :: rest =>
      match stream_message now auth s msg with
      | (s, out, Some e) => (s, [], Some e)
      | (s, out, None) =>
          match StreamEvents now auth s rest with
          | (s, outs, e) => (s, (match out with Some ev => [(MsgRunId msg, ev)] | None => [] end ++ outs)%list, e)
          end
      end
  end.

Definition superseded : ReportStatusResponse := mkReport true true.
Definition reported : ReportStatusResponse := mkReport true false.

Definition report_completion (auth : string) (req : ReportStatusRequest) (leased : bool) : RunCompletion :=
  mkCompletion false None auth (negb leased) (ReqRunId req) (ReqGeneration req) (ReqStatus req)
    (ReqError req) None.

(** After the completion is durable: acknowledge, then stop watching for cancels. *)
Definition report_ack (s : Server) (req : ReportStatusRequest) (leased : bool)
  : Server * res rpc_error ReportStatusResponse :=
  if leased then
    match jq_Ack (queue s) (ReqRunId req) (ReqGeneration req) with
    | (q, Err _) => (set_queue q s, Err Unavailable)
    | (q, Ok _) => (cleanupRun (set_queue q s) (ReqRunId req), Ok reported)
    end
  else (cleanupRun s (ReqRunId req), Ok reported).

Definition report_persist (auth : string) (s : Server) (req : ReportStatusRequest) (leased : bool)
  : Server * res rpc_error ReportStatusResponse :=
  match completionCallback with
  | Some complete =>
      match complete (durable s) (report_completion auth req leased) with
      | (d, None) => (set_durable d s, Err Unavailable)
      | (d, Some false) => (set_durable d s, Ok superseded)
      | (d, Some true) => report_ack (set_durable d s) req leased
      end
  | None =>
      let s := match statusCallback with
               | Some cb => set_durable (cb (durable s) (ReqRunId req) (ReqStatus req) (ReqError req)) s
               | None => s
               end in
      report_ack s req leased
  end.

Definition ReportStatus (now : Z) (auth : string) (s : Server) (req : ReportStatusRequest)
  : Server * res rpc_error ReportStatusResponse :=
  if negb (TerminalRunStatus (ReqStatus req)) then (s, Err InvalidArgument)
  else
    match requireRunOwner s auth (ReqRunId req) with
    | Err e => (s, Err e)
    | Ok None =>
        match completionCallback with
        | None => (s, Ok superseded)
        | Some _ => report_persist auth s req false
        end
    | Ok (Some _) =>
        match jq_Renew now (queue s) (ReqRunId req) (ReqGeneration req) with
        | (q, Err _) => (set_queue q s, Err Unavailable)
        | (q, Ok false) => (set_queue q s, Ok superseded)
        | (q, Ok true) => report_persist auth (set_queue q s) req true
        end
    end.

Definition Heartbeat (now : Z) (auth : string) (s : Server) (runID : string) (generation : Z)
  : Server * res rpc_error HeartbeatResponse :=
  match requireRunOwner s auth runID with
  | Err e => (s, Err e)
  | Ok _ =>
      match jq_Renew now (queue s) runID generation with
      | (q, Err _) => (set_queue q s, Ok (mkHeartbeat true false))
      | (q, Ok false) => (set_queue q s, Ok (mkHeartbeat true true))
      | (q, Ok true) => (set_queue q s, Ok (mkHeartbeat true false))
      end
  end.

(** [finishPoisonPill]: the dead letter is acknowledged after its completion. *)
Definition finishPoisonPill (complete : option (S → PoisonPill → string → S * option bool))
    (s : Server) (pill : PoisonPill) (message : string) : Server * res go_error bool :=
  match complete with
  | None => (s, Ok false)
  | Some complete =>
      match complete (durable s) pill message with
      | (d, None) => (set_durable d s, Err ErrBackend)
      | (d, Some false) => (set_durable d s, Ok false)
      | (d, Some true) =>
          let s := set_durable d s in
          let (q, r) := jq_Ack (queue s) (PRunID pill) (wrap64 (PGeneration pill - 1)) in
          (set_queue q s, r)
      end
  end.

(** ** What the bridge guarantees, for every lawful queue *)

Context `{!JobQueueOk Q}.
Implicit Types s : Server.

Lemma lease_same_refl (q : Q) : lease_same q q.
Proof using. by intros r. Qed.

Lemma requireRunOwner_ok s auth runID o :
  requireRunOwner s auth runID = Ok o →
  o = jq_lease (queue s) runID ∧
  ∀ a, o = Some a → requireRunnerKind auth (RunnerKind a) = true.
Proof using JobQueueOk0.
  unfold requireRunOwner. destruct (jq_LookupInflight (queue s) runID) as [[a|]|e] eqn:E; try done.
  - destruct (requireRunnerKind auth (RunnerKind a)) eqn:Hk; [|done]. intros [= <-].
    apply jq_lookup_ok in E. split; [done|]. by intros ? [= <-].
  - intros [= <-]. apply jq_lookup_ok in E. by split.
Qed.

(** Acknowledging removes at most the caller's own lease. *)
Lemma ack_lease (q : Q) r g q' x :
  jq_Ack q r g = (q', x) → lease_same q q' ∨ (holds q r g = true ∧ lease_gone q q' r).
Proof using JobQueueOk0.
  destruct x as [b|e]; intros E; [|by eapply jq_ack_err].
  apply jq_ack_ok in E as [-> H]. destruct (holds q r g); [by right|by left].
Qed.

Lemma renew_lease now (q : Q) r g q' x :
  jq_Renew now q r g = (q', x) → lease_same q q' ∧ (x = Ok true → holds q r g = true).
Proof using JobQueueOk0.
  destruct x as [b|e]; intros E.
  - apply jq_renew_ok in E as [-> H]. split; [done|]. by intros [= ->].
  - split; [by eapply jq_renew_err|done].
Qed.

Lemma holds_same (q q' : Q) r g : lease_same q q' → holds q' r g = holds q r g.
Proof using. intros H. unfold holds. by rewrite H. Qed.

(** The lease after [report_ack]. *)
Lemma report_ack_lease s req leased s' x :
  report_ack s req leased = (s', x) →
  lease_same (queue s) (queue s') ∨
  (leased = true ∧ holds (queue s) (ReqRunId req) (ReqGeneration req) = true ∧
   lease_gone (queue s) (queue s') (ReqRunId req)).
Proof using JobQueueOk0.
  unfold report_ack. destruct leased.
  - destruct (jq_Ack (queue s) (ReqRunId req) (ReqGeneration req)) as [q [b|e]] eqn:E;
      apply ack_lease in E; intros [= <- <-].
    + replace (queue (cleanupRun (set_queue q s) (ReqRunId req))) with q
        by (unfold cleanupRun; by case_match). naive_solver.
    + naive_solver.
  - intros [= <- <-]. left. replace (queue (cleanupRun s (ReqRunId req))) with (queue s)
      by (unfold cleanupRun; by case_match). apply lease_same_refl.
Qed.

(** C17. A runner's report releases a lease only after the run's completion is
    durable: whenever [ReportStatus] changes the lease table, the one lease that
    goes is the reported run's, held by exactly the reported generation and by
    a runner kind the caller is authenticated for, and the completion callback
    had accepted that completion.  A report of a superseded generation, or one
    whose completion fails, leaves the lease to be reclaimed. *)
Theorem report_ack_after_commit complete now auth s req s' x r :
  completionCallback = Some complete →
  ReportStatus now auth s req = (s', x) →
  jq_lease (queue s') r ≠ jq_lease (queue s) r →
  r = ReqRunId req ∧ jq_lease (queue s') r = None ∧
  (∃ a, jq_lease (queue s) r = Some a ∧ Generation a = ReqGeneration req ∧
        requireRunnerKind auth (RunnerKind a) = true) ∧
  ∃ d, complete (durable s) (report_completion auth req true) = (d, Some true).
Proof using JobQueueOk0.
  intros Hcb. unfold ReportStatus.
  destruct (negb (TerminalRunStatus (ReqStatus req))); [by intros [= <- <-]|].
  destruct (requireRunOwner s auth (ReqRunId req)) as [o|e] eqn:Ho; [|by intros [= <- <-]].
  apply requireRunOwner_ok in Ho as [Ho Hk].
  assert (Hper : ∀ s1 leased, report_persist auth s1 req leased = (s', x) →
    lease_same (queue s) (queue s1) → durable s1 = durable s → 
    jq_lease (queue s') r ≠ jq_lease (queue s) r →
    leased = true ∧ holds (queue s) (ReqRunId req) (ReqGeneration req) = true ∧
    lease_gone (queue s) (queue s') (ReqRunId req) ∧
    ∃ d, complete (durable s) (report_completion auth req leased) = (d, Some true)).
  { intros s1 leased Hp Hs1 Hd Hne. unfold report_persist in Hp. rewrite Hcb, Hd in Hp.
    destruct (complete (durable s) (report_completion auth req leased)) as [d [[]|]] eqn:Hc.
    - apply report_ack_lease in Hp as [Hp|(?&Hh&Hg)]; [by rewrite Hp, <- Hs1 in Hne|].
      simpl in *. rewrite (holds_same _ _ _ _ Hs1) in Hh. split; [done|]. split; [done|].
      split; [|by eexists]. intros r'. rewrite Hg. by rewrite Hs1.
    - injection Hp as <- _. simpl in Hne. by rewrite Hs1 in Hne.
    - injection Hp as <- _. simpl in Hne. by rewrite Hs1 in Hne. }
  destruct o as [a|].
  - destruct (jq_Renew now (queue s) (ReqRunId req) (ReqGeneration req)) as [q y] eqn:Hr.
    apply renew_lease in Hr as [Hs Hh].
    destruct y as [[]|e]; [|intros [= <- <-] Hne; by rewrite Hs in Hne..].
    intros Hp Hne. destruct (Hper _ _ Hp Hs eq_refl Hne) as (_&Hhold&Hgone&Hd).
    assert (r = ReqRunId req) as ->.
    { destruct (decide (ReqRunId req = r)) as [<-|Hr]; [done|]. rewrite Hgone, decide_False in Hne by done. done. }
    split; [done|]. split; [by rewrite Hgone, decide_True|]. split; [|done].
    exists a. unfold holds in Hhold. rewrite <- Ho in *. split; [done|]. split; [by apply Z.eqb_eq|by apply Hk].
  - rewrite Hcb. intros Hp Hne.
    by destruct (Hper _ _ Hp (lease_same_refl _) eq_refl Hne) as [? _].
Qed.

(** A runner is handed an assignment only when its attempt was durably
    accepted first, its kind is one the caller is authenticated for, and the
    lease table then holds exactly that assignment: a dispatch that is refused,
    unauthorised or whose client has gone is never delivered. *)
Theorem getjob_delivers_fenced attempt now wait auth kind ctxErr subErr s s' resp :
  attemptCallback = Some attempt →
  GetJob now wait auth kind ctxErr subErr s = Some (s', Ok resp) → HasJob resp = true →
  ∃ job, Assignment resp = Some job ∧ ctxErr = false ∧
    jq_lease (queue s') (RunID job) = Some job ∧
    requireRunnerKind auth kind = true ∧ requireRunnerKind auth (RunnerKind job) = true ∧
    attempt (durable s) (RunID job) (Generation job) = (durable s', Some true).
Proof using JobQueueOk0.
  intros Hcb. unfold GetJob. destruct (requireRunnerKind auth kind) eqn:Hk; simpl; [|done].
  destruct (jq_Dequeue now wait (queue s) kind) as [[q [[job|]|e]]|] eqn:Hd; try done;
    [|by intros [= <- <-]].
  unfold dispatch. destruct ctxErr; [done|].
  destruct (requireRunnerKind auth (RunnerKind job)) eqn:Hk2; simpl;
    [|destruct (jq_Nack _ _ _ _) as [q1 [e|]]; done].
  rewrite Hcb. destruct (attempt (durable s) (RunID job) (Generation job)) as [d [[]|]] eqn:Ha; [| |done].
  - unfold deliver. destruct (marshal_ok job); simpl; [|done]. intros [= <- <-] _. exists job.
    split; [done|]. split; [done|]. pose proof (jq_dequeue_ok _ _ _ _ _ _ Hd) as Hd'.
    split; [|split; [done|split; [done|]]].
    + unfold watch_cancel. destruct subErr; simpl; rewrite (Hd' (RunID job)); by destruct (decide _).
    + by unfold watch_cancel; destruct subErr.
  - destruct (jq_Ack _ _ _) as [q1 [b|e]]; [|done]. by intros [= <- <-].
Qed.

Lemma stream_message_fenced now auth s msg s' out e :
  stream_message now auth s msg = (s', out, e) →
  lease_same (queue s) (queue s') ∧
  ∀ ev, out = Some ev → EvGeneration ev = MsgGeneration msg ∧
    ∃ a, jq_lease (queue s) (MsgRunId msg) = Some a ∧ Generation a = MsgGeneration msg ∧
         requireRunnerKind auth (RunnerKind a) = true.
Proof using JobQueueOk0.
  unfold stream_message.
  destruct (requireRunOwner s auth (MsgRunId msg)) as [o|er] eqn:Ho;
    [|intros [= <- <- <-]; split; [apply lease_same_refl|done]].
  apply requireRunOwner_ok in Ho as [Ho Hk].
  destruct (jq_Renew now (queue s) (MsgRunId msg) (MsgGeneration msg)) as [q y] eqn:Hr.
  apply renew_lease in Hr as [Hs Hh].
  destruct y as [[]|er]; [|intros [= <- <- <-]; split; done..].
  destruct (decode_event (EventJson msg)) as [ev0|]; [|intros [= <- <- <-]; split; done].
  simpl. destruct (Publish (durable s) (MsgRunId msg) (stamp (MsgGeneration msg) ev0)) as [d []];
    intros [= <- <- <-]; split; try done.
  intros ev [= <-]. split; [done|]. specialize (Hh eq_refl). unfold holds in Hh.
  rewrite <- Ho in Hh |- *. destruct o as [a|]; [|done]. exists a. split; [done|].
  split; [by apply Z.eqb_eq|by apply Hk].
Qed.

(** Every event a runner's stream gets published belongs to a run whose
    lease it holds: the lease is held at the generation stamped on the event, by
    a runner kind the caller is authenticated for; events of superseded attempts
    are dropped.  Streaming never takes or releases a lease. *)
Theorem stream_events_fenced now auth s msgs s' outs e :
  StreamEvents now auth s msgs = (s', outs, e) →
  lease_same (queue s) (queue s') ∧
  ∀ r ev, (r, ev) ∈ outs → ∃ a, jq_lease (queue s) r = Some a ∧ Generation a = EvGeneration ev ∧
                                requireRunnerKind auth (RunnerKind a) = true.
Proof using JobQueueOk0.
  revert s s' outs e. induction msgs as [|msg msgs IH]; intros s s' outs e; cbn [StreamEvents].
  { intros [= <- <- <-]. split; [apply lease_same_refl|by intros ? ? ?%elem_of_nil]. }
  destruct (stream_message now auth s msg) as [[s1 out] [er|]] eqn:Hm; apply stream_message_fenced in Hm as [Hs Hf].
  { intros [= <- <- <-]. split; [done|by intros ? ? ?%elem_of_nil]. }
  destruct (StreamEvents now auth s1 msgs) as [[s2 outs2] e2] eqn:Hr. intros [= <- <- <-].
  apply IH in Hr as [Hs2 Hf2]. split; [intros r; by rewrite Hs2, Hs|].
  intros r ev [H|H]%elem_of_app.
  - destruct out as [ev'|]; [|by apply elem_of_nil in H].
    apply list_elem_of_singleton in H as [= -> ->]. destruct (Hf _ eq_refl) as (Hg&a&?&?&?).
    exists a. by rewrite Hg.
  - destruct (Hf2 _ _ H) as (a&Ha&?&?). exists a. by rewrite <- Hs.
Qed.

(** A runner authenticated for one kind cannot act on a run leased to
    another: its events, reports and heartbeats for that run are refused and
    change nothing, not even the lease's clock. *)
Theorem foreign_runner_refused now auth s r a msg req g :
  jq_LookupInflight (queue s) r = Ok (Some a) → auth ≠ "" → auth ≠ RunnerKind a →
  MsgRunId msg = r → ReqRunId req = r → TerminalRunStatus (ReqStatus req) = true →
  stream_message now auth s msg = (s, None, Some PermissionDenied) ∧
  ReportStatus now auth s req = (s, Err PermissionDenied) ∧
  Heartbeat now auth s r g = (s, Err PermissionDenied).
Proof using.
  intros Hl H1 H2 Hm Hq Ht.
  assert (Ho : requireRunOwner s auth r = Err PermissionDenied).
  { unfold requireRunOwner, requireRunnerKind. rewrite Hl.
    by rewrite (proj2 (String.eqb_neq _ _) H1), (proj2 (String.eqb_neq _ _) H2). }
  unfold stream_message, ReportStatus, Heartbeat. rewrite Hm, Hq, Ho, Ht. done.
Qed.

(** ** Cancel subscriptions *)

(** Every live subscription of a run is the one [runDone] can cancel. *)
Record watch_inv (s : Server) : Prop := {
  wv_list r c : c ∈ bus_list (cancelBus s) r → runDone s !! r = Some c ∧ (c < bus_next (cancelBus s))%nat;
  wv_nodup r : NoDup (bus_list (cancelBus s) r);
  wv_done r c : runDone s !! r = Some c → (c < bus_next (cancelBus s))%nat
}.

(** Two servers with the same subscriptions. *)
Definition same_watch (s s' : Server) : Prop := cancelBus s' = cancelBus s ∧ runDone s' = runDone s.

Lemma watch_inv_same s s' : same_watch s s' → watch_inv s → watch_inv s'.
Proof using. intros [Hb Hd] [H1 H2 H3]. constructor; rewrite ?Hb, ?Hd; done. Qed.

Lemma watch_cancel_inv s r subErr : watch_inv s → watch_inv (watch_cancel s r subErr).
Proof using.
  intros Hw. unfold watch_cancel. destruct subErr; [done|]. simpl.
  set (c := bus_next (cancelBus s)).
  set (b1 := mkBus (<[r := (bus_list (cancelBus s) r ++ [c])%list]> (bus_subs (cancelBus s)))
               (<[c := mkChan [] false]> (bus_chans (cancelBus s))) (Datatypes.S c)).
  assert (Hnd1 : ∀ r', NoDup (bus_list b1 r')).
  { intros r'. unfold b1. rewrite bus_list_insert. destruct (decide _); [|apply (wv_nodup _ Hw)].
    apply list.NoDup_app. split; [apply (wv_nodup _ Hw)|]. split; [|apply list.NoDup_singleton].
    intros x Hx ->%list_elem_of_singleton. apply (wv_list _ Hw) in Hx as [_ Hx]. unfold c in Hx. lia. }
  assert (Hin1 : ∀ r' x, x ∈ bus_list b1 r' ↔ x ∈ bus_list (cancelBus s) r' ∨ (r' = r ∧ x = c)).
  { intros r' x. unfold b1. rewrite bus_list_insert. destruct (decide (r = r')) as [->|Hne].
    - rewrite elem_of_app, list_elem_of_singleton. split; [intros [?|?]; auto|intros [?|[_ ?]]; auto].
    - split; [by left|intros [?|[? _]]; [done|congruence]]. }
  assert (Hgoal : ∀ b2, bus_next b2 = Datatypes.S c → (∀ r', NoDup (bus_list b2 r')) →
    (∀ r' x, x ∈ bus_list b2 r' → (r' ≠ r ∧ x ∈ bus_list (cancelBus s) r') ∨ (r' = r ∧ x = c)) →
    watch_inv (mkServer (queue s) (durable s) b2 (watchers s) (<[r := c]> (runDone s)))).
  { intros b2 Hn Hnd Hin. constructor; simpl.
    - intros r' x [[Hne Hx]|[-> ->]]%Hin; rewrite Hn.
      + rewrite lookup_insert_ne by done. apply (wv_list _ Hw) in Hx as [? ?]. split; [done|]. unfold c. lia.
      + rewrite lookup_insert_eq. split; [done|lia].
    - done.
    - intros r' x. rewrite lookup_insert_Some, Hn. intros [[_ <-]|[_ H']]; [lia|].
      apply (wv_done _ Hw) in H'. unfold c. lia. }
  destruct (runDone s !! r) as [old|] eqn:Hold.
  - destruct (release_cancel_spec b1 r old Hnd1) as (_&Hn&Hnd&Hin).
    apply Hgoal; [by rewrite Hn|done|]. intros r' x [Hx Hne]%Hin.
    apply Hin1 in Hx as [Hx|?]; [|by right]. left. split; [|done]. intros ->.
    apply (wv_list _ Hw) in Hx as [Hx _]. rewrite Hold in Hx. injection Hx as ->. by apply Hne.
  - apply Hgoal; [done|done|]. intros r' x [Hx|?]%Hin1; [|by right]. left. split; [|done]. intros ->.
    apply (wv_list _ Hw) in Hx as [Hx _]. by rewrite Hold in Hx.
Qed.

Lemma cleanupRun_inv s r : watch_inv s →
  watch_inv (cleanupRun s r) ∧ bus_list (cancelBus (cleanupRun s r)) r = [] ∧
  runDone (cleanupRun s r) !! r = None.
Proof using.
  intros Hw. unfold cleanupRun. destruct (runDone s !! r) as [c|] eqn:Hc.
  - destruct (release_cancel_spec (cancelBus s) r c (wv_nodup _ Hw)) as (_&Hn&Hnd&Hin). simpl.
    assert (Hr : ∀ r' x, x ∈ bus_list (release_cancel (cancelBus s) r c) r' →
      r' ≠ r ∧ x ∈ bus_list (cancelBus s) r').
    { intros r' x [Hx Hne]%Hin. split; [|done]. intros ->. apply (wv_list _ Hw) in Hx as [Hx _].
      rewrite Hc in Hx. injection Hx as ->. by apply Hne. }
    split; [constructor; simpl|].
    + intros r' x [Hne Hx]%Hr. rewrite lookup_delete_ne by done. rewrite Hn. by apply (wv_list _ Hw).
    + done.
    + intros r' x [_ H']%lookup_delete_Some. rewrite Hn. by eapply (wv_done _ Hw).
    + rewrite lookup_delete_eq. split; [|done].
      destruct (bus_list (release_cancel (cancelBus s) r c) r) as [|x l] eqn:E; [done|].
      destruct (Hr r x) as [? _]; [rewrite E; by left|done].
  - split; [done|]. split; [|done]. destruct (bus_list (cancelBus s) r) as [|x l] eqn:E; [done|].
    destruct (wv_list _ Hw r x) as [Hx _]; [rewrite E; by left|]. congruence.
Qed.

Lemma report_ack_watch s req leased s' x : report_ack s req leased = (s', x) → watch_inv s →
  watch_inv s' ∧ (x = Ok reported → bus_list (cancelBus s') (ReqRunId req) = []).
Proof using.
  unfold report_ack. intros Hx Hw.
  assert (Hclean : ∀ s1, same_watch s s1 → (cleanupRun s1 (ReqRunId req), Ok reported) = (s', x) →
    watch_inv s' ∧ (x = Ok reported → bus_list (cancelBus s') (ReqRunId req) = [])).
  { intros s1 Hs1 [= <- <-]. destruct (cleanupRun_inv s1 (ReqRunId req)) as (?&?&?);
      [by eapply watch_inv_same|]. by split. }
  destruct leased; [|apply (Hclean s); [by split|done]].
  destruct (jq_Ack _ _ _) as [q [b|e]]; [apply (Hclean (set_queue q s)); [by split|done]|].
  injection Hx as <- <-. split; [apply (watch_inv_same s); [by split|done]|done].
Qed.

Lemma report_persist_watch auth s req leased s' x :
  report_persist auth s req leased = (s', x) → watch_inv s →
  watch_inv s' ∧ (x = Ok reported → bus_list (cancelBus s') (ReqRunId req) = []).
Proof using.
  unfold report_persist. intros Hx Hw. destruct completionCallback as [complete|].
  - destruct (complete _ _) as [d [[]|]];
      [eapply report_ack_watch; [done|]|injection Hx as <- <-; split; [|done]..];
      (apply (watch_inv_same s); [by split|done]).
  - eapply report_ack_watch; [done|]. destruct statusCallback; [|done].
    apply (watch_inv_same s); [by split|done].
Qed.

(** The bridge never holds more than one cancel subscription per run, and
    always one it can release: dispatching a run again releases the previous
    subscription, a report that is accepted releases the run's, and every other
    RPC leaves the subscriptions alone. *)
Theorem one_cancel_subscription_per_run s :
  watch_inv s →
  (∀ r, (length (bus_list (cancelBus s) r) ≤ 1)%nat) ∧
  (∀ now wait auth kind ctxErr subErr s' x,
     GetJob now wait auth kind ctxErr subErr s = Some (s', x) → watch_inv s') ∧
  (∀ now auth req s' x, ReportStatus now auth s req = (s', x) →
     watch_inv s' ∧ (x = Ok reported → bus_list (cancelBus s') (ReqRunId req) = [])) ∧
  (∀ now auth r g, watch_inv (Heartbeat now auth s r g).1) ∧
  (∀ complete pill msg, watch_inv (finishPoisonPill complete s pill msg).1).
Proof using.
  intros Hw. split; [|split; [|split; [|split]]].
  - intros r. pose proof (wv_nodup _ Hw r) as Hnd. pose proof (wv_list _ Hw r) as Hl.
    destruct (bus_list (cancelBus s) r) as [|c1 [|c2 l]]; simpl; [lia..|].
    apply list.NoDup_cons in Hnd as [Hnd _]. destruct Hnd.
    destruct (Hl c1) as [H1 _]; [by left|]. destruct (Hl c2) as [H2 _]; [by right; left|].
    rewrite H1 in H2. injection H2 as ->. by left.
  - intros now wait auth kind ctxErr subErr s' x. unfold GetJob, dispatch, deliver, nack.
    repeat case_match; intros; simplify_eq/=; try done; try (apply (watch_inv_same s); [by split|done]);
      apply watch_cancel_inv; (apply (watch_inv_same s); [by split|done]).
  - intros now auth req s' x. unfold ReportStatus.
    destruct (negb _); [by intros [= <- <-]|].
    destruct (requireRunOwner s auth (ReqRunId req)) as [[a|]|e]; [| |by intros [= <- <-]].
    + destruct (jq_Renew _ _ _ _) as [q [[]|e]]; intros Hx;
        [eapply report_persist_watch; [done|]|injection Hx as <- <-; split; [|done]..];
        (apply (watch_inv_same s); [by split|done]).
    + destruct completionCallback; [|by intros [= <- <-]]. intros Hx. by eapply report_persist_watch.
  - intros now auth r g. unfold Heartbeat. repeat case_match; simpl; try done; (apply (watch_inv_same s); [by split|done]).
  - intros complete pill msg. unfold finishPoisonPill. repeat case_match; simpl; try done; (apply (watch_inv_same s); [by split|done]).
Qed.
End bridge.

(** ** Witnesses, on the in-process queue *)

Definition leased_queue : Queue := mkQueue ∅ ∅ {[ "a" := mkEntry (demo_job "a" 1) 0 ]}.
Definition ready_queue : Queue := mkQueue {[ "python-langgraph" := [demo_job "a" 1] ]} ∅ ∅.
Definition demo_server (q : Queue) : Server (Q := Queue) (S := nat) := mkServer q 0%nat NewCancelBus ∅ ∅.

Definition demo_wait : @jq_wait Queue Queue_JobQueue := [RecvReady].

(** A durable store that counts accepted calls. *)
Definition accept_attempt (d : nat) (_ : string) (_ : Z) : nat * option bool := (S d, Some true).
Definition accept_completion (d : nat) (_ : RunCompletion) : nat * option bool := (S d, Some true).
Definition accept_pill (d : nat) (_ : PoisonPill) (_ : string) : nat * option bool := (S d, Some true).
Definition count_event (d : nat) (_ : string) (_ : RunEvent) : nat * bool := (S d, true).
Definition plain_event (data : string) : option RunEvent := Some (mkEvent 0 "e1" 1 "values" [] data 0).

Definition demo_req : ReportStatusRequest := mkRequest "a" 1 RunStatusSuccess "".

Lemma report_ack_after_commit_witness :
  let out := ReportStatus (Some accept_completion) None 5 "python-langgraph" (demo_server leased_queue) demo_req in
  jq_lease (queue out.1) "a" = None ∧
  ∃ d, accept_completion 0 (report_completion "python-langgraph" demo_req true) = (d, Some true).
Proof.
  intros out.
  destruct (report_ack_after_commit (Some accept_completion) None accept_completion 5 "python-langgraph"
              (demo_server leased_queue) demo_req out.1 out.2 "a") as (_&H1&_&H2).
  - reflexivity.
  - vm_compute. reflexivity.
  - vm_compute. intros H; discriminate H.
  - split; assumption.
Defined.

Lemma getjob_delivers_fenced_witness :
  ∃ s' resp, GetJob (Some accept_attempt) (λ _, true) 5 demo_wait "python-langgraph" "python-langgraph"
               false false (demo_server ready_queue) = Some (s', Ok resp) ∧
    ∃ job, Assignment resp = Some job ∧ jq_lease (queue s') (RunID job) = Some job.
Proof.
  eexists _, _. split; [vm_compute; reflexivity|].
  match goal with |- ∃ job, Assignment ?r = _ ∧ jq_lease (queue ?s) _ = _ =>
    destruct (getjob_delivers_fenced (Some accept_attempt) (λ _, true) accept_attempt 5 demo_wait
      "python-langgraph" "python-langgraph" false false (demo_server ready_queue) s r) as (job&?&_&?&_)
  end; [reflexivity|vm_compute; reflexivity|reflexivity|].
  exists job. split; assumption.
Defined.

Definition demo_msgs : list StreamMessage := [mkMessage "a" 0 "old"; mkMessage "a" 1 "{}"].

Lemma stream_events_fenced_witness :
  let out := StreamEvents count_event plain_event 5 "python-langgraph" (demo_server leased_queue) demo_msgs in
  length out.1.2 = 1%nat ∧
  ∀ r ev, (r, ev) ∈ out.1.2 → ∃ a, jq_lease (queue (demo_server leased_queue)) r = Some a ∧
                                   Generation a = EvGeneration ev ∧
                                   requireRunnerKind "python-langgraph" (RunnerKind a) = true.
Proof.
  intros out. split; [vm_compute; reflexivity|].
  apply (stream_events_fenced count_event plain_event 5 "python-langgraph" (demo_server leased_queue)
           demo_msgs out.1.1 out.1.2 out.2). vm_compute. reflexivity.
Defined.

Lemma foreign_runner_refused_witness :
  Heartbeat 5 "node" (demo_server leased_queue) "a" 1 = (demo_server leased_queue, Err PermissionDenied).
Proof.
  apply (foreign_runner_refused (Some accept_completion) None count_event plain_event 5 "node"
           (demo_server leased_queue) "a" (demo_job "a" 1) (mkMessage "a" 1 "{}") demo_req 1).
  - vm_compute. reflexivity.
  - intros H; discriminate H.
  - intros H; discriminate H.
  - reflexivity.
  - reflexivity.
  - reflexivity.
Defined.

Lemma demo_server_watch q : watch_inv (demo_server q).
Proof.
  constructor; simpl; unfold bus_list; simpl.
  - intros r c. rewrite map_get_empty. by intros ?%elem_of_nil.
  - intros r. rewrite map_get_empty. apply base.NoDup_nil_2.
  - intros r c. by rewrite lookup_empty.
Qed.

Lemma one_cancel_subscription_per_run_witness :
  watch_inv (ReportStatus (Some accept_completion) None 5 "python-langgraph" (demo_server leased_queue) demo_req).1.
Proof.
  destruct (one_cancel_subscription_per_run (Some accept_attempt) (Some accept_completion) None (λ _, true)
              (demo_server leased_queue) (demo_server_watch leased_queue)) as (_&_&H&_).
  destruct (H 5 "python-langgraph" demo_req
    (ReportStatus (Some accept_completion) None 5 "python-langgraph" (demo_server leased_queue) demo_req).1
    (ReportStatus (Some accept_completion) None 5 "python-langgraph" (demo_server leased_queue) demo_req).2) as [H' _].
  - apply surjective_pairing.
  - exact H'.
Defined.

(** The cancel subscription of a dispatched run outlives the run when it is
    finished by the reaper instead of by its runner: the run is delivered, its
    runner dies, the dead letter's completion is accepted and its lease
    acknowledged, and the subscription (with its watcher) is still registered,
    with nothing left that will release it. *)
Theorem dead_letter_keeps_subscription :
  ∃ s1 s2, GetJob (Some accept_attempt) (λ _, true) 0 demo_wait "" "python-langgraph" false false
             (demo_server ready_queue) = Some (s1, Ok (mkJobResponse true (Some (demo_job "a" 1)))) ∧
    finishPoisonPill (Some accept_pill) s1 (mkPill "a" 2 "agent" "default") "max retries exceeded" = (s2, Ok true) ∧
    jq_lease (queue s2) "a" = None ∧ bus_list (cancelBus s2) "a" = [0%nat] ∧ runDone s2 !! "a" = Some 0%nat.
Proof. eexists _, _. repeat split; vm_compute; reflexivity. Qed.
