(* ===== verification/Programs.v ===== *)
(** * Calls made of remote commands

    Several components keep their state in an external service and change it by
    a sequence of commands, between which other callers act.  A call is a value
    of [prog]: the tree of its commands, each followed by what the code does with
    the answer.  One text serves both readings: [run] executes a call alone, and
    [act_step] interleaves the commands of any number of calls, any of which may
    stop for ever after any command (a crash).

    [safe] is the proof rule: a call is safe when each of its commands preserves
    the invariant, given facts that other callers can only extend; then the
    invariant holds under every interleaving ([pool_invariant]). *)

From S2P Require Import Prelude.
Local Open Scope nat_scope.

(** The commands of a service and the type of each answer. *)
Class Commands (cmd : Type) := answer : cmd → Type.

Inductive prog (cmd : Type) `{Commands cmd} (A : Type) : Type :=
| Ret (a : A)
| Do (c : cmd) (k : answer c → prog cmd A).
Arguments Ret {cmd _ A} a.
Arguments Do {cmd _ A} c k.

(** The service: a command runs on its state, under a fate that says how the
    network and the service's own choices turn out. *)
Class Server (cmd : Type) `{Commands cmd} (S : Type) := {
  fate : Type;
  fine : fate;  (* nothing goes wrong *)
  exec : fate → ∀ c : cmd, S → S * answer c
}.

Section programs.
Context {cmd : Type} `{Commands cmd}.

Fixpoint bind {A B} (p : prog cmd A) (f : A → prog cmd B) : prog cmd B :=
  match p with
  | Ret a => f a
  | Do c k => Do c (λ x, bind (k x) f)
  end.

Section running.
Context {S : Type} `{!Server cmd S}.

(** A call alone, one fate per command; all is well when they run out. *)
Fixpoint run {A} (p : prog cmd A) (os : list fate) (s : S) : S * A :=
  match p with
  | Ret a => (s, a)
  | Do c k => let (s', x) := exec (default fine (head os)) c s in run (k x) (tail os) s'
  end.

(** The first [n] commands of a call. *)
Fixpoint run_prefix {A} (n : nat) (p : prog cmd A) (os : list fate) (s : S) : S :=
  match n, p with
  | Datatypes.S n, Do c k => let (s', x) := exec (default fine (head os)) c s in run_prefix n (k x) (tail os) s'
  | _, _ => s
  end.

(** A call alone: [I] holds after each of its commands and [Q] at its end, under
    the fates [fs] allows. *)
Fixpoint triple {A} (fs : fate → Prop) (I : S → Prop) (p : prog cmd A) (Q : S → A → Prop) (s : S) : Prop :=
  match p with
  | Ret a => Q s a
  | Do c k => ∀ o, fs o → I (exec o c s).1 ∧ triple fs I (k (exec o c s).2) Q (exec o c s).1
  end.

Lemma triple_run {A} fs I (p : prog cmd A) Q os s :
  fs fine → Forall fs os → triple fs I p Q s → Q (run p os s).1 (run p os s).2.
Proof.
  intros Hf. revert os s. induction p as [a|c k IH]; intros os s Hos; simpl; [done|]. intros Ht.
  assert (Hh : fs (default fine (head os))) by (by destruct Hos).
  destruct (Ht _ Hh) as [_ Hk]. destruct (exec _ c s) as [s' x]. apply IH; [|done]. by destruct Hos.
Qed.

Lemma triple_prefix {A} fs I (p : prog cmd A) Q n os s :
  fs fine → Forall fs os → I s → triple fs I p Q s → I (run_prefix n p os s).
Proof.
  intros Hf. revert n os s. induction p as [a|c k IH]; intros [|n] os s Hos Hi Ht; simpl; try done.
  assert (Hh : fs (default fine (head os))) by (by destruct Hos). simpl in Ht.
  destruct (Ht _ Hh) as [Hi' Hk]. destruct (exec _ c s) as [s' x]. apply IH; [|done|done]. by destruct Hos.
Qed.

Lemma triple_bind {A B} fs I (p : prog cmd A) (f : A → prog cmd B) Q s :
  triple fs I p (λ s a, triple fs I (f a) Q s) s → triple fs I (bind p f) Q s.
Proof.
  revert s. induction p as [a|c k IH]; intros s; simpl; [done|]. intros Ht o Ho. destruct (Ht o Ho). split; [done|]. by apply IH.
Qed.

Lemma triple_mono {A} fs (I I' : S → Prop) (p : prog cmd A) (Q Q' : S → A → Prop) s :
  (∀ s, I s → I' s) → (∀ s a, Q s a → Q' s a) → triple fs I p Q s → triple fs I' p Q' s.
Proof.
  intros HI HQ. revert s. induction p as [a|c k IH]; intros s; simpl; [auto|].
  intros Ht o Ho. destruct (Ht o Ho). split; [auto|]. by apply IH.
Qed.

(** ** Interleavings

    [call]s are started, and step one command at a time; [env] are the changes
    the service makes by itself. *)
Context {call A env : Type} (body : call → prog cmd A) (env_step : env → S → S).

Record world := mkWorld {
  w_server : S;
  w_threads : list (prog cmd A);
  w_calls : list call
}.

Inductive act :=
| Start (c : call)
| Step (i : nat) (o : fate)
| Env (e : env).

Definition act_step (w : world) (a : act) : world :=
  match a with
  | Start c => mkWorld (w_server w) (w_threads w ++ [body c]) (w_calls w ++ [c])
  | Step i o =>
      match w_threads w !! i with
      | Some (Do c k) =>
          let (s', x) := exec o c (w_server w) in mkWorld s' (<[i := k x]> (w_threads w)) (w_calls w)
      | _ => w
      end
  | Env e => mkWorld (env_step e (w_server w)) (w_threads w) (w_calls w)
  end.

Definition acts (w : world) (l : list act) : world := foldl act_step w l.

(** ** Safe calls

    [G] is what a call may remember about the state: facts that only grow, as
    the list of calls made does. *)
Context {G : Type} (ext : relation G) `{!PreOrder ext} (inv : list call → G → S → Prop).

Fixpoint safe {B} (post : list call → G → B → Prop) (cs : list call) (g : G) (p : prog cmd B) : Prop :=
  match p with
  | Ret a => ∀ cs' g', cs ⊆ cs' → ext g g' → post cs' g' a
  | Do c k =>
      ∀ cs1 g1 s o, cs ⊆ cs1 → ext g g1 → inv cs1 g1 s →
        ∃ g2, ext g1 g2 ∧ inv cs1 g2 (exec o c s).1 ∧ safe post cs1 g2 (k (exec o c s).2)
  end.

Lemma safe_mono {B} (post : list call → G → B → Prop) cs cs' g g' (p : prog cmd B) :
  cs ⊆ cs' → ext g g' → safe post cs g p → safe post cs' g' p.
Proof using PreOrder0.
  destruct p as [a|c k]; simpl; intros Hcs He Hs.
  - intros cs2 g2 Hc2 H2. apply Hs; by etrans.
  - intros cs1 g1 s o Hc1 H1 Hi. apply Hs; [by etrans..|done].
Qed.

Lemma safe_bind {B C} (post : list call → G → C → Prop) cs g (p : prog cmd B) (f : B → prog cmd C) :
  safe (λ cs g b, safe post cs g (f b)) cs g p → safe post cs g (bind p f).
Proof using PreOrder0.
  revert cs g. induction p as [a|c k IH]; intros cs g; simpl.
  - intros Hf. by apply Hf.
  - intros Hs cs1 g1 s o Hc1 H1 Hi. destruct (Hs cs1 g1 s o Hc1 H1 Hi) as (g2&?&?&?). exists g2. eauto.
Qed.

(** Rules per command: what must be known to send it, and what its answer
    teaches. *)
Section rules.
Context (allowed : list call → G → cmd → Prop) (learned : list call → G → ∀ c : cmd, answer c → Prop).
Context (Hmono : ∀ cs cs' g g' c, cs ⊆ cs' → ext g g' → allowed cs g c → allowed cs' g' c).
Context (Hexec : ∀ cs g s o c, inv cs g s → allowed cs g c →
  ∃ g', ext g g' ∧ inv cs g' (exec o c s).1 ∧ learned cs g' c (exec o c s).2).

Lemma safe_do {B} (post : list call → G → B → Prop) cs g c (k : answer c → prog cmd B) :
  allowed cs g c →
  (∀ cs' g' x, cs ⊆ cs' → ext g g' → learned cs' g' c x → safe post cs' g' (k x)) →
  safe post cs g (Do c k).
Proof using PreOrder0 Hmono Hexec.
  intros Ha Hk cs1 g1 s o Hc1 H1 Hi.
  destruct (Hexec cs1 g1 s o c Hi) as (g2&H2&Hi2&Hl); [by eapply Hmono|].
  exists g2. split; [done|]. split; [done|]. apply Hk; [done|by etrans|done].
Qed.
End rules.

Context (Hstart : ∀ cs g c s, inv cs g s → inv (cs ++ [c]) g s).
Context (Hbody : ∀ cs g c, c ∈ cs → safe (λ _ _ _, True) cs g (body c)).
Context (Henv : ∀ cs g e s, inv cs g s → ∃ g', ext g g' ∧ inv cs g' (env_step e s)).

Definition pool_ok (g : G) (w : world) : Prop :=
  inv (w_calls w) g (w_server w) ∧ Forall (safe (λ _ _ _, True) (w_calls w) g) (w_threads w).

Lemma safe_threads cs cs' g g' (l : list (prog cmd A)) :
  cs ⊆ cs' → ext g g' → Forall (safe (λ _ _ _, True) cs g) l → Forall (safe (λ _ _ _, True) cs' g') l.
Proof using PreOrder0. intros Hc He. apply Forall_impl. intros p. by apply safe_mono. Qed.

Lemma pool_step g w a : pool_ok g w → ∃ g', ext g g' ∧ pool_ok g' (act_step w a).
Proof using PreOrder0 Hstart Hbody Henv.
  intros (Hi&Ht). destruct a as [c|i o|e]; simpl.
  - exists g. split; [done|]. split; simpl; [by apply Hstart|]. apply Forall_app. split.
    + eapply safe_threads; [|done|done]. set_solver.
    + constructor; [|done]. apply Hbody. set_solver.
  - destruct (w_threads w !! i) as [[a|c k]|] eqn:Hl; [by exists g| |by exists g].
    pose proof (proj1 (Forall_lookup _ _) Ht _ _ Hl) as Hp. simpl in Hp.
    destruct (Hp (w_calls w) g (w_server w) o) as (g2&He&Hi2&Hk); [done..|].
    destruct (exec o c (w_server w)) as [s' x]. simpl in *. exists g2. split; [done|]. split; [done|].
    apply Forall_insert; [by eapply safe_threads|done].
  - destruct (Henv _ g e _ Hi) as (g'&He&Hi'). exists g'. split; [done|]. split; [done|]. by eapply safe_threads.
Qed.

(** The invariant holds after every interleaving. *)
Lemma pool_invariant g w l : pool_ok g w → ∃ g', ext g g' ∧ pool_ok g' (acts w l).
Proof using PreOrder0 Hstart Hbody Henv.
  revert g w. induction l as [|a l IH]; intros g w Hw; simpl; [by exists g|].
  destruct (pool_step g w a Hw) as (g1&H1&Hw1). destruct (IH g1 _ Hw1) as (g2&?&?). exists g2.
  split; [by etrans|done].
Qed.
End running.
End programs.

Arguments world cmd {_} S call A.
Arguments act {cmd _} S {_} call env.
