(* ===== verification/PoolOwned.v ===== *)
(** * Calls that own part of the state

    A second proof rule for the interleavings of [Programs].  [Programs.safe] gives
    a call facts that only grow.  Some calls instead hold something they give back
    or use up (a reservation): here every call in flight owns a list of resources,
    the invariant speaks of all resources owned, in any order, and a command may
    change only those of its own call. *)

From Stdlib Require Import Permutation.
From S2P Require Import Prelude Programs.
Local Open Scope nat_scope.
Local Open Scope list_scope.

Section owned.
Context {cmd : Type} `{Commands cmd} {S : Type} `{!Server cmd S}.
Context {call A env : Type} (body : call → prog cmd A) (env_step : env → S → S).
Context {R : Type} (inv : list R → S → Prop).
Context (fates : fate → Prop) (calls : call → Prop).
Context (Hperm : ∀ l k s, l ≡ₚ k → inv l s → inv k s).

Fixpoint owns {B} (post : list R → B → Prop) (own : list R) (p : prog cmd B) : Prop :=
  match p with
  | Ret b => post own b
  | Do c k =>
      ∀ rest s o, fates o → inv (own ++ rest) s →
        ∃ own', inv (own' ++ rest) (exec o c s).1 ∧ owns post own' (k (exec o c s).2)
  end.

Lemma owns_bind {B C} (post : list R → C → Prop) own (p : prog cmd B) (f : B → prog cmd C) :
  owns (λ own b, owns post own (f b)) own p → owns post own (bind p f).
Proof.
  revert own. induction p as [b|c k IH]; intros own; simpl; [done|].
  intros Hp rest s o Ho Hi. destruct (Hp rest s o Ho Hi) as (own'&?&?). exists own'. split; [done|]. by apply IH.
Qed.

Context (Hbody : ∀ c, calls c → owns (λ _ _, True) [] (body c)).
Context (Henv : ∀ l e s, inv l s → inv l (env_step e s)).

(** The acts the rule is about: admitted calls, fates of the kind [fates]. *)
Definition fair (a : act S call env) : Prop :=
  match a with Start c => calls c | Step _ o => fates o | Env _ => True end.

Definition owned_ok (ls : list (list R)) (w : world cmd S call A) : Prop :=
  inv (concat ls) (w_server w) ∧ Forall2 (owns (λ _ _, True)) ls (w_threads w).

Lemma owned_step ls w a : fair a → owned_ok ls w → ∃ ls', owned_ok ls' (act_step body env_step w a).
Proof using Hperm Hbody Henv.
  intros Ha [Hi Ht]. destruct a as [c|i o|e]; simpl.
  - exists (ls ++ [[]]). split; simpl; [by rewrite concat_app, app_nil_r|]. apply Forall2_app; [done|].
    constructor; [|done]. by apply Hbody.
  - destruct (w_threads w !! i) as [[a|c k]|] eqn:Hl; [by exists ls| |by exists ls].
    destruct (Forall2_lookup_r _ _ _ _ _ Ht Hl) as (own&Hown&Hp). simpl in Hp.
    assert (Hc : ∀ own', own' ++ concat (take i ls ++ drop (Datatypes.S i) ls) ≡ₚ concat (take i ls ++ own' :: drop (Datatypes.S i) ls)).
    { intros own'. rewrite !concat_app. simpl. by rewrite !(assoc_L app), (comm app own' (concat (take i ls))). }
    destruct (Hp (concat (take i ls ++ drop (Datatypes.S i) ls)) (w_server w) o) as (own'&Hi'&Hk); [done| |].
    { eapply Hperm; [|exact Hi]. by rewrite Hc, take_drop_middle. }
    destruct (exec o c (w_server w)) as [s' x]. simpl in *. exists (<[i := own']> ls). split; simpl.
    + eapply Hperm; [|exact Hi']. rewrite Hc, insert_take_drop by (by eapply lookup_lt_Some). done.
    + by apply Forall2_insert.
  - exists ls. split; [by apply Henv|done].
Qed.

Lemma owned_invariant l w ls : Forall fair l → owned_ok ls w → ∃ ls', owned_ok ls' (acts body env_step w l).
Proof using Hperm Hbody Henv.
  revert w ls. induction l as [|a l IH]; intros w ls Hf Hw; simpl; [by exists ls|].
  apply list.Forall_cons in Hf as [Ha Hf]. destruct (owned_step ls w a Ha Hw) as [ls' Hw']. by eapply IH.
Qed.
End owned.
