(* ===== verification/RedisBroker.v ===== *)
(** * The Redis event broker and cancel bus

    Models [internal/transport/redis/redis.go], types [Broker] and [CancelBus].
    A run's events are a Redis stream; every subscription is a goroutine of its own
    ([tailStream]) that reads the stream and owns the subscriber's channel.  Calls
    are programs of commands, goroutines and clients are steps of the environment,
    so any number of control planes interleave freely.

    An entry's id is its ordinal in the run's stream: Redis gives out increasing
    ids, and "0-0" is below them all.  A stream keeps its expired entries as a
    ghost, [dropped] of them. *)

From S2P Require Import Prelude Transport RedisQueue Broker Programs.
Local Open Scope string_scope.
Local Open Scope nat_scope.

(** ** State *)

Record stream := mkStream {
  entries : list RunEvent;       (* every entry ever added *)
  dropped : nat;                 (* those that expired with the key *)
  s_deadline : option Z
}.
Definition no_stream : stream := mkStream [] 0 None.

(** The program counter of [tailStream]. *)
Inductive pc :=
| Reading                                  (* at XREAD *)
| Checking                                 (* XREAD timed out: is the run closed? *)
| Sending (next : nat) (batch : list RunEvent)
| Removing                                 (* the deferred removeTailer *)
| Closing                                  (* the deferred close(ch) *)
| Stopped.

Record tailer := mkTailer {
  t_run : string;
  t_from : nat;                  (* ghost: [lastID] at the start *)
  t_last : nat;                  (* [lastID] *)
  t_ctx : bool;                  (* its context is done *)
  t_pc : pc;
  t_chan : goChan RunEvent;
  t_got : list RunEvent          (* ghost: what its reader received *)
}.

Notation tid := (nat * nat)%type.  (* a replica and its [tailerID] *)

Record World := mkW {
  streams : gmap string stream;
  marks : gmap string Z;                       (* closed markers and their deadlines *)
  clock : Z;
  tailers : gmap (nat * nat) tailer;           (* the goroutines *)
  registry : gmap (nat * string) (gset nat);   (* [b.tailers] of each replica *)
  nextIDs : gmap nat nat;
  h_marked : gset string;                      (* ghost: runs ever marked closed *)
  panicked : bool
}.

Definition new_world : World := mkW ∅ ∅ 0 ∅ ∅ ∅ ∅ false.

Definition stream_of (s : World) (r : string) : stream := map_get no_stream (streams s) r.
Definition nextID (s : World) (i : nat) : nat := default 0 (nextIDs s !! i).
Definition registered (s : World) (i : nat) (r : string) : gset nat := default ∅ (registry s !! (i, r)).

Definition set_streams m (s : World) : World :=
  mkW m (marks s) (clock s) (tailers s) (registry s) (nextIDs s) (h_marked s) (panicked s).
Definition set_tailers m (s : World) : World :=
  mkW (streams s) (marks s) (clock s) m (registry s) (nextIDs s) (h_marked s) (panicked s).
Definition set_registry m (s : World) : World :=
  mkW (streams s) (marks s) (clock s) (tailers s) m (nextIDs s) (h_marked s) (panicked s).
Definition panic (s : World) : World :=
  mkW (streams s) (marks s) (clock s) (tailers s) (registry s) (nextIDs s) (h_marked s) true.

(** ** Redis commands *)

Definition xadd (r : string) (ev : RunEvent) (s : World) : World :=
  let st := stream_of s r in
  set_streams (<[r := mkStream (entries st ++ [ev])%list (dropped st) (s_deadline st)]> (streams s)) s.

(** [EXPIRE] of a key that exists. *)
Definition expire (r : string) (ttl : Z) (s : World) : World :=
  let st := stream_of s r in
  if dropped st <? length (entries st)
  then set_streams (<[r := mkStream (entries st) (dropped st) (Some (clock s + ttl)%Z)]> (streams s)) s
  else s.

Definition mark_closed (r : string) (ttl : Z) (s : World) : World :=
  mkW (streams s) (<[r := (clock s + ttl)%Z]> (marks s)) (clock s) (tailers s) (registry s) (nextIDs s)
    ({[r]} ∪ h_marked s) (panicked s).

Definition is_marked (r : string) (s : World) : bool := bool_decide (is_Some (marks s !! r)).

(** [XREVRANGE key + - COUNT 1]: the last id. *)
Definition last_id (r : string) (s : World) : option nat :=
  let st := stream_of s r in
  if dropped st <? length (entries st) then Some (length (entries st)) else None.

(** [XREAD COUNT 100 STREAMS key id]: the ordinal before the first entry, and the
    entries. *)
Definition xread (r : string) (last : nat) (s : World) : nat * list RunEvent :=
  let st := stream_of s r in
  let from := Nat.max last (dropped st) in (from, take 100 (drop from (entries st))).

(** Time passes; what is past its deadline goes. *)
Definition past (c : Z) (d : option Z) : bool := match d with Some d => (d <=? c)%Z | None => false end.
Definition purge (c : Z) (st : stream) : stream :=
  if past c (s_deadline st) then mkStream (entries st) (length (entries st)) None else st.
Definition advance (d : Z) (s : World) : World :=
  let c := (clock s + Z.max 0 d)%Z in
  mkW (purge c <$> streams s) (filter (λ km, (c < km.2)%Z) (marks s)) c (tailers s) (registry s) (nextIDs s)
    (h_marked s) (panicked s).

(** ** The calls *)

Definition eventStreamTTL : Z := 24 * 3600.          (* seconds *)
Definition hungRunStreamTTL : Z := 7 * 24 * 3600.

Inductive bcmd :=
| XAdd (r : string) (ev : RunEvent)
| SetClosed (r : string) (ttl : Z)
| Expire (r : string) (ttl : Z)
| ExistsClosed (r : string)
| XRevRangeN (r : string)
| XRange (r : string)
| StartTailer (i : nat) (r : string) (last : nat)
| TakeTailers (i : nat) (r : string)
| CancelTailer (k : tid).

#[export] Instance broker_commands : Commands bcmd := λ c,
  match c with
  | XAdd _ _ | ExistsClosed _ => bool
  | SetClosed _ _ | Expire _ _ | CancelTailer _ => unit
  | XRevRangeN _ => res go_error (option nat)
  | XRange _ => res go_error (list RunEvent)
  | StartTailer _ _ _ => nat
  | TakeTailers _ _ => list nat
  end.

(** Registration under the lock, then [go b.tailStream]. *)
Definition start_tailer (i : nat) (r : string) (last : nat) (s : World) : World * nat :=
  let id := S (nextID s i) in
  (mkW (streams s) (marks s) (clock s)
     (<[(i, id) := mkTailer r last last false Reading (mkChan [] false) []]> (tailers s))
     (<[(i, r) := {[id]} ∪ registered s i r]> (registry s)) (<[i := id]> (nextIDs s)) (h_marked s) (panicked s),
   id).

Definition with_ctx (t : tailer) : tailer :=
  mkTailer (t_run t) (t_from t) (t_last t) true (t_pc t) (t_chan t) (t_got t).

Definition cancel_tailer (k : tid) (s : World) : World := set_tailers (alter with_ctx k (tailers s)) s.

Definition written (o : reply) (f : World → World) (s : World) : World :=
  match o with RFine | RLost => f s | RDown => s end.
Definition answered (o : reply) : bool := match o with RFine => true | _ => false end.

Definition exec_broker (o : reply) (c : bcmd) (s : World) : World * answer c :=
  match c return World * answer c with
  | XAdd r ev => (written o (xadd r ev) s, answered o)
  | SetClosed r ttl => (written o (mark_closed r ttl) s, tt)
  | Expire r ttl => (written o (expire r ttl) s, tt)
  | ExistsClosed r => (s, answered o && is_marked r s)
  | XRevRangeN r => (s, if answered o then Ok (last_id r s) else Err ErrBackend)
  | XRange r => (s, if answered o then Ok (drop (dropped (stream_of s r)) (entries (stream_of s r))) else Err ErrBackend)
  | StartTailer i r last => start_tailer i r last s
  | TakeTailers i r => (set_registry (delete (i, r) (registry s)) s, elements (registered s i r))
  | CancelTailer k => (cancel_tailer k s, tt)
  end.

#[export] Instance broker_server : Programs.Server bcmd World := {| fate := reply; fine := RFine; exec := exec_broker |}.

Local Notation "x <~ c ;; k" := (@Do bcmd broker_commands _ c (λ x, k))
  (at level 100, c at next level, right associativity, only parsing).

(** [json.Unmarshal] of what [json.Marshal] wrote for an event. *)
Section broker.
Variable reread : RunEvent → option RunEvent.

(** [true]: no error. *)
Definition Publish (runID : string) (event : RunEvent) : prog bcmd bool :=
  ok <~ XAdd runID event ;;
  if negb ok then Ret false
  else if IsTerminal event then
    _ <~ SetClosed runID eventStreamTTL ;; _ <~ Expire runID eventStreamTTL ;; Ret true
  else _ <~ Expire runID hungRunStreamTTL ;; Ret true.

(** [None]: a channel that is closed already; otherwise the tailer's id. *)
Definition Subscribe (i : nat) (runID : string) : prog bcmd (option nat) :=
  closed <~ ExistsClosed runID ;;
  if (closed : bool) then Ret None
  else
    msgs <~ XRevRangeN runID ;;
    id <~ StartTailer i runID (match msgs with Ok (Some last) => last | _ => 0 end) ;;
    (Ret (Some (id : nat)) : prog bcmd (option nat)).

Definition Replay (runID : string) (sinceSeq : Z) : prog bcmd (res go_error (list RunEvent)) :=
  msgs <~ XRange runID ;;
  Ret match msgs with
      | Err e => Err e
      | Ok l => Ok (List.filter (λ ev, Z.ltb sinceSeq (Seq ev)) (omap reread l))
      end.

Fixpoint cancel_all (i : nat) (ids : list nat) : prog bcmd unit :=
  match ids with
  | [] => Ret tt
  | id :: ids => _ <~ CancelTailer (i, id) ;; cancel_all i ids
  end.

Definition Close (i : nat) (runID : string) : prog bcmd unit :=
  _ <~ SetClosed runID eventStreamTTL ;;
  _ <~ Expire runID eventStreamTTL ;;
  ids <~ TakeTailers i runID ;;
  cancel_all i ids.

(** ** The goroutine *)

(** [removeTailer] *)
Definition removeTailer (i : nat) (r : string) (id : nat) (s : World) : World :=
  match registry s !! (i, r) with
  | Some m =>
      let m' := m ∖ {[id]} in
      set_registry (if decide (m' = ∅) then delete (i, r) (registry s) else <[(i, r) := m']> (registry s)) s
  | None => s
  end.

Definition at_pc (p : pc) (t : tailer) : tailer :=
  mkTailer (t_run t) (t_from t) (t_last t) (t_ctx t) p (t_chan t) (t_got t).
Definition read_to (last : nat) (p : pc) (t : tailer) : tailer :=
  mkTailer (t_run t) (t_from t) last (t_ctx t) p (t_chan t) (t_got t).
Definition set_chan (ch : goChan RunEvent) (t : tailer) : tailer :=
  mkTailer (t_run t) (t_from t) (t_last t) (t_ctx t) (t_pc t) ch (t_got t).

Definition put (k : tid) (t : tailer) (s : World) : World := set_tailers (<[k := t]> (tailers s)) s.

(** The select of a message: [done] prefers the context when both cases are ready.
    A select with no ready case waits.  [lastID] is dead once the goroutine returns,
    so a message that is not delivered does not count as read. *)
Definition select_send (k : tid) (t : tailer) (n : nat) (rest : list RunEvent) (event : RunEvent) (done : bool)
    (s : World) : World :=
  let ch := t_chan t in
  let room := chClosed ch || (length (pending ch) <? sub_cap) in
  if t_ctx t && (done || negb room) then put k (at_pc Removing t) s
  else if chClosed ch then panic s
  else if room then
    put k (set_chan (mkChan (pending ch ++ [event])%list false)
             (read_to (S n) (if IsTerminal event then Removing else Sending (S n) rest) t)) s
  else s.

(** One step of [tailStream] number [k]: how its command turns out, and the
    preference of a select. *)
Definition tail_step (k : tid) (o : reply) (done : bool) (s : World) : World :=
  match tailers s !! k with
  | None => s
  | Some t =>
      match t_pc t with
      | Reading =>
          if answered o then
            match xread (t_run t) (t_last t) s with
            | (_, []) => put k (at_pc (if t_ctx t then Removing else Checking) t) s
            | (n, batch) => put k (at_pc (Sending n batch) t) s
            end
          else if t_ctx t then put k (at_pc Removing t) s
          else s
      | Checking => put k (at_pc (if answered o && is_marked (t_run t) s then Removing else Reading) t) s
      | Sending n [] => put k (at_pc Reading t) s
      | Sending n (ev :: rest) =>
          match reread ev with
          | None => put k (read_to (S n) (Sending (S n) rest) t) s
          | Some event => select_send k t n rest event done s
          end
      | Removing => put k (at_pc Closing t) (removeTailer k.1 (t_run t) k.2 s)
      | Closing =>
          if chClosed (t_chan t) then panic s
          else put k (set_chan (mkChan (pending (t_chan t)) true) (at_pc Stopped t)) s
      | Stopped => s
      end
  end.

(** The subscriber receives. *)
Definition receive (k : tid) (s : World) : World :=
  match tailers s !! k with
  | Some t =>
      match pending (t_chan t) with
      | v :: l => put k (mkTailer (t_run t) (t_from t) (t_last t) (t_ctx t) (t_pc t)
                           (mkChan l (chClosed (t_chan t))) (t_got t ++ [v])%list) s
      | [] => s
      end
  | None => s
  end.

(** ** Histories *)

Inductive bcall :=
| CPublish (r : string) (ev : RunEvent)
| CSubscribe (i : nat) (r : string)
| CReplay (r : string) (sinceSeq : Z)
| CClose (i : nat) (r : string).

Definition bbody (c : bcall) : prog bcmd unit :=
  match c with
  | CPublish r ev => bind (Publish r ev) (λ _, Ret tt)
  | CSubscribe i r => bind (Subscribe i r) (λ _, Ret tt)
  | CReplay r n => bind (Replay r n) (λ _, Ret tt)
  | CClose i r => Close i r
  end.

Inductive benv :=
| Tail (k : tid) (o : reply) (done : bool)
| Receive (k : tid)
| Done (k : tid)             (* the subscriber's own context ends *)
| Advance (d : Z).

Definition benv_step (e : benv) (s : World) : World :=
  match e with
  | Tail k o done => tail_step k o done s
  | Receive k => receive k s
  | Done k => cancel_tailer k s
  | Advance d => advance d s
  end.

Definition bhistory (l : list (act World bcall benv)) : World :=
  w_server (acts bbody benv_step (Programs.mkWorld new_world [] []) l).
End broker.


(** ** The cancel bus

    [SubscribeCancel] holds a Pub/Sub subscription, confirmed before it returns,
    and a goroutine that waits for a message or for its context. *)

Record csub := mkCsub {
  c_run : string;
  c_from : nat;               (* ghost: the cancels published before it *)
  c_ctx : bool;               (* its context is done *)
  c_open : bool;              (* the subscription is held and the goroutine waits *)
  c_msgs : nat;               (* messages in [msgCh] *)
  c_chan : goChan unit;
  c_got : nat                 (* ghost: values its reader received *)
}.

Record CancelBus := mkCBus {
  csubs : gmap nat csub;
  cnext : nat;
  h_cancels : list string     (* ghost: the cancels published *)
}.

Definition new_cbus : CancelBus := mkCBus ∅ 0 [].

(** A message reaches the subscriptions the server holds. *)
Definition notified (r : string) (c : csub) : csub :=
  if c_open c && (c_run c =? r)%string
  then mkCsub (c_run c) (c_from c) (c_ctx c) (c_open c) (S (c_msgs c)) (c_chan c) (c_got c) else c.

(** [true]: no error. *)
Definition PublishCancel (o : reply) (runID : string) (b : CancelBus) : CancelBus * bool :=
  (match o with
   | RDown => b
   | _ => mkCBus (notified runID <$> csubs b) (cnext b) (h_cancels b ++ [runID])%list
   end, answered o).

(** A subscription that is not confirmed is closed again. *)
Definition SubscribeCancel (o : reply) (runID : string) (b : CancelBus) : CancelBus * option nat :=
  if answered o
  then (mkCBus (<[cnext b := mkCsub runID (length (h_cancels b)) false true 0 (mkChan [] false) 0]> (csubs b))
          (S (cnext b)) (h_cancels b), Some (cnext b))
  else (b, None).

(** The goroutine's select; [done] prefers the context when both cases are ready. *)
Definition cancel_go (done : bool) (c : csub) : option csub :=
  if negb (c_open c) then Some c
  else if (0 <? c_msgs c) && negb (done && c_ctx c) then
    let ch := c_chan c in
    if chClosed ch then None
    else Some (mkCsub (c_run c) (c_from c) (c_ctx c) false (pred (c_msgs c))
                 (mkChan (if length (pending ch) <? 1 then pending ch ++ [tt] else pending ch)%list true) (c_got c))
  else if c_ctx c then Some (mkCsub (c_run c) (c_from c) (c_ctx c) false (c_msgs c) (c_chan c) (c_got c))
  else Some c.

Definition cancel_recv (c : csub) : csub :=
  match pending (c_chan c) with
  | _ :: l => mkCsub (c_run c) (c_from c) (c_ctx c) (c_open c) (c_msgs c) (mkChan l (chClosed (c_chan c))) (S (c_got c))
  | [] => c
  end.

Definition cancel_done (c : csub) : csub :=
  mkCsub (c_run c) (c_from c) true (c_open c) (c_msgs c) (c_chan c) (c_got c).

Inductive cact :=
| APublishCancel (o : reply) (r : string)
| ASubscribeCancel (o : reply) (r : string)
| AGo (k : nat) (done : bool)
| ARecv (k : nat)
| ADone (k : nat).

(** [None]: a panic. *)
Definition cact_step (b : CancelBus) (a : cact) : option CancelBus :=
  match a with
  | APublishCancel o r => Some (PublishCancel o r b).1
  | ASubscribeCancel o r => Some (SubscribeCancel o r b).1
  | AGo k done =>
      match csubs b !! k with
      | Some c => c' ← cancel_go done c; Some (mkCBus (<[k := c']> (csubs b)) (cnext b) (h_cancels b))
      | None => Some b
      end
  | ARecv k => Some (mkCBus (alter cancel_recv k (csubs b)) (cnext b) (h_cancels b))
  | ADone k => Some (mkCBus (alter cancel_done k (csubs b)) (cnext b) (h_cancels b))
  end.

Fixpoint cacts (b : CancelBus) (l : list cact) : option CancelBus :=
  match l with
  | [] => Some b
  | a :: l => b' ← cact_step b a; cacts b' l
  end.

(** * What a subscriber of the Redis broker observes
    Theorems on [RedisBroker]: under every interleaving of publishers,
    subscribers, closes, lost replies, expiring keys and tailing goroutines, each
    subscriber reads the run's stream in order from the position its [Subscribe]
    captured, and no goroutine sends on or closes a closed channel.  *)

Local Open Scope string_scope.
Local Open Scope nat_scope.
Local Open Scope list_scope.

Section props.
Variable reread : RunEvent → option RunEvent.

Definition seen (t : tailer) : list RunEvent := (t_got t ++ pending (t_chan t))%list.

(** The goroutine has left its loop. *)
Definition stopping (p : pc) : bool := match p with Removing | Closing | Stopped => true | _ => false end.

Notation live e := (IsTerminal e = false).

Definition ends_run (l : list RunEvent) : Prop := ∃ pre e, l = (pre ++ [e])%list ∧ Forall (λ e, live e) pre ∧ IsTerminal e = true.

(** The invariant of a tailer of a stream with entries [es], [d] of them expired. *)
Record tailer_ok (es : list RunEvent) (d : nat) (marked : Prop) (t : tailer) : Prop := {
  to_from : t_from t ≤ t_last t ≤ length es;
  to_batch n b : t_pc t = Sending n b → t_last t ≤ n ∧ (d = 0 → n = t_last t) ∧ b `prefix_of` drop n es;
  to_part : sublist (seen t) (omap reread (segment (t_from t) (t_last t) es));
  to_all : d = 0 → seen t = omap reread (segment (t_from t) (t_last t) es);
  to_terminal : Forall (λ e, live e) (seen t) ∨ stopping (t_pc t) = true ∧ ends_run (seen t);
  to_closed : chClosed (t_chan t) = true ↔ t_pc t = Stopped;
  to_cap : length (pending (t_chan t)) ≤ sub_cap;
  to_reason : stopping (t_pc t) = true → t_ctx t = true ∨ marked ∨ ends_run (seen t)
}.

(** ** Segments *)

Lemma segment_next {A} n m m' (es : list A) ev :
  n ≤ m → m ≤ m' → es !! m' = Some ev →
  sublist (segment n m es ++ [ev]) (segment n (S m') es) ∧ (m = m' → segment n (S m') es = (segment n m es ++ [ev])%list).
Proof.
  intros Hn Hm He. pose proof (lookup_lt_Some _ _ _ He). unfold segment.
  rewrite (take_S_r _ _ _ He), drop_app_le by (rewrite length_take; lia).
  split; [|by intros ->]. apply sublist_app; [|done].
  replace (take m' es) with (take m es ++ drop m (take m' es))%list.
  2:{ rewrite <- (take_drop m (take m' es)) at 2. by rewrite take_take, Nat.min_l by done. }
  rewrite drop_app_le by (rewrite length_take; lia). apply sublist_inserts_r, reflexivity.
Qed.

Lemma sublist_omap {A B} (f : A → option B) l k : sublist l k → sublist (omap f l) (omap f k).
Proof. induction 1; csimpl; [done| |]; destruct (f x); by try constructor. Qed.

Lemma prefix_head {A} (x : A) b n es : x :: b `prefix_of` drop n es → es !! n = Some x ∧ b `prefix_of` drop (S n) es.
Proof.
  intros [k Hk]. split.
  - rewrite <- (Nat.add_0_r n), <- lookup_drop, Hk. done.
  - exists k. replace (S n) with (n + 1) by lia. by rewrite <- drop_drop, Hk.
Qed.

(** ** The steps of a tailer *)

Lemma tailer_ok_grows es es' d d' (m m' : Prop) t :
  es `prefix_of` es' → d ≤ d' → (m → m') → tailer_ok es d m t → tailer_ok es' d' m' t.
Proof.
  intros [k ->] Hd Hm [Hf Hb Hp Ha Ht Hc Hcap Hr]. split; try done.
  - rewrite length_app. lia.
  - intros n b Hpc. destruct (Hb n b Hpc) as (?&Hz&Hpre). split; [done|]. split; [intros ->; apply Hz; lia|].
    destruct b as [|e b]; [apply prefix_nil|]. etrans; [done|]. destruct (prefix_head _ _ _ _ Hpre) as [He _].
    apply lookup_lt_Some in He. rewrite drop_app_le by lia. by eexists.
  - rewrite segment_app by lia. done.
  - rewrite segment_app by lia. intros ->. apply Ha. lia.
  - intros Hs. destruct (Hr Hs) as [?|[?|?]]; auto.
Qed.

Lemma ctx_ok es d m t : tailer_ok es d m t → tailer_ok es d m (with_ctx t).
Proof. intros [Hf Hb Hp Ha Ht Hc Hcap Hr]. split; try done. intros _. by left. Qed.

(** A move to a program counter outside the send loop. *)
Lemma pc_ok es d (m : Prop) t p :
  tailer_ok es d m t → t_pc t ≠ Stopped → p ≠ Stopped →
  (∀ n b, p = Sending n b → t_last t ≤ n ∧ (d = 0 → n = t_last t) ∧ b `prefix_of` drop n es) →
  (stopping (t_pc t) = true → stopping p = true) →
  (stopping p = true → stopping (t_pc t) = true ∨ t_ctx t = true ∨ m) → tailer_ok es d m (at_pc p t).
Proof.
  intros [Hf Hb Hp Ha Ht Hc Hcap Hr] Hnow Hnew Hbatch Hsp Hwhy. split; try done; simpl.
  - destruct Ht as [|[Hs ?]]; [by left|right]. auto.
  - split; [|by intros ->]. by intros ?%Hc.
  - intros Hs. destruct (Hwhy Hs) as [?|[?|?]]; auto.
Qed.

(** A message that does not decode is passed over. *)
Lemma skip_ok es d m t n ev b : tailer_ok es d m t → t_pc t = Sending n (ev :: b) → reread ev = None →
  tailer_ok es d m (read_to (S n) (Sending (S n) b) t).
Proof.
  intros [Hf Hb Hp Ha Ht Hc Hcap Hr] Hpc Hev. destruct (Hb _ _ Hpc) as (Hl&Hz&[He Hpre]%prefix_head).
  destruct (segment_next (t_from t) (t_last t) n es ev) as [Hsub Heq]; [lia|done|done|].
  pose proof (lookup_lt_Some _ _ _ He).
  assert (omap reread (segment (t_from t) (t_last t) es ++ [ev]) = omap reread (segment (t_from t) (t_last t) es)) as Ho.
  { rewrite omap_app. csimpl. rewrite Hev. by rewrite app_nil_r. }
  split; try done; simpl.
  - lia.
  - intros n' b' [= <- <-]. split; [done|]. done.
  - etrans; [exact Hp|]. rewrite <- Ho. by apply sublist_omap.
  - intros Hd. rewrite Heq by (symmetry; auto). rewrite Ho. auto.
  - destruct Ht as [|[Hs _]]; [by left|]. by rewrite Hpc in Hs.
  - rewrite Hc, Hpc. done.
Qed.

(** A message that is sent. *)
Lemma send_ok es d m t n ev b event : tailer_ok es d m t → t_pc t = Sending n (ev :: b) → reread ev = Some event →
  length (pending (t_chan t)) < sub_cap →
  tailer_ok es d m (set_chan (mkChan (pending (t_chan t) ++ [event])%list false)
    (read_to (S n) (if IsTerminal event then Removing else Sending (S n) b) t)).
Proof.
  intros [Hf Hb Hp Ha Ht Hc Hcap Hr] Hpc Hev Hroom. destruct (Hb _ _ Hpc) as (Hl&Hz&[He Hpre]%prefix_head).
  destruct (segment_next (t_from t) (t_last t) n es ev) as [Hsub Heq]; [lia|done|done|].
  pose proof (lookup_lt_Some _ _ _ He). set (t' := set_chan _ _).
  assert (seen t' = (seen t ++ [event])%list) as Hs by (unfold seen; simpl; by rewrite (assoc_L app)).
  assert (omap reread (segment (t_from t) (t_last t) es ++ [ev])%list =
          (omap reread (segment (t_from t) (t_last t) es) ++ [event])%list) as Ho.
  { rewrite omap_app. csimpl. by rewrite Hev. }
  assert (Forall (λ e, live e) (seen t)) as Hlive.
  { destruct Ht as [|[Hs' _]]; [done|]. by rewrite Hpc in Hs'. }
  assert (IsTerminal event = true → ends_run (seen t')) as Hend.
  { intros HT. exists (seen t), event. done. }
  split; try rewrite Hs.
  - simpl. lia.
  - simpl. destruct (IsTerminal event); [done|]. intros n' b' [= <- <-]. done.
  - simpl. etrans; [|by apply sublist_omap]. rewrite Ho. by apply sublist_app.
  - simpl. intros Hd. rewrite Heq by (symmetry; auto). rewrite Ho. f_equal. auto.
  - rewrite <- Hs. simpl. destruct (IsTerminal event) eqn:HT; [right; split; [done|]; auto|left].
    rewrite Hs. apply Forall_app. split; [done|]. by constructor.
  - simpl. by destruct (IsTerminal event).
  - simpl. rewrite length_app. simpl. lia.
  - simpl. destruct (IsTerminal event); [|done]. rewrite <- Hs. auto.
Qed.

Lemma receive_ok es d m t v l : tailer_ok es d m t → pending (t_chan t) = v :: l →
  tailer_ok es d m (mkTailer (t_run t) (t_from t) (t_last t) (t_ctx t) (t_pc t)
                      (mkChan l (chClosed (t_chan t))) (t_got t ++ [v])%list).
Proof.
  intros [Hf Hb Hp Ha Ht Hc Hcap Hr] Hv. set (t' := mkTailer _ _ _ _ _ _ _).
  assert (seen t' = seen t) as Hs by (unfold seen; simpl; rewrite Hv, <- (assoc_L app); done).
  split; try rewrite Hs; try done. simpl. rewrite Hv in Hcap. simpl in Hcap. lia.
Qed.
(** ** The invariant of the system *)

Definition ents (m : gmap string stream) (r : string) : list RunEvent := entries (map_get no_stream m r).
Definition gone (m : gmap string stream) (r : string) : nat := dropped (map_get no_stream m r).

(** What a call may remember: streams only grow. *)
Definition longer (m m' : gmap string stream) : Prop :=
  ∀ r, ents m r `prefix_of` ents m' r ∧ gone m r ≤ gone m' r.

#[local] Instance longer_preorder : PreOrder longer.
Proof.
  split; [done|]. intros m1 m2 m3 H1 H2 r. destruct (H1 r), (H2 r). split; [by etrans|lia].
Qed.

Definition alive (p : pc) : Prop := p ≠ Closing ∧ p ≠ Stopped.

Record binv (m : gmap string stream) (s : World) : Prop := {
  bi_streams : m = streams s;
  bi_calm : panicked s = false;
  bi_gone r : gone (streams s) r ≤ length (ents (streams s) r);
  bi_tailer k t : tailers s !! k = Some t →
    tailer_ok (ents (streams s) (t_run t)) (gone (streams s) (t_run t)) (t_run t ∈ h_marked s) t;
  bi_ids i id : is_Some (tailers s !! (i, id)) → id ≤ nextID s i;
  bi_reg i r id : id ∈ registered s i r → ∃ t, tailers s !! (i, id) = Some t ∧ t_run t = r ∧ alive (t_pc t);
  bi_marks r : is_Some (marks s !! r) → r ∈ h_marked s
}.

(** Steps on the streams and markers alone. *)
Lemma streams_step s s' : binv (streams s) s → longer (streams s) (streams s') →
  (∀ r, gone (streams s') r ≤ length (ents (streams s') r)) → panicked s' = panicked s →
  tailers s' = tailers s → registry s' = registry s → nextIDs s' = nextIDs s → h_marked s ⊆ h_marked s' →
  (∀ r, is_Some (marks s' !! r) → r ∈ h_marked s') → binv (streams s') s'.
Proof.
  intros [_ Hc _ Ht Hi Hr Hm] Hl Hg Hp Htl Hreg Hn Hh Hm'. split; try done.
  - congruence.
  - rewrite Htl. intros k t Hk. destruct (Hl (t_run t)). eapply tailer_ok_grows; [done..| |by apply (Ht k)]. set_solver.
  - intros i id. rewrite Htl. unfold nextID. rewrite Hn. apply Hi.
  - intros i r id. unfold registered. rewrite Hreg, Htl. apply Hr.
Qed.

Lemma longer_insert m r st : entries (map_get no_stream m r) `prefix_of` entries st →
  dropped (map_get no_stream m r) ≤ dropped st → longer m (<[r := st]> m).
Proof.
  intros He Hd r'. unfold ents, gone, map_get in *. destruct (decide (r = r')) as [->|Hne].
  - by rewrite lookup_insert_eq.
  - by rewrite lookup_insert_ne.
Qed.

Lemma gone_insert m r st r' : (∀ r, gone m r ≤ length (ents m r)) → dropped st ≤ length (entries st) →
  gone (<[r := st]> m) r' ≤ length (ents (<[r := st]> m) r').
Proof.
  intros Hm Hs. specialize (Hm r'). unfold ents, gone in *. destruct (decide (r = r')) as [->|Hne].
  - by rewrite map_get_insert_eq.
  - by rewrite map_get_insert_ne.
Qed.

Lemma purge_streams c m : (∀ r, gone m r ≤ length (ents m r)) →
  longer m (purge c <$> m) ∧ ∀ r, gone (purge c <$> m) r ≤ length (ents (purge c <$> m) r).
Proof.
  intros Hm. split; intros r; specialize (Hm r); unfold ents, gone, map_get in *; rewrite lookup_fmap;
    (destruct (m !! r) as [st|]; [|done]); simpl in *; unfold purge; by destruct (past _ _).
Qed.

Lemma xadd_inv r ev s : binv (streams s) s → longer (streams s) (streams (xadd r ev s)) ∧ binv (streams (xadd r ev s)) (xadd r ev s).
Proof.
  intros Hi. pose proof (bi_gone _ _ Hi) as Hg. assert (longer (streams s) (streams (xadd r ev s))) as Hl.
  { apply longer_insert; simpl; [by eexists|done]. }
  split; [done|]. apply (streams_step s); try done; [|apply Hi]. intros r'. apply gone_insert; [done|].
  simpl. rewrite length_app. specialize (Hg r). unfold gone, ents, stream_of in *. lia.
Qed.

Lemma expire_inv r ttl s : binv (streams s) s →
  longer (streams s) (streams (expire r ttl s)) ∧ binv (streams (expire r ttl s)) (expire r ttl s).
Proof.
  intros Hi. pose proof (bi_gone _ _ Hi) as Hg. unfold expire. cbv zeta. destruct (_ <? _); [|done].
  match goal with |- longer _ ?m ∧ _ => assert (longer (streams s) m) as Hl end.
  { apply longer_insert; done. }
  split; [done|]. apply (streams_step s); try done; [|apply Hi]. intros r'. apply gone_insert; [done|]. apply (Hg r).
Qed.

Lemma mark_inv r ttl s : binv (streams s) s → binv (streams s) (mark_closed r ttl s).
Proof.
  intros Hi. apply (streams_step s (mark_closed r ttl s)); try done; [apply Hi|simpl; set_solver|]. intros r'. simpl.
  destruct (decide (r = r')) as [->|]; [set_solver|]. rewrite lookup_insert_ne by done. intros ?%(bi_marks _ _ Hi). set_solver.
Qed.

Lemma advance_inv d s : binv (streams s) s →
  longer (streams s) (streams (advance d s)) ∧ binv (streams (advance d s)) (advance d s).
Proof.
  intros Hi. destruct (purge_streams (clock s + Z.max 0 d)%Z (streams s) (bi_gone _ _ Hi)) as [Hl Hg].
  split; [done|]. apply (streams_step s); try done. intros r. simpl. intros [x [Hx _]%map_lookup_filter_Some].
  apply (bi_marks _ _ Hi). by eexists.
Qed.

(** Steps of one tailer. *)
Lemma put_inv k t t' s : binv (streams s) s → tailers s !! k = Some t → t_run t' = t_run t →
  tailer_ok (ents (streams s) (t_run t)) (gone (streams s) (t_run t)) (t_run t ∈ h_marked s) t' →
  (k.2 ∈ registered s k.1 (t_run t) → alive (t_pc t')) → binv (streams s) (put k t' s).
Proof.
  intros [_ Hc Hg Ht Hi Hr Hm] Hk Hrun Hok Hal. split; try done; simpl.
  - intros k' u. destruct (decide (k = k')) as [<-|].
    + rewrite lookup_insert_eq. intros [= <-]. by rewrite Hrun.
    + rewrite lookup_insert_ne by done. apply Ht.
  - intros i id. destruct (decide (k = (i, id))) as [->|].
    + intros _. apply Hi. by eexists.
    + rewrite lookup_insert_ne by done. apply Hi.
  - intros i r id Hid. destruct (Hr i r id Hid) as (u&Hu&Hur&Hua). destruct (decide (k = (i, id))) as [->|].
    + rewrite lookup_insert_eq. exists t'. rewrite Hk in Hu. injection Hu as <-. split; [done|]. subst r. split; [done|]. by apply Hal.
    + rewrite lookup_insert_ne by done. eauto.
Qed.

(** Fewer registrations. *)
Lemma registry_inv s reg : binv (streams s) s →
  (∀ i r, default ∅ (reg !! (i, r)) ⊆ registered s i r) → binv (streams s) (set_registry reg s).
Proof. intros [_ Hc Hg Ht Hi Hr Hm] Hsub. split; try done. intros i r id Hid. apply Hr. by apply Hsub. Qed.

Lemma removeTailer_registered i r id s j q :
  registered (removeTailer i r id s) j q = if decide ((i, r) = (j, q)) then registered s j q ∖ {[id]} else registered s j q.
Proof.
  unfold removeTailer, registered. destruct (registry s !! (i, r)) as [m|] eqn:E; destruct (decide ((i, r) = (j, q))) as [Hd|Hd].
  - injection Hd as <- <-. rewrite E. simpl. destruct (decide (m ∖ {[id]} = ∅)) as [He|He]; simpl.
    + rewrite lookup_delete_eq. simpl. set_solver.
    + by rewrite lookup_insert_eq.
  - simpl. destruct (decide (m ∖ {[id]} = ∅)); simpl; [by rewrite lookup_delete_ne|by rewrite lookup_insert_ne].
  - injection Hd as <- <-. rewrite E. set_solver.
  - done.
Qed.

Lemma ctx_inv k s : binv (streams s) s → binv (streams s) (cancel_tailer k s).
Proof.
  intros Hi. unfold cancel_tailer. destruct (tailers s !! k) as [t|] eqn:Hk.
  - replace (alter with_ctx k (tailers s)) with (<[k := with_ctx t]> (tailers s)).
    2:{ apply map_eq. intros k'. destruct (decide (k = k')) as [<-|].
        - rewrite lookup_insert_eq, lookup_alter_eq, Hk. done.
        - by rewrite lookup_insert_ne, lookup_alter_ne. }
    eapply put_inv; [done|done|done|by apply ctx_ok, (bi_tailer _ _ Hi k)|]. intros Hr.
    destruct (bi_reg _ _ Hi _ _ _ Hr) as (u&Hu&_&?). rewrite <- surjective_pairing in Hu. by simplify_eq.
  - replace (alter with_ctx k (tailers s)) with (tailers s) by (apply map_eq; intros k'; destruct (decide (k = k')) as [<-|];
      [by rewrite lookup_alter_eq, Hk|by rewrite lookup_alter_ne]).
    by destruct s.
Qed.
Lemma reg_alive k t s : binv (streams s) s → tailers s !! k = Some t → k.2 ∈ registered s k.1 (t_run t) → alive (t_pc t).
Proof.
  intros Hi Hk Hr. destruct (bi_reg _ _ Hi _ _ _ Hr) as (u&Hu&_&?). rewrite <- surjective_pairing in Hu. by simplify_eq.
Qed.

(** A move of the program counter alone. *)
Lemma move_inv k t p s : binv (streams s) s → tailers s !! k = Some t → alive (t_pc t) → alive p →
  (∀ n b, p = Sending n b → t_last t ≤ n ∧ (gone (streams s) (t_run t) = 0 → n = t_last t) ∧ b `prefix_of` drop n (ents (streams s) (t_run t))) →
  (stopping (t_pc t) = true → stopping p = true) →
  (stopping p = true → stopping (t_pc t) = true ∨ t_ctx t = true ∨ t_run t ∈ h_marked s) → binv (streams s) (put k (at_pc p t) s).
Proof.
  intros Hi Hk [_ Hn] [Hc Hn'] Hb Hs Hw. eapply put_inv; [done|done|done| |by intros _].
  apply pc_ok; try done. by apply (bi_tailer _ _ Hi k).
Qed.

Lemma xread_batch r last s n ev b : xread r last s = (n, ev :: b) →
  last ≤ n ∧ (gone (streams s) r = 0 → n = last) ∧ ev :: b `prefix_of` drop n (ents (streams s) r).
Proof.
  unfold xread, ents, gone, stream_of. cbv zeta. intros [= <- <-]. split; [lia|]. split; [lia|].
  eexists. symmetry. apply take_drop.
Qed.

Lemma select_inv k t n ev b event done s : binv (streams s) s → tailers s !! k = Some t →
  t_pc t = Sending n (ev :: b) → reread ev = Some event → binv (streams s) (select_send k t n b event done s).
Proof.
  intros Hi Hk Hpc Hev. pose proof (bi_tailer _ _ Hi _ _ Hk) as Hok.
  assert (chClosed (t_chan t) = false) as Hcl.
  { apply not_true_iff_false. intros HS%(to_closed _ _ _ _ Hok). congruence. }
  unfold select_send. cbv zeta. rewrite Hcl. simpl. destruct (t_ctx t && _) eqn:Ec.
  - apply andb_true_iff in Ec as [Hctx _]. apply move_inv; try done; rewrite ?Hpc; [done|]. auto.
  - destruct (_ <? _) eqn:Hroom; [|done]. apply Nat.ltb_lt in Hroom.
    eapply put_inv; [done|done|done|by eapply send_ok|]. intros _. simpl. by destruct (IsTerminal event).
Qed.

Lemma removing_inv k t s : binv (streams s) s → tailers s !! k = Some t → t_pc t = Removing →
  binv (streams s) (put k (at_pc Closing t) (removeTailer k.1 (t_run t) k.2 s)).
Proof.
  intros Hi Hk Hpc. set (s' := removeTailer _ _ _ s).
  assert (∃ reg, s' = set_registry reg s ∧ ∀ i r, default ∅ (reg !! (i, r)) = registered s' i r) as (reg&Hs'&Hreg).
  { subst s'. unfold removeTailer. destruct (registry s !! _); [by eexists|]. exists (registry s). by destruct s. }
  assert (binv (streams s') s') as Hi'.
  { rewrite Hs'. apply (registry_inv s); [done|]. intros i r. rewrite Hreg. unfold s'. rewrite removeTailer_registered.
    case_decide; set_solver. }
  assert (streams s' = streams s ∧ tailers s' = tailers s ∧ h_marked s' = h_marked s) as (Hst&Htl&Hm) by (by rewrite Hs').
  rewrite <- Hst. eapply put_inv; [done|by rewrite Htl|done| |].
  - rewrite Hst, Hm. apply pc_ok; try done; rewrite ?Hpc; try done; [by apply (bi_tailer _ _ Hi k)|auto].
  - unfold s'. rewrite removeTailer_registered, decide_True by done. set_solver.
Qed.

Lemma tailer_inv k o done s : binv (streams s) s → binv (streams s) (tail_step reread k o done s).
Proof.
  intros Hi. unfold tail_step. destruct (tailers s !! k) as [t|] eqn:Hk; [|done].
  pose proof (bi_tailer _ _ Hi _ _ Hk) as Hok. destruct (t_pc t) as [| |n [|ev b]| | |] eqn:Hpc; [| | | | | |done].
  - destruct (answered o).
    + destruct (xread (t_run t) (t_last t) s) as [n [|ev b]] eqn:Ex.
      * destruct (t_ctx t) eqn:?; apply move_inv; rewrite ?Hpc; auto; done.
      * apply xread_batch in Ex. apply move_inv; rewrite ?Hpc; try done. by intros n' b' [= <- <-].
    + destruct (t_ctx t) eqn:?; [|done]. apply move_inv; rewrite ?Hpc; auto; done.
  - destruct (answered o && is_marked (t_run t) s) eqn:Em; [|apply move_inv; rewrite ?Hpc; done].
    apply andb_true_iff in Em as [_ Hm%bool_decide_eq_true]. apply (bi_marks _ _ Hi) in Hm.
    apply move_inv; rewrite ?Hpc; auto; done.
  - apply move_inv; rewrite ?Hpc; done.
  - destruct (reread ev) as [event|] eqn:Hev; [by eapply select_inv|].
    eapply put_inv; [done|done|done|by eapply skip_ok|done].
  - by apply removing_inv.
  - assert (chClosed (t_chan t) = false) as ->.
    { apply not_true_iff_false. intros HS%(to_closed _ _ _ _ Hok). congruence. }
    eapply put_inv; [done|done|done| |].
    + destruct Hok as [Hf Hb Hp Ha Ht Hc Hcap Hr]. rewrite Hpc in *. split; try done; simpl; auto.
    + intros Hr. apply (reg_alive k t) in Hr as [Hr _]; done.
Qed.

Lemma receive_inv k s : binv (streams s) s → binv (streams s) (receive k s).
Proof.
  intros Hi. unfold receive. destruct (tailers s !! k) as [t|] eqn:Hk; [|done].
  destruct (pending (t_chan t)) as [|v l] eqn:Hv; [done|].
  eapply put_inv; [done|done|done|apply receive_ok; [by apply (bi_tailer _ _ Hi k)|done]|by apply reg_alive].
Qed.

Lemma start_inv i r last s : binv (streams s) s → last ≤ length (ents (streams s) r) →
  binv (streams s) (start_tailer i r last s).1.
Proof.
  intros [_ Hc Hg Ht Hi Hr Hm] Hl. assert (tailers s !! (i, S (nextID s i)) = None) as Hfresh.
  { apply eq_None_not_Some. intros ?%Hi. lia. }
  split; try done; simpl.
  - intros k t. destruct (decide ((i, S (nextID s i)) = k)) as [<-|].
    + rewrite lookup_insert_eq. intros [= <-]. split; simpl; try done; rewrite ?segment_empty; try done; [by left|unfold sub_cap; lia].
    + rewrite lookup_insert_ne by done. apply Ht.
  - intros j id. unfold nextID. simpl. destruct (decide (i = j)) as [<-|].
    + rewrite lookup_insert_eq. simpl. destruct (decide (id = S (nextID s i))) as [->|Hne]; [done|].
      rewrite lookup_insert_ne by (intros [= E]; by destruct Hne). intros ?%Hi. unfold nextID in *. lia.
    + rewrite !lookup_insert_ne by congruence. apply Hi.
  - intros j q id. unfold registered. simpl. destruct (decide ((i, r) = (j, q))) as [[= <- <-]|].
    + rewrite lookup_insert_eq. simpl. intros [->%elem_of_singleton|Hid]%elem_of_union.
      * rewrite lookup_insert_eq. by eexists.
      * destruct (Hr _ _ _ Hid) as (u&?&?&?). exists u. split; [|done]. rewrite lookup_insert_ne; [done|]. intros E. rewrite E in Hfresh. congruence.
    + rewrite lookup_insert_ne by done. intros Hid. destruct (Hr _ _ _ Hid) as (u&?&?&?). exists u. split; [|done].
      rewrite lookup_insert_ne; [done|]. intros E. rewrite E in Hfresh. congruence.
Qed.

(** ** The pool of calls *)

Definition ballowed (m : gmap string stream) (c : bcmd) : Prop :=
  match c with StartTailer _ r last => last ≤ length (ents m r) | _ => True end.

Definition blearned (m : gmap string stream) (c : bcmd) : answer c → Prop :=
  match c with
  | XRevRangeN r => λ x, ∀ last, x = Ok (Some last) → last ≤ length (ents m r)
  | _ => λ _, True
  end.

Lemma longer_length m m' r : longer m m' → length (ents m r) ≤ length (ents m' r).
Proof. intros Hl. destruct (Hl r) as [Hp _]. by apply prefix_length. Qed.

Lemma written_inv o f s : binv (streams s) s → (longer (streams s) (streams (f s)) ∧ binv (streams (f s)) (f s)) →
  longer (streams s) (streams (written o f s)) ∧ binv (streams (written o f s)) (written o f s).
Proof. intros Hi Hf. by destruct o. Qed.

Lemma bexec_inv m s o c : binv m s → ballowed m c →
  ∃ m', longer m m' ∧ binv m' (exec o c s).1 ∧ blearned m' c (exec o c s).2.
Proof.
  intros Hi Ha. assert (m = streams s) as -> by apply Hi. exists (streams (exec o c s).1).
  assert (longer (streams s) (streams (exec o c s).1) ∧ binv (streams (exec o c s).1) (exec o c s).1) as [? ?].
  { destruct c as [r ev|r ttl|r ttl|r|r|r|i r last|i r|k]; simpl in *; try done.
    - by apply written_inv, xadd_inv.
    - apply written_inv; [done|]. split; [done|]. by apply (mark_inv r ttl s).
    - by apply written_inv, expire_inv.
    - split; [done|]. by apply (start_inv i r last s).
    - split; [done|]. apply (registry_inv s); [done|]. intros j q. destruct (decide ((i, r) = (j, q))) as [<-|].
      + rewrite lookup_delete_eq. set_solver.
      + by rewrite lookup_delete_ne.
    - split; [done|]. by apply (ctx_inv k s). }
  split; [done|]. split; [done|]. destruct c; simpl; try done. intros last. destruct (answered o); [|done].
  unfold last_id. cbv zeta. destruct (_ <? _); [|done]. by intros [= <-].
Qed.

Lemma ballowed_mono (cs cs' : list bcall) m m' c : cs ⊆ cs' → longer m m' → ballowed m c → ballowed m' c.
Proof. intros _ Hl. destruct c; try done. simpl. intros ?. etrans; [done|by apply longer_length]. Qed.

Lemma bsafe_do {B} (cs : list bcall) m c (k : answer c → prog bcmd B) : ballowed m c →
  (∀ cs' m' x, cs ⊆ cs' → longer m m' → blearned m' c x → safe (S:=World) longer (λ _, binv) (λ _ _ _, True) cs' m' (k x)) →
  safe (S:=World) longer (λ _, binv) (λ _ _ _, True) cs m (Do c k).
Proof.
  apply (safe_do longer (λ _ : list bcall, binv) (λ _, ballowed) (λ _, blearned) ballowed_mono).
  intros _ g s o c' Hi Ha. by apply bexec_inv.
Qed.

Lemma bbody_safe (cs : list bcall) m c : safe (S:=World) longer (λ _, binv) (λ _ _ _, True) cs m (bbody reread c).
Proof.
  assert (Hret : ∀ (cs : list bcall) m, safe (S:=World) longer (λ _, binv) (λ _ _ _, True) cs m (Ret tt : prog bcmd unit)) by done.
  destruct c as [r ev|i r|r n|i r]; unfold bbody, Publish, Subscribe, Replay, Close; cbn [bind].
  - apply bsafe_do; [done|]. intros cs1 m1 [] _ _ _; cbn [negb bind]; [|done].
    destruct (IsTerminal ev); cbn [bind]; repeat (apply bsafe_do; [done|]; intros; cbn [bind]); done.
  - apply bsafe_do; [done|]. intros cs1 m1 [] _ _ _; cbn [bind]; [done|]. apply bsafe_do; [done|]. intros cs2 m2 x _ _ Hx.
    apply bsafe_do; [|done]. simpl in *. destruct x as [[last|]|]; [by apply Hx|lia..].
  - apply bsafe_do; done.
  - apply bsafe_do; [done|]. intros ? ? _ _ _ _. apply bsafe_do; [done|]. intros ? ? _ _ _ _. apply bsafe_do; [done|].
    intros cs1 m1 ids _ _ _. clear -Hret. revert cs1 m1. induction ids as [|id ids IH]; intros cs1 m1; cbn [cancel_all]; [apply Hret|].
    apply bsafe_do; [done|]. auto.
Qed.

Lemma benv_inv m e s : binv m s → ∃ m', longer m m' ∧ binv m' (benv_step reread e s).
Proof.
  intros Hi. assert (m = streams s) as -> by apply Hi. destruct e as [k o done|k|k|d]; simpl.
  - exists (streams s). split; [done|]. by apply tailer_inv.
  - exists (streams s). split; [done|]. by apply receive_inv.
  - exists (streams s). split; [done|]. by apply ctx_inv.
  - eexists. by apply advance_inv.
Qed.

Lemma new_binv : binv ∅ new_world.
Proof.
  split; simpl.
  - done.
  - done.
  - intros r. unfold gone, ents. rewrite map_get_empty. simpl. lia.
  - intros k t. by rewrite lookup_empty.
  - intros i id. rewrite lookup_empty. by intros [? ?].
  - intros i r id. unfold registered. simpl. rewrite lookup_empty. set_solver.
  - intros r. rewrite lookup_empty. by intros [? ?].
Qed.

Lemma bhistory_inv l : binv (streams (bhistory reread l)) (bhistory reread l).
Proof.
  destruct (pool_invariant (S:=World) (bbody reread) (benv_step reread) longer (λ _ : list bcall, binv))
    with (g := ∅ : gmap string stream) (w := Programs.mkWorld (cmd:=bcmd) (A:=unit) (call:=bcall) new_world [] []) (l := l)
    as (m&_&Hi&_).
  - done.
  - intros. apply bbody_safe.
  - intros _ m e s. apply benv_inv.
  - split; [apply new_binv|done].
  - change (binv m (bhistory reread l)) in Hi. by rewrite <- (bi_streams _ _ Hi).
Qed.

(** C29. Whatever publishers, closes, other subscribers, lost replies and expiring
    keys do in between, no goroutine of the Redis broker panics; a subscriber
    receives, in stream order and without duplicates, what the stream held
    between the position its [Subscribe] captured and the position its goroutine
    reached, all of it when nothing expired; nothing follows a terminal event; and
    its channel is closed only when its context ended, the run was marked closed
    or the terminal event was delivered. *)
Theorem redis_subscriber_stream l k t : tailers (bhistory reread l) !! k = Some t →
  let s := bhistory reread l in
  let read := omap reread (segment (t_from t) (t_last t) (entries (stream_of s (t_run t)))) in
  panicked s = false ∧ sublist (seen t) read ∧ (dropped (stream_of s (t_run t)) = 0 → seen t = read) ∧
  (∀ pre e post, seen t = pre ++ e :: post → IsTerminal e = true → post = []) ∧
  (chClosed (t_chan t) = true →
     k.2 ∉ registered s k.1 (t_run t) ∧ (t_ctx t = true ∨ t_run t ∈ h_marked s ∨ ends_run (seen t))).
Proof.
  intros Hk s read. pose proof (bhistory_inv l) as Hi. destruct (bi_tailer _ _ Hi _ _ Hk) as [_ _ Hp Ha Ht Hc _ Hr].
  split; [apply Hi|]. split; [done|]. split; [done|]. split.
  - intros pre e post Hs He. destruct Ht as [Ht|(_&pre'&e'&Hs'&Ht&_)].
    + rewrite Hs in Ht. apply Forall_app in Ht as [_ Ht]. inversion Ht. congruence.
    + destruct post as [|x post _] using rev_ind; [done|]. rewrite Hs in Hs'.
      change (e :: (post ++ [x])) with ((e :: post) ++ [x]) in Hs'. rewrite (assoc_L app) in Hs'.
      apply app_inj_tail in Hs' as [<- _]. apply Forall_app in Ht as [_ Ht]. inversion Ht. congruence.
  - intros Hcl. apply Hc in Hcl as Hst. split; [|apply Hr; by rewrite Hst].
    intros Hreg. apply (reg_alive k t) in Hreg as [_ ?]; done.
Qed.
End props.

(** ** The cancel bus *)

(** A genuine cancel: published for the run after the subscription. *)
Definition canceled_since (l : list string) (n : nat) (r : string) : Prop := ∃ j, n ≤ j ∧ l !! j = Some r.

Record csub_ok (l : list string) (c : csub) : Prop := {
  co_msgs : 0 < c_msgs c → canceled_since l (c_from c) (c_run c);
  co_shut : c_open c = true → chClosed (c_chan c) = false;
  co_one : c_got c + length (pending (c_chan c)) = if chClosed (c_chan c) then 1 else 0;
  co_why : chClosed (c_chan c) = true → canceled_since l (c_from c) (c_run c);
  co_exit : c_open c = false → chClosed (c_chan c) = true ∨ c_ctx c = true
}.

Definition cbus_ok (b : CancelBus) : Prop :=
  ∀ k c, csubs b !! k = Some c → c_from c ≤ length (h_cancels b) ∧ csub_ok (h_cancels b) c.

Lemma canceled_app l k n r : canceled_since l n r → canceled_since (l ++ k) n r.
Proof. intros (j&?&?). exists j. split; [done|]. by apply lookup_app_l_Some. Qed.

Lemma csub_ok_app l r c : csub_ok l c → csub_ok (l ++ [r]) c.
Proof. intros [? ? ? ? ?]. split; eauto using canceled_app. Qed.

Lemma notified_ok l r c : c_from c ≤ length l → csub_ok l c → csub_ok (l ++ [r]) (notified r c).
Proof.
  intros Hf Hc. unfold notified. destruct (c_open c && _) eqn:E; [|by apply csub_ok_app].
  apply andb_true_iff in E as [Ho <-%String.eqb_eq]. destruct (csub_ok_app _ (c_run c) _ Hc) as [? ? ? ? ?]. split; simpl; auto.
  intros _. exists (length l). split; [done|]. by rewrite lookup_app_r, Nat.sub_diag.
Qed.

Lemma cancel_go_ok l done c : csub_ok l c → ∃ c', cancel_go done c = Some c' ∧ csub_ok l c' ∧ c_from c' = c_from c.
Proof.
  intros Hc. pose proof Hc as [Hm Hs H1 Hw He]. unfold cancel_go. destruct (c_open c) eqn:Ho; simpl; [|by exists c].
  specialize (Hs eq_refl). rewrite Hs in H1. destruct ((0 <? c_msgs c) && _) eqn:E.
  - apply andb_true_iff in E as [E%Nat.ltb_lt _]. rewrite Hs. eexists. split; [done|]. split; [|done].
    destruct (pending (c_chan c)) as [|[] p]; simpl in *; [|lia]. split; simpl; auto; lia.
  - destruct (c_ctx c) eqn:Hx; [|by exists c]. eexists. split; [done|]. split; [|done]. split; simpl; auto; try done.
    by rewrite Hs.
Qed.

Lemma cancel_recv_ok l c : csub_ok l c → csub_ok l (cancel_recv c) ∧ c_from (cancel_recv c) = c_from c.
Proof.
  intros Hc. unfold cancel_recv. destruct (pending (c_chan c)) as [|v p] eqn:E; [done|]. split; [|done].
  destruct Hc as [Hm Hs H1 Hw He]. split; simpl; try done. rewrite E in H1. simpl in H1. lia.
Qed.

Lemma cancel_done_ok l c : csub_ok l c → csub_ok l (cancel_done c).
Proof. intros [Hm Hs H1 Hw He]. split; simpl; auto. Qed.

Lemma cact_ok b a : cbus_ok b → ∃ b', cact_step b a = Some b' ∧ cbus_ok b'.
Proof.
  intros Hb. destruct a as [o r|o r|k done|k|k]; simpl.
  - eexists. split; [done|]. destruct o; simpl; try done; intros k c; simpl; rewrite lookup_fmap;
      (destruct (csubs b !! k) as [c0|] eqn:E; [|done]); intros [= <-]; destruct (Hb _ _ E);
      (split; [rewrite length_app; unfold notified; destruct (_ && _); simpl; lia|by apply notified_ok]).
  - eexists. split; [done|]. unfold SubscribeCancel. destruct (answered o); simpl; [|done].
    intros k c. simpl. intros [[<- <-]|[_ E]]%lookup_insert_Some; [|by apply (Hb k)]. split; [done|].
    split; simpl; try done; lia.
  - destruct (csubs b !! k) as [c|] eqn:E; [|by exists b]. destruct (Hb _ _ E) as [Hf Hc].
    destruct (cancel_go_ok _ done _ Hc) as (c'&->&Hc'&Hf'). eexists. split; [done|].
    intros k' c2. simpl. intros [[<- <-]|[_ E']]%lookup_insert_Some; [|by apply (Hb k')]. by rewrite Hf'.
  - eexists. split; [done|]. intros k' c'. simpl. rewrite lookup_alter_Some. intros [(<-&c&E&->)|[_ E]]; [|by apply (Hb k')].
    destruct (Hb _ _ E) as [Hf Hc]. destruct (cancel_recv_ok _ _ Hc) as [? ->]. done.
  - eexists. split; [done|]. intros k' c'. simpl. rewrite lookup_alter_Some. intros [(<-&c&E&->)|[_ E]]; [|by apply (Hb k')].
    destruct (Hb _ _ E) as [Hf Hc]. split; [done|]. by apply cancel_done_ok.
Qed.

(** Under every sequence of cancels, subscriptions, ended contexts and goroutine
    steps the Redis cancel bus does not panic; a subscriber's channel yields one
    value and is closed exactly when a cancel of its run was published after it
    subscribed and seen; a context that ends closes nothing, and a goroutine whose
    context ended or which has a message releases its subscription at its next step. *)
Theorem redis_cancel_genuine l : ∃ b, cacts new_cbus l = Some b ∧
  ∀ k c, csubs b !! k = Some c →
    c_got c + length (pending (c_chan c)) = (if chClosed (c_chan c) then 1 else 0) ∧
    (chClosed (c_chan c) = true → canceled_since (h_cancels b) (c_from c) (c_run c)) ∧
    (c_open c = false → chClosed (c_chan c) = true ∨ c_ctx c = true) ∧
    ∀ done c', c_ctx c = true ∨ 0 < c_msgs c → cancel_go done c = Some c' → c_open c' = false.
Proof.
  assert (∀ b, cbus_ok b → ∃ b', cacts b l = Some b' ∧ cbus_ok b') as Hl.
  { induction l as [|a l IH]; intros b Hb; simpl; [by exists b|].
    destruct (cact_ok b a Hb) as (b'&->&Hb'). simpl. by apply IH. }
  destruct (Hl new_cbus) as (b&->&Hb); [by intros k c|]. exists b. split; [done|]. intros k c Hk.
  destruct (Hb _ _ Hk) as [_ [Hm Hs H1 Hw He]]. split; [done|]. split; [done|]. split; [done|].
  intros done c' Hx. unfold cancel_go. destruct (c_open c) eqn:Ho; simpl; [|by intros [= <-]]. rewrite (Hs eq_refl).
  destruct ((0 <? c_msgs c) && _) eqn:E; [by intros [= <-]|]. destruct (c_ctx c); [by intros [= <-]|].
  destruct Hx as [|Hx%Nat.ltb_lt]; [done|]. by rewrite Hx, andb_false_r in E.
Qed.

(** ** Witnesses *)

Definition ev_values (n : Z) : RunEvent := mkEvent 1 "v" n "values" [] "out" 0.
Definition ev_end : RunEvent := mkEvent 1 "e" 9 "end" [] "success" 0.

(** One event is published before the subscription and two after it, the second
    of them terminal; the reader takes one event, the goroutine closes. *)
Definition run_to_end : list (act World bcall benv) :=
  [Start (CPublish "r" (ev_values 1)); Step 0 RFine; Step 0 RFine;
   Start (CSubscribe 0 "r"); Step 1 RFine; Step 1 RFine; Step 1 RFine;
   Env (Tail (0, 1) RFine false); Env (Tail (0, 1) RDown false);
   Start (CPublish "r" (ev_values 2)); Step 2 RFine; Start (CPublish "r" ev_end); Step 3 RFine;
   Env (Tail (0, 1) RDown false); Env (Tail (0, 1) RFine false); Env (Tail (0, 1) RFine false);
   Env (Tail (0, 1) RFine false); Env (Receive (0, 1)); Env (Tail (0, 1) RFine false); Env (Tail (0, 1) RFine false)].

Definition finished : tailer :=
  mkTailer "r" 1 3 false Stopped (mkChan [ev_end] true) [ev_values 2].

Lemma redis_subscriber_stream_witness :
  tailers (bhistory Some run_to_end) !! (0, 1) = Some finished ∧ ends_run (seen finished) ∧
  seen finished = omap Some (segment 1 3 (entries (stream_of (bhistory Some run_to_end) "r"))).
Proof.
  assert (tailers (bhistory Some run_to_end) !! (0, 1) = Some finished) as Hk by (vm_compute; reflexivity).
  destruct (redis_subscriber_stream Some run_to_end (0, 1) finished Hk) as (_&_&Hall&_&Hcl).
  split; [exact Hk|]. split.
  - exists [ev_values 2], ev_end. split; [reflexivity|]. split; [|reflexivity]. constructor; [reflexivity|constructor].
  - apply Hall. vm_compute. reflexivity.
Defined.

(** A terminal event that arrives between a read that timed out and the check of
    the closed marker is not delivered: the goroutine finds the marker and closes
    the channel.  The event is in the stream, where [Replay] finds it. *)
Definition run_unseen_end : list (act World bcall benv) :=
  [Start (CSubscribe 0 "r"); Step 0 RFine; Step 0 RFine; Step 0 RFine; Env (Tail (0, 1) RFine false);
   Start (CPublish "r" ev_end); Step 1 RFine; Step 1 RFine; Env (Tail (0, 1) RFine false);
   Env (Tail (0, 1) RFine false); Env (Tail (0, 1) RFine false)].

Theorem redis_closes_before_terminal :
  tailers (bhistory Some run_unseen_end) !! (0, 1) = Some (mkTailer "r" 0 0 false Stopped (mkChan [] true) []) ∧
  (run (S:=World) (Replay Some "r" 0) [] (bhistory Some run_unseen_end)).2 = Ok [ev_end].
Proof. split; vm_compute; reflexivity. Qed.
