(* ===== verification/Payload.v ===== *)
(** * Payload shrinking

    Models [internal/payloadshrink] (apply.go, stub.go, settings.go, list.go and the
    two stores), [internal/config/payload_shrink.go] and the handlers of
    [internal/api/payload_shrink.go].  A large result of a tool call is stashed
    under a key of its run and generation and replaced by a stub that names a
    reference; the runner retrieves it with a tool the control plane serves.  Calls
    are programs of store commands; the ghost argument of [PSet] is the budget the
    bytes were reserved in.

    [encoding/json] on the envelope and SHA-256 are arguments; no theorem here
    needs the hash to be free of collisions except where it says so. *)

From Stdlib Require Import Ascii String.
From S2P Require Import Prelude GoStrings GoAny JsonNumber Predicates RedisQueue Programs.
Local Open Scope string_scope.
Local Open Scope Z_scope.
Local Open Scope list_scope.

(** ** Settings *)

Record Settings := mkSettings {
  Enabled : bool;
  MaxBytes : Z;
  PreviewBytes : Z;
  CacheTTL : Z;                 (* seconds *)
  MaxStoreBytes : Z
}.

(** [true]: no error. *)
Definition Validate (s : Settings) : bool :=
  negb (MaxBytes s <? 1024) && negb (PreviewBytes s <? 0) && negb (MaxBytes s <=? PreviewBytes s) &&
  negb (MaxStoreBytes s <? MaxBytes s) && negb ((CacheTTL s <? 60) || (24 * 3600 <? CacheTTL s)).

(** The configuration section; the TTL parsed, [Some None] when it does not parse. *)
Record PayloadShrinkEntry := mkEntry {
  EEnabled : bool;
  EMaxBytes : option Z;
  EPreviewBytes : option Z;
  ECacheTTL : option (option Z);
  EMaxStoreBytes : option Z
}.

Definition default_settings : Settings := mkSettings false 32768 2048 (15 * 60) (Z.shiftl 64 20).

Definition ParsePayloadShrink (e : option PayloadShrinkEntry) : option Settings :=
  match e with
  | None => Some default_settings
  | Some e =>
      match match ECacheTTL e with Some d => d | None => Some (CacheTTL default_settings) end with
      | None => None
      | Some ttl =>
          let s := mkSettings (EEnabled e) (default (MaxBytes default_settings) (EMaxBytes e))
                     (default (PreviewBytes default_settings) (EPreviewBytes e)) ttl
                     (default (MaxStoreBytes default_settings) (EMaxStoreBytes e)) in
          if Validate s then Some s else None
      end
  end.

(** ** Keys *)

Definition dec (z : Z) : string := string_of_list_ascii (Itoa z).

Definition valueKey (runID : string) (generation : Z) (ref : string) : string :=
  "rk:payload:v:" +:+ runID +:+ ":" +:+ dec generation +:+ ":" +:+ ref.

Definition budgetKey (runID : string) (generation : Z) : string :=
  "rk:payload:b:" +:+ runID +:+ ":" +:+ dec generation.

Definition refFromKey (key runID : string) (generation : Z) : string :=
  let prefix := valueKey runID generation "" in
  if Nat.leb (String.length key) (String.length prefix) then "" else str_drop (String.length prefix) key.

(** ** Previews *)

(** [utf8.RuneStart] *)
Definition RuneStart (c : ascii) : bool := negb (N.land (byte_of c) 0xC0 =? 0x80)%N.

Fixpoint back_to_start (b : list ascii) (n : nat) : nat :=
  match n with
  | O => O
  | S m => match b !! n with
           | Some c => if RuneStart c then n else back_to_start b m
           | None => n
           end
  end.

Definition truncateUTF8 (b : list ascii) (n : Z) : list ascii :=
  if n <=? 0 then []
  else if Z.of_nat (length b) <=? n then b
  else take (back_to_start b (Z.to_nat n)) b.

(** ** Stubs *)

Record jsonRPCEnvelope := mkEnv {
  JSONRPC : string;
  EnvID : string;               (* raw JSON; empty when absent *)
  Result : string;
  Error : string
}.

Definition hasJSONRPCError (errField : string) : bool :=
  let t := TrimSpace errField in negb (String.eqb t "") && negb (String.eqb t "null").

Definition dq : string := String (ascii_of_N 34) "".

Definition retrieveHint (ref : string) : string :=
  let nl := String (ascii_of_N 10) "" in
  nl +:+ nl +:+ "[runkite: result truncated; call runkite_retrieve_payload with {" +:+ dq +:+ "ref" +:+ dq +:+ ":" +:+
  dq +:+ ref +:+ dq +:+ "} for the original]".

(** ** The store *)

Record Stash := mkStash {
  values : gmap string (string * Z);              (* value, deadline *)
  ints : gmap string (Z * option Z);
  pclock : Z;
  h_commits : list (string * string * Z)          (* ghost: budget, key, bytes of each [Set] *)
}.

Definition new_stash : Stash := mkStash ∅ ∅ 0 [].

Inductive pcmd :=
| PGet (key : string)
| PSet (budget key value : string) (ttl : Z)
| PIncr (key : string) (n : Z)
| PDecr (key : string) (n : Z)
| PExpire (key : string) (ttl : Z).

Inductive got := Found (v : string) | Missing | GetFailed.

#[export] Instance payload_commands : Commands pcmd := λ c,
  match c with
  | PGet _ => got
  | PSet _ _ _ _ => bool
  | PIncr _ _ => option Z
  | PDecr _ _ | PExpire _ _ => unit
  end.

Definition counter (s : Stash) (k : string) : Z := from_option fst 0 (ints s !! k).

Definition add_int (k : string) (n : Z) (s : Stash) : Stash :=
  mkStash (values s) (<[k := (counter s k + n, ints s !! k ≫= snd)]> (ints s)) (pclock s) (h_commits s).

Definition set_value (b k v : string) (ttl : Z) (s : Stash) : Stash :=
  mkStash (<[k := (v, pclock s + ttl)]> (values s)) (ints s) (pclock s)
    (h_commits s ++ [(b, k, Z.of_nat (String.length v))]).

Definition expire_int (k : string) (ttl : Z) (s : Stash) : Stash :=
  mkStash (values s) (alter (λ v, (v.1, Some (pclock s + ttl))) k (ints s)) (pclock s) (h_commits s).

Definition did (o : reply) (f : Stash → Stash) (s : Stash) : Stash := match o with RFine | RLost => f s | RDown => s end.
Definition ok (o : reply) : bool := match o with RFine => true | _ => false end.

Definition exec_stash (o : reply) (c : pcmd) (s : Stash) : Stash * answer c :=
  match c return Stash * answer c with
  | PGet k => (s, if ok o then match values s !! k with Some (v, _) => Found v | None => Missing end else GetFailed)
  | PSet b k v ttl => (did o (set_value b k v ttl) s, ok o)
  | PIncr k n => (did o (add_int k n) s, if ok o then Some (counter s k + n) else None)
  | PDecr k n => (did o (add_int k (- n)) s, tt)
  | PExpire k ttl => (did o (expire_int k ttl) s, tt)
  end.

#[export] Instance payload_server : Programs.Server pcmd Stash := {| fate := reply; fine := RFine; exec := exec_stash |}.

(** Time passes. *)
Definition pass (d : Z) (s : Stash) : Stash :=
  let c := pclock s + Z.max 0 d in
  mkStash (filter (λ kv, c < kv.2.2) (values s))
    (filter (λ kv, match kv.2.2 with Some e => c <? e | None => true end = true) (ints s)) c (h_commits s).

Local Notation "x <~ c ;; k" := (@Do pcmd payload_commands _ c (λ x, k))
  (at level 100, c at next level, right associativity, only parsing).

Section shrink.
(** [encoding/json] on the envelope, on an MCP text result, and SHA-256 in hex. *)
Variable unmarshal_env : string → option jsonRPCEnvelope.
Variable marshal_env : jsonRPCEnvelope → option string.
Variable marshal_result : string → option string.       (* the text of the stub's result *)
Variable first_text : string → option string.           (* [parsed.Content[0].Text] *)
Variable sha256_hex : string → string.

Definition innerResult (body : string) : option (jsonRPCEnvelope * string) :=
  match unmarshal_env body with
  | None => None
  | Some env =>
      if hasJSONRPCError (Error env) then None
      else if String.eqb (TrimSpace (Result env)) "" || String.eqb (TrimSpace (Result env)) "null" then None
      else Some (env, Result env)
  end.

Definition contentAddressRef (inner : string) : string := str_take 16 (sha256_hex inner).

Definition previewText (inner : string) (previewBytes : Z) : string :=
  let src := match first_text inner with Some t => if String.eqb t "" then inner else t | None => inner end in
  string_of_list_ascii (truncateUTF8 (list_ascii_of_string src) previewBytes).

Definition buildStub (env : jsonRPCEnvelope) (preview ref : string) : option string :=
  raw ← marshal_result (preview +:+ retrieveHint ref);
  marshal_env (mkEnv (if String.eqb (JSONRPC env) "" then "2.0" else JSONRPC env) (EnvID env) raw "").

(** ** Apply *)

(** [None]: no key can be used. *)
Fixpoint pick_among (runID : string) (generation : Z) (inner : string) (refs : list string) : prog pcmd (option string) :=
  match refs with
  | [] => Ret None
  | r :: refs =>
      got <~ PGet (valueKey runID generation r) ;;
      match got with
      | Missing => Ret (Some (valueKey runID generation r))
      | GetFailed => Ret None
      | Found v => if String.eqb v inner then Ret (Some (valueKey runID generation r)) else pick_among runID generation inner refs
      end
  end.

Definition pickValueKey (runID : string) (generation : Z) (ref inner : string) : prog pcmd (option string) :=
  pick_among runID generation inner [ref; ref +:+ "-2"].

Definition blen (s : string) : Z := Z.of_nat (String.length s).

(** [Live]; the store is there when the settings are used. *)
Definition Live (s : Settings) (store : bool) : bool := Enabled s && store.

(** The bytes are reserved, then stored; [dropped] is returned when they are not. *)
Definition stash (s : Settings) (bkey vkey inner stub dropped : string) : prog pcmd string :=
  let n := blen inner in
  total <~ PIncr bkey n ;;
  match total with
  | None => Ret dropped
  | Some total =>
      _ <~ PExpire bkey (CacheTTL s) ;;
      if MaxStoreBytes s <? total then _ <~ PDecr bkey n ;; Ret dropped
      else
        done <~ PSet bkey vkey inner (CacheTTL s) ;;
        if (done : bool) then Ret stub else _ <~ PDecr bkey n ;; Ret dropped
  end.

Definition Apply (s : Settings) (store : bool) (runID : string) (generation : Z) (respBody : string) : prog pcmd string :=
  if negb (Live s store) || String.eqb runID "" then Ret respBody
  else if blen respBody <=? MaxBytes s then Ret respBody
  else
    match innerResult respBody with
    | None => Ret respBody
    | Some (env, inner) =>
        bind (pickValueKey runID generation (contentAddressRef inner) inner) (λ vkey,
        match vkey with
        | None => Ret respBody
        | Some vkey =>
            match buildStub env (previewText inner (PreviewBytes s)) (refFromKey vkey runID generation) with
            | None => Ret respBody
            | Some stub =>
                if blen respBody <=? blen stub then Ret respBody
                else
                  existing <~ PGet vkey ;;
                  match existing with
                  | GetFailed => Ret respBody
                  | Found v =>
                      if String.eqb v inner then Ret stub
                      else stash s (budgetKey runID generation) vkey inner stub respBody
                  | Missing => stash s (budgetKey runID generation) vkey inner stub respBody
                  end
            end
        end)
    end.

(** ** Retrieve *)

Inductive retrieve_err := errDisabled | errMissingRef | ErrPayloadNotFound.

Definition Retrieve (s : Settings) (store : bool) (runID : string) (generation : Z) (ref : string)
  : prog pcmd (res retrieve_err string) :=
  if negb (Live s store) then Ret (Err errDisabled)
  else if String.eqb ref "" then Ret (Err errMissingRef)
  else if String.eqb runID "" then Ret (Err ErrPayloadNotFound)
  else
    got <~ PGet (valueKey runID generation ref) ;;
    Ret match got with Found v => Ok v | _ => Err ErrPayloadNotFound end.

(** ** The handlers *)

(** A caller's run binding: run and generation. *)
Definition maybeShrinkMCP (s : Settings) (store : bool) (binding : option (string * Z)) (status : Z) (body : string)
  : prog pcmd string :=
  if negb (status =? 200) || negb (Live s store) then Ret body
  else match binding with
       | None => Ret body
       | Some (runID, generation) => Apply s store runID generation body
       end.

Inductive retrieve_reply := RpcResult (result : string) | RpcError (message : string) | RpcFailed.

(** [json.Marshal] of the reply: the text its result gets, the stored one without
    insignificant space and with HTML characters escaped; [None]: not valid JSON. *)
Variable marshal_raw : string → option string.

Definition servePayloadRetrieve (s : Settings) (store : bool) (binding : option (string * Z)) (ref : string)
  : prog pcmd retrieve_reply :=
  let (runID, gen) := default ("", 0) binding in
  bind (Retrieve s store runID gen ref) (λ r,
  Ret match r with
      | Ok inner => match marshal_raw inner with Some result => RpcResult result | None => RpcFailed end
      | Err errMissingRef => RpcError "missing ref"
      | Err errDisabled => RpcError "payload_shrink_disabled"
      | Err ErrPayloadNotFound => RpcError "payload_not_found"
      end).

(** ** Histories *)

Inductive pcall :=
| CShrink (binding : option (string * Z)) (status : Z) (body : string)
| CRetrieve (binding : option (string * Z)) (ref : string).

Definition pbody (s : Settings) (store : bool) (c : pcall) : prog pcmd unit :=
  match c with
  | CShrink binding status body => bind (maybeShrinkMCP s store binding status body) (λ _, Ret tt)
  | CRetrieve binding ref => bind (servePayloadRetrieve s store binding ref) (λ _, Ret tt)
  end.

Definition phistory (s : Settings) (store : bool) (l : list (act Stash pcall Z)) : world pcmd Stash pcall unit :=
  acts (pbody s store) pass (Programs.mkWorld new_stash [] []) l.
End shrink.

(** ** The tool list *)

Definition ToolName : string := "runkite_retrieve_payload".

Definition retrieveTool : any :=
  AMap [("name", AStr ToolName);
        ("description", AStr ("Fetch the original connector result for a truncation ref from this run. Arguments: {" +:+ dq +:+ "ref" +:+ dq +:+ ": string}."));
        ("inputSchema", AMap [("type", AStr "object"); ("properties", AMap [("ref", AMap [("type", AStr "string")])]);
                              ("required", AArr [AStr "ref"])])].

(** The body decoded, member names spelled exactly; [None] on the left stands for
    a decoding error. *)
Definition field (name : string) (m : list (string * any)) : option any := assoc name m.

Definition string_field (v : option any) : option string :=
  match v with None | Some ANil => Some "" | Some (AStr s) => Some s | _ => None end.

(** The list under [result.tools]: [Some None] when there is no result. *)
Definition result_tools (v : option any) : option (option (list any)) :=
  match v with
  | None | Some ANil => Some None
  | Some (AMap r) =>
      match field "tools" r with
      | None | Some ANil => Some (Some [])
      | Some (AArr l) => Some (Some l)
      | _ => None
      end
  | _ => None
  end.

Definition is_error (v : option any) : bool := match v with None | Some ANil => false | _ => true end.

Definition tool_name (v : any) : option string :=
  match v with AMap m => string_field (field "name" m) | ANil => Some "" | _ => None end.

Definition is_retrieve (v : any) : bool := bool_decide (tool_name v = Some ToolName).

Definition InjectRetrieveTool (body : any) : any :=
  match body with
  | AMap m =>
      match string_field (field "jsonrpc" m), result_tools (field "result" m) with
      | Some version, Some (Some tools) =>
          if is_error (field "error" m) then body
          else
            AMap ([("jsonrpc", AStr version)] ++ from_option (λ v, [("id", v)]) [] (field "id" m) ++
                  [("result", AMap [("tools", AArr (List.filter (λ t, negb (is_retrieve t)) tools ++ [retrieveTool]))])] ++
                  from_option (λ v, [("error", v)]) [] (field "error" m))
      | _, _ => body
      end
  | _ => body
  end.

Definition maybeInjectRetrieveTool (s : Settings) (store : bool) (method : string) (body : any) : any :=
  if negb (String.eqb method "tools/list") || negb (Live s store) then body else InjectRetrieveTool body.

(** * Payload shrinking: what is stashed, and who reads it
    Theorems on [Payload]: previews are cut between runes; a stub names a
    reference under which the original result is read back; a run reads only what
    was stashed for it; the bytes stashed for a run and generation stay within the
    quota however calls interleave; and the tool list keeps the connector's tools.  *)

From Stdlib Require Import Permutation.
From S2P Require Import PoolOwned.
Local Open Scope string_scope.
Local Open Scope Z_scope.
Local Open Scope list_scope.

(** ** Previews *)

(** A rune: a byte that starts one, then bytes that do not. *)
Definition rune (r : list ascii) : Prop :=
  match r with [] => False | c :: l => RuneStart c = true ∧ Forall (λ c, RuneStart c = false) l end.

Lemma back_to_start_le b n : (back_to_start b n ≤ n)%nat.
Proof. induction n as [|n IH]; [done|]. cbn [back_to_start]. destruct (b !! S n) as [c|]; [destruct (RuneStart c)|]; lia. Qed.

(** Going back inside the first rune reaches its start. *)
Lemma back_in_rune c l rest n : Forall (λ c, RuneStart c = false) l → (n ≤ length l)%nat →
  back_to_start (c :: l ++ rest) n = 0%nat.
Proof.
  intros Hl. induction n as [|n IH]; intros Hn; [done|]. cbn [back_to_start].
  change ((c :: l ++ rest) !! S n) with ((l ++ rest) !! n). rewrite lookup_app_l by lia. destruct (l !! n) as [x|] eqn:E; [|apply lookup_ge_None in E; lia].
  rewrite (Forall_lookup_1 _ _ _ _ Hl E). apply IH. lia.
Qed.

Lemma back_past r rest n : rune r → (length r ≤ n)%nat → (n < length (r ++ rest))%nat →
  (match rest with c :: _ => RuneStart c = true | [] => True end) →
  back_to_start (r ++ rest) n = (length r + back_to_start rest (n - length r))%nat.
Proof.
  intros Hr Hn Hlt Hs. induction n as [|n IH]; [destruct r; simpl in *; [done|lia]|].
  cbn [back_to_start]. destruct (decide (S n = length r)) as [->|Hne].
  - rewrite Nat.sub_diag. cbn [back_to_start]. rewrite lookup_app_r, Nat.sub_diag by lia.
    destruct rest as [|c rest]; [rewrite app_nil_r in Hlt; lia|]. cbn. rewrite Hs. lia.
  - rewrite lookup_app_r by lia. destruct (S n - length r)%nat as [|m] eqn:Em; [lia|]. cbn [back_to_start].
    destruct (rest !! S m) as [c|] eqn:E; [|apply lookup_ge_None in E; rewrite length_app in Hlt; lia].
    destruct (RuneStart c); [lia|]. rewrite IH by lia. f_equal. f_equal. lia.
Qed.

Lemma rune_head l : Forall rune l → match concat l with c :: _ => RuneStart c = true | [] => True end.
Proof. intros [|[|c r] l' Hr Hl]; [done|done|]. simpl. apply Hr. Qed.

(** A text of whole runes is cut to at most the bytes asked for, after a whole
    number of them: a preview never ends inside a rune. *)
Theorem preview_whole_runes (l : list (list ascii)) n : Forall rune l →
  ∃ k, truncateUTF8 (concat l) n = concat (take k l) ∧ Z.of_nat (length (truncateUTF8 (concat l) n)) ≤ Z.max 0 n.
Proof.
  intros Hl. unfold truncateUTF8. destruct (Z.leb_spec n 0); [exists 0%nat; split; [done|simpl; lia]|].
  destruct (Z.leb_spec (Z.of_nat (length (concat l))) n).
  { exists (length l). rewrite firstn_all. split; [done|lia]. }
  assert (∃ k, take (back_to_start (concat l) (Z.to_nat n)) (concat l) = concat (take k l)) as [k Hk].
  { assert (Z.to_nat n < length (concat l))%nat as Hn by lia. clear H H0. revert Hn. generalize (Z.to_nat n) as m.
    induction Hl as [|r l Hr Hl IH]; intros m Hm; [simpl in Hm; lia|]. cbn [concat] in *.
    destruct (decide (length r ≤ m)%nat) as [Hge|Hlt].
    - rewrite back_past; [|done|done|done|by apply rune_head].
      destruct (IH (m - length r)%nat) as [k Hk]; [rewrite length_app in Hm; lia|]. exists (S k). simpl.
      rewrite take_app_add, Hk. done.
    - destruct r as [|c r]; [done|]. exists 0%nat. simpl. rewrite back_in_rune; [done|apply Hr|simpl in Hlt; lia]. }
  exists k. split; [done|]. rewrite length_take. pose proof (back_to_start_le (concat l) (Z.to_nat n)). lia.
Qed.

(** ** Settings *)

(** A configuration that is accepted has a preview smaller than the limit, a
    limit smaller than the store and a TTL between a minute and a day; a section
    that is absent gives the defaults, which satisfy the same. *)
Theorem parsed_settings_valid e s : ParsePayloadShrink e = Some s →
  0 ≤ PreviewBytes s < MaxBytes s ∧ 1024 ≤ MaxBytes s ≤ MaxStoreBytes s ∧ 60 ≤ CacheTTL s ≤ 86400.
Proof.
  assert (Hv : ∀ s, Validate s = true → 0 ≤ PreviewBytes s < MaxBytes s ∧ 1024 ≤ MaxBytes s ≤ MaxStoreBytes s ∧ 60 ≤ CacheTTL s ≤ 86400).
  { clear s. intros s. unfold Validate. rewrite !andb_true_iff, !negb_true_iff, orb_false_iff. lia. }
  unfold ParsePayloadShrink. destruct e as [e|]; [|intros [= <-]; apply Hv; vm_compute; reflexivity].
  destruct (ECacheTTL e) as [[ttl|]|]; try done; cbv zeta; destruct (Validate _) eqn:E; try done; intros [= <-]; by apply Hv.
Qed.

(** ** Keys *)

Definition no_colon (s : string) : Prop := (":"%char : ascii) ∉ bytes s.

Lemma delim_split {A} (d : A) a b r t : d ∉ a → d ∉ b → a ++ d :: r = b ++ d :: t → a = b ∧ r = t.
Proof.
  revert b. induction a as [|x a IH]; intros [|y b] Ha Hb H; simplify_list_eq; try set_solver.
  destruct (IH b) as [-> ->]; set_solver.
Qed.

Lemma colon_inj a b r t : no_colon a → no_colon b → a +:+ ":" +:+ r = b +:+ ":" +:+ t → a = b ∧ r = t.
Proof.
  intros Ha Hb H. apply (f_equal bytes) in H. rewrite !bytes_app in H. simpl in H.
  apply delim_split in H as [?%bytes_inj ?%bytes_inj]; done.
Qed.

Lemma dec_no_colon z : no_colon (dec z).
Proof.
  unfold no_colon, dec. rewrite list_ascii_of_string_of_list_ascii.
  assert (Hd : ∀ l, digits l → (":"%char : ascii) ∉ l).
  { intros l Hl Hin. by pose proof (proj1 (list.Forall_forall _ _) Hl _ Hin). }
  destruct (Itoa_spec z) as [[Hc|(d&->&Hc&_)] _]; [by apply Hd, Hc|]. apply not_elem_of_cons. split; [done|]. by apply Hd, Hc.
Qed.

Lemma dec_inj a b : dec a = dec b → a = b.
Proof.
  unfold dec. intros H. apply (f_equal bytes) in H. rewrite !list_ascii_of_string_of_list_ascii in H.
  destruct (Itoa_spec a) as [_ <-], (Itoa_spec b) as [_ <-]. by rewrite H.
Qed.

Lemma valueKey_inj r g x r' g' x' : no_colon r → no_colon r' → valueKey r g x = valueKey r' g' x' → r = r' ∧ g = g' ∧ x = x'.
Proof.
  intros Hr Hr' H. unfold valueKey in H. apply str_app_inj_l in H. apply colon_inj in H as [-> H]; [|done|done].
  apply colon_inj in H as [?%dec_inj ->]; [done|apply dec_no_colon..].
Qed.

Lemma budgetKey_inj r g r' g' : no_colon r → no_colon r' → budgetKey r g = budgetKey r' g' → r = r' ∧ g = g'.
Proof.
  intros Hr Hr' H. unfold budgetKey in H. apply str_app_inj_l in H. apply colon_inj in H as [-> ?%dec_inj]; done.
Qed.

Lemma refFromKey_valueKey r g x : refFromKey (valueKey r g x) r g = x.
Proof.
  assert (valueKey r g x = valueKey r g "" +:+ x) as Hk.
  { unfold valueKey. rewrite <- !str_app_assoc. done. }
  unfold refFromKey. rewrite Hk, str_app_length, str_drop_app. destruct (Nat.leb_spec (String.length (valueKey r g "") + String.length x) (String.length (valueKey r g ""))); [|done].
  destruct x; [done|simpl in *; lia].
Qed.

(** ** Sums *)

Definition sumZ {A} (f : A → Z) (l : list A) : Z := foldr (λ x acc, f x + acc) 0 l.

Lemma sumZ_cons {A} (f : A → Z) x l : sumZ f (x :: l) = f x + sumZ f l.
Proof. done. Qed.

Lemma sumZ_app {A} (f : A → Z) l k : sumZ f (l ++ k) = sumZ f l + sumZ f k.
Proof. induction l as [|x l IH]; simpl; [lia|]. unfold sumZ in *. simpl. lia. Qed.

#[export] Instance sumZ_perm {A} (f : A → Z) : Proper (Permutation ==> eq) (sumZ f).
Proof. intros l k. induction 1; unfold sumZ in *; simpl; lia. Qed.

Lemma sumZ_nonneg {A} (f : A → Z) l : (∀ x, x ∈ l → 0 ≤ f x) → 0 ≤ sumZ f l.
Proof.
  induction l as [|x l IH]; intros H; unfold sumZ in *; simpl; [lia|].
  assert (0 ≤ f x) by (apply H; set_solver). assert (0 ≤ foldr (λ x acc, f x + acc) 0 l) by (apply IH; set_solver). lia.
Qed.

Lemma sumZ_sub {A} (f : A → Z) l m : NoDup l → (∀ x, x ∈ l → x ∈ m) → (∀ x, x ∈ m → 0 ≤ f x) → sumZ f l ≤ sumZ f m.
Proof.
  intros Hn Hs Hf. destruct (submseteq_Permutation l m) as [k Hk]; [by apply NoDup_submseteq|].
  rewrite Hk, sumZ_app. assert (0 ≤ sumZ f k); [|lia]. apply sumZ_nonneg. intros x Hx. apply Hf. rewrite Hk. set_solver.
Qed.

(** ** One call *)

Notation alone p Q s := (triple (S:=Stash) (λ _, True) (λ _, True) p Q s).

Lemma pick_alone run gen inner refs (s : Stash) :
  alone (pick_among run gen inner refs)
    (λ s' vk, s' = s ∧ ∀ k, vk = Some k → ∃ r, r ∈ refs ∧ k = valueKey run gen r) s.
Proof.
  induction refs as [|r refs IH]; simpl; [done|]. intros o _. split; [done|].
  destruct (if ok o then _ else _) as [v| |]; simpl.
  - destruct (String.eqb v inner); simpl; [split; [done|]; intros k [= <-]; exists r; set_solver|].
    eapply triple_mono; [done| |exact IH]. intros s' vk [-> Hk]. split; [done|]. intros k (r'&?&?)%Hk. exists r'. set_solver.
  - split; [done|]. intros k [= <-]. exists r. set_solver.
  - done.
Qed.

Lemma stash_alone s bkey vkey inner stub body (s0 : Stash) :
  alone (stash s bkey vkey inner stub body)
    (λ s' out, out = body ∨ out = stub ∧ ∃ d, values s' !! vkey = Some (inner, d)) s0.
Proof.
  unfold stash. cbv zeta. intros o _. split; [done|].
  destruct o; simpl; try (by left).
  intros o1 _. split; [done|]. destruct (_ <? _); [intros o2 _; split; [done|]; by left|].
  intros o2 _. split; [done|]. destruct o2; simpl; try (intros o3 _; split; [done|]; by left).
  right. split; [done|]. eexists. apply lookup_insert_eq.
Qed.

Section shrink.
Variable unmarshal_env : string → option jsonRPCEnvelope.
Variable marshal_env : jsonRPCEnvelope → option string.
Variable marshal_result : string → option string.
Variable first_text : string → option string.
Variable sha256_hex : string → string.
Variable marshal_raw : string → option string.

Notation inner_of := (innerResult unmarshal_env).
Notation stub_of := (buildStub marshal_env marshal_result).
Notation preview_of := (previewText first_text).
Notation ref_of := (contentAddressRef sha256_hex).
Notation apply_prog := (Apply unmarshal_env marshal_env marshal_result first_text sha256_hex).

(** What [Apply] returns is the body, or the stub of a result that is stored under
    the reference the stub names. *)
Definition shrunk_to (s : Settings) (run : string) (gen : Z) (body : string) (s' : Stash) (out : string) : Prop :=
  out = body ∨ ∃ env inner x ref d, inner_of body = Some (env, inner) ∧ ref ∈ [ref_of inner; ref_of inner +:+ "-2"] ∧
    x = preview_of inner (PreviewBytes s) ∧ stub_of env x ref = Some out ∧ blen out < blen body ∧
    values s' !! valueKey run gen ref = Some (inner, d).

Lemma apply_alone s store run gen body (s0 : Stash) :
  alone (apply_prog s store run gen body) (shrunk_to s run gen body) s0.
Proof.
  unfold Apply. destruct (_ || _); [by left|]. destruct (_ <=? _); [by left|].
  destruct (inner_of body) as [[env inner]|] eqn:Hin; [|by left].
  apply triple_bind. eapply triple_mono; [done| |apply pick_alone]. simpl. intros s1 vk [-> Hvk].
  destruct vk as [k|]; [|by left]. destruct (Hvk k eq_refl) as (ref&Href&->). rewrite refFromKey_valueKey.
  destruct (stub_of env _ ref) as [stub|] eqn:Hstub; [|by left]. destruct (Z.leb_spec (blen body) (blen stub)); [by left|].
  intros o _. split; [done|].
  assert (Hdone : ∀ s' d, values s' !! valueKey run gen ref = Some (inner, d) → shrunk_to s run gen body s' stub).
  { intros s' d Hd. right. exists env, inner, (preview_of inner (PreviewBytes s)), ref, d. done. }
  assert (Hst : alone (stash s (budgetKey run gen) (valueKey run gen ref) inner stub body) (shrunk_to s run gen body) s0).
  { eapply triple_mono; [done| |apply stash_alone]. simpl. intros s' out [->|(->&d&Hd)]; [by left|]. by eapply Hdone. }
  simpl. destruct (ok o); [|by left]. destruct (values s0 !! valueKey run gen ref) as [[v d]|] eqn:Hv; [|done].
  destruct (String.eqb_spec v inner) as [->|]; [|done]. by eapply Hdone.
Qed.

(** C34. When a tool result is replaced, whatever the store's replies, the stub is
    shorter than the body, names a reference, and retrieving that reference for
    the same run and generation returns the original result, byte for byte.  A
    SHA-256 in hex is not empty. *)
Theorem stub_is_retrievable s store run gen body os s0 s1 out :
  (∀ x, sha256_hex x ≠ "") → Programs.run (S:=Stash) (apply_prog s store run gen body) os s0 = (s1, out) → out ≠ body →
  ∃ env inner ref, inner_of body = Some (env, inner) ∧
    stub_of env (preview_of inner (PreviewBytes s)) ref = Some out ∧ blen out < blen body ∧
    (Programs.run (S:=Stash) (Retrieve s store run gen ref) [] s1).2 = Ok inner.
Proof.
  intros Hsha Hrun Hne.
  pose proof (triple_run _ _ _ _ os s0 I (proj2 (Forall_forall _ os) (λ _ _, I)) (apply_alone s store run gen body s0)) as Hs.
  rewrite Hrun in Hs. simpl in Hs. destruct Hs as [?|(env&inner&x&ref&d&Hin&Href&->&Hstub&Hlt&Hv)]; [done|].
  exists env, inner, ref. split; [done|]. split; [done|]. split; [done|].
  assert (ref ≠ "") as Hr.
  { assert (ref_of inner ≠ "") as Hz by (unfold contentAddressRef; specialize (Hsha inner); by destruct (sha256_hex inner)).
    apply elem_of_cons in Href as [->|[->|Href%elem_of_nil]%elem_of_cons]; [done| |done]. by destruct (ref_of inner). }
  unfold Apply in Hrun. unfold Retrieve. destruct (Live s store); simpl in *; [|congruence].
  destruct (String.eqb_spec run ""); [simpl in Hrun; congruence|]. rewrite (proj2 (String.eqb_neq ref "")) by done. simpl.
  by rewrite Hv.
Qed.

(** ** Isolation *)

#[local] Set Default Proof Using "All".

Notation pbody_of := (pbody unmarshal_env marshal_env marshal_result first_text sha256_hex marshal_raw).
Notation phistory_of := (phistory unmarshal_env marshal_env marshal_result first_text sha256_hex marshal_raw).

(** A value is the result of a tool call made under the binding of its key. *)
Definition stashed_by (cs : list pcall) (k v : string) : Prop :=
  ∃ run gen ref body env, k = valueKey run gen ref ∧ CShrink (Some (run, gen)) 200 body ∈ cs ∧ inner_of body = Some (env, v).

Definition pinv (cs : list pcall) (_ : unit) (s : Stash) : Prop := ∀ k v d, values s !! k = Some (v, d) → stashed_by cs k v.

Definition pallowed (cs : list pcall) (_ : unit) (c : pcmd) : Prop := match c with PSet _ k v _ => stashed_by cs k v | _ => True end.

Lemma stashed_mono cs cs' k v : cs ⊆ cs' → stashed_by cs k v → stashed_by cs' k v.
Proof. intros Hc (r&g&x&b&e&?&?&?). exists r, g, x, b, e. set_solver. Qed.

Notation psafe post := (safe (S:=Stash) (λ _ _ : unit, True) pinv post).
Notation anything := (λ _ _ _, True).

Lemma pexec cs (g : unit) s (o : reply) c : pinv cs g s → pallowed cs g c →
  ∃ g' : unit, True ∧ pinv cs g' (exec_stash o c s).1 ∧ True.
Proof.
  intros Hi Ha. exists tt. split; [done|]. split; [|done].
  destruct c; simpl; try done; unfold did; destruct o; try done; intros k' v d'; simpl; try apply Hi;
    (intros [[<- [= <- _]]|[_ H]]%lookup_insert_Some; [done|by eapply Hi]).
Qed.

Lemma psafe_do {B} (post : list pcall → unit → B → Prop) cs (c : pcmd) (k : answer c → prog pcmd B) : pallowed cs tt c →
  (∀ cs' x, cs ⊆ cs' → psafe post cs' tt (k x)) → psafe post cs tt (Do c k).
Proof.
  intros Ha Hk. eapply (safe_do (λ _ _ : unit, True) pinv pallowed (λ _ _ _ _, True)); [|exact pexec|done|].
  - intros cs1 cs2 g g' [] Hc _; try done. by apply stashed_mono.
  - intros cs' [] x Hc _ _. by apply Hk.
Qed.

Lemma pick_safe {B} cs run gen inner refs (f : option string → prog pcmd B) :
  (∀ cs' vk, cs ⊆ cs' → (∀ k, vk = Some k → ∃ r, k = valueKey run gen r) → psafe anything cs' tt (f vk)) →
  psafe anything cs tt (bind (pick_among run gen inner refs) f).
Proof.
  revert cs. induction refs as [|r refs IH]; intros cs Hf; cbn [pick_among bind]; [by apply Hf|].
  apply psafe_do; [done|]. intros cs' x Hc.
  destruct x as [v| |]; [destruct (String.eqb v inner)| |]; cbn [bind];
    [| |apply Hf; [done|]; intros k [= <-]; by eexists|by apply Hf].
  - apply Hf; [done|]. intros k [= <-]. by eexists.
  - apply IH. intros cs2 vk Hc2. apply Hf. set_solver.
Qed.

Lemma stash_safe cs s b k inner stub body : stashed_by cs k inner → psafe anything cs tt (stash s b k inner stub body).
Proof.
  intros Hk. unfold stash. cbv zeta. apply psafe_do; [done|]. intros cs1 [total|] H1; [|done].
  apply psafe_do; [done|]. intros cs2 _ H2. destruct (_ <? _); [by apply psafe_do|].
  apply psafe_do; [eapply stashed_mono; [|exact Hk]; set_solver|]. intros cs3 [] H3; [done|]. by apply psafe_do.
Qed.

Lemma apply_safe cs s store run gen body : CShrink (Some (run, gen)) 200 body ∈ cs →
  psafe anything cs tt (apply_prog s store run gen body).
Proof.
  intros Hc. unfold Apply. destruct (_ || _); [done|]. destruct (_ <=? _); [done|].
  destruct (inner_of body) as [[env inner]|] eqn:Hin; [|done]. apply pick_safe. intros cs1 [k|] H1 Hk; [|done].
  destruct (Hk k eq_refl) as [r ->]. destruct (stub_of _ _ _) as [stub|]; [|done]. destruct (_ <=? _); [done|].
  apply psafe_do; [done|]. intros cs2 x H2.
  assert (psafe anything cs2 tt (stash s (budgetKey run gen) (valueKey run gen r) inner stub body)) as Hs.
  { apply stash_safe. exists run, gen, r, body, env. set_solver. }
  destruct x as [v| |]; [|exact Hs|done]. destruct (String.eqb v inner); [done|exact Hs].
Qed.

Lemma pbody_safe cs s store c : c ∈ cs → psafe anything cs tt (pbody_of s store c).
Proof.
  intros Hc. destruct c as [binding status body|binding ref]; unfold pbody; (apply safe_bind; [done|]).
  - assert (∀ p : prog pcmd string, psafe anything cs tt p → psafe (λ cs g _, psafe anything cs g (Ret tt : prog pcmd unit)) cs tt p) as Hp.
    { clear. intros p. revert cs. induction p as [a|c k IH]; intros cs; [done|]. cbn [safe]. intros Hp cs1 g s o Hc Hg Hi.
      destruct (Hp cs1 g s o Hc Hg Hi) as ([]&?&?&?). exists tt. split; [done|]. split; [done|]. by apply IH. }
    apply Hp. unfold maybeShrinkMCP. destruct (Z.eqb_spec status 200) as [->|]; [|done]. simpl. destruct (negb _); [done|].
    destruct binding as [[run gen]|]; [|done]. by apply apply_safe.
  - unfold servePayloadRetrieve. destruct (default _ binding) as [run gen]. apply safe_bind; [done|]. unfold Retrieve.
    destruct (negb _); [done|]. destruct (String.eqb ref ""); [done|]. destruct (String.eqb run ""); [done|].
    apply psafe_do; done.
Qed.

Lemma phistory_inv s store l : pinv (w_calls (phistory_of s store l)) tt (w_server (phistory_of s store l)).
Proof.
  destruct (pool_invariant (S:=Stash) (pbody_of s store) pass (λ _ _ : unit, True) pinv) with
    (g := tt) (w := Programs.mkWorld (cmd:=pcmd) (A:=unit) (call:=pcall) new_stash [] []) (l := l) as ([]&_&Hi&_).
  - intros cs [] c st Hi k v d Hk. eapply stashed_mono; [|by eapply Hi]. set_solver.
  - intros cs [] c Hc. by apply pbody_safe.
  - intros cs [] e st Hi. exists tt. split; [done|]. intros k v d. simpl. intros [Hk _]%map_lookup_filter_Some. by eapply Hi.
  - split; [|done]. intros k v d. simpl. by rewrite lookup_empty.
  - exact Hi.
Qed.

(** C33. Whatever calls, failures and expiries interleave, a retrieval served for a
    run and generation, whatever reference it presents, returns a result that some
    tool call stashed under that very key; when neither run identifier holds a
    colon, the call was made by that run in that generation.  (Identifiers with a
    colon are accepted by the server: see [colon_id_reads_other_run].) *)
Theorem payload_isolated s store l run gen ref out :
  (Programs.run (S:=Stash) (servePayloadRetrieve marshal_raw s store (Some (run, gen)) ref) [] (w_server (phistory_of s store l))).2
    = RpcResult out →
  ∃ run' gen' ref' body env inner, CShrink (Some (run', gen')) 200 body ∈ w_calls (phistory_of s store l) ∧
    inner_of body = Some (env, inner) ∧ marshal_raw inner = Some out ∧
    valueKey run' gen' ref' = valueKey run gen ref ∧
    (no_colon run → no_colon run' → run' = run ∧ gen' = gen).
Proof.
  pose proof (phistory_inv s store l) as Hi. unfold servePayloadRetrieve, Retrieve. simpl.
  destruct (negb _); [done|]. destruct (String.eqb ref ""); [done|]. destruct (String.eqb run ""); [done|]. simpl.
  destruct (values _ !! _) as [[v d]|] eqn:Hv; [|done]. simpl.
  destruct (marshal_raw v) as [result|] eqn:Hm; [|done]. intros [= ->].
  destruct (Hi _ _ _ Hv) as (r&g&x&body&env&Hk&Hc&Hin). exists r, g, x, body, env, v. split_and!; try done.
  intros Hrun Hr. by apply valueKey_inj in Hk as (<-&<-&_).
Qed.
End shrink.

(** ** The quota *)

(** A reservation: budget, bytes, and whether it fitted. *)
Notation reservation := (string * Z * bool)%type.

Definition amount (b : string) (r : reservation) : Z := if String.eqb r.1.1 b then r.1.2 else 0.
Definition fitted (b : string) (r : reservation) : Z := if r.2 then amount b r else 0.
Definition spent (b : string) (c : string * string * Z) : Z := if String.eqb c.1.1 b then c.2 else 0.

Lemma amount_res b b' n p : amount b (b', n, p) = if String.eqb b' b then n else 0.
Proof. done. Qed.

Lemma fitted_res b b' n p : fitted b (b', n, p) = if p then if String.eqb b' b then n else 0 else 0.
Proof. done. Qed.

Lemma spent_one b b' k n : sumZ (spent b) [(b', k, n)] = if String.eqb b' b then n else 0.
Proof. unfold sumZ, spent. simpl. lia. Qed.

Lemma fitted_le b l : (∀ r, r ∈ l → 0 ≤ r.1.2) → sumZ (fitted b) l ≤ sumZ (amount b) l.
Proof.
  induction l as [|r l IH]; intros Hr; [done|]. rewrite !sumZ_cons. specialize (IH ltac:(set_solver)).
  specialize (Hr r ltac:(set_solver)). assert (fitted b r ≤ amount b r); [|lia].
  unfold fitted, amount. destruct r.2, (String.eqb r.1.1 b); lia.
Qed.

Definition keyed (b k : string) : Prop :=
  ∃ run gen ref, no_colon run ∧ b = budgetKey run gen ∧ k = valueKey run gen ref.

(** A command is answered, or does not reach the store. *)
Definition no_loss (o : fate (cmd:=pcmd) (S:=Stash)) : Prop := (o : reply) ≠ RLost.

Section quota.
Variable S : Settings.

Record qinv (own : list reservation) (s : Stash) : Prop := {
  q_count b : counter s b = sumZ (amount b) own + sumZ (spent b) (h_commits s);
  q_max b : sumZ (fitted b) own + sumZ (spent b) (h_commits s) ≤ MaxStoreBytes S;
  q_own r : r ∈ own → 0 ≤ r.1.2;
  q_spent c : c ∈ h_commits s → 0 ≤ c.2;
  q_values k v d : values s !! k = Some (v, d) → CacheTTL S ≤ d ∧ ∃ b, (b, k, blen v) ∈ h_commits s ∧ keyed b k;
  q_ints k n e : ints s !! k = Some (n, Some e) → CacheTTL S ≤ e;
  q_clock : 0 ≤ pclock s
}.

(** Until the first key can expire. *)
Definition within (own : list reservation) (s : Stash) : Prop := pclock s < CacheTTL S → qinv own s.

Lemma within_perm l k s : l ≡ₚ k → within l s → within k s.
Proof.
  intros Hp Hl Hc. destruct (Hl Hc) as [H1 H2 H3 H4 H5 H6 H7]. split; try done.
  - intros b. by rewrite <- Hp.
  - intros b. by rewrite <- Hp.
  - intros r. rewrite <- Hp. apply H3.
Qed.

Lemma counter_add k n s b : counter (add_int k n s) b = counter s b + (if String.eqb k b then n else 0).
Proof.
  unfold counter, add_int. simpl. destruct (String.eqb_spec k b) as [->|].
  - rewrite lookup_insert_eq. simpl. unfold counter. lia.
  - rewrite lookup_insert_ne by done. lia.
Qed.

Lemma add_ints k n s k' m e : ints (add_int k n s) !! k' = Some (m, Some e) → ∃ m', ints s !! k' = Some (m', Some e).
Proof.
  unfold add_int. simpl. intros [[<- [= _ He]]|[_ H]]%lookup_insert_Some; [|by eauto].
  destruct (ints s !! k) as [[m' e']|]; simpl in He; [|done]. by subst; eauto.
Qed.

Lemma reserve_ok rest s b n p : 0 ≤ n → within rest s → (p = true → counter s b + n ≤ MaxStoreBytes S) →
  within ((b, n, p) :: rest) (add_int b n s).
Proof.
  intros Hn Hw Hp Hc. destruct (Hw Hc) as [H1 H2 H3 H4 H5 H6 H7]. split; try done.
  - intros b'. rewrite counter_add, H1, sumZ_cons, amount_res. simpl. lia.
  - intros b'. rewrite sumZ_cons, fitted_res. simpl. specialize (H2 b'). destruct p; [|lia].
    destruct (String.eqb_spec b b') as [->|]; [|lia]. specialize (Hp eq_refl). rewrite H1 in Hp. pose proof (fitted_le b' rest H3). lia.
  - intros r. rewrite elem_of_cons. intros [->|]; [done|by apply H3].
  - intros k m e (m'&Hm)%add_ints. by eapply H6.
Qed.

Lemma release_ok rest s b n p : within ((b, n, p) :: rest) s → within rest (add_int b (- n) s).
Proof.
  intros Hw Hc. destruct (Hw Hc) as [H1 H2 H3 H4 H5 H6 H7]. split; try done.
  - intros b'. rewrite counter_add, H1, sumZ_cons, amount_res. simpl. destruct (String.eqb b b'); lia.
  - intros b'. specialize (H2 b'). rewrite sumZ_cons, fitted_res in H2. simpl.
    assert (0 ≤ n) by (apply (H3 (b, n, p)); set_solver). destruct p, (String.eqb b b'); lia.
  - intros r Hr. apply H3. set_solver.
  - intros k m e (m'&Hm)%add_ints. by eapply H6.
Qed.

Lemma commit_ok rest s b k v : keyed b k → within ((b, blen v, true) :: rest) s → within rest (set_value b k v (CacheTTL S) s).
Proof.
  intros Hk Hw Hc. destruct (Hw Hc) as [H1 H2 H3 H4 H5 H6 H7]. split; try done; simpl.
  - intros b'. change (counter _ b') with (counter s b'). rewrite H1, sumZ_app, sumZ_cons, amount_res, spent_one. unfold blen. lia.
  - intros b'. specialize (H2 b'). rewrite sumZ_cons, fitted_res in H2. rewrite sumZ_app, spent_one. unfold blen in H2. lia.
  - intros r Hr. apply H3. set_solver.
  - intros c. rewrite elem_of_app, list_elem_of_singleton. intros [?| ->]; [by apply H4|simpl; lia].
  - intros k' v' d'. intros [[<- [= <- <-]]|[_ H]]%lookup_insert_Some.
    + split; [lia|]. exists b. split; [|done]. apply elem_of_app. right. unfold blen. set_solver.
    + destruct (H5 _ _ _ H) as (?&b'&?&?). split; [done|]. exists b'. split; [set_solver|done].
Qed.

Lemma expire_ok rest s b : within rest s → within rest (expire_int b (CacheTTL S) s).
Proof.
  intros Hw Hc. destruct (Hw Hc) as [H1 H2 H3 H4 H5 H6 H7].
  assert (Hct : ∀ b', counter (expire_int b (CacheTTL S) s) b' = counter s b').
  { intros b'. unfold counter, expire_int. simpl. destruct (decide (b = b')) as [->|].
    - rewrite lookup_alter_eq. by destruct (ints s !! b').
    - by rewrite lookup_alter_ne. }
  split; try done; [intros b'; by rewrite Hct|].
  intros k n e. simpl. rewrite lookup_alter_Some. intros [(_&[m e']&_&[= _ He])|[_ H]]; [lia|by eapply H6].
Qed.

Lemma pass_ok own d s : within own s → within own (pass d s).
Proof.
  intros Hw Hc. simpl in Hc. destruct Hw as [H1 H2 H3 H4 H5 H6 H7]; [lia|].
  assert (Hint : ∀ k, ints (pass d s) !! k = ints s !! k).
  { intros k. simpl. destruct (ints s !! k) as [[n e]|] eqn:E.
    - apply map_lookup_filter_Some. split; [done|]. simpl. destruct e as [e|]; [|done]. apply H6 in E. apply Z.ltb_lt. lia.
    - apply map_lookup_filter_None. by left. }
  split; simpl.
  - intros b. unfold counter. rewrite Hint. apply H1.
  - done.
  - done.
  - done.
  - intros k v e [Hk _]%map_lookup_filter_Some. by eapply H5.
  - intros k n e. change (filter _ _) with (ints (pass d s)). rewrite Hint. apply H6.
  - lia.
Qed.

(** ** Calls and their reservations *)

Notation qowns := (owns (S:=Stash) within no_loss).

Lemma owns_get {B} (post : list reservation → B → Prop) own k (f : got → prog pcmd B) :
  (∀ x, qowns post own (f x)) → qowns post own (@Do pcmd payload_commands _ (PGet k) f).
Proof. intros Hf rest s o Ho Hi. exists own. split; [done|]. apply Hf. Qed.

(** A reservation is given back, or stays counted when the store is down. *)
Lemma owns_release b n p (out : string) :
  qowns (λ _ _, True) [(b, n, p)] (@Do pcmd payload_commands _ (PDecr b n) (λ _, Ret out)).
Proof.
  intros rest s o Ho Hi. destruct o; [|by destruct Ho|by exists [(b, n, p)]]. exists []. split; [|done]. by eapply release_ok.
Qed.

Lemma stash_owns b k inner stub body : keyed b k → qowns (λ _ _, True) [] (stash S b k inner stub body).
Proof.
  intros Hk rest s o Ho Hi. destruct o; [|by destruct Ho|by exists []]. simpl.
  exists [(b, blen inner, negb (MaxStoreBytes S <? counter s b + blen inner))]. split.
  { apply reserve_ok; [unfold blen; lia|done|]. rewrite negb_true_iff. lia. }
  intros rest1 s1 o1 Ho1 Hi1. eexists [_]. split.
  { destruct o1; [by apply expire_ok|by destruct Ho1|exact Hi1]. }
  destruct (_ <? _); [apply owns_release|]. intros rest2 s2 o2 Ho2 Hi2.
  destruct o2; [|by destruct Ho2|eexists [_]; split; [exact Hi2|apply owns_release]]. exists []. split; [|done]. by apply commit_ok.
Qed.

Section histories.
Variable unmarshal_env : string → option jsonRPCEnvelope.
Variable marshal_env : jsonRPCEnvelope → option string.
Variable marshal_result : string → option string.
Variable first_text : string → option string.
Variable sha256_hex : string → string.
Variable marshal_raw : string → option string.
#[local] Set Default Proof Using "All".

Lemma pick_owns {B} run gen inner refs (f : option string → prog pcmd B) :
  (∀ vk, (∀ k, vk = Some k → ∃ r, k = valueKey run gen r) → qowns (λ _ _, True) [] (f vk)) →
  qowns (λ _ _, True) [] (bind (pick_among run gen inner refs) f).
Proof.
  intros Hf. induction refs as [|r refs IH]; cbn [pick_among bind]; [by apply Hf|]. apply owns_get. intros x.
  destruct x as [v| |]; [destruct (String.eqb v inner)| |]; cbn [bind];
    [|exact IH|apply Hf; intros k [= <-]; by eexists|by apply Hf].
  apply Hf. intros k [= <-]. by eexists.
Qed.

(** The runs that make tool calls. *)
Definition plain_run (c : pcall) : Prop := match c with CShrink (Some (run, _)) _ _ => no_colon run | _ => True end.

Lemma owns_drop {B} (p : prog pcmd B) : qowns (λ _ _, True) [] p → qowns (λ _ _, True) [] (bind p (λ _, Ret tt)).
Proof. intros Hp. apply owns_bind. exact Hp. Qed.

Lemma pbody_owns store c : plain_run c →
  qowns (λ _ _, True) [] (pbody unmarshal_env marshal_env marshal_result first_text sha256_hex marshal_raw S store c).
Proof.
  intros Hc. destruct c as [binding status body|binding ref]; unfold pbody; apply owns_drop.
  - unfold maybeShrinkMCP. destruct (_ || _); [done|]. destruct binding as [[run gen]|]; [|done].
    unfold Apply. destruct (_ || _); [done|]. destruct (_ <=? _); [done|].
    destruct (innerResult _ body) as [[env inner]|]; [|done]. apply pick_owns. intros [k|] Hk; [|done].
    destruct (Hk k eq_refl) as [r ->]. destruct (buildStub _ _ _ _ _) as [stub|]; [|done]. destruct (_ <=? _); [done|].
    assert (keyed (budgetKey run gen) (valueKey run gen r)) as Hkey by (by exists run, gen, r).
    apply owns_get. intros [v| |]; [destruct (String.eqb v inner); [done|]| |done]; by apply stash_owns.
  - unfold servePayloadRetrieve. destruct (default _ binding) as [run gen]. apply owns_bind. unfold Retrieve.
    destruct (negb _); [done|]. destruct (String.eqb ref ""); [done|]. destruct (String.eqb run ""); [done|].
    by apply owns_get.
Qed.

(** Until a TTL has passed, and while no reply is lost, the bytes stashed for
    one generation of one run stay within the store limit however tool calls
    interleave, failed commands included: the increment that finds the limit
    exceeded is never followed by a write. *)
Theorem payload_within_quota store l run gen (kvs : list (string * string)) :
  let w := phistory unmarshal_env marshal_env marshal_result first_text sha256_hex marshal_raw S store l in
  0 ≤ MaxStoreBytes S → 0 < CacheTTL S → pclock (w_server w) < CacheTTL S →
  Forall (fair no_loss plain_run) l → no_colon run → NoDup kvs.*1 →
  Forall (λ kv, ∃ d, values (w_server w) !! valueKey run gen kv.1 = Some (kv.2, d)) kvs →
  sumZ (λ kv, blen kv.2) kvs ≤ MaxStoreBytes S.
Proof.
  intros w H0 Httl Hclock Hfair Hrun Hnd Hkvs.
  destruct (owned_invariant (S:=Stash) (env:=Z) (pbody unmarshal_env marshal_env marshal_result first_text sha256_hex marshal_raw S store) pass within
    no_loss plain_run within_perm (pbody_owns store) pass_ok l
    (Programs.mkWorld new_stash [] []) []) as [ls [Hi _]]; [done| |].
  { split; [|constructor]. intros _. split; simpl.
    - intros b. unfold counter. simpl. by rewrite lookup_empty.
    - intros b. done.
    - by intros r ?%elem_of_nil.
    - by intros c ?%elem_of_nil.
    - intros k v d. by rewrite lookup_empty.
    - intros k n e. by rewrite lookup_empty.
    - done. }
  change (acts _ _ _ l) with w in Hi. destruct (Hi Hclock) as [_ Hm Ho Hs Hv _ _].
  set (b := budgetKey run gen). set (f := λ kv : string * string, (b, valueKey run gen kv.1, blen kv.2)).
  assert (sumZ (λ kv, blen kv.2) kvs = sumZ (spent b) (f <$> kvs)) as ->.
  { clear. induction kvs as [|kv kvs IH]; [done|]. rewrite fmap_cons, !sumZ_cons, IH. unfold spent at 2, f. simpl.
    by rewrite String.eqb_refl. }
  etrans; [apply (sumZ_sub _ _ (h_commits (w_server w)))|].
  - apply (NoDup_fmap_1 (λ c : string * string * Z, c.1.2)). rewrite <- list_fmap_compose.
    assert (((λ c, c.1.2) ∘ f) <$> kvs = valueKey run gen <$> kvs.*1) as -> by (by rewrite <- list_fmap_compose).
    apply NoDup_fmap; [|done]. intros x y Hxy. apply valueKey_inj in Hxy; tauto.
  - intros c (kv&->&Hkv)%list_elem_of_fmap. rewrite list.Forall_forall in Hkvs. destruct (Hkvs _ Hkv) as [d Hd].
    destruct (Hv _ _ _ Hd) as (_&b'&Hin&(r&g&x&Hr&->&Hk)). apply valueKey_inj in Hk as (<-&<-&_); done.
  - intros c Hc. unfold spent. destruct (String.eqb _ _); [by apply Hs|done].
  - assert (0 ≤ sumZ (fitted b) (concat ls)); [|specialize (Hm b); lia]. apply sumZ_nonneg. intros r Hr. unfold fitted, amount.
    destruct r.2; [|done]. destruct (String.eqb _ _); [by apply Ho|done].
Qed.
End histories.
End quota.

(** ** The tool list *)

Definition tools_of (doc : any) : list any :=
  match doc with AMap m => match result_tools (field "result" m) with Some (Some l) => l | _ => [] end | _ => [] end.

Lemma retrieve_is_retrieve : is_retrieve retrieveTool = true.
Proof. reflexivity. Qed.

(** A list of tools that is rewritten offers the retrieval tool exactly once, after
    the connector's own tools, which keep their order; injecting it twice is
    injecting it once. *)
Theorem retrieve_tool_injected body : InjectRetrieveTool body ≠ body →
  tools_of (InjectRetrieveTool body) = List.filter (λ t, negb (is_retrieve t)) (tools_of body) ++ [retrieveTool] ∧
  List.filter is_retrieve (tools_of (InjectRetrieveTool body)) = [retrieveTool] ∧
  tools_of (InjectRetrieveTool (InjectRetrieveTool body)) = tools_of (InjectRetrieveTool body).
Proof.
  assert (Hff : ∀ l, List.filter is_retrieve (List.filter (λ t, negb (is_retrieve t)) l) = []).
  { induction l as [|x l IH]; [done|]. simpl. destruct (is_retrieve x) eqn:E; simpl; [done|]. by rewrite E. }
  assert (Hid : ∀ l, List.filter (λ t, negb (is_retrieve t)) (List.filter (λ t, negb (is_retrieve t)) l) =
                     List.filter (λ t, negb (is_retrieve t)) l).
  { induction l as [|x l IH]; [done|]. simpl. destruct (negb (is_retrieve x)) eqn:E; simpl; [|done]. by rewrite E, IH. }
  destruct body as [| | | | | | | |m]; try done. unfold InjectRetrieveTool at 1.
  destruct (string_field (field "jsonrpc" m)) as [version|] eqn:Hv; [|done].
  destruct (result_tools (field "result" m)) as [[tools|]|] eqn:Hr; try done.
  destruct (is_error (field "error" m)) eqn:He; [done|]. intros _.
  set (out := InjectRetrieveTool (AMap m)).
  assert (Hout : ∃ m', out = AMap m' ∧ field "jsonrpc" m' = Some (AStr version) ∧
    field "result" m' = Some (AMap [("tools", AArr (List.filter (λ t, negb (is_retrieve t)) tools ++ [retrieveTool]))]) ∧
    field "error" m' = field "error" m).
  { unfold out, InjectRetrieveTool. rewrite Hv, Hr, He. eexists. split; [done|].
    destruct (field "id" m), (field "error" m); done. }
  destruct Hout as (m'&Hm&Hj&Hres&Herr).
  assert (tools_of out = List.filter (λ t, negb (is_retrieve t)) tools ++ [retrieveTool]) as Ht.
  { rewrite Hm. simpl. by rewrite Hres. }
  assert (tools_of (AMap m) = tools) as -> by (simpl; by rewrite Hr).
  split; [done|]. rewrite Ht. split; [by rewrite List.filter_app, Hff|].
  rewrite Hm. unfold InjectRetrieveTool. rewrite Hj. simpl. rewrite Hres. simpl. rewrite Herr, He.
  simpl. rewrite List.filter_app. simpl. rewrite Hid, app_nil_r. by destruct (field "id" m').
Qed.

(** What else the result held is lost: with a cursor to the next page of tools, the
    rewritten result has none. *)
Theorem inject_drops_cursor :
  let page := AMap [("jsonrpc", AStr "2.0"); ("id", ANumber "1");
                    ("result", AMap [("tools", AArr [AMap [("name", AStr "search")]]); ("nextCursor", AStr "p2")])] in
  InjectRetrieveTool page =
    AMap [("jsonrpc", AStr "2.0"); ("id", ANumber "1");
          ("result", AMap [("tools", AArr [AMap [("name", AStr "search")]; retrieveTool])])].
Proof. reflexivity. Qed.

(** ** Witnesses *)

(** Codecs of a small world: the envelope is the body, a stub is four bytes and the
    reference's digest the result itself. *)
Definition w_env (body : string) : option jsonRPCEnvelope := Some (mkEnv "2.0" "1" body "").
Definition w_marshal (_ : jsonRPCEnvelope) : option string := Some "stub".
Definition w_settings : Settings := mkSettings true 4 2 60 10.

Lemma stub_is_retrievable_witness :
  ∃ env inner ref, innerResult w_env "abcdefgh" = Some (env, inner) ∧
    (Programs.run (S:=Stash) (Retrieve w_settings true "r" 1 ref) []
      (Programs.run (S:=Stash) (Apply w_env w_marshal Some (λ _, None) (String "x") w_settings true "r" 1 "abcdefgh") [] new_stash).1).2
    = Ok inner.
Proof.
  destruct (stub_is_retrievable w_env w_marshal Some (λ _, None) (String "x") w_settings true "r" 1 "abcdefgh" [] new_stash
    (Programs.run (S:=Stash) (Apply w_env w_marshal Some (λ _, None) (String "x") w_settings true "r" 1 "abcdefgh") [] new_stash).1 "stub")
    as (env&inner&ref&H1&_&_&H2).
  - intros x. discriminate.
  - vm_compute. reflexivity.
  - discriminate.
  - exists env, inner, ref. split; [exact H1|exact H2].
Defined.

(** Two results of six bytes against a store of ten: both are reserved, one is
    stored, the other is returned whole. *)
Definition w_acts : list (act Stash pcall Z) :=
  [Start (CShrink (Some ("r", 1)) 200 "abcdef"); Start (CShrink (Some ("r", 1)) 200 "ghijkl");
   Step 0 RFine; Step 1 RFine; Step 0 RFine; Step 1 RFine; Step 0 RFine; Step 1 RFine; Step 0 RFine; Step 1 RFine;
   Env 5; Step 1 RFine; Step 0 RFine; Start (CRetrieve (Some ("r", 1)) "xabcdef"); Step 2 RFine].

Lemma w_plain : no_colon "r".
Proof. intros H. apply list_elem_of_singleton in H. discriminate. Defined.

Lemma payload_within_quota_witness :
  sumZ (λ kv, blen kv.2) [("xabcdef", "abcdef")] ≤ MaxStoreBytes w_settings.
Proof.
  apply (payload_within_quota w_settings w_env w_marshal Some (λ _, None) (String "x") Some true w_acts "r" 1).
  - discriminate.
  - reflexivity.
  - vm_compute. reflexivity.
  - repeat constructor; try exact w_plain; discriminate.
  - exact w_plain.
  - constructor; [intros H; inversion H|constructor].
  - constructor; [|constructor]. exists 65. vm_compute. reflexivity.
Defined.

Lemma payload_isolated_witness :
  ∃ run' gen' ref' body env inner, CShrink (Some (run', gen')) 200 body ∈
      w_calls (phistory w_env w_marshal Some (λ _, None) (String "x") Some w_settings true w_acts) ∧
    innerResult w_env body = Some (env, inner) ∧ Some inner = Some "abcdef" ∧
    valueKey run' gen' ref' = valueKey "r" 1 "xabcdef" ∧ (no_colon "r" → no_colon run' → run' = "r" ∧ gen' = 1).
Proof.
  apply (payload_isolated w_env w_marshal Some (λ _, None) (String "x") Some w_settings true w_acts "r" 1 "xabcdef" "abcdef").
  vm_compute. reflexivity.
Defined.

(** ** Identifiers with a colon *)

(** Run ["r:1"] stashes a result in its second generation. *)
Definition colon_acts : list (act Stash pcall Z) :=
  [Start (CShrink (Some ("r:1", 2)) 200 "abcdef");
   Step 0 RFine; Step 0 RFine; Step 0 RFine; Step 0 RFine; Step 0 RFine].

(** Two runs can share a key: run ["r"], in its first generation, reads the result
    of run ["r:1"] with the reference that names its generation first. *)
Theorem colon_id_reads_other_run :
  let w := phistory w_env w_marshal Some (λ _, None) (String "x") Some w_settings true colon_acts in
  (Programs.run (S:=Stash) (servePayloadRetrieve Some w_settings true (Some ("r", 1)) "2:xabcdef") [] (w_server w)).2
    = RpcResult "abcdef" ∧
  w_calls w = [CShrink (Some ("r:1", 2)) 200 "abcdef"].
Proof. vm_compute. split; reflexivity. Qed.
