(* ===== verification/Reclaim.v ===== *)
(** * The reclaim leader

    Models [cmd/reclaim.go]: the lease that keeps one replica's reaper running
    [ReclaimStale] at a time, the loop's tick, and the settings of the loop.  The
    lease is a Redis key with a deadline; times are milliseconds. *)

From S2P Require Import Prelude RedisQueue.
Local Open Scope Z_scope.
Local Open Scope list_scope.

(** ** The lease *)

Record Lease := mkLease { holder : string; deadline : Z }.

Definition reclaimLeaderTTL : Z := 3000.

(** The key as a server at time [now] sees it. *)
Definition current (now : Z) (key : option Lease) : option Lease :=
  match key with Some l => if now <? deadline l then Some l else None | None => None end.

(** [reclaimLeaderScript] *)
Definition reclaimLeaderScript (now : Z) (me : string) (px : Z) (key : option Lease) : option Lease * Z :=
  match current now key with
  | None => (Some (mkLease me (now + px)), 1)
  | Some l => if String.eqb (holder l) me then (Some (mkLease me (now + px)), 1) else (key, 0)
  end.

(** [tryAcquireReclaimLeader]: the second component is the error; [rdb] false when
    no Redis is configured. *)
Definition tryAcquireReclaimLeader (o : reply) (rdb : bool) (now : Z) (me : string) (ttl : Z) (key : option Lease)
  : option Lease * (bool * bool) :=
  if negb rdb then (key, (true, false))
  else
    let ttl := if ttl <=? 0 then reclaimLeaderTTL else ttl in
    let (key', res) := reclaimLeaderScript now me ttl key in
    match o with
    | RFine => (key', (res =? 1, false))
    | RLost => (key', (false, true))
    | RDown => (key, (false, true))
    end.

(** ** Ticks

    A tick of the loop: whether the replica goes on to [ReclaimStale]. *)

Record tick := mkTick { at_ : Z; by_ : string; how : reply }.

Definition tick_lease (rdb : bool) (t : tick) (key : option Lease) : option Lease * bool :=
  let '(key', (won, err)) := tryAcquireReclaimLeader (how t) rdb (at_ t) (by_ t) reclaimLeaderTTL key in
  (key', if err then false else won).

(** The ticks of all replicas in the order the server takes them; those that
    reclaim. *)
Fixpoint reaping (rdb : bool) (key : option Lease) (l : list tick) : list tick :=
  match l with
  | [] => []
  | t :: l => let (key', won) := tick_lease rdb t key in
              if won then t :: reaping rdb key' l else reaping rdb key' l
  end.

Fixpoint lease_after (rdb : bool) (key : option Lease) (l : list tick) : option Lease :=
  match l with
  | [] => key
  | t :: l => lease_after rdb (tick_lease rdb t key).1 l
  end.

(** ** Settings *)

Definition defaultReclaimMaxAge : Z := 6000.
Definition defaultReclaimMaxRetries : Z := 3.

(** The value of the first configuration file when it loads and has one; then the
    environment, [Some None] when it does not parse. *)
Definition initReclaimMaxRetries (config : option Z) (env : option (option Z)) : Z :=
  let maxRetries := match config with Some n => if n <? 0 then defaultReclaimMaxRetries else n | None => defaultReclaimMaxRetries end in
  match env with
  | Some (Some n) => if n <? 0 then maxRetries else n
  | _ => maxRetries
  end.

Definition initReclaimMaxAge (config env : option (option Z)) : Z :=
  let maxAge := match config with Some (Some d) => if d <=? 0 then defaultReclaimMaxAge else d | _ => defaultReclaimMaxAge end in
  match env with
  | Some (Some d) => if d <=? 0 then maxAge else d
  | _ => maxAge
  end.

(** ** Properties *)

(** Ticks in time order. *)
Definition in_order (l : list tick) : Prop := ∀ i j a b, (i < j)%nat → l !! i = Some a → l !! j = Some b → at_ a ≤ at_ b.

Lemma in_order_cons t l : in_order (t :: l) → in_order l ∧ ∀ u, u ∈ l → at_ t ≤ at_ u.
Proof.
  intros H. split.
  - intros i j a b Hij Ha Hb. apply (H (S i) (S j)); [lia|done|done].
  - intros u [i Hi]%list_elem_of_lookup. apply (H 0%nat (S i)); [lia|done|done].
Qed.

Lemma reaping_sub rdb key l : reaping rdb key l ⊆ l.
Proof.
  revert key. induction l as [|t l IH]; intros key; simpl; [done|]. destruct (tick_lease rdb t key) as [key' []]; specialize (IH key'); set_solver.
Qed.

Lemma tick_won t key key' : tick_lease true t key = (key', true) →
  key' = Some (mkLease (by_ t) (at_ t + reclaimLeaderTTL)) ∧
  ∀ h, key = Some h → at_ t < deadline h → holder h = by_ t.
Proof.
  unfold tick_lease, tryAcquireReclaimLeader, reclaimLeaderScript. simpl. unfold current.
  destruct key as [[h d]|]; simpl; [destruct (Z.ltb_spec (at_ t) d); simpl; [destruct (String.eqb_spec h (by_ t)); simpl|]|];
    destruct (how t); simpl; try done; intros [= <-]; split; try done; intros ? [= <-]; simpl; done || lia.
Qed.

(** Whatever a tick does, another's lease that has not run out survives it. *)
Lemma tick_keeps t key key' won h : tick_lease true t key = (key', won) → key = Some h → at_ t < deadline h →
  holder h ≠ by_ t → key' = key.
Proof.
  intros Ht -> Hlt Hne. revert Ht. unfold tick_lease, tryAcquireReclaimLeader, reclaimLeaderScript. simpl. unfold current.
  rewrite (proj2 (Z.ltb_lt _ _) Hlt), (proj2 (String.eqb_neq _ _) Hne). by destruct (how t); intros [= <- _].
Qed.

(** A replica's own tick never shortens its lease. *)
Lemma tick_extends t key key' won h : tick_lease true t key = (key', won) → key = Some h → at_ t < deadline h → holder h = by_ t →
  deadline h ≤ at_ t + reclaimLeaderTTL → ∃ h', key' = Some h' ∧ holder h' = holder h ∧ deadline h ≤ deadline h' ≤ at_ t + reclaimLeaderTTL.
Proof.
  intros Ht -> Hlt Heq Hd. revert Ht. unfold tick_lease, tryAcquireReclaimLeader, reclaimLeaderScript. simpl. unfold current.
  rewrite (proj2 (Z.ltb_lt _ _) Hlt), Heq, String.eqb_refl. destruct (how t); intros [= <- _]; eexists; (split; [done|]); simpl; try lia; done.
Qed.

(** A lease held until [d] keeps everyone else from reaping before [d]. *)
Lemma reaping_excluded l key h d : in_order l → key = Some h → d ≤ deadline h →
  (∀ u, u ∈ l → deadline h ≤ at_ u + reclaimLeaderTTL) →
  ∀ u, u ∈ reaping true key l → at_ u < d → by_ u = holder h.
Proof.
  intros Ho -> Hd. revert h Hd. induction l as [|t l IH]; intros h Hd Hl u Hu Hlt; simpl in Hu; [set_solver|].
  destruct (tick_lease true t (Some h)) as [key' won] eqn:Ht. apply in_order_cons in Ho as [Ho Hle].
  assert (at_ t ≤ at_ u) as Htu.
  { destruct won; [apply elem_of_cons in Hu as [->|Hu]; [lia|]|]; apply Hle, (reaping_sub true key'), Hu. }
  destruct (decide (holder h = by_ t)) as [Heq|Hne].
  - destruct (tick_extends _ _ _ _ _ Ht eq_refl) as (h'&->&Hh'&Hd'); [lia|done|apply Hl; set_solver|].
    destruct won; [apply elem_of_cons in Hu as [->|Hu]; [done|]|]; rewrite <- Hh'; (eapply IH; [done|lia| |done|done]);
      intros v Hv; specialize (Hle v Hv); lia.
  - rewrite (tick_keeps _ _ _ _ _ Ht eq_refl) in * by (lia || done).
    destruct won; [|apply (IH Ho h Hd); [intros; apply Hl; set_solver|done|done]].
    apply tick_won in Ht as [_ Hw]. destruct Hne. apply (Hw _ eq_refl). lia.
Qed.

(** Two replicas' reapers never run [ReclaimStale] on leases that overlap: when
    one replica reaps and a different one reaps later, a whole TTL has passed
    since the first one's tick, whatever replies were lost in between. *)
Theorem reclaim_leader_exclusive l i j a b : in_order l →
  reaping true None l !! i = Some a → reaping true None l !! j = Some b → (i < j)%nat → by_ a ≠ by_ b →
  at_ a + reclaimLeaderTTL ≤ at_ b.
Proof.
  intros Ho. generalize (None : option Lease) as key. revert i j. induction l as [|t l IH]; intros i j key Ha Hb Hij Hne; [done|].
  simpl in *. apply in_order_cons in Ho as [Ho Hle]. destruct (tick_lease true t key) as [key' won] eqn:Ht.
  destruct won; [|by eapply IH]. destruct j as [|j]; [lia|]. simpl in Hb. destruct i as [|i]; [|simpl in Ha; eapply IH; [done..|lia|done]].
  simpl in Ha. injection Ha as ->. apply tick_won in Ht as [-> _].
  destruct (Z.le_gt_cases (at_ a + reclaimLeaderTTL) (at_ b)) as [?|Hlt]; [done|]. destruct Hne. symmetry.
  eapply (reaping_excluded l _ (mkLease (by_ a) (at_ a + reclaimLeaderTTL)) (at_ a + reclaimLeaderTTL)); [done|done|done| |by eapply list_elem_of_lookup_2|lia].
  intros u Hu. simpl. specialize (Hle u Hu). lia.
Qed.

(** The leader that ticks before its lease runs out keeps it; when it is gone, the
    first replica whose tick is answered a TTL later takes over. *)
Theorem reclaim_leader_renews_and_yields key t h : how t = RFine → key = Some h →
  (holder h = by_ t ∨ deadline h ≤ at_ t) → tick_lease true t key = (Some (mkLease (by_ t) (at_ t + reclaimLeaderTTL)), true).
Proof.
  intros Hf -> Hor. unfold tick_lease, tryAcquireReclaimLeader, reclaimLeaderScript, current. rewrite Hf. simpl.
  destruct (Z.ltb_spec (at_ t) (deadline h)); [|done]. destruct Hor as [->|]; [|lia]. by rewrite String.eqb_refl.
Qed.

(** A tick that gets no answer does not reap. *)
Theorem reclaim_fails_closed key t : how t ≠ RFine → (tick_lease true t key).2 = false.
Proof.
  intros Hf. unfold tick_lease, tryAcquireReclaimLeader. simpl. destruct (reclaimLeaderScript _ _ _ _). by destruct (how t).
Qed.

(** Settings are in range whatever is configured. *)
Theorem reclaim_settings_in_range c e c' e' : 0 ≤ initReclaimMaxRetries c e ∧ 0 < initReclaimMaxAge c' e'.
Proof.
  unfold initReclaimMaxRetries, initReclaimMaxAge, defaultReclaimMaxAge, defaultReclaimMaxRetries. split.
  - destruct e as [[n|]|], c as [m|]; cbv zeta; repeat case_match; lia.
  - destruct e' as [[n|]|], c' as [[m|]|]; cbv zeta; repeat case_match; lia.
Qed.

(** Two replicas: the first wins and stops, the second is refused and takes over. *)
Definition two_replicas : list tick :=
  [mkTick 0 "a" RFine; mkTick 1000 "b" RFine; mkTick 2000 "a" RLost; mkTick 4000 "b" RFine; mkTick 5000 "b" RFine].

Lemma reclaim_leader_exclusive_witness : 0 + reclaimLeaderTTL ≤ 5000.
Proof.
  apply (reclaim_leader_exclusive two_replicas 0 1 (mkTick 0 "a" RFine) (mkTick 5000 "b" RFine)).
  - intros i j a b Hij Ha Hb. unfold two_replicas in *.
    do 5 (destruct i as [|i]; [do 5 (destruct j as [|j]; [try lia; simpl in *; injection Ha as <-; injection Hb as <-; simpl; lia|]); discriminate|]).
    discriminate.
  - reflexivity.
  - reflexivity.
  - lia.
  - discriminate.
Defined.
