(* ===== verification/Nats.v ===== *)
(** * The NATS job queue

    Models the job queue of [internal/transport/nats/nats.go] and
    [run_identity.go].  Jobs are messages of one JetStream stream, delivered by
    a durable consumer per runner kind; a key-value bucket records, per run, the
    reply subject and the generation (JetStream's delivery count) of the delivery
    in flight, and another the canceled runs.  Every method is a [prog]: the
    commands it sends, between which other control planes act.

    JetStream itself is the classes [KeyValue] and [JetStream]: what the code
    asks of it, with the documented behaviour as their laws. *)

From Stdlib Require Import Ascii.
From S2P Require Import Prelude Transport RedisQueue Programs.
Local Open Scope string_scope.
Local Open Scope Z_scope.
Local Open Scope go_scope.

(** ** Run ids *)

Definition run_id_char (c : ascii) : bool :=
  let n := nat_of_ascii c in
  ((97 <=? n) && (n <=? 122) || (65 <=? n) && (n <=? 90) || (48 <=? n) && (n <=? 57)
   || (n =? 45) || (n =? 95) || (n =? 47) || (n =? 61) || (n =? 46))%nat.

(** The loop over the bytes; [prev] is [id[i-1]]. *)
Fixpoint id_bytes_ok (prev : option ascii) (id : string) : bool :=
  match id with
  | EmptyString => true
  | String c id =>
      if Ascii.eqb c "." && bool_decide (prev = Some "."%char) then false
      else if run_id_char c then id_bytes_ok (Some c) id else false
  end.

Definition last_byte (id : string) : option ascii := String.get (String.length id - 1) id.

(** [true]: no error. *)
Definition validateRunID (id : string) : bool :=
  match String.get 0 id with
  | None => false
  | Some c0 =>
      if Ascii.eqb c0 "." || bool_decide (last_byte id = Some "."%char) then false
      else id_bytes_ok None id
  end.

(** ** JetStream *)

Class KeyValue (V : Type) := {
  kv : Type;
  kv_Get : kv → string → option (V * Z);         (* value and revision *)
  kv_Put : kv → string → V → kv;
  kv_Update : kv → string → V → Z → option kv;   (* None: wrong last revision *)
  kv_Delete : kv → string → Z → option kv;       (* with [LastRevision] *)
  kv_Keys : kv → list string;
  kv_expire : kv → string → kv                   (* the bucket's TTL ends for a key *)
}.
Arguments kv V {_}.

Class KeyValueOk (V : Type) `{KeyValue V} := {
  kv_put_get s k v k' :
    fst <$> kv_Get (kv_Put s k v) k' = if decide (k = k') then Some v else fst <$> kv_Get s k';
  kv_update_hit s k v0 v rev : kv_Get s k = Some (v0, rev) → is_Some (kv_Update s k v rev);
  kv_update_get s k v rev s' k' :
    kv_Update s k v rev = Some s' →
    fst <$> kv_Get s' k' = if decide (k = k') then Some v else fst <$> kv_Get s k';
  kv_update_miss s k v0 v rev rev' : kv_Get s k = Some (v0, rev) → rev ≠ rev' → kv_Update s k v rev' = None;
  kv_delete_hit s k v0 rev : kv_Get s k = Some (v0, rev) → is_Some (kv_Delete s k rev);
  kv_delete_get s k rev s' k' :
    kv_Delete s k rev = Some s' → kv_Get s' k' = if decide (k = k') then None else kv_Get s k';
  kv_delete_miss s k v0 rev rev' : kv_Get s k = Some (v0, rev) → rev ≠ rev' → kv_Delete s k rev' = None;
  kv_keys_get s k : k ∈ kv_Keys s ↔ is_Some (kv_Get s k);
  kv_expire_get s k k' : kv_Get (kv_expire s k) k' = if decide (k = k') then None else kv_Get s k'
}.

(** What is published to a reply subject. *)
Inductive signal := SigAck | SigNak | SigWpi | SigTerm | SigNakDelay.

Section nats.
Context {WR : Wire}.

Record delivery := mkDelivery {
  d_seq : Z;            (* stream sequence *)
  d_reply : string;
  d_data : payload;
  d_num : option Z      (* NumDelivered; None: no readable metadata *)
}.

Class JetStream := {
  js : Type;
  js_msg : js → Z → option (string * payload);    (* stored messages: subject and data *)
  js_last : js → Z;                               (* the last sequence used *)
  js_seq : string → option Z;                     (* the sequence a reply subject names *)
  js_CreateConsumer : js → string → string → option js;
  js_Publish : js → string → payload → js * Z;
  js_Fetch : js → string → option (js * delivery);
  js_post : js → string → signal → js;
  js_pending : js → list (string * Z);            (* NumPending of every consumer *)
  js_ackwait : js → js                            (* the ack timer of a delivery ends *)
}.

(** Which signals may remove the message. *)
Definition settles (g : signal) : bool :=
  match g with SigAck | SigTerm => true | _ => false end.

Class JetStreamOk `{JetStream} := {
  js_bound s n m : js_msg s n = Some m → n ≤ js_last s;
  js_create_ok s name f s' :
    js_CreateConsumer s name f = Some s' → (∀ n, js_msg s' n = js_msg s n) ∧ js_last s' = js_last s;
  js_publish_ok s subj p s' n :
    js_Publish s subj p = (s', n) →
    js_last s < n ∧ js_last s' = n ∧ ∀ m, js_msg s' m = if decide (n = m) then Some (subj, p) else js_msg s m;
  js_fetch_ok s name s' d :
    js_Fetch s name = Some (s', d) →
    (∀ n, js_msg s' n = js_msg s n) ∧ js_last s' = js_last s ∧
    (∃ subj, js_msg s (d_seq d) = Some (subj, d_data d)) ∧ js_seq (d_reply d) = Some (d_seq d) ∧
    (∀ n, d_num d = Some n → 1 ≤ n);
  js_ackwait_ok s : (∀ n, js_msg (js_ackwait s) n = js_msg s n) ∧ js_last (js_ackwait s) = js_last s;
  (** A signal reaches at most the message its reply subject names. *)
  js_post_ok s rep g :
    js_last (js_post s rep g) = js_last s ∧
    ∀ n, js_msg (js_post s rep g) n = js_msg s n ∨
         settles g = true ∧ js_seq rep = Some n ∧ js_msg (js_post s rep g) n = None
}.

(** ** Commands *)

Record inflightEntry := mkEntry {
  Reply : string;
  EGeneration : Z;
  TouchedAtUnixMilli : Z;
  Job : option payload     (* None: an empty raw message *)
}.

(** A stored value: [None] when its bytes are not an entry. *)
Definition entry_value : Type := option inflightEntry.

Inductive kv_error := ErrKeyNotFound | ErrKv.

Inductive fetched := FetchErr | FetchNone | FetchMsg (d : delivery).

Inductive ncmd :=
| GetInflight (k : string)
| PutInflight (k : string) (e : inflightEntry)
| UpdateInflight (k : string) (e : inflightEntry) (rev : Z)
| DeleteInflight (k : string) (rev : Z)
| KeysInflight
| GetCanceled (k : string)
| PutCanceled (k : string)
| CreateConsumer (name filter : string)
| PublishJob (subject : string) (p : payload)
| Fetch (consumer : string)
| Post (rep : string) (g : signal)
| ConsumerPending.

(** A [bool] answer is whether the error is nil. *)
#[export] Instance nats_commands : Commands ncmd := λ c,
  match c with
  | GetInflight _ => res kv_error (entry_value * Z)
  | KeysInflight => res go_error (list string)
  | Fetch _ => fetched
  | ConsumerPending => res go_error (list (string * Z))
  | _ => bool
  end.

Context `{JetStream} `{!KeyValue entry_value} `{!KeyValue unit}.

(** The service, with two history variables: every job published, and every
    delivery with its generation. *)
Record Nats := mkNats {
  jobs : js;
  inflight : kv entry_value;
  canceled : kv unit;
  h_log : gmap Z payload;
  h_delivered : list (Z * Z)
}.

Definition set_inflight (m : kv entry_value) (s : Nats) : Nats :=
  mkNats (jobs s) m (canceled s) (h_log s) (h_delivered s).
Definition set_jobs (j : js) (s : Nats) : Nats :=
  mkNats j (inflight s) (canceled s) (h_log s) (h_delivered s).

(** A command that changes the service and reports success. *)
Definition write_cmd (o : reply) (f : Nats → option Nats) (s : Nats) : Nats * bool :=
  match f s with
  | None => (s, false)
  | Some s' => match o with RFine => (s', true) | RLost => (s', false) | RDown => (s, false) end
  end.

Definition publish_job (subject : string) (p : payload) (s : Nats) : Nats :=
  let (j, n) := js_Publish (jobs s) subject p in
  mkNats j (inflight s) (canceled s) (<[n := p]> (h_log s)) (h_delivered s).

Definition fetch_job (consumer : string) (s : Nats) : option (Nats * delivery) :=
  match js_Fetch (jobs s) consumer with
  | None => None
  | Some (j, d) =>
      Some (mkNats j (inflight s) (canceled s) (h_log s)
              (match d_num d with Some g => (d_seq d, g) :: h_delivered s | None => h_delivered s end), d)
  end.

Definition exec_nats (o : reply) (c : ncmd) (s : Nats) : Nats * answer c :=
  match c return Nats * answer c with
  | GetInflight k =>
      (s, match o with
          | RFine => match kv_Get (inflight s) k with Some vr => Ok vr | None => Err ErrKeyNotFound end
          | _ => Err ErrKv
          end)
  | PutInflight k e => write_cmd o (λ s, Some (set_inflight (kv_Put (inflight s) k (Some e)) s)) s
  | UpdateInflight k e rev =>
      write_cmd o (λ s, (λ m, set_inflight m s) <$> kv_Update (inflight s) k (Some e) rev) s
  | DeleteInflight k rev => write_cmd o (λ s, (λ m, set_inflight m s) <$> kv_Delete (inflight s) k rev) s
  | KeysInflight => (s, match o with RFine => Ok (kv_Keys (inflight s)) | _ => Err ErrBackend end)
  | GetCanceled k => (s, match o with RFine => bool_decide (is_Some (kv_Get (canceled s) k)) | _ => false end)
  | PutCanceled k =>
      write_cmd o (λ s, Some (mkNats (jobs s) (inflight s) (kv_Put (canceled s) k tt) (h_log s) (h_delivered s))) s
  | CreateConsumer name f => write_cmd o (λ s, (λ j, set_jobs j s) <$> js_CreateConsumer (jobs s) name f) s
  | PublishJob subject p => write_cmd o (λ s, Some (publish_job subject p s)) s
  | Fetch consumer =>
      match fetch_job consumer s with
      | None => (s, match o with RFine => FetchNone | _ => FetchErr end)
      | Some (s', d) =>
          match o with RFine => (s', FetchMsg d) | RLost => (s', FetchErr) | RDown => (s, FetchErr) end
      end
  | Post rep g => write_cmd o (λ s, Some (set_jobs (js_post (jobs s) rep g) s)) s
  | ConsumerPending => (s, match o with RFine => Ok (js_pending (jobs s)) | _ => Err ErrBackend end)
  end.

#[export] Instance nats_server : Server ncmd Nats := {| fate := reply; fine := RFine; exec := exec_nats |}.

(** ** The methods *)

Local Notation "x <~ c ;; k" := (@Do ncmd nats_commands _ c (λ x, k))
  (at level 100, c at next level, right associativity, only parsing).

Definition jobSubject (runnerKind : string) : string := "rk.jobs." ++ runnerKind.

Fixpoint dots_to_underscores (s : string) : string :=
  match s with
  | EmptyString => EmptyString
  | String c s => String (if Ascii.eqb c "." then "_" else c)%char (dots_to_underscores s)
  end.

Definition consumerName (runnerKind : string) : string := "jobs-" ++ dots_to_underscores runnerKind.

(** [consumers] is this process's cache of consumer handles. *)
Definition consumerFor (consumers : gset string) (runnerKind : string)
  : prog ncmd (gset string * option go_error) :=
  if bool_decide (runnerKind ∈ consumers) then Ret (consumers, None)
  else
    ok <~ CreateConsumer (consumerName runnerKind) (jobSubject runnerKind) ;;
    if ok then Ret ({[runnerKind]} ∪ consumers, None) else Ret (consumers, Some ErrBackend).

Definition isCanceled (runID : string) : prog ncmd bool := b <~ GetCanceled runID ;; Ret b.

Definition Enqueue (consumers : gset string) (job : RunAssignment)
  : prog ncmd (gset string * option go_error) :=
  if negb (validateRunID (RunID job)) then Ret (consumers, Some ErrInvalidRunID)
  else
    bind (isCanceled (RunID job)) (λ c,
    if c then Ret (consumers, None)
    else
      bind (consumerFor consumers (RunnerKind job)) (λ '(consumers, err),
      match err with
      | Some e => Ret (consumers, Some e)
      | None =>
          ok <~ PublishJob (jobSubject (RunnerKind job)) (marshal job) ;;
          Ret (consumers, if ok then None else Some ErrBackend)
      end)).

(** One turn of [Dequeue]'s loop: the context is done, the deadline has passed, or
    a fetch is tried and [now] is the clock when its message is recorded. *)
Inductive dq_turn := DqCtx | DqDeadline | DqTry (now : Z).

Fixpoint dequeue_loop (runnerKind : string) (turns : list dq_turn)
  : prog ncmd (option (res go_error (option RunAssignment))) :=
  match turns with
  | [] => Ret None
  | DqCtx :: _ => Ret (Some (Err ErrCanceled))
  | DqDeadline :: _ => Ret (Some (Ok None))
  | DqTry now :: turns =>
      msg <~ Fetch (consumerName runnerKind) ;;
      match msg with
      | FetchErr => Ret (Some (Err ErrBackend))
      | FetchNone => dequeue_loop runnerKind turns
      | FetchMsg d =>
          match unmarshal (d_data d) with
          | None => _ <~ Post (d_reply d) SigTerm ;; dequeue_loop runnerKind turns
          | Some job =>
              if negb (validateRunID (RunID job)) then
                ok <~ Post (d_reply d) SigNakDelay ;;
                Ret (Some (Err (if ok then ErrInvalidRunID else ErrBackend)))
              else
                bind (isCanceled (RunID job)) (λ c,
                if c then _ <~ Post (d_reply d) SigTerm ;; dequeue_loop runnerKind turns
                else
                  match d_num d with
                  | None => Ret (Some (Err ErrBackend))
                  | Some n =>
                      let job := set_generation n job in
                      ok <~ PutInflight (RunID job) (mkEntry (d_reply d) n now (Some (d_data d))) ;;
                      Ret (Some (if ok then Ok (Some job) else Err ErrBackend))
                  end)
          end
      end
  end.

(** [None]: the call is still waiting. *)
Definition Dequeue (consumers : gset string) (runnerKind : string) (turns : list dq_turn)
  : prog ncmd (gset string * option (res go_error (option RunAssignment))) :=
  bind (consumerFor consumers runnerKind) (λ '(consumers, err),
  match err with
  | Some e => Ret (consumers, Some (Err e))
  | None => bind (dequeue_loop runnerKind turns) (λ o, Ret (consumers, o))
  end).

Definition fenced (runID : string) (generation : Z) : prog ncmd (option (inflightEntry * Z)) :=
  kve <~ GetInflight runID ;;
  Ret match kve with
      | Ok (Some entry, rev) => if EGeneration entry =? generation then Some (entry, rev) else None
      | _ => None
      end.

Definition Ack (runID : string) (generation : Z) : prog ncmd (res go_error bool) :=
  if negb (validateRunID runID) then Ret (Err ErrInvalidRunID)
  else
    bind (fenced runID generation) (λ f,
    match f with
    | None => Ret (Ok false)
    | Some (entry, revision) =>
        ok <~ Post (Reply entry) SigAck ;;
        if ok then _ <~ DeleteInflight runID revision ;; Ret (Ok true)
        else Ret (Err ErrBackend)
    end).

Definition touch (now : Z) (e : inflightEntry) : inflightEntry :=
  mkEntry (Reply e) (EGeneration e) now (Job e).

Definition Renew (now : Z) (runID : string) (generation : Z) : prog ncmd (res go_error bool) :=
  if negb (validateRunID runID) then Ret (Err ErrInvalidRunID)
  else
    bind (fenced runID generation) (λ f,
    match f with
    | None => Ret (Ok false)
    | Some (entry, revision) =>
        ok <~ Post (Reply entry) SigWpi ;;
        if ok then ok <~ UpdateInflight runID (touch now entry) revision ;; Ret (Ok (ok : bool))
        else Ret (Err ErrBackend)
    end).

(** The assignment an entry tracks. *)
Definition entry_job (entry : inflightEntry) : res go_error (option RunAssignment) :=
  match Job entry with
  | None => Ok None
  | Some p =>
      match unmarshal p with
      | None => Err ErrBackend
      | Some job => Ok (Some (if EGeneration entry =? 0 then job else set_generation (EGeneration entry) job))
      end
  end.

Definition LookupInflight (runID : string) : prog ncmd (res go_error (option RunAssignment)) :=
  if negb (validateRunID runID) then Ret (Err ErrInvalidRunID)
  else
    kve <~ GetInflight runID ;;
    Ret match kve with
        | Err ErrKeyNotFound => Ok None
        | Err ErrKv | Ok (None, _) => Err ErrBackend
        | Ok (Some entry, _) => entry_job entry
        end.

Definition Nack (runID : string) (generation : Z) : prog ncmd (option go_error) :=
  if negb (validateRunID runID) then Ret (Some ErrInvalidRunID)
  else
    kve <~ GetInflight runID ;;
    match kve with
    | Err ErrKeyNotFound => Ret None
    | Err ErrKv | Ok (None, _) => Ret (Some ErrBackend)
    | Ok (Some entry, revision) =>
        if negb (EGeneration entry =? generation) then Ret None
        else
          ok <~ Post (Reply entry) SigNak ;;
          if ok then
            ok <~ DeleteInflight runID revision ;; Ret (if ok then None else Some ErrBackend)
          else Ret (Some ErrBackend)
    end.

Definition Cancel (runID : string) : prog ncmd (option go_error) :=
  if negb (validateRunID runID) then Ret (Some ErrInvalidRunID)
  else
    let mark := ok <~ PutCanceled runID ;; Ret (if ok then None else Some ErrBackend) in
    kve <~ GetInflight runID ;;
    match kve with
    | Err _ => mark
    | Ok (Some entry, revision) =>
        _ <~ Post (Reply entry) SigTerm ;; _ <~ DeleteInflight runID revision ;; mark
    | Ok (None, revision) => _ <~ DeleteInflight runID revision ;; mark
    end.

(** The fields a failed [json.Unmarshal] leaves zero. *)
Definition job_or_zero (p : option payload) : string * string :=
  match p ≫= unmarshal with Some job => (GraphID job, TenantID job) | None => ("", "") end.

Fixpoint reclaim_keys (cutoff maxRetries : Z) (keys : list string) (reclaimed : Z) (dead : list PoisonPill)
  : prog ncmd (res go_error (Z * list PoisonPill)) :=
  match keys with
  | [] => Ret (Ok (reclaimed, dead))
  | key :: keys =>
      kve <~ GetInflight key ;;
      match kve with
      | Ok (Some entry, revision) =>
          if cutoff <? TouchedAtUnixMilli entry then reclaim_keys cutoff maxRetries keys reclaimed dead
          else
            let newGen := EGeneration entry + 1 in
            if (0 <? maxRetries) && (maxRetries <? newGen) then
              ok <~ Post (Reply entry) SigWpi ;;
              let (agent, tenant) := job_or_zero (Job entry) in
              reclaim_keys cutoff maxRetries keys reclaimed
                (if ok then (dead ++ [mkPill key newGen agent tenant])%list else dead)
            else
              ok <~ Post (Reply entry) SigNak ;;
              if ok then
                gone <~ DeleteInflight key revision ;;
                reclaim_keys cutoff maxRetries keys (if gone then reclaimed + 1 else reclaimed) dead
              else reclaim_keys cutoff maxRetries keys reclaimed dead
      | _ => reclaim_keys cutoff maxRetries keys reclaimed dead
      end
  end.

Definition ReclaimStale (now maxAge maxRetries : Z) : prog ncmd (res go_error (Z * list PoisonPill)) :=
  keys <~ KeysInflight ;;
  match keys with
  | Err e => Ret (Err e)
  | Ok keys => reclaim_keys (now - maxAge) maxRetries keys 0 []
  end.

(** A consumer whose info cannot be read is left out. *)
Definition Len (readable : string → bool) : prog ncmd (res go_error Z) :=
  l <~ ConsumerPending ;;
  Ret match l with
      | Ok l => Ok (foldr (λ c n, c.2 + n) 0 (List.filter (λ c, readable c.1) l))
      | Err e => Err e
      end.
End nats.
