(* ===== verification/NatsSteps.v ===== *)
(** * NATS: no job is lost under any interleaving

    The calls of any number of control planes on the NATS queue of [Nats],
    interleaved command by command, with crashes, lost replies, redeliveries and
    expiring cancel markers.  A published job leaves the stream only when its run
    was canceled or an acknowledgement presented the generation of one of its
    deliveries. *)

From S2P Require Import Prelude Transport RedisQueue Programs Nats.
Local Open Scope string_scope.
Local Open Scope Z_scope.

Section steps.
Context {WR : Wire}.
Context `{!JetStream} `{!KeyValue entry_value} `{!KeyValue unit}.

Inductive ncall :=
| CEnqueue (consumers : gset string) (job : RunAssignment)
| CDequeue (consumers : gset string) (kind : string) (turns : list dq_turn)
| CAck (r : string) (g : Z)
| CRenew (now : Z) (r : string) (g : Z)
| CLookup (r : string)
| CNack (r : string) (g : Z)
| CCancel (r : string)
| CReclaim (now maxAge maxRetries : Z)
| CLen (readable : string → bool).

Definition finish {A} (p : prog ncmd A) : prog ncmd unit := bind p (λ _, Ret tt).

Definition nbody (c : ncall) : prog ncmd unit :=
  match c with
  | CEnqueue cs job => finish (Enqueue cs job)
  | CDequeue cs kind turns => finish (Dequeue cs kind turns)
  | CAck r g => finish (Ack r g)
  | CRenew now r g => finish (Renew now r g)
  | CLookup r => finish (LookupInflight r)
  | CNack r g => finish (Nack r g)
  | CCancel r => finish (Cancel r)
  | CReclaim now maxAge mr => finish (ReclaimStale now maxAge mr)
  | CLen readable => finish (Len readable)
  end.

(** What the service does by itself. *)
Inductive nenv := AckWait | ExpireMarker (r : string).

Definition nenv_step (e : nenv) (s : Nats) : Nats :=
  match e with
  | AckWait => set_jobs (js_ackwait (jobs s)) s
  | ExpireMarker r =>
      mkNats (jobs s) (inflight s) (kv_expire (canceled s) r) (h_log s) (h_delivered s)
  end.

Definition nworld : Type := world ncmd Nats ncall unit.

Definition nacts (w : nworld) (l : list (act Nats ncall nenv)) : nworld := acts nbody nenv_step w l.

(** ** Facts that only grow: the jobs published and the deliveries made *)

Definition facts : Type := gmap Z payload * list (Z * Z).

Definition grows (g g' : facts) : Prop := g.1 ⊆ g'.1 ∧ g.2 ⊆ g'.2.

#[export] Instance grows_preorder : PreOrder grows.
Proof. split; [by intros g|]. intros g1 g2 g3 [? ?] [? ?]. split; by etrans. Qed.

Definition hist (s : Nats) : facts := (h_log s, h_delivered s).

(** The run was canceled, or delivery [n] was acknowledged with its generation. *)
Definition released (cs : list ncall) (g : facts) (n : Z) (r : string) : Prop :=
  CCancel r ∈ cs ∨ ∃ γ, CAck r γ ∈ cs ∧ (n, γ) ∈ g.2.

Definition entry_ok (g : facts) (r : string) (e : inflightEntry) : Prop :=
  ∃ n p a, js_seq (Reply e) = Some n ∧ g.1 !! n = Some p ∧ unmarshal p = Some a ∧ RunID a = r ∧
           (n, EGeneration e) ∈ g.2.

Record ninv (cs : list ncall) (g : facts) (s : Nats) : Prop := {
  ni_hist : g = hist s;
  ni_msg n subj p : js_msg (jobs s) n = Some (subj, p) → h_log s !! n = Some p;
  ni_bound n p : h_log s !! n = Some p → n ≤ js_last (jobs s);
  ni_kept n p a : h_log s !! n = Some p → unmarshal p = Some a →
    is_Some (js_msg (jobs s) n) ∨ released cs g n (RunID a);
  ni_entry r e rev : kv_Get (inflight s) r = Some (Some e, rev) → entry_ok g r e;
  ni_canceled r : is_Some (kv_Get (canceled s) r) → CCancel r ∈ cs
}.

(** What a call must know to send a command. *)
Definition nallowed (cs : list ncall) (g : facts) (c : ncmd) : Prop :=
  match c with
  | PutInflight r e | UpdateInflight r e _ => entry_ok g r e
  | PutCanceled r => CCancel r ∈ cs
  | Post rep sig => settles sig = true → ∃ n p, js_seq rep = Some n ∧ g.1 !! n = Some p ∧
      ∀ a, unmarshal p = Some a → released cs g n (RunID a)
  | _ => True
  end.

(** What it learns from the answer. *)
Definition nlearned (cs : list ncall) (g : facts) (c : ncmd) : answer c → Prop :=
  match c with
  | GetInflight r => λ x, ∀ e rev, x = Ok (Some e, rev) → entry_ok g r e
  | GetCanceled r => λ x, x = true → CCancel r ∈ cs
  | Fetch _ => λ x, ∀ d, x = FetchMsg d →
      g.1 !! d_seq d = Some (d_data d) ∧ js_seq (d_reply d) = Some (d_seq d) ∧
      ∀ n, d_num d = Some n → (d_seq d, n) ∈ g.2
  | _ => λ _, True
  end.

Lemma released_mono cs cs' g g' n r : cs ⊆ cs' → grows g g' → released cs g n r → released cs' g' n r.
Proof. intros Hc [_ Hg] [?|(γ&?&?)]; [left; by apply Hc|right]. exists γ. split; [by apply Hc|by apply Hg]. Qed.

Lemma entry_ok_mono g g' r e : grows g g' → entry_ok g r e → entry_ok g' r e.
Proof.
  intros [Hl Hg] (n&p&a&?&?&?&?&?). exists n, p, a. split; [done|]. split; [by eapply lookup_weaken|].
  split; [done|]. split; [done|]. by apply Hg.
Qed.

Lemma nallowed_mono cs cs' g g' c : cs ⊆ cs' → grows g g' → nallowed cs g c → nallowed cs' g' c.
Proof.
  intros Hc Hg. destruct c; simpl; eauto using entry_ok_mono.
  intros Hp Hs. destruct (Hp Hs) as (n&p&?&?&Hr). exists n, p. split; [done|].
  split; [by eapply lookup_weaken; [|apply Hg]|]. intros a Ha. eauto using released_mono.
Qed.

Context `{!JetStreamOk} `{!KeyValueOk entry_value} `{!KeyValueOk unit}.
#[local] Set Default Proof Using "All".

(** A command with no effect on the history. *)
Lemma keep cs g s s' : ninv cs g s → hist s' = hist s →
  (∀ n, js_msg (jobs s') n = js_msg (jobs s) n) → js_last (jobs s') = js_last (jobs s) →
  (∀ r e rev, kv_Get (inflight s') r = Some (Some e, rev) → entry_ok g r e) →
  (∀ r, is_Some (kv_Get (canceled s') r) → CCancel r ∈ cs) → ninv cs g s'.
Proof.
  intros [Hh Hm Hb Hk _ _] Hs Hmsg Hlast He Hc. assert (h_log s' = h_log s) as Hl by (by injection Hs).
  split; try done; try congruence.
  - intros n subj p. rewrite Hmsg, Hl. apply Hm.
  - intros n p. rewrite Hl, Hlast. apply Hb.
  - intros n p a. rewrite Hl, Hmsg. apply Hk.
Qed.

(** A write that may not have reached the service. *)
Lemma write_keep cs g o f s :
  ninv cs g s → (∀ s', f s = Some s' → ninv cs g s') → ninv cs g (write_cmd o f s).1.
Proof. intros Hi Hf. unfold write_cmd. destruct (f s); [|done]. destruct o; simpl; auto. Qed.

Lemma fetch_keep cs g s name s' d : ninv cs g s → fetch_job name s = Some (s', d) →
  grows g (hist s') ∧ ninv cs (hist s') s' ∧
  (hist s').1 !! d_seq d = Some (d_data d) ∧ js_seq (d_reply d) = Some (d_seq d) ∧
  ∀ n, d_num d = Some n → (d_seq d, n) ∈ (hist s').2.
Proof.
  intros Hi. unfold fetch_job. destruct (js_Fetch (jobs s) name) as [[j d']|] eqn:E; [|done].
  destruct (js_fetch_ok _ _ _ _ E) as (Hmsg&Hlast&(subj&Hd)&Hr&_). intros [= <- ->].
  destruct Hi as [-> Hm Hb Hk He Hc]. set (s' := mkNats _ _ _ _ _).
  assert (grows (hist s) (hist s')) as Hg.
  { split; [done|]. simpl. destruct (d_num d); [set_solver|done]. }
  split; [done|]. split.
  - split; simpl; try done.
    + intros n su p. rewrite Hmsg. apply Hm.
    + intros n p. rewrite Hlast. apply Hb.
    + intros n p a Hp Ha. rewrite Hmsg. destruct (Hk _ _ _ Hp Ha); [by left|right]. by eapply released_mono.
    + intros. by eapply entry_ok_mono, He.
  - split; [by eapply Hm|]. split; [done|]. intros n Hn. simpl. rewrite Hn. left.
Qed.

Lemma publish_keep cs g s subj p : ninv cs g s →
  grows g (hist (publish_job subj p s)) ∧ ninv cs (hist (publish_job subj p s)) (publish_job subj p s).
Proof.
  intros [-> Hm Hb Hk He Hc]. unfold publish_job. destruct (js_Publish (jobs s) subj p) as [j n] eqn:E.
  destruct (js_publish_ok _ _ _ _ _ E) as (Hlt&Hlast&Hmsg).
  assert (h_log s !! n = None) as Hn.
  { destruct (h_log s !! n) eqn:E1; [|done]. apply Hb in E1. lia. }
  set (s' := mkNats _ _ _ _ _). assert (grows (hist s) (hist s')) as Hg.
  { split; [by apply insert_subseteq|done]. }
  split; [done|]. split; simpl; try done.
  - intros m su q. rewrite Hmsg. case_decide; subst; [intros [= <- <-]; by rewrite lookup_insert_eq|].
    rewrite lookup_insert_ne by done. apply Hm.
  - intros m q. rewrite Hlast. intros [[<- <-]|[_ Hq]]%lookup_insert_Some; [lia|]. apply Hb in Hq. lia.
  - intros m q a. rewrite Hmsg. intros [[<- <-]|[Hne Hq]]%lookup_insert_Some Ha.
    + left. rewrite decide_True by done. by eexists.
    + rewrite decide_False by done. destruct (Hk _ _ _ Hq Ha); [by left|right]. by eapply released_mono.
  - intros. by eapply entry_ok_mono, He.
Qed.

Lemma post_keep cs g s rep sig : ninv cs g s → nallowed cs g (Post rep sig) →
  ninv cs g (set_jobs (js_post (jobs s) rep sig) s).
Proof.
  intros [-> Hm Hb Hk He Hc] Ha. destruct (js_post_ok (jobs s) rep sig) as [Hlast Hmsg].
  split; simpl; try done.
  - intros n subj p Hp. destruct (Hmsg n) as [Hs|(_&_&Hs)]; rewrite Hs in Hp; [by eapply Hm|done].
  - intros n p. rewrite Hlast. apply Hb.
  - intros n p a Hp Hu. destruct (Hmsg n) as [->|(Hset&Hr&_)]; [by eapply Hk|]. right.
    destruct (Ha Hset) as (n'&p'&Hn'&Hp'&Hrel). simpl in Hp'. simplify_eq. by apply Hrel.
Qed.

Lemma nexec cs g s o c : ninv cs g s → nallowed cs g c →
  ∃ g', grows g g' ∧ ninv cs g' (exec o c s).1 ∧ nlearned cs g' c (exec o c s).2.
Proof.
  intros Hi Ha.
  assert (Hsame : ninv cs g (exec o c s).1 → (nlearned cs g c (exec o c s).2) →
    ∃ g', grows g g' ∧ ninv cs g' (exec o c s).1 ∧ nlearned cs g' c (exec o c s).2)
    by (intros ? ?; by exists g).
  pose proof Hi as [Hh Hm Hb Hk He Hc]. destruct c; simpl in *.
  - apply Hsame; [done|]. intros e rev. destruct o; [|done..].
    destruct (kv_Get (inflight s) k) as [[v r']|] eqn:E; [|done]. intros [= -> ->]. by eapply He.
  - apply Hsame; [|done]. apply write_keep; [done|]. intros s' [= <-].
    apply (keep cs g s); try done. simpl. intros r e' rev Hg.
    pose proof (kv_put_get (inflight s) k (Some e) r) as Hp. rewrite Hg in Hp. simpl in Hp.
    case_decide; subst; [by simplify_eq|]. destruct (kv_Get (inflight s) r) as [[v r']|] eqn:E; [|done].
    simpl in Hp. simplify_eq. by eapply He.
  - apply Hsame; [|done]. apply write_keep; [done|]. intros s'.
    destruct (kv_Update (inflight s) k (Some e) rev) as [m|] eqn:E; [|done].
    intros [= <-]. apply (keep cs g s); try done. simpl. intros r e' rev' Hg.
    pose proof (kv_update_get _ _ _ _ _ r E) as Hp. rewrite Hg in Hp. simpl in Hp.
    case_decide; subst; [by simplify_eq|]. destruct (kv_Get (inflight s) r) as [[v r']|] eqn:E'; [|done].
    simpl in Hp. simplify_eq. by eapply He.
  - apply Hsame; [|done]. apply write_keep; [done|]. intros s'.
    destruct (kv_Delete (inflight s) k rev) as [m|] eqn:E; [|done].
    intros [= <-]. apply (keep cs g s); try done. simpl. intros r e' rev' Hg.
    rewrite (kv_delete_get _ _ _ _ r E) in Hg. case_decide; [done|]. by eapply He.
  - by apply Hsame.
  - apply Hsame; [done|]. intros Hx. destruct o; try done. by apply bool_decide_eq_true in Hx as ?%Hc.
  - apply Hsame; [|done]. apply write_keep; [done|]. intros s' [= <-].
    apply (keep cs g s); try done. simpl. intros r [v Hv].
    pose proof (kv_put_get (canceled s) k tt r) as Hp. rewrite Hv in Hp. simpl in Hp.
    case_decide; [by subst|]. apply Hc. by destruct (kv_Get (canceled s) r).
  - apply Hsame; [|done]. apply write_keep; [done|]. intros s'.
    destruct (js_CreateConsumer (jobs s) name filter) as [j|] eqn:E; [|done].
    intros [= <-]. destruct (js_create_ok _ _ _ _ E). by apply (keep cs g s).
  - destruct (publish_keep cs g s subject p Hi). unfold write_cmd. destruct o; simpl; by eauto.
  - destruct (fetch_job consumer s) as [[s' d]|] eqn:E.
    + destruct (fetch_keep _ _ _ _ _ _ Hi E) as (?&?&?).
      destruct o; simpl; [|by exists (hist s')|by exists g].
      exists (hist s'). split; [done|]. split; [done|]. by intros d' [= <-].
    + apply Hsame; [done|]. by destruct o.
  - apply Hsame; [|done]. apply write_keep; [done|]. intros s' [= <-]. by apply post_keep.
  - by apply Hsame.
Qed.

(** ** Every call is safe *)

Definition sound (cs : list ncall) (g : facts) {A} (p : prog ncmd A) : Prop :=
  safe grows ninv (λ _ _ _, True) cs g p.

Lemma sound_ret cs g {A} (a : A) : sound cs g (Ret a).
Proof. done. Qed.

Lemma sound_do cs g {A} c (k : answer c → prog ncmd A) :
  nallowed cs g c →
  (∀ cs' g' x, cs ⊆ cs' → grows g g' → nlearned cs' g' c x → sound cs' g' (k x)) →
  sound cs g (Do c k).
Proof. apply (safe_do grows ninv nallowed nlearned nallowed_mono nexec). Qed.

(** A command anyone may send and whose answer teaches nothing needed. *)
Lemma sound_any cs g {A} c (k : answer c → prog ncmd A) :
  nallowed cs g c → (∀ cs' g' x, cs ⊆ cs' → grows g g' → sound cs' g' (k x)) → sound cs g (Do c k).
Proof. intros Ha Hk. apply sound_do; [done|]. auto. Qed.

Lemma sound_bind cs g {A B} (p : prog ncmd A) (f : A → prog ncmd B) :
  (∀ cs' g' a, cs ⊆ cs' → grows g g' → sound cs' g' (f a)) → sound cs g p → sound cs g (bind p f).
Proof.
  intros Hf Hp. apply (safe_bind grows ninv). revert cs g Hp Hf. induction p as [a|c k IH]; intros cs g; simpl.
  - intros _ Hf cs' g' ? ?. by apply Hf.
  - intros Hp Hf cs1 g1 s o Hc1 H1 Hi. destruct (Hp cs1 g1 s o Hc1 H1 Hi) as (g2&H2&?&?).
    exists g2. split; [done|]. split; [done|]. apply IH; [done|]. intros cs' g' a ? ?.
    apply Hf; [by etrans|]. by do 2 (etrans; [done|]).
Qed.

Lemma sound_finish cs g {A} (p : prog ncmd A) : sound cs g p → sound cs g (finish p).
Proof. apply sound_bind. intros. apply sound_ret. Qed.

Lemma sound_consumerFor cs g consumers kind : sound cs g (consumerFor consumers kind).
Proof.
  unfold consumerFor. case_bool_decide; [apply sound_ret|]. apply sound_any; [done|].
  intros ? ? [] ? ?; apply sound_ret.
Qed.

Lemma sound_Enqueue cs g consumers job : sound cs g (Enqueue consumers job).
Proof.
  unfold Enqueue. destruct (negb _); [apply sound_ret|]. simpl. apply sound_any; [done|].
  intros cs1 g1 [] ? ?; [apply sound_ret|]. apply sound_bind; [|apply sound_consumerFor].
  intros cs2 g2 [c [e|]] ? ?; [apply sound_ret|]. apply sound_any; [done|]. intros. apply sound_ret.
Qed.

Lemma sound_dequeue_loop cs g kind turns : sound cs g (dequeue_loop kind turns).
Proof.
  revert cs g. induction turns as [|[| |now] turns IH]; intros cs g; simpl; try apply sound_ret.
  apply sound_do; [done|]. intros cs1 g1 [| |d] ? ? Hd; [apply sound_ret|apply IH|].
  destruct (Hd d eq_refl) as (Hlog&Hseq&Hnum). destruct (unmarshal (d_data d)) as [job|] eqn:Hu.
  2: { apply sound_any; [|intros; apply IH]. intros _. exists (d_seq d), (d_data d). split; [done|].
       split; [done|]. by rewrite Hu. }
  destruct (negb _). { apply sound_any; [done|]. intros. apply sound_ret. }
  apply sound_do; [done|]. intros cs2 g2 c ? Hg2 Hc. destruct c; simpl.
  - apply sound_any; [|intros; apply IH]. intros _. exists (d_seq d), (d_data d). split; [done|].
    split; [eapply lookup_weaken; [done|apply Hg2]|]. rewrite Hu. intros a [= <-]. left. by apply Hc.
  - destruct (d_num d) as [n|] eqn:Hn; [|apply sound_ret]. apply sound_any; [|intros; apply sound_ret].
    apply (entry_ok_mono g1); [done|]. exists (d_seq d), (d_data d), job. split_and!; try done. by apply Hnum.
Qed.

Lemma sound_Dequeue cs g consumers kind turns : sound cs g (Dequeue consumers kind turns).
Proof.
  unfold Dequeue. apply sound_bind; [|apply sound_consumerFor]. intros cs1 g1 [c [e|]] ? ?; [apply sound_ret|].
  apply sound_bind; [intros; apply sound_ret|]. apply sound_dequeue_loop.
Qed.

(** The calls that first read the run's entry. *)
Lemma sound_get cs g {A} r (k : res kv_error (entry_value * Z) → prog ncmd A) :
  (∀ cs' g' x, cs ⊆ cs' → grows g g' → (∀ e rev, x = Ok (Some e, rev) → entry_ok g' r e) → sound cs' g' (k x)) →
  sound cs g (Do (GetInflight r) k).
Proof. intros Hk. by apply sound_do. Qed.

Lemma sound_Ack cs g r γ : CAck r γ ∈ cs → sound cs g (Ack r γ).
Proof.
  intros Hin. unfold Ack. destruct (negb _); [apply sound_ret|]. simpl. apply sound_get.
  intros cs1 g1 [[[e|] rev]|er] Hc ? Hx; simpl; try apply sound_ret.
  destruct (EGeneration e =? γ) eqn:E; [|apply sound_ret]. apply Z.eqb_eq in E. simpl.
  destruct (Hx e rev eq_refl) as (n&p&a&Hs&Hp&Ha&<-&Hd). apply sound_any.
  - intros _. exists n, p. split; [done|]. split; [done|]. rewrite Ha. intros a' [= <-]. right. exists γ.
    split; [by apply Hc|]. by rewrite <- E.
  - intros ? ? [] ? ?; [|apply sound_ret]. apply sound_any; [done|]. intros. apply sound_ret.
Qed.

Lemma sound_Renew cs g now r γ : sound cs g (Renew now r γ).
Proof.
  unfold Renew. destruct (negb _); [apply sound_ret|]. simpl. apply sound_get.
  intros cs1 g1 [[[e|] rev]|er] ? ? Hx; simpl; try apply sound_ret.
  destruct (EGeneration e =? γ); [|apply sound_ret]. simpl. apply sound_any; [done|].
  intros cs2 g2 [] ? ?; [|apply sound_ret]. apply sound_any; [|intros; apply sound_ret].
  apply (entry_ok_mono g1); [done|]. by apply (Hx e rev).
Qed.

Lemma sound_LookupInflight cs g r : sound cs g (LookupInflight r).
Proof. unfold LookupInflight. destruct (negb _); [apply sound_ret|]. apply sound_any; [done|]. intros. apply sound_ret. Qed.

Lemma sound_Nack cs g r γ : sound cs g (Nack r γ).
Proof.
  unfold Nack. destruct (negb _); [apply sound_ret|]. apply sound_get.
  intros cs1 g1 [[[e|] rev]|[]] ? ? Hx; simpl; try apply sound_ret.
  destruct (negb _); [apply sound_ret|]. apply sound_any; [done|]. intros ? ? [] ? ?; [|apply sound_ret].
  apply sound_any; [done|]. intros. apply sound_ret.
Qed.

Lemma sound_mark cs g r (k : bool → prog ncmd (option go_error)) :
  CCancel r ∈ cs → (∀ b, ∃ x, k b = Ret x) → sound cs g (Do (PutCanceled r) k).
Proof. intros Hin Hk. apply sound_any; [done|]. intros ? ? b ? ?. destruct (Hk b) as [x ->]. apply sound_ret. Qed.

Lemma sound_Cancel cs g r : CCancel r ∈ cs → sound cs g (Cancel r).
Proof.
  intros Hin. unfold Cancel. destruct (negb _); [apply sound_ret|].
  assert (Hmark : ∀ cs' g', cs ⊆ cs' → sound cs' g' (@Do ncmd nats_commands _ (PutCanceled r)
    (λ ok : bool, Ret (if ok then None else Some ErrBackend)))).
  { intros cs' g' Hc. apply sound_mark; [by apply Hc|]. intros b. by eexists. }
  apply sound_get. intros cs1 g1 [[[e|] rev]|er] Hc ? Hx; simpl; [| |by apply Hmark].
  - destruct (Hx e rev eq_refl) as (n&p&a&Hs&Hp&Ha&<-&Hd). apply sound_any.
    { intros _. exists n, p. split; [done|]. split; [done|]. rewrite Ha. intros a' [= <-]. left. by apply Hc. }
    intros cs2 g2 _ ? ?. apply sound_any; [done|]. intros cs3 g3 _ ? ?. apply Hmark. by do 2 (etrans; [done|]).
  - apply sound_any; [done|]. intros cs2 g2 _ ? ?. apply Hmark. by etrans.
Qed.

Lemma sound_reclaim_keys cs g cutoff mr keys n dead : sound cs g (reclaim_keys cutoff mr keys n dead).
Proof.
  revert cs g n dead. induction keys as [|key keys IH]; intros cs g n dead; simpl; [apply sound_ret|].
  apply sound_any; [done|]. intros cs1 g1 [[[e|] rev]|er] ? ?; try apply IH.
  destruct (cutoff <? _); [apply IH|]. destruct (_ && _).
  - apply sound_any; [done|]. intros. destruct (job_or_zero (Job e)). apply IH.
  - apply sound_any; [done|]. intros ? ? [] ? ?; [|apply IH]. apply sound_any; [done|]. intros. apply IH.
Qed.

Lemma sound_body cs g c : c ∈ cs → sound cs g (nbody c).
Proof.
  intros Hin. destruct c; simpl; apply sound_finish.
  - apply sound_Enqueue.
  - apply sound_Dequeue.
  - by apply sound_Ack.
  - apply sound_Renew.
  - apply sound_LookupInflight.
  - apply sound_Nack.
  - by apply sound_Cancel.
  - unfold ReclaimStale. apply sound_any; [done|]. intros ? ? [keys|e] ? ?; [apply sound_reclaim_keys|apply sound_ret].
  - apply sound_any; [done|]. intros. apply sound_ret.
Qed.

Lemma ninv_start cs g c s : ninv cs g s → ninv (cs ++ [c]) g s.
Proof.
  intros [? ? ? Hk ? Hc]. split; try done.
  - intros n p a Hp Ha. destruct (Hk n p a Hp Ha); [by left|right]. eapply released_mono; [|done|done]. set_solver.
  - intros r Hr. apply elem_of_app. left. by apply Hc.
Qed.

Lemma ninv_env cs g e s : ninv cs g s → ∃ g', grows g g' ∧ ninv cs g' (nenv_step e s).
Proof.
  intros Hi. exists g. split; [done|]. destruct e as [|r]; simpl.
  - destruct (js_ackwait_ok (jobs s)). apply (keep cs g s); try done; apply Hi.
  - apply (keep cs g s); try done; simpl; [apply Hi|]. intros r'. rewrite kv_expire_get.
    case_decide; [by intros []|]. apply Hi.
Qed.

(** The service as it is before the first call. *)
Definition fresh (s : Nats) : Prop :=
  h_log s = ∅ ∧ h_delivered s = [] ∧ (∀ n, js_msg (jobs s) n = None) ∧
  (∀ r, kv_Get (inflight s) r = None) ∧ (∀ r, kv_Get (canceled s) r = None).

Lemma ninv_fresh s : fresh s → ninv [] (∅, []) s.
Proof.
  intros (Hl&Hd&Hm&Hi&Hc). split; unfold hist; rewrite ?Hl, ?Hd; try done.
  - intros n subj p. by rewrite Hm.
  - intros r e rev. by rewrite Hi.
  - intros r. rewrite Hc. by intros [].
Qed.

(** C20. On the NATS queue no job is lost.  Whatever the control planes do, command
    by interleaved command, with calls that stop half way, replies that are lost,
    redeliveries and expired cancel markers, a job that was published is still
    stored in the stream, unless its run was canceled or an acknowledgement of the
    run presented the generation of one of that job's own deliveries. *)
Theorem nats_job_not_lost s l n p a :
  fresh s →
  let w := nacts (mkWorld s [] []) l in
  h_log (w_server w) !! n = Some p → unmarshal p = Some a →
  (∃ subj, js_msg (jobs (w_server w)) n = Some (subj, p)) ∨
  CCancel (RunID a) ∈ w_calls w ∨
  ∃ γ, CAck (RunID a) γ ∈ w_calls w ∧ (n, γ) ∈ h_delivered (w_server w).
Proof.
  intros Hf w Hp Ha.
  destruct (pool_invariant nbody nenv_step grows ninv ninv_start sound_body ninv_env
    (∅, []) (mkWorld s [] []) l) as (g&_&Hi&_).
  { split; [by apply ninv_fresh|by constructor]. }
  fold (nacts (mkWorld s [] []) l) in Hi. fold w in Hi.
  destruct (ni_kept _ _ _ Hi n p a Hp Ha) as [[[subj p'] Hm]|[Hr|Hr]]; [left|by right; left|right; right].
  - exists subj. pose proof (ni_msg _ _ _ Hi n subj p' Hm). congruence.
  - by rewrite (ni_hist _ _ _ Hi) in Hr.
Qed.
End steps.
