(* ===== verification/NatsProps.v ===== *)
(** * NATS: the queue contract, and where it ends

    The NATS queue of [Nats] as an instance of the queue contract: calls one at a
    time, whose bucket commands are answered.  When the bucket does not answer, an
    outage is reported as supersession ([nats_outage_reads_as_superseded]); when
    calls interleave, two acknowledgements of one dispatch can both be accepted
    ([nats_ack_not_atomic]). *)

From S2P Require Import Prelude Transport RedisQueue Programs Nats.
Local Open Scope string_scope.
Local Open Scope Z_scope.

Section props.
Context {WR : Wire}.
Context `{!JetStream} `{!KeyValue entry_value} `{!KeyValue unit}.

(** ** Leases *)

Definition value_of (s : Nats) (r : string) : option entry_value := fst <$> kv_Get (inflight s) r.

(** The assignment a stored value tracks. *)
Definition tracked (v : option entry_value) : option RunAssignment :=
  match v with
  | Some (Some e) => match entry_job e with Ok o => o | Err _ => None end
  | _ => None
  end.

Definition lease (s : Nats) (r : string) : option RunAssignment := tracked (value_of s r).

(** Entries are the ones [Dequeue] writes. *)
Definition entry_wf (r : string) (v : entry_value) : Prop :=
  ∃ e p a, v = Some e ∧ Job e = Some p ∧ unmarshal p = Some a ∧ RunID a = r ∧ 1 ≤ EGeneration e.

Definition nats_wf (s : Nats) : Prop := ∀ r v, value_of s r = Some v → entry_wf r v.

Definition same_values (s s' : Nats) : Prop := ∀ r, value_of s' r = value_of s r.

Lemma same_lease s s' : same_values s s' → ∀ r, lease s' r = lease s r.
Proof. intros Hs r. unfold lease. by rewrite Hs. Qed.

Lemma same_wf s s' : same_values s s' → nats_wf s → nats_wf s'.
Proof. intros Hs Hw r v. rewrite Hs. apply Hw. Qed.

Lemma entry_wf_lease r e : entry_wf r (Some e) →
  ∃ a, tracked (Some (Some e)) = Some a ∧ RunID a = r ∧ Generation a = EGeneration e.
Proof.
  intros (e'&p&a&[= <-]&Hj&Ha&Hr&Hg). exists (set_generation (EGeneration e) a). simpl. unfold entry_job.
  rewrite Hj, Ha. destruct (Z.eqb_spec (EGeneration e) 0); [lia|]. done.
Qed.

Context `{!JetStreamOk} `{!KeyValueOk entry_value}.
#[local] Set Default Proof Using "All".

(** Commands that do not write the in-flight bucket. *)
Definition reads_entries (c : ncmd) : bool :=
  match c with PutInflight _ _ | UpdateInflight _ _ _ | DeleteInflight _ _ => false | _ => true end.

Lemma exec_same o c s : reads_entries c = true → same_values s (exec o c s).1.
Proof.
  intros Hc r. unfold value_of. destruct c; try done; simpl; unfold write_cmd, publish_job, fetch_job.
  - by destruct o.
  - destruct (js_CreateConsumer _ _ _); [|done]. by destruct o.
  - destruct (js_Publish _ _ _). by destruct o.
  - destruct (js_Fetch _ _) as [[]|]; by destruct o.
  - by destruct o.
Qed.

Lemma put_value s k e o s' b : exec_nats o (PutInflight k e) s = (s', b) →
  same_values s s' ∧ b = false ∨
  ∀ r, value_of s' r = if decide (k = r) then Some (Some e) else value_of s r.
Proof.
  simpl. unfold write_cmd, value_of. destruct o; intros [= <- <-]; simpl; [right|right|by left];
    intros r; apply kv_put_get.
Qed.

(** ** Dispatch *)

Definition dq_outcome (s s' : Nats) (x : option (res go_error (option RunAssignment))) : Prop :=
  nats_wf s' ∧
  match x with
  | Some (Ok (Some a)) => ∀ r, lease s' r = if decide (RunID a = r) then Some a else lease s r
  | Some (Ok None) | None => ∀ r, lease s' r = lease s r
  | Some (Err _) => True
  end.

Lemma dq_outcome_same s s1 s' x : same_values s s1 → dq_outcome s1 s' x → dq_outcome s s' x.
Proof.
  intros Hs [Hw Hx]. split; [done|]. destruct x as [[[a|]|e]|]; try done; intros r; rewrite Hx;
    [destruct (decide _); [done|]|..]; by apply same_lease.
Qed.

Lemma dispatch_wf s d job n :
  unmarshal (d_data d) = Some job → 1 ≤ n → nats_wf s →
  ∀ now s', (∀ r, value_of s' r = if decide (RunID job = r)
                   then Some (Some (mkEntry (d_reply d) n now (Some (d_data d)))) else value_of s r) →
  nats_wf s' ∧ ∀ r, lease s' r = if decide (RunID job = r) then Some (set_generation n job) else lease s r.
Proof.
  intros Hu Hn Hw now s' Hs'. split.
  - intros r v. rewrite Hs'. case_decide; [|apply Hw]. intros [= <-]. by eexists _, _, job.
  - intros r. unfold lease. rewrite Hs'. case_decide; [|done]. simpl. unfold entry_job. simpl. rewrite Hu.
    destruct (Z.eqb_spec n 0); [lia|done].
Qed.

Lemma fetch_num s name s' d n : fetch_job name s = Some (s', d) → d_num d = Some n → 1 ≤ n.
Proof.
  unfold fetch_job. destruct (js_Fetch (jobs s) name) as [[j d']|] eqn:E; [|done]. intros [= _ ->].
  apply (js_fetch_ok _ _ _ _ E).
Qed.

(** The first command of a call that runs alone. *)
Lemma run_do {A} (c : ncmd) (k : answer c → prog ncmd A) os s :
  run (Do c k) os s =
  run (k (exec_nats (default RFine (head os)) c s).2) (tail os) (exec_nats (default RFine (head os)) c s).1.
Proof. simpl. by destruct (exec_nats _ c s). Qed.

Lemma dequeue_loop_spec kind turns os s : nats_wf s →
  let r := run (dequeue_loop kind turns) os s in dq_outcome s r.1 r.2.
Proof.
  revert os s. induction turns as [|[| |now] turns IH]; intros os s Hw; cbv zeta; try done.
  assert (Hloop : ∀ os s1, same_values s s1 → let r := run (dequeue_loop kind turns) os s1 in dq_outcome s r.1 r.2).
  { intros os1 s1 Hs. eapply dq_outcome_same; [done|]. apply IH. by eapply same_wf. }
  simpl dequeue_loop. rewrite run_do. set (c := consumerName kind). set (o := default RFine (head os)).
  assert (Hs1 : same_values s (exec_nats o (Fetch c) s).1) by (by apply (exec_same o (Fetch c))).
  assert (Hfn : ∀ d n, (exec_nats o (Fetch c) s).2 = FetchMsg d → d_num d = Some n → 1 ≤ n).
  { simpl. intros d n. destruct (fetch_job c s) as [[s2 d2]|] eqn:E; [|by destruct o].
    destruct o; [|done..]. intros [= <-]. by eapply fetch_num. }
  destruct (exec_nats o (Fetch c) s) as [s1 x]. cbn [fst snd] in *.
  assert (Hw1 : nats_wf s1) by (by apply (same_wf s)).
  destruct x as [| |d]; [by split| |]. { by apply Hloop. }
  destruct (unmarshal (d_data d)) as [job|] eqn:Hu.
  2: { rewrite run_do. apply Hloop. intros r. etrans; [|apply Hs1]. apply (exec_same _ (Post _ _)). done. }
  destruct (negb _).
  { rewrite run_do. split; [|by destruct (exec_nats _ _ _).2].
    apply (same_wf s1); [|done]. by apply (exec_same _ (Post _ _)). }
  unfold isCanceled. simpl bind. rewrite run_do. cbn [exec_nats fst snd].
  destruct (match default RFine _ with RFine => _ | _ => _ end).
  { rewrite run_do. apply Hloop. intros r. etrans; [|apply Hs1]. apply (exec_same _ (Post _ _)). done. }
  destruct (d_num d) as [n|] eqn:Hn; [|by split]. rewrite run_do.
  eapply dq_outcome_same; [done|]. set (o2 := default RFine _).
  destruct (exec_nats o2 _ s1) as [s2 b] eqn:Hput. apply put_value in Hput.
  destruct Hput as [[Hs2 ->]|Hv]; [split; [by apply (same_wf s1)|done]|].
  destruct (dispatch_wf s1 d job n Hu ltac:(eauto) Hw1 now s2 Hv) as [Hw2 Hl2]. by destruct b; split.
Qed.

(** ** The fence *)

Definition fence (s : Nats) (r : string) (g : Z) : bool :=
  match value_of s r with Some (Some e) => EGeneration e =? g | _ => false end.

Lemma fence_lease s r g : nats_wf s →
  fence s r g = match lease s r with Some a => Generation a =? g | None => false end.
Proof.
  intros Hw. unfold fence, lease. destruct (value_of s r) as [v|] eqn:E; [|done].
  pose proof (Hw _ _ E) as Hv. destruct v as [e|]; [|by destruct Hv as (?&?&?&?&_)].
  destruct (entry_wf_lease r e Hv) as (a&Ha&_&Hg). simpl in *. by rewrite Ha, Hg.
Qed.

(** The values after deleting run [r]'s entry. *)
Definition dropped (s s' : Nats) (r : string) : Prop :=
  ∀ r', value_of s' r' = if decide (r = r') then None else value_of s r'.

Lemma dropped_wf s s' r : dropped s s' r → nats_wf s → nats_wf s'.
Proof. intros Hd Hw r' v. rewrite Hd. case_decide; [done|apply Hw]. Qed.

Lemma dropped_lease s s' r : dropped s s' r → ∀ r', lease s' r' = if decide (r = r') then None else lease s r'.
Proof. intros Hd r'. unfold lease. rewrite Hd. by case_decide. Qed.

Lemma set_jobs_same j s : same_values s (set_jobs j s).
Proof. by intros r. Qed.

Lemma delete_fine s j r v rev :
  kv_Get (inflight s) r = Some (v, rev) →
  exists s', exec_nats RFine (DeleteInflight r rev) (set_jobs j s) = (s', true) ∧ dropped s s' r.
Proof.
  intros Hg. destruct (kv_delete_hit _ _ _ _ Hg) as [m Hm]. simpl. unfold write_cmd. simpl. rewrite Hm. simpl.
  eexists. split; [done|]. intros r'. unfold value_of. simpl. rewrite (kv_delete_get _ _ _ _ r' Hm).
  by case_decide.
Qed.

Lemma update_fine s j r e rev now :
  nats_wf s → kv_Get (inflight s) r = Some (Some e, rev) →
  exists s', exec_nats RFine (UpdateInflight r (touch now e) rev) (set_jobs j s) = (s', true) ∧
    nats_wf s' ∧ ∀ r', lease s' r' = lease s r'.
Proof.
  intros Hw Hg. destruct (kv_update_hit (V:=entry_value) _ _ _ (Some (touch now e)) _ Hg) as [m Hm].
  simpl. unfold write_cmd. simpl. rewrite Hm. simpl. eexists. split; [done|].
  assert (Hv : ∀ r', value_of (set_inflight m (set_jobs j s)) r' =
    if decide (r = r') then Some (Some (touch now e)) else value_of s r').
  { intros r'. unfold value_of. simpl. apply (kv_update_get _ _ _ _ _ _ Hm). }
  assert (Hr : value_of s r = Some (Some e)) by (unfold value_of; by rewrite Hg).
  split.
  - intros r' v. rewrite Hv. case_decide; [|apply Hw]. subst. intros [= <-].
    destruct (Hw _ _ Hr) as (e'&p&a&[= <-]&?&?&?&?). by exists (touch now e), p, a.
  - intros r'. unfold lease. rewrite Hv. case_decide; [|done]. subst. rewrite Hr. done.
Qed.

(** Calls one at a time: the bucket answers, a publish to a reply subject may
    fail. *)
Definition fates (post : reply) : list reply := [RFine; post; RFine].

Lemma get_entry s r : nats_wf s →
  (∃ e rev, kv_Get (inflight s) r = Some (Some e, rev) ∧ value_of s r = Some (Some e)) ∨
  kv_Get (inflight s) r = None ∧ value_of s r = None.
Proof.
  intros Hw. pose proof (Hw r) as Hr. unfold value_of in *. destruct (kv_Get (inflight s) r) as [[v rev]|]; [|by right].
  left. destruct (Hr v eq_refl) as (e&?&?&->&_). by exists e, rev.
Qed.

Lemma Ack_alone post r g s : nats_wf s →
  let x := run (Ack r g) (fates post) s in
  nats_wf x.1 ∧
  match x.2 with
  | Ok true => fence s r g = true ∧ dropped s x.1 r
  | Ok false => fence s r g = false ∧ same_values s x.1
  | Err _ => same_values s x.1
  end.
Proof.
  intros Hw. cbv zeta. unfold Ack. destruct (negb _); [by split|]. unfold fenced. simpl bind. rewrite run_do.
  cbn [fates head tail from_option id exec_nats fst snd]. unfold fence.
  destruct (get_entry s r Hw) as [(e&rev&Hg&Hv)|[Hg Hv]]; rewrite Hg, Hv; cbv beta iota; [|simpl; rewrite ?Eg; split_and?; done].
  destruct (EGeneration e =? g) eqn:Eg; [|simpl; rewrite ?Eg; split_and?; done]. rewrite run_do.
  destruct post; cbn [head tail from_option id]; try (simpl; rewrite ?Eg; split_and?; done).
  assert (exec_nats RFine (Post (Reply e) SigAck) s = (set_jobs (js_post (jobs s) (Reply e) SigAck) s, true)) as -> by done.
  cbn [fst snd]. rewrite run_do. cbn [head tail from_option id].
  destruct (delete_fine s (js_post (jobs s) (Reply e) SigAck) r _ _ Hg) as (s'&->&Hd). cbn [fst snd run].
  rewrite ?Eg. split; [by eapply dropped_wf|done].
Qed.

Lemma Renew_alone post now r g s : nats_wf s →
  let x := run (Renew now r g) (fates post) s in
  nats_wf x.1 ∧ (∀ r', lease x.1 r' = lease s r') ∧
  match x.2 with Ok b => b = fence s r g | Err _ => True end.
Proof.
  intros Hw. cbv zeta. unfold Renew. destruct (negb _); [by split|]. unfold fenced. simpl bind. rewrite run_do.
  cbn [fates head tail from_option id exec_nats fst snd]. unfold fence.
  destruct (get_entry s r Hw) as [(e&rev&Hg&Hv)|[Hg Hv]]; rewrite Hg, Hv; cbv beta iota; [|simpl; rewrite ?Eg; split_and?; done].
  destruct (EGeneration e =? g) eqn:Eg; [|simpl; rewrite ?Eg; split_and?; done]. rewrite run_do.
  destruct post; cbn [head tail from_option id]; try (simpl; rewrite ?Eg; split_and?; done).
  assert (exec_nats RFine (Post (Reply e) SigWpi) s = (set_jobs (js_post (jobs s) (Reply e) SigWpi) s, true)) as -> by done.
  cbn [fst snd]. rewrite run_do. cbn [head tail from_option id].
  by destruct (update_fine s (js_post (jobs s) (Reply e) SigWpi) r e rev now Hw Hg) as (s'&->&Hw'&Hl); simpl; rewrite ?Eg; split_and?.
Qed.

Lemma Nack_alone post r g s : nats_wf s →
  let x := run (Nack r g) (fates post) s in
  nats_wf x.1 ∧
  match x.2 with
  | None => if fence s r g then dropped s x.1 r else same_values s x.1
  | Some _ => same_values s x.1
  end.
Proof.
  intros Hw. cbv zeta. unfold Nack. destruct (negb _); [by split|]. rewrite run_do.
  cbn [fates head tail from_option id exec_nats fst snd]. unfold fence.
  destruct (get_entry s r Hw) as [(e&rev&Hg&Hv)|[Hg Hv]]; rewrite Hg, Hv; cbv beta iota; [|simpl; rewrite ?Eg; split_and?; done].
  destruct (EGeneration e =? g) eqn:Eg; simpl negb; cbv iota; [|simpl; rewrite ?Eg; split_and?; done]. rewrite run_do.
  destruct post; cbn [head tail from_option id]; try (simpl; rewrite ?Eg; split_and?; done).
  assert (exec_nats RFine (Post (Reply e) SigNak) s = (set_jobs (js_post (jobs s) (Reply e) SigNak) s, true)) as -> by done.
  cbn [fst snd]. rewrite run_do. cbn [head tail from_option id].
  destruct (delete_fine s (js_post (jobs s) (Reply e) SigNak) r _ _ Hg) as (s'&->&Hd). cbn [fst snd run].
  rewrite ?Eg. split; [by eapply dropped_wf|done].
Qed.

Lemma consumerFor_same consumers kind os s : same_values s (run (consumerFor consumers kind) os s).1.
Proof.
  unfold consumerFor. case_bool_decide; [done|]. rewrite run_do.
  pose proof (exec_same (default RFine (head os)) (CreateConsumer (consumerName kind) (jobSubject kind)) s eq_refl) as Hs.
  simpl exec in Hs. by destruct (exec_nats _ _ s).2.
Qed.

(** [bind] runs one part after the other; the second gets the fates left over. *)
Lemma run_bind {A B} (p : prog ncmd A) (f : A → prog ncmd B) os s :
  ∃ os', run (bind p f) os s = run (f (run p os s).2) os' (run p os s).1.
Proof.
  revert os s. induction p as [a|c k IH]; intros os s; [by exists os|].
  destruct (IH (exec_nats (default RFine (head os)) c s).2 (tail os) (exec_nats (default RFine (head os)) c s).1)
    as [os' Hos]. exists os'. simpl bind. rewrite !run_do. done.
Qed.

Lemma Dequeue_alone consumers kind turns os s : nats_wf s →
  let x := run (Dequeue consumers kind turns) os s in dq_outcome s x.1 x.2.2.
Proof.
  intros Hw. cbv zeta. unfold Dequeue. pose proof (consumerFor_same consumers kind os s) as Hs.
  destruct (run_bind (consumerFor consumers kind) (λ '(consumers, err),
    match err with
    | Some e => Ret (consumers, Some (Err e))
    | None => bind (dequeue_loop kind turns) (λ o, Ret (consumers, o))
    end) os s) as [os' ->].
  destruct (run (consumerFor consumers kind) os s) as [s1 [c [e|]]]; simpl in Hs; cbn [fst snd].
  - split; [by apply (same_wf s)|done].
  - destruct (run_bind (dequeue_loop kind turns) (λ o, Ret (c, o)) os' s1) as [os2 ->].
    eapply dq_outcome_same; [done|]. simpl. apply dequeue_loop_spec. by apply (same_wf s).
Qed.

(** ** A connection

    The service as one control plane uses it, its cache of consumers and the
    fates of the commands of a call.  A [steady] connection is one whose bucket
    commands are answered. *)
Record NConn (steady : Prop) := mkNConn {
  nc : Nats;
  nc_consumers : gset string;
  nc_fates : list reply;
  nc_steady : steady → nats_wf nc ∧ ∃ post, nc_fates = fates post
}.
#[global] Arguments mkNConn {_} _ _ _ _.
#[global] Arguments nc {_} _.
#[global] Arguments nc_consumers {_} _.
#[global] Arguments nc_fates {_} _.
#[global] Arguments nc_steady {_} _ _.

Section connection.
Context {steady : Prop}.

Lemma nc_run_steady {A} (p : prog ncmd A) (Hp : ∀ s post, nats_wf s → nats_wf (run p (fates post) s).1)
    (c : NConn steady) :
  steady → nats_wf (run (S:=Nats) p (nc_fates c) (nc c)).1 ∧ ∃ post, nc_fates c = fates post.
Proof. intros Hs. destruct (nc_steady c Hs) as [Hw [post Hf]]. rewrite Hf. eauto. Qed.

Definition nc_run {A} (p : prog ncmd A) (Hp : ∀ s post, nats_wf s → nats_wf (run p (fates post) s).1)
    (c : NConn steady) : NConn steady * A :=
  let x := run (S:=Nats) p (nc_fates c) (nc c) in
  (mkNConn x.1 (nc_consumers c) (nc_fates c) (nc_run_steady p Hp c), x.2).

Lemma nc_dequeue_steady turns (os : list reply) (c : NConn steady) kind s cs o :
  run (S:=Nats) (Dequeue (nc_consumers c) kind turns) os (nc c) = (s, (cs, o)) →
  steady → nats_wf s ∧ ∃ post, nc_fates c = fates post.
Proof.
  intros Hr Hs. destruct (nc_steady c Hs) as [Hw Hf].
  pose proof (Dequeue_alone (nc_consumers c) kind turns os (nc c) Hw) as [Hw' _]. rewrite Hr in Hw'. done.
Qed.

Definition nc_of turns (os : list reply) (c : NConn steady) (kind : string)
    (x : Nats * (gset string * option (res go_error (option RunAssignment))))
  : run (S:=Nats) (Dequeue (nc_consumers c) kind turns) os (nc c) = x →
    option (NConn steady * res go_error (option RunAssignment)) :=
  match x with
  | (s, (cs, Some o)) => λ H, Some (mkNConn s cs (nc_fates c) (nc_dequeue_steady _ _ _ _ _ _ _ H), o)
  | _ => λ _, None
  end.

Definition nc_Dequeue (_ : Z) (wait : list dq_turn * list reply) (c : NConn steady) (kind : string)
  : option (NConn steady * res go_error (option RunAssignment)) := nc_of wait.1 wait.2 c kind _ eq_refl.

Lemma nc_Dequeue_inv now wait c kind c' o :
  nc_Dequeue now wait c kind = Some (c', o) →
  ∃ cs, run (S:=Nats) (Dequeue (nc_consumers c) kind wait.1) wait.2 (nc c) = (nc c', (cs, Some o)).
Proof.
  unfold nc_Dequeue. assert (Hof : ∀ x H, nc_of wait.1 wait.2 c kind x H = Some (c', o) →
    ∃ cs, x = (nc c', (cs, Some o))).
  { intros [s [cs [o1|]]] H1; [|done]. intros [= <- <-]. by exists cs. }
  apply Hof.
Qed.

#[export] Instance Nats_JobQueue : JobQueue (NConn steady) := {|
  jq_wait := list dq_turn * list reply;
  jq_lease c r := lease (nc c) r;
  jq_Dequeue := nc_Dequeue;
  jq_Ack c r g := nc_run (Ack r g) (λ s post Hs, proj1 (Ack_alone post r g s Hs)) c;
  jq_Renew now c r g := nc_run (Renew now r g) (λ s post Hs, proj1 (Renew_alone post now r g s Hs)) c;
  jq_Nack ctxErr c r g :=
    match ctxErr with
    | Some e => (c, Some e)
    | None => nc_run (Nack r g) (λ s post Hs, proj1 (Nack_alone post r g s Hs)) c
    end;
  jq_LookupInflight c r := (run (LookupInflight r) (nc_fates c) (nc c)).2
|}.
End connection.

Lemma nc_Dequeue_outcome (c c' : NConn True) now wait kind o :
  nc_Dequeue now wait c kind = Some (c', o) → dq_outcome (nc c) (nc c') (Some o).
Proof.
  intros [cs Hr]%nc_Dequeue_inv. destruct (nc_steady c I) as [Hw _].
  pose proof (Dequeue_alone (nc_consumers c) kind wait.1 wait.2 (nc c) Hw) as Hd. by rewrite Hr in Hd.
Qed.

Lemma nats_fence_holds (c : NConn True) r g : fence (nc c) r g = holds c r g.
Proof. apply fence_lease, (nc_steady c I). Qed.

#[export] Instance Nats_JobQueueOk : JobQueueOk (NConn True).
Proof.
  split; simpl.
  - intros c r o. destruct (nc_steady c I) as [Hw [post ->]]. unfold LookupInflight.
    destruct (negb _); [done|]. rewrite run_do. cbn [fates head tail from_option id exec_nats fst snd run].
    unfold lease. destruct (get_entry (nc c) r Hw) as [(e&rev&Hg&Hv)|[Hg Hv]]; rewrite Hg, Hv; [|by intros [= <-]].
    simpl. intros He. by rewrite He.
  - intros c r g c' b. destruct (nc_steady c I) as [Hw [post Hf]]. pose proof (Ack_alone post r g (nc c) Hw) as [_ Ha]. rewrite <- Hf in Ha.
    unfold nc_run. intros [= <- Hb]. rewrite Hb in Ha. rewrite <- nats_fence_holds.
    destruct b; destruct Ha as [-> Hd]; (split; [done|]); intros r'.
    + by apply dropped_lease.
    + by apply same_lease.
  - intros now c r g c' b. destruct (nc_steady c I) as [Hw [post Hf]].
    pose proof (Renew_alone post now r g (nc c) Hw) as (_&Hl&Hx). rewrite <- Hf in Hl, Hx. unfold nc_run. intros [= <- Hb].
    rewrite Hb in Hx. rewrite <- nats_fence_holds. split; [done|]. done.
  - intros [e|] c r g c'; [by intros [=]|]. destruct (nc_steady c I) as [Hw [post Hf]].
    pose proof (Nack_alone post r g (nc c) Hw) as [_ Hx]. rewrite <- Hf in Hx. unfold nc_run. intros [= <- Hb].
    rewrite Hb in Hx. rewrite <- nats_fence_holds. destruct (fence (nc c) r g); intros r';
      [by apply dropped_lease|by apply same_lease].
  - intros now wait c kind c' a Hd%nc_Dequeue_outcome r'. apply Hd.
  - intros now wait c kind c' Hd%nc_Dequeue_outcome r'. apply Hd.
  - intros c r g c' e. destruct (nc_steady c I) as [Hw [post Hf]]. pose proof (Ack_alone post r g (nc c) Hw) as [_ Ha]. rewrite <- Hf in Ha.
    unfold nc_run. intros [= <- Hb]. rewrite Hb in Ha. left. intros r'. by apply same_lease.
  - intros now c r g c' e. destruct (nc_steady c I) as [Hw [post Hf]].
    pose proof (Renew_alone post now r g (nc c) Hw) as (_&Hl&_). rewrite <- Hf in Hl. unfold nc_run. intros [= <- Hb].
    done.
Qed.

(** The NATS queue honours the queue contract the bridge relies on, for calls
    made one at a time whose bucket commands are answered: leases change exactly
    as acknowledgements, renewals, returns and dispatches say, fencing is exact,
    and a failed publish to the reply subject leaves the lease alone. *)
Theorem nats_queue_ok : JobQueueOk (NConn True).
Proof. apply Nats_JobQueueOk. Qed.

(** When the in-flight bucket does not answer, [Renew] and [Ack] report that the
    caller, who holds the lease, has been superseded, and no error. *)
Theorem nats_outage_reads_as_superseded now r g o os s :
  validateRunID r = true → fence s r g = true → o ≠ RFine →
  run (S:=Nats) (Renew now r g) (o :: os) s = (s, Ok false) ∧
  run (S:=Nats) (Ack r g) (o :: os) s = (s, Ok false) ∧
  (run (S:=Nats) (Renew now r g) [RFine; RFine; o] s).2 = Ok false.
Proof.
  intros Hr Hf Ho. unfold Renew, Ack, fenced. rewrite Hr. simpl. split; [by destruct o|]. split; [by destruct o|].
  unfold fence, value_of in Hf. destruct (kv_Get (inflight s) r) as [[[e|] rev]|] eqn:E; try done.
  simpl in Hf. rewrite Hf. simpl. unfold write_cmd. simpl.
  destruct (kv_Update _ _ _ _) as [m|]; cbn; [|done]. destruct o; done.
Qed.
End props.

(** * NATS: a JetStream in memory, and concrete runs
    The classes of [Nats] instantiated by a small executable service, which
    satisfies their laws; the theorems on the NATS queue applied to it; and the
    interleavings in which the fence of [Ack] is not atomic.  *)

From Stdlib Require Import Ascii.
From S2P Require Import RedisSteps Programs NatsSteps Bridge.
Local Open Scope string_scope.
Local Open Scope Z_scope.

(** ** A key-value bucket *)

Record mem_kv (V : Type) := mkKv { kv_map : gmap string (V * Z); kv_rev : Z }.
Arguments mkKv {V} _ _.
Arguments kv_map {V} _.
Arguments kv_rev {V} _.

Section bucket.
Context {V : Type}.

Definition mem_put (s : mem_kv V) (k : string) (v : V) : mem_kv V :=
  mkKv (<[k := (v, kv_rev s + 1)]> (kv_map s)) (kv_rev s + 1).

Definition at_revision (s : mem_kv V) (k : string) (rev : Z) : bool :=
  bool_decide (snd <$> kv_map s !! k = Some rev).

#[export] Instance mem_keyvalue : KeyValue V := {|
  kv := mem_kv V;
  kv_Get s k := kv_map s !! k;
  kv_Put := mem_put;
  kv_Update s k v rev := if at_revision s k rev then Some (mem_put s k v) else None;
  kv_Delete s k rev := if at_revision s k rev then Some (mkKv (delete k (kv_map s)) (kv_rev s + 1)) else None;
  kv_Keys s := (map_to_list (kv_map s)).*1;
  kv_expire s k := mkKv (delete k (kv_map s)) (kv_rev s + 1)
|}.

Lemma mem_put_get (s : mem_kv V) k v k' :
  fst <$> kv_map (mem_put s k v) !! k' = if decide (k = k') then Some v else fst <$> kv_map s !! k'.
Proof. simpl. case_decide; subst; [by rewrite lookup_insert_eq|by rewrite lookup_insert_ne]. Qed.

Lemma mem_delete_get (m : gmap string (V * Z)) k k' :
  delete k m !! k' = if decide (k = k') then None else m !! k'.
Proof. case_decide; subst; [apply lookup_delete_eq|by apply lookup_delete_ne]. Qed.

Lemma at_revision_hit (s : mem_kv V) k v rev : kv_map s !! k = Some (v, rev) → at_revision s k rev = true.
Proof. intros Hk. unfold at_revision. rewrite Hk. by rewrite bool_decide_true. Qed.

Lemma at_revision_miss (s : mem_kv V) k v rev rev' :
  kv_map s !! k = Some (v, rev) → rev ≠ rev' → at_revision s k rev' = false.
Proof. intros Hk Hne. unfold at_revision. rewrite Hk. apply bool_decide_false. simpl. congruence. Qed.

#[export] Instance mem_keyvalue_ok : KeyValueOk V.
Proof.
  split; simpl.
  - apply mem_put_get.
  - intros s k v0 v rev Hk. by rewrite (at_revision_hit _ _ _ _ Hk).
  - intros s k v rev s' k'. destruct (at_revision s k rev); [|done]. intros [= <-]. apply mem_put_get.
  - intros s k v0 v rev rev' Hk Hne. by rewrite (at_revision_miss _ _ _ _ _ Hk Hne).
  - intros s k v0 rev Hk. by rewrite (at_revision_hit _ _ _ _ Hk).
  - intros s k rev s' k'. destruct (at_revision s k rev); [|done]. intros [= <-]. apply mem_delete_get.
  - intros s k v0 rev rev' Hk Hne. by rewrite (at_revision_miss _ _ _ _ _ Hk Hne).
  - intros s k. rewrite list_elem_of_fmap. split.
    + intros ([k1 v]&->&Hin). apply elem_of_map_to_list in Hin. by eexists.
    + intros [v Hv]. exists (k, v). split; [done|]. by apply elem_of_map_to_list.
  - intros s k k'. apply mem_delete_get.
Qed.
End bucket.

(** ** A stream *)

Record mem_js `{Wire} := mkJs {
  m_msgs : gmap Z (string * payload);
  m_last : Z;
  m_consumers : gmap string string;
  m_num : gmap Z Z;      (* deliveries so far *)
  m_out : gset Z         (* delivered, not settled *)
}.

(** A reply subject names its message by its length. *)
Fixpoint unary (n : nat) : string := match n with O => "" | S n => String "x"%char (unary n) end.
Definition reply_of (n : Z) : string := unary (Z.to_nat n).
Definition seq_of (rep : string) : option Z := Some (Z.of_nat (String.length rep)).

Lemma length_unary n : String.length (unary n) = n.
Proof. induction n; simpl; congruence. Qed.

Section stream.
Context `{Wire}.

Definition mem_fetch (s : mem_js) (name : string) : option (mem_js * delivery) :=
  match m_consumers s !! name with
  | None => None
  | Some f =>
      match find_first (λ n, bool_decide (n ∉ m_out s) && bool_decide (fst <$> m_msgs s !! n = Some f))
              (seqZ 1 (m_last s)) with
      | None => None
      | Some n =>
          match m_msgs s !! n with
          | None => None
          | Some (_, p) =>
              let k := Z.max 0 (default 0 (m_num s !! n)) + 1 in
              Some (mkJs _ (m_msgs s) (m_last s) (m_consumers s) (<[n := k]> (m_num s)) ({[n]} ∪ m_out s),
                    mkDelivery n (reply_of n) p (Some k))
          end
      end
  end.

Definition mem_post (s : mem_js) (rep : string) (g : signal) : mem_js :=
  let n := Z.of_nat (String.length rep) in
  match g with
  | SigAck | SigTerm => mkJs _ (delete n (m_msgs s)) (m_last s) (m_consumers s) (m_num s) (m_out s ∖ {[n]})
  | SigNak | SigNakDelay => mkJs _ (m_msgs s) (m_last s) (m_consumers s) (m_num s) (m_out s ∖ {[n]})
  | SigWpi => s
  end.

Definition mem_create (s : mem_js) (name f : string) : option mem_js :=
  if bool_decide (default f (m_consumers s !! name) = f)
  then Some (mkJs _ (m_msgs s) (m_last s) (<[name := f]> (m_consumers s)) (m_num s) (m_out s)) else None.

Definition mem_publish (s : mem_js) (subj : string) (p : payload) : mem_js * Z :=
  (mkJs _ (<[m_last s + 1 := (subj, p)]> (m_msgs s)) (m_last s + 1) (m_consumers s) (m_num s) (m_out s), m_last s + 1).

#[export] Instance mem_jetstream : JetStream := {|
  js := mem_js;
  js_msg s n := if n <=? m_last s then m_msgs s !! n else None;
  js_last s := m_last s;
  js_seq := seq_of;
  js_CreateConsumer := mem_create;
  js_Publish := mem_publish;
  js_Fetch := mem_fetch;
  js_post := mem_post;
  js_pending s := (λ kv, (kv.1, 0)) <$> map_to_list (m_consumers s);
  js_ackwait s := mkJs _ (m_msgs s) (m_last s) (m_consumers s) (m_num s) ∅
|}.

#[export] Instance mem_jetstream_ok : JetStreamOk.
Proof.
  split; simpl.
  - intros s n m. destruct (Z.leb_spec n (m_last s)); [done|done].
  - intros s name f s'. unfold mem_create. case_bool_decide; [|done]. by intros [= <-].
  - intros s subj p s' n [= <- <-]. simpl. split; [lia|]. split; [done|]. intros m.
    case_decide as Hm; [subst; by rewrite Z.leb_refl, lookup_insert_eq|]. rewrite lookup_insert_ne by done.
    destruct (Z.leb_spec m (m_last s)); destruct (Z.leb_spec m (m_last s + 1)); try done; lia.
  - intros s name s' d. unfold mem_fetch. destruct (m_consumers s !! name) as [f|]; [|done].
    destruct (find_first _ _) as [n|] eqn:Hf; [|done]. apply find_first_Some in Hf as [Hin _].
    destruct (m_msgs s !! n) as [[subj p]|] eqn:Hn; [|done]. intros [= <- <-]. simpl.
    apply elem_of_seqZ in Hin. split; [done|]. split; [done|]. split.
    + exists subj. destruct (Z.leb_spec n (m_last s)); [done|lia].
    + unfold seq_of, reply_of. rewrite length_unary, Z2Nat.id by lia. split; [done|]. intros k [= <-]. lia.
  - done.
  - intros s rep g. split; [by destruct g|]. intros n. destruct g; simpl; try (by left);
      (destruct (decide (Z.of_nat (String.length rep) = n)) as [<-|Hne];
       [right; rewrite lookup_delete_eq; unfold seq_of; by destruct (_ <=? _)|left; by rewrite lookup_delete_ne]).
Qed.
End stream.

Arguments mkJs {_} _ _ _ _ _.

#[local] Existing Instances plain_wire plain_wire_ok.

Definition empty_nats : Nats := mkNats (mkJs ∅ 0 ∅ ∅ ∅) (mkKv ∅ 0) (mkKv ∅ 0) ∅ [].

Lemma empty_fresh : fresh empty_nats.
Proof. unfold fresh, empty_nats. simpl. split; [done|]. split; [done|]. split; [intros n; by destruct (n <=? 0)|done]. Qed.

(** ** One job: published, dispatched *)

Definition job1 : RunAssignment := plain_job "run-1" 1.

Definition steps (i n : nat) : list (act Nats ncall nenv) := replicate n (Step i RFine).

Definition publish_one : list (act Nats ncall nenv) := Start (CEnqueue ∅ job1) :: steps 0 3.

(** The dispatcher crashes after its fetch; the ack timer ends; a second
    dispatcher, whose reply is lost, records the job. *)
Definition crash_history : list (act Nats ncall nenv) :=
  (publish_one ++ Start (CDequeue {[kind]} kind [DqTry 5]) :: steps 1 1 ++
   [Env AckWait; Start (CDequeue {[kind]} kind [DqTry 6])] ++ steps 2 2 ++ [Step 2 RLost])%list.

Lemma nats_job_not_lost_witness :
  let w := nacts (mkWorld empty_nats [] []) crash_history in
  h_log (w_server w) !! 1 = Some (pay 1) ∧ lease (w_server w) "run-1" = Some (plain_job "run-1" 2) ∧
  ((∃ subj, js_msg (jobs (w_server w)) 1 = Some (subj, pay 1)) ∨
   CCancel "run-1" ∈ w_calls w ∨ ∃ γ, CAck "run-1" γ ∈ w_calls w ∧ (1, γ) ∈ h_delivered (w_server w)).
Proof.
  split; [vm_compute; reflexivity|]. split; [vm_compute; reflexivity|].
  apply (nats_job_not_lost empty_nats crash_history 1 (pay 1) job1);
    [apply empty_fresh|vm_compute; reflexivity|reflexivity].
Defined.

Lemma nats_queue_ok_witness : JobQueueOk (NConn True).
Proof. apply nats_queue_ok. Defined.

(** The service with [run-1] dispatched at generation 1. *)
Definition dispatched : Nats :=
  w_server (nacts (mkWorld empty_nats [] []) (publish_one ++ Start (CDequeue {[kind]} kind [DqTry 5]) :: steps 1 3)).

Lemma nats_outage_reads_as_superseded_witness :
  validateRunID "run-1" = true ∧ fence dispatched "run-1" 1 = true ∧
  run (S:=Nats) (Renew 9 "run-1" 1) [RDown] dispatched = (dispatched, Ok false).
Proof.
  split; [reflexivity|]. split; [vm_compute; reflexivity|].
  apply (nats_outage_reads_as_superseded 9 "run-1" 1 RDown [] dispatched);
    [reflexivity|vm_compute; reflexivity|discriminate].
Defined.

(** ** The bridge over an unsteady connection *)

Section bridge.
Context {WR : Wire} `{!JetStream} `{!KeyValue entry_value} `{!KeyValue unit}.
Context `{!JetStreamOk} `{!KeyValueOk entry_value}.
Context {D : Type} (completionCallback : option (D → Completion.RunCompletion → D * option bool)).
Context (statusCallback : option (D → string → string → string → D)).
#[local] Set Default Proof Using "All".

(** A final report is dropped when one bucket write fails.  The runner holds
    the lease, the connection answers every read, and only the write that renews
    the lease is not acknowledged: the bridge tells the runner it was superseded,
    as if its report were accepted and void, and the completion is not
    persisted. *)
Theorem nats_outage_drops_report now (s : Server (Q := NConn False) (S := D)) req a o :
  let r := ReqRunId req in
  Completion.TerminalRunStatus (ReqStatus req) = true →
  validateRunID r = true → nats_wf (nc (queue s)) →
  jq_lease (queue s) r = Some a → Generation a = ReqGeneration req → RunnerKind a ≠ "" →
  nc_fates (queue s) = [RFine; RFine; o] → o ≠ RFine →
  let out := ReportStatus completionCallback statusCallback now (RunnerKind a) s req in
  out.2 = Ok superseded ∧ durable out.1 = durable s.
Proof.
  intros r Hterm Hr Hw Hl Hg Hk Hf Ho out.
  assert (Hfence : fence (nc (queue s)) r (ReqGeneration req) = true).
  { rewrite fence_lease by done. simpl in Hl. rewrite Hl, Hg. apply Z.eqb_refl. }
  assert (Hlook : requireRunOwner s (RunnerKind a) r = Ok (Some a)).
  { unfold requireRunOwner. simpl. rewrite Hf. unfold LookupInflight. rewrite Hr. simpl.
    simpl in Hl. unfold lease, value_of in Hl.
    destruct (get_entry (nc (queue s)) r Hw) as [(e&rev&He&Hv)|[He Hv]]; unfold value_of in Hv; rewrite He in *; [|done].
    simpl in *. destruct (entry_job e) as [oa|] eqn:Ee; [|done]. simpl in Hl. subst oa.
    unfold requireRunnerKind. rewrite String.eqb_refl. by destruct (String.eqb_spec (RunnerKind a) ""). }
  unfold out, ReportStatus. rewrite Hterm. simpl negb. cbv iota. fold r. rewrite Hlook.
  destruct (nats_outage_reads_as_superseded now r (ReqGeneration req) o [] (nc (queue s)) Hr Hfence Ho) as (_&_&Hren).
  simpl jq_Renew. unfold nc_run. rewrite <- Hf in Hren. cbv zeta. by rewrite Hren.
Qed.
End bridge.

Definition flaky : NConn False := mkNConn dispatched {[kind]} [RFine; RFine; RDown] (False_ind _).

Definition flaky_server : Server (Q := NConn False) (S := nat) := mkServer flaky 0%nat Broker.NewCancelBus ∅ ∅.

Lemma dispatched_wf : nats_wf dispatched.
Proof.
  intros r v. unfold value_of. destruct (decide (r = "run-1")) as [->|Hne].
  - vm_compute. intros [= <-]. by eexists _, ("run-1", 1), (plain_job "run-1" 1).
  - replace (kv_Get (inflight dispatched) r) with (None : option (entry_value * Z)); [done|].
    assert (inflight dispatched = mkKv {[ "run-1" := (Some (mkEntry (reply_of 1) 1 5 (Some (pay 1))), 1) ]} 1) as ->
      by (vm_compute; reflexivity).
    simpl. by rewrite lookup_singleton_ne.
Qed.

Definition final_report : ReportStatusRequest := mkRequest "run-1" 1 Completion.RunStatusSuccess "".

Lemma nats_outage_drops_report_witness :
  let out := ReportStatus (Some accept_completion) None 9 kind flaky_server final_report in
  jq_lease (queue flaky_server) "run-1" = Some (plain_job "run-1" 1) ∧
  out.2 = Ok superseded ∧ durable out.1 = 0%nat.
Proof.
  split; [vm_compute; reflexivity|].
  apply (nats_outage_drops_report (Some accept_completion) None 9 flaky_server final_report (plain_job "run-1" 1) RDown);
    [reflexivity|reflexivity|apply dispatched_wf|vm_compute; reflexivity|reflexivity|discriminate|reflexivity|discriminate].
Defined.

(** ** Interleaved acknowledgements *)

(** As [nbody], keeping what an acknowledgement returns. *)
Definition ack_body (c : ncall) : prog ncmd (option (res go_error bool)) :=
  match c with
  | CAck r g => bind (Ack r g) (λ x, Ret (Some x))
  | c => bind (nbody c) (λ _, Ret None)
  end.

Definition ack_acts (l : list (act Nats ncall nenv)) : world ncmd Nats ncall (option (res go_error bool)) :=
  acts ack_body nenv_step (mkWorld dispatched [] []) l.

(** The fence of [Ack] is read before the message is settled, so it is not
    atomic.  Two acknowledgements of one dispatch are both accepted; and an
    acknowledgement that read its entry before a sweep took the job back is
    accepted after the job was dispatched again at a later generation, and
    deletes it from the stream under the new owner. *)
Theorem nats_ack_not_atomic :
  w_threads (ack_acts ([Start (CAck "run-1" 1); Start (CAck "run-1" 1); Step 0 RFine; Step 1 RFine]
                       ++ steps 0 2 ++ steps 1 2))
    = [Ret (Some (Ok true)); Ret (Some (Ok true))] ∧
  let w := ack_acts ([Start (CAck "run-1" 1); Step 0 RFine; Start (CReclaim 100 10 5)] ++ steps 1 4 ++
                     Start (CDequeue {[kind]} kind [DqTry 101]) :: steps 2 3 ++ steps 0 2) in
  w_threads w !! 0%nat = Some (Ret (Some (Ok true))) ∧
  lease (w_server w) "run-1" = Some (plain_job "run-1" 2) ∧
  js_msg (jobs (w_server w)) 1 = None.
Proof. vm_compute. done. Qed.
