(* ===== verification/NatsBroker.v ===== *)
(** * The NATS event broker and cancel bus

    Models [internal/transport/nats/nats.go], types [Broker] and [CancelBus].  The
    events of all runs are one JetStream stream, one subject per run; a
    subscription is an ordered consumer whose callback runs on a goroutine of the
    client library, and a second goroutine of the broker that stops the consumer
    and closes the subscriber's channel once the context has ended.

    The client library is outside the sources.  What the broker needs of it is a
    parameter: whether [ConsumeContext.Stop] returns only when no callback is
    running ([stop_waits]).  Its documentation promises that no message is received
    after [Stop] and offers a separate [Closed] for the end of processing. *)

From S2P Require Import Prelude Transport RedisQueue Broker Nats RedisBroker.
Local Open Scope string_scope.
Local Open Scope nat_scope.
Local Open Scope list_scope.

(** ** State *)

Inductive callback :=
| Idle
| Selecting (event : RunEvent)      (* decoded, before the select *)
| Sent (event : RunEvent).          (* after it: [cancel()] if terminal *)

Inductive closer := Waiting | Stopping | ChanClosed.

Record nsub := mkNsub {
  n_run : string;
  n_from : nat;                     (* ghost: the last sequence when it subscribed *)
  n_next : nat;                     (* the consumer's cursor *)
  n_cb : callback;
  n_closer : closer;
  n_ctx : bool;                     (* [subCtx] is done *)
  n_left : bool;                    (* ghost: ended by the subscriber *)
  n_chan : goChan RunEvent;
  n_got : list RunEvent             (* ghost: what its reader received *)
}.

Record EventLog := mkLog {
  log : list (string * RunEvent);   (* the stream; positions are sequences *)
  expired : nat;                    (* messages that aged out *)
  nsubs : gmap nat nsub;
  nnext : nat;
  npanicked : bool
}.

Definition new_log : EventLog := mkLog [] 0 ∅ 0 false.

Definition set_sub (k : nat) (u : nsub) (s : EventLog) : EventLog :=
  mkLog (log s) (expired s) (<[k := u]> (nsubs s)) (nnext s) (npanicked s).

(** ** Calls *)

(** [true]: no error. *)
Definition NPublish (o : reply) (runID : string) (event : RunEvent) (s : EventLog) : EventLog * bool :=
  if negb (validateRunID runID) then (s, false)
  else (match o with RDown => s | _ => mkLog (log s ++ [(runID, event)]) (expired s) (nsubs s) (nnext s) (npanicked s) end,
        answered o).

(** [stream.Info] has given [lastSeq]; the consumer is created later, when the
    stream may be longer. *)
Definition start_sub (runID : string) (lastSeq : nat) (s : EventLog) : EventLog :=
  mkLog (log s) (expired s)
    (<[nnext s := mkNsub runID lastSeq lastSeq Idle Waiting false false (mkChan [] false) []]> (nsubs s))
    (S (nnext s)) (npanicked s).

(** [between] is what other callers do between the two requests. *)
Definition NSubscribe (info create : reply) (runID : string) (between : EventLog → EventLog) (s : EventLog)
  : EventLog * option nat :=
  if negb (validateRunID runID) then (s, None)
  else if negb (answered info) then (s, None)
  else
    let lastSeq := length (log s) in
    let s := between s in
    if negb (answered create) then (s, None) else (start_sub runID lastSeq s, Some (nnext s)).

Definition NClose (runID : string) : bool := validateRunID runID.

Section goroutines.
Variable reread : RunEvent → option RunEvent.

(** *** Replay *)

(** [FetchNoWait(n)]: the next messages of the subject. *)
Definition on_subject (r : string) (l : list (string * RunEvent)) : list RunEvent :=
  omap (λ m, if (m.1 =? r)%string then Some m.2 else None) l.

Definition replayed (sinceSeq : Z) (batch : list RunEvent) : list RunEvent :=
  List.filter (λ ev, Z.ltb sinceSeq (Seq ev)) (omap reread batch).

(** The consumer's messages, fetched 256 at a time until a batch is empty; the
    replies say how each fetch turns out.  [None]: out of fuel. *)
Fixpoint replay_loop (fuel : nat) (os : list reply) (sinceSeq : Z) (rest acc : list RunEvent)
  : option (res go_error (list RunEvent)) :=
  match fuel with
  | 0 => None
  | S fuel =>
      if negb (answered (default RFine (head os))) then Some (Err ErrBackend)
      else
        let batch := take 256 rest in
        let acc := acc ++ replayed sinceSeq batch in
        match batch with
        | [] => Some (Ok acc)
        | _ => replay_loop fuel (tail os) sinceSeq (drop 256 rest) acc
        end
  end.

Definition NReplay (fuel : nat) (create : reply) (os : list reply) (runID : string) (sinceSeq : Z) (s : EventLog)
  : option (res go_error (list RunEvent)) :=
  if negb (validateRunID runID) then Some (Err ErrInvalidRunID)
  else if negb (answered create) then Some (Err ErrBackend)
  else replay_loop fuel os sinceSeq (on_subject runID (drop (expired s) (log s))) [].

(** *** The callback *)

(** [Stop] was not called yet: the library hands the next message to the
    callback, which checks the subject and decodes it. *)
Definition deliver (u : nsub) (s : EventLog) : nsub :=
  match n_cb u, n_closer u with
  | Idle, Waiting =>
      let pos := Nat.max (n_next u) (expired s) in
      match log s !! pos with
      | Some (r, ev) =>
          mkNsub (n_run u) (n_from u) (S pos)
            (if (r =? n_run u)%string then match reread ev with Some event => Selecting event | None => Idle end else Idle)
            (n_closer u) (n_ctx u) (n_left u) (n_chan u) (n_got u)
      | None => u
      end
  | _, _ => u
  end.

Definition with_cb (c : callback) (u : nsub) : nsub :=
  mkNsub (n_run u) (n_from u) (n_next u) c (n_closer u) (n_ctx u) (n_left u) (n_chan u) (n_got u).

(** The select; [done] prefers the context when both cases are ready.  [None]: a
    panic. *)
Definition callback_step (done : bool) (u : nsub) : option nsub :=
  match n_cb u with
  | Idle => Some u
  | Selecting event =>
      let ch := n_chan u in
      let room := chClosed ch || (length (pending ch) <? sub_cap) in
      if n_ctx u && (done || negb room) then Some (with_cb Idle u)
      else if chClosed ch then None
      else if room then
        Some (mkNsub (n_run u) (n_from u) (n_next u) (Sent event) (n_closer u) (n_ctx u) (n_left u)
                (mkChan (pending ch ++ [event]) false) (n_got u))
      else Some u
  | Sent event =>
      Some (mkNsub (n_run u) (n_from u) (n_next u) Idle (n_closer u) (IsTerminal event || n_ctx u) (n_left u) (n_chan u)
              (n_got u))
  end.

(** *** The goroutine that closes *)

Variable stop_waits : bool.

Definition idle (u : nsub) : bool := match n_cb u with Idle => true | _ => false end.

Definition with_closer (c : closer) (ch : goChan RunEvent) (u : nsub) : nsub :=
  mkNsub (n_run u) (n_from u) (n_next u) (n_cb u) c (n_ctx u) (n_left u) ch (n_got u).

Definition closer_step (u : nsub) : option nsub :=
  match n_closer u with
  | Waiting => Some (if n_ctx u then with_closer Stopping (n_chan u) u else u)
  | Stopping =>
      if stop_waits && negb (idle u) then Some u
      else if chClosed (n_chan u) then None
      else Some (with_closer ChanClosed (mkChan (pending (n_chan u)) true) u)
  | ChanClosed => Some u
  end.

Definition nreceive (u : nsub) : nsub :=
  match pending (n_chan u) with
  | v :: l => mkNsub (n_run u) (n_from u) (n_next u) (n_cb u) (n_closer u) (n_ctx u) (n_left u)
                (mkChan l (chClosed (n_chan u))) (n_got u ++ [v])
  | [] => u
  end.

Definition leave (u : nsub) : nsub :=
  mkNsub (n_run u) (n_from u) (n_next u) (n_cb u) (n_closer u) true true (n_chan u) (n_got u).

(** ** Histories *)

Inductive nact :=
| NAPublish (o : reply) (r : string) (ev : RunEvent)
| NAStart (r : string) (lastSeq : nat)     (* the second half of [Subscribe] *)
| NADeliver (k : nat)
| NACallback (k : nat) (done : bool)
| NACloser (k : nat)
| NAReceive (k : nat)
| NALeave (k : nat)
| NAExpire (n : nat).

Definition on_sub (k : nat) (f : nsub → option nsub) (s : EventLog) : EventLog :=
  match nsubs s !! k with
  | Some u =>
      match f u with
      | Some u' => set_sub k u' s
      | None => mkLog (log s) (expired s) (nsubs s) (nnext s) true
      end
  | None => s
  end.

(** [Subscribe] starts with a sequence the stream had. *)
Definition nact_step (s : EventLog) (a : nact) : EventLog :=
  match a with
  | NAPublish o r ev => (NPublish o r ev s).1
  | NAStart r lastSeq => if (validateRunID r && (lastSeq <=? length (log s)))%bool then start_sub r lastSeq s else s
  | NADeliver k => on_sub k (λ u, Some (deliver u s)) s
  | NACallback k done => on_sub k (callback_step done) s
  | NACloser k => on_sub k closer_step s
  | NAReceive k => on_sub k (λ u, Some (nreceive u)) s
  | NALeave k => on_sub k (λ u, Some (leave u)) s
  | NAExpire n => mkLog (log s) (Nat.min (length (log s)) (Nat.max n (expired s))) (nsubs s) (nnext s) (npanicked s)
  end.

Definition nhistory (l : list nact) : EventLog := foldl nact_step new_log l.
End goroutines.

(** ** The cancel bus *)

(** As [RedisBroker.cancel_go], and [NextMsgWithContext] may fail: the
    subscription is released and the channel stays open. *)
Definition ncancel_go (fail done : bool) (c : csub) : option csub :=
  if fail && c_open c
  then Some (mkCsub (c_run c) (c_from c) (c_ctx c) false (c_msgs c) (c_chan c) (c_got c))
  else cancel_go done c.

Definition NPublishCancel (o : reply) (runID : string) (b : CancelBus) : CancelBus * bool :=
  if negb (validateRunID runID) then (b, false) else PublishCancel o runID b.

Definition NSubscribeCancel (o : reply) (runID : string) (b : CancelBus) : CancelBus * option nat :=
  if negb (validateRunID runID) then (b, None) else SubscribeCancel o runID b.

(** * What a subscriber of the NATS broker observes
    Theorems on [NatsBroker]: order, completeness up to the terminal event, and
    the channel's closing, when [Stop] waits for a running callback; the run that
    sends on a closed channel when it does not; [Replay] as a filter of the
    stream.  *)

From S2P Require Import RedisBroker.
Local Open Scope string_scope.
Local Open Scope nat_scope.
Local Open Scope list_scope.

Section props.
Variable reread : RunEvent → option RunEvent.

(** ** Replay *)

Lemma length_omap {A B} (f : A → option B) l : length (omap f l) ≤ length l.
Proof. induction l as [|x l IH]; csimpl; [done|]. destruct (f x); simpl; lia. Qed.

Lemma replay_loop_ok fuel since rest acc : length rest < fuel →
  replay_loop reread fuel [] since rest acc = Some (Ok (acc ++ replayed reread since rest)).
Proof.
  revert rest acc. induction fuel as [|fuel IH]; intros rest acc Hf; [lia|].
  destruct rest as [|ev rest]; [done|]. cbn [replay_loop head tail from_option id answered negb].
  cbn [take]. rewrite IH.
  - rewrite <- (assoc_L app). repeat f_equal. unfold replayed. rewrite <- List.filter_app, <- omap_app. repeat f_equal.
    change (ev :: take 255 rest) with (take 256 (ev :: rest)). apply take_drop.
  - cbn [length] in Hf. rewrite length_drop. cbn [length]. lia.
Qed.

(** [Replay] returns the run's stored events after the sequence asked for, in
    order, once its fetches succeed; fuel beyond the length of the stream is
    enough. *)
Theorem nats_replay_exact fuel runID since s : length (log s) < fuel → validateRunID runID = true →
  NReplay reread fuel RFine [] runID since s =
    Some (Ok (replayed reread since (on_subject runID (drop (expired s) (log s))))).
Proof.
  intros Hf Hv. unfold NReplay. rewrite Hv. simpl. rewrite replay_loop_ok; [done|].
  enough (length (on_subject runID (drop (expired s) (log s))) ≤ length (log s)) by lia. unfold on_subject.
  etrans; [apply length_omap|]. rewrite length_drop. lia.
Qed.

(** ** Subscriptions *)

Definition decode (r : string) (m : string * RunEvent) : option RunEvent :=
  if (m.1 =? r)%string then reread m.2 else None.

(** What the consumer has handed to the callback. *)
Definition handed (s : EventLog) (u : nsub) : list RunEvent := omap (decode (n_run u)) (segment (n_from u) (n_next u) (log s)).

Definition nseen (u : nsub) : list RunEvent := n_got u ++ pending (n_chan u).
Definition held (u : nsub) : list RunEvent := match n_cb u with Selecting e => [e] | _ => [] end.

Notation live e := (IsTerminal e = false).

(** The events up to the first terminal one have all been seen. *)
Definition seen_end (u : nsub) (evs : list RunEvent) : Prop :=
  ∃ p, ends_run p ∧ p `prefix_of` nseen u ∧ p `prefix_of` evs.

Record nsub_ok (s : EventLog) (u : nsub) : Prop := {
  nk_pos : n_from u ≤ n_next u ≤ length (log s);
  nk_part : sublist (nseen u ++ held u) (handed s u);
  nk_all : expired s ≤ n_from u → n_ctx u = false → nseen u ++ held u = handed s u;
  nk_live : n_ctx u = false →
    match n_cb u with Sent e => ∃ p, nseen u = p ++ [e] ∧ Forall (λ e, live e) p | _ => Forall (λ e, live e) (nseen u) end;
  nk_end : expired s ≤ n_from u → n_left u = false → n_ctx u = true → seen_end u (handed s u);
  nk_ctx : n_closer u ≠ Waiting → n_ctx u = true;
  nk_closed : chClosed (n_chan u) = true ↔ n_closer u = ChanClosed;
  nk_idle : n_closer u = ChanClosed → n_cb u = Idle
}.

Lemma nsub_ok_grows s s' u : nsub_ok s u → log s `prefix_of` log s' → expired s ≤ expired s' → nsub_ok s' u.
Proof.
  intros [Hp Hpart Hall Hl He Hc Hcl Hi] [k Hk] Hd.
  assert (handed s' u = handed s u) as Hh by (unfold handed; rewrite Hk, segment_app by lia; done).
  split; try done; rewrite ?Hh; try done.
  - rewrite Hk, length_app. lia.
  - intros ?. apply Hall. lia.
  - intros ?. apply He. lia.
Qed.

Lemma handed_next s u pos r ev cb : n_from u ≤ n_next u → n_next u ≤ pos → log s !! pos = Some (r, ev) →
  let u' := mkNsub (n_run u) (n_from u) (S pos) cb (n_closer u) (n_ctx u) (n_left u) (n_chan u) (n_got u) in
  let next := from_option (λ e, [e]) [] (decode (n_run u) (r, ev)) in
  sublist (handed s u ++ next) (handed s u') ∧
  (n_next u = pos → handed s u' = handed s u ++ next).
Proof.
  intros Hf Hp Hl u' next. destruct (segment_next _ _ _ _ _ Hf Hp Hl) as [Hs He]. unfold handed. subst u'. cbn [n_from n_next n_run].
  assert (∀ l, omap (decode (n_run u)) (l ++ [(r, ev)]) = omap (decode (n_run u)) l ++ next) as Ho.
  { intros l. by rewrite omap_app. }
  rewrite <- Ho. split; [by apply sublist_omap|]. intros Hn. by rewrite He.
Qed.

Lemma deliver_ok s u : nsub_ok s u → nsub_ok s (deliver reread u s).
Proof.
  intros Hok. pose proof Hok as [Hp Hpart Hall Hl He Hc Hcl Hi]. unfold deliver.
  destruct (n_cb u) eqn:Hcb; try done. destruct (n_closer u) eqn:Hw; try done.
  set (pos := Nat.max _ _). destruct (log s !! pos) as [[r ev]|] eqn:Hlog; [|done].
  pose proof (lookup_lt_Some _ _ _ Hlog) as Hlt.
  set (cb := if (r =? n_run u)%string then _ else _).
  destruct (handed_next s u pos r ev cb) as [Hsub Heq]; [lia|lia|done|]. rewrite Hw in Hsub, Heq. cbv zeta in Hsub, Heq.
  set (u' := mkNsub _ _ _ _ _ _ _ _ _) in *.
  assert (held u' = from_option (λ e, [e]) [] (decode (n_run u) (r, ev))) as Hh.
  { unfold held, u', cb, decode. simpl. destruct (_ =? _)%string; [|done]. by destruct (reread ev). }
  assert (held u = []) as Hu by (unfold held; by rewrite Hcb).
  rewrite Hu, app_nil_r in Hpart, Hall. change (nseen u) with (nseen u') in *.
  assert (∀ e, n_cb u' ≠ Sent e) as Hns by (intros e; unfold u', cb; simpl; destruct (_ =? _)%string; [destruct (reread ev)|]; done).
  split; try done.
  - simpl. lia.
  - rewrite Hh. etrans; [|exact Hsub]. by apply sublist_app.
  - intros Hd Hx. rewrite Hh, Heq by (unfold pos; simpl in *; lia). f_equal. by apply Hall.
  - intros Hx. destruct (n_cb u') eqn:E; [by apply Hl..|]. by destruct (Hns event).
  - intros Hd Hleft Hx. destruct (He Hd Hleft Hx) as (p&?&?&?). exists p. split; [done|]. split; [done|].
    rewrite Heq by (unfold pos; simpl in *; lia). by apply prefix_app_r.
Qed.

Lemma callback_ok s u done : nsub_ok s u → ∃ u', callback_step done u = Some u' ∧ nsub_ok s u'.
Proof.
  intros Hok. pose proof Hok as [Hp Hpart Hall Hl He Hc Hcl Hi]. unfold callback_step.
  destruct (n_cb u) as [|e|e] eqn:Hcb.
  - by exists u.
  - assert (chClosed (n_chan u) = false) as Hopen.
    { apply not_true_iff_false. intros HS%Hcl%Hi. congruence. }
    cbv zeta. rewrite Hopen. simpl. destruct (n_ctx u && _) eqn:Ex.
    + apply andb_true_iff in Ex as [Ex _]. eexists. split; [done|]. split; simpl; try done; try (by rewrite Ex).
      etrans; [|exact Hpart]. apply sublist_app; [done|]. apply sublist_nil_l.
    + destruct (_ <? _); [|by exists u]. eexists. split; [done|]. set (u' := mkNsub _ _ _ _ _ _ _ _ _).
      assert (nseen u' = nseen u ++ [e]) as Hs by (unfold nseen; simpl; by rewrite (assoc_L app)).
      assert (nseen u' ++ held u' = nseen u ++ held u) as Hsh.
      { rewrite Hs. unfold held. rewrite Hcb. simpl. by rewrite app_nil_r. }
      split; try done; try rewrite Hsh; try done.
      * intros Hx. simpl. exists (nseen u). split; [done|]. by apply Hl.
      * intros Hd Hleft Hx. destruct (He Hd Hleft Hx) as (p&?&?&?). exists p. split; [done|]. split; [|done].
        rewrite Hs. by apply prefix_app_r.
      * simpl. split; [done|]. intros HS%Hi. congruence.
      * intros HS%Hi. congruence.
  - eexists. split; [done|]. set (u' := mkNsub _ _ _ _ _ _ _ _ _).
    assert (held u = []) as Hu by (unfold held; by rewrite Hcb).
    split; try done.
    + rewrite Hu in Hpart. exact Hpart.
    + simpl. intros Hd [HT Hx]%orb_false_iff. rewrite Hu in Hall. by apply Hall.
    + simpl. intros [HT Hx]%orb_false_iff. destruct (Hl Hx) as (p&Hs&Hlive). change (nseen u') with (nseen u).
      rewrite Hs. apply Forall_app. split; [done|]. by constructor.
    + intros Hd Hleft Hx. destruct (n_ctx u) eqn:Hcx; [by apply He|]. simpl in Hx. rewrite orb_false_r in Hx.
      destruct (Hl eq_refl) as (p&Hs&Hlive). exists (nseen u). split; [by exists p, e|]. split; [done|].
      rewrite Hu, app_nil_r in Hall. change (handed s u') with (handed s u). rewrite <- Hall by done. done.
    + simpl. intros Hw. rewrite (Hc Hw). by rewrite orb_true_r.
Qed.

Lemma closer_ok s u : nsub_ok s u → ∃ u', closer_step true u = Some u' ∧ nsub_ok s u'.
Proof.
  intros Hok. pose proof Hok as [Hp Hpart Hall Hl He Hc Hcl Hi]. unfold closer_step. destruct (n_closer u) eqn:Hw.
  - destruct (n_ctx u) eqn:Hx; [|by exists u]. eexists. split; [done|]. split; simpl; try done; try (by rewrite Hx).
    split; [|done]. intros HS%Hcl. done.
  - destruct (idle u) eqn:Hid; simpl; [|by exists u].
    assert (chClosed (n_chan u) = false) as -> by (apply not_true_iff_false; intros HS%Hcl; done).
    assert (n_cb u = Idle) as Hcb by (unfold idle in Hid; by destruct (n_cb u)).
    assert (n_ctx u = true) as Hx by (by apply Hc).
    eexists. split; [done|]. split; simpl; try done; by rewrite Hx.
  - by exists u.
Qed.

Lemma nreceive_ok s u : nsub_ok s u → nsub_ok s (nreceive u).
Proof.
  intros Hok. unfold nreceive. destruct (pending (n_chan u)) as [|v l] eqn:Hv; [done|]. set (u' := mkNsub _ _ _ _ _ _ _ _ _).
  assert (nseen u' = nseen u) as Hs by (unfold nseen; simpl; rewrite Hv, <- (assoc_L app); done).
  destruct Hok as [Hp Hpart Hall Hl He Hc Hcl Hi]. split; rewrite ?Hs; try done.
  intros Hd Hleft Hx. destruct (He Hd Hleft Hx) as (p&?&?&?). exists p. by rewrite Hs.
Qed.

Lemma leave_ok s u : nsub_ok s u → nsub_ok s (leave u).
Proof. intros [Hp Hpart Hall Hl He Hc Hcl Hi]. by split. Qed.

Definition log_ok (s : EventLog) : Prop := npanicked s = false ∧ ∀ k u, nsubs s !! k = Some u → nsub_ok s u.

Lemma on_sub_ok s k f : log_ok s → (∀ u, nsub_ok s u → ∃ u', f u = Some u' ∧ nsub_ok s u') → log_ok (on_sub k f s).
Proof.
  intros [Hp Hs] Hf. unfold on_sub. destruct (nsubs s !! k) as [u|] eqn:Hk; [|done].
  destruct (Hf u) as (u'&->&Hu); [by apply (Hs k)|]. split; [done|].
  intros k' v. simpl. intros [[<- <-]|[_ Hv]]%lookup_insert_Some; (apply (nsub_ok_grows s); [|done|done]); [done|by apply (Hs k')].
Qed.

Lemma log_ok_grows s lg d : log_ok s → log s `prefix_of` lg → expired s ≤ d → log_ok (mkLog lg d (nsubs s) (nnext s) (npanicked s)).
Proof. intros [Hp Hs] Hl Hd. split; [done|]. intros k u Hk. apply (nsub_ok_grows s); [by apply (Hs k)|done|done]. Qed.

Lemma nact_ok s a : log_ok s → expired s ≤ length (log s) →
  log_ok (nact_step reread true s a) ∧ expired (nact_step reread true s a) ≤ length (log (nact_step reread true s a)).
Proof.
  intros Hs Hd.
  assert (Hon : ∀ k f, expired (on_sub k f s) ≤ length (log (on_sub k f s))).
  { intros k f. unfold on_sub. destruct (nsubs s !! k) as [u|]; [|done]. by destruct (f u). }
  destruct a as [o r ev|r n|k|k done|k|k|k|n]; simpl.
  - unfold NPublish. destruct (negb _); [done|]. destruct o; simpl; try done;
      (split; [apply log_ok_grows; [done|by eexists|done]|rewrite length_app; lia]).
  - destruct (_ && _) eqn:E; [|done]. apply andb_true_iff in E as [_ E%Nat.leb_le]. split; [|done]. destruct Hs as [Hp Hs].
    split; [done|]. intros k u. simpl. intros [[<- <-]|[_ Hu]]%lookup_insert_Some.
    + split; simpl; try done; unfold handed; simpl; rewrite ?segment_empty; done.
    + apply (nsub_ok_grows s); [by apply (Hs k)|done|done].
  - split; [|done]. apply on_sub_ok; [done|]. intros u Hu. eexists. split; [done|]. by apply deliver_ok.
  - split; [|done]. apply on_sub_ok; [done|]. intros u Hu. by apply callback_ok.
  - split; [|done]. apply on_sub_ok; [done|]. intros u Hu. by apply closer_ok.
  - split; [|done]. apply on_sub_ok; [done|]. intros u Hu. eexists. split; [done|]. by apply nreceive_ok.
  - split; [|done]. apply on_sub_ok; [done|]. intros u Hu. eexists. split; [done|]. by apply leave_ok.
  - split; [|lia]. apply log_ok_grows; [done|done|]. lia.
Qed.

(** When [Stop] waits for a running callback: no history of publishers,
    subscribers, departures and expiring messages panics; a subscriber receives a
    subsequence of its run's events in stream order; and unless it left, or a
    message it had still to read aged out, its context is done only after it was
    sent every event up to and including the first terminal one. *)
Theorem nats_subscriber_stream l k u : nsubs (nhistory reread true l) !! k = Some u →
  let s := nhistory reread true l in
  npanicked s = false ∧ sublist (nseen u) (handed s u) ∧
  (expired s ≤ n_from u → n_left u = false →
     if n_ctx u then seen_end u (handed s u) else nseen u ++ held u = handed s u) ∧
  (chClosed (n_chan u) = true → n_ctx u = true ∧ n_cb u = Idle).
Proof.
  intros Hk s.
  assert (log_ok s ∧ expired s ≤ length (log s)) as [[Hp Hs] _].
  { unfold s, nhistory. clear Hk s. assert (log_ok new_log ∧ expired new_log ≤ length (log new_log)) as H0 by done.
    revert H0. generalize new_log. induction l as [|a l IH]; intros s [Hs Hd]; [done|]. by apply IH, nact_ok. }
  destruct (Hs _ _ Hk) as [_ Hpart Hall Hl He Hc Hcl Hi]. split; [done|]. split.
  { etrans; [|exact Hpart]. apply sublist_inserts_r. done. }
  split; [|intros HS%Hcl; split; [apply Hc; congruence|by apply Hi]].
  intros Hd Hleft. destruct (n_ctx u); [by apply He|by apply Hall].
Qed.
End props.

(** ** Runs *)

(** When [Stop] does not wait: a callback has decoded an event, the subscriber
    leaves, the second goroutine stops the consumer and closes the channel, and
    the callback's select takes the send. *)
Theorem nats_send_after_close :
  npanicked (nhistory Some false
    [NAStart "r" 0; NAPublish RFine "r" (ev_values 1); NADeliver 0; NALeave 0; NACloser 0; NACloser 0;
     NACallback 0 false]) = true.
Proof. vm_compute. reflexivity. Qed.

Definition nats_run : list nact :=
  [NAPublish RFine "r" (ev_values 1); NAStart "r" 1; NAPublish RFine "other" (ev_values 5);
   NAPublish RFine "r" (ev_values 2); NAPublish RFine "r" ev_end; NADeliver 0; NADeliver 0; NACallback 0 false; NAReceive 0;
   NACallback 0 false; NADeliver 0; NACallback 0 false; NACallback 0 false; NACloser 0; NACloser 0].

Definition nats_finished : nsub :=
  mkNsub "r" 1 4 Idle ChanClosed true false (mkChan [ev_end] true) [ev_values 2].

Lemma nats_subscriber_stream_witness :
  nsubs (nhistory Some true nats_run) !! 0 = Some nats_finished ∧
  seen_end nats_finished (handed Some (nhistory Some true nats_run) nats_finished).
Proof.
  assert (nsubs (nhistory Some true nats_run) !! 0 = Some nats_finished) as Hk by (vm_compute; reflexivity).
  destruct (nats_subscriber_stream Some nats_run 0 nats_finished Hk) as (_&_&Hend&_).
  split; [exact Hk|]. apply Hend; [apply Nat.leb_le; vm_compute; reflexivity|reflexivity].
Defined.

(** A step of the NATS cancel goroutine: no panic, one value at most, and the
    channel is closed by a genuine cancel only, whatever ends the wait. *)
Theorem nats_cancel_genuine l fail done c : csub_ok l c → ∃ c', ncancel_go fail done c = Some c' ∧
  c_got c' + length (pending (c_chan c')) = (if chClosed (c_chan c') then 1 else 0) ∧
  (chClosed (c_chan c') = true → canceled_since l (c_from c') (c_run c')) ∧
  (fail = true → c_open c' = false ∧ chClosed (c_chan c') = chClosed (c_chan c)).
Proof.
  intros Hc. unfold ncancel_go. destruct (fail && c_open c) eqn:E.
  - apply andb_true_iff in E as [-> Ho]. eexists. split; [done|]. destruct Hc as [Hm Hs H1 Hw He]. done.
  - destruct (cancel_go_ok _ done _ Hc) as (c'&Hgo&Hok&_). exists c'. split; [done|]. destruct Hok as [Hm Hs H1 Hw He].
    split; [done|]. split; [done|]. intros ->. simpl in E. unfold cancel_go in Hgo. rewrite E in Hgo. simpl in Hgo.
    injection Hgo as <-. done.
Qed.
