(* ===== verification/Kafka.v ===== *)
(** * The Kafka job queue

    Models [internal/transport/kafka/kafka.go].  A job topic per runner kind holds
    the jobs, with one committed offset per consumer group; a compacted state topic
    is the record of what is in flight, and every replica keeps a view of it: the
    records it has read back plus its own writes.  Methods are [prog]s over the
    cluster and the replica's memory.

    A topic has one partition, the default of [defaultJobPartitions]. *)

From S2P Require Import Prelude Transport RedisQueue Programs.
Local Open Scope string_scope.
Local Open Scope Z_scope.
Local Open Scope go_scope.

Section kafka.
Context {WR : Wire}.

Record stateEntry := mkState {
  Canceled : bool;
  SRunnerKind : string;
  SGeneration : Z;
  TouchedAtUnixMilli : Z;
  SJob : option payload       (* None: an empty raw message *)
}.

(** The memory of one process. *)
Record Replica := mkReplica {
  view : gmap string stateEntry;      (* q.state *)
  tailed : nat;                       (* records of the state topic read so far *)
  readers : gmap string nat           (* open readers: topic and next offset *)
}.

Record Cluster := mkCluster {
  job_log : gmap string (list payload);                (* job topics *)
  committed : gmap string nat;                         (* the group's offset *)
  state_log : list (string * option stateEntry);       (* None: a tombstone *)
  replicas : gmap nat Replica
}.

(** The state topic read from its beginning. *)
Definition apply_record (m : gmap string stateEntry) (r : string * option stateEntry) : gmap string stateEntry :=
  match r.2 with Some e => <[r.1 := e]> m | None => delete r.1 m end.

Definition materialize (l : list (string * option stateEntry)) : gmap string stateEntry := foldl apply_record ∅ l.

Definition topic_log (s : Cluster) (t : string) : list payload := map_get [] (job_log s) t.
Definition offset (s : Cluster) (t : string) : nat := default O (committed s !! t).

Definition replica (s : Cluster) (i : nat) : Replica := default (mkReplica ∅ 0 ∅) (replicas s !! i).

Definition set_replica (i : nat) (r : Replica) (s : Cluster) : Cluster :=
  mkCluster (job_log s) (committed s) (state_log s) (<[i := r]> (replicas s)).

(** [tailState]'s loop body. *)
Definition tailState (i : nat) (s : Cluster) : Cluster :=
  let q := replica s i in
  match state_log s !! tailed q with
  | None => s
  | Some r => set_replica i (mkReplica (apply_record (view q) r) (S (tailed q)) (readers q)) s
  end.

(** [NewQueue]: the view has caught up with the topic; no reader is open. *)
Definition NewQueue (i : nat) (s : Cluster) : Cluster :=
  set_replica i (mkReplica (materialize (state_log s)) (length (state_log s)) ∅) s.

(** ** Commands *)

Inductive written := WOk | WErr | WUnknownTopic (late : bool).  (* late: past the retry deadline *)
Inductive fetched := KMsg (off : nat) (p : payload) | KDeadline | KErr.

(** A message for the state topic or for a job topic. *)
Inductive message := MState (runID : string) (e : option stateEntry) | MJob (topic : string) (p : payload).

Inductive kop :=
| GetState (runID : string)
| ListState
| SetState (runID : string) (e : option stateEntry)
| WriteMessages (m : message)
| EnsureTopic (topic : string)
| HasReader (topic : string)
| OpenReader (topic : string)
| FetchMessage (topic : string)
| CommitMessages (topic : string) (off : nat)
| TopicOffsets.

(** A command of replica [i]. *)
Inductive kcmd := At (i : nat) (o : kop).

#[export] Instance kafka_commands : Commands kcmd := λ c,
  match c with
  | At _ (GetState _) => option stateEntry
  | At _ ListState => list (string * stateEntry)
  | At _ (SetState _ _) | At _ (OpenReader _) => unit
  | At _ (WriteMessages _) => written
  | At _ (EnsureTopic _) | At _ (HasReader _) | At _ (CommitMessages _ _) => bool
  | At _ (FetchMessage _) => fetched
  | At _ TopicOffsets => res go_error (list (string * option Z * option Z))
  end.

Inductive kfate := FReply (o : reply) | FUnknown (late : bool) | FTimeout.

Definition write (o : kfate) (f : Cluster → Cluster) (s : Cluster) : Cluster * written :=
  match o with
  | FReply RFine => (f s, WOk)
  | FReply RLost => (f s, WErr)
  | FReply RDown | FTimeout => (s, WErr)
  | FUnknown late => (s, WUnknownTopic late)
  end.

Definition append_job (t : string) (p : payload) (s : Cluster) : Cluster :=
  mkCluster (<[t := (topic_log s t ++ [p])%list]> (job_log s)) (committed s) (state_log s) (replicas s).

Definition append_state (r : string) (e : option stateEntry) (s : Cluster) : Cluster :=
  mkCluster (job_log s) (committed s) (state_log s ++ [(r, e)]) (replicas s).

Definition append (m : message) (s : Cluster) : Cluster :=
  match m with MState r e => append_state r e s | MJob t p => append_job t p s end.

Definition set_view (i : nat) (m : gmap string stateEntry) (s : Cluster) : Cluster :=
  let q := replica s i in set_replica i (mkReplica m (tailed q) (readers q)) s.

Definition set_reader (i : nat) (t : string) (off : nat) (s : Cluster) : Cluster :=
  let q := replica s i in set_replica i (mkReplica (view q) (tailed q) (<[t := off]> (readers q))) s.

(** One offset per topic: committing [off] commits everything below it too. *)
Definition commit_to (t : string) (off : nat) (s : Cluster) : Cluster :=
  mkCluster (job_log s) (<[t := S off]> (committed s)) (state_log s) (replicas s).

(** The next offset of replica [i]'s reader: a new session starts at the
    committed one. *)
Definition position (s : Cluster) (i : nat) (t : string) : nat :=
  default (offset s t) (readers (replica s i) !! t).

Definition exec_kafka (o : kfate) (c : kcmd) (s : Cluster) : Cluster * answer c :=
  match c return Cluster * answer c with
  | At i (GetState r) => (s, view (replica s i) !! r)
  | At i ListState => (s, map_to_list (view (replica s i)))
  | At i (SetState r e) => (set_view i (apply_record (view (replica s i)) (r, e)) s, tt)
  | At i (WriteMessages m) => write o (append m) s
  | At i (EnsureTopic _) => (s, match o with FReply RFine => true | _ => false end)
  | At i (HasReader t) => (s, bool_decide (is_Some (readers (replica s i) !! t)))
  | At i (OpenReader t) => (set_reader i t (offset s t) s, tt)
  | At i (FetchMessage t) =>
      let off := position s i t in
      match topic_log s t !! off with
      | None => (s, match o with FReply RLost | FReply RDown => KErr | _ => KDeadline end)
      | Some p =>
          match o with
          | FReply RFine => (set_reader i t (S off) s, KMsg off p)
          | FReply RLost => (set_reader i t (S off) s, KErr)
          | FTimeout => (s, KDeadline)
          | _ => (s, KErr)
          end
      end
  | At i (CommitMessages t off) =>
      match o with
      | FReply RFine => (commit_to t off s, true)
      | FReply RLost => (commit_to t off s, false)
      | _ => (s, false)
      end
  | At i TopicOffsets =>
      (s, match o with
          | FReply RFine =>
              Ok ((λ kl, (kl.1, Some (Z.of_nat (length kl.2)), Some (Z.of_nat (offset s kl.1)))) <$> map_to_list (job_log s))
          | _ => Err ErrBackend
          end)
  end.

#[export] Instance kafka_server : Server kcmd Cluster :=
  {| fate := kfate; fine := FReply RFine; exec := exec_kafka |}.

(** ** The methods of replica [i] *)

Local Notation "x <~ c ;; k" := (@Do kcmd kafka_commands _ c (λ x, k))
  (at level 100, c at next level, right associativity, only parsing).

Variable namespace : string.
Variable i : nat.

Definition jobTopic (runnerKind : string) : string := namespace ++ ".jobs." ++ runnerKind.

(** The attempts that 200 ms pauses leave room for before the 10 s deadline. *)
Definition write_attempts : nat := 51.

(** [true]: no error. *)
Fixpoint write_loop (n : nat) (m : message) : prog kcmd bool :=
  match n with
  | O => Ret false
  | S n =>
      w <~ At i (WriteMessages m) ;;
      match w with
      | WOk => Ret true
      | WErr | WUnknownTopic true => Ret false
      | WUnknownTopic false => write_loop n m
      end
  end.

Definition writeWithTopicRetry (m : message) : prog kcmd bool := write_loop write_attempts m.

Definition putState (runID : string) (entry : option stateEntry) : prog kcmd bool :=
  bind (writeWithTopicRetry (MState runID entry)) (λ ok,
  if ok then _ <~ At i (SetState runID entry) ;; Ret true else Ret false).

Definition readerFor (runnerKind : string) : prog kcmd bool :=
  open <~ At i (HasReader (jobTopic runnerKind)) ;;
  if open then Ret true
  else
    ok <~ At i (EnsureTopic (jobTopic runnerKind)) ;;
    if ok then _ <~ At i (OpenReader (jobTopic runnerKind)) ;; Ret true else Ret false.

Definition is_canceled (e : option stateEntry) : bool :=
  match e with Some e => Canceled e | None => false end.

Definition Enqueue (job : RunAssignment) : prog kcmd (option go_error) :=
  e <~ At i (GetState (RunID job)) ;;
  if is_canceled e then Ret None
  else
    ok <~ At i (EnsureTopic (jobTopic (RunnerKind job))) ;;
    if ok then
      bind (writeWithTopicRetry (MJob (jobTopic (RunnerKind job)) (marshal job)))
        (λ ok, Ret (if ok then None else Some ErrBackend))
    else Ret (Some ErrBackend).

(** One turn of [Dequeue]'s loop. *)
Inductive kturn := KCtx | KExpired | KTry (now : Z).

Fixpoint dequeue_loop (runnerKind : string) (turns : list kturn)
  : prog kcmd (option (res go_error (option RunAssignment))) :=
  match turns with
  | [] => Ret None
  | KCtx :: _ => Ret (Some (Err ErrCanceled))
  | KExpired :: _ => Ret (Some (Ok None))
  | KTry now :: turns =>
      msg <~ At i (FetchMessage (jobTopic runnerKind)) ;;
      match msg with
      | KDeadline => Ret (Some (Ok None))
      | KErr => Ret (Some (Err ErrBackend))
      | KMsg off p =>
          let skip :=
            ok <~ At i (CommitMessages (jobTopic runnerKind) off) ;;
            if ok then dequeue_loop runnerKind turns else Ret (Some (Err ErrBackend)) in
          match unmarshal p with
          | None => skip
          | Some job =>
              e <~ At i (GetState (RunID job)) ;;
              if is_canceled e then skip
              else
                let job := if Generation job =? 0 then set_generation 1 job else job in
                bind (putState (RunID job) (Some (mkState false runnerKind (Generation job) now (Some p))))
                (λ ok,
                 if ok then
                   ok <~ At i (CommitMessages (jobTopic runnerKind) off) ;;
                   Ret (Some (if ok then Ok (Some job) else Err ErrBackend))
                 else Ret (Some (Err ErrBackend)))
          end
      end
  end.

Definition Dequeue (runnerKind : string) (turns : list kturn)
  : prog kcmd (option (res go_error (option RunAssignment))) :=
  bind (readerFor runnerKind) (λ ok,
  if ok then dequeue_loop runnerKind turns else Ret (Some (Err ErrBackend))).

Definition fence_entry (e : option stateEntry) (generation : Z) : option stateEntry :=
  match e with
  | Some e => if negb (Canceled e) && (SGeneration e =? generation) then Some e else None
  | None => None
  end.

Definition fenced (runID : string) (generation : Z) : prog kcmd (option stateEntry) :=
  e <~ At i (GetState runID) ;; Ret (fence_entry e generation).

Definition Ack (runID : string) (generation : Z) : prog kcmd (res go_error bool) :=
  bind (fenced runID generation) (λ f,
  match f with
  | None => Ret (Ok false)
  | Some _ => bind (putState runID None) (λ ok, Ret (if ok then Ok true else Err ErrBackend))
  end).

Definition touch (now : Z) (e : stateEntry) : stateEntry :=
  mkState (Canceled e) (SRunnerKind e) (SGeneration e) now (SJob e).

Definition Renew (now : Z) (runID : string) (generation : Z) : prog kcmd (res go_error bool) :=
  bind (fenced runID generation) (λ f,
  match f with
  | None => Ret (Ok false)
  | Some e => bind (putState runID (Some (touch now e))) (λ ok, Ret (if ok then Ok true else Err ErrBackend))
  end).

Definition entry_job (e : option stateEntry) : res go_error (option RunAssignment) :=
  match e with
  | None => Ok None
  | Some e =>
      if Canceled e then Ok None
      else
        match SJob e with
        | None => Ok None
        | Some p =>
            match unmarshal p with
            | None => Err ErrBackend
            | Some job => Ok (Some (if SGeneration e =? 0 then job else set_generation (SGeneration e) job))
            end
        end
  end.

Definition LookupInflight (runID : string) : prog kcmd (res go_error (option RunAssignment)) :=
  e <~ At i (GetState runID) ;; Ret (entry_job e).

Definition bumpGeneration (p : option payload) (newGen : Z) : option payload :=
  match p ≫= unmarshal with
  | None => None
  | Some job => Some (marshal (set_generation newGen job))
  end.

Definition Nack (runID : string) (generation : Z) : prog kcmd (option go_error) :=
  bind (fenced runID generation) (λ f,
  match f with
  | None => Ret None
  | Some e =>
      match bumpGeneration (SJob e) (SGeneration e + 1) with
      | None => Ret (Some ErrBackend)
      | Some p =>
          bind (writeWithTopicRetry (MJob (jobTopic (SRunnerKind e)) p)) (λ ok,
          if ok then bind (putState runID None) (λ ok, Ret (if ok then None else Some ErrBackend))
          else Ret (Some ErrBackend))
      end
  end).

Definition Cancel (runID : string) : prog kcmd (option go_error) :=
  bind (putState runID (Some (mkState true "" 0 0 None))) (λ ok, Ret (if ok then None else Some ErrBackend)).

(** The fields a failed [json.Unmarshal] leaves zero. *)
Definition job_or_zero (p : option payload) : string * string :=
  match p ≫= unmarshal with Some job => (GraphID job, TenantID job) | None => ("", "") end.

Fixpoint reclaim_loop (cutoff maxRetries : Z) (stale : list (string * stateEntry)) (reclaimed : Z)
    (dead : list PoisonPill) : prog kcmd (Z * list PoisonPill) :=
  match stale with
  | [] => Ret (reclaimed, dead)
  | (r, e) :: stale =>
      cur <~ At i (GetState r) ;;
      match cur with
      | Some cur =>
          if Canceled cur || negb (SGeneration cur =? SGeneration e) || (cutoff <? TouchedAtUnixMilli cur)
          then reclaim_loop cutoff maxRetries stale reclaimed dead
          else
            let newGen := SGeneration e + 1 in
            if (0 <? maxRetries) && (maxRetries <? newGen) then
              let (agent, tenant) := job_or_zero (SJob e) in
              reclaim_loop cutoff maxRetries stale reclaimed (dead ++ [mkPill r newGen agent tenant])
            else
              match bumpGeneration (SJob e) newGen with
              | None => reclaim_loop cutoff maxRetries stale reclaimed dead
              | Some p =>
                  bind (writeWithTopicRetry (MJob (jobTopic (SRunnerKind e)) p)) (λ ok,
                  if ok then
                    bind (putState r None) (λ ok,
                    reclaim_loop cutoff maxRetries stale (if ok then reclaimed + 1 else reclaimed) dead)
                  else reclaim_loop cutoff maxRetries stale reclaimed dead)
              end
      | None => reclaim_loop cutoff maxRetries stale reclaimed dead
      end
  end.

Definition stale_entry (cutoff : Z) (kv : string * stateEntry) : bool :=
  negb (Canceled kv.2) && (TouchedAtUnixMilli kv.2 <=? cutoff).

(** A range over a Go map visits the entries in any order, here [before]'s. *)
Definition ReclaimStale (before : string * stateEntry → string * stateEntry → bool)
    (now maxAge maxRetries : Z) : prog kcmd (Z * list PoisonPill) :=
  l <~ At i ListState ;;
  reclaim_loop (now - maxAge) maxRetries (List.filter (stale_entry (now - maxAge)) (sort_by before l)) 0 [].

(** The lag of one topic, when both of its offsets could be read. *)
Definition lag (prefix : string) (t : string * option Z * option Z) : Z :=
  match t with
  | (topic, Some last, Some committed) =>
      if String.prefix prefix topic then Z.max 0 (last - committed) else 0
  | _ => 0
  end.

Definition Len : prog kcmd (res go_error Z) :=
  l <~ At i TopicOffsets ;;
  Ret match l with Ok l => Ok (foldr (λ t n, lag (namespace ++ ".jobs.") t + n) 0 l) | Err e => Err e end.
End kafka.
