(* ===== verification/KafkaProps.v ===== *)
(** * Kafka: a crash loses no job

    Histories of calls on the queue of [Kafka], by any number of replicas whose
    views lag behind the state topic.  Calls do not interleave, but each may stop
    after any of its commands, its process then starting anew.  A job that was
    produced is waiting on its topic, is in flight on the state topic, or its run
    was canceled or acknowledged at a recorded generation.

    The theorem needs both conditions; the histories that lose a job without them
    are at the end. *)

From S2P Require Import Prelude Transport RedisQueue Programs Kafka.
Local Open Scope string_scope.
Local Open Scope nat_scope.

Section crash.
Context {WR : Wire}.
Variable namespace : string.

Inductive kcall :=
| KEnqueue (i : nat) (job : RunAssignment)
| KDequeue (i : nat) (kind : string) (turns : list kturn)
| KAck (i : nat) (r : string) (g : Z)
| KRenew (i : nat) (now : Z) (r : string) (g : Z)
| KLookup (i : nat) (r : string)
| KNack (i : nat) (r : string) (g : Z)
| KCancel (i : nat) (r : string)
| KReclaim (i : nat) (before : string * stateEntry → string * stateEntry → bool) (now maxAge maxRetries : Z)
| KLen (i : nat).

(** The caller. *)
Definition at_replica (c : kcall) : nat :=
  match c with
  | KEnqueue i _ | KDequeue i _ _ | KAck i _ _ | KRenew i _ _ _ | KLookup i _ | KNack i _ _
  | KCancel i _ | KReclaim i _ _ _ _ | KLen i => i
  end.

(** What a call answers, as far as the history needs it: whether a dispatch failed. *)
Definition dispatch_failed (o : option (res go_error (option RunAssignment))) : bool :=
  match o with Some (Err ErrBackend) => true | _ => false end.

Definition kbody (c : kcall) : prog kcmd bool :=
  match c with
  | KEnqueue i job => bind (Enqueue namespace i job) (λ _, Ret false)
  | KDequeue i kind turns => bind (Dequeue namespace i kind turns) (λ o, Ret (dispatch_failed o))
  | KAck i r g => bind (Ack i r g) (λ _, Ret false)
  | KRenew i now r g => bind (Renew i now r g) (λ _, Ret false)
  | KLookup i r => bind (LookupInflight i r) (λ _, Ret false)
  | KNack i r g => bind (Nack namespace i r g) (λ _, Ret false)
  | KCancel i r => bind (Cancel i r) (λ _, Ret false)
  | KReclaim i before now maxAge mr => bind (ReclaimStale namespace i before now maxAge mr) (λ _, Ret false)
  | KLen i => bind (Len namespace i) (λ _, Ret false)
  end.

(** ** Histories *)

Inductive kact :=
| Whole (c : kcall) (os : list kfate)             (* the call runs to its end *)
| Crash (c : kcall) (n : nat) (os : list kfate)   (* [n] of its commands, then its process restarts *)
| Tail (i : nat)                                  (* replica [i] reads one record of the state topic *)
| Restart (i : nat).

Record kworld := mkKWorld { k_cluster : Cluster; k_calls : list kcall }.

Definition kact_step (w : kworld) (a : kact) : kworld :=
  match a with
  | Whole c os => mkKWorld (run (kbody c) os (k_cluster w)).1 (k_calls w ++ [c])%list
  | Crash c n os =>
      mkKWorld (NewQueue (at_replica c) (run_prefix n (kbody c) os (k_cluster w))) (k_calls w ++ [c])%list
  | Tail i => mkKWorld (tailState i (k_cluster w)) (k_calls w)
  | Restart i => mkKWorld (NewQueue i (k_cluster w)) (k_calls w)
  end.

Definition khistory (w : kworld) (l : list kact) : kworld := foldl kact_step w l.

(** No dispatch fails without its process restarting. *)
Fixpoint restarts (w : kworld) (l : list kact) : Prop :=
  match l with
  | [] => True
  | a :: l =>
      match a with Whole c os => (run (kbody c) os (k_cluster w)).2 = false | _ => True end ∧
      restarts (kact_step w a) l
  end.

(** ** Where a job is *)

Definition job_at (s : Cluster) (t : string) (off : nat) (r : string) : Prop :=
  ∃ p a, topic_log s t !! off = Some p ∧ unmarshal p = Some a ∧ RunID a = r.

(** A copy of the job that a new session would fetch, and that no open session
    but [skip]'s has passed. *)
Definition waiting (skip : option nat) (s : Cluster) (r : string) : Prop :=
  ∃ t off, job_at s t off r ∧ offset s t ≤ off ∧
    ∀ j b, skip ≠ Some j → readers (replica s j) !! t = Some b → b ≤ off.

Definition in_flight (s : Cluster) (r : string) : Prop :=
  ∃ e, materialize (state_log s) !! r = Some e ∧ Canceled e = false.

Definition released (cs : list kcall) (s : Cluster) (r : string) : Prop :=
  (∃ i, KCancel i r ∈ cs) ∨ ∃ i e, KAck i r (SGeneration e) ∈ cs ∧ (r, Some e) ∈ state_log s.

Definition covered (cs : list kcall) (skip : option nat) (s : Cluster) (r : string) : Prop :=
  waiting skip s r ∨ in_flight s r ∨ released cs s r.

Definition entry_ok (cs : list kcall) (r : string) (e : stateEntry) : Prop :=
  if Canceled e then ∃ i, KCancel i r ∈ cs
  else ∃ p a, SJob e = Some p ∧ unmarshal p = Some a ∧ RunID a = r.

Record well_formed (cs : list kcall) (s : Cluster) : Prop := {
  wf_view j r e : view (replica s j) !! r = Some e → (r, Some e) ∈ state_log s;
  wf_entry r e : (r, Some e) ∈ state_log s → entry_ok cs r e;
  wf_offset t : offset s t ≤ length (topic_log s t);
  wf_reader j t b : readers (replica s j) !! t = Some b → b ≤ length (topic_log s t)
}.

(** Jobs other than [ex]'s are covered. *)
Record kinv (cs : list kcall) (skip : option nat) (ex : option string) (s : Cluster) : Prop := {
  ki_wf : well_formed cs s;
  ki_covered t off r : job_at s t off r → ex ≠ Some r → covered cs skip s r
}.

(** ** Generic facts *)

Lemma materialize_snoc l r : materialize (l ++ [r])%list = apply_record (materialize l) r.
Proof. unfold materialize. by rewrite foldl_app. Qed.

Lemma materialize_in l r e : materialize l !! r = Some e → (r, Some e) ∈ l.
Proof.
  induction l as [|[r' [e'|]] l IH] using rev_ind; rewrite ?materialize_snoc; unfold apply_record; simpl.
  - unfold materialize. simpl. by rewrite lookup_empty.
  - intros [[-> ->]|[_ ?]]%lookup_insert_Some; apply elem_of_app; [right; by left|left; auto].
  - intros [_ ?]%lookup_delete_Some. apply elem_of_app. left; auto.
Qed.

Lemma replica_set i q s j : replica (set_replica i q s) j = if decide (i = j) then q else replica s j.
Proof. unfold replica. simpl. case_decide; subst; [by rewrite lookup_insert_eq|by rewrite lookup_insert_ne]. Qed.

Lemma kafka_released_mono cs cs' s s' r :
  cs ⊆ cs' → (∀ x, x ∈ state_log s → x ∈ state_log s') → released cs s r → released cs' s' r.
Proof. intros Hc Hs [[i ?]|(i&e&?&?)]; [left; exists i; by apply Hc|right; exists i, e; auto]. Qed.

Lemma kinv_start cs skip ex s c : kinv cs skip ex s → kinv (cs ++ [c])%list skip ex s.
Proof.
  assert (cs ⊆ (cs ++ [c])%list) as Hc by set_solver. intros [[Hv He Ho Hr] Hk]. split.
  - split; try done. intros r e Hin. specialize (He r e Hin). unfold entry_ok in *.
    destruct (Canceled e); [|done]. destruct He as [i ?]. exists i. by apply Hc.
  - intros t off r Hj Hx. destruct (Hk t off r Hj Hx) as [?|[?|?]]; [by left|by right; left|right; right].
    by eapply kafka_released_mono.
Qed.

(** Skipping more sessions, excepting more jobs. *)
Lemma waiting_skip skip s r : waiting None s r → waiting skip s r.
Proof. intros (t&off&?&?&Hb). exists t, off. split; [done|]. split; [done|]. intros j b _. by apply Hb. Qed.

Lemma kinv_skip cs skip ex s : kinv cs None None s → kinv cs skip ex s.
Proof.
  intros [? Hk]. split; [done|]. intros t off r Hj _.
  destruct (Hk t off r Hj) as [?|[?|?]]; [done|left; by apply waiting_skip|by right; left|by right; right].
Qed.

(** A step that keeps the topics and the sessions. *)
Lemma kinv_view cs skip ex s i m : kinv cs skip ex s →
  (∀ r e, m !! r = Some e → (r, Some e) ∈ state_log s) → kinv cs skip ex (set_view i m s).
Proof.
  intros [[Hv He Ho Hr] Hk] Hm.
  assert (Hreaders : ∀ j, readers (replica (set_view i m s) j) = readers (replica s j)).
  { intros j. unfold set_view. rewrite replica_set. case_decide; by subst. }
  split; [split; try done|].
  - intros j r e. unfold set_view. rewrite replica_set. case_decide; [apply Hm|apply Hv].
  - intros j t b. rewrite Hreaders. apply Hr.
  - intros t off r Hj Hx. destruct (Hk t off r Hj Hx) as [(t'&o'&?&?&Hb)|Hc]; [left|right; done].
    exists t', o'. split; [done|]. split; [done|]. intros j b ?. rewrite Hreaders. by apply Hb.
Qed.

(** ** Appending to the topics *)

Lemma append_state_in r e s x : x ∈ state_log (append_state r e s) ↔ x ∈ state_log s ∨ x = (r, e).
Proof. simpl. rewrite elem_of_app, list_elem_of_singleton. done. Qed.

Lemma in_flight_other r e s r' : r ≠ r' → in_flight s r' → in_flight (append_state r e s) r'.
Proof.
  intros Hne (e'&He&Hc). exists e'. split; [|done]. simpl. rewrite materialize_snoc. unfold apply_record. simpl.
  destruct e; [by rewrite lookup_insert_ne|by rewrite lookup_delete_ne].
Qed.

Lemma append_state_inv cs skip ex ex' s r e : kinv cs skip ex s →
  match e with Some e => entry_ok cs r e | None => waiting skip s r ∨ released cs s r end →
  (ex' = ex ∨ ex = Some r) → kinv cs skip ex' (append_state r e s).
Proof.
  intros [[Hv He Ho Hr] Hk] Hnew Hex.
  assert (Hgrow : ∀ x, x ∈ state_log s → x ∈ state_log (append_state r e s)) by (intros; rewrite append_state_in; auto).
  split; [split; try done|].
  - intros j r' e' Hj. apply Hgrow. by eapply Hv.
  - intros r' e'. rewrite append_state_in. intros [?|[= -> <-]]; [by apply He|done].
  - intros t off r' Hj Hx. destruct (decide (r = r')) as [<-|Hne].
    + destruct e as [e|].
      * right. destruct (Canceled e) eqn:E.
        { right. left. unfold entry_ok in Hnew. by rewrite E in Hnew. }
        left. exists e. split; [|done]. simpl. rewrite materialize_snoc. unfold apply_record. simpl. apply lookup_insert_eq.
      * destruct Hnew; [by left|right; right]. by eapply kafka_released_mono.
    + assert (ex ≠ Some r') by (destruct Hex as [->| ->]; congruence).
      destruct (Hk t off r' Hj) as [?|[?|?]]; [done|by left|right; left; by apply in_flight_other|right; right].
      by eapply kafka_released_mono.
Qed.

Lemma topic_log_append t p s t' :
  topic_log (append_job t p s) t' = if decide (t = t') then (topic_log s t ++ [p])%list else topic_log s t'.
Proof.
  unfold topic_log. simpl. case_decide; subst; [apply map_get_insert_eq|by apply map_get_insert_ne].
Qed.

Lemma topic_log_grows t p s t' off q : topic_log s t' !! off = Some q → topic_log (append_job t p s) t' !! off = Some q.
Proof. intros Hl. rewrite topic_log_append. case_decide; [subst; by apply lookup_app_l_Some|done]. Qed.

Lemma job_at_grows t p s t' off r : job_at s t' off r → job_at (append_job t p s) t' off r.
Proof. intros (q&a&?&?&?). exists q, a. split; [by apply topic_log_grows|done]. Qed.

(** The new message is beyond every session. *)
Lemma append_waiting cs skip ex s t p a : kinv cs skip ex s → unmarshal p = Some a →
  waiting skip (append_job t p s) (RunID a).
Proof.
  intros [[_ _ Ho Hr] _] Ha. exists t, (length (topic_log s t)). split.
  - exists p, a. rewrite topic_log_append, decide_True by done. split; [|done].
    rewrite lookup_app_r by lia. by rewrite Nat.sub_diag.
  - split; [apply Ho|]. intros j b _ Hb. by apply (Hr j).
Qed.

Lemma append_job_inv cs skip ex s t p : kinv cs skip ex s → kinv cs skip ex (append_job t p s).
Proof.
  intros Hi. pose proof Hi as [[Hv He Ho Hr] Hk].
  assert (Hlen : ∀ t', length (topic_log s t') ≤ length (topic_log (append_job t p s) t')).
  { intros t'. rewrite topic_log_append. case_decide; [subst; rewrite length_app; simpl; lia|lia]. }
  split; [split; try done|].
  - intros t'. etrans; [apply Ho|apply Hlen].
  - intros j t' b Hb. etrans; [by eapply Hr|apply Hlen].
  - intros t' off r (q&a&Hl&Ha&Hid) Hx.
    assert (job_at s t' off r ∨ q = p) as [Hj| ->].
    { rewrite topic_log_append in Hl. case_decide; [subst|left; by exists q, a].
      apply lookup_app_Some in Hl as [Hl|[_ Hl]]; [left; by exists q, a|right].
      apply list_lookup_singleton_Some in Hl as [_ ->]. done. }
    + destruct (Hk t' off r Hj Hx) as [(t2&o2&?&?&?)|[?|?]]; [left|by right; left|by right; right].
      exists t2, o2. split; [by apply job_at_grows|done].
    + left. rewrite <- Hid. by eapply append_waiting.
Qed.

(** ** Sessions *)

Lemma readers_set i t off s j :
  readers (replica (set_reader i t off s) j) =
  if decide (i = j) then <[t := off]> (readers (replica s i)) else readers (replica s j).
Proof. unfold set_reader. rewrite replica_set. by case_decide. Qed.

Lemma view_set i t off s j : view (replica (set_reader i t off s) j) = view (replica s j).
Proof. unfold set_reader. rewrite replica_set. case_decide; by subst. Qed.

Lemma reader_wf cs i t off s : well_formed cs s → off ≤ length (topic_log s t) → well_formed cs (set_reader i t off s).
Proof.
  intros [Hv He Ho Hr] Hoff. split; try done.
  - intros j r e. rewrite view_set. apply Hv.
  - intros j t' b. rewrite readers_set. case_decide; [subst|apply Hr].
    intros [[<- <-]|[_ Hb]]%lookup_insert_Some; [done|by eapply Hr].
Qed.

(** Opening a reader: it starts at the committed offset. *)
Lemma open_inv cs i t s : kinv cs None None s → kinv cs None None (set_reader i t (offset s t) s).
Proof.
  intros [Hw Hk]. split; [apply reader_wf, Hw; done|]. intros t' off r Hj Hx.
  destruct (Hk t' off r Hj Hx) as [(t2&o2&?&?&Hb)|Hc]; [left|right; done].
  exists t2, o2. split; [done|]. split; [done|]. intros j b _. rewrite readers_set.
  case_decide; [subst|by apply Hb]. intros [[<- <-]|[_ ?]]%lookup_insert_Some; [done|by eapply Hb].
Qed.

(** What a session of replica [i] does leaves the others' guarantee alone. *)
Lemma session_skip cs i t off s :
  kinv cs None None s → off ≤ length (topic_log s t) → kinv cs (Some i) None (set_reader i t off s).
Proof.
  intros [Hw Hk] Hoff. split; [by apply reader_wf|]. intros t' o' r Hj Hx.
  destruct (Hk t' o' r Hj Hx) as [(t2&o2&?&?&Hb)|Hc]; [left|right; done].
  exists t2, o2. split; [done|]. split; [done|]. intros j b Hne. rewrite readers_set.
  rewrite decide_False by congruence. by apply Hb.
Qed.

(** Fetching: the message at the position is the only one passed. *)
Lemma fetch_inv cs i t p s :
  kinv cs None None s → topic_log s t !! position s i t = Some p →
  kinv cs None (RunID <$> unmarshal p) (set_reader i t (S (position s i t)) s).
Proof.
  intros [Hw Hk] Hp. pose proof (lookup_lt_Some _ _ _ Hp) as Hlt. split; [apply reader_wf; [done|lia]|].
  intros t' o' r Hj Hx. destruct (Hk t' o' r Hj) as [(t2&o2&Hj2&Ho2&Hb)|Hc]; [done|left|right; done].
  exists t2, o2. split; [done|]. split; [done|]. intros j b _. rewrite readers_set.
  case_decide; [subst|by apply Hb]. intros [[<- <-]|[_ ?]]%lookup_insert_Some; [|by eapply Hb].
  assert (position s j t ≤ o2) as Hpos.
  { unfold position. destruct (readers (replica s j) !! t) as [b|] eqn:E; simpl; [by eapply Hb|done]. }
  assert (o2 ≠ position s j t); [|lia]. intros ->. destruct Hj2 as (p'&a&Hp'&Ha&Hid).
  rewrite Hp in Hp'. injection Hp' as <-. apply Hx. by rewrite Ha, <- Hid.
Qed.

(** Committing what the session has passed. *)
Lemma commit_inv cs i t off s :
  kinv cs None None s → readers (replica s i) !! t = Some (S off) → kinv cs None None (commit_to t off s).
Proof.
  intros [[Hv He Ho Hr] Hk] Hi.
  assert (Hoff : ∀ t', offset (commit_to t off s) t' = if decide (t = t') then S off else offset s t').
  { intros t'. unfold offset. simpl. case_decide; subst; [by rewrite lookup_insert_eq|by rewrite lookup_insert_ne]. }
  split; [split; try done|].
  - intros t'. rewrite Hoff. case_decide; [subst; by eapply Hr|apply Ho].
  - intros t' o' r Hj Hx. destruct (Hk t' o' r Hj Hx) as [(t2&o2&?&?&Hb)|Hc]; [left|right; done].
    exists t2, o2. split; [done|]. split; [|done]. rewrite Hoff. case_decide; [subst; by eapply (Hb i)|done].
Qed.

(** A new process has no session. *)
Lemma restart_inv cs i s : kinv cs (Some i) None s → kinv cs None None (NewQueue i s).
Proof.
  intros [[Hv He Ho Hr] Hk]. unfold NewQueue. split; [split; try done|].
  - intros j r e. rewrite replica_set. case_decide; [apply materialize_in|apply Hv].
  - intros j t b. rewrite replica_set. case_decide; [done|apply Hr].
  - intros t off r Hj Hx. destruct (Hk t off r Hj Hx) as [(t2&o2&?&?&Hb)|Hc]; [left|right; done].
    exists t2, o2. split; [done|]. split; [done|]. intros j b _. rewrite replica_set.
    case_decide; [done|]. apply Hb. congruence.
Qed.

Lemma apply_record_in cs s m r e :
  well_formed cs s → (∀ r e, m !! r = Some e → (r, Some e) ∈ state_log s) → (r, e) ∈ state_log s →
  ∀ r' e', apply_record m (r, e) !! r' = Some e' → (r', Some e') ∈ state_log s.
Proof.
  intros _ Hm Hin r' e'. unfold apply_record. simpl. destruct e as [e|].
  - intros [[<- <-]|[_ ?]]%lookup_insert_Some; [done|by apply Hm].
  - intros [_ ?]%lookup_delete_Some. by apply Hm.
Qed.

Lemma tail_inv cs skip ex i s : kinv cs skip ex s → kinv cs skip ex (tailState i s).
Proof.
  intros Hi. unfold tailState. destruct (state_log s !! tailed (replica s i)) as [[r e]|] eqn:E; [|done].
  pose proof Hi as [Hw _]. apply list_elem_of_lookup_2 in E.
  assert (Hview : kinv cs skip ex (set_view i (apply_record (view (replica s i)) (r, e)) s)).
  { apply kinv_view; [done|]. eapply apply_record_in; [done| |done]. intros r' e'. apply (wf_view _ _ Hw). }
  destruct Hview as [[Hv He Ho Hr] Hk].
  assert (Hv2 : ∀ j, view (replica (set_replica i (mkReplica (apply_record (view (replica s i)) (r, e))
      (S (tailed (replica s i))) (readers (replica s i))) s) j) =
    view (replica (set_view i (apply_record (view (replica s i)) (r, e)) s) j)).
  { intros j. unfold set_view. rewrite !replica_set. by case_decide. }
  assert (Hr2 : ∀ j, readers (replica (set_replica i (mkReplica (apply_record (view (replica s i)) (r, e))
      (S (tailed (replica s i))) (readers (replica s i))) s) j) =
    readers (replica (set_view i (apply_record (view (replica s i)) (r, e)) s) j)).
  { intros j. unfold set_view. rewrite !replica_set. by case_decide. }
  split; [split; try done|].
  - intros j r' e'. rewrite Hv2. apply Hv.
  - intros j t b. rewrite Hr2. apply Hr.
  - intros t off r' Hj Hx. destruct (Hk t off r' Hj Hx) as [(t2&o2&?&?&Hb)|Hc]; [left|right; done].
    exists t2, o2. split; [done|]. split; [done|]. intros j b ?. rewrite Hr2. by apply Hb.
Qed.

(** ** Every call, cut anywhere *)

(** A job that was decoded is encoded faithfully. *)
Hypothesis Hround : ∀ p a g, unmarshal p = Some a →
  unmarshal (marshal (set_generation g a)) = Some (set_generation g a).

#[local] Set Default Proof Using "All".

Definition any (_ : kfate) : Prop := True.

Lemma write_triple I i n m s : I s → I (append m s) →
  triple any I (write_loop i n m)
    (λ s' ok, if ok : bool then s' = append m s else s' = s ∨ s' = append m s) s.
Proof.
  intros Hs Ha. revert s Hs Ha. induction n as [|n IH]; intros s Hs Ha; simpl; [by left|].
  intros o _. destruct o as [[]|[]|]; simpl; auto.
Qed.

Definition put_result (i : nat) (r : string) (e : option stateEntry) (s : Cluster) : Cluster :=
  set_view i (apply_record (view (replica s i)) (r, e)) (append_state r e s).

Lemma put_triple I i r e s : I s → I (append_state r e s) → I (put_result i r e s) →
  triple any I (putState i r e)
    (λ s' ok, if ok : bool then s' = put_result i r e s else s' = s ∨ s' = append_state r e s) s.
Proof.
  intros Hs Ha Hp. apply triple_bind. eapply triple_mono; [done| |by apply write_triple].
  intros s' [] Hs'; simpl in *; [subst|done]. intros o _. split; [done|]. done.
Qed.

Section call.
Context (cs : list kcall) (i : nat).

(** Everything is covered; everything is, but for what the sessions of the
    caller have passed. *)
Let K : Cluster → Prop := kinv cs None None.
Let L : Cluster → Prop := kinv cs (Some i) None.

Lemma K_L s : K s → L s.
Proof. apply kinv_skip. Qed.

Lemma put_result_inv skip r e s : kinv cs skip None (append_state r e s) → well_formed cs s →
  kinv cs skip None (put_result i r e s).
Proof.
  intros Hi Hw. apply kinv_view; [done|]. eapply (apply_record_in cs).
  - apply Hi.
  - intros r' e' Hv. apply append_state_in. left. by eapply wf_view.
  - apply append_state_in. by right.
Qed.

(** Recording a state that keeps everything covered. *)
Lemma put_keeps r e s : K s →
  match e with Some e => entry_ok cs r e | None => waiting None s r ∨ released cs s r end →
  triple any K (putState i r e) (λ s' _, K s' ∧ state_log s ⊆ state_log s') s.
Proof.
  intros Hk He. assert (Ha : K (append_state r e s)) by (apply (append_state_inv cs None None); [done..|by left]).
  assert (state_log s ⊆ (state_log s ++ [(r, e)])%list) as Hsub by set_solver.
  assert (Hp : K (put_result i r e s)) by (apply put_result_inv; [done|apply Hk]).
  eapply triple_mono; [done| |by apply put_triple].
  intros s' [] Hs'; simpl in Hs'; [by subst|]. by destruct Hs'; subst.
Qed.

(** Producing a job. *)
Lemma produce_keeps t p s : K s →
  triple any K (writeWithTopicRetry i (MJob t p))
    (λ s' ok, K s' ∧ state_log s' = state_log s ∧
              (ok = true → ∀ a, unmarshal p = Some a → waiting None s' (RunID a))) s.
Proof.
  intros Hk. assert (Ha : K (append_job t p s)) by (by apply append_job_inv).
  eapply triple_mono; [done| |by apply write_triple].
  intros s' [] Hs'; simpl in Hs'.
  - subst. split; [done|]. split; [done|]. intros _ a Hu. by eapply append_waiting.
  - destruct Hs' as [->| ->]; by split_and!.
Qed.

#[local] Opaque writeWithTopicRetry putState.

Lemma entry_of s r e : K s → view (replica s i) !! r = Some e → (r, Some e) ∈ state_log s.
Proof. intros [Hw _]. apply Hw. Qed.

Lemma fence_some s r g e : fence_entry (view (replica s i) !! r) g = Some e → K s →
  (r, Some e) ∈ state_log s ∧ Canceled e = false ∧ SGeneration e = g.
Proof.
  unfold fence_entry. destruct (view (replica s i) !! r) as [e'|] eqn:E; [|done].
  destruct (_ && _) eqn:Eb; [|done]. intros [= <-] Hk. bool_solve. split; [by apply entry_of|done].
Qed.

Lemma live_entry s r e : K s → (r, Some e) ∈ state_log s → Canceled e = false →
  ∃ p a, SJob e = Some p ∧ unmarshal p = Some a ∧ RunID a = r.
Proof. intros [Hw _] Hin Hc. pose proof (wf_entry _ _ Hw r e Hin) as He. unfold entry_ok in He. by rewrite Hc in He. Qed.

(** The job produced again is the entry's. *)
Lemma bump_job s r e g p a : K s → (r, Some e) ∈ state_log s → Canceled e = false →
  bumpGeneration (SJob e) g = Some p → unmarshal p = Some a → RunID a = r.
Proof.
  intros Hk Hin Hc Hb Ha. destruct (live_entry s r e Hk Hin Hc) as (q&b&Hq&Hb'&<-).
  unfold bumpGeneration in Hb. rewrite Hq in Hb. simpl in Hb. rewrite Hb' in Hb. injection Hb as <-.
  rewrite (Hround _ _ _ Hb') in Ha. by injection Ha as <-.
Qed.

Lemma bump_decodes e g p : bumpGeneration (SJob e) g = Some p → ∃ a, unmarshal p = Some a.
Proof.
  unfold bumpGeneration. destruct (SJob e ≫= unmarshal) as [b|] eqn:E; [|done]. intros [= <-].
  destruct (SJob e) as [q|]; [|done]. simpl in E. eexists. by apply (Hround q).
Qed.

(** Handing a job back: produced again, then its entry is dropped. *)
Lemma requeue_keeps {A} (k1 k2 : bool → prog kcmd A) t r e g p s (Q : Cluster → A → Prop) :
  K s → (r, Some e) ∈ state_log s → Canceled e = false → bumpGeneration (SJob e) g = Some p →
  (∀ s' ok, K s' → state_log s ⊆ state_log s' → triple any K (k1 ok) Q s') →
  (∀ s', K s' → state_log s ⊆ state_log s' → triple any K (k2 false) Q s') →
  triple any K (bind (writeWithTopicRetry i (MJob t p)) (λ ok, if ok then bind (putState i r None) k1 else k2 false)) Q s.
Proof.
  intros Hk Hin Hc Hb Hk1 Hk2. apply triple_bind. eapply triple_mono; [done| |by apply produce_keeps].
  intros s1 ok (Hs1&Hlog&Hw). destruct ok; [|apply Hk2; [done|by rewrite Hlog]].
  destruct (bump_decodes _ _ _ Hb) as [a Ha].
  pose proof (bump_job s r e g p a Hk Hin Hc Hb Ha) as Hid. subst r.
  apply triple_bind. eapply triple_mono; [done| |apply put_keeps; [done|left; by apply Hw]].
  intros s2 ok2 [Hs2 Hsub]. apply Hk1; [done|]. by rewrite <- Hlog.
Qed.

Lemma keeps_Enqueue job s : K s → triple any K (Enqueue namespace i job) (λ s' _, K s') s.
Proof.
  intros Hk o _. split; [done|]. simpl. destruct (is_canceled _); [done|]. intros o1 _. split; [done|].
  destruct o1 as [[]|[]|]; simpl; try done. apply triple_bind.
  eapply triple_mono; [done| |by apply produce_keeps]. simpl. by intros s' ok [? _].
Qed.

Lemma keeps_Ack r g s : (∃ j, KAck j r g ∈ cs) → K s → triple any K (Ack i r g) (λ s' _, K s') s.
Proof.
  intros [j Hin] Hk o _. split; [done|]. simpl.
  destruct (fence_entry _ g) as [e|] eqn:E; [|done]. destruct (fence_some _ _ _ _ E Hk) as (He&Hc&<-).
  apply triple_bind. eapply triple_mono; [done| |apply put_keeps; [done|right; right; by exists j, e]].
  by intros s' ok [? _].
Qed.

Lemma keeps_Renew now r g s : K s → triple any K (Renew i now r g) (λ s' _, K s') s.
Proof.
  intros Hk o _. split; [done|]. simpl.
  destruct (fence_entry _ g) as [e|] eqn:E; [|done]. destruct (fence_some _ _ _ _ E Hk) as (He&Hc&<-).
  apply triple_bind. eapply triple_mono; [done| |apply put_keeps; [done|]]; [by intros s' ok [? _]|].
  unfold entry_ok. simpl. rewrite Hc. by eapply live_entry.
Qed.

Lemma keeps_Nack r g s : K s → triple any K (Nack namespace i r g) (λ s' _, K s') s.
Proof.
  intros Hk o _. split; [done|]. simpl.
  destruct (fence_entry _ g) as [e|] eqn:E; [|done]. destruct (fence_some _ _ _ _ E Hk) as (He&Hc&_).
  destruct (bumpGeneration _ _) as [p|] eqn:Hb; [|done].
  by apply (requeue_keeps (λ ok, Ret (if ok then None else Some ErrBackend)) (λ _, Ret (Some ErrBackend))
    _ r e (SGeneration e + 1)).
Qed.

Lemma keeps_Cancel r s : (∃ j, KCancel j r ∈ cs) → K s → triple any K (Cancel i r) (λ s' _, K s') s.
Proof.
  intros Hin Hk. apply triple_bind. eapply triple_mono; [done| |by apply put_keeps]. by intros s' ok [? _].
Qed.

Lemma keeps_reclaim_loop cutoff mr stale n dead s : K s →
  Forall (λ kv, (kv.1, Some kv.2) ∈ state_log s ∧ Canceled kv.2 = false) stale →
  triple any K (reclaim_loop namespace i cutoff mr stale n dead) (λ s' _, K s') s.
Proof.
  revert s n dead. induction stale as [|[r e] stale IH]; intros s n dead Hk Hall; [done|].
  apply list.Forall_cons in Hall as [[Hin Hc] Hall]. simpl in Hin, Hc. simpl. intros o _. split; [done|].
  destruct (view (replica s i) !! r) as [cur|]; [|by apply IH]. destruct (_ || _); [by apply IH|].
  destruct (_ && _); [destruct (job_or_zero _); by apply IH|].
  destruct (bumpGeneration _ _) as [p|] eqn:Hb; [|by apply IH].
  assert (Hnext : ∀ s' n, K s' → state_log s ⊆ state_log s' →
    triple any K (reclaim_loop namespace i cutoff mr stale n dead) (λ s' _, K s') s').
  { intros s' n' Hk' Hsub. apply IH; [done|]. eapply list.Forall_impl; [done|]. intros kv [? ?]. split; [by apply Hsub|done]. }
  apply (requeue_keeps (λ ok, reclaim_loop namespace i cutoff mr stale (if ok : bool then n + 1 else n) dead)%Z
    (λ _, reclaim_loop namespace i cutoff mr stale n dead) _ r e (SGeneration e + 1)); auto.
Qed.

Lemma keeps_ReclaimStale before now maxAge mr s : K s →
  triple any K (ReclaimStale namespace i before now maxAge mr) (λ s' _, K s') s.
Proof.
  intros Hk o _. split; [done|]. simpl. apply keeps_reclaim_loop; [done|]. apply list.Forall_forall.
  intros [r e] [Hin Hst]%list_elem_of_In%List.filter_In. rewrite <- list_elem_of_In, sort_by_perm in Hin.
  apply elem_of_map_to_list in Hin. simpl. split; [by apply entry_of|].
  unfold stale_entry in Hst. simpl in Hst. by bool_solve.
Qed.

(** ** Dispatch *)

Lemma unexcept r s : kinv cs None (Some r) s → covered cs None s r → K s.
Proof.
  intros [Hw Hk] Hr. split; [done|]. intros t off r' Hj _. destruct (decide (r = r')) as [<-|Hne]; [done|].
  apply (Hk t off r' Hj). congruence.
Qed.

(** What a dispatch leaves behind: when it reports no failure, everything is
    covered. *)
Definition dispatched (s : Cluster) (x : option (res go_error (option RunAssignment))) : Prop :=
  L s ∧ (dispatch_failed x = false → K s).

Lemma dispatched_K s x : K s → dispatched s x.
Proof. intros Hk. split; [by apply K_L|done]. Qed.

(** A commit of what the session has passed, then [k]. *)
Lemma commit_triple t off s (k : bool → prog kcmd (option (res go_error (option RunAssignment)))) :
  K s → readers (replica s i) !! t = Some (S off) →
  (∀ s' ok, K s' → triple any L (k ok) dispatched s') →
  triple any L (@Do kcmd kafka_commands _ (At i (CommitMessages t off)) k) dispatched s.
Proof.
  intros Hk Hr Hn o _. assert (Hc : K (commit_to t off s)) by (by eapply commit_inv).
  destruct o as [[]|[]|]; simpl; (split; [by apply K_L|by apply Hn]).
Qed.

Lemma put_result_readers r e s : readers (replica (put_result i r e s) i) = readers (replica s i).
Proof. unfold put_result, set_view. rewrite replica_set, decide_True by done. done. Qed.

Lemma fetched_reader t off s : readers (replica (set_reader i t off s) i) !! t = Some off.
Proof. rewrite readers_set, decide_True by done. apply lookup_insert_eq. Qed.

(** Recording the fetched job, then committing it. *)
Lemma record_triple t off job e s :
  L s → kinv cs None (Some (RunID job)) s → entry_ok cs (RunID job) e → readers (replica s i) !! t = Some (S off) →
  triple any L
    (bind (putState i (RunID job) (Some e))
       (λ ok, if ok then
          @Do kcmd kafka_commands _ (At i (CommitMessages t off))
            (λ ok : bool, Ret (Some (if ok then Ok (Some job) else Err ErrBackend)))
        else Ret (Some (Err ErrBackend)))) dispatched s.
Proof.
  intros Hl Hx He Hr.
  assert (Ha : K (append_state (RunID job) (Some e) s))
    by (apply (append_state_inv cs None (Some (RunID job))); [done..|by right]).
  assert (Hp : K (put_result i (RunID job) (Some e) s)) by (apply put_result_inv; [done|apply Hl]).
  apply triple_bind. eapply triple_mono; [done| |apply put_triple; [done|by apply K_L..]].
  intros s' [] Hs'; simpl in Hs'.
  - subst s'. apply commit_triple; [done|by rewrite put_result_readers|]. intros s' ok Hk. by apply dispatched_K.
  - split; [|done]. by destruct Hs' as [->| ->]; [|apply K_L].
Qed.

Lemma keeps_dequeue_loop kind turns s : K s → triple any L (dequeue_loop namespace i kind turns) dispatched s.
Proof.
  revert s. induction turns as [|[| |now] turns IH]; intros s Hk; try (by apply dispatched_K).
  set (t := jobTopic namespace kind). intros o _. simpl exec. fold t.
  destruct (topic_log s t !! position s i t) as [p|] eqn:Hp; fold t.
  2: { destruct o as [[]|[]|]; simpl; (split; [by apply K_L|by apply dispatched_K]). }
  pose proof (lookup_lt_Some _ _ _ Hp) as Hlt.
  assert (Hl : L (set_reader i t (S (position s i t)) s)) by (apply session_skip; [done|lia]).
  destruct o as [[]|[]|]; simpl; try (by split; [apply K_L|apply dispatched_K]); [|by split].
  split; [done|]. pose proof (fetch_inv cs i t p s Hk Hp) as Hx.
  pose proof (fetched_reader t (S (position s i t)) s) as Hr. set (s1 := set_reader _ _ _ s) in *.
  assert (Hskip : K s1 → triple any L
    (@Do kcmd kafka_commands _ (At i (CommitMessages t (position s i t)))
      (λ ok : bool, if ok then dequeue_loop namespace i kind turns else Ret (Some (Err ErrBackend)))) dispatched s1).
  { intros Hk1. apply commit_triple; [done|done|]. intros s' [] Hk'; [by apply IH|by apply dispatched_K]. }
  destruct (unmarshal p) as [job|] eqn:Hu; [|by apply Hskip].
  intros o2 _. split; [done|]. simpl. destruct (is_canceled _) eqn:Hc.
  - apply Hskip. apply (unexcept _ _ Hx). right. right. left.
    destruct (view (replica s1 i) !! RunID job) as [e|] eqn:He; [|done]. simpl in Hc.
    pose proof (wf_view _ _ (ki_wf _ _ _ _ Hx) _ _ _ He) as Hin.
    pose proof (wf_entry _ _ (ki_wf _ _ _ _ Hx) _ _ Hin) as Hok. unfold entry_ok in Hok. by rewrite Hc in Hok.
  - assert (RunID (if (Generation job =? 0)%Z then set_generation 1 job else job) = RunID job) as Hid
      by (by destruct (_ =? _)%Z).
    apply record_triple; [done|by rewrite Hid|by exists p, job|done].
Qed.

Lemma keeps_Dequeue kind turns s : K s → triple any L (Dequeue namespace i kind turns) dispatched s.
Proof.
  intros Hk o _. split; [by apply K_L|]. simpl. case_bool_decide; [by apply keeps_dequeue_loop|].
  intros o1 _. split; [by apply K_L|]. destruct o1 as [[]|[]|]; simpl; try (by apply dispatched_K).
  intros o2 _. assert (Ho : K (set_reader i (jobTopic namespace kind) (offset s (jobTopic namespace kind)) s))
    by (by apply open_inv). split; [by apply K_L|by apply keeps_dequeue_loop].
Qed.
End call.

Lemma keeps_body cs c s : c ∈ cs → kinv cs None None s →
  triple any (kinv cs (Some (at_replica c)) None) (kbody c)
    (λ s' b, kinv cs (Some (at_replica c)) None s' ∧ (b = false → kinv cs None None s')) s.
Proof.
  intros Hin Hk.
  assert (Hlift : ∀ A (p : prog kcmd A), triple any (kinv cs None None) p (λ s' _, kinv cs None None s') s →
    triple any (kinv cs (Some (at_replica c)) None) (bind p (λ _, Ret false))
      (λ s' b, kinv cs (Some (at_replica c)) None s' ∧ (b = false → kinv cs None None s')) s).
  { intros A p Hp. apply triple_bind. eapply triple_mono; [| |done]; [intros s'; apply K_L|].
    intros s' x Hs'. split; [by apply K_L|done]. }
  destruct c as [i job|i kind turns|i r g|i now r g|i r|i r g|i r|i before now maxAge mr|i]; unfold kbody; cbn [at_replica] in *.
  - by apply Hlift, keeps_Enqueue.
  - apply triple_bind. eapply triple_mono; [done| |by apply keeps_Dequeue]. by intros s' x [? ?].
  - apply Hlift, keeps_Ack; [by exists i|done].
  - by apply Hlift, keeps_Renew.
  - apply Hlift. intros o _. done.
  - by apply Hlift, keeps_Nack.
  - apply Hlift, keeps_Cancel; [by exists i|done].
  - by apply Hlift, keeps_ReclaimStale.
  - apply Hlift. intros o _. done.
Qed.

Definition empty_cluster : Cluster := mkCluster ∅ ∅ [] ∅.

Lemma kinv_empty : kinv [] None None empty_cluster.
Proof.
  assert (Hr : ∀ j, replica empty_cluster j = mkReplica ∅ 0 ∅) by done.
  assert (Ht : ∀ t, topic_log empty_cluster t = []) by done.
  split; [split|].
  - intros j r e. rewrite Hr. simpl. by rewrite lookup_empty.
  - intros r e ?%not_elem_of_nil. done.
  - intros t. unfold offset. simpl. rewrite lookup_empty. simpl. lia.
  - intros j t b. rewrite Hr. simpl. by rewrite lookup_empty.
  - intros t off r (p&a&Hl&_). by rewrite Ht in Hl.
Qed.

Lemma history_inv w l : kinv (k_calls w) None None (k_cluster w) → restarts w l →
  kinv (k_calls (khistory w l)) None None (k_cluster (khistory w l)).
Proof.
  revert w. induction l as [|a l IH]; intros w Hw Hr; [done|]. simpl. destruct Hr as [Ha Hr].
  apply IH; [|done]. destruct a as [c os|c n os|i|i]; simpl in *.
  - assert (Hs : kinv (k_calls w ++ [c])%list None None (k_cluster w)) by (by apply kinv_start).
    assert (c ∈ (k_calls w ++ [c])%list) as Hin by set_solver.
    pose proof (triple_run any _ _ _ os _ I (Forall_true _ _ (λ _, I)) (keeps_body _ c _ Hin Hs)) as [_ Hk]. auto.
  - assert (Hs : kinv (k_calls w ++ [c])%list None None (k_cluster w)) by (by apply kinv_start).
    assert (c ∈ (k_calls w ++ [c])%list) as Hin by set_solver.
    apply restart_inv. exact (triple_prefix any _ _ _ n os _ I (Forall_true _ _ (λ _, I)) (K_L _ (at_replica c) _ Hs) (keeps_body _ c _ Hin Hs)).
  - by apply tail_inv.
  - by apply restart_inv, K_L.
Qed.

(** C21. A crash of any replica, after any command of any call, loses no job on
    the Kafka queue: over every history of calls that do not interleave, by
    replicas whose views lag arbitrarily, in which a process whose dispatch failed
    restarts, a job that was ever produced has a copy beyond the committed offset
    and beyond every open session, or is in flight on the state topic, or its run
    was canceled, or acknowledged at a generation it was dispatched with. *)
Theorem kafka_crash_safe l t off r :
  let w0 := mkKWorld empty_cluster [] in
  let w := khistory w0 l in
  restarts w0 l → job_at (k_cluster w) t off r →
  waiting None (k_cluster w) r ∨ in_flight (k_cluster w) r ∨ released (k_calls w) (k_cluster w) r.
Proof.
  intros w0 w Hr Hj. apply (ki_covered _ _ _ _ (history_inv w0 l kinv_empty Hr) t off r Hj). done.
Qed.
End crash.

(** * Kafka: concrete histories
    The crash theorem applied to a history; and the histories its conditions
    exclude, in which the queue loses a job, accepts an acknowledgement twice or
    brings a finished job back.  *)

From S2P Require Import RedisSteps Programs Kafka.
Local Open Scope string_scope.
Local Open Scope nat_scope.

#[local] Existing Instances plain_wire plain_wire_ok.

Definition k_job (id : string) : RunAssignment := plain_job id 0.
Definition k_topic : string := jobTopic "rk" kind.

Lemma plain_round : ∀ p a g, unmarshal p = Some a →
  unmarshal (marshal (set_generation g a)) = Some (set_generation g a).
Proof. intros [id g0] a g [= <-]. done. Qed.

Definition k_start : kworld := mkKWorld empty_cluster [].
Definition khist (l : list kact) : kworld := khistory "rk" k_start l.

(** Two jobs; the first dispatcher crashes after writing the state record, before
    its commit; the job is fetched again, and handed back. *)
Definition crash_history : list kact :=
  [Whole (KEnqueue 0 (k_job "run-1")) []; Whole (KEnqueue 1 (k_job "run-2")) [];
   Crash (KDequeue 0 kind [KTry 5]) 6 []; Whole (KDequeue 1 kind [KTry 6]) [];
   Tail 0; Tail 0; Crash (KNack 1 "run-1" 1) 2 []].

Lemma kafka_crash_safe_witness :
  let w := khist crash_history in
  restarts "rk" k_start crash_history ∧ job_at (k_cluster w) k_topic 0 "run-1" ∧
  (waiting None (k_cluster w) "run-1" ∨ in_flight (k_cluster w) "run-1" ∨ released (k_calls w) (k_cluster w) "run-1").
Proof.
  assert (restarts "rk" k_start crash_history) by (vm_compute; repeat split).
  assert (job_at (k_cluster (khist crash_history)) k_topic 0 "run-1").
  { exists ("run-1", 0%Z), (k_job "run-1"). vm_compute. repeat split. }
  split; [assumption|]. split; [assumption|].
  apply (kafka_crash_safe "rk" plain_round crash_history k_topic 0 "run-1"); assumption.
Defined.

(** ** Lost jobs *)

(** No copy left: what a restarted process finds. *)
Definition lost (w : kworld) (r : string) : Prop :=
  (∃ t off, job_at (k_cluster w) t off r) ∧
  ¬ (waiting None (k_cluster w) r ∨ in_flight (k_cluster w) r ∨ released (k_calls w) (k_cluster w) r).

(** Everything on the one topic in use is committed. *)
Lemma all_committed s r :
  (∀ t, t ≠ k_topic → topic_log s t = []) → length (topic_log s k_topic) ≤ offset s k_topic → ¬ waiting None s r.
Proof.
  intros Ht Hlen (t&off&(p&a&Hp&_)&Hoff&_). destruct (decide (t = k_topic)) as [->|Hne].
  - apply lookup_lt_Some in Hp. lia.
  - by rewrite (Ht t Hne) in Hp.
Qed.

Lemma one_topic s l t : job_log s = {[ k_topic := l ]} → t ≠ k_topic → topic_log s t = [].
Proof. intros Hs Hne. unfold topic_log, map_get. rewrite Hs. by rewrite lookup_singleton_ne. Qed.

(** A job is lost when the topics are committed, its run has no state record and
    nobody canceled or acknowledged it. *)
Lemma lost_intro w r l :
  job_log (k_cluster w) = {[ k_topic := l ]} → length l ≤ offset (k_cluster w) k_topic →
  (∃ off, job_at (k_cluster w) k_topic off r) →
  materialize (state_log (k_cluster w)) !! r = None →
  forallb (λ c, match c with KCancel _ _ | KAck _ _ _ => false | _ => true end) (k_calls w) = true →
  lost w r.
Proof.
  intros Hl Hlen [off Hj] Hm Hc. split; [by eauto|]. intros [Hw|[(e&He&_)|Hr]].
  - revert Hw. apply all_committed; [intros t; by eapply one_topic|].
    unfold topic_log, map_get. rewrite Hl, lookup_singleton_eq. done.
  - by rewrite Hm in He.
  - rewrite forallb_forall in Hc. destruct Hr as [[i Hi]|(i&e&Hi&_)]; apply list_elem_of_In, Hc in Hi; done.
Qed.

Definition fr (l : list reply) : list kfate := FReply <$> l.

(** One state write fails; the process goes on.  The next dispatch commits past
    the job that was not recorded, and no restart brings it back. *)
Definition failed_record : list kact :=
  [Whole (KEnqueue 0 (k_job "run-1")) []; Whole (KEnqueue 0 (k_job "run-2")) [];
   Whole (KDequeue 0 kind [KTry 5]) (fr [RFine; RFine; RFine; RFine; RFine; RDown]);
   Whole (KDequeue 0 kind [KTry 6]) []; Restart 0].

Theorem kafka_failed_record_loses_job : lost (khist failed_record) "run-1".
Proof.
  apply (lost_intro _ _ [("run-1", 0%Z); ("run-2", 0%Z)]).
  - vm_compute. reflexivity.
  - vm_compute. lia.
  - exists 0, ("run-1", 0%Z), (k_job "run-1"). vm_compute. repeat split.
  - vm_compute. reflexivity.
  - vm_compute. reflexivity.
Qed.

(** ** Interleaved calls of one process *)

Definition k_steps (i n : nat) : list (act Cluster kcall unit) := replicate n (Step i (FReply RFine)).

Definition interleave (l : list (act Cluster kcall unit)) : world kcmd Cluster kcall bool :=
  acts (kbody "rk") (λ _ s, s) (mkWorld (k_cluster (khist [Whole (KEnqueue 0 (k_job "run-1")) []; Whole (KDequeue 0 kind [KTry 5]) []])) [] []) l.

(** A sweep takes a stale job back: it produces the job again and then drops the
    run's record.  A dispatcher fetches the new copy in between, and the record the
    sweep drops is the dispatcher's. *)
Definition requeue_race : list (act Cluster kcall unit) :=
  ([Start (KReclaim 0 (λ _ _, true) 100 10 5)] ++ k_steps 0 3 ++
   [Start (KDequeue 0 kind [KTry 100])] ++ k_steps 1 6 ++ k_steps 0 2)%list.

Theorem kafka_requeue_race_loses_job :
  let w := interleave requeue_race in
  w_threads w = [Ret false; Ret false] ∧ lost (mkKWorld (NewQueue 0 (w_server w)) (w_calls w)) "run-1".
Proof.
  split; [vm_compute; reflexivity|]. apply (lost_intro _ _ [("run-1", 0%Z); ("run-1", 2%Z)]).
  - vm_compute. reflexivity.
  - vm_compute. lia.
  - exists 1, ("run-1", 2%Z), (plain_job "run-1" 2). vm_compute. repeat split.
  - vm_compute. reflexivity.
  - vm_compute. reflexivity.
Qed.

(** A heartbeat that read its record before the acknowledgement writes it back
    after: the finished job is in flight again. *)
Definition renew_race : list (act Cluster kcall unit) :=
  ([Start (KRenew 0 9 "run-1" 1); Start (KAck 0 "run-1" 1)] ++ k_steps 0 1 ++ k_steps 1 3 ++ k_steps 0 2)%list.

Theorem kafka_renew_resurrects :
  let w := interleave renew_race in
  w_threads w = [Ret false; Ret false] ∧ (∃ e, materialize (state_log (w_server w)) !! "run-1" = Some e) ∧
  (run (S:=Cluster) (LookupInflight 0 "run-1") [] (w_server w)).2 = Ok (Some (plain_job "run-1" 1)).
Proof. split; [vm_compute; reflexivity|]. split; [eexists|]; vm_compute; reflexivity. Qed.

(** One process, one call after the other: reading the state topic back puts a
    record older than the process's own writes into its view, and the
    acknowledgement is accepted a second time. *)
Theorem kafka_stale_tail_accepts_twice :
  let s1 := k_cluster (khist [Whole (KEnqueue 0 (k_job "run-1")) []; Whole (KDequeue 0 kind [KTry 5]) []]) in
  let a1 := run (S:=Cluster) (Ack 0 "run-1" 1) [] s1 in
  let a2 := run (S:=Cluster) (Ack 0 "run-1" 1) [] (tailState 0 a1.1) in
  a1.2 = Ok true ∧ a2.2 = Ok true.
Proof. vm_compute. done. Qed.
