(* ===== verification/Namespaces.v ===== *)
(** * Namespaces of the key-value store as text

    [nsToString], [stringToNs], [nsPrefixPattern], [nsSuffixPattern]
    ([internal/state/sqlite/sqlite.go]), [parseNamespaceParam]
    ([internal/api/store.go]), and SQLite's LIKE operator: [%] matches any text,
    [_] one character, and ASCII letters match in either case.  Texts are UTF-8
    and hold no NUL byte. *)

From Stdlib Require Import Ascii String.
From S2P Require Import Prelude GoStrings.
Local Open Scope string_scope.
Local Open Scope Z_scope.
Local Open Scope list_scope.

(** ** Encoding *)

Definition nsDelim : ascii := chr 31.

(** [strings.Join] on the delimiter. *)
Definition Join (l : list string) (sep : ascii) : string := String.concat (String sep "") l.

Definition nsToString (ns : list string) : string :=
  String nsDelim (Join ns nsDelim +:+ String nsDelim "").

(** [strings.Trim] of one byte. *)
Fixpoint drop_byte (c : ascii) (l : list ascii) : list ascii :=
  match l with
  | a :: l' => if Ascii.eqb a c then drop_byte c l' else l
  | [] => []
  end.

Definition Trim (s : string) (c : ascii) : string :=
  string_of_list_ascii (reverse (drop_byte c (reverse (drop_byte c (list_ascii_of_string s))))).

Definition stringToNs (s : string) : list string :=
  let trimmed := Trim s nsDelim in
  if String.eqb trimmed "" then [] else Split trimmed nsDelim.

Definition nsPrefixPattern (prefix : list string) : string :=
  match prefix with
  | [] => "%"
  | _ => String nsDelim (Join prefix nsDelim +:+ String nsDelim "%")
  end.

Definition nsSuffixPattern (suffix : list string) : string :=
  match suffix with
  | [] => "%"
  | _ => String "%" (String nsDelim (Join suffix nsDelim +:+ String nsDelim ""))
  end.

(** [parseNamespaceParam]: commas, or dots when there is no comma. *)
Definition parseNamespaceParam (s : string) : list string :=
  if Contains s "," then Split s "," else Split s ".".

(** ** LIKE *)

Definition is_cont (c : ascii) : bool := (128 <=? Z.of_N (byte_of c)) && (Z.of_N (byte_of c) <? 192).

(** What is left of a text after its first character. *)
Fixpoint drop_cont (s : list ascii) : list ascii :=
  match s with c :: s' => if is_cont c then drop_cont s' else s | [] => [] end.

(** The upper-case form of an ASCII letter. *)
Definition fold_byte (c : ascii) : ascii :=
  let n := byte_of c in if (97 <=? Z.of_N n) && (Z.of_N n <=? 122) then chr (n - 32) else c.

(** [f s' || f s'' || ...] over the suffixes of a text. *)
Fixpoint some_suffix (f : list ascii → bool) (s : list ascii) : bool :=
  f s || match s with [] => false | _ :: s' => some_suffix f s' end.

Fixpoint like_bytes (p s : list ascii) {struct p} : bool :=
  match p with
  | [] => match s with [] => true | _ => false end
  | c :: p' =>
      if Ascii.eqb c "%" then some_suffix (like_bytes p') s
      else match s with
           | [] => false
           | d :: s' =>
               if Ascii.eqb c "_" then negb (is_cont d) && like_bytes p' (drop_cont s')
               else Ascii.eqb (fold_byte c) (fold_byte d) && like_bytes p' s'
           end
  end.

Definition like (p s : string) : bool := like_bytes (list_ascii_of_string p) (list_ascii_of_string s).

(** ** Segments *)

(** Segments equal up to the case of ASCII letters. *)
Definition fold_case (s : string) : list ascii := map fold_byte (bytes s).

(** A namespace segment that holds no delimiter. *)
Definition plain (s : string) : Prop := nsDelim ∉ bytes s.

(** A segment LIKE reads letter by letter. *)
Definition literal (s : string) : Prop := Ascii.ascii_of_nat 37 ∉ bytes s ∧ Ascii.ascii_of_nat 95 ∉ bytes s.

(** Each segment after a delimiter. *)
Definition segs (l : list (list ascii)) : list ascii := concat (map (cons nsDelim) l).
#[global] Arguments segs : simpl never.

Lemma segs_cons a l : segs (a :: l) = nsDelim :: a ++ segs l.
Proof. reflexivity. Qed.

Lemma Join_cons a b l sep : Join (a :: b :: l) sep = a +:+ String sep (Join (b :: l) sep).
Proof. reflexivity. Qed.

Lemma bytes_Join l : l ≠ [] → nsDelim :: bytes (Join l nsDelim) = segs (map bytes l).
Proof.
  intros Hl. induction l as [|a [|b l] IH]; [done|by unfold segs; simpl; rewrite app_nil_r|].
  rewrite Join_cons, bytes_app. change (bytes (String nsDelim ?x)) with (nsDelim :: bytes x).
  rewrite IH by done. done.
Qed.

Lemma bytes_nsToString ns : ns ≠ [] → bytes (nsToString ns) = segs (map bytes ns) ++ [nsDelim].
Proof. intros H. unfold nsToString. simpl. by rewrite bytes_app, app_comm_cons, bytes_Join. Qed.

Lemma fold_delim c : fold_byte c = nsDelim ↔ c = nsDelim.
Proof.
  split; [|by intros ->]. destruct c as [[] [] [] [] [] [] [] []]; vm_compute; congruence.
Qed.

Lemma map_fold_segs l : map fold_byte (segs l) = segs (map (map fold_byte) l).
Proof. induction l as [|a l IH]; [done|]. rewrite segs_cons. cbn [map]. by rewrite segs_cons, map_app, IH. Qed.

Lemma fold_plain s : nsDelim ∉ s → nsDelim ∉ map fold_byte s.
Proof.
  intros H Hin. apply list_elem_of_In, in_map_iff in Hin as (c&Hc&Hin%list_elem_of_In).
  apply fold_delim in Hc as ->. done.
Qed.

Lemma cons_eq_inv {A} (x y : A) l k : x :: l = y :: k → x = y ∧ l = k.
Proof. by intros [= -> ->]. Qed.

(** The first segment of a delimited text is determined by the text. *)
Lemma seg_split (a b r t : list ascii) : nsDelim ∉ a → nsDelim ∉ b →
  a ++ nsDelim :: r = b ++ nsDelim :: t → a = b ∧ r = t.
Proof.
  revert b. induction a as [|x a IH]; intros [|y b] Ha Hb H; simpl in H; apply cons_eq_inv in H as [Hx H].
  - done.
  - rewrite Hx in Hb. set_solver.
  - rewrite Hx in Ha. set_solver.
  - subst. apply not_elem_of_cons in Ha as [_ Ha], Hb as [_ Hb].
    by destruct (IH _ Ha Hb H) as [-> ->].
Qed.

Lemma segs_last l r : ∃ t, segs l ++ nsDelim :: r = nsDelim :: t.
Proof. destruct l as [|a l]; [|rewrite segs_cons]; simpl; eauto. Qed.

Lemma segs_prefix p l r : Forall (λ s, nsDelim ∉ s) p → Forall (λ s, nsDelim ∉ s) l →
  segs l ++ [nsDelim] = segs p ++ nsDelim :: r → ∃ q, l = p ++ q.
Proof.
  intros Hp. revert l. induction Hp as [|a p Ha Hp IH]; intros l Hl H; [by exists l|].
  destruct Hl as [|b l Hb Hl]; rewrite ?segs_cons in H; simpl in H.
  - destruct (segs_last p r) as [t Ht]. rewrite <- app_assoc, Ht in H. apply cons_eq_inv in H as [_ H]. by destruct a.
  - apply cons_eq_inv in H as [_ H]. rewrite <- !app_assoc in H.
    destruct (segs_last l []) as [t1 H1], (segs_last p r) as [t2 H2]. rewrite H1, H2 in H.
    destruct (seg_split _ _ _ _ Hb Ha H) as [-> ->].
    rewrite <- H2 in H1. destruct (IH _ Hl H1) as [q ->]. by exists q.
Qed.

Lemma segs_app p q : segs (p ++ q) = segs p ++ segs q.
Proof. unfold segs. by rewrite map_app, concat_app. Qed.

(** ** What LIKE matches *)

Lemma some_suffix_spec f s : some_suffix f s = true ↔ ∃ a b, s = a ++ b ∧ f b = true.
Proof.
  induction s as [|c s IH]; simpl; rewrite orb_true_iff.
  - split; [intros [H|?]; [by exists [], []|done]|]. intros ([|]&?&?&?); simplify_eq/=; auto.
  - rewrite IH. split.
    + intros [H|(a&b&->&H)]; [by exists [], (c :: s)|by exists (c :: a), b].
    + intros ([|x a]&b&H&Hf); simplify_eq/=; [by left|right; eauto].
Qed.

Lemma like_percent p s : like_bytes ("%"%char :: p) s = true ↔ ∃ a b, s = a ++ b ∧ like_bytes p b = true.
Proof. apply some_suffix_spec. Qed.

Definition wild (c : ascii) : bool := Ascii.eqb c "%" || Ascii.eqb c "_".

(** A pattern that starts with letters matches the texts that start with them,
    whatever their case. *)
Lemma like_letters l p s : forallb (λ c, negb (wild c)) l = true →
  like_bytes (l ++ p) s = true ↔
  ∃ a b, s = a ++ b ∧ map fold_byte a = map fold_byte l ∧ like_bytes p b = true.
Proof.
  revert s. induction l as [|c l IH]; intros s Hl; simpl.
  - split; [intros H; by exists [], s|]. intros ([|]&?&->&?&?); done.
  - simpl in Hl. apply andb_true_iff in Hl as [Hc Hl]. unfold wild in Hc.
    rewrite negb_orb in Hc. apply andb_true_iff in Hc as [H1%negb_true_iff H2%negb_true_iff].
    rewrite H1, H2. destruct s as [|d s].
    + split; [done|]. intros ([|]&?&?&?&?); done.
    + rewrite andb_true_iff, Ascii.eqb_eq, IH by done. split.
      * intros [Hf (a&b&->&Ha&Hb)]. exists (d :: a), b. simpl. by rewrite Hf, Ha.
      * intros ([|x a]&b&Hs&Ha&Hb); simplify_eq/=. split; [done|by exists a, b].
Qed.

Lemma like_any s : like_bytes ["%"%char] s = true.
Proof. apply some_suffix_spec. exists s, []. by rewrite app_nil_r. Qed.

Lemma like_end s : like_bytes [] s = true ↔ s = [].
Proof. by destruct s. Qed.

Lemma literal_segs l : Forall literal l → forallb (λ c, negb (wild c)) (segs (map bytes l)) = true.
Proof.
  induction 1 as [|s l [H1 H2] _ IH]; [done|]. cbn [map]. rewrite segs_cons. cbn [forallb].
  rewrite forallb_app, IH, andb_true_r.
  apply forallb_forall. intros c Hc. unfold wild.
  destruct (Ascii.eqb_spec c "%") as [->|_]; [destruct H1; by apply list_elem_of_In|].
  destruct (Ascii.eqb_spec c "_") as [->|_]; [destruct H2; by apply list_elem_of_In|]. done.
Qed.

Lemma forallb_snoc {A} (f : A → bool) l x : forallb f (l ++ [x]) = forallb f l && f x.
Proof. rewrite forallb_app. simpl. by rewrite andb_true_r. Qed.

Lemma plain_folded l : Forall plain l → Forall (λ s, nsDelim ∉ s) (map fold_case l).
Proof. rewrite Forall_map. apply Forall_impl. intros s. apply fold_plain. Qed.

Lemma fold_segs l : map fold_byte (segs (map bytes l)) = segs (map fold_case l).
Proof. by rewrite map_fold_segs, map_map. Qed.

(** The LIKE pattern of a prefix selects, among the namespaces stored, exactly
    those whose first segments are the prefix, up to the case of ASCII letters:
    a sibling that only shares the start of a segment is not selected.  The
    segments hold no delimiter and the prefix no wildcard. *)
Lemma prefix_pattern_exact prefix ns :
  prefix ≠ [] → ns ≠ [] → Forall plain prefix → Forall plain ns → Forall literal prefix →
  like (nsPrefixPattern prefix) (nsToString ns) = true ↔
  map fold_case (take (length prefix) ns) = map fold_case prefix.
Proof.
  intros Hp Hn Pp Pn Lp. unfold like. rewrite bytes_nsToString by done.
  assert (bytes (nsPrefixPattern prefix) = (segs (map bytes prefix) ++ [nsDelim]) ++ ["%"%char]) as ->.
  { destruct prefix as [|a l]; [done|]. simpl nsPrefixPattern. simpl bytes.
    rewrite bytes_app, app_comm_cons, bytes_Join by done. by rewrite <- app_assoc. }
  rewrite like_letters by (by rewrite forallb_snoc, literal_segs).
  rewrite map_app, fold_segs. simpl map at 2.
  split.
  - intros (a&b&Hs&Ha&_). apply (f_equal (map fold_byte)) in Hs.
    rewrite !map_app, fold_segs, Ha, <- app_assoc in Hs. simpl in Hs.
    apply segs_prefix in Hs as [q Hq]; [|by apply plain_folded..].
    apply (f_equal (take (length prefix))) in Hq. rewrite take_app_length' in Hq by (by rewrite length_map).
    by rewrite <- fmap_take in Hq.
  - intros Ht. rewrite <- (take_drop (length prefix) ns). set (h := take _ ns) in *.
    destruct (segs_last (map bytes (drop (length prefix) ns)) []) as [t Ht'].
    exists (segs (map bytes h) ++ [nsDelim]), t. split_and!.
    + rewrite map_app, segs_app, <- !app_assoc. simpl. by rewrite Ht'.
    + by rewrite map_app, fold_segs, Ht.
    + apply like_any.
Qed.

(** The prefix is a pattern and not a text: an underscore in it stands for any
    character, a percent sign for any text, and case is ignored. *)
Theorem prefix_pattern_overmatches :
  like (nsPrefixPattern ["user_1"]) (nsToString ["userX1"]) = true ∧
  like (nsPrefixPattern ["a%"]) (nsToString ["abc"; "d"]) = true ∧
  like (nsPrefixPattern ["Team"]) (nsToString ["team"]) = true.
Proof. done. Qed.

(** ** Suffixes *)

Lemma seg_split_last (a b r t : list ascii) : nsDelim ∉ a → nsDelim ∉ b →
  r ++ nsDelim :: a = t ++ nsDelim :: b → a = b ∧ r = t.
Proof.
  intros Ha Hb H. apply (f_equal reverse) in H. rewrite !reverse_app, !reverse_cons, <- !app_assoc in H.
  apply seg_split in H as [H1 H2]; [|by rewrite elem_of_reverse..].
  split; by apply (inj reverse).
Qed.

Lemma segs_snoc l a : segs (l ++ [a]) = segs l ++ nsDelim :: a.
Proof. rewrite segs_app, segs_cons. unfold segs at 2. simpl. by rewrite app_nil_r. Qed.

Lemma segs_suffix p l r : p ≠ [] → Forall (λ s, nsDelim ∉ s) p → Forall (λ s, nsDelim ∉ s) l →
  segs l = r ++ segs p → ∃ q, l = q ++ p ∧ segs q = r.
Proof.
  intros _. revert l. induction p as [|a p IH] using rev_ind; intros l Hp Hl H.
  { exists l. unfold segs in H at 2. simpl in H. rewrite app_nil_r in *. done. }
  rewrite segs_snoc, app_assoc in H. apply Forall_app in Hp as [Hp Ha]; apply Forall_inv in Ha.
  destruct l as [|b l _] using rev_ind.
  { apply (f_equal length) in H. rewrite length_app in H. simpl in H. lia. }
  rewrite segs_snoc in H. apply Forall_app in Hl as [Hl Hb]; apply Forall_inv in Hb.
  apply seg_split_last in H as [-> H]; [|done..].
  destruct (IH l Hp Hl H) as (q&->&Hq). exists q. by rewrite app_assoc.
Qed.

(** The suffix pattern selects the namespaces that end with the segments. *)
Theorem suffix_pattern_exact suffix ns :
  suffix ≠ [] → ns ≠ [] → Forall plain suffix → Forall plain ns → Forall literal suffix →
  like (nsSuffixPattern suffix) (nsToString ns) = true ↔
  ∃ q r, ns = q ++ r ∧ map fold_case r = map fold_case suffix.
Proof.
  intros Hp Hn Pp Pn Lp. unfold like. rewrite bytes_nsToString by done.
  assert (bytes (nsSuffixPattern suffix) = "%"%char :: (segs (map bytes suffix) ++ [nsDelim]) ++ []) as ->.
  { destruct suffix as [|a l]; [done|]. simpl nsSuffixPattern. simpl bytes.
    rewrite bytes_app, app_comm_cons, bytes_Join by done. by rewrite app_nil_r. }
  rewrite like_percent. split.
  - intros (a&b&Hs&Hb). apply like_letters in Hb as (c&e&->&Hc&He); [|by rewrite forallb_snoc, literal_segs].
    apply like_end in He as ->. rewrite app_nil_r in Hs.
    apply (f_equal (map fold_byte)) in Hs. rewrite !map_app, Hc, map_app, !fold_segs, app_assoc in Hs.
    apply app_inj_tail in Hs as [Hs _].
    apply segs_suffix in Hs as (q&Hq&_); [|by destruct suffix|by apply plain_folded..].
    apply fmap_app_inv in Hq as (q1&r&Hq1&Hr&->). exists q1, r. by rewrite Hr.
  - intros (q&r&->&Hr). exists (segs (map bytes q)), (segs (map bytes r) ++ [nsDelim]). split.
    + by rewrite map_app, segs_app, <- app_assoc.
    + apply like_letters; [by rewrite forallb_snoc, literal_segs|].
      exists (segs (map bytes r) ++ [nsDelim]), []. split_and!; [by rewrite app_nil_r| |done].
      by rewrite !map_app, !fold_segs, Hr.
Qed.

(** ** Round trip *)

Lemma Split_app_sep a s c : c ∉ bytes a → Split (a +:+ String c s) c = a :: Split s c.
Proof.
  induction a as [|x a IH]; intros Ha; rewrite ?str_app_nil_l, ?str_app_cons; cbn [Split].
  - by rewrite Ascii.eqb_refl.
  - cbn in Ha. apply not_elem_of_cons in Ha as [Hx Ha].
    destruct (Ascii.eqb_spec x c) as [->|_]; [done|]. by rewrite IH.
Qed.

Lemma Split_plain a c : c ∉ bytes a → Split a c = [a].
Proof.
  induction a as [|x a IH]; intros Ha; cbn [Split]; [done|].
  cbn in Ha. apply not_elem_of_cons in Ha as [Hx Ha].
  destruct (Ascii.eqb_spec x c) as [->|_]; [done|]. by rewrite IH.
Qed.

Lemma Split_Join l c : l ≠ [] → Forall (λ s, c ∉ bytes s) l → Split (Join l c) c = l.
Proof.
  intros Hn Hl. induction Hl as [|a l Ha Hl IH]; [|destruct l as [|b l]].
  - done.
  - by apply Split_plain.
  - rewrite Join_cons, Split_app_sep, IH; done.
Qed.

Lemma drop_byte_head c l a : a ≠ c → drop_byte c (a :: l) = a :: l.
Proof. intros H. simpl. by destruct (Ascii.eqb_spec a c). Qed.

Lemma drop_byte_eq c l : drop_byte c (c :: l) = drop_byte c l.
Proof. simpl. by rewrite Ascii.eqb_refl. Qed.

(** [strings.Trim] of a delimited text gives the text back. *)
Lemma Trim_delimited x y s z1 z2 : x ≠ nsDelim → y ≠ nsDelim →
  bytes s = x :: z1 → bytes s = z2 ++ [y] →
  Trim (String nsDelim (s +:+ String nsDelim "")) nsDelim = s.
Proof.
  intros Hx Hy H1 H2. unfold Trim. cbn [list_ascii_of_string].
  rewrite drop_byte_eq, bytes_app, H1. cbn [app list_ascii_of_string].
  rewrite drop_byte_head, app_comm_cons, <- H1, H2 by done.
  rewrite !reverse_snoc, drop_byte_eq, drop_byte_head by done.
  rewrite reverse_cons, reverse_involutive, <- H2. apply string_of_list_ascii_of_string.
Qed.

Lemma Join_head x w l sep : ∃ z, bytes (Join (String x w :: l) sep) = x :: z.
Proof. destruct l as [|b l]; [by exists (bytes w)|]. rewrite Join_cons. simpl. eauto. Qed.

Lemma Join_snoc l a sep : l ≠ [] → Join (l ++ [a]) sep = Join l sep +:+ String sep a.
Proof.
  intros Hl. induction l as [|b [|c l] IH]; [done|done|].
  cbn [app] in *. rewrite !Join_cons, IH by done. by rewrite <- str_app_assoc.
Qed.

Lemma bytes_last w : w ≠ "" → ∃ z y, bytes w = z ++ [y] ∧ y ∈ bytes w.
Proof.
  destruct (bytes w) as [|y z _] eqn:E using rev_ind; [by destruct w|]. intros _.
  exists z, y. set_solver.
Qed.

Lemma Join_last l sep : l ≠ [] → default "" (list.last l) ≠ "" →
  ∃ z y, bytes (Join l sep) = z ++ [y] ∧ ∃ w, w ∈ l ∧ y ∈ bytes w.
Proof.
  destruct l as [|a l _] using rev_ind; [done|]. intros _. rewrite last_snoc. simpl. intros Ha.
  destruct (bytes_last a Ha) as (z&y&Hz&Hy). destruct (decide (l = [])) as [->|Hl].
  - exists z, y. split; [done|]. exists a. set_solver.
  - rewrite Join_snoc, bytes_app by done. simpl. rewrite Hz.
    exists (bytes (Join l sep) ++ sep :: z), y. rewrite <- app_assoc. split; [done|]. exists a. set_solver.
Qed.

(** A namespace written to a row is read back from it, when its segments hold
    no delimiter and its first and last segments are not empty. *)
Theorem namespace_roundtrip ns :
  Forall plain ns → (ns ≠ [] → default "" (list.head ns) ≠ "" ∧ default "" (list.last ns) ≠ "") →
  stringToNs (nsToString ns) = ns.
Proof.
  intros Hp He. destruct ns as [|[|x w] l]; [done|by destruct He|].
  destruct (He ltac:(done)) as [_ Hl].
  destruct (Join_head x w l nsDelim) as [z1 H1].
  destruct (Join_last (String x w :: l) nsDelim ltac:(done) Hl) as (z2&y&H2&s&Hs&Hy).
  unfold stringToNs, nsToString. erewrite Trim_delimited; [..|exact H1|exact H2].
  - destruct (String.eqb_spec (Join (String x w :: l) nsDelim) "") as [E|_]; [by rewrite E in H1|].
    by apply Split_Join.
  - intros ->. apply list.Forall_cons in Hp as [Hx _]. apply Hx. cbn. set_solver.
  - intros ->. rewrite list.Forall_forall in Hp. by apply (Hp s Hs).
Qed.

Lemma namespace_roundtrip_witness : stringToNs (nsToString ["users"; "u/1"; "prefs"]) = ["users"; "u/1"; "prefs"].
Proof.
  apply namespace_roundtrip; [|done].
  repeat apply Forall_cons; try apply Forall_nil;
    match goal with |- plain ?s => apply (bool_decide_unpack (nsDelim ∉ bytes s)) end; vm_compute; exact I.
Defined.

(** Empty segments at either end are lost, and the namespace without segments is
    stored as the one whose only segment is empty. *)
Example namespace_empty_segments :
  stringToNs (nsToString ["a"; ""]) = ["a"] ∧ nsToString [] = nsToString [""].
Proof. done. Qed.
