(* ===== verification/Items.v ===== *)
(** * The key-value store

    The item operations of [internal/state/sqlite/sqlite.go] over the table
    [store_items], the SQL function of [internal/state/sqlite/numeric_filter.go],
    and the handlers of [internal/api/store.go].

    A statement is answered, or fails before or after it has run ([reply]); other
    callers' statements may run between two statements of one operation
    ([between]).  [created_at] and [updated_at] hold whole seconds, [expires_at] a
    fixed-width text whose order is that of the instants.  SQLite's JSON functions
    and the order in which it returns rows no ORDER BY separates are parameters. *)

From Stdlib Require Import Ascii String.
From S2P Require Import Prelude GoStrings GoAny GoTime JsonNumber Completion Store StoreSearch Namespaces.
Local Open Scope string_scope.
Local Open Scope Z_scope.

(** ** Data *)

Record StoreItem := mkItem {
  Namespace : list string;
  Key : string;
  Value : option (gmap string any);     (* a nil map is None *)
  CreatedAt : Z;
  UpdatedAt : Z;
  TTLMinutes : option float64
}.

Record StoreSearchRequest := mkItemSearch {
  NamespacePrefix : list string;
  Filter : list (string * any);
  Limit : Z;
  Offset : Z;
  RefreshTTL : option bool
}.

Definition RefreshTTLOrDefault (r : StoreSearchRequest) : bool := default true (RefreshTTL r).

Record StoreListNamespacesRequest := mkListNs {
  LPrefix : list string;
  LSuffix : list string;
  LLimit : Z;
  LOffset : Z
}.

(** A row of [store_items], without its primary key. *)
Record item_row := mkItemRow {
  i_value : column;
  i_created : Z;
  i_updated : Z;
  i_ttl : option float64;
  i_expires : option Z
}.

(** PRIMARY KEY (tenant_id, namespace, key) *)
Notation item_key := (string * string * string)%type.
Notation items := (gmap (string * string * string) item_row).

Definition k_tenant (k : item_key) : string := k.1.1.
Definition k_ns (k : item_key) : string := k.1.2.
Definition k_key (k : item_key) : string := k.2.

(** ** Expiry *)

Definition minute : Z := 60 * second.

(** [time.Duration(ttl * float64(time.Minute))] *)
Definition ttl_duration (ttl : float64) : Z := f64_to_int64 (f64_mul ttl (f64_of_Z minute)).

Definition storeItemExpiresAt (now : Z) (ttlMinutes : option float64) : option Z :=
  match ttlMinutes with
  | None => None
  | Some ttl => Some (now + ttl_duration ttl)
  end.
#[global] Arguments storeItemExpiresAt : simpl never.
#[global] Arguments ttl_duration : simpl never.

(** [expires_at IS NULL OR expires_at > ?] *)
Definition live (now : Z) (r : item_row) : bool :=
  match i_expires r with None => true | Some e => now <? e end.

Definition with_expiry (e : option Z) (r : item_row) : item_row :=
  mkItemRow (i_value r) (i_created r) (i_updated r) (i_ttl r) e.

(** ** Statements *)

(** [UPDATE store_items SET expires_at = ? WHERE tenant_id, namespace, key = ...] *)
Definition set_expiry (k : item_key) (e : option Z) (t : items) : items * unit :=
  (alter (with_expiry e) k t, tt).

(** [DELETE FROM store_items WHERE ...], with the rows affected. *)
Definition delete_where (p : item_key * item_row → bool) (t : items) : items * Z :=
  (filter (λ kr, p kr = false) t, Z.of_nat (size (filter (λ kr, p kr = true) t))).

Definition matching (p : item_key * item_row → bool) (t : items) : list (item_key * item_row) :=
  filter (λ kr, p kr = true) (map_to_list t).

Definition value_column (v : option (gmap string any)) : column :=
  match v with Some m => ColObj m | None => ColNull end.

(** [jsonvalue.Unmarshal] of the value column into the item's map. *)
Definition decode_value (c : column) : option (option (gmap string any)) :=
  match c with
  | ColObj m => Some (Some m)
  | ColNull => Some None
  | ColEmpty | ColInvalid => None
  end.

(** The item a row is scanned into; the TTL stays in the row. *)
Definition scan_item (kr : item_key * item_row) : option StoreItem :=
  match decode_value (i_value kr.2) with
  | Some v => Some (mkItem (stringToNs (k_ns kr.1)) (k_key kr.1) v (i_created kr.2) (i_updated kr.2) None)
  | None => None
  end.

(** ** Operations *)

(** [INSERT ... ON CONFLICT DO UPDATE]: the creation time of a row stays. *)
Definition upsert_item (k : item_key) (r : item_row) (t : items) : items * unit :=
  (<[k := match t !! k with
          | Some old => mkItemRow (i_value r) (i_created old) (i_updated r) (i_ttl r) (i_expires r)
          | None => r
          end]> t, tt).

Definition PutItem (o : reply) (now : Z) (x : ctx) (item : StoreItem) (t : items) : items * res err unit :=
  attempt EDriver o
    (upsert_item (FromContext x, nsToString (Namespace item), Key item)
       (mkItemRow (value_column (Value item)) (sec now) (sec now) (TTLMinutes item)
          (storeItemExpiresAt now (TTLMinutes item)))) t.

(** The rows a read of one key may return. *)
Definition key_row (now : Z) (x : ctx) (ns key : string) (kr : item_key * item_row) : bool :=
  String.eqb (k_ns kr.1) ns && String.eqb (k_key kr.1) key && live now kr.2 && visible x (k_tenant kr.1).

Section store.
(** The order in which the database returns rows that no ORDER BY separates. *)
Variable row_order : list (item_key * item_row) → list (item_key * item_row).
(** [ORDER BY updated_at DESC] *)
Variable newest_order : list (item_key * item_row) → list (item_key * item_row).
(** [json_extract(value, path) = text] *)
Variable extract_is : column → string → string → bool.
(** [value -> path], read as a JSON value *)
Variable arrow : column → string → option any.
(** [json.Marshal] of a decoded filter value *)
Variable Marshal : any → string.

Definition GetItem (fails : bool) (o : reply) (between : items → items) (now : Z) (x : ctx)
    (namespace : list string) (key : string) (refreshTTL : bool) (t : items) : items * res err StoreItem :=
  let ns := nsToString namespace in
  if fails then (t, Err EDriver)
  else match row_order (matching (key_row now x ns key) t) with
  | [] => (t, Err (ENotFound "store_item" key))
  | kr :: _ =>
      match scan_item kr with
      | None => (t, Err EDecode)
      | Some item =>
          match refreshTTL, i_ttl kr.2 with
          | true, Some ttl =>
              ((attempt EDriver o
                  (set_expiry (k_tenant kr.1, ns, key) (storeItemExpiresAt now (Some ttl))) (between t)).1,
               Ok item)
          | _, _ => (t, Ok item)
          end
      end
  end.

Definition DeleteItem (o : reply) (x : ctx) (namespace : list string) (key : string) (t : items)
  : items * res err unit :=
  match attempt EDriver o
          (delete_where (λ kr, String.eqb (k_ns kr.1) (nsToString namespace) && String.eqb (k_key kr.1) key
                               && visible x (k_tenant kr.1))) t with
  | (t', Err e) => (t', Err e)
  | (t', Ok n) => (t', if n =? 0 then Err (ENotFound "store_item" key) else Ok tt)
  end.

(** [runkite_json_number_equal(value -> ?, ?)] *)
Definition runkite_json_number_equal (left right : option any) : bool :=
  match left, right with
  | Some (ANumber a), Some (ANumber b) =>
      EqualNumbers (list_ascii_of_string a) (list_ascii_of_string b)
  | _, _ => false
  end.

(** The clause a filter entry adds. *)
Definition filter_clause (kv : string * any) (r : item_row) : bool :=
  let path := "$." +:+ kv.1 in
  match kv.2 with
  | AStr sv => extract_is (i_value r) path sv
  | v =>
      match Marshal v with
      | String c _ as text =>
          if Ascii.eqb c "-" || ((48 <=? Z.of_N (byte_of c)) && (Z.of_N (byte_of c) <=? 57))
          then runkite_json_number_equal (arrow (i_value r) path) (Some v)
          else extract_is (i_value r) path text
      | EmptyString => extract_is (i_value r) path ""
      end
  end.

Definition search_row (now : Z) (x : ctx) (req : StoreSearchRequest) (kr : item_key * item_row) : bool :=
  live now kr.2 && visible x (k_tenant kr.1)
  && match NamespacePrefix req with
     | [] => true
     | prefix => like (nsPrefixPattern prefix) (k_ns kr.1)
     end
  && forallb (λ kv, filter_clause kv kr.2) (Filter req).

(** The page a search reads: the newest rows first. *)
Definition page (limit offset : Z) {A} (l : list A) : list A :=
  take (Z.to_nat limit) (drop (Z.to_nat offset) l).

Definition search_limit (l d : Z) : Z := if l <=? 0 then d else l.

(** The rows whose expiry a search moves, after the last row is read. *)
Fixpoint refresh_all (o : nat → reply) (now : Z) (l : list (item_key * item_row)) (t : items) : items :=
  match l with
  | [] => t
  | kr :: rest =>
      match i_ttl kr.2 with
      | Some ttl =>
          refresh_all o now rest
            (attempt (E := err) EDriver (o (length rest))
               (set_expiry kr.1 (storeItemExpiresAt now (Some ttl))) t).1
      | None => refresh_all o now rest t
      end
  end.

(** The rows a search reads. *)
Definition search_rows (fail : nat → bool) (now : Z) (x : ctx) (req : StoreSearchRequest) (t : items)
  : list (item_key * item_row) :=
  scan fail 0 (page (search_limit (Limit req) 10) (Offset req) (newest_order (matching (search_row now x req) t))).

(** [fail] as in [SearchRuns]: the query, or the reading of a row, fails. *)
Definition SearchItems (fail : nat → bool) (o : nat → reply) (between : items → items) (now : Z) (x : ctx)
    (req : StoreSearchRequest) (t : items) : items * res err (list StoreItem) :=
  if fail 0%nat then (t, Err EDriver)
  else
    let rows := search_rows fail now x req t in
    match mapM scan_item rows with
    | None => (t, Err EDecode)
    | Some l =>
        (if RefreshTTLOrDefault req then refresh_all o now rows (between t) else t, Ok l)
    end.

Definition ns_row (x : ctx) (req : StoreListNamespacesRequest) (k : item_key) : bool :=
  visible x (k_tenant k)
  && match LPrefix req with [] => true | p => like (nsPrefixPattern p) (k_ns k) end
  && match LSuffix req with [] => true | p => like (nsSuffixPattern p) (k_ns k) end.

(** [SELECT DISTINCT namespace ... ORDER BY namespace LIMIT ? OFFSET ?] *)
Definition ListNamespaces (fail : nat → bool) (x : ctx) (req : StoreListNamespacesRequest) (t : items)
  : res err (list (list string)) :=
  if fail 0%nat then Err EDriver
  else Ok (map stringToNs
             (scan fail 0 (page (search_limit (LLimit req) 100) (LOffset req)
                             (sort_by String.leb
                                (remove_dups (k_ns <$> filter (λ k, ns_row x req k = true)
                                                         (map_to_list t).*1)))))).

Definition PruneExpiredStoreItems (o : reply) (now : Z) (x : ctx) (t : items) : items * res err Z :=
  attempt EDriver o (delete_where (λ kr, negb (live now kr.2) && visible x (k_tenant kr.1))) t.

(** ** Handlers *)

(** What a handler answers: a status, and the items or namespaces of its body. *)
Inductive answer :=
| Refused (status : Z)
| NoContent
| AItem (i : StoreItem)
| AItems (l : list StoreItem)
| ANamespaces (l : list (list string)).

(** [handleStoreError] on the errors of these operations. *)
Definition handleStoreError (e : err) : answer :=
  match e with
  | ENotFound _ _ => Refused 404
  | EConflict _ _ => Refused 409
  | EAdmission _ _ _ _ => Refused 429
  | _ => Refused 500
  end.

Record StorePutRequest := mkPut {
  PNamespace : option (list string);
  PKey : string;
  PValue : column;              (* the raw "value": ColEmpty when absent *)
  PTTLMinutes : option float64
}.

(** A body that does not decode is [None]. *)
Definition handlePutItem (o : reply) (now : Z) (x : ctx) (body : option StorePutRequest) (t : items)
  : items * answer :=
  match body with
  | None => (t, Refused 400)
  | Some req =>
      match match PValue req with ColEmpty => Some None | raw => decode_value raw end with
      | None => (t, Refused 400)
      | Some value =>
          if String.eqb (PKey req) "" then (t, Refused 400)
          else match PutItem o now x
                       (mkItem (default [] (PNamespace req)) (PKey req) value 0 0 (PTTLMinutes req)) t with
               | (t', Ok _) => (t', NoContent)
               | (t', Err e) => (t', handleStoreError e)
               end
      end
  end.

Definition handleGetItem (fails : bool) (o : reply) (between : items → items) (now : Z) (x : ctx)
    (key nsParam refresh : string) (t : items) : items * answer :=
  if String.eqb key "" then (t, Refused 400)
  else
    let namespace := if String.eqb nsParam "" then [] else parseNamespaceParam nsParam in
    match GetItem fails o between now x namespace key (negb (String.eqb refresh "false")) t with
    | (t', Ok item) => (t', AItem item)
    | (t', Err e) => (t', handleStoreError e)
    end.

Definition handleDeleteItem (o : reply) (x : ctx) (body : option (list string * string)) (t : items)
  : items * answer :=
  match body with
  | None => (t, Refused 400)
  | Some (namespace, key) =>
      if String.eqb key "" then (t, Refused 400)
      else match DeleteItem o x namespace key t with
           | (t', Ok _) => (t', NoContent)
           | (t', Err e) => (t', handleStoreError e)
           end
  end.

Definition maxSearchLimit : Z := 100.

Definition clampSearchLimit (limit defaultLimit : Z) : Z :=
  if limit <=? 0 then defaultLimit else if maxSearchLimit <? limit then maxSearchLimit else limit.

(** The filter is decoded from its own raw field, which may not be an object. *)
Definition handleSearchItems (fail : nat → bool) (o : nat → reply) (between : items → items) (now : Z)
    (x : ctx) (body : option (StoreSearchRequest * bool)) (t : items) : items * answer :=
  match body with
  | Some (req, true) =>
      let req := mkItemSearch (NamespacePrefix req) (Filter req) (clampSearchLimit (Limit req) 10)
                   (Offset req) (RefreshTTL req) in
      match SearchItems fail o between now x req t with
      | (t', Ok l) => (t', AItems l)
      | (t', Err e) => (t', handleStoreError e)
      end
  | _ => (t, Refused 400)
  end.

Definition handleListNamespaces (fail : nat → bool) (x : ctx) (body : option StoreListNamespacesRequest)
    (t : items) : answer :=
  match body with
  | None => Refused 400
  | Some req =>
      match ListNamespaces fail x
              (mkListNs (LPrefix req) (LSuffix req) (clampSearchLimit (LLimit req) 100) (LOffset req)) t with
      | Ok l => ANamespaces l
      | Err e => handleStoreError e
      end
  end.
End store.

(** * Properties of the key-value store
    An item put is read back until it expires or is overwritten, whatever other
    items do; a search returns the live rows of a namespace prefix, newest first;
    rows stay well formed; and a tenant's operations touch its own rows.  *)

From Stdlib Require Import SpecFloat.
Local Open Scope string_scope.
Local Open Scope Z_scope.

(** ** Tables *)

Lemma elem_of_matching p t k r : (k, r) ∈ matching p t ↔ t !! k = Some r ∧ p (k, r) = true.
Proof. unfold matching. rewrite list_elem_of_filter, elem_of_map_to_list. tauto. Qed.

Lemma matching_NoDup p t : NoDup (matching p t).
Proof. apply list.NoDup_filter, NoDup_map_to_list. Qed.

Lemma lookup_delete_where p t k r :
  (delete_where p t).1 !! k = Some r ↔ t !! k = Some r ∧ p (k, r) = false.
Proof. simpl. by rewrite map_lookup_filter_Some. Qed.

Lemma lookup_set_expiry k e t k' :
  (set_expiry k e t).1 !! k' = (if decide (k = k') then with_expiry e <$> t !! k' else t !! k').
Proof. simpl. case_decide; subst; [by rewrite lookup_alter_eq|by rewrite lookup_alter_ne]. Qed.

Lemma set_expiry_ttl k e t k' : i_ttl <$> (set_expiry k e t).1 !! k' = i_ttl <$> t !! k'.
Proof. rewrite lookup_set_expiry. case_decide; [|done]. by destruct (t !! k'). Qed.

Lemma surjective_key (k : item_key) : k = (k_tenant k, k_ns k, k_key k).
Proof. by destruct k as [[??]?]. Qed.

Section props.
Context (row_order newest_order : list (item_key * item_row) → list (item_key * item_row)).
Context (extract_is : column → string → string → bool) (arrow : column → string → option any).
Context (Marshal : any → string).
(** SQL returns the rows that match, in some order. *)
Context (Hrow : ∀ l, row_order l ≡ₚ l) (Hnew : ∀ l, newest_order l ≡ₚ l).
(** [ORDER BY updated_at DESC] *)
Context (Hsort : ∀ l, StronglySorted (λ a b, i_updated b.2 ≤ i_updated a.2) (newest_order l)).
#[local] Set Default Proof Using "All".

Notation GetItem := (GetItem row_order).
Notation search_rows := (search_rows newest_order extract_is arrow Marshal).
Notation SearchItems := (SearchItems newest_order extract_is arrow Marshal).

(** ** Operations one at a time *)

Inductive op :=
| PutOp (o : reply) (now : Z) (x : ctx) (item : StoreItem)
| GetOp (fails : bool) (o : reply) (now : Z) (x : ctx) (ns : list string) (key : string) (refresh : bool)
| DeleteOp (o : reply) (x : ctx) (ns : list string) (key : string)
| SearchOp (fail : nat → bool) (o : nat → reply) (now : Z) (x : ctx) (req : StoreSearchRequest)
| PruneOp (o : reply) (now : Z) (x : ctx).

Definition run_op (t : items) (p : op) : items :=
  match p with
  | PutOp o now x item => (PutItem o now x item t).1
  | GetOp f o now x ns key refresh => (GetItem f o id now x ns key refresh t).1
  | DeleteOp o x ns key => (DeleteItem o x ns key t).1
  | SearchOp f o now x req => (SearchItems f o id now x req t).1
  | PruneOp o now x => (PruneExpiredStoreItems o now x t).1
  end.

Definition run_ops (ps : list op) (t : items) : items := foldl run_op t ps.

(** The operations that write or delete the item of a key. *)
Definition replaces (k : item_key) (p : op) : Prop :=
  match p with
  | PutOp _ _ x item => k = (FromContext x, nsToString (Namespace item), Key item)
  | DeleteOp _ x ns key => k_ns k = nsToString ns ∧ k_key k = key ∧ visible x (k_tenant k) = true
  | _ => False
  end.

(** The clock of an operation that moves or applies expiries. *)
Definition clock (p : op) : option Z :=
  match p with
  | GetOp _ _ now _ _ _ _ | SearchOp _ _ now _ _ | PruneOp _ now _ => Some now
  | _ => None
  end.

(** Refreshing rewrites expiries of rows the caller sees, from their own TTL. *)
Inductive refreshed (now : Z) (x : ctx) : items → items → Prop :=
| refreshed_refl t : refreshed now x t t
| refreshed_step t k r ttl t' :
    t !! k = Some r → i_ttl r = Some ttl → visible x (k_tenant k) = true →
    refreshed now x (alter (with_expiry (storeItemExpiresAt now (Some ttl))) k t) t' → refreshed now x t t'.

Lemma GetItem_refreshes f o now x ns key refresh t :
  refreshed now x t (GetItem f o id now x ns key refresh t).1.
Proof.
  unfold Items.GetItem. destruct f; [constructor|].
  destruct (row_order _) as [|[k r] rest] eqn:E; [constructor|].
  assert (Hin : (k, r) ∈ matching (key_row now x (nsToString ns) key) t) by (rewrite <- Hrow, E; set_solver).
  apply elem_of_matching in Hin as [Hk Hm]. unfold key_row in Hm. simpl in Hm.
  rewrite !andb_true_iff, !String.eqb_eq in Hm. destruct Hm as [[[Hns Hkey] _] Hv].
  destruct (scan_item _) as [item|]; [|constructor]. destruct refresh; [|constructor].
  cbn [fst snd id]. destruct (i_ttl r) as [ttl|] eqn:Ht; [|constructor].
  change (id t) with t. cbn [fst].
  destruct (attempt_state EDriver o (set_expiry (k_tenant k, nsToString ns, key) (storeItemExpiresAt now (Some ttl))) t)
    as [-> | ->]; [constructor|].
  rewrite <- Hns, <- Hkey, <- surjective_key.
  econstructor; [done..|constructor].
Qed.

Lemma refresh_all_refreshes o now x l t :
  (∀ k r, (k, r) ∈ l → i_ttl <$> t !! k = Some (i_ttl r)) →
  (∀ k r, (k, r) ∈ l → visible x (k_tenant k) = true) → refreshed now x t (refresh_all o now l t).
Proof.
  intros Hl Hv. revert t Hl Hv. induction l as [|[k r] l IH]; intros t Hl Hv; [constructor|]. simpl.
  destruct (i_ttl r) as [ttl|] eqn:Ht; [|apply IH; set_solver].
  destruct (attempt_state (E := err) EDriver (o (length l)) (set_expiry k (storeItemExpiresAt now (Some ttl))) t)
    as [-> | ->]; [apply IH; set_solver|].
  destruct (t !! k) as [r0|] eqn:Hk; [|specialize (Hl k r ltac:(set_solver)); by rewrite Hk in Hl].
  assert (i_ttl r0 = Some ttl).
  { specialize (Hl k r ltac:(set_solver)). rewrite Hk in Hl. simpl in Hl. congruence. }
  econstructor; [done..|apply (Hv k r); set_solver|]. apply IH; [|set_solver]. intros k' r' Hin.
  rewrite <- (Hl k' r') by set_solver. apply set_expiry_ttl.
Qed.

Lemma search_rows_sublist fail now x req t :
  sublist (search_rows fail now x req t) (newest_order (matching (search_row extract_is arrow Marshal now x req) t)).
Proof.
  unfold Items.search_rows, page. etrans; [apply scan_sublist|]. etrans; [apply sublist_take|apply sublist_drop].
Qed.

Lemma elem_of_search_rows fail now x req t k r :
  (k, r) ∈ search_rows fail now x req t →
  t !! k = Some r ∧ search_row extract_is arrow Marshal now x req (k, r) = true.
Proof.
  intros Hin. apply elem_of_matching. rewrite <- Hnew.
  eapply elem_of_submseteq; [exact Hin|]. apply sublist_submseteq, search_rows_sublist.
Qed.

Lemma SearchItems_refreshes f o now x req t : refreshed now x t (SearchItems f o id now x req t).1.
Proof.
  unfold Items.SearchItems. destruct (f 0%nat); [constructor|].
  destruct (mapM _ _); [|constructor]. destruct (RefreshTTLOrDefault req); [|constructor]. simpl.
  apply refresh_all_refreshes; intros k r [Hk Hs]%elem_of_search_rows; [by rewrite Hk|].
  unfold search_row in Hs. rewrite !andb_true_iff in Hs. tauto.
Qed.

(** ** An item put is read back *)

(** The row holds the item put at [now], and does not expire before its TTL. *)
Definition holds (item : StoreItem) (now : Z) (r : item_row) : Prop :=
  i_value r = value_column (Value item) ∧ i_updated r = sec now ∧ i_ttl r = TTLMinutes item ∧
  match TTLMinutes item with
  | None => i_expires r = None
  | Some ttl => ∃ e, i_expires r = Some e ∧ now + ttl_duration ttl ≤ e
  end.

(** The clocks at which the item put at [now] is alive. *)
Definition in_life (item : StoreItem) (now c : Z) : Prop :=
  now ≤ c ∧ match TTLMinutes item with None => True | Some ttl => c < now + ttl_duration ttl end.

Lemma holds_live item now r c : holds item now r → in_life item now c → live c r = true.
Proof.
  intros (_&_&_&He) [_ Hc]. unfold live. destruct (TTLMinutes item); [|by rewrite He].
  destruct He as (e&->&?). apply Z.ltb_lt. lia.
Qed.

Lemma refreshed_holds item now c x t t' k r :
  refreshed c x t t' → now ≤ c → t !! k = Some r → holds item now r → ∃ r', t' !! k = Some r' ∧ holds item now r'.
Proof.
  intros H Hc. revert r. induction H as [|t k0 r0 ttl t' Hk0 Httl _ _ IH]; intros r Hr Hh; [by exists r|].
  destruct (decide (k0 = k)) as [->|Hne]; [|apply (IH r); [by rewrite lookup_alter_ne|done]].
  apply (IH (with_expiry (storeItemExpiresAt c (Some ttl)) r)); [by rewrite lookup_alter_eq, Hr|].
  simplify_eq. destruct Hh as (?&?&Ht&_). split_and!; [done..|].
  simpl. rewrite Ht in Httl. rewrite Httl. exists (c + ttl_duration ttl). split; [done|lia].
Qed.

Lemma attempt_cases {B : Type} (P : items → Prop) (o : reply) (f : items → items * B) t :
  P t → P (f t).1 → P (attempt (E := err) EDriver o f t).1.
Proof. intros. by destruct (attempt_state EDriver o f t) as [-> | ->]. Qed.

Lemma run_op_holds item now k p t r :
  ¬ replaces k p → (∀ c, clock p = Some c → in_life item now c) →
  t !! k = Some r → holds item now r → ∃ r', run_op t p !! k = Some r' ∧ holds item now r'.
Proof.
  intros Hn Hc Hr Hh. destruct p as [o c x i|f o c x ns key rf|o x ns key|f o c x req|o c x]; simpl in Hn; unfold run_op.
  - apply (attempt_cases (λ t', ∃ r', t' !! k = Some r' ∧ holds item now r')); [by exists r|].
    exists r. simpl. rewrite lookup_insert_ne by congruence. done.
  - eapply refreshed_holds; [apply GetItem_refreshes|by apply (Hc c)|done..].
  - assert (∃ r', (attempt (E := err) EDriver o (delete_where (λ kr, String.eqb (k_ns kr.1) (nsToString ns) &&
      String.eqb (k_key kr.1) key && visible x (k_tenant kr.1))) t).1 !! k = Some r' ∧ holds item now r') as (r'&Hr'&?).
    { apply (attempt_cases (λ t', ∃ r', t' !! k = Some r' ∧ holds item now r')); [by exists r|].
      exists r. rewrite lookup_delete_where. split_and!; try done. simpl.
      apply not_true_is_false. rewrite !andb_true_iff, !String.eqb_eq. intros [[??]?]. by apply Hn. }
    exists r'. unfold DeleteItem. destruct (attempt _ _ _ _) as [t' [n|e]]; done.
  - eapply refreshed_holds; [apply SearchItems_refreshes|by apply (Hc c)|done..].
  - apply (attempt_cases (λ t', ∃ r', t' !! k = Some r' ∧ holds item now r')); [by exists r|].
    exists r. rewrite lookup_delete_where. simpl. rewrite (holds_live item now r c) by auto. done.
Qed.

Lemma run_ops_holds item now k ps t r :
  Forall (λ p, ¬ replaces k p ∧ ∀ c, clock p = Some c → in_life item now c) ps →
  t !! k = Some r → holds item now r → ∃ r', run_ops ps t !! k = Some r' ∧ holds item now r'.
Proof.
  intros Hps. revert t r. induction Hps as [|p ps [Hn Hc] _ IH]; intros t r Hr Hh; [by exists r|].
  destruct (run_op_holds item now k p t r Hn Hc Hr Hh) as (r'&Hr'&Hh'). by apply (IH _ r').
Qed.

Lemma decode_value_column v : decode_value (value_column v) = Some v.
Proof. by destruct v. Qed.

(** The only live row of a key a tenant sees is its own. *)
Lemma key_row_unique now x ns key t l k r :
  IsSystem x = false → row_order (matching (key_row now x ns key) t) = (k, r) :: l →
  k = (FromContext x, ns, key) ∧ t !! k = Some r.
Proof.
  intros Hs E. assert (Hin : (k, r) ∈ matching (key_row now x ns key) t) by (rewrite <- Hrow, E; set_solver).
  apply elem_of_matching in Hin as [Hk Hm]. split; [|done]. unfold key_row, visible in Hm. simpl in Hm.
  rewrite Hs, !andb_true_iff, !String.eqb_eq in Hm. simpl in Hm. rewrite String.eqb_eq in Hm.
  destruct Hm as [[[<- <-] _] <-]. apply surjective_key.
Qed.

(** An item put is read back: whatever puts, reads, searches, deletions and
    prunes of other items follow, by any tenant and with statements failing, a
    read of its key within its life returns the value and time put.  A read or
    search never shortens its life. *)
Theorem put_item_readable put_reply now x item t t1 ps c fails o refresh :
  IsSystem x = false → PutItem put_reply now x item t = (t1, Ok tt) →
  Forall (λ p, ¬ replaces (FromContext x, nsToString (Namespace item), Key item) p ∧
               ∀ c, clock p = Some c → in_life item now c) ps →
  in_life item now c → fails = false →
  ∃ i, (GetItem fails o id c x (Namespace item) (Key item) refresh (run_ops ps t1)).2 = Ok i ∧
    Value i = Value item ∧ Key i = Key item ∧ UpdatedAt i = sec now ∧
    Namespace i = stringToNs (nsToString (Namespace item)).
Proof.
  intros Hs Hput Hps Hc ->. set (k := (FromContext x, nsToString (Namespace item), Key item)) in *.
  assert (∃ r, t1 !! k = Some r ∧ holds item now r) as (r0&Hr0&Hh0).
  { unfold PutItem in Hput. apply attempt_ok in Hput. injection Hput as <-. rewrite lookup_insert_eq. eexists. split; [done|].
    destruct (t !! _); (split_and!; [done..|]); simpl; destruct (TTLMinutes item) as [ttl|]; try done;
      exists (now + ttl_duration ttl); done. }
  destruct (run_ops_holds item now k ps t1 r0 Hps Hr0 Hh0) as (r&Hr&Hh).
  unfold Items.GetItem. destruct (row_order _) as [|[k' r'] l] eqn:E.
  - exfalso. assert (Hin : (k, r) ∈ matching (key_row c x (nsToString (Namespace item)) (Key item)) (run_ops ps t1)).
    { apply elem_of_matching. split; [done|]. unfold key_row, visible. simpl.
      rewrite (holds_live item now r c), !String.eqb_refl, Hs by done. done. }
    rewrite <- Hrow, E in Hin. set_solver.
  - apply key_row_unique in E as [-> Hr']; [|done]. fold k in Hr'. simplify_eq.
    destruct Hh as (Hv&Hu&_). unfold scan_item. cbn [snd fst]. rewrite Hv, decode_value_column.
    exists (mkItem (stringToNs (nsToString (Namespace item))) (Key item) (Value item) (i_created r) (sec now) None).
    rewrite Hu. split_and!; [|done..]. by destruct refresh, (i_ttl r).
Qed.

(** ** Searches *)

(** A search without a filter and with room on its page reads, of the rows
    stored under well-formed namespaces, exactly the live ones the caller sees
    whose namespace starts with the segments asked for (up to the case of ASCII
    letters), each once and newest first, and returns the items they decode to. *)
Theorem search_items_exact fail o between now x req t t' l :
  SearchItems fail o between now x req t = (t', Ok l) →
  (∀ i, fail i = false) → Filter req = [] → Offset req ≤ 0 →
  NamespacePrefix req ≠ [] → Forall plain (NamespacePrefix req) → Forall literal (NamespacePrefix req) →
  let rows := search_rows fail now x req t in
  Z.of_nat (length rows) < search_limit (Limit req) 10 →
  mapM scan_item rows = Some l ∧ NoDup rows ∧
  StronglySorted (λ a b, i_updated b.2 ≤ i_updated a.2) rows ∧
  ∀ tn ns key r, ns ≠ [] → Forall plain ns → t !! (tn, nsToString ns, key) = Some r →
    (((tn, nsToString ns, key), r) ∈ rows ↔
     live now r = true ∧ visible x tn = true ∧
     map fold_case (take (length (NamespacePrefix req)) ns) = map fold_case (NamespacePrefix req)).
Proof.
  intros HS Hf Hfil Ho Hp Pp Lp rows Hlen. subst rows.
  assert (Hrows : search_rows fail now x req t = newest_order (matching (search_row extract_is arrow Marshal now x req) t)).
  { revert Hlen. unfold Items.search_rows, page. rewrite scan_all by done.
    replace (Z.to_nat (Offset req)) with 0%nat by lia. rewrite drop_0, length_take. intros Hlen.
    rewrite take_ge by lia. done. }
  unfold Items.SearchItems in HS. rewrite Hf in HS. split_and!.
  - by destruct (mapM _ _); simplify_eq/=.
  - rewrite Hrows, Hnew. apply matching_NoDup.
  - rewrite Hrows. apply Hsort.
  - intros tn ns key r Hn Pn Hr. rewrite Hrows, Hnew, elem_of_matching.
    unfold search_row. rewrite Hfil. cbn [fst snd k_tenant k_ns forallb]. rewrite !andb_true_iff.
    rewrite <- (prefix_pattern_exact (NamespacePrefix req) ns) by done.
    destruct (NamespacePrefix req); [done|]. tauto.
Qed.

(** ** Well-formed rows *)

(** A value is an object or null, a namespace is an encoded one, and a row has an
    expiry exactly when it has a TTL. *)
Definition row_wf (k : item_key) (r : item_row) : Prop :=
  (∃ v, i_value r = value_column v) ∧ (∃ ns, k_ns k = nsToString ns) ∧ (i_ttl r = None ↔ i_expires r = None).

Definition items_wf (t : items) : Prop := map_Forall row_wf t.

Lemma refreshed_wf c x t t' : refreshed c x t t' → items_wf t → items_wf t'.
Proof.
  induction 1 as [|t k r ttl t' Hk Httl _ _ IH]; [done|]. intros Hwf. apply IH. intros k' r'.
  destruct (decide (k = k')) as [<-|Hne]; [|rewrite lookup_alter_ne by done; apply Hwf].
  rewrite lookup_alter_eq, Hk. intros [= <-]. destruct (Hwf k r Hk) as (?&?&?).
  split_and!; [done..|]. simpl. by rewrite Httl.
Qed.

Lemma delete_where_wf p t : items_wf t → items_wf (delete_where p t).1.
Proof. intros Hwf k r [Hr _]%lookup_delete_where. by apply Hwf. Qed.

Lemma run_op_wf p t : items_wf t → items_wf (run_op t p).
Proof.
  intros Hwf. destruct p as [o c x i|f o c x ns key rf|o x ns key|f o c x req|o c x]; unfold run_op.
  - apply (attempt_cases items_wf); [done|]. apply map_Forall_insert_2; [|done].
    destruct (t !! _); split_and!; try (by eexists); simpl; by destruct (TTLMinutes i).
  - eapply refreshed_wf; [apply GetItem_refreshes|done].
  - unfold DeleteItem. pose proof (attempt_cases items_wf o (delete_where (λ kr, String.eqb (k_ns kr.1)
      (nsToString ns) && String.eqb (k_key kr.1) key && visible x (k_tenant kr.1))) t Hwf (delete_where_wf _ _ Hwf)).
    destruct (attempt _ _ _ _) as [t' [n|e]]; done.
  - eapply refreshed_wf; [apply SearchItems_refreshes|done].
  - apply (attempt_cases items_wf); [done|]. by apply delete_where_wf.
Qed.

Lemma run_ops_wf ps t : items_wf t → items_wf (run_ops ps t).
Proof. revert t. induction ps as [|p ps IH]; intros t Hwf; [done|]. apply IH. by apply run_op_wf. Qed.

(** ** Statements interleaved

    A read or search that refreshes expiries does so in statements of their own,
    after it has read: until they run they are owed. *)

Notation owed := (item_key * option Z)%type.

(** The refreshes a read of one key leaves to do. *)
Definition owed_by_get (fails : bool) (now : Z) (x : ctx) (ns : list string) (key : string) (refresh : bool) (t : items)
  : list owed :=
  if fails || negb refresh then []
  else match row_order (matching (key_row now x (nsToString ns) key) t) with
       | [] => []
       | kr :: _ =>
           match scan_item kr, i_ttl kr.2 with
           | Some _, Some ttl => [((k_tenant kr.1, nsToString ns, key), storeItemExpiresAt now (Some ttl))]
           | _, _ => []
           end
       end.

Definition owed_of (now : Z) (kr : item_key * item_row) : option owed :=
  (λ ttl, (kr.1, storeItemExpiresAt now (Some ttl))) <$> i_ttl kr.2.

(** The refreshes a search leaves to do. *)
Definition owed_by_search (fail : nat → bool) (now : Z) (x : ctx) (req : StoreSearchRequest) (t : items) : list owed :=
  if fail 0%nat || negb (RefreshTTLOrDefault req) then []
  else let rows := search_rows fail now x req t in
       match mapM scan_item rows with None => [] | Some _ => omap (owed_of now) rows end.

Fixpoint pay_all (o : nat → reply) (l : list owed) (t : items) : items :=
  match l with
  | [] => t
  | (k, e) :: rest => pay_all o rest (attempt (E := err) EDriver (o (length rest)) (set_expiry k e) t).1
  end.

(** [GetItem] is its read, then what it owes, with anything in between. *)
Lemma GetItem_owes f o b now x ns key refresh t :
  (GetItem f o b now x ns key refresh t).1 =
  match owed_by_get f now x ns key refresh t with
  | [] => t
  | l => pay_all (λ _, o) l (b t)
  end.
Proof.
  unfold Items.GetItem, owed_by_get. destruct f; [done|]. simpl.
  destruct (row_order _) as [|kr l]; [by destruct refresh|]. destruct (scan_item kr); [|by destruct refresh].
  by destruct refresh, (i_ttl kr.2).
Qed.

Lemma SearchItems_owes f b now x req t :
  (∀ o, (SearchItems f o b now x req t).1 = t) ∨
  ∀ r, (SearchItems f (λ _, r) b now x req t).1 = pay_all (λ _, r) (owed_by_search f now x req t) (b t).
Proof.
  unfold Items.SearchItems, owed_by_search. destruct (f 0%nat); [by left|]. simpl.
  destruct (mapM _ _); [|by left]. destruct (RefreshTTLOrDefault req); [right|by left]. intros r. simpl.
  generalize (b t). generalize (search_rows f now x req t) as rows.
  induction rows as [|kr rows IH]; intros t1; [done|]. simpl. unfold owed_of. destruct (i_ttl kr.2); simpl; apply IH.
Qed.

Record desk := mkDesk { tbl : items; debts : list owed }.

(** Whole statements of any number of callers. *)
Inductive stmt :=
| SPut (o : reply) (now : Z) (x : ctx) (item : StoreItem)
| SDelete (o : reply) (x : ctx) (ns : list string) (key : string)
| SPrune (o : reply) (now : Z) (x : ctx)
| SGet (fails : bool) (now : Z) (x : ctx) (ns : list string) (key : string) (refresh : bool)
| SSearch (fail : nat → bool) (now : Z) (x : ctx) (req : StoreSearchRequest)
| SRefresh (o : reply) (i : nat).      (* the refresh owed at [i] *)

Definition run_stmt (d : desk) (s : stmt) : desk :=
  let t := tbl d in
  match s with
  | SPut o now x item => mkDesk (PutItem o now x item t).1 (debts d)
  | SDelete o x ns key => mkDesk (DeleteItem o x ns key t).1 (debts d)
  | SPrune o now x => mkDesk (PruneExpiredStoreItems o now x t).1 (debts d)
  | SGet f now x ns key rf => mkDesk t (debts d ++ owed_by_get f now x ns key rf t)
  | SSearch f now x req => mkDesk t (debts d ++ owed_by_search f now x req t)
  | SRefresh o i =>
      match debts d !! i with
      | Some (k, e) => mkDesk (attempt (E := err) EDriver o (set_expiry k e) t).1 (delete i (debts d))
      | None => d
      end
  end.

Definition run_stmts (ss : list stmt) : desk := foldl run_stmt (mkDesk ∅ []) ss.

(** What holds however statements interleave: a row with a TTL has an expiry, but
    one without may have been given one. *)
Definition row_typed (k : item_key) (r : item_row) : Prop :=
  (∃ v, i_value r = value_column v) ∧ (∃ ns, k_ns k = nsToString ns) ∧ (i_expires r = None → i_ttl r = None).

Definition desk_ok (d : desk) : Prop :=
  map_Forall row_typed (tbl d) ∧ Forall (λ o : owed, o.2 ≠ None) (debts d).

Lemma set_expiry_typed k e t : e ≠ None → map_Forall row_typed t → map_Forall row_typed (set_expiry k e t).1.
Proof.
  intros He Ht k' r'. rewrite lookup_set_expiry. case_decide; [|apply Ht].
  intros (r&Hr&->)%fmap_Some. destruct (Ht k' r Hr) as (?&?&_). by split_and!.
Qed.

Lemma delete_where_typed p t : map_Forall row_typed t → map_Forall row_typed (delete_where p t).1.
Proof. intros Ht k r [Hr _]%lookup_delete_where. by apply Ht. Qed.

Lemma run_stmt_ok d s : desk_ok d → desk_ok (run_stmt d s).
Proof.
  intros [Ht Hd]. destruct s as [o now x item|o x ns key|o now x|f now x ns key rf|f now x req|o i]; unfold run_stmt.
  - split; [|done]. apply (attempt_cases (map_Forall row_typed)); [done|]. apply map_Forall_insert_2; [|done].
    destruct (tbl d !! _); split_and!; try (by eexists); simpl; by destruct (TTLMinutes item).
  - split; [|done]. unfold DeleteItem. simpl.
    pose proof (attempt_cases (map_Forall row_typed) o (delete_where (λ kr, String.eqb (k_ns kr.1)
      (nsToString ns) && String.eqb (k_key kr.1) key && visible x (k_tenant kr.1))) (tbl d) Ht (delete_where_typed _ _ Ht)).
    destruct (attempt _ _ _ _) as [t' [n|e]]; done.
  - split; [|done]. apply (attempt_cases (map_Forall row_typed)); [done|]. by apply delete_where_typed.
  - split; [done|]. apply list.Forall_app. split; [done|]. unfold owed_by_get. destruct (f || negb rf); [done|].
    destruct (row_order _) as [|kr l]; [done|]. destruct (scan_item kr), (i_ttl kr.2); try done. by apply list.Forall_singleton.
  - split; [done|]. apply list.Forall_app. split; [done|]. unfold owed_by_search. destruct (f 0%nat || negb _); [done|]. cbv zeta.
    destruct (mapM _ _); [|done]. apply list.Forall_forall. intros kt (kr&_&E)%list_elem_of_omap.
    unfold owed_of in E. destruct (i_ttl kr.2); [|done]. by injection E as <-.
  - destruct (debts d !! i) as [[k e]|] eqn:Ei; [|done].
    assert (e ≠ None) as He by exact (Forall_lookup_1 _ _ _ _ Hd Ei). split.
    + apply (attempt_cases (map_Forall row_typed)); [done|]. by apply set_expiry_typed.
    + by apply list.Forall_delete.
Qed.

Lemma run_stmts_ok ss : desk_ok (run_stmts ss).
Proof.
  unfold run_stmts. assert (desk_ok (mkDesk ∅ [])) as H by (split; [apply map_Forall_empty|done]). revert H.
  generalize (mkDesk ∅ []). induction ss as [|s ss IH]; intros d Hd; [done|]. apply IH. by apply run_stmt_ok.
Qed.

Lemma typed_scans k r : row_typed k r → is_Some (scan_item (k, r)).
Proof. intros [[v Hv] _]. unfold scan_item. simpl. rewrite Hv, decode_value_column. by eexists. Qed.

Lemma typed_reads t : map_Forall row_typed t →
  (∀ f o b c x ns key rf, (GetItem f o b c x ns key rf t).2 ≠ Err EDecode) ∧
  (∀ f o b c x req, (SearchItems f o b c x req t).2 ≠ Err EDecode).
Proof.
  intros Ht. split; intros.
  - unfold Items.GetItem. destruct f; [done|]. destruct (row_order _) as [|[k r] l] eqn:E; [done|].
    assert (Hin : (k, r) ∈ matching (key_row c x (nsToString ns) key) t) by (rewrite <- Hrow, E; set_solver).
    apply elem_of_matching in Hin as [Hk _]. destruct (typed_scans k r (Ht k r Hk)) as [i ->].
    cbn [snd]. by destruct rf, (i_ttl r).
  - unfold Items.SearchItems. destruct (f 0%nat); [done|].
    destruct (mapM_is_Some_2 scan_item (search_rows f c x req t)) as [l ->]; [|done].
    apply list.Forall_forall. intros [k r] [Hk _]%elem_of_search_rows. by apply typed_scans, Ht.
Qed.

(** C35. Rows stay well typed.  However the statements of puts, deletions, prunes,
    reads, searches and the expiry refreshes these owe interleave on an empty
    table, with any statement failing, every row's value decodes, its namespace is
    an encoded one and a row with a TTL has an expiry; so no read or search ever
    fails to decode a row.  When operations run one at a time, also, only a row
    with a TTL has an expiry. *)
Theorem items_well_typed ss ps :
  map_Forall row_typed (tbl (run_stmts ss)) ∧
  (∀ f o b c x ns key rf, (GetItem f o b c x ns key rf (tbl (run_stmts ss))).2 ≠ Err EDecode) ∧
  (∀ f o b c x req, (SearchItems f o b c x req (tbl (run_stmts ss))).2 ≠ Err EDecode) ∧
  items_wf (run_ops ps ∅).
Proof.
  destruct (run_stmts_ok ss) as [Ht _]. destruct (typed_reads _ Ht). split_and!; try done.
  apply run_ops_wf, map_Forall_empty.
Qed.

(** ** Tenants *)

Definition op_ctx (p : op) : ctx :=
  match p with
  | PutOp _ _ x _ | GetOp _ _ _ x _ _ _ | DeleteOp _ x _ _ | SearchOp _ _ _ x _ | PruneOp _ _ x => x
  end.

Lemma refreshed_other c x t t' k :
  refreshed c x t t' → visible x (k_tenant k) = false → t' !! k = t !! k.
Proof.
  intros H Hk. induction H as [|t k0 r ttl t' _ _ Hv _ IH]; [done|]. rewrite IH, lookup_alter_ne; [done|].
  intros ->. congruence.
Qed.

Lemma delete_where_other p t k : (∀ r, p (k, r) = false) → (delete_where p t).1 !! k = t !! k.
Proof.
  intros Hp. destruct (t !! k) as [r|] eqn:Hr; [by apply lookup_delete_where|].
  apply eq_None_not_Some. intros [r [Hk _]%lookup_delete_where]. congruence.
Qed.

(** An operation of a tenant leaves every other tenant's rows as they are. *)
Theorem items_tenant_isolated p t k :
  IsSystem (op_ctx p) = false → k_tenant k ≠ FromContext (op_ctx p) → run_op t p !! k = t !! k.
Proof.
  intros Hs Hk. assert (Hv : visible (op_ctx p) (k_tenant k) = false).
  { unfold visible. rewrite Hs. simpl. by apply String.eqb_neq. }
  destruct p as [o c x i|f o c x ns key rf|o x ns key|f o c x req|o c x]; simpl in Hs, Hk, Hv; unfold run_op.
  - apply (attempt_cases (λ t', t' !! k = t !! k)); [done|]. apply lookup_insert_ne. intros <-. done.
  - eapply refreshed_other; [apply GetItem_refreshes|done].
  - unfold DeleteItem. pose proof (attempt_cases (λ t', t' !! k = t !! k) o (delete_where (λ kr, String.eqb (k_ns kr.1)
      (nsToString ns) && String.eqb (k_key kr.1) key && visible x (k_tenant kr.1))) t eq_refl) as H.
    destruct (attempt _ _ _ _) as [t' [n|e]]; apply H, delete_where_other; intros r; simpl;
      by rewrite Hv, andb_false_r.
  - eapply refreshed_other; [apply SearchItems_refreshes|done].
  - apply (attempt_cases (λ t', t' !! k = t !! k)); [done|]. apply delete_where_other.
    intros r. simpl. by rewrite Hv, andb_false_r.
Qed.
End props.

(** ** Concrete runs *)

Definition newest_rows : list (item_key * item_row) → list (item_key * item_row) :=
  sort_by (λ a b, i_updated b.2 <=? i_updated a.2).

Lemma newest_rows_sorted l : StronglySorted (λ a b, i_updated b.2 ≤ i_updated a.2) (newest_rows l).
Proof.
  assert (H : StronglySorted (λ a b, (i_updated b.2 <=? i_updated a.2) = true) (newest_rows l)).
  { apply sort_by_sorted; intros; rewrite ?Z.leb_le in *; lia. }
  induction H as [|a m _ IH Ha]; constructor; [done|].
  apply list.Forall_forall. intros b Hb. rewrite list.Forall_forall in Ha. by apply Z.leb_le, Ha.
Qed.

(** [json_extract]: a string is its text and a boolean an integer, which equals no
    text. *)
Definition sqlite_extract_is (c : column) (path text : string) : bool :=
  match c with
  | ColObj m => match m !! str_drop 2 path with Some (AStr s) => String.eqb s text | _ => false end
  | _ => false
  end.
Definition sqlite_arrow (c : column) (path : string) : option any :=
  match c with ColObj m => m !! str_drop 2 path | _ => None end.
Definition small_json (v : any) : string :=
  match v with ABool true => "true" | ABool false => "false" | ANumber n => n | _ => "null" end.

Notation search_items := (SearchItems newest_rows sqlite_extract_is sqlite_arrow small_json).

Definition alice : ctx := mkCtx (Some "alice") false.
Definition bob : ctx := mkCtx (Some "bob") false.

(** One minute. *)
Definition one_minute : float64 := f64_of_Z 1.

Definition profile : StoreItem :=
  mkItem ["users"; "u1"] "profile" (Some {["done" := ABool true]}) 0 0 (Some one_minute).

Definition others : list op :=
  [PutOp RFine 10 bob (mkItem ["users"; "u1"] "profile" None 0 0 None); PruneOp RFine (30 * second) alice;
   SearchOp (λ _, false) (λ _, RFine) (40 * second) alice (mkItemSearch ["users"] [] 10 0 None);
   DeleteOp RFine bob ["users"; "u1"] "profile"].

Lemma put_item_readable_witness :
  ∃ i, (GetItem id false RFine id (59 * second) alice ["users"; "u1"] "profile" true
          (run_ops id newest_rows sqlite_extract_is sqlite_arrow small_json others
             (PutItem RFine 0 alice profile ∅).1)).2 = Ok i ∧
    Value i = Some {["done" := ABool true]} ∧ Key i = "profile" ∧ UpdatedAt i = 0 ∧ Namespace i = ["users"; "u1"].
Proof.
  apply (put_item_readable id newest_rows sqlite_extract_is sqlite_arrow small_json (λ l, reflexivity l)
           (sort_by_perm _) newest_rows_sorted RFine 0 alice profile ∅
           (PutItem RFine 0 alice profile ∅).1 others (59 * second) false RFine true);
    try done.
  - repeat apply Forall_cons; try apply Forall_nil; (split; [try (intros []; done); try (intros (?&?&?); done); try done|]);
      try (intros c Hc; injection Hc as <-; split; [done|]; by vm_compute); try done.
Defined.

(** A put between a read and the refresh it owes. *)
Definition put_between : list stmt :=
  [SPut RFine 0 alice profile; SGet false second alice ["users"; "u1"] "profile" true;
   SPut RFine second alice (mkItem ["users"; "u1"] "profile" None 0 0 None); SRefresh RFine 0].

Lemma items_well_typed_witness :
  map_Forall row_typed (tbl (run_stmts id newest_rows sqlite_extract_is sqlite_arrow small_json put_between)) ∧
  items_wf (run_ops id newest_rows sqlite_extract_is sqlite_arrow small_json others ∅).
Proof.
  destruct (items_well_typed id newest_rows sqlite_extract_is sqlite_arrow small_json (λ l, reflexivity l)
           (sort_by_perm _) newest_rows_sorted put_between others) as (H1&_&_&H2). exact (conj H1 H2).
Defined.

Definition users_search : StoreSearchRequest := mkItemSearch ["users"] [] 10 0 None.

Definition two_users : items :=
  (PutItem RFine 0 alice (mkItem ["users-old"] "k" None 0 0 None)
     (PutItem RFine (2 * second) alice (mkItem ["users"; "u2"] "k" None 0 0 None)
        (PutItem RFine 0 alice profile ∅).1).1).1.

Definition two_found : list StoreItem :=
  [mkItem ["users"; "u2"] "k" None 2 2 None; mkItem ["users"; "u1"] "profile" (Some {["done" := ABool true]}) 0 0 None].

Lemma users_plain : Forall plain ["users"].
Proof. apply Forall_cons; [|apply Forall_nil]. apply (bool_decide_unpack (nsDelim ∉ bytes "users")). by vm_compute. Qed.

Lemma users_literal : Forall literal ["users"].
Proof.
  apply Forall_cons; [|apply Forall_nil].
  split; [apply (bool_decide_unpack (_ ∉ bytes "users"))..]; by vm_compute.
Qed.

Lemma search_items_exact_witness :
  let rows := search_rows newest_rows sqlite_extract_is sqlite_arrow small_json (λ _, false) second alice users_search two_users in
  mapM scan_item rows = Some two_found ∧
  NoDup rows ∧ StronglySorted (λ a b, i_updated b.2 ≤ i_updated a.2) rows.
Proof.
  set (run := search_items (λ _, false) (λ _, RDown) id second alice users_search two_users).
  assert (Hl : run.2 = Ok two_found) by (vm_compute; reflexivity).
  destruct (search_items_exact id newest_rows sqlite_extract_is sqlite_arrow small_json (λ l, reflexivity l)
    (sort_by_perm _) newest_rows_sorted (λ _, false) (λ _, RDown) id second alice users_search two_users run.1
    two_found (eq_trans (surjective_pairing run) (f_equal (pair run.1) Hl)) (λ _, eq_refl) eq_refl
    (Z.le_refl 0) ltac:(discriminate) users_plain users_literal) as (H1&H2&H3&_); [vm_compute; reflexivity|].
  exact (conj H1 (conj H2 H3)).
Defined.

(** A filter on a boolean misses the rows whose field has that value and finds
    those whose field is its text. *)
Theorem boolean_filter_reads_text :
  let row v := (PutItem RFine 0 alice (mkItem ["jobs"] "j" (Some {["done" := v]}) 0 0 None) ∅).1 in
  let req := mkItemSearch ["jobs"] [("done", ABool true)] 10 0 None in
  (search_items (λ _, false) (λ _, RFine) id 1 alice req (row (ABool true))).2 = Ok [] ∧
  (search_items (λ _, false) (λ _, RFine) id 1 alice req (row (AStr "true"))).2 =
    Ok [mkItem ["jobs"] "j" (Some {["done" := AStr "true"]}) 0 0 None].
Proof. vm_compute. split_and!; reflexivity. Qed.

(** A read that refreshes an expiry while the item is put again without a TTL
    gives the new item the expiry of the old one: an item that should stay for
    ever is gone after a minute. *)
Theorem refresh_expires_permanent_item :
  let permanent := mkItem ["users"; "u1"] "profile" (Some {["done" := ABool false]}) 0 0 None in
  let t0 := (PutItem RFine 0 alice profile ∅).1 in
  let put t := (PutItem RFine second alice permanent t).1 in
  let t := (GetItem id false RFine put second alice ["users"; "u1"] "profile" true t0).1 in
  (i_ttl <$> t !! ("alice", nsToString ["users"; "u1"], "profile")) = Some None ∧
  (GetItem id false RFine id (62 * second) alice ["users"; "u1"] "profile" true t).2 =
    Err (ENotFound "store_item" "profile") ∧
  (PruneExpiredStoreItems RFine (62 * second) alice t) = (∅, Ok 1).
Proof. vm_compute. split_and!; reflexivity. Qed.
