(* ===== verification/Pages.v ===== *)
(** * Keyset pagination

    [internal/pagecursor/cursor.go] and the arithmetic of keyset pages: rows
    ordered by a pair of texts, each page taken after the last pair of the one
    before.  [json.Marshal] and [json.Unmarshal] of a cursor's fields are
    parameters; base64 is [Base64]'s, decoded without the check on unused bits. *)

From Stdlib Require Import Ascii String.
From S2P Require Import Prelude GoStrings Base64 Store.
Local Open Scope string_scope.
Local Open Scope Z_scope.
Local Open Scope list_scope.

(** ** Cursors *)

Record wire := mkWire { W_T : string; W_K : string; W_I : string }.

Record TimeCursor := mkTimeCursor { TC_Time : Z; TC_ID : string }.
Record KeyCursor := mkKeyCursor { KC_Key : string; KC_ID : string }.

(** [RawURLEncoding.DecodeString] ignores the unused bits of the last digit. *)
Fixpoint lax_bytes (vs : list Z) : option (list ascii) :=
  match vs with
  | p :: q :: r :: s :: rest =>
      (λ l, byte (p * 4 + q / 16) :: byte ((q mod 16) * 16 + r / 4) :: byte ((r mod 4) * 64 + s) :: l) <$> lax_bytes rest
  | [p; q; r] => Some [byte (p * 4 + q / 16); byte ((q mod 16) * 16 + r / 4)]
  | [p; q] => Some [byte (p * 4 + q / 16)]
  | [_] => None
  | [] => Some []
  end.

Section cursors.
Variable marshal : wire → list ascii.
Variable unmarshal : list ascii → option wire.
(** RFC 3339 texts with nanoseconds *)
Variable format_nano : Z → string.
Variable parse_nano : string → option Z.

Definition encode (w : wire) : string := string_of_list_ascii (EncodeToString (marshal w)).

Definition decode (s : string) : option wire :=
  match b64_values (list_ascii_of_string s) ≫= lax_bytes with
  | None => None
  | Some b => unmarshal b
  end.

Definition EncodeTime (t : Z) (id : string) : string := encode (mkWire (format_nano t) "" id).

(** [None]: an error.  The zero cursor is [mkTimeCursor 0 ""]. *)
Definition DecodeTime (s : string) : option TimeCursor :=
  if String.eqb s "" then Some (mkTimeCursor 0 "")
  else match decode s with
  | None => None
  | Some w =>
      if String.eqb (W_T w) "" || String.eqb (W_I w) "" || negb (String.eqb (W_K w) "") then None
      else match parse_nano (W_T w) with
           | None => None
           | Some ts => Some (mkTimeCursor ts (W_I w))
           end
  end.

Definition EncodeKey (key id : string) : string := encode (mkWire "" key id).

Definition DecodeKey (s : string) : option KeyCursor :=
  if String.eqb s "" then Some (mkKeyCursor "" "")
  else match decode s with
  | None => None
  | Some w =>
      if String.eqb (W_K w) "" || String.eqb (W_I w) "" || negb (String.eqb (W_T w) "") then None
      else Some (mkKeyCursor (W_K w) (W_I w))
  end.

Lemma lax_extends n vs l : (length vs < n)%nat → b64_bytes vs = Some l → lax_bytes vs = Some l.
Proof.
  revert vs l. induction n as [|n IH]; intros vs l Hn; [lia|].
  destruct vs as [|p [|q [|r [|s vs]]]]; simpl; try done.
  - by destruct (q mod 16 =? 0).
  - by destruct (r mod 4 =? 0).
  - destruct (b64_bytes vs) as [l'|] eqn:E; [|done]. intros H. rewrite (IH vs l'); [done| |done].
    simpl in Hn. lia.
Qed.

Lemma list_ascii_inv l : list_ascii_of_string (string_of_list_ascii l) = l.
Proof. induction l as [|a l IH]; [done|]. simpl. by rewrite IH. Qed.

Lemma decode_encode w : unmarshal (marshal w) = Some w → decode (encode w) = Some w.
Proof.
  intros Hw. unfold decode, encode. rewrite list_ascii_inv.
  pose proof (Decode_Encode (marshal w)) as H. unfold DecodeString in H.
  destruct (b64_values _) as [vs|]; [|done]. simpl in *. erewrite lax_extends; [done|apply Nat.lt_succ_diag_r|done].
Qed.

Lemma encode_nonempty w : unmarshal (marshal w) = Some w → unmarshal [] = None → encode w ≠ "".
Proof.
  intros Hw Hn H. unfold encode in H. apply (f_equal list_ascii_of_string) in H. rewrite list_ascii_inv in H.
  destruct (marshal w) as [|a [|b [|c l]]]; simpl in *; congruence.
Qed.

(** A key cursor decodes to the row it was made from; a row with an empty key or
    identifier gives a cursor that is refused. *)
Theorem key_cursor_roundtrip key id :
  unmarshal (marshal (mkWire "" key id)) = Some (mkWire "" key id) → unmarshal [] = None →
  DecodeKey (EncodeKey key id) =
    if String.eqb key "" || String.eqb id "" then None else Some (mkKeyCursor key id).
Proof.
  intros Hw Hn. unfold DecodeKey, EncodeKey.
  destruct (String.eqb_spec (encode (mkWire "" key id)) "") as [E|_]; [by apply encode_nonempty in E|].
  rewrite decode_encode by done. simpl. by rewrite orb_false_r.
Qed.
End cursors.

(** ** Orders on pairs of texts *)

Definition pair_lt (a b : string * string) : bool :=
  String.ltb a.1 b.1 || (String.eqb a.1 b.1 && String.ltb a.2 b.2).
Definition pair_le (a b : string * string) : bool :=
  String.ltb a.1 b.1 || (String.eqb a.1 b.1 && String.leb a.2 b.2).

Lemma leb_trans a b c : String.leb a b = true → String.leb b c = true → String.leb a c = true.
Proof.
  intros H1%Is_true_true H2%Is_true_true. apply Is_true_true.
  change (String.le a c). etrans; [exact H1|exact H2].
Qed.

Lemma ltb_leb a b : String.ltb a b = true ↔ String.leb a b = true ∧ a ≠ b.
Proof.
  unfold String.ltb, String.leb. destruct (String.compare a b) eqn:E.
  - apply String.compare_eq_iff in E as ->. split; [done|by intros [_ ?]].
  - split; [|done]. split; [done|]. intros ->.
    pose proof (String.compare_antisym b b) as Hb. by rewrite E in Hb.
  - split; [done|by intros [? _]].
Qed.

Lemma pair_le_spec a b :
  pair_le a b = true ↔ (String.leb a.1 b.1 = true ∧ a.1 ≠ b.1) ∨ (a.1 = b.1 ∧ String.leb a.2 b.2 = true).
Proof. unfold pair_le. by rewrite orb_true_iff, andb_true_iff, ltb_leb, String.eqb_eq. Qed.

Lemma pair_lt_spec a b : pair_lt a b = true ↔ pair_le a b = true ∧ a ≠ b.
Proof.
  unfold pair_lt. rewrite orb_true_iff, andb_true_iff, !ltb_leb, String.eqb_eq, pair_le_spec.
  destruct a as [a1 a2], b as [b1 b2]. simpl. split.
  - intros [[??]|(->&?&?)]; (split; [tauto|]); congruence.
  - intros [[?|[-> ?]] Hne]; [by left|right]. split_and!; try done. congruence.
Qed.

Lemma pair_le_total a b : pair_le a b = true ∨ pair_le b a = true.
Proof.
  rewrite !pair_le_spec. destruct (decide (a.1 = b.1)) as [E|Hne].
  - destruct (String.leb_total a.2 b.2); [left|right]; right; done.
  - destruct (String.leb_total a.1 b.1); [left|right]; left; done.
Qed.

Lemma pair_le_trans a b c : pair_le a b = true → pair_le b c = true → pair_le a c = true.
Proof.
  rewrite !pair_le_spec. intros [[Ha Ha']|[Ha Ha']] [[Hb Hb']|[Hb Hb']].
  - left. split; [by eapply leb_trans|]. intros E. rewrite E in Ha. destruct Ha'. rewrite E.
    by apply String.leb_antisym.
  - left. by rewrite <- Hb.
  - left. by rewrite Ha.
  - right. split; [congruence|by eapply leb_trans].
Qed.

Lemma pair_le_antisym a b : pair_le a b = true → pair_le b a = true → a = b.
Proof.
  rewrite !pair_le_spec. destruct a as [a1 a2], b as [b1 b2]. simpl. intros [[Ha Ha']|[E Ha]] [[Hb Hb']|[E' Hb]]; try congruence.
  - destruct Ha'. by apply String.leb_antisym.
  - f_equal; [done|by apply String.leb_antisym].
Qed.

Lemma pair_lt_irrefl a : pair_lt a a = false.
Proof. apply not_true_is_false. rewrite pair_lt_spec. tauto. Qed.

(** ** Pages of rows told apart by their pairs *)
Section keyset.
Context {A : Type} (key : A → string * string).

Definition by_key (a b : A) : bool := pair_le (key a) (key b).

Lemma by_key_sorted l : StronglySorted (λ a b, by_key a b = true) (sort_by by_key l).
Proof. apply sort_by_sorted; unfold by_key; intros; [apply pair_le_total|by eapply pair_le_trans]. Qed.

Lemma NoDup_key_inj l a b : NoDup (key <$> l) → a ∈ l → b ∈ l → key a = key b → a = b.
Proof.
  induction l as [|x l IH]; [set_solver|]. rewrite fmap_cons, list.NoDup_cons. intros [Hx Hl] Ha Hb E.
  apply elem_of_cons in Ha as [->|Ha]; apply elem_of_cons in Hb as [->|Hb]; auto;
    destruct Hx; [rewrite E|rewrite <- E]; by apply list_elem_of_fmap_2.
Qed.

(** Filtering the sorted rows or sorting the filtered ones is the same. *)
Lemma sort_filter (p : A → bool) l : NoDup (key <$> l) →
  sort_by by_key (filter (λ a, p a = true) l) = filter (λ a, p a = true) (sort_by by_key l).
Proof.
  intros Hn. eapply StronglySorted_unique_strong; [|apply by_key_sorted| |].
  - intros a b Ha Hb H1 H2. rewrite sort_by_perm in Ha. apply list_elem_of_filter in Ha as [_ Ha].
    apply list_elem_of_filter in Hb as [_ Hb]. rewrite sort_by_perm in Hb.
    apply (NoDup_key_inj l); [done..|]. by apply pair_le_antisym.
  - pose proof (by_key_sorted l) as Hs. induction Hs as [|a m _ IH Ha]; [constructor|].
    rewrite filter_cons. case_decide; [|done]. constructor; [done|].
    rewrite list.Forall_forall in Ha. apply list.Forall_forall. intros b [_ Hb]%list_elem_of_filter. by apply Ha.
  - by rewrite !sort_by_perm.
Qed.

(** In a sorted list, the rows after one are the ones above it. *)
Lemma filter_after (l m : list A) x :
  NoDup (key <$> (l ++ x :: m)) → StronglySorted (λ a b, by_key a b = true) (l ++ x :: m) →
  filter (λ a, pair_lt (key x) (key a) = true) (l ++ x :: m) = m.
Proof.
  induction l as [|a l IH]; cbn [app]; rewrite fmap_cons, list.NoDup_cons; intros [Ha Hn] Hs; inversion_clear Hs as [|?? Hs' Hall].
  - rewrite filter_cons, decide_False by (by rewrite pair_lt_irrefl). clear Hs'.
    induction m as [|b m IHm]; [done|]. rewrite fmap_cons, list.NoDup_cons in Hn. destruct Hn as [Hb Hn].
    rewrite list.Forall_cons in Hall. destruct Hall as [Hxb Hall].
    rewrite filter_cons, decide_True; [|apply pair_lt_spec; split; [done|set_solver]].
    f_equal. apply IHm; [set_solver|done|done].
  - rewrite filter_cons, decide_False; [by apply IH|]. rewrite pair_lt_spec. intros [Hle Hne].
    rewrite list.Forall_forall in Hall. apply Hne, pair_le_antisym; [done|]. apply (Hall x). set_solver.
Qed.

(** The rows of a listing after a cursor. *)
Definition after (c : option (string * string)) (a : A) : bool :=
  match c with None => true | Some k => pair_lt k (key a) end.

Lemma filter_after_none (l : list A) : filter (λ a, after None a = true) l = l.
Proof. induction l as [|a l IH]; [done|]. by rewrite filter_cons, decide_True, IH. Qed.

(** Pages of [limit] rows, each after the last row of the one before, up to the
    first that is not full. *)
Fixpoint pages (limit fuel : nat) (rows : list A) (c : option (string * string)) : option (list A) :=
  match fuel with
  | O => None
  | S fuel' =>
      let page := take limit (sort_by by_key (filter (λ a, after c a = true) rows)) in
      if bool_decide (length page = limit) then
        match list.last page with
        | Some x => app page <$> pages limit fuel' rows (Some (key x))
        | None => None
        end
      else Some page
  end.

Lemma pages_from limit fuel rows done_ rest c :
  (0 < limit)%nat → NoDup (key <$> rows) → sort_by by_key rows = done_ ++ rest →
  match c with None => done_ = [] | Some k => ∃ l x, done_ = l ++ [x] ∧ k = key x end →
  (length rest < fuel)%nat → pages limit fuel rows c = Some rest.
Proof.
  intros Hl Hn. revert done_ rest c. induction fuel as [|fuel IH]; intros done_ rest c Hr Hc Hf; [lia|].
  cbn [pages]. rewrite sort_filter, Hr by done.
  assert (Hk : NoDup (key <$> (done_ ++ rest))) by (by rewrite <- Hr, sort_by_perm).
  assert (Hs := by_key_sorted rows). rewrite Hr in Hs.
  assert (filter (λ a, after c a = true) (done_ ++ rest) = rest) as ->.
  { destruct c as [k|]; [|by rewrite Hc, filter_after_none].
    destruct Hc as (l&x&->&->). rewrite <- app_assoc in *. by apply filter_after. }
  case_bool_decide as Hfull.
  - rewrite length_take in Hfull. assert (limit ≤ length rest)%nat by lia.
    destruct (list.last (take limit rest)) as [x|] eqn:Hx.
    + rewrite (IH (done_ ++ take limit rest) (drop limit rest)).
      * simpl. by rewrite take_drop.
      * by rewrite <- app_assoc, take_drop.
      * apply last_Some in Hx as [l Hx]. exists (done_ ++ l), x. by rewrite Hx, app_assoc.
      * rewrite length_drop. lia.
    + apply last_None in Hx. apply (f_equal length) in Hx. rewrite length_take in Hx. simpl in Hx. lia.
  - rewrite length_take in Hfull. by rewrite take_ge by lia.
Qed.

(** Walking the pages of rows told apart by their pairs gives each row once, in
    order. *)
Lemma pages_complete limit rows :
  (0 < limit)%nat → NoDup (key <$> rows) →
  pages limit (S (length rows)) rows None = Some (sort_by by_key rows).
Proof.
  intros Hl Hn. apply (pages_from limit _ rows [] (sort_by by_key rows)); [done..|].
  rewrite (Permutation_length (sort_by_perm _ _)). lia.
Qed.
End keyset.
