(* ===== verification/Catalog.v ===== *)
(** * Agents and the agent registry

    The agent and registry operations of [internal/state/sqlite/sqlite.go], the
    handlers of [internal/api/registry.go], and the two name-ordered lists of
    [internal/api/admin.go].  Both tables keep a row per name, with a version
    number, and a snapshot row per version.

    A transaction runs whole, or is rolled back by a statement or commit that
    fails, or commits while its answer is lost ([reply]).  JSON columns hold the
    text [json.Marshal] gives; texts of JSON values, SQLite's JSON functions and
    the order of rows no ORDER BY separates are parameters. *)

From Stdlib Require Import Ascii String.
From S2P Require Import Prelude GoStrings GoAny GoTime JsonNumber Completion Store StoreSearch Namespaces Items Pages.
Local Open Scope string_scope.
Local Open Scope Z_scope.
Local Open Scope go_scope.

(** ** Versioned tables *)

(** The key of a row: tenant and name. *)
Notation name_key := (string * string)%type.

Record head {C : Type} := mkHead { h_content : C; h_version : Z; h_created : Z; h_updated : Z }.
Record snapshot {C : Type} := mkSnap { v_content : C; v_created : Z }.
#[global] Arguments head : clear implicits.
#[global] Arguments snapshot : clear implicits.

Record vtable {C : Type} := mkVT {
  heads : gmap (string * string) (head C);
  versions : gmap (string * string * Z) (snapshot C)   (* PRIMARY KEY (tenant_id, name, version) *)
}.
#[global] Arguments vtable : clear implicits.

Definition empty_vt {C : Type} : vtable C := mkVT C ∅ ∅.

Section versioned.
Context {C : Type} `{!EqDecision C}.

(** [INSERT ... ON CONFLICT DO UPDATE SET ..., version = CASE WHEN a column
    differs THEN version + 1 ELSE version END RETURNING version] *)
Definition upsert_head (k : name_key) (c : C) (now : Z) (t : vtable C) : vtable C * Z :=
  let h := match heads t !! k with
           | None => mkHead C c 1 now now
           | Some old =>
               mkHead C c (if bool_decide (h_content old ≠ c) then h_version old + 1 else h_version old)
                 (h_created old) now
           end in
  (mkVT C (<[k := h]> (heads t)) (versions t), h_version h).

(** [INSERT ... ON CONFLICT DO NOTHING] *)
Definition insert_snapshot (k : name_key) (version : Z) (c : C) (now : Z) (t : vtable C) : vtable C :=
  match versions t !! (k, version) with
  | Some _ => t
  | None => mkVT C (heads t) (<[(k, version) := mkSnap C c now]> (versions t))
  end.

Definition publish (k : name_key) (c : C) (now : Z) (t : vtable C) : vtable C * unit :=
  let (t1, newVersion) := upsert_head k c now t in (insert_snapshot k newVersion c now t1, tt).
End versioned.

(** ** Agents *)

Record Agent := mkAgent {
  AgentID : string;
  AName : string;
  ADescription : string;
  AMetadata : any;
  ACapabilities : any
}.

Record agent_cols := mkAgentCols {
  ac_name : string; ac_description : string; ac_metadata : string; ac_capabilities : string
}.
#[export] Instance agent_cols_eq : EqDecision agent_cols.
Proof. solve_decision. Defined.

Record AgentSearchRequest := mkAgentSearch {
  SName : string;
  SMetadata : list (string * any);
  SLimit : Z;
  SOffset : Z;
  SCursor : string
}.

Record AgentSchema := mkSchema { ScAgentID : string; ScInput : any; ScOutput : any; ScState : any; ScConfig : any }.
Record schema_cols := mkSchemaCols { sc_input : string; sc_output : string; sc_state : string; sc_config : string }.

(** ** Registry *)

Record RegistryEntry := mkEntry {
  RName : string;
  RDisplayName : string;
  RDescription : string;
  RAuthor : string;
  RTags : option (list string);      (* a nil slice is None *)
  RSourceType : string;
  RSourceRef : string;
  RMetadata : any
}.

Record entry_cols := mkEntryCols {
  ec_display_name : string; ec_description : string; ec_author : string; ec_tags : string;
  ec_source_type : string; ec_source_ref : string; ec_metadata : string
}.
#[export] Instance entry_cols_eq : EqDecision entry_cols.
Proof. solve_decision. Defined.

Record RegistrySearchRequest := mkRegSearch {
  GName : string;
  GAuthor : string;
  GTags : list string;
  GLimit : Z;
  GOffset : Z;
  GCursor : string
}.

Definition nonNilTags (tags : option (list string)) : list string := default [] tags.

Section catalog.
Variable row_order : ∀ A : Type, list A → list A.
Variable Marshal : any → string.
(** [json_extract(metadata, path) = text], on the column's text *)
Variable extract_is : string → string → string → bool.
Variable marshal : wire → list ascii.
Variable unmarshal : list ascii → option wire.

Notation DecodeKey := (DecodeKey unmarshal).
Notation EncodeKey := (EncodeKey marshal).

(** The rows of a table, as the database returns them. *)
Definition rows_of {V : Type} (m : gmap (string * string) V) : list ((string * string) * V) := row_order _ (map_to_list m).

(** The first row of a name the caller sees. *)
Definition find_name {V : Type} (x : ctx) (name : string) (m : gmap (string * string) V) : option ((string * string) * V) :=
  list.head (filter (λ kr, visible x kr.1.1 && String.eqb kr.1.2 name = true) (rows_of m)).

(** The snapshots of a name the caller sees, [ORDER BY version DESC]. *)
Definition name_versions {V : Type} (x : ctx) (name : string) (m : gmap (string * string * Z) V) : list ((string * string * Z) * V) :=
  sort_by (λ a b, b.1.2 <=? a.1.2)
    (filter (λ kr, visible x kr.1.1.1 && String.eqb kr.1.1.2 name = true) (row_order _ (map_to_list m))).

Definition find_version {V : Type} (x : ctx) (name : string) (version : Z) (m : gmap (string * string * Z) V) : option ((string * string * Z) * V) :=
  list.head (filter (λ kr, visible x kr.1.1.1 && String.eqb kr.1.1.2 name && (kr.1.2 =? version) = true)
          (row_order _ (map_to_list m))).

(** [fmt.Sprintf("%s@v%d", name, version)] *)
Definition version_id (name : string) (version : Z) : string :=
  name +:+ "@v" +:+ string_of_list_ascii (Itoa version).

(** A listing whose [rows.Err] is looked at: a failed read fails it. *)
Fixpoint scan_all_rows {A} (fail : nat → bool) (n : nat) (l : list A) : res err (list A) :=
  match l with
  | [] => if fail (S n) then Err EDriver else Ok []
  | a :: rest => if fail (S n) then Err EDriver else r <-? scan_all_rows fail (S n) rest ;; Ok (a :: r)
  end.

(** *** Operations on agents *)

Definition agent_columns (a : Agent) : agent_cols :=
  mkAgentCols (AName a) (ADescription a) (Marshal (AMetadata a)) (Marshal (ACapabilities a)).

Definition UpsertAgent (o : reply) (now : Z) (x : ctx) (agent : Agent) (t : vtable agent_cols)
  : vtable agent_cols * res err unit :=
  attempt EDriver o (publish (FromContext x, AgentID agent) (agent_columns agent) (sec now)) t.

Definition ListAgentVersions (fail : nat → bool) (x : ctx) (agentID : string) (t : vtable agent_cols)
  : res err (list ((string * string * Z) * snapshot agent_cols)) :=
  if fail 0%nat then Err EDriver else scan_all_rows fail 0 (name_versions x agentID (versions t)).

Definition GetAgentVersion (fails : bool) (x : ctx) (agentID : string) (version : Z) (t : vtable agent_cols)
  : res err ((string * string * Z) * snapshot agent_cols) :=
  if fails then Err EDriver
  else match find_version x agentID version (versions t) with
       | Some r => Ok r
       | None => Err (ENotFound "agent_version" (version_id agentID version))
       end.

Definition GetAgent (fails : bool) (x : ctx) (agentID : string) (t : vtable agent_cols)
  : res err ((string * string) * head agent_cols) :=
  if fails then Err EDriver
  else match find_name x agentID (heads t) with
       | Some r => Ok r
       | None => Err (ENotFound "agent" agentID)
       end.

(** [name LIKE '%' || name || '%'] *)
Definition contains_like (want col : string) : bool :=
  String.eqb want "" || like ("%" +:+ want +:+ "%") col.

Definition agent_key (kr : (string * string) * head agent_cols) : string * string :=
  (ac_name (h_content kr.2), kr.1.2).

Definition agent_metadata_clause (kr : (string * string) * head agent_cols) (kv : string * any) : bool :=
  extract_is (ac_metadata (h_content kr.2)) ("$." +:+ kv.1) (match kv.2 with AStr s => s | v => Marshal v end).

(** The page of a name-ordered list: a cursor replaces the offset. *)
Definition name_page {A} (key : A → string * string) (limit offset : Z) (kc : KeyCursor) (rows : list A) : list A :=
  let cursor := if String.eqb (KC_ID kc) "" then None else Some (KC_Key kc, KC_ID kc) in
  page (if limit <=? 0 then 10 else limit) (match cursor with None => offset | Some _ => 0 end)
    (sort_by (by_key key) (filter (λ r, after key cursor r = true) rows)).

Definition SearchAgents (fail : nat → bool) (x : ctx) (req : AgentSearchRequest) (t : vtable agent_cols)
  : res err (list ((string * string) * head agent_cols)) :=
  match DecodeKey (SCursor req) with
  | None => Err (EOther "invalid key cursor")
  | Some kc =>
      if fail 0%nat then Err EDriver
      else Ok (scan fail 0
                 (name_page agent_key (SLimit req) (Z.max 0 (SOffset req)) kc
                    (filter (λ kr, visible x kr.1.1 && contains_like (SName req) (ac_name (h_content kr.2))
                                   && forallb (agent_metadata_clause kr) (SMetadata req) = true)
                       (rows_of (heads t)))))
  end.

Definition CountAgents (fails : bool) (x : ctx) (t : vtable agent_cols) : res err Z :=
  if fails then Err EDriver
  else Ok (Z.of_nat (length (filter (λ kr, visible x kr.1.1 = true) (rows_of (heads t))))).

(** The schema's row references its agent's: FOREIGN KEY (tenant_id, agent_id). *)
Definition UpsertAgentSchema (o : reply) (x : ctx) (schema : AgentSchema) (agents : vtable agent_cols)
    (s : gmap (string * string) schema_cols) : gmap (string * string) schema_cols * res err unit :=
  let k := (FromContext x, ScAgentID schema) in
  match heads agents !! k with
  | None => (s, Err EDriver)
  | Some _ =>
      attempt EDriver o
        (λ s, (<[k := mkSchemaCols (Marshal (ScInput schema)) (Marshal (ScOutput schema))
                       (Marshal (ScState schema)) (Marshal (ScConfig schema))]> s, tt)) s
  end.

Definition GetAgentSchema (fails : bool) (x : ctx) (agentID : string) (s : gmap (string * string) schema_cols)
  : res err ((string * string) * schema_cols) :=
  if fails then Err EDriver
  else match find_name x agentID s with
       | Some r => Ok r
       | None => Err (ENotFound "agent_schema" agentID)
       end.

(** *** Operations on registry entries *)

Definition entry_columns (e : RegistryEntry) : entry_cols :=
  mkEntryCols (RDisplayName e) (RDescription e) (RAuthor e) (Marshal (AArr (map AStr (nonNilTags (RTags e)))))
    (RSourceType e) (RSourceRef e) (Marshal (RMetadata e)).

Definition PublishRegistryEntry (o : reply) (now : Z) (x : ctx) (entry : RegistryEntry) (t : vtable entry_cols)
  : vtable entry_cols * res err unit :=
  attempt EDriver o (publish (FromContext x, RName entry) (entry_columns entry) (sec now)) t.

Definition GetRegistryEntry (fails : bool) (x : ctx) (name : string) (t : vtable entry_cols)
  : res err ((string * string) * head entry_cols) :=
  if fails then Err EDriver
  else match find_name x name (heads t) with
       | Some r => Ok r
       | None => Err (ENotFound "registry_entry" name)
       end.

(** [ORDER BY name ASC, tenant_id ASC] *)
Definition entry_key (kr : (string * string) * head entry_cols) : string * string := (kr.1.2, kr.1.1).

Definition registry_row (x : ctx) (req : RegistrySearchRequest) (kr : (string * string) * head entry_cols) : bool :=
  visible x kr.1.1 && contains_like (GName req) kr.1.2
  && (String.eqb (GAuthor req) "" || String.eqb (ec_author (h_content kr.2)) (GAuthor req))
  && forallb (λ tag, like ("%" +:+ Marshal (AStr tag) +:+ "%") (ec_tags (h_content kr.2))) (GTags req).

Definition SearchRegistryEntries (fail : nat → bool) (x : ctx) (req : RegistrySearchRequest) (t : vtable entry_cols)
  : res err (list ((string * string) * head entry_cols)) :=
  match DecodeKey (GCursor req) with
  | None => Err (EOther "invalid key cursor")
  | Some kc =>
      if fail 0%nat then Err EDriver
      else scan_all_rows fail 0
             (name_page entry_key (GLimit req) (GOffset req) kc
                (filter (λ kr, registry_row x req kr = true) (rows_of (heads t))))
  end.

(** Both deletions in one transaction; no row affected rolls it back. *)
Definition DeleteRegistryEntry (o : reply) (x : ctx) (name : string) (t : vtable entry_cols)
  : vtable entry_cols * res err unit :=
  let gone := filter (λ kr, visible x kr.1.1 && String.eqb kr.1.2 name = true) (heads t) in
  if bool_decide (gone = ∅) then
    (t, Err (match o with RFine => ENotFound "registry_entry" name | _ => EDriver end))
  else
    attempt EDriver o
      (λ t, (mkVT entry_cols
               (filter (λ kr, visible x kr.1.1 && String.eqb kr.1.2 name = false) (heads t))
               (filter (λ kr, visible x kr.1.1.1 && String.eqb kr.1.1.2 name = false) (versions t)), tt)) t.

Definition ListRegistryEntryVersions (fail : nat → bool) (x : ctx) (name : string) (t : vtable entry_cols)
  : res err (list ((string * string * Z) * snapshot entry_cols)) :=
  if fail 0%nat then Err EDriver else scan_all_rows fail 0 (name_versions x name (versions t)).

Definition GetRegistryEntryVersion (fails : bool) (x : ctx) (name : string) (version : Z) (t : vtable entry_cols)
  : res err ((string * string * Z) * snapshot entry_cols) :=
  if fails then Err EDriver
  else match find_version x name version (versions t) with
       | Some r => Ok r
       | None => Err (ENotFound "registry_entry_version" (version_id name version))
       end.

(** ** Handlers *)

(** [handlePublishRegistryEntry]: the name of the path replaces the body's. *)
Definition handlePublishRegistryEntry (o : reply) (fails : bool) (between : vtable entry_cols → vtable entry_cols)
    (now : Z) (x : ctx) (name : string) (body : option RegistryEntry) (t : vtable entry_cols)
  : vtable entry_cols * res Z ((string * string) * head entry_cols) :=
  match body with
  | None => (t, Err 400)
  | Some b =>
      let entry := mkEntry name (RDisplayName b) (RDescription b) (RAuthor b) (RTags b) (RSourceType b)
                     (RSourceRef b) (RMetadata b) in
      if String.eqb (RSourceType entry) "" || String.eqb (RSourceRef entry) "" then (t, Err 400)
      else match PublishRegistryEntry o now x entry t with
           | (t1, Err _) => (t1, Err 500)
           | (t1, Ok _) =>
               let t2 := between t1 in
               match GetRegistryEntry fails x name t2 with
               | Ok e => (t2, Ok e)
               | Err (ENotFound _ _) => (t2, Err 404)
               | Err _ => (t2, Err 500)
               end
           end
  end.

Definition handleDeleteRegistryEntry (o : reply) (x : ctx) (name : string) (t : vtable entry_cols)
  : vtable entry_cols * Z :=
  match DeleteRegistryEntry o x name t with
  | (t', Ok _) => (t', 204)
  | (t', Err (ENotFound _ _)) => (t', 404)
  | (t', Err _) => (t', 500)
  end.

Definition handleSearchRegistryEntries (fail : nat → bool) (x : ctx) (body : option RegistrySearchRequest)
    (t : vtable entry_cols) : res Z (list ((string * string) * head entry_cols)) :=
  match body with
  | None => Err 400
  | Some req =>
      match SearchRegistryEntries fail x
              (mkRegSearch (GName req) (GAuthor req) (GTags req) (clampSearchLimit (GLimit req) 10) (GOffset req)
                 (GCursor req)) t with
      | Ok l => Ok l
      | Err _ => Err 500
      end
  end.

(** *** Lists of the admin API *)

Definition adminListDefaultLimit : Z := 50.
Definition adminListMaxLimit : Z := 200.

Record adminPaging := mkPaging { PgLimit : Z; PgOffset : Z; PgCursor : string }.

(** The query's [limit] and [offset], where they are integers; [hasOffset]: the
    parameter is present. *)
Definition adminListPaging (limit : option Z) (hasOffset : bool) (offset : option Z) (cursor : string)
  : option adminPaging :=
  let l := match limit with Some n => if 0 <? n then n else adminListDefaultLimit | None => adminListDefaultLimit end in
  let l := if adminListMaxLimit <? l then adminListMaxLimit else l in
  if negb (String.eqb cursor "") && hasOffset then None
  else Some (mkPaging l (match hasOffset, offset with true, Some n => if 0 <? n then n else 0 | _, _ => 0 end) cursor).

(** [X-Next-Cursor]: set when the page is full. *)
Definition next_cursor {A} (key : A → string * string) (limit : Z) (l : list A) : string :=
  match list.last l with
  | Some r => if Z.of_nat (length l) =? limit then EncodeKey (key r).1 (key r).2 else ""
  | None => ""
  end.

Definition handleAdminListAgents (fail : nat → bool) (x : ctx) (paging : option adminPaging) (t : vtable agent_cols)
  : res Z (list ((string * string) * head agent_cols) * string) :=
  match paging with
  | None => Err 400
  | Some p =>
      match DecodeKey (PgCursor p) with
      | None => Err 400
      | Some _ =>
          match SearchAgents fail (SystemContext x) (mkAgentSearch "" [] (PgLimit p) (PgOffset p) (PgCursor p)) t with
          | Ok l => Ok (l, next_cursor agent_key (PgLimit p) l)
          | Err _ => Err 500
          end
      end
  end.

Definition handleAdminListRegistryEntries (fail : nat → bool) (x : ctx) (paging : option adminPaging)
    (t : vtable entry_cols) : res Z (list ((string * string) * head entry_cols) * string) :=
  match paging with
  | None => Err 400
  | Some p =>
      match DecodeKey (PgCursor p) with
      | None => Err 400
      | Some _ =>
          match SearchRegistryEntries fail (SystemContext x)
                  (mkRegSearch "" "" [] (PgLimit p) (PgOffset p) (PgCursor p)) t with
          | Ok l => Ok (l, next_cursor entry_key (PgLimit p) l)
          | Err _ => Err 500
          end
      end
  end.
End catalog.

(** * Properties of the agent registry and of name-ordered lists
    The registry's two tables implement an abstract history per name: the list of
    contents published, a new one only when the content changed.  The admin list
    of entries, walked by its cursors, gives every entry once.  *)

From S2P Require Import Base64.
Local Open Scope string_scope.
Local Open Scope Z_scope.

(** ** Histories *)
Section history.
Context {C : Type} `{!EqDecision C}.
Notation history := (gmap (string * string) (list C)).

(** Publishing adds a version when the content differs from the last one. *)
Definition spec_publish (k : name_key) (c : C) (h : history) : history :=
  match h !! k with
  | None => <[k := [c]]> h
  | Some l => if bool_decide (list.last l = Some c) then h else <[k := (l ++ [c])%list]> h
  end.

(** The version [v] of a history. *)
Definition nth_version (l : list C) (v : Z) : option C := if 1 <=? v then l !! Z.to_nat (v - 1) else None.

(** The tables hold a history: its last content is the row's, its length the
    row's version, and each version has its snapshot. *)
Definition records (t : vtable C) (h : history) : Prop :=
  ∀ k, match h !! k with
       | None => heads t !! k = None ∧ ∀ v, versions t !! (k, v) = None
       | Some l => ∃ hd, heads t !! k = Some hd ∧ list.last l = Some (h_content hd) ∧
                     h_version hd = Z.of_nat (length l) ∧
                     ∀ v, v_content <$> versions t !! (k, v) = nth_version l v
       end.

Lemma nth_version_snoc l c v :
  nth_version (l ++ [c])%list v = if decide (v = Z.of_nat (length l) + 1) then Some c else nth_version l v.
Proof.
  unfold nth_version. case_decide as Hv.
  - subst v. rewrite (proj2 (Z.leb_le _ _)) by lia. replace (Z.to_nat _) with (length l) by lia.
    by rewrite list_lookup_middle.
  - destruct (1 <=? v) eqn:E; [|done]. apply Z.leb_le in E.
    destruct (decide (Z.to_nat (v - 1) < length l)%nat) as [Hlt|Hge]; [by rewrite lookup_app_l|].
    rewrite (lookup_ge_None_2 l) by lia. apply lookup_ge_None_2. rewrite length_app. simpl. lia.
Qed.

Lemma nth_version_bounds l v c : nth_version l v = Some c → 1 ≤ v ≤ Z.of_nat (length l).
Proof.
  unfold nth_version. destruct (1 <=? v) eqn:E; [|done]. apply Z.leb_le in E.
  intros H%lookup_lt_Some. lia.
Qed.

Lemma nth_version_last l c : list.last l = Some c → nth_version l (Z.of_nat (length l)) = Some c.
Proof.
  intros [l' ->]%last_Some. rewrite length_app. simpl. rewrite nth_version_snoc, decide_True by lia. done.
Qed.

Lemma publish_other k (c : C) now (t : vtable C) k' :
  k' ≠ k → heads (publish k c now t).1 !! k' = heads t !! k' ∧
  ∀ v, versions (publish k c now t).1 !! (k', v) = versions t !! (k', v).
Proof.
  intros Hne. unfold publish, upsert_head, insert_snapshot. cbn [fst snd heads versions].
  destruct (versions t !! _); cbn [fst heads versions]; (split; [by rewrite lookup_insert_ne|intros v]); [done|].
  rewrite lookup_insert_ne; [done|congruence].
Qed.

Lemma publish_records k (c : C) now (t : vtable C) h : records t h → records (publish k c now t).1 (spec_publish k c h).
Proof.
  intros R k'. destruct (decide (k' = k)) as [->|Hne].
  - specialize (R k). unfold spec_publish, publish, upsert_head, insert_snapshot.
    destruct (h !! k) as [l|] eqn:Hh.
    + destruct R as (hd&Hd&Hl&Hv&Hs). rewrite Hd. cbn [fst snd heads versions h_version].
      destruct (decide (h_content hd = c)) as [Hc|Hc].
      * rewrite (bool_decide_eq_false_2 (h_content hd ≠ c)), (bool_decide_eq_true_2 (list.last l = Some c)) by (rewrite ?Hl; auto with f_equal).
        rewrite Hh.
        destruct (versions t !! (k, h_version hd)) as [s|] eqn:Hver.
        2:{ exfalso. specialize (Hs (h_version hd)). rewrite Hver, Hv, (nth_version_last _ _ Hl) in Hs. done. }
        eexists. cbn [fst heads versions]. split; [by rewrite lookup_insert_eq|].
        cbn [h_content h_version]. split_and!; [by rewrite Hl, Hc|done|apply Hs].
      * rewrite (bool_decide_eq_true_2 (h_content hd ≠ c)), (bool_decide_eq_false_2 (list.last l = Some c)) by (rewrite ?Hl; congruence).
        destruct (versions t !! (k, h_version hd + 1)) as [s|] eqn:Hver.
        { exfalso. specialize (Hs (h_version hd + 1)). rewrite Hver in Hs. symmetry in Hs.
          apply nth_version_bounds in Hs. lia. }
        rewrite lookup_insert_eq. eexists. cbn [fst heads versions]. split; [by rewrite lookup_insert_eq|].
        cbn [h_content h_version]. split_and!; [by rewrite last_snoc|rewrite length_app; simpl; lia|].
        intros v. rewrite nth_version_snoc, <- Hv. case_decide as E.
        -- subst v. by rewrite lookup_insert_eq.
        -- rewrite lookup_insert_ne by (by intros [= Heq]). apply Hs.
    + destruct R as [Hd Hs]. rewrite Hd. cbn [fst snd heads versions h_version]. rewrite Hs, lookup_insert_eq.
      eexists. cbn [fst heads versions]. split; [by rewrite lookup_insert_eq|]. split_and!; [done..|].
      intros v. cbn [app]. change [c] with ([] ++ [c])%list. rewrite nth_version_snoc. simpl length.
      case_decide as E; [subst v; by rewrite lookup_insert_eq|].
      rewrite lookup_insert_ne, Hs by (intros [= Heq]; apply E; lia). unfold nth_version. by destruct (1 <=? v).
  - destruct (publish_other k c now t k' Hne) as [-> Hv].
    assert (spec_publish k c h !! k' = h !! k') as ->.
    { unfold spec_publish. destruct (h !! k); [case_bool_decide; [done|]|]; by rewrite lookup_insert_ne. }
    specialize (R k'). destruct (h !! k') as [l|]; [|by setoid_rewrite Hv].
    destruct R as (hd&?&?&?&?). exists hd. by setoid_rewrite Hv.
Qed.

(** Forgetting the names a deletion selects. *)
Definition spec_delete (sel : name_key → bool) (h : history) : history := filter (λ kl, sel kl.1 = false) h.

Lemma delete_records (sel : name_key → bool) (t : vtable C) h : records t h →
  records (mkVT C (filter (λ kr, sel kr.1 = false) (heads t)) (filter (λ kr, sel kr.1.1 = false) (versions t)))
    (spec_delete sel h).
Proof.
  intros R k. unfold spec_delete. cbn [heads versions]. specialize (R k). destruct (sel k) eqn:Hk.
  - assert (filter (λ kl : name_key * list C, sel kl.1 = false) h !! k = None) as ->.
    { apply map_lookup_filter_None. right. intros l _. simpl. congruence. }
    split; [|intros v]; apply map_lookup_filter_None; right; intros r _; simpl; congruence.
  - assert (Hf : ∀ (V : Type) (m : gmap (string * string) V), filter (λ kr, sel kr.1 = false) m !! k = m !! k).
    { intros V m. destruct (m !! k) as [r|] eqn:E.
      - by apply map_lookup_filter_Some.
      - apply map_lookup_filter_None. by left. }
    assert (Hg : ∀ v, filter (λ kr, sel kr.1.1 = false) (versions t) !! (k, v) = versions t !! (k, v)).
    { intros v. destruct (versions t !! (k, v)) as [r|] eqn:E.
      - by apply map_lookup_filter_Some.
      - apply map_lookup_filter_None. by left. }
    rewrite Hf. destruct (h !! k) as [l|]; [|rewrite Hf; by setoid_rewrite Hg].
    destruct R as (hd&?&?&?&?). exists hd. rewrite Hf. by setoid_rewrite Hg.
Qed.

Lemma empty_records : records empty_vt ∅.
Proof. intros k. rewrite lookup_empty. split; [|intros v]; apply lookup_empty. Qed.
End history.

(** ** Reading *)

(** A list that a map selects at most one row from. *)
Lemma head_unique {A} (l : list A) (a : A) : a ∈ l → (∀ b, b ∈ l → b = a) → list.head l = Some a.
Proof. destruct l as [|b l]; [set_solver|]. intros _ H. simpl. f_equal. apply H. left. Qed.

Lemma head_none {A} (l : list A) : (∀ b, b ∉ l) → list.head l = None.
Proof. destruct l as [|b l]; [done|]. intros H. destruct (H b). left. Qed.

Lemma scan_all_rows_ok {A} (fail : nat → bool) n (l : list A) :
  (∀ i, fail i = false) → scan_all_rows fail n l = Ok l.
Proof.
  intros Hf. revert n. induction l as [|a l IH]; intros n; cbn [scan_all_rows]; rewrite Hf; [done|]. by rewrite IH.
Qed.

(** The versions of a history, newest first. *)
Definition numbered {C} (l : list C) : list (Z * C) := reverse (imap (λ i c, (Z.of_nat i + 1, c)) l).

Lemma elem_of_numbered {C} (l : list C) v c : (v, c) ∈ numbered l ↔ nth_version l v = Some c.
Proof.
  unfold numbered, nth_version. rewrite elem_of_reverse, elem_of_lookup_imap. split.
  - intros (i&y&[= -> ->]&Hi). rewrite (proj2 (Z.leb_le _ _)) by lia.
    by replace (Z.to_nat (Z.of_nat i + 1 - 1)) with i by lia.
  - destruct (1 <=? v) eqn:E; [|done]. apply Z.leb_le in E. intros Hi. exists (Z.to_nat (v - 1)), c.
    split; [f_equal; lia|done].
Qed.

Lemma numbered_snoc {C} (l : list C) c : numbered (l ++ [c])%list = (Z.of_nat (length l) + 1, c) :: numbered l.
Proof. unfold numbered. rewrite imap_app. simpl. by rewrite reverse_snoc, Nat.add_0_r. Qed.

Lemma numbered_sorted {C} (l : list C) :
  StronglySorted (λ a b : Z * C, b.1 ≤ a.1) (numbered l) ∧ NoDup (numbered l).
Proof.
  induction l as [|c l [IHs IHn]] using rev_ind; [split; constructor|]. rewrite numbered_snoc. split.
  - constructor; [done|]. apply list.Forall_forall. intros [v d] Hv%elem_of_numbered%nth_version_bounds. simpl. lia.
  - apply list.NoDup_cons. split; [|done]. intros Hv%elem_of_numbered%nth_version_bounds. lia.
Qed.

Lemma spec_delete_none {C} (sel : name_key → bool) (t : vtable C) h :
  records t h → (∀ k hd, heads t !! k = Some hd → sel k = false) → spec_delete sel h = h.
Proof.
  intros R Hsel. unfold spec_delete. apply map_filter_id. intros k l Hl. simpl.
  specialize (R k). rewrite Hl in R. destruct R as (hd&Hd&_). by apply (Hsel k hd).
Qed.

Section reads.
Context (row_order : ∀ A : Type, list A → list A) (Hrow : ∀ A l, row_order A l ≡ₚ l).
#[local] Set Default Proof Using "All".

(** A tenant reads its own row of a name. *)
Lemma find_name_own {V : Type} (x : ctx) (name : string) (m : gmap (string * string) V) : IsSystem x = false →
  find_name row_order x name m = pair (FromContext x, name) <$> m !! (FromContext x, name).
Proof.
  intros Hs. unfold find_name, rows_of.
  assert (Hin : ∀ k r, (k, r) ∈ filter (λ kr, visible x kr.1.1 && String.eqb kr.1.2 name = true)
                           (row_order _ (map_to_list m)) ↔ k = (FromContext x, name) ∧ m !! k = Some r).
  { intros [tn nm] r. rewrite list_elem_of_filter, Hrow, elem_of_map_to_list. unfold visible.
    rewrite Hs. simpl. rewrite andb_true_iff, !String.eqb_eq. split; [intros [[-> ->] ?]|intros [[= -> ->] ?]]; done. }
  destruct (m !! (FromContext x, name)) as [r|] eqn:E; simpl.
  - apply head_unique; [by apply Hin|]. intros [k r'] [-> Hr]%Hin. congruence.
  - apply head_none. intros [k r'] [-> Hr]%Hin. congruence.
Qed.

Lemma own_versions {V : Type} (x : ctx) (name : string) (m : gmap (string * string * Z) V) k v r : IsSystem x = false →
  ((k, v), r) ∈ filter (λ kr, visible x kr.1.1.1 && String.eqb kr.1.1.2 name = true) (row_order _ (map_to_list m)) ↔
  k = (FromContext x, name) ∧ m !! (k, v) = Some r.
Proof.
  intros Hs. destruct k as [tn nm]. rewrite list_elem_of_filter, Hrow, elem_of_map_to_list. unfold visible.
  rewrite Hs. simpl. rewrite andb_true_iff, !String.eqb_eq. split; [intros [[-> ->] ?]|intros [[= -> ->] ?]]; done.
Qed.

Lemma find_version_own {V : Type} (x : ctx) (name : string) (v : Z) (m : gmap (string * string * Z) V) : IsSystem x = false →
  find_version row_order x name v m = pair ((FromContext x, name), v) <$> m !! ((FromContext x, name), v).
Proof.
  intros Hs. unfold find_version.
  assert (Hin : ∀ k r, (k, r) ∈ filter (λ kr, visible x kr.1.1.1 && String.eqb kr.1.1.2 name && (kr.1.2 =? v) = true)
                           (row_order _ (map_to_list m)) ↔ k = ((FromContext x, name), v) ∧ m !! k = Some r).
  { intros [[tn nm] v'] r. rewrite list_elem_of_filter, Hrow, elem_of_map_to_list. unfold visible.
    rewrite Hs. simpl. rewrite !andb_true_iff, !String.eqb_eq, Z.eqb_eq.
    split; [intros [[[-> ->] ->] ?]|intros [[= -> -> ->] ?]]; done. }
  destruct (m !! ((FromContext x, name), v)) as [r|] eqn:E; simpl.
  - apply head_unique; [by apply Hin|]. intros [k r'] [-> Hr]%Hin. congruence.
  - apply head_none. intros [k r'] [-> Hr]%Hin. congruence.
Qed.

(** A tenant's list of versions is its history, newest first. *)
Lemma name_versions_own {C : Type} (x : ctx) (name : string) (m : gmap (string * string * Z) (snapshot C)) l :
  IsSystem x = false → (∀ v, v_content <$> m !! ((FromContext x, name), v) = nth_version l v) →
  (λ kr, (kr.1.2, v_content kr.2)) <$> name_versions row_order x name m = numbered l.
Proof.
  intros Hs Hv. unfold name_versions.
  set (rows := filter (λ kr, visible x kr.1.1.1 && String.eqb kr.1.1.2 name = true) (row_order _ (map_to_list m))).
  assert (Hin : ∀ v c, (v, c) ∈ (λ kr : string * string * Z * snapshot C, (kr.1.2, v_content kr.2)) <$> rows
                        ↔ nth_version l v = Some c).
  { intros v c. rewrite list_elem_of_fmap, <- Hv, fmap_Some. split.
    - intros ([[k v'] r]&[= -> ->]&[-> Hr]%own_versions); [|done]. by exists r.
    - intros (r&Hr&->). exists (((FromContext x, name), v), r). split; [done|]. by apply own_versions. }
  assert (Hnd : NoDup ((λ kr : string * string * Z * snapshot C, (kr.1.2, v_content kr.2)) <$> rows)).
  { apply NoDup_fmap_2_strong; [|apply list.NoDup_filter; rewrite Hrow; apply NoDup_map_to_list].
    intros [[k v] r] [[k' v'] r'] [-> Hr]%own_versions [-> Hr']%own_versions [= -> _]; [|done..]. by simplify_eq. }
  destruct (numbered_sorted l) as [Hs1 Hn1].
  eapply StronglySorted_unique_strong; [| |exact Hs1|].
  - intros [v c] [v' c'] H1 H2 H3 H4. simpl in *. assert (v = v') as <- by lia. f_equal.
    apply elem_of_numbered in H2. rewrite list_elem_of_fmap in H1. destruct H1 as (kr&[= -> ->]&Hkr).
    rewrite sort_by_perm in Hkr. assert (Hc : (kr.1.2, v_content kr.2) ∈ (λ kr : string * string * Z * snapshot C, (kr.1.2, v_content kr.2)) <$> rows)
      by (apply list_elem_of_fmap; by exists kr). apply Hin in Hc. congruence.
  - assert (H : StronglySorted (λ a b : string * string * Z * snapshot C, (b.1.2 <=? a.1.2) = true)
              (sort_by (λ a b, b.1.2 <=? a.1.2) rows)).
    { apply sort_by_sorted; intros; rewrite ?Z.leb_le in *; lia. }
    induction H as [|a q _ IH Ha]; [constructor|]. rewrite fmap_cons. constructor; [done|].
    apply list.Forall_forall. intros [v c] ([[k v'] r]&[= -> ->]&Hq)%list_elem_of_fmap.
    rewrite list.Forall_forall in Ha. by apply Z.leb_le, (Ha _ Hq).
  - rewrite sort_by_perm. apply NoDup_Permutation; [done..|]. intros [v c]. by rewrite Hin, elem_of_numbered.
Qed.
End reads.

(** ** The registry implements histories *)
Section registry.
Context (row_order : ∀ A : Type, list A → list A) (Hrow : ∀ A l, row_order A l ≡ₚ l).
Context (Marshal : any → string).
#[local] Set Default Proof Using "All".

Inductive reg_op :=
| RPublish (o : reply) (now : Z) (x : ctx) (e : RegistryEntry)
| RDelete (o : reply) (x : ctx) (name : string).

Definition run_reg (t : vtable entry_cols) (p : reg_op) : vtable entry_cols :=
  match p with
  | RPublish o now x e => (PublishRegistryEntry Marshal o now x e t).1
  | RDelete o x name => (DeleteRegistryEntry o x name t).1
  end.

Definition ran (o : reply) : bool := match o with RDown => false | _ => true end.

Definition spec_reg (h : gmap (string * string) (list entry_cols)) (p : reg_op) : gmap (string * string) (list entry_cols) :=
  match p with
  | RPublish o _ x e => if ran o then spec_publish (FromContext x, RName e) (entry_columns Marshal e) h else h
  | RDelete o x name => if ran o then spec_delete (λ k, visible x k.1 && String.eqb k.2 name) h else h
  end.

Lemma run_reg_records p t h : records t h → records (run_reg t p) (spec_reg h p).
Proof.
  intros R. destruct p as [o now x e|o x name]; simpl.
  - pose proof (publish_records (FromContext x, RName e) (entry_columns Marshal e) (sec now) t h R) as H.
    unfold PublishRegistryEntry. destruct o; cbn [attempt ran fst]; [|done..].
    by destruct (publish (FromContext x, RName e) (entry_columns Marshal e) (sec now) t).
  - unfold DeleteRegistryEntry. case_bool_decide as Hg.
    + destruct (ran o); [|done]. simpl. rewrite (spec_delete_none _ t); [done..|]. intros k hd Hk.
      apply not_true_is_false. intros Hs. apply (f_equal (λ m, m !! k)) in Hg. rewrite lookup_empty in Hg.
      apply map_lookup_filter_None in Hg as [Hg|Hg]; [congruence|]. by apply (Hg hd Hk).
    + destruct o; simpl; [| |done]; apply (delete_records (λ k, visible x k.1 && String.eqb k.2 name) t h R).
Qed.

Lemma run_regs_records ps t h : records t h → records (foldl run_reg t ps) (foldl spec_reg h ps).
Proof. revert t h. induction ps as [|p ps IH]; intros t h R; [done|]. by apply IH, run_reg_records. Qed.

(** The registry implements a history per tenant and name: publishing appends
    the content unless it is the last one already, deleting forgets the history,
    whichever operations fail or lose their answer.  The entry read is the last
    content, its version the length of the history; each version read is that
    content of the history and the list of versions is the history, newest first.
    So a version once published never changes, until its entry is deleted. *)
Theorem registry_refines_history ps x name :
  IsSystem x = false →
  let t := foldl run_reg empty_vt ps in
  let h := foldl spec_reg ∅ ps in
  let k := (FromContext x, name) in
  match h !! k with
  | None =>
      GetRegistryEntry row_order false x name t = Err (ENotFound "registry_entry" name) ∧
      ListRegistryEntryVersions row_order (λ _, false) x name t = Ok [] ∧
      ∀ v, GetRegistryEntryVersion row_order false x name v t = Err (ENotFound "registry_entry_version" (version_id name v))
  | Some l =>
      (∃ hd, GetRegistryEntry row_order false x name t = Ok (k, hd) ∧
             list.last l = Some (h_content hd) ∧ h_version hd = Z.of_nat (length l)) ∧
      (∃ vs, ListRegistryEntryVersions row_order (λ _, false) x name t = Ok vs ∧
             (λ kr, (kr.1.2, v_content kr.2)) <$> vs = numbered l) ∧
      ∀ v, match nth_version l v with
           | Some c => ∃ s, GetRegistryEntryVersion row_order false x name v t = Ok ((k, v), s) ∧ v_content s = c
           | None => GetRegistryEntryVersion row_order false x name v t
                     = Err (ENotFound "registry_entry_version" (version_id name v))
           end
  end.
Proof.
  intros Hs t h k. assert (R := run_regs_records ps empty_vt ∅ empty_records k). fold t h in R.
  unfold GetRegistryEntry, ListRegistryEntryVersions, GetRegistryEntryVersion.
  rewrite scan_all_rows_ok, find_name_own by done.
  assert (Hfv := λ v, find_version_own row_order Hrow x name v (versions t) Hs). fold k in Hfv |- *.
  destruct (h !! k) as [l|].
  - destruct R as (hd&Hd&Hl&Hn&Hv). rewrite Hd. simpl. split_and!; [by exists hd| |].
    + eexists. split; [done|]. by apply name_versions_own.
    + intros v. rewrite Hfv. specialize (Hv v). destruct (versions t !! (k, v)) as [s|]; simpl in *; rewrite <- Hv; [by exists s|done].
  - destruct R as [Hd Hv]. rewrite Hd. simpl. split_and!; [done| |by intros v; rewrite Hfv, Hv].
    f_equal. assert (H := name_versions_own row_order Hrow x name (versions t) [] Hs).
    destruct (name_versions row_order x name (versions t)); [done|].
    exfalso. discriminate H. intros v. rewrite Hv. unfold nth_version. by destruct (1 <=? v).
Qed.
End registry.

(** ** Walking a list by its cursors *)
Section walking.
Context (row_order : ∀ A : Type, list A → list A) (Hrow : ∀ A l, row_order A l ≡ₚ l).
Context (Marshal : any → string) (extract_is : string → string → string → bool).
Context (marshal : wire → list ascii) (unmarshal : list ascii → option wire).
(** [json.Unmarshal] refuses an empty text. *)
Context (Hempty : unmarshal [] = None).

(** A client follows [X-Next-Cursor] until there is none. *)
Fixpoint walk {A} (list_page : string → res Z (list A * string)) (fuel : nat) (cursor : string) : option (list A) :=
  match fuel with
  | O => None
  | S fuel' =>
      match list_page cursor with
      | Err _ => None
      | Ok (l, next) => if String.eqb next "" then Some l else app l <$> walk list_page fuel' next
      end
  end.

(** A row whose cursor comes back as it was made. *)
Definition addressable (k : string * string) : Prop :=
  k.1 ≠ "" ∧ k.2 ≠ "" ∧ unmarshal (marshal (mkWire "" k.1 k.2)) = Some (mkWire "" k.1 k.2).

Definition cursor_text (c : option (string * string)) : string :=
  match c with None => "" | Some k => EncodeKey marshal k.1 k.2 end.

Definition cursor_of (c : option (string * string)) : KeyCursor :=
  match c with None => mkKeyCursor "" "" | Some k => mkKeyCursor k.1 k.2 end.

Lemma cursor_text_decodes c : (∀ k, c = Some k → addressable k) →
  DecodeKey unmarshal (cursor_text c) = Some (cursor_of c).
Proof using Hempty.
  intros Hc. destruct c as [[k i]|]; [|done]. destruct (Hc _ eq_refl) as (H1&H2&H3). simpl in *.
  rewrite (key_cursor_roundtrip marshal unmarshal) by done.
  by rewrite (proj2 (String.eqb_neq k "") H1), (proj2 (String.eqb_neq i "") H2).
Qed.

Lemma cursor_text_nonempty k : addressable k → EncodeKey marshal k.1 k.2 ≠ "".
Proof using Hempty. intros (_&_&H). by apply (encode_nonempty marshal unmarshal). Qed.

(** A handler that answers a name-ordered page and its cursor walks the pages. *)
Lemma walk_pages {A} (key : A → string * string) (list_page : string → res Z (list A * string)) limit rows :
  0 < limit → (∀ r, r ∈ rows → addressable (key r)) →
  (∀ c, (∀ k, c = Some k → addressable k) →
     list_page (cursor_text c) =
       Ok (name_page key limit 0 (cursor_of c) rows,
           next_cursor marshal key limit (name_page key limit 0 (cursor_of c) rows))) →
  ∀ fuel c, (∀ k, c = Some k → addressable k) →
  walk list_page fuel (cursor_text c) = pages key (Z.to_nat limit) fuel rows c.
Proof using Hempty.
  intros Hl Hrows Hpage. induction fuel as [|fuel IH]; intros c Hc; [done|]. cbn [walk pages].
  rewrite Hpage by done.
  assert (Hnp : name_page key limit 0 (cursor_of c) rows
                = take (Z.to_nat limit) (sort_by (by_key key) (filter (λ a, after key c a = true) rows))).
  { unfold name_page, page. rewrite (proj2 (Z.leb_gt limit 0)) by lia.
    destruct c as [[k i]|]; [|done]. simpl.
    by rewrite (proj2 (String.eqb_neq i "") (proj1 (proj2 (Hc _ eq_refl)))). }
  rewrite Hnp. set (l := take _ _). unfold next_cursor.
  destruct (list.last l) as [r|] eqn:Hlast.
  - assert (Hr : addressable (key r)).
    { apply Hrows. apply last_Some_elem_of in Hlast. subst l. apply elem_of_take in Hlast as (i&Hi&_).
      apply list_elem_of_lookup_2 in Hi. rewrite sort_by_perm in Hi. by apply list_elem_of_filter in Hi as [_ ?]. }
    destruct (Z.eqb_spec (Z.of_nat (length l)) limit) as [E|E].
    + rewrite bool_decide_eq_true_2 by lia. destruct (String.eqb_spec (EncodeKey marshal (key r).1 (key r).2) "") as [E'|_].
      { by apply cursor_text_nonempty in E'. }
      change (EncodeKey marshal (key r).1 (key r).2) with (cursor_text (Some (key r))).
      rewrite IH; [done|]. by intros k [= <-].
    + by rewrite bool_decide_eq_false_2 by lia.
  - apply last_None in Hlast. rewrite Hlast. by rewrite bool_decide_eq_false_2 by (simpl; lia).
Qed.

Lemma limit_kept (n : Z) cursor : 0 < n ≤ adminListMaxLimit →
  adminListPaging (Some n) false None cursor = Some (mkPaging n 0 cursor).
Proof.
  intros [H1 H2]. unfold adminListPaging. rewrite andb_false_r, (proj2 (Z.ltb_lt 0 n) H1).
  by rewrite (proj2 (Z.ltb_ge _ _) H2).
Qed.

Lemma rows_of_elem {V : Type} (m : gmap (string * string) V) kr : kr ∈ rows_of row_order m ↔ m !! kr.1 = Some kr.2.
Proof using Hrow. unfold rows_of. rewrite Hrow. destruct kr as [k r]. apply elem_of_map_to_list. Qed.

Lemma filter_true {A} (p : A → bool) (l : list A) : (∀ a, p a = true) → filter (λ a, p a = true) l = l.
Proof. intros Hp. induction l as [|a l IH]; [done|]. by rewrite filter_cons, decide_True, IH. Qed.

Lemma entry_keys_NoDup (t : vtable entry_cols) : NoDup (entry_key <$> rows_of row_order (heads t)).
Proof using Hrow.
  apply NoDup_fmap_2_strong; [|unfold rows_of; rewrite Hrow; apply NoDup_map_to_list].
  intros [[tn nm] r] [[tn' nm'] r'] H1%rows_of_elem H2%rows_of_elem [= -> ->]. simpl in *. congruence.
Qed.

(** Walking the admin list of registry entries by its cursors gives every entry
    of every tenant exactly once, ordered by name and tenant, for any page size;
    one request per page, and one more than the entries is always enough. *)
Theorem admin_registry_walk_complete x (t : vtable entry_cols) limit :
  0 < limit ≤ adminListMaxLimit → (∀ k hd, heads t !! k = Some hd → addressable (k.2, k.1)) →
  ∃ l, walk (λ cursor, handleAdminListRegistryEntries row_order Marshal marshal unmarshal (λ _, false) x
                         (adminListPaging (Some limit) false None cursor) t)
         (S (size (heads t))) "" = Some l ∧
       l ≡ₚ map_to_list (heads t) ∧ StronglySorted (λ a b, by_key entry_key a b = true) l.
Proof using Hrow Hempty.
  intros Hl Haddr. exists (sort_by (by_key entry_key) (rows_of row_order (heads t))). split_and!.
  - change "" with (cursor_text None). rewrite (walk_pages entry_key _ limit (rows_of row_order (heads t))); [..|done].
    + rewrite <- (pages_complete entry_key (Z.to_nat limit)); [|lia|apply entry_keys_NoDup].
      f_equal. f_equal. unfold rows_of. rewrite (Permutation_length (Hrow _ _)). symmetry. apply length_map_to_list.
    + lia.
    + intros [[tn nm] r] Hr%rows_of_elem. by apply (Haddr (tn, nm) r).
    + intros c Hc. rewrite limit_kept by done. unfold handleAdminListRegistryEntries, SearchRegistryEntries.
      cbn [PgCursor PgLimit PgOffset GCursor GLimit GOffset]. rewrite cursor_text_decodes by done.
      rewrite scan_all_rows_ok, filter_true by done. done.
  - rewrite sort_by_perm. apply Hrow.
  - apply by_key_sorted.
Qed.

(** The same holds of the admin list of agents when no two agents have the same
    name and identifier. *)
Theorem admin_agents_walk_complete x (t : vtable agent_cols) limit :
  0 < limit ≤ adminListMaxLimit →
  (∀ k hd, heads t !! k = Some hd → addressable (ac_name (h_content hd), k.2)) →
  NoDup (agent_key <$> map_to_list (heads t)) →
  ∃ l, walk (λ cursor, handleAdminListAgents row_order Marshal extract_is marshal unmarshal (λ _, false) x
                         (adminListPaging (Some limit) false None cursor) t)
         (S (size (heads t))) "" = Some l ∧ l ≡ₚ map_to_list (heads t).
Proof using Hrow Hempty.
  intros Hl Haddr Hnd. exists (sort_by (by_key agent_key) (rows_of row_order (heads t))). split.
  - change "" with (cursor_text None). rewrite (walk_pages agent_key _ limit (rows_of row_order (heads t))); [..|done].
    + rewrite <- (pages_complete agent_key (Z.to_nat limit)); [|lia|unfold rows_of; by rewrite Hrow].
      f_equal. f_equal. unfold rows_of. rewrite (Permutation_length (Hrow _ _)). symmetry. apply length_map_to_list.
    + lia.
    + intros [[tn nm] r] Hr%rows_of_elem. by apply (Haddr (tn, nm) r).
    + intros c Hc. rewrite limit_kept by done. unfold handleAdminListAgents, SearchAgents.
      cbn [PgCursor PgLimit PgOffset SCursor SLimit SOffset SMetadata SName]. rewrite cursor_text_decodes by done.
      rewrite scan_all, filter_true by done. done.
  - rewrite sort_by_perm. apply Hrow.
Qed.
End walking.

(** ** Concrete runs *)

(** A text for a cursor's fields, and its reader. *)
Definition plain_marshal (w : wire) : list ascii :=
  list_ascii_of_string (W_T w +:+ String (chr 0) (W_K w +:+ String (chr 0) (W_I w))).
Definition plain_unmarshal (l : list ascii) : option wire :=
  match Split (string_of_list_ascii l) (chr 0) with [t; k; i] => Some (mkWire t k i) | _ => None end.

Definition same_order (A : Type) (l : list A) : list A := l.
Lemma same_order_perm A l : same_order A l ≡ₚ l.
Proof. reflexivity. Qed.

Definition sales (ref : string) : RegistryEntry := mkEntry "sales" "Sales" "" "ann" None "git" ref ANil.

Definition sales_ops : list reg_op :=
  [RPublish RFine 0 alice (sales "v1"); RPublish RFine 1 alice (sales "v1"); RPublish RLost 2 alice (sales "v2");
   RPublish RFine 3 bob (sales "b"); RPublish RDown 4 alice (sales "v3"); RDelete RFine bob "sales"].

Lemma registry_refines_history_witness :
  let t := foldl (run_reg small_json) empty_vt sales_ops in
  (h_version <$> heads t !! ("alice", "sales")) = Some 2 ∧
  (∃ s, GetRegistryEntryVersion same_order false alice "sales" 1 t = Ok (((FromContext alice, "sales"), 1), s) ∧
        v_content s = entry_columns small_json (sales "v1")).
Proof.
  split; [vm_compute; reflexivity|].
  pose proof (registry_refines_history same_order same_order_perm small_json sales_ops alice "sales" eq_refl) as H.
  cbv zeta in H.
  assert (Hh : foldl (spec_reg small_json) ∅ sales_ops !! (FromContext alice, "sales")
               = Some [entry_columns small_json (sales "v1"); entry_columns small_json (sales "v2")])
    by (vm_compute; reflexivity).
  rewrite Hh in H. destruct H as (_&_&H). specialize (H 1).
  change (nth_version _ 1) with (Some (entry_columns small_json (sales "v1"))) in H. exact H.
Defined.

Lemma keys_forallb {V : Type} (m : gmap (string * string) V) (p : name_key → bool) :
  forallb p (map_to_list m).*1 = true → ∀ k v, m !! k = Some v → p k = true.
Proof.
  rewrite forallb_forall. intros Hp k v Hk. apply Hp, list_elem_of_In, list_elem_of_fmap.
  exists (k, v). split; [done|]. by apply elem_of_map_to_list.
Qed.

Definition two_sales : vtable entry_cols := foldl (run_reg small_json) empty_vt (firstn 4 sales_ops).

Lemma admin_registry_walk_complete_witness :
  ∃ l, walk (λ cursor, handleAdminListRegistryEntries same_order small_json plain_marshal plain_unmarshal (λ _, false)
                         background (adminListPaging (Some 1) false None cursor) two_sales) 3 "" = Some l ∧
       l ≡ₚ map_to_list (heads two_sales) ∧ StronglySorted (λ a b, by_key entry_key a b = true) l.
Proof.
  apply (admin_registry_walk_complete same_order same_order_perm small_json plain_marshal plain_unmarshal eq_refl
           background two_sales 1); [done|].
  assert (Hk : forallb (λ k, bool_decide (k = ("alice", "sales")) || bool_decide (k = ("bob", "sales")))
                 (map_to_list (heads two_sales)).*1 = true) by (vm_compute; reflexivity).
  intros k hd Hd. pose proof (keys_forallb _ _ Hk k hd Hd) as H. apply orb_true_iff in H as [H|H];
    apply bool_decide_eq_true in H; rewrite H; (split; [discriminate|split; [discriminate|vm_compute; reflexivity]]).
Defined.

(** The admin list of agents orders and resumes by name and identifier, which two
    tenants may share: with one agent a page, the second tenant's agent is never
    listed. *)
Definition same_named : vtable agent_cols :=
  (UpsertAgent small_json RFine 0 bob (mkAgent "echo" "Echo" "" ANil ANil)
     (UpsertAgent small_json RFine 0 alice (mkAgent "echo" "Echo" "" ANil ANil) empty_vt).1).1.

Theorem admin_agents_walk_skips :
  size (heads same_named) = 2%nat ∧
  (λ l, List.length l) <$>
    walk (λ cursor, handleAdminListAgents same_order small_json (λ _ _ _, false) plain_marshal plain_unmarshal
                      (λ _, false) background (adminListPaging (Some 1) false None cursor) same_named) 3 "" = Some 1%nat.
Proof. vm_compute. split; reflexivity. Qed.
