(* ===== verification/Snapshots.v ===== *)
(** * Transactions over snapshots

    MongoDB's multi-document transactions: a transaction reads the state some
    earlier commit left, and commits unless a document it writes has been written
    since.  [sess.WithTransaction] runs a transaction that conflicts again, from a
    newer state.  An operation outside a transaction is one that reads the latest
    state.

    The documents are the rows of [Store]'s tables, and the lock documents
    admission touches.  A transaction's body is a function of the state it reads
    that gives the documents it writes, a document it touches without changing a
    modelled field ([$inc] of a private revision) included. *)

From Stdlib Require Import String.
From S2P Require Import Prelude GoAny Completion Store.
Local Open Scope Z_scope.

Inductive doc :=
| DRun (id : string)
| DThread (id : string)
| DCkpt (id : string)
| DOpaque (key : string * string * string)
| DLock (id : string).

#[export] Instance doc_eq_dec : EqDecision doc.
Proof. solve_decision. Defined.

(** ** Bodies *)

Definition body (A : Type) : Type := DB → res err (A * list doc * DB).

Definition bret {A} (a : A) : body A := λ db, Ok (a, [], db).
Definition berr {A} (e : err) : body A := λ _, Err e.
Definition bbind {A B} (m : body A) (k : A → body B) : body B :=
  λ db, match m db with
        | Err e => Err e
        | Ok (a, w, db1) =>
            match k a db1 with
            | Err e => Err e
            | Ok (b, w', db2) => Ok (b, w ++ w', db2)
            end
        end.
(** A read. *)
Definition bread {A} (f : DB → res err A) : body A :=
  λ db, match f db with Ok a => Ok (a, [], db) | Err e => Err e end.
(** A write of the listed documents. *)
Definition bwrite {A} (f : DB → res err (A * list doc * DB)) : body A := f.

Notation "x <~~ m ;; k" := (bbind m (λ x, k))
  (at level 100, m at next level, right associativity) : go_scope.

(** ** States and commits *)

(** The documents with the time each was last written, and the time. *)
Record cluster := mkCluster { cdb : DB; mtime : doc → nat; ticks : nat }.

(** One document of [new] in [db]. *)
Definition copy (new : DB) (db : DB) (d : doc) : DB :=
  match d with
  | DRun id => set_runs (partial_alter (λ _, runs new !! id) id (runs db)) db
  | DThread id => set_threads (partial_alter (λ _, threads new !! id) id (threads db)) db
  | DCkpt id => set_ckpts (partial_alter (λ _, ckpts new !! id) id (ckpts db)) db
  | DOpaque k => set_opaques (partial_alter (λ _, opaques new !! k) k (opaques db)) db
  | DLock _ => db
  end.

Definition written (W : list doc) (d : doc) : bool := existsb (λ e, bool_decide (e = d)) W.

(** The first committer of a document wins. *)
Definition commit (snap : cluster) (W : list doc) (new : DB) (cur : cluster) : option cluster :=
  if forallb (λ d, (mtime cur d <=? ticks snap)%nat) W then
    Some (mkCluster (foldl (copy new) (cdb cur) W)
            (λ d, if written W d then S (ticks cur) else mtime cur d) (S (ticks cur)))
  else None.

(** Two states agree on a document. *)
Definition same_doc (d : doc) (a b : DB) : Prop :=
  match d with
  | DRun id => runs a !! id = runs b !! id
  | DThread id => threads a !! id = threads b !! id
  | DCkpt id => ckpts a !! id = ckpts b !! id
  | DOpaque k => opaques a !! k = opaques b !! k
  | DLock _ => True
  end.

#[export] Instance same_doc_equiv d : Equivalence (same_doc d).
Proof. split; destruct d; repeat intro; simpl in *; first [done|congruence]. Qed.

Lemma copy_same new db d : same_doc d (copy new db d) new.
Proof. destruct d; simpl; try apply lookup_partial_alter_eq; done. Qed.

Lemma copy_other new db d e : d ≠ e → same_doc e (copy new db d) db.
Proof.
  intros Hne. destruct d, e; simpl; try done; apply lookup_partial_alter_ne; congruence.
Qed.

Lemma written_in W d : written W d = true ↔ d ∈ W.
Proof.
  unfold written. rewrite existsb_exists. split.
  - intros (e&He&Hd%bool_decide_eq_true). subst. by apply list_elem_of_In.
  - intros Hd. exists d. split; [by apply list_elem_of_In|by apply bool_decide_eq_true].
Qed.

Lemma copies_other new W db d : d ∉ W → same_doc d (foldl (copy new) db W) db.
Proof.
  revert db. induction W as [|e W IH]; intros db Hd; [done|]. simpl.
  etrans; [apply IH; set_solver|]. apply copy_other. set_solver.
Qed.

Lemma copies_same new W db d : d ∈ W → same_doc d (foldl (copy new) db W) new.
Proof.
  revert db. induction W as [|e W IH]; intros db Hd; [set_solver|]. simpl.
  destruct (decide (d ∈ W)) as [HW|HW]; [by apply IH|].
  assert (d = e) as -> by set_solver. etrans; [by apply copies_other|]. apply copy_same.
Qed.

(** ** Histories *)

(** The states of a run of the system, newest first.  [op] are the operations and
    [exec] what each writes on the state it reads. *)
Section history.
Context {op : Type} (exec : op → DB → res err (list doc * DB)).

Inductive history (db0 : DB) : list cluster → Prop :=
| h_start : history db0 [mkCluster db0 (λ _, 0%nat) 0]
| h_commit p cur past snap W new next :
    history db0 (cur :: past) → snap ∈ cur :: past → exec p (cdb snap) = Ok (W, new) →
    commit snap W new cur = Some next → history db0 (next :: cur :: past).

(** A document not written since an earlier state is as it was then. *)
Lemma history_doc db0 cur past : history db0 (cur :: past) →
  ∀ snap, snap ∈ cur :: past → (ticks snap ≤ ticks cur)%nat ∧
    ∀ d, (mtime cur d ≤ ticks snap)%nat → same_doc d (cdb snap) (cdb cur).
Proof.
  intros H. remember (cur :: past) as l eqn:E. revert cur past E.
  induction H as [|p cur past s0 W new next H IH Hs0 Hx Hc]; intros cur' past' [= <- <-] snap Hs.
  - assert (snap = mkCluster db0 (λ _, 0%nat) 0) as -> by set_solver. done.
  - unfold commit in Hc. destruct (forallb _ W) eqn:Hw; [|done]. injection Hc as <-. simpl.
    apply elem_of_cons in Hs as [->|Hs]; [done|].
    destruct (IH cur past eq_refl snap Hs) as [Ht Hd]. split; [lia|]. intros d.
    destruct (written W d) eqn:Hwd; [lia|]. intros Hm. etrans; [by apply Hd|]. symmetry. apply copies_other.
    rewrite <- written_in. by rewrite Hwd.
Qed.

(** What a transaction that commits has read of the documents it writes is the
    latest there is, and it leaves exactly those as its body computed them. *)
Lemma commit_current db0 cur past snap W new next :
  history db0 (cur :: past) → snap ∈ cur :: past → commit snap W new cur = Some next →
  (∀ d, d ∈ W → same_doc d (cdb snap) (cdb cur) ∧ same_doc d (cdb next) new) ∧
  (∀ d, d ∉ W → same_doc d (cdb next) (cdb cur)).
Proof.
  intros H Hs Hc. unfold commit in Hc. destruct (forallb _ W) eqn:Hw; [|done]. injection Hc as <-. simpl.
  rewrite forallb_forall in Hw. split; intros d Hd; [split|].
  - eapply history_doc; [done..|]. apply Nat.leb_le, Hw. by apply list_elem_of_In.
  - by apply copies_same.
  - by apply copies_other.
Qed.

(** A property of states that commits keep holds of every state. *)
Lemma history_invariant db0 (P : DB → Prop) l :
  P db0 →
  (∀ p cur past snap W new next, history db0 (cur :: past) → P (cdb cur) → snap ∈ cur :: past →
     exec p (cdb snap) = Ok (W, new) → commit snap W new cur = Some next → P (cdb next)) →
  history db0 l → ∀ c, c ∈ l → P (cdb c).
Proof.
  intros H0 Hstep. induction 1 as [|p cur past snap W new next H IH Hs Hx Hc]; intros c Hin.
  - assert (c = mkCluster db0 (λ _, 0%nat) 0) as -> by set_solver. done.
  - apply elem_of_cons in Hin as [->|Hin]; [|by apply IH].
    eapply Hstep; [done| |done..]. apply IH. left.
Qed.
End history.
