(* ===== verification/Mongo.v ===== *)
(** * The MongoDB store: runs, threads, checkpoints

    The transactions of [internal/state/mongo/{completion,run_checkpoint,
    thread_ownership,admission_create}.go] and the statements of
    [internal/state/mongo/mongo.go] they are made of, as bodies over [Snapshots].
    Helpers called inside a transaction join it ([withTransaction]).

    A document's metadata holds what [normalizeBSON] gives for it: integers read
    back as [float64], so [encode_meta] is what a write leaves.  A read or write of
    the driver that fails ends the body in an error and commits nothing. *)

From Stdlib Require Import String.
From Stdlib.Init Require Byte.
From S2P Require Import Prelude GoAny Completion Store StoreOps Snapshots.
Local Open Scope string_scope.
Local Open Scope Z_scope.
Local Open Scope go_scope.

(** [bsonToMap]: anything but an object is a nil map, which callers replace. *)
Definition bsonToMap (c : column) : gmap string any := match c with ColObj m => m | _ => ∅ end.

(** ** Statements *)

Section store.
Variable ts_le : Z → Z → bool.

(** [FindOne(tenantFilter(run_id))] *)
Definition find_run (x : ctx) (runID : string) (db : DB) : option run_row :=
  match runs db !! runID with
  | Some r => if visible x (r_tenant r) then Some r else None
  | None => None
  end.

Definition find_thread (x : ctx) (threadID : string) (db : DB) : option thread_row :=
  match threads db !! threadID with
  | Some t => if visible x (t_tenant t) then Some t else None
  | None => None
  end.

Definition GetRun (x : ctx) (runID : string) : body run_row :=
  bread (λ db, match find_run x runID db with Some r => Ok r | None => Err (ENotFound "run" runID) end).

Definition GetThread (x : ctx) (threadID : string) : body thread_row :=
  bread (λ db, match find_thread x threadID db with
               | Some t => match t_values t with ColInvalid => Err EDecode | _ => Ok t end
               | None => Err (ENotFound "thread" threadID)
               end).

(** [UpdateOne(tenantFilter(run_id) and cond)], with [ModifiedCount > 0]. *)
Definition update_run_where (x : ctx) (runID : string) (cond : run_row → bool) (f : run_row → run_row) : body bool :=
  bwrite (λ db, match find_run x runID db with
                | Some r => if cond r then Ok (true, [DRun runID], set_runs (<[runID := f r]> (runs db)) db)
                            else Ok (false, [], db)
                | None => Ok (false, [], db)
                end).

Definition update_thread_where (x : ctx) (threadID : string) (cond : thread_row → bool) (f : thread_row → thread_row)
  : body bool :=
  bwrite (λ db, match find_thread x threadID db with
                | Some t => if cond t then Ok (true, [DThread threadID], set_threads (<[threadID := f t]> (threads db)) db)
                            else Ok (false, [], db)
                | None => Ok (false, [], db)
                end).

Definition UpdateRunStatus (now : Z) (x : ctx) (runID status : string) (output : column) (errMsg : string) : body bool :=
  update_run_where x runID (λ _, true) (λ r,
    mkRun (r_tenant r) (r_thread r) (r_agent r) status (r_meta r) output errMsg (r_created r) now (r_spec r)).

Definition TryMarkRunTimeout (now : Z) (x : ctx) (runID errMsg : string) : body bool :=
  update_run_where x runID (λ r, active (r_status r)) (λ r,
    mkRun (r_tenant r) (r_thread r) (r_agent r) RunStatusTimeout (r_meta r) (r_output r) errMsg (r_created r) now (r_spec r)).

Definition DeleteRun (x : ctx) (runID : string) : body unit :=
  bwrite (λ db, match find_run x runID db with
                | Some _ => Ok (tt, [DRun runID], set_runs (delete runID (runs db)) db)
                | None => Err (ENotFound "run" runID)
                end).

Definition with_status (now : Z) (status : string) (t : thread_row) : thread_row :=
  mkThread (t_tenant t) status (t_values t) (t_version t) now (t_meta t) (t_created t).

Definition SetThreadStatus (now : Z) (x : ctx) (threadID status : string) : body bool :=
  update_thread_where x threadID (λ _, true) (with_status now status).

Definition TryClaimThread (now : Z) (x : ctx) (threadID : string) : body bool :=
  update_thread_where x threadID (λ t, negb (String.eqb (t_status t) ThreadStatusBusy)) (with_status now ThreadStatusBusy).

Definition CreateThread (x : ctx) (t : Thread) : body unit :=
  bwrite (λ db, match threads db !! ThThreadID t with
                | Some _ => Err (EConflict "thread" (ThThreadID t))
                | None => Ok (tt, [DThread (ThThreadID t)],
                    set_threads (<[ThThreadID t := mkThread (FromContext x) (ThStatus t) (marshal_values (ThValues t)) 1
                                     (ThUpdatedAt t) (marshal_meta (ThMetadata t)) (ThCreatedAt t)]> (threads db)) db)
                end).

(** [CountDocuments] of the other active runs of a thread *)
Definition count_others (x : ctx) (threadID runID : string) (db : DB) : Z :=
  count_runs (λ id r, String.eqb (r_thread r) threadID && visible x (r_tenant r) && active (r_status r)
                      && negb (String.eqb id runID)) (runs db).

Definition ReleaseThreadIfNoOtherActive (now : Z) (x : ctx) (threadID excludeRunID status : string) : body bool :=
  n <~~ bread (λ db, Ok (count_others x threadID excludeRunID db)) ;;
  if 0 <? n then bret false
  else update_thread_where x threadID (λ t, String.eqb (t_status t) ThreadStatusBusy) (with_status now status).

(** ** Threads as parents ([thread_ownership.go]) *)

(** The filter names the caller's tenant, a system caller's too. *)
Definition lockThread (x : ctx) (threadID : string) (claim : bool) : body unit :=
  bwrite (λ db,
    match threads db !! threadID with
    | Some t =>
        if negb (String.eqb (t_tenant t) (FromContext x)) then Err (ENotFound "thread" threadID)
        else if claim && String.eqb (t_status t) ThreadStatusBusy then Err (EConflict "thread" threadID)
        else Ok (tt, [DThread threadID],
                 if claim then
                   set_threads (<[threadID := mkThread (t_tenant t) ThreadStatusBusy (t_values t) (t_version t)
                                                (t_updated t) (t_meta t) (t_created t)]> (threads db)) db
                 else db)
    | None => Err (ENotFound "thread" threadID)
    end).

Definition withThread {A} (x : ctx) (threadID : string) (mutate : body A) : body A :=
  _ <~~ lockThread x threadID false ;; mutate.

(** ** Checkpoints *)

Definition GetLatestCheckpoint (x : ctx) (threadID : string) (db : DB) : option string :=
  match filter (λ kr, k_thread kr.2 = threadID ∧ visible x (k_tenant kr.2) = true) (map_to_list (ckpts db)) with
  | [] => None
  | r :: rs => Some (foldl (newer ts_le) r rs).1
  end.

Definition saveCheckpoint (x : ctx) (threadID checkpointID : string) (parent : option string)
    (values : gmap string any) (docs : ckpt_docs) (created : Z) : body unit :=
  bwrite (λ db, match ckpts db !! checkpointID with
                | Some _ => Err EUnique
                | None => Ok (tt, [DCkpt checkpointID],
                    set_ckpts (<[checkpointID := mkCkpt (FromContext x) threadID "" parent values created docs]> (ckpts db)) db)
                end).

Definition SaveCheckpoint (x : ctx) (threadID checkpointID : string) (parent : option string)
    (values : gmap string any) (docs : ckpt_docs) (created : Z) : body unit :=
  withThread x threadID (saveCheckpoint x threadID checkpointID parent values docs created).

(** [UpdateThread] with a patch of values only *)
Definition UpdateThread_values (now : Z) (x : ctx) (threadID : string) (values : gmap string any) : body unit :=
  t <~~ GetThread x threadID ;;
  _ <~~ update_thread_where x threadID (λ _, true) (λ t',
          mkThread (t_tenant t') (t_status t') (ColObj (merge_values values (bsonToMap (t_values t))))
            (t_version t' + 1) now (match t_meta t with ColObj m => ColObj m | _ => ColNull end) (t_created t')) ;;
  bret tt.

(** ** Attempts and completions ([completion.go]) *)

Definition BeginRunAttempt (now : Z) (x : ctx) (runID : string) (generation : Z) : body bool :=
  run <~~ GetRun x runID ;;
  let meta := bsonToMap (r_meta run) in
  if TerminalRunStatus (r_status run) || (generation <? MetadataGeneration meta AttemptGenerationKey)
  then bret false
  else
    _ <~~ update_run_where x runID (λ _, true) (begun_run now generation meta) ;;
    bret true.

(** The conversation values and their checkpoint. *)
Definition complete_values (now : Z) (x : ctx) (run : run_row) (c : RunCompletion) (v : gmap string any) : body unit :=
  thread <~~ GetThread x (r_thread run) ;;
  parent <~~ bread (λ db, Ok (GetLatestCheckpoint x (r_thread run) db)) ;;
  _ <~~ SaveCheckpoint x (r_thread run) ("completion:" +:+ CRunID c) parent
          (merge_values v (bsonToMap (t_values thread))) completion_docs now ;;
  UpdateThread_values now x (r_thread run) v.

Definition set_meta (m : column) (r : run_row) : run_row :=
  mkRun (r_tenant r) (r_thread r) (r_agent r) (r_status r) m (r_output r) (r_error r) (r_created r) (r_updated r) (r_spec r).

Definition completeRunInTransaction (now : Z) (x : ctx) (c0 : RunCompletion) : body CompletionResult :=
  run <~~ GetRun x (CRunID c0) ;;
  let meta := bsonToMap (r_meta run) in
  let c := ResolveCompletion meta c0 in
  let result := CheckCompletion meta (r_status run) c in
  if negb (Applied result) then bret result
  else
    _ <~~ match CValues c with
          | Some v => if negb (CancelCurrentAttempt c) then complete_values now x run c v else bret tt
          | None => bret tt
          end ;;
    _ <~~ UpdateRunStatus now x (CRunID c) (CStatus c) (output_column c) (CError c) ;;
    _ <~~ update_run_where x (CRunID c) (λ _, true)
            (set_meta (encode_meta (<[CompletionGenerationKey := AInt64 (CGeneration c)]> meta))) ;;
    n <~~ bread (λ db, Ok (count_others x (r_thread run) (CRunID c) db)) ;;
    _ <~~ (if n =? 0 then
             update_thread_where x (r_thread run) (λ t, String.eqb (t_status t) ThreadStatusBusy)
               (with_status now (release_status c))
           else bret false) ;;
    bret result.

Definition CompleteRun (now : Z) (x : ctx) (c : RunCompletion) : body CompletionResult :=
  completeRunInTransaction now x c.

(** ** Checkpoints bound to an attempt ([run_checkpoint.go]) *)

(** The run is read, checked and touched: [$inc] of its private revision. *)
Definition lockCheckpointRun (x : ctx) (b : RunCheckpointBinding) : body unit :=
  bwrite (λ db,
    match find_run x (BRunID b) db with
    | None => Err (EFence "run_not_inflight")
    | Some r =>
        match CheckRunCheckpointBinding (r_thread r) (r_status r) (bsonToMap (r_meta r)) b with
        | Some e => Err e
        | None => Ok (tt, [DRun (BRunID b)], db)
        end
    end).

Definition put_doc (key : string * string * string) (o : opaque_row) (db : DB) : res err (Z * list doc * DB) :=
  Ok (o_version o, [DOpaque key], set_opaques (<[key := o]> (opaques db)) db).

Definition putOpaqueCheckpoint (now : Z) (x : ctx) (threadID checkpointID : string) (data : list Byte.byte)
    (framework : string) (ifMatch : option Z) : body Z :=
  if MaxOpaqueCheckpointBytes <? Z.of_nat (length data) then berr (EOther "opaque checkpoint exceeds max size")
  else
    let key := (FromContext x, threadID, checkpointID) in
    let fresh := mkOpaque framework data 1 now in
    bwrite (λ db,
      match ifMatch, opaques db !! key with
      | Some v, old =>
          if v =? OpaqueCreateOnly then
            match old with
            | Some _ => Err (EConflict "opaque_checkpoint" checkpointID)
            | None => put_doc key fresh db
            end
          else
            match old with
            | Some o => if o_version o =? v then put_doc key (mkOpaque framework data (o_version o + 1) now) db
                        else Err (EConflict "opaque_checkpoint" checkpointID)
            | None => Err (EConflict "opaque_checkpoint" checkpointID)
            end
      | None, Some o => put_doc key (mkOpaque framework data (o_version o + 1) now) db
      | None, None => put_doc key fresh db
      end).

Definition PutOpaqueCheckpoint (now : Z) (x : ctx) (threadID checkpointID : string) (data : list Byte.byte)
    (framework : string) (ifMatch : option Z) : body Z :=
  withThread x threadID (putOpaqueCheckpoint now x threadID checkpointID data framework ifMatch).

Definition PutBoundOpaqueCheckpoint (now : Z) (x : ctx) (b : RunCheckpointBinding) (checkpointID : string)
    (data : list Byte.byte) (framework : string) (ifMatch : option Z) : body Z :=
  _ <~~ lockCheckpointRun x b ;;
  PutOpaqueCheckpoint now x (BThreadID b) checkpointID data framework ifMatch.

(** [DeleteOne(tenantFilter(thread_id, checkpoint_id))] *)
Definition DeleteOpaqueCheckpoint (x : ctx) (threadID checkpointID : string) : body unit :=
  bwrite (λ db,
    match filter (λ ko, ko.1.1.2 = threadID ∧ ko.1.2 = checkpointID ∧ visible x ko.1.1.1 = true)
            (map_to_list (opaques db)) with
    | [] => Err (ENotFound "opaque_checkpoint" checkpointID)
    | (k, _) :: _ => Ok (tt, [DOpaque k], set_opaques (delete k (opaques db)) db)
    end).

Definition DeleteBoundOpaqueCheckpoint (x : ctx) (b : RunCheckpointBinding) (checkpointID : string) : body unit :=
  _ <~~ lockCheckpointRun x b ;;
  DeleteOpaqueCheckpoint x (BThreadID b) checkpointID.

(** ** Admitted creation ([admission_create.go]) *)

Definition touchAdmissionLock (id : string) : body unit := λ db, Ok (tt, [DLock id], db).

(** A cap of one kind and scope. *)
Definition cap_touch (on : bool) (id : string) : body unit := if on then touchAdmissionLock id else bret tt.

Definition tenant_caps (caps : option RunAdmissionCaps) : bool :=
  Enabled caps && match caps with Some c => (0 <? TenantConcurrent c) || (0 <? TenantDaily c) | None => false end.
Definition agent_caps (caps : option RunAdmissionCaps) : bool :=
  Enabled caps && match caps with Some c => (0 <? AgentConcurrent c) || (0 <? AgentDaily c) | None => false end.

(** [metadata.simulation] is not the boolean true. *)
Definition not_simulation_bool (c : column) : bool :=
  match bsonToMap c !! "simulation" with Some (ABool true) => false | _ => true end.

Definition countActive (tid agentID : string) : tx Z := λ n db, Ok (count_active tid agentID (runs db), n, db).
Definition countSince (tid : string) (since : Z) (agentID : string) : tx Z :=
  λ n db, Ok (count_runs (λ _ r, String.eqb (r_tenant r) tid && (since <=? r_created r)
                                 && not_simulation_bool (r_meta r) && agent_filter agentID r) (runs db), n, db).

(** The shared evaluation of the caps, on this store's counts. *)
Definition evaluate (wall : Z) (x : ctx) (caps : option RunAdmissionCaps) (agentID : string) : body unit :=
  bread (λ db, match EvaluateRunAdmission (countActive (FromContext x)) (countSince (FromContext x)) wall caps agentID 0%nat db with
               | Ok (_, _, _) => Ok tt
               | Err e => Err e
               end).

Definition insert_run_doc (x : ctx) (run : Run) : body unit :=
  bwrite (λ db, match runs db !! RunID run with
                | Some _ => Err (EConflict "run" (RunID run))
                | None => Ok (tt, [DRun (RunID run)],
                    set_runs (<[RunID run := mkRun (FromContext x) (ThreadID run) (AgentID run) (Status run)
                                               (marshal_meta (Metadata run)) ColEmpty "" (CreatedAt run)
                                               (UpdatedAt run) (Spec run)]> (runs db)) db)
                end).

Definition createRun (wall : Z) (x : ctx) (run : Run) (caps : option RunAdmissionCaps) (claim : bool)
    (afterInsert : body unit) : body unit :=
  _ <~~ cap_touch (tenant_caps caps) ("t:" +:+ FromContext x) ;;
  _ <~~ cap_touch (agent_caps caps) ("a:" +:+ FromContext x +:+ ":" +:+ AgentID run) ;;
  _ <~~ lockThread x (ThreadID run) claim ;;
  _ <~~ evaluate wall x caps (AgentID run) ;;
  _ <~~ insert_run_doc x run ;;
  afterInsert.

Definition CreateRunAdmitted (wall : Z) (x : ctx) (run : Run) (caps : option RunAdmissionCaps) : body unit :=
  createRun wall x run caps false (bret tt).

Definition CreateCachedRun (wall now : Z) (x : ctx) (run : Run) (caps : option RunAdmissionCaps) : body unit :=
  match PrepareCachedRun run with
  | Err e => berr e
  | Ok (pending, completion) =>
      createRun wall x pending caps true
        (result <~~ completeRunInTransaction now x completion ;;
         if Applied result then bret tt else berr (EOther "cache completion was not applied"))
  end.

(** ** Deletions *)

(** The thread and what belongs to it in its tenant. *)
Definition DeleteThread (x : ctx) (threadID : string) : body unit :=
  bwrite (λ db,
    match find_thread x threadID db with
    | None => Err (ENotFound "thread" threadID)
    | Some t =>
        let tid := t_tenant t in
        let rs := filter (λ kr, r_thread kr.2 = threadID ∧ r_tenant kr.2 = tid) (runs db) in
        let ks := filter (λ kr, k_thread kr.2 = threadID ∧ k_tenant kr.2 = tid) (ckpts db) in
        let os := filter (λ ko, ko.1.1.2 = threadID ∧ ko.1.1.1 = tid) (opaques db) in
        Ok (tt, DThread threadID :: (DRun <$> (map_to_list rs).*1) ++ (DCkpt <$> (map_to_list ks).*1)
                ++ (DOpaque <$> (map_to_list os).*1),
            mkDB (runs db ∖ rs) (delete threadID (threads db)) (ckpts db ∖ ks) (opaques db ∖ os))
    end)%list.

(** [DeleteMany] of the terminal runs older than a time. *)
Definition PruneRuns (x : ctx) (olderThan : Z) : body Z :=
  bwrite (λ db,
    let rs := filter (λ kr, TerminalRunStatus (r_status kr.2) && (r_updated kr.2 <? olderThan)
                            && visible x (r_tenant kr.2) = true) (runs db) in
    Ok (Z.of_nat (size rs), DRun <$> (map_to_list rs).*1, set_runs (runs db ∖ rs) db)).

(** ** The operations as one type *)

Inductive op :=
| OpCreateThread (x : ctx) (t : Thread)
| OpCreate (wall : Z) (x : ctx) (run : Run) (caps : option RunAdmissionCaps)
| OpCreateCached (wall now : Z) (x : ctx) (run : Run) (caps : option RunAdmissionCaps)
| OpBegin (now : Z) (x : ctx) (runID : string) (generation : Z)
| OpComplete (now : Z) (x : ctx) (c : RunCompletion)
| OpStatus (now : Z) (x : ctx) (runID status : string) (output : column) (errMsg : string)
| OpTimeout (now : Z) (x : ctx) (runID errMsg : string)
| OpDeleteRun (x : ctx) (runID : string)
| OpPruneRuns (x : ctx) (olderThan : Z)
| OpSetThread (now : Z) (x : ctx) (threadID status : string)
| OpClaim (now : Z) (x : ctx) (threadID : string)
| OpRelease (now : Z) (x : ctx) (threadID excludeRunID status : string)
| OpDeleteThread (x : ctx) (threadID : string)
| OpSaveCkpt (x : ctx) (threadID checkpointID : string) (parent : option string) (values : gmap string any)
             (docs : ckpt_docs) (created : Z)
| OpPut (now : Z) (x : ctx) (threadID checkpointID : string) (data : list Byte.byte) (framework : string) (ifMatch : option Z)
| OpPutBound (now : Z) (x : ctx) (b : RunCheckpointBinding) (checkpointID : string) (data : list Byte.byte)
             (framework : string) (ifMatch : option Z)
| OpDelOpaque (x : ctx) (threadID checkpointID : string)
| OpDelBound (x : ctx) (b : RunCheckpointBinding) (checkpointID : string).

Definition forget {A} (m : body A) (db : DB) : res err (list doc * DB) :=
  match m db with Ok (_, W, db') => Ok (W, db') | Err e => Err e end.

Definition exec (p : op) : DB → res err (list doc * DB) :=
  match p with
  | OpCreateThread x t => forget (CreateThread x t)
  | OpCreate wall x run caps => forget (CreateRunAdmitted wall x run caps)
  | OpCreateCached wall now x run caps => forget (CreateCachedRun wall now x run caps)
  | OpBegin now x runID g => forget (BeginRunAttempt now x runID g)
  | OpComplete now x c => forget (CompleteRun now x c)
  | OpStatus now x runID st out msg => forget (UpdateRunStatus now x runID st out msg)
  | OpTimeout now x runID msg => forget (TryMarkRunTimeout now x runID msg)
  | OpDeleteRun x runID => forget (DeleteRun x runID)
  | OpPruneRuns x older => forget (PruneRuns x older)
  | OpSetThread now x threadID st => forget (SetThreadStatus now x threadID st)
  | OpClaim now x threadID => forget (TryClaimThread now x threadID)
  | OpRelease now x threadID ex st => forget (ReleaseThreadIfNoOtherActive now x threadID ex st)
  | OpDeleteThread x threadID => forget (DeleteThread x threadID)
  | OpSaveCkpt x threadID cid parent values docs created => forget (SaveCheckpoint x threadID cid parent values docs created)
  | OpPut now x threadID cid data fw im => forget (PutOpaqueCheckpoint now x threadID cid data fw im)
  | OpPutBound now x b cid data fw im => forget (PutBoundOpaqueCheckpoint now x b cid data fw im)
  | OpDelOpaque x threadID cid => forget (DeleteOpaqueCheckpoint x threadID cid)
  | OpDelBound x b cid => forget (DeleteBoundOpaqueCheckpoint x b cid)
  end.
End store.
