(* ===== verification/MongoProps.v ===== *)
(** * The MongoDB store under concurrent transactions

    Transactions read snapshots and may overlap in any way.  On a run's document
    they still act one after the other: each commit changes it as its operation
    would on the latest state ([commit_run_write]).  So an outcome is applied at
    most once, checkpoints are fenced by the attempt that is current when they
    commit, and the admission locks keep a tenant under its ceiling.  What a
    transaction only reads may be stale: two completions that only count each
    other leave their thread busy. *)

From Stdlib Require Import String.
From S2P Require Import Prelude GoAny Completion Store StoreSpec StoreOps Snapshots Mongo.
Local Open Scope string_scope.
Local Open Scope Z_scope.
Local Open Scope go_scope.

(** ** Bodies *)

Lemma bbind_ok {A B} (m : body A) (k : A → body B) db b W db' :
  bbind m k db = Ok (b, W, db') ↔
  ∃ a W1 db1 W2, m db = Ok (a, W1, db1) ∧ k a db1 = Ok (b, W2, db') ∧ W = (W1 ++ W2)%list.
Proof.
  unfold bbind. split.
  - destruct (m db) as [[[a W1] db1]|]; [|done]. destruct (k a db1) as [[[b' W2] db2]|] eqn:E; [|done].
    intros [= <- <- <-]. by exists a, W1, db1, W2.
  - intros (a&W1&db1&W2&->&->&->). done.
Qed.

Lemma bread_ok {A} (f : DB → res err A) db a W db' :
  bread f db = Ok (a, W, db') ↔ f db = Ok a ∧ W = [] ∧ db' = db.
Proof. unfold bread. destruct (f db); naive_solver. Qed.

Lemma forget_ok {A} (m : body A) db W db' : forget m db = Ok (W, db') ↔ ∃ a, m db = Ok (a, W, db').
Proof. unfold forget. destruct (m db) as [[[a W1] db1]|]; naive_solver. Qed.

(** Splits the run of a body into its statements. *)
Ltac body_inv :=
  repeat match goal with
    | H : bbind _ _ _ = Ok _ |- _ => apply bbind_ok in H as (?&?&?&?&?&?&?)
    | H : bread _ _ = Ok _ |- _ => apply bread_ok in H as (?&?&?)
    | H : bret _ _ = Ok _ |- _ => unfold bret in H; simplify_eq
    | H : berr _ _ = Ok _ |- _ => done
    | H : bwrite _ _ = Ok _ |- _ => unfold bwrite in H
    end.

(** A body that leaves the runs as they are. *)
Definition quiet {A} (m : body A) : Prop := ∀ db a W db', m db = Ok (a, W, db') → runs db' = runs db.

Create HintDb mongo.

Lemma quiet_ret {A} (a : A) : quiet (bret a).
Proof. intros db b W db' H. body_inv. done. Qed.
Lemma quiet_err {A} e : quiet (berr (A := A) e).
Proof. done. Qed.
Lemma quiet_read {A} (f : DB → res err A) : quiet (bread f).
Proof. intros db b W db' H. body_inv. by subst. Qed.
Lemma quiet_bind {A B} (m : body A) (k : A → body B) : quiet m → (∀ a, quiet (k a)) → quiet (bbind m k).
Proof. intros Hm Hk db b W db' H. body_inv. etrans; [by eapply Hk|by eapply Hm]. Qed.
Lemma quiet_thread x id cond f : quiet (update_thread_where x id cond f).
Proof.
  intros db b W db' H. unfold update_thread_where in H. body_inv.
  destruct (find_thread x id db) as [t|]; [destruct (cond t)|]; by simplify_eq/=.
Qed.
Lemma quiet_lock x id claim : quiet (lockThread x id claim).
Proof.
  intros db b W db' H. unfold lockThread in H. body_inv. destruct (threads db !! id) as [t|]; [|done].
  destruct (negb _); [done|]. destruct (claim && _); [done|]. destruct claim; by simplify_eq/=.
Qed.
Lemma quiet_save x th id p v d c : quiet (saveCheckpoint x th id p v d c).
Proof.
  intros db b W db' H. unfold saveCheckpoint in H. body_inv. destruct (ckpts db !! id); by simplify_eq/=.
Qed.
Lemma quiet_put now x th id data fw im : quiet (putOpaqueCheckpoint now x th id data fw im).
Proof.
  unfold putOpaqueCheckpoint, put_doc. destruct (_ <? _); [apply quiet_err|]. intros db b W db' H. body_inv.
  repeat case_match; by simplify_eq/=.
Qed.
Lemma quiet_bound x b : quiet (lockCheckpointRun x b).
Proof.
  intros db a W db' H. unfold lockCheckpointRun in H. body_inv. destruct (find_run x (BRunID b) db); [|done].
  destruct (CheckRunCheckpointBinding _ _ _ _); by simplify_eq.
Qed.
Lemma quiet_del_opaque x th id : quiet (DeleteOpaqueCheckpoint x th id).
Proof. intros db a W db' H. unfold DeleteOpaqueCheckpoint in H. body_inv. case_match; [done|]. case_match. by simplify_eq. Qed.
Lemma quiet_create_thread x t : quiet (CreateThread x t).
Proof. intros db a W db' H. unfold CreateThread in H. body_inv. case_match; by simplify_eq. Qed.
Lemma quiet_touch on id : quiet (cap_touch on id).
Proof. destruct on; [|apply quiet_ret]. intros db a W db' H. unfold cap_touch, touchAdmissionLock in H. by simplify_eq. Qed.
Lemma quiet_evaluate wall x caps a : quiet (evaluate wall x caps a).
Proof. apply quiet_read. Qed.

#[export] Hint Resolve quiet_ret quiet_err quiet_read quiet_bind quiet_thread quiet_lock quiet_save quiet_put quiet_bound
  quiet_del_opaque quiet_create_thread quiet_touch quiet_evaluate : mongo.

Lemma quiet_values ts_le now x run c v : quiet (complete_values ts_le now x run c v).
Proof. unfold complete_values, SaveCheckpoint, withThread, UpdateThread_values, GetThread. auto 12 with mongo. Qed.

#[export] Hint Resolve quiet_values : mongo.

(** The runs after a step of a body that leaves them. *)
Ltac by_quiet H :=
  match type of H with
  | ?m _ = Ok _ =>
      let q := fresh in
      assert (q : quiet m) by (repeat case_match; auto with mongo);
      exact (q _ _ _ _ H)
  end.

(** ** What an operation writes of a run *)

(** The document before and after. *)
Inductive run_write (id : string) (r : option run_row) : op → option run_row → Prop :=
| rw_same p : run_write id r p r
| rw_create wall x run caps : r = None → RunID run = id →
    run_write id r (OpCreate wall x run caps)
      (Some (mkRun (FromContext x) (ThreadID run) (AgentID run) (Status run) (marshal_meta (Metadata run)) ColEmpty ""
               (CreatedAt run) (UpdatedAt run) (Spec run)))
| rw_cached wall now x run caps r' : r = None → RunID run = id → r_status r' = RunStatusSuccess →
    is_Some (bsonToMap (r_meta r') !! CompletionGenerationKey) →
    run_write id r (OpCreateCached wall now x run caps) (Some r')
| rw_begin now x g r0 : r = Some r0 → TerminalRunStatus (r_status r0) = false →
    MetadataGeneration (bsonToMap (r_meta r0)) AttemptGenerationKey ≤ g →
    run_write id r (OpBegin now x id g) (Some (begun_run now g (bsonToMap (r_meta r0)) r0))
| rw_complete now x c0 r0 : r = Some r0 → CRunID c0 = id → visible x (r_tenant r0) = true →
    let meta := bsonToMap (r_meta r0) in
    let c := ResolveCompletion meta c0 in
    Applied (CheckCompletion meta (r_status r0) c) = true →
    run_write id r (OpComplete now x c0) (Some (completed_run now c meta r0))
| rw_status now x st out msg r0 : r = Some r0 →
    run_write id r (OpStatus now x id st out msg)
      (Some (mkRun (r_tenant r0) (r_thread r0) (r_agent r0) st (r_meta r0) out msg (r_created r0) now (r_spec r0)))
| rw_timeout now x msg r0 : r = Some r0 → active (r_status r0) = true →
    run_write id r (OpTimeout now x id msg)
      (Some (mkRun (r_tenant r0) (r_thread r0) (r_agent r0) RunStatusTimeout (r_meta r0) (r_output r0) msg
               (r_created r0) now (r_spec r0)))
| rw_delete p : match p with OpDeleteRun _ _ | OpPruneRuns _ _ | OpDeleteThread _ _ => True | _ => False end →
    run_write id r p None.

(** Each run is written as its operation says, and only if it is listed. *)
Definition writes_runs (p : op) (db : DB) (W : list doc) (db' : DB) : Prop :=
  ∀ id, run_write id (runs db !! id) p (runs db' !! id) ∧ (DRun id ∉ W → runs db' !! id = runs db !! id).

Lemma quiet_writes {A} (m : body A) p db a W db' : quiet m → m db = Ok (a, W, db') → writes_runs p db W db'.
Proof. intros Hq H id. rewrite (Hq _ _ _ _ H). split; [constructor|done]. Qed.

Lemma find_run_Some x id db r : find_run x id db = Some r ↔ runs db !! id = Some r ∧ visible x (r_tenant r) = true.
Proof. unfold find_run. destruct (runs db !! id) as [r0|]; [destruct (visible x (r_tenant r0)) eqn:E|];
    (split; [intros [= <-]|intros [[= ->] H]]); try done; congruence. Qed.

(** An update of one run. *)
Lemma update_run_where_ok x id cond f db b W db' :
  update_run_where x id cond f db = Ok (b, W, db') →
  (db' = db ∧ W = []) ∨
  ∃ r, find_run x id db = Some r ∧ cond r = true ∧ W = [DRun id] ∧ db' = set_runs (<[id := f r]> (runs db)) db.
Proof.
  unfold update_run_where, bwrite. destruct (find_run x id db) as [r|]; [|intros [= <- <- <-]; by left].
  destruct (cond r) eqn:E; intros [= <- <- <-]; [right|by left]. by exists r.
Qed.

Lemma update_run_always x id r f db : find_run x id db = Some r →
  update_run_where x id (λ _, true) f db = Ok (true, [DRun id], set_runs (<[id := f r]> (runs db)) db).
Proof. intros H. unfold update_run_where, bwrite. by rewrite H. Qed.

Lemma update_run_writes x id cond f p db b W db' :
  update_run_where x id cond f db = Ok (b, W, db') →
  (∀ r, find_run x id db = Some r → cond r = true → run_write id (Some r) p (Some (f r))) →
  writes_runs p db W db'.
Proof.
  intros [[-> ->]|(r&Hr&Hc&->&->)]%update_run_where_ok Hw id'; [split; [constructor|done]|].
  simpl. destruct (decide (id' = id)) as [->|Hne].
  - rewrite lookup_insert_eq. split; [|set_solver].
    specialize (Hw r Hr Hc). by rewrite (proj1 (proj1 (find_run_Some x id db r) Hr)).
  - rewrite lookup_insert_ne by done. split; [constructor|done].
Qed.

Lemma GetRun_ok x id db r W db' : GetRun x id db = Ok (r, W, db') → find_run x id db = Some r ∧ W = [] ∧ db' = db.
Proof. unfold GetRun. intros [H [-> ->]]%bread_ok. by destruct (find_run x id db); simplify_eq. Qed.

Lemma begin_writes now x id g db b W db' :
  BeginRunAttempt now x id g db = Ok (b, W, db') → writes_runs (OpBegin now x id g) db W db'.
Proof.
  unfold BeginRunAttempt. intros H. apply bbind_ok in H as (run&W1&db1&W2&(Hr&->&->)%GetRun_ok&H&->).
  cbv zeta in H. destruct (TerminalRunStatus _ || _) eqn:E; [body_inv; intros id'; split; [constructor|done]|].
  apply orb_false_iff in E as [Ht Hg%Z.ltb_ge].
  apply bbind_ok in H as (b1&W1&db1&W3&H&Hret&->). unfold bret in Hret. simplify_eq/=. rewrite app_nil_r.
  eapply update_run_writes; [exact H|]. intros r Hr' _. rewrite Hr in Hr'. simplify_eq. by constructor.
Qed.

(** A completion rewrites its own run, the one it has read and checked. *)
Lemma complete_runs ts_le now x c0 db result W db' :
  completeRunInTransaction ts_le now x c0 db = Ok (result, W, db') →
  ∃ r, find_run x (CRunID c0) db = Some r ∧
    let meta := bsonToMap (r_meta r) in
    let c := ResolveCompletion meta c0 in
    result = CheckCompletion meta (r_status r) c ∧
    if Applied result
    then runs db' = <[CRunID c0 := completed_run now c meta r]> (runs db) ∧ DRun (CRunID c0) ∈ W
    else db' = db ∧ W = [].
Proof.
  unfold completeRunInTransaction. intros H. apply bbind_ok in H as (r&W1&db1&W2&(Hr&->&->)%GetRun_ok&H&->).
  exists r. split; [done|]. cbv zeta in *. set (meta := bsonToMap (r_meta r)) in *.
  set (c := ResolveCompletion meta c0) in *.
  assert (Hid : CRunID c = CRunID c0) by (subst c; unfold ResolveCompletion; by repeat case_match).
  destruct (Applied (CheckCompletion meta (r_status r) c)) eqn:Ha; simpl in H.
  - apply bbind_ok in H as (u&Wv&dbv&W3&Hv&H&->).
    assert (Hqv : runs dbv = runs db).
    { by_quiet Hv. }
    apply bbind_ok in H as (b1&W4&db2&W5&Hs&H&->). apply bbind_ok in H as (b2&W6&db3&W7&Hm&H&->).
    apply bbind_ok in H as (n&W8&db4&W9&(_&->&->)%bread_ok&H&->). apply bbind_ok in H as (b3&W10&db5&W11&Ht&H&->).
    unfold bret in H. simplify_eq. rewrite Hid in *. split; [done|]. rewrite Ha.
    assert (Hfr : find_run x (CRunID c0) dbv = Some r).
    { apply find_run_Some. rewrite Hqv. by apply find_run_Some. }
    unfold UpdateRunStatus in Hs. rewrite (update_run_always _ _ _ _ _ Hfr) in Hs. simplify_eq.
    rewrite (update_run_always x _ (mkRun (r_tenant r) (r_thread r) (r_agent r) (CStatus c) (r_meta r) (output_column c)
               (CError c) (r_created r) now (r_spec r))) in Hm.
    2:{ apply find_run_Some. simpl. rewrite lookup_insert_eq. split; [done|]. by apply find_run_Some in Hfr as [_ ?]. }
    simplify_eq. assert (runs db' = runs (set_runs (<[CRunID c0 := completed_run now c meta r]> (runs dbv)) dbv)) as ->.
    { etrans; [by_quiet Ht|]. simpl. by rewrite insert_insert_eq. }
    simpl. rewrite Hqv. split; [done|set_solver].
  - body_inv. split; [done|]. by rewrite Ha.
Qed.

Lemma complete_writes ts_le now x c db result W db' :
  completeRunInTransaction ts_le now x c db = Ok (result, W, db') → writes_runs (OpComplete now x c) db W db'.
Proof.
  intros (r&Hr&Hres&H)%complete_runs id. cbv zeta in *. destruct (Applied result) eqn:Ha.
  - destruct H as [-> HW]. destruct (decide (id = CRunID c)) as [->|Hne].
    + rewrite lookup_insert_eq. split; [|done]. apply find_run_Some in Hr as [Hr Hv]. rewrite Hr.
      apply rw_complete; [done..|]. by rewrite <- Hres.
    + rewrite lookup_insert_ne by done. split; [constructor|done].
  - destruct H as [-> ->]. split; [constructor|done].
Qed.

(** The creation of a run, and what follows its insertion. *)
Lemma create_runs wall x run caps claim (after_insert : body unit) db W db' :
  createRun wall x run caps claim after_insert db = Ok (tt, W, db') →
  runs db !! RunID run = None ∧
  ∃ db1 W1 W2, DRun (RunID run) ∈ W1 ∧ W = (W1 ++ W2)%list ∧
    (tenant_caps caps = true → DLock ("t:" +:+ FromContext x) ∈ W1) ∧
    (∃ dbe, evaluate wall x caps (AgentID run) dbe = Ok (tt, [], dbe) ∧ runs dbe = runs db) ∧
    runs db1 = <[RunID run := mkRun (FromContext x) (ThreadID run) (AgentID run) (Status run)
                   (marshal_meta (Metadata run)) ColEmpty "" (CreatedAt run) (UpdatedAt run) (Spec run)]> (runs db) ∧
    after_insert db1 = Ok (tt, W2, db').
Proof.
  unfold createRun. intros H.
  apply bbind_ok in H as (?&Wt&db1&?&Ht&H&->). apply bbind_ok in H as (?&Wa&db2&?&Hag&H&->).
  apply bbind_ok in H as (?&Wl&db3&?&Hl&H&->). apply bbind_ok in H as ([]&We&db4&?&He&H&->).
  apply bbind_ok in H as (?&Wi&db5&?&Hi&H&->).
  assert (H1 : runs db1 = runs db) by by_quiet Ht. assert (H2 : runs db2 = runs db1) by by_quiet Hag.
  assert (H3 : runs db3 = runs db2) by by_quiet Hl.
  pose proof He as He'. unfold evaluate in He'. apply bread_ok in He' as (_&->&->).
  unfold insert_run_doc, bwrite in Hi. destruct (runs db3 !! RunID run) eqn:Hnone; [done|]. simplify_eq.
  rewrite H3, H2, H1 in Hnone. split; [done|].
  exists (set_runs (<[RunID run := mkRun (FromContext x) (ThreadID run) (AgentID run) (Status run)
            (marshal_meta (Metadata run)) ColEmpty "" (CreatedAt run) (UpdatedAt run) (Spec run)]> (runs db3)) db3).
  eexists (Wt ++ Wa ++ Wl ++ [] ++ [DRun (RunID run)])%list, _. split_and!.
  - set_solver.
  - rewrite <- !app_assoc. done.
  - intros Hc. unfold cap_touch in Ht. rewrite Hc in Ht. unfold touchAdmissionLock in Ht. simplify_eq. set_solver.
  - exists db3. split; [done|]. by rewrite H3, H2, H1.
  - simpl. by rewrite H3, H2, H1.
  - done.
Qed.

Lemma create_writes wall x run caps db W db' :
  CreateRunAdmitted wall x run caps db = Ok (tt, W, db') → writes_runs (OpCreate wall x run caps) db W db'.
Proof.
  intros (Hn&db1&W1&W2&HW&->&_&_&Hr&H)%create_runs id. unfold bret in H. simplify_eq.
  rewrite Hr. destruct (decide (id = RunID run)) as [->|Hne].
  - rewrite lookup_insert_eq, Hn. split; [by constructor|set_solver].
  - rewrite lookup_insert_ne by done. split; [constructor|done].
Qed.

Lemma cached_writes ts_le wall now x run caps db W db' :
  CreateCachedRun ts_le wall now x run caps db = Ok (tt, W, db') →
  writes_runs (OpCreateCached wall now x run caps) db W db' ∧
  ∀ id, runs db' !! id = runs db !! id ∨ (r_status <$> runs db' !! id) = Some RunStatusSuccess.
Proof.
  unfold CreateCachedRun. destruct (PrepareCachedRun run) as [[pending completion]|e] eqn:Hp; [|done].
  assert (Hids : RunID pending = RunID run ∧ CRunID completion = RunID run ∧ CStatus completion = RunStatusSuccess ∧
                 CancelCurrentAttempt completion = false).
  { unfold PrepareCachedRun in Hp. destruct (negb _); [done|]. destruct (Output run); simplify_eq. done. }
  destruct Hids as (Hid&Hcid&Hst&Hcan).
  intros (Hn&db1&W1&W2&HW&->&_&_&Hr&H)%create_runs. apply bbind_ok in H as (result&W3&db2&W4&Hc&H&->).
  destruct (Applied result) eqn:Ha; [|done]. unfold bret in H. simplify_eq.
  apply complete_runs in Hc as (r&Hfr&Hres&Hc). rewrite Ha in Hc. cbv zeta in *. destruct Hc as [Hr' HW'].
  rewrite Hid in *. rewrite Hcid in *.
  assert (HS : ∀ m, CStatus (ResolveCompletion m completion) = RunStatusSuccess).
  { intros m. unfold ResolveCompletion. by rewrite Hcan. }
  split; intros id.
  - rewrite Hr', Hr. destruct (decide (id = RunID run)) as [->|Hne].
    + rewrite lookup_insert_eq, Hn. split; [|set_solver]. apply rw_cached; [done..|apply HS|].
      unfold completed_run, encode_meta. simpl. rewrite lookup_fmap, lookup_insert_eq. by eexists.
    + rewrite !lookup_insert_ne by done. split; [constructor|done].
  - rewrite Hr', Hr. destruct (decide (id = RunID run)) as [->|Hne]; [right|left].
    + rewrite lookup_insert_eq. simpl. by rewrite HS.
    + by rewrite !lookup_insert_ne.
Qed.

Lemma delete_writes p (rs : gmap string run_row) db W db' :
  match p with OpDeleteRun _ _ | OpPruneRuns _ _ | OpDeleteThread _ _ => True | _ => False end →
  runs db' = runs db ∖ rs → (∀ id r, rs !! id = Some r → DRun id ∈ W) → writes_runs p db W db'.
Proof.
  intros Hp Hr HW id. rewrite Hr, lookup_difference. destruct (rs !! id) as [r|] eqn:E.
  - split; [by apply rw_delete|]. intros Hni. destruct Hni. by eapply HW.
  - split; [constructor|done].
Qed.

Lemma listed_docs {A : Type} (f : A → doc) (l : list A) a : a ∈ l → f a ∈ f <$> l.
Proof. apply list_elem_of_fmap_2. Qed.

Lemma keys_elem {V : Type} (m : gmap string V) id v : m !! id = Some v → id ∈ (map_to_list m).*1.
Proof. intros H. apply list_elem_of_fmap. exists (id, v). split; [done|]. by apply elem_of_map_to_list. Qed.

(** Every operation writes runs as it says. *)
Lemma exec_writes ts_le p db W db' : exec ts_le p db = Ok (W, db') → writes_runs p db W db'.
Proof.
  destruct p; cbn [exec]; intros [a H]%forget_ok; try (eapply quiet_writes; [|exact H]; auto 8 with mongo; fail).
  - destruct a. by apply create_writes in H.
  - destruct a. by apply cached_writes in H as [H _].
  - by eapply begin_writes.
  - by eapply complete_writes.
  - unfold UpdateRunStatus in H. eapply update_run_writes; [exact H|]. intros r _ _. by apply rw_status.
  - unfold TryMarkRunTimeout in H. eapply update_run_writes; [exact H|]. intros r _ Hc. by apply rw_timeout.
  - unfold DeleteRun, bwrite in H. destruct (find_run x runID db) as [r|]; [|done]. simplify_eq.
    eapply (delete_writes _ {[runID := r]}); [done|simpl|].
    + apply map_eq. intros i. rewrite lookup_difference. destruct (decide (i = runID)) as [->|Hne].
      * by rewrite lookup_delete_eq, lookup_singleton_eq.
      * by rewrite lookup_delete_ne, lookup_singleton_ne.
    + intros i r' [<- _]%lookup_singleton_Some. set_solver.
  - unfold PruneRuns, bwrite in H. simplify_eq. eapply delete_writes; [done|done|].
    intros i r Hi%keys_elem. by apply listed_docs.
  - unfold SetThreadStatus in H. eapply quiet_writes; [|exact H]. auto with mongo.
  - unfold TryClaimThread in H. eapply quiet_writes; [|exact H]. auto with mongo.
  - eapply quiet_writes; [|exact H]. unfold ReleaseThreadIfNoOtherActive. apply quiet_bind; [auto with mongo|].
    intros n. destruct (0 <? n); auto with mongo.
  - unfold DeleteThread, bwrite in H. destruct (find_thread x threadID db) as [t|]; [|done]. simplify_eq.
    eapply delete_writes; [done|done|]. intros i r Hi%keys_elem. apply (listed_docs DRun) in Hi. set_solver.
  - eapply quiet_writes; [|exact H]. unfold SaveCheckpoint, withThread. auto 8 with mongo.
  - eapply quiet_writes; [|exact H]. unfold PutOpaqueCheckpoint, withThread. auto 8 with mongo.
  - eapply quiet_writes; [|exact H]. unfold PutBoundOpaqueCheckpoint, PutOpaqueCheckpoint, withThread. auto 8 with mongo.
  - eapply quiet_writes; [|exact H]. unfold DeleteBoundOpaqueCheckpoint. auto 8 with mongo.
Qed.

(** ** Commits act on the latest run documents *)

Section concurrent.
Variable ts_le : Z → Z → bool.
Notation history := (history (exec ts_le)).

(** Whatever state a transaction has read, its commit changes every run as its
    operation changes the latest document of that run. *)
Lemma commit_run_write db0 p cur past snap W new next id :
  history db0 (cur :: past) → snap ∈ cur :: past → exec ts_le p (cdb snap) = Ok (W, new) →
  commit snap W new cur = Some next → run_write id (runs (cdb cur) !! id) p (runs (cdb next) !! id).
Proof.
  intros H Hs Hx Hc. destruct (commit_current _ _ _ _ _ _ _ _ H Hs Hc) as [Hin Hout].
  destruct (exec_writes _ _ _ _ _ Hx id) as [Hw _]. destruct (decide (DRun id ∈ W)) as [HW|HW].
  - destruct (Hin _ HW) as [H1 H2]. simpl in H1, H2. by rewrite <- H1, H2.
  - specialize (Hout _ HW). simpl in Hout. rewrite Hout. constructor.
Qed.

(** ** Completions *)

(** A completion has been recorded in the document. *)
Definition recorded (r : run_row) : Prop := is_Some (bsonToMap (r_meta r) !! CompletionGenerationKey).

Lemma recorded_kept id p r r' : run_write id (Some r) p (Some r') → recorded r → recorded r'.
Proof.
  intros Hw Hr. inversion Hw; subst; try done; unfold recorded, begun_run, completed_run, encode_meta; simpl.
  - destruct Hr as [v Hv]. simplify_eq. rewrite lookup_fmap, lookup_insert_ne, Hv by done. by eexists.
  - rewrite lookup_fmap, lookup_insert_eq. by eexists.
  - by simplify_eq.
  - by simplify_eq.
Qed.

Lemma recorded_along db0 id l2 s1 l1 : history db0 (l2 ++ s1 :: l1)%list →
  (∀ s, s ∈ l2 → is_Some (runs (cdb s) !! id)) →
  (∃ r, runs (cdb s1) !! id = Some r ∧ recorded r) →
  ∀ cur past, (l2 ++ s1 :: l1)%list = cur :: past → ∃ r, runs (cdb cur) !! id = Some r ∧ recorded r.
Proof.
  induction l2 as [|s l2 IH]; intros H Hk Hm cur past E; simplify_eq/=; [done|].
  inversion H as [|p cur' past' snap W new next H' Hs Hx Hc]; [by destruct l2|]. subst.
  destruct (IH ltac:(by rewrite <- H1 in *) ltac:(set_solver) Hm cur' past' (eq_sym H1)) as (r&Hr&Hrec).
  pose proof (commit_run_write _ _ _ _ _ _ _ _ id H' Hs Hx Hc) as Hw. rewrite Hr in Hw.
  destruct (Hk cur) as [r' Hr']; [left|]. rewrite Hr' in Hw. exists r'. split; [done|]. by eapply recorded_kept.
Qed.

(** An applied completion is recorded in the state its commit leaves, and the
    state before held none. *)
Lemma applied_records db0 now x c cur past snap result W new next :
  history db0 (cur :: past) → snap ∈ cur :: past → CompleteRun ts_le now x c (cdb snap) = Ok (result, W, new) →
  commit snap W new cur = Some next → Applied result = true →
  (∃ r, runs (cdb cur) !! CRunID c = Some r ∧ ¬ recorded r) ∧
  ∃ r', runs (cdb next) !! CRunID c = Some r' ∧ recorded r'.
Proof.
  intros H Hs Hx Hc Ha. destruct (commit_current _ _ _ _ _ _ _ _ H Hs Hc) as [Hin _].
  apply complete_runs in Hx as (r&Hr&Hres&Hx). rewrite Ha in Hx. cbv zeta in Hx. destruct Hx as [Hn HW].
  destruct (Hin _ HW) as [H1 H2]. simpl in H1, H2. apply find_run_Some in Hr as [Hr _].
  split.
  - exists r. rewrite <- H1. split; [done|]. rewrite Hres in Ha.
    apply CheckCompletion_applied in Ha as (_&_&Hm&_). unfold recorded. rewrite Hm. by intros [??].
  - rewrite H2, Hn, lookup_insert_eq. eexists. split; [done|].
    unfold recorded, completed_run, encode_meta. simpl. rewrite lookup_fmap, lookup_insert_eq. by eexists.
Qed.

(** C25. Under snapshot isolation a run's outcome is applied at most once: after the
    commit of a completion that was applied, and as long as the run is kept, no
    completion of it that commits is applied, whichever state its transaction has
    read and whatever else commits in between. *)
Theorem mongo_completion_at_most_once db0 now1 x1 c1 snap1 res1 W1 new1 s0 s1 l1 l2
    now2 x2 c2 snap2 res2 W2 new2 cur past next :
  history db0 (l2 ++ s1 :: s0 :: l1)%list → snap1 ∈ s0 :: l1 →
  CompleteRun ts_le now1 x1 c1 (cdb snap1) = Ok (res1, W1, new1) → Applied res1 = true →
  commit snap1 W1 new1 s0 = Some s1 →
  (∀ s, s ∈ l2 → is_Some (runs (cdb s) !! CRunID c1)) →
  (l2 ++ s1 :: s0 :: l1)%list = cur :: past → snap2 ∈ cur :: past →
  CompleteRun ts_le now2 x2 c2 (cdb snap2) = Ok (res2, W2, new2) → CRunID c2 = CRunID c1 →
  commit snap2 W2 new2 cur = Some next → Applied res2 = false.
Proof.
  intros H Hs1 Hx1 Ha1 Hc1 Hk E Hs2 Hx2 Hid Hc2. apply not_true_is_false. intros Ha2.
  assert (H0 : history db0 (s0 :: l1)).
  { clear -H. induction l2 as [|s l2 IH]; simpl in H.
    - by inversion H.
    - inversion H; [by destruct l2|]. apply IH. by rewrite <- H1. }
  destruct (applied_records _ _ _ _ _ _ _ _ _ _ _ H0 Hs1 Hx1 Hc1 Ha1) as [_ Hm].
  destruct (recorded_along db0 (CRunID c1) l2 s1 (s0 :: l1) H Hk Hm cur past E) as (r&Hr&Hrec).
  rewrite E in H. destruct (applied_records _ _ _ _ _ _ _ _ _ _ _ H Hs2 Hx2 Hc2 Ha2) as [(r'&Hr'&Hn) _].
  rewrite Hid in Hr'. simplify_eq. done.
Qed.

(** A checkpoint bound to an attempt is written or deleted only while the run
    is in flight on that attempt and thread: the run's document in the state the
    commit replaces, not only in the one the transaction read, passes the check. *)
Theorem mongo_checkpoint_fenced db0 now x b id data fw im cur past snap W new next p :
  history db0 (cur :: past) → snap ∈ cur :: past →
  p = OpPutBound now x b id data fw im ∨ p = OpDelBound x b id →
  exec ts_le p (cdb snap) = Ok (W, new) → commit snap W new cur = Some next →
  ∃ r, runs (cdb cur) !! BRunID b = Some r ∧ visible x (r_tenant r) = true ∧
    CheckRunCheckpointBinding (r_thread r) (r_status r) (bsonToMap (r_meta r)) b = None ∧
    runs (cdb next) !! BRunID b = Some r.
Proof.
  intros H Hs Hp Hx Hc. destruct (commit_current _ _ _ _ _ _ _ _ H Hs Hc) as [Hin _].
  assert (∃ A (rest : body A), forget (_ <~~ lockCheckpointRun x b ;; rest) (cdb snap) = Ok (W, new) ∧ quiet rest)
    as (A&rest&[a Hb]%forget_ok&Hq).
  { destruct Hp as [-> | ->]; cbn [exec] in Hx.
    - eexists _, _. split; [exact Hx|]. unfold PutOpaqueCheckpoint, withThread. auto with mongo.
    - eexists _, _. split; [exact Hx|]. auto with mongo. }
  apply bbind_ok in Hb as (u&W1&db1&W2&Hl&Hr&->). assert (Hq1 : runs new = runs db1) by (by eapply Hq).
  unfold lockCheckpointRun, bwrite in Hl. destruct (find_run x (BRunID b) (cdb snap)) as [r|] eqn:Hf; [|done].
  destruct (CheckRunCheckpointBinding _ _ _ _) eqn:Hck; [done|]. simplify_eq.
  destruct (Hin (DRun (BRunID b)) ltac:(set_solver)) as [H1 H2]. simpl in H1, H2.
  apply find_run_Some in Hf as [Hf Hv]. exists r. rewrite <- H1, H2, Hq1. done.
Qed.
End concurrent.

(** * Admission over MongoDB
    The lock document a capped creation touches makes two creations of one tenant
    conflict, so the number of active runs a transaction has counted is never
    exceeded when it commits.  *)

From S2P Require Import StoreSteps StoreSafety Mongo.
Local Open Scope string_scope.
Local Open Scope Z_scope.
Local Open Scope go_scope.

(** ** Counting *)

Lemma terminal_not_active st : TerminalRunStatus st = true → active st = false.
Proof. intros H. apply not_true_is_false. intros E. by apply (active_not_terminal st). Qed.

(** Caps that pass have found fewer active runs than the tenant's. *)
Lemma evaluate_tenant (cA : string → tx Z) (cS : Z → string → tx Z) wall c agentID n db r :
  EvaluateRunAdmission cA cS wall (Some c) agentID n db = Ok r → 0 < TenantConcurrent c →
  ∃ m n' db', cA "" n db = Ok (m, n', db') ∧ m < TenantConcurrent c.
Proof.
  unfold EvaluateRunAdmission. intros H Hc. assert (Hen : Enabled (Some c) = true) by (unfold Enabled; by rewrite (proj2 (Z.ltb_lt 0 _) Hc)).
  rewrite Hen in H. cbn [negb] in H. destruct r as [[u n1] db1]. apply tbind_ok in H as (u1&n2&db2&H&_).
  unfold check_cap in H. rewrite (proj2 (Z.ltb_lt 0 _) Hc) in H. apply tbind_ok in H as (m&n3&db3&Hm&H).
  destruct (TenantConcurrent c <=? m) eqn:E; [done|]. apply Z.leb_gt in E. by exists m, n3, db3.
Qed.

(** ** The ceiling of a tenant *)
Section ceiling.
Variable ts_le : Z → Z → bool.
Context (tenant : string) (limit : Z) (Hlimit : 0 < limit).

(** The runs of the tenant that count. *)
Definition counted (r : run_row) : bool := active (r_status r) && String.eqb (r_tenant r) tenant.
Definition counts (db : DB) : Z := count_active tenant "" (runs db).

(** Every status is an active or a final one. *)
Definition known (db : DB) : Prop :=
  map_Forall (λ _ r, active (r_status r) || TerminalRunStatus (r_status r) = true) (runs db).

(** Creations of the tenant carry the cap and make active runs; a status written
    directly is final. *)
Definition disciplined (p : op) : Prop :=
  match p with
  | OpCreate _ x run caps =>
      active (Status run) = true ∧
      (FromContext x = tenant → ∃ c, caps = Some c ∧ TenantConcurrent c = limit)
  | OpStatus _ _ _ st _ _ => TerminalRunStatus st = true
  | _ => True
  end.

(** The creations the cap is about. *)
Definition creation (p : op) : Prop :=
  match p with OpCreate _ x _ _ => FromContext x = tenant | _ => False end.

#[local] Instance creation_dec p : Decision (creation p).
Proof. destruct p; simpl; apply _. Defined.

(** The operations of the system, disciplined. *)
Definition capped_op : Type := { p : op | disciplined p }.
Definition capped_exec (p : capped_op) : DB → res err (list doc * DB) := exec ts_le (proj1_sig p).
Notation chistory := (history capped_exec).

Lemma capped_history db0 l : chistory db0 l → history (exec ts_le) db0 l.
Proof. induction 1; [constructor|by econstructor]. Qed.

Lemma counted_write id r p r' :
  run_write id r p (Some r') → disciplined p → ¬ creation p →
  (∀ r0, r = Some r0 → active (r_status r0) || TerminalRunStatus (r_status r0) = true) →
  counted r' = true → ∃ r0, r = Some r0 ∧ counted r0 = true.
Proof.
  intros Hw Hd Hnc Hk Hc. unfold counted in *. rewrite andb_true_iff, String.eqb_eq in Hc. destruct Hc as [Ha Ht].
  inversion Hw as [|wall x run caps|wall now x run caps r1 ? ? Hst|now x g r0 ? Hter|now x c0 r0 ? ? ? ? ? Happ
                  |now x st out msg r0|now x msg r0 ? Hact|]; subst.
  - exists r'. by rewrite Ha, Ht, String.eqb_refl.
  - by destruct Hnc.
  - by rewrite Hst in Ha.
  - exists r0. simpl in *. specialize (Hk r0 eq_refl). rewrite Hter, orb_false_r in Hk.
    by rewrite Hk, Ht, String.eqb_refl.
  - apply CheckCompletion_applied in Happ as (Hter&_). simpl in Ha. by rewrite (terminal_not_active _ Hter) in Ha.
  - simpl in *. by rewrite (terminal_not_active _ Hd) in Ha.
  - done.
Qed.

Lemma known_write id r p r' :
  run_write id r p (Some r') → disciplined p →
  (∀ r0, r = Some r0 → active (r_status r0) || TerminalRunStatus (r_status r0) = true) →
  active (r_status r') || TerminalRunStatus (r_status r') = true.
Proof.
  intros Hw Hd Hk.
  inversion Hw as [|wall x run caps|wall now x run caps r1 ? ? Hst|now x g r0 ? Hter|now x c0 r0 ? ? ? ? ? Happ
                  |now x st out msg r0|now x msg r0 ? Hact|]; subst; simpl in *.
  - by apply Hk.
  - by destruct Hd as [-> _].
  - by rewrite Hst.
  - done.
  - apply CheckCompletion_applied in Happ as (->&_). apply orb_true_r.
  - rewrite Hd. apply orb_true_r.
  - done.
Qed.

Lemma counts_spec db : counts db = count_runs (λ _ r, counted r) (runs db).
Proof.
  unfold counts, count_active, count_runs, counted, agent_filter. do 2 f_equal.
  apply map_filter_ext. intros i r _. simpl. by rewrite andb_true_r.
Qed.

(** One commit: known statuses stay known; only a creation raises the count, by
    one, and it has counted less than the limit and touched the lock. *)
Lemma commit_counts db0 (p : capped_op) cur past snap W new next :
  chistory db0 (cur :: past) → snap ∈ cur :: past → capped_exec p (cdb snap) = Ok (W, new) →
  commit snap W new cur = Some next → known (cdb snap) → known (cdb cur) →
  known (cdb next) ∧
  (if decide (creation (proj1_sig p))
   then counts (cdb next) ≤ counts (cdb cur) + 1 ∧ counts (cdb snap) < limit ∧ DLock ("t:" +:+ tenant) ∈ W
   else counts (cdb next) ≤ counts (cdb cur)).
Proof using Hlimit.
  intros H%capped_history Hs Hx Hc Hks Hkc. destruct p as [p Hd]. unfold capped_exec in Hx. simpl in *.
  assert (Hw := λ id, commit_run_write ts_le db0 p cur past snap W new next id H Hs Hx Hc).
  split.
  - intros id r' Hr'. specialize (Hw id). rewrite Hr' in Hw. eapply known_write; [done|done|]. intros r0. apply (Hkc id).
  - rewrite !counts_spec. case_decide as Hcr.
    + destruct p; try done. simpl in Hcr, Hd.
      destruct Hd as [_ (c&->&Hlim)]; [done|]. cbn [exec] in Hx. apply forget_ok in Hx as [[] Hx].
      apply create_runs in Hx as (_&db1&W1&W2&_&->&Hlock&(dbe&Hev&Hre)&_).
      assert (Hen : Enabled (Some c) = true) by (unfold Enabled; rewrite Hlim, (proj2 (Z.ltb_lt 0 limit) Hlimit); done).
      split_and!.
      * apply (count_runs_add _ _ _ (RunID run)). intros id r' Hne Hr' Hct. specialize (Hw id). rewrite Hr' in Hw.
        inversion Hw as [|? ? ? ? ? Heq| | | | | |]; subst; [by eexists|done].
      * rewrite <- (counts_spec (cdb snap)). unfold evaluate in Hev. apply bread_ok in Hev as (Hev&_&_).
        destruct (EvaluateRunAdmission _ _ _ _ _ _ _) as [[[u n] db']|] eqn:He; [|done].
        apply evaluate_tenant in He as (m&n'&db2&Hm&Hlt); [|by rewrite Hlim].
        unfold countActive in Hm. simplify_eq. rewrite Hre, Hcr in Hlt. exact Hlt.
      * apply elem_of_app. left. rewrite <- Hcr. apply Hlock. unfold tenant_caps. rewrite Hen, Hlim.
        by rewrite (proj2 (Z.ltb_lt 0 limit) Hlimit).
    + apply count_runs_mono. intros id r' Hr' Hct. specialize (Hw id). rewrite Hr' in Hw.
      eapply counted_write; [done|done|done| |done]. intros r0. apply (Hkc id).
Qed.

Lemma known_along db0 l : known db0 → chistory db0 l → ∀ s, s ∈ l → known (cdb s).
Proof using Hlimit.
  intros H0 H. induction H as [|p cur past snap W new next H IH Hs Hx Hc]; intros s Hin.
  - assert (s = mkCluster db0 (λ _, 0%nat) 0) as -> by set_solver. done.
  - apply elem_of_cons in Hin as [->|Hin]; [|by apply IH].
    by destruct (commit_counts _ _ _ _ _ _ _ _ H Hs Hx Hc (IH _ Hs) (IH cur ltac:(left))).
Qed.

(** While the lock has not been touched since a state, the count has not risen. *)
Lemma counts_since db0 cur past : known db0 → chistory db0 (cur :: past) →
  ∀ snap, snap ∈ cur :: past → (mtime cur (DLock ("t:" +:+ tenant)) ≤ ticks snap)%nat → counts (cdb cur) ≤ counts (cdb snap).
Proof using Hlimit.
  intros H0 H. remember (cur :: past) as l eqn:E. revert cur past E.
  induction H as [|p cur past s0 W new next H IH Hs0 Hx Hc]; intros cur' past' [= <- <-] snap Hs Hm.
  - assert (snap = mkCluster db0 (λ _, 0%nat) 0) as -> by set_solver. done.
  - apply elem_of_cons in Hs as [->|Hs]; [done|].
    destruct (commit_counts _ _ _ _ _ _ _ _ H Hs0 Hx Hc (known_along _ _ H0 H _ Hs0) (known_along _ _ H0 H cur ltac:(left)))
      as [_ Hcnt].
    pose proof (proj1 (history_doc _ _ _ _ (capped_history _ _ H) snap Hs)) as Ht.
    unfold commit in Hc. destruct (forallb _ W); [|done]. injection Hc as <-. simpl in *.
    destruct (written W (DLock ("t:" +:+ tenant))) eqn:HW; [lia|].
    case_decide; [|etrans; [exact Hcnt|by eapply IH]].
    destruct Hcnt as (_&_&HL%written_in). congruence.
Qed.

(** C26. A tenant never has more active runs than its cap, in any state of any
    history of overlapping transactions, when its creations carry the cap: a
    creation that commits has counted fewer, and the lock document it touches
    rules out another creation since it counted. *)
Theorem mongo_admission_ceiling db0 l :
  known db0 → counts db0 ≤ limit → chistory db0 l → ∀ s, s ∈ l → counts (cdb s) ≤ limit.
Proof using Hlimit.
  intros Hk H0 H. induction H as [|p cur past snap W new next H IH Hs Hx Hc]; intros s Hin.
  - assert (s = mkCluster db0 (λ _, 0%nat) 0) as -> by set_solver. done.
  - apply elem_of_cons in Hin as [->|Hin]; [|by apply IH].
    destruct (commit_counts _ _ _ _ _ _ _ _ H Hs Hx Hc (known_along _ _ Hk H _ Hs) (known_along _ _ Hk H cur ltac:(left)))
      as [_ Hcnt].
    specialize (IH cur ltac:(left)). case_decide; [|lia]. destruct Hcnt as (Hle&Hlt&HW).
    assert (counts (cdb cur) ≤ counts (cdb snap)); [|lia]. eapply counts_since; [done|done|done|].
    unfold commit in Hc. destruct (forallb _ W) eqn:Hfw; [|done]. rewrite forallb_forall in Hfw.
    apply Nat.leb_le, Hfw. by apply list_elem_of_In.
Qed.
End ceiling.

(** * Concrete histories of the MongoDB store *)

Local Open Scope string_scope.
Local Open Scope Z_scope.

Definition spec0 : run_spec := mkSpec "" "" None None 0.
Definition running_on (g : Z) : run_row :=
  mkRun "default" "t" "a" RunStatusRunning (encode_meta {[AttemptGenerationKey := AInt64 g]}) ColEmpty "" 0 0 spec0.
Definition thread_in (status : string) : thread_row := mkThread "default" status ColNull 1 0 ColNull 0.

(** One run, or two, in flight on a busy thread. *)
Definition one_run : DB := mkDB {["r" := running_on 1]} {["t" := thread_in ThreadStatusBusy]} ∅ ∅.
Definition two_runs : DB :=
  mkDB {["r" := running_on 1; "s" := running_on 1]} {["t" := thread_in ThreadStatusBusy]} ∅ ∅.

Definition start (db : DB) : cluster := mkCluster db (λ _, 0%nat) 0.

Definition failed_with (id : string) : RunCompletion := mkCompletion false None "" false id 1 RunStatusError "boom" None.
Definition done_with (id : string) : RunCompletion := mkCompletion false None "" false id 1 RunStatusSuccess "" (Some ∅).

(** The parts of a completion that runs on a state, and the state its commit
    leaves. *)
Definition completion (c : RunCompletion) (db : DB) : CompletionResult * list doc * DB :=
  match CompleteRun Z.leb 5 background c db with Ok r => r | Err _ => (no_result, [], db) end.
Definition after_completion (c : RunCompletion) (snap cur : cluster) : cluster :=
  match commit snap (completion c (cdb snap)).1.2 (completion c (cdb snap)).2 cur with Some s => s | None => cur end.

Definition s_fail : cluster := after_completion (failed_with "r") (start one_run) (start one_run).

Lemma completion_runs c db : is_ok (CompleteRun Z.leb 5 background c db) = true →
  CompleteRun Z.leb 5 background c db = Ok ((completion c db).1.1, (completion c db).1.2, (completion c db).2).
Proof. unfold completion. by destruct (CompleteRun _ _ _ c db) as [[[??]?]|]. Qed.

Lemma completion_step db0 c snap cur past next :
  history (exec Z.leb) db0 (cur :: past) → snap ∈ cur :: past →
  is_ok (CompleteRun Z.leb 5 background c (cdb snap)) = true →
  commit snap (completion c (cdb snap)).1.2 (completion c (cdb snap)).2 cur = Some next →
  history (exec Z.leb) db0 (next :: cur :: past).
Proof.
  intros H Hs Hok Hc. eapply (h_commit _ _ (OpComplete 5 background c)); [exact H|exact Hs| |exact Hc].
  apply forget_ok. eexists. by apply completion_runs.
Qed.

Lemma fail_commits :
  commit (start one_run) (completion (failed_with "r") one_run).1.2 (completion (failed_with "r") one_run).2 (start one_run)
  = Some s_fail.
Proof. reflexivity. Qed.

Lemma fail_history : history (exec Z.leb) one_run [s_fail; start one_run].
Proof.
  apply (completion_step one_run (failed_with "r") (start one_run) (start one_run) [] s_fail);
    [apply h_start|left|vm_compute; reflexivity|exact fail_commits].
Qed.

(** A runner's late success, read before the failure, commits nothing. *)
Lemma mongo_completion_at_most_once_witness : Applied (completion (done_with "r") (cdb s_fail)).1.1 = false.
Proof.
  apply (mongo_completion_at_most_once Z.leb one_run 5 background (failed_with "r") (start one_run)
           (completion (failed_with "r") one_run).1.1 (completion (failed_with "r") one_run).1.2
           (completion (failed_with "r") one_run).2 (start one_run) s_fail [] [] 5 background (done_with "r") s_fail
           (completion (done_with "r") (cdb s_fail)).1.1 (completion (done_with "r") (cdb s_fail)).1.2
           (completion (done_with "r") (cdb s_fail)).2 s_fail [start one_run]
           (after_completion (done_with "r") s_fail s_fail)).
  - exact fail_history.
  - left.
  - apply completion_runs. vm_compute. reflexivity.
  - vm_compute. reflexivity.
  - exact fail_commits.
  - intros s Hs. by apply not_elem_of_nil in Hs.
  - reflexivity.
  - left.
  - apply completion_runs. vm_compute. reflexivity.
  - reflexivity.
  - reflexivity.
Defined.

(** A checkpoint of the attempt in flight. *)
Definition bound1 : RunCheckpointBinding := mkBinding "r" 1 "t".
Definition put1 : op := OpPutBound 6 background bound1 "k" [] "lg" None.
Definition put_parts (db : DB) : list doc * DB := match exec Z.leb put1 db with Ok r => r | Err _ => ([], db) end.

Lemma mongo_checkpoint_fenced_witness :
  ∃ r, runs one_run !! "r" = Some r ∧ visible background (r_tenant r) = true ∧
    CheckRunCheckpointBinding (r_thread r) (r_status r) (bsonToMap (r_meta r)) bound1 = None ∧
    runs (foldl (copy (put_parts one_run).2) one_run (put_parts one_run).1) !! "r" = Some r.
Proof.
  apply (mongo_checkpoint_fenced Z.leb one_run 6 background bound1 "k" [] "lg" None (start one_run) [] (start one_run)
           (put_parts one_run).1 (put_parts one_run).2
           (mkCluster (foldl (copy (put_parts one_run).2) one_run (put_parts one_run).1)
              (λ d, if written (put_parts one_run).1 d then 1%nat else 0%nat) 1) put1).
  - apply h_start.
  - left.
  - by left.
  - unfold put_parts. change (cdb (start one_run)) with one_run.
    assert (Hok : is_ok (exec Z.leb put1 one_run) = true) by (vm_compute; reflexivity).
    destruct (exec Z.leb put1 one_run) as [[W new]|]; [reflexivity|discriminate].
  - reflexivity.
Defined.

(** A creation under a cap of two, from a state with one active run. *)
Definition run_s : Run := mkRunReq "s" "t" "a" RunStatusPending None ColEmpty 0 0 spec0.
Definition caps2 : RunAdmissionCaps := mkCaps 2 0 0 0 None.

Lemma create_disciplined : disciplined "default" 2 (OpCreate 0 background run_s (Some caps2)).
Proof. split; [reflexivity|]. intros _. by exists caps2. Qed.

Definition create_s : capped_op "default" 2 := exist _ _ create_disciplined.
Definition created_parts : list doc * DB :=
  match capped_exec Z.leb "default" 2 create_s one_run with Ok r => r | Err _ => ([], one_run) end.
Definition s_created : cluster :=
  match commit (start one_run) created_parts.1 created_parts.2 (start one_run) with Some s => s | None => start one_run end.

Lemma created_history : history (capped_exec Z.leb "default" 2) one_run [s_created; start one_run].
Proof.
  eapply (h_commit _ _ create_s _ _ (start one_run) created_parts.1 created_parts.2); [apply h_start|left| |reflexivity].
  unfold created_parts. change (cdb (start one_run)) with one_run.
  assert (Hok : is_ok (capped_exec Z.leb "default" 2 create_s one_run) = true) by (vm_compute; reflexivity).
  destruct (capped_exec Z.leb "default" 2 create_s one_run) as [[W new]|]; [reflexivity|discriminate].
Qed.

Lemma one_run_known : known one_run.
Proof. apply map_Forall_singleton. reflexivity. Qed.

Lemma mongo_admission_ceiling_witness : counts "default" (cdb s_created) = 2 ∧ counts "default" (cdb s_created) ≤ 2.
Proof.
  split; [vm_compute; reflexivity|].
  apply (mongo_admission_ceiling Z.leb "default" 2 ltac:(reflexivity) one_run [s_created; start one_run]).
  - exact one_run_known.
  - vm_compute. discriminate.
  - exact created_history.
  - left.
Defined.

(** ** What is only read may be stale *)

Definition s_first : cluster := after_completion (failed_with "r") (start two_runs) (start two_runs).
Definition s_second : cluster := after_completion (failed_with "s") (start two_runs) s_first.

(** Two runs in flight on one thread fail at the same time.  Each transaction
    counts the other's run as active and leaves the thread to it; they write no
    common document, so both commit, and the thread stays busy with no run left
    to release it. *)
Theorem mongo_release_write_skew :
  history (exec Z.leb) two_runs [s_second; s_first; start two_runs] ∧
  (r_status <$> runs (cdb s_second) !! "r") = Some RunStatusError ∧
  (r_status <$> runs (cdb s_second) !! "s") = Some RunStatusError ∧
  (t_status <$> threads (cdb s_second) !! "t") = Some ThreadStatusBusy.
Proof.
  split; [|vm_compute; repeat split].
  apply (completion_step two_runs (failed_with "s") (start two_runs) s_first [start two_runs] s_second);
    [|set_solver|vm_compute; reflexivity|reflexivity].
  apply (completion_step two_runs (failed_with "r") (start two_runs) (start two_runs) [] s_first); [apply h_start|left|vm_compute; reflexivity|reflexivity].
Qed.
