(* ===== verification/SqlLocks.v ===== *)
(** * Run creation on PostgreSQL and MySQL

    Models [internal/state/postgres/admission_create.go] and
    [internal/state/mysql/admission_create.go]: [CreateRunAdmitted] by several
    control planes at once.  Unlike SQLite, whose transactions run one at a time,
    these servers interleave the statements of transactions: what a creation has
    counted stays true until it commits because of the named locks it holds
    (advisory locks of the transaction, or [GET_LOCK] of the connection).

    A session executes one statement per step.  A count sees the committed rows
    at that moment (read committed), or on MySQL those at the transaction's first
    plain read (repeatable read); [SELECT ... FOR UPDATE] locks its row until the
    transaction ends.  Creations of cached results, which also claim the thread,
    are not part of this model. *)

From Stdlib Require Import Ascii String.
From S2P Require Import Prelude GoAny Completion Store StoreOps.
Local Open Scope string_scope.
Local Open Scope Z_scope.
Local Open Scope list_scope.

Inductive dialect := Postgres | MySQL.
#[export] Instance dialect_eq : EqDecision dialect. Proof. solve_decision. Defined.

(** ** Lock names *)

(** FNV-1a, 64 bits. *)
Fixpoint fnv64a (h : Z) (l : list ascii) : Z :=
  match l with
  | [] => h
  | c :: l => fnv64a (Z.lxor h (Z.of_N (N_of_ascii c)) * 1099511628211 mod 2 ^ 64) l
  end.

Definition int32 (z : Z) : Z := (z + 2 ^ 31) mod 2 ^ 32 - 2 ^ 31.

Definition advisoryPair (key : string) : Z * Z :=
  let v := fnv64a 14695981039346656037 (list_ascii_of_string key) in (int32 (Z.shiftr v 32), int32 v).

Notation lkey := (Z * Z + string)%type.

Definition tenant_lock (tid : string) : string := "rk:admit:t:" +:+ tid.
Definition agent_lock (tid agentID : string) : string := "rk:admit:a:" +:+ tid +:+ ":" +:+ agentID.

(** The scopes a creation locks, in order. *)
Definition scope_locks (tid agentID : string) (caps : option RunAdmissionCaps) : list string :=
  match caps with
  | Some c =>
      (if (0 <? TenantConcurrent c) || (0 <? TenantDaily c) then [tenant_lock tid] else [])
      ++ (if (0 <? AgentConcurrent c) || (0 <? AgentDaily c) then [agent_lock tid agentID] else [])
  | None => []
  end.

(** ** Counting *)

(** [metadata->>'simulation'] is the text true. *)
Definition text_simulation (c : column) : bool :=
  match c with
  | ColObj m => match m !! "simulation" with Some (ABool b) => b | Some (AStr s) => String.eqb s "true" | _ => false end
  | _ => false
  end.

Definition count_day (since : Z) (tid agentID : string) (m : gmap string run_row) : Z :=
  count_runs (λ _ r, (since <=? r_created r) && String.eqb (r_tenant r) tid && negb (text_simulation (r_meta r)) && agent_filter agentID r) m.

(** Check number [k] of [EvaluateRunAdmission]: its limit, and its count. *)
Definition cap_limit (k : nat) (c : RunAdmissionCaps) : Z :=
  match k with 0%nat => TenantConcurrent c | 1%nat => AgentConcurrent c | 2%nat => TenantDaily c | _ => AgentDaily c end.
Definition cap_count (k : nat) (wall : Z) (c : RunAdmissionCaps) (tid agentID : string) (m : gmap string run_row) : Z :=
  match k with
  | 0%nat => count_active tid "" m
  | 1%nat => count_active tid agentID m
  | 2%nat => count_day (DayStart wall c) tid "" m
  | _ => count_day (DayStart wall c) tid agentID m
  end.

(** ** Sessions *)

Inductive lpc :=
| Naming (rest : list string)               (* the named locks still to take *)
| AtThread                                  (* SELECT status FROM threads ... FOR UPDATE *)
| AtCount (k : nat)                         (* the checks, 0 to 3 *)
| AtInsert
| AtCommit (row : run_row)                  (* the uncommitted row *)
| AtRelease (rest : list string) (ok : bool)  (* MySQL: the deferred RELEASE_LOCKs *)
| Over (ok : bool).

Record session := mkSession {
  s_ctx : ctx;
  s_run : Run;
  s_caps : option RunAdmissionCaps;
  s_wall : Z;
  s_pc : lpc;
  s_snap : option (gmap string run_row)     (* the runs of the transaction's snapshot *)
}.

Record LockServer := mkServer {
  ls_db : DB;                               (* committed *)
  ls_named : gmap lkey nat;                 (* named locks, by session *)
  ls_rows : gmap string nat;                (* locked thread rows *)
  ls_sessions : list session
}.

Definition s_tid (s : session) : string := FromContext (s_ctx s).
Definition s_locks (s : session) : list string := scope_locks (s_tid s) (AgentID (s_run s)) (s_caps s).

Definition goto (pc : lpc) (s : session) : session := mkSession (s_ctx s) (s_run s) (s_caps s) (s_wall s) pc (s_snap s).
Definition seen (m : gmap string run_row) (s : session) : session :=
  mkSession (s_ctx s) (s_run s) (s_caps s) (s_wall s) (s_pc s) (Some m).

Section server.
Variable d : dialect.
(** How MySQL identifies lock names, and their greatest length. *)
Variable server_name : string → string.
Variable name_max : nat.
(** What the time columns keep of an instant. *)
Variable stamp : Z → Z.

Definition lock_of (name : string) : lkey :=
  match d with Postgres => inl (advisoryPair name) | MySQL => inr (server_name name) end.

Definition put (i : nat) (s : session) (w : LockServer) : LockServer :=
  mkServer (ls_db w) (ls_named w) (ls_rows w) (<[i := s]> (ls_sessions w)).

Definition free_named (i : nat) (w : LockServer) : LockServer :=
  mkServer (ls_db w) (filter (λ kl, kl.2 ≠ i) (ls_named w)) (ls_rows w) (ls_sessions w).
Definition free_rows (i : nat) (w : LockServer) : LockServer :=
  mkServer (ls_db w) (ls_named w) (filter (λ kl, kl.2 ≠ i) (ls_rows w)) (ls_sessions w).

(** The transaction ends: its row locks go, and its advisory locks; [GET_LOCK]s are
    released by the deferred calls, the last one taken first. *)
Definition end_tx (i : nat) (s : session) (ok : bool) (w : LockServer) : LockServer :=
  match d with
  | Postgres => put i (goto (Over ok) s) (free_named i (free_rows i w))
  | MySQL => put i (goto (AtRelease (reverse (s_locks s)) ok) s) (free_rows i w)
  end.

(** The connection is lost: the server rolls back and frees everything. *)
Definition disconnect (i : nat) (s : session) (w : LockServer) : LockServer :=
  let ok := match s_pc s with AtRelease _ ok | Over ok => ok | _ => false end in
  put i (goto (Over ok) s) (free_named i (free_rows i w)).

Definition available (k : lkey) (i : nat) (w : LockServer) : bool :=
  match ls_named w !! k with Some j => bool_decide (j = i) | None => true end.

(** [pgXactLock] and [mysqlGetLock]; a lock that another session holds makes the
    caller wait. *)
Definition take_lock (i : nat) (s : session) (name : string) (rest : list string) (w : LockServer) : LockServer :=
  if bool_decide (d = MySQL) && (name_max <? String.length name)%nat then
    put i (goto (AtRelease (reverse (s_locks s)) false) s) w
  else if available (lock_of name) i w then
    put i (goto (Naming rest) s) (mkServer (ls_db w) (<[lock_of name := i]> (ls_named w)) (ls_rows w) (ls_sessions w))
  else w.

(** [LockThread] *)
Definition lock_thread (i : nat) (s : session) (w : LockServer) : LockServer :=
  let th := ThreadID (s_run s) in
  match threads (ls_db w) !! th with
  | Some t =>
      if negb (String.eqb (t_tenant t) (s_tid s)) then end_tx i s false w
      else
        match ls_rows w !! th with
        | Some j => if bool_decide (j = i) then put i (goto (AtCount 0) s) w else w
        | None =>
            put i (goto (AtCount 0) s) (mkServer (ls_db w) (ls_named w) (<[th := i]> (ls_rows w)) (ls_sessions w))
        end
  | None => end_tx i s false w
  end.

(** The rows a plain read sees. *)
Definition view (s : session) (w : LockServer) : gmap string run_row :=
  match d with Postgres => runs (ls_db w) | MySQL => default (runs (ls_db w)) (s_snap s) end.

Definition next_check (k : nat) : lpc := if (k <? 3)%nat then AtCount (S k) else AtInsert.

Definition count_step (i : nat) (s : session) (k : nat) (w : LockServer) : LockServer :=
  match s_caps s with
  | Some c =>
      if 0 <? cap_limit k c then
        let m := view s w in
        if cap_limit k c <=? cap_count k (s_wall s) c (s_tid s) (AgentID (s_run s)) m then end_tx i s false w
        else put i (goto (next_check k) (seen m s)) w
      else put i (goto (next_check k) s) w
  | None => put i (goto (next_check k) s) w
  end.

Definition inserted (s : session) : run_row :=
  let run := s_run s in
  mkRun (s_tid s) (ThreadID run) (AgentID run) (Status run) (marshal_meta (Metadata run)) ColEmpty ""
    (stamp (CreatedAt run)) (stamp (UpdatedAt run)) (Spec run).

(** An uncommitted row of the same key makes an insert wait. *)
Definition key_pending (i : nat) (id : string) (w : LockServer) : bool :=
  existsb (λ js : nat * session, negb (js.1 =? i)%nat && String.eqb (RunID (s_run js.2)) id
                                 && match s_pc js.2 with AtCommit _ => true | _ => false end)
    (imap pair (ls_sessions w)).

Definition insert_step (i : nat) (s : session) (w : LockServer) : LockServer :=
  let id := RunID (s_run s) in
  match runs (ls_db w) !! id with
  | Some _ => end_tx i s false w                (* EConflict *)
  | None => if key_pending i id w then w else put i (goto (AtCommit (inserted s)) s) w
  end.

Definition commit_step (o : commit_outcome) (i : nat) (s : session) (row : run_row) (w : LockServer) : LockServer :=
  let w' := mkServer (set_runs (<[RunID (s_run s) := row]> (runs (ls_db w))) (ls_db w)) (ls_named w) (ls_rows w) (ls_sessions w) in
  match o with
  | CommitOk => end_tx i s true w'
  | CommitFailed => end_tx i s false w
  | CommitLost => end_tx i s false w'
  end.

(** One statement of session [i]; [fails] makes it fail. *)
Definition session_step (i : nat) (fails : bool) (co : commit_outcome) (w : LockServer) : LockServer :=
  match ls_sessions w !! i with
  | None => w
  | Some s =>
      match s_pc s with
      | Over _ => w
      | AtRelease [] ok => put i (goto (Over ok) s) w
      | AtRelease (name :: rest) ok =>
          put i (goto (AtRelease rest ok) s)
            (mkServer (ls_db w)
               (if available (lock_of name) i w then delete (lock_of name) (ls_named w) else ls_named w)
               (ls_rows w) (ls_sessions w))
      | AtCommit row => commit_step co i s row w
      | pc =>
          if fails then end_tx i s false w
          else match pc with
               | Naming [] => put i (goto AtThread s) w
               | Naming (name :: rest) => take_lock i s name rest w
               | AtThread => lock_thread i s w
               | AtCount k => count_step i s k w
               | _ => insert_step i s w
               end
      end
  end.

(** [CreateRunAdmitted]: a new session; [CreateRun] has no caps. *)
Definition CreateRunAdmitted (x : ctx) (run : Run) (caps : option RunAdmissionCaps) (wall : Z) (w : LockServer) : LockServer :=
  mkServer (ls_db w) (ls_named w) (ls_rows w)
    (ls_sessions w ++ [mkSession x run caps wall (Naming (scope_locks (FromContext x) (AgentID run) caps)) None]).

(** ** Histories *)

Inductive lact :=
| LCreate (x : ctx) (run : Run) (caps : option RunAdmissionCaps) (wall : Z)
| LStep (i : nat) (fails : bool) (co : commit_outcome)
| LDisconnect (i : nat)
| LOther (db' : DB).          (* another transaction commits *)

Definition lstep (w : LockServer) (a : lact) : LockServer :=
  match a with
  | LCreate x run caps wall => CreateRunAdmitted x run caps wall w
  | LStep i fails co => session_step i fails co w
  | LDisconnect i => match ls_sessions w !! i with Some s => disconnect i s w | None => w end
  | LOther db' => mkServer db' (ls_named w) (ls_rows w) (ls_sessions w)
  end.
End server.

(** * Admission on PostgreSQL and MySQL
    The ceiling of a tenant holds in every state the servers reach, although the
    statements of several creations interleave: the session that counts holds the
    tenant's lock until its row is committed.  *)

From S2P Require Import StoreSteps StoreSafety.
Local Open Scope string_scope.
Local Open Scope Z_scope.
Local Open Scope list_scope.

Section ceiling.
Context (d : dialect) (server_name : string → string) (name_max : nat) (stamp : Z → Z).
Context (tenant : string) (limit : Z).

Notation lstep := (lstep d server_name name_max stamp).
Notation lock_of := (lock_of d server_name).
Notation end_tx := (end_tx d).

Definition counted_run (_ : string) (r : run_row) : bool := active (r_status r) && String.eqb (r_tenant r) tenant.
Definition active_runs (m : gmap string run_row) : Z := count_runs counted_run m.

Lemma count_active_tenant m : count_active tenant "" m = active_runs m.
Proof.
  unfold count_active, active_runs, count_runs, counted_run, agent_filter. do 2 f_equal.
  apply map_filter_ext. intros i r _. simpl. by rewrite andb_true_r.
Qed.

(** ** Histories *)

(** Creations of the tenant carry a cap within the limit; no other transaction adds an
    active run, or changes a thread row that is locked. *)
Definition allowed (w : LockServer) (a : lact) : Prop :=
  match a with
  | LCreate x run caps _ => FromContext x = tenant → ∃ c, caps = Some c ∧ 0 < TenantConcurrent c ≤ limit
  | LOther db' =>
      (∀ id r', runs db' !! id = Some r' → counted_run id r' = true → ∃ r, runs (ls_db w) !! id = Some r ∧ counted_run id r = true) ∧
      (∀ th i, ls_rows w !! th = Some i → threads db' !! th = threads (ls_db w) !! th)
  | _ => True
  end.

Inductive reaches (w0 : LockServer) : LockServer → Prop :=
| reaches_start : reaches w0 w0
| reaches_step w a : reaches w0 w → allowed w a → reaches w0 (lstep w a).

(** ** The invariant *)

Definition locked_pc (pc : lpc) : bool := match pc with AtThread | AtCount _ | AtInsert | AtCommit _ => true | _ => false end.
Definition counted_pc (pc : lpc) : bool := match pc with AtCount (S _) | AtInsert | AtCommit _ => true | _ => false end.
Definition fresh_pc (pc : lpc) : bool := match pc with Naming _ | AtThread | AtCount 0 => true | _ => false end.

Definition holds (named : gmap lkey nat) (i : nat) : Prop := named !! lock_of (tenant_lock tenant) = Some i.

Record capped (db : DB) (named : gmap lkey nat) (i : nat) (s : session) : Prop := {
  cp_caps : ∃ c, s_caps s = Some c ∧ 0 < TenantConcurrent c ≤ limit;
  cp_naming rest : s_pc s = Naming rest → tenant_lock tenant ∈ rest ∨ holds named i;
  cp_locked : locked_pc (s_pc s) = true → holds named i;
  cp_fresh : fresh_pc (s_pc s) = true → s_snap s = None;
  cp_counted : counted_pc (s_pc s) = true → active_runs (runs db) < limit
}.

Definition session_ok (db : DB) (named : gmap lkey nat) (i : nat) (s : session) : Prop :=
  (s_tid s = tenant → capped db named i s) ∧ (∀ row, s_pc s = AtCommit row → r_tenant row = s_tid s).

Record linv (w : LockServer) : Prop := {
  li_count : active_runs (runs (ls_db w)) ≤ limit;
  li_sessions i s : ls_sessions w !! i = Some s → session_ok (ls_db w) (ls_named w) i s
}.

(** What keeps the other sessions' facts: their locks stay, the count does not rise. *)
Lemma session_ok_keep db db' named named' i s :
  (holds named i → holds named' i) → active_runs (runs db') ≤ active_runs (runs db) →
  session_ok db named i s → session_ok db' named' i s.
Proof.
  intros Hl Hc [Hs Hr]. split; [|done]. intros Ht. destruct (Hs Ht) as [Hcap Hn Hlo Hf Hco].
  split; [done|intros rest Hp; destruct (Hn _ Hp); auto|auto|done|]. intros Hp. specialize (Hco Hp). lia.
Qed.

(** A step of session [i] that leaves the committed rows alone. *)
Lemma linv_put w i s0 s named rows : ls_sessions w !! i = Some s0 → linv w →
  (∀ j, j ≠ i → holds (ls_named w) j → holds named j) → session_ok (ls_db w) named i s →
  linv (put i s (mkServer (ls_db w) named rows (ls_sessions w))).
Proof.
  intros Hi [Hc Hs] Hl Ho. split; [done|]. simpl. intros j s' Hj. apply list_lookup_insert_Some in Hj as [(<-&<-&_)|[Hne Hj]]; [done|].
  eapply session_ok_keep; [by apply Hl|done|by apply Hs].
Qed.

Lemma linv_put_same w i s0 s : ls_sessions w !! i = Some s0 → linv w →
  session_ok (ls_db w) (ls_named w) i s → linv (put i s w).
Proof. intros Hi Hw Ho. by apply (linv_put w i s0 s (ls_named w) (ls_rows w)). Qed.

Lemma filter_holds (named : gmap lkey nat) i j : j ≠ i → holds named j → holds (filter (λ kl, kl.2 ≠ i) named) j.
Proof. intros Hne Hh. apply map_lookup_filter_Some. by split. Qed.

(** A session that only waits to be over keeps nothing but its cap. *)
Lemma idle_ok db named i s pc : (∃ db0 named0, session_ok db0 named0 i s) →
  locked_pc pc = false → fresh_pc pc = false → counted_pc pc = false → session_ok db named i (goto pc s).
Proof.
  intros (db0&named0&Hs&_) Hl Hf Hc. split.
  - intros Ht. destruct (Hs Ht) as [Hcap _ _ _ _]. split; simpl; [done|..]; try congruence. intros rest ->. done.
  - intros row. simpl. intros ->. done.
Qed.

Lemma linv_end_tx w i s ok : ls_sessions w !! i = Some s → linv w → linv (end_tx i s ok w).
Proof.
  intros Hi Hw. pose proof (li_sessions _ Hw _ _ Hi) as Hs. unfold end_tx. destruct d.
  - apply (linv_put w i s _ (filter (λ kl, kl.2 ≠ i) (ls_named w)) (filter (λ kl, kl.2 ≠ i) (ls_rows w))); [done|done|apply filter_holds|].
    apply idle_ok; [by eexists _, _|done..].
  - apply (linv_put w i s _ (ls_named w) (filter (λ kl, kl.2 ≠ i) (ls_rows w))); [done|done|done|].
    apply idle_ok; [by eexists _, _|done..].
Qed.

(** A session of the tenant moves on with its facts. *)
Lemma capped_goto db named i s pc snap : capped db named i s →
  (∀ rest, pc = Naming rest → tenant_lock tenant ∈ rest ∨ holds named i) →
  (locked_pc pc = true → holds named i) → (fresh_pc pc = true → snap = None) →
  (counted_pc pc = true → active_runs (runs db) < limit) →
  capped db named i (mkSession (s_ctx s) (s_run s) (s_caps s) (s_wall s) pc snap).
Proof. intros [Hcap _ _ _ _] ? ? ? ?. by split. Qed.

Lemma linv_disconnect w i s : ls_sessions w !! i = Some s → linv w → linv (disconnect i s w).
Proof.
  intros Hi Hw. pose proof (li_sessions _ Hw _ _ Hi) as Hs. unfold disconnect.
  apply (linv_put w i s _ (filter (λ kl, kl.2 ≠ i) (ls_named w)) (filter (λ kl, kl.2 ≠ i) (ls_rows w))); [done|done|apply filter_holds|].
  apply idle_ok; [by eexists _, _|done..].
Qed.

(** ** The statements *)

Lemma scope_locks_tenant agentID c : 0 < TenantConcurrent c → tenant_lock tenant ∈ scope_locks tenant agentID (Some c).
Proof. intros Hc. unfold scope_locks. rewrite (proj2 (Z.ltb_lt 0 _) Hc). simpl. left. Qed.

Lemma linv_create w x run caps wall : allowed w (LCreate x run caps wall) → linv w → linv (CreateRunAdmitted x run caps wall w).
Proof.
  intros Ha [Hc Hs]. split; [done|]. simpl. intros i s Hi. apply lookup_app_Some in Hi as [Hi|[_ Hi]]; [by apply Hs|].
  apply list_lookup_singleton_Some in Hi as [_ <-]. split; [|done]. intros Ht. simpl in *. unfold s_tid in Ht. simpl in Ht.
  destruct (Ha Ht) as (c&->&Hcap). split; simpl; [by exists c|..]; try done.
  intros rest [= <-]. left. rewrite Ht. apply scope_locks_tenant. lia.
Qed.

Lemma available_free (w : LockServer) k i : available k i w = true → ls_named w !! k = None ∨ ls_named w !! k = Some i.
Proof. unfold available. destruct (ls_named w !! k) as [j|]; [|by left]. intros ->%bool_decide_eq_true. by right. Qed.

Lemma linv_take_lock w i s name rest : ls_sessions w !! i = Some s → s_pc s = Naming (name :: rest) → linv w →
  linv (take_lock d server_name name_max i s name rest w).
Proof.
  intros Hi Hpc Hw. pose proof (li_sessions _ Hw _ _ Hi) as [Hs Hr]. unfold take_lock.
  destruct (_ && _); [eapply linv_put_same; [done|done|]; apply idle_ok; [by eexists _, _|done..]|].
  destruct (available _ i w) eqn:Hav; [|done]. apply available_free in Hav.
  eapply linv_put; [done|done| |].
  - intros j Hne Hj. unfold holds in *. destruct (decide (lock_of (tenant_lock tenant) = lock_of name)) as [E|E].
    + rewrite E in Hj. destruct Hav; congruence.
    + by rewrite lookup_insert_ne by done.
  - split; [|done]. intros Ht. destruct (Hs Ht) as [Hcap Hn Hlo Hf Hco]. split; simpl; try done; [|rewrite Hpc in Hf; auto].
    intros rest' [= <-]. destruct (Hn _ Hpc) as [[<-|Hin]%elem_of_cons|Hh]; [right; apply lookup_insert_eq|by left|right].
    unfold holds in *. destruct (decide (lock_of (tenant_lock tenant) = lock_of name)) as [E|E]; [rewrite E; apply lookup_insert_eq|].
    by rewrite lookup_insert_ne.
Qed.

Lemma linv_lock_thread w i s : ls_sessions w !! i = Some s → s_pc s = AtThread → linv w → linv (lock_thread d i s w).
Proof.
  intros Hi Hpc Hw. pose proof (li_sessions _ Hw _ _ Hi) as [Hs Hr]. unfold lock_thread.
  assert (Hgo : session_ok (ls_db w) (ls_named w) i (goto (AtCount 0) s)).
  { split; [|done]. intros Ht. destruct (Hs Ht) as [Hcap Hn Hlo Hf Hco]. rewrite Hpc in *. by split. }
  destruct (threads _ !! _) as [t|]; [|by apply linv_end_tx]. destruct (negb _); [by apply linv_end_tx|].
  destruct (ls_rows w !! _) as [j|].
  - destruct (bool_decide _); [by eapply linv_put_same|done].
  - by apply (linv_put w i s _ (ls_named w) (<[ThreadID (s_run s) := i]> (ls_rows w))).
Qed.

Lemma linv_count w i s k : ls_sessions w !! i = Some s → s_pc s = AtCount k → linv w → linv (count_step d i s k w).
Proof.
  intros Hi Hpc Hw. pose proof (li_sessions _ Hw _ _ Hi) as [Hs Hr].
  assert (Hgo : ∀ snap, (s_tid s = tenant → active_runs (runs (ls_db w)) < limit) →
    session_ok (ls_db w) (ls_named w) i (mkSession (s_ctx s) (s_run s) (s_caps s) (s_wall s) (next_check k) snap)).
  { intros snap Hlt. split; [|unfold next_check; by destruct (_ <? _)%nat]. intros Ht. destruct (Hs Ht) as [Hcap Hn Hlo Hf Hco]. rewrite Hpc in *.
    split; simpl; try done; unfold next_check; destruct (_ <? _)%nat; try done; by auto. }
  unfold count_step. destruct (s_caps s) as [c|] eqn:Hcaps.
  2: { eapply linv_put_same; [done|done|]. rewrite <- Hcaps in Hgo. apply Hgo. intros Ht. destruct (Hs Ht) as [(c&?&_) _ _ _ _]. congruence. }
  assert (Hcap : s_tid s = tenant → 0 < TenantConcurrent c ≤ limit).
  { intros Ht. destruct (Hs Ht) as [(c'&?&?) _ _ _ _]. congruence. }
  rewrite <- Hcaps in Hgo. destruct (Z.ltb_spec 0 (cap_limit k c)) as [Hpos|Hneg].
  - destruct (Z.leb_spec (cap_limit k c) (cap_count k (s_wall s) c (s_tid s) (AgentID (s_run s)) (view d s w))); [by apply linv_end_tx|].
    eapply linv_put_same; [done|done|]. apply Hgo. intros Ht. destruct k as [|k]; [|apply (cp_counted _ _ _ _ (Hs Ht)); by rewrite Hpc].
    specialize (Hcap Ht). simpl in *. replace (view d s w) with (runs (ls_db w)) in *; [rewrite Ht, count_active_tenant in *; lia|].
    unfold view. destruct d; [done|]. rewrite (cp_fresh _ _ _ _ (Hs Ht)); [done|by rewrite Hpc].
  - eapply linv_put_same; [done|done|]. apply Hgo. intros Ht. destruct k as [|k]; [|apply (cp_counted _ _ _ _ (Hs Ht)); by rewrite Hpc].
    simpl in *. specialize (Hcap Ht). lia.
Qed.

Lemma linv_insert w i s : ls_sessions w !! i = Some s → s_pc s = AtInsert → linv w → linv (insert_step d stamp i s w).
Proof.
  intros Hi Hpc Hw. pose proof (li_sessions _ Hw _ _ Hi) as [Hs Hr]. unfold insert_step.
  destruct (runs _ !! _); [by apply linv_end_tx|]. destruct (key_pending _ _ _); [done|]. eapply linv_put_same; [done|done|].
  split; [|by intros row [= <-]]. intros Ht. destruct (Hs Ht) as [Hcap Hn Hlo Hf Hco]. rewrite Hpc in *. by split.
Qed.

(** The commit of a row: the count rises only for the tenant's own session, which
    has counted, and then no other session has. *)
Lemma linv_commit_row w i s row : ls_sessions w !! i = Some s → s_pc s = AtCommit row → linv w → ∀ ok,
  linv (end_tx i s ok (mkServer (set_runs (<[RunID (s_run s) := row]> (runs (ls_db w))) (ls_db w)) (ls_named w) (ls_rows w) (ls_sessions w))).
Proof.
  intros Hi Hpc Hw ok. pose proof (li_sessions _ Hw _ _ Hi) as [Hs Hr]. specialize (Hr _ Hpc).
  set (db' := set_runs _ _).
  assert (Hcnt : (s_tid s = tenant ∧ active_runs (runs db') ≤ active_runs (runs (ls_db w)) + 1) ∨ active_runs (runs db') ≤ active_runs (runs (ls_db w))).
  { destruct (decide (s_tid s = tenant)) as [Ht|Ht]; [left|right].
    - split; [done|]. apply (count_runs_add _ _ _ (RunID (s_run s))). intros id r' Hne Hr' Hc. simpl in Hr'.
      rewrite lookup_insert_ne in Hr' by done. by eexists.
    - apply count_runs_mono. intros id r' Hr' Hc. simpl in Hr'. apply lookup_insert_Some in Hr' as [[_ <-]|[_ Hr']]; [|by eexists].
      unfold counted_run in Hc. rewrite Hr, andb_true_iff, String.eqb_eq in Hc. by destruct Hc. }
  assert (Hover : ∀ named pc, locked_pc pc = false → fresh_pc pc = false → counted_pc pc = false → session_ok db' named i (goto pc s)).
  { intros. apply idle_ok; [|done..]. exists (ls_db w), (ls_named w). by apply li_sessions. }
  assert (Hoth : ∀ j s' named, j ≠ i → ls_sessions w !! j = Some s' → (holds (ls_named w) j → holds named j) → session_ok db' named j s').
  { intros j s' named Hne Hj Hh. pose proof (li_sessions _ Hw _ _ Hj) as Hs'.
    destruct Hcnt as [[Ht Hc]|Hc]; [|by eapply session_ok_keep].
    destruct Hs' as [Hs' Hr']. split; [|done]. intros Ht'. destruct (Hs' Ht') as [Hcap Hn Hlo Hf Hco].
    split; [done|intros rest Hp; destruct (Hn _ Hp); auto|auto|done|]. intros Hp.
    assert (holds (ls_named w) i) as H1 by (apply (cp_locked _ _ _ _ (Hs Ht)); by rewrite Hpc).
    assert (holds (ls_named w) j) as H2 by (apply Hlo; by destruct (s_pc s') as [| |[]| | | |]). unfold holds in *. congruence. }
  assert (Hle : active_runs (runs db') ≤ limit).
  { pose proof (li_count _ Hw). destruct Hcnt as [[Ht Hc]|Hc]; [|lia]. pose proof (cp_counted _ _ _ _ (Hs Ht)) as Hlt. rewrite Hpc in Hlt.
    specialize (Hlt eq_refl). lia. }
  unfold end_tx. destruct d; (split; [done|]; simpl; intros j s' Hj; apply list_lookup_insert_Some in Hj as [(<-&<-&_)|[Hne Hj]];
    [by apply Hover|eapply Hoth; [done|done|]]); [by apply filter_holds|done].
Qed.

Lemma linv_release w i s name rest ok : ls_sessions w !! i = Some s → s_pc s = AtRelease (name :: rest) ok → linv w →
  linv (put i (goto (AtRelease rest ok) s)
    (mkServer (ls_db w) (if available (lock_of name) i w then delete (lock_of name) (ls_named w) else ls_named w) (ls_rows w) (ls_sessions w))).
Proof.
  intros Hi Hpc Hw. eapply linv_put; [done|done| |apply idle_ok; [|done..]; by eexists _, _; apply li_sessions].
  intros j Hne Hj. destruct (available _ i w) eqn:Hav; [|done]. apply available_free in Hav. unfold holds in *.
  destruct (decide (lock_of (tenant_lock tenant) = lock_of name)) as [E|E]; [rewrite E in Hj; destruct Hav; congruence|].
  by rewrite lookup_delete_ne.
Qed.

Lemma linv_session w i fails co : linv w → linv (session_step d server_name name_max stamp i fails co w).
Proof.
  intros Hw. unfold session_step. destruct (ls_sessions w !! i) as [s|] eqn:Hi; [|done].
  pose proof (li_sessions _ Hw _ _ Hi) as Hs. destruct (s_pc s) as [rest| |k| |row|rest ok|ok] eqn:Hpc.
  - destruct fails; [by apply linv_end_tx|]. destruct rest as [|name rest]; [|by apply linv_take_lock].
    eapply linv_put_same; [done|done|]. destruct Hs as [Hs Hr]. split; [|done]. intros Ht. destruct (Hs Ht) as [Hcap Hn Hlo Hf Hco].
    rewrite Hpc in *. split; simpl; try done. intros _. by destruct (Hn _ eq_refl) as [?%elem_of_nil|].
  - destruct fails; [by apply linv_end_tx|by apply linv_lock_thread].
  - destruct fails; [by apply linv_end_tx|by apply linv_count].
  - destruct fails; [by apply linv_end_tx|by apply linv_insert].
  - unfold commit_step. cbv zeta. destruct co; [by apply linv_commit_row|by apply linv_end_tx|by apply linv_commit_row].
  - destruct rest as [|name rest]; [|by apply linv_release]. eapply linv_put_same; [done|done|]. apply idle_ok; [by eexists _, _|done..].
  - done.
Qed.

Lemma linv_other w db' : allowed w (LOther db') → linv w → linv (lstep w (LOther db')).
Proof.
  intros [Hq _] [Hc Hs]. assert (active_runs (runs db') ≤ active_runs (runs (ls_db w))) by (by apply count_runs_mono).
  split; simpl; [lia|]. intros i s Hi. eapply session_ok_keep; [done|done|by apply Hs].
Qed.

Lemma linv_step w a : allowed w a → linv w → linv (lstep w a).
Proof.
  intros Ha Hw. destruct a as [x run caps wall|i fails co|i|db'].
  - by apply linv_create.
  - by apply linv_session.
  - simpl. destruct (ls_sessions w !! i) eqn:Hi; [by apply linv_disconnect|done].
  - by apply linv_other.
Qed.

Lemma reaches_inv w0 w : reaches w0 w → linv w0 → linv w.
Proof. intros Hr H0. induction Hr as [|w a Hr IH Ha]; [done|]. by apply linv_step. Qed.

(** C27. On PostgreSQL and on MySQL a tenant never has more active runs than its cap,
    in any state reached by creations whose statements interleave in any order,
    fail, or lose their connection or the reply of their commit, when the tenant's
    creations carry the cap: the session that has counted holds the tenant's lock
    until its row is committed. *)
Theorem locked_admission_ceiling db w : count_active tenant "" (runs db) ≤ limit →
  reaches (mkServer db ∅ ∅ []) w → count_active tenant "" (runs (ls_db w)) ≤ limit.
Proof.
  rewrite !count_active_tenant. intros H0 Hr. apply (li_count w), (reaches_inv _ _ Hr). by split.
Qed.
End ceiling.

(** ** The other transactions *)

(** A call of the store that creates no run is such a transaction: after it, every
    active run of the tenant was one before. *)
Theorem other_calls_quiet validate ts_le tenant limit (k : call) db :
  match c_op k with OCreate _ _ _ | OCreateCached _ _ _ _ => False | _ => True end →
  StoreSafety.disciplined tenant limit k → map_Forall (λ _ r, known_status r) (runs db) →
  ∀ id r', runs (StoreSteps.exec validate ts_le k db) !! id = Some r' → counted_run tenant id r' = true →
  ∃ r, runs db !! id = Some r ∧ counted_run tenant id r = true.
Proof.
  intros Hk Hd Hks id r' Hr' Hc. destruct (exec_run_origin validate ts_le k db id r' Hr') as [E|[H|(r&E&Hu)]].
  - by exists r'.
  - unfold creates in H. by destruct (c_op k).
  - exists r. split; [done|]. pose proof (updates_owner _ _ _ _ Hu) as (Ho & _).
    apply (updates_status _ tenant limit) in Hu as [_ Hu]; [|done|exact (Hks _ _ E)].
    unfold counted_run in *. rewrite Ho in Hc. apply andb_true_iff in Hc as [Ha ->]. by rewrite Hu.
Qed.

(** ** Runs *)

Lemma reaches_steps d sn nm st tenant limit w0 w l : reaches d sn nm st tenant limit w0 w →
  Forall (λ a, match a with LStep _ _ _ | LDisconnect _ => True | _ => False end) l →
  reaches d sn nm st tenant limit w0 (foldl (lstep d sn nm st) w l).
Proof.
  intros Hr Hl. revert w Hr. induction Hl as [|a l Ha Hl IH]; intros w Hr; [done|]. simpl. apply IH. constructor; [done|]. by destruct a.
Qed.

Definition one_run : option RunAdmissionCaps := Some (mkCaps 1 0 0 0 None).
Definition new_run (id agent : string) : Run := mkRunReq id "th" agent RunStatusPending None ColEmpty 0 0 (mkSpec "" "" None None 0).
Definition one_thread (tenant : string) : LockServer :=
  mkServer (mkDB ∅ {["th" := mkThread tenant "idle" ColNull 1 0 ColNull 0]} ∅ ∅) ∅ ∅ [].
(** Two creations, statement by statement in turn, then the second alone. *)
Definition in_turn : list lact :=
  concat (replicate 12 [LStep 0 false CommitOk; LStep 1 false CommitOk]) ++ replicate 12 (LStep 1 false CommitOk).
Definition raced (d : dialect) : LockServer :=
  foldl (lstep d id 64 id) (CreateRunAdmitted (mkCtx (Some "acme") false) (new_run "r2" "a") one_run 0
    (CreateRunAdmitted (mkCtx (Some "acme") false) (new_run "r1" "a") one_run 0 (one_thread "acme"))) in_turn.

Lemma locked_admission_ceiling_witness :
  (count_active "acme" "" (runs (ls_db (raced Postgres))) ≤ 1 ∧ map s_pc (ls_sessions (raced Postgres)) = [Over true; Over false]) ∧
  (count_active "acme" "" (runs (ls_db (raced MySQL))) ≤ 1 ∧ map s_pc (ls_sessions (raced MySQL)) = [Over true; Over false]).
Proof.
  assert (H : ∀ d, reaches d id 64 id "acme" 1 (one_thread "acme") (raced d)).
  { intros d. apply reaches_steps; [|by repeat constructor].
    apply (reaches_step d id 64 id "acme" 1 _ _ (LCreate (mkCtx (Some "acme") false) (new_run "r2" "a") one_run 0));
      [apply (reaches_step d id 64 id "acme" 1 _ _ (LCreate (mkCtx (Some "acme") false) (new_run "r1" "a") one_run 0)); [constructor|]|];
      intros _; (exists (mkCaps 1 0 0 0 None)); (split; [reflexivity|simpl; lia]). }
  split; (split; [eapply locked_admission_ceiling; [|apply H]; vm_compute; discriminate|vm_compute; reflexivity]).
Defined.

(** With identifiers of 36 characters the agent's lock name is longer than the 64 the
    server takes: on MySQL every creation under an agent's cap fails. *)
Example mysql_long_scope_refused :
  let id36 := "0123456789abcdef0123456789abcdef0123" in
  let caps := Some (mkCaps 0 0 5 0 None) in
  let w := CreateRunAdmitted (mkCtx (Some id36) false) (new_run "r1" id36) caps 0 (one_thread id36) in
  map s_pc (ls_sessions (foldl (lstep MySQL id 64 id) w (replicate 12 (LStep 0 false CommitOk)))) = [Over false] ∧
  map s_pc (ls_sessions (foldl (lstep Postgres id 64 id) w (replicate 12 (LStep 0 false CommitOk)))) = [Over true].
Proof. split; vm_compute; reflexivity. Qed.
