(* ===== verification/SqlSessions.v ===== *)
(** * Run completion on PostgreSQL and MySQL, statement by statement

    Models the transactions of [internal/state/sqlcompletion] as the stores of
    [internal/state/postgres] and [internal/state/mysql] run them: the statements of
    several transactions interleave, the rows read [FOR UPDATE], updated or inserted
    stay locked until the transaction ends, and what it writes is seen by the others
    when it commits.

    A transaction is a program over SQL statements.  A statement works on the
    committed rows under the transaction's own writes; on MySQL a plain read works on
    those committed at the first plain read (repeatable read).  A statement whose row
    another transaction has locked waits.  (Over an uncommitted insert of its row
    PostgreSQL finds none instead, which ends the call with an error, as a failing
    statement does.) *)

From Stdlib Require Import String.
From S2P Require Import Prelude GoAny Completion Store StoreOps SqlLocks.
Local Open Scope string_scope.
Local Open Scope Z_scope.
Local Open Scope list_scope.

(** ** Statements and programs *)

Inductive sql : Type → Type :=
| QLoad (x : ctx) (runID : string) : sql (string * string * string * gmap string any)
| QUpdateRun (runID tid : string) (f : run_row → run_row) : sql unit
| QThread (threadID tid : string) : sql thread_row
| QUpdateThread (threadID tid : string) (cond : thread_row → bool) (f : thread_row → thread_row) : sql unit
| QParent (threadID tid : string) : sql (option string)
| QInsertCkpt (id : string) (k : ckpt_row) : sql unit
| QActive (threadID tid runID : string) : sql Z
| QInsertRun (id : string) (row : run_row) : sql unit.

Inductive prog (A : Type) : Type :=
| PRet (a : A)
| PErr (e : err)
| PStmt {R : Type} (q : sql R) (k : R → prog A).
Arguments PRet {A} _.
Arguments PErr {A} _.
Arguments PStmt {A R} _ _.

(** The row a statement locks; a plain read locks none, and reads what belongs to a
    thread. *)
Inductive row_key := RunRow (id : string) | ThreadRow (id : string) | CkptRow (id : string).
#[export] Instance row_key_eq : EqDecision row_key. Proof. solve_decision. Defined.
#[export] Instance row_key_countable : Countable row_key.
Proof.
  refine (inj_countable' (λ k, match k with RunRow i => inl i | ThreadRow i => inr (inl i) | CkptRow i => inr (inr i) end)
    (λ s, match s with inl i => RunRow i | inr (inl i) => ThreadRow i | inr (inr i) => CkptRow i end) _); by intros [].
Defined.

Definition q_key {R} (q : sql R) : option row_key :=
  match q with
  | QLoad _ id | QUpdateRun id _ _ | QInsertRun id _ => Some (RunRow id)
  | QThread th _ | QUpdateThread th _ _ _ => Some (ThreadRow th)
  | QInsertCkpt id _ => Some (CkptRow id)
  | QParent _ _ | QActive _ _ _ => None
  end.

Definition q_plain {R} (q : sql R) : option string :=
  match q with QParent th _ | QActive th _ _ => Some th | _ => None end.

(** ** Row versions *)

(** The uncommitted versions a transaction has written. *)
Record wset := mkW { w_runs : gmap string run_row; w_threads : gmap string thread_row; w_ckpts : gmap string ckpt_row }.
Definition wnone : wset := mkW ∅ ∅ ∅.
Definition wmerge (new old : wset) : wset :=
  mkW (w_runs new ∪ w_runs old) (w_threads new ∪ w_threads old) (w_ckpts new ∪ w_ckpts old).
Definition apply (W : wset) (db : DB) : DB :=
  mkDB (w_runs W ∪ runs db) (w_threads W ∪ threads db) (w_ckpts W ∪ ckpts db) (opaques db).

(** ** Answers *)

Inductive outcome := Began (b : bool) | Completed (r : CompletionResult) | Created | Claimed (b : bool).
#[export] Instance result_eq : EqDecision CompletionResult. Proof. solve_decision. Defined.
#[export] Instance outcome_eq : EqDecision outcome. Proof. solve_decision. Defined.

(** The caller commits, or rolls back. *)
Definition commits (o : outcome) : bool :=
  match o with Began b => b | Completed r => Applied r | Created | Claimed _ => true end.

Section sessions.
Variable d : dialect.
(** [Driver.ValidateValues]. *)
Variable validate : gmap string any → bool.
(** The order of [created_at] in its stored representation. *)
Variable ts_le : Z → Z → bool.
(** What the time columns keep of an instant. *)
Variable stamp : Z → Z.

(** A statement on the rows it sees: its result, and the row versions it writes. *)
Definition q_sem {R} (q : sql R) (db : DB) : res err (R * wset) :=
  match q with
  | QLoad x id =>
      match runs db !! id with
      | Some r => if visible x (r_tenant r) then
                    match decode_meta (r_meta r) with
                    | Ok m => Ok ((r_tenant r, r_thread r, r_status r, m), wnone)
                    | Err e => Err e
                    end
                  else Err ENoRows
      | None => Err ENoRows
      end
  | QUpdateRun id tid f =>
      match runs db !! id with
      | Some r => Ok (tt, if String.eqb (r_tenant r) tid then mkW {[id := f r]} ∅ ∅ else wnone)
      | None => Ok (tt, wnone)
      end
  | QThread th tid =>
      match threads db !! th with
      | Some t => if String.eqb (t_tenant t) tid then Ok (t, wnone) else Err ENoRows
      | None => Err ENoRows
      end
  | QUpdateThread th tid cond f =>
      match threads db !! th with
      | Some t => Ok (tt, if String.eqb (t_tenant t) tid && cond t then mkW ∅ {[th := f t]} ∅ else wnone)
      | None => Ok (tt, wnone)
      end
  | QParent th tid => Ok (latest_ckpt ts_le th tid (ckpts db), wnone)
  | QInsertCkpt id k =>
      match ckpts db !! id with
      | Some _ => Err EUnique
      | None => Ok (tt, mkW ∅ ∅ {[id := k]})
      end
  | QActive th tid id => Ok (others_active th tid id (runs db), wnone)
  | QInsertRun id row =>
      match runs db !! id with
      | Some _ => Err (EConflict "run" id)
      | None => Ok (tt, mkW {[id := row]} ∅ ∅)
      end
  end.

(** ** The transactions *)

Definition begin_prog (now : Z) (x : ctx) (runID : string) (generation : Z) : prog outcome :=
  PStmt (QLoad x runID) (λ '(tid, _, st, meta),
    if TerminalRunStatus st || (generation <? MetadataGeneration meta AttemptGenerationKey) then PRet (Began false)
    else PStmt (QUpdateRun runID tid (begun_run now generation meta)) (λ _, PRet (Began true))).

(** The conversation-history writes. *)
Definition values_prog (now : Z) (tid threadID runID : string) (vals : gmap string any) (rest : prog outcome) : prog outcome :=
  PStmt (QThread threadID tid) (λ t,
    match decode_values (t_values t) with
    | Err e => PErr e
    | Ok old =>
        let merged := merge_values vals old in
        if validate merged then
          PStmt (QUpdateThread threadID tid (λ _, true) (λ t,
            mkThread (t_tenant t) (t_status t) (ColObj merged) (t_version t + 1) now (t_meta t) (t_created t))) (λ _,
          PStmt (QParent threadID tid) (λ parent,
          PStmt (QInsertCkpt ("completion:" +:+ runID) (mkCkpt tid threadID "" parent merged now completion_docs)) (λ _, rest)))
        else PErr EValidate
    end).

(** The run's terminal row, then the thread's release under its lock. *)
Definition terminal_prog (now : Z) (tid threadID : string) (c : RunCompletion) (meta : gmap string any) (rest : prog outcome) : prog outcome :=
  PStmt (QUpdateRun (CRunID c) tid (λ r,
    mkRun (r_tenant r) (r_thread r) (r_agent r) (CStatus c)
      (encode_meta (<[CompletionGenerationKey := AInt64 (CGeneration c)]> meta)) (output_column c) (CError c)
      (r_created r) now (r_spec r))) (λ _,
  PStmt (QThread threadID tid) (λ _,
  PStmt (QActive threadID tid (CRunID c)) (λ n,
    if n =? 0 then
      PStmt (QUpdateThread threadID tid (λ t, String.eqb (t_status t) ThreadStatusBusy) (λ t,
        mkThread (t_tenant t) (release_status c) (t_values t) (t_version t) now (t_meta t) (t_created t))) (λ _, rest)
    else rest))).

Definition complete_prog (now : Z) (x : ctx) (c0 : RunCompletion) : prog outcome :=
  PStmt (QLoad x (CRunID c0)) (λ '(tid, threadID, st, meta),
    let c := ResolveCompletion meta c0 in
    let result := CheckCompletion meta st c in
    let rest := terminal_prog now tid threadID c meta (PRet (Completed result)) in
    if negb (Applied result) then PRet (Completed result)
    else
      match CValues c with
      | Some v =>
          if validate v then
            if negb (CancelCurrentAttempt c) then values_prog now tid threadID (CRunID c) v rest else rest
          else PErr EValidate
      | None => rest
      end).

(** [CreateRun]: a creation without caps. *)
Definition stored_run (x : ctx) (run : Run) : run_row :=
  mkRun (FromContext x) (ThreadID run) (AgentID run) (Status run) (marshal_meta (Metadata run)) ColEmpty ""
    (stamp (CreatedAt run)) (stamp (UpdatedAt run)) (Spec run).
Definition create_prog (x : ctx) (run : Run) : prog outcome :=
  PStmt (QThread (ThreadID run) (FromContext x)) (λ _,
  PStmt (QInsertRun (RunID run) (stored_run x run)) (λ _, PRet Created)).

(** [TryClaimThread]: one statement, which commits by itself. *)
Definition claimed_thread (now : Z) (t : thread_row) : thread_row :=
  mkThread (t_tenant t) ThreadStatusBusy (t_values t) (t_version t) now (t_meta t) (t_created t).
Definition claimable (x : ctx) (t : thread_row) : bool := visible x (t_tenant t) && negb (String.eqb (t_status t) ThreadStatusBusy).
Definition try_claim (now : Z) (x : ctx) (threadID : string) (db : DB) : DB * bool :=
  match threads db !! threadID with
  | Some t => if claimable x t then (set_threads (<[threadID := claimed_thread now t]> (threads db)) db, true) else (db, false)
  | None => (db, false)
  end.

Inductive sop :=
| SBegin (now : Z) (x : ctx) (runID : string) (generation : Z)
| SComplete (now : Z) (x : ctx) (c : RunCompletion)
| SCreate (x : ctx) (run : Run)
| SClaim (now : Z) (x : ctx) (threadID : string).

Definition prog_of (o : sop) : prog outcome :=
  match o with
  | SBegin now x id g => begin_prog now x id g
  | SComplete now x c => complete_prog now x c
  | SCreate x run => create_prog x run
  | SClaim _ _ _ => PErr EDriver               (* no transaction of its own *)
  end.

(** ** Sessions *)

Inductive txn :=
| Running (p : prog outcome) (W : wset) (locks : gset row_key) (snap : option DB)
| Done (r : res err outcome).

Record sess := mkSess { x_op : sop; x_txn : txn }.

Record SqlServer := mkSql {
  q_db : DB;                                   (* committed *)
  q_sessions : list sess;
  q_log : list (nat * sop * outcome)           (* the calls that took effect, in order *)
}.

Definition locks_of (s : sess) : gset row_key := match x_txn s with Running _ _ L _ => L | Done _ => ∅ end.
Definition locked_by_other (k : row_key) (i : nat) (w : SqlServer) : bool :=
  existsb (λ js : nat * sess, negb (js.1 =? i)%nat && bool_decide (k ∈ locks_of js.2)) (imap pair (q_sessions w)).

Definition set_txn (i : nat) (t : txn) (w : SqlServer) : SqlServer :=
  mkSql (q_db w) (alter (λ s, mkSess (x_op s) t) i (q_sessions w)) (q_log w).

(** The transaction takes effect, or only its answer does. *)
Definition record (i : nat) (s : sess) (db' : DB) (out : outcome) (w : SqlServer) : SqlServer :=
  mkSql db' (q_sessions w) (q_log w ++ [(i, x_op s, out)]).

Definition finish (co : commit_outcome) (i : nat) (s : sess) (W : wset) (out : outcome) (w : SqlServer) : SqlServer :=
  if commits out then
    match co with
    | CommitOk => set_txn i (Done (Ok out)) (record i s (apply W (q_db w)) out w)
    | CommitFailed => set_txn i (Done (Err EDriver)) w
    | CommitLost => set_txn i (Done (Err EDriver)) (record i s (apply W (q_db w)) out w)
    end
  else set_txn i (Done (Ok out)) (record i s (q_db w) out w).

Definition key_set {R} (q : sql R) : gset row_key := match q_key q with Some k => {[k]} | None => ∅ end.

(** The committed rows a statement works on, and the snapshot after it. *)
Definition read_from {R} (q : sql R) (snap : option DB) (db : DB) : DB :=
  match d, q_plain q with MySQL, Some _ => default db snap | _, _ => db end.
Definition snap_after {R} (q : sql R) (snap : option DB) (db : DB) : option DB :=
  match d, q_plain q with MySQL, Some _ => Some (default db snap) | _, _ => snap end.

Definition stmt_step {R} (i : nat) (q : sql R) (k : R → prog outcome) (W : wset) (L : gset row_key) (snap : option DB) (w : SqlServer) : SqlServer :=
  if match q_key q with Some key => locked_by_other key i w | None => false end then w
  else match q_sem q (apply W (read_from q snap (q_db w))) with
       | Err e => set_txn i (Done (Err e)) w
       | Ok (r, W') => set_txn i (Running (k r) (wmerge W' W) (L ∪ key_set q) (snap_after q snap (q_db w))) w
       end.

(** One statement of session [i]; [fails] makes it fail, or drops the connection. *)
Definition sess_step (i : nat) (fails : bool) (co : commit_outcome) (w : SqlServer) : SqlServer :=
  match q_sessions w !! i with
  | Some s =>
      match x_txn s with
      | Done _ => w
      | Running p W L snap =>
          if fails then set_txn i (Done (Err EDriver)) w
          else match p with
               | PRet out => finish co i s W out w
               | PErr e => set_txn i (Done (Err e)) w
               | PStmt q k => stmt_step i q k W L snap w
               end
      end
  | None => w
  end.

(** A claim waits while the thread it would change is locked. *)
Definition claim_step (now : Z) (x : ctx) (threadID : string) (w : SqlServer) : SqlServer :=
  let '(db', b) := try_claim now x threadID (q_db w) in
  let i := length (q_sessions w) in
  if b && locked_by_other (ThreadRow threadID) i w then w
  else mkSql db' (q_sessions w ++ [mkSess (SClaim now x threadID) (Done (Ok (Claimed b)))])
         (q_log w ++ [(i, SClaim now x threadID, Claimed b)]).

Inductive qact :=
| QStart (o : sop)
| QStep (i : nat) (fails : bool) (co : commit_outcome).

Definition qstep (w : SqlServer) (a : qact) : SqlServer :=
  match a with
  | QStart (SClaim now x th) => claim_step now x th w
  | QStart o => mkSql (q_db w) (q_sessions w ++ [mkSess o (Running (prog_of o) wnone ∅ None)]) (q_log w)
  | QStep i fails co => sess_step i fails co w
  end.

(** ** One at a time *)

Definition never : nat → bool := λ _, false.

(** The statement in the transaction monad of the shared driver. *)
Definition q_tx {R} (q : sql R) : tx R :=
  match q with
  | QLoad x id => load never x id
  | QUpdateRun id tid f => update_run never id tid f
  | QThread th tid => select_thread never th tid
  | QUpdateThread th tid cond f => update_thread never th tid cond f
  | QParent th tid => select_parent never ts_le th tid
  | QInsertCkpt id k => insert_ckpt never id k
  | QActive th tid id => select_active never th tid id
  | QInsertRun id row =>
      stmt never (λ db, match runs db !! id with
                        | Some _ => Err (EConflict "run" id)
                        | None => Ok (tt, set_runs (<[id := row]> (runs db)) db)
                        end)
  end.

Fixpoint den {A} (p : prog A) : tx A :=
  match p with
  | PRet a => tret a
  | PErr e => terr e
  | PStmt q k => tbind (q_tx q) (λ r, den (k r))
  end.

(** A call on its own. *)
Definition serial (o : sop) (db : DB) : DB * res err outcome :=
  match o with
  | SClaim now x th => let '(db', b) := try_claim now x th db in (db', Ok (Claimed b))
  | _ => run_tx never CommitOk (den (prog_of o)) commits db
  end.
End sessions.
