(* ===== verification/SqlSessionsProps.v ===== *)
(** * The transactions of PostgreSQL and MySQL are serializable

    However the statements of dispatches, completions, creations and claims
    interleave, the committed rows are those of the calls made one at a time, in the
    order of their commits, and every answer is the one that call gives there: the
    row locks keep what a transaction has read until it commits. *)

From Stdlib Require Import String.
From S2P Require Import Prelude GoAny Completion Store StoreSpec StoreOps StoreSteps StoreSafety SqlLocks SqlSessions.
Local Open Scope string_scope.
Local Open Scope Z_scope.
Local Open Scope list_scope.

(** ** Row versions *)

Lemma apply_none db : apply wnone db = db.
Proof. destruct db. unfold apply. simpl. by rewrite !(left_id_L ∅ (∪)). Qed.

Lemma apply_merge W' W db : apply (wmerge W' W) db = apply W' (apply W db).
Proof. unfold apply. simpl. by rewrite !(assoc_L (∪)). Qed.

Lemma lookup_over {A} (m1 m2 m2' : gmap string A) i : m2 !! i = m2' !! i → (m1 ∪ m2) !! i = (m1 ∪ m2') !! i.
Proof. intros E. by rewrite !lookup_union, E. Qed.

Section frame.
Context (ts_le : Z → Z → bool).
Notation q_sem := (q_sem ts_le).
Notation q_tx := (q_tx ts_le).

(** A statement does to the tables what it does in the shared driver's monad. *)
Lemma q_sem_tx {R} (q : sql R) n db r W : q_sem q db = Ok (r, W) → q_tx q n db = Ok (r, S n, apply W db).
Proof.
  destruct q; simpl; unfold load, update_run, select_thread, update_thread, select_parent, insert_ckpt, select_active, stmt, never; simpl;
    intros H; repeat case_match; simplify_eq; try done; rewrite ?apply_none; try done;
    unfold apply, set_runs, set_threads, set_ckpts; simpl; by rewrite ?(left_id_L ∅ (∪)), ?insert_union_singleton_l.
Qed.

(** ** What a transaction has read stays *)

Definition active_on (th tid : string) (o : option run_row) : bool :=
  match o with Some r => String.eqb (r_thread r) th && String.eqb (r_tenant r) tid && active (r_status r) | None => false end.

(** Two states of the tables agree on the locked rows, and on the checkpoints and the
    active runs of the locked threads. *)
Record agree (L : gset row_key) (db db' : DB) : Prop := {
  ag_runs id : RunRow id ∈ L → runs db !! id = runs db' !! id;
  ag_threads th : ThreadRow th ∈ L → threads db !! th = threads db' !! th;
  ag_ckpts id : CkptRow id ∈ L → ckpts db !! id = ckpts db' !! id;
  ag_history th id k : ThreadRow th ∈ L → k_thread k = th → ckpts db !! id = Some k ↔ ckpts db' !! id = Some k;
  ag_active th tid id : ThreadRow th ∈ L → active_on th tid (runs db !! id) = active_on th tid (runs db' !! id)
}.

Lemma agree_refl L db : agree L db db.
Proof. by split. Qed.

Lemma agree_trans L db1 db2 db3 : agree L db1 db2 → agree L db2 db3 → agree L db1 db3.
Proof.
  intros [R1 T1 C1 H1 A1] [R2 T2 C2 H2 A2]. split.
  - intros. rewrite R1 by done. auto.
  - intros. rewrite T1 by done. auto.
  - intros. rewrite C1 by done. auto.
  - intros th id k Hth Hk. rewrite (H1 th) by done. by apply (H2 th).
  - intros. rewrite A1 by done. auto.
Qed.

Lemma agree_mono L L' db db' : L' ⊆ L → agree L db db' → agree L' db db'.
Proof. intros HL [? ? ? ? ?]. split; intros; eauto. Qed.

Lemma count_runs_same p (m m' : gmap string run_row) :
  (∀ id, (∃ r, m !! id = Some r ∧ p id r = true) ↔ (∃ r, m' !! id = Some r ∧ p id r = true)) → count_runs p m = count_runs p m'.
Proof. intros H. apply Z.le_antisymm; apply count_runs_mono; intros id r Hr Hp; apply H; by exists r. Qed.

Lemma active_on_true th tid o : active_on th tid o = true ↔ ∃ r, o = Some r ∧ r_thread r = th ∧ r_tenant r = tid ∧ active (r_status r) = true.
Proof.
  destruct o as [r|]; simpl; [|naive_solver]. rewrite !andb_true_iff, !String.eqb_eq. naive_solver.
Qed.

Lemma others_active_frame L W db db' th tid id : agree L db db' → ThreadRow th ∈ L →
  others_active th tid id (runs (apply W db)) = others_active th tid id (runs (apply W db')).
Proof.
  intros Ha Hth. apply count_runs_same. intros id'.
  assert (Hp : ∀ m : gmap string run_row, (∃ r, m !! id' = Some r ∧ String.eqb (r_thread r) th && String.eqb (r_tenant r) tid && active (r_status r) && negb (String.eqb id' id) = true)
    ↔ active_on th tid (m !! id') = true ∧ id' ≠ id).
  { intros m. rewrite active_on_true. setoid_rewrite andb_true_iff. setoid_rewrite negb_true_iff. setoid_rewrite String.eqb_neq.
    setoid_rewrite andb_true_iff. setoid_rewrite andb_true_iff. setoid_rewrite String.eqb_eq. naive_solver. }
  rewrite !Hp. simpl. rewrite !lookup_union. destruct (w_runs W !! id') as [r|]; [destruct (runs db !! id'), (runs db' !! id'); done|].
  rewrite !(left_id_L None _), (ag_active _ _ _ Ha th tid id' Hth). done.
Qed.

Lemma latest_ckpt_frame L W db db' th tid : agree L db db' → ThreadRow th ∈ L →
  latest_ckpt ts_le th tid (ckpts (apply W db)) = latest_ckpt ts_le th tid (ckpts (apply W db')).
Proof.
  intros Ha Hth. unfold latest_ckpt. do 2 f_equal. simpl.
  replace (filter (λ kr : string * ckpt_row, k_thread kr.2 = th ∧ k_tenant kr.2 = tid) (w_ckpts W ∪ ckpts db))
    with (filter (λ kr : string * ckpt_row, k_thread kr.2 = th ∧ k_tenant kr.2 = tid) (w_ckpts W ∪ ckpts db')); [done|].
  apply map_eq. intros id. apply option_eq. intros k. rewrite !map_lookup_filter_Some, !lookup_union_Some_raw. simpl.
  pose proof (ag_history _ _ _ Ha th id k Hth). naive_solver.
Qed.

Definition covered {R} (q : sql R) (L : gset row_key) : Prop :=
  match q_key q with Some k => k ∈ L | None => True end ∧ match q_plain q with Some th => ThreadRow th ∈ L | None => True end.

Lemma q_sem_frame {R} (q : sql R) L W db db' : agree L db db' → covered q L → q_sem q (apply W db) = q_sem q (apply W db').
Proof.
  intros Ha [Hk Hp]. destruct q; simpl in *.
  1, 2, 8: by rewrite (lookup_over _ _ _ _ (ag_runs _ _ _ Ha _ Hk)).
  1, 2: by rewrite (lookup_over _ _ _ _ (ag_threads _ _ _ Ha _ Hk)).
  - do 2 f_equal. by apply (latest_ckpt_frame L W).
  - by rewrite (lookup_over _ _ _ _ (ag_ckpts _ _ _ Ha _ Hk)).
  - do 2 f_equal. by apply (others_active_frame L W).
Qed.
End frame.

(** ** Programs on one state of the tables *)
Section programs.
Context (validate : gmap string any → bool) (ts_le : Z → Z → bool) (stamp : Z → Z).
Notation q_sem := (q_sem ts_le).
Notation den := (den ts_le).
Notation prog_of := (prog_of validate stamp).
Notation pstate := (prog outcome * wset * gset row_key)%type.

Inductive pstep (db : DB) : pstate → pstate → Prop :=
| pstep_stmt R (q : sql R) k W L r W' : q_sem q (apply W db) = Ok (r, W') → covered q (L ∪ key_set q) →
    pstep db (PStmt q k, W, L) (k r, wmerge W' W, L ∪ key_set q).

(** What a transaction did stays what it would do, as long as its locks are respected. *)
Lemma rtc_frame db db' s s' : rtc (pstep db) s s' → agree s'.2 db db' → rtc (pstep db') s s'.
Proof.
  revert s'. refine (rtc_ind_r (λ s', agree s'.2 db db' → rtc (pstep db') s s') s _ _); [done|]. intros s1 s2 _ H2 IH Ha.
  destruct H2 as [R q k W L r W' Hq Hc]. simpl in *. eapply rtc_r; [apply IH; eapply agree_mono; [|done]; set_solver|].
  constructor; [|done]. rewrite <- Hq. symmetry. by eapply q_sem_frame.
Qed.

Lemma rtc_den db s a W' L' : rtc (pstep db) s (PRet a, W', L') →
  ∀ n, ∃ n', den s.1.1 n (apply s.1.2 db) = Ok (a, n', apply W' db).
Proof.
  intros H. remember (PRet a, W', L') as s' eqn:Hs'. induction H as [s|s1 s2 s3 H1 H2 IH]; intros n; subst; [by exists n|].
  destruct H1 as [R q k W L r W1 Hq Hc]. destruct (IH eq_refl (S n)) as [n' Hn]. exists n'. simpl in *. unfold tbind.
  rewrite (q_sem_tx _ _ n _ _ _ Hq), <- apply_merge. done.
Qed.

Definition wcovered (W : wset) (L : gset row_key) : Prop :=
  (∀ id r, w_runs W !! id = Some r → RunRow id ∈ L) ∧ (∀ th t, w_threads W !! th = Some t → ThreadRow th ∈ L) ∧
  (∀ id k, w_ckpts W !! id = Some k → CkptRow id ∈ L).

Lemma q_sem_wcovered {R} (q : sql R) db r W : q_sem q db = Ok (r, W) → wcovered W (key_set q).
Proof.
  unfold wcovered, key_set. destruct q; simpl; intros H; repeat case_match; simplify_eq/=;
    split_and!; intros i v; rewrite ?lookup_empty, ?lookup_singleton_Some; try done; intros [<- _]; set_solver.
Qed.

Lemma rtc_wcovered db p0 s : rtc (pstep db) (p0, wnone, ∅) s → wcovered s.1.2 s.2.
Proof.
  revert s. refine (rtc_ind_r (λ s, wcovered s.1.2 s.2) _ _ _); [by split_and!; intros ? ?; simpl; rewrite lookup_empty|].
  intros s1 s2 _ H2 IH. destruct H2 as [R q k W L r W' Hq Hc]. apply q_sem_wcovered in Hq as (?&?&?). destruct IH as (?&?&?). simpl in *.
  split_and!; intros i v [Hv|[_ Hv]]%lookup_union_Some_raw; set_solver.
Qed.

(** What holds of every transaction that ends well. *)
Fixpoint wp (p : prog outcome) (db : DB) (W : wset) (L : gset row_key) (Q : outcome → wset → gset row_key → Prop) : Prop :=
  match p with
  | PRet a => Q a W L
  | PErr _ => True
  | PStmt q k => ∀ r W', q_sem q (apply W db) = Ok (r, W') → wp (k r) db (wmerge W' W) (L ∪ key_set q) Q
  end.

Lemma wp_sound db s a W' L' Q : rtc (pstep db) s (PRet a, W', L') → wp s.1.1 db s.1.2 s.2 Q → Q a W' L'.
Proof.
  intros H. remember (PRet a, W', L') as s' eqn:Hs'. induction H as [s|s1 s2 s3 H1 H2 IH]; subst; [done|].
  destruct H1 as [R q k W L r W1 Hq Hc]. simpl in *. auto.
Qed.

(** Plain reads come after the lock of the thread they read, and on MySQL the first
    one comes after all the locks the later ones need. *)
Fixpoint guarded (p : prog outcome) (L : gset row_key) (seen : option (gset row_key)) : Prop :=
  match p with
  | PStmt q k =>
      match q_plain q with Some th => ThreadRow th ∈ default L seen | None => True end ∧
      ∀ r, guarded (k r) (L ∪ key_set q) (match q_plain q with Some _ => Some (default L seen) | None => seen end)
  | _ => True
  end.

Lemma guarded_terminal now tid th c meta a L seen : ThreadRow th ∈ default {[ThreadRow th]} seen →
  guarded (terminal_prog now tid th c meta (PRet a)) L seen.
Proof.
  clear validate ts_le stamp. intros Hs. simpl. split_and!; [done|]. intros _. split; [done|]. intros _. split.
  - destruct seen; simpl in *; [done|]. unfold key_set. simpl. set_solver.
  - intros n. by destruct (n =? 0).
Qed.

Lemma guarded_values now tid th id v rest L seen : (∀ L' H, ThreadRow th ∈ H → guarded rest L' (Some H)) →
  ThreadRow th ∈ default {[ThreadRow th]} seen → guarded (values_prog validate now tid th id v rest) L seen.
Proof.
  clear ts_le stamp. intros Hr Hs. simpl. split; [done|]. intros t. destruct (decode_values _) as [old|]; [|done].
  destruct (validate _); [|done]. simpl. split; [done|]. intros _.
  assert (ThreadRow th ∈ default (L ∪ key_set (QThread th tid) ∪ key_set (QUpdateThread th tid (λ _, true) (λ t, t))) seen).
  { destruct seen; simpl in *; [done|]. unfold key_set. simpl. set_solver. }
  split; [done|]. intros parent. split; [done|]. intros _. by apply Hr.
Qed.

Lemma guarded_prog o : guarded (prog_of o) ∅ None.
Proof.
  clear ts_le. destruct o as [now x id g|now x c|x run|now x th]; [..|done].
  - split; [done|]. intros [[[tid th] st] meta]. by case_match.
  - split; [done|]. intros [[[tid th] st] meta]. cbv zeta. set (a := Completed _).
    assert (Ht : ∀ L seen, ThreadRow th ∈ default {[ThreadRow th]} seen → guarded (terminal_prog now tid th (ResolveCompletion meta c) meta (PRet a)) L seen)
      by (intros; by apply guarded_terminal).
    assert (ThreadRow th ∈ ({[ThreadRow th]} : gset row_key)) by set_solver.
    destruct (negb (Applied _)); [done|]. destruct (CValues _) as [v|]; [|by apply Ht].
    destruct (validate v); [|done]. destruct (negb (CancelCurrentAttempt _)); [|by apply Ht].
    apply guarded_values; [|done]. intros. by apply Ht.
  - by repeat split.
Qed.

(** A commit adds checkpoints only to threads it has locked, and changes which runs
    are active only on those. *)
Record quiet (db : DB) (W : wset) (L : gset row_key) : Prop := {
  qu_ckpts id k : w_ckpts W !! id = Some k → ThreadRow (k_thread k) ∈ L ∧ ckpts db !! id = None;
  qu_known id r' : w_runs W !! id = Some r' → known_status r';
  qu_owner id r' r : w_runs W !! id = Some r' → runs db !! id = Some r → r_thread r = r_thread r' ∧ r_tenant r = r_tenant r';
  qu_active id r' : w_runs W !! id = Some r' →
    ThreadRow (r_thread r') ∈ L ∨ ∃ r, runs db !! id = Some r ∧ active (r_status r) = active (r_status r')
}.

Definition own_ckpts (db : DB) (th : string) (W : wset) : Prop :=
  ∀ id k, w_ckpts W !! id = Some k → k_thread k = th ∧ ckpts db !! id = None.

(** The transaction writes [r'] over the run [id], nothing else of the runs. *)
Lemma quiet_one db W L id r' th : w_runs W = {[id := r']} → r_thread r' = th → ThreadRow th ∈ L → own_ckpts db th W →
  known_status r' → (∀ r, runs db !! id = Some r → r_thread r = r_thread r' ∧ r_tenant r = r_tenant r') → quiet db W L.
Proof.
  intros HW <- Hth Hc Hk Ho. split; rewrite ?HW.
  - intros i k Hi. destruct (Hc _ _ Hi) as [-> ?]. done.
  - by intros i r'' [<- <-]%lookup_singleton_Some.
  - intros i r'' r [<- <-]%lookup_singleton_Some Hr. by apply Ho.
  - intros i r'' [<- <-]%lookup_singleton_Some. by left.
Qed.

Lemma wp_terminal db now c meta W L r a : w_runs W = ∅ → own_ckpts db (r_thread r) W →
  runs db !! CRunID c = Some r → TerminalRunStatus (CStatus c) = true →
  wp (terminal_prog now (r_tenant r) (r_thread r) c meta (PRet a)) db W L (λ _ W L, quiet db W L).
Proof.
  clear validate stamp. intros HW Hc Hr Ht. simpl. rewrite HW, (left_id_L ∅ (∪)), Hr, String.eqb_refl.
  intros u W1 [= _ <-] t W2 H2. assert (W2 = wnone) as -> by (repeat case_match; by simplify_eq). clear H2. intros n W3 [= _ <-].
  assert (Hq : ∀ W' L', w_runs W' = ∅ → w_ckpts W' = ∅ → ThreadRow (r_thread r) ∈ L' →
    quiet db (wmerge W' (wmerge wnone (wmerge wnone (wmerge (mkW {[CRunID c := completed_run now c meta r]} ∅ ∅) W)))) L').
  { intros W' L' HW1 HW2 HL. eapply (quiet_one _ _ _ (CRunID c) (completed_run now c meta r)); [|done|done|..].
    - simpl. by rewrite HW1, HW, !(left_id_L ∅ (∪)), (right_id_L ∅ (∪)).
    - unfold own_ckpts. simpl. by rewrite HW2, !(left_id_L ∅ (∪)).
    - by right.
    - intros r0 Hr0. rewrite Hr in Hr0. by injection Hr0 as <-. }
  destruct (_ =? 0); simpl.
  - intros u4 W4 H4. apply Hq; [..|set_solver]; repeat case_match; by simplify_eq.
  - replace (wmerge wnone (wmerge wnone (wmerge _ W))) with (wmerge wnone (wmerge wnone (wmerge wnone (wmerge (mkW {[CRunID c := completed_run now c meta r]} ∅ ∅) W)))).
    + apply Hq; [done|done|set_solver].
    + unfold wmerge. simpl. by rewrite !(left_id_L ∅ (∪)).
Qed.

Lemma wp_values db now tid th id v W L rest Q : w_runs W = ∅ → w_ckpts W = ∅ →
  (∀ W' L', w_runs W' = ∅ → own_ckpts db th W' → wp rest db W' L' Q) →
  wp (values_prog validate now tid th id v rest) db W L Q.
Proof.
  clear stamp. intros HW1 HW2 Hr t W1 H1. simpl in H1. assert (W1 = wnone) as -> by (repeat case_match; by simplify_eq).
  cbn beta. destruct (decode_values _) as [old|]; [|done]. cbv zeta. destruct (validate (merge_values v old)); [|done]. intros u2 W2 H2. simpl in H2.
  assert (w_runs W2 = ∅ ∧ w_ckpts W2 = ∅) as [E1 E2] by (repeat case_match; by simplify_eq).
  intros p W3 [= _ <-] u4 W4 H4. simpl in H4. rewrite E2, HW2, !(left_id_L ∅ (∪)) in H4. destruct (ckpts db !! _) eqn:Hn; [done|].
  injection H4 as _ <-. apply Hr; [simpl; by rewrite E1, HW1, !(left_id_L ∅ (∪))|].
  intros i k. simpl. rewrite E2, HW2, !(left_id_L ∅ (∪)), (right_id_L ∅ (∪)). by intros [<- <-]%lookup_singleton_Some.
Qed.

Lemma wp_complete db now x c : wp (complete_prog validate now x c) db wnone ∅ (λ out W L, commits out = true → quiet db W L).
Proof.
  clear stamp. intros [[[tid th] st] meta] W0 H0. simpl in H0. rewrite (left_id_L ∅ (∪)) in H0.
  destruct (runs db !! CRunID c) as [r|] eqn:Hr; [|done]. destruct (visible _ _); [|done].
  destruct (decode_meta _) as [m|]; [|done]. injection H0 as <- <- <- -> <-. cbv zeta.
  destruct (Applied _) eqn:Ha; simpl negb; cbv iota; [|simpl; by rewrite Ha].
  destruct (ResolveCompletion_fields meta c) as (Hid&_).
  assert (Ht : ∀ a W L, w_runs W = ∅ → own_ckpts db (r_thread r) W →
    wp (terminal_prog now (r_tenant r) (r_thread r) (ResolveCompletion meta c) meta (PRet a)) db W L (λ out W L, commits out = true → quiet db W L)).
  { intros a W L HW Hc. apply CheckCompletion_applied in Ha as (Ht&_). rewrite <- Hid in Hr.
    pose proof (wp_terminal db now (ResolveCompletion meta c) meta W L r a HW Hc Hr Ht) as Hwp. revert Hwp. clear. simpl.
    intros H r1 W1 H1 r2 W2 H2 n W3 H3. specialize (H r1 W1 H1 r2 W2 H2 n W3 H3). destruct (n =? 0); simpl in *; [|auto].
    intros u W4 H4. specialize (H u W4 H4). auto. }
  assert (own_ckpts db (r_thread r) (wmerge wnone wnone)) by (intros i k; simpl; by rewrite (left_id_L ∅ (∪)), lookup_empty).
  destruct (CValues _) as [v|]; [|by apply Ht]. destruct (validate v); [|done]. destruct (CancelCurrentAttempt _); simpl negb; cbv iota.
  - by apply Ht.
  - apply wp_values; [done|done|]. intros. by apply Ht.
Qed.

Lemma wp_begin db now x id g : map_Forall (λ _, known_status) (runs db) →
  wp (begin_prog now x id g) db wnone ∅ (λ out W L, commits out = true → quiet db W L).
Proof.
  clear validate stamp. intros Hk [[[tid th] st] meta] W0 H0. simpl in H0. rewrite (left_id_L ∅ (∪)) in H0.
  destruct (runs db !! id) as [r|] eqn:Hr; [|done]. destruct (visible _ _); [|done].
  destruct (decode_meta _) as [m|]; [|done]. injection H0 as <- <- <- -> <-.
  destruct (TerminalRunStatus (r_status r)) eqn:Ht; [done|]. destruct (_ <? _); [done|]. simpl.
  rewrite !(left_id_L ∅ (∪)), Hr, String.eqb_refl. intros u W [= _ <-] _.
  assert (active (r_status r) = true) by (destruct (Hk _ _ Hr); [done|congruence]).
  split; simpl; rewrite ?(left_id_L ∅ (∪)), ?(right_id_L ∅ (∪)); [done|..].
  - by intros i r' [<- <-]%lookup_singleton_Some; left.
  - intros i r' r0 [<- <-]%lookup_singleton_Some Hr0. rewrite Hr in Hr0. by injection Hr0 as <-.
  - intros i r' [<- <-]%lookup_singleton_Some. right. by exists r.
Qed.

(** Runs are created pending. *)
Definition creates_pending (o : sop) : Prop := match o with SCreate _ run => Status run = RunStatusPending | _ => True end.

Lemma wp_create db x run : Status run = RunStatusPending →
  wp (create_prog stamp x run) db wnone ∅ (λ out W L, commits out = true → quiet db W L).
Proof.
  clear validate. intros Hp t W1 H1. simpl in H1. assert (W1 = wnone) as -> by (repeat case_match; by simplify_eq).
  intros u W2 H2 _. simpl in H2. rewrite !(left_id_L ∅ (∪)) in H2. destruct (runs db !! _) eqn:Hr; [done|]. injection H2 as _ <-.
  eapply (quiet_one _ _ _ (RunID run) (stored_run stamp x run)); [|done|..].
  - simpl. by rewrite !(left_id_L ∅ (∪)), (right_id_L ∅ (∪)).
  - unfold key_set. simpl. set_solver.
  - intros i k. simpl. by rewrite !(left_id_L ∅ (∪)), lookup_empty.
  - left. simpl. by rewrite Hp.
  - intros r. by rewrite Hr.
Qed.

Lemma wp_prog o db : map_Forall (λ _, known_status) (runs db) → creates_pending o →
  wp (prog_of o) db wnone ∅ (λ out W L, commits out = true → quiet db W L).
Proof. intros Hk Ha. destruct o; [by apply wp_begin|apply wp_complete|by apply wp_create|done]. Qed.

(** A transaction that ran to its end did what it does alone. *)
Lemma serial_run o db out W L : rtc (pstep db) (prog_of o, wnone, ∅) (PRet out, W, L) →
  serial validate ts_le stamp o db = (if commits out then apply W db else db, Ok out).
Proof.
  intros H. destruct (rtc_den _ _ _ _ _ H 1%nat) as [n' Hn]. simpl in Hn. rewrite apply_none in Hn.
  assert (run_tx never CommitOk (den (prog_of o)) commits db = (if commits out then apply W db else db, Ok out)) as E.
  { unfold run_tx, never at 1. rewrite Hn. by destruct (commits out). }
  destruct o; [done..|]. by simpl in Hn.
Qed.

(** The commit of one transaction respects the locks of the others. *)
Lemma agree_commit db W L L' : wcovered W L → quiet db W L → L' ## L → agree L' db (apply W db).
Proof.
  clear validate ts_le stamp. intros (Hr&Ht&Hc) Hq Hd. split; simpl.
  - intros id Hid. symmetry. apply lookup_union_r. destruct (w_runs W !! id) eqn:E; [|done]. apply Hr in E. set_solver.
  - intros th Hth. symmetry. apply lookup_union_r. destruct (w_threads W !! th) eqn:E; [|done]. apply Ht in E. set_solver.
  - intros id Hid. symmetry. apply lookup_union_r. destruct (w_ckpts W !! id) eqn:E; [|done]. apply Hc in E. set_solver.
  - intros th id k Hth Hk. rewrite lookup_union_Some_raw. destruct (w_ckpts W !! id) as [k'|] eqn:E; [|naive_solver].
    destruct (qu_ckpts _ _ _ Hq _ _ E) as [HL Hn]. rewrite Hn. split; [done|]. intros [[= ->]|[]]; [|done]. subst. set_solver.
  - intros th tid id Hth. rewrite lookup_union. destruct (w_runs W !! id) as [r'|] eqn:E; [|by rewrite (left_id_L None _)].
    replace (Some r' ∪ runs db !! id) with (Some r') by (by destruct (runs db !! id)). simpl.
    pose proof (qu_owner _ _ _ Hq id) as Ho. destruct (qu_active _ _ _ Hq _ _ E) as [HL|(r&Er&Ha)].
    + assert (r_thread r' ≠ th) as Hne by (intros <-; set_solver). rewrite (proj2 (String.eqb_neq _ _) Hne). simpl.
      destruct (runs db !! id) as [r|] eqn:Er; [|done]. simpl. destruct (Ho r' r E eq_refl) as [-> _].
      by rewrite (proj2 (String.eqb_neq _ _) Hne).
    + rewrite Er. simpl. destruct (Ho r' r E Er) as [-> ->]. by rewrite Ha.
Qed.

Lemma known_commit db W L : quiet db W L → map_Forall (λ _, known_status) (runs db) → map_Forall (λ _, known_status) (runs (apply W db)).
Proof.
  clear validate ts_le stamp. intros Hq Hk id r [Hr|[_ Hr]]%lookup_union_Some_raw; [by eapply qu_known|by eapply Hk].
Qed.
End programs.

(** ** The server *)
Section server.
Context (d : dialect) (validate : gmap string any → bool) (ts_le : Z → Z → bool) (stamp : Z → Z).
Notation prog_of := (prog_of validate stamp).
Notation serial := (serial validate ts_le stamp).
Notation qstep := (qstep d validate ts_le stamp).
Notation pstep := (pstep ts_le).
Notation known := (map_Forall (λ _, known_status)).

(** The calls of [log], one at a time, from [db0]. *)
Inductive replay (db0 : DB) : list (nat * sop * outcome) → DB → Prop :=
| replay_nil : replay db0 [] db0
| replay_snoc log db i o out : replay db0 log db → (serial o db).2 = Ok out →
    replay db0 (log ++ [(i, o, out)]) (serial o db).1.

Definition snap_ok (db : DB) (p : prog outcome) (L : gset row_key) (snap : option DB) : Prop :=
  ∃ seen, guarded p L seen ∧ default L seen ⊆ L ∧
    (d = MySQL → match snap, seen with Some d0, Some H => agree H d0 db | None, None => True | _, _ => False end).

Definition sess_ok (db : DB) (s : sess) : Prop :=
  match x_txn s with
  | Running p W L snap => creates_pending (x_op s) ∧ rtc (pstep db) (prog_of (x_op s), wnone, ∅) (p, W, L) ∧ snap_ok db p L snap
  | Done _ => True
  end.

Lemma sess_ok_agree db db' s : agree (locks_of s) db db' → sess_ok db s → sess_ok db' s.
Proof.
  unfold sess_ok, locks_of. destruct (x_txn s) as [p W L snap|]; [|done]. intros Ha (Hp&Hr&seen&Hg&Hs&Hm).
  split_and!; [done|by eapply rtc_frame|]. exists seen. split_and!; [done|done|]. intros E. specialize (Hm E).
  destruct snap as [d0|], seen as [H|]; try done. eapply agree_trans; [done|]. by eapply agree_mono.
Qed.

Record sinv (db0 : DB) (w : SqlServer) : Prop := {
  si_known : known (runs (q_db w));
  si_ok i s : q_sessions w !! i = Some s → sess_ok (q_db w) s;
  si_disjoint i j s t : i ≠ j → q_sessions w !! i = Some s → q_sessions w !! j = Some t → locks_of s ## locks_of t;
  si_replay : replay db0 (q_log w) (q_db w);
  si_done i s out : q_sessions w !! i = Some s → x_txn s = Done (Ok out) → (i, x_op s, out) ∈ q_log w;
  si_log i o out : (i, o, out) ∈ q_log w → ∃ s, q_sessions w !! i = Some s ∧ x_op s = o ∧ (x_txn s = Done (Ok out) ∨ x_txn s = Done (Err EDriver));
  si_nodup : NoDup ((q_log w).*1.*1)
}.

Lemma locked_by_other_false k i w j s : locked_by_other k i w = false → j ≠ i → q_sessions w !! j = Some s → k ∉ locks_of s.
Proof.
  intros H Hne Hj Hk. apply not_true_iff_false in H. apply H, existsb_exists. exists (j, s). split.
  - apply list_elem_of_In, list_elem_of_lookup. exists j. by rewrite list_lookup_imap, Hj.
  - apply andb_true_iff. split; [by apply negb_true_iff, Nat.eqb_neq|by apply bool_decide_eq_true].
Qed.

(** The sessions after one of them moves. *)
Lemma set_txn_lookup i t w j s : q_sessions (set_txn i t w) !! j = Some s →
  (j ≠ i ∧ q_sessions w !! j = Some s) ∨ (j = i ∧ ∃ s0, q_sessions w !! i = Some s0 ∧ s = mkSess (x_op s0) t).
Proof.
  simpl. destruct (decide (j = i)) as [->|Hne].
  - rewrite list_lookup_alter_eq. destruct (q_sessions w !! i) as [s0|]; [|done]. intros [= <-]. right. by split; [|exists s0].
  - rewrite list_lookup_alter_ne by done. by left.
Qed.

(** The session moves on, or ends without effect. *)
Lemma sinv_set db0 w i s p W L snap t : sinv db0 w → q_sessions w !! i = Some s → x_txn s = Running p W L snap →
  sess_ok (q_db w) (mkSess (x_op s) t) → (∀ out, t ≠ Done (Ok out)) →
  (∀ j s', j ≠ i → q_sessions w !! j = Some s' → locks_of (mkSess (x_op s) t) ## locks_of s') →
  sinv db0 (set_txn i t w).
Proof.
  intros [Hk Hok Hdj Hrp Hdn Hlg Hnd] Hi Ht Hs Hnot Hl. split; [done|..|done| | |done].
  - intros j s' [[Hne Hj]|(->&s0&Hs0&->)]%set_txn_lookup; [by eapply Hok|]. rewrite Hi in Hs0. by injection Hs0 as <-.
  - intros j1 j2 s1 s2 Hne [[Hn1 H1]|(->&s0&Hs0&->)]%set_txn_lookup [[Hn2 H2]|(->&s0'&Hs0'&->)]%set_txn_lookup; simplify_eq; [by apply (Hdj j1 j2)|..].
    + symmetry. by apply (Hl j1).
    + by apply (Hl j2).
  - intros j s' out [[Hne Hj]|(->&s0&Hs0&->)]%set_txn_lookup Ho; [by apply Hdn|]. by destruct (Hnot out).
  - intros j o out Hin. destruct (Hlg _ _ _ Hin) as (s'&Hj&Ho&Hd). exists s'. split; [|done]. simpl. rewrite list_lookup_alter_ne; [done|].
    intros ->. rewrite Hi in Hj. injection Hj as <-. rewrite Ht in Hd. by destruct Hd.
Qed.

Lemma sinv_fail db0 w i s p W L snap e : sinv db0 w → q_sessions w !! i = Some s → x_txn s = Running p W L snap →
  sinv db0 (set_txn i (Done (Err e)) w).
Proof. intros Hw Hi Ht. eapply sinv_set; [done..|]. intros j s' _ _. apply disjoint_empty_l. Qed.

(** The session takes effect at its end: [db'] is what it does alone. *)
Lemma sinv_record db0 w i s p W L snap db' out t : sinv db0 w → q_sessions w !! i = Some s → x_txn s = Running p W L snap →
  serial (x_op s) (q_db w) = (db', Ok out) → known (runs db') →
  (∀ j s', j ≠ i → q_sessions w !! j = Some s' → agree (locks_of s') (q_db w) db') →
  t = Done (Ok out) ∨ t = Done (Err EDriver) → sinv db0 (set_txn i t (record i s db' out w)).
Proof.
  intros [Hk Hok Hdj Hrp Hdn Hlg Hnd] Hi Ht Hser Hk' Hag Hend.
  assert (Hfresh : ∀ o out', (i, o, out') ∉ q_log w).
  { intros o out' Hin. destruct (Hlg _ _ _ Hin) as (s'&Hj&_&Hd). rewrite Hi in Hj. injection Hj as <-. rewrite Ht in Hd. by destruct Hd. }
  assert (Hnone : locks_of (mkSess (x_op s) t) = ∅) by (destruct Hend as [->| ->]; done).
  split; [done|..].
  - intros j s' [[Hne Hj]|(->&s0&Hs0&->)]%set_txn_lookup; [eapply sess_ok_agree; [by eapply Hag|by eapply Hok]|]. by destruct Hend as [->| ->].
  - intros j1 j2 s1 s2 Hne [[Hn1 H1]|(->&s0&Hs0&->)]%set_txn_lookup [[Hn2 H2]|(->&s0'&Hs0'&->)]%set_txn_lookup; simpl in *; simplify_eq; [by apply (Hdj j1 j2)|..].
    + rewrite Hnone. set_solver.
    + rewrite Hnone. set_solver.
  - simpl. replace db' with (serial (x_op s) (q_db w)).1 by (by rewrite Hser). constructor; [done|by rewrite Hser].
  - intros j s' o' [[Hne Hj]|(->&s0&Hs0&->)]%set_txn_lookup Ho; simpl in *; apply elem_of_app; [left; by apply Hdn|right].
    rewrite Hi in Hs0. injection Hs0 as <-. destruct Hend as [->| ->]; [|done]. injection Ho as ->. set_solver.
  - intros j o o' [Hin|Hin%list_elem_of_singleton]%elem_of_app.
    + assert (j ≠ i) by (intros ->; by destruct (Hfresh o o')). destruct (Hlg _ _ _ Hin) as (s'&Hj&Ho&Hd). exists s'. split; [|done].
      simpl. by rewrite list_lookup_alter_ne.
    + injection Hin as -> -> ->. eexists. split; [simpl; rewrite list_lookup_alter_eq, Hi; reflexivity|]. split; [done|]. by destruct Hend as [->| ->]; [left|right].
  - simpl. rewrite !fmap_app. apply list.NoDup_app. split_and!; [done| |apply NoDup_singleton].
    intros j Hj Hs%list_elem_of_singleton. simpl in Hs. subst j.
    apply list_elem_of_fmap in Hj as ([j' o]&E&Hj). apply list_elem_of_fmap in Hj as ([[j2 o2] out2]&E2&Hj).
    simplify_eq/=. by apply Hfresh in Hj.
Qed.

Lemma sinv_stmt {R} db0 w i s (q : sql R) k W L snap : sinv db0 w → q_sessions w !! i = Some s → x_txn s = Running (PStmt q k) W L snap →
  sinv db0 (stmt_step d ts_le i q k W L snap w).
Proof.
  intros Hw Hi Ht. unfold stmt_step. destruct (match q_key q with Some _ => _ | None => _ end) eqn:Hfree; [done|].
  pose proof (si_ok _ _ Hw _ _ Hi) as Hs. unfold sess_ok in Hs. rewrite Ht in Hs. destruct Hs as (Hp&Hr&seen&[Hg1 Hg2]&Hsub&Hm).
  assert (Hcov : covered q (L ∪ key_set q)).
  { unfold covered, key_set. split; [destruct (q_key q); set_solver|]. destruct (q_plain q); set_solver. }
  assert (Hread : q_sem ts_le q (apply W (read_from d q snap (q_db w))) = q_sem ts_le q (apply W (q_db w))).
  { unfold read_from. destruct d; [done|]. destruct (q_plain q) as [th|] eqn:Hq; [|done]. specialize (Hm eq_refl).
    destruct snap as [d0|], seen as [H|]; try done. simpl in *. apply (q_sem_frame _ q H); [done|].
    split; [destruct q; done|by rewrite Hq]. }
  rewrite Hread. destruct (q_sem ts_le q (apply W (q_db w))) as [[r W']|e] eqn:Hsem; [|by eapply sinv_fail].
  eapply sinv_set; [done|done|done|..|done|].
  - split_and!; [done|eapply rtc_r; [done|by constructor]|]. exists (match q_plain q with Some _ => Some (default L seen) | None => seen end).
    split_and!; [apply Hg2|destruct (q_plain q), seen; simpl in *; set_solver|]. intros E. specialize (Hm E). unfold snap_after. rewrite E.
    destruct (q_plain q) as [th|]; [|done]. destruct snap as [d0|], seen as [H|]; done.
  - intros j s' Hne Hj. pose proof (si_disjoint _ _ Hw i j s s' (not_eq_sym Hne) Hi Hj) as Hdj. unfold locks_of in Hdj at 1. rewrite Ht in Hdj.
    unfold locks_of at 1. simpl. unfold key_set. destruct (q_key q) as [key|]; [|set_solver].
    pose proof (locked_by_other_false key i w j s' Hfree Hne Hj). set_solver.
Qed.

Lemma sinv_finish db0 w i s co out W L snap : sinv db0 w → q_sessions w !! i = Some s → x_txn s = Running (PRet out) W L snap →
  sinv db0 (finish co i s W out w).
Proof.
  intros Hw Hi Ht. pose proof (si_ok _ _ Hw _ _ Hi) as Hs. unfold sess_ok in Hs. rewrite Ht in Hs. destruct Hs as (Hp&Hr&_).
  apply serial_run in Hr as Hser. unfold finish. destruct (commits out) eqn:Hc.
  - pose proof (wp_sound _ _ _ _ _ _ _ Hr (wp_prog validate ts_le stamp _ _ (si_known _ _ Hw) Hp) Hc) as Hq.
    apply rtc_wcovered in Hr as Hcov. simpl in Hcov.
    assert (Hrec : ∀ t, t = Done (Ok out) ∨ t = Done (Err EDriver) → sinv db0 (set_txn i t (record i s (apply W (q_db w)) out w))).
    { intros t Hend. eapply sinv_record; [done|done|done|done| | |done].
      - eapply known_commit; [done|apply Hw].
      - intros j s' Hne Hj. eapply agree_commit; [done|done|]. pose proof (si_disjoint _ _ Hw j i s' s Hne Hj Hi) as Hdj.
        unfold locks_of in Hdj at 2. by rewrite Ht in Hdj. }
    destruct co; [by apply Hrec; left|by eapply sinv_fail|by apply Hrec; right].
  - eapply sinv_record; [done|done|done|done|apply Hw| |by left]. intros. apply agree_refl.
Qed.

Lemma sinv_sess db0 w i fails co : sinv db0 w → sinv db0 (sess_step d ts_le i fails co w).
Proof.
  intros Hw. unfold sess_step. destruct (q_sessions w !! i) as [s|] eqn:Hi; [|done].
  destruct (x_txn s) as [p W L snap|] eqn:Ht; [|done]. destruct fails; [by eapply sinv_fail|].
  destruct p; [by eapply sinv_finish|by eapply sinv_fail|by eapply sinv_stmt].
Qed.

(** A new session, at work or already at its end. *)
Lemma sinv_new db0 w o t db' log' : sinv db0 w → known (runs db') → sess_ok db' (mkSess o t) → locks_of (mkSess o t) = ∅ →
  (∀ j s', q_sessions w !! j = Some s' → agree (locks_of s') (q_db w) db') →
  ((log' = q_log w ∧ db' = q_db w ∧ ∀ out, t ≠ Done (Ok out)) ∨
   ∃ out, t = Done (Ok out) ∧ log' = q_log w ++ [(length (q_sessions w), o, out)] ∧ serial o (q_db w) = (db', Ok out)) →
  sinv db0 (mkSql db' (q_sessions w ++ [mkSess o t]) log').
Proof.
  intros [Hk Hok Hdj Hrp Hdn Hlg Hnd] Hk' Hs Hl Hag Hlog.
  assert (Hlt : ∀ i o' out, (i, o', out) ∈ q_log w → (i < length (q_sessions w))%nat).
  { intros i o' out Hin. destruct (Hlg _ _ _ Hin) as (s&Hi&_). by eapply lookup_lt_Some. }
  assert (Hsub : ∀ e, e ∈ q_log w → e ∈ log') by (intros e He; destruct Hlog as [(->&_)|(out&_&->&_)]; [done|set_solver]).
  split; simpl; [done|..].
  - intros i s [Hi|[_ Hi]]%lookup_app_Some; [eapply sess_ok_agree; eauto|]. by apply list_lookup_singleton_Some in Hi as [_ <-].
  - intros i j s1 s2 Hne [H1|[G1 H1]]%lookup_app_Some [H2|[G2 H2]]%lookup_app_Some;
      rewrite ?list_lookup_singleton_Some in *; [by apply (Hdj i j)|..].
    + destruct H2 as [_ <-]. rewrite Hl. set_solver.
    + destruct H1 as [_ <-]. rewrite Hl. set_solver.
    + lia.
  - destruct Hlog as [(->&->&_)|(out&_&->&Hser)]; [done|]. replace db' with (serial o (q_db w)).1 by (by rewrite Hser).
    constructor; [done|by rewrite Hser].
  - intros i s out [Hi|[G Hi]]%lookup_app_Some Ho; [apply Hsub; by apply Hdn|]. apply list_lookup_singleton_Some in Hi as [E <-].
    simpl in *. destruct Hlog as [(_&_&Hno)|(out'&->&->&_)]; [by destruct (Hno out)|]. injection Ho as ->.
    assert (i = length (q_sessions w)) as -> by lia. set_solver.
  - intros i o' out Hin.
    assert (Hold : (i, o', out) ∈ q_log w → ∃ s, (q_sessions w ++ [mkSess o t]) !! i = Some s ∧ x_op s = o' ∧ (x_txn s = Done (Ok out) ∨ x_txn s = Done (Err EDriver))).
    { intros Hi. destruct (Hlg _ _ _ Hi) as (s&Hs'&?&?). exists s. split; [by apply lookup_app_l_Some|done]. }
    destruct Hlog as [(->&_)|(out'&->&->&_)]; [auto|]. apply elem_of_app in Hin as [Hin|Hin%list_elem_of_singleton]; [auto|].
    injection Hin as -> -> ->. exists (mkSess o (Done (Ok out'))). split; [by apply list_lookup_middle|]. by split; [|left].
  - destruct Hlog as [(->&_)|(out'&_&->&_)]; [done|]. rewrite !fmap_app. apply list.NoDup_app. split_and!; [done| |apply NoDup_singleton].
    intros i Hi Hs'%list_elem_of_singleton. simpl in Hs'. subst i. apply list_elem_of_fmap in Hi as ([j' o1]&E&Hj).
    apply list_elem_of_fmap in Hj as ([[j2 o2] out2]&E2&Hj). simplify_eq/=. apply Hlt in Hj. lia.
Qed.

Lemma sinv_claim db0 w now x th : sinv db0 w → sinv db0 (claim_step now x th w).
Proof.
  intros Hw. unfold claim_step. destruct (try_claim now x th (q_db w)) as [db' b] eqn:Hc. destruct (b && _) eqn:Hb; [done|].
  assert (Hser : serial (SClaim now x th) (q_db w) = (db', Ok (Claimed b))) by (simpl; by rewrite Hc).
  unfold try_claim in Hc. eapply sinv_new; [done| |done|done| |right; by exists (Claimed b)].
  - repeat case_match; simplify_eq; apply Hw.
  - intros j s' Hj. repeat case_match; simplify_eq; [|apply agree_refl..]. simpl in Hb.
    assert (ThreadRow th ∉ locks_of s') by (eapply locked_by_other_false; [done| |done]; apply lookup_lt_Some in Hj; lia).
    split; try done. intros th' Hth'. simpl. rewrite lookup_insert_ne; [done|]. set_solver.
Qed.

Lemma sinv_step db0 w a : match a with QStart o => creates_pending o | _ => True end → sinv db0 w → sinv db0 (qstep w a).
Proof.
  intros Ha Hw. destruct a as [o|i fails co]; [|by apply sinv_sess].
  assert (Hnew : sinv db0 (mkSql (q_db w) (q_sessions w ++ [mkSess o (Running (prog_of o) wnone ∅ None)]) (q_log w))).
  { eapply sinv_new; [done|apply Hw| |done| |by left].
    - split_and!; [done|apply rtc_refl|]. exists None. split_and!; [apply guarded_prog|done|done].
    - intros. apply agree_refl. }
  destruct o; [done..|]. by apply sinv_claim.
Qed.

(** The states the servers reach. *)
Inductive sreach (db0 : DB) : SqlServer → Prop :=
| sreach_start : sreach db0 (mkSql db0 [] [])
| sreach_step w a : sreach db0 w → match a with QStart o => creates_pending o | _ => True end → sreach db0 (qstep w a).

Lemma sreach_inv db0 w : known (runs db0) → sreach db0 w → sinv db0 w.
Proof.
  intros Hk H. induction H as [|w a Hr IH Ha]; [|by apply sinv_step]. split; simpl; try done; [constructor|..].
  - intros i o out Hin. by apply elem_of_nil in Hin.
  - apply NoDup_nil_2.
Qed.

(** C23. PostgreSQL and MySQL run dispatches, completions, creations and claims as if
    one at a time: in any state reached by any interleaving of their statements, with
    statements and commits that fail and acknowledgements that are lost, the
    committed tables are those of the calls of the log made one after the other, each
    with the answer it has alone; every call that was answered is in the log, once,
    with the answer it got, and a call in the log was answered with that or lost its
    acknowledgement. *)
Theorem sql_serializable db0 w : known (runs db0) → sreach db0 w →
  replay db0 (q_log w) (q_db w) ∧ NoDup ((q_log w).*1.*1) ∧
  (∀ i s out, q_sessions w !! i = Some s → x_txn s = Done (Ok out) → (i, x_op s, out) ∈ q_log w) ∧
  (∀ i o out, (i, o, out) ∈ q_log w →
     ∃ s, q_sessions w !! i = Some s ∧ x_op s = o ∧ (x_txn s = Done (Ok out) ∨ x_txn s = Done (Err EDriver))).
Proof. intros Hk Hr. by destruct (sreach_inv db0 w Hk Hr). Qed.
End server.

(** ** Alone, a call is the shared driver's *)

Definition answer {A} (f : A → outcome) (p : DB * res err A) : DB * res err outcome :=
  (p.1, match p.2 with Ok a => Ok (f a) | Err e => Err e end).

Section alone.
Context (validate : gmap string any → bool) (ts_le : Z → Z → bool) (stamp : Z → Z).
Notation den := (den ts_le).
Notation serial := (serial validate ts_le stamp).

Lemma run_tx_map {A B} (f : A → B) (m : tx A) (m' : tx B) cA cB db :
  (∀ n db, m' n db = match m n db with Ok (a, n', db') => Ok (f a, n', db') | Err e => Err e end) → (∀ a, cB (f a) = cA a) →
  run_tx never CommitOk m' cB db = (let p := run_tx never CommitOk m cA db in (p.1, match p.2 with Ok a => Ok (f a) | Err e => Err e end)).
Proof.
  intros Hm Hc. unfold run_tx, never. rewrite Hm. destruct (m 1%nat db) as [[[a n'] db']|]; [|done]. rewrite Hc. by destruct (cA a).
Qed.

Lemma serial_begin now x id g db :
  serial (SBegin now x id g) db = answer Began (BeginRunAttempt never CommitOk now x id g db).
Proof.
  apply (run_tx_map Began); [|done]. intros n db1. unfold begin_attempt_body, begin_prog. simpl. unfold tbind at 1 2.
  destruct (load never x id n db1) as [[[[[[tid th] st] meta] n1] db2]|]; [|done]. destruct (_ || _); [done|]. simpl. unfold tbind.
  by destruct (update_run never _ _ _ _ _) as [[[[] n2] db3]|].
Qed.

Lemma den_values now tid th id v rest n db :
  den (values_prog validate now tid th id v rest) n db = tbind (write_thread_values never validate ts_le now tid th id v) (λ _, den rest) n db.
Proof.
  unfold values_prog, write_thread_values. simpl. unfold tbind at 1 2 3.
  destruct (select_thread never th tid n db) as [[[t n1] db1]|]; [|done]. destruct (decode_values _) as [old|]; [|done].
  unfold check_values. destruct (validate _); [|done]. simpl. unfold tbind, tret. destruct (update_thread never _ _ _ _ _ _) as [[[[] n2] db2]|]; [|done].
  destruct (select_parent never ts_le th tid n2 db2) as [[[p n3] db3]|]; [|done]. by destruct (insert_ckpt never _ _ _ _) as [[[[] n4] db4]|].
Qed.

Lemma den_terminal now tid th c meta rest n db :
  den (terminal_prog now tid th c meta rest) n db = tbind (write_terminal never now tid th c meta) (λ _, den rest) n db.
Proof.
  unfold terminal_prog, write_terminal. simpl. unfold tbind.
  destruct (update_run never _ _ _ _ _) as [[[[] n1] db1]|]; [|done].
  destruct (select_thread never th tid n1 db1) as [[[t n2] db2]|]; [|done].
  destruct (select_active never th tid (CRunID c) n2 db2) as [[[k n3] db3]|]; [|done]. destruct (k =? 0); [|done]. simpl. unfold tbind.
  by destruct (update_thread never _ _ _ _ _ _) as [[[[] n4] db4]|].
Qed.

Lemma serial_complete now x c db :
  serial (SComplete now x c) db = answer Completed (CompleteRun never validate ts_le CommitOk now x c db).
Proof.
  apply (run_tx_map Completed); [|done]. intros n db1. unfold CompleteRunInTx, complete_prog. simpl. unfold tbind at 1 2.
  destruct (load never x (CRunID c) n db1) as [[[[[[tid th] st] meta] n1] db2]|]; [|done]. destruct (negb (Applied _)); [done|].
  set (res := CheckCompletion _ _ _). set (c' := ResolveCompletion meta c).
  assert (Ht : ∀ n2 db3, den (terminal_prog now tid th c' meta (PRet (Completed res))) n2 db3 =
    match tbind (write_terminal never now tid th c' meta) (λ _, tret res) n2 db3 with Ok (a, n', db') => Ok (Completed a, n', db') | Err e => Err e end).
  { intros. rewrite den_terminal. unfold tbind. by destruct (write_terminal _ _ _ _ _ _ _ _) as [[[[] n4] db4]|]. }
  destruct (CValues c') as [v|]; [|apply Ht]. unfold check_values. destruct (validate v); [|done].
  destruct (negb (CancelCurrentAttempt c')); [|apply Ht]. rewrite den_values. unfold tbind at 1. unfold tbind at 1. unfold tbind at 1. unfold tret at 1.
  destruct (write_thread_values _ _ _ _ _ _ _ _ _ _) as [[[[] n4] db4]|]; [|done]. apply Ht.
Qed.
End alone.

(** * Completion on PostgreSQL and MySQL
    What the sequence of calls of [SqlSessionsProps.v] gives for completions whose
    statements interleave.  *)

Local Open Scope string_scope.
Local Open Scope Z_scope.
Local Open Scope list_scope.

Section once.
Context (d : dialect) (validate : gmap string any → bool) (ts_le : Z → Z → bool) (stamp : Z → Z).
Notation serial := (serial validate ts_le stamp).
Notation replay := (replay validate ts_le stamp).

(** A dispatch or a completion keeps a completed run's row, and its mark. *)
Lemma driver_marked k db id r : match c_op k with OBegin _ _ _ | OComplete _ _ => True | _ => False end →
  runs db !! id = Some r → marked r → ∃ r', runs (exec validate ts_le k db) !! id = Some r' ∧ marked r'.
Proof.
  intros Hk Hr Hm. destruct (exec_changed validate ts_le k db) as [H _].
  destruct H as [|id' row Hn Hc|id' r0 r' Er' Hu|id' r0 _ E _|t E|th t E _ _]; try (rewrite E in Hk; done).
  - by exists r.
  - exists r. by rewrite lookup_insert_ne by congruence.
  - destruct (decide (id' = id)) as [->|Hne]; [|exists r; by rewrite lookup_insert_ne].
    rewrite Hr in Er'. injection Er' as <-. exists r'. rewrite lookup_insert_eq. split; [done|]. by eapply updates_marked.
Qed.

Lemma serial_marked o db id r : runs db !! id = Some r → marked r → ∃ r', runs (serial o db).1 !! id = Some r' ∧ marked r'.
Proof.
  intros Hr Hm. destruct o as [now x id' g|now x c|x run|now x th].
  - rewrite serial_begin. by apply (driver_marked (mkCall (OBegin now id' g) x never CommitOk) db id r).
  - rewrite serial_complete. by apply (driver_marked (mkCall (OComplete now c) x never CommitOk) db id r).
  - exists r. split; [|done]. simpl. unfold run_tx, never at 1. simpl. unfold tbind. unfold select_thread, stmt, never.
    destruct (threads db !! _) as [t|]; [|done]. destruct (String.eqb _ _); [|done]. destruct (runs db !! RunID run) eqn:Hn; [done|].
    simpl. rewrite lookup_insert_ne; [done|]. congruence.
  - exists r. split; [|done]. simpl. unfold try_claim. destruct (threads db !! th) as [t|]; [destruct (claimable x t)|]; done.
Qed.

Lemma serial_applied now x c db r : (serial (SComplete now x c) db).2 = Ok (Completed r) → Applied r = true →
  (∃ r', runs (serial (SComplete now x c) db).1 !! CRunID c = Some r' ∧ marked r') ∧
  (∀ r0, runs db !! CRunID c = Some r0 → ~ marked r0).
Proof.
  rewrite serial_complete. unfold answer. simpl. intros Hr Ha.
  destruct ((CompleteRun never validate ts_le CommitOk now x c db).2) as [res|] eqn:Hres; [|done]. injection Hr as ->. split.
  - destruct (CompleteRun_cases never validate ts_le CommitOk now x c db) as [[_ Hno]|(res&H&_&Hok)].
    + destruct (Hno _ Hres) as [_ Hf]. congruence.
    + destruct Hok as [Hok|[? _]]; [|done]. rewrite Hok in Hres. injection Hres as ->.
      apply spec_complete_inv in H as (r0&meta&t&t'&_&_&_&_&_&_&_&_&Hrs&_); [|done]. rewrite Hrs, lookup_insert_eq. eexists. split; [done|]. apply completed_marked.
  - intros r0 Hr0 Hm. destruct (complete_marked validate ts_le (mkCall (OComplete now c) x never CommitOk) now c db r0 Hr0 Hm) as [_ Hf].
    rewrite (Hf _ Hres) in Ha. done.
Qed.

(** The run a log entry completed. *)
Definition completes (id : string) (e : nat * sop * outcome) : Prop :=
  ∃ i now x c r, e = (i, SComplete now x c, Completed r) ∧ CRunID c = id ∧ Applied r = true.

Lemma replay_once db0 log db : replay db0 log db →
  (∀ id e, e ∈ log → completes id e → ∃ r, runs db !! id = Some r ∧ marked r) ∧
  (∀ id e1 e2, e1 ∈ log → e2 ∈ log → completes id e1 → completes id e2 → e1 = e2).
Proof.
  induction 1 as [|log db i o out Hr [IH1 IH2] Ho].
  - split; [intros ? ? []%elem_of_nil|intros ? ? ? []%elem_of_nil].
  - assert (Hlast : ∀ id, completes id (i, o, out) →
      (∃ r, runs (serial o db).1 !! id = Some r ∧ marked r) ∧ ∀ e, e ∈ log → ~ completes id e).
    { intros id (i'&now&x&c&r&[= -> -> ->]&<-&Ha). destruct (serial_applied _ _ _ _ _ Ho Ha) as [H1 H2]. split; [done|].
      intros e He Hc. destruct (IH1 _ e He Hc) as (r0&Hr0&Hm). by apply (H2 r0). }
    split.
    + intros id e [He| ->%list_elem_of_singleton]%elem_of_app Hc; [|by apply Hlast]. destruct (IH1 _ _ He Hc) as (r&Hr0&Hm).
      by apply (serial_marked o db id r).
    + intros id e1 e2 [H1| ->%list_elem_of_singleton]%elem_of_app [H2| ->%list_elem_of_singleton]%elem_of_app C1 C2; [by apply (IH2 id)| | |done].
      * destruct (Hlast _ C2) as [_ Hn]. by destruct (Hn e1).
      * destruct (Hlast _ C1) as [_ Hn]. by destruct (Hn e2).
Qed.

(** C24. On PostgreSQL and on MySQL a run is completed at most once: of all the
    completions of a run whose statements interleave, at most one takes effect, and
    no two are told that theirs was applied. *)
Theorem sql_completion_once db0 w i1 i2 now1 now2 x1 x2 c1 c2 r1 r2 :
  map_Forall (λ _, known_status) (runs db0) → sreach d validate ts_le stamp db0 w →
  (i1, SComplete now1 x1 c1, Completed r1) ∈ q_log w → (i2, SComplete now2 x2 c2, Completed r2) ∈ q_log w →
  CRunID c1 = CRunID c2 → Applied r1 = true → Applied r2 = true → i1 = i2.
Proof.
  intros Hk Hr H1 H2 Hid Ha1 Ha2. destruct (sreach_inv d validate ts_le stamp db0 w Hk Hr) as [_ _ _ Hrep _ _ _].
  destruct (replay_once _ _ _ Hrep) as [_ Hu]. assert (E : (i1, SComplete now1 x1 c1, Completed r1) = (i2, SComplete now2 x2 c2, Completed r2)).
  { apply (Hu (CRunID c1)); [done|done|..]; by repeat eexists. }
  by injection E.
Qed.
End once.

(** ** A race *)

Lemma sreach_foldl d validate ts_le stamp db0 w l : sreach d validate ts_le stamp db0 w →
  Forall (λ a, match a with QStart o => creates_pending o | _ => True end) l →
  sreach d validate ts_le stamp db0 (foldl (qstep d validate ts_le stamp) w l).
Proof. intros Hr Hl. revert w Hr. induction Hl as [|a l Ha Hl IH]; intros w Hr; [done|]. simpl. apply IH. by constructor. Qed.

Definition running_run : run_row := mkRun "acme" "th" "a" RunStatusRunning ColEmpty ColEmpty "" 0 0 (mkSpec "" "" None None 0).
Definition race_db : DB :=
  mkDB {["r1" := running_run; "r2" := running_run]} {["th" := mkThread "acme" "busy" ColNull 1 0 ColNull 0]} ∅ ∅.
Definition outcome_of (id status : string) (values : option (gmap string any)) : RunCompletion :=
  mkCompletion false None "" false id 0 status "" values.
Definition of_acme : ctx := mkCtx (Some "acme") false.

(** Two completions of one run, one of another run of its thread and a dispatch, a
    statement of each in turn. *)
Definition race : list qact :=
  [QStart (SComplete 5 of_acme (outcome_of "r1" RunStatusSuccess (Some {["k" := AStr "v"]})));
   QStart (SComplete 6 of_acme (outcome_of "r1" RunStatusError None));
   QStart (SComplete 7 of_acme (outcome_of "r2" RunStatusError None));
   QStart (SBegin 8 of_acme "r1" 0)]
  ++ concat (replicate 40 [QStep 0 false CommitOk; QStep 1 false CommitOk; QStep 2 false CommitOk; QStep 3 false CommitOk])
  ++ [QStart (SClaim 9 of_acme "th")].

Definition raced (d : dialect) : SqlServer := foldl (qstep d (λ _, true) Z.leb (λ t, t)) (mkSql race_db [] []) race.

Lemma raced_reach d : sreach d (λ _, true) Z.leb (λ t, t) race_db (raced d).
Proof. apply sreach_foldl; [constructor|]. by repeat constructor. Qed.

Lemma race_known : map_Forall (λ _, known_status) (runs race_db).
Proof. intros id r Hr. unfold race_db in Hr. simpl in Hr. apply lookup_insert_Some in Hr as [[_ <-]|[_ [_ <-]%lookup_singleton_Some]]; by left. Qed.

Definition applied : outcome := Completed (mkResult true true).

Lemma sql_serializable_witness :
  replay (λ _, true) Z.leb (λ t, t) race_db (q_log (raced MySQL)) (q_db (raced MySQL)) ∧
  map x_txn (q_sessions (raced MySQL)) =
    [Done (Ok applied); Done (Ok (Completed no_result)); Done (Ok applied); Done (Ok (Began false)); Done (Ok (Claimed true))].
Proof. split; [apply (sql_serializable MySQL _ _ _ _ _ race_known (raced_reach MySQL))|vm_compute; reflexivity]. Defined.

Lemma sql_completion_once_witness :
  (0 = 0)%nat ∧
  map (λ e, (e.1.1, e.2)) (q_log (raced Postgres)) = [(0%nat, applied); (1%nat, Completed no_result); (3%nat, Began false); (2%nat, applied); (4%nat, Claimed true)].
Proof.
  assert (H : (0%nat, SComplete 5 of_acme (outcome_of "r1" RunStatusSuccess (Some {["k" := AStr "v"]})), applied) ∈ q_log (raced Postgres)).
  { apply list_elem_of_lookup. exists 0%nat. vm_compute. reflexivity. }
  split; [|vm_compute; reflexivity].
  exact (sql_completion_once Postgres (λ _, true) Z.leb (λ t, t) race_db (raced Postgres) 0 0 5 5 of_acme of_acme _ _ _ _
           race_known (raced_reach Postgres) H H eq_refl eq_refl eq_refl).
Defined.
