(* ===== verification/RateLimit.v ===== *)
(** * Rate limits

    [internal/ratelimit/{ratelimit,memory,redis}.go]: the token-bucket script that
    replicas share through Redis, the process-local buckets, the limiter's
    dimensions and its middleware.

    The script's numbers are Lua's doubles.  It is written over a class of numbers
    with an instance for doubles, which concrete runs use, and one for exact
    fractions, for which the bound is stated.  Redis keeps its own clock, in
    milliseconds, for the expiry of keys.  [golang.org/x/time/rate] is a
    parameter. *)

From Stdlib Require Import String QArith Lqa.
From S2P Require Import Prelude GoAny Store.
Local Open Scope string_scope.
Local Open Scope Z_scope.

(** ** Numbers *)

Class Num (N : Type) := {
  n_add : N → N → N;
  n_sub : N → N → N;
  n_mul : N → N → N;
  n_le : N → N → bool;
  n_lt : N → N → bool;
  n_of_Z : Z → N
}.

#[export] Instance float_num : Num float64 := {|
  n_add := f64_add; n_sub := f64_sub; n_mul := f64_mul; n_le := f64_le; n_lt := f64_lt; n_of_Z := f64_of_Z
|}.

#[export] Instance exact_num : Num Q := {|
  n_add := Qplus; n_sub := Qminus; n_mul := Qmult; n_le := Qle_bool; n_lt := λ a b, negb (Qle_bool b a);
  n_of_Z := inject_Z
|}.

Section limiter.
Context {N : Type} `{!Num N}.

Record Rule := mkRule { RPS : N; Burst : Z }.

(** [math.min] *)
Definition n_min (a b : N) : N := if n_lt b a then b else a.

(** ** The shared buckets *)

(** The hash of a key: what it holds, and when it expires on Redis's clock. *)
Record hash := mkHash { h_tokens : N; h_ts : N; h_expires : Z }.
Definition redis : Type := gmap string hash.

(** [HMGET]; an expired key is absent. *)
Definition hmget (clock : Z) (key : string) (m : redis) : option (N * N) :=
  match m !! key with
  | Some h => if clock <? h_expires h then Some (h_tokens h, h_ts h) else None
  | None => None
  end.

Definition tokenBucketScript (clock : Z) (key : string) (rps : N) (burst : Z) (now : N) (ttl : Z) (m : redis)
  : redis * bool :=
  let '(tokens, ts) := match hmget clock key m with Some d => d | None => (n_of_Z burst, now) end in
  let elapsed := n_sub now ts in
  let elapsed := if n_lt elapsed (n_of_Z 0) then n_of_Z 0 else elapsed in
  let tokens := n_min (n_of_Z burst) (n_add tokens (n_mul elapsed rps)) in
  let allowed := n_le (n_of_Z 1) tokens in
  let tokens := if allowed then n_sub tokens (n_of_Z 1) else tokens in
  (<[key := mkHash tokens now (clock + ttl * 1000)]> m, allowed).

Definition idleEvictAfter : Z := 600.            (* seconds *)
Definition redisKeyPrefix : string := "rk:rl:".

(** [redisBackend.Allow]: an error of Redis allows the request. *)
Definition redis_Allow (o : reply) (clock : Z) (now : N) (key : string) (rule : Rule) (m : redis) : redis * bool :=
  if Burst rule <=? 0 then (m, false)
  else
    let ttlSec := if idleEvictAfter <? 60 then 60 else idleEvictAfter in
    match attempt EDriver o (tokenBucketScript clock (redisKeyPrefix +:+ key) (RPS rule) (Burst rule) now ttlSec) m with
    | (m', Ok allowed) => (m', allowed)
    | (m', Err _) => (m', true)
    end.

(** ** The process-local buckets *)

Section memory.
Variable limiter : Type.
Variable NewLimiter : N → Z → limiter.
Variable limiter_Allow : Z → limiter → limiter * bool.

Record bucket := mkBucket { b_limiter : limiter; b_lastUsed : Z }.

Definition memory_Allow (now : Z) (key : string) (rule : Rule) (m : gmap string bucket) : gmap string bucket * bool :=
  let l := match m !! key with Some b => b_limiter b | None => NewLimiter (RPS rule) (Burst rule) end in
  let (l', ok) := limiter_Allow now l in (<[key := mkBucket l' now]> m, ok).

Definition evictIdle (cutoff : Z) (m : gmap string bucket) : gmap string bucket :=
  filter (λ kb, b_lastUsed kb.2 <? cutoff = false) m.
End memory.

(** ** Dimensions *)

Record Config := mkConfig {
  Global : option Rule; PerUser : option Rule; PerAgent : option Rule; PerTenant : option Rule
}.

Definition enabled (c : option Config) : bool :=
  match c with
  | None => false
  | Some c => match Global c, PerUser c, PerAgent c, PerTenant c with None, None, None, None => false | _, _, _, _ => true end
  end.

Section dims.
Context {S : Type} (Allow : string → Rule → S → S * bool).

(** A dimension without a rule, or with nothing to key on, is unlimited. *)
Definition allow_dim (rule : option Rule) (key : string) (named : bool) (s : S) : S * bool :=
  match rule with
  | Some r => if named then Allow key r s else (s, true)
  | None => (s, true)
  end.

Definition AllowGlobal (c : Config) (s : S) : S * bool := allow_dim (Global c) "global" true s.
Definition AllowUser (c : Config) (identity : string) (s : S) : S * bool :=
  allow_dim (PerUser c) ("user:" +:+ identity) (negb (String.eqb identity "")) s.
Definition AllowAgent (c : Config) (agentID : string) (s : S) : S * bool :=
  allow_dim (PerAgent c) ("agent:" +:+ agentID) (negb (String.eqb agentID "")) s.
Definition AllowTenant (c : Config) (tenantID : string) (s : S) : S * bool :=
  allow_dim (PerTenant c) ("tenant:" +:+ tenantID) (negb (String.eqb tenantID "")) s.

(** [Middleware]: the scope that refuses the request, or none. *)
Definition Middleware (cfg : option Config) (identity tenantID : string) (s : S) : S * option string :=
  match cfg with
  | Some c =>
      if negb (enabled cfg) then (s, None)
      else
        let (s1, ok1) := AllowGlobal c s in
        if negb ok1 then (s1, Some "global")
        else
          let (s2, ok2) := AllowUser c identity s1 in
          if negb ok2 then (s2, Some "user")
          else
            let (s3, ok3) := AllowTenant c tenantID s2 in
            if negb ok3 then (s3, Some "tenant") else (s3, None)
  | None => (s, None)
  end.
End dims.
End limiter.
#[global] Arguments Rule : clear implicits.
#[global] Arguments hash : clear implicits.
#[global] Arguments redis : clear implicits.
#[global] Arguments Config : clear implicits.

(** ** The bound, in exact arithmetic *)

(** Seconds of a clock in milliseconds. *)
Definition seconds (clock : Z) : Q := Qmake clock 1000.

Local Open Scope Q_scope.

Lemma seconds_mono a b : (a ≤ b)%Z → seconds a <= seconds b.
Proof. intros H. unfold Qle, seconds. simpl. lia. Qed.

Lemma seconds_plus a b : seconds (a + b * 1000) == seconds a + inject_Z b.
Proof. unfold seconds, inject_Z, Qplus, Qeq. simpl. lia. Qed.

Lemma n_min_l a b : n_min (N := Q) a b <= a.
Proof.
  unfold n_min. simpl. destruct (Qle_bool a b) eqn:E; simpl; [lra|].
  destruct (Qlt_le_dec b a) as [H|H]; [lra|]. apply Qle_bool_iff in H. congruence.
Qed.
Lemma n_min_r a b : n_min (N := Q) a b <= b.
Proof.
  unfold n_min. simpl. destruct (Qle_bool a b) eqn:E; simpl; [by apply Qle_bool_iff|lra].
Qed.
Lemma n_min_glb a b c : c <= a → c <= b → c <= n_min (N := Q) a b.
Proof. intros. unfold n_min. by destruct (n_lt b a). Qed.

Lemma prefix_inj (p a b : string) : p +:+ a = p +:+ b → a = b.
Proof. induction p as [|ch p IH]; simpl; [done|]. intros [= H]. auto. Qed.

Section bound.
Context (key : string) (rule : Rule Q).
Notation rps := (RPS rule).
Notation burst := (inject_Z (Burst rule)).
Context (Hburst : (0 < Burst rule)%Z) (Hrps : 0 <= rps).
(** An idle bucket is full again by the time Redis drops it. *)
Context (Hfill : burst <= rps * inject_Z idleEvictAfter).
#[local] Set Default Proof Using "All".

(** The bucket of the key at a time: no fuller than it may be, nor from later. *)
Definition bucket_ok (clock : Z) (m : redis Q) : Prop :=
  match m !! (redisKeyPrefix +:+ key) with
  | Some h => 0 <= h_tokens h ∧ h_tokens h <= burst ∧ h_ts h <= seconds clock ∧
              seconds (h_expires h) == h_ts h + inject_Z idleEvictAfter
  | None => True
  end.

(** The tokens the bucket holds at a time. *)
Definition level (clock : Z) (m : redis Q) : Q :=
  match m !! (redisKeyPrefix +:+ key) with
  | Some h => n_min burst (h_tokens h + (seconds clock - h_ts h) * rps)
  | None => burst
  end.

(** A request at a time: what it asks of which bucket, and how Redis answers.  The
    replicas and Redis read the same clock. *)
Record request := mkRequest { q_clock : Z; q_key : string; q_rule : Rule Q; q_reply : reply }.

Definition serve (m : redis Q) (q : request) : redis Q * bool :=
  redis_Allow (q_reply q) (q_clock q) (seconds (q_clock q)) (q_key q) (q_rule q) m.

(** The requests of the key that Redis answered and allowed. *)
Definition counted (q : request) (ok : bool) : bool :=
  String.eqb (q_key q) key && match q_reply q with RFine => ok | _ => false end.

Fixpoint admitted (m : redis Q) (qs : list request) : Z :=
  match qs with
  | [] => 0
  | q :: qs' => let (m', ok) := serve m q in Z.b2z (counted q ok) + admitted m' qs'
  end%Z.

(** Requests between two times, in the order of the clock, those of the key under
    its rule. *)
Fixpoint timed (c : Z) (qs : list request) (d : Z) : Prop :=
  match qs with
  | [] => (c ≤ d)%Z
  | q :: qs' => (c ≤ q_clock q)%Z ∧ (q_key q = key → q_rule q = rule) ∧ timed (q_clock q) qs' d
  end.

Lemma level_mono c c' m : (c ≤ c')%Z → level c' m <= level c m + rps * (seconds c' - seconds c).
Proof.
  intros Hc%seconds_mono. unfold level. destruct (m !! _) as [h|].
  - assert (Hm := n_min_l burst (h_tokens h + (seconds c' - h_ts h) * rps)).
    assert (Hr := n_min_r burst (h_tokens h + (seconds c' - h_ts h) * rps)).
    assert (0 <= rps * (seconds c' - seconds c)) by (apply Qmult_le_0_compat; lra).
    assert (n_min burst (h_tokens h + (seconds c' - h_ts h) * rps) - rps * (seconds c' - seconds c)
            <= n_min burst (h_tokens h + (seconds c - h_ts h) * rps)); [|lra].
    apply n_min_glb; lra.
  - assert (0 <= rps * (seconds c' - seconds c)) by (apply Qmult_le_0_compat; lra). lra.
Qed.

(** The script on the key's bucket: what was there, refilled, less the token. *)
Lemma script_level clock m m' ok : bucket_ok clock m →
  tokenBucketScript clock (redisKeyPrefix +:+ key) rps (Burst rule) (seconds clock) idleEvictAfter m = (m', ok) →
  bucket_ok clock m' ∧ level clock m' + (if ok then 1 else 0) <= level clock m.
Proof.
  intros Hok. unfold tokenBucketScript.
  assert (∃ tok ts, match hmget clock (redisKeyPrefix +:+ key) m with Some d => d | None => (n_of_Z (Burst rule), seconds clock) end
                    = (tok, ts) ∧ 0 <= tok ∧ tok <= burst ∧ ts <= seconds clock ∧
                    n_min burst (tok + (seconds clock - ts) * rps) <= level clock m) as (tok&ts&->&H0&Hb&Hts&Hlev).
  { assert (0 <= burst) by (unfold inject_Z, Qle; simpl; lia).
    unfold hmget, bucket_ok, level in *. destruct (m !! _) as [h|].
    - destruct Hok as (?&?&?&Hex). destruct (clock <? h_expires h)%Z eqn:E.
      + exists (h_tokens h), (h_ts h). split_and!; try done; apply Qle_refl.
      + exists burst, (seconds clock). split_and!; try done; [lra|lra|].
        apply Z.ltb_ge, seconds_mono in E.
        assert (rps * inject_Z idleEvictAfter <= rps * (seconds clock - h_ts h)).
        { rewrite !(Qmult_comm rps). apply Qmult_le_compat_r; [lra|done]. }
        eapply Qle_trans; [apply n_min_l|]. apply n_min_glb; lra.
    - exists burst, (seconds clock). split_and!; try done; [lra|lra|]. apply n_min_l. }
  cbn [n_sub n_lt n_of_Z n_add n_mul n_le exact_num].
  assert (Hel : Qle_bool (inject_Z 0) (seconds clock - ts) = true) by (apply Qle_bool_iff; unfold inject_Z; lra).
  rewrite Hel. cbn [negb]. set (t := n_min burst (tok + (seconds clock - ts) * rps)) in *.
  assert (Ht0 : 0 <= t).
  { apply n_min_glb; [unfold inject_Z, Qle; simpl; lia|].
    assert (0 <= (seconds clock - ts) * rps) by (apply Qmult_le_0_compat; lra). lra. }
  assert (Htb : t <= burst) by apply n_min_l.
  intros [= <- <-]. unfold bucket_ok, level, redis in *. rewrite lookup_insert_eq. cbn [h_tokens h_ts h_expires].
  change (inject_Z 1) with 1. destruct (Qle_bool 1 t) eqn:E.
  - apply Qle_bool_iff in E. split; [split_and!; [lra|lra|lra|apply seconds_plus]|].
    assert (Hr := n_min_r burst (t - 1 + (seconds clock - seconds clock) * rps)). lra.
  - split; [split_and!; [lra|lra|lra|apply seconds_plus]|].
    assert (Hr := n_min_r burst (t + (seconds clock - seconds clock) * rps)). lra.
Qed.

Lemma timed_le c qs d : timed c qs d → (c ≤ d)%Z.
Proof. revert c. induction qs as [|q qs IH]; intros c; [done|]. intros (?&_&?%IH). lia. Qed.

Lemma bucket_ok_mono c c' m : (c ≤ c')%Z → bucket_ok c m → bucket_ok c' m.
Proof.
  intros Hc%seconds_mono. unfold bucket_ok. destruct (m !! _) as [h|]; [|done].
  intros (H1&H2&H3&H4). repeat split; [exact H1|exact H2|lra|exact H4].
Qed.

(** A request pays for itself out of the bucket. *)
Lemma serve_level m m' q ok : bucket_ok (q_clock q) m → (q_key q = key → q_rule q = rule) → serve m q = (m', ok) →
  bucket_ok (q_clock q) m' ∧ level (q_clock q) m' + inject_Z (Z.b2z (counted q ok)) <= level (q_clock q) m.
Proof.
  intros Hm Hrule. unfold serve, redis_Allow, counted. destruct (String.eqb_spec (q_key q) key) as [Hk|Hk].
  - rewrite Hk, (Hrule Hk). destruct (Z.leb_spec (Burst rule) 0) as [?|_]; [lia|].
    change (if (idleEvictAfter <? 60)%Z then 60%Z else idleEvictAfter) with idleEvictAfter.
    unfold attempt. destruct (tokenBucketScript _ _ _ _ _ _ m) as [m1 ok1] eqn:E.
    apply script_level in E as [Hok Hl]; [|done].
    destruct (q_reply q); simpl; intros [= <- <-]; (split; [done|]).
    + destruct ok1; unfold inject_Z; simpl; lra.
    + destruct ok1; unfold inject_Z; lra.
    + unfold inject_Z. lra.
  - simpl. assert (0 == inject_Z 0) by done.
    destruct (Burst (q_rule q) <=? 0)%Z; [intros [= <- <-]; split; [done|lra]|].
    unfold attempt. destruct (tokenBucketScript _ _ _ _ _ _ m) as [m1 ok1] eqn:E.
    assert (m1 !! (redisKeyPrefix +:+ key) = m !! (redisKeyPrefix +:+ key)) as Hsame.
    { unfold tokenBucketScript, redis in *. destruct (match hmget _ _ _ with Some _ => _ | None => _ end).
      injection E as <- _. apply lookup_insert_ne. by intros ?%prefix_inj. }
    assert (∀ mm, mm = m1 ∨ mm = m → bucket_ok (q_clock q) mm ∧ level (q_clock q) mm + inject_Z 0 <= level (q_clock q) m) as Hall.
    { unfold bucket_ok, level in *. intros mm [->| ->]; rewrite ?Hsame; (split; [done|lra]). }
    destruct (q_reply q); simpl; intros [= <- <-]; apply Hall; auto.
Qed.

Lemma admitted_level qs c d m : bucket_ok c m → timed c qs d →
  inject_Z (admitted m qs) <= level c m + rps * (seconds d - seconds c).
Proof.
  revert c m. induction qs as [|q qs IH]; intros c m Hm; cbn [admitted timed].
  - intros Hcd%seconds_mono. assert (0 <= rps * (seconds d - seconds c)) by (apply Qmult_le_0_compat; lra).
    assert (0 <= level c m); [|unfold inject_Z; lra].
    assert (0 <= burst) by (unfold inject_Z, Qle; simpl; lia).
    unfold level, bucket_ok in *. destruct (m !! _) as [h|]; [|done]. destruct Hm as (Htok&?&Hts&_).
    apply n_min_glb; [done|]. assert (0 <= (seconds c - h_ts h) * rps) by (apply Qmult_le_0_compat; lra). lra.
  - intros (Hcq&Hrule&Hqs). destruct (serve m q) as [m' ok] eqn:E.
    apply serve_level in E as [Hm' Hl]; [|by eapply bucket_ok_mono|done].
    specialize (IH _ _ Hm' Hqs). assert (Hlm := level_mono c (q_clock q) m Hcq).
    rewrite inject_Z_plus. lra.
Qed.

(** C36. The shared limit holds, in exact arithmetic and for any number of replicas on
    one clock: between two times, the requests of a key that Redis answered and
    allowed are at most the burst plus what the rate earns in between, provided an
    idle bucket fills up within the ten minutes after which Redis drops it (the burst
    is at most 600 times the rate).  Requests let through because Redis did not
    answer are not counted. *)
Theorem token_bucket_bound qs c d m : bucket_ok c m → timed c qs d →
  inject_Z (admitted m qs) <= burst + rps * (seconds d - seconds c).
Proof.
  intros Hm Hqs. eapply Qle_trans; [by apply admitted_level|].
  assert (level c m <= burst); [|lra]. unfold level. destruct (m !! _); [apply n_min_l|lra].
Qed.
End bound.

(** ** Concrete runs *)

Definition two_a_second : Rule Q := mkRule (2 : Q) 5%Z.

Definition burst_of (rule : Rule Q) (clocks : list Z) : list request :=
  (λ c, mkRequest c "user:ada" rule RFine) <$> clocks.

(** Seven requests at once and three a second later: five and then two pass. *)
Definition ten_requests : list request := burst_of two_a_second ([0; 0; 0; 0; 0; 0; 0; 1000; 1000; 1000]%Z).

Example ten_requests_run : admitted "user:ada" ∅ ten_requests = 7%Z.
Proof. vm_compute. reflexivity. Qed.

Lemma token_bucket_bound_witness :
  inject_Z (admitted "user:ada" ∅ ten_requests) <= 5 + 2 * (seconds 1000 - seconds 0).
Proof.
  apply (token_bucket_bound "user:ada" two_a_second eq_refl ltac:(discriminate) ltac:(vm_compute; discriminate)
           ten_requests 0 1000 ∅).
  - exact I.
  - repeat split; vm_compute; discriminate.
Defined.

(** The same bucket under doubles, as Lua runs it. *)
Definition run_doubles (rule : Rule float64) (clocks : list Z) : list bool :=
  (foldl (λ '(m, l) c,
     let (m', ok) := redis_Allow RFine c (f64_div (f64_of_Z c) (f64_of_Z 1000)) "user:ada" rule m in (m', (l ++ [ok])%list))
     (∅, []) clocks).2.

Example doubles_agree :
  run_doubles (mkRule (f64_of_Z 2) 5) ([0; 0; 0; 0; 0; 0; 0; 1000; 1000; 1000]%Z)
  = [true; true; true; true; true; false; false; true; true; false].
Proof. vm_compute. reflexivity. Qed.

(** A bucket that earns a token in an hour is dropped ten minutes after its last
    request and starts full again: one request per ten minutes always passes, where
    the rule earns one per hour after the first. *)
Theorem slow_rule_is_not_held :
  let rule := mkRule (1 # 3600 : Q) 1%Z in
  let clocks := [0; 600000; 1200000; 1800000]%Z in
  admitted "user:ada" ∅ (burst_of rule clocks) = 4%Z ∧
  ¬ (4 <= inject_Z (Burst rule) + RPS rule * (seconds 1800000 - seconds 0)).
Proof. split; [vm_compute; reflexivity|]. vm_compute. intros H. by apply H. Qed.

(** A replica whose clock runs behind by two seconds.  Its requests write its own
    time over the later one, so each request of the other replica earns those two
    seconds again: ten requests at one instant all pass, where the burst is five. *)
Definition alternating (n : nat) : list bool :=
  (foldl (λ '(m, l) i,
     let now := if Nat.even i then seconds 2000 else seconds 0 in
     let (m', ok) := redis_Allow RFine 2000 now "user:ada" two_a_second m in (m', (l ++ [ok])%list))
     (∅, []) (seq 0 n)).2.

Theorem skewed_replicas_exceed_burst : alternating 10 = repeat true 10.
Proof. vm_compute. reflexivity. Qed.
