(* ===== verification/Lifecycle.v ===== *)
(** * Run lifecycle: attempts, completion, finalization, recovery

    Models [internal/api/completion.go], [internal/api/timeout.go] and
    [internal/api/status_transition.go]: how the server begins an attempt,
    recovers an outcome whose acknowledgement was lost, completes a run durably
    and then finalizes it, and times runs out.

    The state store is the interface [RunStore] with the laws [RunStoreOk]; the
    SQL store of [Store] implements it under every statement and commit failure
    ([StoreLifecycle]).  The broker, the queue, the finalization steps (usage,
    holds, cache, hooks) and the JSON decoders are parameters of the section. *)

From Stdlib Require Import Ascii String.
From S2P Require Import Prelude GoAny Transport Completion Store StoreSearch.
Local Open Scope string_scope.
Local Open Scope Z_scope.

(** ** The store interface *)

(** The run as [GetRun] returns it. *)
Record Run := mkRunModel {
  RunTenant : string;
  RunThread : string;
  RunAgent : string;
  RunStatus : string;
  RunMetadata : gmap string any;
  RunOutput : column;
  RunError : string;
  RunParent : option string;
  RunRoot : option string;
  RunDepth : Z
}.

Definition terminal (r : Run) : Prop := TerminalRunStatus (RunStatus r) = true.

Class RunStore (W : Type) := {
  rs_run : W → string → option Run;     (* the durable row *)
  rs_GetRun : ctx → W → string → W * option Run;
  rs_BeginRunAttempt : ctx → W → string → Z → W * option bool;
  rs_CompleteRun : ctx → W → RunCompletion → W * option CompletionResult;
  rs_SearchRuns : ctx → W → RunSearchRequest → W * option (list (string * Run));
  rs_scanned : W → Prop   (* the driver delivers every row of the next query *)
}.

Definition run_matches (q : RunSearchRequest) (r : Run) : bool :=
  run_clauses q (RunStatus r) (RunThread r) (RunAgent r) (RunRoot r) (RunParent r).

Definition marker (r : Run) : option any := RunMetadata r !! CompletionGenerationKey.

(** Durably completed: terminal with its completion marker. *)
Definition completed (r : Run) : Prop :=
  TerminalRunStatus (RunStatus r) = true ∧ is_Some (marker r).

(** The row [c] leaves behind; the generation of a trusted cancellation is the
    one the store finds.  Generations are kept in JSON metadata and read back as
    floats, exact below 2^53. *)
Definition completed_by (c : RunCompletion) (r : Run) : Prop :=
  completed r ∧ RunStatus r = CStatus c ∧
  (CancelCurrentAttempt c = false → 0 ≤ CGeneration c < 2 ^ 53 →
   MetadataGeneration (RunMetadata r) CompletionGenerationKey = CGeneration c).

Class RunStoreOk (W : Type) `{RunStore W} := {
  (** Reads return the durable row and change nothing. *)
  rs_get_same x w id w' o r : rs_GetRun x w id = (w', o) → rs_run w' r = rs_run w r;
  rs_get_ok x w id w' run : rs_GetRun x w id = (w', Some run) → rs_run w id = Some run;
  (** An accepted completion is durable. *)
  rs_complete_ok x w c w' res :
    rs_CompleteRun x w c = (w', Some res) → Accepted res = true →
    ∃ run, rs_run w' (CRunID c) = Some run ∧ completed_by c run;
  (** A cancellation of the current attempt is refused only on a run that is
      terminal or already marked complete. *)
  rs_cancel_refused x w c w' res :
    CancelCurrentAttempt c = true → CStatus c = RunStatusInterrupted ∨ CStatus c = RunStatusTimeout →
    rs_CompleteRun x w c = (w', Some res) → Accepted res = false →
    ∃ run, rs_run w' (CRunID c) = Some run ∧ (terminal run ∨ is_Some (marker run));
  (** Terminal rows are never changed by later attempts or completions. *)
  rs_begin_frozen x w id g w' o r run :
    rs_BeginRunAttempt x w id g = (w', o) → rs_run w r = Some run → terminal run →
    rs_run w' r = Some run;
  rs_complete_frozen x w c w' o r run :
    rs_CompleteRun x w c = (w', o) → rs_run w r = Some run → terminal run →
    rs_run w' r = Some run;
  (** A search returns rows that match, each once; all of them when the system
      asks, the page is not full and the driver delivered every row. *)
  rs_search_same x w q w' o r : rs_SearchRuns x w q = (w', o) → rs_run w' r = rs_run w r;
  rs_search_sound x w q w' l :
    rs_SearchRuns x w q = (w', Some l) →
    NoDup l.*1 ∧ ∀ id run, (id, run) ∈ l → rs_run w id = Some run ∧ run_matches q run = true;
  rs_search_complete x w q w' l id run :
    rs_SearchRuns x w q = (w', Some l) → IsSystem x = true → rs_scanned w →
    QMetadata q = [] → QCursor q = None → QOffset q ≤ 0 → Z.of_nat (length l) < QLimit q →
    rs_run w id = Some run → run_matches q run = true → (id, run) ∈ l
}.

(** [tryStatusTransition]: once, and once more on an error. *)
Definition tryStatusTransition {W} (fn : W → W * bool) (w : W) : W * bool :=
  match fn w with
  | (w, true) => (w, true)
  | (w, false) => fn w
  end.

(** The steps a finalization has completed. *)
Inductive fstep := FMetrics | FUsage | FHold | FInflight | FCache | FClose | FFinish.

Section lifecycle.
Context {W : Type} `{!RunStore W}.
(** Finalization steps ([true]: no error). *)
Variable persistTerminalUsage : W → Run → bool → W * bool.
Variable releaseUsageHold : W → string → W * bool.
Variable maybeCancelInflightAfterTerminal : W → Run → W.
Variable maybeCacheRunResult : W → Run → gmap string any → W * bool.
Variable brokerClose : W → string → W * bool.
Variable finishRun : W → Run → W * bool.
(** Broker, queue, agents. *)
Variable Replay : W → string → W * option (list RunEvent).
Variable LookupInflight : W → string → W * option (option RunAssignment).
Variable GetAgent : ctx → W → string → W * option (gmap string any).
(** JSON decoders; the inner [None] is the document null. *)
Variable decode_terminal : string → option (string * string).
Variable decode_values : string → option (option (gmap string any)).
Variable decode_usage : string → option (option (gmap string any)).

(** ** Finalization *)

Definition cache_values (o : column) : option (gmap string any) :=
  match o with ColObj m => Some m | ColNull => Some ∅ | _ => None end.

(** From the cache on: [broker.Close], then the terminal hook. *)
Definition finalize_tail (w : W) (id : string) (run : Run) (steps : list fstep)
  : W * list fstep * bool :=
  match brokerClose w id with
  | (w, false) => (w, steps, false)
  | (w, true) =>
      match finishRun w run with
      | (w, false) => (w, (steps ++ [FClose])%list, false)
      | (w, true) => (w, (steps ++ [FClose; FFinish])%list, true)
      end
  end.

Definition finalizeCommittedRun (w : W) (id : string) (run : Run) (applied : bool)
  : W * list fstep * bool :=
  let steps := if applied then [FMetrics] else [] in
  match persistTerminalUsage w run applied with
  | (w, false) => (w, steps, false)
  | (w, true) =>
      match releaseUsageHold w id with
      | (w, false) => (w, (steps ++ [FUsage])%list, false)
      | (w, true) =>
          let w := maybeCancelInflightAfterTerminal w run in
          let steps := (steps ++ [FUsage; FHold; FInflight])%list in
          match RunOutput run with
          | ColEmpty => finalize_tail w id run steps
          | out =>
              if negb (String.eqb (RunStatus run) RunStatusSuccess) then finalize_tail w id run steps
              else
                match cache_values out with
                | None => (w, steps, false)
                | Some v =>
                    match maybeCacheRunResult w run v with
                    | (w, false) => (w, steps, false)
                    | (w, true) => finalize_tail w id run (steps ++ [FCache])
                    end
                end
          end
      end
  end.

(** ** Completion *)

(** The result, the finalization steps completed, and whether [err] is nil. *)
Definition outcome : Type := W * CompletionResult * list fstep * bool.

Definition str_of (o : option any) : string := match o with Some (AStr s) => s | _ => "" end.

(** The runner kind of a run: its manifest, else its agent; [None] on an error. *)
Definition runner_kind_of (x : ctx) (w : W) (run : Run) : W * option string :=
  let kind := match RunMetadata run !! "run_manifest" with
              | Some (AMap m) => str_of (list_to_map (M := gmap string any) m !! "runner_kind")
              | _ => ""
              end in
  if String.eqb kind "" then
    match GetAgent (WithContext x (RunTenant run)) w (RunAgent run) with
    | (w, None) => (w, None)
    | (w, Some meta) =>
        let kind := str_of (meta !! "runner_kind") in
        (w, Some (if String.eqb kind "" then "python-langgraph" else kind))
    end
  else (w, Some kind).

Definition is_values (g : Z) (e : RunEvent) : bool :=
  String.eqb (Method e) "values" && (EvGeneration e =? g).

(** The usage of the last delivered values event of the attempt that has one. *)
Fixpoint delivered_usage (g : Z) (rev_events : list RunEvent) : option (gmap string any) :=
  match rev_events with
  | [] => None
  | e :: rest =>
      if is_values g e then
        match decode_usage (Data e) with
        | Some (Some u) => Some u
        | _ => delivered_usage g rest
        end
      else delivered_usage g rest
  end.

Definition set_cancel (g : Z) (u : option (gmap string any)) (c : RunCompletion) : RunCompletion :=
  mkCompletion (CancelCurrentAttempt c) u (CRunnerKind c) (ReplayOnly c) (CRunID c) g (CStatus c)
    (CError c) (CValues c).

Definition set_values (v : option (gmap string any)) (c : RunCompletion) : RunCompletion :=
  mkCompletion (CancelCurrentAttempt c) (CancelUsage c) (CRunnerKind c) (ReplayOnly c) (CRunID c)
    (CGeneration c) (CStatus c) (CError c) v.

(** [jsonvalue.Unmarshal] into an existing map adds its keys; null resets it. *)
Definition unmarshal_into (old : option (gmap string any)) (v : option (gmap string any))
  : option (gmap string any) :=
  match v with Some m => Some (m ∪ default ∅ old) | None => None end.

(** The final output: the attempt's last values event; [None] when it does not
    decode. *)
Definition final_values (c : RunCompletion) (events : list RunEvent)
  : option (option (gmap string any)) :=
  match find_first (is_values (CGeneration c)) (reverse events) with
  | None => Some (CValues c)
  | Some e => match decode_values (Data e) with
              | None => None
              | Some v => Some (unmarshal_into (CValues c) v)
              end
  end.

(** [s.store.CompleteRun] and the finalization of the committed row. *)
Definition commit_and_finalize (x : ctx) (w : W) (c : RunCompletion) : outcome :=
  match rs_CompleteRun x w c with
  | (w, None) => (w, no_result, [], false)
  | (w, Some result) =>
      if negb (Accepted result) then (w, result, [], true)
      else
        match rs_GetRun x w (CRunID c) with
        | (w, None) => (w, result, [], false)
        | (w, Some committed) =>
            match finalizeCommittedRun w (CRunID c) committed (Applied result) with
            | (w, steps, ok) => (w, result, steps, ok)
            end
        end
  end.

Definition finalize_again (w : W) (c : RunCompletion) (run : Run) (result : CompletionResult) : outcome :=
  match finalizeCommittedRun w (CRunID c) run false with
  | (w, steps, ok) => (w, result, steps, ok)
  end.

(** A trusted cancellation or timeout: bind it to the attempt now recorded and
    keep the usage already delivered, when the broker answers in time. *)
Definition complete_cancel (x : ctx) (w : W) (run : Run) (c : RunCompletion) (timedOut : bool) : outcome :=
  let g := MetadataGeneration (RunMetadata run) AttemptGenerationKey in
  let (w, events) := if timedOut then (w, None) else Replay w (CRunID c) in
  let usage := match events with Some es => delivered_usage g (reverse es) | None => None end in
  commit_and_finalize x w (set_cancel g usage c).

Definition complete_normal (x : ctx) (w : W) (run : Run) (c : RunCompletion) : outcome :=
  let checked := CheckCompletion (RunMetadata run) (RunStatus run) c in
  if negb (Applied checked) then
    if negb (Accepted checked) then (w, checked, [], true) else finalize_again w c run checked
  else
    match Replay w (CRunID c) with
    | (w, None) => (w, no_result, [], false)
    | (w, Some events) =>
        match final_values c events with
        | None => (w, no_result, [], false)
        | Some v => commit_and_finalize x w (set_values v c)
        end
    end.

Definition complete_owned (x : ctx) (w : W) (run : Run) (c : RunCompletion) (timedOut : bool) : outcome :=
  let x := WithContext x (RunTenant run) in
  if ReplayOnly c then
    if match marker run with None => true | Some _ => false end
       || negb (MetadataGeneration (RunMetadata run) CompletionGenerationKey =? CGeneration c)
       || negb (String.eqb (RunStatus run) (CStatus c))
    then (w, no_result, [], true)
    else finalize_again w c run (mkResult true false)
  else if negb (TerminalRunStatus (CStatus c)) then (w, no_result, [], false)
  else if CancelCurrentAttempt c then complete_cancel x w run c timedOut
  else complete_normal x w run c.

(** [timedOut]: the broker did not answer a cancellation's replay in time. *)
Definition completeRunResult (x : ctx) (w : W) (c : RunCompletion) (timedOut : bool) : outcome :=
  match rs_GetRun (SystemContext x) w (CRunID c) with
  | (w, None) => (w, no_result, [], false)
  | (w, Some run) =>
      if String.eqb (CRunnerKind c) "" then complete_owned x w run c timedOut
      else
        match runner_kind_of x w run with
        | (w, None) => (w, no_result, [], false)
        | (w, Some kind) =>
            if String.eqb kind (CRunnerKind c) then complete_owned x w run c timedOut
            else (w, no_result, [], false)
        end
  end.

(** [(accepted, err)]: [None] is an error.  An error with an accepted result is
    possible: the commit is durable and the finalization is to be retried. *)
Definition CompleteRun (x : ctx) (w : W) (c : RunCompletion) (timedOut : bool) : W * bool * bool :=
  match completeRunResult x w c timedOut with
  | (w, result, _, ok) => (w, Accepted result, ok)
  end.

(** ** Recovery of delivered outcomes *)

Definition is_terminal_of (g : Z) (e : RunEvent) : bool := IsTerminal e && (EvGeneration e =? g).

(** The completion a terminal event reports; [None] when its payload does not
    decode. *)
Definition reported_completion (id : string) (g : Z) (e : RunEvent) : option RunCompletion :=
  match decode_terminal (Data e) with
  | None => None
  | Some (status, message) =>
      let status := if String.eqb (Method e) "end" then status else RunStatusError in
      Some (mkCompletion false None "" false id g status message None)
  end.

(** [(accepted, err == nil)] *)
Definition recoverDeliveredCompletion (x : ctx) (w : W) (id : string) (run : Run) : W * bool * bool :=
  let g := MetadataGeneration (RunMetadata run) AttemptGenerationKey in
  match Replay w id with
  | (w, None) => (w, false, false)
  | (w, Some events) =>
      match find_first (is_terminal_of g) (reverse events) with
      | None => (w, false, true)
      | Some e =>
          match reported_completion id g e with
          | None => (w, false, false)
          | Some c => CompleteRun x w c false
          end
      end
  end.

Definition attempted (run : Run) : bool :=
  match RunMetadata run !! AttemptGenerationKey with Some _ => true | None => false end.

(** Finalize an already completed run again. *)
Definition refinalize (w : W) (id : string) (run : Run) : W * bool :=
  match marker run with
  | None => (w, true)
  | Some _ => match finalizeCommittedRun w id run false with (w, _, ok) => (w, ok) end
  end.

(** [(accepted, err)]; [None] is an error. *)
Definition BeginRunAttempt (x : ctx) (w : W) (id : string) (generation : Z) : W * option bool :=
  match rs_GetRun (SystemContext x) w id with
  | (w, None) => (w, None)
  | (w, Some run) =>
      if TerminalRunStatus (RunStatus run) then
        match refinalize w id run with
        | (w, true) => (w, Some false)
        | (w, false) => (w, None)
        end
      else if attempted run && (MetadataGeneration (RunMetadata run) AttemptGenerationKey <? generation) then
        match recoverDeliveredCompletion x w id run with
        | (w, _, false) => (w, None)
        | (w, true, true) => (w, Some false)
        | (w, false, true) => rs_BeginRunAttempt (SystemContext x) w id generation
        end
      else rs_BeginRunAttempt (SystemContext x) w id generation
  end.

(** The exhausted attempt's own failure, once nothing delivered is found.  The
    reaper may have to record the dispatch it never saw recorded. *)
Definition fail_reclaimed (x : ctx) (w : W) (id : string) (run : Run) (generation : Z) (msg : string)
  : W * bool * bool :=
  let current := MetadataGeneration (RunMetadata run) AttemptGenerationKey in
  let c := mkCompletion false None "" false id generation RunStatusError msg None in
  if negb (current =? generation) || negb (attempted run) then
    match rs_BeginRunAttempt (SystemContext x) w id generation with
    | (w, None) => (w, false, false)
    | (w, Some false) => (w, false, true)
    | (w, Some true) => CompleteRun x w c false
    end
  else CompleteRun x w c false.

Definition CompleteReclaimedRun (x : ctx) (w : W) (pill : PoisonPill) (msg : string) : W * bool * bool :=
  if PGeneration pill <=? 0 then (w, false, false)
  else
    let generation := PGeneration pill - 1 in
    let id := PRunID pill in
    match LookupInflight w id with
    | (w, None) => (w, false, false)
    | (w, Some None) => (w, false, true)
    | (w, Some (Some a)) =>
        if negb (Generation a =? generation) then (w, false, true)
        else
          match rs_GetRun (SystemContext x) w id with
          | (w, None) => (w, false, false)
          | (w, Some run) =>
              if TerminalRunStatus (RunStatus run) then
                let (w, ok) := refinalize w id run in (w, true, ok)
              else if generation <? MetadataGeneration (RunMetadata run) AttemptGenerationKey then (w, false, true)
              else if attempted run then
                match recoverDeliveredCompletion x w id run with
                | (w, false, true) => fail_reclaimed x w id run generation msg
                | r => r
                end
              else fail_reclaimed x w id run generation msg
          end
    end.

(** ** Waiting callers *)

Definition completeObservedRun (x : ctx) (w : W) (id terminal : string) (generation : Z) : W * option Run :=
  match rs_GetRun x w id with
  | (w, None) => (w, None)
  | (w, Some latest) =>
      if negb (String.eqb terminal "") && negb (TerminalRunStatus (RunStatus latest)) then
        match CompleteRun x w (mkCompletion false None "" false id generation terminal "" None) false with
        | (w, _, false) => (w, None)
        | (w, _, true) => rs_GetRun x w id
        end
      else (w, Some latest)
  end.

(** One iteration of [awaitDurableCompletion]: [Some] is its return. *)
Definition await_once (x : ctx) (w : W) (id : string) : W * option (option Run) :=
  match rs_GetRun x w id with
  | (w, None) => (w, Some None)
  | (w, Some latest) =>
      if TerminalRunStatus (RunStatus latest) then (w, Some (Some latest))
      else
        let g := MetadataGeneration (RunMetadata latest) AttemptGenerationKey in
        match Replay w id with
        | (w, None) => (w, Some None)
        | (w, Some events) =>
            match find_first (is_terminal_of g) (reverse events) with
            | None => (w, None)
            | Some e =>
                match reported_completion id g e with
                | None => (w, Some None)
                | Some c =>
                    match CompleteRun x w c false with
                    | (w, _, false) => (w, Some None)
                    | (w, true, true) => let (w, r) := rs_GetRun x w id in (w, Some r)
                    | (w, false, true) => (w, None)
                    end
                end
            end
        end
  end.

(** The polling loop; each tick is preceded by whatever the rest of the system
    does ([ticks]), and the context may end instead ([None]). *)
Fixpoint awaitDurableCompletion (x : ctx) (w : W) (id : string) (ticks : list (option (W → W)))
  : W * option (option Run) :=
  match await_once x w id with
  | (w, Some r) => (w, Some r)
  | (w, None) =>
      match ticks with
      | [] => (w, None)
      | None :: _ => (w, Some None)
      | Some other :: ticks => awaitDurableCompletion x (other w) id ticks
      end
  end.

(** ** Timeouts *)

Variable queueCancel : W → string → W * bool.
Variable publishCancel : W → string → W * bool.
Variable cascadeCancelDescendants : W → string → W.

Definition timeout_completion (id : string) : RunCompletion :=
  mkCompletion true None "" false id 0 RunStatusTimeout "run exceeded max_duration" None.

(** One overdue run: the number of timeouts applied and of failures. *)
Definition timeout_one (x : ctx) (w : W) (id : string) (timedOut : bool) : W * Z * Z :=
  match completeRunResult x w (timeout_completion id) timedOut with
  | (w, result, _, ok) =>
      let n := if Applied result then 1 else 0 in
      if negb ok then
        ((if Accepted result then (tryStatusTransition (λ w, publishCancel w id) w).1 else w), n, 1)
      else if negb (Accepted result) then (w, n, 0)
      else
        let (w, ok1) := tryStatusTransition (λ w, queueCancel w id) w in
        let (w, ok2) := tryStatusTransition (λ w, publishCancel w id) w in
        (cascadeCancelDescendants w id, n, (if ok1 then 0 else 1) + (if ok2 then 0 else 1))
  end.

(** The loop over the runs [ListActiveRunsCreatedBefore] returned. *)
Fixpoint timeout_loop (x : ctx) (w : W) (ids : list (string * bool)) : W * Z * Z :=
  match ids with
  | [] => (w, 0, 0)
  | (id, timedOut) :: rest =>
      let '(w, n, f) := timeout_one x w id timedOut in
      let '(w, n', f') := timeout_loop x w rest in
      (w, n + n', f + f')
  end.

(** [(n, err)]: the count of applied timeouts and whether there were failures. *)
Definition TimeoutOverdueRuns (x : ctx) (maxDuration : Z)
    (list_overdue : W → W * option (list (string * bool))) (w : W) : W * Z * bool :=
  if maxDuration <=? 0 then (w, 0, true)
  else
    match list_overdue w with
    | (w, None) => (w, 0, false)
    | (w, Some ids) => let '(w, n, f) := timeout_loop x w ids in (w, n, f =? 0)
    end.

(** ** Terminal rows are frozen *)

Context `{!RunStoreOk W}.

Definition frozen (w w' : W) : Prop :=
  ∀ r run, rs_run w r = Some run → terminal run → rs_run w' r = Some run.

Lemma frozen_refl w : frozen w w.
Proof using. by intros r run. Qed.

Lemma frozen_trans w1 w2 w3 : frozen w1 w2 → frozen w2 w3 → frozen w1 w3.
Proof using. intros H1 H2 r run Hr Hc. by apply H2; [apply H1|]. Qed.

(** The environment leaves terminal rows alone: finalization, the broker, the
    queue and the agents table do not write them, and cancelling other runs goes
    through the same completion. *)
Record env_ok : Prop := {
  e_usage w r b : frozen w (persistTerminalUsage w r b).1;
  e_hold w id : frozen w (releaseUsageHold w id).1;
  e_inflight w r : frozen w (maybeCancelInflightAfterTerminal w r);
  e_cache w r v : frozen w (maybeCacheRunResult w r v).1;
  e_close w id : frozen w (brokerClose w id).1;
  e_finish w r : frozen w (finishRun w r).1;
  e_replay w id : frozen w (Replay w id).1;
  e_lookup w id : frozen w (LookupInflight w id).1;
  e_agent x w id : frozen w (GetAgent x w id).1;
  e_qcancel w id : frozen w (queueCancel w id).1;
  e_pcancel w id : frozen w (publishCancel w id).1;
  e_cascade w id : frozen w (cascadeCancelDescendants w id)
}.

Context (Henv : env_ok).

Lemma get_frozen x w id : frozen w (rs_GetRun x w id).1.
Proof using RunStoreOk0.
  intros r run Hr _. destruct (rs_GetRun x w id) as [w' o] eqn:E. simpl. by rewrite (rs_get_same _ _ _ _ _ _ E).
Qed.

Lemma begin_frozen x w id g : frozen w (rs_BeginRunAttempt x w id g).1.
Proof using RunStoreOk0.
  intros r run Hr Hc. destruct (rs_BeginRunAttempt x w id g) as [w' o] eqn:E. simpl. by eapply rs_begin_frozen.
Qed.

Lemma complete_frozen x w c : frozen w (rs_CompleteRun x w c).1.
Proof using RunStoreOk0.
  intros r run Hr Hc. destruct (rs_CompleteRun x w c) as [w' o] eqn:E. simpl. by eapply rs_complete_frozen.
Qed.

(** Walks through a chain of effectful calls: each [match] on a call that is
    known to freeze terminal rows extends the chain. *)
Ltac freeze_step :=
  match goal with
  | |- frozen ?w ?w => apply frozen_refl
  | H : frozen ?w ?w' |- frozen ?w ?w' => exact H
  | |- context [match persistTerminalUsage ?w ?r ?b with _ => _ end] =>
      pose proof (e_usage Henv w r b); destruct (persistTerminalUsage w r b) as [? []]
  | |- context [match releaseUsageHold ?w ?id with _ => _ end] =>
      pose proof (e_hold Henv w id); destruct (releaseUsageHold w id) as [? []]
  | |- context [match maybeCacheRunResult ?w ?r ?v with _ => _ end] =>
      pose proof (e_cache Henv w r v); destruct (maybeCacheRunResult w r v) as [? []]
  | |- context [match brokerClose ?w ?id with _ => _ end] =>
      pose proof (e_close Henv w id); destruct (brokerClose w id) as [? []]
  | |- context [match finishRun ?w ?r with _ => _ end] =>
      pose proof (e_finish Henv w r); destruct (finishRun w r) as [? []]
  | |- context [match Replay ?w ?id with _ => _ end] =>
      pose proof (e_replay Henv w id); destruct (Replay w id) as [? [?|]]
  | |- context [match LookupInflight ?w ?id with _ => _ end] =>
      pose proof (e_lookup Henv w id); destruct (LookupInflight w id) as [? [[?|]|]]
  | |- context [match GetAgent ?x ?w ?id with _ => _ end] =>
      pose proof (e_agent Henv x w id); destruct (GetAgent x w id) as [? [?|]]
  | |- context [match rs_GetRun ?x ?w ?id with _ => _ end] =>
      pose proof (get_frozen x w id); destruct (rs_GetRun x w id) as [? [?|]]
  | |- context [match rs_CompleteRun ?x ?w ?c with _ => _ end] =>
      pose proof (complete_frozen x w c); destruct (rs_CompleteRun x w c) as [? [?|]]
  | |- context [match rs_BeginRunAttempt ?x ?w ?id ?g with _ => _ end] =>
      pose proof (begin_frozen x w id g); destruct (rs_BeginRunAttempt x w id g) as [? [[]|]]
  end.

Ltac freeze_chain := simpl in *; eauto using frozen_refl, frozen_trans.

Lemma finalize_tail_frozen w id run steps : frozen w (finalize_tail w id run steps).1.1.
Proof using Henv. unfold finalize_tail. repeat freeze_step; freeze_chain. Qed.

Lemma finalize_frozen w id run applied : frozen w (finalizeCommittedRun w id run applied).1.1.
Proof using Henv.
  unfold finalizeCommittedRun. freeze_step; [|freeze_chain]. freeze_step; [|freeze_chain].
  pose proof (e_inflight Henv w1 run) as Hi. set (w2 := maybeCancelInflightAfterTerminal w1 run) in *.
  assert (Hw2 : frozen w w2) by freeze_chain.
  assert (Htail : ∀ w3 st, frozen w w3 → frozen w (finalize_tail w3 id run st).1.1)
    by (intros; eauto using frozen_trans, finalize_tail_frozen).
  destruct (RunOutput run); [by apply Htail|..];
    (destruct (negb _); [by apply Htail|]); simpl; [done|..]; 
    (freeze_step; [apply Htail|]; freeze_chain).
Qed.

Definition out_world (o : outcome) : W := o.1.1.1.

Lemma commit_frozen x w c : frozen w (out_world (commit_and_finalize x w c)).
Proof using Henv RunStoreOk0.
  unfold commit_and_finalize. freeze_step; [|freeze_chain]. destruct (negb _); [freeze_chain|].
  freeze_step; [|freeze_chain].
  match goal with |- context [finalizeCommittedRun ?w ?id ?r ?a] =>
    pose proof (finalize_frozen w id r a); destruct (finalizeCommittedRun w id r a) as [[? ?] ?] end.
  freeze_chain.
Qed.

Lemma finalize_again_frozen w c run res : frozen w (out_world (finalize_again w c run res)).
Proof using Henv.
  unfold finalize_again. pose proof (finalize_frozen w (CRunID c) run false).
  by destruct (finalizeCommittedRun w (CRunID c) run false) as [[? ?] ?].
Qed.

Lemma complete_owned_frozen x w run c t : frozen w (out_world (complete_owned x w run c t)).
Proof using Henv RunStoreOk0.
  unfold complete_owned. destruct (ReplayOnly c).
  { destruct (_ || _ || _); [freeze_chain|apply finalize_again_frozen]. }
  destruct (negb _); [freeze_chain|]. destruct (CancelCurrentAttempt c).
  - unfold complete_cancel. destruct t; [apply commit_frozen|].
    pose proof (e_replay Henv w (CRunID c)) as Hr. destruct (Replay w (CRunID c)) as [w1 es].
    eapply frozen_trans; [exact Hr|apply commit_frozen].
  - unfold complete_normal. destruct (negb (Applied _)).
    { destruct (negb _); [freeze_chain|apply finalize_again_frozen]. }
    freeze_step; [|freeze_chain]. destruct (final_values c _); [|freeze_chain].
    eapply frozen_trans; [|apply commit_frozen]. done.
Qed.

Lemma completeRunResult_frozen x w c t : frozen w (out_world (completeRunResult x w c t)).
Proof using Henv RunStoreOk0.
  unfold completeRunResult. freeze_step; [|freeze_chain].
  assert (Ho : ∀ w1, frozen w w1 → frozen w (out_world (complete_owned x w1 r c t)))
    by (intros; eauto using frozen_trans, complete_owned_frozen).
  destruct (String.eqb (CRunnerKind c) ""); [by apply Ho|].
  unfold runner_kind_of. destruct (String.eqb _ ""); simpl.
  - freeze_step; [|freeze_chain]. destruct (String.eqb _ (CRunnerKind c)); [apply Ho|]; freeze_chain.
  - destruct (String.eqb _ (CRunnerKind c)); [by apply Ho|done].
Qed.

Lemma CompleteRun_frozen x w c t : frozen w (CompleteRun x w c t).1.1.
Proof using Henv RunStoreOk0.
  unfold CompleteRun. pose proof (completeRunResult_frozen x w c t) as H.
  by destruct (completeRunResult x w c t) as [[[? ?] ?] ?].
Qed.

Lemma recover_frozen x w id run : frozen w (recoverDeliveredCompletion x w id run).1.1.
Proof using Henv RunStoreOk0.
  unfold recoverDeliveredCompletion. freeze_step; [|freeze_chain].
  destruct (find_first _ _); [|freeze_chain]. destruct (reported_completion _ _ _); [|freeze_chain].
  eapply frozen_trans; [|apply CompleteRun_frozen]. done.
Qed.

Lemma refinalize_frozen w id run : frozen w (refinalize w id run).1.
Proof using Henv.
  unfold refinalize. destruct (marker run); [|apply frozen_refl].
  pose proof (finalize_frozen w id run false). by destruct (finalizeCommittedRun w id run false) as [[? ?] ?].
Qed.

Lemma BeginRunAttempt_frozen x w id g : frozen w (BeginRunAttempt x w id g).1.
Proof using Henv RunStoreOk0.
  unfold BeginRunAttempt. freeze_step; [|freeze_chain]. destruct (TerminalRunStatus _).
  - pose proof (refinalize_frozen w0 id r). destruct (refinalize w0 id r) as [? []]; freeze_chain.
  - destruct (_ && _); [|eapply frozen_trans; [|apply begin_frozen]; done].
    pose proof (recover_frozen x w0 id r).
    destruct (recoverDeliveredCompletion x w0 id r) as [[? []] []]; simpl in *; try freeze_chain.
    eapply frozen_trans; [|apply begin_frozen]. freeze_chain.
Qed.

Lemma fail_reclaimed_frozen x w id run g msg : frozen w (fail_reclaimed x w id run g msg).1.1.
Proof using Henv RunStoreOk0.
  unfold fail_reclaimed. destruct (_ || _); [|apply CompleteRun_frozen].
  freeze_step; [|freeze_chain..]. eapply frozen_trans; [|apply CompleteRun_frozen]. done.
Qed.

Lemma CompleteReclaimedRun_frozen x w pill msg : frozen w (CompleteReclaimedRun x w pill msg).1.1.
Proof using Henv RunStoreOk0.
  unfold CompleteReclaimedRun. destruct (_ <=? 0); [freeze_chain|]. freeze_step; [|freeze_chain..].
  destruct (negb _); [freeze_chain|]. freeze_step; [|freeze_chain]. destruct (TerminalRunStatus _).
  - pose proof (refinalize_frozen w1 (PRunID pill) r0). destruct (refinalize w1 (PRunID pill) r0). freeze_chain.
  - destruct (_ <? _); [freeze_chain|].
    assert (Hw1 : frozen w w1) by freeze_chain.
    assert (Hfail : ∀ w2, frozen w w2 →
      frozen w (fail_reclaimed x w2 (PRunID pill) r0 (PGeneration pill - 1) msg).1.1)
      by (intros; eauto using frozen_trans, fail_reclaimed_frozen).
    destruct (attempted r0); [|by apply Hfail].
    pose proof (recover_frozen x w1 (PRunID pill) r0).
    destruct (recoverDeliveredCompletion x w1 (PRunID pill) r0) as [[w2 []] []];
      first [apply Hfail|simpl]; freeze_chain.
Qed.

Lemma tryStatusTransition_frozen (fn : W → W * bool) w :
  (∀ w, frozen w (fn w).1) → frozen w (tryStatusTransition fn w).1.
Proof using.
  intros Hf. unfold tryStatusTransition. pose proof (Hf w) as H1. destruct (fn w) as [w1 []]; [done|].
  eapply frozen_trans; [exact H1|apply Hf].
Qed.

Lemma timeout_one_frozen x w id t : frozen w (timeout_one x w id t).1.1.
Proof using Henv RunStoreOk0.
  unfold timeout_one. pose proof (completeRunResult_frozen x w (timeout_completion id) t) as H.
  destruct (completeRunResult x w (timeout_completion id) t) as [[[w1 res] steps] ok].
  unfold out_world in H. simpl in H.
  assert (Hq : ∀ w, frozen w (queueCancel w id).1) by (intros; apply (e_qcancel Henv)).
  assert (Hp : ∀ w, frozen w (publishCancel w id).1) by (intros; apply (e_pcancel Henv)).
  destruct (negb ok); simpl.
  - destruct (Accepted res); [|done].
    eapply frozen_trans; [exact H|]. by apply (tryStatusTransition_frozen (λ w, publishCancel w id)).
  - destruct (negb (Accepted res)); [done|].
    pose proof (tryStatusTransition_frozen (λ w, queueCancel w id) w1 Hq) as H1.
    destruct (tryStatusTransition _ w1) as [w2 ok1].
    pose proof (tryStatusTransition_frozen (λ w, publishCancel w id) w2 Hp) as H2.
    destruct (tryStatusTransition _ w2) as [w3 ok2]. simpl in *.
    pose proof (e_cascade Henv w3 id). eauto using frozen_trans.
Qed.

Lemma timeout_loop_frozen x w ids : frozen w (timeout_loop x w ids).1.1.
Proof using Henv RunStoreOk0.
  revert w. induction ids as [|[id t] ids IH]; intros w; simpl; [apply frozen_refl|].
  pose proof (timeout_one_frozen x w id t) as H. destruct (timeout_one x w id t) as [[w1 n] f].
  specialize (IH w1). destruct (timeout_loop x w1 ids) as [[w2 n'] f']. simpl in *. eauto using frozen_trans.
Qed.

(** ** An accepted completion is durable and finalized *)

Lemma completed_by_frozen w w' c id run :
  frozen w w' → rs_run w id = Some run → completed_by c run →
  ∃ run', rs_run w' id = Some run' ∧ completed_by c run'.
Proof using. intros Hf Hr Hc. exists run. split; [|done]. apply Hf; [done|]. apply Hc. Qed.

Definition durable (c : RunCompletion) (w : W) : Prop :=
  ∃ run, rs_run w (CRunID c) = Some run ∧ completed_by c run.

Lemma commit_durable x w c w' res steps ok :
  commit_and_finalize x w c = (w', res, steps, ok) → Accepted res = true → durable c w'.
Proof using Henv RunStoreOk0.
  unfold commit_and_finalize. intros H Ha.
  destruct (rs_CompleteRun x w c) as [w1 [result|]] eqn:Hc; [|by injection H as _ <- _ _].
  destruct (negb (Accepted result)) eqn:Hn.
  { injection H as _ <- _ _. by rewrite Ha in Hn. }
  apply negb_false_iff in Hn. destruct (rs_complete_ok _ _ _ _ _ Hc Hn) as (run&Hr&Hby).
  assert (Hf : frozen w1 w').
  { pose proof (get_frozen x w1 (CRunID c)) as Hg.
    destruct (rs_GetRun x w1 (CRunID c)) as [w2 [committed|]]; [|by injection H as <- _ _ _].
    pose proof (finalize_frozen w2 (CRunID c) committed (Applied result)) as Hfi.
    destruct (finalizeCommittedRun w2 (CRunID c) committed (Applied result)) as [[w3 st] k].
    injection H as <- _ _ _. eapply frozen_trans; [exact Hg|exact Hfi]. }
  by eapply completed_by_frozen.
Qed.

Lemma finalize_again_durable w c run res w' res' steps ok :
  finalize_again w c run res = (w', res', steps, ok) →
  (terminal run → rs_run w (CRunID c) = Some run) → completed_by c run → durable c w'.
Proof using Henv.
  intros H Hr Hby. specialize (Hr (proj1 (proj1 Hby))). pose proof (finalize_again_frozen w c run res) as Hf. rewrite H in Hf.
  by eapply completed_by_frozen.
Qed.

Lemma complete_owned_durable x w run c t w' res steps ok :
  (terminal run → rs_run w (CRunID c) = Some run) → (ReplayOnly c = true → TerminalRunStatus (CStatus c) = true) →
  complete_owned x w run c t = (w', res, steps, ok) → Accepted res = true → durable c w'.
Proof using Henv RunStoreOk0.
  intros Hr Hst. unfold complete_owned. destruct (ReplayOnly c) eqn:Hro.
  - destruct (_ || _ || _) eqn:Hb; [by intros [= _ <- _ _]|].
    apply orb_false_iff in Hb as [Hb Hs%negb_false_iff]. apply orb_false_iff in Hb as [Hm Hg%negb_false_iff].
    intros H _. eapply finalize_again_durable; [exact H|done|].
    apply String.eqb_eq in Hs. apply Z.eqb_eq in Hg. split; [|split; [done|by intros _ _]].
    split; [rewrite Hs; auto|]. destruct (marker run); [by eexists|done].
  - destruct (negb (TerminalRunStatus (CStatus c))) eqn:Ht; [by intros [= _ <- _ _]|].
    destruct (CancelCurrentAttempt c) eqn:Hca.
    + unfold complete_cancel. destruct (if t then (w, None) else Replay w (CRunID c)) as [w1 es].
      intros H Ha. apply commit_durable in H as (run'&?&Hby); [|done]. exists run'. split; [done|].
      destruct Hby as (?&?&_). split; [done|]. split; [done|]. by rewrite Hca.
    + unfold complete_normal. destruct (negb (Applied _)) eqn:Hap.
      * destruct (negb (Accepted _)) eqn:Hac.
        { intros [= _ <- _ _] Ha. by rewrite Ha in Hac. }
        intros H _. eapply finalize_again_durable; [exact H|done|].
        apply negb_true_iff in Hap. apply negb_false_iff in Hac. apply negb_false_iff in Ht.
        unfold CheckCompletion in Hap, Hac. rewrite Ht in Hap, Hac. simpl in Hap, Hac.
        destruct (negb (CGeneration c =? _)) in Hac, Hap; [done|].
        destruct (RunMetadata run !! CompletionGenerationKey) as [v|] eqn:Hm;
          [|destruct (TerminalRunStatus (RunStatus run)); done].
        simpl in Hac. apply andb_true_iff in Hac as [Hg%Z.eqb_eq Hs%String.eqb_eq].
        split; [split; [by rewrite Hs|unfold marker; by rewrite Hm]|]. by split; [|intros _ _].
      * destruct (Replay w (CRunID c)) as [w1 [es|]]; [|by intros [= _ <- _ _]].
        destruct (final_values c es) as [v|]; [|by intros [= _ <- _ _]].
        intros H Ha. by apply commit_durable in H.
Qed.

Lemma runner_kind_frozen x w run : frozen w (runner_kind_of x w run).1.
Proof using Henv. unfold runner_kind_of. destruct (String.eqb _ ""); [|apply frozen_refl]. freeze_step; done. Qed.

(** C3. When the server answers that a run's completion is accepted, the run's
    row is durably terminal with the reported status and the reported
    generation's completion marker, whatever failed on the way: even if the
    finalization or the answer itself failed afterwards, no retry can find the
    run unfinished. *)
Theorem accepted_is_durable x w c t w' res steps ok :
  (ReplayOnly c = true → TerminalRunStatus (CStatus c) = true) →
  completeRunResult x w c t = (w', res, steps, ok) → Accepted res = true →
  ∃ run, rs_run w' (CRunID c) = Some run ∧ completed_by c run.
Proof using Henv RunStoreOk0.
  intros Hst. unfold completeRunResult.
  destruct (rs_GetRun (SystemContext x) w (CRunID c)) as [w1 [run|]] eqn:Hg; [|by intros [= _ <- _ _]].
  pose proof (rs_get_ok _ _ _ _ _ Hg) as Hr. rewrite <- (rs_get_same _ _ _ _ _ (CRunID c) Hg) in Hr.
  destruct (String.eqb (CRunnerKind c) ""); [by apply complete_owned_durable|].
  pose proof (runner_kind_frozen x w1 run) as Hk. destruct (runner_kind_of x w1 run) as [w2 [kind|]];
    [|by intros [= _ <- _ _]].
  destruct (String.eqb kind (CRunnerKind c)); [|by intros [= _ <- _ _]].
  apply complete_owned_durable; [|done]. intros Hc. by apply Hk.
Qed.

(** All finalization steps, in order. *)
Definition all_steps (applied : bool) (steps : list fstep) : Prop :=
  ∃ cache, steps = ((if applied then [FMetrics] else []) ++ [FUsage; FHold; FInflight] ++ cache
                    ++ [FClose; FFinish])%list ∧ (cache = [] ∨ cache = [FCache]).

Lemma finalize_steps w id run applied w' steps :
  finalizeCommittedRun w id run applied = (w', steps, true) → all_steps applied steps.
Proof using.
  unfold finalizeCommittedRun. intros H.
  destruct (persistTerminalUsage w run applied) as [w1 []]; [|done].
  destruct (releaseUsageHold w1 id) as [w2 []]; [|done].
  assert (Htail : ∀ w3 pre, finalize_tail w3 id run pre = (w', steps, true) →
    steps = (pre ++ [FClose; FFinish])%list).
  { intros w3 pre. unfold finalize_tail. destruct (brokerClose w3 id) as [w4 []]; [|done].
    destruct (finishRun w4 run) as [w5 []]; [|done]. by intros [= _ <-]. }
  assert (H0 : ∀ w3, finalize_tail w3 id run ((if applied then [FMetrics] else []) ++ [FUsage; FHold; FInflight])
                 = (w', steps, true) → all_steps applied steps).
  { intros w3 ->%Htail. exists []. rewrite <- (assoc_L (++)%list). auto. }
  assert (H1 : ∀ w3, finalize_tail w3 id run
      (((if applied then [FMetrics] else []) ++ [FUsage; FHold; FInflight]) ++ [FCache])
                 = (w', steps, true) → all_steps applied steps).
  { intros w3 ->%Htail. exists [FCache]. rewrite <- !(assoc_L (++)%list). auto. }
  destruct (RunOutput run) as [| | |m]; [by eapply H0|..];
    (destruct (negb (String.eqb (RunStatus run) RunStatusSuccess)); [by eapply H0|]); simpl in H; [done|..];
    (destruct (maybeCacheRunResult _ run _) as [w3 []] in H; [by eapply H1|done]).
Qed.

(** An acceptance without error means the run was finalized: usage
    persisted, hold released, breached budgets drained, the result cached when
    there is one to cache, the event stream closed and the terminal hook run, in
    that order, and the run metrics counted exactly by the call whose transaction
    won. *)
Theorem accepted_is_finalized x w c t w' res steps :
  completeRunResult x w c t = (w', res, steps, true) → Accepted res = true →
  all_steps (Applied res) steps.
Proof using.
  assert (Hagain : ∀ w run r, Applied r = false → finalize_again w c run r = (w', res, steps, true) →
    all_steps (Applied res) steps).
  { intros w1 run r Hr. unfold finalize_again.
    destruct (finalizeCommittedRun w1 (CRunID c) run false) as [[w2 st] ok] eqn:Hf.
    intros [= <- <- <- ->]. rewrite Hr. by eapply finalize_steps. }
  assert (Hcommit : ∀ x w c1, commit_and_finalize x w c1 = (w', res, steps, true) → Accepted res = true →
    all_steps (Applied res) steps).
  { intros x1 w1 c1. unfold commit_and_finalize. destruct (rs_CompleteRun x1 w1 c1) as [w2 [r|]]; [|done].
    destruct (negb (Accepted r)) eqn:Hn; [intros [= <- <- <-] Ha; by rewrite Ha in Hn|].
    destruct (rs_GetRun x1 w2 (CRunID c1)) as [w3 [run|]]; [|done].
    destruct (finalizeCommittedRun w3 (CRunID c1) run (Applied r)) as [[w4 st] ok] eqn:Hf.
    intros [= <- <- <- ->] _. by eapply finalize_steps. }
  assert (Hown : ∀ w run, complete_owned x w run c t = (w', res, steps, true) → Accepted res = true →
    all_steps (Applied res) steps).
  { intros w1 run. unfold complete_owned. destruct (ReplayOnly c).
    { destruct (_ || _ || _); [by intros [= _ <- _]|]. intros H _. eapply Hagain; [|exact H]; done. }
    destruct (negb _); [done|]. destruct (CancelCurrentAttempt c).
    - unfold complete_cancel. destruct (if t then _ else _) as [w2 es]. apply Hcommit.
    - unfold complete_normal. destruct (negb (Applied _)) eqn:Hap.
      + destruct (negb (Accepted _)) eqn:Hac; [intros [= _ <- _] Ha; by rewrite Ha in Hac|].
        intros H _. eapply Hagain; [|exact H]. by apply negb_true_iff.
      + destruct (Replay w1 (CRunID c)) as [w2 [es|]]; [|done].
        destruct (final_values c es) as [v|]; [|done]. apply Hcommit. }
  unfold completeRunResult. destruct (rs_GetRun _ w (CRunID c)) as [w1 [run|]]; [|done].
  destruct (String.eqb (CRunnerKind c) ""); [apply Hown|].
  destruct (runner_kind_of x w1 run) as [w2 [kind|]]; [|done].
  destruct (String.eqb kind (CRunnerKind c)); [apply Hown|done].
Qed.

(** A new attempt never discards an outcome that was already delivered: a
    dispatch is accepted only for a run that is not terminal and, when it would
    supersede a recorded attempt, only if the broker holds no terminal event of
    that attempt or that event's completion was refused. *)
Theorem attempt_keeps_delivered_outcome x w id g w' :
  BeginRunAttempt x w id g = (w', Some true) →
  ∃ w1 run, rs_GetRun (SystemContext x) w id = (w1, Some run) ∧
    TerminalRunStatus (RunStatus run) = false ∧
    let current := MetadataGeneration (RunMetadata run) AttemptGenerationKey in
    (attempted run = true → current < g →
     ∃ w2 events, Replay w1 id = (w2, Some events) ∧
       ∀ e, find_first (is_terminal_of current) (reverse events) = Some e →
            ∃ c w3, reported_completion id current e = Some c ∧
                    CompleteRun x w2 c false = (w3, false, true)).
Proof using.
  unfold BeginRunAttempt. destruct (rs_GetRun (SystemContext x) w id) as [w1 [run|]]; [|done].
  destruct (TerminalRunStatus (RunStatus run)) eqn:Ht; [by destruct (refinalize w1 id run) as [? []]|].
  intros H. exists w1, run. split; [done|]. split; [done|]. intros Hat Hlt.
  rewrite Hat, (proj2 (Z.ltb_lt _ _) Hlt) in H. simpl in H. unfold recoverDeliveredCompletion in H.
  destruct (Replay w1 id) as [w2 [events|]]; [|done]. exists w2, events. split; [done|].
  intros e He. rewrite He in H. destruct (reported_completion id _ e) as [c|] eqn:Hrc; [|done].
  exists c. destruct (CompleteRun x w2 c false) as [[w3 []] []]; try done. by exists w3.
Qed.

Lemma CompleteRun_durable x w c t w' ok :
  ReplayOnly c = false → CompleteRun x w c t = (w', true, ok) → durable c w'.
Proof using Henv RunStoreOk0.
  intros Hro. unfold CompleteRun. destruct (completeRunResult x w c t) as [[[w1 res] st] k] eqn:H.
  intros [= <- Ha _]. revert H Ha. unfold completeRunResult.
  destruct (rs_GetRun (SystemContext x) w (CRunID c)) as [w2 [run|]] eqn:Hg; [|by intros [= _ <- _ _]].
  pose proof (rs_get_ok _ _ _ _ _ Hg) as Hr. rewrite <- (rs_get_same _ _ _ _ _ (CRunID c) Hg) in Hr.
  destruct (String.eqb (CRunnerKind c) ""); [apply complete_owned_durable; [done|by rewrite Hro]|].
  pose proof (runner_kind_frozen x w2 run) as Hk. destruct (runner_kind_of x w2 run) as [w3 [kind|]];
    [|by intros [= _ <- _ _]].
  destruct (String.eqb kind (CRunnerKind c)); [|by intros [= _ <- _ _]].
  apply complete_owned_durable; [|by rewrite Hro]. intros Hc. by apply Hk.
Qed.

(** A cancellation of the current attempt is refused only on a run that is over. *)
Lemma CompleteRun_refused x w c t w' :
  CancelCurrentAttempt c = true → ReplayOnly c = false → CRunnerKind c = "" →
  CStatus c = RunStatusInterrupted ∨ CStatus c = RunStatusTimeout →
  CompleteRun x w c t = (w', false, true) →
  ∃ run, rs_run w' (CRunID c) = Some run ∧ (terminal run ∨ is_Some (marker run)).
Proof using RunStoreOk0.
  intros Hca Hro Hk Hst. unfold CompleteRun, completeRunResult, complete_owned, complete_cancel, commit_and_finalize.
  rewrite Hca, Hro, Hk. simpl.
  assert (TerminalRunStatus (CStatus c) = true) as -> by (by destruct Hst as [-> | ->]). simpl.
  destruct (rs_GetRun (SystemContext x) w (CRunID c)) as [w1 [run|]]; [|done].
  destruct (if t then _ else _) as [w2 es].
  match goal with |- context [rs_CompleteRun ?y w2 ?d] =>
    pose proof (rs_cancel_refused y w2 d) as Href; destruct (rs_CompleteRun y w2 d) as [w3 [res|]] end; [|done].
  destruct (Accepted res) eqn:Ha; simpl.
  - destruct (rs_GetRun _ w3 (CRunID c)) as [w4 [r|]]; [|intros [= ? ?]; congruence].
    destruct (finalizeCommittedRun _ _ _ _) as [[w5 st] ok]. intros [= ? ?]; congruence.
  - intros [= <- _]. by eapply Href.
Qed.

Lemma recover_durable x w id run w' ok :
  recoverDeliveredCompletion x w id run = (w', true, ok) →
  ∃ r, rs_run w' id = Some r ∧ completed r.
Proof using Henv RunStoreOk0.
  unfold recoverDeliveredCompletion. destruct (Replay w id) as [w1 [es|]]; [|done].
  destruct (find_first _ _) as [e|]; [|done]. unfold reported_completion.
  destruct (decode_terminal (Data e)) as [[st msg]|]; [|done].
  intros (r&Hr&Hc&_)%CompleteRun_durable; [|done]. by exists r.
Qed.

Lemma fail_reclaimed_durable x w id run g msg w' ok :
  fail_reclaimed x w id run g msg = (w', true, ok) → ∃ r, rs_run w' id = Some r ∧ completed r.
Proof using Henv RunStoreOk0.
  unfold fail_reclaimed. destruct (_ || _).
  - destruct (rs_BeginRunAttempt _ w id g) as [w1 [[]|]]; [|done..].
    intros (r&Hr&Hc&_)%CompleteRun_durable; [|done]. by exists r.
  - intros (r&Hr&Hc&_)%CompleteRun_durable; [|done]. by exists r.
Qed.

(** The reaper is told it may drop a dead letter only when the retained
    lease is the one the dead letter names and the run's row is durably
    terminal. *)
Theorem reclaimed_run_is_terminal x w pill msg w' ok :
  CompleteReclaimedRun x w pill msg = (w', true, ok) →
  (∃ a, (LookupInflight w (PRunID pill)).2 = Some (Some a) ∧ Generation a = PGeneration pill - 1) ∧
  ∃ run, rs_run w' (PRunID pill) = Some run ∧ TerminalRunStatus (RunStatus run) = true.
Proof using Henv RunStoreOk0.
  unfold CompleteReclaimedRun. destruct (PGeneration pill <=? 0); [done|].
  destruct (LookupInflight w (PRunID pill)) as [w1 [[a|]|]]; [|done..].
  destruct (Z.eqb_spec (Generation a) (PGeneration pill - 1)) as [Hg|]; simpl; [|done].
  destruct (rs_GetRun (SystemContext x) w1 (PRunID pill)) as [w2 [run|]] eqn:Hget; [|done].
  intros H. split; [by exists a|].
  pose proof (rs_get_ok _ _ _ _ _ Hget) as Hr. rewrite <- (rs_get_same _ _ _ _ _ (PRunID pill) Hget) in Hr.
  destruct (TerminalRunStatus (RunStatus run)) eqn:Ht.
  - pose proof (refinalize_frozen w2 (PRunID pill) run) as Hf. unfold refinalize in H, Hf.
    exists run. split; [|done]. destruct (marker run) eqn:Hm; [|by injection H as <- _].
    destruct (finalizeCommittedRun _ _ _ _) as [[w3 st] k]. injection H as <- _.
    by apply Hf.
  - destruct (_ <? _); [done|]. destruct (attempted run).
    + destruct (recoverDeliveredCompletion x w2 (PRunID pill) run) as [[w3 []] k] eqn:Hrec.
      * apply recover_durable in Hrec as (r&?&?&_). destruct k; injection H as <- _; by exists r.
      * destruct k; [|done]. apply fail_reclaimed_durable in H as (r&?&?&_). by exists r.
    + apply fail_reclaimed_durable in H as (r&?&?&_). by exists r.
Qed.

Lemma await_once_terminal x w id w' run :
  await_once x w id = (w', Some (Some run)) → TerminalRunStatus (RunStatus run) = true.
Proof using Henv RunStoreOk0.
  unfold await_once. destruct (rs_GetRun x w id) as [w1 [latest|]]; [|done].
  destruct (TerminalRunStatus (RunStatus latest)) eqn:Ht; [by intros [= _ <-]|].
  destruct (Replay w1 id) as [w2 [es|]]; [|done]. destruct (find_first _ _) as [e|]; [|done].
  unfold reported_completion. destruct (decode_terminal (Data e)) as [[st msg]|]; [|done].
  destruct (CompleteRun x w2 _ false) as [[w3 []] []] eqn:Hc; try done.
  apply CompleteRun_durable in Hc as (r&Hr&[Hst _]&_); [|done]. simpl in Hr.
  destruct (rs_GetRun x w3 id) as [w4 o] eqn:Hg. intros [= _ ->].
  apply rs_get_ok in Hg. congruence.
Qed.

(** A caller that waits for a run is only ever given a terminal row, whatever the
    rest of the system does between its polls. *)
Theorem awaited_run_is_terminal x w id ticks w' run :
  awaitDurableCompletion x w id ticks = (w', Some (Some run)) → TerminalRunStatus (RunStatus run) = true.
Proof using Henv RunStoreOk0.
  revert w. induction ticks as [|[other|] ticks IH]; intros w; simpl;
    destruct (await_once x w id) as [w1 [r|]] eqn:Ha; try done;
    try (intros [= <- ->]; by eapply await_once_terminal). apply IH.
Qed.

(** ** Histories of lifecycle calls *)

Inductive lop :=
| LBegin (x : ctx) (id : string) (g : Z)
| LComplete (x : ctx) (c : RunCompletion) (timedOut : bool)
| LReclaimed (x : ctx) (pill : PoisonPill) (msg : string)
| LTimeout (x : ctx) (ids : list (string * bool)).

Definition lstep (w : W) (o : lop) : W :=
  match o with
  | LBegin x id g => (BeginRunAttempt x w id g).1
  | LComplete x c t => (CompleteRun x w c t).1.1
  | LReclaimed x pill msg => (CompleteReclaimedRun x w pill msg).1.1
  | LTimeout x ids => (timeout_loop x w ids).1.1
  end.

Lemma lsteps_frozen w ops : frozen w (foldl lstep w ops).
Proof using Henv RunStoreOk0.
  revert w. induction ops as [|o ops IH]; intros w; simpl; [apply frozen_refl|].
  eapply frozen_trans; [|apply IH]. destruct o; simpl;
    eauto using BeginRunAttempt_frozen, CompleteRun_frozen, CompleteReclaimedRun_frozen, timeout_loop_frozen.
Qed.

(** Once a run's durable status is terminal, no later lifecycle call changes its
    row: attempts, runner reports, recovered outcomes, dead letters and timeout
    sweeps of any run, in any order. *)
Theorem outcome_is_final w ops r run :
  rs_run w r = Some run → terminal run → rs_run (foldl lstep w ops) r = Some run.
Proof using Henv RunStoreOk0. intros Hr Hc. by apply lsteps_frozen. Qed.
End lifecycle.
