(* ===== verification/Cancel.v ===== *)
(** * Cancelling runs and what they delegated

    Models the cancellation half of [internal/api/runs.go] ([cancelRunCore],
    [cancelRunSingle], [cascadeCancelDescendants]) and the kill-switch drain of
    [internal/api/admin_kill.go].

    The server's own [CompleteRun] is used through the interface [Completer],
    which the lifecycle implements ([lifecycle_completer_ok]); the state store is
    the lifecycle's [RunStore]; the queue, the cancel bus and the broker are
    parameters that leave terminal rows alone. *)

From Stdlib Require Import String.
From S2P Require Import Prelude GoStrings GoAny Transport Completion Store StoreSearch Lifecycle.
Local Open Scope string_scope.
Local Open Scope list_scope.
Local Open Scope Z_scope.

(** ** What cancellation needs of the lifecycle *)

(** Over: terminal, or carrying a completion marker. *)
Definition settled (r : Run) : Prop := terminal r ∨ is_Some (marker r).

Class Completer (W : Type) := complete : ctx → W → RunCompletion → bool → W * bool * bool.

Class CompleterOk (W : Type) `{RunStore W} `{!Completer W} := {
  cp_frozen x w c t : frozen w (complete x w c t).1.1;
  cp_accepted x w c t w' ok :
    ReplayOnly c = false → complete x w c t = (w', true, ok) →
    ∃ run, rs_run w' (CRunID c) = Some run ∧ completed_by c run;
  cp_refused x w c t w' :
    CancelCurrentAttempt c = true → ReplayOnly c = false → CRunnerKind c = "" →
    CStatus c = RunStatusInterrupted ∨ CStatus c = RunStatusTimeout →
    complete x w c t = (w', false, true) →
    ∃ run, rs_run w' (CRunID c) = Some run ∧ settled run
}.

(** A run as a listing gives it: its id and its row. *)
Definition node : Type := string * Run.

(** Calls that let go of a run: its lease, its runner, its event stream. *)
Inductive cact := AQueueCancel | APublishCancel | AClose | ACloseLater.

Definition maxA2ACascadeRuns : Z := 5000.
Definition killDrainPageSize : Z := 200.
Definition killDrainMaxPages : nat := Pos.to_nat 1000.

Definition cancel_completion (id : string) : RunCompletion :=
  mkCompletion true None "" false id 0 RunStatusInterrupted "" None.

(** The listing of a delegation tree. *)
Definition tree_query (root : string) : RunSearchRequest := mkSearch [] None "" "" root "" maxA2ACascadeRuns 0 None.

Definition root_of (n : node) : string := default n.1 (RunRoot n.2).

(** [childrenOf[id]] *)
Definition children (tree : list node) (id : string) : list node :=
  filter (λ n, RunParent n.2 = Some id) tree.

(** ** Delegation *)

Definition RunIsSimulation (meta : gmap string any) : bool :=
  match meta !! "simulation" with
  | Some (ABool b) => b
  | Some (AStr t) =>
      let s := ToLower (TrimSpace t) in
      String.eqb s "true" || String.eqb s "1" || String.eqb s "yes"
  | _ => false
  end.

Definition a2aMaxDepthOrDefault (configured : Z) : Z := if configured <=? 0 then 10 else configured.
Definition a2aMaxBreadthOrDefault (configured : Z) : Z := if configured <=? 0 then 20 else configured.

Inductive a2a_err :=
| EParentLookup
| ErrA2ADepthExceeded (depth maxDepth : Z)
| EListChildren
| ErrA2ABreadthExceeded (breadth maxBreadth : Z).

(** The simulation flag, root and depth of a run about to be created. *)
Definition a2a_lineage {W} `{!RunStore W} (depthCfg breadthCfg : Z) (x : ctx) (w : W)
    (parentID : option string) (sim : bool) : W * res a2a_err (bool * option string * Z) :=
  match parentID with
  | None => (w, Ok (sim, None, 0))
  | Some pid =>
      match rs_GetRun x w pid with
      | (w, None) => (w, Err EParentLookup)
      | (w, Some parent) =>
          let sim := RunIsSimulation (RunMetadata parent) || sim in
          let depth := RunDepth parent + 1 in
          let maxDepth := a2aMaxDepthOrDefault depthCfg in
          if maxDepth <? depth then (w, Err (ErrA2ADepthExceeded depth maxDepth))
          else
            let maxBreadth := a2aMaxBreadthOrDefault breadthCfg in
            match rs_SearchRuns x w (mkSearch [] None "" "" "" pid maxBreadth 0 None) with
            | (w, None) => (w, Err EListChildren)
            | (w, Some siblings) =>
                let n := Z.of_nat (length siblings) in
                if maxBreadth <=? n then (w, Err (ErrA2ABreadthExceeded n maxBreadth))
                else (w, Ok (sim, Some (root_of (pid, parent)), depth))
            end
      end
  end.

(** ** The breadth-first order *)

(** The order in which the walk takes runs from its queue. *)
Fixpoint bfs (fuel : nat) (tree queue : list node) : option (list node) :=
  match queue with
  | [] => Some []
  | child :: rest =>
      match fuel with
      | O => None
      | S fuel => cons child <$> bfs fuel tree (rest ++ children tree child.1)%list
      end
  end.

Section bfs.
Variable tree : list node.
Variable root : string.
Variable rank : string → Z.
Context (Hnd : NoDup tree.*1).
(** A run is created below its parent. *)
Context (Hrank : ∀ n p, n ∈ tree → RunParent n.2 = Some p → p = root ∨ p ∈ tree.*1 → rank p < rank n.1).

(** Reached from the root along the listing's parent links. *)
Inductive below : node → Prop :=
| below_child n : n ∈ tree → RunParent n.2 = Some root → below n
| below_step m n : below m → n ∈ tree → RunParent n.2 = Some m.1 → below n.

(** [visited] are the runs already taken: the queue holds exactly their children
    and the root's that are not yet taken, and nothing is there twice. *)
Record bfs_inv (visited queue : list node) : Prop := {
  b_nodup : NoDup (visited ++ queue).*1;
  b_below n : n ∈ visited ++ queue → n ∈ tree ∧ rank root < rank n.1 ∧ below n ∧
    ∃ p, RunParent n.2 = Some p ∧ (p = root ∨ p ∈ visited.*1);
  b_all n p : n ∈ tree → RunParent n.2 = Some p → p = root ∨ p ∈ visited.*1 → n ∈ visited ++ queue
}.

Lemma children_spec id n : n ∈ children tree id ↔ n ∈ tree ∧ RunParent n.2 = Some id.
Proof using. unfold children. rewrite list_elem_of_filter. tauto. Qed.

Lemma children_NoDup id : NoDup (children tree id).*1.
Proof using Hnd. eapply sublist_NoDup; [exact Hnd|]. apply fmap_sublist, sublist_filter. Qed.

Lemma bfs_start : bfs_inv [] (children tree root).
Proof using Hnd Hrank.
  constructor; simpl.
  - apply children_NoDup.
  - intros n [Hn Hp]%children_spec. split; [done|]. split; [by eapply Hrank; [| |left]|]. split; [by constructor|eauto].
  - intros n p Hn Hp [->|Hin]; [|by apply elem_of_nil in Hin]. by apply children_spec.
Qed.

Lemma bfs_step visited c rest :
  bfs_inv visited (c :: rest) → bfs_inv (visited ++ [c]) (rest ++ children tree c.1).
Proof using Hnd Hrank.
  intros [Hn Hbelow Hall].
  assert (Happ : ((visited ++ [c]) ++ rest ++ children tree c.1)%list
                 = ((visited ++ c :: rest) ++ children tree c.1)%list) by (by rewrite <- !app_assoc).
  assert (Hc : c ∈ (visited ++ c :: rest)%list) by set_solver.
  destruct (Hbelow c Hc) as (Hct&Hcr&Hcb&_).
  assert (Hvc : c.1 ∉ visited.*1).
  { rewrite fmap_app, list.NoDup_app in Hn. destruct Hn as (_&Hd&_). intros Hin. apply (Hd _ Hin). by left. }
  constructor; rewrite ?Happ.
  - rewrite fmap_app. apply list.NoDup_app. split; [done|]. split; [|apply children_NoDup].
    intros i (n&->&Hin)%list_elem_of_fmap (m&E&[Hm Hmp]%children_spec)%list_elem_of_fmap.
    destruct (Hbelow n Hin) as (Hnt&_&_&p&Hnp&Hp).
    assert (n = m) as <-. { destruct n as [i a], m as [i' b]. simpl in E. subst i'. f_equal.
      apply (elem_of_list_to_map_1 (M := gmap string)) in Hnt, Hm; [congruence|done..]. }
    assert (p = c.1) as -> by congruence. destruct Hp as [E'|]; [rewrite E' in Hcr; lia|done].
  - intros n [Hin|[Hnt Hnp]%children_spec]%elem_of_app.
    + destruct (Hbelow n Hin) as (?&?&?&p&?&Hp). do 3 (split; [done|]). exists p. split; [done|].
      rewrite fmap_app. set_solver.
    + split; [done|]. split.
      * etrans; [exact Hcr|]. eapply Hrank; [done..|]. right. by apply list_elem_of_fmap_2.
      * split; [by eapply below_step|]. exists c.1. split; [done|]. right. rewrite fmap_app. set_solver.
  - intros n p Hnt Hnp [->|Hin]; apply elem_of_app; [left; by eapply Hall; [..|left]|].
    rewrite fmap_app, elem_of_app in Hin. destruct Hin as [Hin|Hin]; [left; by eapply Hall; [..|right]|].
    apply list_elem_of_singleton in Hin as ->. right. by apply children_spec.
Qed.

Lemma bfs_bound visited queue : bfs_inv visited queue → (length visited + length queue ≤ length tree)%nat.
Proof using Hnd.
  intros [Hn Hbelow _]. assert (Hsub : (visited ++ queue).*1 ⊆+ tree.*1).
  { apply NoDup_submseteq; [done|]. intros i (n&->&Hin)%list_elem_of_fmap.
    apply list_elem_of_fmap_2. by apply Hbelow. }
  apply submseteq_length in Hsub. rewrite !length_fmap, length_app in Hsub. exact Hsub.
Qed.

Lemma bfs_total fuel visited queue :
  bfs_inv visited queue → (length tree ≤ fuel + length visited)%nat →
  ∃ order, bfs fuel tree queue = Some order ∧ bfs_inv (visited ++ order) [].
Proof using Hnd Hrank.
  revert visited queue. induction fuel as [|fuel IH]; intros visited [|c rest] Hi Hlen; simpl.
  1, 3: exists []; by rewrite app_nil_r.
  - apply bfs_bound in Hi. simpl in Hi. lia.
  - destruct (IH (visited ++ [c])%list (rest ++ children tree c.1)%list) as (order&Ho&Hinv).
    + by apply bfs_step.
    + rewrite length_app. simpl. lia.
    + exists (c :: order). rewrite Ho. split; [done|]. by rewrite <- app_assoc in Hinv.
Qed.
End bfs.

Section cancel.
Context {W : Type} `{!RunStore W} `{!Completer W}.
Variable queueCancel : W → string → W * bool.
Variable publishCancel : W → string → W * bool.
Variable brokerClose : W → string → W * bool.
Variable DeleteRun : ctx → W → string → W * bool.
(** The broker does not answer a cancellation's replay in time. *)
Variable slow : W → string → bool.

(** ** One run *)

(** The calls made, each with the world it was made in, and the result: [None]
    is an error, [Some None] a nil run. *)
Definition cresult : Type := W * list (cact * W) * option (option Run).

(** After the commit: lease, runner, stream.  Without [wait] the stream is closed
    later, in the background. *)
Definition release (x : ctx) (w : W) (id : string) (wait : bool) : cresult :=
  let (w1, ok) := tryStatusTransition (λ w, queueCancel w id) w in
  if negb ok then (w1, [(AQueueCancel, w)], None)
  else
    let (w2, ok) := tryStatusTransition (λ w, publishCancel w id) w1 in
    if negb ok then (w2, [(AQueueCancel, w); (APublishCancel, w1)], None)
    else
      let w3 := if wait then (brokerClose w2 id).1 else w2 in
      let (w4, updated) := rs_GetRun x w3 id in
      (w4, [(AQueueCancel, w); (APublishCancel, w1); (if wait then AClose else ACloseLater, w2)],
       Some updated).

Definition cancelRunSingle (x : ctx) (w : W) (n : node) (wait : bool) : cresult :=
  let (id, run) := n in
  if TerminalRunStatus (RunStatus run) && negb (String.eqb (RunStatus run) RunStatusInterrupted)
  then (w, [], Some (Some run))
  else
    match complete x w (cancel_completion id) (slow w id) with
    | (w1, accepted, false) =>
        if accepted
        then ((tryStatusTransition (λ w, publishCancel w id) w1).1, [(APublishCancel, w1)], None)
        else (w1, [], None)
    | (w1, true, true) => release x w1 id wait
    | (w1, false, true) =>
        match rs_GetRun x w1 id with
        | (w2, None) => (w2, [], None)
        | (w2, Some current) =>
            if negb (String.eqb (RunStatus current) RunStatusInterrupted) then (w2, [], Some (Some current))
            else release x w2 id wait
        end
    end.

(** ** The delegation tree *)

Definition no_error {A} (r : option A) : bool := match r with Some _ => true | None => false end.

(** The breadth-first walk: each run taken from the queue, and whether its
    cancellation reported no error.  [None]: out of fuel. *)
Fixpoint walk (fuel : nat) (x : ctx) (w : W) (tree queue : list node) : option (W * list (node * bool)) :=
  match queue with
  | [] => Some (w, [])
  | child :: rest =>
      match fuel with
      | O => None
      | S fuel =>
          let '(w, _, r) := cancelRunSingle x w child false in
          match walk fuel x w tree (rest ++ children tree child.1)%list with
          | Some (w, log) => Some (w, (child, no_error r) :: log)
          | None => None
          end
      end
  end.

Definition cascadeCancelDescendants (fuel : nat) (x : ctx) (w : W) (n : node)
  : option (W * list (node * bool)) :=
  let x := SystemContext x in
  match rs_SearchRuns x w (tree_query (root_of n)) with
  | (w, None) => Some (w, [])
  | (w, Some tree) => walk fuel x w tree (children tree n.1)
  end.

(** [Some None] without an error: the run was deleted ([rollback]).  The outer
    [None] is the walk out of fuel. *)
Definition cancelRunCore (fuel : nat) (x : ctx) (w : W) (id : string) (wait rollback : bool)
  : option (W * option (option Run)) :=
  match rs_GetRun x w id with
  | (w, None) => Some (w, None)
  | (w, Some run) =>
      match cancelRunSingle x w (id, run) wait with
      | (w, _, None) => Some (w, None)
      | (w, _, Some updated) =>
          match cascadeCancelDescendants fuel x w (id, run) with
          | None => None
          | Some (w, _) =>
              if rollback then
                match DeleteRun x w id with
                | (w, false) => Some (w, None)
                | (w, true) => Some (w, Some None)
                end
              else Some (w, Some updated)
          end
      end
  end.

(** ** The kill-switch drain *)

(** One page: the runs cancelled. *)
Fixpoint drain_page (x : ctx) (w : W) (page : list node) : W * list string :=
  match page with
  | [] => (w, [])
  | n :: rest =>
      if TerminalRunStatus (RunStatus n.2) then drain_page x w rest
      else
        let '(w, _, r) := cancelRunSingle x w n false in
        let (w, more) := drain_page x w rest in
        (w, if no_error r then n.1 :: more else more)
  end.

Fixpoint drain_status (pages : nat) (x : ctx) (w : W) (agentID status : string) : W * list string :=
  match pages with
  | O => (w, [])
  | S pages =>
      match rs_SearchRuns x w (mkSearch [] (Some status) "" agentID "" "" killDrainPageSize 0 None) with
      | (w, None) => (w, [])
      | (w, Some []) => (w, [])
      | (w, Some page) =>
          match drain_page x w page with
          | (w, []) => (w, [])
          | (w, cancelled) =>
              if Z.of_nat (length page) <? killDrainPageSize then (w, cancelled)
              else let (w, more) := drain_status pages x w agentID status in (w, (cancelled ++ more)%list)
          end
      end
  end.

(** The runs counted as cancelled. *)
Definition drainKillScope (x : ctx) (w : W) (tenantID agentID : string) : W * list string :=
  let x := WithContext x tenantID in
  let (w, c1) := drain_status killDrainMaxPages x w agentID RunStatusPending in
  let (w, c2) := drain_status killDrainMaxPages x w agentID RunStatusRunning in
  (w, (c1 ++ c2)%list).

(** ** Letting go of a run only once its interruption is durable *)

Context `{!RunStoreOk W} `{!CompleterOk W}.
Context (Hq : ∀ w id, frozen w (queueCancel w id).1) (Hp : ∀ w id, frozen w (publishCancel w id).1)
  (Hb : ∀ w id, frozen w (brokerClose w id).1).

Definition interrupted (w : W) (id : string) : Prop :=
  ∃ row, rs_run w id = Some row ∧ RunStatus row = RunStatusInterrupted.

Lemma interrupted_frozen w w' id : frozen w w' → interrupted w id → interrupted w' id.
Proof using. intros Hf (row&Hr&Hs). exists row. split; [|done]. apply Hf; [done|]. unfold terminal. by rewrite Hs. Qed.

Lemma queue_frozen id w : frozen w (tryStatusTransition (λ w, queueCancel w id) w).1.
Proof using Hq. by apply tryStatusTransition_frozen. Qed.

Lemma publish_frozen id w : frozen w (tryStatusTransition (λ w, publishCancel w id) w).1.
Proof using Hp. by apply tryStatusTransition_frozen. Qed.

Lemma release_spec x w id wait w' acts r :
  release x w id wait = (w', acts, r) →
  frozen w w' ∧ (interrupted w id → ∀ a wa, (a, wa) ∈ acts → interrupted wa id).
Proof using Hq Hp Hb RunStoreOk0.
  unfold release. pose proof (queue_frozen id w) as H1. destruct (tryStatusTransition _ w) as [w1 ok1].
  pose proof (publish_frozen id w1) as H2. destruct (tryStatusTransition _ w1) as [w2 ok2]. simpl in *.
  assert (H3 : frozen w2 (if wait then (brokerClose w2 id).1 else w2)) by (destruct wait; [apply Hb|apply frozen_refl]).
  set (w3 := if wait then (brokerClose w2 id).1 else w2) in *.
  pose proof (get_frozen x w3 id) as H4. destruct (rs_GetRun x w3 id) as [w4 o]. simpl in *.
  assert (H02 : frozen w w2) by eauto using frozen_trans.
  assert (H04 : frozen w w4) by eauto using frozen_trans.
  destruct (negb ok1); [|destruct (negb ok2)]; intros [= <- <- <-]; (split; [by eauto using frozen_trans|]); intros Hi a wa Hin;
    repeat (apply elem_of_cons in Hin as [[= -> ->]|Hin]; [by eauto using interrupted_frozen|]);
    by apply elem_of_nil in Hin.
Qed.

Lemma cancel_accepted x w id t w1 ok : complete x w (cancel_completion id) t = (w1, true, ok) → interrupted w1 id.
Proof using CompleterOk0. intros (run&Hr&_&Hs&_)%cp_accepted; [|done]. by exists run. Qed.

Lemma cancelRunSingle_frozen x w n wait : frozen w (cancelRunSingle x w n wait).1.1.
Proof using Hq Hp Hb RunStoreOk0 CompleterOk0.
  unfold cancelRunSingle. destruct n as [id run]. destruct (_ && _); [apply frozen_refl|].
  pose proof (cp_frozen x w (cancel_completion id) (slow w id)) as H1.
  destruct (complete _ _ _ _) as [[w1 []] []]; simpl in *; [|..|done].
  - destruct (release x w1 id wait) as [[w2 acts] r] eqn:E. apply release_spec in E as [E _].
    simpl. eauto using frozen_trans.
  - eauto using frozen_trans, publish_frozen.
  - pose proof (get_frozen x w1 id) as H2. destruct (rs_GetRun x w1 id) as [w2 [current|]]; simpl in *;
      [|eauto using frozen_trans].
    destruct (negb _); simpl; [eauto using frozen_trans|].
    destruct (release x w2 id wait) as [[w3 acts] r] eqn:E. apply release_spec in E as [E _].
    simpl. eauto using frozen_trans.
Qed.

(** Cancelling lets go of a run only once the interruption is durable: at the
    moment its queue lease is removed, its runner told to stop, or its event
    stream closed, the run's row already says interrupted.  When the completion
    itself reports an error the lease is kept, so that the ordinary reclaim
    finishes the bookkeeping. *)
Theorem lease_released_after_commit x w id run wait w' acts r :
  cancelRunSingle x w (id, run) wait = (w', acts, r) →
  (∀ a wa, (a, wa) ∈ acts → interrupted wa id) ∧
  ((complete x w (cancel_completion id) (slow w id)).2 = false → ∀ wa, (AQueueCancel, wa) ∉ acts).
Proof using Hq Hp Hb RunStoreOk0 CompleterOk0.
  clear DeleteRun. unfold cancelRunSingle.
  assert (Hnil : (∀ a wa, (a, wa) ∈ @nil (cact * W) → interrupted wa id) ∧ ∀ wa, (AQueueCancel, wa) ∉ @nil (cact * W))
    by (split; [intros ?? []%elem_of_nil|intros ? []%elem_of_nil]).
  destruct (_ && _); [intros [= <- <- <-]; naive_solver|].
  destruct (complete x w (cancel_completion id) (slow w id)) as [[w1 []] []] eqn:Hc; simpl.
  - intros H. split; [|done]. apply release_spec in H as [_ H]. apply H. by eapply cancel_accepted.
  - intros [= <- <- <-]. split.
    + intros a wa Hin. apply list_elem_of_singleton in Hin. injection Hin as -> ->. by eapply cancel_accepted.
    + intros _ wa Hin. by apply list_elem_of_singleton in Hin.
  - destruct (rs_GetRun x w1 id) as [w2 [current|]] eqn:Hg; [|intros [= <- <- <-]; by destruct Hnil; split].
    destruct (String.eqb_spec (RunStatus current) RunStatusInterrupted) as [Hs|]; simpl;
      [|intros [= <- <- <-]; by destruct Hnil; split].
    intros H. split; [|done]. apply release_spec in H as [_ H]. apply H.
    exists current. split; [|done]. rewrite (rs_get_same _ _ _ _ _ _ Hg). by eapply rs_get_ok.
  - intros [= <- <- <-]. by destruct Hnil; split.
Qed.

Lemma cancel_settled x w id run wait w' acts r :
  cancelRunSingle x w (id, run) wait = (w', acts, Some r) → (terminal run → rs_run w id = Some run) →
  ∃ row, rs_run w' id = Some row ∧ settled row.
Proof using Hq Hp Hb RunStoreOk0 CompleterOk0.
  unfold cancelRunSingle. intros H Hrun.
  assert (Hrel : ∀ w1 a2, release x w1 id wait = (w', a2, Some r) → interrupted w1 id →
    ∃ row, rs_run w' id = Some row ∧ settled row).
  { intros w1 a2 [Hf _]%release_spec Hi. destruct (interrupted_frozen _ _ _ Hf Hi) as (row&Hr&Hs).
    exists row. split; [done|]. left. unfold terminal. by rewrite Hs. }
  destruct (TerminalRunStatus (RunStatus run)) eqn:Ht; simpl in H.
  1: destruct (negb _); [injection H as <- <- <-; exists run; split; [by apply Hrun|by left]|].
  all: destruct (complete x w (cancel_completion id) (slow w id)) as [[w1 []] []] eqn:Hc; try done;
    [eapply Hrel; [exact H|by eapply cancel_accepted]|].
  all: destruct (rs_GetRun x w1 id) as [w2 [current|]] eqn:Hg; [|done].
  all: destruct (String.eqb_spec (RunStatus current) RunStatusInterrupted) as [Hs|]; simpl in H;
    [eapply Hrel; [exact H|]; exists current; split; [|done]; rewrite (rs_get_same _ _ _ _ _ _ Hg);
     by eapply rs_get_ok|].
  all: injection H as <- <- <-; rewrite (rs_get_same _ _ _ _ _ _ Hg).
  all: eapply (cp_refused x w (cancel_completion id)); [done..|by left|exact Hc].
Qed.

(** A cancellation that reports no error leaves the run over: its row is
    terminal, by this cancellation or by whoever finished first, or carries the
    completion marker that no later completion can replace. *)
Theorem cancel_settles_run x w id run wait w' acts r :
  rs_run w id = Some run → cancelRunSingle x w (id, run) wait = (w', acts, Some r) →
  ∃ row, rs_run w' id = Some row ∧ settled row.
Proof using Hq Hp Hb RunStoreOk0 CompleterOk0. intros Hr H. by eapply cancel_settled. Qed.

(** ** The cascade *)

(** [d] was delegated from [a], directly or through other runs of the store. *)
Inductive descendant (w : W) (a : string) : string → Prop :=
| desc_child d r : rs_run w d = Some r → RunParent r = Some a → descendant w a d
| desc_step m d r : descendant w a m → rs_run w d = Some r → RunParent r = Some m → descendant w a d.

(** What the creation of a delegated run records: one level below its parent, in
    the parent's tree. *)
Definition lineage_ok (w : W) : Prop :=
  ∀ d r p pr, rs_run w d = Some r → RunParent r = Some p → rs_run w p = Some pr →
    RunRoot r = Some (root_of (p, pr)) ∧ RunDepth r = RunDepth pr + 1.

Lemma descendant_row w a d : descendant w a d → ∃ r, rs_run w d = Some r.
Proof using. intros []; eauto. Qed.

Lemma descendant_root w a run d r :
  lineage_ok w → rs_run w a = Some run → descendant w a d → rs_run w d = Some r →
  RunRoot r = Some (root_of (a, run)).
Proof using.
  intros Hl Ha Hd. revert r. induction Hd as [d r1 Hr1 Hp1|m d r1 Hm IH Hr1 Hp1]; intros r Hr;
    assert (r1 = r) as -> by congruence.
  - by eapply Hl.
  - destruct (descendant_row _ _ _ Hm) as [mr Hmr]. destruct (Hl _ _ _ _ Hr Hp1 Hmr) as [-> _].
    unfold root_of at 1. simpl. by rewrite (IH _ Hmr).
Qed.

(** ** What delegation establishes *)

Lemma a2a_lineage_ok dc bc x w pid sim w' sim' root depth :
  a2a_lineage dc bc x w (Some pid) sim = (w', Ok (sim', root, depth)) →
  ∃ parent, rs_run w pid = Some parent ∧ root = Some (root_of (pid, parent)) ∧
    depth = RunDepth parent + 1 ∧ depth ≤ a2aMaxDepthOrDefault dc ∧
    sim' = RunIsSimulation (RunMetadata parent) || sim.
Proof using RunStoreOk0.
  unfold a2a_lineage. destruct (rs_GetRun x w pid) as [w1 [parent|]] eqn:Hg; [|done].
  destruct (Z.ltb_spec (a2aMaxDepthOrDefault dc) (RunDepth parent + 1)); [done|].
  destruct (rs_SearchRuns x w1 _) as [w2 [l|]]; [|done]. destruct (_ <=? _); [done|].
  intros [= _ <- <- <-]. exists parent. split; [by eapply rs_get_ok|done].
Qed.

(** Creating a run with the lineage its delegation was given keeps the store's
    lineage consistent, when its id is new and the store does not yet name it. *)
Theorem delegation_keeps_lineage dc bc x w pid sim w1 sim' root depth id row (w2 : W) :
  lineage_ok w → a2a_lineage dc bc x w pid sim = (w1, Ok (sim', root, depth)) →
  rs_run w id = None → (∀ d r, rs_run w d = Some r → RunParent r ≠ Some id) → pid ≠ Some id →
  (∀ r, r ≠ id → rs_run w2 r = rs_run w r) →
  rs_run w2 id = Some row → RunParent row = pid → RunRoot row = root → RunDepth row = depth →
  lineage_ok w2 ∧ depth ≤ a2aMaxDepthOrDefault dc.
Proof using RunStoreOk0.
  intros Hl Ha Hnew Hfree Hself Hsame Hrow <- <- <-. split.
  - intros d r p pr Hd Hpar Hpr. destruct (decide (p = id)) as [->|Hpi].
    { exfalso. destruct (decide (d = id)) as [->|]; [congruence|]. rewrite Hsame in Hd by done. by eapply Hfree. }
    rewrite Hsame in Hpr by done. destruct (decide (d = id)) as [->|].
    + assert (row = r) as -> by congruence. rewrite Hpar in Ha.
      apply a2a_lineage_ok in Ha as (parent&Hparent&Hroot&Hdepth&_).
      assert (parent = pr) as -> by congruence. done.
    + rewrite Hsame in Hd by done. by eapply Hl.
  - destruct (RunParent row) as [p|]; [by apply a2a_lineage_ok in Ha as (?&_&_&_&?&_)|].
    simpl in Ha. injection Ha as _ _ _ <-. unfold a2aMaxDepthOrDefault. destruct (Z.leb_spec dc 0); lia.
Qed.

Lemma walk_bfs fuel x w tree queue :
  match walk fuel x w tree queue with
  | Some (_, log) => bfs fuel tree queue = Some log.*1
  | None => bfs fuel tree queue = None
  end.
Proof using.
  revert w queue. induction fuel as [|fuel IH]; intros w [|c rest]; simpl; try done.
  destruct (cancelRunSingle x w c false) as [[w1 acts] r]. specialize (IH w1 (rest ++ children tree c.1)).
  destruct (walk fuel x w1 tree _) as [[w2 log]|]; by rewrite IH.
Qed.

Lemma bfs_descendants w tree a order :
  (∀ n, n ∈ tree → rs_run w n.1 = Some n.2) →
  (∀ d r, descendant w a d → rs_run w d = Some r → (d, r) ∈ tree) →
  (∃ rank, bfs_inv tree a rank order []) → ∀ d, d ∈ order.*1 ↔ descendant w a d.
Proof using.
  intros Hrows Htree [rank [_ Hbelow Hall]] d. rewrite app_nil_r in Hbelow, Hall. split.
  - intros (n&->&Hin)%list_elem_of_fmap. destruct (Hbelow n Hin) as (_&_&Hn&_). clear Hin.
    induction Hn as [n Hn Hpa|m n Hm IH Hn Hpa]; [eapply desc_child|eapply desc_step]; eauto.
  - intros Hd. induction Hd as [d r Hr Hpa|m d r Hm IH Hr Hpa].
    + apply (list_elem_of_fmap_2 fst order (d, r)). eapply Hall; [|exact Hpa|by left].
      apply Htree; [|done]. by econstructor.
    + apply (list_elem_of_fmap_2 fst order (d, r)). eapply Hall; [|exact Hpa|by right].
      apply Htree; [|done]. by eapply desc_step.
Qed.

(** When the listing is whole, the walk ends and takes exactly the descendants. *)
Lemma cascade_visits fuel x w id run w1 tree :
  lineage_ok w → rs_run w id = Some run → rs_scanned w →
  rs_SearchRuns (SystemContext x) w (tree_query (root_of (id, run))) = (w1, Some tree) →
  Z.of_nat (length tree) < maxA2ACascadeRuns → (length tree ≤ fuel)%nat →
  ∃ w' log, cascadeCancelDescendants fuel x w (id, run) = Some (w', log) ∧
    NoDup log.*1.*1 ∧ ∀ d, d ∈ log.*1.*1 ↔ descendant w id d.
Proof using RunStoreOk0.
  intros Hl Hid Hscan Hs Hlen Hfuel. unfold cascadeCancelDescendants. rewrite Hs. simpl.
  destruct (rs_search_sound _ _ _ _ _ Hs) as [Hnd Hrows].
  assert (Hall : ∀ d r, descendant w id d → rs_run w d = Some r → (d, r) ∈ tree).
  { intros d r Hd Hr. eapply rs_search_complete; [exact Hs|done..|]. unfold run_matches, run_clauses, null_clause.
    simpl. rewrite (descendant_root _ _ _ _ _ Hl Hid Hd Hr), bool_decide_true by done. by rewrite orb_true_r. }
  set (rank := λ i, match rs_run w i with Some r => RunDepth r | None => 0 end).
  assert (Hrank : ∀ n p, n ∈ tree → RunParent n.2 = Some p → p = id ∨ p ∈ tree.*1 → rank p < rank n.1).
  { intros [d r] p Hin Hpa Hpar. destruct (Hrows _ _ Hin) as [Hr _]. simpl in *.
    assert (∃ pr, rs_run w p = Some pr) as [pr Hpr].
    { destruct Hpar as [->|([? ?]&->&Hpin)%list_elem_of_fmap]; [by exists run|]. by destruct (Hrows _ _ Hpin); eauto. }
    destruct (Hl _ _ _ _ Hr Hpa Hpr) as [_ Hd]. unfold rank. rewrite Hr, Hpr. lia. }
  destruct (bfs_total tree id rank Hnd Hrank fuel [] _ (bfs_start tree id rank Hnd Hrank)) as (order&Ho&Hinv);
    [simpl; rewrite Nat.add_0_r; exact Hfuel|]. simpl in Hinv.
  pose proof (walk_bfs fuel (SystemContext x) w1 tree (children tree id)) as Hw. rewrite Ho in Hw.
  destruct (walk _ _ _ _ _) as [[w' log]|]; [|done]. injection Hw as ->. exists w', log. split; [done|].
  split; [by destruct Hinv as [Hn _ _]; rewrite app_nil_r in Hn|].
  apply (bfs_descendants w tree); [by intros [? ?] [? _]%Hrows|done|by exists rank].
Qed.

Lemma walk_frozen fuel x w tree queue w' log : walk fuel x w tree queue = Some (w', log) → frozen w w'.
Proof using Hq Hp Hb RunStoreOk0 CompleterOk0.
  revert w queue log. induction fuel as [|fuel IH]; intros w [|c rest] log; simpl; try done.
  1, 2: intros [= <- <-]; apply frozen_refl.
  pose proof (cancelRunSingle_frozen x w c false) as Hf.
  destruct (cancelRunSingle x w c false) as [[w1 acts] r]. simpl in Hf.
  destruct (walk fuel x w1 tree _) as [[w2 log2]|] eqn:Hw; [|done]. intros [= <- _].
  eapply frozen_trans; [exact Hf|]. by eapply IH.
Qed.

(** A call that cancelling a run makes reported an error. *)
Definition call_failed (x : ctx) (w : W) (id : string) : Prop :=
  (complete x w (cancel_completion id) (slow w id)).2 = false ∨ (rs_GetRun x w id).2 = None ∨
  (tryStatusTransition (λ w, queueCancel w id) w).2 = false ∨
  (tryStatusTransition (λ w, publishCancel w id) w).2 = false.

Lemma release_error x w id wait w' acts : release x w id wait = (w', acts, None) → ∃ wd, call_failed x wd id.
Proof using.
  unfold release. destruct (tryStatusTransition _ w) as [w1 ok1] eqn:E1.
  destruct ok1; [|intros _; exists w; unfold call_failed; rewrite E1; auto]. simpl.
  destruct (tryStatusTransition _ w1) as [w2 ok2] eqn:E2.
  destruct ok2; [|intros _; exists w1; unfold call_failed; rewrite E2; auto]. simpl.
  by destruct (rs_GetRun x _ id).
Qed.

Lemma cancel_error x w id run wait w' acts :
  cancelRunSingle x w (id, run) wait = (w', acts, None) → ∃ wd, call_failed x wd id.
Proof using.
  unfold cancelRunSingle. destruct (_ && _); [done|].
  destruct (complete x w (cancel_completion id) (slow w id)) as [[w1 []] []] eqn:Hc;
    try (intros _; exists w; unfold call_failed; rewrite Hc; by left).
  - apply release_error.
  - destruct (rs_GetRun x w1 id) as [w2 [current|]] eqn:Hg.
    + destruct (negb _); [done|apply release_error].
    + intros _. exists w1. unfold call_failed. rewrite Hg. auto.
Qed.

(** What became of a run the walk took: it is over, and a terminal row stays to
    the end; or a call made for it failed. *)
Definition cancelled_or_failed (x : ctx) (w' : W) (id : string) (ok : bool) : Prop :=
  if ok then ∃ wd row, rs_run wd id = Some row ∧ settled row ∧ frozen wd w'
  else ∃ wd, call_failed x wd id.

Lemma walk_settles fuel x w tree queue w' log :
  walk fuel x w tree queue = Some (w', log) →
  (∀ n, n ∈ tree ∨ n ∈ queue → terminal n.2 → rs_run w n.1 = Some n.2) →
  ∀ d ok, (d, ok) ∈ log → cancelled_or_failed x w' d.1 ok.
Proof using Hq Hp Hb RunStoreOk0 CompleterOk0.
  revert w queue log. induction fuel as [|fuel IH]; intros w [|c rest] log; simpl; try done.
  1, 2: intros [= <- <-] _ d ok ?%elem_of_nil; done.
  pose proof (cancelRunSingle_frozen x w c false) as Hf.
  destruct (cancelRunSingle x w c false) as [[w1 acts] r] eqn:Hc. simpl in Hf.
  destruct (walk fuel x w1 tree _) as [[w2 log2]|] eqn:Hw; [|done]. intros [= <- <-] Hrows.
  pose proof (walk_frozen _ _ _ _ _ _ _ Hw) as Hf2. pose proof (IH _ _ _ Hw) as Hlog.
  assert (Hrest : ∀ n, n ∈ tree ∨ n ∈ rest ++ children tree c.1 → terminal n.2 → rs_run w1 n.1 = Some n.2).
  { intros n Hn Ht. apply Hf; [|done]. apply Hrows; [|done].
    destruct Hn as [|[|[? _]%children_spec]%elem_of_app]; [by left|right; by right|by left]. }
  specialize (Hlog Hrest). intros d ok [[= -> ->]|Hin]%elem_of_cons; [|by apply Hlog].
  destruct c as [i run]. destruct r as [r|]; simpl; [|by eapply cancel_error].
  destruct (cancel_settled _ _ _ _ _ _ _ _ Hc) as (row&Hrow&Hset).
  - intros Ht. apply (Hrows (i, run)); [right; by left|done].
  - by exists w1, row.
Qed.

Lemma cascade_settled fuel x w n w' log d ok :
  cascadeCancelDescendants fuel x w n = Some (w', log) → (d, ok) ∈ log →
  cancelled_or_failed (SystemContext x) w' d.1 ok.
Proof using Hq Hp Hb RunStoreOk0 CompleterOk0.
  unfold cascadeCancelDescendants.
  destruct (rs_SearchRuns _ w _) as [w1 [tree|]] eqn:Hs; [|by intros [= _ <-] ?%elem_of_nil].
  intros Hw Hd. destruct (rs_search_sound _ _ _ _ _ Hs) as [_ Hrows].
  assert (Hr1 : ∀ n, n ∈ tree → rs_run w1 n.1 = Some n.2).
  { intros [i r] Hin. rewrite (rs_search_same _ _ _ _ _ _ Hs). by apply Hrows. }
  eapply walk_settles; [exact Hw| |exact Hd]. intros m [Hm|[Hm _]%children_spec] _; by apply Hr1.
Qed.

(** What the cascade reports cancelled is over: a run whose cancellation
    reported no error is settled at that moment, and a terminal row stays as it
    is through the rest of the cascade. *)
Theorem cascade_settles fuel x w n w' log d :
  cascadeCancelDescendants fuel x w n = Some (w', log) → (d, true) ∈ log →
  ∃ wd row, rs_run wd d.1 = Some row ∧ settled row ∧ (terminal row → rs_run w' d.1 = Some row).
Proof using Hq Hp Hb RunStoreOk0 CompleterOk0.
  intros Hw Hd. destruct (cascade_settled _ _ _ _ _ _ _ _ Hw Hd) as (wd&row&?&?&Hf). exists wd, row. by eauto.
Qed.


(** ** The drain *)

Lemma drain_page_settles x w page w' done :
  drain_page x w page = (w', done) →
  frozen w w' ∧ ∀ d, d ∈ done → ∃ wd row, rs_run wd d = Some row ∧ settled row ∧ frozen wd w'.
Proof using Hq Hp Hb RunStoreOk0 CompleterOk0.
  revert w done. induction page as [|n page IH]; intros w done; cbn [drain_page].
  { intros [= <- <-]. split; [apply frozen_refl|by intros d ?%elem_of_nil]. }
  destruct (TerminalRunStatus (RunStatus n.2)) eqn:Ht; [apply IH|].
  pose proof (cancelRunSingle_frozen x w n false) as Hf.
  destruct (cancelRunSingle x w n false) as [[w1 acts] r] eqn:Hc. simpl in Hf.
  destruct (drain_page x w1 page) as [w2 more] eqn:Hd. intros [= <- <-].
  apply IH in Hd as [Hf2 Hmore]. split; [by eapply frozen_trans|].
  intros d Hin. destruct r as [r|]; simpl in Hin; [|by apply Hmore].
  apply elem_of_cons in Hin as [->|Hin]; [|by apply Hmore].
  destruct n as [i run]. destruct (cancel_settled _ _ _ _ _ _ _ _ Hc) as (row&?&?); [unfold terminal; simpl in Ht; congruence|]. by exists w1, row.
Qed.

Lemma drain_status_settles pages x w agentID status w' done :
  drain_status pages x w agentID status = (w', done) →
  frozen w w' ∧ ∀ d, d ∈ done → ∃ wd row, rs_run wd d = Some row ∧ settled row ∧ frozen wd w'.
Proof using Hq Hp Hb RunStoreOk0 CompleterOk0.
  revert w done. induction pages as [|pages IH]; intros w done; simpl.
  { intros [= <- <-]. split; [apply frozen_refl|by intros d ?%elem_of_nil]. }
  destruct (rs_SearchRuns x w _) as [w1 o] eqn:Hs.
  assert (Hf1 : frozen w w1) by (intros r run Hr _; by rewrite (rs_search_same _ _ _ _ _ _ Hs)).
  assert (Hnone : ∀ w2, frozen w w2 → frozen w w2 ∧ ∀ d, d ∈ @nil string →
    ∃ wd row, rs_run wd d = Some row ∧ settled row ∧ frozen wd w2) by (intros; split; [done|by intros d ?%elem_of_nil]).
  destruct o as [[|n page]|]; [by intros [= <- <-]; apply Hnone| |by intros [= <- <-]; apply Hnone].
  destruct (drain_page x w1 (n :: page)) as [w2 [|c cs]] eqn:Hd; apply drain_page_settles in Hd as [Hf2 Hd].
  { intros [= <- <-]. apply Hnone. by eapply frozen_trans. }
  destruct (_ <? _); [intros [= <- <-]; split; [by eapply frozen_trans|done]|].
  destruct (drain_status pages x w2 agentID status) as [w3 more] eqn:Hm. intros [= <- <-].
  apply IH in Hm as [Hf3 Hm]. split; [by eauto using frozen_trans|].
  intros d Hin. apply (elem_of_app (c :: cs)) in Hin as [Hin|Hin]; [|by apply Hm].
  destruct (Hd d Hin) as (wd&row&?&?&?). exists wd, row. eauto using frozen_trans.
Qed.

(** Every run the drain counts is over when it is counted, and a terminal row
    stays as it is to the end of the drain. *)
Theorem drain_settles x w tenantID agentID w' done d :
  drainKillScope x w tenantID agentID = (w', done) → d ∈ done →
  ∃ wd row, rs_run wd d = Some row ∧ settled row ∧ (terminal row → rs_run w' d = Some row).
Proof using Hq Hp Hb RunStoreOk0 CompleterOk0.
  unfold drainKillScope.
  destruct (drain_status _ _ w agentID RunStatusPending) as [w1 c1] eqn:H1.
  destruct (drain_status _ _ w1 agentID RunStatusRunning) as [w2 c2] eqn:H2.
  apply drain_status_settles in H1 as [_ H1], H2 as [Hf2 H2]. intros [= <- <-] [Hin|Hin]%elem_of_app.
  - destruct (H1 d Hin) as (wd&row&?&?&Hf). exists wd, row. do 2 (split; [done|]). intros Ht. by apply Hf2; [apply Hf|].
  - destruct (H2 d Hin) as (wd&row&?&?&Hf). exists wd, row. do 2 (split; [done|]). by apply Hf.
Qed.
End cancel.

(** ** The lifecycle completes runs *)

Section completer.
Context {W : Type} `{!RunStore W} `{!RunStoreOk W}.
Variable persistTerminalUsage : W → Run → bool → W * bool.
Variable releaseUsageHold : W → string → W * bool.
Variable maybeCancelInflightAfterTerminal : W → Run → W.
Variable maybeCacheRunResult : W → Run → gmap string any → W * bool.
Variable brokerClose : W → string → W * bool.
Variable finishRun : W → Run → W * bool.
Variable Replay : W → string → W * option (list RunEvent).
Variable LookupInflight : W → string → W * option (option RunAssignment).
Variable GetAgent : ctx → W → string → W * option (gmap string any).
Variable decode_values : string → option (option (gmap string any)).
Variable decode_usage : string → option (option (gmap string any)).
Variable queueCancel : W → string → W * bool.
Variable publishCancel : W → string → W * bool.
Notation env cascade := (env_ok persistTerminalUsage releaseUsageHold maybeCancelInflightAfterTerminal
  maybeCacheRunResult brokerClose finishRun Replay LookupInflight GetAgent queueCancel publishCancel cascade).

Definition lifecycle_completer : Completer W :=
  CompleteRun persistTerminalUsage releaseUsageHold maybeCancelInflightAfterTerminal
    maybeCacheRunResult brokerClose finishRun Replay GetAgent decode_values decode_usage.
Local Existing Instance lifecycle_completer.

Context (Henv : env (λ w _, w)).

(** The server's own [CompleteRun] is what cancellation expects of it. *)
Lemma lifecycle_completer_ok : CompleterOk W.
Proof using Henv RunStoreOk0.
  constructor; unfold complete, lifecycle_completer; intros.
  - by eapply CompleteRun_frozen.
  - by eapply CompleteRun_durable.
  - by eapply CompleteRun_refused.
Qed.

(** The cascade of [Cancel] can stand for the one the timeout sweep of
    [Lifecycle] takes as a parameter. *)
Lemma cascade_env fuel x slow (node_of : string → node) :
  env (λ w id, match cascadeCancelDescendants queueCancel publishCancel brokerClose slow fuel x w (node_of id) with
               | Some (w', _) => w'
               | None => w
               end).
Proof using Henv RunStoreOk0.
  pose proof lifecycle_completer_ok. destruct Henv. constructor; try done. intros w id.
  unfold cascadeCancelDescendants. destruct (rs_SearchRuns _ w _) as [w1 [tree|]] eqn:Hs.
  2: { intros r run Hr _. by rewrite (rs_search_same _ _ _ _ _ _ Hs). }
  assert (Hf1 : frozen w w1) by (intros r run Hr _; by rewrite (rs_search_same _ _ _ _ _ _ Hs)).
  destruct (walk _ _ _ _ _ _ w1 tree _) as [[w2 log]|] eqn:Hw; [|apply frozen_refl].
  eapply frozen_trans; [exact Hf1|]. eapply walk_frozen; [..|exact Hw]; eauto.
Qed.
End completer.
