(* ===== verification/StoreLifecycle.v ===== *)
(** * The SQL store implements the lifecycle's store interface

    The completion driver of [Store] with the rows of [StoreOps.GetRun], as an
    instance of [Lifecycle.RunStore], and the proof of its laws: every call may
    meet statement failures and any commit outcome, taken from a schedule that is
    part of the world.  The lifecycle theorems therefore hold over the SQL
    store, lost commit acknowledgements included. *)

From S2P Require Import Prelude GoAny Completion Store StoreSpec StoreOps StoreSearch StoreSteps StoreSafety.
From S2P Require Import Transport Lifecycle.
Local Open Scope string_scope.
Local Open Scope Z_scope.

(** What the database does to one call. *)
Record weather := mkWeather {
  w_fail : nat → bool;
  w_commit : commit_outcome;
  w_now : Z
}.

Definition fair : weather := mkWeather (λ _, false) CommitOk 0.

Record SqlWorld := mkSql { sw_db : DB; sw_weather : list weather }.

Definition next (w : SqlWorld) : weather := default fair (head (sw_weather w)).

Definition set_db (db : DB) (w : SqlWorld) : SqlWorld := mkSql db (tail (sw_weather w)).

Definition row_run (r : run_row) : Lifecycle.Run :=
  mkRunModel (r_tenant r) (r_thread r) (r_agent r) (r_status r) (run_metadata r) (r_output r) (r_error r)
    (s_parent (r_spec r)) (s_root (r_spec r)) (s_depth (r_spec r)).

Definition ok_of {E A} (r : res E A) : option A := match r with Ok a => Some a | Err _ => None end.

Section sql.
Variable validate : gmap string any → bool.
Variable ts_le : Z → Z → bool.
Variable json_eq : column → string → any → bool.

Definition sql_GetRun (x : ctx) (w : SqlWorld) (id : string) : SqlWorld * option Lifecycle.Run :=
  (set_db (sw_db w) w, row_run <$> ok_of (GetRun (w_fail (next w)) x id (sw_db w))).

Definition sql_Begin (x : ctx) (w : SqlWorld) (id : string) (g : Z) : SqlWorld * option bool :=
  let e := next w in
  let (db, r) := Store.BeginRunAttempt (w_fail e) (w_commit e) (w_now e) x id g (sw_db w) in
  (set_db db w, ok_of r).

Definition sql_Complete (x : ctx) (w : SqlWorld) (c : RunCompletion) : SqlWorld * option CompletionResult :=
  let e := next w in
  let (db, r) := Store.CompleteRun (w_fail e) validate ts_le (w_commit e) (w_now e) x c (sw_db w) in
  (set_db db w, ok_of r).

Definition sql_Search (x : ctx) (w : SqlWorld) (q : RunSearchRequest)
  : SqlWorld * option (list (string * Lifecycle.Run)) :=
  (set_db (sw_db w) w,
   map (prod_map id row_run) <$> ok_of (SearchRuns (w_fail (next w)) ts_le json_eq x q (sw_db w))).

Definition sql_store : RunStore SqlWorld := {|
  rs_run w id := row_run <$> runs (sw_db w) !! id;
  rs_GetRun := sql_GetRun;
  rs_BeginRunAttempt := sql_Begin;
  rs_CompleteRun := sql_Complete;
  rs_SearchRuns := sql_Search;
  rs_scanned w := ∀ i, w_fail (next w) i = false
|}.
Local Existing Instance sql_store.

(** Neither an attempt nor a completion changes a terminal row. *)
Lemma sql_frozen k db id r :
  (∃ now i g, c_op k = OBegin now i g) ∨ (∃ now c, c_op k = OComplete now c) →
  runs db !! id = Some r → TerminalRunStatus (r_status r) = true →
  runs (exec validate ts_le k db) !! id = Some r.
Proof.
  intros Hop Hr Ht.
  destruct (exec_changed validate ts_le k db) as [H _].
  destruct H as [|id' row Hn _|id' r0 r' Er Hu|id' r0 _ Ho _|t Ho|th t Ho _ _];
    try (destruct Hop as [(?&?&?&E)|(?&?&E)]; congruence).
  - rewrite lookup_insert_ne; [done|]. intros ->. congruence.
  - destruct (decide (id' = id)) as [->|]; [|by rewrite lookup_insert_ne].
    assert (r0 = r) as -> by congruence.
    destruct Hu as [_ Hu]. destruct Hop as [(?&?&?&E)|(?&?&E)]; rewrite E in Hu.
    + destruct Hu as (_&Hn&_). congruence.
    + destruct Hu as (_&m&_&Ha&_). apply CheckCompletion_applied in Ha as (_&_&_&Hn). congruence.
Qed.

(** A refused cancellation found the run terminal or marked. *)
Lemma sql_cancel_refused x now c db res db' :
  CancelCurrentAttempt c = true → CStatus c = RunStatusInterrupted ∨ CStatus c = RunStatusTimeout →
  spec_complete validate ts_le now x c db = Ok (res, db') → Accepted res = false →
  ∃ r, runs db' !! CRunID c = Some r ∧ (terminal (row_run r) ∨ is_Some (marker (row_run r))).
Proof.
  intros Hca Hst. unfold spec_complete. destruct (runs db !! CRunID c) as [r|] eqn:Er; [|done].
  destruct (negb (visible x (r_tenant r))); [done|].
  destruct (decode_meta (r_meta r)) as [meta|] eqn:Hm; [|done].
  pose proof (decode_run_metadata r meta Hm) as Hrm.
  assert (Hres : ResolveCompletion meta c = set_generation_values
    (MetadataGeneration meta AttemptGenerationKey) (CValues (ResolveCompletion meta c)) c).
  { unfold ResolveCompletion. rewrite Hca. destruct Hst as [-> | ->]; done. }
  rewrite Hres. set (v := CValues _). clearbody v. clear Hres.
  assert (Ht : TerminalRunStatus (CStatus c) = true) by (destruct Hst as [-> | ->]; done).
  unfold CheckCompletion. simpl. rewrite Ht, Z.eqb_refl. simpl.
  destruct (meta !! CompletionGenerationKey) as [m|] eqn:Hk; simpl.
  - intros [= <- <-] _. exists r. split; [done|]. right. unfold marker. simpl. rewrite Hrm, Hk. by eexists.
  - destruct (TerminalRunStatus (r_status r)) eqn:Hr; simpl.
    + intros [= <- <-] _. exists r. split; [done|]. by left.
    + destruct (spec_apply _ _ _ _ _ _ _) as [db2|]; [|done]. by intros [= <- _].
Qed.

(** The row an accepted completion leaves. *)
Lemma sql_accepted x now c db res db' :
  spec_complete validate ts_le now x c db = Ok (res, db') → Accepted res = true →
  ∃ r, runs db' !! CRunID c = Some r ∧ completed_by c (row_run r).
Proof.
  unfold spec_complete. destruct (runs db !! CRunID c) as [r|] eqn:Er; [|done].
  destruct (negb (visible x (r_tenant r))); [done|].
  destruct (decode_meta (r_meta r)) as [meta|] eqn:Hm; [|done].
  pose proof (decode_run_metadata r meta Hm) as Hrm.
  destruct (ResolveCompletion_fields meta c) as (Hid&Hst&_&_).
  set (c1 := ResolveCompletion meta c) in *.
  assert (Hgen : CancelCurrentAttempt c = false → CGeneration c1 = CGeneration c).
  { intros H. unfold c1. by rewrite ResolveCompletion_external. }
  destruct (Applied (CheckCompletion meta (r_status r) c1)) eqn:Hap; simpl.
  - destruct (spec_apply validate ts_le now c1 meta r db) as [db2|] eqn:Hsp; [|done]. intros [= <- <-] _.
    apply spec_apply_inv in Hsp as (t&t1&k&_&_&_&_&_&->). simpl.
    exists (completed_run now c1 meta r). rewrite Hid, lookup_insert_eq. split; [done|].
    apply CheckCompletion_applied in Hap as (Ht&_&_&_).
    split; [split; [by simpl|]|split; [by simpl|]].
    + unfold marker, row_run, run_metadata; simpl. rewrite fmap_insert, lookup_insert_eq. by eexists.
    + intros Hca Hrange. unfold row_run, run_metadata; simpl. rewrite (Hgen Hca).
      by apply MetadataGeneration_written.
  - intros [= <- <-] Ha. exists r. split; [done|].
    unfold CheckCompletion in Hap, Ha.
    destruct (TerminalRunStatus (CStatus c1)) eqn:Ht; simpl in *; [|done].
    destruct (negb (CGeneration c1 =? _)); [done|].
    destruct (meta !! CompletionGenerationKey) as [v|] eqn:Hv;
      [|destruct (TerminalRunStatus (r_status r)); done].
    simpl in Ha. apply andb_true_iff in Ha as [Hg%Z.eqb_eq Hs%String.eqb_eq].
    split; [split; [simpl; by rewrite Hs|]|split; [simpl; congruence|]].
    + unfold marker; simpl. rewrite Hrm, Hv. by eexists.
    + intros Hca _. simpl. rewrite Hrm, Hg. by apply Hgen.
Qed.

(** An answer of [CompleteRun] is the specification's. *)
Lemma sql_answer x w c w' res :
  sql_Complete x w c = (w', Some res) →
  spec_complete validate ts_le (w_now (next w)) x c (sw_db w) = Ok (res, sw_db w').
Proof.
  unfold sql_Complete.
  pose proof (CompleteRun_cases (w_fail (next w)) validate ts_le (w_commit (next w)) (w_now (next w)) x c (sw_db w)) as Hc.
  destruct (Store.CompleteRun _ _ _ _ _ _ _ _) as [db o]. intros [= <- Ho]. simpl in *.
  destruct o as [res'|]; [|done]. injection Ho as ->.
  destruct Hc as [[-> Hc]|(r1&Hc&_&[Hr|[_ Hr]])]; [by apply Hc|by injection Hr as ->|done].
Qed.

Lemma sql_begin_frozen x w id g w' o r row :
  sql_Begin x w id g = (w', o) → runs (sw_db w) !! r = Some row → TerminalRunStatus (r_status row) = true →
  runs (sw_db w') !! r = Some row.
Proof using validate ts_le.
  unfold sql_Begin. destruct (Store.BeginRunAttempt _ _ _ x id g (sw_db w)) as [db o1] eqn:E.
  intros [= <- _] Hr Hc. simpl.
  pose proof (sql_frozen (mkCall (OBegin (w_now (next w)) id g) x (w_fail (next w)) (w_commit (next w)))
                (sw_db w) r row (or_introl (ex_intro _ _ (ex_intro _ _ (ex_intro _ _ eq_refl)))) Hr Hc) as H.
  unfold exec in H. simpl in H. by rewrite E in H.
Qed.

Lemma sql_complete_frozen x w c w' o r row :
  sql_Complete x w c = (w', o) → runs (sw_db w) !! r = Some row → TerminalRunStatus (r_status row) = true →
  runs (sw_db w') !! r = Some row.
Proof.
  unfold sql_Complete. destruct (Store.CompleteRun _ _ _ _ _ x c (sw_db w)) as [db o1] eqn:E.
  intros [= <- _] Hr Hc. simpl.
  pose proof (sql_frozen (mkCall (OComplete (w_now (next w)) c) x (w_fail (next w)) (w_commit (next w)))
                (sw_db w) r row (or_intror (ex_intro _ _ (ex_intro _ _ eq_refl))) Hr Hc) as H.
  unfold exec in H. simpl in H. by rewrite E in H.
Qed.

Lemma sql_search_inv x w q w' l :
  sql_Search x w q = (w', Some l) →
  ∃ rows, SearchRuns (w_fail (next w)) ts_le json_eq x q (sw_db w) = Ok rows ∧ l = map (prod_map id row_run) rows.
Proof.
  unfold sql_Search. destruct (SearchRuns _ _ _ _ _ _) as [rows|]; [|done].
  intros [= _ <-]. by exists rows.
Qed.

Lemma sql_search_sound x w q w' l :
  sql_Search x w q = (w', Some l) →
  NoDup l.*1 ∧ ∀ i run, (i, run) ∈ l →
    row_run <$> runs (sw_db w) !! i = Some run ∧ run_matches q run = true.
Proof.
  intros (rows&Hs&->)%sql_search_inv. apply SearchRuns_sound in Hs as [Hnd Hs]. split.
  - rewrite <- list_fmap_compose. exact Hnd.
  - intros i run. rewrite list_elem_of_fmap. intros ([i' row]&[= -> ->]&Hin).
    destruct (Hs _ _ Hin) as (Hr&_&Hm). by rewrite Hr.
Qed.

Lemma sql_store_laws : RunStoreOk SqlWorld.
Proof.
  constructor; simpl.
  - intros x w id w' o r [= <- _]. done.
  - intros x w id w' run [= _ H]. unfold GetRun in H. destruct (w_fail (next w) 0%nat); [done|].
    destruct (runs (sw_db w) !! id) as [r|]; [|done]. destruct (visible x (r_tenant r)); [|done]. exact H.
  - intros x w c w' res Hs%sql_answer Ha. destruct (sql_accepted _ _ _ _ _ _ Hs Ha) as (r&->&Hby). by eexists.
  - intros x w c w' res Hca Hst Hs%sql_answer Ha.
    destruct (sql_cancel_refused _ _ _ _ _ _ Hca Hst Hs Ha) as (r&->&Hby). by eexists.
  - intros x w id g w' o r run E Hr Hc. apply fmap_Some in Hr as (row&Hr&->).
    by rewrite (sql_begin_frozen _ _ _ _ _ _ _ _ E Hr Hc).
  - intros x w c w' o r run E Hr Hc. apply fmap_Some in Hr as (row&Hr&->).
    by rewrite (sql_complete_frozen _ _ _ _ _ _ _ E Hr Hc).
  - intros x w q w' o r [= <- _]. done.
  - apply sql_search_sound.
  - intros x w q w' l i run (rows&Hs&->)%sql_search_inv Hx Hf Hmd Hcu Ho Hlen Hr Hm.
    apply fmap_Some in Hr as (row&Hr&->). rewrite length_map in Hlen.
    apply (list_elem_of_fmap_2 (prod_map id row_run) rows (i, row)).
    eapply SearchRuns_complete; try done.
    + unfold effective_limit. destruct (Z.leb_spec (QLimit q) 0); lia.
    + unfold visible. by rewrite Hx.
Qed.

(** C22. The SQL store satisfies the store contract of the lifecycle under every
    schedule of statement failures and commit outcomes: an answer that a
    completion is accepted is durable, terminal rows are never rewritten, a
    cancellation is refused only on a run that is over, and a search misses no
    matching run unless the page is full or the driver dropped rows. *)
Theorem sql_store_ok : @RunStoreOk SqlWorld sql_store.
Proof. apply sql_store_laws. Qed.
End sql.
