(* ===== verification/CreateRun.v ===== *)
(** * Creating runs

    Models run creation ([internal/api/runs.go]: [createRunCtx],
    [findRunForRetry], [fingerprintMismatch], [tryServeCachedRun],
    [rollbackCreatedRun], [DispatchScheduledRun] and the body of [POST /runs]),
    agent aliases ([internal/api/alias.go]) and admission limits
    ([internal/api/admission_limits.go]) over the SQLite store of [StoreOps].

    Every store call meets the failures of its [weather].  What the creation asks
    of other components (the registered agent, routing, rate limit, pre-flight
    gates, cache lookup, finalization, the queue) is the environment
    [create_env]. *)

From Stdlib Require Import Ascii String.
From S2P Require Import Prelude GoStrings GoAny Transport Completion Store StoreOps StoreSearch.
From S2P Require Import JsonNumber Predicates PolicyArgs Auth Lifecycle Cancel StoreLifecycle.
Local Open Scope string_scope.
Local Open Scope Z_scope.

(** ** Aliases *)

(** Targets of positive weight, by agent id. *)
Definition NewAliasResolver (cfg : gmap string (gmap string Z)) : gmap string (list (string * Z)) :=
  omap (λ targets : gmap string Z,
    let l := sort_by (λ a b : string * Z, String.leb a.1 b.1) (filter (λ t, 0 < t.2) (map_to_list targets)) in
    match l with [] => None | _ => Some l end) cfg.

Fixpoint pick_target (pick : Z) (l : list (string * Z)) : option string :=
  match l with
  | [] => None
  | (agentID, weight) :: l => if pick <? weight then Some agentID else pick_target (pick - weight) l
  end.

Definition total_weight (l : list (string * Z)) : Z := foldr (λ t n, t.2 + n) 0 l.

(** [Resolve]; [rnd] is the random number, below the total weight. *)
Definition Resolve (targets : gmap string (list (string * Z))) (rnd : Z → Z) (agentID : string) : string * bool :=
  match targets !! agentID with
  | None => (agentID, false)
  | Some l =>
      match pick_target (rnd (total_weight l)) l with
      | Some a => (a, true)
      | None => (match l with (a, _) :: _ => a | [] => agentID end, true)
      end
  end.

(** ** Requests *)

Record RunCreate := mkCreateReq {
  CrRunID : string;
  CrAgentID : string;
  CrAssistantID : string;
  CrInput : string;
  CrConfig : string;
  CrStreamModes : list string;          (* decoded; empty when absent *)
  CrIfNotExists : string;
  CrCheckpointRef : option string;
  CrResumeCommand : option string;
  CrCommandResume : option string;      (* the resume member of command *)
  CrParentRunID : option string
}.

Definition set_agent (a : string) (q : RunCreate) : RunCreate :=
  mkCreateReq (CrRunID q) a (CrAssistantID q) (CrInput q) (CrConfig q) (CrStreamModes q) (CrIfNotExists q)
    (CrCheckpointRef q) (CrResumeCommand q) (CrCommandResume q) (CrParentRunID q).

Inductive create_err :=
| CInvalidResourceID
| CInvalidRunID
| CSimulationRequiresAdmin
| CRateLimited
| CDenied (reason : string)
| CStore (e : err)
| CConflict (resource id reason : string)
| CRunRetryRace (id : string) (run : run_row)
| CA2A (e : a2a_err)
| CCached (e : err).                    (* a committed cached run that is not finalized *)

(** ** Identifiers *)

Definition invalidResourceID (id : string) : bool := String.eqb id "." || String.eqb id "..".

(** ** Admission limits *)

Record AdmissionLimits := mkLimits {
  AlTenantConcurrent : Z; AlTenantDaily : Z; AlAgentConcurrent : Z; AlAgentDaily : Z
}.

Definition limits_enabled (l : AdmissionLimits) : bool :=
  (0 <? AlTenantConcurrent l) || (0 <? AlTenantDaily l) || (0 <? AlAgentConcurrent l) || (0 <? AlAgentDaily l).

Definition toCaps (l : option AdmissionLimits) (now : Z) : option RunAdmissionCaps :=
  match l with
  | Some l =>
      if limits_enabled l
      then Some (mkCaps (AlTenantConcurrent l) (AlTenantDaily l) (AlAgentConcurrent l) (AlAgentDaily l) (Some now))
      else None
  | None => None
  end.

(** In whole seconds, at least one. *)
Definition secondsUntilUTCMidnight (now : Z) : Z := Z.max 1 ((day - now mod day) / second).

Definition retryAfterAdmission (e : err) (now : Z) : Z :=
  match e with
  | EAdmission _ kind _ _ => if String.eqb kind "daily" then secondsUntilUTCMidnight now else 1
  | _ => 1
  end.

(** ** The environment of one creation *)

Record create_env := mkEnv {
  ce_now : Z;
  ce_uuid : string;
  ce_header_sim : bool;
  ce_allow_sim : bool;
  ce_valid_id : string → bool;                     (* the queue's RunIDValidator *)
  ce_resolve : string → string * bool;             (* aliases.Resolve *)
  ce_route : string → string → string * string;    (* applyFinOpsRouting agent alias *)
  ce_agent : string → res err (gmap string any);   (* GetAgent: its metadata *)
  ce_rate : string → bool;                         (* rateLimit.AllowAgent *)
  ce_gate : string → option string;                (* hooks.CheckBeforeRun: a denial *)
  ce_cached : string → option column;              (* GetCachedRunResult: the output *)
  ce_finalize : run_row → bool;                    (* finalizeCommittedRun: no error *)
  ce_limits : option AdmissionLimits;              (* admissionLimits *)
  ce_depth : Z;
  ce_breadth : Z;
  ce_cache_key : string → string → string → string → string;
  ce_manifest : string → string → option string → Z → any * string;
  ce_user : option UserContext;
  ce_trace : string → TraceContext;
  ce_wrap : string → string;                       (* json.Marshal of a response object *)
  ce_warm : string → bool;                         (* the policy lets a connector be warmed *)
  ce_sinks : bool;                                 (* hooks.HasSinks *)
  ce_enqueue : RunAssignment → bool;               (* queue.Enqueue: no error *)
  (** What other requests commit before the claim, and before the insertion. *)
  ce_before_claim : DB → DB;
  ce_before_insert : DB → DB
}.

Definition ce_caps (env : create_env) : option RunAdmissionCaps := toCaps (ce_limits env) (ce_now env).

Definition cacheTTLSeconds (meta : gmap string any) : Z :=
  match meta !! "cache_ttl_seconds" with
  | Some (AInt v) => v
  | Some (AFloat f) => f64_to_int64 f
  | _ => 0
  end.

Definition parseStringSlice (raw : option any) : option (list string) :=
  match raw with
  | Some (AArr l) => Some (omap (λ v, match v with AStr s => Some s | _ => None end) l)
  | _ => None
  end.

Definition extractConnectorNeeds (meta : gmap string any) : option (list string) :=
  parseStringSlice (meta !! "connector_needs").

Definition extractAllowedTools (meta : gmap string any) : option (list string) :=
  if bool_decide (is_Some (meta !! "allowed_tools_set")) || bool_decide (is_Some (meta !! "allowed_tools"))
  then Some (default [] (parseStringSlice (meta !! "allowed_tools")))
  else None.

Definition runner_kind (agent : option (gmap string any)) : string :=
  match agent with
  | Some meta => match meta !! "runner_kind" with
                 | Some (AStr k) => if String.eqb k "" then "python-langgraph" else k
                 | _ => "python-langgraph"
                 end
  | None => "python-langgraph"
  end.

(** ** Store calls of the creation *)

Section create.
Variable validate : gmap string any → bool.
Variable ts_le : Z → Z → bool.
Variable json_eq : column → string → any → bool.
(** [jsonDeepEqual] of two texts: both decode, to equal values. *)
Variable decode_json : string → option any.

Local Instance creation_store : RunStore SqlWorld := sql_store validate ts_le json_eq.

Definition sql_op {A} (f : weather → DB → DB * res err A) (w : SqlWorld) : SqlWorld * res err A :=
  let (db, r) := f (next w) (sw_db w) in (set_db db w, r).

(** Other requests' commits. *)
Definition meanwhile (f : DB → DB) (w : SqlWorld) : SqlWorld := mkSql (f (sw_db w)) (sw_weather w).

Definition sql_read {A} (f : weather → DB → res err A) (w : SqlWorld) : SqlWorld * res err A :=
  sql_op (λ e db, (db, f e db)) w.

Definition get_run (x : ctx) (id : string) : SqlWorld → SqlWorld * res err run_row :=
  sql_read (λ e, GetRun (w_fail e) x id).

Definition get_thread (x : ctx) (id : string) : SqlWorld → SqlWorld * res err thread_row :=
  sql_read (λ e, GetThread (w_fail e) x id).

Definition claim (x : ctx) (id : string) : SqlWorld → SqlWorld * res err bool :=
  sql_op (λ e, TryClaimThread (w_fail e) (w_commit e) (w_now e) x id).

Definition create_thread (x : ctx) (now : Z) (id : string) : SqlWorld → SqlWorld * res err unit :=
  sql_op (λ e, CreateThread (w_fail e) (w_commit e) x (mkThreadReq id ThreadStatusIdle (Some ∅) None now now)).

(** The deferred release of a claim. *)
Definition unclaim (x : ctx) (id : string) (w : SqlWorld) : SqlWorld :=
  (tryStatusTransition (λ w,
     let (w, r) := sql_op (λ e, SetThreadStatus (w_fail e) (w_commit e) (w_now e) x id ThreadStatusIdle) w in
     (w, is_ok r)) w).1.

Definition createRunRespectingLimits (x : ctx) (env : create_env) (run : StoreOps.Run)
  : SqlWorld → SqlWorld * res err unit :=
  match ce_caps env with
  | Some caps => sql_op (λ e, CreateRunAdmitted (w_fail e) (w_commit e) (w_now e) x run (Some caps))
  | None => sql_op (λ e, CreateRun (w_fail e) (w_commit e) (w_now e) x run)
  end.

(** ** Retries *)

Definition jsonDeepEqual (a b : string) : bool :=
  match decode_json a, decode_json b with
  | Some x, Some y => Equal x y
  | _, _ => false
  end.

Definition stored_alias (run : run_row) : string :=
  match run_metadata run !! "requested_alias" with Some (AStr s) => s | _ => "" end.

(** [None]: a safe retry. *)
Definition fingerprintMismatch (env : create_env) (run : run_row) (q : RunCreate) (threadID : string) : option string :=
  let agentID := if String.eqb (CrAgentID q) "" then CrAssistantID q else CrAgentID q in
  let agent_differs :=
    negb (String.eqb agentID "")
    && (if (ce_resolve env agentID).2 then negb (String.eqb (stored_alias run) agentID)
        else negb (String.eqb (r_agent run) agentID)) in
  if agent_differs then Some "run_id reused with a different agent"
  else if negb (String.eqb threadID "") && negb (String.eqb (r_thread run) threadID)
  then Some "run_id reused with a different thread"
  else if negb (String.eqb (CrInput q) "") && negb (jsonDeepEqual (s_input (r_spec run)) (CrInput q))
  then Some "run_id reused with different input"
  else None.

(** The run a retry of the same request already created. *)
Definition findRunForRetry (env : create_env) (x : ctx) (runID : string) (q : RunCreate) (threadID : string)
    (w : SqlWorld) : SqlWorld * res create_err (option run_row) :=
  if String.eqb runID "" then (w, Ok None)
  else
    match get_run x runID w with
    | (w, Err _) => (w, Ok None)
    | (w, Ok run) =>
        match fingerprintMismatch env run q threadID with
        | Some reason => (w, Err (CConflict "run" runID reason))
        | None =>
            if match run_metadata run !! "cache_hit" with Some (ABool true) => true | _ => false end
               && TerminalRunStatus (r_status run) && negb (ce_finalize env run)
            then (w, Err (CCached EDriver))
            else (w, Ok (Some run))
        end
    end.

(** A run that lost the race against its own earlier attempt, or a real conflict. *)
Definition retry_race (env : create_env) (x : ctx) (q : RunCreate) (threadID : string) (otherwise : create_err)
    (w : SqlWorld) : SqlWorld * create_err :=
  if String.eqb (CrRunID q) "" then (w, otherwise)
  else
    match get_run x (CrRunID q) w with
    | (w, Err _) => (w, otherwise)
    | (w, Ok existing) =>
        (w, match fingerprintMismatch env existing q threadID with
            | Some reason => CConflict "run" (CrRunID q) reason
            | None => CRunRetryRace (CrRunID q) existing
            end)
    end.

(** ** Cached results *)

(** [None]: no hit, the creation goes on. *)
Definition tryServeCachedRun (env : create_env) (x : ctx) (runID threadID : string) (q : RunCreate) (alias : string)
    (agent : option (gmap string any)) (w : SqlWorld) : SqlWorld * option (res create_err run_row) :=
  match (match agent with Some m => Some m | None => match ce_agent env (CrAgentID q) with Ok m => Some m | Err _ => None end end) with
  | None => (w, None)
  | Some meta =>
      if cacheTTLSeconds meta <=? 0 then (w, None)
      else
        match ce_cached env (ce_cache_key env (FromContext x) (CrAgentID q) (CrInput q) (CrConfig q)) with
        | None => (w, None)
        | Some output =>
            let metadata :=
              (if String.eqb alias "" then id else <["requested_alias" := AStr alias]>)
                (<["cache_hit" := ABool true]> (<["run_manifest" := (ce_manifest env (CrAgentID q) alias None 0).1]> ∅)) in
            let run := mkRunReq runID threadID (CrAgentID q) RunStatusSuccess (Some metadata) output (ce_now env)
                         (ce_now env) (mkSpec (CrInput q) (CrConfig q) None None 0) in
            match sql_op (λ e, CreateCachedRun (w_fail e) validate ts_le (w_commit e) (w_now e) (w_now e) x run (ce_caps env)) w with
            | (w, Err e) =>
                if String.eqb (CrRunID q) "" then (w, Some (Err (CStore e)))
                else
                  match findRunForRetry env x (CrRunID q) q threadID w with
                  | (w, Err e') => (w, Some (Err e'))
                  | (w, Ok (Some existing)) => (w, Some (Err (CRunRetryRace (CrRunID q) existing)))
                  | (w, Ok None) => (w, Some (Err (CStore e)))
                  end
            | (w, Ok _) =>
                match get_run x runID w with
                | (w, Err e) => (w, Some (Err (CCached e)))
                | (w, Ok row) => (w, Some (if ce_finalize env row then Ok row else Err (CCached EDriver)))
                end
            end
        end
  end.

(** ** Creation *)

(** What a creation does besides its row and assignment. *)
Inductive create_effect :=
| PlaceUsageHold (runID : string)
| ActiveRunsInc
| PrewarmConnector (name runID : string)
| RunStartHook (runID threadID agentID : string)
| WatchToolCalls (runID : string).

Record prepared := mkPrepared {
  pr_run : string;                       (* run id *)
  pr_req : RunCreate;                    (* the request as rewritten so far *)
  pr_alias : string;                     (* requestedAlias *)
  pr_agent : option (gmap string any)    (* agentForRun *)
}.

Definition set_refs (ref resume : option string) (q : RunCreate) : RunCreate :=
  mkCreateReq (CrRunID q) (CrAgentID q) (CrAssistantID q) (CrInput q) (CrConfig q) (CrStreamModes q)
    (CrIfNotExists q) ref resume (CrCommandResume q) (CrParentRunID q).

(** An empty or blank [checkpoint_ref] is absent. *)
Definition trim_ref (ref : option string) : option string :=
  match ref with
  | Some s => if String.eqb (TrimSpace s) "" then None else Some s
  | None => None
  end.

(** [command.resume] stands for [resume_command]. *)
Definition resume_of (env : create_env) (q : RunCreate) : option string :=
  match CrResumeCommand q with
  | Some r => Some r
  | None => ce_wrap env <$> CrCommandResume q
  end.

(** The agent of a request: assistant id, alias, then FinOps routing; with the alias
    it was requested through. *)
Definition route_agent (env : create_env) (q : RunCreate) : string * string :=
  let agentID := if String.eqb (CrAgentID q) "" then CrAssistantID q else CrAgentID q in
  let '(agent, alias) :=
    match ce_resolve env agentID with
    | (resolved, true) => (resolved, agentID)
    | (_, false) => (agentID, "")
    end in
  match ce_route env agent alias with
  | (routed, from) =>
      if String.eqb from "" then (agent, alias)
      else (routed, if String.eqb alias "" then from else alias)
  end.

(** Everything before the store is touched. *)
Definition prepare (env : create_env) (threadID : string) (q : RunCreate) : res create_err prepared :=
  if invalidResourceID threadID || invalidResourceID (CrRunID q) then Err CInvalidResourceID
  else if negb (ValidRunID (CrRunID q)) then Err CInvalidRunID
  else if ce_header_sim env && negb (ce_allow_sim env) then Err CSimulationRequiresAdmin
  else
    let runID := if String.eqb (CrRunID q) "" then ce_uuid env else CrRunID q in
    if negb (ce_valid_id env runID) then Err CInvalidRunID
    else
      let '(agent, alias) := route_agent env q in
      let q := set_agent agent (set_refs (trim_ref (CrCheckpointRef q)) (CrResumeCommand q) q) in
      match ce_agent env agent with
      | Err (ENotFound k i) => Err (CStore (ENotFound k i))
      | r =>
          if negb (ce_rate env agent) then Err CRateLimited
          else
            match ce_gate env agent with
            | Some reason => Err (CDenied reason)
            | None => Ok (mkPrepared runID (set_refs (CrCheckpointRef q) (resume_of env q) q) alias (ok_of r))
            end
      end.

(** The thread exists when this succeeds. *)
Definition ensure_thread (env : create_env) (x : ctx) (threadID : string) (q : RunCreate) (w : SqlWorld)
  : SqlWorld * res create_err unit :=
  match get_thread x threadID w with
  | (w, Ok _) => (w, Ok tt)
  | (w, Err e) =>
      if String.eqb (CrIfNotExists q) "" || String.eqb (CrIfNotExists q) "create" then
        match create_thread x (ce_now env) threadID w with
        | (w, Ok _) => (w, Ok tt)
        | (w, Err ce) =>
            match get_thread x threadID w with
            | (w, Ok _) => (w, Ok tt)
            | (w, Err _) => (w, Err (CStore ce))
            end
        end
      else (w, Err (CStore e))
  end.

Definition run_meta (env : create_env) (x : ctx) (p : prepared) (sim : bool) (depth : Z) : gmap string any :=
  let q := pr_req p in
  let put (b : bool) k v (m : gmap string any) := if b then <[k := v]> m else m in
  put sim "simulation" (ABool true)
    (<["run_manifest" := (ce_manifest env (CrAgentID q) (pr_alias p) (CrParentRunID q) depth).1]>
      (delete CompletionGenerationKey (delete AttemptGenerationKey
        (put (match CrResumeCommand q, pr_agent p with None, Some m => 0 <? cacheTTLSeconds m | _, _ => false end)
           "cache_key" (AStr (ce_cache_key env (FromContext x) (CrAgentID q) (CrInput q) (CrConfig q)))
           (put (negb (String.eqb (pr_alias p) "")) "requested_alias" (AStr (pr_alias p)) ∅))))).

Definition pending_run (env : create_env) (x : ctx) (threadID : string) (p : prepared)
    (sim : bool) (root : option string) (depth : Z) : StoreOps.Run :=
  let q := pr_req p in
  mkRunReq (pr_run p) threadID (CrAgentID q) RunStatusPending (Some (run_meta env x p sim depth)) ColNull
    (ce_now env) (ce_now env) (mkSpec (CrInput q) (CrConfig q) (CrParentRunID q) root depth).

Definition connector_needs (p : prepared) : list string :=
  match pr_agent p with Some m => default [] (extractConnectorNeeds m) | None => [] end.

Definition assignment_of (env : create_env) (x : ctx) (threadID : string) (p : prepared) (depth : Z) : RunAssignment :=
  let q := pr_req p in
  mkAssignment (pr_run p) threadID (runner_kind (pr_agent p)) (CrAgentID q) (CrInput q) (CrConfig q)
    (CrCheckpointRef q) (default "" (CrResumeCommand q))
    (match CrStreamModes q with [] => ["values"; "updates"] | modes => modes end)
    (connector_needs p) (Some (ce_trace env (pr_run p))) (ce_user env) (FromContext x)
    (match pr_agent p with Some m => extractAllowedTools m | None => None end)
    1 (ce_manifest env (CrAgentID q) (pr_alias p) (CrParentRunID q) depth).2.

Definition created_effects (env : create_env) (threadID : string) (p : prepared) : list create_effect :=
  ([PlaceUsageHold (pr_run p); ActiveRunsInc]
    ++ map (λ n, PrewarmConnector n (pr_run p)) (filter (λ n, ce_warm env n = true) (connector_needs p))
    ++ [RunStartHook (pr_run p) threadID (CrAgentID (pr_req p))]
    ++ (if ce_sinks env then [WatchToolCalls (pr_run p)] else []))%list.

(** With the thread claimed: lineage, row and assignment; an error releases the claim. *)
Definition create_claimed (env : create_env) (x : ctx) (threadID : string) (p : prepared) (w : SqlWorld)
  : SqlWorld * res create_err (StoreOps.Run * RunAssignment * list create_effect) :=
  let q := pr_req p in
  match a2a_lineage (ce_depth env) (ce_breadth env) x w (CrParentRunID q) (ce_header_sim env) with
  | (w, Err e) => (unclaim x threadID w, Err (CA2A e))
  | (w, Ok (sim, root, depth)) =>
      let run := pending_run env x threadID p sim root depth in
      match createRunRespectingLimits x env run (meanwhile (ce_before_insert env) w) with
      | (w, Ok _) => (w, Ok (run, assignment_of env x threadID p depth, created_effects env threadID p))
      | (w, Err e) =>
          let (w, e) := retry_race env x q threadID (CStore e) w in
          (unclaim x threadID w, Err e)
      end
  end.

Inductive create_result :=
| Cached (run : run_row)
| Created (run : StoreOps.Run) (assignment : RunAssignment) (effects : list create_effect).

Definition claim_and_create (env : create_env) (x : ctx) (threadID : string) (p : prepared) (w : SqlWorld)
  : SqlWorld * res create_err create_result :=
  match claim x threadID (meanwhile (ce_before_claim env) w) with
  | (w, Err e) => (w, Err (CStore e))
  | (w, Ok false) =>
      let (w, e) := retry_race env x (pr_req p) threadID (CConflict "thread" threadID "is busy") w in (w, Err e)
  | (w, Ok true) =>
      match create_claimed env x threadID p w with
      | (w, Ok (run, a, fx)) => (w, Ok (Created run a fx))
      | (w, Err e) => (w, Err e)
      end
  end.

Definition createRunCtx (env : create_env) (x : ctx) (threadID : string) (q : RunCreate) (w : SqlWorld)
  : SqlWorld * res create_err create_result :=
  match prepare env threadID q with
  | Err e => (w, Err e)
  | Ok p =>
      match ensure_thread env x threadID (pr_req p) w with
      | (w, Err e) => (w, Err e)
      | (w, Ok _) =>
          match (if bool_decide (CrResumeCommand (pr_req p) = None ∧ CrParentRunID (pr_req p) = None)
                    && negb (ce_header_sim env)
                 then tryServeCachedRun env x (pr_run p) threadID (pr_req p) (pr_alias p) (pr_agent p) w
                 else (w, None)) with
          | (w, Some (Err e)) => (w, Err e)
          | (w, Some (Ok row)) => (w, Ok (Cached row))
          | (w, None) => claim_and_create env x threadID p w
          end
      end
  end.

(** ** Dispatch *)

(** A created run that could not be queued is failed and its thread released; closing
    the stream and [finishRun] follow. *)
Definition rollbackCreatedRun (x : ctx) (run : StoreOps.Run) (w : SqlWorld) : SqlWorld :=
  let (w, _) := tryStatusTransition (λ w,
    let (w, r) := sql_op (λ e, UpdateRunStatus (w_fail e) (w_commit e) (w_now e) x (StoreOps.RunID run)
                                 RunStatusError ColNull "enqueue failed") w in (w, is_ok r)) w in
  (tryStatusTransition (λ w,
    let (w, r) := sql_op (λ e, ReleaseThreadIfNoOtherActive (w_fail e) (w_commit e) (w_now e) x
                                 (StoreOps.ThreadID run) (StoreOps.RunID run) ThreadStatusIdle) w in (w, is_ok r)) w).1.

(** What a creation answers. *)
Inductive create_answer :=
| AExisting (run : run_row)              (* 200, an earlier attempt's run *)
| ACached (run : run_row)
| AQueued (run : StoreOps.Run) (assignment : RunAssignment) (effects : list create_effect)
| ARefused (e : create_err)
| AEnqueueFailed.

(** Create, queue, and roll back when queueing fails. *)
Definition create_and_enqueue (env : create_env) (x : ctx) (threadID : string) (q : RunCreate) (w : SqlWorld)
  : SqlWorld * create_answer :=
  match createRunCtx env x threadID q w with
  | (w, Err (CRunRetryRace _ run)) => (w, AExisting run)
  | (w, Err e) => (w, ARefused e)
  | (w, Ok (Cached row)) => (w, ACached row)
  | (w, Ok (Created run a fx)) =>
      if ce_enqueue env a then (w, AQueued run a fx)
      else (rollbackCreatedRun x run w, AEnqueueFailed)
  end.

(** [POST /runs] and [POST /threads/{id}/runs]: [given] is the thread the client named,
    [fresh] the one used when it named none. *)
Definition handleCreateBackgroundRun (env : create_env) (x : ctx) (given fresh : string) (q : RunCreate) (w : SqlWorld)
  : SqlWorld * create_answer :=
  match findRunForRetry env x (CrRunID q) q given w with
  | (w, Err e) => (w, ARefused e)
  | (w, Ok (Some run)) => (w, AExisting run)
  | (w, Ok None) => create_and_enqueue env x (if String.eqb given "" then fresh else given) q w
  end.

Definition DispatchScheduledRun (env : create_env) (x : ctx) (schedule agentID input config : string) (w : SqlWorld)
  : SqlWorld * create_answer :=
  create_and_enqueue env x ("cron:" ++ schedule)
    (mkCreateReq "" agentID "" input config [] "" None None None None) w.
End create.
