(* ===== verification/CreateRunProps.v ===== *)
(** * Properties of run creation

    What a creation that succeeds leaves behind, that one which fails leaves
    nothing of its own behind, and what a retry of the same request gets. *)

From S2P Require Import Prelude GoStrings GoAny Transport Completion Store StoreSpec StoreOps StoreSearch StoreSteps StoreSafety.
From S2P Require Import JsonNumber Predicates PolicyArgs Lifecycle Cancel StoreLifecycle CreateRun.
Local Open Scope string_scope.
Local Open Scope Z_scope.

Definition busy (th : string) (db : DB) : Prop :=
  ∃ t, threads db !! th = Some t ∧ t_status t = ThreadStatusBusy.

(** The id of the run a request creates. *)
Definition rid (env : create_env) (q : RunCreate) : string :=
  if String.eqb (CrRunID q) "" then ce_uuid env else CrRunID q.

(** Other requests leave the thread and the run alone. *)
Definition leaves (th r : string) (f : DB → DB) : Prop :=
  ∀ db, threads (f db) !! th = threads db !! th ∧ runs (f db) !! r = runs db !! r.

(** A call the database does not carry out. *)
Definition bad (e : weather) : bool :=
  w_fail e 0%nat || match w_commit e with CommitOk => false | _ => true end.

(** No commit acknowledgement is lost and no two calls in a row fail. *)
Definition steady (w : SqlWorld) : Prop :=
  Forall (λ e, w_commit e ≠ CommitLost) (sw_weather w) ∧
  ∀ i e1 e2, sw_weather w !! i = Some e1 → sw_weather w !! S i = Some e2 → bad e1 = false ∨ bad e2 = false.

Lemma steady_tail db w : steady w → steady (set_db db w).
Proof.
  unfold steady, set_db. simpl. intros [H1 H2]. destruct (sw_weather w) as [|e l]; [done|]. simpl. split.
  - by apply list.Forall_cons in H1 as [_ ?].
  - intros i. apply (H2 (S i)).
Qed.

Lemma steady_meanwhile f w : steady w → steady (meanwhile f w).
Proof. done. Qed.

Lemma steady_next w : steady w → w_commit (next w) ≠ CommitLost.
Proof.
  unfold steady, next. intros [H _]. destruct (sw_weather w) as [|e l]; [done|].
  by apply list.Forall_cons in H as [? _].
Qed.

Lemma steady_pair db w : steady w → bad (next w) = true → bad (next (set_db db w)) = false.
Proof.
  unfold steady, next, set_db. simpl. intros [_ H]. destruct (sw_weather w) as [|e1 [|e2 l]]; simpl; [done|done|].
  destruct (H 0%nat e1 e2 eq_refl eq_refl); congruence.
Qed.

#[export] Hint Resolve steady_tail steady_meanwhile : runkite.

(** ** Calls *)

Lemma sql_op_steady {A} (f : weather → DB → DB * res err A) w w' r :
  sql_op f w = (w', r) → steady w → steady w'.
Proof. unfold sql_op. destruct (f _ _) as [db a]. intros [= <- _]. auto with runkite. Qed.

Lemma sql_read_db {A} (f : weather → DB → res err A) w w' r :
  sql_read f w = (w', r) → sw_db w' = sw_db w ∧ (steady w → steady w').
Proof.
  unfold sql_read. intros H. split; [|by apply (sql_op_steady _ _ _ _ H)].
  unfold sql_op in H. by injection H as <- _.
Qed.

(** A single statement that is not lost either is not carried out or answers. *)
Lemma auto_steady {A} e (f : DB → A * DB) db db' (r : res err A) :
  w_commit e ≠ CommitLost → auto (w_fail e) (w_commit e) f db = (db', r) →
  (bad e = true ∧ db' = db ∧ ∃ er, r = Err er) ∨ (bad e = false ∧ ∃ a, f db = (a, db') ∧ r = Ok a).
Proof.
  unfold auto, bad. intros Hc. destruct (w_fail e 0%nat); simpl.
  - intros [= <- <-]. left. eauto.
  - destruct (f db) as [a db1]. destruct (w_commit e); intros [= <- <-]; [right|left|done]; eauto.
Qed.

Lemma run_tx_steady {A} e (body : tx A) commit db db' (er : err) :
  w_commit e ≠ CommitLost → run_tx (w_fail e) (w_commit e) body commit db = (db', Err er) → db' = db.
Proof.
  unfold run_tx. intros Hc. destruct (w_fail e 0%nat); [by intros [= <- _]|].
  destruct (body 1%nat db) as [[[a n] db1]|]; [|by intros [= <- _]].
  destruct (commit a); [|by intros [= <- _]]. destruct (w_commit e); [done|by intros [= <- _]|done].
Qed.

Section props.
Variable validate : gmap string any → bool.
Variable ts_le : Z → Z → bool.
Variable json_eq : column → string → any → bool.
Variable decode_json : string → option any.

Notation create_claimed := (create_claimed validate ts_le json_eq decode_json).
Notation claim_and_create := (claim_and_create validate ts_le json_eq decode_json).
Notation createRunCtx := (createRunCtx validate ts_le json_eq decode_json).
Notation tryServeCachedRun := (tryServeCachedRun validate ts_le decode_json).
Notation findRunForRetry := (findRunForRetry decode_json).
Notation retry_race := (retry_race decode_json).
Notation create_and_enqueue := (create_and_enqueue validate ts_le json_eq decode_json).
Notation handleCreateBackgroundRun := (handleCreateBackgroundRun validate ts_le json_eq decode_json).
Local Instance props_store : RunStore SqlWorld := sql_store validate ts_le json_eq.

(** Reading calls leave the tables and consume weather. *)
Definition reads (w w' : SqlWorld) : Prop := sw_db w' = sw_db w ∧ (steady w → steady w').

Lemma reads_refl w : reads w w.
Proof. done. Qed.
Lemma reads_trans w1 w2 w3 : reads w1 w2 → reads w2 w3 → reads w1 w3.
Proof. intros [E1 H1] [E2 H2]. split; [congruence|auto]. Qed.

Lemma get_run_reads x id w w' r : get_run x id w = (w', r) → reads w w'.
Proof. apply sql_read_db. Qed.
Lemma get_thread_reads x id w w' r : get_thread x id w = (w', r) → reads w w'.
Proof. apply sql_read_db. Qed.

Lemma retry_race_reads env x q th o w w' e : retry_race env x q th o w = (w', e) → reads w w'.
Proof.
  unfold CreateRun.retry_race. destruct (String.eqb (CrRunID q) ""); [intros [= <- _]; apply reads_refl|].
  destruct (get_run x (CrRunID q) w) as [w1 r] eqn:E. apply get_run_reads in E.
  by destruct r; intros [= <- _].
Qed.

Lemma findRunForRetry_reads env x r q th w w' o : findRunForRetry env x r q th w = (w', o) → reads w w'.
Proof.
  unfold CreateRun.findRunForRetry. destruct (String.eqb r ""); [intros [= <- _]; apply reads_refl|].
  destruct (get_run x r w) as [w1 o1] eqn:E. apply get_run_reads in E.
  destruct o1; [|by intros [= <- _]]. by repeat case_match; intros [= <- _].
Qed.

Lemma a2a_reads dc bc x w pid sim w' o : a2a_lineage dc bc x w pid sim = (w', o) → reads w w'.
Proof.
  unfold a2a_lineage. destruct pid as [p|]; [|intros [= <- _]; apply reads_refl].
  simpl. unfold sql_GetRun, sql_Search.
  assert (R1 : reads w (set_db (sw_db w) w)) by (split; auto with runkite).
  assert (R2 : reads w (set_db (sw_db (set_db (sw_db w) w)) (set_db (sw_db w) w))) by (split; auto with runkite).
  by repeat case_match; intros; simplify_eq.
Qed.

(** ** Thread claims *)

(** What a part of the creation leaves behind: its thread is not newly busy and its run
    row is as it was. *)
Definition soft (th r : string) (db db' : DB) : Prop :=
  (busy th db' → busy th db) ∧ runs db' !! r = runs db !! r.

Lemma soft_refl th r db : soft th r db db.
Proof. done. Qed.
Lemma soft_trans th r a b c : soft th r a b → soft th r b c → soft th r a c.
Proof. intros [H1 E1] [H2 E2]. split; [auto|congruence]. Qed.

Lemma leaves_soft th r f db : leaves th r f → soft th r db (f db).
Proof. intros H. destruct (H db) as [Ht Hr]. split; [|done]. intros (t&E&Hb). exists t. by rewrite <- Ht. Qed.

Lemma create_thread_soft x now th r w w' o :
  steady w → create_thread x now th w = (w', o) → soft th r (sw_db w) (sw_db w') ∧ steady w'.
Proof.
  intros Hs H. split; [|by apply (sql_op_steady _ _ _ _ H)]. unfold create_thread, sql_op in H.
  unfold CreateThread in H. simpl in H.
  destruct (auto _ _ _ (sw_db w)) as [db a] eqn:E. unfold flatten in H. simpl in H. injection H as <- _. simpl.
  apply auto_steady in E as [(_&->&_)|(_&?&E&_)]; [apply soft_refl| |by apply steady_next].
  destruct (threads (sw_db w) !! th) eqn:Et; injection E as _ <-; [apply soft_refl|].
  split; [|done]. intros (t&Hl&Hb). simpl in Hl. rewrite lookup_insert_eq in Hl. injection Hl as <-. done.
Qed.

Lemma ensure_thread_soft env x th q r w w' o :
  steady w → ensure_thread env x th q w = (w', o) → soft th r (sw_db w) (sw_db w') ∧ steady w'.
Proof.
  unfold ensure_thread. intros Hs. destruct (get_thread x th w) as [w1 o1] eqn:E1.
  apply get_thread_reads in E1 as [D1 S1]. specialize (S1 Hs). rewrite <- D1.
  destruct o1; [intros [= <- _]; by split|].
  destruct (_ || _); [|intros [= <- _]; by split].
  destruct (create_thread x (ce_now env) th w1) as [w2 o2] eqn:E2.
  apply (create_thread_soft _ _ _ r) in E2 as [F2 S2]; [|done].
  destruct o2; [intros [= <- _]; by split|].
  destruct (get_thread x th w2) as [w3 o3] eqn:E3. apply get_thread_reads in E3 as [D3 S3].
  destruct o3; intros [= <- _]; rewrite D3; auto.
Qed.

Lemma ensure_thread_keeps env x th q w w' o t :
  threads (sw_db w) !! th = Some t → ensure_thread env x th q w = (w', o) → threads (sw_db w') !! th = Some t.
Proof.
  unfold ensure_thread. intros Ht. destruct (get_thread x th w) as [w1 o1] eqn:E1.
  apply get_thread_reads in E1 as [D1 _]. rewrite <- D1 in Ht.
  destruct o1; [by intros [= <- _]|]. destruct (_ || _); [|by intros [= <- _]].
  destruct (create_thread x (ce_now env) th w1) as [w2 o2] eqn:E2.
  assert (D2 : sw_db w2 = sw_db w1).
  { unfold create_thread, sql_op, CreateThread, flatten in E2. injection E2 as <- _. simpl.
    match goal with |- (auto ?f ?co ?g ?db).1 = _ => destruct (auto_cases f co g db) as [->| ->]; [done|] end.
    by rewrite Ht. }
  rewrite <- D2 in Ht. destruct o2; [by intros [= <- _]|].
  destruct (get_thread x th w2) as [w3 o3] eqn:E3. apply get_thread_reads in E3 as [D3 _].
  destruct o3; intros [= <- _]; by rewrite D3.
Qed.

(** The status a claim or a release writes. *)
Definition restatused (now : Z) (st : string) (t : thread_row) : thread_row :=
  mkThread (t_tenant t) st (t_values t) (t_version t) (rfc3339 now) (t_meta t) (t_created t).

Lemma claim_cases x th w w' o :
  steady w → claim x th w = (w', o) → steady w' ∧
  match o with
  | Ok true => ∃ t now, threads (sw_db w) !! th = Some t ∧ visible x (t_tenant t) = true ∧
      t_status t ≠ ThreadStatusBusy ∧
      sw_db w' = set_threads (<[th := restatused now ThreadStatusBusy t]> (threads (sw_db w))) (sw_db w)
  | _ => sw_db w' = sw_db w
  end.
Proof.
  intros Hs H. split; [by apply (sql_op_steady _ _ _ _ H)|]. unfold claim, sql_op, TryClaimThread in H.
  destruct (auto _ _ _ (sw_db w)) as [db a] eqn:E. injection H as <- <-. simpl.
  apply auto_steady in E as [(_&->&?&->)|(_&b&E&->)]; [done| |by apply steady_next].
  unfold set_thread_status in E. destruct (threads (sw_db w) !! th) as [t|] eqn:Et; [|by injection E as <- <-].
  destruct (visible x (t_tenant t)) eqn:Ev; [|by injection E as <- <-].
  destruct (String.eqb_spec (t_status t) ThreadStatusBusy); simpl in E; injection E as <- <-; [done|].
  by exists t, (w_now (next w)).
Qed.

(** A single statement with effect [g]. *)
Definition writes {A} (op : weather → DB → DB * res err A) (g : weather → DB → DB) : Prop :=
  ∀ e db db' r, w_commit e ≠ CommitLost → op e db = (db', r) →
    (bad e = true ∧ db' = db ∧ is_ok r = false) ∨ (bad e = false ∧ db' = g e db ∧ is_ok r = true).

(** A statement tried twice is carried out. *)
Lemma tryStatusTransition_steady {A} (op : weather → DB → DB * res err A) g w w' ok :
  writes op g → steady w →
  tryStatusTransition (λ w, let (w, r) := sql_op op w in (w, is_ok r)) w = (w', ok) →
  steady w' ∧ ∃ e, sw_db w' = g e (sw_db w).
Proof.
  intros Hop Hs. unfold tryStatusTransition, sql_op.
  destruct (op (next w) (sw_db w)) as [db a] eqn:E1.
  apply Hop in E1 as [(B1&->& ->)|(_&->& ->)]; [| |by apply steady_next]; simpl.
  - set (w1 := set_db (sw_db w) w).
    assert (Hs1 : steady w1) by (by apply steady_tail).
    destruct (op (next w1) (sw_db w)) as [db2 a2] eqn:E2.
    apply Hop in E2 as [(B2&_)|(_&->& ->)]; [| |by apply steady_next].
    + pose proof (steady_pair (sw_db w) w Hs B1). unfold w1 in B2. congruence.
    + intros [= <- _]. split; [by apply steady_tail|]. by exists (next w1).
  - intros [= <- _]. split; [by apply steady_tail|]. by exists (next w).
Qed.

Lemma SetThreadStatus_writes x th st :
  writes (λ e, SetThreadStatus (w_fail e) (w_commit e) (w_now e) x th st)
         (λ e db, (set_thread_status (w_now e) x th st (λ _ _, true) db).2).
Proof.
  intros e db db' r Hc. unfold SetThreadStatus, flatten.
  destruct (auto _ _ _ db) as [db1 a] eqn:E. simpl. intros [= <- <-].
  apply auto_steady in E as [(B&->&er&->)|(B&b&E&->)]; [by left| |done].
  destruct (set_thread_status _ _ _ _ _ db). injection E as <- <-. by right.
Qed.

Lemma UpdateRunStatus_writes x id st out msg :
  writes (λ e, UpdateRunStatus (w_fail e) (w_commit e) (w_now e) x id st out msg)
         (λ e db, (update_visible_run x id (λ _, true) (restatus (w_now e) st out msg) db).2).
Proof.
  intros e db db' r Hc. unfold UpdateRunStatus, flatten.
  destruct (auto _ _ _ db) as [db1 a] eqn:E. simpl. intros [= <- <-].
  apply auto_steady in E as [(B&->&er&->)|(B&b&E&->)]; [by left| |done].
  injection E as <- <-. by right.
Qed.

Lemma ReleaseThread_writes x th id st :
  writes (λ e, ReleaseThreadIfNoOtherActive (w_fail e) (w_commit e) (w_now e) x th id st)
         (λ e db, (set_thread_status (w_now e) x th st (λ db t, String.eqb (t_status t) ThreadStatusBusy
                      && negb (other_active_run th id db)) db).2).
Proof.
  intros e db db' r Hc. unfold ReleaseThreadIfNoOtherActive. intros E.
  apply auto_steady in E as [(B&->&er&->)|(B&b&E&->)]; [by left| |done].
  rewrite E. by right.
Qed.

(** The released claim. *)
Lemma unclaim_steady x th w t :
  steady w → threads (sw_db w) !! th = Some t → visible x (t_tenant t) = true →
  steady (unclaim x th w) ∧ ¬ busy th (sw_db (unclaim x th w)) ∧ runs (sw_db (unclaim x th w)) = runs (sw_db w).
Proof.
  intros Hs Ht Hv. unfold unclaim. destruct (tryStatusTransition _ w) as [w' ok] eqn:E. simpl.
  apply (tryStatusTransition_steady _ _ _ _ _ (SetThreadStatus_writes x th ThreadStatusIdle)) in E as [Hs' (e&->)]; [|done].
  unfold set_thread_status. rewrite Ht, Hv. simpl. split_and!; [done| |done].
  intros (t'&Hl&Hb). simpl in Hl. rewrite lookup_insert_eq in Hl. injection Hl as <-. done.
Qed.

(** ** Failed creations *)

Lemma limits_err x env run w w' e :
  steady w → createRunRespectingLimits x env run w = (w', Err e) → sw_db w' = sw_db w ∧ steady w'.
Proof.
  intros Hs H. unfold createRunRespectingLimits in H.
  assert (S : steady w') by (destruct (ce_caps env); by apply (sql_op_steady _ _ _ _ H)).
  split; [|done]. unfold sql_op, CreateRun, CreateRunAdmitted, createRun in H.
  destruct (ce_caps env); destruct (run_tx _ _ _ _ (sw_db w)) as [db r1] eqn:E; injection H as <- ->;
    (eapply run_tx_steady in E; [done|by apply steady_next]).
Qed.

Lemma cached_err env x r th q alias agent w w' e :
  steady w → tryServeCachedRun env x r th q alias agent w = (w', Some (Err e)) → (∀ e', e ≠ CCached e') →
  sw_db w' = sw_db w.
Proof.
  unfold CreateRun.tryServeCachedRun. intros Hs.
  destruct (match agent with Some _ => _ | None => _ end) as [meta|]; [|done].
  destruct (cacheTTLSeconds meta <=? 0); [done|]. destruct (ce_cached env _) as [out|]; [|done].
  destruct (sql_op _ w) as [w1 [u|e1]] eqn:E1.
  - destruct (get_run x r w1) as [w2 [row|e2]]; [destruct (ce_finalize env row)|]; intros [= _ <-] Hn;
      by destruct (Hn _ eq_refl).
  - assert (D1 : sw_db w1 = sw_db w).
    { unfold sql_op, CreateCachedRun in E1. destruct (PrepareCachedRun _) as [[pending c]|]; [|by injection E1 as <- _].
      unfold createRun in E1. destruct (run_tx _ _ _ _ (sw_db w)) as [db r1] eqn:E2. injection E1 as <- ->.
      eapply run_tx_steady in E2; [done|by apply steady_next]. }
    destruct (String.eqb (CrRunID q) ""); [by intros [= <- _]|].
    destruct (findRunForRetry env x (CrRunID q) q th w1) as [w2 o2] eqn:E2.
    apply findRunForRetry_reads in E2 as [D2 _].
    destruct o2 as [[]|]; intros [= <- _]; congruence.
Qed.

Lemma cached_none env x r th q alias agent w w' :
  tryServeCachedRun env x r th q alias agent w = (w', None) → w' = w.
Proof.
  unfold CreateRun.tryServeCachedRun. repeat case_match; intros; simplify_eq; done.
Qed.

(** A creation that fails with its thread claimed releases it. *)
Lemma create_claimed_err env x th p w w' e t :
  steady w → leaves th (pr_run p) (ce_before_insert env) →
  threads (sw_db w) !! th = Some t → visible x (t_tenant t) = true →
  create_claimed env x th p w = (w', Err e) →
  ¬ busy th (sw_db w') ∧ runs (sw_db w') !! pr_run p = runs (sw_db w) !! pr_run p.
Proof.
  intros Hs Hl Ht Hv. unfold CreateRun.create_claimed.
  destruct (a2a_lineage _ _ x w _ _) as [w1 o1] eqn:E1. apply a2a_reads in E1 as [D1 S1]. specialize (S1 Hs).
  destruct o1 as [[[sim root] depth]|e1].
  - destruct (createRunRespectingLimits x env _ _) as [w2 [u|e2]] eqn:E2; [done|].
    apply limits_err in E2 as [D2 S2]; [|done]. simpl in D2. rewrite D1 in D2.
    destruct (retry_race env x (pr_req p) th _ w2) as [w3 e3] eqn:E3. apply retry_race_reads in E3 as [D3 S3].
    intros [= <- _]. destruct (Hl (sw_db w)) as [Hth Hr].
    destruct (unclaim_steady x th w3 t) as (_&Hb&->); [auto|by rewrite D3, D2, Hth|done|].
    split; [done|]. by rewrite D3, D2.
  - intros [= <- _]. destruct (unclaim_steady x th w1 t) as (_&Hb&->); [done|by rewrite D1|done|].
    split; [done|by rewrite D1].
Qed.

Lemma claim_and_create_err env x th p w w' e :
  steady w → leaves th (pr_run p) (ce_before_insert env) → leaves th (pr_run p) (ce_before_claim env) →
  claim_and_create env x th p w = (w', Err e) → soft th (pr_run p) (sw_db w) (sw_db w').
Proof.
  intros Hs Hi Hc. unfold CreateRun.claim_and_create.
  pose proof (leaves_soft _ _ _ (sw_db w) Hc) as Hsoft.
  destruct (claim x th _) as [w1 o1] eqn:E1. apply claim_cases in E1 as [S1 E1]; [|done]. simpl in E1.
  destruct o1 as [[]|e1].
  - destruct E1 as (t&now&Ht&Hv&_&D1).
    destruct (create_claimed env x th p w1) as [w2 [[[??]?]|e2]] eqn:E2; [done|]. intros [= <- _].
    assert (Hth : threads (sw_db w1) !! th = Some (restatused now ThreadStatusBusy t))
      by (rewrite D1; apply lookup_insert_eq).
    destruct (create_claimed_err _ _ _ _ _ _ _ _ S1 Hi Hth Hv E2) as [Hb Hr].
    split; [done|]. rewrite Hr, D1. apply Hc.
  - destruct (retry_race env x (pr_req p) th _ w1) as [w2 e2] eqn:E2. apply retry_race_reads in E2 as [D2 _].
    intros [= <- _]. by rewrite D2, E1.
  - intros [= <- _]. by rewrite E1.
Qed.

Lemma prepare_run env th q p : prepare env th q = Ok p → pr_run p = rid env q.
Proof.
  unfold prepare, rid. destruct (_ || _); [done|]. destruct (negb _); [done|]. destruct (_ && _); [done|].
  destruct (negb _); [done|]. destruct (route_agent env q) as [agent alias].
  destruct (ce_agent env agent) as [|[]]; simpl; repeat case_match; intros; by simplify_eq.
Qed.

Lemma createRunCtx_err env x th q w w' e :
  steady w → leaves th (rid env q) (ce_before_insert env) → leaves th (rid env q) (ce_before_claim env) →
  createRunCtx env x th q w = (w', Err e) → (∀ e', e ≠ CCached e') → soft th (rid env q) (sw_db w) (sw_db w').
Proof.
  intros Hs Hi Hc. unfold CreateRun.createRunCtx.
  destruct (prepare env th q) as [p|e0] eqn:Ep; [|by intros [= <- _]].
  apply prepare_run in Ep. rewrite <- Ep in Hi, Hc |- *.
  destruct (ensure_thread env x th (pr_req p) w) as [w1 o1] eqn:E1.
  apply (ensure_thread_soft _ _ _ _ (pr_run p)) in E1 as [F1 S1]; [|done].
  destruct o1; [|by intros [= <- _]].
  destruct (bool_decide _ && _).
  - destruct (tryServeCachedRun env x (pr_run p) th (pr_req p) (pr_alias p) (pr_agent p) w1) as [w2 [[row|e2]|]] eqn:E2.
    + done.
    + intros [= <- <-] Hn. by rewrite (cached_err _ _ _ _ _ _ _ _ _ _ S1 E2 Hn).
    + apply cached_none in E2 as ->. intros H _. eapply soft_trans; [done|].
      by apply (claim_and_create_err _ _ _ _ _ _ _ S1 Hi Hc H).
  - intros H _. eapply soft_trans; [done|].
      by apply (claim_and_create_err _ _ _ _ _ _ _ S1 Hi Hc H).
Qed.

(** ** Created runs *)

Lemma limits_ok x env run w w' u :
  createRunRespectingLimits x env run w = (w', Ok u) →
  runs (sw_db w) !! StoreOps.RunID run = None ∧
  sw_db w' = set_runs (<[StoreOps.RunID run := new_row (FromContext x) run]> (runs (sw_db w))) (sw_db w).
Proof.
  unfold createRunRespectingLimits, sql_op, CreateRun, CreateRunAdmitted, createRun, run_tx. intros H.
  destruct (ce_caps env) as [caps|]; destruct (w_fail (next w) 0%nat); try done;
    destruct (create_body _ _ _ _ _ _ _ _ _) as [[[a n] db]|] eqn:E; try done; simpl in H;
    destruct (w_commit (next w)); try done; injection H as <- _;
    apply create_body_ok in E as (t&n2&Et&_&Er&_&_&E); unfold claimed, tret in E; rewrite (insert_id (threads (sw_db w))) in E by done;
    injection E as _ _ <-; (split; [done|by destruct (sw_db w)]).
Qed.

Lemma create_claimed_ok env x th p w w' run a fx :
  create_claimed env x th p w = (w', Ok (run, a, fx)) →
  ∃ sim root depth db, run = pending_run env x th p sim root depth ∧ a = assignment_of env x th p depth ∧
    depth ≤ a2aMaxDepthOrDefault (ce_depth env) ∧
    db = ce_before_insert env (sw_db w) ∧ runs db !! pr_run p = None ∧
    sw_db w' = set_runs (<[pr_run p := new_row (FromContext x) run]> (runs db)) db.
Proof.
  unfold CreateRun.create_claimed.
  destruct (a2a_lineage _ _ x w _ _) as [w1 o1] eqn:E1. destruct o1 as [[[sim root] depth]|e1]; [|done].
  destruct (createRunRespectingLimits x env _ _) as [w2 [u|e2]] eqn:E2; [|by destruct (retry_race _ _ _ _ _ _)].
  intros [= <- <- <- _]. apply limits_ok in E2 as [Hn D2]. simpl in *.
  assert (Hd : depth ≤ a2aMaxDepthOrDefault (ce_depth env)).
  { destruct (CrParentRunID (pr_req p)) as [pid|].
    - apply (@a2a_lineage_ok SqlWorld) in E1; [|apply sql_store_laws]. by destruct E1 as (?&_&_&_&?&_).
    - simpl in E1. injection E1 as _ _ _ <-. unfold a2aMaxDepthOrDefault. destruct (Z.leb_spec (ce_depth env) 0); lia. }
  apply a2a_reads in E1 as [D1 _]. rewrite D1 in *.
  by exists sim, root, depth, (ce_before_insert env (sw_db w)).
Qed.

Lemma createRunCtx_created env x th q w w' run a fx :
  createRunCtx env x th q w = (w', Ok (Created run a fx)) →
  ∃ p w1, prepare env th q = Ok p ∧ claim_and_create env x th p w1 = (w', Ok (Created run a fx)) ∧
    (steady w → steady w1 ∧ soft th (pr_run p) (sw_db w) (sw_db w1)) ∧ (busy th (sw_db w) → busy th (sw_db w1)).
Proof.
  unfold CreateRun.createRunCtx. destruct (prepare env th q) as [p|]; [|done].
  destruct (ensure_thread env x th (pr_req p) w) as [w1 o1] eqn:E1. destruct o1; [|done].
  assert (S1 : steady w → steady w1 ∧ soft th (pr_run p) (sw_db w) (sw_db w1)).
  { intros Hs. by apply (ensure_thread_soft _ _ _ _ (pr_run p)) in E1 as [? ?]. }
  assert (B1 : busy th (sw_db w) → busy th (sw_db w1)).
  { intros (t&Ht&Hb). exists t. split; [|done]. by apply (ensure_thread_keeps _ _ _ _ _ _ _ _ Ht E1). }
  destruct (bool_decide _ && _).
  - destruct (tryServeCachedRun _ _ _ _ _ _ _ w1) as [w2 [[row|e2]|]] eqn:E2; [done|done|].
    apply cached_none in E2 as ->. by exists p, w1.
  - by exists p, w1.
Qed.

(** A created run's row and assignment, with the thread it claimed. *)
Lemma claim_and_create_ok env x th p w w' run a fx :
  steady w → leaves th (pr_run p) (ce_before_insert env) → leaves th (pr_run p) (ce_before_claim env) →
  claim_and_create env x th p w = (w', Ok (Created run a fx)) →
  ∃ sim root depth t, run = pending_run env x th p sim root depth ∧ a = assignment_of env x th p depth ∧
    depth ≤ a2aMaxDepthOrDefault (ce_depth env) ∧ ¬ busy th (sw_db w) ∧ runs (sw_db w) !! pr_run p = None ∧
    runs (sw_db w') !! pr_run p = Some (new_row (FromContext x) run) ∧
    threads (sw_db w') !! th = Some t ∧ t_status t = ThreadStatusBusy ∧ visible x (t_tenant t) = true ∧ steady w'.
Proof.
  intros Hs Hi Hc. unfold CreateRun.claim_and_create.
  destruct (claim x th _) as [w1 o1] eqn:E1. apply claim_cases in E1 as [S1 E1]; [|done]. simpl in E1.
  destruct o1 as [[]|e1]; [|by destruct (retry_race _ _ _ _ _ _)|done].
  destruct E1 as (t&now&Ht&Hv&Hb&D1). destruct (Hc (sw_db w)) as [Hct Hcr].
  destruct (create_claimed env x th p w1) as [w2 [[[run1 a1] fx1]|e2]] eqn:E2; [|done]. intros [= <- <- <- _].
  assert (S2 : steady w2).
  { unfold CreateRun.create_claimed in E2. destruct (a2a_lineage _ _ x w1 _ _) as [w3 o3] eqn:E3.
    apply a2a_reads in E3 as [_ S3]. specialize (S3 S1). destruct o3 as [[[??]?]|]; [|done].
    destruct (createRunRespectingLimits x env _ _) as [w4 [u|e4]] eqn:E4; [|by destruct (retry_race _ _ _ _ _ _)].
    injection E2 as <- _ _ _. unfold createRunRespectingLimits in E4.
    destruct (ce_caps env); by apply (sql_op_steady _ _ _ _ E4). }
  apply create_claimed_ok in E2 as (sim&root&depth&db&->&->&Hd&->&Hn&D2).
  destruct (Hi (sw_db w1)) as [Hit Hir]. rewrite Hir, D1 in Hn. simpl in Hn.
  exists sim, root, depth, (restatused now ThreadStatusBusy t). split_and!; try done.
  - intros (t'&Ht'&Hb'). rewrite Hct in Ht. congruence.
  - congruence.
  - rewrite D2. simpl. by rewrite lookup_insert_eq.
  - rewrite D2. simpl. rewrite Hit, D1. simpl. by rewrite lookup_insert_eq.
Qed.

Lemma run_meta_fenced env x p sim depth key :
  key = AttemptGenerationKey ∨ key = CompletionGenerationKey → run_meta env x p sim depth !! key = None.
Proof.
  intros Hk. unfold run_meta.
  assert (Hne : "simulation" ≠ key ∧ "run_manifest" ≠ key) by (by destruct Hk as [-> | ->]).
  destruct Hne. destruct sim; rewrite ?(lookup_insert_ne _ "simulation"), ?(lookup_insert_ne _ "run_manifest") by done;
    (destruct Hk as [-> | ->]; [rewrite lookup_delete_ne by done|]; by rewrite lookup_delete_eq).
Qed.

(** C13. A created run owns its thread and its dispatch is the first attempt.  When no
    commit acknowledgement is lost, no two calls in a row fail and other requests
    leave the thread and the id alone: the id was free and the thread not
    busy; now the row is pending on that thread with no attempt or completion marker,
    within the delegation depth limit, the thread is busy, and the assignment
    carries the row's run, thread, agent, tenant and input at generation 1. *)
Theorem created_run_owns_thread env x th q w w' run a fx :
  createRunCtx env x th q w = (w', Ok (Created run a fx)) → steady w →
  leaves th (rid env q) (ce_before_insert env) → leaves th (rid env q) (ce_before_claim env) →
  ¬ busy th (sw_db w) ∧ runs (sw_db w) !! rid env q = None ∧ busy th (sw_db w') ∧
  ∃ row, runs (sw_db w') !! rid env q = Some row ∧
    r_status row = RunStatusPending ∧ r_thread row = th ∧ r_tenant row = FromContext x ∧
    run_metadata row !! AttemptGenerationKey = None ∧ run_metadata row !! CompletionGenerationKey = None ∧
    s_depth (r_spec row) ≤ a2aMaxDepthOrDefault (ce_depth env) ∧
    (Transport.RunID a, Transport.ThreadID a, GraphID a, Transport.TenantID a, Transport.Input a, Transport.Generation a)
      = (rid env q, th, r_agent row, r_tenant row, s_input (r_spec row), 1).
Proof.
  intros H Hs Hi Hc. apply createRunCtx_created in H as (p&w1&Hp&H&HS&HB). destruct (HS Hs) as [S1 [F1 R1]].
  apply prepare_run in Hp. rewrite <- Hp in Hi, Hc |- *.
  destruct (claim_and_create_ok _ _ _ _ _ _ _ _ _ S1 Hi Hc H) as (sim&root&depth&t&->&->&Hd&Hnb&Hn&Hr&Ht&Hb&_).
  split_and!; [auto|congruence|by exists t|].
  exists (new_row (FromContext x) (pending_run env x th p sim root depth)). split_and!; try done.
  - unfold run_metadata. simpl. by rewrite lookup_fmap, run_meta_fenced by auto.
  - unfold run_metadata. simpl. by rewrite lookup_fmap, run_meta_fenced by auto.
Qed.

(** ** Queueing failures *)

Lemma rollback_steady x run w row t :
  let r := StoreOps.RunID run in let th := StoreOps.ThreadID run in
  steady w → runs (sw_db w) !! r = Some row → visible x (r_tenant row) = true →
  threads (sw_db w) !! th = Some t → visible x (t_tenant t) = true →
  (busy th (sw_db (rollbackCreatedRun x run w)) →
     other_active_run th r (sw_db (rollbackCreatedRun x run w)) = true) ∧
  ∃ row', runs (sw_db (rollbackCreatedRun x run w)) !! r = Some row' ∧ r_status row' = RunStatusError.
Proof.
  intros r th Hs Hr Hv Ht Htv. unfold rollbackCreatedRun.
  destruct (tryStatusTransition _ w) as [w1 ok1] eqn:E1.
  apply (tryStatusTransition_steady _ _ _ _ _ (UpdateRunStatus_writes x r _ _ _)) in E1 as [S1 (e1&D1)]; [|done].
  destruct (tryStatusTransition _ w1) as [w2 ok2] eqn:E2.
  apply (tryStatusTransition_steady _ _ _ _ _ (ReleaseThread_writes x th r _)) in E2 as [_ (e2&D2)]; [|done].
  simpl. unfold update_visible_run in D1. rewrite Hr, Hv in D1. simpl in D1.
  assert (Ht1 : threads (sw_db w1) !! th = Some t) by (by rewrite D1).
  unfold set_thread_status in D2. rewrite Ht1, Htv in D2. simpl in D2.
  assert (Hrow : runs (sw_db w1) !! r = Some (restatus (w_now e1) RunStatusError ColNull "enqueue failed" row))
    by (rewrite D1; apply lookup_insert_eq).
  destruct (String.eqb_spec (t_status t) ThreadStatusBusy) as [Hb|Hb]; simpl in D2.
  - destruct (other_active_run th r (sw_db w1)) eqn:Ho; simpl in D2; rewrite D2.
    + split; [by intros _|]. eauto.
    + split; [|simpl; eauto]. intros (t'&Hl&Hb'). simpl in Hl. rewrite lookup_insert_eq in Hl. by injection Hl as <-.
  - rewrite D2. split; [|eauto]. intros (t'&Hl&Hb'). congruence.
Qed.

(** The answers of a creation that gives the client no run. *)
Definition gave_nothing (a : create_answer) : Prop :=
  match a with
  | AEnqueueFailed => True
  | ARefused (CCached _) => False
  | ARefused _ => True
  | _ => False
  end.

(** C14. A creation that gives the client nothing leaves nothing to clean up.  When no
    commit acknowledgement is lost, no two calls in a row fail and other requests
    leave the thread and the id alone, a refused or unqueued creation does not
    leave its thread newly busy unless another run is active on it, and its row is
    as it was before or has failed.  The refusal that reports a cached run, already
    committed, which could not be finalized is not among these. *)
Theorem failed_creation_leaves_nothing env x th q w w' ans :
  create_and_enqueue env x th q w = (w', ans) → gave_nothing ans → steady w →
  leaves th (rid env q) (ce_before_insert env) → leaves th (rid env q) (ce_before_claim env) →
  (busy th (sw_db w') → busy th (sw_db w) ∨ other_active_run th (rid env q) (sw_db w') = true) ∧
  (∀ row, runs (sw_db w') !! rid env q = Some row →
     runs (sw_db w) !! rid env q = Some row ∨ r_status row = RunStatusError).
Proof.
  unfold CreateRun.create_and_enqueue. intros H Hg Hs Hi Hc.
  destruct (createRunCtx env x th q w) as [w1 [[row|run a fx]|e]] eqn:E.
  - injection H as _ <-. done.
  - destruct (ce_enqueue env a); injection H as <- <-; [done|].
    apply createRunCtx_created in E as (p&w0&Hp&E&HS&HB). destruct (HS Hs) as [S0 _].
    apply prepare_run in Hp. rewrite <- Hp in Hi, Hc |- *.
    destruct (claim_and_create_ok _ _ _ _ _ _ _ _ _ S0 Hi Hc E)
      as (sim&root&depth&t&->&_&_&_&_&Hr&Ht&_&Htv&S1).
    destruct (rollback_steady x (pending_run env x th p sim root depth) w1 _ t S1 Hr (visible_own x) Ht Htv) as [Hb (row'&Hr'&He)].
    split; [auto|]. intros row Hrow. right. pose proof (eq_trans (eq_sym Hrow) Hr') as Heq. by injection Heq as <-.
  - assert (soft th (rid env q) (sw_db w) (sw_db w1)) as [Hb Hr].
    { eapply createRunCtx_err; try done. intros e' ->. injection H as _ <-. exact Hg. }
    assert (w' = w1) as -> by (destruct e; by simplify_eq).
    split; [auto|]. intros row. rewrite Hr. auto.
Qed.

(** ** Retries *)

Lemma prepare_req env th q p :
  prepare env th q = Ok p →
  (CrAgentID (pr_req p), pr_alias p) = route_agent env q ∧ CrInput (pr_req p) = CrInput q.
Proof.
  unfold prepare. destruct (_ || _); [done|]. destruct (negb _); [done|]. destruct (_ && _); [done|].
  destruct (negb _); [done|]. destruct (route_agent env q) as [agent alias].
  destruct (ce_agent env agent) as [|[]]; simpl; repeat case_match; intros; by simplify_eq.
Qed.

Lemma run_meta_alias env x p sim depth :
  run_meta env x p sim depth !! "requested_alias"
  = if String.eqb (pr_alias p) "" then None else Some (AStr (pr_alias p)).
Proof.
  unfold run_meta. set (b := match CrResumeCommand _ with Some _ => _ | None => _ end). clearbody b.
  destruct sim, b, (String.eqb (pr_alias p) ""); simpl;
    rewrite ?(lookup_insert_ne _ "simulation"), ?(lookup_insert_ne _ "run_manifest") by done;
    rewrite !lookup_delete_ne by done; rewrite ?(lookup_insert_ne _ "cache_key") by done;
    by rewrite ?lookup_insert_eq, ?lookup_empty.
Qed.

Lemma stored_alias_meta env x th p sim root depth :
  stored_alias (new_row (FromContext x) (pending_run env x th p sim root depth)) = pr_alias p.
Proof.
  unfold stored_alias, run_metadata. simpl. rewrite lookup_fmap, run_meta_alias.
  by destruct (String.eqb_spec (pr_alias p) "") as [->|].
Qed.

(** The row a queued creation left. *)
Lemma queued_row env x given fresh q w w1 run a fx :
  let th := if String.eqb given "" then fresh else given in
  handleCreateBackgroundRun env x given fresh q w = (w1, AQueued run a fx) → steady w →
  leaves th (rid env q) (ce_before_insert env) → leaves th (rid env q) (ce_before_claim env) →
  ∃ row, runs (sw_db w1) !! rid env q = Some row ∧ (r_agent row, stored_alias row) = route_agent env q ∧
    r_thread row = th ∧ r_tenant row = FromContext x ∧ s_input (r_spec row) = CrInput q.
Proof.
  intros th. unfold CreateRun.handleCreateBackgroundRun. intros H Hs Hi Hc.
  destruct (findRunForRetry env x (CrRunID q) q given w) as [w0 [[|]|]] eqn:E0; [done| |done].
  apply findRunForRetry_reads in E0 as [_ S0]. specialize (S0 Hs). fold th in H.
  unfold CreateRun.create_and_enqueue in H.
  destruct (createRunCtx env x th q w0) as [w2 [[row|run1 a1 fx1]|[]]] eqn:E; try done.
  destruct (ce_enqueue env a1); [|done]. injection H as <- <- <- <-.
  apply createRunCtx_created in E as (p&w3&Hp&E&HS&_). destruct (HS S0) as [S3 _].
  destruct (prepare_req _ _ _ _ Hp) as [Hreq Hin]. apply prepare_run in Hp. rewrite <- Hp in Hi, Hc |- *.
  destruct (claim_and_create_ok _ _ _ _ _ _ _ _ _ S3 Hi Hc E) as (sim&root&depth&t&->&_&_&_&_&Hr&_).
  eexists. split; [exact Hr|]. rewrite stored_alias_meta. by split_and!.
Qed.

(** A later row of the same run: its status, output and fences may have moved on. *)
Definition same_request (r r' : run_row) : Prop :=
  r_agent r' = r_agent r ∧ stored_alias r' = stored_alias r ∧ r_thread r' = r_thread r ∧
  r_tenant r' = r_tenant r ∧ s_input (r_spec r') = s_input (r_spec r).

Lemma handle_existing env x given fresh q w row :
  CrRunID q ≠ "" → w_fail (next w) 0%nat = false → runs (sw_db w) !! CrRunID q = Some row → visible x (r_tenant row) = true →
  run_metadata row !! "cache_hit" = None →
  handleCreateBackgroundRun env x given fresh q w
    = (set_db (sw_db w) w,
       match fingerprintMismatch decode_json env row q given with
       | Some reason => ARefused (CConflict "run" (CrRunID q) reason)
       | None => AExisting row
       end).
Proof.
  intros Hid Hf Hr Hv Hc. unfold CreateRun.handleCreateBackgroundRun, CreateRun.findRunForRetry.
  apply String.eqb_neq in Hid. rewrite Hid. unfold get_run, sql_read, sql_op, GetRun. rewrite Hf, Hr, Hv.
  destruct (fingerprintMismatch _ _ _ _ _); [done|]. by rewrite Hc.
Qed.

(** A retry gets its run.  When a named run was created and queued without cost
    routing, the same request sent again finds it, whatever its status has become and
    whichever target its alias would now pick, and touches nothing. *)
Theorem retry_finds_run env env2 x given fresh fresh2 q w w1 run a fx w2 row row2 :
  handleCreateBackgroundRun env x given fresh q w = (w1, AQueued run a fx) → steady w →
  leaves (if String.eqb given "" then fresh else given) (rid env q) (ce_before_insert env) →
  leaves (if String.eqb given "" then fresh else given) (rid env q) (ce_before_claim env) →
  CrRunID q ≠ "" → (∀ agent alias, (ce_route env agent alias).2 = "") →
  (CrInput q = "" ∨ jsonDeepEqual decode_json (CrInput q) (CrInput q) = true) →
  runs (sw_db w1) !! CrRunID q = Some row → same_request row row2 → run_metadata row2 !! "cache_hit" = None →
  runs (sw_db w2) !! CrRunID q = Some row2 → w_fail (next w2) 0%nat = false →
  (∀ n, (ce_resolve env2 n).2 = (ce_resolve env n).2) →
  handleCreateBackgroundRun env2 x given fresh2 q w2 = (set_db (sw_db w2) w2, AExisting row2).
Proof.
  intros H Hs Hi Hc Hid Hroute Hin Hrow (Ha&Hal&Hth&Hten&Hinp) Hhit Hrow2 Hf Hres.
  destruct (queued_row _ _ _ _ _ _ _ _ _ _ H Hs Hi Hc) as (row'&Hr'&Hag&Hth'&Hten'&Hin').
  assert (Hrid : rid env q = CrRunID q) by (unfold rid; by apply String.eqb_neq in Hid as ->).
  rewrite Hrid in Hr'. rewrite Hrow in Hr'. injection Hr' as <-.
  rewrite (handle_existing _ _ _ _ _ _ row2); try done; [|rewrite Hten, Hten'; apply visible_own].
  f_equal. unfold fingerprintMismatch. rewrite Ha, Hal, Hth, Hinp, Hin', Hth', Hres.
  unfold route_agent in Hag. set (n := if String.eqb (CrAgentID q) "" then CrAssistantID q else CrAgentID q) in *.
  assert (Hdiff : (if (ce_resolve env n).2 then negb (String.eqb (stored_alias row) n) else negb (String.eqb (r_agent row) n)) = false).
  { destruct (ce_resolve env n) as [m []]; simpl in *.
    - specialize (Hroute m n). destruct (ce_route env m n) as [c d]. simpl in Hroute. subst d.
      simpl in Hag. injection Hag as _ ->. by rewrite String.eqb_refl.
    - specialize (Hroute n ""). destruct (ce_route env n "") as [c d]. simpl in Hroute. subst d.
      simpl in Hag. injection Hag as -> _. by rewrite String.eqb_refl. }
  rewrite Hdiff, andb_false_r. simpl.
  destruct (String.eqb_spec given "") as [->|]; simpl.
  - destruct Hin as [->| ->]; [done|]. by rewrite andb_false_r.
  - rewrite String.eqb_refl. simpl. destruct Hin as [->| ->]; [done|]. by rewrite andb_false_r.
Qed.

(** A retry of a run that cost routing moved to a cheaper agent is refused.  The row
    records the cheaper agent, the request still names the original one, and it is not an
    alias: the unchanged retry is answered as a conflict with a different agent. *)
Theorem routed_retry_refused env x given fresh q w w1 run a fx w2 agent from :
  handleCreateBackgroundRun env x given fresh q w = (w1, AQueued run a fx) → steady w →
  leaves (if String.eqb given "" then fresh else given) (rid env q) (ce_before_insert env) →
  leaves (if String.eqb given "" then fresh else given) (rid env q) (ce_before_claim env) →
  CrRunID q ≠ "" → CrAgentID q ≠ "" → (ce_resolve env (CrAgentID q)).2 = false →
  ce_route env (CrAgentID q) "" = (agent, from) → from ≠ "" → agent ≠ CrAgentID q →
  sw_db w2 = sw_db w1 → w_fail (next w2) 0%nat = false →
  (handleCreateBackgroundRun env x given fresh q w2).2
    = ARefused (CConflict "run" (CrRunID q) "run_id reused with a different agent").
Proof.
  intros H Hs Hi Hc Hid Hagent Hres Hroute Hfrom Hne Hdb Hf.
  destruct (queued_row _ _ _ _ _ _ _ _ _ _ H Hs Hi Hc) as (row&Hr&Hag&_&Hten&_).
  assert (Hrid : rid env q = CrRunID q) by (unfold rid; by apply String.eqb_neq in Hid as ->).
  apply String.eqb_neq in Hagent. unfold route_agent in Hag. rewrite Hagent in Hag.
  destruct (ce_resolve env (CrAgentID q)) as [m b] eqn:Er. simpl in Hres. subst b.
  rewrite Hroute in Hag. apply String.eqb_neq in Hfrom. rewrite Hfrom in Hag. simpl in Hag. injection Hag as Hag _.
  unfold CreateRun.handleCreateBackgroundRun, CreateRun.findRunForRetry.
  apply String.eqb_neq in Hid. rewrite Hid. unfold get_run, sql_read, sql_op, GetRun.
  rewrite Hf, Hdb, <- Hrid, Hr, Hten, visible_own. unfold fingerprintMismatch.
  rewrite Hagent, Er, Hag. simpl. rewrite Hagent. apply String.eqb_neq in Hne. by rewrite Hne.
Qed.

(** The delay a refused client is told to wait is positive and at most a day, and with
    a daily ceiling the wait ends in the next day's window at the latest. *)
Lemma retryAfterAdmission_bounds e now :
  1 ≤ retryAfterAdmission e now ≤ 86400.
Proof.
  unfold retryAfterAdmission, secondsUntilUTCMidnight.
  assert (0 ≤ now mod day < day) by (apply Z.mod_pos_bound; reflexivity).
  assert ((day - now mod day) / second ≤ 86400) by (apply Z.div_le_upper_bound; [reflexivity|unfold day in *; lia]).
  destruct e; try lia. destruct (String.eqb kind "daily"); lia.
Qed.
End props.

(** * Creating runs on a concrete store
    A store with one idle thread, an agent reached through an alias or routed to a
    cheaper one, and a database that fails now and then.  *)

Local Open Scope string_scope.
Local Open Scope Z_scope.

Definition all_valid : gmap string any → bool := λ _, true.
Definition text_match : column → string → any → bool := λ _ _ _, false.
Definition decode_text : string → option any := λ s, Some (AStr s).

Definition shop_agent (id : string) : res err (gmap string any) :=
  if String.eqb id "unknown" then Err (ENotFound "agent" id)
  else Ok {[ "runner_kind" := AStr "typescript"; "connector_needs" := AArr [AStr "crm"] ]}.

(** The alias [latest] stands for [v2]; [route] is the cost routing, [queue] whether the
    queue takes the assignment. *)
Definition shop_env (route : string → string → string * string) (queue : bool) : create_env :=
  mkEnv 10 "u1" false false (λ _, true)
    (λ a, if String.eqb a "latest" then ("v2", true) else (a, false)) route
    shop_agent (λ _, true) (λ _, None) (λ _, None) (λ _, true) None 0 0
    (λ t a i c, "key") (λ a b p d, (AStr a, a)) None (λ r, Build_TraceContext "" "" r)
    id (λ _, true) false (λ _, queue) id id.

Definition no_route (agent alias : string) : string * string := (agent, "").
Definition to_mini (agent alias : string) : string * string :=
  if String.eqb agent "big" then ("mini", "big") else (agent, "").

Definition idle_thread : thread_row := mkThread "default" ThreadStatusIdle ColNull 1 0 ColNull 0.
Definition shop_db : DB := mkDB ∅ {[ "t1" := idle_thread ]} ∅ ∅.

Definition down : weather := mkWeather (λ _, true) CommitOk 0.

Definition shop_req (agent : string) (parent : option string) : RunCreate :=
  mkCreateReq "r1" agent "" "hello" "" [] "" None None None parent.

Lemma leaves_id th r : leaves th r id.
Proof. done. Qed.

Lemma steady_calm db : steady (mkSql db []).
Proof. split; [constructor|]. intros i e1 e2 H. simpl in H. by rewrite lookup_nil in H. Qed.

(** The calls of a refused delegation: the thread, the claim, the parent, and a failing
    first release. *)
Definition stormy : SqlWorld := mkSql shop_db [fair; fair; fair; down].

Lemma steady_stormy : steady stormy.
Proof.
  split; [repeat constructor; done|]. unfold stormy. simpl.
  intros [|[|[|[|i]]]] e1 e2 H1 H2; simpl in *; simplify_eq; by left.
Qed.

Notation create := (createRunCtx all_valid Z.leb text_match decode_text).
Notation enqueue := (create_and_enqueue all_valid Z.leb text_match decode_text).
Notation post := (handleCreateBackgroundRun all_valid Z.leb text_match decode_text).

Definition calm : SqlWorld := mkSql shop_db [].

Lemma created_run_owns_thread_witness :
  busy "t1" (sw_db (create (shop_env no_route true) background "t1" (shop_req "latest" None) calm).1) ∧
  ¬ busy "t1" shop_db.
Proof.
  assert (H : ∃ run a fx, create (shop_env no_route true) background "t1" (shop_req "latest" None) calm
    = ((create (shop_env no_route true) background "t1" (shop_req "latest" None) calm).1, Ok (Created run a fx))).
  { do 3 eexists. vm_compute. reflexivity. }
  destruct H as (run&a&fx&H).
  destruct (created_run_owns_thread all_valid Z.leb text_match decode_text (shop_env no_route true) background "t1"
              (shop_req "latest" None) calm _ run a fx H (steady_calm _) (leaves_id _ _) (leaves_id _ _))
    as (H1&_&H2&_).
  split; [exact H2|exact H1].
Defined.

(** A delegation whose parent is gone, with a failing first release. *)
Lemma failed_creation_leaves_nothing_witness :
  ¬ busy "t1" (sw_db (enqueue (shop_env no_route true) background "t1" (shop_req "latest" (Some "gone")) stormy).1).
Proof.
  assert (H : enqueue (shop_env no_route true) background "t1" (shop_req "latest" (Some "gone")) stormy
    = ((enqueue (shop_env no_route true) background "t1" (shop_req "latest" (Some "gone")) stormy).1,
       ARefused (CA2A EParentLookup))) by (vm_compute; reflexivity).
  destruct (failed_creation_leaves_nothing all_valid Z.leb text_match decode_text (shop_env no_route true) background "t1"
              (shop_req "latest" (Some "gone")) stormy _ _ H I steady_stormy (leaves_id _ _) (leaves_id _ _)) as [Hb _].
  intros [(t&Ht&Hs)|Ho]%Hb; [vm_compute in Ht; injection Ht as <-; discriminate|vm_compute in Ho; discriminate].
Defined.

(** The thread is read, and the reply to the claim's commit is lost. *)
Definition claim_lost : SqlWorld := mkSql shop_db [fair; mkWeather (λ _, false) CommitLost 0].

(** A claim whose commit succeeds while its reply is lost stays: the creation is
    refused, has no run, and its thread is busy with no run active on it. *)
Theorem lost_claim_leaves_thread_busy :
  let (w', ans) := enqueue (shop_env no_route true) background "t1" (shop_req "latest" None) claim_lost in
  gave_nothing ans ∧ ¬ busy "t1" (sw_db claim_lost) ∧ busy "t1" (sw_db w') ∧
  runs (sw_db w') !! "r1" = None ∧ other_active_run "t1" "r1" (sw_db w') = false.
Proof.
  vm_compute. repeat split; try done.
  - intros (t&Ht&Hs). by injection Ht as <-.
  - eexists. split; reflexivity.
Qed.

(** The run of the first request, as a runner has since left it. *)
Definition finished (r : run_row) : run_row :=
  mkRun (r_tenant r) (r_thread r) (r_agent r) RunStatusSuccess (r_meta r) (ColObj ∅) "" (r_created r) 20 (r_spec r).

Definition first_world : SqlWorld := (post (shop_env no_route true) background "t1" "t9" (shop_req "latest" None) calm).1.
Definition first_row : run_row := default (mkRun "" "" "" "" ColNull ColNull "" 0 0 (mkSpec "" "" None None 0))
  (runs (sw_db first_world) !! "r1").
Definition later_world : SqlWorld := mkSql (set_runs {[ "r1" := finished first_row ]} (sw_db first_world)) [].

Lemma retry_finds_run_witness :
  post (shop_env no_route true) background "t1" "t8" (shop_req "latest" None) later_world
  = (set_db (sw_db later_world) later_world, AExisting (finished first_row)).
Proof.
  assert (H : ∃ run a fx, post (shop_env no_route true) background "t1" "t9" (shop_req "latest" None) calm
    = (first_world, AQueued run a fx)) by (do 3 eexists; vm_compute; reflexivity).
  destruct H as (run&a&fx&H).
  apply (retry_finds_run all_valid Z.leb text_match decode_text (shop_env no_route true) (shop_env no_route true)
           background "t1" "t9" "t8" (shop_req "latest" None) calm first_world run a fx later_world first_row (finished first_row) H).
  - apply steady_calm.
  - apply leaves_id.
  - apply leaves_id.
  - discriminate.
  - reflexivity.
  - right. vm_compute. reflexivity.
  - vm_compute. reflexivity.
  - repeat split.
  - vm_compute. reflexivity.
  - vm_compute. reflexivity.
  - reflexivity.
  - reflexivity.
Defined.

Lemma routed_retry_refused_witness :
  (post (shop_env to_mini true) background "t1" "t9" (shop_req "big" None)
     (post (shop_env to_mini true) background "t1" "t9" (shop_req "big" None) calm).1).2
  = ARefused (CConflict "run" "r1" "run_id reused with a different agent").
Proof.
  assert (H : ∃ run a fx, post (shop_env to_mini true) background "t1" "t9" (shop_req "big" None) calm
    = ((post (shop_env to_mini true) background "t1" "t9" (shop_req "big" None) calm).1, AQueued run a fx))
    by (do 3 eexists; vm_compute; reflexivity).
  destruct H as (run&a&fx&H).
  apply (routed_retry_refused all_valid Z.leb text_match decode_text (shop_env to_mini true) background "t1" "t9"
           (shop_req "big" None) calm _ run a fx _ "mini" "big" H (steady_calm _) (leaves_id _ _) (leaves_id _ _));
    try discriminate; try reflexivity.
Defined.
