(* ===== verification/Cron.v ===== *)
(** * Scheduled runs

    Models the cron scheduler ([cmd/cron.go]), the schedule and claim tables
    ([internal/state/sqlite/sqlite.go]) and [models.CronSchedule].  Every replica
    of the control plane runs the scheduler; a fire is dispatched by the replica
    whose row enters [cron_claims].

    Cron expressions and time zones are the library's: a parsed expression is used
    through [Next] only, an instant is a number of Unix nanoseconds.  Claims keep
    their fire time as a text of whole seconds, here the second itself.  [visit] is
    the whole body of the scheduler's loop for one schedule. *)

From S2P Require Import Prelude GoStrings GoAny GoTime Transport Completion Store StoreOps StoreSearch.
From S2P Require Import Lifecycle StoreLifecycle Cancel CreateRun.
Local Open Scope string_scope.
Local Open Scope Z_scope.

(** ** Tables *)

Record CronSchedule := mkSchedule {
  CsTenantID : string;
  CsName : string;
  CsAgentID : string;
  CsExpression : string;
  CsTimezone : string;
  CsInput : string;
  CsConfig : string;
  CsEnabled : bool;
  CsCreatedAt : Z;
  CsUpdatedAt : Z
}.

(** A claim's primary key: tenant, schedule, fire time in seconds. *)
Notation fire_key := (string * string * Z)%type.

Record CronTables := mkCron {
  cron_schedules : gmap (string * string) CronSchedule;   (* by tenant and name *)
  cron_claims : gmap fire_key Z                           (* claimed at, in seconds *)
}.

Definition set_schedules (m : gmap (string * string) CronSchedule) (t : CronTables) : CronTables :=
  mkCron m (cron_claims t).
Definition set_claims (m : gmap fire_key Z) (t : CronTables) : CronTables := mkCron (cron_schedules t) m.

(** [raw] writes a raw JSON column; the creation time of an existing row is kept. *)
Definition UpsertCronSchedule (raw : string → string) (o : reply) (now : Z) (x : ctx) (s : CronSchedule)
  : CronTables → CronTables * res err unit :=
  attempt EDriver o (λ t,
    let key := (FromContext x, CsName s) in
    let created := match cron_schedules t !! key with Some old => CsCreatedAt old | None => sec now * second end in
    (set_schedules (<[key := mkSchedule (FromContext x) (CsName s) (CsAgentID s) (CsExpression s) (CsTimezone s)
                               (raw (CsInput s)) (raw (CsConfig s)) (CsEnabled s) created (sec now * second)]>
                      (cron_schedules t)) t, tt)).

Definition key_le (a b : string * string) : bool :=
  String.ltb a.1 b.1 || (String.eqb a.1 b.1 && String.leb a.2 b.2).

(** A driver error while rows are read is not looked at. *)
Definition ListCronSchedules (fail : nat → bool) (x : ctx) (t : CronTables) : res err (list CronSchedule) :=
  if fail 0%nat then Err EDriver
  else Ok (scan fail 0 (snd <$> sort_by (λ a b, key_le a.1 b.1)
                          (filter (λ ks, visible x ks.1.1 = true) (map_to_list (cron_schedules t))))).

Definition DeleteCronSchedule (o : reply) (x : ctx) (name : string) : CronTables → CronTables * res err unit :=
  attempt EDriver o (λ t,
    (set_schedules (filter (λ ks, negb (String.eqb ks.1.2 name && visible x ks.1.1) = true) (cron_schedules t)) t, tt)).

(** [INSERT ... ON CONFLICT DO NOTHING]: whether the row is new. *)
Definition TryClaimCronFire (o : reply) (now : Z) (x : ctx) (name : string) (fire : Z)
  : CronTables → CronTables * res err bool :=
  attempt EDriver o (λ t,
    let key := (FromContext x, name, sec fire) in
    match cron_claims t !! key with
    | Some _ => (t, false)
    | None => (set_claims (<[key := sec now]> (cron_claims t)) t, true)
    end).

Definition ReleaseCronClaim (o : reply) (x : ctx) (name : string) (fire : Z) : CronTables → CronTables * res err unit :=
  attempt EDriver o (λ t, (set_claims (delete (FromContext x, name, sec fire) (cron_claims t)) t, tt)).

(** The claimed fire times of a schedule, in seconds. *)
Definition claimed (x : ctx) (name : string) (t : CronTables) : list Z :=
  omap (λ kc : fire_key * Z,
    let '(tenant, n, f) := kc.1 in
    if String.eqb tenant (FromContext x) && String.eqb n name then Some f else None) (map_to_list (cron_claims t)).

Definition latest (l : list Z) : option Z :=
  foldr (λ f m, Some (match m with Some g => Z.max f g | None => f end)) None l.

Definition GetLastCronFireTime (fail : bool) (x : ctx) (name : string) (t : CronTables) : res err (option Z) :=
  if fail then Err EDriver else Ok ((λ f, f * second) <$> latest (claimed x name t)).

Definition PruneCronClaims (o : reply) (x : ctx) (olderThan : Z) : CronTables → CronTables * res err Z :=
  attempt EDriver o (λ t,
    let kept := filter (λ kc : fire_key * Z, negb ((kc.1.2 <? sec olderThan) && visible x kc.1.1.1) = true) (cron_claims t) in
    (set_claims kept t, Z.of_nat (size (cron_claims t)) - Z.of_nat (size kept))).

(** ** Is it due *)

(** The loop to the latest activation; [None]: it is still running. *)
Fixpoint latest_due (fuel : nat) (next : Z → Z) (fire now : Z) : option Z :=
  match fuel with
  | O => None
  | S n => if now <? next fire then Some fire else latest_due n next (next fire) now
  end.

(** [Some None]: not due. *)
Definition checkSchedule (fuel : nat) (next : Z → Z) (last now : Z) : option (option Z) :=
  if now <? next last then Some None else Some <$> latest_due fuel next (next last) now.

Definition initialAnchor (last : res err (option Z)) (now : Z) : Z :=
  match last with Ok (Some t) => t | _ => now end.

(** ** The scheduler *)

Section scheduler.
(** The cron and time zone libraries. *)
Context {Sched Loc : Type} (LoadLocation : string → option Loc) (UTC : Loc).
Context (ParseStandard : string → option Sched) (Next : Sched → Loc → Z → Z).

Record compiledCronSchedule := mkCompiled {
  cc_expression : string;
  cc_timezone : string;
  cc_schedule : Sched;
  cc_location : Loc
}.

(** What a replica remembers, by tenant and name. *)
Record replica := mkReplica {
  compiled : gmap (string * string) compiledCronSchedule;
  lastChecked : gmap (string * string) Z
}.

Definition fresh_replica : replica := mkReplica ∅ ∅.

Definition scheduleKey (s : CronSchedule) : string * string := (CsTenantID s, CsName s).

Definition checked (key : string * string) (now : Z) (r : replica) : replica :=
  mkReplica (compiled r) (<[key := now]> (lastChecked r)).

(** The zero [time.Time], in Unix nanoseconds. *)
Definition zero_time : Z := -62135596800 * second.

Definition compile (s : CronSchedule) : option compiledCronSchedule :=
  let loc := default UTC (LoadLocation (CsTimezone s)) in
  (λ parsed, mkCompiled (CsExpression s) (CsTimezone s) parsed loc) <$> ParseStandard (CsExpression s).

Definition up_to_date (c : compiledCronSchedule) (s : CronSchedule) : bool :=
  String.eqb (cc_expression c) (CsExpression s) && String.eqb (cc_timezone c) (CsTimezone s).

(** Up to the claim: the replica, and the fire to claim.  [None]: the check does not end. *)
Definition check_visit (fuel : nat) (now : Z) (last_fire : res err (option Z)) (s : CronSchedule) (r : replica)
  : option (replica * option Z) :=
  let key := scheduleKey s in
  let recompile :=
    match compile s with
    | Some c => mkReplica (<[key := c]> (compiled r)) (<[key := initialAnchor last_fire now]> (lastChecked r))
    | None => r
    end in
  if negb (CsEnabled s) then Some (r, None)
  else
    match compiled r !! key with
    | None => Some (recompile, None)
    | Some c =>
        if negb (up_to_date c s) then Some (recompile, None)
        else
          match checkSchedule fuel (Next (cc_schedule c) (cc_location c)) (default zero_time (lastChecked r !! key)) now with
          | None => None
          | Some None => Some (checked key now r, None)
          | Some (Some fire) => Some (r, Some fire)
          end
    end.

(** After the claim: whether to dispatch. *)
Definition claim_visit (now : Z) (won : res err bool) (s : CronSchedule) (r : replica) : replica * bool :=
  match won with
  | Err _ => (r, false)
  | Ok false => (checked (scheduleKey s) now r, false)
  | Ok true => (r, true)
  end.

(** [errors.As(dispatchErr, *state.ErrConflict)]. *)
Definition is_conflict (a : create_answer) : bool :=
  match a with
  | ARefused (CConflict _ _ _) | ARefused (CStore (EConflict _ _)) | ARefused (CCached (EConflict _ _)) => true
  | _ => false
  end.

Definition dispatched (a : create_answer) : bool :=
  match a with AQueued _ _ _ | ACached _ => true | _ => false end.

(** After the dispatch: whether to release the claim. *)
Definition dispatch_visit (now : Z) (a : create_answer) (s : CronSchedule) (r : replica) : replica * bool :=
  if dispatched a || is_conflict a then (checked (scheduleKey s) now r, false) else (r, true).

(** ** One visit of a schedule *)

Variable validate : gmap string any → bool.
Variable ts_le : Z → Z → bool.
Variable json_eq : column → string → any → bool.
Variable decode_json : string → option any.

(** [schedCtx]: the schedule's own tenant. *)
Definition sched_ctx (s : CronSchedule) : ctx := WithContext background (CsTenantID s).

(** The database and the clock of a visit. *)
Record visit_in := mkVisit {
  vi_now : Z;
  vi_last_fails : bool;
  vi_claim : reply;
  vi_release : reply;
  vi_env : create_env
}.

Record cron_state := mkCronState { cs_tables : CronTables; cs_sql : SqlWorld; cs_replica : replica }.

Definition dispatch (env : create_env) (s : CronSchedule) : SqlWorld → SqlWorld * create_answer :=
  DispatchScheduledRun validate ts_le json_eq decode_json env (sched_ctx s) (CsName s) (CsAgentID s) (CsInput s) (CsConfig s).

(** The state after the visit, and the fire it dispatched. *)
Definition visit (fuel : nat) (v : visit_in) (s : CronSchedule) (st : cron_state) : option (cron_state * option Z) :=
  let x := sched_ctx s in
  let t := cs_tables st in
  match check_visit fuel (vi_now v) (GetLastCronFireTime (vi_last_fails v) x (CsName s) t) s (cs_replica st) with
  | None => None
  | Some (r, None) => Some (mkCronState t (cs_sql st) r, None)
  | Some (r, Some fire) =>
      let '(t, won) := TryClaimCronFire (vi_claim v) (vi_now v) x (CsName s) fire t in
      let '(r, go) := claim_visit (vi_now v) won s r in
      if go then
        let '(w, a) := dispatch (vi_env v) s (cs_sql st) in
        let '(r, release) := dispatch_visit (vi_now v) a s r in
        let t := if release then (ReleaseCronClaim (vi_release v) x (CsName s) fire t).1 else t in
        Some (mkCronState t w r, if dispatched a then Some fire else None)
      else Some (mkCronState t (cs_sql st) r, None)
  end.

(** One tick visits every schedule the listing showed. *)
Fixpoint visits (fuel : nat) (vs : CronSchedule → visit_in) (l : list CronSchedule) (st : cron_state)
  : option (cron_state * list (CronSchedule * Z)) :=
  match l with
  | [] => Some (st, [])
  | s :: l =>
      match visit fuel (vs s) s st with
      | None => None
      | Some (st, f) =>
          match visits fuel vs l st with
          | None => None
          | Some (st, fs) => Some (st, match f with Some f => (s, f) :: fs | None => fs end)
          end
      end
  end.

Definition tick (fuel : nat) (fail : nat → bool) (vs : CronSchedule → visit_in) (st : cron_state)
  : option (cron_state * list (CronSchedule * Z)) :=
  match ListCronSchedules fail (SystemContext background) (cs_tables st) with
  | Err _ => Some (st, [])
  | Ok l => visits fuel vs l st
  end.
End scheduler.
