(* ===== verification/CronProps.v ===== *)
(** * Properties of the scheduler

    Which fire a visit picks, and that the replicas of a deployment dispatch each
    fire at most once, whatever the interleaving of their statements. *)

From S2P Require Import Prelude GoStrings GoAny GoTime Transport Completion Store StoreOps StoreSearch.
From S2P Require Import Lifecycle StoreLifecycle Cancel CreateRun Cron.
Local Open Scope string_scope.
Local Open Scope Z_scope.

(** ** The fire a visit picks *)

(** What the cron library documents of a schedule with activations [act]: the next
    one later than a given time. *)
Record next_ok (next : Z → Z) (act : Z → Prop) : Prop := {
  next_later : ∀ t, t < next t ∧ act (next t);
  next_least : ∀ t a, act a → t < a → next t ≤ a
}.

Lemma latest_due_spec next act fuel fire now :
  next_ok next act → act fire → fire ≤ now → (Z.to_nat (now - fire) < fuel)%nat →
  ∃ f, latest_due fuel next fire now = Some f ∧ act f ∧ fire ≤ f ≤ now ∧ ∀ a, act a → a ≤ now → a ≤ f.
Proof.
  intros Hn. revert fire. induction fuel as [|n IH]; intros fire Ha Hle Hf; [lia|]. simpl.
  destruct (next_later _ _ Hn fire) as [Hl Ha'].
  destruct (now <? next fire) eqn:E; bool_solve.
  - exists fire. split_and!; [done..|]. intros a Haa Hna. destruct (decide (a ≤ fire)); [done|].
    pose proof (next_least _ _ Hn fire a Haa ltac:(lia)). lia.
  - destruct (IH (next fire)) as (f&H1&H2&H3&H4); [done|lia|lia|]. exists f. split_and!; done || lia.
Qed.

(** A due check ends, says whether there was an activation since the last one, and
    then picks the latest: any number of missed fires is made up for by one run. *)
Theorem checkSchedule_latest next act fuel last now :
  next_ok next act → (Z.to_nat (now - last) < fuel)%nat →
  ∃ r, checkSchedule fuel next last now = Some r ∧
    match r with
    | None => ∀ a, act a → a ≤ last ∨ now < a
    | Some f => act f ∧ last < f ≤ now ∧ ∀ a, act a → a ≤ now → a ≤ f
    end.
Proof.
  intros Hn Hf. unfold checkSchedule. destruct (next_later _ _ Hn last) as [Hl Ha].
  destruct (now <? next last) eqn:E; bool_solve.
  - exists None. split; [done|]. intros a Haa. destruct (decide (a ≤ last)); [by left|right].
    pose proof (next_least _ _ Hn last a Haa ltac:(lia)). lia.
  - destruct (latest_due_spec next act fuel (next last) now) as (f&->&H1&H2&H3); [done..|lia|].
    exists (Some f). split_and!; done || lia.
Qed.

(** The library answers the zero time for an expression no date satisfies. *)
Lemma latest_due_stuck next z fuel fire now : (∀ t, next t = z) → z ≤ now → latest_due fuel next fire now = None.
Proof.
  intros Hz Hle. revert fire. induction fuel as [|n IH]; intros fire; simpl; [done|].
  rewrite Hz, (proj2 (Z.ltb_ge _ _)) by lia. apply IH.
Qed.

Section scheduler.
Context {Sched Loc : Type} (LoadLocation : string → option Loc) (UTC : Loc).
Context (ParseStandard : string → option Sched) (Next : Sched → Loc → Z → Z).
Variable validate : gmap string any → bool.
Variable ts_le : Z → Z → bool.
Variable json_eq : column → string → any → bool.
Variable decode_json : string → option any.

Notation visits := (visits LoadLocation UTC ParseStandard Next validate ts_le json_eq decode_json).
Notation visit := (visit LoadLocation UTC ParseStandard Next validate ts_le json_eq decode_json).
Notation check_visit := (check_visit LoadLocation UTC ParseStandard Next).
Notation replica := (@replica Sched Loc).
Notation dispatch := (dispatch validate ts_le json_eq decode_json).

(** An enabled schedule whose expression no date satisfies stops the scheduler: once
    it is compiled, the visit never ends, and no schedule after it is visited. *)
Theorem unsatisfiable_schedule_hangs s c l vs st :
  CsEnabled s = true → compiled (cs_replica st) !! scheduleKey s = Some c → up_to_date c s = true →
  (∀ t, Next (cc_schedule c) (cc_location c) t = zero_time) → zero_time ≤ vi_now (vs s) →
  ∀ fuel, visits fuel vs (s :: l) st = None.
Proof.
  intros He Hc Hu Hz Hle fuel. cbn [Cron.visits]. unfold Cron.visit, Cron.check_visit.
  rewrite He, Hc, Hu. simpl. unfold checkSchedule. rewrite Hz, (proj2 (Z.ltb_ge _ _)) by lia.
  by rewrite (latest_due_stuck _ zero_time).
Qed.

(** ** Replicas *)

Inductive pc :=
| PClaim (s : CronSchedule) (now fire : Z)
| PDispatch (s : CronSchedule) (now fire : Z)
| PRelease (s : CronSchedule) (now fire : Z).

Definition key_of (s : CronSchedule) (fire : Z) : fire_key := (FromContext (sched_ctx s), CsName s, sec fire).

(** The claim a replica has won and not yet used or let go. *)
Definition pc_key (p : pc) : option fire_key :=
  match p with
  | PClaim _ _ _ => None
  | PDispatch s _ fire | PRelease s _ fire => Some (key_of s fire)
  end.

Record cworld := mkCworld {
  cw_t : CronTables;
  cw_sql : SqlWorld;
  cw_rep : gmap nat replica;
  cw_pc : gmap nat pc;
  cw_fired : list fire_key;      (* ghost: dispatched fires *)
  cw_pruned : Z                  (* ghost: claims before this second may have been pruned *)
}.

Definition cron_init (sql : SqlWorld) (start : Z) : cworld := mkCworld (mkCron ∅ ∅) sql ∅ ∅ [] start.

Definition upd_t (t : CronTables) (w : cworld) : cworld :=
  mkCworld t (cw_sql w) (cw_rep w) (cw_pc w) (cw_fired w) (cw_pruned w).

(** Replica [i] moves on; [None]: to its next visit. *)
Definition move (i : nat) (r : replica) (p : option pc) (w : cworld) : cworld :=
  mkCworld (cw_t w) (cw_sql w) (<[i := r]> (cw_rep w)) (partial_alter (λ _, p) i (cw_pc w)) (cw_fired w) (cw_pruned w).

Definition rep (w : cworld) (i : nat) : replica := default fresh_replica (cw_rep w !! i).

(** A statement, a dispatch or a crash of any replica; schedules may be any the
    replica listed before, and other requests change the database as they like. *)
Inductive cron_step : cworld → cworld → Prop :=
| k_check w i fuel now last s r f :
    cw_pc w !! i = None → check_visit fuel now last s (rep w i) = Some (r, f) →
    cron_step w (move i r (PClaim s now <$> f) w)
| k_claim w i o at_ s now fire t won r go :
    cw_pc w !! i = Some (PClaim s now fire) →
    TryClaimCronFire o at_ (sched_ctx s) (CsName s) fire (cw_t w) = (t, won) →
    claim_visit now won s (rep w i) = (r, go) →
    cron_step w (move i r (if go : bool then Some (PDispatch s now fire) else None) (upd_t t w))
| k_dispatch w i env s now fire sql a r release :
    cw_pc w !! i = Some (PDispatch s now fire) →
    dispatch env s (cw_sql w) = (sql, a) → dispatch_visit now a s (rep w i) = (r, release) →
    cron_step w (move i r (if release : bool then Some (PRelease s now fire) else None)
      (mkCworld (cw_t w) sql (cw_rep w) (cw_pc w)
         (if dispatched a then key_of s fire :: cw_fired w else cw_fired w) (cw_pruned w)))
| k_release w i o s now fire :
    cw_pc w !! i = Some (PRelease s now fire) →
    cron_step w (move i (rep w i) None (upd_t (ReleaseCronClaim o (sched_ctx s) (CsName s) fire (cw_t w)).1 w))
| k_crash w i : cron_step w (move i fresh_replica None w)
| k_upsert w raw o now x s : cron_step w (upd_t (UpsertCronSchedule raw o now x s (cw_t w)).1 w)
| k_remove w o x name : cron_step w (upd_t (DeleteCronSchedule o x name (cw_t w)).1 w)
| k_prune w o x cutoff :
    cron_step w (mkCworld (PruneCronClaims o x cutoff (cw_t w)).1 (cw_sql w) (cw_rep w) (cw_pc w) (cw_fired w)
                   (Z.max (cw_pruned w) (sec cutoff)))
| k_other w sql : cron_step w (mkCworld (cw_t w) sql (cw_rep w) (cw_pc w) (cw_fired w) (cw_pruned w)).

Definition cron_reachable (sql : SqlWorld) (start : Z) : cworld → Prop := rtc cron_step (cron_init sql start).

Definition has_claim (w : cworld) (k : fire_key) : Prop := is_Some (cron_claims (cw_t w) !! k).
Definition holds (w : cworld) (i : nat) (k : fire_key) : Prop := (cw_pc w !! i) ≫= pc_key = Some k.

(** The claim row stands for the right to dispatch a fire: at most one replica has
    it, and it is kept once it is used. *)
Record cron_inv (w : cworld) : Prop := {
  ci_held : ∀ i k, holds w i k → cw_pruned w ≤ k.2 → has_claim w k ∧ k ∉ cw_fired w;
  ci_one : ∀ i j k, holds w i k → holds w j k → cw_pruned w ≤ k.2 → i = j;
  ci_fired : ∀ k, k ∈ cw_fired w → cw_pruned w ≤ k.2 → has_claim w k;
  ci_once : NoDup (filter (λ k : fire_key, cw_pruned w ≤ k.2) (cw_fired w))
}.

Lemma holds_move i r p w j k :
  holds (move i r p w) j k ↔ (i = j ∧ p ≫= pc_key = Some k) ∨ (i ≠ j ∧ holds w j k).
Proof.
  unfold holds, move. simpl. destruct (decide (i = j)) as [->|Hne].
  - rewrite lookup_partial_alter_eq. naive_solver.
  - rewrite lookup_partial_alter_ne by done. naive_solver.
Qed.

Lemma holds_at w i p k : cw_pc w !! i = Some p → holds w i k ↔ pc_key p = Some k.
Proof. unfold holds. by intros ->. Qed.

(** Steps that give no right and take no claim that is not pruned. *)
Lemma cron_inv_le w w' :
  cron_inv w → cw_pruned w ≤ cw_pruned w' → cw_fired w' = cw_fired w →
  (∀ k, cw_pruned w' ≤ k.2 → has_claim w k → has_claim w' k) → (∀ i k, holds w' i k → holds w i k) → cron_inv w'.
Proof.
  intros [H1 H2 H3 H4] Hp Hf Hc Hh. split; rewrite ?Hf.
  - intros i k Hk Hle. destruct (H1 i k (Hh _ _ Hk) ltac:(lia)). auto.
  - intros i j k Hi Hj Hle. apply (H2 i j k); auto. lia.
  - intros k Hk Hle. apply Hc; [done|]. apply H3; [done|lia].
  - clear -H4 Hp. induction (cw_fired w) as [|k l IH]; [done|]. rewrite !filter_cons in *.
    destruct (decide (cw_pruned w ≤ k.2)) as [E|E].
    + apply list.NoDup_cons in H4 as [Hn Hl]. destruct (decide _); [|auto]. apply list.NoDup_cons. split; [|auto].
      rewrite list_elem_of_filter in *. naive_solver lia.
    + destruct (decide _); [lia|auto].
Qed.

(** The claim of a free fire. *)
Lemma fire_claim_cases o at_ x name fire t t' won :
  TryClaimCronFire o at_ x name fire t = (t', won) →
  let k := (FromContext x, name, sec fire) in
  (∀ k', is_Some (cron_claims t !! k') → is_Some (cron_claims t' !! k')) ∧
  (won = Ok true → cron_claims t !! k = None ∧ is_Some (cron_claims t' !! k)).
Proof.
  unfold TryClaimCronFire, attempt. cbv zeta. destruct (cron_claims t !! _) as [c|] eqn:E.
  - destruct o; intros [= <- <-]; done.
  - assert (Hg : ∀ k', is_Some (cron_claims t !! k') →
      is_Some (<[(FromContext x, name, sec fire) := sec at_]> (cron_claims t) !! k')).
    { intros k' ?. destruct (decide (k' = (FromContext x, name, sec fire))) as [->|];
        [by rewrite lookup_insert_eq|by rewrite lookup_insert_ne]. }
    destruct o; intros [= <- <-]; simpl; try done. split; [done|]. intros _. by rewrite lookup_insert_eq.
Qed.

Lemma cron_inv_claim w i s now fire r t :
  cron_inv w → cw_pc w !! i = Some (PClaim s now fire) → cron_claims (cw_t w) !! key_of s fire = None →
  (∀ k, has_claim w k → is_Some (cron_claims t !! k)) → is_Some (cron_claims t !! key_of s fire) →
  cron_inv (move i r (Some (PDispatch s now fire)) (upd_t t w)).
Proof.
  intros [H1 H2 H3 H4] Hpc Hn Hc Hk.
  assert (Hfree : ∀ j k, holds w j k → cw_pruned w ≤ k.2 → k ≠ key_of s fire).
  { intros j k Hj Hle ->. destruct (H1 _ _ Hj Hle) as [[? ?] _]. congruence. }
  split; simpl.
  - intros j k [[-> [= <-]]|[_ Hj]]%holds_move Hle; [split; [done|]|split].
    + intros Hin. destruct (H3 _ Hin Hle). congruence.
    + destruct (H1 _ _ Hj Hle). by apply Hc.
    + by destruct (H1 _ _ Hj Hle).
  - intros j j' k [[-> [= <-]]|[? Hj]]%holds_move [[-> Hk']|[? Hj']]%holds_move Hle; try done.
    + by destruct (Hfree _ _ Hj' Hle).
    + injection Hk' as <-. by destruct (Hfree _ _ Hj Hle).
    + by apply (H2 j j' k).
  - intros k Hin Hle. by apply Hc, H3.
  - done.
Qed.

Lemma cron_inv_fire w i s now fire r sql :
  cron_inv w → cw_pc w !! i = Some (PDispatch s now fire) →
  cron_inv (move i r None (mkCworld (cw_t w) sql (cw_rep w) (cw_pc w) (key_of s fire :: cw_fired w) (cw_pruned w))).
Proof.
  intros [H1 H2 H3 H4] Hpc.
  assert (Hi : holds w i (key_of s fire)) by by rewrite (holds_at _ _ _ _ Hpc).
  split; simpl.
  - intros j k [[_ Hx]|[Hne Hj]]%holds_move Hle; [done|]. destruct (H1 j k Hj Hle). split; [done|].
    rewrite not_elem_of_cons. split; [|done]. intros ->. by destruct Hne; apply (H2 i j (key_of s fire)).
  - intros j j' k [[_ Hx]|[_ Hj]]%holds_move [[_ Hx']|[_ Hj']]%holds_move Hle; [done..|]. by apply (H2 j j' k).
  - intros k [->|Hk]%elem_of_cons Hle; [by apply (H1 i)|by apply H3].
  - rewrite filter_cons. destruct (decide _) as [Hle|]; [|done]. apply list.NoDup_cons. split; [|done].
    rewrite list_elem_of_filter. intros [_ Hin]. by destruct (H1 _ _ Hi Hle).
Qed.

Lemma cron_inv_release w i s now fire o :
  cron_inv w → cw_pc w !! i = Some (PRelease s now fire) →
  cron_inv (move i (rep w i) None (upd_t (ReleaseCronClaim o (sched_ctx s) (CsName s) fire (cw_t w)).1 w)).
Proof.
  intros [H1 H2 H3 H4] Hpc.
  assert (Hi : holds w i (key_of s fire)) by by rewrite (holds_at _ _ _ _ Hpc).
  assert (Hc : ∀ k, k ≠ key_of s fire → has_claim w k →
    is_Some (cron_claims (ReleaseCronClaim o (sched_ctx s) (CsName s) fire (cw_t w)).1 !! k)).
  { intros k Hne. unfold ReleaseCronClaim, has_claim.
    destruct (attempt_state EDriver o (λ t : CronTables, (set_claims (delete (key_of s fire) (cron_claims t)) t, tt)) (cw_t w))
      as [E|E]; unfold key_of in *; rewrite E; [done|]. simpl. by rewrite lookup_delete_ne. }
  split; simpl.
  - intros j k [[_ Hx]|[Hne Hj]]%holds_move Hle; [done|]. destruct (H1 j k Hj Hle). split; [|done].
    apply Hc; [|done]. intros ->. by destruct Hne; apply (H2 i j (key_of s fire)).
  - intros j j' k [[_ Hx]|[_ Hj]]%holds_move [[_ Hx']|[_ Hj']]%holds_move Hle; [done..|]. by apply (H2 j j' k).
  - intros k Hk Hle. apply Hc; [|by apply H3]. intros ->. by destruct (H1 _ _ Hi Hle).
  - done.
Qed.

(** Pruning keeps the claims from its cutoff on. *)
Lemma has_claim_prune w o x cutoff k :
  sec cutoff ≤ k.2 → has_claim w k → is_Some (cron_claims (PruneCronClaims o x cutoff (cw_t w)).1 !! k).
Proof.
  intros Hle [c Hk]. unfold PruneCronClaims.
  assert (is_Some (filter (λ kc : fire_key * Z, negb ((kc.1.2 <? sec cutoff) && visible x kc.1.1.1) = true)
            (cron_claims (cw_t w)) !! k)).
  { exists c. apply map_lookup_filter_Some. split; [done|]. simpl. by rewrite (proj2 (Z.ltb_ge _ _)) by lia. }
  destruct o; simpl; eauto.
Qed.

(** A step that [cron_inv_le] covers; what is left to show is not evident. *)
Local Ltac quiet w := apply (cron_inv_le w); simpl; [done|lia|done|try by intros|try by intros].

Lemma cron_inv_step w0 w' : cron_inv w0 → cron_step w0 w' → cron_inv w'.
Proof.
  intros Hi Hs. revert Hi. destruct Hs as [w i fuel now last s r f Hpc Hc|w i o at_ s now fire t won r go Hpc Ht Hc
    |w i env s now fire sql a r rel Hpc Hd Hv|w i o s now fire Hpc|w i|w raw o now x s|w o x name|w o x cutoff|w sql]; intros Hi.
  - quiet w. intros j k [[_ Hx]|[_ ?]]%holds_move; [by destruct f|done].
  - apply fire_claim_cases in Ht as [Hm Hw]. destruct won as [[]|e]; injection Hc as <- <-.
    + destruct Hw as [Hn Hs]; [done|]. by apply cron_inv_claim.
    + quiet w; [|by intros j k [[_ Hx]|[_ ?]]%holds_move].
      intros k _. apply Hm.
    + quiet w; [|by intros j k [[_ Hx]|[_ ?]]%holds_move].
      intros k _. apply Hm.
  - unfold dispatch_visit in Hv. destruct (dispatched a) eqn:E; simpl in Hv.
    + injection Hv as <- <-. by apply (cron_inv_fire w _ _ now).
    + quiet w. intros j k [[<- Hx]|[_ ?]]%holds_move; [|done].
      destruct rel; [|done]. by rewrite (holds_at _ _ _ _ Hpc).
  - by apply (cron_inv_release w i s now).
  - quiet w. by intros j k [[_ Hx]|[_ ?]]%holds_move.
  - quiet w. unfold has_claim, UpsertCronSchedule. by destruct o.
  - quiet w. unfold has_claim, DeleteCronSchedule. by destruct o.
  - quiet w.
    intros k Hle. apply has_claim_prune. lia.
  - quiet w.
Qed.

Lemma cron_inv_init sql start : cron_inv (cron_init sql start).
Proof.
  split; simpl.
  - intros i k H. by unfold holds in H; simpl in H; rewrite lookup_empty in H.
  - intros i j k H. by unfold holds in H; simpl in H; rewrite lookup_empty in H.
  - by intros k ?%not_elem_of_nil.
  - apply NoDup_nil_2.
Qed.

Lemma cron_inv_reachable sql start w : cron_reachable sql start w → cron_inv w.
Proof.
  intros H. unfold cron_reachable in H. pose proof (cron_inv_init sql start) as Hi. induction H; eauto using cron_inv_step.
Qed.

(** C16. However the replicas' statements interleave, lose their replies or crash, no fire
    is dispatched twice, as long as its claim is not old enough to be pruned. *)
Theorem fire_dispatched_once sql start w :
  cron_reachable sql start w → NoDup (filter (λ k : fire_key, cw_pruned w ≤ k.2) (cw_fired w)).
Proof. intros H%cron_inv_reachable. apply (ci_once _ H). Qed.

(** ** The scheduler's loop takes these steps *)

(** The world as replica [i] sees it between visits. *)
Definition at_rest (i : nat) (st : cron_state) (w : cworld) : Prop :=
  cw_t w = cs_tables st ∧ cw_sql w = cs_sql st ∧ rep w i = cs_replica st ∧ cw_pc w !! i = None.

Lemma rep_move i r p w : rep (move i r p w) i = r.
Proof. unfold rep, move. simpl. by rewrite lookup_insert_eq. Qed.

Lemma pc_move i r p w : cw_pc (move i r p w) !! i = p.
Proof. unfold move. simpl. by rewrite lookup_partial_alter_eq. Qed.

(** A move of one replica leaves the others where they are. *)
Local Ltac others := intros j Hj; unfold rep; simpl; by rewrite ?lookup_insert_ne, ?lookup_partial_alter_ne by done.

(** A visit undisturbed by other replicas is a sequence of steps that records the fire
    it dispatches, so that what holds of every interleaving holds of the loop. *)
Theorem visit_steps fuel v s st st' f i w :
  visit fuel v s st = Some (st', f) → at_rest i st w →
  ∃ w', rtc cron_step w w' ∧ at_rest i st' w' ∧ cw_pruned w' = cw_pruned w ∧
    (∀ j, i ≠ j → rep w' j = rep w j ∧ cw_pc w' !! j = cw_pc w !! j) ∧
    cw_fired w' = match f with Some fire => key_of s fire :: cw_fired w | None => cw_fired w end.
Proof.
  unfold Cron.visit. intros H (Ht&Hs&Hr&Hp).
  destruct (check_visit _ _ _ _ _) as [[r [fire|]]|] eqn:Hc; [| |done].
  2: { injection H as <- <-. rewrite <- Hr in Hc. eexists. split; [apply rtc_once, (k_check w i _ _ _ _ _ _ Hp Hc)|].
       unfold at_rest. rewrite rep_move, pc_move. split_and!; [done..|others|done]. }
  rewrite <- Hr in Hc. pose proof (k_check w i _ _ _ _ _ _ Hp Hc) as S1. simpl in S1.
  destruct (TryClaimCronFire _ _ _ _ _ _) as [t won] eqn:Hw. rewrite <- Ht in Hw.
  destruct (claim_visit _ won s r) as [r' go] eqn:Hg.
  set (w1 := move i r (Some (PClaim s (vi_now v) fire)) w) in *.
  assert (S2 := k_claim w1 i (vi_claim v) (vi_now v) s (vi_now v) fire t won r' go (pc_move _ _ _ _) Hw
                  ltac:(unfold w1; by rewrite rep_move)).
  destruct go.
  2: { injection H as <- <-. eexists. split; [by eapply rtc_l; [|apply rtc_once]|].
       unfold at_rest. rewrite rep_move, pc_move. split_and!; [done..|others|done]. }
  set (w2 := move i r' (Some (PDispatch s (vi_now v) fire)) (upd_t t w1)) in *.
  destruct (dispatch _ s _) as [sql a] eqn:Hd. rewrite <- Hs in Hd.
  destruct (dispatch_visit _ a s r') as [r'' rel] eqn:Hv.
  assert (S3 := k_dispatch w2 i (vi_env v) s (vi_now v) fire sql a r'' rel (pc_move _ _ _ _) Hd
                  ltac:(unfold w2; by rewrite rep_move)).
  injection H as <- <-. destruct rel.
  - set (w3 := move i r'' (Some (PRelease s (vi_now v) fire)) _) in S3.
    assert (S4 := k_release w3 i (vi_release v) s (vi_now v) fire (pc_move _ _ _ _)).
    eexists. split; [by eapply rtc_l; [|eapply rtc_l; [|eapply rtc_l; [|apply rtc_once]]]|].
    unfold at_rest. rewrite rep_move, pc_move. unfold w3. rewrite rep_move. split_and!; [done..|others|by destruct (dispatched a)].
  - eexists. split; [by eapply rtc_l; [|eapply rtc_l; [|apply rtc_once]]|].
    unfold at_rest. rewrite rep_move, pc_move. split_and!; [done..|others|by destruct (dispatched a)].
Qed.

(** ** Claims nobody holds *)

Definition orphaned (w : cworld) (k : fire_key) : Prop :=
  has_claim w k ∧ k ∉ cw_fired w ∧ ∀ i, ¬ holds w i k.

Lemma claim_keeps o at_ x name fire t t' won :
  TryClaimCronFire o at_ x name fire t = (t', won) → is_Some (cron_claims t !! (FromContext x, name, sec fire)) →
  won ≠ Ok true.
Proof. intros [_ H]%fire_claim_cases [c Hc] Hw. destruct (H Hw). congruence. Qed.

Lemma orphaned_step w0 w' k :
  orphaned w0 k → cron_step w0 w' → cw_pruned w' ≤ k.2 → orphaned w' k.
Proof.
  intros Ho Hs. revert Ho. destruct Hs as [w i fuel now last s r f Hpc Hc|w i o at_ s now fire t won r go Hpc Ht Hc
    |w i env s now fire sql a r rel Hpc Hd Hv|w i o s now fire Hpc|w i|w raw o now x s|w o x name|w o x cutoff|w sql];
    intros (Hk&Hf&Hh) Hle.
  - split_and!; [done..|]. intros j [[_ Hx]|[_ ?]]%holds_move; [by destruct f|by eapply Hh].
  - pose proof (fire_claim_cases _ _ _ _ _ _ _ _ Ht) as [Hm Hw]. split_and!; [by apply Hm|done|].
    intros j [[_ Hx]|[_ ?]]%holds_move; [|by eapply Hh].
    destruct go; [|done]. injection Hx as <-. apply (claim_keeps _ _ _ _ _ _ _ _ Ht Hk).
    by destruct won as [[]|]; injection Hc.
  - assert (Hne : key_of s fire ≠ k) by (intros <-; apply (Hh i); by rewrite (holds_at _ _ _ _ Hpc)).
    split_and!; [done| |].
    + simpl. destruct (dispatched a); [|done]. rewrite not_elem_of_cons. done.
    + intros j [[_ Hx]|[_ ?]]%holds_move; [|by eapply Hh]. destruct rel; [|done]. by injection Hx.
  - assert (Hne : key_of s fire ≠ k) by (intros <-; apply (Hh i); by rewrite (holds_at _ _ _ _ Hpc)).
    split_and!; [|done|].
    + unfold has_claim, ReleaseCronClaim, key_of in *. destruct o; simpl; rewrite ?lookup_delete_ne; done.
    + intros j [[_ Hx]|[_ ?]]%holds_move; [done|by eapply Hh].
  - split_and!; [done..|]. intros j [[_ Hx]|[_ ?]]%holds_move; [done|by eapply Hh].
  - split_and!; [|done|done]. unfold has_claim, UpsertCronSchedule in *. by destruct o.
  - split_and!; [|done|done]. unfold has_claim, DeleteCronSchedule in *. by destruct o.
  - split_and!; [|done|done]. by apply has_claim_prune; [simpl in Hle; lia|].
  - done.
Qed.

Lemma pruned_mono w w' : rtc cron_step w w' → cw_pruned w ≤ cw_pruned w'.
Proof. induction 1 as [|w1 w2 w3 Hs _ IH]; [lia|]. destruct Hs; simpl in *; lia. Qed.

Lemma orphaned_rtc w w' k : orphaned w k → rtc cron_step w w' → cw_pruned w' ≤ k.2 → orphaned w' k.
Proof.
  intros Ho H. revert Ho. induction H as [|w1 w2 w3 Hs Hr IH]; [done|]. intros Ho Hle. apply IH; [|done].
  apply (orphaned_step w1); [done..|]. pose proof (pruned_mono _ _ Hr). lia.
Qed.

(** A claim whose reply is lost is never dispatched: the replica that made it backs off to
    retry on its next visit, where it finds its own row and gives the fire up. *)
Theorem lost_claim_loses_fire sql start w i s now fire at_ t won r go w' :
  cron_reachable sql start w → cw_pc w !! i = Some (PClaim s now fire) →
  cron_claims (cw_t w) !! key_of s fire = None →
  TryClaimCronFire RLost at_ (sched_ctx s) (CsName s) fire (cw_t w) = (t, won) →
  claim_visit now won s (rep w i) = (r, go) →
  rtc cron_step (move i r (if go then Some (PDispatch s now fire) else None) (upd_t t w)) w' →
  cw_pruned w' ≤ (key_of s fire).2 → key_of s fire ∉ cw_fired w'.
Proof.
  intros Hi%cron_inv_reachable Hpc Hn Ht Hc Hr Hle.
  assert (won = Err EDriver ∧ is_Some (cron_claims t !! key_of s fire)) as [-> Hs].
  { unfold TryClaimCronFire, attempt in Ht. fold (key_of s fire) in Ht. cbv zeta in Ht. rewrite Hn in Ht.
    injection Ht as <- <-. simpl. by rewrite lookup_insert_eq. }
  injection Hc as <- <-. pose proof (pruned_mono _ _ Hr) as Hp. simpl in Hp.
  eapply orphaned_rtc; [|exact Hr|done]. split_and!; simpl; [done| |].
  - intros Hin. destruct (ci_fired _ Hi _ Hin ltac:(simpl in *; lia)). congruence.
  - intros j [[_ Hx]|[_ Hj]]%holds_move; [done|].
    destruct (ci_held _ Hi _ _ Hj ltac:(simpl in *; lia)) as [[? ?] _]. congruence.
Qed.
End scheduler.

(** * The scheduler on a concrete deployment
    A schedule that fires every minute, served by two replicas, and one for the
    thirtieth of February.  *)

Local Open Scope string_scope.
Local Open Scope Z_scope.

(** A schedule is its period, or none when no date satisfies it. *)
Definition demo_parse (e : string) : option (option Z) :=
  if String.eqb e "* * * * *" then Some (Some (60 * second))
  else if String.eqb e "0 0 30 2 *" then Some None
  else None.

Definition every (p t : Z) : Z := (t / p + 1) * p.

Definition demo_next (s : option Z) (_ : unit) (t : Z) : Z :=
  match s with Some p => every p t | None => zero_time end.

Lemma every_ok p : 0 < p → next_ok (every p) (λ a, a mod p = 0).
Proof.
  intros Hp. unfold every. split.
  - intros t. pose proof (Z.div_mod t p ltac:(lia)). pose proof (Z.mod_pos_bound t p Hp).
    split; [nia|apply Z.mod_mul; lia].
  - intros t a Ha Hlt. pose proof (Z.div_mod a p ltac:(lia)).
    assert (t / p < a / p) by (apply Z.div_lt_upper_bound; lia). nia.
Qed.

(** Four fires were missed; the latest is picked. *)
Lemma checkSchedule_latest_witness :
  checkSchedule 43 (every 10) 5 47 = Some (Some 40) ∧ ∀ a, a mod 10 = 0 → a ≤ 47 → a ≤ 40.
Proof.
  assert (E : checkSchedule 43 (every 10) 5 47 = Some (Some 40)) by reflexivity. split; [exact E|].
  destruct (checkSchedule_latest (every 10) (λ a, a mod 10 = 0) 43 5 47 (every_ok 10 ltac:(lia)) ltac:(lia)) as (r&H&Hr).
  rewrite E in H. injection H as <-. apply Hr.
Defined.

Definition minutely : CronSchedule := mkSchedule "default" "report" "shop" "* * * * *" "" "" "" true 0 0.
Definition february : CronSchedule := mkSchedule "default" "never" "shop" "0 0 30 2 *" "" "" "" true 0 0.

Definition demo_agent (id : string) : res err (gmap string any) := Ok {[ "runner_kind" := AStr "python" ]}.

Definition demo_env : create_env :=
  mkEnv 10 "u1" false false (λ _, true) (λ a, (a, false)) (λ a _, (a, "")) demo_agent (λ _, true) (λ _, None)
    (λ _, None) (λ _, true) None 0 0 (λ t a i c, "key") (λ a b p d, (AStr a, a)) None (λ r, Build_TraceContext "" "" r)
    id (λ _, true) false (λ _, true) id id.

Notation demo_visit := (visit (λ _, Some tt) tt demo_parse demo_next (λ _, true) Z.leb (λ _ _ _, false) (λ s, Some (AStr s))).
Notation demo_visits := (visits (λ _, Some tt) tt demo_parse demo_next (λ _, true) Z.leb (λ _ _ _, false) (λ s, Some (AStr s))).

Definition at_second (n : Z) : visit_in := mkVisit (n * second) false RFine RFine demo_env.
Definition no_tables : CronTables := mkCron ∅ ∅.
Definition no_rows : SqlWorld := mkSql (mkDB ∅ ∅ ∅ ∅) [].
Notation demo_state := (@cron_state (option Z) unit).
Definition start_state : demo_state := mkCronState no_tables no_rows fresh_replica.

(** The first visit compiles the expression; no later one ends. *)
Lemma unsatisfiable_schedule_hangs_witness :
  ∃ st, demo_visits 5 (λ _, at_second 10) [february; minutely] start_state = Some (st, []) ∧
    ∀ fuel, demo_visits fuel (λ _, at_second 25) [february; minutely] st = None.
Proof.
  eexists. split; [vm_compute; reflexivity|].
  eapply unsatisfiable_schedule_hangs; [reflexivity|vm_compute; reflexivity|reflexivity|reflexivity|].
  unfold zero_time, at_second, second. simpl. lia.
Defined.

(** The states of replica 0 after compiling and after dispatching. *)
Definition after_visit (v : visit_in) (st : demo_state) : demo_state :=
  match demo_visit 5 v minutely st with Some (st, _) => st | None => st end.
Definition compiled_state : demo_state := after_visit (at_second 30) start_state.
Definition fired_state : demo_state := after_visit (at_second 61) compiled_state.
Notation demo_reachable := (cron_reachable (λ _, Some tt) tt demo_parse demo_next (λ _, true) Z.leb (λ _ _ _, false)
                              (λ s, Some (AStr s)) no_rows 0).

(** One visit of a replica, as steps of the deployment. *)
Lemma demo_step v st f i w :
  demo_visit 5 v minutely st = Some (after_visit v st, f) → demo_reachable w → at_rest i st w →
  ∃ w', demo_reachable w' ∧ at_rest i (after_visit v st) w' ∧
    (∀ j, i ≠ j → rep w' j = rep w j ∧ cw_pc w' !! j = cw_pc w !! j) ∧
    cw_fired w' = match f with Some fire => key_of minutely fire :: cw_fired w | None => cw_fired w end.
Proof.
  intros Hv Hr Ha.
  destruct (visit_steps _ _ _ _ _ _ _ _ _ _ _ _ _ _ i w Hv Ha) as (w'&H1&H2&_&H3&H4).
  exists w'. split_and!; [|done..]. unfold cron_reachable. by etrans.
Qed.

Lemma fire_dispatched_once_witness :
  ∃ w : @cworld (option Z) unit, cw_fired w = [("default", "report", 60)] ∧ NoDup (filter (λ k : string * string * Z, cw_pruned w ≤ k.2) (cw_fired w)).
Proof.
  destruct (demo_step (at_second 30) start_state None 0%nat (cron_init no_rows 0))
    as (w1&R1&(T1&S1&Q1&C1)&O1&F1); [vm_compute; reflexivity|apply rtc_refl|done|].
  destruct (O1 1%nat ltac:(done)) as [Q1' C1'].
  destruct (demo_step (at_second 30) start_state None 1%nat w1)
    as (w2&R2&(T2&S2&Q2&C2)&O2&F2); [vm_compute; reflexivity|done|by split_and!; rewrite ?T1, ?S1, ?Q1', ?C1'|].
  destruct (O2 0%nat ltac:(done)) as [Q2' C2'].
  destruct (demo_step (at_second 61) compiled_state (Some (60 * second)) 0%nat w2)
    as (w3&R3&(T3&S3&Q3&C3)&O3&F3); [vm_compute; reflexivity|done|by split_and!; rewrite ?T2, ?S2, ?Q2', ?C2'|].
  destruct (O3 1%nat ltac:(done)) as [Q3' C3'].
  destruct (demo_step (at_second 62) (mkCronState (cs_tables fired_state) (cs_sql fired_state) (cs_replica compiled_state))
              None 1%nat w3) as (w4&R4&_&_&F4);
    [vm_compute; reflexivity|done|split_and!; [exact T3|exact S3|by rewrite Q3'|by rewrite C3']|].
  exists w4. split; [by rewrite F4, F3, F2, F1|]. exact (fire_dispatched_once _ _ _ _ _ _ _ _ _ _ w4 R4).
Defined.
