(* ===== verification/LifecycleWitnesses.v ===== *)
(** * The lifecycle theorems at work on the SQL store

    One run on one thread, over the SQL store, with a broker that holds a values
    event and a terminal event of the first attempt, and finalization steps that
    succeed. *)

From S2P Require Import Prelude GoAny Transport Completion Store StoreOps StoreThreads Lifecycle StoreLifecycle.
Local Open Scope string_scope.
Local Open Scope Z_scope.

(** The requests searched here carry no metadata. *)
Definition any_json (_ : column) (_ : string) (_ : any) : bool := true.

#[local] Instance demo_store : RunStore SqlWorld := sql_store any_values Z.leb any_json.
#[local] Instance demo_store_ok : RunStoreOk SqlWorld := sql_store_laws any_values Z.leb any_json.

Definition start (db : DB) : SqlWorld := mkSql db [].

Definition steady {A} (w : SqlWorld) (_ : A) : SqlWorld * bool := (w, true).
Definition usage_ok (w : SqlWorld) (_ : Lifecycle.Run) (_ : bool) : SqlWorld * bool := (w, true).
Definition same {A} (w : SqlWorld) (_ : A) : SqlWorld := w.
Definition cache_ok (w : SqlWorld) (_ : Lifecycle.Run) (_ : gmap string any) : SqlWorld * bool := (w, true).
Definition agent_none (_ : ctx) (w : SqlWorld) (_ : string) : SqlWorld * option (gmap string any) := (w, Some ∅).

Definition values_event (g : Z) : RunEvent := mkEvent g "v1" 1 "values" [] "out" 0.
Definition done_event (g : Z) : RunEvent := mkEvent g "e2" 2 "end" [] "success" 0.
Definition replay_of (events : list RunEvent) (w : SqlWorld) (_ : string) : SqlWorld * option (list RunEvent) :=
  (w, Some events).
Definition lease_of (g : Z) (w : SqlWorld) (id : string) : SqlWorld * option (option RunAssignment) :=
  (w, Some (Some (mkAssignment id "t1" "python-langgraph" "agent" "{}" "{}" None "null" [] [] None None
                    "default" None g ""))).

(** Payloads carry their status, or stand for the object {"out": true}. *)
Definition read_terminal (data : string) : option (string * string) := Some (data, "").
Definition read_values (data : string) : option (option (gmap string any)) :=
  Some (Some {[ data := ABool true ]}).
Definition read_usage (_ : string) : option (option (gmap string any)) := None.

Definition reported0 : RunCompletion :=
  mkCompletion false None "python-langgraph" false "r1" 0 RunStatusSuccess "" None.

Lemma demo_env events g :
  env_ok usage_ok steady same cache_ok steady steady (replay_of events) (lease_of g) agent_none
    steady steady same.
Proof. constructor; intros; apply frozen_refl. Qed.

Definition demo_complete (events : list RunEvent) (w : SqlWorld) :=
  completeRunResult usage_ok steady same cache_ok steady steady (replay_of events) agent_none
    read_values read_usage background w reported0 false.

Definition demo_result := demo_complete [values_event 0] (start demo_db).

Lemma accepted_is_durable_witness :
  ∃ run, rs_run demo_result.1.1.1 "r1" = Some run ∧ completed_by reported0 run.
Proof.
  apply (accepted_is_durable usage_ok steady same cache_ok steady steady (replay_of [values_event 0])
    (lease_of 0) agent_none read_values read_usage steady steady same (demo_env [values_event 0] 0)
    background (start demo_db) reported0 false
    demo_result.1.1.1 demo_result.1.1.2 demo_result.1.2 demo_result.2).
  - intros _. reflexivity.
  - vm_compute. reflexivity.
  - vm_compute. reflexivity.
Defined.

Lemma accepted_is_finalized_witness :
  all_steps true [FMetrics; FUsage; FHold; FInflight; FCache; FClose; FFinish].
Proof.
  apply (accepted_is_finalized usage_ok steady same cache_ok steady steady (replay_of [values_event 0])
    agent_none read_values read_usage background (start demo_db) reported0 false
    demo_result.1.1.1 demo_result.1.1.2 [FMetrics; FUsage; FHold; FInflight; FCache; FClose; FFinish]).
  - vm_compute. reflexivity.
  - vm_compute. reflexivity.
Defined.

Lemma attempt_keeps_delivered_outcome_witness :
  ∃ w1 run, rs_GetRun (SystemContext background) (start demo_db) "r1" = (w1, Some run) ∧
            TerminalRunStatus (RunStatus run) = false.
Proof.
  destruct (attempt_keeps_delivered_outcome usage_ok steady same cache_ok steady steady (replay_of [])
    agent_none read_terminal read_values read_usage background (start demo_db) "r1" 1
    (BeginRunAttempt usage_ok steady same cache_ok steady steady (replay_of [])
       agent_none read_terminal read_values read_usage background (start demo_db) "r1" 1).1)
    as (w1&run&H1&H2&_).
  - vm_compute. reflexivity.
  - exists w1, run. split; assumption.
Defined.

Definition reaped :=
  CompleteReclaimedRun usage_ok steady same cache_ok steady steady (replay_of [done_event 0]) (lease_of 0)
    agent_none read_terminal read_values read_usage background (start demo_db) (mkPill "r1" 1 "agent" "default") "dead".

Lemma reclaimed_run_is_terminal_witness :
  ∃ run, rs_run reaped.1.1 "r1" = Some run ∧ TerminalRunStatus (RunStatus run) = true.
Proof.
  destruct (reclaimed_run_is_terminal usage_ok steady same cache_ok steady steady (replay_of [done_event 0])
    (lease_of 0) agent_none read_terminal read_values read_usage steady steady same (demo_env [done_event 0] 0)
    background (start demo_db) (mkPill "r1" 1 "agent" "default") "dead" reaped.1.1 reaped.2) as [_ H].
  - vm_compute. reflexivity.
  - exact H.
Defined.

Definition finished : SqlWorld := demo_result.1.1.1.

Lemma outcome_is_final_witness :
  rs_run (foldl (lstep usage_ok steady same cache_ok steady steady (replay_of [values_event 0]) (lease_of 0)
            agent_none read_terminal read_values read_usage steady steady same) finished
            [LBegin background "r1" 7; LTimeout background [("r1", false)]]) "r1" = rs_run finished "r1".
Proof.
  destruct (rs_run finished "r1") as [run|] eqn:E; [|vm_compute in E; discriminate E].
  apply (outcome_is_final usage_ok steady same cache_ok steady steady (replay_of [values_event 0]) (lease_of 0)
    agent_none read_terminal read_values read_usage steady steady same (demo_env [values_event 0] 0)).
  - exact E.
  - vm_compute in E. injection E as <-. vm_compute. reflexivity.
Defined.

(** * Cancellation at work on the SQL store
    A delegation tree of three runs, r1 -> c1 -> g1, beside an unrelated run, over
    the SQL store; and what a listing that the driver cut short does to the
    cascade.  *)

From S2P Require Import StoreSearch Cancel.
Local Open Scope string_scope.
Local Open Scope list_scope.
Local Open Scope Z_scope.

#[local] Instance tree_store : RunStore SqlWorld := sql_store any_values Z.leb any_json.
#[local] Instance tree_store_ok : RunStoreOk SqlWorld := sql_store_laws any_values Z.leb any_json.
#[local] Instance tree_completer : Completer SqlWorld :=
  lifecycle_completer usage_ok steady same cache_ok steady steady (replay_of []) agent_none read_values read_usage.
#[local] Instance tree_completer_ok : CompleterOk SqlWorld :=
  lifecycle_completer_ok usage_ok steady same cache_ok steady steady (replay_of []) (lease_of 0)
    agent_none read_values read_usage steady steady (demo_env [] 0).

Definition tree_run (parent root : option string) (depth created : Z) : run_row :=
  mkRun "default" "t1" "agent" RunStatusPending ColNull ColEmpty "" created created
    (mkSpec "" "" parent root depth).

Definition tree_db : DB :=
  mkDB {[ "r1" := tree_run None None 0 0; "c1" := tree_run (Some "r1") (Some "r1") 1 1;
          "g1" := tree_run (Some "c1") (Some "r1") 2 2; "u1" := tree_run None None 0 3 ]}
       {[ "t1" := demo_thread ]} ∅ ∅.

Definition quick (_ : SqlWorld) (_ : string) : bool := false.

Definition r1 : Lifecycle.Run := row_run (tree_run None None 0 0).

Lemma steady_frozen w (id : string) : frozen w (steady w id).1.
Proof. apply frozen_refl. Qed.

Lemma tree_lineage : lineage_ok (start tree_db).
Proof.
  intros d r p pr Hd Hp Hpr. simpl in Hd, Hpr.
  apply fmap_Some in Hd as (row&Hd&->), Hpr as (prow&Hpr&->). simpl in Hp.
  unfold tree_db in Hd, Hpr. simpl in Hd, Hpr.
  repeat (apply lookup_insert_Some in Hd as [[<- <-]|[_ Hd]] || apply lookup_singleton_Some in Hd as [<- <-]);
    try discriminate Hp; injection Hp as <-; vm_compute in Hpr; injection Hpr as <-; split; reflexivity.
Qed.

Definition cancelled := cancelRunSingle steady steady steady quick background (start tree_db) ("r1", r1) false.

Lemma lease_released_after_commit_witness :
  ∃ wa, (AQueueCancel, wa) ∈ cancelled.1.2 ∧ interrupted wa "r1".
Proof.
  destruct (lease_released_after_commit steady steady steady quick steady_frozen steady_frozen steady_frozen
    background (start tree_db) "r1" r1 false cancelled.1.1 cancelled.1.2 cancelled.2) as [H _].
  - unfold cancelled. destruct (cancelRunSingle _ _ _ _ _ _ _ _) as [[? ?] ?]. reflexivity.
  - assert (Hin : (AQueueCancel, default (start tree_db) (snd <$> head cancelled.1.2)) ∈ cancelled.1.2)
      by (vm_compute; left).
    eexists. split; [exact Hin|exact (H _ _ Hin)].
Defined.

Lemma cancel_settles_run_witness : ∃ row, rs_run cancelled.1.1 "r1" = Some row ∧ settled row.
Proof.
  apply (cancel_settles_run steady steady steady quick steady_frozen steady_frozen steady_frozen
    background (start tree_db) "r1" r1 false cancelled.1.1 cancelled.1.2
    (default None cancelled.2)).
  - vm_compute. reflexivity.
  - vm_compute. reflexivity.
Defined.

Definition listing : list node :=
  [("g1", row_run (tree_run (Some "c1") (Some "r1") 2 2)); ("c1", row_run (tree_run (Some "r1") (Some "r1") 1 1))].


Definition swept :=
  cascadeCancelDescendants steady steady steady quick 2 background (start tree_db) ("r1", r1).

Lemma cascade_settles_witness :
  ∃ wd row, rs_run wd "g1" = Some row ∧ settled row.
Proof.
  destruct (cascade_settles steady steady steady quick steady_frozen steady_frozen steady_frozen
    2 background (start tree_db) ("r1", r1) (default (start tree_db) (fst <$> swept)) (default [] (snd <$> swept))
    ("g1", row_run (tree_run (Some "c1") (Some "r1") 2 2))) as (wd&row&Hr&Hs&_).
  - vm_compute. reflexivity.
  - vm_compute. right. left.
  - by exists wd, row.
Defined.

(** ** A listing cut short *)

(** The query succeeds and reading its first row fails. *)
Definition cut : weather := mkWeather (λ n, Nat.eqb n 1) CommitOk 0.

Definition cut_world : SqlWorld := mkSql tree_db [cut].

(** A driver error while the rows of the tree listing are read is not seen
    by the search: it returns a shorter list and no error, and the cascade of a
    cancelled run then leaves delegated runs pending without reporting
    anything. *)
Theorem cut_listing_leaves_descendants :
  ∃ w', cascadeCancelDescendants steady steady steady quick 2 background cut_world ("r1", r1) = Some (w', []) ∧
    descendant cut_world "r1" "c1" ∧
    RunStatus <$> rs_run w' "c1" = Some RunStatusPending.
Proof.
  eexists. split; [vm_compute; reflexivity|]. split; [|vm_compute; reflexivity].
  eapply desc_child; vm_compute; reflexivity.
Qed.
