(* ===== verification/Usage.v ===== *)
(** * Usage accounting and reservations

    Models [internal/state/sqlite/usage.go] and [holds.go] (the tables
    [usage_events] and [usage_holds]), the terminal ingest and the holds of
    [internal/api/usage.go], the hold sweep of [cmd/serve.go] and
    [internal/api/budget_kill.go].  A table is the list of its rows in insertion
    order, an upsert rewrites the row in place; timestamps are instants.

    SQLite's sum of REAL values is an argument ([sum_real]); the JSON decoder of
    a run's output is an argument ([decode_usage]). *)

From Stdlib Require Import Ascii String.
From S2P Require Import Prelude GoStrings GoAny Predicates Completion Store StoreOps FinOps Admission Lifecycle Cancel.
Local Open Scope string_scope.
Local Open Scope Z_scope.
Local Open Scope list_scope.

(** ** The tables *)

Record UsageEvent := mkUsageEvent {
  UE_ID : string;
  UE_TS : Z;
  UE_Tenant : string;
  UE_Run : string;
  UE_Agent : string;
  UE_Principal : string;
  UE_Model : string;
  UE_TokensIn : Z;
  UE_TokensOut : Z;
  UE_USD : float64;
  UE_Source : string
}.

Record UsageHold := mkHold {
  H_Run : string;
  H_Tenant : string;
  H_Agent : string;
  H_USD : float64;
  H_Tokens : Z;
  H_Created : Z
}.

Record UsageTables := mkTables {
  usage_events : list UsageEvent;
  usage_holds : list UsageHold
}.

Definition UsageSourceTerminalOutput : string := "terminal_output".

(** How a statement turns out: executed and answered, executed with its reply
    lost, or not executed. *)
Notation statement := reply.

Definition ran (o : statement) : bool := match o with RDown => false | _ => true end.
Definition answered (o : statement) : bool := match o with RFine => true | _ => false end.

Definition same_key (a b : UsageEvent) : bool := String.eqb (UE_Run a) (UE_Run b) && String.eqb (UE_Source a) (UE_Source b).

(** [ON CONFLICT(run_id, source) DO UPDATE]: every column but the id, the run and
    the source. *)
Definition overwrite (old new : UsageEvent) : UsageEvent :=
  mkUsageEvent (UE_ID old) (UE_TS new) (UE_Tenant new) (UE_Run old) (UE_Agent new) (UE_Principal new) (UE_Model new)
    (UE_TokensIn new) (UE_TokensOut new) (UE_USD new) (UE_Source old).

(** [None]: the primary key is taken by a row of another run or source. *)
Definition upsert_event (ev : UsageEvent) (l : list UsageEvent) : option (list UsageEvent) :=
  if existsb (same_key ev) l then Some (map (λ r, if same_key ev r then overwrite r ev else r) l)
  else if existsb (λ r, String.eqb (UE_ID r) (UE_ID ev)) l then None
  else Some (l ++ [ev]).

(** [true]: no error; [ctxTenant] is the caller's tenant and [now] its clock. *)
Definition WriteUsageEvent (ok : statement) (ctxTenant : string) (now : Z) (ev : UsageEvent) (t : UsageTables)
  : UsageTables * bool :=
  let row := mkUsageEvent (UE_ID ev) (if UE_TS ev =? 0 then now else UE_TS ev)
               (if String.eqb (UE_Tenant ev) "" then ctxTenant else UE_Tenant ev) (UE_Run ev) (UE_Agent ev) (UE_Principal ev)
               (UE_Model ev) (UE_TokensIn ev) (UE_TokensOut ev) (UE_USD ev)
               (if String.eqb (UE_Source ev) "" then UsageSourceTerminalOutput else UE_Source ev) in
  if negb (ran ok) then (t, false)
  else match upsert_event row (usage_events t) with
       | Some l => (mkTables l (usage_holds t), answered ok)
       | None => (t, false)
       end.

Definition in_scope (tenantID agentID : string) (since until : Z) (tenant agent : string) (ts : Z) : bool :=
  String.eqb tenant tenantID && (since <=? ts) && (ts <? until) && (String.eqb agentID "" || String.eqb agent agentID).

Definition event_in (tenantID agentID : string) (since until : Z) (r : UsageEvent) : bool :=
  in_scope tenantID agentID since until (UE_Tenant r) (UE_Agent r) (UE_TS r).
Definition hold_in (tenantID agentID : string) (since until : Z) (h : UsageHold) : bool :=
  in_scope tenantID agentID since until (H_Tenant h) (H_Agent h) (H_Created h).

Definition sum {A} (f : A → Z) (l : list A) : Z := foldr (λ x acc, f x + acc) 0 l.

Section sums.
Variable sum_real : list float64 → float64.

Definition SumUsage (t : UsageTables) (tenantID agentID : string) (since until : Z) : Z * Z * float64 :=
  let rows := List.filter (event_in tenantID agentID since until) (usage_events t) in
  (sum UE_TokensIn rows, sum UE_TokensOut rows, sum_real (map UE_USD rows)).

(** [ctxTenant] when no tenant is given. *)
Definition SumUsageHolds (ctxTenant : string) (t : UsageTables) (tenantID agentID : string) (since until : Z)
  : float64 * Z * Z :=
  let tenantID := if String.eqb tenantID "" then ctxTenant else tenantID in
  let rows := List.filter (hold_in tenantID agentID since until) (usage_holds t) in
  (sum_real (map H_USD rows), sum H_Tokens rows, Z.of_nat (length rows)).
End sums.

Definition upsert_hold (h : UsageHold) (l : list UsageHold) : list UsageHold :=
  if existsb (λ r, String.eqb (H_Run r) (H_Run h)) l then map (λ r, if String.eqb (H_Run r) (H_Run h) then h else r) l
  else l ++ [h].

Definition UpsertUsageHold (ok : statement) (ctxTenant : string) (now : Z) (h : UsageHold) (t : UsageTables)
  : UsageTables * bool :=
  if String.eqb (H_Run h) "" then (t, true)
  else
    let row := mkHold (H_Run h) (if String.eqb (H_Tenant h) "" then ctxTenant else H_Tenant h) (H_Agent h) (H_USD h) (H_Tokens h)
                 (if H_Created h =? 0 then now else H_Created h) in
    if negb (ran ok) then (t, false)
    else (mkTables (usage_events t) (upsert_hold row (usage_holds t)), answered ok).

Definition ReleaseUsageHold (ok : statement) (runID : string) (t : UsageTables) : UsageTables * bool :=
  if String.eqb runID "" then (t, true)
  else if negb (ran ok) then (t, false)
  else (mkTables (usage_events t) (List.filter (λ h, negb (String.eqb (H_Run h) runID)) (usage_holds t)), answered ok).

(** The rows deleted, or [None] for an error. *)
Definition ExpireUsageHolds (ok : statement) (olderThan : Z) (t : UsageTables) : UsageTables * option Z :=
  if olderThan =? 0 then (t, Some 0)
  else if negb (ran ok) then (t, None)
  else
    (mkTables (usage_events t) (List.filter (λ h, negb (H_Created h <? olderThan)) (usage_holds t)),
     if answered ok then Some (Z.of_nat (length (List.filter (λ h, H_Created h <? olderThan) (usage_holds t)))) else None).

(** A tick of [runUsageHoldTTLSweep]. *)
Definition hold_sweep (ok : statement) (ttl now : Z) (t : UsageTables) : UsageTables :=
  if ttl <=? 0 then t else (ExpireUsageHolds ok (now - ttl) t).1.

(** ** Terminal ingest *)

Record RunUsage := mkRunUsage {
  PromptTokens : Z;
  CompletionTokens : Z;
  TotalTokens : Z;
  CostUSD : float64;
  Unmetered : bool
}.

Inductive usage_alert := AUnpriced (model : string) | AUnmetered (model : string).

(** A run as the ingest reads it: its id, its last update, the row. *)
Record ended_run := mkEnded { R_ID : string; R_UpdatedAt : Z; R_Row : Lifecycle.Run }.

Section ingest.
Variable decode_usage : column → option (RunUsage * string).
Variable FinOps : option Config.
(** What the store implements. *)
Variable has_usage has_holds : bool.

Definition extractRunUsageWithModel (output : column) : RunUsage * string :=
  match output with
  | ColEmpty => (mkRunUsage 0 0 0 f64_zero false, "")
  | _ =>
      match decode_usage output with
      | None => (mkRunUsage 0 0 0 f64_zero false, "")
      | Some (u, model) =>
          (if (TotalTokens u =? 0) && ((0 <? PromptTokens u) || (0 <? CompletionTokens u))
           then mkRunUsage (PromptTokens u) (CompletionTokens u) (wrap64 (PromptTokens u + CompletionTokens u)) (CostUSD u) (Unmetered u)
           else u, model)
      end
  end.

Definition cache_hit (m : gmap string any) : bool := match m !! "cache_hit" with Some (ABool true) => true | _ => false end.

(** The row the ingest writes, when the run is billed. *)
Definition bill (run : ended_run) : option UsageEvent :=
  let r := R_Row run in
  match RunOutput r with
  | ColEmpty => None
  | out =>
      if RunIsSimulation (RunMetadata r) then None
      else if cache_hit (RunMetadata r) then None
      else if negb (TerminalRunStatus (RunStatus r)) then None
      else if negb has_usage then None
      else
        let (usage, model) := extractRunUsageWithModel out in
        if (PromptTokens usage =? 0) && (CompletionTokens usage =? 0) && f64_eq (CostUSD usage) f64_zero && negb (Unmetered usage)
        then None
        else
          let pb := match FinOps with Some c => Prices c | None => ∅ end in
          Some (mkUsageEvent ("usage-" +:+ R_ID run) (R_UpdatedAt run) (RunTenant r) (R_ID run) (RunAgent r) "" model
                  (PromptTokens usage) (CompletionTokens usage)
                  (EstimateUSD pb model (PromptTokens usage) (CompletionTokens usage) (CostUSD usage)) UsageSourceTerminalOutput)
  end.

Definition usage_alerts (run : ended_run) : list usage_alert :=
  let (usage, model) := extractRunUsageWithModel (RunOutput (R_Row run)) in
  let pb := match FinOps with Some c => Prices c | None => ∅ end in
  (if f64_eq (CostUSD usage) f64_zero && ((0 <? PromptTokens usage) || (0 <? CompletionTokens usage)) &&
      negb (size pb =? 0)%nat && negb (HasModel pb model) then [AUnpriced model] else []) ++
  (if Unmetered usage then [AUnmetered model] else []).

(** [true]: no error. *)
Definition persistTerminalUsage (ok : statement) (ctxTenant : string) (now : Z) (run : ended_run) (alerts : bool) (t : UsageTables)
  : UsageTables * list usage_alert * bool :=
  match bill run with
  | None => (t, [], true)
  | Some ev =>
      let (t, done) := WriteUsageEvent ok ctxTenant now ev t in
      (t, if alerts then usage_alerts run else [], done)
  end.

(** ** Holds *)

Definition placeUsageHold (ok : statement) (ctxTenant : string) (now : Z) (id : string) (run : Lifecycle.Run) (t : UsageTables)
  : UsageTables :=
  if negb (ReservationEnabled FinOps) then t
  else if RunIsSimulation (RunMetadata run) then t
  else if negb has_holds then t
  else
    let (usd, tokens) := ReservationFor FinOps (RunTenant run) (RunAgent run) in
    if negb (positive usd) && (tokens <=? 0) then t
    else (UpsertUsageHold ok ctxTenant now (mkHold id (RunTenant run) (RunAgent run) usd tokens now) t).1.

Definition releaseUsageHold (ok : statement) (runID : string) (t : UsageTables) : UsageTables * bool :=
  if negb has_holds then (t, true) else ReleaseUsageHold ok runID t.

(** ** The usage steps of [finalizeCommittedRun], each failing or not *)

Definition finalize_usage (ok1 ok2 : statement) (ctxTenant : string) (now : Z) (run : ended_run) (applied : bool) (t : UsageTables)
  : UsageTables * bool :=
  match persistTerminalUsage ok1 ctxTenant now run applied t with
  | (t, _, false) => (t, false)
  | (t, _, true) => releaseUsageHold ok2 (R_ID run) t
  end.

(** ** A hard breach cancels what is in flight *)

Variable sum_real : list float64 → float64.
Variable CountRunsSince : string → string → Z → res err Z.

(** The snapshot of a tenant, or of one of its agents, in a window. *)
Definition usage_of (t : UsageTables) (tn ag : string) (since until : Z) : res err (Z * Z * float64) :=
  Ok (SumUsage sum_real t tn ag since until).
Definition holds_of (ctxTenant : string) (t : UsageTables) (tn ag : string) (since until : Z) : res err (float64 * Z) :=
  let '(usd, tokens, _) := SumUsageHolds sum_real ctxTenant t tn ag since until in Ok (usd, tokens).

Definition snapshot (strict : bool) (ctxTenant : string) (t : UsageTables) (tn ag : string) (since until : Z) : res err UsageSnapshot :=
  load_snapshot (usage_of t) CountRunsSince (if has_holds then Some (holds_of ctxTenant t) else None) strict tn ag since until.

Fixpoint hard_scope (ctxTenant : string) (t : UsageTables) (tn : string) (since until : Z) (caps : list (BudgetCap * string * string))
  : option string :=
  match caps with
  | [] => None
  | (cap, agent, scope) :: rest =>
      match snapshot false ctxTenant t tn agent since until with
      | Err _ => hard_scope ctxTenant t tn since until rest
      | Ok snap =>
          if VHard (EvaluateCap (Some cap) snap scope) then Some (if String.eqb scope "agent" then agent else "")
          else hard_scope ctxTenant t tn since until rest
      end
  end.

(** The agent whose runs are drained (empty: the whole tenant). *)
Definition maybeCancelInflightAfterTerminal (ctxTenant : string) (now : Z) (run : Lifecycle.Run) (t : UsageTables) : option string :=
  if negb (CancelInflightOnHardBreach FinOps) || negb (FinOps.Enabled FinOps) || negb has_usage then None
  else
    let (since, until) := UTCDayWindow now in
    hard_scope ctxTenant t (RunTenant run) since until (scopes FinOps (RunTenant run) (RunAgent run)).

Definition budgetKillScope (agentID : string) : string := if String.eqb agentID "" then "tenant" else "agent".

(** Whether [cancelInflightForBudget] drains, and the scope it records. *)
Definition cancelInflightForBudget (tenantID agentID : string) : option string :=
  if negb (CancelInflightOnHardBreach FinOps) || String.eqb tenantID "" then None else Some (budgetKillScope agentID).

(** ** Histories

    What replicas do to the tables, in any order and any number of times. *)

Inductive uop :=
| UFinalize (ok1 ok2 : statement) (ctxTenant : string) (now : Z) (run : ended_run) (applied : bool)
| UPlace (ok : statement) (ctxTenant : string) (now : Z) (id : string) (run : Lifecycle.Run)
| URelease (ok : statement) (id : string)            (* [finishRun] *)
| USweep (ok : statement) (ttl now : Z).

Definition ustep (t : UsageTables) (o : uop) : UsageTables :=
  match o with
  | UFinalize ok1 ok2 tn now run applied => (finalize_usage ok1 ok2 tn now run applied t).1
  | UPlace ok tn now id run => placeUsageHold ok tn now id run t
  | URelease ok id => (releaseUsageHold ok id t).1
  | USweep ok ttl now => hold_sweep ok ttl now t
  end.

Definition uhistory (l : list uop) : UsageTables := foldl ustep (mkTables [] []) l.
End ingest.

(** * Usage accounting: billed once, reserved until billed
    Theorems on [Usage]: however often and wherever a run's finalization is
    retried, the ledger holds one row per run; a run that reserved budget is
    covered by its hold or its bill at every point of its finalization; and a run
    that is admitted found its tenant's bills and holds together below the cap.  *)

Local Open Scope string_scope.
Local Open Scope Z_scope.
Local Open Scope list_scope.

(** ** The tables *)

Lemma existsb_key ev l : existsb (same_key ev) l = true ↔ ∃ r, r ∈ l ∧ UE_Run r = UE_Run ev ∧ UE_Source r = UE_Source ev.
Proof.
  rewrite existsb_exists. unfold same_key. split; intros (r&Hr&H); exists r; rewrite list_elem_of_In in *.
  - apply andb_true_iff in H as [->%String.eqb_eq ->%String.eqb_eq]. done.
  - destruct H as [-> ->]. by rewrite !String.eqb_refl.
Qed.

Lemma existsb_run run (l : list UsageHold) : existsb (λ r, String.eqb (H_Run r) run) l = true ↔ run ∈ map H_Run l.
Proof.
  rewrite existsb_exists, list_elem_of_In, in_map_iff. split; intros (r&H1&H2); exists r.
  - by apply String.eqb_eq in H2.
  - subst. by rewrite String.eqb_refl.
Qed.

Lemma upsert_hold_runs h l : NoDup (map H_Run l) →
  NoDup (map H_Run (upsert_hold h l)) ∧ ∀ h', h' ∈ upsert_hold h l ↔ h' = h ∨ (h' ∈ l ∧ H_Run h' ≠ H_Run h).
Proof.
  intros Hnd. unfold upsert_hold. destruct (existsb _ l) eqn:E.
  - apply existsb_run in E. split.
    + replace (map H_Run (map _ l)) with (map H_Run l); [done|]. rewrite map_map. apply map_ext. intros r.
      by destruct (String.eqb_spec (H_Run r) (H_Run h)).
    + intros h'. rewrite list_elem_of_In, in_map_iff. split.
      * intros (r&<-&Hr). apply list_elem_of_In in Hr. destruct (String.eqb_spec (H_Run r) (H_Run h)); [by left|right]. done.
      * intros [->|[Hr Hne]]; [|exists h'; rewrite <- list_elem_of_In,  (proj2 (String.eqb_neq _ _) Hne); done].
        apply list_elem_of_In, in_map_iff in E as (r&Hr&Hin). exists r. rewrite (proj2 (String.eqb_eq _ _) Hr). done.
  - apply not_true_iff_false in E. rewrite existsb_run in E. split.
    + rewrite map_app. apply list.NoDup_app. split; [done|]. split; [set_solver|apply NoDup_singleton].
    + intros h'. rewrite elem_of_app, list_elem_of_singleton. split; [|tauto]. intros [Hin|]; [right|tauto]. split; [done|].
      intros Heq. apply E. rewrite <- Heq. apply list_elem_of_In, in_map, list_elem_of_In. done.
Qed.

Definition ledger_ok (l : list UsageEvent) : Prop :=
  NoDup (map UE_Run l) ∧ ∀ r, r ∈ l → UE_ID r = "usage-" +:+ UE_Run r ∧ UE_Source r = UsageSourceTerminalOutput.

(** Writing a terminal row replaces the run's row or adds one; nothing else moves. *)
Lemma upsert_event_runs ev l : ledger_ok l → UE_ID ev = "usage-" +:+ UE_Run ev → UE_Source ev = UsageSourceTerminalOutput →
  ∃ l', upsert_event ev l = Some l' ∧ ledger_ok l' ∧ ∀ r, r ∈ l' ↔ r = ev ∨ (r ∈ l ∧ UE_Run r ≠ UE_Run ev).
Proof.
  intros [Hnd Hl] Hid Hsrc. unfold upsert_event.
  assert (Hsame : ∀ r, r ∈ l → same_key ev r = true ↔ UE_Run r = UE_Run ev).
  { intros r Hr. unfold same_key. destruct (Hl r Hr) as [_ ->]. rewrite Hsrc, String.eqb_refl, andb_true_r.
    rewrite String.eqb_eq. split; congruence. }
  assert (Hover : ∀ r, r ∈ l → UE_Run r = UE_Run ev → overwrite r ev = ev).
  { intros r Hr Heq. destruct (Hl r Hr) as [Hi Hs]. unfold overwrite. rewrite Heq, Hi, Hs, Heq, <- Hid, <- Hsrc. by destruct ev. }
  assert (Hfin : ∀ l', NoDup (map UE_Run l') → (∀ r, r ∈ l' ↔ r = ev ∨ (r ∈ l ∧ UE_Run r ≠ UE_Run ev)) → ledger_ok l').
  { intros l' Hn Hm. split; [done|]. intros r [->|[Hr _]]%Hm; [done|by apply Hl]. }
  destruct (existsb (same_key ev) l) eqn:E.
  - eexists. split; [done|].
    assert (Hm : ∀ r, r ∈ map (λ r, if same_key ev r then overwrite r ev else r) l ↔ r = ev ∨ (r ∈ l ∧ UE_Run r ≠ UE_Run ev)).
    { intros r. rewrite list_elem_of_In, in_map_iff. split.
      - intros (x&<-&Hx%list_elem_of_In). destruct (same_key ev x) eqn:Ek.
        + left. apply Hover; [done|]. by apply Hsame.
        + right. split; [done|]. intros H%Hsame; [congruence|done].
      - intros [->|[Hr Hne]].
        + apply existsb_key in E as (x&Hx&Hrun&_). exists x. rewrite <- list_elem_of_In.
          rewrite (proj2 (Hsame x Hx) Hrun). split; [by apply Hover|done].
        + exists r. rewrite <- list_elem_of_In. split; [|done]. destruct (same_key ev r) eqn:Ek; [|done]. by apply Hsame in Ek. }
    split; [|done]. apply Hfin; [|done]. replace (map UE_Run _) with (map UE_Run l); [done|]. rewrite map_map.
    apply map_ext_in. intros r Hr%list_elem_of_In. by destruct (same_key ev r).
  - apply not_true_iff_false in E. assert (Hnone : UE_Run ev ∉ map UE_Run l).
    { intros (r&Hrun&Hr)%list_elem_of_In%in_map_iff. apply E, existsb_key. exists r. rewrite list_elem_of_In.
      destruct (Hl r) as [_ Hs]; [by apply list_elem_of_In|]. rewrite Hs, Hsrc. done. }
    destruct (existsb (λ r, String.eqb (UE_ID r) (UE_ID ev)) l) eqn:Ei.
    + apply existsb_exists in Ei as (r&Hr&Hi%String.eqb_eq). destruct (Hl r) as [Hri _]; [by apply list_elem_of_In|].
      destruct Hnone. rewrite Hri, Hid in Hi. apply str_app_inj_l in Hi. rewrite <- Hi. by apply list_elem_of_In, in_map.
    + eexists. split; [done|]. assert (Hm : ∀ r, r ∈ l ++ [ev] ↔ r = ev ∨ (r ∈ l ∧ UE_Run r ≠ UE_Run ev)).
      { intros r. rewrite elem_of_app, list_elem_of_singleton. split; [|tauto]. intros [Hr|]; [right|tauto]. split; [done|].
        intros Heq. apply Hnone. rewrite <- Heq. by apply list_elem_of_In, in_map, list_elem_of_In. }
      split; [|done]. apply Hfin; [|done]. rewrite map_app. apply list.NoDup_app. split; [done|]. split; [set_solver|apply NoDup_singleton].
Qed.

Section ingest.
Variable decode_usage : column → option (RunUsage * string).
Variable FinOps : option Config.
Variable has_usage has_holds : bool.

Notation bill_of := (bill decode_usage FinOps has_usage).
Notation finalize_of := (finalize_usage decode_usage FinOps has_usage has_holds).
Notation step_of := (ustep decode_usage FinOps has_usage has_holds).
Notation history_of := (uhistory decode_usage FinOps has_usage has_holds).

Lemma bill_shape run ev : bill_of run = Some ev →
  UE_ID ev = "usage-" +:+ UE_Run ev ∧ UE_Source ev = UsageSourceTerminalOutput ∧ UE_Run ev = R_ID run ∧ has_usage = true ∧
  TerminalRunStatus (RunStatus (R_Row run)) = true ∧ RunIsSimulation (RunMetadata (R_Row run)) = false ∧
  cache_hit (RunMetadata (R_Row run)) = false.
Proof.
  unfold bill. destruct (RunOutput (R_Row run)) as [| | |m]; [done|..];
    (destruct (RunIsSimulation _); [done|]; destruct (cache_hit _); [done|]; destruct (TerminalRunStatus _); [|done];
     destruct has_usage; [|done]; cbv zeta; destruct (extractRunUsageWithModel _ _) as [u model];
     destruct (_ && _); [done|]; by intros [= <-]).
Qed.

(** The row that a bill becomes. *)
Definition row_of (ctxTenant : string) (now : Z) (ev : UsageEvent) : UsageEvent :=
  mkUsageEvent (UE_ID ev) (if UE_TS ev =? 0 then now else UE_TS ev)
    (if String.eqb (UE_Tenant ev) "" then ctxTenant else UE_Tenant ev) (UE_Run ev) (UE_Agent ev) (UE_Principal ev)
    (UE_Model ev) (UE_TokensIn ev) (UE_TokensOut ev) (UE_USD ev) UsageSourceTerminalOutput.

Lemma write_bill ok tn now run ev t : ledger_ok (usage_events t) → bill_of run = Some ev →
  ∃ t', WriteUsageEvent ok tn now ev t = (t', answered ok) ∧ usage_holds t' = usage_holds t ∧ ledger_ok (usage_events t') ∧
    (ran ok = false → t' = t) ∧
    (ran ok = true → ∀ r, r ∈ usage_events t' ↔ r = row_of tn now ev ∨ (r ∈ usage_events t ∧ UE_Run r ≠ R_ID run)).
Proof.
  intros Hl Hb. destruct (bill_shape _ _ Hb) as (Hid&Hsrc&Hrun&_). unfold WriteUsageEvent. rewrite Hsrc. simpl.
  fold (row_of tn now ev). destruct (ran ok) eqn:Hran; simpl; [|exists t; by destruct ok].
  destruct (upsert_event_runs (row_of tn now ev) (usage_events t)) as (l'&->&Hl'&Hm); [done|done|done|].
  exists (mkTables l' (usage_holds t)). split; [done|]. split; [done|]. split; [done|]. split; [done|].
  intros _ r. rewrite Hm. simpl. by rewrite Hrun.
Qed.

(** What one finalization does: the ledger and the hold of its run. *)
Lemma finalize_effect ok1 ok2 tn now run applied t t' done : ledger_ok (usage_events t) →
  finalize_of ok1 ok2 tn now run applied t = (t', done) →
  ledger_ok (usage_events t') ∧
  match bill_of run with
  | None => usage_events t' = usage_events t
  | Some ev => if ran ok1 then ∀ r, r ∈ usage_events t' ↔ r = row_of tn now ev ∨ (r ∈ usage_events t ∧ UE_Run r ≠ R_ID run)
               else t' = t
  end ∧
  (done = true → bill_of run = None ∨ ran ok1 = true) ∧
  (usage_holds t' = usage_holds t ∨
   usage_holds t' = List.filter (λ h, negb (String.eqb (H_Run h) (R_ID run))) (usage_holds t) ∧ (bill_of run = None ∨ ran ok1 = true)).
Proof.
  intros Hl. unfold finalize_usage, persistTerminalUsage.
  assert (Hrel : ∀ t1 t2 d, releaseUsageHold has_holds ok2 (R_ID run) t1 = (t2, d) → usage_events t2 = usage_events t1 ∧
    (usage_holds t2 = usage_holds t1 ∨ usage_holds t2 = List.filter (λ h, negb (String.eqb (H_Run h) (R_ID run))) (usage_holds t1))).
  { intros t1 t2 d. unfold releaseUsageHold, ReleaseUsageHold. destruct (negb has_holds); [intros [= <- _]; auto|].
    destruct (String.eqb _ _); [intros [= <- _]; auto|]. destruct (negb (ran ok2)); intros [= <- _]; simpl; auto. }
  destruct (bill_of run) as [ev|] eqn:Hb.
  - destruct (write_bill ok1 tn now run ev t Hl Hb) as (t1&->&Hh&Hl1&Hf&Ht). destruct ok1; simpl in *.
    + intros H. destruct (Hrel _ _ _ H) as [He Hho]. rewrite He, Hh in *. split; [done|]. split; [by apply Ht|]. split; [by right|].
      destruct Hho; auto.
    + intros [= <- <-]. split; [done|]. split; [by apply Ht|]. split; [done|]. by left.
    + intros [= <- <-]. rewrite Hf by done. split; [done|]. split; [done|]. split; [done|]. by left.
  - intros H. destruct (Hrel _ _ _ H) as [He Hho]. rewrite He. split; [done|]. split; [done|]. split; [auto|]. destruct Hho; auto.
Qed.

Lemma place_effect ok tn now id run t : usage_events (placeUsageHold FinOps has_holds ok tn now id run t) = usage_events t.
Proof.
  unfold placeUsageHold, UpsertUsageHold. repeat case_match; done.
Qed.

Lemma release_effect ok id t : usage_events (releaseUsageHold has_holds ok id t).1 = usage_events t.
Proof. unfold releaseUsageHold, ReleaseUsageHold. repeat case_match; done. Qed.

Lemma sweep_effect ok ttl now t : usage_events (hold_sweep ok ttl now t) = usage_events t.
Proof. unfold hold_sweep, ExpireUsageHolds. repeat case_match; done. Qed.

(** A row is the bill of a run that was finalized. *)
Definition billed_in (l : list uop) (r : UsageEvent) : Prop :=
  ∃ ok1 ok2 tn now run applied ev,
    UFinalize ok1 ok2 tn now run applied ∈ l ∧ bill_of run = Some ev ∧ r = row_of tn now ev ∧ UE_Run r = R_ID run.

Lemma step_ledger l t o : ledger_ok (usage_events t) → (∀ r, r ∈ usage_events t → billed_in l r) →
  ledger_ok (usage_events (step_of t o)) ∧ (∀ r, r ∈ usage_events (step_of t o) → billed_in (l ++ [o]) r) ∧
  ∀ r, r ∈ usage_events t → ∃ r', r' ∈ usage_events (step_of t o) ∧ UE_Run r' = UE_Run r.
Proof.
  intros Hl Hb.
  assert (Hmono : ∀ r, billed_in l r → billed_in (l ++ [o]) r).
  { intros r (a&b&c&d&e&f&ev&?&?). exists a, b, c, d, e, f, ev. set_solver. }
  assert (Hsame : usage_events (step_of t o) = usage_events t → ledger_ok (usage_events (step_of t o)) ∧
    (∀ r, r ∈ usage_events (step_of t o) → billed_in (l ++ [o]) r) ∧
    ∀ r, r ∈ usage_events t → ∃ r', r' ∈ usage_events (step_of t o) ∧ UE_Run r' = UE_Run r).
  { intros ->. split; [done|]. split; [by auto|]. intros r Hr. by exists r. }
  destruct o as [ok1 ok2 tn now run applied|ok tn now id run|ok id|ok ttl now]; simpl in *.
  - destruct (finalize_of ok1 ok2 tn now run applied t) as [t' done] eqn:Hf. simpl in *.
    destruct (finalize_effect _ _ _ _ _ _ _ _ _ Hl Hf) as (Hl'&Hev&_&_).
    destruct (bill_of run) as [ev|] eqn:Hbill; [|by apply Hsame]. destruct (ran ok1); [|subst t'; by apply Hsame]. split; [done|].
    destruct (bill_shape _ _ Hbill) as (_&_&Hrun&_). split.
    + intros r [->|[Hr _]]%Hev; [|auto]. exists ok1, ok2, tn, now, run, applied, ev.
      split; [set_solver|]. split; [done|]. split; [done|]. by rewrite <- Hrun.
    + intros r Hr. destruct (decide (UE_Run r = R_ID run)) as [Heq|Hne].
      * exists (row_of tn now ev). split; [apply Hev; by left|]. by rewrite Heq, <- Hrun.
      * exists r. split; [apply Hev; by right|done].
  - apply Hsame, place_effect.
  - apply Hsame, release_effect.
  - apply Hsame, sweep_effect.
Qed.

Lemma history_ledger l : ledger_ok (usage_events (history_of l)) ∧ ∀ r, r ∈ usage_events (history_of l) → billed_in l r.
Proof.
  induction l as [|o l IH] using rev_ind; [split; [split; [constructor|]|]; simpl; set_solver|].
  unfold uhistory in *. rewrite foldl_app. simpl. destruct IH as [Hl Hb]. by destruct (step_ledger l _ o Hl Hb) as (?&?&_).
Qed.

Lemma history_keeps l2 t l1 r : ledger_ok (usage_events t) → (∀ r, r ∈ usage_events t → billed_in l1 r) → r ∈ usage_events t →
  ∃ r', r' ∈ usage_events (foldl step_of t l2) ∧ UE_Run r' = UE_Run r.
Proof.
  revert t l1 r. induction l2 as [|o l2 IH]; intros t l1 r Hl Hb Hr; [by exists r|]. simpl.
  destruct (step_ledger l1 t o Hl Hb) as (Hl'&Hb'&Hk). destruct (Hk r Hr) as (r1&Hr1&Heq).
  destruct (IH _ _ _ Hl' Hb' Hr1) as (r2&?&?). exists r2. split; [done|]. congruence.
Qed.

(** C19. Whatever finalizations are retried, on whatever replicas, and whichever
    statements fail, the usage ledger holds at most one row per run, every row is
    the bill of a terminal run that is no simulation and no cache hit, and a run
    whose finalization succeeded once and which is billable has its row for
    good. *)
Theorem usage_billed_once l :
  let t := history_of l in
  NoDup (map UE_Run (usage_events t)) ∧ (∀ r, r ∈ usage_events t → billed_in l r) ∧
  ∀ l1 l2 ok1 ok2 tn now run applied, l = l1 ++ UFinalize ok1 ok2 tn now run applied :: l2 →
    (finalize_of ok1 ok2 tn now run applied (history_of l1)).2 = true → is_Some (bill_of run) →
    ∃ r, r ∈ usage_events t ∧ UE_Run r = R_ID run.
Proof.
  destruct (history_ledger l) as [[Hn Hl] Hb]. split; [done|]. split; [done|].
  intros l1 l2 ok1 ok2 tn now run applied -> Hd [ev Hev]. destruct (history_ledger l1) as [Hl1 Hb1].
  destruct (finalize_of ok1 ok2 tn now run applied (history_of l1)) as [t' d] eqn:Hf. simpl in Hd. subst d.
  destruct (finalize_effect _ _ _ _ _ _ _ _ _ Hl1 Hf) as (_&Heff&Hok&_). rewrite Hev in *.
  destruct (Hok eq_refl) as [?|Hran]; [done|]. rewrite Hran in Heff. destruct (bill_shape _ _ Hev) as (_&_&Hrun&_).
  destruct (step_ledger l1 _ (UFinalize ok1 ok2 tn now run applied) Hl1 Hb1) as (Hl2&Hb2&_). simpl in Hl2, Hb2. rewrite Hf in Hl2, Hb2.
  unfold uhistory. rewrite foldl_app. simpl. fold (history_of l1). rewrite Hf. simpl.
  destruct (history_keeps l2 t' _ (row_of tn now ev) Hl2 Hb2) as (r&Hr&Heq); [apply Heff; by left|].
  exists r. split; [done|]. by rewrite Heq, <- Hrun.
Qed.

(** Its hold covers a run until its bill is written: after a finalization, failed
    or not, the hold it found is still there or the run's row is; and when the
    finalization succeeds the hold is gone. *)
Theorem reserved_until_billed ok1 ok2 tn now run applied t t' done h : ledger_ok (usage_events t) →
  is_Some (bill_of run) → h ∈ usage_holds t → H_Run h = R_ID run →
  finalize_of ok1 ok2 tn now run applied t = (t', done) →
  (h ∈ usage_holds t' ∨ ∃ r, r ∈ usage_events t' ∧ UE_Run r = R_ID run) ∧
  (done = true → has_holds = true → R_ID run ≠ "" → R_ID run ∉ map H_Run (usage_holds t')).
Proof.
  intros Hl [ev Hev] Hh Hrun Hf. pose proof (finalize_effect _ _ _ _ _ _ _ _ _ Hl Hf) as (_&Heff&_&Hho). rewrite Hev in *.
  destruct (bill_shape _ _ Hev) as (_&_&Hevrun&_). split.
  - destruct (ran ok1); [right; exists (row_of tn now ev); split; [apply Heff; by left|done]|left; by subst t'].
  - intros -> -> Hne. unfold finalize_usage, persistTerminalUsage in Hf. rewrite Hev in Hf.
    destruct (write_bill ok1 tn now run ev t Hl Hev) as (t1&Hw&_). rewrite Hw in Hf. destruct ok1; simpl in Hf; [|done..].
    unfold releaseUsageHold, ReleaseUsageHold in Hf. rewrite (proj2 (String.eqb_neq _ _) Hne) in Hf. destruct ok2; simpl in Hf; [|done..].
    injection Hf as <-. simpl. intros (x&Hx&Hin%filter_In)%list_elem_of_In%in_map_iff. destruct Hin as [_ Hin]. rewrite Hx, String.eqb_refl in Hin. done.
Qed.
End ingest.

(** ** Admission reads the ledger and the holds *)

Section admission.
Variable FinOps : option Config.
Variable sum_real : list float64 → float64.
Variable CountRunsSince : string → string → Z → res err Z.
Variable day_text : Z → string.

(** [checkBudgetAdmission] on the tables. *)
Definition check_on (t : UsageTables) (ctxTenant : string) :=
  checkBudgetAdmission FinOps (usage_of sum_real t) CountRunsSince (Some (holds_of sum_real ctxTenant t)) true day_text.

Definition spent_tokens (t : UsageTables) (tn ag : string) (since until : Z) : Z :=
  let '(tin, tout, _) := SumUsage sum_real t tn ag since until in tin + tout.
Definition held_tokens (t : UsageTables) (ctxTenant tn ag : string) (since until : Z) : Z :=
  (SumUsageHolds sum_real ctxTenant t tn ag since until).1.2.

(** A run is admitted only when the tokens billed and the tokens reserved that day
    in each scope with a hard token cap are together below it. *)
Theorem admitted_below_token_cap t ctxTenant now tn ag seen seen' effs cap agent scope :
  check_on t ctxTenant now tn ag seen = (Ok tt, seen', effs) → FinOps.Enabled FinOps = true →
  (cap, agent, scope) ∈ scopes FinOps tn ag → Soft cap = false → 0 < MaxTokensPerDay cap →
  let '(since, until) := UTCDayWindow now in
  let billed := spent_tokens t tn agent since until in
  let held := held_tokens t ctxTenant tn agent since until in
  i64_range ((SumUsage sum_real t tn agent since until).1.1 + held) → i64_range (billed + held) →
  billed + held < MaxTokensPerDay cap.
Proof.
  intros Hc He Hin Hsoft Hmax. unfold check_on in Hc.
  destruct (checkBudget_ok _ _ _ _ _ _ _ _ _ _ _ _ _ _ _ Hc He eq_refl Hin) as (snap&Hs&Hw).
  destruct (UTCDayWindow now) as [since until]. unfold spent_tokens, held_tokens. simpl in Hs. unfold load_snapshot, usage_of, holds_of in Hs.
  destruct (SumUsage sum_real t tn agent since until) as [[tin tout] usd].
  destruct (CountRunsSince tn agent since) as [runs|]; [|done].
  destruct (SumUsageHolds sum_real ctxTenant t tn agent since until) as [[hu ht] n]. injection Hs as <-.
  simpl. intros H1 H2. destruct Hw as [?|(_&Ht&_)]; [congruence|]. unfold tokens_over, Tokens in Ht. simpl in Ht.
  rewrite (wrap64_id (tin + ht)) in Ht by done. replace (tin + ht + tout) with (tin + tout + ht) in Ht by lia.
  rewrite wrap64_id in Ht by done. lia.
Qed.
End admission.

(** ** Runs *)

(** A hold that is placed after its run was finalized stays: creation inserts the
    run, a cancel finalizes it, then the creating request places the hold. *)
Definition res_config : Config :=
  mkConfig ∅ ∅ ∅ f64_zero (mkReservation f64_zero 50 0 ∅) (mkRouting false f64_zero ∅) "".
Definition ended (out : column) : Lifecycle.Run := mkRunModel "acme" "t1" "a1" RunStatusSuccess ∅ out "" None None 0.
Definition decode_five (c : column) : option (RunUsage * string) :=
  match c with ColObj _ => Some (mkRunUsage 3 2 0 f64_zero false, "m") | _ => None end.

Theorem hold_outlives_finalized_run :
  usage_holds (uhistory decode_five (Some res_config) true true
    [UFinalize RFine RFine "acme" 10 (mkEnded "r1" 10 (ended ColEmpty)) true; URelease RFine "r1";
     UPlace RFine "acme" 11 "r1" (ended ColEmpty)]) = [mkHold "r1" "acme" "a1" f64_zero 50 11].
Proof. vm_compute. reflexivity. Qed.

(** Two replicas finalize the same run; the first does not learn that its bill was
    written, and stops. *)
Definition retried : list uop :=
  [UPlace RFine "acme" 5 "r1" (ended ColEmpty); UFinalize RLost RFine "acme" 10 (mkEnded "r1" 9 (ended (ColObj ∅))) true;
   UFinalize RFine RFine "acme" 12 (mkEnded "r1" 9 (ended (ColObj ∅))) false].

Example retried_bill :
  map UE_TokensIn (usage_events (uhistory decode_five (Some res_config) true true retried)) = [3] ∧
  usage_holds (uhistory decode_five (Some res_config) true true retried) = [].
Proof. vm_compute. split; reflexivity. Qed.

Lemma reserved_until_billed_witness :
  let t := uhistory decode_five (Some res_config) true true [UPlace RFine "acme" 5 "r1" (ended ColEmpty)] in
  let run := mkEnded "r1" 9 (ended (ColObj ∅)) in
  mkHold "r1" "acme" "a1" f64_zero 50 5 ∈ usage_holds (finalize_usage decode_five (Some res_config) true true RFine RDown "acme" 10 run true t).1 ∨
  ∃ r, r ∈ usage_events (finalize_usage decode_five (Some res_config) true true RFine RDown "acme" 10 run true t).1 ∧ UE_Run r = "r1".
Proof.
  intros t run.
  apply (reserved_until_billed decode_five (Some res_config) true true RFine RDown "acme" 10 run true t
    (finalize_usage decode_five (Some res_config) true true RFine RDown "acme" 10 run true t).1
    (finalize_usage decode_five (Some res_config) true true RFine RDown "acme" 10 run true t).2).
  - split; [constructor|]. intros r H. vm_compute in H. inversion H.
  - vm_compute. eexists. reflexivity.
  - vm_compute. left.
  - reflexivity.
  - apply surjective_pairing.
Defined.
