(* ===== verification/Hooks.v ===== *)
(** * Lifecycle hooks: the dispatcher and webhook delivery

    Models [internal/hooks/hooks.go] (the bounded worker pool) and
    [internal/hooks/webhook.go] (delivery with retries and dead letters), with
    [SaveWebhookDeadLetter] of the SQLite store.  The job channel, the fan-outs in
    progress and the workers interleave step by step; a send on the closed channel
    and a second close are panics.  The HTTP exchange is an argument: how each
    attempt turns out and how long it takes. *)

From Stdlib Require Import Permutation.
From S2P Require Import Prelude Store.
Local Open Scope string_scope.
Local Open Scope nat_scope.
Local Open Scope list_scope.

(** ** Events and sinks *)

Record Event := mkHookEvent {
  EvType : string;
  EvRun : string;
  EvTenant : string;
  EvBody : string             (* the other fields, opaque *)
}.
#[export] Instance Event_eq : EqDecision Event. Proof. solve_decision. Defined.

Record registeredSink := mkSink { sink : nat; events : gset string }.

Record dispatchJob := mkJob { j_sink : nat; j_event : Event }.
#[export] Instance dispatchJob_eq : EqDecision dispatchJob. Proof. solve_decision. Defined.

(** ** Delivery *)

Definition maxDeliveryAttempts : nat := 3.
Definition initialBackoff : Z := 500.           (* ms *)

Inductive exchange := TransportError | Answer (status : Z).

(** [deliver]: [true] when the endpoint accepted the payload. *)
Definition deliver (x : exchange) : bool :=
  match x with TransportError => false | Answer st => negb ((st <? 200) || (300 <=? st))%Z end.

Inductive outcome :=
| Delivered (attempts : nat)
| DeadLettered (attempts : nat)
| Lost.          (* no dead-letter store, its write failed, or the event does not marshal *)

Record WebhookDeadLetter := mkDL {
  DLTenant : string;
  DLURL : string;
  DLEventType : string;
  DLRun : string;
  DLAttempts : nat
}.

Definition dead_letter (url : string) (e : Event) : WebhookDeadLetter :=
  mkDL (if String.eqb (EvTenant e) "" then DefaultTenant else EvTenant e) url (EvType e) (EvRun e) maxDeliveryAttempts.

(** [Handle] in one piece: the exchanges in order; [None] marks the end of what is
    known of them. *)
Fixpoint attempts_from (attempt : nat) (fuel : nat) (xs : list exchange) : option (option nat) :=
  match fuel with
  | O => Some None                                      (* exhausted *)
  | S fuel =>
      match xs with
      | [] => None
      | x :: xs => if deliver x then Some (Some attempt) else attempts_from (S attempt) fuel xs
      end
  end.

Definition Handle (marshals : bool) (store : option bool) (xs : list exchange) : option outcome :=
  if negb marshals then Some Lost
  else
    match attempts_from 1 maxDeliveryAttempts xs with
    | None => None
    | Some (Some n) => Some (Delivered n)
    | Some None => Some (match store with Some true => DeadLettered maxDeliveryAttempts | _ => Lost end)
    end.

(** The time [Handle] takes: each attempt's own, and the sleeps between them. *)
Fixpoint handle_time (fuel : nat) (backoff : Z) (xs : list (exchange * Z)) : Z :=
  match fuel, xs with
  | S fuel, (x, d) :: xs =>
      if deliver x then d
      else match fuel with
           | O => d
           | _ => (d + backoff + handle_time fuel (backoff * 2) xs)%Z
           end
  | _, _ => 0%Z
  end.

(** ** The dispatcher *)

(** A worker waits for a job, holds one it has attempted [n] times, or has left. *)
Inductive worker := Waiting | Busy (job : dispatchJob) (n : nat) | Exited.

Record Dispatcher := mkDispatcher {
  sinks : list registeredSink;
  jobs : list dispatchJob;
  queueSize : nat;
  jobs_closed : bool;
  workers : list worker;
  sending : list (list dispatchJob);        (* fan-outs in progress *)
  droppedJobs : list dispatchJob;           (* counted by the metric *)
  outcomes : list (dispatchJob * outcome);
  deadLetters : list WebhookDeadLetter;
  h_offered : list dispatchJob;             (* ghost: every job of every fan-out *)
  dpanicked : bool
}.

Definition NewDispatcher (nworkers queue : nat) : Dispatcher :=
  mkDispatcher [] [] queue false (replicate nworkers Waiting) [] [] [] [] [] false.

Definition defaultWebhookWorkers : nat := 20.
Definition defaultWebhookQueueSize : nat := 500.

Definition Register (k : nat) (evs : gset string) (d : Dispatcher) : Dispatcher :=
  mkDispatcher (sinks d ++ [mkSink k evs]) (jobs d) (queueSize d) (jobs_closed d) (workers d) (sending d) (droppedJobs d)
    (outcomes d) (deadLetters d) (h_offered d) (dpanicked d).

Definition HasSinks (d : Dispatcher) : bool := negb (length (sinks d) =? 0).

Definition subscribed (e : Event) (rs : registeredSink) : bool :=
  (size (events rs) =? 0) || bool_decide (EvType e ∈ events rs).

(** [Dispatch] copies the sinks and starts to send. *)
Definition fan_out (e : Event) (d : Dispatcher) : list dispatchJob :=
  map (λ rs, mkJob (sink rs) e) (List.filter (subscribed e) (sinks d)).

Definition Dispatch (e : Event) (d : Dispatcher) : Dispatcher :=
  mkDispatcher (sinks d) (jobs d) (queueSize d) (jobs_closed d) (workers d) (sending d ++ [fan_out e d]) (droppedJobs d)
    (outcomes d) (deadLetters d) (h_offered d ++ fan_out e d) (dpanicked d).

(** The select of one job of fan-out [i], on a buffered channel: while the buffer is
    full no worker is parked at its receive. *)
Definition send_next (i : nat) (d : Dispatcher) : Dispatcher :=
  match sending d !! i with
  | Some (job :: rest) =>
      let d' js dr := mkDispatcher (sinks d) js (queueSize d) (jobs_closed d) (workers d) (<[i := rest]> (sending d)) dr
                        (outcomes d) (deadLetters d) (h_offered d) (dpanicked d) in
      if jobs_closed d then
        mkDispatcher (sinks d) (jobs d) (queueSize d) (jobs_closed d) (workers d) (sending d) (droppedJobs d) (outcomes d)
          (deadLetters d) (h_offered d) true
      else if length (jobs d) <? queueSize d then d' (jobs d ++ [job]) (droppedJobs d)
      else d' (jobs d) (droppedJobs d ++ [job])
  | _ => d
  end.

(** How a worker's next step turns out: the marshalling of the event, the exchange,
    the dead-letter store ([None]: none), and the sink's URL. *)
Record fateW := mkFate { f_marshals : bool; f_exchange : exchange; f_store : option bool; f_url : string }.

Definition settle (w : nat) (job : dispatchJob) (o : outcome) (dl : list WebhookDeadLetter) (d : Dispatcher) : Dispatcher :=
  mkDispatcher (sinks d) (jobs d) (queueSize d) (jobs_closed d) (<[w := Waiting]> (workers d)) (sending d) (droppedJobs d)
    (outcomes d ++ [(job, o)]) (deadLetters d ++ dl) (h_offered d) (dpanicked d).

Definition set_worker (w : nat) (x : worker) (js : list dispatchJob) (d : Dispatcher) : Dispatcher :=
  mkDispatcher (sinks d) js (queueSize d) (jobs_closed d) (<[w := x]> (workers d)) (sending d) (droppedJobs d)
    (outcomes d) (deadLetters d) (h_offered d) (dpanicked d).

Definition worker_step (w : nat) (f : fateW) (d : Dispatcher) : Dispatcher :=
  match workers d !! w with
  | Some Waiting =>
      match jobs d with
      | job :: rest => set_worker w (Busy job 0) rest d
      | [] => if jobs_closed d then set_worker w Exited [] d else d
      end
  | Some (Busy job n) =>
      if negb (f_marshals f) && (n =? 0) then settle w job Lost [] d
      else if deliver (f_exchange f) then settle w job (Delivered (S n)) [] d
      else if S n <? maxDeliveryAttempts then set_worker w (Busy job (S n)) (jobs d) d
      else match f_store f with
           | Some true => settle w job (DeadLettered (S n)) [dead_letter (f_url f) (j_event job)] d
           | _ => settle w job Lost [] d
           end
  | _ => d
  end.

(** [Close] waits for the workers elsewhere: [drained]. *)
Definition Close (d : Dispatcher) : Dispatcher :=
  mkDispatcher (sinks d) (jobs d) (queueSize d) true (workers d) (sending d) (droppedJobs d) (outcomes d) (deadLetters d)
    (h_offered d) (dpanicked d || jobs_closed d).

Definition all_exited (d : Dispatcher) : bool := forallb (λ w, match w with Exited => true | _ => false end) (workers d).

(** ** Histories *)

Inductive hact :=
| HRegister (k : nat) (evs : gset string)
| HDispatch (e : Event)
| HSend (i : nat)
| HWorker (w : nat) (f : fateW)
| HClose.

Definition hstep (d : Dispatcher) (a : hact) : Dispatcher :=
  match a with
  | HRegister k evs => Register k evs d
  | HDispatch e => Dispatch e d
  | HSend i => send_next i d
  | HWorker w f => worker_step w f d
  | HClose => Close d
  end.

Definition hhistory (nworkers queue : nat) (l : list hact) : Dispatcher := foldl hstep (NewDispatcher nworkers queue) l.

(** ** Properties *)

Definition held (w : worker) : list dispatchJob := match w with Busy j _ => [j] | _ => [] end.
Definition in_progress (d : Dispatcher) : list dispatchJob := concat (map held (workers d)).

Definition outcome_ok (o : outcome) : Prop :=
  match o with Delivered n => 1 ≤ n ≤ maxDeliveryAttempts | DeadLettered n => n = maxDeliveryAttempts | Lost => True end.

Definition is_dead (x : dispatchJob * outcome) : bool := match x.2 with DeadLettered _ => true | _ => false end.

Record hinv (d : Dispatcher) : Prop := {
  hi_all : h_offered d ≡ₚ concat (sending d) ++ jobs d ++ in_progress d ++ droppedJobs d ++ (outcomes d).*1;
  hi_queue : length (jobs d) ≤ queueSize d;
  hi_busy j n : Busy j n ∈ workers d → n < maxDeliveryAttempts;
  hi_out x : x ∈ outcomes d → outcome_ok x.2;
  hi_dead : length (deadLetters d) = length (List.filter is_dead (outcomes d));
  hi_exit : Exited ∈ workers d → jobs_closed d = true ∧ jobs d = []
}.

Lemma concat_insert {A} (l : list (list A)) i x y : l !! i = Some x → concat (<[i := y]> l) ++ x ≡ₚ concat l ++ y.
Proof.
  intros Hi. rewrite insert_take_drop by (by eapply lookup_lt_Some). rewrite <- (take_drop_middle l i x Hi) at 3.
  rewrite !concat_app. simpl. rewrite <- !(assoc_L app). apply Permutation_app_head.
  rewrite (comm app x), (comm app y). rewrite <- !(assoc_L app). rewrite (comm app x y). done.
Qed.

Lemma held_insert l w x y : l !! w = Some x → concat (map held (<[w := y]> l)) ++ held x ≡ₚ concat (map held l) ++ held y.
Proof.
  intros Hw. replace (map held (<[w := y]> l)) with (<[w := held y]> (map held l)).
  - apply concat_insert. change (map held l) with (held <$> l). by rewrite list_lookup_fmap, Hw.
  - change (map held ?x) with (held <$> x). by rewrite list_fmap_insert.
Qed.

Lemma in_progress_insert (d d' : Dispatcher) w x y : workers d !! w = Some x → workers d' = <[w := y]> (workers d) →
  in_progress d' ++ held x ≡ₚ in_progress d ++ held y.
Proof. intros Hw Hd. unfold in_progress. rewrite Hd. by apply held_insert. Qed.

Lemma in_progress_put w x (js : list dispatchJob) (d : Dispatcher) y : workers d !! w = Some y →
  in_progress (set_worker w x js d) ++ held y ≡ₚ in_progress d ++ held x.
Proof. intros Hw. by eapply in_progress_insert. Qed.

(** A step of worker [w] that keeps the closed flag and the fan-outs. *)
Lemma worker_keeps d w x y : workers d !! w = Some y → (Exited ∈ <[w := x]> (workers d) → x = Exited ∨ Exited ∈ workers d) ∧
  ∀ j n, Busy j n ∈ <[w := x]> (workers d) → x = Busy j n ∨ Busy j n ∈ workers d.
Proof.
  intros Hw. assert (H : ∀ z, z ∈ <[w := x]> (workers d) → x = z ∨ z ∈ workers d).
  { intros z (i&Hi)%list_elem_of_lookup. apply list_lookup_insert_Some in Hi as [(->&->&_)|[_ Hi]]; [by left|right]. by eapply list_elem_of_lookup_2. }
  split; [apply H|]. intros j n. apply H.
Qed.

Lemma settle_inv d w job n o dl : hinv d → workers d !! w = Some (Busy job n) → outcome_ok o →
  length dl = (if is_dead (job, o) then 1 else 0) → hinv (settle w job o dl d).
Proof.
  intros [Ha Hq Hb Ho Hd Hx] Hw Hok Hdl. destruct (worker_keeps d w Waiting _ Hw) as [Hke Hkb]. split; simpl; try done.
  - rewrite fmap_app. simpl. pose proof (in_progress_insert d (settle w job o dl d) w (Busy job n) Waiting Hw eq_refl) as Hp.
    simpl in Hp. rewrite app_nil_r in Hp. rewrite Ha, <- Hp. rewrite <- !(assoc_L app). do 3 apply Permutation_app_head.
    rewrite (comm app [job]). by rewrite <- !(assoc_L app).
  - intros j m Hj. destruct (Hkb _ _ Hj) as [?|?]; [done|by eapply Hb].
  - intros x [Hin|Hin]%elem_of_app; [by apply Ho|]. apply list_elem_of_singleton in Hin as ->. done.
  - rewrite length_app, List.filter_app, length_app, Hd, Hdl. simpl. by destruct (is_dead (job, o)).
  - intros He. destruct (Hke He) as [?|He']; [done|]. by apply Hx.
Qed.

Lemma busy_inv d w job n : hinv d → workers d !! w = Some (Busy job n) → S n < maxDeliveryAttempts →
  hinv (set_worker w (Busy job (S n)) (jobs d) d).
Proof.
  intros [Ha Hq Hb Ho Hd Hx] Hw Hn. destruct (worker_keeps d w (Busy job (S n)) _ Hw) as [Hke Hkb]. split; simpl; try done.
  - pose proof (in_progress_put w (Busy job (S n)) (jobs d) d _ Hw) as Hp. apply Permutation_app_inv_r in Hp. by rewrite Hp.
  - intros j m Hj. destruct (Hkb _ _ Hj) as [[= <- <-]|?]; [done|by eapply Hb].
  - intros He. destruct (Hke He) as [?|He']; [done|]. by apply Hx.
Qed.

Lemma take_inv d w job rest : hinv d → workers d !! w = Some Waiting → jobs d = job :: rest →
  hinv (set_worker w (Busy job 0) rest d).
Proof.
  intros [Ha Hq Hb Ho Hd Hx] Hw Hj. destruct (worker_keeps d w (Busy job 0) _ Hw) as [Hke Hkb]. split; simpl; try done.
  - pose proof (in_progress_put w (Busy job 0) rest d _ Hw) as Hp. simpl in Hp. rewrite app_nil_r in Hp.
    rewrite Ha, Hj, Hp, <- !(assoc_L app). apply Permutation_app_head. simpl.
    rewrite !(assoc_L app rest (in_progress d)). apply Permutation_middle.
  - rewrite Hj in Hq. simpl in Hq. lia.
  - intros j m Hin. destruct (Hkb _ _ Hin) as [[= <- <-]|?]; [unfold maxDeliveryAttempts; lia|by eapply Hb].
  - intros He. destruct (Hke He) as [?|He']; [done|]. destruct (Hx He') as [_ ?]. congruence.
Qed.

Lemma worker_inv d w f : hinv d → hinv (worker_step w f d).
Proof.
  intros Hi. unfold worker_step. destruct (workers d !! w) as [[|job n|]|] eqn:Hw; try done.
  - destruct (jobs d) as [|job rest] eqn:Hj; [|by apply take_inv]. destruct (jobs_closed d) eqn:Hc; [|done].
    destruct Hi as [Ha Hq Hb Ho Hd Hx]. destruct (worker_keeps d w Exited _ Hw) as [_ Hkb]. split; simpl; try done.
    + pose proof (in_progress_put w Exited [] d _ Hw) as Hp. simpl in Hp. rewrite !app_nil_r in Hp. by rewrite Hp, Ha, Hj.
    + lia.
    + intros j m Hin. destruct (Hkb _ _ Hin) as [?|?]; [done|by eapply Hb].
  - assert (n < maxDeliveryAttempts) as Hn by (eapply (hi_busy _ Hi job), list_elem_of_lookup_2, Hw).
    destruct (negb _ && _); [by eapply settle_inv|]. destruct (deliver _); [eapply settle_inv; [done..|simpl; lia|done]|].
    destruct (Nat.ltb_spec (S n) maxDeliveryAttempts); [by apply busy_inv|].
    assert (S n = maxDeliveryAttempts) as Heq by lia.
    destruct (f_store f) as [[]|]; by eapply settle_inv.
Qed.

Lemma send_inv d i : hinv d → hinv (send_next i d).
Proof.
  intros [Ha Hq Hb Ho Hd Hx]. unfold send_next. destruct (sending d !! i) as [[|job rest]|] eqn:Hi; [done| |done].
  destruct (jobs_closed d) eqn:Hc; [done|].
  pose proof (concat_insert _ _ _ rest Hi) as Hp. change (job :: rest) with ([job] ++ rest) in Hp.
  rewrite (assoc_L app) in Hp. apply Permutation_app_inv_r in Hp.
  destruct (Nat.ltb_spec (length (jobs d)) (queueSize d)); split; simpl; try done.
  - change (in_progress (mkDispatcher _ _ _ _ _ _ _ _ _ _ _)) with (in_progress d). rewrite Ha, <- Hp, <- !(assoc_L app).
    apply Permutation_app_head. simpl. apply Permutation_middle.
  - rewrite length_app. simpl. lia.
  - intros He. destruct (Hx He). congruence.
  - change (in_progress (mkDispatcher _ _ _ _ _ _ _ _ _ _ _)) with (in_progress d). rewrite Ha, <- Hp, <- !(assoc_L app).
    apply Permutation_app_head. simpl. rewrite !(assoc_L app (jobs d)), !(assoc_L app (jobs d ++ in_progress d)). apply Permutation_middle.
Qed.

Lemma hstep_inv d a : hinv d → hinv (hstep d a).
Proof.
  intros Hi. destruct a as [k evs|e|i|w f|]; simpl.
  - by destruct Hi.
  - destruct Hi as [Ha Hq Hb Ho Hd Hx]. split; simpl; try done. change (in_progress (Dispatch e d)) with (in_progress d).
    rewrite concat_app. simpl. rewrite app_nil_r, Ha. rewrite <- !(assoc_L app). apply Permutation_app_head.
    rewrite (comm app (fan_out e d)). by rewrite <- !(assoc_L app).
  - by apply send_inv.
  - by apply worker_inv.
  - destruct Hi as [Ha Hq Hb Ho Hd Hx]. split; simpl; try done. intros He. by destruct (Hx He).
Qed.

Lemma new_hinv n q : hinv (NewDispatcher n q).
Proof.
  assert (in_progress (NewDispatcher n q) = []) as Hp.
  { unfold in_progress. simpl. induction n as [|n IH]; [done|]. exact IH. }
  assert (Hw : ∀ x, x ∈ replicate n Waiting → x = Waiting) by (intros x [-> _]%elem_of_replicate; done).
  split; simpl; try done; [by rewrite Hp|lia|by intros j m ?%Hw|by intros x ?%elem_of_nil|by intros ?%Hw].
Qed.

Lemma hhistory_inv n q l : hinv (hhistory n q l).
Proof.
  unfold hhistory. assert (H : ∀ d, hinv d → hinv (foldl hstep d l)); [|apply H, new_hinv].
  induction l as [|a l IH]; intros d Hd; [done|]. simpl. by apply IH, hstep_inv.
Qed.

Lemma hhistory_config n q l : queueSize (hhistory n q l) = q ∧ length (workers (hhistory n q l)) = n.
Proof.
  assert (H : ∀ d, queueSize (foldl hstep d l) = queueSize d ∧ length (workers (foldl hstep d l)) = length (workers d)).
  { induction l as [|a l IH]; intros d; [done|]. simpl. destruct (IH (hstep d a)) as [-> ->]. clear IH.
    destruct a as [k evs|e|i|w f|]; simpl; try done.
    - unfold send_next. repeat case_match; done.
    - unfold worker_step, settle, set_worker. repeat case_match; simpl; rewrite ?length_insert; done. }
  unfold hhistory. destruct (H (NewDispatcher n q)) as [-> ->]. simpl. split; [done|]. apply length_replicate.
Qed.

(** Under every interleaving of dispatches, workers and the shutdown, each job
    offered to a sink is accounted for exactly once: about to be sent, queued, held
    by a worker, dropped and counted, or settled; the queue stays within its bound;
    a delivery took at most three attempts, a dead letter exactly three and has one
    row. *)
Theorem hooks_accounted n q l :
  let d := hhistory n q l in
  h_offered d ≡ₚ concat (sending d) ++ jobs d ++ in_progress d ++ droppedJobs d ++ (outcomes d).*1 ∧
  length (jobs d) ≤ q ∧ length (in_progress d) ≤ n ∧
  Forall (λ x, outcome_ok x.2) (outcomes d) ∧ length (deadLetters d) = length (List.filter is_dead (outcomes d)).
Proof.
  destruct (hhistory_inv n q l) as [Ha Hq _ Ho Hd _].
  destruct (hhistory_config n q l) as [Hqs Hws]. split; [done|]. split; [by rewrite <- Hqs at 2|]. split.
  - rewrite <- Hws at 2. unfold in_progress. generalize (workers (hhistory n q l)). intros ws.
    induction ws as [|[] ws IH]; simpl; lia.
  - split; [|done]. by apply list.Forall_forall.
Qed.

(** Shutdown drains: once every worker has left, nothing is queued or in progress,
    so what was offered and had been sent is settled or was counted as dropped. *)
Theorem hooks_close_drains n q l : n ≠ 0 → all_exited (hhistory n q l) = true →
  jobs (hhistory n q l) = [] ∧ in_progress (hhistory n q l) = [] ∧ jobs_closed (hhistory n q l) = true.
Proof.
  intros Hn He. destruct (hhistory_inv n q l) as [_ _ _ _ _ Hx]. set (d := hhistory n q l) in *.
  assert (Hws : length (workers d) = n) by apply hhistory_config.
  unfold all_exited in He. rewrite forallb_forall in He.
  assert (Hall : ∀ w, w ∈ workers d → w = Exited) by (intros w Hw%list_elem_of_In%He; by destruct w).
  destruct (workers d) as [|w ws] eqn:Hw; [by subst n|].
  destruct Hx as [Hc Hj]; [rewrite <- (Hall w); left|]. split; [done|]. split; [|done].
  unfold in_progress. rewrite Hw. assert (∀ l, (∀ x, x ∈ l → x = Exited) → concat (map held l) = []) as Hz.
  { clear. induction l as [|x l IH]; intros Hl; [done|]. rewrite (Hl x) by left. simpl. apply IH. intros y Hy. apply Hl. by right. }
  by apply Hz.
Qed.

(** The bounded attempts keep a worker for at most half a minute and the sleeps:
    with each exchange within the client's timeout of ten seconds, [Handle] takes at
    most 31.5 seconds. *)
Theorem handle_time_bound xs : Forall (λ x, 0 ≤ x.2 ≤ 10000)%Z xs →
  (handle_time maxDeliveryAttempts initialBackoff xs ≤ 31500)%Z.
Proof.
  intros Hx. unfold maxDeliveryAttempts, initialBackoff.
  destruct Hx as [|[x1 d1] xs H1 Hx]; simpl in *; [lia|]. destruct (deliver x1); [lia|].
  destruct Hx as [|[x2 d2] xs H2 Hx]; simpl in *; [lia|]. destruct (deliver x2); [lia|].
  destruct Hx as [|[x3 d3] xs H3 Hx]; simpl in *; [lia|]. destruct (deliver x3); lia.
Qed.

Fixpoint work (w : nat) (fs : list fateW) (d : Dispatcher) : Dispatcher :=
  match fs with [] => d | f :: fs => work w fs (worker_step w f d) end.

Lemma set_worker_lookup w x js d y : workers d !! w = Some y → workers (set_worker w x js d) !! w = Some x.
Proof. intros Hw. apply list_lookup_insert_eq. by eapply lookup_lt_Some. Qed.

(** The steps of a worker on one job are [Handle]. *)
Theorem worker_runs_Handle d w job marshals store url x xs o :
  workers d !! w = Some (Busy job 0) → Handle marshals store (x :: xs) = Some o →
  ∃ k, outcomes (work w (map (λ x, mkFate marshals x store url) (take k (x :: xs))) d) = outcomes d ++ [(job, o)].
Proof.
  intros Hw. unfold Handle. destruct marshals; simpl.
  2:{ intros [= <-]. exists 1%nat. simpl. unfold worker_step. rewrite Hw. done. }
  destruct (deliver x) eqn:E1; [intros [= <-]; exists 1%nat; simpl; unfold worker_step; rewrite Hw; simpl; by rewrite E1|].
  assert (H1 : ∀ y, f_marshals y = true → f_exchange y = x → worker_step w y d = set_worker w (Busy job 1) (jobs d) d).
  { intros y Hm Hx. unfold worker_step. rewrite Hw, Hm, Hx, E1. done. }
  set (d1 := set_worker w (Busy job 1) (jobs d) d) in *.
  assert (Hw1 : workers d1 !! w = Some (Busy job 1)) by (by eapply set_worker_lookup).
  destruct xs as [|x2 xs]; [done|].
  destruct (deliver x2) eqn:E2.
  { intros [= <-]. exists 2%nat. simpl. rewrite H1 by done. unfold worker_step. rewrite Hw1. simpl. by rewrite E2. }
  set (d2 := set_worker w (Busy job 2) (jobs d1) d1).
  assert (H2 : ∀ y, f_marshals y = true → f_exchange y = x2 → worker_step w y d1 = d2).
  { intros y Hm Hx. unfold worker_step. rewrite Hw1, Hm, Hx, E2. done. }
  assert (Hw2 : workers d2 !! w = Some (Busy job 2)) by (by eapply set_worker_lookup).
  destruct xs as [|x3 xs]; [done|]. intros H. exists 3%nat. simpl. rewrite H1 by done. rewrite H2 by done. unfold worker_step. rewrite Hw2. simpl.
  destruct (deliver x3) eqn:E3; injection H as <-; [done|]. by destruct store as [[]|].
Qed.

(** One worker and a queue of one: of three events one is delivered at the second
    attempt, one is dropped, one is dead-lettered while the shutdown waits. *)
Definition ev (r : string) : Event := mkHookEvent "run_complete" r "" "".
Definition fate_of (st : Z) : fateW := mkFate true (Answer st) (Some true) "https://h".
Definition shutdown_run : list hact :=
  [HRegister 7 ∅; HDispatch (ev "a"); HSend 0; HWorker 0 (fate_of 500); HWorker 0 (fate_of 500); HDispatch (ev "b"); HDispatch (ev "c");
   HSend 1; HSend 2; HClose; HWorker 0 (fate_of 204); HWorker 0 (fate_of 302); HWorker 0 (fate_of 302); HWorker 0 (fate_of 302);
   HWorker 0 (fate_of 302); HWorker 0 (fate_of 200)].

Example shutdown_outcomes :
  let d := hhistory 1 1 shutdown_run in
  outcomes d = [(mkJob 7 (ev "a"), Delivered 2); (mkJob 7 (ev "b"), DeadLettered 3)] ∧ droppedJobs d = [mkJob 7 (ev "c")] ∧
  all_exited d = true ∧ deadLetters d = [mkDL "default" "https://h" "run_complete" "b" 3].
Proof. vm_compute. auto. Qed.
