(* ===== verification/FinishRun.v ===== *)
(** * The end of a run: hold, span and terminal webhook

    Models [finishRun] of [internal/api/server.go] with [TryClaimTerminalHook] and
    [PruneTerminalHookClaims] of [internal/state/sqlite/sqlite.go], on the usage
    tables of [Usage] and the dispatcher of [Hooks].  Several control planes share
    the claim table; the calls in progress interleave at every point where the
    code touches something shared, a claim's reply may be lost, and a process may
    crash. *)

From Stdlib Require Import Permutation.
From S2P Require Import Prelude GoTime Completion Store Usage Hooks.
Local Open Scope string_scope.
Local Open Scope Z_scope.
Local Open Scope list_scope.

(** ** The claim table *)

(** By run, the second it was claimed. *)
Notation HookClaims := (gmap string Z).

(** [INSERT OR IGNORE]: whether the row is new. *)
Definition TryClaimTerminalHook (o : reply) (now : Z) (runID : string) : HookClaims → HookClaims * res err bool :=
  attempt EDriver o (λ m : HookClaims,
    match m !! runID with Some _ => (m, false) | None => (<[runID := sec now]> m, true) end).

Definition stale_claim (olderThan : Z) (kc : string * Z) : Prop := kc.2 < sec olderThan.
#[export] Instance stale_claim_dec olderThan kc : Decision (stale_claim olderThan kc).
Proof. unfold stale_claim. apply _. Defined.

Definition PruneTerminalHookClaims (o : reply) (olderThan : Z) : HookClaims → HookClaims * res err Z :=
  attempt EDriver o (λ m : HookClaims,
    (filter (λ kc, ¬ stale_claim olderThan kc) m, Z.of_nat (size (filter (stale_claim olderThan) m)))).

(** ** Replicas and calls *)

Record finished := mkFinished {
  q_run : string;
  q_tenant : string;
  q_status : string;
  q_body : string;            (* thread, agent, error and cache flag, as sent *)
}.

Inductive fpc := AtHold | AtSpan | AtSeen | AtSinks | AtClaim | AtDispatch | AtMark | Returned (ok : bool).
#[export] Instance fpc_eq : EqDecision fpc. Proof. solve_decision. Defined.

Record fcall := mkCall { f_replica : nat; f_req : finished; f_pc : fpc }.

Record Replica := mkReplica {
  runSpans : gset string;
  endedSpans : list (string * bool);      (* and whether with an error status *)
  finishedRuns : gset string;
  dispatcher : Dispatcher
}.

Record FWorld := mkFWorld {
  replicas : list Replica;
  tables : UsageTables;
  hook_claims : HookClaims;
  fcalls : list fcall;
  fired : list string;      (* ghost: the runs of the terminal [Dispatch] calls *)
  silenced : list string;   (* ghost: claimed, and the claimant never learned or died *)
  swept : list string       (* ghost: claims removed by retention *)
}.

(** The type of the terminal event. *)
Definition hookType (status : string) : string :=
  if String.eqb status RunStatusError || String.eqb status RunStatusTimeout then "error"
  else if String.eqb status RunStatusInterrupted then "interrupt" else "run_complete".

Definition terminal_event (q : finished) : Event := mkHookEvent (hookType (q_status q)) (q_run q) (q_tenant q) (q_body q).

Definition span_failed (status : string) : bool := String.eqb status RunStatusError || String.eqb status RunStatusTimeout.

Definition end_span (q : finished) (r : Replica) : Replica :=
  if decide (q_run q ∈ runSpans r) then
    mkReplica (runSpans r ∖ {[q_run q]}) (endedSpans r ++ [(q_run q, span_failed (q_status q))]) (finishedRuns r) (dispatcher r)
  else r.
Definition mark_finished (run : string) (r : Replica) : Replica :=
  mkReplica (runSpans r) (endedSpans r) (finishedRuns r ∪ {[run]}) (dispatcher r).
Definition forget_finished (run : string) (r : Replica) : Replica :=
  mkReplica (runSpans r) (endedSpans r) (finishedRuns r ∖ {[run]}) (dispatcher r).
Definition with_dispatcher (f : Dispatcher → Dispatcher) (r : Replica) : Replica :=
  mkReplica (runSpans r) (endedSpans r) (finishedRuns r) (f (dispatcher r)).

(** How the step's store call turns out, and the clock. *)
Record fenv := mkFEnv { hold_ok : reply; claim_reply : reply; clock : Z }.

Section finish.
(** Whether the store keeps usage holds. *)
Variable has_holds : bool.

Definition at_pc (i : nat) (c : fcall) (pc : fpc) (w : FWorld) : FWorld :=
  mkFWorld (replicas w) (tables w) (hook_claims w) (<[i := mkCall (f_replica c) (f_req c) pc]> (fcalls w)) (fired w) (silenced w) (swept w).
Definition on_replica (k : nat) (f : Replica → Replica) (w : FWorld) : FWorld :=
  mkFWorld (alter f k (replicas w)) (tables w) (hook_claims w) (fcalls w) (fired w) (silenced w) (swept w).
Definition set_tables (t : UsageTables) (w : FWorld) : FWorld :=
  mkFWorld (replicas w) t (hook_claims w) (fcalls w) (fired w) (silenced w) (swept w).
Definition set_claims (m : HookClaims) (quiet : list string) (w : FWorld) : FWorld :=
  mkFWorld (replicas w) (tables w) m (fcalls w) (fired w) (silenced w ++ quiet) (swept w).
Definition fire (run : string) (w : FWorld) : FWorld :=
  mkFWorld (replicas w) (tables w) (hook_claims w) (fcalls w) (fired w ++ [run]) (silenced w) (swept w).

(** The claim: won, lost to another, or an error the caller retries. *)
Definition claim_step (e : fenv) (i : nat) (c : fcall) (w : FWorld) : FWorld :=
  let run := q_run (f_req c) in
  match TryClaimTerminalHook (claim_reply e) (clock e) run (hook_claims w) with
  | (m, Ok true) => at_pc i c AtDispatch (set_claims m [] w)
  | (m, Ok false) => at_pc i c AtMark (set_claims m [] w)
  | (m, Err _) =>
      let quiet := match hook_claims w !! run, m !! run with None, Some _ => [run] | _, _ => [] end in
      at_pc i c (Returned false) (set_claims m quiet w)
  end.

(** One step of call [i] of [finishRun]. *)
Definition finish_step (e : fenv) (i : nat) (w : FWorld) : FWorld :=
  match fcalls w !! i with
  | None => w
  | Some c =>
      let q := f_req c in
      match replicas w !! f_replica c with
      | None => w
      | Some r =>
          match f_pc c with
          | AtHold =>
              if TerminalRunStatus (q_status q) then
                match releaseUsageHold has_holds (hold_ok e) (q_run q) (tables w) with
                | (t, true) => at_pc i c AtSpan (set_tables t w)
                | (t, false) => at_pc i c (Returned false) (set_tables t w)
                end
              else at_pc i c AtSpan w
          | AtSpan => at_pc i c AtSeen (on_replica (f_replica c) (end_span q) w)
          | AtSeen => if decide (q_run q ∈ finishedRuns r) then at_pc i c (Returned true) w else at_pc i c AtSinks w
          | AtSinks => if HasSinks (dispatcher r) then at_pc i c AtClaim w else at_pc i c AtMark w
          | AtClaim => claim_step e i c w
          | AtDispatch => at_pc i c AtMark (fire (q_run q) (on_replica (f_replica c) (with_dispatcher (Dispatch (terminal_event q))) w))
          | AtMark => at_pc i c (Returned true) (on_replica (f_replica c) (mark_finished (q_run q)) w)
          | Returned _ => w
          end
      end
  end.

(** ** Histories *)

Definition holding (c : fcall) : list string := match f_pc c with AtDispatch => [q_run (f_req c)] | _ => [] end.

Inductive fact :=
| FStart (k : nat) (q : finished)                 (* a call on replica [k] *)
| FStep (i : nat) (e : fenv)
| FSpan (k : nat) (run : string)                  (* the run was created there *)
| FTimer (k : nat) (run : string)                 (* [finishedRunTTL] is over *)
| FPrune (o : reply) (olderThan : Z)
| FHooks (k : nat) (a : hact)                     (* the dispatcher's own steps *)
| FCrash (k : nat) (sinks : list registeredSink).  (* the process restarts *)

Definition boot (l : list registeredSink) : Replica :=
  mkReplica ∅ [] ∅ (foldl (λ d rs, Register (sink rs) (events rs) d) (NewDispatcher defaultWebhookWorkers defaultWebhookQueueSize) l).

Definition crash_call (k : nat) (c : fcall) : fcall :=
  if decide (f_replica c = k) then
    match f_pc c with Returned _ => c | _ => mkCall k (f_req c) (Returned false) end
  else c.
Definition crash_holding (k : nat) (c : fcall) : list string := if decide (f_replica c = k) then holding c else [].

Definition fact_step (w : FWorld) (a : fact) : FWorld :=
  match a with
  | FStart k q => mkFWorld (replicas w) (tables w) (hook_claims w) (fcalls w ++ [mkCall k q AtHold]) (fired w) (silenced w) (swept w)
  | FStep i e => finish_step e i w
  | FSpan k run => on_replica k (λ r, mkReplica (runSpans r ∪ {[run]}) (endedSpans r) (finishedRuns r) (dispatcher r)) w
  | FTimer k run => on_replica k (forget_finished run) w
  | FPrune o olderThan =>
      let gone := match o with RDown => ∅ | _ => filter (stale_claim olderThan) (hook_claims w) end in
      mkFWorld (replicas w) (tables w) (PruneTerminalHookClaims o olderThan (hook_claims w)).1 (fcalls w) (fired w) (silenced w)
        (swept w ++ (map_to_list gone).*1)
  | FHooks k a =>
      match a with
      | HRegister _ _ | HDispatch _ => w
      | _ => on_replica k (with_dispatcher (λ d, hstep d a)) w
      end
  | FCrash k sinks =>
      mkFWorld (<[k := boot sinks]> (replicas w)) (tables w) (hook_claims w) (map (crash_call k) (fcalls w)) (fired w)
        (silenced w ++ concat (map (crash_holding k) (fcalls w))) (swept w)
  end.

Definition fboot (ls : list (list registeredSink)) (t : UsageTables) : FWorld := mkFWorld (map boot ls) t ∅ [] [] [] [].
Definition fhistory (ls : list (list registeredSink)) (t : UsageTables) (l : list fact) : FWorld := foldl fact_step (fboot ls t) l.
End finish.

(** * The terminal webhook is accounted for
    Over every interleaving of [finishRun] calls on several control planes, with
    lost replies, crashes and retention sweeps: each claim won is one terminal
    [Dispatch], and a call that returns without an error saw its run claimed and
    its usage hold released.  *)

From S2P Require Import GoAny.
Local Open Scope string_scope.
Local Open Scope Z_scope.
Local Open Scope list_scope.

(** ** Keys of the claim table *)

Definition keys (m : gmap string Z) : list string := (map_to_list m).*1.

Lemma elem_of_keys m k : k ∈ keys m ↔ is_Some (m !! k).
Proof.
  unfold keys. rewrite list_elem_of_fmap. split.
  - intros ([k' v]&->&Hin%elem_of_map_to_list). by exists v.
  - intros [v Hv]. exists (k, v). split; [done|]. by apply elem_of_map_to_list.
Qed.

Lemma keys_insert m k v : m !! k = None → keys (<[k := v]> m) ≡ₚ k :: keys m.
Proof. intros Hk. unfold keys. by rewrite map_to_list_insert. Qed.

Lemma keys_split (P : string * Z → Prop) `{!∀ x, Decision (P x)} m :
  keys m ≡ₚ keys (filter (λ x, ¬ P x) m) ++ keys (filter P m).
Proof.
  apply NoDup_Permutation.
  - apply NoDup_fst_map_to_list.
  - apply list.NoDup_app. split; [apply NoDup_fst_map_to_list|]. split; [|apply NoDup_fst_map_to_list].
    intros k [v Hv]%elem_of_keys [v' Hv']%elem_of_keys.
    apply map_lookup_filter_Some in Hv as [Hv Hn]. apply map_lookup_filter_Some in Hv' as [Hv' ?]. congruence.
  - intros k. rewrite elem_of_app, !elem_of_keys. split.
    + intros [v Hv]. destruct (decide (P (k, v))); [right|left]; exists v; by apply map_lookup_filter_Some.
    + intros [[v [Hv _]%map_lookup_filter_Some]|[v [Hv _]%map_lookup_filter_Some]]; by exists v.
Qed.

(** ** One step *)

Definition claims_held (w : FWorld) : list string := concat (map holding (fcalls w)).

Lemma claims_held_at w i c pc : fcalls w !! i = Some c →
  claims_held (at_pc i c pc w) ++ holding c ≡ₚ claims_held w ++ holding (mkCall (f_replica c) (f_req c) pc).
Proof.
  intros Hi. unfold claims_held. simpl. change (map holding ?l) with (holding <$> l). rewrite list_fmap_insert.
  apply concat_insert. by rewrite list_lookup_fmap, Hi.
Qed.

Definition accounted (w : FWorld) : Prop := fired w ++ claims_held w ++ silenced w ≡ₚ keys (hook_claims w) ++ swept w.

(** A step of call [c] to [pc] that changes neither claims nor logs. *)
Lemma accounted_at w i c pc : fcalls w !! i = Some c → holding c = [] → pc ≠ AtDispatch → accounted w → accounted (at_pc i c pc w).
Proof.
  intros Hi Hc Hpc Ha. pose proof (claims_held_at w i c pc Hi) as Hp.
  replace (holding (mkCall (f_replica c) (f_req c) pc)) with (@nil string) in Hp by (by destruct pc).
  rewrite Hc, !app_nil_r in Hp. unfold accounted in *. simpl. by rewrite Hp.
Qed.

(** Rearranging the log. *)
Lemma log_move (f h q l : list string) x : f ++ h ++ q ≡ₚ l → (f ++ [x]) ++ h ++ q ≡ₚ x :: l.
Proof. intros <-. rewrite <- (assoc_L app). simpl. by rewrite <- Permutation_middle. Qed.

Lemma log_held (f h q l : list string) x : f ++ h ++ q ≡ₚ l → f ++ (h ++ [x]) ++ q ≡ₚ x :: l.
Proof. intros <-. rewrite <- (assoc_L app h). simpl. by rewrite <- !Permutation_middle. Qed.

Lemma log_quiet (f h q l : list string) x : f ++ h ++ q ≡ₚ l → f ++ h ++ q ++ [x] ≡ₚ x :: l.
Proof. intros <-. rewrite !(assoc_L app). rewrite (comm app _ [x]). done. Qed.

Lemma hook_claim_cases o now run (m : gmap string Z) :
  (∃ b, TryClaimTerminalHook o now run m = (m, b) ∧ (b = Ok false → is_Some (m !! run)) ∧ b ≠ Ok true) ∨
  (m !! run = None ∧ TryClaimTerminalHook o now run m = (<[run := sec now]> m, Ok true)) ∨
  (m !! run = None ∧ TryClaimTerminalHook o now run m = (<[run := sec now]> m, Err EDriver)).
Proof.
  unfold TryClaimTerminalHook, attempt. destruct (m !! run) eqn:Hm, o; simpl; rewrite ?Hm;
    try (left; eexists; split; [reflexivity|]; split; [by eauto|done]); auto.
Qed.

Lemma claim_accounted e i c w : fcalls w !! i = Some c → f_pc c = AtClaim → accounted w → accounted (claim_step e i c w).
Proof.
  intros Hi Hpc Ha. assert (Hc : holding c = []) by (unfold holding; by rewrite Hpc). unfold claim_step.
  destruct (hook_claim_cases (claim_reply e) (clock e) (q_run (f_req c)) (hook_claims w)) as [(b&->&_&Hb)|[(Hn&->)|(Hn&->)]].
  - assert (accounted (set_claims (hook_claims w) [] w)) by (unfold accounted; simpl; by rewrite app_nil_r).
    destruct b as [[]|]; [done|by apply accounted_at|].
    by destruct (hook_claims w !! q_run (f_req c)); apply accounted_at.
  - set (w' := set_claims _ [] w). pose proof (claims_held_at w' i c AtDispatch Hi) as Hp. rewrite Hc, app_nil_r in Hp.
    unfold accounted in *. simpl. rewrite Hp, keys_insert by done. simpl. rewrite app_nil_r. by apply log_held.
  - rewrite Hn, lookup_insert_eq. apply accounted_at; [done..|]. unfold accounted in *. simpl. rewrite keys_insert by done.
    by apply log_quiet.
Qed.

Lemma dispatch_accounted i c w k f : fcalls w !! i = Some c → f_pc c = AtDispatch → accounted w →
  accounted (at_pc i c AtMark (fire (q_run (f_req c)) (on_replica k f w))).
Proof.
  intros Hi Hpc Ha. set (w' := fire _ _). pose proof (claims_held_at w' i c AtMark Hi) as Hp.
  assert (Hc : holding c = [q_run (f_req c)]) by (unfold holding; by rewrite Hpc). rewrite Hc in Hp. simpl in Hp. rewrite app_nil_r in Hp.
  unfold accounted in *. simpl. rewrite <- Ha. change (claims_held w') with (claims_held w) in Hp. rewrite <- Hp.
  rewrite <- !(assoc_L app). apply Permutation_app_head. simpl. apply Permutation_middle.
Qed.

Lemma step_accounted has_holds e i w : accounted w → accounted (finish_step has_holds e i w).
Proof.
  intros Ha. unfold finish_step. destruct (fcalls w !! i) as [c|] eqn:Hi; [|done].
  destruct (replicas w !! f_replica c) as [r|]; [|done].
  assert (Hc : f_pc c ≠ AtDispatch → holding c = []) by (unfold holding; by destruct (f_pc c)).
  destruct (f_pc c) eqn:Hpc; try (specialize (Hc ltac:(done))).
  - destruct (TerminalRunStatus _); [|by apply accounted_at]. by destruct (releaseUsageHold _ _ _ _) as [t []]; apply accounted_at.
  - by apply accounted_at.
  - by destruct (decide _); apply accounted_at.
  - by destruct (HasSinks _); apply accounted_at.
  - by apply claim_accounted.
  - by apply dispatch_accounted.
  - by apply accounted_at.
  - done.
Qed.

Lemma crash_held k l : concat (map holding (map (crash_call k) l)) ++ concat (map (crash_holding k) l) ≡ₚ concat (map holding l).
Proof.
  induction l as [|c l IH]; [done|]. simpl. rewrite <- IH. unfold crash_call, crash_holding.
  destruct (decide (f_replica c = k)); [|by rewrite <- (assoc_L app)].
  assert (H : holding (match f_pc c with Returned _ => c | _ => mkCall k (f_req c) (Returned false) end) = []) by (unfold holding; by destruct (f_pc c) eqn:E; rewrite ?E).
  rewrite H. simpl. rewrite !(assoc_L app). by rewrite (comm app (concat _) (holding c)).
Qed.

Lemma fact_accounted has_holds w a : accounted w → accounted (fact_step has_holds w a).
Proof.
  intros Ha. destruct a as [k q|i e|k run|k run|o olderThan|k a|k sinks]; simpl; try done.
  - unfold accounted, claims_held in *. simpl. rewrite map_app, concat_app. simpl. by rewrite app_nil_r.
  - by apply step_accounted.
  - unfold accounted in *. simpl. change (claims_held (mkFWorld _ _ _ (fcalls w) _ _ _)) with (claims_held w).
    destruct o; simpl; [..|by rewrite map_to_list_empty, app_nil_r]; rewrite Ha, (keys_split (stale_claim olderThan) (hook_claims w)), <- (assoc_L app);
      apply Permutation_app_head; by rewrite (comm app (swept w)).
  - by destruct a.
  - unfold accounted, claims_held in *. simpl. rewrite <- Ha. apply Permutation_app_head.
    rewrite (comm app (silenced w)), (assoc_L app). by rewrite crash_held.
Qed.

(** ** A call that returns *)

Definition known (w : FWorld) (run : string) : Prop := run ∈ keys (hook_claims w) ++ swept w.
Definition settled_pc (pc : fpc) : Prop := pc = AtDispatch ∨ pc = AtMark ∨ pc = Returned true.
Definition released_pc (pc : fpc) : Prop := pc ≠ AtHold ∧ pc ≠ Returned false.
Definition no_hold (run : string) (t : UsageTables) : Prop := Forall (λ h, H_Run h ≠ run) (usage_holds t).

Record served (has_holds : bool) (w : FWorld) : Prop := {
  sv_sinks k r : replicas w !! k = Some r → HasSinks (dispatcher r) = true;
  sv_fin k r run : replicas w !! k = Some r → run ∈ finishedRuns r → known w run;
  sv_call c : c ∈ fcalls w → settled_pc (f_pc c) → known w (q_run (f_req c));
  sv_hold c : c ∈ fcalls w → released_pc (f_pc c) → has_holds = true → TerminalRunStatus (q_status (f_req c)) = true →
    q_run (f_req c) ≠ "" → no_hold (q_run (f_req c)) (tables w)
}.

Section served.
Context (has_holds : bool).

Lemma elem_of_insert_call (w : FWorld) i c c' : c ∈ <[i := c']> (fcalls w) → c = c' ∨ c ∈ fcalls w.
Proof.
  intros [j Hj]%list_elem_of_lookup. apply list_lookup_insert_Some in Hj as [(_&<-&_)|[_ Hj]]; [by left|right].
  by eapply list_elem_of_lookup_2.
Qed.

Lemma served_at w i c pc : (settled_pc pc → known w (q_run (f_req c))) →
  (released_pc pc → has_holds = true → TerminalRunStatus (q_status (f_req c)) = true → q_run (f_req c) ≠ "" →
    no_hold (q_run (f_req c)) (tables w)) →
  served has_holds w → served has_holds (at_pc i c pc w).
Proof.
  intros Hk Hr [Hs Hf Hc Hh]. split; simpl; try done.
  - intros c' [->|Hin]%elem_of_insert_call; [done|by apply Hc].
  - intros c' [->|Hin]%elem_of_insert_call; [done|by apply Hh].
Qed.

(** The usual step: from a point past the hold's release to one that claims nothing. *)
Lemma served_on_pc w i c pc : fcalls w !! i = Some c → released_pc (f_pc c) → (settled_pc pc → known w (q_run (f_req c))) →
  served has_holds w → served has_holds (at_pc i c pc w).
Proof.
  intros Hi Hr Hk Hw. apply served_at; [done| |done]. intros _. eapply sv_hold; [done|by eapply list_elem_of_lookup_2|done].
Qed.

Lemma served_on w k f : (∀ r, HasSinks (dispatcher (f r)) = HasSinks (dispatcher r)) →
  (∀ r run, run ∈ finishedRuns (f r) → run ∈ finishedRuns r ∨ known w run) →
  served has_holds w → served has_holds (on_replica k f w).
Proof.
  intros Hd Hm [Hs Hf Hc Hh].
  assert (Hl : ∀ j r, alter f k (replicas w) !! j = Some r → ∃ r0, replicas w !! j = Some r0 ∧ (r = r0 ∨ r = f r0)).
  { intros j r. destruct (decide (j = k)) as [->|?]; [rewrite list_lookup_alter_eq|rewrite list_lookup_alter_ne by done; by eauto].
    destruct (replicas w !! k) as [r0|]; simpl; [|done]. intros [= <-]. by eauto. }
  split; simpl; try done.
  - intros j r (r0&Hr0&[->| ->])%Hl; [|rewrite Hd]; by eapply Hs.
  - intros j r run (r0&Hr0&[->| ->])%Hl Hrun; [by eapply Hf|]. destruct (Hm _ _ Hrun); [by eapply Hf|done].
Qed.

Lemma served_claims w m quiet : (∀ run, known w run → run ∈ keys m ++ swept w) →
  served has_holds w → served has_holds (set_claims m quiet w).
Proof. intros Hm [Hs Hf Hc Hh]. split; simpl; try done; intros; apply Hm; by eauto. Qed.

Lemma known_insert w run t x : known w x → x ∈ keys (<[run := t]> (hook_claims w)) ++ swept w.
Proof.
  unfold known. rewrite !elem_of_app, !elem_of_keys, lookup_insert_is_Some. intros [?|?]; [left|by right].
  destruct (decide (run = x)); auto.
Qed.

Lemma known_here w run t : run ∈ keys (<[run := t]> (hook_claims w)) ++ swept w.
Proof. apply elem_of_app. left. apply elem_of_keys. rewrite lookup_insert_eq. by eexists. Qed.

Lemma served_claim_step e i c w : fcalls w !! i = Some c → f_pc c = AtClaim → served has_holds w → served has_holds (claim_step e i c w).
Proof.
  intros Hi Hpc Hw. assert (Hr : released_pc (f_pc c)) by (rewrite Hpc; by split). unfold claim_step.
  destruct (hook_claim_cases (claim_reply e) (clock e) (q_run (f_req c)) (hook_claims w)) as [(b&->&Hno&Hb)|[(Hn&->)|(Hn&->)]].
  - destruct b as [[]|]; [done|..]; (apply served_on_pc; [done|done| |by apply served_claims]).
    + intros _. apply elem_of_app. left. apply elem_of_keys. by apply Hno.
    + by intros [?|[?|?]].
  - apply served_on_pc; [done|done| |apply served_claims; [by apply known_insert|done]]. intros _. apply (known_here w).
  - apply served_on_pc; [done|done|by intros [?|[?|?]]|]. apply served_claims; [by apply known_insert|done].
Qed.

Lemma release_no_hold ok run t t' b : run ≠ "" → releaseUsageHold true ok run t = (t', b) →
  (∀ r, no_hold r t → no_hold r t') ∧ (b = true → no_hold run t').
Proof.
  intros Hrun. unfold releaseUsageHold, ReleaseUsageHold, no_hold. simpl. destruct (String.eqb_spec run ""); [done|].
  assert (Hkeep : ∀ r, Forall (λ h, H_Run h ≠ r) (usage_holds t) →
    Forall (λ h, H_Run h ≠ r) (List.filter (λ h, negb (String.eqb (H_Run h) run)) (usage_holds t))).
  { intros r Hr. rewrite list.Forall_forall in Hr |- *. intros h [Hh _]%list_elem_of_In%List.filter_In. apply Hr. by apply list_elem_of_In. }
  destruct ok; simpl; intros [= <- <-]; simpl; (split; [done|]); try done.
  intros _. rewrite list.Forall_forall. intros h [_ Hh]%list_elem_of_In%List.filter_In. destruct (String.eqb_spec (H_Run h) run); done.
Qed.

Lemma release_keeps_no_hold ok run t r : no_hold r t → no_hold r (releaseUsageHold has_holds ok run t).1.
Proof.
  destruct has_holds; [|done]. destruct (decide (run = "")) as [->|Hrun]; [done|].
  destruct (releaseUsageHold true ok run t) as [t' b] eqn:E. by apply (release_no_hold _ _ _ _ _ Hrun E).
Qed.

Lemma served_tables w ok run : served has_holds w → served has_holds (set_tables (releaseUsageHold has_holds ok run (tables w)).1 w).
Proof. intros [Hs Hf Hc Hh]. split; simpl; try done. intros. apply release_keeps_no_hold. by eauto. Qed.

Lemma served_hold_step e i c w : fcalls w !! i = Some c → f_pc c = AtHold → served has_holds w →
  served has_holds (match releaseUsageHold has_holds (hold_ok e) (q_run (f_req c)) (tables w) with
                    | (t, true) => at_pc i c AtSpan (set_tables t w)
                    | (t, false) => at_pc i c (Returned false) (set_tables t w)
                    end).
Proof.
  intros Hi Hpc Hw. pose proof (served_tables w (hold_ok e) (q_run (f_req c)) Hw) as Ht.
  destruct (releaseUsageHold _ _ _ _) as [t b] eqn:E. simpl in Ht. destruct b; (apply served_at; [by intros [?|[?|?]]| |done]).
  - intros _ Hh _ Hne. rewrite Hh in E. by apply (release_no_hold _ _ _ _ _ Hne E).
  - by intros [_ ?].
Qed.

Lemma hstep_sinks d a : match a with HRegister _ _ => False | _ => True end → HasSinks (hstep d a) = HasSinks d.
Proof.
  intros Ha. destruct a as [| |i|w f|]; try done; simpl.
  - unfold send_next. by repeat case_match.
  - unfold worker_step. by repeat case_match.
Qed.

Lemma served_finish_step e i w : served has_holds w → served has_holds (finish_step has_holds e i w).
Proof.
  intros Hw. unfold finish_step. destruct (fcalls w !! i) as [c|] eqn:Hi; [|done].
  destruct (replicas w !! f_replica c) as [r|] eqn:Hr; [|done].
  assert (Hset : settled_pc (f_pc c) → known w (q_run (f_req c))) by (apply (sv_call _ _ Hw), list_elem_of_lookup_2 with i, Hi).
  destruct (f_pc c) eqn:Hpc; cbv zeta; try (assert (Hrel : released_pc (f_pc c)) by (rewrite Hpc; by split)).
  - destruct (TerminalRunStatus _) eqn:Ht; [by apply served_hold_step|]. apply served_at; [by intros [?|[?|?]]| |done]. by rewrite Ht.
  - apply served_on_pc; [done|done|by intros [?|[?|?]]|]. apply served_on; [..|done]; unfold end_span; intros r0; [by destruct (decide _)|].
    intros run. destruct (decide _); simpl; by auto.
  - destruct (decide (q_run (f_req c) ∈ finishedRuns r)); (apply served_on_pc; [done|done| |done]); [|by intros [?|[?|?]]].
    intros _. by eapply sv_fin.
  - rewrite (sv_sinks _ _ Hw _ _ Hr). apply served_on_pc; [done|done|by intros [?|[?|?]]|done].
  - by apply served_claim_step.
  - assert (known w (q_run (f_req c))) by (apply Hset; by left).
    apply served_on_pc; [done|done|done|]. destruct (served_on w (f_replica c) (with_dispatcher (Dispatch (terminal_event (f_req c))))); [done|by left|done|].
    by split.
  - assert (known w (q_run (f_req c))) by (apply Hset; right; by left). apply served_on_pc; [done|done|done|].
    apply served_on; [done| |done]. intros r0 run. simpl. rewrite elem_of_union, elem_of_singleton. intros [?| ->]; by auto.
  - done.
Qed.

(** Every process starts with at least one sink. *)
Definition with_sinks (a : fact) : Prop := match a with FCrash _ sinks => sinks ≠ [] | _ => True end.

Lemma boot_sinks l : l ≠ [] → HasSinks (dispatcher (boot l)) = true.
Proof.
  intros Hl. unfold boot. simpl. assert (H : ∀ l d, length (sinks (foldl (λ d rs, Register (sink rs) (events rs) d) d l)) = (length (sinks d) + length l)%nat).
  { intros k. induction k as [|rs k IH]; intros d; simpl; [lia|]. rewrite IH. simpl. rewrite length_app. simpl. lia. }
  unfold HasSinks. rewrite H. by destruct l.
Qed.

Lemma crash_call_spec k c : f_req (crash_call k c) = f_req c ∧ (crash_call k c = c ∨ f_pc (crash_call k c) = Returned false).
Proof. unfold crash_call. destruct (decide _); [|by auto]. destruct (f_pc c); simpl; by auto. Qed.

Lemma served_crash w k l : l ≠ [] → served has_holds w → served has_holds (fact_step has_holds w (FCrash k l)).
Proof.
  intros Hl [Hs Hf Hc Hh]. split; simpl.
  - intros j r Hj. apply list_lookup_insert_Some in Hj as [(_&<-&_)|[_ ?]]; [by apply boot_sinks|by eapply Hs].
  - intros j r run Hj. apply list_lookup_insert_Some in Hj as [(_&<-&_)|[_ ?]]; [simpl; set_solver|by eapply Hf].
  - intros c0 (c&->&Hin)%list_elem_of_fmap. destruct (crash_call_spec k c) as [-> [->|Hp]]; [by apply Hc|]. rewrite Hp. by intros [?|[?|?]].
  - intros c0 (c&->&Hin)%list_elem_of_fmap. destruct (crash_call_spec k c) as [-> [->|Hp]]; [by apply Hh|]. rewrite Hp. by intros [_ ?].
Qed.

Lemma served_prune w o t : served has_holds w → served has_holds (fact_step has_holds w (FPrune o t)).
Proof.
  intros [Hs Hf Hc Hh]. assert (Hk : ∀ run, known w run → known (fact_step has_holds w (FPrune o t)) run).
  { intros run. unfold known. simpl. destruct o; simpl; [..|rewrite map_to_list_empty, app_nil_r; done];
      rewrite (keys_split (stale_claim t) (hook_claims w)), !elem_of_app; unfold keys; tauto. }
  split; try done; intros; apply Hk; by eauto.
Qed.

Lemma served_step w a : with_sinks a → served has_holds w → served has_holds (fact_step has_holds w a).
Proof.
  intros Ha Hw. destruct a as [k q|i e|k run|k run|o olderThan|k a|k l].
  - destruct Hw as [Hs Hf Hc Hh]. split; simpl; try done.
    + intros c [Hin| ->%list_elem_of_singleton]%elem_of_app; [by apply Hc|]. by intros [?|[?|?]].
    + intros c [Hin| ->%list_elem_of_singleton]%elem_of_app; [by apply Hh|]. by intros [? _].
  - by apply served_finish_step.
  - apply served_on; [done|simpl; by auto|done].
  - apply served_on; [done| |done]. intros r x. simpl. rewrite elem_of_difference. tauto.
  - by apply served_prune.
  - simpl. destruct a; try done; (apply served_on; [intros r; by apply hstep_sinks|simpl; by auto|done]).
  - by apply served_crash.
Qed.
End served.

Lemma history_accounted has_holds w l : accounted w → accounted (foldl (fact_step has_holds) w l).
Proof. revert w. induction l as [|a l IH]; intros w Hw; simpl; [done|]. by apply IH, fact_accounted. Qed.

Lemma history_served has_holds w l : Forall with_sinks l → served has_holds w → served has_holds (foldl (fact_step has_holds) w l).
Proof. intros Hl. revert w. induction Hl as [|a l Ha Hl IH]; intros w Hw; simpl; [done|]. by apply IH, served_step. Qed.

Lemma served_boot has_holds ls t : Forall (λ l, l ≠ []) ls → served has_holds (fboot ls t).
Proof.
  intros Hls. assert (Hr : ∀ k r, replicas (fboot ls t) !! k = Some r → ∃ l, l ≠ [] ∧ r = boot l).
  { intros k r. simpl. change (map boot ls) with (boot <$> ls). rewrite list_lookup_fmap. destruct (ls !! k) as [l|] eqn:El; [|done].
    intros [= <-]. exists l. split; [|done]. by eapply (Forall_lookup_1 _ _ _ _ Hls). }
  split; simpl.
  - intros k r (l&Hl&->)%Hr. by apply boot_sinks.
  - intros k r run (l&Hl&->)%Hr. simpl. set_solver.
  - by intros c Hc%not_elem_of_nil.
  - by intros c Hc%not_elem_of_nil.
Qed.

(** C18. Whatever the interleaving of [finishRun] calls on several control planes,
    with lost replies, crashes and retention sweeps: every claim in the table or
    swept from it is accounted for exactly once, as a terminal [Dispatch] made, as
    one a call is about to make, or as one silenced because the claim's reply was
    lost or its process crashed; so while no claim is swept, a run's terminal event
    is dispatched at most once.  When every process has a sink, a call that
    returns without an error leaves its run so accounted for, and its usage hold
    released. *)
Theorem terminal_hook_accounted has_holds ls t l :
  let w := fhistory has_holds ls t l in
  fired w ++ claims_held w ++ silenced w ≡ₚ keys (hook_claims w) ++ swept w ∧
  (swept w = [] → NoDup (fired w)) ∧
  (Forall (λ l, l ≠ []) ls → Forall with_sinks l → ∀ c, c ∈ fcalls w → f_pc c = Returned true →
     q_run (f_req c) ∈ fired w ++ claims_held w ++ silenced w ∧
     (has_holds = true → TerminalRunStatus (q_status (f_req c)) = true → q_run (f_req c) ≠ "" →
        no_hold (q_run (f_req c)) (tables w))).
Proof.
  intros w. assert (Ha : accounted w).
  { apply history_accounted. unfold accounted, keys. simpl. by rewrite map_to_list_empty. }
  split; [done|]. split.
  - intros Hs. unfold accounted in Ha. rewrite Hs, app_nil_r in Ha. assert (Hnd : NoDup (fired w ++ claims_held w ++ silenced w)).
    { rewrite Ha. apply NoDup_fst_map_to_list. }
    by apply list.NoDup_app in Hnd as [? _].
  - intros Hls Hl c Hc Hpc. assert (Hw : served has_holds w) by (by apply history_served, served_boot). split.
    + unfold accounted in Ha. rewrite Ha. apply (sv_call _ _ Hw); [done|]. rewrite Hpc. by right; right.
    + apply (sv_hold _ _ Hw); [done|]. rewrite Hpc. by split.
Qed.

(** The claim's reply is lost, the caller retries: the retry finds the run claimed
    and returns without an error, and no terminal event is ever dispatched. *)
Definition quiet_end : list fact :=
  let q := mkFinished "r" "t" RunStatusSuccess "" in
  let e o := mkFEnv RFine o 0 in
  FStart 0 q :: replicate 5 (FStep 0 (e RLost)) ++ FStart 0 q :: replicate 7 (FStep 1 (e RFine)).

Example lost_claim_silences_hook :
  let w := fhistory true [[mkSink 0 ∅]] (mkTables [] []) quiet_end in
  map f_pc (fcalls w) = [Returned false; Returned true] ∧ fired w = [] ∧ silenced w = ["r"].
Proof. split; [|split]; vm_compute; reflexivity. Qed.

(** Two control planes finish one run, by turns. *)
Definition two_ends : list fact :=
  let q := mkFinished "r" "t" RunStatusSuccess "" in
  let e := mkFEnv RFine RFine 0 in
  [FStart 0 q; FStart 1 q] ++ concat (replicate 7 [FStep 0 e; FStep 1 e]).
Definition ended_twice : FWorld :=
  fhistory true [[mkSink 0 ∅]; [mkSink 0 ∅]] (mkTables [] [mkHold "r" "t" "a" (f64_of_Z 1) 0 0]) two_ends.

Lemma terminal_hook_accounted_witness :
  fired ended_twice = ["r"] ∧ NoDup (fired ended_twice) ∧ no_hold "r" (tables ended_twice).
Proof.
  destruct (terminal_hook_accounted true [[mkSink 0 ∅]; [mkSink 0 ∅]] (mkTables [] [mkHold "r" "t" "a" (f64_of_Z 1) 0 0]) two_ends) as (_&Hn&Hr).
  split; [vm_compute; reflexivity|]. split; [apply Hn; vm_compute; reflexivity|].
  apply (Hr ltac:(by repeat constructor) ltac:(by repeat constructor) (mkCall 1 (mkFinished "r" "t" RunStatusSuccess "") (Returned true))); try reflexivity.
  - vm_compute. right. left.
  - discriminate.
Defined.
