(* ===== verification/ThreadHandlers.v ===== *)
(** * Thread and checkpoint handlers

    Models [internal/api/threads.go] and [internal/api/checkpoints.go] on the SQLite
    store of [Store] and [StoreOps], with the store's checkpoint reads
    ([internal/state/sqlite/sqlite.go]).  A handler is its store calls in order;
    each takes its own environment, which statements fail and how the commit
    ends.  A response is its status code and what it carries; the codes of store
    errors are those of [handleStoreError]. *)

From Stdlib Require Import Ascii String.
From Stdlib.Init Require Byte.
From S2P Require Import Prelude GoStrings GoAny JsonNumber Completion Store StoreOps Namespaces CreateRun Auth.
Local Open Scope string_scope.
Local Open Scope Z_scope.
Local Open Scope list_scope.

(** ** Responses *)

Inductive response (A : Type) :=
| Reply (code : Z) (a : A)
| Failure (code : Z) (reason : string).
Arguments Reply {A} code a.
Arguments Failure {A} code reason.

(** [handleStoreError] on the errors of these calls. *)
Definition store_error {A} (e : err) : response A :=
  match e with
  | ENotFound r _ => Failure 404 r
  | EConflict r _ => Failure 409 r
  | EAdmission _ _ _ _ => Failure 429 "admission"
  | _ => Failure 500 "internal error"
  end.

(** The environment of one store call. *)
Record call_env := mkCallEnv { ce_fail : nat → bool; ce_commit : commit_outcome }.
Definition calm : call_env := mkCallEnv (λ _, false) CommitOk.

(** ** Threads *)

(** [req.ThreadID], or a fresh id. *)
Definition handleCreateThread (e1 e2 : call_env) (now : Z) (x : ctx) (fresh threadID ifExists : string)
    (metadata : option (gmap string any)) (db : DB) : DB * response (string * thread_row) :=
  if invalidResourceID threadID then (db, Failure 400 "invalid resource id")
  else
    let threadID := if String.eqb threadID "" then fresh else threadID in
    let t := mkThreadReq threadID ThreadStatusIdle (Some (default ∅ metadata)) None now now in
    match CreateThread (ce_fail e1) (ce_commit e1) x t db with
    | (db, Ok _) =>
        (db, Reply 200 (threadID, mkThread (FromContext x) ThreadStatusIdle ColNull 0 now (ColObj (default ∅ metadata)) now))
    | (db, Err e) =>
        if String.eqb ifExists "do_nothing" then
          match GetThread (ce_fail e2) x threadID db with
          | Ok existing => (db, Reply 200 (threadID, existing))
          | Err _ => (db, store_error e)
          end
        else (db, store_error e)
    end.

Definition handleGetThread (e : call_env) (x : ctx) (threadID : string) (db : DB) : response thread_row :=
  match GetThread (ce_fail e) x threadID db with Ok t => Reply 200 t | Err er => store_error er end.

Definition handleDeleteThread (e : call_env) (x : ctx) (threadID : string) (db : DB) : DB * response unit :=
  match DeleteThread (ce_fail e) (ce_commit e) x threadID db with
  | (db, Ok _) => (db, Reply 204 tt)
  | (db, Err er) => (db, store_error er)
  end.

(** [UpdateThread]: the read, then the guarded write; the merged values. *)
Definition UpdateThread (e1 e2 : call_env) (now : Z) (x : ctx) (threadID : string) (patch : ThreadPatch) (db : DB)
  : DB * res err (Z * option (gmap string any)) :=
  match GetThread (ce_fail e1) x threadID db with
  | Err e => (db, Err e)
  | Ok existing =>
      match UpdateThread_write (ce_fail e2) (ce_commit e2) now x threadID patch existing db with
      | (db, Ok v) => (db, Ok (v, patch_map (PValues patch) (go_map (t_values existing))))
      | (db, Err e) => (db, Err e)
      end
  end.

Section checkpoints.
(** The order of [created_at] in its stored representation. *)
Variable ts_le : Z → Z → bool.

Definition newest_ckpt (x : ctx) (threadID : string) (m : gmap string ckpt_row) : option (string * ckpt_row) :=
  match filter (λ kr, k_thread kr.2 = threadID ∧ visible x (k_tenant kr.2) = true) (map_to_list m) with
  | [] => None
  | r :: rs => Some (foldl (newer ts_le) r rs)
  end.

Definition GetLatestCheckpoint (e : call_env) (x : ctx) (threadID : string) (db : DB) : res err (string * ckpt_row) :=
  if ce_fail e 0%nat then Err EDriver
  else match newest_ckpt x threadID (ckpts db) with
       | Some r => Ok r
       | None => Err (ENotFound "checkpoint" "latest")
       end.

(** [saveRunCheckpoint]: errors are logged. *)
Definition saveRunCheckpoint (e1 e2 : call_env) (now : Z) (x : ctx) (fresh threadID : string) (values : gmap string any) (db : DB) : DB :=
  let parent := match GetLatestCheckpoint e1 x threadID db with Ok (id, _) => Some id | Err _ => None end in
  (SaveCheckpoint (ce_fail e2) (ce_commit e2) x threadID fresh "" parent values completion_docs now db).1.

Definition handlePatchThread (e1 e2 e3 e4 : call_env) (now : Z) (x : ctx) (fresh threadID : string) (patch : ThreadPatch) (db : DB)
  : DB * response Z :=
  match UpdateThread e1 e2 now x threadID patch db with
  | (db, Err e) => (db, store_error e)
  | (db, Ok (v, values)) =>
      match PValues patch with
      | Some p =>
          if decide (p = ∅) then (db, Reply 200 v)
          else (saveRunCheckpoint e3 e4 now x fresh threadID (default ∅ values) db, Reply 200 v)
      | None => (db, Reply 200 v)
      end
  end.

Definition handleCopyThread (e1 e2 : call_env) (now : Z) (x : ctx) (fresh threadID : string) (db : DB) : DB * response string :=
  match GetThread (ce_fail e1) x threadID db with
  | Err e => (db, store_error e)
  | Ok original =>
      let copy := mkThreadReq fresh (t_status original) (go_map (t_meta original)) (go_map (t_values original)) now now in
      match CreateThread (ce_fail e2) (ce_commit e2) x copy db with
      | (db, Err e) => (db, store_error e)
      | (db, Ok _) => (db, Reply 200 fresh)
      end
  end.

(** The checkpoint, or what the thread itself holds. *)
Definition handleGetThreadState (e1 e2 : call_env) (x : ctx) (threadID : string) (db : DB)
  : response (string * option (gmap string any)) :=
  match GetLatestCheckpoint e1 x threadID db with
  | Ok (id, k) => Reply 200 (id, Some (k_values k))
  | Err (ENotFound _ _) =>
      match GetThread (ce_fail e2) x threadID db with
      | Ok t => Reply 200 ("", go_map (t_values t))
      | Err e => store_error e
      end
  | Err e => store_error e
  end.

Definition handleUpdateThreadState (e1 e2 e3 e4 e5 : call_env) (now : Z) (x : ctx) (fresh threadID : string)
    (values : gmap string any) (db : DB) : DB * response string :=
  match GetThread (ce_fail e1) x threadID db with
  | Err e => (db, store_error e)
  | Ok thread =>
      let merged := values ∪ default ∅ (go_map (t_values thread)) in
      let parent := match GetLatestCheckpoint e2 x threadID db with Ok (id, _) => Some id | Err _ => None end in
      let docs := mkDocs (match go_map (t_meta thread) with Some m => AMap (map_to_list m) | None => ANil end)
                    (AArr []) (AArr []) (AArr []) in
      match SaveCheckpoint (ce_fail e3) (ce_commit e3) x threadID fresh "" parent merged docs now db with
      | (db, Err e) => (db, store_error e)
      | (db, Ok _) => ((UpdateThread e4 e5 now x threadID (mkPatch None (Some merged) None) db).1, Reply 200 fresh)
      end
  end.
End checkpoints.

(** ** Opaque checkpoints *)

(** [assertBoundThread]: [None] when the call may go on. *)
Definition assertBoundThread (b : option RunBinding) (threadID : string) : option (Z * string) :=
  match b with
  | None => Some (401, "run_binding_required")
  | Some b =>
      if String.eqb (RbThreadID b) "" then Some (403, "run_thread_mismatch")
      else if negb (String.eqb (RbThreadID b) threadID) then Some (403, "run_thread_mismatch")
      else None
  end.

Definition quote : ascii := ascii_of_N 34.

Definition etagFromVersion (v : Z) : list ascii := quote :: Itoa v ++ [quote].

(** [strings.Trim] of double quotes. *)
Fixpoint drop_quotes (l : list ascii) : list ascii :=
  match l with c :: l' => if Ascii.eqb c quote then drop_quotes l' else l | [] => [] end.
Definition trim_quotes (l : list ascii) : list ascii := reverse (drop_quotes (reverse (drop_quotes l))).

Definition split_sign (s : list ascii) : bool * list ascii :=
  match s with "-"%char :: d => (true, d) | "+"%char :: d => (false, d) | d => (false, d) end.

(** [strconv.ParseInt(s, 10, 64)] *)
Definition ParseInt10 (s : list ascii) : option Z :=
  let '(neg, d) := split_sign s in
  match d with
  | [] => None
  | _ =>
      if forallb is_digit d then
        if neg then if num d <=? 2 ^ 63 then Some (- num d) else None
        else if num d <? 2 ^ 63 then Some (num d) else None
      else None
  end.

(** Version, present, valid. *)
Definition parseIfMatch (h : list ascii) : Z * bool * bool :=
  let h := trim_right (trim_left h) in
  match h with
  | [] => (0, false, true)
  | ["*"%char] => (0, false, true)
  | _ =>
      if match h with c :: "/"%char :: _ => Ascii.eqb c "W" || Ascii.eqb c "w" | _ => false end then (0, true, false)
      else match ParseInt10 (trim_quotes h) with
           | Some v => if v <? 1 then (0, true, false) else (v, true, true)
           | None => (0, true, false)
           end
  end.

(** The precondition of a PUT: an error, or the version to match. *)
Definition put_precondition (ifMatch ifNone : string) : res string (option Z) :=
  let none := String.eqb (TrimSpace ifNone) "*" in
  match parseIfMatch (list_ascii_of_string ifMatch) with
  | (v, true, valid) =>
      if negb valid then Err "If-Match must be a strong numeric ETag"
      else if none then Err "If-Match and If-None-Match:* cannot both be set"
      else Ok (Some v)
  | (_, false, _) => Ok (if none then Some OpaqueCreateOnly else None)
  end.

(** The part of [err.Error()] a caller's identifiers appear in. *)
Definition err_text (e : err) : string :=
  match e with
  | ENotFound r id => r +:+ " not found: " +:+ id
  | EConflict r id => r +:+ " version mismatch: " +:+ id
  | EFence r => "checkpoint attempt rejected: " +:+ r
  | EOther m => m
  | _ => ""
  end.

(** A PUT's answer to a store error. *)
Definition put_error (e : err) : response Z :=
  match e with
  | EFence r => Failure 403 r
  | _ =>
      if Contains (err_text e) "exceeds" then Failure 413 "exceeds"
      else match e with EConflict _ _ => Failure 412 "checkpoint_version_mismatch" | _ => store_error e end
  end.

Definition handlePutOpaqueCheckpoint (e : call_env) (now : Z) (x : ctx) (b : option RunBinding) (threadID checkpointID : string)
    (body : option (list Byte.byte)) (framework ifMatch ifNone : string) (db : DB) : DB * response Z :=
  if String.eqb threadID "" || String.eqb checkpointID "" then (db, Failure 400 "thread_id and checkpoint_id are required")
  else
    match assertBoundThread b threadID, b with
    | Some (code, reason), _ => (db, Failure code reason)
    | None, Some b =>
        match body with
        | None => (db, Failure 400 "failed to read body")
        | Some data =>
            if MaxOpaqueCheckpointBytes <? Z.of_nat (length data) then (db, Failure 413 "checkpoint exceeds limit")
            else if String.eqb checkpointID "latest" then (db, Failure 400 "reserved")
            else
              match put_precondition ifMatch ifNone with
              | Err reason => (db, Failure 400 reason)
              | Ok pre =>
                  match PutBoundOpaqueCheckpoint (ce_fail e) (ce_commit e) now x (mkBinding (RbRunID b) (RbGeneration b) threadID)
                          checkpointID data (TrimSpace framework) pre db with
                  | (db, Ok v) => (db, Reply 204 v)
                  | (db, Err er) => (db, put_error er)
                  end
              end
        end
    | None, None => (db, Failure 401 "run_binding_required")
    end.

(** [GetOpaqueCheckpoint]; the key names the tenant, a system caller sees any. *)
Definition GetOpaqueCheckpoint (e : call_env) (x : ctx) (threadID checkpointID : string) (db : DB) : res err opaque_row :=
  if ce_fail e 0%nat then Err EDriver
  else match filter (λ ko, ko.1.1.2 = threadID ∧ ko.1.2 = checkpointID ∧ visible x ko.1.1.1 = true) (map_to_list (opaques db)) with
       | (_, o) :: _ => Ok o
       | [] => Err (ENotFound "opaque_checkpoint" checkpointID)
       end.

Definition handleGetOpaqueCheckpoint (e : call_env) (x : ctx) (b : option RunBinding) (threadID checkpointID : string) (db : DB)
  : response (list Byte.byte * string * list ascii) :=
  if String.eqb threadID "" || String.eqb checkpointID "" then Failure 400 "thread_id and checkpoint_id are required"
  else
    match assertBoundThread b threadID with
    | Some (code, reason) => Failure code reason
    | None =>
        match GetOpaqueCheckpoint e x threadID checkpointID db with
        | Ok o => Reply 200 (o_data o, o_framework o, etagFromVersion (o_version o))
        | Err er => store_error er
        end
    end.

(** The unit separator: a checkpoint of a namespace has a key that starts with the
    namespace and it. *)
Definition nsSep : ascii := ascii_of_N 31.

Definition in_namespace (ns checkpointID : string) : bool :=
  if String.eqb ns "" then match IndexByte checkpointID nsSep with Some _ => false | None => true end
  else like (ns +:+ String nsSep "%") checkpointID.

(** [ORDER BY checkpoint_id DESC LIMIT 1] *)
Definition greater_id (a b : string * opaque_row) : string * opaque_row :=
  match String.compare a.1 b.1 with Lt => b | _ => a end.

Definition GetLatestOpaqueCheckpoint (e : call_env) (x : ctx) (threadID ns : string) (db : DB) : res err (string * opaque_row) :=
  if ce_fail e 0%nat then Err EDriver
  else
    match map (λ ko : (string * string * string) * opaque_row, (ko.1.2, ko.2))
            (filter (λ ko, ko.1.1.2 = threadID ∧ in_namespace ns ko.1.2 = true ∧ visible x ko.1.1.1 = true) (map_to_list (opaques db))) with
    | [] => Err (ENotFound "opaque_checkpoint" threadID)
    | r :: rs => Ok (foldl greater_id r rs)
    end.

Definition handleGetLatestOpaqueCheckpoint (e : call_env) (x : ctx) (b : option RunBinding) (threadID ns : string) (db : DB)
  : response (string * (list Byte.byte * string * list ascii)) :=
  if String.eqb threadID "" then Failure 400 "thread_id is required"
  else
    match assertBoundThread b threadID with
    | Some (code, reason) => Failure code reason
    | None =>
        match GetLatestOpaqueCheckpoint e x threadID ns db with
        | Ok (id, o) => Reply 200 (id, (o_data o, o_framework o, etagFromVersion (o_version o)))
        | Err er => store_error er
        end
    end.

Definition handleDeleteOpaqueCheckpoint (e : call_env) (x : ctx) (b : option RunBinding) (threadID checkpointID : string) (db : DB)
  : DB * response unit :=
  if String.eqb threadID "" || String.eqb checkpointID "" then (db, Failure 400 "thread_id and checkpoint_id are required")
  else
    match assertBoundThread b threadID, b with
    | Some (code, reason), _ => (db, Failure code reason)
    | None, Some b =>
        match DeleteBoundOpaqueCheckpoint (ce_fail e) (ce_commit e) x (mkBinding (RbRunID b) (RbGeneration b) threadID) checkpointID db with
        | (db, Ok _) => (db, Reply 204 tt)
        | (db, Err (EFence r)) => (db, Failure 403 r)
        | (db, Err er) => (db, store_error er)
        end
    | None, None => (db, Failure 401 "run_binding_required")
    end.

(** * Thread and checkpoint handlers: properties
    Theorems on [ThreadHandlers]: an ETag is read back as the version it shows; a
    checkpoint that was put is read back with its bytes and its ETag; a conditional
    put succeeds only against the version it names; no binding reaches another
    thread's checkpoints; and what a copied busy thread, a namespace with a
    wildcard and an identifier that mentions [exceeds] lead to.  *)

Local Open Scope string_scope.
Local Open Scope Z_scope.
Local Open Scope list_scope.

(** ** ETags *)

Lemma quoted_not_space l : trim_right (trim_left (quote :: l ++ [quote])) = quote :: l ++ [quote].
Proof.
  assert (Hl : ∀ s2 s3 x, (∀ b, s2 quote b = false) → (∀ b c, s3 quote b c = false) → drop_space space1 s2 s3 (quote :: x) = quote :: x).
  { intros s2 s3 x H2 H3. destruct x as [|b [|c x]]; simpl; rewrite ?H2, ?H3; done. }
  unfold trim_left. rewrite Hl by done. unfold trim_right.
  assert (reverse (quote :: l ++ [quote]) = quote :: reverse l ++ [quote]) as Hr.
  { rewrite reverse_cons, reverse_app. done. }
  rewrite Hr, Hl.
  - rewrite <- Hr. apply reverse_involutive.
  - intros b. unfold space2. change (byte_of quote) with 34%N. simpl. by rewrite andb_false_r.
  - intros b c. unfold space3. change (byte_of quote) with 34%N. simpl. by rewrite !andb_false_r.
Qed.

Lemma digit_not_quote c : is_digit c = true → Ascii.eqb c quote = false.
Proof. intros H. destruct (Ascii.eqb_spec c quote) as [->|]; [|done]. vm_compute in H. done. Qed.

Lemma trim_quotes_digits d : digits d → d ≠ [] → trim_quotes (quote :: d ++ [quote]) = d.
Proof.
  intros Hd Hne. assert (Hq : ∀ x, digits x → x ≠ [] → ∀ y, drop_quotes (quote :: x ++ y) = x ++ y).
  { intros [|c x] Hx Hn y; [done|]. apply list.Forall_cons in Hx as [Hc _]. simpl. by rewrite (digit_not_quote c Hc). }
  unfold trim_quotes. rewrite Hq by done. rewrite reverse_app. change (reverse [quote] ++ reverse d) with (quote :: reverse d).
  assert (drop_quotes (quote :: reverse d) = reverse d) as ->; [|apply reverse_involutive].
  pose proof (Hq (reverse d)) as Hr. rewrite <- (app_nil_r (reverse d)) at 1. rewrite Hr, app_nil_r; [done| |].
  - unfold digits in *. apply list.Forall_forall. intros c Hc. rewrite list.Forall_forall in Hd. apply Hd.
    by rewrite elem_of_reverse in Hc.
  - intros Hz. apply Hne. by rewrite <- (reverse_involutive d), Hz.
Qed.

Lemma ParseInt10_digits d : digits d → d ≠ [] → num d < 2 ^ 63 → ParseInt10 d = Some (num d).
Proof.
  intros Hd Hne Hn. unfold ParseInt10. destruct d as [|c d]; [done|].
  assert (is_digit c = true) as Hc by (by apply list.Forall_cons in Hd as [Hc _]).
  assert (forallb is_digit (c :: d) = true) as Hall.
  { apply forallb_forall. intros x Hx%list_elem_of_In. unfold digits in Hd. rewrite list.Forall_forall in Hd. by apply Hd. }
  assert (split_sign (c :: d) = (false, c :: d)) as ->.
  { destruct c as [[] [] [] [] [] [] [] []]; vm_compute in Hc; try discriminate; reflexivity. }
  rewrite Hall. rewrite (proj2 (Z.ltb_lt _ _) Hn). done.
Qed.

(** The ETag of a version is a valid precondition that names exactly that
    version. *)
Theorem etag_roundtrip v : 1 ≤ v < 2 ^ 63 → parseIfMatch (etagFromVersion v) = (v, true, true).
Proof.
  intros [H1 H2]. unfold parseIfMatch, etagFromVersion. rewrite quoted_not_space.
  assert (canon (Itoa v) ∧ num (Itoa v) = v) as [(Hd&Hne&_) Hn].
  { unfold Itoa. destruct (Z.ltb_spec v 0); [lia|]. apply itoa_nat_spec. lia. }
  rewrite trim_quotes_digits by done. rewrite ParseInt10_digits by (done || lia). rewrite Hn.
  destruct (Z.ltb_spec v 1); [lia|]. destruct (Itoa v) as [|c l] eqn:E; [done|].
  assert (is_digit c = true) as Hc by (by apply list.Forall_cons in Hd as [Hc _]).
  destruct c as [[] [] [] [] [] [] [] []]; vm_compute in Hc; try discriminate; reflexivity.
Qed.

(** What is no ETag of the server's is accepted too: an unquoted number, a sign,
    quotes that do not balance. *)
Theorem if_match_lenient :
  map (λ h, parseIfMatch (list_ascii_of_string h)) ["7"; "+7"; "007"; "7" +:+ String quote ""; String quote (String quote "7")] =
  repeat (7, true, true) 5.
Proof. vm_compute. reflexivity. Qed.

(** ** Conditional puts *)

Lemma LockThread_reads fail x th n db a n' db' : LockThread fail x th n db = Ok (a, n', db') → db' = db.
Proof. unfold LockThread, on_no_rows, select_thread, tbind, tret, stmt. intros. repeat case_match; simplify_eq; done. Qed.

Lemma LockRunCheckpoint_reads fail x b n db a n' db' : LockRunCheckpoint fail x b n db = Ok (a, n', db') → db' = db.
Proof.
  unfold LockRunCheckpoint, tbind at 1. intros H.
  destruct (on_no_rows _ _ n db) as [[[[[[tn th] st] meta] n1] db1]|e] eqn:Hl; [|done].
  assert (db1 = db) as ->.
  { unfold on_no_rows, load, stmt, tbind, tret in Hl. repeat case_match; simplify_eq; done. }
  destruct (CheckRunCheckpointBinding th st meta b); [done|]. unfold tbind in H.
  destruct (LockThread fail x th n1 db) as [[[a1 n2] db2]|] eqn:H2; [|done]. apply LockThread_reads in H2. unfold tret in H. congruence.
Qed.

(** The version a precondition asks for, against the one that is stored. *)
Definition meets (pre : option Z) (stored : option opaque_row) : Prop :=
  match pre with
  | None => True
  | Some v => if v =? OpaqueCreateOnly then stored = None else ∃ o, stored = Some o ∧ o_version o = v
  end.

Definition next_version (stored : option opaque_row) : Z := match stored with Some o => o_version o + 1 | None => 1 end.

Lemma PutBound_effect fail co now x b id data fw pre db db' v :
  PutBoundOpaqueCheckpoint fail co now x b id data fw pre db = (db', Ok v) →
  let key := (FromContext x, BThreadID b, id) in
  meets pre (opaques db !! key) ∧ v = next_version (opaques db !! key) ∧
  db' = set_opaques (<[key := mkOpaque fw data v now]> (opaques db)) db.
Proof.
  unfold PutBoundOpaqueCheckpoint, WithRunCheckpoint, run_tx. destruct (fail 0%nat); [done|]. unfold tbind.
  destruct (LockRunCheckpoint fail x b 1%nat db) as [[[u n1] db1]|] eqn:Hl; [|done]. apply LockRunCheckpoint_reads in Hl as ->.
  unfold putOpaqueCheckpoint, stmt, put_opaque_row, terr, meets, next_version. cbv zeta. destruct (_ <? _); [done|].
  destruct pre as [w|]; [destruct (w =? OpaqueCreateOnly)|]; (destruct (fail n1); [done|]);
    destruct (opaques db !! _) as [o|] eqn:Ho; try done; intros H.
  - destruct co; simpl in H; simplify_eq; done.
  - destruct (Z.eqb_spec (o_version o) w); [|done]. destruct co; simpl in H; simplify_eq. split; [by exists o|done].
  - destruct co; simpl in H; simplify_eq; done.
  - destruct co; simpl in H; simplify_eq; done.
Qed.

Lemma PutBound_failed fail co now x b id data fw pre db db' e : co ≠ CommitLost →
  PutBoundOpaqueCheckpoint fail co now x b id data fw pre db = (db', Err e) → db' = db.
Proof.
  intros Hc. unfold PutBoundOpaqueCheckpoint, WithRunCheckpoint, run_tx. destruct (fail 0%nat); [by intros [= <- _]|].
  destruct (tbind _ _ _ _) as [[[u n1] db1]|]; [|by intros [= <- _]]. destruct co; try done. by intros [= <- _].
Qed.

Lemma assert_bound b th : assertBoundThread b th = None → ∃ rb, b = Some rb ∧ RbThreadID rb = th ∧ th ≠ "".
Proof.
  unfold assertBoundThread. destruct b as [rb|]; [|done]. destruct (String.eqb_spec (RbThreadID rb) ""); [done|].
  destruct (String.eqb_spec (RbThreadID rb) th); [|done]. intros _. exists rb. split; [done|]. split; [done|]. congruence.
Qed.

Lemma put_outcome e now x b th id body fw ifMatch ifNone db db' r :
  handlePutOpaqueCheckpoint e now x b th id body fw ifMatch ifNone db = (db', r) →
  match r with
  | Reply code v =>
      code = 204 ∧ ∃ rb data pre, b = Some rb ∧ RbThreadID rb = th ∧ body = Some data ∧
        put_precondition ifMatch ifNone = Ok pre ∧ meets pre (opaques db !! (FromContext x, th, id)) ∧
        v = next_version (opaques db !! (FromContext x, th, id)) ∧
        db' = set_opaques (<[(FromContext x, th, id) := mkOpaque (TrimSpace fw) data v now]> (opaques db)) db
  | Failure _ _ => ce_commit e ≠ CommitLost → db' = db
  end.
Proof.
  unfold handlePutOpaqueCheckpoint. destruct (_ || _); [by intros [= <- <-]|].
  destruct (assertBoundThread b th) as [[code reason]|] eqn:Hb; [by intros [= <- <-]|].
  apply assert_bound in Hb as (rb&->&Hth&_). destruct body as [data|]; [|by intros [= <- <-]].
  destruct (_ <? _); [by intros [= <- <-]|]. destruct (String.eqb id "latest"); [by intros [= <- <-]|].
  destruct (put_precondition ifMatch ifNone) as [pre|reason] eqn:Hp; [|by intros [= <- <-]].
  destruct (PutBoundOpaqueCheckpoint _ _ _ _ _ _ _ _ _ _) as [db1 [v|er]] eqn:Hput.
  - intros [= <- <-]. apply PutBound_effect in Hput as (Hm&Hv&Hdb). simpl in *. split; [done|]. by exists rb, data, pre.
  - intros [= <- <-]. assert (H : ce_commit e ≠ CommitLost → db1 = db) by (intros Hc; by eapply PutBound_failed).
    unfold put_error, store_error. repeat case_match; done.
Qed.

(** C32. A checkpoint is stored only for a run bound to its thread and only when the
    version it names is the one stored (or, with [If-None-Match], when there is
    none); then its version is the next one, and nothing else in the database
    changes.  A put that is refused changes nothing, unless the reply of a commit
    was lost. *)
Theorem checkpoint_put_conditional e now x b th id body fw ifMatch ifNone db db' r :
  handlePutOpaqueCheckpoint e now x b th id body fw ifMatch ifNone db = (db', r) →
  match r with
  | Reply code v =>
      code = 204 ∧ ∃ rb data pre, b = Some rb ∧ RbThreadID rb = th ∧ body = Some data ∧
        put_precondition ifMatch ifNone = Ok pre ∧ meets pre (opaques db !! (FromContext x, th, id)) ∧
        v = next_version (opaques db !! (FromContext x, th, id)) ∧
        db' = set_opaques (<[(FromContext x, th, id) := mkOpaque (TrimSpace fw) data v now]> (opaques db)) db
  | Failure _ _ => ce_commit e ≠ CommitLost → db' = db
  end.
Proof. apply put_outcome. Qed.

(** A checkpoint of the tenant's is what a read returns. *)
Lemma GetOpaque_tenant e x th id db o : ce_fail e 0%nat = false → IsSystem x = false →
  opaques db !! (FromContext x, th, id) = Some o → GetOpaqueCheckpoint e x th id db = Ok o.
Proof.
  intros Hf Hs Ho. unfold GetOpaqueCheckpoint. rewrite Hf.
  match goal with |- context [filter ?P ?l] => set (l' := filter P l); assert (Hall : ∀ ko, ko ∈ l' ↔ ko = ((FromContext x, th, id), o)) end.
  { intros [[[tn t] i] o']. subst l'. rewrite list_elem_of_filter, elem_of_map_to_list. simpl. unfold visible. rewrite Hs. simpl.
    rewrite String.eqb_eq. naive_solver. }
  destruct l' as [|[k o'] l']; [by pose proof (proj2 (Hall _) eq_refl) as ?%elem_of_nil|]. assert ((k, o') = ((FromContext x, th, id), o)) by (apply Hall; left).
  by simplify_eq.
Qed.

(** What a bound run put is what a later read of the same checkpoint returns, byte
    for byte, under the framework it named, with an ETag that a conditional put of
    the same runner may send back. *)
Theorem checkpoint_put_get e1 e2 now x b th id data fw ifMatch ifNone db db' v : IsSystem x = false → ce_fail e2 0%nat = false →
  handlePutOpaqueCheckpoint e1 now x b th id (Some data) fw ifMatch ifNone db = (db', Reply 204 v) →
  handleGetOpaqueCheckpoint e2 x b th id db' = Reply 200 (data, TrimSpace fw, etagFromVersion v).
Proof.
  intros Hs Hf Hput. pose proof (put_outcome _ _ _ _ _ _ _ _ _ _ _ _ _ Hput) as (_&rb&d&pre&->&Hth&[= <-]&_&_&_&->).
  unfold handlePutOpaqueCheckpoint in Hput. unfold handleGetOpaqueCheckpoint. destruct (_ || _); [done|].
  destruct (assertBoundThread (Some rb) th) as [[]|]; [done|].
  erewrite (GetOpaque_tenant e2 x th id); [|done|done|apply lookup_insert_eq]. done.
Qed.

Definition rb1 : RunBinding := mkRunBinding "r1" 1 "acme" "a1" "t1" None.
Definition acme : ctx := mkCtx (Some "acme") false.
Definition spec0 : run_spec := mkSpec "" "" None None 0.
Definition th1 (status : string) : thread_row := mkThread "acme" status (ColObj {["k" := AStr "v"]}) 3 0 (ColObj ∅) 0.
Definition db1 : DB :=
  mkDB {["r1" := mkRun "acme" "t1" "a1" RunStatusRunning (ColObj {[AttemptGenerationKey := AFloat (f64_of_Z 1)]}) ColEmpty "" 0 0 spec0]}
    {["t1" := th1 ThreadStatusBusy]} ∅ ∅.

Lemma checkpoint_put_conditional_witness :
  ∃ v, (handlePutOpaqueCheckpoint calm 5 acme (Some rb1) "t1" "ck" (Some []) "langgraph" "" "*" db1).2 = Reply 204 v ∧
       v = next_version (opaques db1 !! ("acme", "t1", "ck")).
Proof.
  set (p := handlePutOpaqueCheckpoint calm 5 acme (Some rb1) "t1" "ck" (Some []) "langgraph" "" "*" db1).
  assert (p.2 = Reply 204 1) as H2 by (vm_compute; reflexivity).
  pose proof (checkpoint_put_conditional calm 5 acme (Some rb1) "t1" "ck" (Some []) "langgraph" "" "*" db1 p.1 p.2 (surjective_pairing p)) as H.
  rewrite H2 in *. destruct H as (_&_&_&_&_&_&_&_&_&Hv&_). exists 1. split; [reflexivity|exact Hv].
Defined.

Lemma checkpoint_put_get_witness :
  handleGetOpaqueCheckpoint calm acme (Some rb1) "t1" "ck"
    (handlePutOpaqueCheckpoint calm 5 acme (Some rb1) "t1" "ck" (Some [Byte.x07]) "langgraph" "" "" db1).1 =
  Reply 200 ([Byte.x07], "langgraph", etagFromVersion 1).
Proof.
  set (p := handlePutOpaqueCheckpoint calm 5 acme (Some rb1) "t1" "ck" (Some [Byte.x07]) "langgraph" "" "" db1).
  assert (p.2 = Reply 204 1) as H2 by (vm_compute; reflexivity).
  apply (checkpoint_put_get calm calm 5 acme (Some rb1) "t1" "ck" [Byte.x07] "langgraph" "" "" db1 p.1 1).
  - reflexivity.
  - reflexivity.
  - change (p = (p.1, Reply 204 1)). rewrite <- H2. apply surjective_pairing.
Defined.

Lemma etag_roundtrip_witness : parseIfMatch (etagFromVersion 42) = (42, true, true).
Proof. apply (etag_roundtrip 42). lia. Defined.

(** ** Threads *)

(** Creating a thread never changes one that exists, whatever [if_exists] says. *)
Theorem create_thread_keeps e1 e2 now x fresh id ifExists meta db db' r k t :
  handleCreateThread e1 e2 now x fresh id ifExists meta db = (db', r) → threads db !! k = Some t →
  threads db' !! k = Some t ∧ runs db' = runs db ∧ ckpts db' = ckpts db ∧ opaques db' = opaques db.
Proof.
  unfold handleCreateThread, CreateThread, flatten, auto. destruct (invalidResourceID id); [by intros [= <- _]|]. cbv zeta.
  set (id' := if String.eqb id "" then fresh else id). intros H Hk.
  assert (Hne : ∀ row, threads db !! id' = None → <[id' := row]> (threads db) !! k = Some t).
  { intros row Hn. rewrite lookup_insert_ne; [done|]. congruence. }
  repeat case_match; simplify_eq; simpl in *; auto.
Qed.

Section state.
Variable ts_le : Z → Z → bool.

(** A state update that is answered with success has added one checkpoint: the new
    values over the thread's, with the newest earlier checkpoint as its parent;
    no checkpoint is lost. *)
Theorem update_state_appends e1 e2 e3 e4 e5 now x fresh th values db db' id :
  handleUpdateThreadState ts_le e1 e2 e3 e4 e5 now x fresh th values db = (db', Reply 200 id) →
  ∃ t parent docs, threads db !! th = Some t ∧ visible x (t_tenant t) = true ∧ id = fresh ∧
    ckpts db' = <[fresh := mkCkpt (FromContext x) th "" parent (values ∪ default ∅ (go_map (t_values t))) now docs]> (ckpts db) ∧
    ckpts db !! fresh = None ∧
    (ce_fail e2 0%nat = false → parent = fst <$> newest_ckpt ts_le x th (ckpts db)).
Proof.
  unfold handleUpdateThreadState. destruct (GetThread (ce_fail e1) x th db) as [t|er] eqn:Hg; [|unfold store_error; by destruct er].
  assert (threads db !! th = Some t ∧ visible x (t_tenant t) = true) as [Ht Hv].
  { unfold GetThread in Hg. repeat case_match; simplify_eq; done. }
  cbv zeta. set (parent := match GetLatestCheckpoint ts_le e2 x th db with Ok (i, _) => Some i | Err _ => None end).
  destruct (SaveCheckpoint _ _ _ _ _ _ _ _ _ _ _) as [db1 [u|er]] eqn:Hs; [|unfold store_error; by destruct er].
  intros [= <- <-]. unfold SaveCheckpoint, WithThread, run_tx in Hs. destruct (ce_fail e3 0%nat); [done|]. unfold tbind in Hs.
  destruct (LockThread _ _ _ _ _) as [[[a n1] db2]|] eqn:Hl; [|done]. apply LockThread_reads in Hl as ->.
  unfold insert_ckpt, stmt in Hs. destruct (ce_fail e3 n1); [done|]. destruct (ckpts db !! fresh) eqn:Hf; [done|].
  destruct (ce_commit e3); simplify_eq. eexists t, parent, _. split; [done|]. split; [done|]. split; [done|]. split.
  - assert (Hu : ∀ d, ckpts (UpdateThread e4 e5 now x th (mkPatch None (Some (values ∪ default ∅ (go_map (t_values t)))) None) d).1 = ckpts d).
    { intros d. unfold UpdateThread, UpdateThread_write, auto, update_thread_write. repeat case_match; simplify_eq; done. }
    rewrite Hu. done.
  - split; [done|]. intros He2. unfold parent, GetLatestCheckpoint. rewrite He2. by destruct (newest_ckpt ts_le x th (ckpts db)) as [[]|].
Qed.
End state.

(** A copy of a busy thread is busy, has no run, and cannot be claimed by one. *)
Theorem copied_busy_thread_stuck :
  let p := handleCopyThread calm calm 9 acme "t2" "t1" db1 in
  p.2 = Reply 200 "t2" ∧ (t_status <$> threads p.1 !! "t2") = Some ThreadStatusBusy ∧
  existsb (λ kr : string * run_row, String.eqb (r_thread kr.2) "t2") (map_to_list (runs p.1)) = false ∧
  (TryClaimThread (λ _, false) CommitOk 10 acme "t2" p.1).2 = Ok false.
Proof. vm_compute. auto. Qed.

(** ** Opaque keys *)

(** The newest checkpoint of a namespace with an underscore may be one of another
    namespace: LIKE reads it as any character, and letters without case. *)
Definition two_namespaces : DB :=
  mkDB ∅ {["t1" := th1 ThreadStatusBusy]} ∅
    (<[("acme", "t1", "sub_graph" +:+ String nsSep "1") := mkOpaque "lg" [Byte.x01] 1 0]>
      {[("acme", "t1", "SubXgraph" +:+ String nsSep "0") := mkOpaque "lg" [Byte.x02] 1 0]}).

Theorem latest_of_other_namespace :
  GetLatestOpaqueCheckpoint calm acme "t1" "sub_graph" two_namespaces = Ok ("sub_graph" +:+ String nsSep "1", mkOpaque "lg" [Byte.x01] 1 0) ∧
  GetLatestOpaqueCheckpoint calm acme "t1" "sub_graph"
    (set_opaques (delete ("acme", "t1", "sub_graph" +:+ String nsSep "1") (opaques two_namespaces)) two_namespaces) =
    Ok ("SubXgraph" +:+ String nsSep "0", mkOpaque "lg" [Byte.x02] 1 0).
Proof. split; vm_compute; reflexivity. Qed.

(** A version conflict on a checkpoint whose identifier mentions [exceeds] is
    answered as a body that is too large. *)
Theorem conflict_reported_as_too_large :
  (handlePutOpaqueCheckpoint calm 5 acme (Some rb1) "t1" "exceeds-1" (Some []) "lg" (String quote "3") "" db1).2 = Failure 413 "exceeds" ∧
  (handlePutOpaqueCheckpoint calm 5 acme (Some rb1) "t1" "ck-1" (Some []) "lg" (String quote "3") "" db1).2 =
    Failure 412 "checkpoint_version_mismatch".
Proof. split; vm_compute; reflexivity. Qed.
