(* ===== verification/Retention.v ===== *)
(** * Retention

    Models [cmd/retention.go] (the configuration and one sweep), the
    configuration of [cmd/run_timeout.go], and the store's prune statements they
    call: [PruneCheckpoints], [PruneOpaqueCheckpoints], [PruneWebhookDeadLetters]
    and [ListWebhookDeadLetters] of [internal/state/sqlite/sqlite.go].  [PruneRuns]
    is that of [StoreOps], [PruneCronClaims] of [Cron], [PruneTerminalHookClaims]
    of [FinishRun].  A duration of the configuration is [None] when the text is
    empty and [Some None] when it does not parse. *)

From Stdlib Require Import Permutation.
From S2P Require Import Prelude GoTime Completion Store StoreOps Cron FinishRun.
Local Open Scope string_scope.
Local Open Scope Z_scope.
Local Open Scope list_scope.

(** ** [ROW_NUMBER() OVER (PARTITION BY group ORDER BY created_at DESC)] *)

(** The order in which the engine numbers a partition: total, and newer rows come
    first; rows of one time come in an order of the engine's own. *)
Class Window {K V : Type} (newer_eq before : K * V → K * V → bool) : Prop := {
  w_total a b : before a b = true ∨ before b a = true;
  w_trans a b c : before a b = true → before b c = true → before a c = true;
  w_antisym a b : before a b = true → before b a = true → a.1 = b.1;
  w_time a b : before a b = true → newer_eq a b = true
}.

Section window.
Context {K V G : Type} `{Countable K} `{!EqDecision G}.
Variable before : K * V → K * V → bool.
Variable group : K * V → G.
Variable vis : K * V → bool.

Definition window (g : G) (m : gmap K V) : list (K * V) :=
  filter (λ kr, group kr = g ∧ vis kr = true) (map_to_list m).

(** The rows numbered before [a]. *)
Definition rank (l : list (K * V)) (a : K * V) : nat :=
  length (filter (λ b, before b a = true ∧ b.1 ≠ a.1) l).

Definition row_number (m : gmap K V) (kr : K * V) : nat := S (rank (window (group kr) m) kr).

(** [DELETE ... WHERE rn > n] *)
Definition excess (n : nat) (m : gmap K V) (kr : K * V) : Prop := vis kr = true ∧ (n < row_number m kr)%nat.
#[global] Instance excess_dec n m kr : Decision (excess n m kr).
Proof. unfold excess. apply _. Defined.
Definition keep_last (n : nat) (m : gmap K V) : gmap K V := filter (λ kr, ¬ excess n m kr) m.
End window.

(** ** Checkpoints *)

Section prune.
Variable fail : nat → bool.
Variable ckpt_before : string * ckpt_row → string * ckpt_row → bool.
Variable opaque_before : (string * string * string) * opaque_row → (string * string * string) * opaque_row → bool.

Definition ckpt_group (kr : string * ckpt_row) : string := k_thread kr.2.
Definition ckpt_visible (x : ctx) (kr : string * ckpt_row) : bool := visible x (k_tenant kr.2).

Definition PruneCheckpoints (co : commit_outcome) (x : ctx) (keepLast : Z) (db : DB) : DB * res err Z :=
  if keepLast <=? 0 then (db, Ok 0)
  else auto fail co (λ db,
    let kept := keep_last ckpt_before ckpt_group (ckpt_visible x) (Z.to_nat keepLast) (ckpts db) in
    (Z.of_nat (size (ckpts db)) - Z.of_nat (size kept), set_ckpts kept db)) db.

Definition opaque_group (kr : (string * string * string) * opaque_row) : string * string := kr.1.1.
Definition opaque_visible (x : ctx) (kr : (string * string * string) * opaque_row) : bool := visible x kr.1.1.1.

Definition PruneOpaqueCheckpoints (co : commit_outcome) (x : ctx) (keepLast : Z) (db : DB) : DB * res err Z :=
  if keepLast <=? 0 then (db, Ok 0)
  else auto fail co (λ db,
    let kept := keep_last opaque_before opaque_group (opaque_visible x) (Z.to_nat keepLast) (opaques db) in
    (Z.of_nat (size (opaques db)) - Z.of_nat (size kept), set_opaques kept db)) db.
End prune.

(** ** Webhook dead letters *)

Record dead_row := mkDead { dr_tenant : string; dr_letter : string; dr_failed : Z }.

Definition stale_letter (x : ctx) (olderThan : Z) (kr : string * dead_row) : Prop :=
  dr_failed kr.2 < sec olderThan ∧ visible x (dr_tenant kr.2) = true.
#[export] Instance stale_letter_dec x t kr : Decision (stale_letter x t kr).
Proof. unfold stale_letter. apply _. Defined.

(** Ids are fresh: the statement fails on one in use. *)
Definition SaveWebhookDeadLetter (o : reply) (x : ctx) (id letter : string) (failedAt : Z) (m : gmap string dead_row)
  : gmap string dead_row * res err unit :=
  match m !! id with
  | Some _ => (m, Err EDriver)
  | None => attempt EDriver o (λ m, (<[id := mkDead (FromContext x) letter (sec failedAt)]> m, tt)) m
  end.

Definition newer_letter (a b : string * dead_row) : bool := dr_failed b.2 <=? dr_failed a.2.

Definition ListWebhookDeadLetters (fail : bool) (x : ctx) (limit : Z) (m : gmap string dead_row) : res err (list (string * dead_row)) :=
  if fail then Err EDriver
  else Ok (take (Z.to_nat (if limit <=? 0 then 50 else limit))
             (sort_by newer_letter (filter (λ kr, visible x (dr_tenant kr.2) = true) (map_to_list m)))).

Definition PruneWebhookDeadLetters (o : reply) (x : ctx) (olderThan : Z) : gmap string dead_row → gmap string dead_row * res err Z :=
  attempt EDriver o (λ m : gmap string dead_row,
    (filter (λ kr, ¬ stale_letter x olderThan kr) m, Z.of_nat (size (filter (stale_letter x olderThan) m)))).

(** ** Configuration *)

Notation duration_text := (option (option Z)).

Record RetentionEntry := mkRetentionEntry {
  RunsMaxAge : duration_text;
  CheckpointsKeepLast : Z;
  CronClaimsMaxAge : duration_text;
  TerminalHookClaimsMaxAge : duration_text;
  WebhookDeadLettersMaxAge : duration_text;
  IntervalMinutes : Z
}.

Record retentionConfig := mkRetention {
  runsMaxAge : Z;
  checkpointsKeepLast : Z;
  cronClaimsMaxAge : Z;
  terminalHookClaimsMaxAge : Z;
  webhookDeadLettersMaxAge : Z;
  interval : Z
}.

(** An empty or unreadable text leaves the dimension off. *)
Definition age (d : duration_text) : Z := match d with Some (Some d) => d | _ => 0 end.

Definition minute : Z := 60 * second.

(** [cfg] is what the first configuration file has, if it loads. *)
Definition initRetentionConfig (cfg : option RetentionEntry) : option retentionConfig :=
  match cfg with
  | None => None
  | Some c =>
      let rc i := mkRetention (age (RunsMaxAge c)) (CheckpointsKeepLast c) (age (CronClaimsMaxAge c))
                    (age (TerminalHookClaimsMaxAge c)) (age (WebhookDeadLettersMaxAge c)) i in
      if (age (RunsMaxAge c) <=? 0) && (CheckpointsKeepLast c <=? 0) && (age (CronClaimsMaxAge c) <=? 0)
         && (age (TerminalHookClaimsMaxAge c) <=? 0) && (age (WebhookDeadLettersMaxAge c) <=? 0)
      then None
      else
        let i := wrap64 (IntervalMinutes c * minute) in
        Some (rc (if i <=? 0 then 60 * minute else i))
  end.

Record RunTimeoutEntry := mkTimeoutEntry { MaxDuration : duration_text; IntervalSeconds : Z }.
Record runTimeoutConfig := mkTimeout { maxDuration : Z; t_interval : Z }.

Definition initRunTimeoutConfig (cfg : option RunTimeoutEntry) : option runTimeoutConfig :=
  match cfg with
  | Some c =>
      match MaxDuration c with
      | Some (Some d) =>
          if d <=? 0 then None
          else
            let i := wrap64 (IntervalSeconds c * second) in
            Some (mkTimeout d (if i <=? 0 then 15 * second else i))
      | _ => None
      end
  | None => None
  end.

(** ** One sweep *)

Record RetainedTables := mkRetained {
  rt_db : DB;
  rt_cron : CronTables;
  rt_hooks : HookClaims;
  rt_letters : gmap string dead_row
}.

(** How each statement turns out, and the clock at each cutoff. *)
Record sweep_env := mkSweep {
  se_now : nat → Z;
  se_fail : nat → nat → bool;
  se_commit : nat → commit_outcome;
  se_reply : nat → reply
}.

Section sweep.
Variable ts_le : Z → Z → bool.
Variable ckpt_before : string * ckpt_row → string * ckpt_row → bool.
Variable opaque_before : (string * string * string) * opaque_row → (string * string * string) * opaque_row → bool.

Definition on_db (f : DB → DB) (s : RetainedTables) : RetainedTables :=
  mkRetained (f (rt_db s)) (rt_cron s) (rt_hooks s) (rt_letters s).

(** An error of one statement is logged and the others still run. *)
Definition runRetentionTick (e : sweep_env) (x : ctx) (rc : retentionConfig) (s : RetainedTables) : RetainedTables :=
  let sys := SystemContext x in
  let s := if 0 <? runsMaxAge rc
           then on_db (λ db, (PruneRuns (se_fail e 0) ts_le (se_commit e 0) sys (se_now e 0 - runsMaxAge rc) db).1) s else s in
  let s := if 0 <? checkpointsKeepLast rc
           then on_db (λ db, (PruneOpaqueCheckpoints (se_fail e 2) opaque_before (se_commit e 2) sys (checkpointsKeepLast rc)
                                (PruneCheckpoints (se_fail e 1) ckpt_before (se_commit e 1) sys (checkpointsKeepLast rc) db).1).1) s
           else s in
  let s := if 0 <? cronClaimsMaxAge rc
           then mkRetained (rt_db s) (PruneCronClaims (se_reply e 3) sys (se_now e 3 - cronClaimsMaxAge rc) (rt_cron s)).1
                  (rt_hooks s) (rt_letters s) else s in
  let s := if 0 <? terminalHookClaimsMaxAge rc
           then mkRetained (rt_db s) (rt_cron s)
                  (PruneTerminalHookClaims (se_reply e 4) (se_now e 4 - terminalHookClaimsMaxAge rc) (rt_hooks s)).1 (rt_letters s)
           else s in
  if 0 <? webhookDeadLettersMaxAge rc
  then mkRetained (rt_db s) (rt_cron s) (rt_hooks s)
         (PruneWebhookDeadLetters (se_reply e 5) sys (se_now e 5 - webhookDeadLettersMaxAge rc) (rt_letters s)).1
  else s.
End sweep.

(** * What retention keeps
    A sweep, whatever statements fail, deletes only terminal runs past their age
    and only the checkpoints behind the newest [keep_last] of their thread; and a
    case where the opaque checkpoint a thread continues from is among those
    deleted.  *)

From S2P Require Import GoAny StoreSteps ThreadHandlers.
Local Open Scope string_scope.
Local Open Scope Z_scope.
Local Open Scope list_scope.

(** ** Numbered windows *)

(** A predicate that holds exactly at the first [n] positions. *)
Lemma filter_prefix {A} (P : A → Prop) `{!∀ a, Decision (P a)} l n :
  (∀ i a, l !! i = Some a → P a ↔ (i < n)%nat) → filter P l = take n l.
Proof.
  revert n. induction l as [|a l IH]; intros n Hp; [by destruct n|]. pose proof (Hp 0%nat a eq_refl) as H0.
  destruct n as [|n]; simpl.
  - rewrite filter_cons_False by (rewrite H0; lia). rewrite (IH 0%nat); [by destruct l|]. intros i b Hi. specialize (Hp (S i) b Hi). rewrite Hp. lia.
  - rewrite filter_cons_True by (apply H0; lia). f_equal. apply IH. intros i b Hi. specialize (Hp (S i) b Hi). rewrite Hp. lia.
Qed.

Lemma NoDup_filter_keys {K A} `{Countable K} (P : K * A → Prop) `{!∀ x, Decision (P x)} (m : gmap K A) :
  NoDup (filter P (map_to_list m)).*1.
Proof.
  apply (sublist_NoDup _ (map_to_list m).*1); [apply NoDup_fst_map_to_list|]. by apply fmap_sublist, sublist_filter.
Qed.

Lemma map_to_list_filter {K A} `{Countable K} (P : K * A → Prop) `{!∀ x, Decision (P x)} (m : gmap K A) :
  map_to_list (filter P m) ≡ₚ filter P (map_to_list m).
Proof.
  rewrite map_filter_alt. apply map_to_list_to_map, NoDup_filter_keys; apply _.
Qed.

Section windows.
Context {K V : Type} `{Countable K}.
Context (newer_eq before : K * V → K * V → bool) `{!Window newer_eq before}.

Lemma rank_perm l l' a : l ≡ₚ l' → rank before l a = rank before l' a.
Proof. intros Hp. unfold rank. by rewrite Hp. Qed.

(** In a list in window order the rank of a row is its position. *)
Lemma rank_sorted l i a : StronglySorted (λ a b, before a b = true) l → NoDup l.*1 → l !! i = Some a → rank before l a = i.
Proof using Window0.
  intros Hs. revert i. induction Hs as [|x l Hs IH Hx]; intros i Hnd Hi; [done|]. rewrite fmap_cons in Hnd.
  apply list.NoDup_cons in Hnd as [Hni Hnd]. rewrite list.Forall_forall in Hx. unfold rank in *.
  assert (Hk : ∀ b, b ∈ l → b.1 ≠ x.1) by (intros b Hb Heq; apply Hni; rewrite <- Heq; by apply list_elem_of_fmap_2).
  destruct i as [|i]; simpl in Hi.
  - injection Hi as ->. rewrite filter_cons_False by tauto. apply length_zero_iff_nil. apply elem_of_nil_inv. intros b [[Hb _] Hin]%list_elem_of_filter.
    eapply (Hk b Hin), w_antisym; [done|by apply Hx].
  - apply list_elem_of_lookup_2 in Hi as Hin. rewrite filter_cons_True.
    + simpl. by rewrite (IH i).
    + split; [by apply Hx|]. by apply not_eq_sym, Hk.
Qed.

Context {G : Type} `{!EqDecision G} (group : K * V → G) (vis : K * V → bool).

(** The rows a prune leaves in a partition are its first [n]. *)
Lemma keep_last_window n g m :
  window group vis g (keep_last before group vis n m) ≡ₚ take n (sort_by before (window group vis g m)).
Proof using Window0.
  unfold window at 1, keep_last. rewrite map_to_list_filter, list_filter_filter.
  rewrite (list_filter_iff _ (λ kr, rank before (window group vis g m) kr < n ∧ group kr = g ∧ vis kr = true)%nat).
  2: { intros kr. unfold excess, row_number. split.
       - intros [[Hg Hv] Hne]. rewrite Hg in Hne. split; [|done]. destruct (decide (rank before (window group vis g m) kr < n)%nat); [done|].
         destruct Hne. split; [done|lia].
       - intros (Hr&Hg&Hv). split; [done|]. rewrite Hg. intros [_ ?]. lia. }
  rewrite <- (list_filter_filter (λ kr, rank before (window group vis g m) kr < n)%nat (λ kr, group kr = g ∧ vis kr = true)).
  fold (window group vis g m). set (l := window group vis g m).
  transitivity (filter (λ kr, (rank before l kr < n)%nat) (sort_by before l)); [by rewrite sort_by_perm|].
  rewrite (filter_prefix _ (sort_by before l) n); [done|]. intros i a Hi.
  assert (Hr : rank before l a = i); [|by rewrite Hr].
  rewrite (rank_perm l (sort_by before l)) by (by rewrite sort_by_perm). apply rank_sorted; [..|done].
  - apply sort_by_sorted; [apply w_total|apply w_trans].
  - rewrite sort_by_perm. apply NoDup_filter_keys; apply _.
Qed.

(** Rows the caller does not see are left alone, and no row changes. *)
Lemma keep_last_unseen n m k v : m !! k = Some v → vis (k, v) = false → keep_last before group vis n m !! k = Some v.
Proof.
  intros Hk Hv. unfold keep_last. apply map_lookup_filter_Some. split; [done|]. intros [Ht _]. congruence.
Qed.

(** What one partition becomes. *)
Definition trimmed (n : Z) (l l' : list (K * V)) : Prop :=
  l' ≡ₚ l ∨ (0 < n ∧ l' ≡ₚ take (Z.to_nat n) (sort_by before l)).

(** The newest row is always left. *)
Lemma trimmed_newest n l l' : trimmed n l l' → l ≠ [] → ∃ a, a ∈ l' ∧ ∀ b, b ∈ l → newer_eq a b = true.
Proof using Window0.
  intros Ht Hne. pose proof (sort_by_perm before l) as Hs. pose proof (sort_by_sorted before w_total w_trans l) as Hss.
  unfold trimmed in Ht. destruct (sort_by before l) as [|a k]; [by apply Permutation_nil in Hs|]. exists a. split.
  - destruct Ht as [->|[Hn ->]]; [rewrite <- Hs; left|]. destruct (Z.to_nat n) eqn:E; [lia|]. simpl. left.
  - intros b Hb. rewrite <- Hs in Hb. apply w_time. apply elem_of_cons in Hb as [->|Hb]; [by destruct (w_total a a)|].
    inversion_clear Hss as [|? ? ? Hall]. rewrite list.Forall_forall in Hall. by apply Hall.
Qed.

Lemma trimmed_window g m m' n : m' = m ∨ 0 < n ∧ m' = keep_last before group vis (Z.to_nat n) m →
  trimmed n (window group vis g m) (window group vis g m').
Proof using Window0. intros [->|[Hn ->]]; [by left|right]. split; [done|]. apply keep_last_window. Qed.
End windows.

(** ** The statements *)

Definition newer_ckpt (ts_le : Z → Z → bool) (a b : string * ckpt_row) : bool := ts_le (k_created b.2) (k_created a.2).
Definition newer_opaque (ts_le : Z → Z → bool) (a b : (string * string * string) * opaque_row) : bool := ts_le (o_created b.2) (o_created a.2).

Section statements.
Context (ts_le : Z → Z → bool).
Context (cb : string * ckpt_row → string * ckpt_row → bool) `{!Window (newer_ckpt ts_le) cb}.
Context (ob : (string * string * string) * opaque_row → (string * string * string) * opaque_row → bool)
  `{!Window (newer_opaque ts_le) ob}.

Lemma prune_ckpts_cases fail co x n db :
  let db' := (PruneCheckpoints fail cb co x n db).1 in
  db' = db ∨ (0 < n ∧ db' = set_ckpts (keep_last cb ckpt_group (ckpt_visible x) (Z.to_nat n) (ckpts db)) db).
Proof.
  unfold PruneCheckpoints. destruct (Z.leb_spec n 0); [by left|]. unfold auto. destruct (fail 0%nat); [by left|].
  destruct co; simpl; by auto.
Qed.

Lemma prune_opaques_cases fail co x n db :
  let db' := (PruneOpaqueCheckpoints fail ob co x n db).1 in
  db' = db ∨ (0 < n ∧ db' = set_opaques (keep_last ob opaque_group (opaque_visible x) (Z.to_nat n) (opaques db)) db).
Proof.
  unfold PruneOpaqueCheckpoints. destruct (Z.leb_spec n 0); [by left|]. unfold auto. destruct (fail 0%nat); [by left|].
  destruct co; simpl; by auto.
Qed.

Lemma prune_runs_cases fail co x t db :
  let db' := (PruneRuns fail ts_le co x t db).1 in
  db' = db ∨ db' = set_runs (filter (λ kr, prunable ts_le x t kr.2 = false) (runs db)) db.
Proof. unfold PruneRuns, auto. destruct (fail 0%nat); [by left|]. destruct co; simpl; by auto. Qed.

(** What a sweep may do to each table. *)
Definition thread_rows (th : string) (db : DB) : list (string * ckpt_row) := window ckpt_group (λ _, true) th (ckpts db).
Definition blob_rows (g : string * string) (db : DB) : list ((string * string * string) * opaque_row) :=
  window opaque_group (λ _, true) g (opaques db).

Definition sweep_db (e : sweep_env) (x : ctx) (rc : retentionConfig) (db : DB) : DB :=
  let sys := SystemContext x in
  let db := if 0 <? runsMaxAge rc then (PruneRuns (se_fail e 0) ts_le (se_commit e 0) sys (se_now e 0 - runsMaxAge rc) db).1 else db in
  if 0 <? checkpointsKeepLast rc
  then (PruneOpaqueCheckpoints (se_fail e 2) ob (se_commit e 2) sys (checkpointsKeepLast rc)
          (PruneCheckpoints (se_fail e 1) cb (se_commit e 1) sys (checkpointsKeepLast rc) db).1).1
  else db.

Lemma sweep_db_ok e x rc s : rt_db (runRetentionTick ts_le cb ob e x rc s) = sweep_db e x rc (rt_db s).
Proof. unfold runRetentionTick, sweep_db. by repeat case_match. Qed.

Lemma sweep_db_runs e x rc db : let db' := sweep_db e x rc db in
  threads db' = threads db ∧
  (runs db' = runs db ∨
   0 < runsMaxAge rc ∧ runs db' = filter (λ kr, prunable ts_le (SystemContext x) (se_now e 0 - runsMaxAge rc) kr.2 = false) (runs db)).
Proof.
  unfold sweep_db. cbv zeta. set (db1 := if 0 <? runsMaxAge rc then _ else db).
  assert (H1 : threads db1 = threads db ∧ (runs db1 = runs db ∨ 0 < runsMaxAge rc ∧
    runs db1 = filter (λ kr, prunable ts_le (SystemContext x) (se_now e 0 - runsMaxAge rc) kr.2 = false) (runs db))).
  { unfold db1. destruct (Z.ltb_spec 0 (runsMaxAge rc)); [|by auto].
    destruct (prune_runs_cases (se_fail e 0) (se_commit e 0) (SystemContext x) (se_now e 0 - runsMaxAge rc) db) as [->| ->]; by auto. }
  destruct (0 <? checkpointsKeepLast rc); [|done].
  destruct (prune_opaques_cases (se_fail e 2) (se_commit e 2) (SystemContext x) (checkpointsKeepLast rc)
              (PruneCheckpoints (se_fail e 1) cb (se_commit e 1) (SystemContext x) (checkpointsKeepLast rc) db1).1) as [->|[_ ->]];
    destruct (prune_ckpts_cases (se_fail e 1) (se_commit e 1) (SystemContext x) (checkpointsKeepLast rc) db1) as [->|[_ ->]]; done.
Qed.

Lemma sweep_db_rows e x rc db : let db' := sweep_db e x rc db in
  (ckpts db' = ckpts db ∨
   0 < checkpointsKeepLast rc ∧ ckpts db' = keep_last cb ckpt_group (ckpt_visible (SystemContext x)) (Z.to_nat (checkpointsKeepLast rc)) (ckpts db)) ∧
  (opaques db' = opaques db ∨
   0 < checkpointsKeepLast rc ∧ opaques db' = keep_last ob opaque_group (opaque_visible (SystemContext x)) (Z.to_nat (checkpointsKeepLast rc)) (opaques db)).
Proof.
  unfold sweep_db. cbv zeta. set (db1 := if 0 <? runsMaxAge rc then _ else db).
  assert (H1 : ckpts db1 = ckpts db ∧ opaques db1 = opaques db).
  { unfold db1. destruct (0 <? runsMaxAge rc); [|done].
    destruct (prune_runs_cases (se_fail e 0) (se_commit e 0) (SystemContext x) (se_now e 0 - runsMaxAge rc) db) as [->| ->]; done. }
  destruct H1 as [<- <-]. destruct (0 <? checkpointsKeepLast rc); [|by auto].
  destruct (prune_opaques_cases (se_fail e 2) (se_commit e 2) (SystemContext x) (checkpointsKeepLast rc)
              (PruneCheckpoints (se_fail e 1) cb (se_commit e 1) (SystemContext x) (checkpointsKeepLast rc) db1).1) as [->|[? ->]];
    destruct (prune_ckpts_cases (se_fail e 1) (se_commit e 1) (SystemContext x) (checkpointsKeepLast rc) db1) as [->|[? ->]]; by auto.
Qed.

Lemma sweep_claims e x rc s : let s' := runRetentionTick ts_le cb ob e x rc s in
  (∀ k c, cron_claims (rt_cron s) !! k = Some c →
     cron_claims (rt_cron s') !! k = Some c ∨ 0 < cronClaimsMaxAge rc ∧ k.2 < sec (se_now e 3 - cronClaimsMaxAge rc)) ∧
  (∀ k c, rt_hooks s !! k = Some c →
     rt_hooks s' !! k = Some c ∨ 0 < terminalHookClaimsMaxAge rc ∧ c < sec (se_now e 4 - terminalHookClaimsMaxAge rc)) ∧
  (∀ k d, rt_letters s !! k = Some d →
     rt_letters s' !! k = Some d ∨ 0 < webhookDeadLettersMaxAge rc ∧ dr_failed d < sec (se_now e 5 - webhookDeadLettersMaxAge rc)).
Proof.
  assert (Hc : ∀ t k c, cron_claims (rt_cron s) !! k = Some c →
    cron_claims (PruneCronClaims (se_reply e 3) (SystemContext x) t (rt_cron s)).1 !! k = Some c ∨ k.2 < sec t).
  { intros t k c Hk. unfold PruneCronClaims, attempt. destruct (Z.ltb_spec k.2 (sec t)) as [|Hge]; [by right|left].
    destruct (se_reply e 3); simpl; [..|done]; (apply map_lookup_filter_Some; split; [done|]; simpl; by destruct (Z.ltb_spec k.2 (sec t)); [lia|]). }
  assert (Hh : ∀ t k c, rt_hooks s !! k = Some c → (PruneTerminalHookClaims (se_reply e 4) t (rt_hooks s)).1 !! k = Some c ∨ c < sec t).
  { intros t k c Hk. unfold PruneTerminalHookClaims, attempt. destruct (Z.ltb_spec c (sec t)) as [|Hge]; [by right|left].
    destruct (se_reply e 4); simpl; [..|done]; (apply map_lookup_filter_Some; split; [done|]; unfold stale_claim; simpl; lia). }
  assert (Hd : ∀ t k d, rt_letters s !! k = Some d →
    (PruneWebhookDeadLetters (se_reply e 5) (SystemContext x) t (rt_letters s)).1 !! k = Some d ∨ dr_failed d < sec t).
  { intros t k d Hk. unfold PruneWebhookDeadLetters, attempt. destruct (Z.ltb_spec (dr_failed d) (sec t)) as [|Hge]; [by right|left].
    destruct (se_reply e 5); simpl; [..|done]; (apply map_lookup_filter_Some; split; [done|]; unfold stale_letter; simpl; lia). }
  unfold runRetentionTick. split; [|split].
  - intros k c Hk. destruct (Z.ltb_spec 0 (cronClaimsMaxAge rc)); repeat case_match; simpl; try (by left);
      destruct (Hc (se_now e 3 - cronClaimsMaxAge rc) k c Hk); by auto.
  - intros k c Hk. destruct (Z.ltb_spec 0 (terminalHookClaimsMaxAge rc)); repeat case_match; simpl; try (by left);
      destruct (Hh (se_now e 4 - terminalHookClaimsMaxAge rc) k c Hk); by auto.
  - intros k c Hk. destruct (Z.ltb_spec 0 (webhookDeadLettersMaxAge rc)); repeat case_match; simpl; try (by left);
      destruct (Hd (se_now e 5 - webhookDeadLettersMaxAge rc) k c Hk); by auto.
Qed.

(** A retention sweep, whatever statements fail or lose their reply: threads
    are untouched; a run goes only if it is terminal and its last update lies
    before the age configured; of each thread's checkpoints either all stay or
    exactly the newest [keep_last], the newest one always; likewise for opaque
    checkpoints by their creation time; and no cron claim, hook claim or dead
    letter goes before its age. *)
Theorem retention_sweep_safe e x rc s : let s' := runRetentionTick ts_le cb ob e x rc s in
  threads (rt_db s') = threads (rt_db s) ∧
  (∀ id r, runs (rt_db s) !! id = Some r →
     runs (rt_db s') !! id = Some r ∨
     0 < runsMaxAge rc ∧ TerminalRunStatus (r_status r) = true ∧ ts_le (rfc3339 (se_now e 0 - runsMaxAge rc)) (r_updated r) = false) ∧
  (∀ th, trimmed cb (checkpointsKeepLast rc) (thread_rows th (rt_db s)) (thread_rows th (rt_db s')) ∧
     (thread_rows th (rt_db s) ≠ [] → ∃ a, a ∈ thread_rows th (rt_db s') ∧
        ∀ b, b ∈ thread_rows th (rt_db s) → newer_ckpt ts_le a b = true)) ∧
  (∀ g, trimmed ob (checkpointsKeepLast rc) (blob_rows g (rt_db s)) (blob_rows g (rt_db s'))) ∧
  (∀ k c, cron_claims (rt_cron s) !! k = Some c →
     cron_claims (rt_cron s') !! k = Some c ∨ 0 < cronClaimsMaxAge rc ∧ k.2 < sec (se_now e 3 - cronClaimsMaxAge rc)) ∧
  (∀ k c, rt_hooks s !! k = Some c →
     rt_hooks s' !! k = Some c ∨ 0 < terminalHookClaimsMaxAge rc ∧ c < sec (se_now e 4 - terminalHookClaimsMaxAge rc)) ∧
  (∀ k d, rt_letters s !! k = Some d →
     rt_letters s' !! k = Some d ∨ 0 < webhookDeadLettersMaxAge rc ∧ dr_failed d < sec (se_now e 5 - webhookDeadLettersMaxAge rc)).
Proof using Window0 Window1.
  intros s'. unfold s'. rewrite !sweep_db_ok. pose proof (sweep_db_runs e x rc (rt_db s)) as [Ht Hr].
  pose proof (sweep_db_rows e x rc (rt_db s)) as [Hc Ho]. set (db' := sweep_db e x rc (rt_db s)) in *.
  split; [done|]. split; [|split; [|split]].
  - intros id r Hid. destruct Hr as [->|[Ha ->]]; [by left|].
    destruct (prunable ts_le (SystemContext x) (se_now e 0 - runsMaxAge rc) r) eqn:Hp; [right|left; by apply map_lookup_filter_Some].
    unfold prunable in Hp. apply andb_prop in Hp as [[Hp1 Hp2%negb_true_iff]%andb_prop _]. done.
  - intros th. pose proof (trimmed_window _ cb ckpt_group (ckpt_visible (SystemContext x)) th _ _ _ Hc) as Htr.
    split; [done|]. intros Hne. by eapply (trimmed_newest _ cb).
  - intros g. apply (trimmed_window _ ob opaque_group (opaque_visible (SystemContext x)) g _ _ _ Ho).
  - apply sweep_claims.
Qed.
End statements.

(** ** A concrete engine order *)

(** Newer first, ties by key. *)
Definition by_time {K V} `{Countable K} (created : V → Z) (a b : K * V) : bool :=
  if created a.2 =? created b.2 then (encode a.1 <=? encode b.1)%positive else created b.2 <? created a.2.

#[export] Instance by_time_window {K V} `{Countable K} (created : V → Z) :
  Window (λ a b : K * V, created b.2 <=? created a.2) (by_time created).
Proof.
  split; unfold by_time.
  - intros a b. destruct (Z.eqb_spec (created a.2) (created b.2)) as [E|E].
    + rewrite E, Z.eqb_refl, !Pos.leb_le. lia.
    + destruct (Z.eqb_spec (created b.2) (created a.2)); [lia|]. rewrite !Z.ltb_lt. lia.
  - intros a b c. destruct (Z.eqb_spec (created a.2) (created b.2)), (Z.eqb_spec (created b.2) (created c.2)),
      (Z.eqb_spec (created a.2) (created c.2)); rewrite ?Pos.leb_le, ?Z.ltb_lt; lia.
  - intros a b. destruct (Z.eqb_spec (created a.2) (created b.2)) as [E|E].
    + rewrite E, Z.eqb_refl, !Pos.leb_le. intros ? ?. apply (inj encode). lia.
    + destruct (Z.eqb_spec (created b.2) (created a.2)); rewrite ?Z.ltb_lt; lia.
  - intros a b. rewrite Z.leb_le. destruct (Z.eqb_spec (created a.2) (created b.2)); rewrite ?Z.ltb_lt; lia.
Qed.

#[export] Instance ckpt_window : Window (newer_ckpt Z.leb) (by_time k_created) := by_time_window k_created.
#[export] Instance opaque_window : Window (newer_opaque Z.leb) (by_time o_created) := by_time_window o_created.

(** Two runs that are old, one of them still running; three checkpoints. *)
Definition kept_run : run_row := mkRun "t" "th" "a" RunStatusRunning ColNull ColNull "" 0 0 (mkSpec "" "" None None 0).
Definition old_run : run_row := mkRun "t" "th" "a" RunStatusSuccess ColNull ColNull "" 0 0 (mkSpec "" "" None None 0).
Definition old_ckpt (t : Z) : ckpt_row := mkCkpt "t" "th" "" None ∅ t (mkDocs ANil ANil ANil ANil).
Definition old_tables : RetainedTables :=
  mkRetained (mkDB (<["live" := kept_run]> {["done" := old_run]}) ∅ (<["k1" := old_ckpt 1]> (<["k2" := old_ckpt 2]> {["k3" := old_ckpt 3]})) ∅)
    (mkCron ∅ ∅) ∅ ∅.
Definition daily : retentionConfig := mkRetention (3600 * second) 2 0 0 0 minute.
Definition fine_sweep : sweep_env := mkSweep (λ _, 86400 * second) (λ _ _, false) (λ _, CommitOk) (λ _, RFine).
Definition swept_tables : RetainedTables := runRetentionTick Z.leb (by_time k_created) (by_time o_created) fine_sweep background daily old_tables.

Lemma retention_sweep_safe_witness :
  (runs (rt_db swept_tables) !! "live" = Some kept_run ∧ runs (rt_db swept_tables) !! "done" = None) ∧
  (∃ a, a ∈ thread_rows "th" (rt_db swept_tables) ∧ ∀ b, b ∈ thread_rows "th" (rt_db old_tables) → newer_ckpt Z.leb a b = true) ∧
  (thread_rows "th" (rt_db swept_tables)).*1 = ["k3"; "k2"].
Proof.
  destruct (retention_sweep_safe Z.leb (by_time k_created) (by_time o_created) fine_sweep background daily old_tables) as (_&Hr&Hc&_).
  split; [split|split].
  - destruct (Hr "live" kept_run eq_refl) as [H|(_&H&_)]; [exact H|discriminate H].
  - vm_compute. reflexivity.
  - apply Hc. vm_compute. discriminate.
  - vm_compute. reflexivity.
Defined.

(** ** The tip of a thread may be deleted

    [GetLatestOpaqueCheckpoint] takes the greatest id, because late writes to a
    parent checkpoint move its time past its child's; the prune ranks by that
    time.  Keeping one checkpoint here keeps the parent: the thread resumes from
    an earlier state. *)
Definition put_blob (now : Z) (id : string) (db : DB) : DB :=
  (PutOpaqueCheckpoint (λ _, false) CommitOk now background "th" id [] "langgraph" None db).1.
Definition busy_thread : DB :=
  let t := mkThread "default" "busy" ColNull 0 0 ColNull 0 in
  put_blob 300 "c1" (put_blob 200 "c2" (put_blob 100 "c1" (mkDB ∅ {["th" := t]} ∅ ∅))).
Definition latest_blob (db : DB) : option string :=
  match GetLatestOpaqueCheckpoint calm background "th" "" db with Ok (id, _) => Some id | Err _ => None end.

Theorem prune_deletes_tip :
  latest_blob busy_thread = Some "c2" ∧
  latest_blob (PruneOpaqueCheckpoints (λ _, false) (by_time o_created) CommitOk (SystemContext background) 1 busy_thread).1 = Some "c1".
Proof. split; vm_compute; reflexivity. Qed.

(** ** Configuration *)

(** A sweep is scheduled only when some dimension is on, at a positive interval;
    the timeout sweep only with a positive limit. *)
Theorem retention_config_sane cfg : match initRetentionConfig cfg with
  | Some rc => 0 < interval rc ∧
      (0 < runsMaxAge rc ∨ 0 < checkpointsKeepLast rc ∨ 0 < cronClaimsMaxAge rc ∨ 0 < terminalHookClaimsMaxAge rc ∨ 0 < webhookDeadLettersMaxAge rc)
  | None => True end.
Proof.
  destruct cfg as [c|]; [|done]. unfold initRetentionConfig. cbv zeta.
  destruct (Z.leb_spec (age (RunsMaxAge c)) 0), (Z.leb_spec (CheckpointsKeepLast c) 0), (Z.leb_spec (age (CronClaimsMaxAge c)) 0),
    (Z.leb_spec (age (TerminalHookClaimsMaxAge c)) 0), (Z.leb_spec (age (WebhookDeadLettersMaxAge c)) 0); simpl; try done;
    (split; [destruct (Z.leb_spec (wrap64 (IntervalMinutes c * minute)) 0); [done|lia]|tauto]).
Qed.

Theorem timeout_config_sane cfg : match initRunTimeoutConfig cfg with
  | Some rc => 0 < maxDuration rc ∧ 0 < t_interval rc
  | None => True end.
Proof.
  destruct cfg as [c|]; [|done]. unfold initRunTimeoutConfig. destruct (MaxDuration c) as [[d|]|]; try done.
  destruct (Z.leb_spec d 0); [done|]. cbv zeta. simpl. split; [done|].
  destruct (Z.leb_spec (wrap64 (IntervalSeconds c * StoreOps.second)) 0); [done|lia].
Qed.
