(* ===== verification/Migrate.v ===== *)
(** * Schema migrations

    Models [internal/state/migrate/migrate.go] (the runner and its version table) and
    the migrations of the SQLite store ([migrations], [baselineUp], [baselineDown] and
    the [up...] functions of [internal/state/sqlite]).

    A schema is its tables with their columns, and its indexes; types, defaults and
    constraints are left out.  Every statement commits by itself, so a failing
    statement, or a process that dies, leaves what the earlier ones did. *)

From Stdlib Require Import String.
From S2P Require Import Prelude.
Local Open Scope string_scope.
Local Open Scope Z_scope.
Local Open Scope list_scope.

(** ** Statements *)

Record schema := mkSchema {
  tables : gmap string (gset string);             (* the columns of a table *)
  indexes : gmap string (string * list string)    (* the table and columns of an index *)
}.

Inductive ddl :=
| CreateTable (t : string) (cols : list string)   (* IF NOT EXISTS *)
| AddColumn (t c : string)
| AddColumnIfMissing (t c : string)
| CreateIndex (name t : string) (cols : list string) (if_missing : bool)
| DropTable (t : string)                          (* IF EXISTS *)
| DropIndex (name : string) (if_exists : bool)
| DropColumn (t c : string).

Inductive merr :=
| MExec                            (* a statement failed *)
| MNone | MVersion (v : Z) | MEmptyName (v : Z) | MFuncs (v : Z) | MDuplicate (v : Z) | MMissing (v : Z) | MEntries
| MGap (current next : Z) | MLegacy | MNoMigration | MUnregistered (v : Z).

Definition indexed (t c : string) (s : schema) : bool :=
  bool_decide (map_Exists (λ _ tc, tc.1 = t ∧ c ∈ tc.2) (indexes s)).

(** What the database makes of a statement; [None]: it is an error. *)
Definition run_ddl (d : ddl) (s : schema) : option schema :=
  match d with
  | CreateTable t cols =>
      match tables s !! t with
      | Some _ => Some s
      | None => Some (mkSchema (<[t := list_to_set cols]> (tables s)) (indexes s))
      end
  | AddColumn t c =>
      match tables s !! t with
      | Some cs => if bool_decide (c ∈ cs) then None else Some (mkSchema (<[t := {[c]} ∪ cs]> (tables s)) (indexes s))
      | None => None
      end
  | AddColumnIfMissing t c =>
      match tables s !! t with
      | Some cs => if bool_decide (c ∈ cs) then Some s else Some (mkSchema (<[t := {[c]} ∪ cs]> (tables s)) (indexes s))
      | None => None
      end
  | CreateIndex name t cols if_missing =>
      match indexes s !! name with
      | Some _ => if if_missing then Some s else None
      | None =>
          match tables s !! t with
          | Some cs => if bool_decide (Forall (λ c, c ∈ cs) cols) then Some (mkSchema (tables s) (<[name := (t, cols)]> (indexes s))) else None
          | None => None
          end
      end
  | DropTable t => Some (mkSchema (delete t (tables s)) (filter (λ kv, kv.2.1 ≠ t) (indexes s)))
  | DropIndex name if_exists =>
      match indexes s !! name with
      | Some _ => Some (mkSchema (tables s) (delete name (indexes s)))
      | None => if if_exists then Some s else None
      end
  | DropColumn t c =>
      match tables s !! t with
      | Some cs => if bool_decide (c ∈ cs) && negb (indexed t c s) then Some (mkSchema (<[t := cs ∖ {[c]}]> (tables s)) (indexes s)) else None
      | None => None
      end
  end.

(** ** The database of a migration *)

Record MW := mkMW {
  m_schema : schema;
  m_applied : option (gmap Z string)              (* schema_migrations, once it exists *)
}.

Record Migration := mkMigration {
  Version : Z;
  Name : string;
  Up : option (list ddl);                         (* None: a nil function *)
  Down : option (list ddl)
}.

(** A statement has its number; what earlier statements did stays when one fails. *)
Definition mm (A : Type) : Type := nat → MW → MW * nat * (A + merr).
Definition mret {A} (a : A) : mm A := λ n w, (w, n, inl a).
Definition mfail {A} (e : merr) : mm A := λ n w, (w, n, inr e).
Definition mbind {A B} (m : mm A) (k : A → mm B) : mm B :=
  λ n w, match m n w with
         | (w', n', inl a) => k a n' w'
         | (w', n', inr e) => (w', n', inr e)
         end.

Definition byVersion (migrations : list Migration) (version : Z) : option Migration :=
  head (filter (λ m, Version m = version) migrations).

(** [sort.Slice] by version *)
Definition before (a b : Migration) : Prop := Version a ≤ Version b.
#[export] Instance before_dec a b : Decision (before a b). Proof. unfold before. apply _. Defined.
#[export] Instance before_total : Total before. Proof. intros a b. unfold before. lia. Qed.
#[export] Instance before_trans : Transitive before. Proof. intros a b c. unfold before. lia. Qed.

(** ** [validate] *)

Fixpoint validate_each (seen : gmap Z string) (ms : list Migration) : gmap Z string + merr :=
  match ms with
  | [] => inl seen
  | m :: ms =>
      if Version m <? 1 then inr (MVersion (Version m))
      else if String.eqb (Name m) "" then inr (MEmptyName (Version m))
      else match Up m, Down m with
           | Some _, Some _ =>
               match seen !! Version m with
               | Some _ => inr (MDuplicate (Version m))
               | None => validate_each (<[Version m := Name m]> seen) ms
               end
           | _, _ => inr (MFuncs (Version m))
           end
  end.

Fixpoint first_missing (v : Z) (n : nat) (seen : gmap Z string) : option Z :=
  match n with
  | O => None
  | S n => match seen !! v with Some _ => first_missing (v + 1) n seen | None => Some v end
  end.

Definition validate (ms : list Migration) : unit + merr :=
  match ms with
  | [] => inr MNone
  | _ =>
      match validate_each ∅ ms with
      | inr e => inr e
      | inl seen =>
          match first_missing 1 (length ms) seen with
          | Some v => inr (MMissing v)
          | None => if (size seen =? length ms)%nat then inl tt else inr MEntries
          end
      end
  end.

Section runner.
(** [fail n]: statement [n] of the call fails, or the process dies before it. *)
Variable fail : nat → bool.

Definition mexec {A} (f : MW → option (MW * A)) : mm A :=
  λ n w, if fail n then (w, S n, inr MExec)
         else match f w with Some (w', a) => (w', S n, inl a) | None => (w, S n, inr MExec) end.

Definition exec_ddl (d : ddl) : mm unit :=
  mexec (λ w, s ← run_ddl d (m_schema w); Some (mkMW s (m_applied w), tt)).
Fixpoint exec_all (l : list ddl) : mm unit :=
  match l with [] => mret tt | d :: l => mbind (exec_ddl d) (λ _, exec_all l) end.
Definition call (f : option (list ddl)) : mm unit := match f with Some l => exec_all l | None => mfail MExec end.

(** ** The bookkeeper *)

Definition Ensure : mm unit := mexec (λ w, Some (mkMW (m_schema w) (Some (default ∅ (m_applied w))), tt)).
(** [MAX(version)], 0 when there is none *)
Definition max_version (m : gmap Z string) : Z := foldr Z.max 0 (map_to_list m).*1.
Definition Current : mm Z := mexec (λ w, m ← m_applied w; Some (w, max_version m)).
Definition Insert (version : Z) (name : string) : mm unit :=
  mexec (λ w, m ← m_applied w;
              match m !! version with
              | Some _ => None
              | None => Some (mkMW (m_schema w) (Some (<[version := name]> m)), tt)
              end).
Definition Delete (version : Z) : mm unit :=
  mexec (λ w, m ← m_applied w; Some (mkMW (m_schema w) (Some (delete version m)), tt)).
Definition TableExists (table : string) : mm bool := mexec (λ w, Some (w, bool_decide (is_Some (tables (m_schema w) !! table)))).

(** ** [Upgrade] and [Downgrade] *)

Definition sorted (ms : list Migration) : list Migration := merge_sort before ms.

Fixpoint upgrade_loop (cur : Z) (ms : list Migration) : mm unit :=
  match ms with
  | [] => mret tt
  | m :: ms =>
      if Version m <=? cur then upgrade_loop cur ms
      else if negb (Version m =? cur + 1) then mfail (MGap cur (Version m))
      else mbind (call (Up m)) (λ _, mbind (Insert (Version m) (Name m)) (λ _, upgrade_loop (Version m) ms))
  end.

Definition legacy_stamp (ms : list Migration) (table : string) (cur : Z) : mm Z :=
  if cur =? 0 then
    mbind (TableExists table) (λ exists_,
      if exists_ then
        match byVersion ms 1 with
        | None => mfail MLegacy
        | Some m1 => mbind (call (Up m1)) (λ _, mbind (Insert (Version m1) (Name m1)) (λ _, mret 1))
        end
      else mret cur)
  else mret cur.

Definition of_validate (r : unit + merr) : mm unit := match r with inl _ => mret tt | inr e => mfail e end.

Definition Upgrade (ms : list Migration) (legacy : string) : mm unit :=
  mbind (of_validate (validate ms)) (λ _, mbind Ensure (λ _, mbind Current (λ cur,
  mbind (legacy_stamp ms legacy cur) (λ cur, upgrade_loop cur (sorted ms))))).

Definition Downgrade (ms : list Migration) : mm unit :=
  mbind (of_validate (validate ms)) (λ _, mbind Ensure (λ _, mbind Current (λ cur,
    if cur =? 0 then mfail MNoMigration
    else match byVersion ms cur with
         | None => mfail (MUnregistered cur)
         | Some m => mbind (call (Down m)) (λ _, Delete cur)
         end))).
End runner.

(** * The schema of the SQLite store
    The migrations [SQLiteStore.migrations] registers, statement by statement, and
    what the runner of [Migrate.v] makes of them.  *)

Local Open Scope string_scope.
Local Open Scope Z_scope.
Local Open Scope list_scope.

Definition agent_cols : list string :=
  ["tenant_id"; "agent_id"; "name"; "description"; "metadata"; "capabilities"; "version"; "created_at"; "updated_at"].

(** The schema text of [baselineUp]. *)
Definition baseline_schema : list ddl :=
  [CreateTable "agents" agent_cols;
   CreateTable "agent_versions" ["tenant_id"; "agent_id"; "version"; "name"; "description"; "metadata"; "capabilities"; "created_at"];
   CreateTable "agent_schemas" ["tenant_id"; "agent_id"; "input_schema"; "output_schema"; "state_schema"; "config_schema"];
   CreateTable "registry_entries" ["tenant_id"; "name"; "display_name"; "description"; "author"; "tags"; "source_type"; "source_ref"; "metadata"; "version"; "created_at"; "updated_at"];
   CreateTable "registry_entry_versions" ["tenant_id"; "name"; "version"; "display_name"; "description"; "author"; "tags"; "source_type"; "source_ref"; "metadata"; "created_at"];
   CreateTable "threads" ["tenant_id"; "thread_id"; "status"; "metadata"; "values_json"; "created_at"; "updated_at"];
   CreateTable "runs" ["tenant_id"; "run_id"; "thread_id"; "agent_id"; "status"; "metadata"; "input"; "config"; "output"; "error_msg"; "created_at"; "updated_at"];
   CreateIndex "idx_runs_thread" "runs" ["thread_id"] true;
   CreateIndex "idx_runs_status" "runs" ["status"] true;
   CreateTable "thread_checkpoints" ["tenant_id"; "checkpoint_id"; "thread_id"; "checkpoint_ns"; "parent_id"; "values_json"; "metadata"; "next_nodes"; "tasks"; "interrupts"; "created_at"];
   CreateIndex "idx_checkpoints_thread" "thread_checkpoints" ["thread_id"; "created_at"] true;
   CreateTable "opaque_checkpoints" ["tenant_id"; "thread_id"; "checkpoint_id"; "framework"; "data"; "version"; "created_at"];
   CreateIndex "idx_opaque_checkpoints_thread" "opaque_checkpoints" ["thread_id"; "created_at"] true;
   CreateTable "store_items" ["tenant_id"; "namespace"; "key"; "value"; "created_at"; "updated_at"];
   CreateTable "webhook_dead_letters" ["id"; "tenant_id"; "url"; "event_type"; "run_id"; "payload"; "error"; "attempts"; "failed_at"];
   CreateIndex "idx_dead_letters_failed_at" "webhook_dead_letters" ["failed_at"] true;
   CreateTable "run_cache" ["tenant_id"; "cache_key"; "agent_id"; "output"; "created_at"; "expires_at"];
   CreateIndex "idx_run_cache_expires" "run_cache" ["expires_at"] true;
   CreateTable "cron_schedules" ["tenant_id"; "name"; "agent_id"; "expression"; "timezone"; "input"; "config"; "enabled"; "created_at"; "updated_at"];
   CreateTable "cron_claims" ["tenant_id"; "schedule_name"; "fire_time"; "claimed_at"];
   CreateTable "terminal_hook_claims" ["run_id"; "claimed_at"]].

(** The rest of [baselineUp]: columns and indexes older databases lack. *)
Definition baseline_heal : list ddl :=
  [AddColumnIfMissing "agents" "version"]
  ++ ((λ t, AddColumnIfMissing t "tenant_id") <$>
        ["agents"; "agent_schemas"; "threads"; "runs"; "thread_checkpoints"; "store_items"; "run_cache"; "cron_schedules"; "cron_claims"; "webhook_dead_letters"])
  ++ [AddColumnIfMissing "store_items" "ttl_minutes";
      AddColumnIfMissing "store_items" "expires_at";
      AddColumnIfMissing "runs" "parent_run_id";
      AddColumnIfMissing "runs" "root_run_id";
      AddColumnIfMissing "runs" "depth";
      AddColumnIfMissing "threads" "version";
      CreateIndex "idx_runs_root" "runs" ["root_run_id"] true;
      CreateIndex "idx_runs_parent" "runs" ["parent_run_id"] true;
      CreateIndex "idx_threads_tenant" "threads" ["tenant_id"] true;
      CreateIndex "idx_runs_tenant" "runs" ["tenant_id"] true;
      CreateIndex "ux_agents_tenant_agent" "agents" ["tenant_id"; "agent_id"] true;
      CreateIndex "ux_agent_schemas_tenant_agent" "agent_schemas" ["tenant_id"; "agent_id"] true;
      CreateIndex "ux_store_items_tenant_ns_key" "store_items" ["tenant_id"; "namespace"; "key"] true;
      CreateIndex "ux_cron_schedules_tenant_name" "cron_schedules" ["tenant_id"; "name"] true;
      CreateIndex "ux_cron_claims_tenant_sched_fire" "cron_claims" ["tenant_id"; "schedule_name"; "fire_time"] true;
      CreateIndex "ux_run_cache_tenant_key" "run_cache" ["tenant_id"; "cache_key"] true].

Definition baselineUp : list ddl := baseline_schema ++ baseline_heal.

Definition baselineDown : list ddl :=
  DropTable <$>
    ["terminal_hook_claims"; "cron_claims"; "cron_schedules"; "run_cache";
     "usage_holds"; "usage_events"; "finops_overlays";
     "mandatory_hitl_rules"; "break_glass_windows"; "kill_switches"; "pending_actions"; "policy_grants"; "audit_events";
     "webhook_dead_letters"; "store_items"; "opaque_checkpoints"; "thread_checkpoints"; "runs";
     "threads"; "agent_schemas"; "agent_versions"; "agents";
     "registry_entry_versions"; "registry_entries"].

Definition upAuditEvents : list ddl :=
  [CreateTable "audit_events" ["id"; "ts"; "tenant_id"; "actor"; "action"; "resource_type"; "resource_id"; "decision"; "reason_code"; "rule_id"; "latency_ms"; "run_id"; "generation"; "agent_id"; "connector"; "tool"; "attrs"; "trace_id"];
   CreateIndex "idx_audit_events_tenant_ts" "audit_events" ["tenant_id"; "ts"] true;
   CreateIndex "idx_audit_events_run" "audit_events" ["run_id"] true].
Definition upPolicyGrants : list ddl :=
  [CreateTable "policy_grants" ["id"; "tenant_id"; "agent_id"; "connector"; "tools"; "created_at"; "updated_at"];
   CreateIndex "idx_policy_grants_tenant" "policy_grants" ["tenant_id"] true].
Definition upPendingActions : list ddl :=
  [CreateTable "pending_actions" ["id"; "run_id"; "generation"; "tenant_id"; "agent_id"; "connector"; "tool"; "rule_id"; "reason"; "reason_code"; "status"; "created_at"; "updated_at"];
   CreateIndex "idx_pending_actions_status_ts" "pending_actions" ["status"; "created_at"] true;
   CreateIndex "idx_pending_actions_run" "pending_actions" ["run_id"] true].
Definition upKillSwitches : list ddl :=
  [CreateTable "kill_switches" ["id"; "tenant_id"; "agent_id"; "pause_only"; "reason"; "created_by"; "created_at"; "updated_at"];
   CreateIndex "idx_kill_switches_tenant" "kill_switches" ["tenant_id"] true].
Definition upBreakGlassWindows : list ddl :=
  [CreateTable "break_glass_windows" ["id"; "tenant_id"; "agent_id"; "reason"; "created_by"; "starts_at"; "expires_at"; "created_at"; "updated_at"];
   CreateIndex "idx_break_glass_active" "break_glass_windows" ["tenant_id"; "agent_id"; "expires_at"] true].
Definition upMandatoryHITLRules : list ddl :=
  [CreateTable "mandatory_hitl_rules" ["id"; "tenant_id"; "agent_id"; "connector"; "tools"; "created_at"; "updated_at"];
   CreateIndex "idx_mandatory_hitl_rules_tenant" "mandatory_hitl_rules" ["tenant_id"] true].
Definition upOpaqueCheckpoints : list ddl :=
  [CreateTable "opaque_checkpoints" ["tenant_id"; "thread_id"; "checkpoint_id"; "framework"; "data"; "version"; "created_at"];
   CreateIndex "idx_opaque_checkpoints_thread" "opaque_checkpoints" ["thread_id"; "created_at"] true].
Definition upOpaqueCheckpointVersion : list ddl := [AddColumnIfMissing "opaque_checkpoints" "version"].
Definition upUsageEvents : list ddl :=
  [CreateTable "usage_events" ["id"; "ts"; "tenant_id"; "run_id"; "agent_id"; "principal"; "model"; "tokens_in"; "tokens_out"; "usd_estimate"; "source"];
   CreateIndex "idx_usage_events_tenant_ts" "usage_events" ["tenant_id"; "ts"] true;
   CreateIndex "idx_usage_events_tenant_agent_ts" "usage_events" ["tenant_id"; "agent_id"; "ts"] true;
   CreateIndex "idx_usage_events_run" "usage_events" ["run_id"] true].
Definition upUsageHolds : list ddl :=
  [CreateTable "usage_holds" ["run_id"; "tenant_id"; "agent_id"; "usd_hold"; "tokens_hold"; "created_at"];
   CreateIndex "idx_usage_holds_tenant_created" "usage_holds" ["tenant_id"; "created_at"] true;
   CreateIndex "idx_usage_holds_tenant_agent_created" "usage_holds" ["tenant_id"; "agent_id"; "created_at"] true].
Definition upFinOpsOverlays : list ddl := [CreateTable "finops_overlays" ["id"; "payload"; "updated_at"; "updated_by"]].
Definition upPendingActionsArgs : list ddl :=
  [AddColumn "pending_actions" "args_digest"; AddColumn "pending_actions" "args"; AddColumn "pending_actions" "decided_by";
   CreateIndex "idx_pending_actions_consume" "pending_actions" ["run_id"; "generation"; "connector"; "tool"; "status"; "args_digest"] true].
Definition upPendingActionsExpiresAt : list ddl := [AddColumn "pending_actions" "expires_at"].

Definition migrations : list Migration :=
  [mkMigration 1 "baseline" (Some baselineUp) (Some baselineDown);
   mkMigration 2 "audit_events" (Some upAuditEvents) (Some [DropTable "audit_events"]);
   mkMigration 3 "policy_grants" (Some upPolicyGrants) (Some [DropTable "policy_grants"]);
   mkMigration 4 "pending_actions" (Some upPendingActions) (Some [DropTable "pending_actions"]);
   mkMigration 5 "kill_switches" (Some upKillSwitches) (Some [DropTable "kill_switches"]);
   mkMigration 6 "runs_parent_index" (Some [CreateIndex "idx_runs_parent" "runs" ["parent_run_id"] true]) (Some [DropIndex "idx_runs_parent" true]);
   mkMigration 7 "break_glass_windows" (Some upBreakGlassWindows) (Some [DropTable "break_glass_windows"]);
   mkMigration 8 "mandatory_hitl_rules" (Some upMandatoryHITLRules) (Some [DropTable "mandatory_hitl_rules"]);
   mkMigration 9 "opaque_checkpoints" (Some upOpaqueCheckpoints) (Some [DropTable "opaque_checkpoints"]);
   mkMigration 10 "opaque_checkpoint_version" (Some upOpaqueCheckpointVersion) (Some [DropColumn "opaque_checkpoints" "version"]);
   mkMigration 11 "usage_events" (Some upUsageEvents) (Some [DropTable "usage_events"]);
   mkMigration 12 "usage_holds" (Some upUsageHolds) (Some [DropTable "usage_holds"]);
   mkMigration 13 "finops_overlays" (Some upFinOpsOverlays) (Some [DropTable "finops_overlays"]);
   mkMigration 14 "pending_actions_args" (Some upPendingActionsArgs)
     (Some [DropIndex "idx_pending_actions_consume" true; DropColumn "pending_actions" "args_digest";
            DropColumn "pending_actions" "args"; DropColumn "pending_actions" "decided_by"]);
   mkMigration 15 "pending_actions_expires_at" (Some upPendingActionsExpiresAt) (Some [DropColumn "pending_actions" "expires_at"]);
   mkMigration 16 "pending_actions_scoped_key"
     (Some [AddColumn "pending_actions" "pending_key"; CreateIndex "uq_pending_actions_key" "pending_actions" ["pending_key"] false])
     (Some [DropIndex "uq_pending_actions_key" false; DropColumn "pending_actions" "pending_key"])].

(** [SQLiteStore.Init] and [SQLiteStore.Downgrade]; [fail] as in the runner. *)
Definition Init (fail : nat → bool) (w : MW) : MW * (unit + merr) :=
  let '(w', _, r) := Upgrade fail migrations "agents" 0%nat w in (w', r).
Definition SqliteDowngrade (fail : nat → bool) (w : MW) : MW * (unit + merr) :=
  let '(w', _, r) := Downgrade fail migrations 0%nat w in (w', r).
