(* ===== verification/MigrateProps.v ===== *)
(** * What the migration runner guarantees

    The recorded versions are always 1 to [k], whatever fails; a start that succeeds
    after any number of interrupted ones leaves the schema an uninterrupted one
    leaves. *)

From Stdlib Require Import String.
From S2P Require Import Prelude Migrate.
Local Open Scope string_scope.
Local Open Scope Z_scope.
Local Open Scope list_scope.

(** ** Valid migration lists *)

Lemma validate_each_new v seen ms seen' : is_Some (seen !! v) → validate_each seen ms = inl seen' → v ∉ Version <$> ms.
Proof.
  revert seen. induction ms as [|m ms IH]; intros seen Hs H Hin; simpl in *; [by apply elem_of_nil in Hin|].
  destruct (Version m <? 1); [done|]. destruct (String.eqb _ _); [done|]. destruct (Up m), (Down m); try done.
  destruct (seen !! Version m) eqn:Hs'; [done|]. apply elem_of_cons in Hin as [->|Hin]; [rewrite Hs' in Hs; by destruct Hs|].
  apply (IH (<[Version m := Name m]> seen)); [|done|done]. rewrite lookup_insert_is_Some'. by right.
Qed.

Lemma validate_each_ok seen ms seen' : validate_each seen ms = inl seen' →
  dom seen' = dom seen ∪ list_to_set (Version <$> ms) ∧ NoDup (Version <$> ms) ∧ Forall (λ m, is_Some (Up m) ∧ is_Some (Down m)) ms.
Proof.
  revert seen. induction ms as [|m ms IH]; intros seen H; simpl in *.
  - injection H as <-. split; [set_solver|]. by split; constructor.
  - destruct (Version m <? 1); [done|]. destruct (String.eqb _ _); [done|]. destruct (Up m) eqn:Hu, (Down m) eqn:Hd; try done.
    destruct (seen !! Version m) eqn:Hs; [done|].
    assert (Hnot : Version m ∉ Version <$> ms) by (eapply validate_each_new; [|done]; rewrite lookup_insert_eq; by eexists).
    destruct (IH _ H) as (Hdom&Hnd&Hf). split_and!; [rewrite Hdom, dom_insert_L; set_solver|by constructor|constructor; [by rewrite Hu, Hd|done]].
Qed.

Lemma first_missing_none v n seen : first_missing v n seen = None → ∀ i, v ≤ i < v + Z.of_nat n → i ∈ dom seen.
Proof.
  revert v. induction n as [|n IH]; intros v H i Hi; simpl in *; [lia|]. destruct (seen !! v) eqn:E; [|done].
  destruct (decide (i = v)) as [->|]; [by apply elem_of_dom_2 in E|]. apply (IH (v + 1)); [done|lia].
Qed.

(** The versions of a valid list are 1 to its length. *)
Lemma validate_versions ms : validate ms = inl tt → Version <$> sorted ms = seqZ 1 (Z.of_nat (length ms)) ∧ Forall (λ m, is_Some (Up m) ∧ is_Some (Down m)) ms.
Proof.
  unfold validate. destruct ms as [|m0 ms0]; [done|]. set (ms := m0 :: ms0). destruct (validate_each ∅ ms) as [seen|] eqn:He; [|done].
  destruct (first_missing 1 (length ms) seen) eqn:Hm; [done|]. intros _. apply validate_each_ok in He as (Hdom&Hnd&Hf). split; [|done].
  rewrite dom_empty_L, (left_id_L ∅ (∪)) in Hdom.
  assert (Hperm : Version <$> sorted ms ≡ₚ seqZ 1 (Z.of_nat (length ms))).
  { unfold sorted. rewrite (fmap_Permutation Version _ _ (merge_sort_Permutation before ms)). symmetry. apply submseteq_length_Permutation.
    - apply NoDup_submseteq; [apply NoDup_seqZ|]. intros i Hi%elem_of_seqZ.
      pose proof (first_missing_none _ _ _ Hm i ltac:(lia)) as Hin. rewrite Hdom in Hin. by apply elem_of_list_to_set in Hin.
    - rewrite length_fmap, length_seqZ. lia. }
  apply (Sorted_unique Z.le); [| |done].
  - pose proof (Sorted_merge_sort before ms) as Hs. fold (sorted ms) in Hs. clear -Hs. induction Hs as [|a l Hs IH Hh]; simpl; [constructor|].
    constructor; [done|]. destruct Hh; simpl; by constructor.
  - apply StronglySorted_Sorted. apply Sorted_StronglySorted; [apply _|]. clear. generalize 1 (Z.of_nat (length ms)). intros a n.
    destruct (decide (0 ≤ n)) as [Hn|Hn]; [|rewrite seqZ_nil by lia; constructor]. revert a. pattern n. apply natlike_ind; [| |done].
    + intros a. rewrite seqZ_nil by lia. constructor.
    + intros m Hm IH a. rewrite seqZ_cons by lia. replace (Z.pred (Z.succ m)) with m by lia. constructor; [apply IH|].
      destruct (decide (m = 0)) as [->|]; [rewrite seqZ_nil by lia; constructor|]. rewrite seqZ_cons by lia. constructor. lia.
Qed.

(** ** Recorded versions *)

Definition upto (k : Z) (m : gmap Z string) : Prop := ∀ v, is_Some (m !! v) ↔ 1 ≤ v ≤ k.

Lemma max_version_upto k m : 0 ≤ k → upto k m → max_version m = k.
Proof.
  intros Hk Hm. unfold max_version.
  assert (Hin : ∀ v, v ∈ (map_to_list m).*1 ↔ 1 ≤ v ≤ k).
  { intros v. rewrite <- (Hm v), list_elem_of_fmap. split.
    - intros ([v' x]&->&Hx%elem_of_map_to_list). by exists x.
    - intros [x Hx]. exists (v, x). split; [done|]. by apply elem_of_map_to_list. }
  assert (Hle : ∀ l, (∀ v, v ∈ l → 1 ≤ v ≤ k) → foldr Z.max 0 l ≤ k).
  { induction l as [|v l IH]; intros Hl; simpl; [done|]. pose proof (Hl v ltac:(left)). pose proof (IH ltac:(intros; apply Hl; by right)). lia. }
  assert (Hge : ∀ l v, v ∈ l → v ≤ foldr Z.max 0 l).
  { induction l as [|v' l IH]; intros v Hv; [by apply elem_of_nil in Hv|]. simpl. apply elem_of_cons in Hv as [->|Hv]; [lia|]. specialize (IH v Hv). lia. }
  pose proof (Hle (map_to_list m).*1 (λ v Hv, proj1 (Hin v) Hv)). destruct (decide (k = 0)) as [->|].
  - pose proof (Hge (map_to_list m).*1). destruct (map_to_list m).*1 as [|v l] eqn:E; [done|]. pose proof (proj1 (Hin v) ltac:(left)). lia.
  - pose proof (Hge (map_to_list m).*1 k (proj2 (Hin k) ltac:(lia))). lia.
Qed.

Lemma upto_insert k m name : 0 ≤ k → upto k m → upto (k + 1) (<[k + 1 := name]> m).
Proof. intros Hk Hm v. rewrite lookup_insert_is_Some', (Hm v). lia. Qed.

Lemma upto_delete k m : upto k m → upto (k - 1) (delete k m).
Proof. intros Hm v. rewrite lookup_delete_is_Some, (Hm v). lia. Qed.

(** Versions 1 to [k] are recorded, the table exists or not. *)
Definition recorded (k : nat) (w : MW) : Prop := upto (Z.of_nat k) (default ∅ (m_applied w)).

Lemma recorded_none (s : schema) : recorded 0 (mkMW s None).
Proof. intros v. simpl. rewrite lookup_empty. split; [by intros []|lia]. Qed.

(** ** The runner *)
Section runner.
Context (fail : nat → bool) (ms : list Migration) (legacy : string).
Hypothesis Hvalid : validate ms = inl tt.
(** What is kept of the schema at version [k]. *)
Context (Q : nat → schema → Prop).
Hypothesis Hup : ∀ k m n w w' n' r, sorted ms !! k = Some m → Q k (m_schema w) → call fail (Up m) n w = (w', n', r) →
  match r with inl _ => Q (S k) (m_schema w') | inr _ => True end ∧ Q k (m_schema w').

Definition good (k : nat) (w : MW) : Prop := (k ≤ length ms)%nat ∧ recorded k w ∧ Q k (m_schema w).

Lemma exec_all_applied l n w w' n' r : exec_all fail l n w = (w', n', r) → m_applied w' = m_applied w.
Proof.
  revert n w. induction l as [|d l IH]; intros n w H; simpl in H; [by injection H as <- _ _|]. unfold mbind, exec_ddl, mexec in H.
  destruct (fail n); [by injection H as <- _ _|]. destruct (run_ddl d (m_schema w)) as [s|]; simpl in H; [|by injection H as <- _ _].
  by apply IH in H.
Qed.

Lemma call_applied f n w w' n' r : call fail f n w = (w', n', r) → m_applied w' = m_applied w.
Proof. destruct f as [l|]; [apply exec_all_applied|]. by intros [= <- _ _]. Qed.

Lemma sorted_version k m : sorted ms !! k = Some m → Version m = Z.of_nat k + 1.
Proof using Hvalid.
  intros Hk. destruct (validate_versions ms Hvalid) as [Hv _].
  assert (H : (Version <$> sorted ms) !! k = Some (Version m)) by (by rewrite list_lookup_fmap, Hk).
  rewrite Hv in H. apply lookup_seqZ in H as [-> _]. lia.
Qed.

Lemma sorted_length : length (sorted ms) = length ms.
Proof. unfold sorted. by rewrite (Permutation_length (merge_sort_Permutation before ms)). Qed.

(** Apply the next migration and record it. *)
Lemma apply_next k m n w w' n' r : good k w → is_Some (m_applied w) → sorted ms !! k = Some m →
  mbind (call fail (Up m)) (λ _, Insert fail (Version m) (Name m)) n w = (w', n', r) →
  is_Some (m_applied w') ∧ match r with inl _ => good (S k) w' | inr _ => good k w' end.
Proof using Hvalid Hup.
  intros (Hk&Hr&Hq) [a Ha] Hm H. unfold mbind in H. destruct (call fail (Up m) n w) as [[w1 n1] r1] eqn:Hc.
  destruct (Hup _ _ _ _ _ _ _ Hm Hq Hc) as [H1 H2]. apply call_applied in Hc as Ha1.
  assert (Hg1 : good k w1) by (split_and!; [done|unfold recorded; by rewrite Ha1|done]).
  assert (Hs1 : is_Some (m_applied w1)) by (rewrite Ha1, Ha; by eexists).
  destruct r1 as [[]|e]; [|by injection H as <- _ <-]. unfold Insert, mexec in H. destruct (fail n1); [by injection H as <- _ <-|].
  rewrite Ha1, Ha in H. simpl in H. destruct (a !! Version m); [by injection H as <- _ <-|]. injection H as <- _ <-. split; [by eexists|].
  apply lookup_lt_Some in Hm as Hlt. rewrite sorted_length in Hlt. split_and!; [lia| |done]. unfold recorded in *. simpl. rewrite Ha in Hr. simpl in Hr.
  rewrite (sorted_version k m Hm). replace (Z.of_nat (S k)) with (Z.of_nat k + 1) by lia. apply upto_insert; [lia|done].
Qed.

Lemma upgrade_loop_good done rest k n w w' n' r : sorted ms = done ++ rest → (length done ≤ k)%nat → good k w → is_Some (m_applied w) →
  upgrade_loop fail (Z.of_nat k) rest n w = (w', n', r) →
  ∃ k', good k' w' ∧ (k ≤ k')%nat ∧ (r = inl tt → k' = length ms).
Proof using Hvalid Hup.
  revert done k n w. induction rest as [|m rest IH]; intros dn k n w Hs Hd Hg Ha H; simpl in H.
  - injection H as <- _ <-. exists k. split_and!; [done|done|]. intros _. destruct Hg as [Hk _]. rewrite app_nil_r in Hs. pose proof sorted_length. rewrite Hs in *. lia.
  - assert (Hm : sorted ms !! length dn = Some m) by (rewrite Hs; by apply list_lookup_middle).
    pose proof (sorted_version _ _ Hm) as Hv. destruct (Z.leb_spec (Version m) (Z.of_nat k)) as [Hle|Hgt].
    + apply (IH (dn ++ [m]) k n w); [by rewrite <- app_assoc|rewrite length_app; simpl; lia|done|done|done].
    + assert (length dn = k) as <- by lia. rewrite (proj2 (Z.eqb_eq _ _) Hv) in H. simpl in H.
      destruct (mbind (call fail (Up m)) (λ _, Insert fail (Version m) (Name m)) n w) as [[w1 n1] r1] eqn:Hn.
      pose proof (apply_next _ _ _ _ _ _ _ Hg Ha Hm Hn) as [Ha1 Hg1].
      unfold mbind in H, Hn. destruct (call fail (Up m) n w) as [[w2 n2] [[]|e2]]; [|injection H as <- _ <-; injection Hn as <- _ <-; by exists (length dn)].
      destruct (Insert fail (Version m) (Name m) n2 w2) as [[w3 n3] [[]|e3]]; injection Hn as <- <- <-; [|injection H as <- _ <-; by exists (length dn)].
      rewrite Hv in H. replace (Z.of_nat (length dn) + 1) with (Z.of_nat (S (length dn))) in H by lia.
      apply (IH (dn ++ [m])) in H as (k'&?&?&?); [exists k'; split_and!; [done|lia|done]|by rewrite <- app_assoc|rewrite length_app; simpl; lia|done|done].
Qed.

Lemma byVersion_sorted k m : sorted ms !! k = Some m → byVersion ms (Z.of_nat k + 1) = Some m.
Proof using Hvalid.
  intros Hk. pose proof (sorted_version _ _ Hk) as Hv. unfold byVersion.
  assert (Hin : m ∈ filter (λ m, Version m = Z.of_nat k + 1) ms).
  { apply list_elem_of_filter. split; [done|]. rewrite <- (merge_sort_Permutation before ms). by eapply list_elem_of_lookup_2. }
  destruct (filter _ ms) as [|m' l] eqn:Hf; [by apply elem_of_nil in Hin|]. simpl. f_equal.
  assert (Hin' : m' ∈ filter (λ m, Version m = Z.of_nat k + 1) ms) by (rewrite Hf; left).
  apply list_elem_of_filter in Hin' as [Hv' Hm']. rewrite <- (merge_sort_Permutation before ms) in Hm'. apply list_elem_of_lookup in Hm' as [k' Hk'].
  pose proof (sorted_version k' m' Hk'). assert (k' = k) as -> by lia. unfold sorted in Hk. congruence.
Qed.

Lemma Upgrade_good k w w' n' r : good k w → Upgrade fail ms legacy 0%nat w = (w', n', r) →
  ∃ k', good k' w' ∧ (k ≤ k')%nat ∧ (r = inl tt → k' = length ms).
Proof using Hvalid Hup.
  intros Hg H. unfold Upgrade in H. rewrite Hvalid in H. unfold mbind at 1 in H. simpl in H. unfold mbind at 1, Ensure, mexec in H.
  destruct (fail 0%nat); [injection H as <- _ <-; by exists k|]. set (w1 := mkMW _ _) in H.
  assert (Hg1 : good k w1) by (destruct Hg as (?&?&?); split_and!; done).
  unfold mbind at 1, Current, mexec in H. destruct (fail 1%nat); [injection H as <- _ <-; by exists k|]. simpl in H.
  rewrite (max_version_upto (Z.of_nat k)) in H; [|lia|apply Hg]. unfold mbind at 1, legacy_stamp in H.
  destruct (Z.eqb_spec (Z.of_nat k) 0) as [Hk0|Hk0]; [|by apply (upgrade_loop_good [] _ _ _ _ _ _ _ eq_refl (Nat.le_0_l _) Hg1) in H].
  assert (k = 0%nat) as -> by lia. unfold mbind at 1, TableExists, mexec in H. destruct (fail 2%nat); [injection H as <- _ <-; by exists 0%nat|].
  destruct (bool_decide _); [|by apply (upgrade_loop_good [] _ _ _ _ _ _ _ eq_refl (Nat.le_0_l _) Hg1) in H].
  assert (Hpos : (0 < length (sorted ms))%nat) by (rewrite sorted_length; clear -Hvalid; destruct ms; [done|simpl; lia]).
  apply lookup_lt_is_Some in Hpos as [m1 Hm1]. rewrite (byVersion_sorted 0 m1 Hm1 : byVersion ms 1 = Some m1) in H.
  destruct (mbind (call fail (Up m1)) (λ _, Insert fail (Version m1) (Name m1)) 3%nat w1) as [[w2 n2] r2] eqn:Hn.
  assert (Ha1 : is_Some (m_applied w1)) by (by eexists).
  pose proof (apply_next 0 m1 _ _ _ _ _ Hg1 Ha1 Hm1 Hn) as [Ha2 Hg2].
  unfold mbind in Hn. unfold mbind at 1 in H. destruct (call fail (Up m1) 3%nat w1) as [[w3 n3] [[]|e3]]; [|injection H as <- _ <-; injection Hn as <- _ <-; by exists 0%nat].
  unfold mbind at 1 in H. destruct (Insert fail (Version m1) (Name m1) n3 w3) as [[w4 n4] [[]|e4]]; injection Hn as <- <- <-; [|injection H as <- _ <-; by exists 0%nat].
  simpl in H. change 1 with (Z.of_nat 1) in H.
  apply (upgrade_loop_good [] _ 1%nat _ _ _ _ _ eq_refl (Nat.le_0_l _) Hg2 Ha2) in H as (k'&?&?&?). exists k'. split_and!; [done|lia|done].
Qed.
End runner.

Lemma Downgrade_recorded fail ms k w w' n' r : validate ms = inl tt → recorded k w → Downgrade fail ms 0%nat w = (w', n', r) →
  ∃ k', recorded k' w' ∧ (k' ≤ k)%nat ∧ (r = inl tt → k = S k').
Proof.
  intros Hvalid Hr H. unfold Downgrade in H. rewrite Hvalid in H. unfold mbind at 1 in H. simpl in H. unfold mbind at 1, Ensure, mexec in H.
  destruct (fail 0%nat); [injection H as <- _ <-; by exists k|]. set (w1 := mkMW _ _) in H. assert (Hr1 : recorded k w1) by done.
  unfold mbind at 1, Current, mexec in H. destruct (fail 1%nat); [injection H as <- _ <-; by exists k|]. simpl in H.
  rewrite (max_version_upto (Z.of_nat k)) in H; [|lia|done]. destruct (Z.eqb_spec (Z.of_nat k) 0); [injection H as <- _ <-; by exists k|].
  destruct (byVersion ms (Z.of_nat k)) as [m|]; [|injection H as <- _ <-; by exists k]. unfold mbind in H.
  destruct (call fail (Down m) 2%nat w1) as [[w2 n2] r2] eqn:Hc. apply call_applied in Hc.
  assert (Hr2 : recorded k w2) by (unfold recorded; by rewrite Hc). destruct r2 as [[]|]; [|injection H as <- _ <-; by exists k].
  unfold Delete, mexec in H. destruct (fail n2); [injection H as <- _ <-; by exists k|]. rewrite Hc in H. simpl in H. injection H as <- _ <-.
  exists (k - 1)%nat. split_and!; [|lia|lia]. unfold recorded. simpl. replace (Z.of_nat (k - 1)) with (Z.of_nat k - 1) by lia. by apply upto_delete.
Qed.

(** ** Histories *)

Inductive mcall := CUpgrade (fail : nat → bool) | CDowngrade (fail : nat → bool).

Definition mrun (ms : list Migration) (legacy : string) (w : MW) (c : mcall) : MW :=
  match c with
  | CUpgrade fail => (Upgrade fail ms legacy 0%nat w).1.1
  | CDowngrade fail => (Downgrade fail ms 0%nat w).1.1
  end.

(** The version table is contiguous: after any sequence of upgrades and
    downgrades, each with statements that fail or a process that dies anywhere, the
    recorded versions are exactly 1 to some [k] of the registered ones; an upgrade that
    reports success has recorded them all. *)
Theorem migrations_contiguous ms legacy s calls : validate ms = inl tt →
  let w := foldl (mrun ms legacy) (mkMW s None) calls in
  (∃ k, (k ≤ length ms)%nat ∧ recorded k w) ∧
  ∀ fail w' n, Upgrade fail ms legacy 0%nat w = (w', n, inl tt) → recorded (length ms) w'.
Proof.
  intros Hv w. assert (Hup : ∀ fail k w0 w1 n r, (k ≤ length ms)%nat → recorded k w0 → Upgrade fail ms legacy 0%nat w0 = (w1, n, r) →
    ∃ k', (k' ≤ length ms)%nat ∧ recorded k' w1 ∧ (r = inl tt → k' = length ms)).
  { intros fail k w0 w1 n r Hk Hr H. destruct (Upgrade_good fail ms legacy Hv (λ _ _, True) ltac:(intros; by destruct r0) k w0 w1 n r) as (k'&(?&?&_)&_&?); [done|done|].
    by exists k'. }
  assert (Hall : ∃ k, (k ≤ length ms)%nat ∧ recorded k w).
  { subst w. assert (Hgen : ∀ w0, (∃ k, (k ≤ length ms)%nat ∧ recorded k w0) → ∃ k, (k ≤ length ms)%nat ∧ recorded k (foldl (mrun ms legacy) w0 calls)).
    { induction calls as [|c calls IH]; intros w0 (k&Hk&Hr); [by exists k|]. simpl. apply IH. destruct c as [fail|fail]; simpl.
      - destruct (Upgrade fail ms legacy 0%nat w0) as [[w1 n] r] eqn:H. destruct (Hup _ _ _ _ _ _ Hk Hr H) as (k'&?&?&_). by exists k'.
      - destruct (Downgrade fail ms 0%nat w0) as [[w1 n] r] eqn:H. destruct (Downgrade_recorded _ _ _ _ _ _ _ Hv Hr H) as (k'&?&?&_). exists k'. split; [simpl; lia|done]. }
    apply Hgen. exists 0%nat. split; [lia|apply recorded_none]. }
  split; [done|]. intros fail w' n H. destruct Hall as (k&Hk&Hr). destruct (Hup _ _ _ _ _ _ Hk Hr H) as (k'&_&Hr'&E). by rewrite E in Hr'.
Qed.

(** ** Interrupted upgrades *)

Definition additive (d : ddl) : Prop :=
  match d with CreateTable _ _ | AddColumn _ _ | AddColumnIfMissing _ _ | CreateIndex _ _ _ _ => True | _ => False end.

Fixpoint run_all (l : list ddl) (s : schema) : option schema :=
  match l with [] => Some s | d :: l => s' ← run_ddl d s; run_all l s' end.

(** [s'] has the tables, columns and indexes of [s]. *)
Record extends (s s' : schema) : Prop := {
  ex_tables t cs : tables s !! t = Some cs → ∃ cs', tables s' !! t = Some cs' ∧ cs ⊆ cs';
  ex_indexes i : is_Some (indexes s !! i) → is_Some (indexes s' !! i)
}.

Lemma extends_refl s : extends s s.
Proof. split; [intros t cs H; by exists cs|done]. Qed.

Lemma extends_trans s1 s2 s3 : extends s1 s2 → extends s2 s3 → extends s1 s3.
Proof.
  intros H1 H2. split; [|intros i Hi; by apply (ex_indexes _ _ H2), (ex_indexes _ _ H1)]. intros t cs Ht.
  destruct (ex_tables _ _ H1 _ _ Ht) as (cs2&Ht2&?). destruct (ex_tables _ _ H2 _ _ Ht2) as (cs3&?&?). exists cs3. split; [done|set_solver].
Qed.

Lemma extends_column s t cs c : tables s !! t = Some cs → extends s (mkSchema (<[t := {[c]} ∪ cs]> (tables s)) (indexes s)).
Proof.
  intros Ht. split; [|done]. simpl. intros t' cs' Ht'. destruct (decide (t' = t)) as [->|].
  - rewrite Ht in Ht'. injection Ht' as <-. exists ({[c]} ∪ cs). rewrite lookup_insert_eq. split; [done|set_solver].
  - exists cs'. by rewrite lookup_insert_ne.
Qed.

Lemma run_ddl_extends d s s' : additive d → run_ddl d s = Some s' → extends s s'.
Proof.
  destruct d; simpl; intros Ha H; try done.
  - destruct (tables s !! t) eqn:E; injection H as <-; [apply extends_refl|]. split; [|done]. simpl. intros t' cs Ht. exists cs.
    rewrite lookup_insert_ne; [done|congruence].
  - destruct (tables s !! t) eqn:E; [|done]. destruct (bool_decide _); [done|]. injection H as <-. by apply extends_column.
  - destruct (tables s !! t) eqn:E; [|done]. destruct (bool_decide _); injection H as <-; [apply extends_refl|by apply extends_column].
  - destruct (indexes s !! name) eqn:E; [destruct if_missing; [|done]; injection H as <-; apply extends_refl|].
    destruct (tables s !! t); [|done]. destruct (bool_decide _); [|done]. injection H as <-. split; [intros t' cs H; by exists cs|]. simpl.
    intros i Hi. rewrite lookup_insert_is_Some'. by right.
Qed.

Lemma run_all_extends l s s' : Forall additive l → run_all l s = Some s' → extends s s'.
Proof.
  intros Hl. revert s. induction Hl as [|d l Hd Hl IH]; intros s H; simpl in H; [injection H as <-; apply extends_refl|].
  apply bind_Some in H as (s1&H1&H2). eapply extends_trans; [by eapply run_ddl_extends|by apply IH].
Qed.

(** Run again where its effect is there, a statement does nothing, or fails. *)
Lemma run_ddl_again d s s1 s2 s3 : additive d → run_ddl d s = Some s1 → extends s1 s2 → run_ddl d s2 = Some s3 → s3 = s2.
Proof.
  intros Ha H [Ht Hi] H2. destruct d; simpl in *; try done.
  - assert (is_Some (tables s1 !! t)) as [cs Hcs].
    { destruct (tables s !! t) eqn:E; injection H as <-; [by rewrite E|]. simpl. rewrite lookup_insert_eq. by eexists. }
    destruct (Ht _ _ Hcs) as (cs'&E&_). rewrite E in H2. by injection H2.
  - assert (∃ cs, tables s1 !! t = Some cs ∧ c ∈ cs) as (cs&Hcs&Hc).
    { destruct (tables s !! t) eqn:E; [|done]. destruct (bool_decide _); [done|]. injection H as <-. simpl. rewrite lookup_insert_eq. eexists. split; [done|set_solver]. }
    destruct (Ht _ _ Hcs) as (cs'&E&?). rewrite E in H2. by rewrite bool_decide_eq_true_2 in H2 by set_solver.
  - assert (∃ cs, tables s1 !! t = Some cs ∧ c ∈ cs) as (cs&Hcs&Hc).
    { destruct (tables s !! t) as [cs|] eqn:E; [|done]. destruct (bool_decide (c ∈ cs)) eqn:B; injection H as <-.
      - exists cs. by apply bool_decide_eq_true in B.
      - simpl. rewrite lookup_insert_eq. eexists. split; [done|set_solver]. }
    destruct (Ht _ _ Hcs) as (cs'&E&?). rewrite E in H2. rewrite bool_decide_eq_true_2 in H2 by set_solver. by injection H2.
  - assert (is_Some (indexes s1 !! name)) as Hn.
    { destruct (indexes s !! name) eqn:E; [destruct if_missing; [|done]; injection H as <-; by rewrite E|].
      destruct (tables s !! t); [|done]. destruct (bool_decide _); [|done]. injection H as <-. simpl. rewrite lookup_insert_eq. by eexists. }
    destruct (Hi _ Hn) as [x E]. rewrite E in H2. destruct if_missing; [by injection H2|done].
Qed.

Lemma run_all_app l1 l2 s : run_all (l1 ++ l2) s = (s' ← run_all l1 s; run_all l2 s').
Proof. revert s. induction l1 as [|d l1 IH]; intros s; simpl; [done|]. destruct (run_ddl d s); simpl; [apply IH|done]. Qed.

(** The schema is that of a prefix of [l], run once from [sk]. *)
Definition partly (l : list ddl) (sk s : schema) : Prop := ∃ p, p `prefix_of` l ∧ run_all p sk = Some s.

Lemma exec_fresh fail sk todo : ∀ dn n w w' n' r, run_all dn sk = Some (m_schema w) → exec_all fail todo n w = (w', n', r) →
  partly (dn ++ todo) sk (m_schema w') ∧ (r = inl tt → run_all (dn ++ todo) sk = Some (m_schema w')).
Proof.
  induction todo as [|d todo IH]; intros dn n w w' n' r Hd H; simpl in H.
  - injection H as <- _ <-. rewrite app_nil_r. split; [by exists dn|done].
  - unfold mbind, exec_ddl, mexec in H. destruct (fail n); [injection H as <- _ <-; split; [exists dn; split; [by eexists|done]|done]|].
    destruct (run_ddl d (m_schema w)) as [s1|] eqn:Hs; simpl in H; [|injection H as <- _ <-; split; [exists dn; split; [by eexists|done]|done]].
    apply (IH (dn ++ [d])) in H; [by rewrite <- app_assoc in H|]. rewrite run_all_app, Hd. simpl. by rewrite Hs.
Qed.

(** Statements run where a prefix of them already ran: at every moment the schema is
    that of a prefix run once, and at the end that of all of them. *)
Lemma exec_replay fail sk todo p : Forall additive p → ∀ dn s0 n w w' n' r,
  run_all dn sk = Some s0 → run_all p s0 = Some (m_schema w) → exec_all fail (p ++ todo) n w = (w', n', r) →
  partly (dn ++ p ++ todo) sk (m_schema w') ∧ (r = inl tt → run_all (dn ++ p ++ todo) sk = Some (m_schema w')).
Proof.
  induction 1 as [|d p Hd Hp IH]; intros dn s0 n w w' n' r H0 Hw H; simpl in *.
  - injection Hw as ->. by eapply exec_fresh.
  - apply bind_Some in Hw as (s1&H1&H2).
    assert (Hstay : partly (dn ++ d :: p ++ todo) sk (m_schema w)).
    { exists (dn ++ d :: p). split; [exists todo; by rewrite <- app_assoc|]. rewrite run_all_app, H0. simpl. by rewrite H1. }
    unfold mbind, exec_ddl, mexec in H. destruct (fail n); [injection H as <- _ <-; by split|].
    destruct (run_ddl d (m_schema w)) as [s3|] eqn:Hs; simpl in H; [|injection H as <- _ <-; by split].
    assert (s3 = m_schema w) as -> by (eapply run_ddl_again; [done|exact H1|by eapply run_all_extends|done]).
    apply (IH (dn ++ [d]) s1) in H; [by rewrite <- app_assoc in H|rewrite run_all_app, H0; simpl; by rewrite H1|done].
Qed.

Definition ups (ms : list Migration) : list ddl := concat ((λ m, default [] (Up m)) <$> ms).

(** At version [k]: the first [k] migrations ran, and the next one in part. *)
Definition progress (ms : list Migration) (s0 : schema) (k : nat) (s : schema) : Prop :=
  ∃ sk, run_all (ups (take k (sorted ms))) s0 = Some sk ∧
        partly (match sorted ms !! k with Some m => default [] (Up m) | None => [] end) sk s.

Lemma ups_snoc l m : ups (l ++ [m]) = ups l ++ default [] (Up m).
Proof. unfold ups. rewrite fmap_app, concat_app. simpl. by rewrite app_nil_r. Qed.

Lemma progress_up fail ms s0 k m n w w' n' r : Forall (λ m, Forall additive (default [] (Up m))) ms →
  sorted ms !! k = Some m → progress ms s0 k (m_schema w) → call fail (Up m) n w = (w', n', r) →
  match r with inl _ => progress ms s0 (S k) (m_schema w') | inr _ => True end ∧ progress ms s0 k (m_schema w').
Proof.
  intros Hadd Hm (sk&Hk&p&[q Hp]&Hr) H. rewrite Hm in Hp. destruct (Up m) as [l|] eqn:Hu; simpl in *.
  - assert (Hl : Forall additive l).
    { rewrite list.Forall_forall in Hadd. specialize (Hadd m). rewrite Hu in Hadd. apply Hadd. rewrite <- (merge_sort_Permutation before ms).
      by eapply list_elem_of_lookup_2. }
    subst l. apply Forall_app in Hl as [Hpa _]. destruct (exec_replay fail sk q p Hpa [] sk n w w' n' r eq_refl Hr H) as [H1 H2]. simpl in *.
    split; [|exists sk; split; [done|]; by rewrite Hm, Hu]. destruct r as [[]|]; [|done]. exists (m_schema w'). split.
    + rewrite (take_S_r _ _ _ Hm), ups_snoc, Hu, run_all_app, Hk. by apply H2.
    + exists []. split; [apply prefix_nil|done].
  - injection H as <- _ <-. split; [done|]. exists sk. split; [done|]. rewrite Hm, Hu. exists []. split; [done|]. by destruct p.
Qed.

(** C31. Interrupted upgrades converge: from any schema without a version table, after
    any number of upgrades that fail or die at any statement, an upgrade that reports
    success leaves exactly the schema that all the migrations give when each statement
    is run once, when the migrations only add. *)
Theorem upgrade_converges ms legacy s0 fails fail w' n :
  validate ms = inl tt → Forall (λ m, Forall additive (default [] (Up m))) ms →
  Upgrade fail ms legacy 0%nat (foldl (mrun ms legacy) (mkMW s0 None) (CUpgrade <$> fails)) = (w', n, inl tt) →
  run_all (ups (sorted ms)) s0 = Some (m_schema w').
Proof.
  intros Hv Hadd H.
  assert (Hgood : ∀ f k w w1 n r, good ms (progress ms s0) k w → Upgrade f ms legacy 0%nat w = (w1, n, r) →
    ∃ k', good ms (progress ms s0) k' w1 ∧ (k ≤ k')%nat ∧ (r = inl tt → k' = length ms)).
  { intros f k w w1 n1 r. apply Upgrade_good; [done|]. intros. by eapply progress_up. }
  assert (Hall : ∃ k, good ms (progress ms s0) k (foldl (mrun ms legacy) (mkMW s0 None) (CUpgrade <$> fails))).
  { assert (Hgen : ∀ w, (∃ k, good ms (progress ms s0) k w) → ∃ k, good ms (progress ms s0) k (foldl (mrun ms legacy) w (CUpgrade <$> fails))).
    { clear H. induction fails as [|f fails IH]; intros w (k&Hk); simpl; [by exists k|]. apply IH. destruct (Upgrade f ms legacy 0%nat w) as [[w1 n1] r] eqn:Hf.
      destruct (Hgood _ _ _ _ _ _ Hk Hf) as (k'&?&_). by exists k'. }
    apply Hgen. exists 0%nat. split_and!; [lia|apply recorded_none|]. exists s0. split; [done|]. exists []. split; [apply prefix_nil|done]. }
  destruct Hall as (k&Hk). destruct (Hgood _ _ _ _ _ _ Hk H) as (k'&(_&_&sk&Hsk&p&Hp&Hr)&_&E). rewrite (E eq_refl) in *.
  rewrite <- sorted_length in Hsk, Hp. rewrite take_ge in Hsk by done. rewrite lookup_ge_None_2 in Hp by done. apply prefix_nil_inv in Hp as ->. simpl in Hr. by injection Hr as <-.
Qed.

(** ** The SQLite store *)

#[export] Instance schema_eq : EqDecision schema. Proof. solve_decision. Defined.
#[export] Instance MW_eq : EqDecision MW. Proof. solve_decision. Defined.
#[export] Instance merr_eq : EqDecision merr. Proof. solve_decision. Defined.

Definition no_fail : nat → bool := λ _, false.
(** The process dies before statement [k]. *)
Definition dies_at (k : nat) : nat → bool := λ n, bool_decide (k ≤ n)%nat.
Definition new_db : MW := mkMW (mkSchema ∅ ∅) None.
Definition ready : MW := (Init no_fail new_db).1.

Fixpoint downgrades (n : nat) (w : MW) : MW :=
  match n with O => w | S n => downgrades n (SqliteDowngrade no_fail w).1 end.

(** A new database starts, a started one starts again unchanged, and after any
    number of downgrades the next start restores the same tables, columns, indexes and
    versions. *)
Theorem sqlite_schema_roundtrip :
  Init no_fail new_db = (ready, inl tt) ∧ Init no_fail ready = (ready, inl tt) ∧
  Forall (λ n, Init no_fail (downgrades n ready) = (ready, inl tt)) (seq 0 17).
Proof. cbv zeta. refine (proj1 (bool_decide_eq_true _) _). vm_compute. reflexivity. Qed.

(** The columns of migrations 14 to 16 are added by plain [ADD COLUMN]s: a process that
    dies between such a statement and the record of its version leaves a database on
    which every later start fails. *)
Example interrupted_start_stuck :
  let w := (Init (dies_at 98) new_db).1 in Init no_fail w = (w, inr MExec) ∧
  filter (λ k, (Init no_fail (Init (dies_at k) new_db).1).2 ≠ inl tt) (seq 85 20) = [91; 92; 93; 94; 96; 98; 99]%nat.
Proof. cbv zeta. refine (proj1 (bool_decide_eq_true _) _). vm_compute. reflexivity. Qed.

Lemma sqlite_additive : Forall (λ m, Forall additive (default [] (Up m))) migrations.
Proof. repeat (constructor; [by repeat constructor|]). constructor. Qed.

Lemma migrations_contiguous_witness :
  ∃ k, (k ≤ 16)%nat ∧ recorded k (foldl (mrun migrations "agents") new_db [CUpgrade (dies_at 60); CUpgrade no_fail; CDowngrade no_fail; CDowngrade (dies_at 3)]).
Proof. exact (proj1 (migrations_contiguous migrations "agents" (mkSchema ∅ ∅) _ (eq_refl : validate migrations = inl tt))). Defined.

(** Two starts that die, then one that does not. *)
Definition third_start : MW * nat * (unit + merr) :=
  Upgrade no_fail migrations "agents" 0%nat (foldl (mrun migrations "agents") new_db (CUpgrade <$> [dies_at 30; dies_at 62])).

Lemma third_start_ready : third_start = (ready, third_start.1.2, inl tt).
Proof. refine (proj1 (bool_decide_eq_true _) _). vm_compute. reflexivity. Qed.

Lemma upgrade_converges_witness : run_all (ups (sorted migrations)) (mkSchema ∅ ∅) = Some (m_schema ready).
Proof.
  exact (upgrade_converges migrations "agents" (mkSchema ∅ ∅) [dies_at 30; dies_at 62] no_fail ready third_start.1.2
           eq_refl sqlite_additive third_start_ready).
Defined.
